(* ===== verification/_CoqProject ===== *)
-Q . S2P
Prelude.v
Bits.v
CoreError.v
Endian.v
BitWriter.v
BitReader.v
BitIO.v
BoundedQueue.v
QueueThreads.v
StreamFramer.v
Handler.v
Transceiver.v
TransceiverInv.v
TransceiverSpec.v
StringEncoding.v
CharConv.v
AutoExpr.v
ExprParser.v
ExprParserSpec.v
ExprParserRoundtrip.v
Ast.v
AstBuilder.v
ImportResolver.v
XmlParser.v
XmlParserSpec.v
XmlRoundtrip.v
XmlChildRoundtrip.v
XmlFileRoundtrip.v
TypeResolver.v
ProtocolIndex.v
Validation.v
StructCycles.v
CaseOverlap.v
WireSizer.v
SessionAnalyzer.v
Names.v
TypeChecks.v
FieldChecks.v
Validator.v
ValidatorSpec.v
ValidatorTotal.v
FieldCodec.v
StructCodec.v
FrameCodec.v
TextCodec.v
TextCodecSpec.v
TextRoundtrip.v
TextSafety.v
ValueCodec.v
ScaledCodec.v
BitmapCodec.v
BitmapSpec.v
BitmapRoundtrip.v
BitmapSafety.v
ArrayCodec.v
ArraySpec.v
ArraySafety.v
Driver.v
SysCalls.v
SocketOps.v
TcpClient.v
TcpClientThreads.v
TcpClientSpec.v
TcpClientTermination.v
TcpClientData.v
TcpServer.v
TcpServerThreads.v
TcpServerSpec.v
TcpServerSafety.v
Udp.v
UdpThreads.v
UdpControl.v
UdpSpec.v
UdpSafety.v
MessageLog.v
