(* ===== verification/Prelude.v ===== *)
(** * Conduit: verification of the message runtime and of the message compiler

    Conduit exchanges binary messages between programs.  Messages are described
    in XML; the compiler [bgen] ([src/conduit/bgen]) turns the description into
    encoders and decoders, and the runtime library ([src/conduit/include] and
    [src/conduit/src]) carries the encoded messages.  On the way in, bytes go

      transport -> [Transceiver] -> [StreamFramer] -> session (decode)
                -> [BoundedQueue] -> worker threads -> [HandlerRegistry] -> user,

    and on the way out from [Transceiver::send] through the session (encode) to
    the transport.  Generated encoders and decoders are sequences of calls on
    [BitWriter] and [BitReader].  The compiler reads the files of a protocol,

      [resolve_imports] -> [build_protocol] -> [resolve_types] -> [validate]
                        -> [compute_wire_sizes] and [analyze_sessions] -> code,

    reading each file with [parse_bmdl_file], and hands one [Protocol] with its
    [TypeIndex] from phase to phase.

    ** Files

    Runtime library, bottom up:
    - [Prelude]: machine integers, undefined behaviour as [None], tactics, the
      hint database [conduit], generic lemmas.  [Bits]: bit strings, the
      abstract view of a byte buffer.
    - [CoreError]: [core/error.hpp], [core/error.cpp]; [Result] and its
      early-return macros as a monad.
    - [Endian]: [io/endian.hpp]; byte swaps, guarded loads and stores, half and
      48-bit floats, all on bit patterns.
    - [BitWriter], [BitReader]: [io/bit_writer.*], [io/bit_reader.*], one
      definition per method.  [w ⊨ bits] relates a writer to the bits written
      so far; [rest r] is what a reader has still to read.  [BitIO] runs
      sequences of both.
    - [BoundedQueue]: [queue/bounded_queue.hpp]; a ring buffer with head, tail,
      size, drop policy and counters; every method is one critical section.
      [QueueThreads]: the same methods called by any number of threads, with
      the two condition variables, as an interleaving step relation.
    - [StreamFramer]: [transceiver/stream_framer.*]; what the session promises
      the framer is the class [FrameSession].
    - [Handler]: [transceiver/handler.*], [transceiver/message_handler.hpp].
    - [Transceiver]: [transceiver/transceiver.*] with its configuration,
      statistics and events.  Peer contexts live in an explicit heap, because
      [peers_] owns them and [peer_map_] aliases them; a call is a computation
      in the monad [M] over the state, which records the observable events (bytes
      sent, callbacks, handlers, transports started, stopped, paused, resumed)
      and is undefined when the code would follow a dangling pointer.  The
      sessions and transports it calls are the classes [ISession] and
      [Transports].  [TransceiverInv]: the invariant of the peer tables and
      that every call keeps it.  [TransceiverSpec]: what each pipeline does.
    - [StringEncoding]: [string/encoding.hpp].
    - [SysCalls]: threads as trees of system calls and shared accesses, the rules
      a thread keeps ([wp]) and runs against given answers ([run]).
      [SocketOps]: [transport/socket_ops_posix.cpp] and [transport/poll_set.cpp].
    - [TcpClient]: [transport/tcp_client.cpp], its POSIX branch.
      [TcpClientThreads]: the rules of its I/O thread, of a sender and of the
      thread that starts and stops it, and that the code keeps them.
      [TcpClientSpec]: all threads together, interleaved at every call.
      [TcpClientTermination], [TcpClientData]: the loops end, and received bytes
      are handed on.
    - [TcpServer]: [transport/tcp_server.cpp], its POSIX branch, with the map of
      clients and the [ClientInfo] objects in it.  [TcpServerThreads]: the rules
      of its threads; the clients belong to the I/O thread while there is one and
      to the controlling thread otherwise.  [TcpServerSpec]: all threads together
      and the invariant.  [TcpServerSafety]: what follows from it.
    - [Udp]: [transport/udp.cpp], its POSIX branch, with multicast and the tables
      of peers.  [UdpThreads]: the rules of the owner of the tables, which is the
      I/O thread while there is one; [UdpControl]: those of senders and of the
      controlling thread.  [UdpSpec]: all threads together and the invariant.
      [UdpSafety]: what follows from it.
    - [MessageLog]: [transceiver/message_log.cpp], where entries go and their text.

    Message compiler:
    - [CharConv]: [<cctype>] in the C locale and [std::from_chars].
    - [AutoExpr]: [parser/auto_expr_parser.cpp], [analyzer/parse_utils.hpp].
    - [ExprParser]: [parser/expression_parser.cpp]; [ExprParserSpec] and
      [ExprParserRoundtrip] hold its theorems.
    - [Ast]: [model/ast.hpp], one record or variant per node, with the visitors
      the phases share.  [AstBuilder]: [model/ast_builder.cpp].
    - [ImportResolver]: [parser/import_resolver.cpp]; the file system and the
      XML reader are the record [Files].
    - [XmlParser]: [parser/xml_parser.cpp], from the document tree of the XML library
      to the AST, in a monad that collects errors.  [XmlParserSpec]: it answers, and
      locations are exact.  [XmlRoundtrip], [XmlChildRoundtrip], [XmlFileRoundtrip]:
      a printer for descriptions, and that the parser inverts it, bottom up: fields
      and types, nested children, whole files.
    - [TypeResolver]: [analyzer/type_resolver.*]; pointers into the protocol are
      positions in its lists.  [ProtocolIndex]: what the resolver promises to
      the phases after it, as the class [Indexes].
    - [Validation], [StructCycles], [CaseOverlap]: the shared helpers, the search
      for recursive types and the overlap check of [analyzer/validator.cpp].
    - [WireSizer]: [analyzer/wire_sizer.*].
    - [SessionAnalyzer]: [analyzer/session_analyzer.*].
    - [Names]: [codegen/name_utils.hpp].
    - [TypeChecks], [FieldChecks], [Validator]: the rest of
      [analyzer/validator.cpp], every check with its message: constants and types,
      single fields, and the recursion over structs, messages and frames, in a
      monad that collects errors and the type names used so far.
      [ValidatorSpec], [ValidatorTotal]: what acceptance guarantees, and that the
      validator returns.
    - [FieldCodec]: the reads and writes generated for a field
      ([codegen/cpp_structs_helpers.cpp], [codegen/cpp_types.cpp]), as program
      text and as operations on [BitReader] and [BitWriter].  [StructCodec]: the
      [encode] and [decode] generated for structs of numeric fields, reserved bits
      and alignment ([codegen/cpp_structs_encode.cpp],
      [codegen/cpp_structs_decode.cpp]), with the emitter's alignment tracker.
      [TextCodec]: the code generated for string and bytes fields, optional strings
      and declared string types ([codegen/cpp_types.cpp]), and structs that mix them
      with numbers; [TextCodecSpec], [TextRoundtrip], [TextSafety]: its proofs.
      [ValueCodec]: the code generated for one value of a plain number, an enum, a
      flag word, a string type or a flat struct, as a pair of encoder and decoder; the
      classes [Codes] and [SafeDecode] say what such a pair promises to the code that
      uses it.  [ScaledCodec]: fields with a scale and an offset, over the arithmetic
      of doubles.  [BitmapCodec]: the class of a bitmap struct, whose fields are
      announced by the bits of leading octets ([codegen/cpp_structs.cpp]);
      [BitmapSpec]: encoder and decoder agree on these octets; [BitmapRoundtrip],
      [BitmapSafety]: the whole class.  [ArrayCodec]: the loops generated for arrays
      ([codegen/cpp_structs_encode.cpp], [codegen/cpp_structs_decode.cpp]);
      [ArraySpec], [ArraySafety]: their proofs.
      [FrameCodec]: the [encode] of a frame class with its patched length
      ([codegen/cpp_structs.cpp]) and the framing functions of a session class
      ([codegen/cpp_session.cpp]), an instance of [FrameSession].
    - [Driver]: [main.cpp]; the command line and all phases in order, over the file
      system and the XML documents in it.

    ** What the theorems show

    - Memory safety.  No sequence of public calls, transport callbacks and
      worker steps makes the transceiver follow a dangling pointer
      ([transceiver_memory_safe]); no read of a hostile buffer leaves it
      ([reader_never_undefined]); the exact inputs on which the code is
      undefined are given where there are any ([read_bytes_undefined_iff],
      [write_sign_magnitude_undefined_iff], [literal_undefined_doubly_signed]).
    - The wire format.  Writing then reading any message is the identity
      ([wire_roundtrip]); the writer implements an abstract bit string, errors
      and patches included ([writer_refines_bits]); the fast paths equal the
      bit-by-bit loop ([write_bits_bit_by_bit]); the float conversions are exact one way and truncate the
      other; loads and stores, byte orders, decimal fields and string encodings
      round-trip.
    - The queue.  It refines a bounded FIFO under every policy
      ([queue_refines_fifo]), its counters add up, and its condition variables
      lose no wake-up ([no_lost_wakeup]).
    - Framing and delivery.  Frames do not depend on how the transport cuts the
      stream; clean streams are reassembled exactly; received messages reach
      the queue and then their handlers in order; [stop] drains the queue;
      dispatch follows the history of registrations.
    - The TCP client.  Under every interleaving of its threads and whatever the
      kernel answers, descriptors are used while they are open and closed in the
      end ([client_descriptors_safe]), callbacks follow the connection protocol
      ([client_callback_protocol]), concurrent messages stay whole
      ([client_sends_whole_messages]), received bytes are handed on in order
      ([received_data_handed_on]), and the threads end once
      they are told to and neither hold each other up nor deadlock
      ([client_threads_return]).
    - The TCP server.  Under every interleaving, no thread uses a closed
      descriptor or a destroyed client, touches the map without its mutex, locks
      a mutex twice or calls back with one held; the limit on clients holds, and
      [stop] releases everything ([server_memory_safe]).
    - The UDP transport.  The same for its descriptors, tables and mutexes, and
      that datagrams are handed on as those of the peer registered for their
      address and every peer reported connected is reported disconnected
      ([udp_safe]); what senders put on the network is what their calls report
      ([udp_sends_exact]); its threads never wait for each other in a circle
      ([udp_never_deadlocks]).
    - The message log.  Every entry goes to the console and the file it is meant for,
      in order ([message_log_exact]); no peer name leads out of the directory
      ([peer_chooses_no_directory]).
    - The parsers.  Every input gets an answer, with fuel that is proved to be
      enough; printing and parsing again is the identity ([parse_print],
      [auto_expr_roundtrip], [literal_roundtrip]).  The XML parser answers on every
      document whose sizes add up within an [int] ([xml_parser_total]), reads every
      description back as it was written ([xml_roundtrip]) and reports positions
      exactly ([location_exact]).
    - The compiler's front end.  Import resolution answers for every file
      system, cycles included, and orders the files ([imports_resolved]); the
      byte order of a field is traced from the files to the resolved protocol
      ([effective_byte_order]); the resolver accepts exactly the well-formed
      protocols ([resolve_types_exact]); overlapping cases
      are reported exactly when there are any ([case_overlap_exact]), recursive types
      exactly when there are any other than through the [type] of a choice branch
      ([struct_cycles_exact]); wire sizes are those of the layout where no reference
      names a bitmap struct ([wire_sizes_exact]).  These results compose: the session analysis, which
      has no guard against recursion, returns on what the earlier phases accept
      ([sessions_exact]); the length field is read at the wire offset the layout
      gives it ([length_field_located]); sync bytes are what the runtime's
      [BitWriter] puts on the wire ([sync_bytes_written]).  The validator returns
      on everything that is not recursive ([validator_returns]), and what it
      accepts gives at most one session, in which an id and a direction select one
      leaf type ([accepted_ids_select_one_leaf]).
      From the command line to the call of a back end, the phases fit together
      ([compiler_delivers]), and a namespace is accepted exactly if it is one
      ([namespace_exact]).
    - Generated code.  The reads generated for a struct of numbers deliver what
      the generated writes were given, in every wire encoding, with exceptions that
      are stated and shown to be needed ([generated_codec_roundtrip]), in as many bits
      as the wire sizer computes ([encoder_writes_wire_size]).  Text comes back too, in every layout
      that can carry it ([text_struct_roundtrip]), and the decoder of a string is
      defined on every buffer ([string_decoder_safe]).  So do the fields of a bitmap
      struct, those that are present and no others ([bitmap_roundtrip]), the elements
      of an array, whatever gives their number ([array_roundtrip]), and the raw
      integers of a field scaled by a power of two ([scaled_power_exact]); the
      decoders of bitmap structs and of arrays end on every buffer and stay inside it
      ([bitmap_decoder_safe], [array_decoder_total]).  Compiler and runtime together: the
      frames a generated class encodes are the frames [StreamFramer] finds in the
      stream with the framing functions generated from the same description
      ([generated_frames_recovered]).
    - Deviations found on the way are theorems too: a dynamic peer can take the
      name of a configured one, a capacity of zero makes back-pressure
      permanent, messages evicted by [DropOldest] are not counted as dropped
      ([oldest_evicted_silently]), [stop] of the client can shut down a socket that is closed
      already ([stop_shutdown_race]), a lost connection is followed by an attempt
      without delay ([reconnect_without_delay]), [stop] of the server can wait for
      a sender that only it would wake ([stop_waits_for_blocked_sender]), [start] of
      the UDP transport races with [send] ([start_races_with_send]) and steady
      traffic keeps its idle peers ([busy_never_evicts]), unary
      operators escape the nesting limit, and the builder ignores the documented
      priority of typed handlers.  In the compiler, a
      reference to a bitmap struct is sized without its presence bits
      ([bitmap_reference_sized]), an unaligned float without its padding
      ([unaligned_float_padded]), a branch that refers to its own struct is not
      searched ([branch_not_searched]), and sync bytes and length offsets are
      wrong for some headers ([inline_sync_one_byte], [late_field_in_sync],
      [raw_bytes_not_counted]).  The validator does not return on some recursive
      structs ([endless_not_validated], [endless_array_not_validated]) and compares
      ids as text ([same_number_two_spellings]).  The XML parser adds sizes without a
      check ([size_sum_overflows]), reads a count from the front of its text only
      ([count_front_only]) and ignores misspelt attributes of some elements
      ([misspelt_bound_ignored]); the namespace of a document is not checked
      ([unchecked_namespace]) and that of an import has no effect
      ([import_ns_ignored]).  In generated code, signed
      little-endian words are swapped ([signed_little_endian_swapped]), the
      alignment trackers of encoder and decoder can differ
      ([optional_nibble_misread], [nested_nibble_padded]), and the length of some
      frames is not found again ([payload_length_with_footer],
      [payload_length_not_last], [odd_length_in_words], [reserved_not_written],
      [narrow_length]).  Encoder and decoder of a string disagree where it has both a
      length and a terminator ([length_and_terminator_disagree]), where an optional
      one has a prefix or a terminator ([optional_prefix_missing],
      [optional_terminator_missing]), where text with a terminator needs conversion
      ([terminated_ebcdic_not_converted]) and at the limits of terminators, packed
      characters and prefixes ([maximal_text_keeps_terminator],
      [final_cr_swallows_terminator], [packed_at_sign_lost],
      [packed_null_padding_ignored], [gap_behind_packed_text], [long_text_cut],
      [prefix_overflows]); bytes behind a length prefix are lost
      ([prefixed_bytes_lost]).  A decimal scale loses a unit
      ([decimal_scale_loses_unit]).  Octets of a little-endian bitmap with an extension
      bit are reversed past what was read ([little_ext_overruns]) and announce other
      fields ([little_ext_loses_fields]); arrays among the children of a bitmap struct
      are not collected ([array_not_collected]), nor is padding
      ([bitmap_padding_ignored]), and a choice may take the extension bit
      ([choice_on_extension_bit]).  Elements without bits keep a loop to the end of the
      buffer going ([empty_elements_never_end]), padding is read as an element
      ([padding_read_as_element]), elements of a declared float type are cast to
      integers ([float_elements_truncated], [negative_float_undefined]), an empty array
      with continuation bits writes nothing ([empty_fx_array]), and the encoder checks
      neither a fixed count ([fixed_count_not_checked]) nor a byte length
      ([byte_length_ignored]).

    ** Conventions, bounds and fuel

    A [w]-bit unsigned integer is a [Z] reduced with [wrap w]; sizes and
    positions of the bit-level I/O wrap at 64 bits.  Indices that stay below
    the length of a container in memory are [nat].  Doubles (back-pressure) are
    the [spec_float] of the Standard Library at 53 bits.  [None] is undefined
    behaviour, or spent fuel, which the theorems rule out:
    - the framer's loop gets one round per buffered byte and one more, since
      every round that goes on consumes a byte;
    - the loops of the expression parser get the length of the input plus two,
      since every round consumes a token; nested [parse_or] calls get
      [MAX_EXPR_DEPTH + 1], the depth guard of the code;
    - [clear] gets the size of the queue; [read_bits] one round per bit; the
      normalisation of a half ten shifts; [next_peer_id] the 256 attempts of
      the code, which find a free id while at most 254 peers are live (the
      condition [allowed] puts on calls that create a peer);
    - searches through references get the number of structs and messages plus
      one, since a name is entered at most once along a path; the fixed-point
      loop of the wire sizer two rounds, since the second changes nothing;
      import resolution the 65 levels of the code; the search through inline
      fields, which nothing bounds in the code, as much as [sessions_exact]
      says there is; the same for the searches of the validator
      ([validator_returns]); reserved bits are split in at most one chunk per bit; the
      loops that look for a terminator get the rounds the code gives them;
    - the loop over the octets of a bitmap gets one round per byte of the buffer and
      one more, the loops over the elements of an array one per bit and one more
      ([rounds]), since a round that goes on reads a byte or a bit;
    - the loops of the TCP client get one round per call made before shutdown;
      the safety theorems of client, server and UDP hold for any fuel;
    - numerals have at most 64 digits, enough for 64-bit values in any base.

    Parameters, standing for code the library does not contain: sessions
    ([ISession], generated code), transports ([Transports]), user callbacks
    ([throws] says which invocations raise), the default and raw payloads of
    [std::any] ([any0], [raw_any]) and [std::format] of a double; the file
    system and the reader of a file ([Files]); loading an XML document and its
    conversion of text to a double ([load_file], [load_buffer], [as_double]); the
    kernel's answers ([exec], [Env]),
    [strerror], [inet_pton] and [inet_ntop]; [std::sort], which leaves the order of
    equal elements open ([SortsByLo]); the value of a length-from expression; which texts [std::stod] converts; whether
    [char] is signed.  The classes of nested structs, wrapped types and variants
    inside bitmaps and arrays are parameters too, with the promises [ClassCodes],
    [VariantCodes] and [SafeDecode]; [bitmap_class] is one of them.  Multiplications
    and additions of doubles are rounded one by one, as without contraction to a fused
    operation; [reserve] of a checked count is taken to find memory.

    ** Not modelled

    Log output and the calls of the message log in the transceiver; time stamps and
    source locations of errors; the dump of the AST as text;
    the shutdown watchdog, which only logs; the serial transport and the Windows
    branches; the C ABI and JNI bridges; the XML library; of the C++ generator, choices and
    extension blocks (text and arrays inside them included), the classes of scaled
    types, constraint checks, accessors, JSON and the dispatch of a session; the
    Java and Python generators, which emit the same codecs in other languages.
    Warnings of the validator, which change no result, are left out.  Calls on a
    transceiver are atomic here, which the code ensures for the peer tables with a
    mutex and for the queue with another. *)

From stdpp Require Import base numbers list strings pretty gmap.
From Stdlib Require Import ZArith Lia.

Open Scope Z_scope.

(** ** Machine integers

    A [w]-bit unsigned integer is a [Z] kept in [0, 2^w) by [wrap w]; signed
    results are read back with [signed].  [size_t] is 64 bits wide. *)

Definition wrap (w x : Z) : Z := x mod 2 ^ w.
Definition signed (w x : Z) : Z := if 2 ^ (w - 1) <=? x then x - 2 ^ w else x.

Abbreviation size_w := 64 (only parsing).
Definition SIZE_MAX : Z := 2 ^ 64 - 1.
Definition sz (x : Z) : Z := wrap size_w x.
Definition u8 (x : Z) : Z := wrap 8 x.

(** Length of a container as a [size_t]. *)
Definition len {A} (l : list A) : Z := Z.of_nat (length l).

Definition is_byte (b : Z) : Prop := 0 <= b < 256.

Global Instance is_byte_dec b : Decision (is_byte b).
Proof. unfold is_byte. apply _. Defined.

(** ** Undefined behaviour

    A C++ expression whose behaviour the language leaves undefined (an index
    out of range, a shift by the width or more) evaluates to [None]; the
    [option] monad of stdpp threads it. *)

Definition at_ (l : list Z) (i : Z) : option Z :=
  if (0 <=? i) then l !! Z.to_nat i else None.

Definition store (l : list Z) (i : Z) (f : Z -> Z) : option (list Z) :=
  b ← at_ l i; Some (<[Z.to_nat i := f b]> l).

(** [1ULL << n]: undefined when [n] is not below the width. *)
Definition shl1_64 (n : Z) : option Z :=
  if (0 <=? n) && (n <? 64) then Some (Z.shiftl 1 n) else None.

(** ** Tactics of the development *)

Ltac destruct_if :=
  match goal with
  | |- context [if ?b then _ else _] => destruct b eqn:?
  end.

Ltac bool_to_prop :=
  repeat match goal with
  | H : (_ && _)%bool = true |- _ => apply andb_true_iff in H as [? ?]
  | H : (_ || _)%bool = false |- _ => apply orb_false_iff in H as [? ?]
  | H : (_ <? _) = true |- _ => apply Z.ltb_lt in H
  | H : (_ <? _) = false |- _ => apply Z.ltb_ge in H
  | H : (_ <=? _) = true |- _ => apply Z.leb_le in H
  | H : (_ <=? _) = false |- _ => apply Z.leb_gt in H
  | H : (_ =? _) = true |- _ => apply Z.eqb_eq in H
  | H : (_ =? _) = false |- _ => apply Z.eqb_neq in H
  | H : negb _ = true |- _ => apply negb_true_iff in H
  | H : negb _ = false |- _ => apply negb_false_iff in H
  end.

(** Arithmetic with lengths. *)
Ltac len_lia :=
  unfold len in *;
  repeat first
    [ rewrite length_app in * | rewrite length_replicate in *
    | rewrite length_cons in * | rewrite length_take in *
    | rewrite length_drop in * | rewrite length_insert in * ];
  simpl length in *; lia.

(** Linear arithmetic with division and remainder by constants. *)
Ltac div_lia := Z.to_euclidean_division_equations; first [lia | nia].

Create HintDb conduit discriminated.

(** ** Lemmas on machine integers *)

Lemma pow2_pos n : 0 <= n -> 0 < 2 ^ n.
Proof. intros. apply Z.pow_pos_nonneg; lia. Qed.

Lemma wrap_range w x : 0 <= w -> 0 <= wrap w x < 2 ^ w.
Proof. intros Hw. apply Z.mod_pos_bound, pow2_pos, Hw. Qed.

Lemma wrap_small w x : 0 <= x < 2 ^ w -> wrap w x = x.
Proof. apply Z.mod_small. Qed.

Lemma sz_small x : 0 <= x <= SIZE_MAX -> sz x = x.
Proof. unfold SIZE_MAX. intros. apply wrap_small. lia. Qed.

Lemma sz_range x : 0 <= sz x <= SIZE_MAX.
Proof. pose proof (wrap_range 64 x). unfold sz, SIZE_MAX. lia. Qed.

Lemma u8_byte x : is_byte (u8 x).
Proof. pose proof (wrap_range 8 x). unfold is_byte, u8. lia. Qed.

Lemma u8_id b : is_byte b -> u8 b = b.
Proof. intros. apply wrap_small. exact H. Qed.

Lemma len_nonneg {A} (l : list A) : 0 <= len l.
Proof. unfold len. lia. Qed.

Lemma len_nil {A} : len (@nil A) = 0.
Proof. reflexivity. Qed.

Lemma len_app {A} (l k : list A) : len (l ++ k) = len l + len k.
Proof. unfold len. rewrite length_app. lia. Qed.

Lemma len_cons {A} (x : A) l : len (x :: l) = 1 + len l.
Proof. unfold len. simpl length. lia. Qed.

Lemma of_nat_mod8 n : Z.of_nat n mod 8 = Z.of_nat (n mod 8).
Proof. by rewrite Nat2Z.inj_mod. Qed.

Lemma of_nat_div8 n : Z.of_nat n / 8 = Z.of_nat (n / 8).
Proof. by rewrite Nat2Z.inj_div. Qed.

Lemma of_nat_mod_eqb n k : (Z.of_nat n mod Z.of_nat k =? 0) = Nat.eqb (n mod k) 0.
Proof.
  rewrite <- Nat2Z.inj_mod. apply eq_true_iff_eq. rewrite Z.eqb_eq, Nat.eqb_eq. lia.
Qed.

#[export] Hint Resolve u8_byte len_nonneg sz_range : conduit.

(** ** Exhaustive checks over [n]-bit values

    [forall_bits n v P] tests [P] on the [2^n] numbers whose leading digits
    are [v]; it reflects a universally quantified statement. *)
Fixpoint forall_bits (n : nat) (v : Z) (P : Z -> bool) : bool :=
  match n with
  | O => P v
  | S n' => if forall_bits n' (Z.double v) P
            then forall_bits n' (Z.succ_double v) P else false
  end.

Lemma forall_bits_spec n v P :
  forall_bits n v P = true ->
  forall x, v * 2 ^ Z.of_nat n <= x < (v + 1) * 2 ^ Z.of_nat n -> P x = true.
Proof.
  revert v. induction n as [|n IH]; intros v H x Hx; cbn [forall_bits] in H.
  - replace x with v; [done|lia].
  - destruct (forall_bits n (Z.double v) P) eqn:E; [|done].
    rewrite Nat2Z.inj_succ, Z.pow_succ_r in Hx by lia.
    rewrite Z.double_spec in E. rewrite Z.succ_double_spec in H.
    destruct (Z.lt_ge_cases x ((2 * v + 1) * 2 ^ Z.of_nat n)).
    + apply (IH _ E). lia.
    + apply (IH _ H). lia.
Qed.

Lemma forall_bits_range n P x :
  forall_bits n 0 P = true -> 0 <= x < 2 ^ Z.of_nat n -> P x = true.
Proof. intros H Hx. apply (forall_bits_spec _ _ _ H). lia. Qed.

(** A concatenation is empty if all its parts are. *)
Lemma flat_map_nil {A B} (g : A -> list B) l : flat_map g l = [] <-> Forall (fun x => g x = []) l.
Proof. induction l as [|x l IH]; cbn; [by split; [constructor|]|]. by rewrite app_nil, IH, Forall_cons. Qed.
