(* ===== verification/Bits.v ===== *)
(** * Bit strings

    The abstract view both halves of the bit-level I/O refine: a byte buffer
    is the list of its bits, most significant bit of each byte first
    ([bytes_bits]); an [n]-bit field holding [v] is [to_bits n v]; a bit string
    is read back as a number by [of_bits]. *)

From stdpp Require Import base numbers list.
From Stdlib Require Import ZArith Lia.
From S2P Require Import Prelude.

Open Scope Z_scope.

(** Low [n] bits of [v], most significant first. *)
Fixpoint to_bits (n : nat) (v : Z) : list bool :=
  match n with
  | O => []
  | S n' => Z.testbit v (Z.of_nat n') :: to_bits n' v
  end.

Definition of_bits (l : list bool) : Z :=
  fold_left (fun acc b => 2 * acc + Z.b2z b) l 0.

Definition bytes_bits (d : list Z) : list bool := concat (map (to_bits 8) d).

Abbreviation zeros n := (replicate n false).

(** ** [to_bits] *)

Lemma length_to_bits n v : length (to_bits n v) = n.
Proof. induction n; simpl; auto. Qed.

Lemma len_to_bits n v : len (to_bits n v) = Z.of_nat n.
Proof. unfold len. by rewrite length_to_bits. Qed.

Lemma to_bits_ext n v w :
  (forall i, 0 <= i < Z.of_nat n -> Z.testbit v i = Z.testbit w i) ->
  to_bits n v = to_bits n w.
Proof.
  induction n as [|n IH]; intros H; simpl; [done|].
  f_equal; [apply H; lia | apply IH; intros; apply H; lia].
Qed.

Lemma to_bits_wrap n w v : Z.of_nat n <= w -> to_bits n (wrap w v) = to_bits n v.
Proof.
  intros Hw. apply to_bits_ext; intros i Hi.
  unfold wrap. apply Z.mod_pow2_bits_low. lia.
Qed.

Lemma to_bits_u8 v : to_bits 8 (u8 v) = to_bits 8 v.
Proof. by apply to_bits_wrap. Qed.

Lemma to_bits_app n m v :
  to_bits (n + m) v = to_bits n (Z.shiftr v (Z.of_nat m)) ++ to_bits m v.
Proof.
  induction n as [|n IH]; simpl; [done|].
  rewrite IH. f_equal. rewrite Z.shiftr_spec by lia. f_equal. lia.
Qed.

Lemma to_bits_lor n v w :
  to_bits n (Z.lor v w) = zip_with orb (to_bits n v) (to_bits n w).
Proof. induction n as [|n IH]; simpl; [done|]. by rewrite Z.lor_spec, IH. Qed.

Lemma to_bits_0 n : to_bits n 0 = zeros n.
Proof. induction n; simpl; [done|]. by rewrite Z.testbit_0_l, IHn. Qed.

Lemma to_bits_shiftl n k v :
  to_bits (n + k) (Z.shiftl v (Z.of_nat k)) = to_bits n v ++ zeros k.
Proof.
  rewrite to_bits_app. f_equal.
  - rewrite Z.shiftr_shiftl_l by lia. by rewrite Z.sub_diag, Z.shiftl_0_r.
  - rewrite <- to_bits_0. apply to_bits_ext; intros i Hi.
    rewrite Z.shiftl_spec_low by lia. by rewrite Z.testbit_0_l.
Qed.

Lemma testbit_small k v i : 0 <= v < 2 ^ k -> k <= i -> Z.testbit v i = false.
Proof.
  intros Hv Hi. destruct (Z.leb_spec 0 k) as [Hk|Hk].
  - rewrite <- (Z.mod_small v (2 ^ k)) by done. by apply Z.mod_pow2_bits_high.
  - rewrite Z.pow_neg_r in Hv by lia. lia.
Qed.

Lemma to_bits_small n k v :
  0 <= v < 2 ^ Z.of_nat k -> to_bits (n + k) v = zeros n ++ to_bits k v.
Proof.
  intros Hv. rewrite to_bits_app. f_equal. rewrite <- to_bits_0.
  apply to_bits_ext; intros i Hi. rewrite Z.testbit_0_l, Z.shiftr_spec by lia.
  apply testbit_small with (Z.of_nat k); [done|lia].
Qed.

(** ** [of_bits] *)

Lemma of_bits_acc l acc :
  fold_left (fun acc b => 2 * acc + Z.b2z b) l acc
  = acc * 2 ^ len l + of_bits l.
Proof.
  unfold of_bits. revert acc. induction l as [|b l IH]; intros acc; cbn [fold_left].
  - rewrite len_nil. lia.
  - rewrite IH, (IH (2 * 0 + Z.b2z b)), len_cons, Z.pow_add_r by (auto with conduit; lia).
    lia.
Qed.

Lemma of_bits_app l k : of_bits (l ++ k) = of_bits l * 2 ^ len k + of_bits k.
Proof. unfold of_bits at 1. rewrite fold_left_app. apply of_bits_acc. Qed.

Lemma of_bits_cons b l : of_bits (b :: l) = Z.b2z b * 2 ^ len l + of_bits l.
Proof. exact (of_bits_app [b] l). Qed.

Lemma of_bits_range l : 0 <= of_bits l < 2 ^ len l.
Proof.
  induction l as [|b l IH]; [done|].
  rewrite of_bits_cons, len_cons, Z.pow_add_r by (auto with conduit; lia).
  destruct b; simpl Z.b2z; lia.
Qed.

Lemma of_bits_to_bits n v : of_bits (to_bits n v) = v mod 2 ^ Z.of_nat n.
Proof.
  induction n as [|n IH]; [by rewrite Z.mod_1_r|].
  simpl to_bits. rewrite of_bits_cons, IH. unfold len. rewrite length_to_bits.
  rewrite Nat2Z.inj_succ, Z.pow_succ_r, (Z.mul_comm 2) by lia.
  pose proof (pow2_pos (Z.of_nat n)).
  rewrite Z.rem_mul_r by lia. rewrite Z.testbit_spec' by lia. lia.
Qed.

Lemma to_bits_of_bits l : to_bits (length l) (of_bits l) = l.
Proof.
  induction l as [|b l IH]; [done|].
  simpl length. simpl to_bits. rewrite of_bits_cons.
  pose proof (of_bits_range l) as Hr. fold (len l).
  f_equal.
  - apply Z.b2z_inj. rewrite Z.testbit_spec' by (auto with conduit).
    rewrite Z.div_add_l by (apply Z.pow_nonzero; auto with conduit; lia).
    rewrite Z.div_small by done. rewrite Z.add_0_r.
    apply Z.mod_small. destruct b; simpl; lia.
  - etransitivity; [|exact IH]. apply to_bits_ext; intros i Hi.
    rewrite <- (Z.mod_pow2_bits_low (_ + _) (len l)) by (unfold len; lia).
    rewrite Z.add_comm, Z.mod_add by (apply Z.pow_nonzero; auto with conduit; lia).
    by rewrite Z.mod_small.
Qed.

Lemma of_bits_zeros n : of_bits (zeros n) = 0.
Proof. induction n; [done|]. simpl. by rewrite of_bits_cons, IHn. Qed.

(** ** [bytes_bits] *)

Lemma bytes_bits_app d e : bytes_bits (d ++ e) = bytes_bits d ++ bytes_bits e.
Proof. unfold bytes_bits. by rewrite map_app, concat_app. Qed.

Lemma bytes_bits_snoc d b : bytes_bits (d ++ [b]) = bytes_bits d ++ to_bits 8 b.
Proof. by rewrite bytes_bits_app. Qed.

Lemma bytes_bits_cons b d : bytes_bits (b :: d) = to_bits 8 b ++ bytes_bits d.
Proof. reflexivity. Qed.

Lemma length_bytes_bits d : length (bytes_bits d) = (8 * length d)%nat.
Proof.
  induction d; [done|].
  rewrite bytes_bits_cons, length_app, length_to_bits, IHd. simpl; lia.
Qed.

Lemma len_bytes_bits d : len (bytes_bits d) = 8 * len d.
Proof. unfold len. rewrite length_bytes_bits. lia. Qed.

Lemma drop_bytes_bits n d : drop (8 * n) (bytes_bits d) = bytes_bits (drop n d).
Proof.
  revert d. induction n as [|n IH]; intros d; [done|].
  destruct d as [|b d]; [by rewrite drop_nil|].
  rewrite bytes_bits_cons, Nat.mul_succ_r, Nat.add_comm.
  rewrite <- drop_drop, drop_app_length' by (by rewrite length_to_bits).
  apply IH.
Qed.

Lemma take_bytes_bits n d : take (8 * n) (bytes_bits d) = bytes_bits (take n d).
Proof.
  revert d. induction n as [|n IH]; intros d; [done|].
  destruct d as [|b d]; [by rewrite take_nil|].
  rewrite bytes_bits_cons, Nat.mul_succ_r, Nat.add_comm.
  rewrite take_app_add' by (by rewrite length_to_bits). by rewrite IH.
Qed.

Lemma to_bits_8_inj b c : is_byte b -> is_byte c -> to_bits 8 b = to_bits 8 c -> b = c.
Proof.
  intros Hb Hc H. apply (f_equal of_bits) in H. rewrite !of_bits_to_bits in H.
  change (2 ^ Z.of_nat 8) with 256 in H. unfold is_byte in *.
  by rewrite !Z.mod_small in H.
Qed.

(** A buffer is determined by its bits. *)
Lemma bytes_bits_inj d e :
  Forall is_byte d -> Forall is_byte e -> bytes_bits d = bytes_bits e -> d = e.
Proof.
  intros Hd. revert e. induction Hd as [|b d Hb Hd IH]; intros e He H.
  - destruct e; [done|]. by apply (f_equal length) in H.
  - destruct He as [|c e Hc He]; [by apply (f_equal length) in H|].
    rewrite !bytes_bits_cons in H. apply app_inj_1 in H as [H1 H2]; [|by rewrite !length_to_bits].
    f_equal; [by apply to_bits_8_inj | by apply IH].
Qed.

(** ** Or-ing a chunk into the zero tail of a byte *)

Lemma zip_orb_zeros_r l n : length l = n -> zip_with orb l (zeros n) = l.
Proof.
  intros <-. induction l as [|b l IH]; [done|]. simpl. by rewrite orb_false_r, IH.
Qed.

Lemma zip_orb_zeros_l l n : length l = n -> zip_with orb (zeros n) l = l.
Proof. intros <-. induction l as [|b l IH]; [done|]. simpl. by rewrite IH. Qed.

Lemma zeros_app n m : zeros n ++ zeros m = zeros (n + m).
Proof. by rewrite replicate_add. Qed.

(** A [k]-bit value shifted to sit at the top of the low [pad] bits. *)
Lemma to_bits_8_chunk k pad x :
  (k <= pad <= 8)%nat -> 0 <= x < 2 ^ Z.of_nat k ->
  to_bits 8 (Z.shiftl x (Z.of_nat (pad - k)))
  = zeros (8 - pad) ++ to_bits k x ++ zeros (pad - k).
Proof.
  intros Hk Hx. replace 8%nat with ((8 - pad + k) + (pad - k))%nat at 1 by lia.
  by rewrite to_bits_shiftl, to_bits_small, app_assoc.
Qed.

Lemma or_chunk_byte hi b k pad x :
  to_bits 8 b = hi ++ zeros pad -> (k <= pad <= 8)%nat -> 0 <= x < 2 ^ Z.of_nat k ->
  to_bits 8 (u8 (Z.lor b (Z.shiftl x (Z.of_nat (pad - k)))))
  = hi ++ to_bits k x ++ zeros (pad - k).
Proof.
  intros Hb Hk Hx. unfold u8. rewrite to_bits_wrap, to_bits_lor by lia.
  rewrite Hb, to_bits_8_chunk by done.
  assert (length hi = (8 - pad)%nat) as Hhi.
  { apply (f_equal length) in Hb. rewrite length_to_bits, length_app, length_replicate in Hb. lia. }
  rewrite zip_with_app by (by rewrite length_replicate).
  rewrite zip_orb_zeros_r by done.
  rewrite zip_orb_zeros_l by (rewrite length_app, length_to_bits, length_replicate; lia).
  done.
Qed.

Lemma to_bits_land_ones k v : to_bits k (Z.land v (Z.shiftl 1 (Z.of_nat k) - 1)) = to_bits k v.
Proof.
  rewrite Z.shiftl_1_l. apply to_bits_ext; intros i Hi.
  rewrite Z.sub_1_r, <- Z.ones_equiv, Z.land_spec, Z.ones_spec_low by lia.
  apply andb_true_r.
Qed.

Lemma land_ones_range k v : 0 <= k -> 0 <= Z.land v (Z.shiftl 1 k - 1) < 2 ^ k.
Proof.
  intros. rewrite Z.shiftl_1_l, Z.sub_1_r, <- Z.ones_equiv, Z.land_ones by done.
  apply Z.mod_pos_bound, pow2_pos. done.
Qed.

(** ** Padding to a byte boundary *)

Definition pad8 (n : nat) : nat := ((8 - n mod 8) mod 8)%nat.
Definition align8 (bits : list bool) : list bool := bits ++ zeros (pad8 (length bits)).

Lemma pad8_lt n : (pad8 n < 8)%nat.
Proof. unfold pad8. apply Nat.mod_upper_bound. lia. Qed.

Lemma align8_len bits : len (align8 bits) = len bits + Z.of_nat (pad8 (length bits)).
Proof. unfold align8. rewrite len_app. unfold len. by rewrite length_replicate. Qed.

Lemma align8_aligned bits : (length bits mod 8 = 0)%nat -> align8 bits = bits.
Proof. intros H. unfold align8, pad8. rewrite H. simpl. apply app_nil_r. Qed.

Lemma align8_mod bits : (length (align8 bits) mod 8 = 0)%nat.
Proof.
  unfold align8, pad8. rewrite length_app, length_replicate.
  pose proof (Nat.div_mod_eq (length bits) 8) as E.
  pose proof (Nat.mod_upper_bound (length bits) 8).
  set (m := (length bits mod 8)%nat) in *. set (q := (length bits / 8)%nat) in *.
  rewrite E. rewrite <- Nat.add_assoc, Nat.add_comm, Nat.mul_comm, Nat.Div0.mod_add.
  clearbody m. do 8 (destruct m as [|m]; [done|]). lia.
Qed.

(** ** Decimal nibbles and sign-magnitude *)

(** [n] decimal digits of [v] as nibbles, least significant first. *)
Fixpoint bcd (n : nat) (v : Z) : Z :=
  match n with
  | O => 0
  | S n' => v mod 10 + 16 * bcd n' (v / 10)
  end.

Lemma bcd_range n v : 0 <= bcd n v < 2 ^ (4 * Z.of_nat n).
Proof.
  revert v. induction n as [|n IH]; intros v; [simpl; lia|]. cbn [bcd].
  specialize (IH (v / 10)).
  replace (4 * Z.of_nat (S n)) with (4 + 4 * Z.of_nat n) by lia. rewrite Z.pow_add_r by lia.
  pose proof (Z.mod_pos_bound v 10). lia.
Qed.

(** Sign bit in front of a magnitude. *)
Definition sign_bit (v k : Z) : Z := if v <? 0 then 2 ^ k else 0.
