(* ===== verification/CoreError.v ===== *)
(** * Core errors and results

    Models [conduit/include/conduit/core/error.hpp] and
    [conduit/src/core/error.cpp]: the error codes with their numeric values,
    the category and severity predicates, context chaining, the short
    formatter, and [Result<T>] with the early-return macros as a monad.  The
    source location and the time stamp of an [Error] are not modelled: no
    operation but the long formatter reads them. *)

From stdpp Require Import base numbers list strings.
From Stdlib Require Import ZArith Lia.
From S2P Require Import Prelude.

Open Scope Z_scope.

Inductive ErrorCode :=
  (* Decode errors (100-199) *)
  | BufferUnderrun | InvalidFieldValue | ConstraintViolation | UnknownEnumValue
  | UnknownDiscriminator | ExactConsumptionFailed | NegativeLength
  | DecodingFailed | UnknownTypeId | MaxLengthExceeded | StringEncodingError
  | ConstraintViolationDeferred
  (* Encode errors (200-299) *)
  | EncodeConstraintViolation | MissingRequiredField | EncodingFailed
  | BufferOverrun | StringTooLong | DirectionViolation
  (* Connection errors (300-399) *)
  | ConnectionRefused | ConnectionTimeout | ConnectionReset | ConnectionClosed
  | HostNotFound | NetworkUnreachable | SocketError
  (* Transceiver errors (400-499) *)
  | NotRunning | AlreadyRunning | PeerNotFound | QueueFull | InvalidConfig
  | MultiplePeers | UnsupportedMessageType | BatchNotSupported
  (* Internal errors (900-999) *)
  | InternalError | NotImplemented | InvalidArgument | InvalidState | Timeout.

Global Instance ErrorCode_eq_dec : EqDecision ErrorCode.
Proof. solve_decision. Defined.

(** [static_cast<int>(code)]. *)
Definition code_value (c : ErrorCode) : Z :=
  match c with
  | BufferUnderrun => 100 | InvalidFieldValue => 101 | ConstraintViolation => 102
  | UnknownEnumValue => 103 | UnknownDiscriminator => 104
  | ExactConsumptionFailed => 105 | NegativeLength => 106 | DecodingFailed => 107
  | UnknownTypeId => 108 | MaxLengthExceeded => 109 | StringEncodingError => 110
  | ConstraintViolationDeferred => 111
  | EncodeConstraintViolation => 200 | MissingRequiredField => 201
  | EncodingFailed => 202 | BufferOverrun => 203 | StringTooLong => 204
  | DirectionViolation => 205
  | ConnectionRefused => 300 | ConnectionTimeout => 301 | ConnectionReset => 302
  | ConnectionClosed => 303 | HostNotFound => 304 | NetworkUnreachable => 305
  | SocketError => 306
  | NotRunning => 400 | AlreadyRunning => 401 | PeerNotFound => 402
  | QueueFull => 403 | InvalidConfig => 404 | MultiplePeers => 405
  | UnsupportedMessageType => 406 | BatchNotSupported => 407
  | InternalError => 900 | NotImplemented => 901 | InvalidArgument => 902
  | InvalidState => 903 | Timeout => 904
  end.

Inductive ErrorSeverity :=
  | SevDebug | SevInfo | SevWarning | SevError | SevCritical | SevFatal.

Record Error := mkError {
  code : ErrorCode;
  message : string;
  context : string;
}.

(** [Error(code, message)] and [CONDUIT_ERROR]: the context starts empty. *)
Definition new_error (c : ErrorCode) (m : string) : Error := mkError c m "".

Definition has_context (e : Error) : bool := negb (String.eqb (context e) "").

(** ** Category checks *)

Definition is_decode_error (e : Error) : bool :=
  let v := code_value (code e) in (100 <=? v) && (v <? 200).
Definition is_encode_error (e : Error) : bool :=
  let v := code_value (code e) in (200 <=? v) && (v <? 300).
Definition is_connection_error (e : Error) : bool :=
  let v := code_value (code e) in (300 <=? v) && (v <? 400).
Definition is_transceiver_error (e : Error) : bool :=
  let v := code_value (code e) in (400 <=? v) && (v <? 500).

Definition is_recoverable (e : Error) : bool :=
  match code e with
  | BufferUnderrun | InvalidFieldValue | UnknownEnumValue | UnknownDiscriminator
  | ConnectionRefused | ConnectionTimeout | ConnectionReset | ConnectionClosed
  | QueueFull | Timeout => true
  | _ => false
  end.

Definition severity (e : Error) : ErrorSeverity :=
  let v := code_value (code e) in
  if (100 <=? v) && (v <? 200) then SevWarning
  else if (200 <=? v) && (v <? 300) then SevWarning
  else if (300 <=? v) && (v <? 400) then SevError
  else if (400 <=? v) && (v <? 500) then SevError
  else if bool_decide (code e = Timeout) then SevError
  else if 900 <=? v then SevCritical
  else SevError.

(** ** Context: outer contexts are put in front, separated by [" > "] *)

Definition with_context (ctx : string) (e : Error) : Error :=
  if String.eqb (context e) "" then mkError (code e) (message e) ctx
  else mkError (code e) (message e) (ctx +:+ " > " +:+ context e).

(** ** Formatting *)

Definition code_to_string (c : ErrorCode) : string :=
  match c with
  | BufferUnderrun => "BUFFER_UNDERRUN"
  | InvalidFieldValue => "INVALID_FIELD_VALUE"
  | ConstraintViolation => "CONSTRAINT_VIOLATION"
  | UnknownEnumValue => "UNKNOWN_ENUM_VALUE"
  | UnknownDiscriminator => "UNKNOWN_DISCRIMINATOR"
  | ExactConsumptionFailed => "EXACT_CONSUMPTION_FAILED"
  | NegativeLength => "NEGATIVE_LENGTH"
  | DecodingFailed => "DECODING_FAILED"
  | UnknownTypeId => "UNKNOWN_TYPE_ID"
  | MaxLengthExceeded => "MAX_LENGTH_EXCEEDED"
  | StringEncodingError => "STRING_ENCODING_ERROR"
  | ConstraintViolationDeferred => "CONSTRAINT_VIOLATION_DEFERRED"
  | EncodeConstraintViolation => "ENCODE_CONSTRAINT_VIOLATION"
  | MissingRequiredField => "MISSING_REQUIRED_FIELD"
  | EncodingFailed => "ENCODING_FAILED"
  | BufferOverrun => "BUFFER_OVERRUN"
  | StringTooLong => "STRING_TOO_LONG"
  | DirectionViolation => "DIRECTION_VIOLATION"
  | ConnectionRefused => "CONNECTION_REFUSED"
  | ConnectionTimeout => "CONNECTION_TIMEOUT"
  | ConnectionReset => "CONNECTION_RESET"
  | ConnectionClosed => "CONNECTION_CLOSED"
  | HostNotFound => "HOST_NOT_FOUND"
  | NetworkUnreachable => "NETWORK_UNREACHABLE"
  | SocketError => "SOCKET_ERROR"
  | NotRunning => "NOT_RUNNING"
  | AlreadyRunning => "ALREADY_RUNNING"
  | PeerNotFound => "PEER_NOT_FOUND"
  | QueueFull => "QUEUE_FULL"
  | InvalidConfig => "INVALID_CONFIG"
  | MultiplePeers => "MULTIPLE_PEERS"
  | UnsupportedMessageType => "UNSUPPORTED_MESSAGE_TYPE"
  | BatchNotSupported => "BATCH_NOT_SUPPORTED"
  | InternalError => "INTERNAL_ERROR"
  | NotImplemented => "NOT_IMPLEMENTED"
  | InvalidArgument => "INVALID_ARGUMENT"
  | InvalidState => "INVALID_STATE"
  | Timeout => "TIMEOUT"
  end.

Definition severity_to_string (s : ErrorSeverity) : string :=
  match s with
  | SevDebug => "DEBUG" | SevInfo => "INFO" | SevWarning => "WARNING"
  | SevError => "ERROR" | SevCritical => "CRITICAL" | SevFatal => "FATAL"
  end.

Definition format_short (e : Error) : string :=
  if String.eqb (context e) "" then
    "[" +:+ code_to_string (code e) +:+ "] " +:+ message e
  else
    "[" +:+ code_to_string (code e) +:+ "] " +:+ message e
      +:+ " (in " +:+ context e +:+ ")".

(** [operator==] compares the codes only. *)
Definition error_eqb (a b : Error) : bool := bool_decide (code a = code b).

(** ** [Result<T>] = [std::expected<T, Error>] *)

Inductive Result (A : Type) :=
  | Ok (a : A)
  | Fail (e : Error).
Arguments Ok {A} a.
Arguments Fail {A} e.

(** [CONDUIT_TRY_ASSIGN] / [CONDUIT_TRY]: bind, or return the error. *)
Definition try_assign {A B} (r : Result A) (k : A -> Result B) : Result B :=
  match r with Ok a => k a | Fail e => Fail e end.

(** [CONDUIT_TRY_CONTEXT]. *)
Definition try_context {A B} (r : Result A) (ctx : string) (k : A -> Result B) : Result B :=
  match r with Ok a => k a | Fail e => Fail (with_context ctx e) end.

(** [CONDUIT_ENSURE]. *)
Definition ensure {B} (cond : bool) (c : ErrorCode) (m : string) (k : Result B) : Result B :=
  if cond then k else Fail (new_error c m).

(** ** Properties *)

(** All codes, used to settle the finitely many cases of the code tables. *)
Definition all_codes : list ErrorCode :=
  [BufferUnderrun; InvalidFieldValue; ConstraintViolation; UnknownEnumValue;
   UnknownDiscriminator; ExactConsumptionFailed; NegativeLength; DecodingFailed;
   UnknownTypeId; MaxLengthExceeded; StringEncodingError;
   ConstraintViolationDeferred; EncodeConstraintViolation; MissingRequiredField;
   EncodingFailed; BufferOverrun; StringTooLong; DirectionViolation;
   ConnectionRefused; ConnectionTimeout; ConnectionReset; ConnectionClosed;
   HostNotFound; NetworkUnreachable; SocketError; NotRunning; AlreadyRunning;
   PeerNotFound; QueueFull; InvalidConfig; MultiplePeers; UnsupportedMessageType;
   BatchNotSupported; InternalError; NotImplemented; InvalidArgument;
   InvalidState; Timeout].

Lemma all_codes_complete c : c ∈ all_codes.
Proof. destruct c; repeat constructor. Qed.

Lemma code_value_inj c d : code_value c = code_value d -> c = d.
Proof. by destruct c, d. Qed.

(** A finite check of a two-argument table, pulled back to all codes. *)
Lemma all_codes_forall2 (P : ErrorCode -> ErrorCode -> bool) c d :
  forallb (fun c => forallb (P c) all_codes) all_codes = true -> P c d = true.
Proof.
  intros H. rewrite forallb_forall in H.
  specialize (H c (proj1 (list_elem_of_In _ _) (all_codes_complete c))).
  rewrite forallb_forall in H.
  exact (H d (proj1 (list_elem_of_In _ _) (all_codes_complete d))).
Qed.

Lemma code_to_string_inj c d : code_to_string c = code_to_string d -> c = d.
Proof.
  intros H.
  pose proof (all_codes_forall2
    (fun c d => implb (String.eqb (code_to_string c) (code_to_string d))
                      (bool_decide (c = d))) c d eq_refl) as Hcd.
  simpl in Hcd. rewrite H, String.eqb_refl in Hcd. simpl in Hcd.
  by apply bool_decide_eq_true in Hcd.
Qed.

Lemma with_context_code ctx e : code (with_context ctx e) = code e.
Proof. unfold with_context. by destruct (String.eqb _ _). Qed.

Lemma with_context_message ctx e : message (with_context ctx e) = message e.
Proof. unfold with_context. by destruct (String.eqb _ _). Qed.

Definition b2n (b : bool) : nat := if b then 1%nat else 0%nat.

(** The numeric bands classify: every error is in exactly one of the four
    categories or is internal (900 and above), a warning severity means a codec
    error, and a critical one means internal and not a timeout. *)
Theorem error_classification (e : Error) :
  (b2n (is_decode_error e) + b2n (is_encode_error e) + b2n (is_connection_error e)
   + b2n (is_transceiver_error e) + b2n (900 <=? code_value (code e))%Z)%nat = 1%nat
  /\ (severity e = SevWarning <-> (is_decode_error e || is_encode_error e)%bool = true)
  /\ (severity e = SevCritical <->
        900 <= code_value (code e) /\ code e <> Timeout).
Proof.
  destruct e as [c m ctx]; simpl; destruct c; cbn; repeat split; intros; try done;
    try lia; destruct_and?; try done; naive_solver lia.
Qed.

(** Contexts accumulate outermost first and never touch the code or message. *)
Theorem with_context_nested (c1 c2 : string) (e : Error) :
  context e = ""%string -> c1 <> ""%string ->
  with_context c2 (with_context c1 e)
  = mkError (code e) (message e) (c2 +:+ " > " +:+ c1).
Proof.
  intros He Hc1. unfold with_context at 2. rewrite He. simpl.
  unfold with_context. simpl. by apply String.eqb_neq in Hc1 as ->.
Qed.
