(* ===== verification/Endian.v ===== *)
(** * Endianness utilities

    Models [conduit/include/conduit/io/endian.hpp]: byte swaps, the bounds
    guarded multi-byte loads and stores on a buffer, and the half-precision and
    48-bit float conversions.  A [float] or [double] is the bit pattern
    [std::memcpy] moves: a 32- or 64-bit unsigned integer.  [None] is undefined
    behaviour (an index past the span). *)

From stdpp Require Import base numbers list.
From Stdlib Require Import ZArith Lia.
From S2P Require Import Prelude Bits.

Open Scope Z_scope.

Inductive endian := Big | Little.

Global Instance endian_eq_dec : EqDecision endian.
Proof. solve_decision. Defined.

(** ** Byte swaps *)

Definition byte_swap16 (v : Z) : Z := wrap 16 (Z.lor (Z.shiftl v 8) (Z.shiftr v 8)).

Definition byte_swap32 (v : Z) : Z :=
  Z.lor (Z.lor (Z.lor
    (wrap 32 (Z.shiftl (Z.land v 0x000000FF) 24))
    (wrap 32 (Z.shiftl (Z.land v 0x0000FF00) 8)))
    (Z.shiftr (Z.land v 0x00FF0000) 8))
    (Z.shiftr (Z.land v 0xFF000000) 24).

Definition byte_swap64 (v : Z) : Z :=
  Z.lor (Z.lor (Z.lor (Z.lor (Z.lor (Z.lor (Z.lor
    (wrap 64 (Z.shiftl (Z.land v 0x00000000000000FF) 56))
    (wrap 64 (Z.shiftl (Z.land v 0x000000000000FF00) 40)))
    (wrap 64 (Z.shiftl (Z.land v 0x0000000000FF0000) 24)))
    (wrap 64 (Z.shiftl (Z.land v 0x00000000FF000000) 8)))
    (Z.shiftr (Z.land v 0x000000FF00000000) 8))
    (Z.shiftr (Z.land v 0x0000FF0000000000) 24))
    (Z.shiftr (Z.land v 0x00FF000000000000) 40))
    (Z.shiftr (Z.land v 0xFF00000000000000) 56).

(** ** Multi-byte loads and stores

    A plan lists, in the order of the source expression, the byte index and the
    shift of each term: [data[offset + i] << s] or
    [data[offset + i] = value >> s]. *)

Fixpoint load_plan (w : Z) (data : list Z) (offset : Z) (plan : list (Z * Z)) : option Z :=
  match plan with
  | [] => Some 0
  | (i, s) :: rest =>
      b ← at_ data (sz (offset + i));
      r ← load_plan w data offset rest;
      Some (Z.lor (wrap w (Z.shiftl b s)) r)
  end.

Fixpoint store_plan (data : list Z) (offset value : Z) (plan : list (Z * Z)) : option (list Z) :=
  match plan with
  | [] => Some data
  | (i, s) :: rest =>
      data' ← store data (sz (offset + i)) (fun _ => u8 (Z.shiftr value s));
      store_plan data' offset value rest
  end.

Definition read_u16 (data : list Z) (offset : Z) (e : endian) : option Z :=
  if len data <? sz (offset + 2) then Some 0
  else match e with
  | Big => load_plan 16 data offset [(0, 8); (1, 0)]
  | Little => load_plan 16 data offset [(1, 8); (0, 0)]
  end.

Definition read_u32 (data : list Z) (offset : Z) (e : endian) : option Z :=
  if len data <? sz (offset + 4) then Some 0
  else match e with
  | Big => load_plan 32 data offset [(0, 24); (1, 16); (2, 8); (3, 0)]
  | Little => load_plan 32 data offset [(3, 24); (2, 16); (1, 8); (0, 0)]
  end.

Definition read_u64 (data : list Z) (offset : Z) (e : endian) : option Z :=
  if len data <? sz (offset + 8) then Some 0
  else match e with
  | Big => load_plan 64 data offset
      [(0, 56); (1, 48); (2, 40); (3, 32); (4, 24); (5, 16); (6, 8); (7, 0)]
  | Little => load_plan 64 data offset
      [(7, 56); (6, 48); (5, 40); (4, 32); (3, 24); (2, 16); (1, 8); (0, 0)]
  end.

Definition read_u48 (data : list Z) (offset : Z) (e : endian) : option Z :=
  if len data <? sz (offset + 6) then Some 0
  else match e with
  | Big => load_plan 64 data offset [(0, 40); (1, 32); (2, 24); (3, 16); (4, 8); (5, 0)]
  | Little => load_plan 64 data offset [(5, 40); (4, 32); (3, 24); (2, 16); (1, 8); (0, 0)]
  end.

Definition write_u16 (data : list Z) (offset value : Z) (e : endian) : option (list Z) :=
  if len data <? sz (offset + 2) then Some data
  else match e with
  | Big => store_plan data offset value [(0, 8); (1, 0)]
  | Little => store_plan data offset value [(0, 0); (1, 8)]
  end.

Definition write_u32 (data : list Z) (offset value : Z) (e : endian) : option (list Z) :=
  if len data <? sz (offset + 4) then Some data
  else match e with
  | Big => store_plan data offset value [(0, 24); (1, 16); (2, 8); (3, 0)]
  | Little => store_plan data offset value [(0, 0); (1, 8); (2, 16); (3, 24)]
  end.

Definition write_u64 (data : list Z) (offset value : Z) (e : endian) : option (list Z) :=
  if len data <? sz (offset + 8) then Some data
  else match e with
  | Big => store_plan data offset value
      [(0, 56); (1, 48); (2, 40); (3, 32); (4, 24); (5, 16); (6, 8); (7, 0)]
  | Little => store_plan data offset value
      [(0, 0); (1, 8); (2, 16); (3, 24); (4, 32); (5, 40); (6, 48); (7, 56)]
  end.

Definition write_u48 (data : list Z) (offset value : Z) (e : endian) : option (list Z) :=
  if len data <? sz (offset + 6) then Some data
  else match e with
  | Big => store_plan data offset value [(0, 40); (1, 32); (2, 24); (3, 16); (4, 8); (5, 0)]
  | Little => store_plan data offset value [(0, 0); (1, 8); (2, 16); (3, 24); (4, 32); (5, 40)]
  end.

(** ** Half-precision floats *)

(** [while (!(mant & 0x0400)) { mant <<= 1; exp--; }] on [uint32_t]s. *)
Fixpoint normalize (fuel : nat) (mant exp : Z) : option (Z * Z) :=
  match fuel with
  | O => None
  | S fuel =>
      if Z.land mant 0x0400 =? 0
      then normalize fuel (wrap 32 (Z.shiftl mant 1)) (wrap 32 (exp - 1))
      else Some (mant, exp)
  end.

Definition f16_to_f32 (h : Z) : option Z :=
  let sign := wrap 32 (Z.shiftl (Z.land h 0x8000) 16) in
  let exp := Z.land (Z.shiftr h 10) 0x1F in
  let mant := Z.land h 0x03FF in
  if exp =? 0 then
    if mant =? 0 then Some sign
    else
      '(mant, exp) ← normalize 11 mant exp;
      let exp := wrap 32 (exp + 1) in
      let mant := Z.land mant (wrap 32 (Z.lnot 0x0400)) in
      let exp := wrap 32 (exp + (127 - 15)) in
      Some (Z.lor (Z.lor sign (wrap 32 (Z.shiftl exp 23))) (wrap 32 (Z.shiftl mant 13)))
  else if exp =? 31 then
    Some (Z.lor (Z.lor sign 0x7F800000) (wrap 32 (Z.shiftl mant 13)))
  else
    let exp := wrap 32 (exp + (127 - 15)) in
    Some (Z.lor (Z.lor sign (wrap 32 (Z.shiftl exp 23))) (wrap 32 (Z.shiftl mant 13))).

Definition f32_to_f16 (f : Z) : Z :=
  let sign := wrap 16 (Z.land (Z.shiftr f 16) 0x8000) in
  let exp := Z.land (Z.shiftr f 23) 0xFF - 127 + 15 in
  let mant := Z.land f 0x007FFFFF in
  if Z.land (Z.shiftr f 23) 0xFF =? 255 then
    wrap 16 (Z.lor (Z.lor sign 0x7C00) (if mant =? 0 then 0 else 0x0200))
  else if 31 <=? exp then wrap 16 (Z.lor sign 0x7C00)
  else if exp <=? 0 then
    if exp <? -10 then sign
    else
      let mant := Z.lor mant 0x00800000 in
      let shift := 1 - exp in
      wrap 16 (Z.lor sign (Z.shiftr mant (13 + shift)))
  else
    wrap 16 (Z.lor (Z.lor sign (Z.shiftl (wrap 16 exp) 10)) (wrap 16 (Z.shiftr mant 13))).

(** ** 48-bit floats: the top 48 bits of a double *)

Definition f48_to_f64 (h48 : Z) : Z := wrap 64 (Z.shiftl h48 16).
Definition f64_to_f48 (d : Z) : Z := Z.shiftr d 16.

Definition read_f48 (data : list Z) (offset : Z) (e : endian) : option Z :=
  raw ← read_u48 data offset e; Some (f48_to_f64 raw).
Definition write_f48 (data : list Z) (offset value : Z) (e : endian) : option (list Z) :=
  write_u48 data offset (f64_to_f48 value) e.
Definition read_f16 (data : list Z) (offset : Z) (e : endian) : option Z :=
  raw ← read_u16 data offset e; f16_to_f32 raw.
Definition write_f16 (data : list Z) (offset value : Z) (e : endian) : option (list Z) :=
  write_u16 data offset (f32_to_f16 value) e.
Definition read_f32 (data : list Z) (offset : Z) (e : endian) : option Z :=
  read_u32 data offset e.
Definition read_f64 (data : list Z) (offset : Z) (e : endian) : option Z :=
  read_u64 data offset e.
Definition write_f32 (data : list Z) (offset value : Z) (e : endian) : option (list Z) :=
  write_u32 data offset value e.
Definition write_f64 (data : list Z) (offset value : Z) (e : endian) : option (list Z) :=
  write_u64 data offset value e.

(** ** Wire order of a multi-byte integer *)

Fixpoint be_bytes (n : nat) (v : Z) : list Z :=
  match n with
  | O => []
  | S n' => u8 (Z.shiftr v (8 * Z.of_nat n')) :: be_bytes n' v
  end.

Definition wire_bytes (e : endian) (n : nat) (v : Z) : list Z :=
  match e with Big => be_bytes n v | Little => rev (be_bytes n v) end.

Definition wire_value (e : endian) (l : list Z) : Z :=
  of_bits (bytes_bits (match e with Big => l | Little => rev l end)).

Lemma length_be_bytes n v : length (be_bytes n v) = n.
Proof. induction n; simpl; auto. Qed.

Lemma be_bytes_byte n v : Forall is_byte (be_bytes n v).
Proof. induction n; simpl; constructor; auto with conduit. Qed.

Lemma bytes_bits_be_bytes n v : bytes_bits (be_bytes n v) = to_bits (8 * n) v.
Proof.
  induction n as [|n IH]; [done|].
  replace (8 * S n)%nat with (8 + 8 * n)%nat by lia.
  rewrite to_bits_app. cbn [be_bytes]. rewrite bytes_bits_cons, IH. f_equal.
  unfold u8. rewrite to_bits_wrap by lia. do 2 f_equal. lia.
Qed.

Lemma length_wire_bytes e n v : length (wire_bytes e n v) = n.
Proof. destruct e; simpl; rewrite ?length_rev; apply length_be_bytes. Qed.

Lemma wire_bytes_byte e n v : Forall is_byte (wire_bytes e n v).
Proof. destruct e; simpl; [|apply Forall_rev]; apply be_bytes_byte. Qed.

Lemma wire_value_bytes e n v :
  wire_value e (wire_bytes e n v) = v mod 2 ^ (8 * Z.of_nat n).
Proof.
  unfold wire_value. destruct e; simpl; rewrite ?rev_involutive;
    rewrite bytes_bits_be_bytes, of_bits_to_bits; f_equal; f_equal; lia.
Qed.

#[export] Hint Resolve be_bytes_byte wire_bytes_byte : conduit.

(** ** Loads and stores by plan *)

(** The plan that visits the given indices with descending shifts. *)
Fixpoint plan_of (idxs : list Z) : list (Z * Z) :=
  match idxs with
  | [] => []
  | i :: r => (i, 8 * len r) :: plan_of r
  end.

Lemma lor_disjoint b r s :
  0 <= s -> 0 <= r < 2 ^ s -> Z.lor (Z.shiftl b s) r = b * 2 ^ s + r.
Proof.
  intros Hs Hr. rewrite <- Z.shiftl_mul_pow2 by done.
  rewrite <- Z.lxor_lor; [rewrite Z.add_nocarry_lxor; [done|]|];
    apply Z.bits_inj'; intros i Hi; rewrite Z.land_spec, Z.testbit_0_l;
    (destruct (Z.ltb_spec i s);
     [rewrite Z.shiftl_spec_low by lia; done
     |rewrite (testbit_small s r i) by lia; by rewrite andb_false_r]).
Qed.

Lemma load_plan_spec w data off idxs bytes :
  Forall2 (fun i b => at_ data (sz (off + i)) = Some b) idxs bytes ->
  Forall is_byte bytes -> 8 * len idxs <= w ->
  load_plan w data off (plan_of idxs) = Some (of_bits (bytes_bits bytes)).
Proof.
  intros H. induction H as [|i b idxs bytes Hb H IH]; intros Hbytes Hw; [done|].
  apply Forall_cons in Hbytes as [Hbb Hbytes]. rewrite len_cons in Hw.
  cbn [plan_of load_plan]. rewrite Hb. cbn [mbind option_bind].
  rewrite IH by (auto; lia). cbn [mbind option_bind].
  f_equal. apply Forall2_length in H.
  assert (len (bytes_bits bytes) = 8 * len idxs) as Hl.
  { unfold len. rewrite length_bytes_bits. lia. }
  pose proof (of_bits_range (bytes_bits bytes)) as Hr. rewrite Hl in Hr.
  pose proof (len_nonneg idxs). unfold is_byte in Hbb.
  rewrite wrap_small, lor_disjoint, bytes_bits_cons, of_bits_app, Hl, of_bits_to_bits
    by (try lia; rewrite Z.shiftl_mul_pow2 by lia;
        pose proof (pow2_pos (8 * len idxs));
        assert (2 ^ (8 + 8 * len idxs) <= 2 ^ w) by (apply Z.pow_le_mono_r; lia);
        rewrite Z.pow_add_r in * by lia; nia).
  by rewrite Z.mod_small.
Qed.

Lemma at_app_mid pre l post i :
  0 <= i < len l -> at_ (pre ++ l ++ post) (len pre + i) = l !! Z.to_nat i.
Proof.
  intros Hi. unfold at_. pose proof (len_nonneg pre).
  rewrite (proj2 (Z.leb_le _ _)) by lia.
  rewrite lookup_app_r by len_lia. rewrite lookup_app_l by (unfold len in *; lia).
  f_equal. unfold len in *. lia.
Qed.

Lemma store_app_mid pre l post i f b :
  0 <= i -> l !! Z.to_nat i = Some b ->
  store (pre ++ l ++ post) (len pre + i) f
  = Some (pre ++ <[Z.to_nat i := f b]> l ++ post).
Proof.
  intros Hi Hb. pose proof (lookup_lt_Some _ _ _ Hb). pose proof (len_nonneg pre).
  unfold store. rewrite at_app_mid by (unfold len; lia). rewrite Hb. cbn. f_equal.
  replace (Z.to_nat (len pre + i)) with (length pre + Z.to_nat i)%nat by (unfold len; lia).
  rewrite insert_app_r, insert_app_l by lia. done.
Qed.

(** Split a buffer around a slice of [n] bytes at [off]. *)
Lemma slice_split (data : list Z) off n :
  0 <= off -> off + Z.of_nat n <= len data ->
  let l := take n (drop (Z.to_nat off) data) in
  data = take (Z.to_nat off) data ++ l ++ drop (Z.to_nat off + n) data
  /\ length l = n /\ len (take (Z.to_nat off) data) = off.
Proof.
  intros Ho Hn. unfold len in *. simpl. split_and!.
  - rewrite <- drop_drop, !take_drop. done.
  - rewrite length_take, length_drop. lia.
  - rewrite length_take. lia.
Qed.

Ltac list_of_length l H :=
  repeat (destruct l as [|? l]; simpl in H; [discriminate H|]);
  destruct l; [|discriminate H].

(** ** Half-precision values *)

(** The exact magnitude of a finite half (single) scaled by [2^149], so that
    both scales are integral. *)
Definition f16_magnitude (h : Z) : Z :=
  let exp := Z.land (Z.shiftr h 10) 0x1F in
  let mant := Z.land h 0x03FF in
  if exp =? 0 then Z.shiftl mant (149 - 24) else Z.shiftl (1024 + mant) (exp - 25 + 149).

Definition f32_magnitude (f : Z) : Z :=
  let exp := Z.land (Z.shiftr f 23) 0xFF in
  let mant := Z.land f 0x7FFFFF in
  if exp =? 0 then mant else Z.shiftl (0x800000 + mant) (exp - 1).

Definition f16_finite (h : Z) : bool := negb (Z.land (Z.shiftr h 10) 0x1F =? 31).
Definition f16_nan (h : Z) : bool := negb (f16_finite h) && negb (Z.land h 0x3FF =? 0).
Definition f32_finite (f : Z) : bool := negb (Z.land (Z.shiftr f 23) 0xFF =? 255).
Definition f32_nan (f : Z) : bool := negb (f32_finite f) && negb (Z.land f 0x7FFFFF =? 0).

(** ** Field decomposition

    A single is [s·2^31 + E·2^23 + M], a half [s·2^15 + e·2^10 + m]. *)

Definition pack16 (s e m : Z) : Z := s * 2 ^ 15 + e * 2 ^ 10 + m.
Definition pack32 (s E M : Z) : Z := s * 2 ^ 31 + E * 2 ^ 23 + M.

Lemma land_mask x k : 0 <= k -> Z.land x (2 ^ k - 1) = x mod 2 ^ k.
Proof. intros. rewrite <- Z.land_ones by done. by rewrite Z.ones_equiv, Z.sub_1_r. Qed.

Lemma land_bit x k : 0 <= k -> Z.land x (2 ^ k) = (x / 2 ^ k) mod 2 * 2 ^ k.
Proof.
  intros Hk. rewrite <- Z.testbit_spec' by done. rewrite <- (Z.shiftl_1_l k) at 1.
  rewrite <- Z.shiftl_mul_pow2 by done. apply Z.bits_inj'; intros i Hi.
  rewrite Z.land_spec, !Z.shiftl_spec by done.
  destruct (Z.eq_dec i k) as [->|Hne].
  - rewrite Z.sub_diag. by destruct (Z.testbit x k).
  - assert (Z.testbit 1 (i - k) = false) as ->.
    { destruct (Z.ltb_spec i k); [by rewrite Z.testbit_neg_r by lia|].
      apply (testbit_small 1); lia. }
    rewrite andb_false_r. destruct (Z.ltb_spec i k); [by rewrite Z.testbit_neg_r by lia|].
    symmetry. apply (testbit_small 1); [|lia]. destruct (Z.testbit x k); simpl; lia.
Qed.

Ltac to_arith :=
  rewrite ?Z.shiftr_div_pow2 by lia;
  repeat match goal with
  | |- context [Z.land ?x 0x1F] => change 0x1F with (2 ^ 5 - 1); rewrite (land_mask x 5) by lia
  | |- context [Z.land ?x 0xFF] => change 0xFF with (2 ^ 8 - 1); rewrite (land_mask x 8) by lia
  | |- context [Z.land ?x 0x3FF] => change 0x3FF with (2 ^ 10 - 1); rewrite (land_mask x 10) by lia
  | |- context [Z.land ?x 0x7FFFFF] =>
      change 0x7FFFFF with (2 ^ 23 - 1); rewrite (land_mask x 23) by lia
  | |- context [Z.land ?x 0x8000] => change 0x8000 with (2 ^ 15); rewrite (land_bit x 15) by lia
  end.

Section fields.
Context (s e m : Z).
Hypothesis Hs : 0 <= s <= 1.

Lemma pack16_fields :
  0 <= e < 32 -> 0 <= m < 1024 ->
  Z.land (pack16 s e m) 0x8000 = s * 2 ^ 15
  /\ Z.land (Z.shiftr (pack16 s e m) 10) 0x1F = e
  /\ Z.land (pack16 s e m) 0x3FF = m.
Proof.
  intros. unfold pack16. to_arith.
  change (2 ^ 15) with 32768; change (2 ^ 10) with 1024; change (2 ^ 5) with 32.
  split_and!; div_lia.
Qed.

Lemma pack32_fields :
  0 <= e < 256 -> 0 <= m < 2 ^ 23 ->
  Z.land (Z.shiftr (pack32 s e m) 16) 0x8000 = s * 2 ^ 15
  /\ Z.land (Z.shiftr (pack32 s e m) 23) 0xFF = e
  /\ Z.land (pack32 s e m) 0x7FFFFF = m.
Proof.
  intros. unfold pack32. to_arith. rewrite Z.div_div by lia.
  change (2 ^ 16 * 2 ^ 15) with (2 ^ 31); change (2 ^ 8) with 256.
  change (2 ^ 31) with 2147483648; change (2 ^ 23) with 8388608 in *.
  change (2 ^ 15) with 32768.
  split_and!; div_lia.
Qed.

Lemma lor_pack32 :
  0 <= e < 256 -> 0 <= m < 2 ^ 23 ->
  Z.lor (Z.lor (s * 2 ^ 31) (e * 2 ^ 23)) m = pack32 s e m.
Proof.
  intros. rewrite <- !Z.shiftl_mul_pow2 by lia.
  rewrite <- Z.lor_assoc, (lor_disjoint e m 23), (lor_disjoint s _ 31) by lia.
  unfold pack32. lia.
Qed.

Lemma lor_pack16 :
  0 <= e < 32 -> 0 <= m < 1024 ->
  Z.lor (Z.lor (s * 2 ^ 15) (e * 2 ^ 10)) m = pack16 s e m.
Proof.
  intros. rewrite <- !Z.shiftl_mul_pow2 by lia.
  rewrite <- Z.lor_assoc, (lor_disjoint e m 10), (lor_disjoint s _ 15) by lia.
  unfold pack16. lia.
Qed.
End fields.

Lemma pack16_surj h : 0 <= h < 65536 ->
  exists s e m, h = pack16 s e m /\ 0 <= s <= 1 /\ 0 <= e < 32 /\ 0 <= m < 1024.
Proof.
  intros Hh. exists (h / 32768), (h / 1024 mod 32), (h mod 1024). unfold pack16.
  change (2 ^ 15) with 32768; change (2 ^ 10) with 1024.
  split_and!; div_lia.
Qed.

Lemma pack32_surj f : 0 <= f < 2 ^ 32 ->
  exists s E M, f = pack32 s E M /\ 0 <= s <= 1 /\ 0 <= E < 256 /\ 0 <= M < 2 ^ 23.
Proof.
  intros Hf. exists (f / 2 ^ 31), (f / 2 ^ 23 mod 256), (f mod 2 ^ 23). unfold pack32.
  change (2 ^ 32) with 4294967296 in Hf.
  change (2 ^ 31) with 2147483648; change (2 ^ 23) with 8388608.
  split_and!; div_lia.
Qed.

(** ** Widening *)

(** A subnormal half normalises to its leading one at bit 10. *)
Definition subnormal_ok (m : Z) : bool :=
  match normalize 11 m 0 with
  | None => false
  | Some (m', e') =>
      let E := wrap 32 (wrap 32 (e' + 1) + 112) in
      (1024 <=? m') && (m' <? 2048) && (103 <=? E) && (E <=? 112)
      && (m' =? Z.shiftl m (113 - E))
  end.

Lemma subnormal_all : forallb (fun m => (m =? 0) || subnormal_ok m)
  (map Z.of_nat (seq 0 1024)) = true.
Proof. vm_compute. reflexivity. Qed.

Lemma subnormal_normalize m : 0 < m < 1024 -> exists m' e' E,
  normalize 11 m 0 = Some (m', e') /\ 1024 <= m' < 2048
  /\ wrap 32 (wrap 32 (e' + 1) + (127 - 15)) = E /\ 103 <= E <= 112
  /\ m' = m * 2 ^ (113 - E).
Proof.
  intros Hm. pose proof subnormal_all as H. rewrite forallb_forall in H.
  assert (In m (map Z.of_nat (seq 0 1024))) as Hin.
  { apply in_map_iff. exists (Z.to_nat m). split; [lia|]. apply in_seq. lia. }
  specialize (H m Hin). apply orb_true_iff in H as [H|H]; bool_to_prop; [lia|].
  unfold subnormal_ok in H. destruct (normalize 11 m 0) as [[m' e']|]; [|done].
  bool_to_prop. rewrite Z.shiftl_mul_pow2 in * by lia. eauto 10 with lia.
Qed.

(** [mant &= ~0x0400u] clears the leading one. *)
Lemma land_clear10 m : 1024 <= m < 2048 -> Z.land m (wrap 32 (Z.lnot 0x0400)) = m - 1024.
Proof.
  intros Hm. change (wrap 32 (Z.lnot 0x400)) with (Z.lor (Z.shiftl 2097151 11) (2 ^ 10 - 1)).
  rewrite Z.land_lor_distr_r, land_mask by lia.
  assert (Z.land m (Z.shiftl 2097151 11) = 0) as ->.
  { apply Z.bits_inj'; intros i Hi. rewrite Z.land_spec, Z.testbit_0_l.
    destruct (Z.ltb_spec i 11); [by rewrite Z.shiftl_spec_low, andb_false_r by lia|].
    by rewrite (testbit_small 11 m i) by lia. }
  rewrite Z.lor_0_l. change (2 ^ 10) with 1024. div_lia.
Qed.

Lemma f16_to_f32_pack s e m :
  0 <= s <= 1 -> 0 <= e < 32 -> 0 <= m < 1024 ->
  exists E M, f16_to_f32 (pack16 s e m) = Some (pack32 s E M)
    /\ 0 <= E < 256 /\ 0 <= M < 2 ^ 23
    /\ (e = 0 /\ m = 0 /\ E = 0 /\ M = 0
        \/ e = 0 /\ 0 < m /\ 103 <= E <= 112 /\ 2 ^ 23 + M = m * 2 ^ (113 - E + 13)
        \/ e = 31 /\ E = 255 /\ M = m * 2 ^ 13
        \/ 1 <= e <= 30 /\ E = e + 112 /\ M = m * 2 ^ 13).
Proof.
  intros Hs He Hm. destruct (pack16_fields s e m Hs He Hm) as (Fs & Fe & Fm).
  unfold f16_to_f32. rewrite Fs, Fe, Fm.
  assert (wrap 32 (Z.shiftl (s * 2 ^ 15) 16) = s * 2 ^ 31) as ->.
  { rewrite Z.shiftl_mul_pow2 by lia. rewrite wrap_small; lia. }
  assert (forall x, 0 <= x < 1024 -> wrap 32 (Z.shiftl x 13) = x * 2 ^ 13) as Hm13.
  { intros x Hx. rewrite Z.shiftl_mul_pow2 by lia. apply wrap_small. lia. }
  assert (forall x, 0 <= x < 256 -> wrap 32 (Z.shiftl x 23) = x * 2 ^ 23) as He23.
  { intros x Hx. rewrite Z.shiftl_mul_pow2 by lia. apply wrap_small. lia. }
  destruct (Z.eqb_spec e 0) as [->|]; [destruct (Z.eqb_spec m 0) as [->|]|
    destruct (Z.eqb_spec e 31) as [->|]].
  - exists 0, 0. split_and!; [f_equal; unfold pack32; lia|lia..].
  - destruct (subnormal_normalize m) as (m' & e' & E & Hn & Hm' & HE & HEr & Hmm); [lia|].
    rewrite Hn. cbn [mbind option_bind]. rewrite HE.
    rewrite land_clear10 by lia.
    rewrite Hm13, He23, lor_pack32 by lia.
    exists E, ((m' - 1024) * 2 ^ 13). split_and!; [done|lia..|]. right; left.
    split_and!; [lia..|]. rewrite Z.pow_add_r, Z.mul_assoc, <- Hmm by lia. lia.
  - exists 255, (m * 2 ^ 13). rewrite Hm13 by lia.
    change 0x7F800000 with (255 * 2 ^ 23). rewrite lor_pack32 by lia.
    split_and!; [done|lia..].
  - exists (e + 112), (m * 2 ^ 13).
    rewrite (wrap_small 32 (e + _)), Hm13, He23, lor_pack32 by lia.
    split_and!; [f_equal; f_equal; lia|lia..].
Qed.

(** ** Narrowing *)

Lemma f32_to_f16_pack s E M :
  0 <= s <= 1 -> 0 <= E < 256 -> 0 <= M < 2 ^ 23 ->
  f32_to_f16 (pack32 s E M) =
    if E =? 255 then pack16 s 31 (if M =? 0 then 0 else 512)
    else if 143 <=? E then pack16 s 31 0
    else if E <=? 112 then
      if E <? 102 then pack16 s 0 0
      else pack16 s 0 ((2 ^ 23 + M) / 2 ^ (126 - E))
    else pack16 s (E - 112) (M / 2 ^ 13).
Proof.
  intros Hs HE HM. destruct (pack32_fields s E M Hs HE HM) as (Fs & Fe & Fm).
  unfold f32_to_f16. rewrite Fs, Fe, Fm, (wrap_small 16 (s * _)) by lia.
  assert (forall e m, 0 <= e < 32 -> 0 <= m < 1024 -> wrap 16 (pack16 s e m) = pack16 s e m) as Hw.
  { intros. apply wrap_small. unfold pack16. lia. }
  replace (31 <=? E - 127 + 15) with (143 <=? E) by (apply eq_true_iff_eq; rewrite !Z.leb_le; lia).
  replace (E - 127 + 15 <=? 0) with (E <=? 112) by (apply eq_true_iff_eq; rewrite !Z.leb_le; lia).
  replace (E - 127 + 15 <? -10) with (E <? 102) by (apply eq_true_iff_eq; rewrite !Z.ltb_lt; lia).
  repeat destruct_if; bool_to_prop.
  - change 0x7C00 with (31 * 2 ^ 10). by rewrite lor_pack16, Hw by lia.
  - change 0x7C00 with (31 * 2 ^ 10). change 0x200 with 512. by rewrite lor_pack16, Hw by lia.
  - change 0x7C00 with (31 * 2 ^ 10). rewrite <- (Z.lor_0_r (Z.lor _ _)).
    by rewrite lor_pack16, Hw by lia.
  - unfold pack16. lia.
  - change 0x800000 with (1 * 2 ^ 23). rewrite (Z.lor_comm M), <- (Z.shiftl_mul_pow2 1), lor_disjoint,
      Z.shiftr_div_pow2, (Z.mul_1_l (2 ^ 23)) by lia.
    replace (13 + (1 - (E - 127 + 15))) with (126 - E) by lia.
    assert (0 <= (2 ^ 23 + M) / 2 ^ (126 - E) < 1024).
    { split; [apply Z.div_pos; [lia|apply pow2_pos; lia]|].
      apply Z.div_lt_upper_bound; [apply pow2_pos; lia|].
      assert (2 ^ 14 <= 2 ^ (126 - E)) by (apply Z.pow_le_mono_r; lia). lia. }
    rewrite <- (Z.lor_0_r (s * _)), <- (Z.mul_0_l (2 ^ 10)). by rewrite lor_pack16, Hw by lia.
  - assert (0 <= M / 2 ^ 13 < 1024)
      by (split; [apply Z.div_pos; lia|apply Z.div_lt_upper_bound; lia]).
    rewrite Z.shiftr_div_pow2, Z.shiftl_mul_pow2, (wrap_small 16 (E - 127 + 15)),
      (wrap_small 16 (M / _)) by lia.
    rewrite lor_pack16, Hw by lia.
    f_equal. lia.
Qed.

Lemma f16_magnitude_pack s e m : 0 <= s <= 1 -> 0 <= e < 32 -> 0 <= m < 1024 ->
  f16_magnitude (pack16 s e m) =
  if e =? 0 then m * 2 ^ 125 else (1024 + m) * 2 ^ (e + 124).
Proof.
  intros Hs He Hm. destruct (pack16_fields s e m Hs He Hm) as (_ & Fe & Fm).
  unfold f16_magnitude. rewrite Fe, Fm, !Z.shiftl_mul_pow2 by lia.
  by replace (e - 25 + 149) with (e + 124) by lia.
Qed.

Lemma f32_magnitude_pack s E M : 0 <= s <= 1 -> 0 <= E < 256 -> 0 <= M < 2 ^ 23 ->
  f32_magnitude (pack32 s E M) = if E =? 0 then M else (2 ^ 23 + M) * 2 ^ (E - 1).
Proof.
  intros Hs HE HM. destruct (pack32_fields s E M Hs HE HM) as (_ & Fe & Fm).
  unfold f32_magnitude. rewrite Fe, Fm. destruct (Z.eqb_spec E 0); [done|].
  by rewrite Z.shiftl_mul_pow2 by lia.
Qed.

Lemma pack_classify s e m : 0 <= s <= 1 -> 0 <= e < 32 -> 0 <= m < 1024 ->
  f16_finite (pack16 s e m) = negb (e =? 31)
  /\ f16_nan (pack16 s e m) = (e =? 31) && negb (m =? 0).
Proof.
  intros Hs He Hm. destruct (pack16_fields s e m Hs He Hm) as (_ & Fe & Fm).
  unfold f16_nan, f16_finite. rewrite Fe, Fm. by destruct (e =? 31).
Qed.

Lemma pack32_classify s E M : 0 <= s <= 1 -> 0 <= E < 256 -> 0 <= M < 2 ^ 23 ->
  f32_finite (pack32 s E M) = negb (E =? 255)
  /\ f32_nan (pack32 s E M) = (E =? 255) && negb (M =? 0).
Proof.
  intros Hs HE HM. destruct (pack32_fields s E M Hs HE HM) as (_ & Fe & Fm).
  unfold f32_nan, f32_finite. rewrite Fe, Fm. by destruct (E =? 255).
Qed.

Lemma pack16_sign s e m : 0 <= s <= 1 -> 0 <= e < 32 -> 0 <= m < 1024 ->
  Z.shiftr (pack16 s e m) 15 = s.
Proof.
  intros. rewrite Z.shiftr_div_pow2 by lia. unfold pack16.
  change (2 ^ 15) with 32768; change (2 ^ 10) with 1024. div_lia.
Qed.

Lemma pack32_sign s E M : 0 <= s <= 1 -> 0 <= E < 256 -> 0 <= M < 2 ^ 23 ->
  Z.shiftr (pack32 s E M) 31 = s.
Proof.
  intros. rewrite Z.shiftr_div_pow2 by lia. unfold pack32.
  change (2 ^ 31) with 2147483648; change (2 ^ 23) with 8388608 in *. div_lia.
Qed.

(** ** Theorems on the float conversions *)

(** Widening a half to a single is exact: [f16_to_f32] terminates on every
    16-bit pattern, keeps the sign, maps finite to finite, infinity to infinity
    and NaN to NaN, and a finite result has exactly the same magnitude. *)
Theorem f16_to_f32_exact (h : Z) :
  0 <= h < 65536 ->
  exists f, f16_to_f32 h = Some f /\ 0 <= f < 2 ^ 32
    /\ Z.shiftr f 31 = Z.shiftr h 15
    /\ f32_finite f = f16_finite h /\ f32_nan f = f16_nan h
    /\ (f16_finite h = true -> f32_magnitude f = f16_magnitude h).
Proof.
  intros Hh. destruct (pack16_surj h Hh) as (s & e & m & -> & Hs & He & Hm).
  destruct (f16_to_f32_pack s e m Hs He Hm) as (E & M & -> & HE & HM & Hcase).
  exists (pack32 s E M).
  destruct (pack_classify s e m Hs He Hm) as [-> ->].
  destruct (pack32_classify s E M Hs HE HM) as [-> ->].
  rewrite pack16_sign, pack32_sign, f16_magnitude_pack, f32_magnitude_pack by done.
  split_and!; [done|unfold pack32; lia|unfold pack32; lia|done| | |];
    destruct Hcase as [Hc|[Hc|[Hc|Hc]]]; destruct_and!; subst.
  all: try (repeat destruct_if; bool_to_prop; simpl; first [done | lia]).
  all: try (repeat match goal with |- context [?a =? ?b] => destruct (Z.eqb_spec a b) end;
            simpl; first [done | lia]).
  all: intros _; repeat match goal with |- context [?a =? ?b] => destruct (Z.eqb_spec a b) end;
    try lia.
  - replace (2 ^ 23 + M) with (m * 2 ^ (113 - E + 13)) by lia.
    rewrite <- Z.mul_assoc, <- Z.pow_add_r by lia. do 2 f_equal; lia.
  - replace (2 ^ 23 + m * 2 ^ 13) with ((1024 + m) * 2 ^ 13) by lia.
    rewrite <- Z.mul_assoc, <- Z.pow_add_r by lia. do 2 f_equal; lia.
Qed.

Lemma f16_to_f32_exact_witness :
  0 <= 0x3C01 < 65536 /\ exists f, f16_to_f32 0x3C01 = Some f /\ f32_magnitude f = f16_magnitude 0x3C01.
Proof.
  split; [lia|]. destruct (f16_to_f32_exact 0x3C01) as (f & H1 & _ & _ & _ & _ & H2); [lia|].
  exists f. split; [done|]. apply H2. reflexivity.
Defined.

(** A half that is not a NaN survives the trip through a single:
    [f32_to_f16 (f16_to_f32 h) = h]; a NaN comes back as a NaN of the same sign. *)
Theorem f16_roundtrip (h : Z) :
  0 <= h < 65536 ->
  exists f, f16_to_f32 h = Some f
    /\ (f16_nan h = false -> f32_to_f16 f = h)
    /\ (f16_nan h = true -> f16_nan (f32_to_f16 f) = true
                            /\ Z.shiftr (f32_to_f16 f) 15 = Z.shiftr h 15).
Proof.
  intros Hh. destruct (pack16_surj h Hh) as (s & e & m & -> & Hs & He & Hm).
  destruct (f16_to_f32_pack s e m Hs He Hm) as (E & M & -> & HE & HM & Hcase).
  exists (pack32 s E M). split; [done|].
  destruct (pack_classify s e m Hs He Hm) as [_ ->].
  rewrite f32_to_f16_pack, (pack16_sign s e m) by done.
  destruct Hcase as [Hc|[Hc|[Hc|Hc]]]; destruct_and!; subst; split; intros Hn.
  all: repeat match goal with
    | |- context [?a =? ?b] => destruct (Z.eqb_spec a b)
    | H : context [?a =? ?b] |- _ => destruct (Z.eqb_spec a b)
    | |- context [?a <=? ?b] => destruct (Z.leb_spec a b)
    | |- context [?a <? ?b] => destruct (Z.ltb_spec a b)
    end; simpl in Hn; try lia; try done.
  all: try (f_equal; lia).
  - replace (2 ^ 23 + M) with (m * 2 ^ (113 - E + 13)) by lia.
    replace (113 - E + 13) with (126 - E) by lia.
    rewrite Z.div_mul; [done|]. apply Z.pow_nonzero; lia.
  - destruct (pack_classify s 31 512) as [_ ->]; [lia..|].
    rewrite pack16_sign by lia. done.
  - rewrite Z.div_mul by lia. f_equal; lia.
  - rewrite Z.div_mul by lia. f_equal; lia.
Qed.

Lemma f16_roundtrip_witness : 0 <= 0x0001 < 65536 /\ exists f, f16_to_f32 1 = Some f /\ f32_to_f16 f = 1.
Proof.
  split; [lia|]. destruct (f16_roundtrip 1) as (f & H1 & H2 & _); [lia|].
  exists f. split; [done|]. apply H2. reflexivity.
Defined.

(** C39: Narrowing rounds towards zero: a finite single whose exponent fits a
    half loses less than one unit in the last place of the half and never grows
    in magnitude; larger singles become infinity, and the sign is kept. *)
Theorem f32_to_f16_truncates (f : Z) :
  0 <= f < 2 ^ 32 -> f32_finite f = true ->
  let h := f32_to_f16 f in
  let E := Z.land (Z.shiftr f 23) 0xFF in
  Z.shiftr h 15 = Z.shiftr f 31
  /\ (143 <= E -> f16_finite h = false /\ f16_nan h = false)
  /\ (E < 143 -> f16_finite h = true
       /\ 0 <= f32_magnitude f - f16_magnitude h < 2 ^ (Z.max E 113 + 12)).
Proof.
  intros Hf Hfin. destruct (pack32_surj f Hf) as (s & E & M & -> & Hs & HE & HM).
  destruct (pack32_classify s E M Hs HE HM) as [Hfin' _]. rewrite Hfin' in Hfin. bool_to_prop.
  destruct (pack32_fields s E M Hs HE HM) as (_ & -> & _). cbv zeta.
  rewrite f32_to_f16_pack, pack32_sign, f32_magnitude_pack by done.
  apply Z.eqb_neq in Hfin as ->.
  destruct (Z.leb_spec 143 E); [|destruct (Z.leb_spec E 112); [destruct (Z.ltb_spec E 102)|]].
  - destruct (pack_classify s 31 0) as [-> ->]; [lia..|]. rewrite pack16_sign by lia.
    split_and!; [done|done|lia].
  - destruct (pack_classify s 0 0) as [-> _]; [lia..|]. rewrite pack16_sign by lia.
    split_and!; [done|lia|]. intros _. split; [done|].
    rewrite f16_magnitude_pack by lia. simpl (0 =? 0). cbv iota.
    replace (Z.max E 113 + 12) with 125 by lia.
    destruct (Z.eqb_spec E 0); [lia|].
    assert (2 ^ (E - 1) <= 2 ^ 100) by (apply Z.pow_le_mono_r; lia).
    pose proof (pow2_pos (E - 1)). nia.
  - set (q := (2 ^ 23 + M) / 2 ^ (126 - E)).
    assert (0 < 2 ^ (126 - E)) as Hp by (apply pow2_pos; lia).
    assert (2 ^ 14 <= 2 ^ (126 - E)) by (apply Z.pow_le_mono_r; lia).
    assert (0 <= q < 1024).
    { split; [apply Z.div_pos; lia|]. apply Z.div_lt_upper_bound; lia. }
    destruct (pack_classify s 0 q) as [-> _]; [lia..|]. rewrite pack16_sign by lia.
    split_and!; [done|lia|]. intros _. split; [done|].
    rewrite f16_magnitude_pack by lia. simpl (0 =? 0). cbv iota.
    rewrite (proj2 (Z.eqb_neq E 0)) by lia.
    replace (Z.max E 113 + 12) with 125 by lia.
    pose proof (Z.div_mod (2 ^ 23 + M) (2 ^ (126 - E))) as Hdm. fold q in Hdm.
    pose proof (Z.mod_pos_bound (2 ^ 23 + M) (2 ^ (126 - E)) Hp).
    replace (2 ^ 125) with (2 ^ (126 - E) * 2 ^ (E - 1))
      by (rewrite <- Z.pow_add_r by lia; f_equal; lia).
    pose proof (pow2_pos (E - 1)). nia.
  - assert (0 <= M / 2 ^ 13 < 1024)
      by (split; [apply Z.div_pos; lia|apply Z.div_lt_upper_bound; lia]).
    destruct (pack_classify s (E - 112) (M / 2 ^ 13)) as [-> _]; [lia..|].
    rewrite pack16_sign by lia. split_and!; [done|lia|]. intros _.
    rewrite (proj2 (Z.eqb_neq (E - 112) 31)) by lia. split; [done|].
    rewrite f16_magnitude_pack by lia.
    rewrite (proj2 (Z.eqb_neq (E - 112) 0)), (proj2 (Z.eqb_neq E 0)) by lia.
    replace (Z.max E 113 + 12) with (E - 1 + 13) by lia.
    replace (E - 112 + 124) with (E - 1 + 13) by lia.
    rewrite Z.pow_add_r by lia.
    pose proof (Z.div_mod M (2 ^ 13)). pose proof (Z.mod_pos_bound M (2 ^ 13)).
    pose proof (pow2_pos (E - 1)). nia.
Qed.

Lemma f32_to_f16_truncates_witness :
  (0 <= 0x3F8FFFFF < 2 ^ 32 /\ f32_finite 0x3F8FFFFF = true)
  /\ f16_finite (f32_to_f16 0x3F8FFFFF) = true.
Proof.
  split; [split; [lia|reflexivity]|].
  destruct (f32_to_f16_truncates 0x3F8FFFFF) as (_ & _ & H); [lia|reflexivity|].
  apply H. reflexivity.
Defined.

(** ** The four widths together *)

Inductive width := W16 | W32 | W48 | W64.

Definition width_bytes (w : width) : nat :=
  match w with W16 => 2%nat | W32 => 4%nat | W48 => 6%nat | W64 => 8%nat end.

Definition read_uint (w : width) : list Z -> Z -> endian -> option Z :=
  match w with W16 => read_u16 | W32 => read_u32 | W48 => read_u48 | W64 => read_u64 end.

Definition write_uint (w : width) : list Z -> Z -> Z -> endian -> option (list Z) :=
  match w with W16 => write_u16 | W32 => write_u32 | W48 => write_u48 | W64 => write_u64 end.

(** An in-range slice: offset and length stay below [SIZE_MAX], so the guard
    [offset + n > data.size()] of the source does not wrap. *)
Definition slice_ok (data : list Z) (off : Z) (n : nat) : Prop :=
  0 <= off /\ off + Z.of_nat n <= len data /\ len data <= SIZE_MAX.

Lemma guard_slice data off n :
  slice_ok data off n -> (len data <? sz (off + Z.of_nat n)) = false.
Proof.
  intros (H1 & H2 & H3). apply Z.ltb_ge. rewrite sz_small by lia. lia.
Qed.

Lemma load_slice w data off (idxs : list Z) (n : nat) (l : list Z) :
  slice_ok data off n -> Forall is_byte data -> 8 * len idxs <= w ->
  Forall2 (fun i b => 0 <= i < Z.of_nat n
                      /\ take n (drop (Z.to_nat off) data) !! Z.to_nat i = Some b) idxs l ->
  load_plan w data off (plan_of idxs) = Some (of_bits (bytes_bits l)).
Proof.
  intros (H1 & H2 & H3) Hd Hw HF. apply load_plan_spec; [|clear -HF Hd|done].
  - destruct (slice_split data off n) as (Hs & Hl & Ho); [lia..|].
    eapply Forall2_impl; [exact HF|]. intros i b [Hi Hb].
    rewrite sz_small by lia. rewrite <- Hb, Hs at 1.
    rewrite <- (at_app_mid (take (Z.to_nat off) data) _ (drop (Z.to_nat off + n) data))
      by (unfold len; lia).
    by rewrite Ho.
  - induction HF as [|i b ? ? [_ Hb] ? ?]; constructor; [|done].
    rewrite lookup_take_Some, lookup_drop in Hb. destruct Hb as [Hb _].
    by apply (Forall_lookup_1 _ _ _ _ Hd Hb).
Qed.

(** Reading a slice gives its value in the requested byte order. *)
Lemma read_uint_slice w data off e :
  slice_ok data off (width_bytes w) -> Forall is_byte data ->
  read_uint w data off e
  = Some (wire_value e (take (width_bytes w) (drop (Z.to_nat off) data))).
Proof.
  intros Hok Hd. pose proof (guard_slice _ _ _ Hok) as Hg.
  assert (length (take (width_bytes w) (drop (Z.to_nat off) data)) = width_bytes w) as Hlen.
  { destruct Hok as (? & ? & ?). by destruct (slice_split data off (width_bytes w)) as (_ & ? & _); [lia..|]. }
  assert (forall idxs l ww, 8 * len idxs <= ww ->
    Forall2 (fun i b => 0 <= i < Z.of_nat (width_bytes w)
        /\ take (width_bytes w) (drop (Z.to_nat off) data) !! Z.to_nat i = Some b) idxs l ->
    load_plan ww data off (plan_of idxs) = Some (of_bits (bytes_bits l))) as HL
    by (intros; eapply load_slice; eauto).
  unfold wire_value.
  remember (take (width_bytes w) (drop (Z.to_nat off) data)) as l eqn:El. clear El Hok Hd.
  destruct w; simpl width_bytes in *; list_of_length l Hlen; cbn [read_uint];
    unfold read_u16, read_u32, read_u48, read_u64;
    change (Z.of_nat 2) with 2 in *; change (Z.of_nat 4) with 4 in *;
    change (Z.of_nat 6) with 6 in *; change (Z.of_nat 8) with 8 in *;
    rewrite Hg; destruct e; cbn [rev app];
    match goal with |- load_plan ?ww _ _ ?p = Some (of_bits (bytes_bits ?l)) =>
      let idx := eval cbv in (map fst p) in
      change p with (plan_of idx); apply HL
    end; try (unfold len; simpl; lia); repeat constructor; lia.
Qed.

(** Writing a slice replaces exactly its bytes. *)
Lemma write_uint_slice w data off v e :
  slice_ok data off (width_bytes w) ->
  write_uint w data off v e
  = Some (take (Z.to_nat off) data ++ wire_bytes e (width_bytes w) v
          ++ drop (Z.to_nat off + width_bytes w) data).
Proof.
  intros Hok. pose proof (guard_slice _ _ _ Hok) as Hg. destruct Hok as (H1 & H2 & H3).
  destruct (slice_split data off (width_bytes w)) as (Hs & Hl & Ho); [lia..|].
  remember (take (width_bytes w) (drop (Z.to_nat off) data)) as l eqn:El. clear El.
  set (pre := take (Z.to_nat off) data) in *.
  set (post := drop (Z.to_nat off + width_bytes w) data) in *. clearbody pre post.
  assert (forall i, 0 <= i < Z.of_nat (width_bytes w) -> sz (off + i) = len pre + i) as Hsz
    by (intros; rewrite sz_small; lia).
  destruct w; simpl width_bytes in *; list_of_length l Hl; cbn [write_uint];
    unfold write_u16, write_u32, write_u48, write_u64;
    change (Z.of_nat 2) with 2 in *; change (Z.of_nat 4) with 4 in *;
    change (Z.of_nat 6) with 6 in *; change (Z.of_nat 8) with 8 in *;
    rewrite Hg; subst data; destruct e; cbn [store_plan];
    rewrite !Hsz by lia;
    repeat (erewrite store_app_mid; [|lia|reflexivity]; cbn [mbind option_bind]);
    reflexivity.
Qed.

(** ** Byte swaps reverse the wire order *)

Lemma be_bytes_of_bytes l :
  Forall is_byte l -> be_bytes (length l) (of_bits (bytes_bits l)) = l.
Proof.
  intros Hl. apply bytes_bits_inj; [apply be_bytes_byte|done|].
  rewrite bytes_bits_be_bytes, <- length_bytes_bits. apply to_bits_of_bits.
Qed.

Lemma wire_bytes_value e l :
  Forall is_byte l -> wire_bytes e (length l) (wire_value e l) = l.
Proof.
  intros Hl. unfold wire_bytes, wire_value. destruct e.
  - by apply be_bytes_of_bytes.
  - rewrite <- (length_rev l), be_bytes_of_bytes by by apply Forall_rev.
    apply rev_involutive.
Qed.

Lemma wire_value_range e l : 0 <= wire_value e l < 2 ^ (8 * len l).
Proof.
  unfold wire_value. destruct e;
    match goal with |- _ <= of_bits ?b < _ => pose proof (of_bits_range b) as H end;
    unfold len in *; rewrite length_bytes_bits, ?length_rev in H;
    replace (8 * Z.of_nat (length l)) with (Z.of_nat (8 * length l)) by lia; done.
Qed.

(** [data[k] << s] terms, most significant first, are the big-endian value. *)
Lemma of_bits_bytes_cons b l :
  is_byte b -> of_bits (bytes_bits (b :: l))
               = Z.lor (Z.shiftl b (8 * len l)) (of_bits (bytes_bits l)).
Proof.
  intros Hb. unfold is_byte in Hb. pose proof (of_bits_range (bytes_bits l)) as H.
  assert (len (bytes_bits l) = 8 * len l) as E by (unfold len; rewrite length_bytes_bits; lia).
  rewrite E in H. pose proof (len_nonneg l). rewrite lor_disjoint by lia.
  by rewrite bytes_bits_cons, of_bits_app, of_bits_to_bits, E, Z.mod_small.
Qed.

Lemma land_byte v k : 0 <= k ->
  Z.land v (Z.shiftl 0xFF k) = Z.shiftl (u8 (Z.shiftr v k)) k.
Proof.
  intros Hk. apply Z.bits_inj'; intros i Hi. rewrite Z.land_spec.
  destruct (Z.ltb_spec i k); [rewrite !Z.shiftl_spec_low by lia; apply andb_false_r|].
  rewrite !Z.shiftl_spec by lia. change 0xFF with (2 ^ 8 - 1).
  unfold u8, wrap. rewrite <- land_mask, Z.land_spec, Z.shiftr_spec by lia.
  f_equal. f_equal. lia.
Qed.

Lemma swap_up w v k j : 0 <= k -> 0 <= j -> k + j + 8 <= w ->
  wrap w (Z.shiftl (Z.land v (Z.shiftl 0xFF k)) j) = Z.shiftl (u8 (Z.shiftr v k)) (k + j).
Proof.
  intros. rewrite land_byte, Z.shiftl_shiftl by lia. apply wrap_small.
  rewrite Z.shiftl_mul_pow2 by lia. pose proof (u8_byte (Z.shiftr v k)) as Hb. unfold is_byte in Hb.
  assert (2 ^ (8 + (k + j)) <= 2 ^ w) as Hw by (apply Z.pow_le_mono_r; lia).
  rewrite (Z.pow_add_r 2 8) in Hw by lia. pose proof (pow2_pos (k + j)). nia.
Qed.

Lemma swap_down v k j : 0 <= j <= k ->
  Z.shiftr (Z.land v (Z.shiftl 0xFF k)) j = Z.shiftl (u8 (Z.shiftr v k)) (k - j).
Proof. intros. rewrite land_byte, Z.shiftr_shiftl_l by lia. done. Qed.

Lemma byte_swap32_wire v : byte_swap32 v = wire_value Little (be_bytes 4 v).
Proof.
  unfold byte_swap32, wire_value. cbn [be_bytes rev app].
  rewrite !of_bits_bytes_cons by auto with conduit.
  change 0xFF00 with (Z.shiftl 0xFF 8); change 0xFF0000 with (Z.shiftl 0xFF 16);
    change 0xFF000000 with (Z.shiftl 0xFF 24).
  change (Z.land v 0xFF) with (Z.land v (Z.shiftl 0xFF 0)).
  rewrite !swap_up, !swap_down by lia. change (of_bits (bytes_bits [])) with 0.
  rewrite Z.lor_0_r, <- !Z.lor_assoc. reflexivity.
Qed.

Lemma byte_swap64_wire v : byte_swap64 v = wire_value Little (be_bytes 8 v).
Proof.
  unfold byte_swap64, wire_value. cbn [be_bytes rev app].
  rewrite !of_bits_bytes_cons by auto with conduit.
  change 0xFF00 with (Z.shiftl 0xFF 8); change 0xFF0000 with (Z.shiftl 0xFF 16);
    change 0xFF000000 with (Z.shiftl 0xFF 24); change 0xFF00000000 with (Z.shiftl 0xFF 32);
    change 0xFF0000000000 with (Z.shiftl 0xFF 40);
    change 0xFF000000000000 with (Z.shiftl 0xFF 48);
    change 0xFF00000000000000 with (Z.shiftl 0xFF 56).
  change (Z.land v 0xFF) with (Z.land v (Z.shiftl 0xFF 0)).
  rewrite !swap_up, !swap_down by lia. change (of_bits (bytes_bits [])) with 0.
  rewrite Z.lor_0_r, <- !Z.lor_assoc. reflexivity.
Qed.

Lemma byte_swap16_wire v : 0 <= v < 2 ^ 16 -> byte_swap16 v = wire_value Little (be_bytes 2 v).
Proof.
  intros Hv. unfold byte_swap16, wire_value. cbn [be_bytes rev app].
  rewrite !of_bits_bytes_cons by auto with conduit.
  change (bytes_bits []) with (@nil bool). change (of_bits []) with 0. rewrite Z.lor_0_r.
  unfold wrap. rewrite <- !Z.land_ones by lia. rewrite Z.land_lor_distr_l.
  unfold u8, wrap. rewrite <- !Z.land_ones by lia.
  change (8 * Z.of_nat 1) with 8; change (8 * Z.of_nat 0) with 0.
  change (8 * len [Z.land (Z.shiftr v 8) (Z.ones 8)]) with 8. change (8 * len (@nil Z)) with 0.
  rewrite Z.shiftl_0_r, Z.shiftr_0_r. f_equal.
  - apply Z.bits_inj'; intros i Hi. rewrite Z.land_spec.
    destruct (Z.ltb_spec i 8); [by rewrite !Z.shiftl_spec_low by lia|].
    rewrite !Z.shiftl_spec, Z.land_spec by lia. f_equal.
    rewrite !Z.testbit_ones_nonneg by lia. apply eq_true_iff_eq. rewrite !Z.ltb_lt. lia.
  - assert (0 <= Z.shiftr v 8 < 2 ^ 8) as Hr
      by (rewrite Z.shiftr_div_pow2 by lia; change (2 ^ 8) with 256; change (2 ^ 16) with 65536 in *; div_lia).
    rewrite !Z.land_ones by lia. rewrite !Z.mod_small by lia. done.
Qed.

(** ** Theorems on loads, stores and swaps *)

Definition byte_swap (w : width) : Z -> Z :=
  match w with W16 => byte_swap16 | W32 => byte_swap32 | _ => byte_swap64 end.

Lemma byte_swap_wire w v : w <> W48 -> 0 <= v < 2 ^ (8 * Z.of_nat (width_bytes w)) ->
  byte_swap w v = wire_value Little (be_bytes (width_bytes w) v).
Proof.
  intros Hw Hv. destruct w; [|apply byte_swap32_wire|done|apply byte_swap64_wire].
  by apply byte_swap16_wire.
Qed.

(** The guarded store followed by the guarded load of the same width, offset
    and byte order returns the value modulo the width; the store changes only
    the bytes of the slice, and neither touches memory outside the span. *)
Theorem uint_store_load (w : width) (data : list Z) (off v : Z) (e : endian) :
  slice_ok data off (width_bytes w) -> Forall is_byte data ->
  exists data', write_uint w data off v e = Some data'
    /\ length data' = length data
    /\ take (Z.to_nat off) data' = take (Z.to_nat off) data
    /\ drop (Z.to_nat off + width_bytes w) data' = drop (Z.to_nat off + width_bytes w) data
    /\ read_uint w data' off e = Some (v mod 2 ^ (8 * Z.of_nat (width_bytes w))).
Proof.
  intros Hok Hd. pose proof Hok as (H1 & H2 & H3).
  destruct (slice_split data off (width_bytes w)) as (Hs & Hl & Ho); [lia..|].
  eexists; split; [by apply write_uint_slice|].
  set (pre := take (Z.to_nat off) data) in *.
  set (post := drop (Z.to_nat off + width_bytes w) data) in *.
  assert (length pre = Z.to_nat off) as Hpre by (unfold len in Ho; lia).
  assert (Forall is_byte (pre ++ wire_bytes e (width_bytes w) v ++ post)) as Hb.
  { apply Forall_app; split; [by apply Forall_take|].
    apply Forall_app; split; [apply wire_bytes_byte|by apply Forall_drop]. }
  assert (length (pre ++ wire_bytes e (width_bytes w) v ++ post) = length data) as Hlen.
  { rewrite Hs, !length_app, length_wire_bytes, Hl. done. }
  split_and!; [done| | |].
  - by rewrite take_app_length'.
  - rewrite <- drop_drop, drop_app_length' by done.
    by rewrite drop_app_length' by by rewrite length_wire_bytes.
  - rewrite read_uint_slice; [|unfold slice_ok, len in *; rewrite Hlen; lia|done].
    rewrite drop_app_length', take_app_length' by by rewrite ?length_wire_bytes.
    by rewrite wire_value_bytes.
Qed.

Lemma uint_store_load_witness :
  (slice_ok [1; 2; 3; 4; 5; 6] 1 4 /\ Forall is_byte [1; 2; 3; 4; 5; 6])
  /\ exists d, write_uint W32 [1; 2; 3; 4; 5; 6] 1 0x0A0B0C0D Little = Some d
               /\ read_uint W32 d 1 Little = Some 0x0A0B0C0D.
Proof.
  split; [split; [unfold slice_ok, len, SIZE_MAX; simpl; lia|repeat constructor; unfold is_byte; lia]|].
  destruct (uint_store_load W32 [1; 2; 3; 4; 5; 6] 1 0x0A0B0C0D Little) as (d & H1 & _ & _ & _ & H2).
  - unfold slice_ok, len, SIZE_MAX; simpl; lia.
  - repeat constructor; unfold is_byte; lia.
  - exists d. split; [exact H1|exact H2].
Defined.

(** Swapping bytes exchanges the two byte orders: reading little-endian is
    reading big-endian and swapping, and swapping twice is the identity. *)
Theorem byte_swap_endian (w : width) (data : list Z) (off : Z) :
  w <> W48 -> slice_ok data off (width_bytes w) -> Forall is_byte data ->
  exists v, read_uint w data off Big = Some v
    /\ read_uint w data off Little = Some (byte_swap w v)
    /\ byte_swap w (byte_swap w v) = v.
Proof.
  intros Hw Hok Hd. pose proof Hok as (H1 & H2 & H3).
  destruct (slice_split data off (width_bytes w)) as (_ & Hl & _); [lia..|].
  rewrite !read_uint_slice by done.
  set (l := take (width_bytes w) (drop (Z.to_nat off) data)) in *.
  assert (Forall is_byte l) as Hlb by (by apply Forall_take, Forall_drop).
  assert (forall e, 0 <= wire_value e l < 2 ^ (8 * Z.of_nat (width_bytes w))) as Hr
    by (intros e; rewrite <- Hl; apply wire_value_range).
  assert (byte_swap w (wire_value Big l) = wire_value Little l) as Hsw.
  { rewrite byte_swap_wire, <- Hl by done. f_equal. exact (wire_bytes_value Big l Hlb). }
  exists (wire_value Big l). split_and!; [done|by rewrite Hsw|].
  rewrite Hsw, byte_swap_wire, <- Hl by done.
  unfold wire_value. rewrite <- (length_rev l), be_bytes_of_bytes by by apply Forall_rev.
  by rewrite rev_involutive.
Qed.

Lemma byte_swap_endian_witness :
  (W32 <> W48 /\ slice_ok [1; 2; 3; 4] 0 4 /\ Forall is_byte [1; 2; 3; 4])
  /\ read_uint W32 [1; 2; 3; 4] 0 Little = Some (byte_swap W32 0x01020304).
Proof.
  assert (slice_ok [1; 2; 3; 4] 0 4) as Hok by (unfold slice_ok, len, SIZE_MAX; simpl; lia).
  assert (Forall is_byte [1; 2; 3; 4]) as Hb by (repeat constructor; unfold is_byte; lia).
  split; [done|].
  destruct (byte_swap_endian W32 [1; 2; 3; 4] 0) as (v & Hv & Hl & _); [done..|].
  rewrite Hl. vm_compute in Hv. by injection Hv as <-.
Defined.
