(* ===== verification/BitWriter.v ===== *)
(** * BitWriter

    Models [conduit/include/conduit/io/bit_writer.hpp] and
    [conduit/src/io/bit_writer.cpp].  The state is the byte vector, the bit
    position and the sticky error; the vector's capacity is not observable and
    is left out.  Every operation is a state transformer into [option]: [None]
    is undefined behaviour (a vector index out of range, a shift by the width
    or more).  The representation relation [w ⊨ bits] states what the buffer
    holds as a bit string; every operation is specified by the bits it appends. *)

From stdpp Require Import base numbers list strings pretty.
From Stdlib Require Import ZArith Lia.
From S2P Require Import Prelude Bits CoreError Endian.

Open Scope Z_scope.

Record BitWriter := mkWriter {
  data_ : list Z;
  bit_pos_ : Z;
  error_ : option Error;
}.

(** [explicit BitWriter(size_t initial_capacity)]. *)
Definition new_writer : BitWriter := mkWriter [] 0 None.

Definition size_bytes (w : BitWriter) : Z := sz (bit_pos_ w + 7) / 8.
Definition size_bits (w : BitWriter) : Z := bit_pos_ w.
Definition is_byte_aligned (w : BitWriter) : bool := bit_pos_ w mod 8 =? 0.
Definition current_byte_index (w : BitWriter) : Z := bit_pos_ w / 8.
Definition has_error (w : BitWriter) : bool :=
  match error_ w with Some _ => true | None => false end.
Definition clear_error (w : BitWriter) : BitWriter :=
  mkWriter (data_ w) (bit_pos_ w) None.

(** The first error sticks. *)
Definition set_error (c : ErrorCode) (msg : string) (w : BitWriter) : BitWriter :=
  match error_ w with
  | Some _ => w
  | None => mkWriter (data_ w) (bit_pos_ w) (Some (new_error c msg))
  end.

(** [data_.push_back(b)] and [bit_pos_ += n]. *)
Definition push_back (b : Z) (w : BitWriter) : BitWriter :=
  mkWriter (data_ w ++ [b]) (bit_pos_ w) (error_ w).
Definition advance (n : Z) (w : BitWriter) : BitWriter :=
  mkWriter (data_ w) (sz (bit_pos_ w + n)) (error_ w).

(** [data_[i] |= m] on a byte. *)
Definition or_byte (i m : Z) (w : BitWriter) : option BitWriter :=
  d ← store (data_ w) i (fun b => u8 (Z.lor b m));
  Some (mkWriter d (bit_pos_ w) (error_ w)).

(** Guard against overflow in bit arithmetic; the reservation is not observable. *)
Definition ensure_capacity (additional_bits : Z) (w : BitWriter) : BitWriter :=
  if sz (SIZE_MAX - bit_pos_ w - 7) <? additional_bits
  then set_error InvalidArgument "ensure_capacity: bit count overflow" w
  else w.

(** ** Bit-level writing *)

Definition write_bit (bit : bool) (w : BitWriter) : option BitWriter :=
  let w := ensure_capacity 1 w in
  let w := if bit_pos_ w mod 8 =? 0 then push_back 0 w else w in
  w ← (if bit then
         let byte_idx := current_byte_index w in
         let bit_in_byte := 7 - bit_pos_ w mod 8 in
         or_byte byte_idx (u8 (Z.shiftl 1 bit_in_byte)) w
       else Some w);
  Some (advance 1 w).

(** [for (i = 0; i < k; ++i) push_back(value >> ((k-1-i)*8 + rem))]: [k] counts
    the bytes left. *)
Fixpoint write_full_bytes (k : nat) (rem value : Z) (w : BitWriter) : BitWriter :=
  match k with
  | O => w
  | S k' =>
      let w := push_back (u8 (Z.shiftr value (Z.of_nat k' * 8 + rem))) w in
      write_full_bytes k' rem value (advance 8 w)
  end.

(** [for (i = k; i > 0; --i) write_bit((value >> (i-1)) & 1)]. *)
Fixpoint write_bits_down (k : nat) (value : Z) (w : BitWriter) : option BitWriter :=
  match k with
  | O => Some w
  | S k' =>
      w ← write_bit (Z.odd (Z.land (Z.shiftr value (Z.of_nat k')) 1)) w;
      write_bits_down k' value w
  end.

Definition write_bits (value count : Z) (w : BitWriter) : option BitWriter :=
  if has_error w then Some w
  else if 64 <? count then
    Some (set_error EncodingFailed
      ("write_bits: requested " +:+ pretty count +:+ " bits, max is 64") w)
  else if count =? 0 then Some w
  else
    let w := ensure_capacity count w in
    if bit_pos_ w mod 8 =? 0 then
      (* Fast path: byte-aligned position *)
      let full_bytes := count / 8 in
      let remaining_bits := count mod 8 in
      let w := write_full_bytes (Z.to_nat full_bytes) remaining_bits value w in
      write_bits_down (Z.to_nat remaining_bits) value w
    else
      (* Slow path: not byte-aligned *)
      let bits_to_align := 8 - bit_pos_ w mod 8 in
      if count <=? bits_to_align then
        let mask := u8 (Z.shiftl (Z.land value (Z.shiftl 1 count - 1)) (bits_to_align - count)) in
        w ← or_byte (current_byte_index w) mask w;
        Some (advance count w)
      else
        let top := u8 (Z.land (Z.shiftr value (count - bits_to_align))
                              (Z.shiftl 1 bits_to_align - 1)) in
        w ← or_byte (current_byte_index w) top w;
        let w := advance bits_to_align w in
        let count := count - bits_to_align in
        let full_bytes := count / 8 in
        let remaining := count mod 8 in
        let w := write_full_bytes (Z.to_nat full_bytes) remaining value w in
        if 0 <? remaining then
          let w := push_back 0 w in
          let rem := u8 (Z.shiftl (Z.land value (Z.shiftl 1 remaining - 1)) (8 - remaining)) in
          w ← or_byte (current_byte_index w) rem w;
          Some (advance remaining w)
        else Some w.

(** [static_cast<uint64_t>(value)] of an [int64_t]. *)
Definition as_u64 (v : Z) : Z := wrap 64 v.

Definition write_signed_bits (value count : Z) (w : BitWriter) : option BitWriter :=
  if has_error w then Some w else write_bits (as_u64 value) count w.

(** ** Aviation wire encodings *)

(** The digit loop shared by the BCD writers: [nibbles] decimal digits of [v]
    packed from nibble [i] up; returns the packed word and what is left of [v]. *)
Fixpoint pack_bcd (nibbles : nat) (i v raw : Z) : Z * Z :=
  match nibbles with
  | O => (raw, v)
  | S n =>
      let digit := u8 (v mod 10) in
      let raw := Z.lor raw (wrap 64 (Z.shiftl digit (i * 4))) in
      pack_bcd n (i + 1) (v / 10) raw
  end.

Definition write_bcd (value bits : Z) (w : BitWriter) : option BitWriter :=
  if has_error w then Some w
  else if negb (bits mod 4 =? 0) then
    Some (set_error EncodingFailed "write_bcd: bits not multiple of 4" w)
  else if bits =? 0 then Some w
  else if 16 <? bits / 4 then
    Some (set_error EncodingFailed "write_bcd: max 64 bits (16 BCD digits) supported" w)
  else
    let nibbles := bits / 4 in
    let '(raw, v) := pack_bcd (Z.to_nat nibbles) 0 value 0 in
    if negb (v =? 0) then
      Some (set_error EncodeConstraintViolation
        ("write_bcd: value " +:+ pretty value +:+ " too large for " +:+ pretty bits
         +:+ " bits (" +:+ pretty nibbles +:+ " digits)") w)
    else write_bits raw bits w.

(** [static_cast<uint64_t>(~value) + 1u] for a negative [int64_t]. *)
Definition abs_u64 (value : Z) : Z :=
  if value <? 0 then wrap 64 (as_u64 (Z.lnot value) + 1) else as_u64 value.

Definition write_bcd_signed (value bits : Z) (w : BitWriter) : option BitWriter :=
  if has_error w then Some w
  else if bits <? 5 then
    Some (set_error EncodingFailed "write_bcd_signed: bits < 5" w)
  else if negb ((bits - 1) mod 4 =? 0) then
    Some (set_error EncodingFailed "write_bcd_signed: (bits-1) not multiple of 4" w)
  else if 15 <? (bits - 1) / 4 then
    Some (set_error EncodingFailed
      "write_bcd_signed: max 61 bits (15 BCD digits + sign) supported" w)
  else
    let negative := value <? 0 in
    let nibbles := (bits - 1) / 4 in
    let '(raw, abs_val) := pack_bcd (Z.to_nat nibbles) 0 (abs_u64 value) 0 in
    if negb (abs_val =? 0) then
      Some (set_error EncodeConstraintViolation
        ("write_bcd_signed: value " +:+ pretty value +:+ " too large for " +:+ pretty bits
         +:+ " bits (" +:+ pretty nibbles +:+ " digits)") w)
    else
      raw ← (if negative then m ← shl1_64 (bits - 1); Some (Z.lor raw m) else Some raw);
      write_bits raw bits w.

Definition write_sign_magnitude (value bits : Z) (w : BitWriter) : option BitWriter :=
  if has_error w then Some w
  else if bits <? 2 then
    Some (set_error EncodingFailed "write_sign_magnitude: bits < 2" w)
  else
    let negative := value <? 0 in
    let magnitude := abs_u64 value in
    m ← shl1_64 (bits - 1);
    let mag_mask := m - 1 in
    if mag_mask <? magnitude then
      Some (set_error EncodeConstraintViolation
        ("write_sign_magnitude: magnitude " +:+ pretty magnitude +:+ " too large for "
         +:+ pretty bits +:+ " bits (max " +:+ pretty mag_mask +:+ ")") w)
    else
      let raw := Z.land magnitude mag_mask in
      raw ← (if negative then m ← shl1_64 (bits - 1); Some (Z.lor raw m) else Some raw);
      write_bits raw bits w.

(** ** Alignment *)

Definition align_to_byte (w : BitWriter) : BitWriter :=
  let remainder := bit_pos_ w mod 8 in
  if remainder =? 0 then w
  else
    let pad_bits := 8 - remainder in
    advance pad_bits w.

(** ** Byte-level writing *)

Definition write_u8 (value : Z) (w : BitWriter) : BitWriter :=
  if has_error w then w
  else advance 8 (push_back value (align_to_byte w)).

(** The pushes [data_.push_back(static_cast<uint8_t>(value >> s))] in order. *)
Definition push_shifts (value : Z) (shifts : list Z) (w : BitWriter) : BitWriter :=
  fold_left (fun w s => push_back (u8 (Z.shiftr value s)) w) shifts w.

Definition write_u16 (value : Z) (e : endian) (w : BitWriter) : BitWriter :=
  if has_error w then w
  else
    let w := align_to_byte w in
    let w := match e with
      | Big => push_shifts value [8; 0] w
      | Little => push_shifts value [0; 8] w
      end in
    advance 16 w.

Definition write_u32 (value : Z) (e : endian) (w : BitWriter) : BitWriter :=
  if has_error w then w
  else
    let w := align_to_byte w in
    let w := match e with
      | Big => push_shifts value [24; 16; 8; 0] w
      | Little => push_shifts value [0; 8; 16; 24] w
      end in
    advance 32 w.

Definition write_u64 (value : Z) (e : endian) (w : BitWriter) : BitWriter :=
  if has_error w then w
  else
    let w := align_to_byte w in
    let w := match e with
      | Big => push_shifts value [56; 48; 40; 32; 24; 16; 8; 0] w
      | Little => push_shifts value [0; 8; 16; 24; 32; 40; 48; 56] w
      end in
    advance 64 w.

Definition write_f16 (value : Z) (e : endian) (w : BitWriter) : BitWriter :=
  if has_error w then w else write_u16 (f32_to_f16 value) e w.
Definition write_f32 (value : Z) (e : endian) (w : BitWriter) : BitWriter :=
  if has_error w then w else write_u32 value e w.
Definition write_f64 (value : Z) (e : endian) (w : BitWriter) : BitWriter :=
  if has_error w then w else write_u64 value e w.

(** [data_.resize(size + 6)], then the 48-bit store on the last six bytes
    ([subspan(size - 6)] at offset 0). *)
Definition write_f48 (value : Z) (e : endian) (w : BitWriter) : option BitWriter :=
  if has_error w then Some w
  else
    let w := align_to_byte w in
    let d := data_ w ++ replicate 6 0 in
    let n := (length d - 6)%nat in
    tail ← Endian.write_f48 (drop n d) 0 value e;
    Some (advance 48 (mkWriter (take n d ++ tail) (bit_pos_ w) (error_ w))).

(** ** Bulk writing *)

Definition write_bytes (bytes : list Z) (w : BitWriter) : BitWriter :=
  if has_error w then w
  else
    let w := align_to_byte w in
    mkWriter (data_ w ++ bytes) (sz (bit_pos_ w + sz (len bytes * 8))) (error_ w).

(** Returns [false] when the string was truncated (or an error is pending). *)
Definition write_string (str : list Z) (padded_length padding : Z) (w : BitWriter)
    : bool * BitWriter :=
  if has_error w then (false, w)
  else
    let w := align_to_byte w in
    let truncated := padded_length <? len str in
    let copy_len := Z.min (len str) padded_length in
    let d := data_ w ++ take (Z.to_nat copy_len) str
               ++ replicate (Z.to_nat (padded_length - copy_len)) (u8 padding) in
    (negb truncated, mkWriter d (sz (bit_pos_ w + sz (padded_length * 8))) (error_ w)).

(** ** Alignment to a boundary, patching *)

Definition align_to (byte_boundary : Z) (w : BitWriter) : BitWriter :=
  if byte_boundary =? 0 then w
  else
    let w := align_to_byte w in
    let current_bytes := size_bytes w in
    let remainder := current_bytes mod byte_boundary in
    if negb (remainder =? 0) then
      let padding := byte_boundary - remainder in
      Nat.iter (Z.to_nat padding) (write_u8 0) w
    else w.

Definition patch_u8 (byte_offset value : Z) (w : BitWriter) : option (bool * BitWriter) :=
  if has_error w then Some (false, w)
  else if len (data_ w) <=? byte_offset then
    Some (false, set_error BufferOverrun
      ("patch_u8: byte_offset " +:+ pretty byte_offset +:+ " out of range [0, "
       +:+ pretty (len (data_ w)) +:+ ")") w)
  else
    d ← store (data_ w) byte_offset (fun _ => value);
    Some (true, mkWriter d (bit_pos_ w) (error_ w)).

Definition patch_u16 (byte_offset value : Z) (e : endian) (w : BitWriter)
    : option (bool * BitWriter) :=
  if has_error w then Some (false, w)
  else if len (data_ w) <? sz (byte_offset + 2) then
    Some (false, set_error BufferOverrun
      ("patch_u16: byte_offset " +:+ pretty byte_offset
       +:+ " out of range (need 2 bytes, buffer size " +:+ pretty (len (data_ w)) +:+ ")") w)
  else
    d ← match e with
        | Big => store_plan (data_ w) byte_offset value [(0, 8); (1, 0)]
        | Little => store_plan (data_ w) byte_offset value [(0, 0); (1, 8)]
        end;
    Some (true, mkWriter d (bit_pos_ w) (error_ w)).

Definition patch_u32 (byte_offset value : Z) (e : endian) (w : BitWriter)
    : option (bool * BitWriter) :=
  if has_error w then Some (false, w)
  else if len (data_ w) <? sz (byte_offset + 4) then
    Some (false, set_error BufferOverrun
      ("patch_u32: byte_offset " +:+ pretty byte_offset
       +:+ " out of range (need 4 bytes, buffer size " +:+ pretty (len (data_ w)) +:+ ")") w)
  else
    d ← match e with
        | Big => store_plan (data_ w) byte_offset value [(0, 24); (1, 16); (2, 8); (3, 0)]
        | Little => store_plan (data_ w) byte_offset value [(0, 0); (1, 8); (2, 16); (3, 24)]
        end;
    Some (true, mkWriter d (bit_pos_ w) (error_ w)).

(** ** Output *)

(** The buffer is moved out: the writer is left empty, its error cleared. *)
Definition finish (w : BitWriter) : Result (list Z) * BitWriter :=
  match error_ w with
  | Some err => (Fail err, mkWriter [] 0 None)
  | None =>
      let w := align_to_byte w in
      (Ok (data_ w), mkWriter [] 0 (error_ w))
  end.

Definition clear (w : BitWriter) : BitWriter := mkWriter [] 0 None.

(** ** Representation *)

(** [holds w bits pad]: no error is pending and the buffer is [bits] followed
    by [pad] zero bits, with the write position after [bits]. *)
Record holds (w : BitWriter) (bits : list bool) (pad : nat) : Prop := {
  holds_error : error_ w = None;
  holds_bytes : Forall is_byte (data_ w);
  holds_pos : bit_pos_ w = len bits;
  holds_bits : bytes_bits (data_ w) = bits ++ zeros pad;
}.

(** The invariant of a writer between operations: fewer than eight pad bits. *)
Definition repr (w : BitWriter) (bits : list bool) : Prop :=
  exists pad, (pad < 8)%nat /\ holds w bits pad.

Notation "w ⊨ bits" := (repr w bits) (at level 70, no associativity).

(** [n] more bits fit below the overflow guard of [ensure_capacity]. *)
Definition room (n : Z) (w : BitWriter) : Prop := bit_pos_ w + n <= SIZE_MAX - 7.

Lemma holds_length w bits pad :
  holds w bits pad -> 8 * len (data_ w) = len bits + Z.of_nat pad.
Proof.
  intros H. pose proof (f_equal length (holds_bits _ _ _ H)) as E.
  rewrite length_bytes_bits, length_app, length_replicate in E. unfold len. lia.
Qed.

Lemma holds_aligned w bits pad :
  holds w bits pad -> (pad < 8)%nat -> (bit_pos_ w mod 8 =? 0) = true <-> pad = 0%nat.
Proof.
  intros H Hp. pose proof (holds_length _ _ _ H). pose proof (holds_pos _ _ _ H).
  rewrite Z.eqb_eq. div_lia.
Qed.

Lemma holds_pad w bits pad :
  holds w bits pad -> (pad < 8)%nat -> pad <> 0%nat -> 8 - bit_pos_ w mod 8 = Z.of_nat pad.
Proof.
  intros H Hp. pose proof (holds_length _ _ _ H). pose proof (holds_pos _ _ _ H). div_lia.
Qed.

Lemma holds_no_error w bits pad : holds w bits pad -> has_error w = false.
Proof. intros H. unfold has_error. by rewrite (holds_error _ _ _ H). Qed.

Lemma repr_new : new_writer ⊨ [].
Proof. exists 0%nat. split; [lia|]. by split. Qed.

Lemma ensure_capacity_room n w :
  0 <= n -> 0 <= bit_pos_ w -> room n w -> ensure_capacity n w = w.
Proof.
  unfold room, ensure_capacity. intros Hn Hp Hr.
  rewrite (proj2 (Z.ltb_ge _ _)); [done|]. rewrite sz_small by lia. lia.
Qed.

(** ** The two ways bits enter the buffer *)

(** A whole byte at an aligned position. *)
Lemma holds_push_byte w bits b n :
  holds w bits 0 -> is_byte b -> n = 8 -> room n w ->
  holds (advance n (push_back b w)) (bits ++ to_bits 8 b) 0.
Proof.
  intros [He Hd Hp Hb] Hbyte -> Hr. unfold room in Hr.
  pose proof (len_nonneg bits).
  split; cbn [error_ data_ bit_pos_ advance push_back].
  - done.
  - apply Forall_app; auto.
  - rewrite sz_small, len_app, len_to_bits by lia. lia.
  - by rewrite bytes_bits_snoc, Hb, !app_nil_r.
Qed.

(** A zero byte pushed at an aligned position leaves eight pad bits. *)
Lemma holds_push_zero w bits : holds w bits 0 -> holds (push_back 0 w) bits 8.
Proof.
  intros [He Hd Hp Hb]. split; simpl; [done| |done|].
  - apply Forall_app; split; [done|]. repeat constructor; lia.
  - by rewrite bytes_bits_snoc, Hb, app_nil_r, to_bits_0.
Qed.

(** A chunk of [k] bits or-ed into the pad bits of the last byte. *)
Lemma holds_or_chunk w bits pad k x :
  holds w bits pad -> (0 < pad <= 8)%nat -> (k <= pad)%nat -> 0 <= x < 2 ^ Z.of_nat k ->
  room (Z.of_nat k) w ->
  exists w', or_byte (current_byte_index w) (Z.shiftl x (Z.of_nat (pad - k))) w = Some w'
    /\ bit_pos_ w' = bit_pos_ w
    /\ holds (advance (Z.of_nat k) w') (bits ++ to_bits k x) (pad - k).
Proof.
  intros H Hpad Hk Hx Hr. pose proof (holds_length _ _ _ H) as HL.
  destruct H as [He Hd Hp Hb]. unfold room in Hr. pose proof (len_nonneg bits).
  destruct (exists_last (l := data_ w)) as (d & b & Ed);
    [intros E; rewrite E in HL; unfold len in *; simpl in *; lia|].
  rewrite Ed in *.
  rewrite len_app in HL. change (len [b]) with 1 in HL.
  assert (current_byte_index w = len d) as Hidx.
  { unfold current_byte_index. rewrite Hp. div_lia. }
  rewrite bytes_bits_snoc in Hb.
  assert (exists hi, bits = bytes_bits d ++ hi /\ to_bits 8 b = hi ++ zeros pad)
    as (hi & -> & Hhi).
  { assert (length (bytes_bits d) <= length bits)%nat
      by (rewrite length_bytes_bits; unfold len in *; lia).
    exists (drop (length (bytes_bits d)) bits).
    pose proof (f_equal (take (length (bytes_bits d))) Hb) as Ht.
    pose proof (f_equal (drop (length (bytes_bits d))) Hb) as Hdr.
    rewrite take_app_length, take_app_le in Ht by done.
    rewrite drop_app_length, drop_app_le in Hdr by done.
    split; [|done]. rewrite Ht at 1. by rewrite take_drop. }
  unfold or_byte. rewrite Ed, Hidx.
  pose proof (store_app_mid d [b] [] 0 (fun b => u8 (Z.lor b (Z.shiftl x (Z.of_nat (pad - k)))))
    b ltac:(lia) eq_refl) as Hst.
  rewrite Z.add_0_r, app_nil_r in Hst. rewrite Hst. simpl. eexists; split; [done|].
  split; [done|]. split; simpl.
  - done.
  - apply Forall_app in Hd as [Hd _]. apply Forall_app; split; [done|].
    repeat constructor; apply u8_byte.
  - rewrite sz_small by lia. rewrite Hp, !len_app, len_to_bits. lia.
  - rewrite bytes_bits_snoc, (or_chunk_byte hi) by (done || lia).
    by rewrite <- !app_assoc.
Qed.

(** Moving the position over zero pad bits writes zeros. *)
Lemma holds_skip w bits pad k :
  holds w bits pad -> (k <= pad)%nat -> room (Z.of_nat k) w ->
  holds (advance (Z.of_nat k) w) (bits ++ zeros k) (pad - k).
Proof.
  intros [He Hd Hp Hb] Hk Hr. unfold room in Hr. pose proof (len_nonneg bits).
  split; cbn [error_ data_ bit_pos_ advance]; [done|done| |].
  - rewrite sz_small, len_app, Hp by lia. unfold len. rewrite length_replicate. lia.
  - rewrite Hb, <- app_assoc, zeros_app. do 2 f_equal. lia.
Qed.

Lemma write_full_bytes_holds k rem v w bits :
  holds w bits 0 -> 0 <= rem -> room (8 * Z.of_nat k) w ->
  holds (write_full_bytes k rem v w) (bits ++ to_bits (8 * k) (Z.shiftr v rem)) 0.
Proof.
  revert w bits. induction k as [|k IH]; intros w bits H Hrem Hr.
  { cbn [write_full_bytes Nat.mul to_bits]. by rewrite app_nil_r. }
  cbn [write_full_bytes].
  assert (room 8 w) as Hr8 by (unfold room in *; lia).
  pose proof (holds_push_byte w bits (u8 (Z.shiftr v (Z.of_nat k * 8 + rem))) 8 H
    (u8_byte _) eq_refl Hr8) as H1.
  assert (room (8 * Z.of_nat k) (advance 8 (push_back (u8 (v ≫ (Z.of_nat k * 8 + rem))) w))) as Hr'.
  { unfold room in *. rewrite (holds_pos _ _ _ H1), len_app, len_to_bits.
    rewrite (holds_pos _ _ _ H) in Hr. lia. }
  specialize (IH _ _ H1 Hrem Hr').
  replace (8 * S k)%nat with (8 + 8 * k)%nat by lia. rewrite to_bits_app, app_assoc.
  rewrite Z.shiftr_shiftr by lia. rewrite to_bits_u8 in IH.
  replace (rem + Z.of_nat (8 * k)) with (Z.of_nat k * 8 + rem) by lia. exact IH.
Qed.

Lemma write_bit_repr b w bits :
  w ⊨ bits -> room 1 w -> exists w', write_bit b w = Some w' /\ w' ⊨ bits ++ [b].
Proof.
  intros (pad & Hpad & H) Hr. unfold write_bit.
  rewrite ensure_capacity_room by (try done; rewrite ?(holds_pos _ _ _ H); auto with conduit; lia).
  assert (exists w0 pad0, (if bit_pos_ w mod 8 =? 0 then push_back 0 w else w) = w0
    /\ holds w0 bits pad0 /\ (0 < pad0 <= 8)%nat /\ bit_pos_ w0 = bit_pos_ w) as
    (w0 & pad0 & -> & H0 & Hp0 & Epos).
  { destruct (bit_pos_ w mod 8 =? 0) eqn:E.
    - apply (holds_aligned _ _ _ H Hpad) in E as ->.
      exists (push_back 0 w), 8%nat. split_and!; [done|by apply holds_push_zero|lia..|done].
    - exists w, pad. split_and!; [done|done| |lia|done].
      destruct pad; [|lia]. pose proof (proj2 (holds_aligned _ _ _ H Hpad) eq_refl). congruence. }
  assert (7 - bit_pos_ w0 mod 8 = Z.of_nat (pad0 - 1)) as Hpm.
  { pose proof (holds_length _ _ _ H0). rewrite (holds_pos _ _ _ H0). div_lia. }
  assert (room 1 w0) as Hr0 by (unfold room in *; congruence).
  destruct b.
  - destruct (holds_or_chunk w0 bits pad0 1 1 H0) as (w1 & Hw1 & Ep & H1); [lia..|done|].
    rewrite Hpm.
    assert (u8 (Z.shiftl 1 (Z.of_nat (pad0 - 1))) = Z.shiftl 1 (Z.of_nat (pad0 - 1))) as ->.
    { apply wrap_small. rewrite Z.shiftl_1_l.
      split; [apply Z.pow_nonneg; lia|apply Z.pow_lt_mono_r; lia]. }
    rewrite Hw1. cbn [mbind option_bind]. eexists; split; [done|].
    exists (pad0 - 1)%nat. split; [lia|exact H1].
  - cbn [mbind option_bind]. eexists; split; [done|]. exists (pad0 - 1)%nat.
    split; [lia|]. apply (holds_skip _ _ _ 1 H0); [lia|done].
Qed.

Lemma write_bits_down_repr k v w bits :
  w ⊨ bits -> room (Z.of_nat k) w ->
  exists w', write_bits_down k v w = Some w' /\ w' ⊨ bits ++ to_bits k v.
Proof.
  revert w bits. induction k as [|k IH]; intros w bits H Hr.
  { exists w. by rewrite app_nil_r. }
  cbn [write_bits_down to_bits].
  destruct (write_bit_repr (Z.odd (Z.land (Z.shiftr v (Z.of_nat k)) 1)) w bits H) as (w1 & -> & H1).
  { unfold room in *; lia. }
  cbn [mbind option_bind].
  assert (Z.odd (Z.land (Z.shiftr v (Z.of_nat k)) 1) = Z.testbit v (Z.of_nat k)) as E.
  { rewrite <- Z.bit0_odd, Z.land_spec, Z.shiftr_spec by lia. rewrite andb_true_r. f_equal. }
  rewrite E in H1. destruct (IH _ _ H1) as (w2 & Hw2 & H2).
  { destruct H as (? & ? & H), H1 as (? & ? & H1). unfold room in *.
    rewrite (holds_pos _ _ _ H1), len_app, <- (holds_pos _ _ _ H). unfold len. simpl. lia. }
  exists w2. split; [done|]. by rewrite <- app_assoc in H2.
Qed.

Lemma repr_pos w bits : w ⊨ bits -> bit_pos_ w = len bits.
Proof. intros (? & ? & H). apply H. Qed.

Lemma repr_no_error w bits : w ⊨ bits -> has_error w = false.
Proof. intros (? & ? & H). by eapply holds_no_error. Qed.

(** The aligned path. *)
Lemma write_bits_aligned v n w bits :
  holds w bits 0 -> room (Z.of_nat n) w ->
  exists w', write_bits_down (n mod 8) v
               (write_full_bytes (n / 8) (Z.of_nat (n mod 8)) v w) = Some w'
    /\ w' ⊨ bits ++ to_bits n v.
Proof.
  intros H Hr. pose proof (Nat.div_mod_eq n 8) as En.
  assert (room (8 * Z.of_nat (n / 8)) w) as Hr1 by (unfold room in *; lia).
  pose proof (write_full_bytes_holds (n / 8) (Z.of_nat (n mod 8)) v w bits H ltac:(lia) Hr1) as H1.
  assert (write_full_bytes (n / 8) (Z.of_nat (n mod 8)) v w
          ⊨ bits ++ to_bits (8 * (n / 8)) (Z.shiftr v (Z.of_nat (n mod 8)))) as H1'
    by (exists 0%nat; split; [lia|done]).
  destruct (write_bits_down_repr (n mod 8) v _ _ H1') as (w' & Hw' & H2).
  { unfold room in *. rewrite (holds_pos _ _ _ H1), len_app, <- (holds_pos _ _ _ H), len_to_bits. lia. }
  exists w'. split; [done|].
  rewrite En at 1. rewrite to_bits_app, app_assoc. exact H2.
Qed.

Lemma u8_shiftl_small x k s : 0 <= x < 2 ^ k -> 0 <= k -> 0 <= s -> k + s <= 8 ->
  u8 (Z.shiftl x s) = Z.shiftl x s.
Proof.
  intros Hx Hk Hs Hks. apply wrap_small. rewrite Z.shiftl_mul_pow2 by lia.
  assert (2 ^ (k + s) <= 2 ^ 8) as H by (apply Z.pow_le_mono_r; lia).
  rewrite Z.pow_add_r in H by lia. pose proof (pow2_pos s). nia.
Qed.

(** The unaligned path: fill the current byte, then whole bytes, then the rest. *)
Lemma write_bits_unaligned v n w bits pad :
  holds w bits pad -> (0 < pad < 8)%nat -> (pad < n)%nat -> room (Z.of_nat n) w ->
  let m := (n - pad)%nat in
  exists w', (w ← or_byte (current_byte_index w)
                (u8 (Z.land (Z.shiftr v (Z.of_nat m)) (Z.shiftl 1 (Z.of_nat pad) - 1))) w;
              let w := write_full_bytes (m / 8) (Z.of_nat (m mod 8)) v
                         (advance (Z.of_nat pad) w) in
              if 0 <? Z.of_nat (m mod 8) then
                let w := push_back 0 w in
                let rem := u8 (Z.shiftl (Z.land v (Z.shiftl 1 (Z.of_nat (m mod 8)) - 1))
                                        (8 - Z.of_nat (m mod 8))) in
                w ← or_byte (current_byte_index w) rem w;
                Some (advance (Z.of_nat (m mod 8)) w)
              else Some w) = Some w'
    /\ w' ⊨ bits ++ to_bits n v.
Proof.
  intros H Hpad Hn Hr m.
  set (top := Z.land (Z.shiftr v (Z.of_nat m)) (Z.shiftl 1 (Z.of_nat pad) - 1)).
  pose proof (land_ones_range (Z.of_nat pad) (Z.shiftr v (Z.of_nat m)) ltac:(lia)) as Htop.
  fold top in Htop.
  assert (u8 top = top) as ->.
  { apply wrap_small. split; [lia|].
    eapply Z.lt_le_trans; [apply Htop|]. apply Z.pow_le_mono_r; lia. }
  destruct (holds_or_chunk w bits pad pad top H) as (w1 & Hw1 & Ep & H1);
    [lia..|done|unfold room in *; lia|].
  rewrite Nat.sub_diag, Z.shiftl_0_r in Hw1. rewrite Hw1. cbn [mbind option_bind].
  rewrite Nat.sub_diag in H1. unfold top in H1. rewrite to_bits_land_ones in H1. clear Hw1.
  set (w2 := advance (Z.of_nat pad) w1) in *.
  assert (bit_pos_ w2 = bit_pos_ w + Z.of_nat pad) as Epos.
  { rewrite (holds_pos _ _ _ H1), len_app, len_to_bits, (holds_pos _ _ _ H). lia. }
  pose proof (Nat.div_mod_eq m 8) as Em.
  assert (room (8 * Z.of_nat (m / 8)) w2) as Hr2 by (unfold room in *; lia).
  pose proof (write_full_bytes_holds (m / 8) (Z.of_nat (m mod 8)) v w2 _ H1 ltac:(lia) Hr2) as H2.
  set (w3 := write_full_bytes (m / 8) (Z.of_nat (m mod 8)) v w2) in *.
  assert (bits ++ to_bits n v = ((bits ++ to_bits pad (Z.shiftr v (Z.of_nat m)))
      ++ to_bits (8 * (m / 8)) (Z.shiftr v (Z.of_nat (m mod 8)))) ++ to_bits (m mod 8) v) as ->.
  { rewrite <- !app_assoc. f_equal. replace n with (pad + m)%nat by lia.
    rewrite to_bits_app. f_equal. rewrite Em at 1. by rewrite to_bits_app. }
  destruct (0 <? Z.of_nat (m mod 8)) eqn:E; bool_to_prop.
  - set (r := (m mod 8)%nat) in *. assert (r < 8)%nat by (apply Nat.mod_upper_bound; lia).
    pose proof (land_ones_range (Z.of_nat r) v ltac:(lia)) as Hrem.
    cbv zeta. rewrite (u8_shiftl_small _ (Z.of_nat r)) by (done || lia).
    replace (8 - Z.of_nat r) with (Z.of_nat (8 - r)) by lia.
    destruct (holds_or_chunk (push_back 0 w3) _ 8 r (Z.land v (Z.shiftl 1 (Z.of_nat r) - 1))
      (holds_push_zero _ _ H2))
      as (w4 & Hw4 & _ & H4); [lia|lia|exact Hrem| |].
    { unfold room in *. cbn [push_back bit_pos_].
      rewrite (holds_pos _ _ _ H2), len_app, len_to_bits, <- (holds_pos _ _ _ H1), Epos. lia. }
    rewrite Hw4. cbn [mbind option_bind]. eexists; split; [done|].
    rewrite to_bits_land_ones in H4. exists (8 - r)%nat. split; [lia|exact H4].
  - assert (m mod 8 = 0)%nat as E0 by lia. rewrite E0 in H2 |- *. cbn [to_bits]. rewrite app_nil_r.
    eexists; split; [done|]. exists 0%nat. split; [lia|done].
Qed.

(** [write_bits] appends the low [count] bits of the value, most significant
    first, whatever the position, and is always defined. *)
Lemma write_bits_repr v n w bits :
  w ⊨ bits -> (n <= 64)%nat -> room (Z.of_nat n) w ->
  exists w', write_bits v (Z.of_nat n) w = Some w' /\ w' ⊨ bits ++ to_bits n v.
Proof.
  intros Hw Hn Hr. pose proof Hw as (pad & Hpad & H).
  pose proof (holds_pos _ _ _ H). pose proof (len_nonneg bits).
  unfold write_bits. rewrite (repr_no_error _ _ Hw).
  rewrite (proj2 (Z.ltb_ge 64 _)) by lia.
  destruct (Z.eqb_spec (Z.of_nat n) 0) as [E0|E0].
  { assert (n = 0%nat) as -> by lia. exists w. by rewrite app_nil_r. }
  rewrite ensure_capacity_room by (done || lia).
  destruct (bit_pos_ w mod 8 =? 0) eqn:E.
  - apply (holds_aligned _ _ _ H Hpad) in E as ->.
    rewrite of_nat_mod8, of_nat_div8, !Nat2Z.id.
    by apply write_bits_aligned.
  - assert (pad <> 0%nat) as Hp0.
    { intros ->. pose proof (proj2 (holds_aligned _ _ _ H Hpad) eq_refl). congruence. }
    rewrite (holds_pad _ _ _ H Hpad Hp0).
    destruct (Z.leb_spec (Z.of_nat n) (Z.of_nat pad)).
    + cbv zeta. pose proof (land_ones_range (Z.of_nat n) v ltac:(lia)) as Hx.
      rewrite (u8_shiftl_small _ (Z.of_nat n)) by (done || lia).
      replace (Z.of_nat pad - Z.of_nat n) with (Z.of_nat (pad - n)) by lia.
      destruct (holds_or_chunk w bits pad n (Z.land v (Z.shiftl 1 (Z.of_nat n) - 1)) H)
        as (w1 & -> & _ & Hc); [lia|lia|exact Hx|done|].
      cbn [mbind option_bind]. eexists; split; [done|].
      rewrite to_bits_land_ones in Hc. exists (pad - n)%nat. split; [lia|exact Hc].
    + cbv zeta. replace (Z.of_nat n - Z.of_nat pad) with (Z.of_nat (n - pad)) by lia.
      rewrite of_nat_mod8, of_nat_div8, Nat2Z.id.
      apply (write_bits_unaligned v n w bits pad H); [lia|lia|done].
Qed.

(** The representation determines the writer. *)
Lemma repr_functional w1 w2 bits : w1 ⊨ bits -> w2 ⊨ bits -> w1 = w2.
Proof.
  intros (p1 & Hp1 & H1) (p2 & Hp2 & H2).
  pose proof (holds_length _ _ _ H1). pose proof (holds_length _ _ _ H2).
  assert (p1 = p2) as -> by lia.
  destruct H1 as [He1 Hd1 Hpos1 Hb1], H2 as [He2 Hd2 Hpos2 Hb2].
  destruct w1 as [d1 b1 e1], w2 as [d2 b2 e2]; simpl in *. subst.
  f_equal. apply bytes_bits_inj; congruence.
Qed.

(** ** Alignment *)

Lemma holds_pad8 w bits pad : holds w bits pad -> (pad < 8)%nat -> pad = pad8 (length bits).
Proof.
  intros H Hp. pose proof (holds_length _ _ _ H) as E. unfold pad8, len in *.
  assert (length bits mod 8 = (8 - pad) mod 8)%nat as Em.
  { replace (length bits) with (8 * (length (data_ w) - (if decide (pad = 0%nat) then 0 else 1))
      + (if decide (pad = 0%nat) then 0 else 8 - pad))%nat by (case_decide; lia).
    rewrite Nat.mul_comm, Nat.add_comm, Nat.Div0.mod_add.
    case_decide; [by subst|done]. }
  rewrite Em. do 8 (destruct pad as [|pad]; [done|]). lia.
Qed.

Lemma align_to_byte_holds w bits :
  w ⊨ bits -> room 7 w -> holds (align_to_byte w) (align8 bits) 0.
Proof.
  intros (pad & Hpad & H) Hr. pose proof (holds_pad8 _ _ _ H Hpad) as Ep.
  unfold align_to_byte, align8. rewrite <- Ep.
  destruct (bit_pos_ w mod 8 =? 0) eqn:E.
  - apply (holds_aligned _ _ _ H Hpad) in E. subst pad. rewrite E in *.
    cbn [replicate]. by rewrite app_nil_r.
  - assert (pad <> 0%nat) as Hp0.
    { intros E0. pose proof (proj2 (holds_aligned _ _ _ H Hpad) E0). congruence. }
    rewrite (holds_pad _ _ _ H Hpad Hp0).
    replace 0%nat with (pad - pad)%nat by lia.
    apply holds_skip; [done|lia|unfold room in *; lia].
Qed.

Lemma align_to_byte_repr w bits : w ⊨ bits -> room 7 w -> align_to_byte w ⊨ align8 bits.
Proof. intros H Hr. exists 0%nat. split; [lia|]. by apply align_to_byte_holds. Qed.

(** Whole bytes appended at an aligned position. *)
Lemma holds_append w bits l pos :
  holds w bits 0 -> Forall is_byte l -> room (8 * len l) w ->
  pos = bit_pos_ w + 8 * len l ->
  holds (mkWriter (data_ w ++ l) (sz pos) (error_ w)) (bits ++ bytes_bits l) 0.
Proof.
  intros [He Hd Hp Hb] Hl Hr ->. unfold room in Hr.
  pose proof (len_nonneg bits). pose proof (len_nonneg l).
  split; cbn [error_ data_ bit_pos_].
  - done.
  - by apply Forall_app.
  - rewrite sz_small, len_app, len_bytes_bits, Hp by lia. done.
  - by rewrite bytes_bits_app, Hb, !app_nil_r.
Qed.

Lemma push_shifts_data v shifts w :
  push_shifts v shifts w
  = mkWriter (data_ w ++ map (fun s => u8 (Z.shiftr v s)) shifts) (bit_pos_ w) (error_ w).
Proof.
  unfold push_shifts. revert w. induction shifts as [|s l IH]; intros [d p e]; simpl.
  - by rewrite app_nil_r.
  - rewrite IH. simpl. by rewrite <- app_assoc.
Qed.

(** Shared by every byte-level write: align, append [l], advance. *)
Lemma aligned_append_repr w bits l pos :
  w ⊨ bits -> Forall is_byte l -> room (8 * len l + 7) w ->
  pos = bit_pos_ (align_to_byte w) + 8 * len l ->
  mkWriter (data_ (align_to_byte w) ++ l) (sz pos) (error_ (align_to_byte w))
    ⊨ align8 bits ++ bytes_bits l.
Proof.
  intros H Hl Hr Hpos. exists 0%nat. split; [lia|].
  pose proof (align_to_byte_holds w bits H) as Ha. pose proof (len_nonneg l).
  apply holds_append; [apply Ha; unfold room in *; lia|done| |done].
  assert (holds (align_to_byte w) (align8 bits) 0) as Ha' by (apply Ha; unfold room in *; lia).
  unfold room in *. rewrite (holds_pos _ _ _ Ha'), align8_len, <- (repr_pos _ _ H).
  pose proof (pad8_lt (length bits)). lia.
Qed.

Lemma write_u8_repr v w bits :
  w ⊨ bits -> is_byte v -> room 15 w -> write_u8 v w ⊨ align8 bits ++ bytes_bits [v].
Proof.
  intros H Hv Hr. unfold write_u8. rewrite (repr_no_error _ _ H).
  apply aligned_append_repr; [done|by constructor|done|done].
Qed.

(** The multi-byte pushes append the value in its byte order. *)
Lemma push_shifts_repr v shifts l n w bits :
  map (fun s => u8 (Z.shiftr v s)) shifts = l -> Forall is_byte l -> n = 8 * len l ->
  w ⊨ bits -> room (n + 7) w ->
  advance n (push_shifts v shifts (align_to_byte w)) ⊨ align8 bits ++ bytes_bits l.
Proof.
  intros <- Hl -> H Hr. rewrite push_shifts_data. unfold advance; simpl.
  by apply aligned_append_repr.
Qed.

Lemma write_u16_repr v e w bits :
  w ⊨ bits -> room 23 w -> write_u16 v e w ⊨ align8 bits ++ bytes_bits (wire_bytes e 2 v).
Proof.
  intros H Hr. unfold write_u16. rewrite (repr_no_error _ _ H).
  destruct e; by apply push_shifts_repr; auto with conduit.
Qed.

Lemma write_u32_repr v e w bits :
  w ⊨ bits -> room 39 w -> write_u32 v e w ⊨ align8 bits ++ bytes_bits (wire_bytes e 4 v).
Proof.
  intros H Hr. unfold write_u32. rewrite (repr_no_error _ _ H).
  destruct e; by apply push_shifts_repr; auto with conduit.
Qed.

Lemma write_u64_repr v e w bits :
  w ⊨ bits -> room 71 w -> write_u64 v e w ⊨ align8 bits ++ bytes_bits (wire_bytes e 8 v).
Proof.
  intros H Hr. unfold write_u64. rewrite (repr_no_error _ _ H).
  destruct e; by apply push_shifts_repr; auto with conduit.
Qed.

Lemma write_f48_repr v e w bits :
  w ⊨ bits -> room 55 w ->
  exists w', write_f48 v e w = Some w'
    /\ w' ⊨ align8 bits ++ bytes_bits (wire_bytes e 6 (f64_to_f48 v)).
Proof.
  intros H Hr. unfold write_f48. rewrite (repr_no_error _ _ H).
  cbv zeta. rewrite length_app, length_replicate, Nat.add_sub.
  rewrite drop_app_length, take_app_length. unfold Endian.write_f48.
  pose proof (write_uint_slice W48 (replicate 6 0) 0 (f64_to_f48 v) e) as Hst.
  cbn [write_uint] in Hst. rewrite Hst by (unfold slice_ok, len, SIZE_MAX; simpl; lia).
  cbn [mbind option_bind width_bytes]. rewrite app_nil_r.
  eexists; split; [done|]. unfold advance; cbn [data_ bit_pos_ error_ take drop replicate app].
  apply aligned_append_repr; [done|apply wire_bytes_byte|unfold len; by rewrite length_wire_bytes|].
  unfold len. by rewrite length_wire_bytes.
Qed.

Lemma write_bytes_repr l w bits :
  w ⊨ bits -> Forall is_byte l -> room (8 * len l + 7) w ->
  write_bytes l w ⊨ align8 bits ++ bytes_bits l.
Proof.
  intros H Hl Hr. unfold write_bytes. rewrite (repr_no_error _ _ H). cbv zeta.
  pose proof (len_nonneg l). pose proof (len_nonneg bits). pose proof (repr_pos _ _ H).
  apply aligned_append_repr; [done..|]. unfold room in Hr. rewrite (sz_small (_ * 8)) by lia. lia.
Qed.

(** The bytes [write_string] emits: the string cut or padded to the length. *)
Definition padded (str : list Z) (n : nat) (padding : Z) : list Z :=
  take n str ++ replicate (n - length str) (u8 padding).

Lemma length_padded str n p : length (padded str n p) = n.
Proof. unfold padded. rewrite length_app, length_take, length_replicate. lia. Qed.

Lemma padded_byte str n p : Forall is_byte str -> Forall is_byte (padded str n p).
Proof.
  intros H. apply Forall_app; split; [by apply Forall_take|].
  apply Forall_replicate, u8_byte.
Qed.

Lemma write_string_repr str n p w bits :
  w ⊨ bits -> Forall is_byte str -> room (8 * Z.of_nat n + 7) w ->
  fst (write_string str (Z.of_nat n) p w) = bool_decide (length str <= n)%nat
  /\ snd (write_string str (Z.of_nat n) p w) ⊨ align8 bits ++ bytes_bits (padded str n p).
Proof.
  intros H Hl Hr. unfold write_string. rewrite (repr_no_error _ _ H). simpl. split.
  - apply eq_true_iff_eq. rewrite negb_true_iff, bool_decide_eq_true, Z.ltb_ge. unfold len. lia.
  - pose proof (len_nonneg bits). pose proof (repr_pos _ _ H).
    replace (take (Z.to_nat (Z.min (len str) (Z.of_nat n))) str
        ++ replicate (Z.to_nat (Z.of_nat n - Z.min (len str) (Z.of_nat n))) (u8 p))
      with (padded str n p).
    2: { unfold padded. f_equal; [|f_equal; unfold len; lia].
         destruct (Nat.le_gt_cases (length str) n).
         - rewrite !take_ge by (unfold len; lia). done.
         - f_equal. unfold len. lia. }
    assert (len (padded str n p) = Z.of_nat n) as El by (unfold len; by rewrite length_padded).
    unfold room in Hr. apply aligned_append_repr; [done|by apply padded_byte| |].
    + unfold room. rewrite El. lia.
    + rewrite El, (sz_small (_ * 8)) by lia. lia.
Qed.

(** ** Output *)

Lemma finish_repr w bits :
  w ⊨ bits -> room 7 w ->
  exists d, finish w = (Ok d, new_writer) /\ Forall is_byte d /\ bytes_bits d = align8 bits.
Proof.
  intros H Hr. pose proof (align_to_byte_holds w bits H Hr) as [He Hd Hp Hb].
  destruct H as (pad & _ & [He0 _ _ _]). unfold finish. rewrite He0, He.
  eexists; split; [done|]. split; [done|]. by rewrite Hb, app_nil_r.
Qed.

(** ** Wire encodings *)

Lemma write_signed_bits_repr v n w bits :
  w ⊨ bits -> (n <= 64)%nat -> room (Z.of_nat n) w ->
  exists w', write_signed_bits v (Z.of_nat n) w = Some w' /\ w' ⊨ bits ++ to_bits n v.
Proof.
  intros H Hn Hr. unfold write_signed_bits. rewrite (repr_no_error _ _ H).
  destruct (write_bits_repr (as_u64 v) n w bits H Hn Hr) as (w' & Hw' & H').
  exists w'. split; [done|]. unfold as_u64 in H'. by rewrite to_bits_wrap in H' by lia.
Qed.

Lemma pack_bcd_spec n i v raw :
  0 <= v -> 0 <= i -> 0 <= raw < 2 ^ (4 * i) -> i + Z.of_nat n <= 16 ->
  pack_bcd n i v raw = (raw + bcd n v * 2 ^ (4 * i), v / 10 ^ Z.of_nat n).
Proof.
  revert i v raw. induction n as [|n IH]; intros i v raw Hv Hi Hraw Hn.
  { simpl. f_equal; [lia|]. by rewrite Z.div_1_r. }
  cbn [pack_bcd bcd]. pose proof (Z.mod_pos_bound v 10 ltac:(lia)) as Hd.
  assert (0 < 2 ^ (4 * i)) as Hp by (apply pow2_pos; lia).
  rewrite u8_id by (unfold is_byte; lia).
  assert (wrap 64 (Z.shiftl (v mod 10) (i * 4)) = Z.shiftl (v mod 10) (4 * i)) as ->.
  { rewrite (Z.mul_comm i), wrap_small; [done|].
    rewrite Z.shiftl_mul_pow2 by lia.
    assert (2 ^ (4 + 4 * i) <= 2 ^ 64) as Hle by (apply Z.pow_le_mono_r; lia).
    rewrite Z.pow_add_r in Hle by lia. nia. }
  rewrite Z.lor_comm, lor_disjoint by lia.
  rewrite IH; [|apply Z.div_pos; lia|lia| |lia].
  - f_equal.
    + replace (4 * (i + 1)) with (4 + 4 * i) by lia. rewrite Z.pow_add_r by lia. lia.
    + rewrite Nat2Z.inj_succ, Z.pow_succ_r, Z.div_div by (try apply Z.pow_pos_nonneg; lia). done.
  - replace (4 * (i + 1)) with (4 + 4 * i) by lia. rewrite Z.pow_add_r by lia. nia.
Qed.

Lemma div_pow10_zero v n : 0 <= v -> (v / 10 ^ Z.of_nat n =? 0) = (v <? 10 ^ Z.of_nat n).
Proof.
  intros Hv. assert (0 < 10 ^ Z.of_nat n) by (apply Z.pow_pos_nonneg; lia).
  apply eq_true_iff_eq. rewrite Z.eqb_eq, Z.ltb_lt. rewrite Z.div_small_iff by lia. lia.
Qed.

(** The BCD writer on every value: the digits when they fit, otherwise the
    sticky constraint error with nothing written. *)
Lemma write_bcd_spec v n w bits :
  w ⊨ bits -> 0 <= v -> (0 < n <= 16)%nat -> room (4 * Z.of_nat n) w ->
  if v <? 10 ^ Z.of_nat n then
    exists w', write_bcd v (4 * Z.of_nat n) w = Some w' /\ w' ⊨ bits ++ to_bits (4 * n) (bcd n v)
  else exists msg, write_bcd v (4 * Z.of_nat n) w
         = Some (mkWriter (data_ w) (bit_pos_ w) (Some (new_error EncodeConstraintViolation msg))).
Proof.
  intros H Hv Hn Hr. unfold write_bcd. rewrite (repr_no_error _ _ H).
  rewrite (Z.mul_comm 4), Z.mod_mul, Z.div_mul, (Z.mul_comm _ 4) by lia. cbn [negb Z.eqb].
  rewrite (proj2 (Z.eqb_neq (4 * _) 0)), (proj2 (Z.ltb_ge 16 _)) by lia.
  cbv zeta. rewrite Nat2Z.id, pack_bcd_spec by (simpl; lia).
  rewrite div_pow10_zero by done. destruct (v <? 10 ^ Z.of_nat n); cbn [negb].
  - change (2 ^ (4 * 0)) with 1. rewrite Z.add_0_l, Z.mul_1_r.
    replace (4 * Z.of_nat n) with (Z.of_nat (4 * n)) in * by lia.
    apply write_bits_repr; [done|lia|done].
  - eexists. unfold set_error. destruct H as (? & _ & [-> _ _ _]). done.
Qed.

Lemma abs_u64_abs v : - 2 ^ 63 <= v < 2 ^ 63 -> abs_u64 v = Z.abs v.
Proof.
  intros Hv. unfold abs_u64, as_u64. destruct (Z.ltb_spec v 0).
  - assert (Z.lnot v = - v - 1) as -> by (pose proof (Z.add_lnot_diag v); lia).
    rewrite (wrap_small 64 (- v - 1)) by lia. rewrite wrap_small; lia.
  - rewrite wrap_small; lia.
Qed.

(** The final or of the sign bit is an addition and never undefined. *)
Lemma or_sign_bit v k raw : 0 <= k < 64 -> 0 <= raw < 2 ^ k ->
  (if v <? 0 then m ← shl1_64 k; Some (Z.lor raw m) else Some raw) = Some (sign_bit v k + raw).
Proof.
  intros Hk Hraw. unfold sign_bit, shl1_64. destruct (v <? 0); [|done].
  rewrite (proj2 (Z.leb_le 0 k)), (proj2 (Z.ltb_lt k 64)) by lia. cbn [andb mbind option_bind].
  f_equal. rewrite Z.lor_comm, lor_disjoint by lia. lia.
Qed.

Lemma write_bcd_signed_repr v n w bits :
  w ⊨ bits -> - 2 ^ 63 <= v < 2 ^ 63 -> (0 < n <= 15)%nat -> room (4 * Z.of_nat n + 1) w ->
  if Z.abs v <? 10 ^ Z.of_nat n then
    exists w', write_bcd_signed v (4 * Z.of_nat n + 1) w = Some w'
      /\ w' ⊨ bits ++ to_bits (4 * n + 1) (sign_bit v (4 * Z.of_nat n) + bcd n (Z.abs v))
  else exists msg, write_bcd_signed v (4 * Z.of_nat n + 1) w
         = Some (mkWriter (data_ w) (bit_pos_ w) (Some (new_error EncodeConstraintViolation msg))).
Proof.
  intros H Hv Hn Hr. unfold write_bcd_signed. rewrite (repr_no_error _ _ H).
  rewrite Z.add_simpl_r, (Z.mul_comm 4), Z.mod_mul, Z.div_mul, (Z.mul_comm _ 4) by lia.
  rewrite (proj2 (Z.ltb_ge _ 5)), (proj2 (Z.ltb_ge 15 _)) by lia. cbn [negb Z.eqb].
  cbv zeta. rewrite Nat2Z.id, abs_u64_abs, pack_bcd_spec by (simpl; lia).
  rewrite div_pow10_zero by lia. destruct (Z.abs v <? 10 ^ Z.of_nat n); cbn [negb].
  - change (2 ^ (4 * 0)) with 1. rewrite Z.add_0_l, Z.mul_1_r.
    rewrite or_sign_bit by (try apply bcd_range; lia). cbn [mbind option_bind].
    replace (4 * Z.of_nat n + 1) with (Z.of_nat (4 * n + 1)) in * by lia.
    apply write_bits_repr; [done|lia|done].
  - eexists. unfold set_error. destruct H as (? & _ & [-> _ _ _]). done.
Qed.

Lemma write_sign_magnitude_repr v n w bits :
  w ⊨ bits -> - 2 ^ 63 <= v < 2 ^ 63 -> (1 < n <= 64)%nat -> room (Z.of_nat n) w ->
  if Z.abs v <? 2 ^ (Z.of_nat n - 1) then
    exists w', write_sign_magnitude v (Z.of_nat n) w = Some w'
      /\ w' ⊨ bits ++ to_bits n (sign_bit v (Z.of_nat n - 1) + Z.abs v)
  else exists msg, write_sign_magnitude v (Z.of_nat n) w
         = Some (mkWriter (data_ w) (bit_pos_ w) (Some (new_error EncodeConstraintViolation msg))).
Proof.
  intros H Hv Hn Hr.
  assert (shl1_64 (Z.of_nat n - 1) = Some (2 ^ (Z.of_nat n - 1))) as Hs.
  { unfold shl1_64. rewrite (proj2 (Z.leb_le _ _)), (proj2 (Z.ltb_lt _ _)) by lia.
    simpl. by rewrite Z.shiftl_1_l. }
  destruct (Z.ltb_spec (Z.abs v) (2 ^ (Z.of_nat n - 1))) as [Hlt|Hge].
  - assert (write_sign_magnitude v (Z.of_nat n) w
            = write_bits (sign_bit v (Z.of_nat n - 1) + Z.abs v) (Z.of_nat n) w) as ->.
    { unfold write_sign_magnitude. rewrite (repr_no_error _ _ H).
      rewrite (proj2 (Z.ltb_ge _ 2)) by lia. rewrite Hs at 1. cbn [mbind option_bind].
      rewrite abs_u64_abs by done. rewrite (proj2 (Z.ltb_ge _ _)) by lia. cbv zeta.
      rewrite land_mask, Z.mod_small by lia. by rewrite or_sign_bit by lia. }
    apply write_bits_repr; [done|lia|done].
  - unfold write_sign_magnitude. rewrite (repr_no_error _ _ H).
    rewrite (proj2 (Z.ltb_ge _ 2)), Hs by lia. cbn [mbind option_bind].
    rewrite abs_u64_abs by done. rewrite (proj2 (Z.ltb_lt _ _)) by lia.
    eexists. unfold set_error. destruct H as (? & _ & [-> _ _ _]). done.
Qed.

(** ** The writer's operations as one type *)

Inductive WriteOp :=
  | WBit (b : bool) | WBits (v : Z) (count : nat) | WSigned (v : Z) (count : nat)
  | WBcd (v : Z) (bits : nat) | WBcdSigned (v : Z) (bits : nat)
  | WSignMagnitude (v : Z) (bits : nat)
  | WU8 (v : Z) | WU16 (v : Z) (e : endian) | WU32 (v : Z) (e : endian) | WU64 (v : Z) (e : endian)
  | WF16 (v : Z) (e : endian) | WF32 (v : Z) (e : endian)
  | WF48 (v : Z) (e : endian) | WF64 (v : Z) (e : endian)
  | WBytes (l : list Z) | WString (str : list Z) (n : nat) (padding : Z)
  | WAlign | WAlignTo (boundary : nat)
  | WPatch8 (off v : Z) | WPatch16 (off v : Z) (e : endian) | WPatch32 (off v : Z) (e : endian).

Definition run_write (op : WriteOp) (w : BitWriter) : option BitWriter :=
  match op with
  | WBit b => write_bit b w
  | WBits v n => write_bits v (Z.of_nat n) w
  | WSigned v n => write_signed_bits v (Z.of_nat n) w
  | WBcd v n => write_bcd v (Z.of_nat n) w
  | WBcdSigned v n => write_bcd_signed v (Z.of_nat n) w
  | WSignMagnitude v n => write_sign_magnitude v (Z.of_nat n) w
  | WU8 v => Some (write_u8 v w)
  | WU16 v e => Some (write_u16 v e w)
  | WU32 v e => Some (write_u32 v e w)
  | WU64 v e => Some (write_u64 v e w)
  | WF16 v e => Some (write_f16 v e w)
  | WF32 v e => Some (write_f32 v e w)
  | WF48 v e => write_f48 v e w
  | WF64 v e => Some (write_f64 v e w)
  | WBytes l => Some (write_bytes l w)
  | WString str n p => Some (snd (write_string str (Z.of_nat n) p w))
  | WAlign => Some (align_to_byte w)
  | WAlignTo b => Some (align_to (Z.of_nat b) w)
  | WPatch8 off v => snd <$> patch_u8 off v w
  | WPatch16 off v e => snd <$> patch_u16 off v e w
  | WPatch32 off v e => snd <$> patch_u32 off v e w
  end.

(** *** Abstract meaning: a function on bit strings

    [None] is a rejected argument: the writer records an error and keeps the
    bits it has. *)

Definition boundary_pad (n b : nat) : nat := if decide (b = 0)%nat then 0%nat else ((b - n mod b) mod b)%nat.

Definition patch_bits (bits : list bool) (off : Z) (l : list Z) : list bool :=
  take (8 * Z.to_nat off) bits ++ bytes_bits l ++ drop (8 * (Z.to_nat off + length l)) bits.

Definition spec_patch (bits : list bool) (off : Z) (l : list Z) : option (list bool) :=
  if 8 * (off + len l) <=? len bits then Some (patch_bits bits off l) else None.

Definition spec_write (op : WriteOp) (bits : list bool) : option (list bool) :=
  match op with
  | WBit b => Some (bits ++ [b])
  | WBits v n | WSigned v n => if Nat.leb n 64 then Some (bits ++ to_bits n v) else None
  | WBcd v n =>
      let k := (n / 4)%nat in
      if Nat.eqb (n mod 4) 0 && Nat.leb k 16 && (Nat.eqb n 0 || (v <? 10 ^ Z.of_nat k))
      then Some (bits ++ to_bits n (bcd k v)) else None
  | WBcdSigned v n =>
      let k := ((n - 1) / 4)%nat in
      if Nat.leb 5 n && Nat.eqb ((n - 1) mod 4) 0 && Nat.leb k 15 && (Z.abs v <? 10 ^ Z.of_nat k)
      then Some (bits ++ to_bits n (sign_bit v (Z.of_nat n - 1) + bcd k (Z.abs v))) else None
  | WSignMagnitude v n =>
      if Nat.leb 2 n && (Z.abs v <? 2 ^ (Z.of_nat n - 1))
      then Some (bits ++ to_bits n (sign_bit v (Z.of_nat n - 1) + Z.abs v)) else None
  | WU8 v => Some (align8 bits ++ bytes_bits [v])
  | WU16 v e => Some (align8 bits ++ bytes_bits (wire_bytes e 2 v))
  | WU32 v e | WF32 v e => Some (align8 bits ++ bytes_bits (wire_bytes e 4 v))
  | WU64 v e | WF64 v e => Some (align8 bits ++ bytes_bits (wire_bytes e 8 v))
  | WF16 v e => Some (align8 bits ++ bytes_bits (wire_bytes e 2 (f32_to_f16 v)))
  | WF48 v e => Some (align8 bits ++ bytes_bits (wire_bytes e 6 (f64_to_f48 v)))
  | WBytes l => Some (align8 bits ++ bytes_bits l)
  | WString str n p => Some (align8 bits ++ bytes_bits (padded str n p))
  | WAlign => Some (align8 bits)
  | WAlignTo b =>
      if decide (b = 0)%nat then Some bits
      else Some (align8 bits ++ zeros (8 * boundary_pad (length (align8 bits) / 8) b))
  | WPatch8 off v => spec_patch bits off [v]
  | WPatch16 off v e => spec_patch bits off (wire_bytes e 2 v)
  | WPatch32 off v e => spec_patch bits off (wire_bytes e 4 v)
  end.

(** The error a rejected operation records. *)
Definition spec_error (op : WriteOp) : ErrorCode :=
  match op with
  | WBcd _ n =>
      if Nat.eqb (n mod 4) 0 && Nat.leb (n / 4) 16 then EncodeConstraintViolation else EncodingFailed
  | WBcdSigned _ n =>
      if Nat.leb 5 n && Nat.eqb ((n - 1) mod 4) 0 && Nat.leb ((n - 1) / 4) 15
      then EncodeConstraintViolation else EncodingFailed
  | WSignMagnitude _ n => if Nat.leb 2 n then EncodeConstraintViolation else EncodingFailed
  | WPatch8 _ _ | WPatch16 _ _ _ | WPatch32 _ _ _ => BufferOverrun
  | _ => EncodingFailed
  end.

(** Argument types of the source ([uint64_t], [int64_t], [size_t], bytes), the
    bits of headroom the operation needs below [SIZE_MAX], the 64-bit limit of
    [write_sign_magnitude], and patches over completed bytes or past the end. *)
Definition op_bits (op : WriteOp) : Z :=
  match op with
  | WBit _ => 1
  | WBits _ n | WSigned _ n | WBcd _ n | WBcdSigned _ n | WSignMagnitude _ n => Z.of_nat n
  | WU8 _ => 15 | WU16 _ _ | WF16 _ _ => 23 | WU32 _ _ | WF32 _ _ => 39
  | WU64 _ _ | WF64 _ _ => 71 | WF48 _ _ => 55
  | WBytes l => 8 * len l + 7
  | WString _ n _ => 8 * Z.of_nat n + 7
  | WAlign => 7
  | WAlignTo b => 8 * Z.of_nat b + 7
  | WPatch8 _ _ | WPatch16 _ _ _ | WPatch32 _ _ _ => 0
  end.

Definition patch_ok (off n : Z) (bits : list bool) : Prop :=
  0 <= off /\ off + n <= SIZE_MAX /\ (8 * (off + n) <= len bits \/ len (align8 bits) < 8 * (off + n)).

Definition op_args_ok (op : WriteOp) (bits : list bool) : Prop :=
  match op with
  | WBits v _ | WBcd v _ | WU64 v _ | WF64 v _ | WF48 v _ => 0 <= v < 2 ^ 64
  | WSigned v _ | WBcdSigned v _ => - 2 ^ 63 <= v < 2 ^ 63
  | WSignMagnitude v n => - 2 ^ 63 <= v < 2 ^ 63 /\ (n <= 64)%nat
  | WU8 v => is_byte v
  | WU16 v _ => 0 <= v < 2 ^ 16
  | WU32 v _ | WF16 v _ | WF32 v _ => 0 <= v < 2 ^ 32
  | WBytes l => Forall is_byte l
  | WString str _ _ => Forall is_byte str
  | WPatch8 off v => is_byte v /\ patch_ok off 1 bits
  | WPatch16 off v _ => patch_ok off 2 bits
  | WPatch32 off v _ => patch_ok off 4 bits
  | WBit _ | WAlign | WAlignTo _ => True
  end.

(** *** Each operation implements its meaning *)

Definition rejects (c : ErrorCode) (w w' : BitWriter) : Prop :=
  exists m, w' = mkWriter (data_ w) (bit_pos_ w) (Some (new_error c m)).

Definition implements (o : option BitWriter) (w : BitWriter) (spec : option (list bool))
    (c : ErrorCode) : Prop :=
  exists w', o = Some w' /\ match spec with Some bits' => w' ⊨ bits' | None => rejects c w w' end.

Lemma implements_ok o w bits' c : (exists w', o = Some w' /\ w' ⊨ bits') -> implements o w (Some bits') c.
Proof. done. Qed.

Lemma implements_reject c m w bits : w ⊨ bits -> implements (Some (set_error c m w)) w None c.
Proof.
  intros (? & _ & [He _ _ _]). eexists; split; [done|].
  unfold set_error. rewrite He. by exists m.
Qed.

#[export] Hint Resolve implements_reject implements_ok : conduit.

Lemma write_bits_implements v n w bits :
  w ⊨ bits -> room (Z.of_nat n) w ->
  implements (write_bits v (Z.of_nat n) w) w
    (if Nat.leb n 64 then Some (bits ++ to_bits n v) else None) EncodingFailed.
Proof.
  intros H Hr. destruct (Nat.leb_spec n 64); [by apply implements_ok, write_bits_repr|].
  unfold write_bits. rewrite (repr_no_error _ _ H), (proj2 (Z.ltb_lt _ _)) by lia.
  by eapply implements_reject.
Qed.

Lemma write_bcd_implements v n w bits :
  w ⊨ bits -> 0 <= v -> room (Z.of_nat n) w ->
  implements (write_bcd v (Z.of_nat n) w) w (spec_write (WBcd v n) bits) (spec_error (WBcd v n)).
Proof.
  intros H Hv Hr. cbn [spec_write spec_error]. pose proof (Nat.div_mod_eq n 4) as En.
  destruct (Nat.eqb_spec (n mod 4) 0) as [Em|Em]; cbn [andb].
  2: { unfold write_bcd. rewrite (repr_no_error _ _ H).
       change 4 with (Z.of_nat 4). rewrite of_nat_mod_eqb, (proj2 (Nat.eqb_neq _ 0)) by done.
       by eapply implements_reject. }
  rewrite Em, Nat.add_0_r in En. set (k := (n / 4)%nat) in *. clearbody k. subst n.
  destruct (Nat.eqb_spec (4 * k) 0) as [E0|E0].
  { assert (k = 0%nat) as -> by lia. cbn. unfold write_bcd. rewrite (repr_no_error _ _ H). simpl.
    rewrite app_nil_r. eauto with conduit. }
  destruct (Nat.leb_spec k 16); cbn [andb orb].
  - rewrite Nat2Z.inj_mul. pose proof (write_bcd_spec v k w bits H Hv) as Hs.
    rewrite Nat2Z.inj_mul in Hr. specialize (Hs ltac:(lia) Hr).
    change (Z.of_nat 4) with 4. destruct (v <? _); [done|].
    destruct Hs as [msg ->]. by eexists; split; [|eexists].
  - unfold write_bcd. rewrite (repr_no_error _ _ H).
    replace (Z.of_nat (4 * k)) with (Z.of_nat k * 4) by lia. rewrite Z.mod_mul, Z.div_mul by lia.
    cbn [negb Z.eqb]. rewrite (proj2 (Z.eqb_neq _ 0)), (proj2 (Z.ltb_lt 16 _)) by lia.
    by eapply implements_reject.
Qed.

Lemma write_bcd_signed_implements v n w bits :
  w ⊨ bits -> - 2 ^ 63 <= v < 2 ^ 63 -> room (Z.of_nat n) w ->
  implements (write_bcd_signed v (Z.of_nat n) w) w (spec_write (WBcdSigned v n) bits) (spec_error (WBcdSigned v n)).
Proof.
  intros H Hv Hr. cbn [spec_write spec_error].
  destruct (Nat.leb_spec 5 n) as [H5|H5]; cbn [andb].
  2: { unfold write_bcd_signed. rewrite (repr_no_error _ _ H), (proj2 (Z.ltb_lt _ 5)) by lia.
       by eapply implements_reject. }
  pose proof (Nat.div_mod_eq (n - 1) 4) as En.
  destruct (Nat.eqb_spec ((n - 1) mod 4) 0) as [Em|Em]; cbn [andb].
  2: { unfold write_bcd_signed. rewrite (repr_no_error _ _ H), (proj2 (Z.ltb_ge _ 5)) by lia.
       replace (Z.of_nat n - 1) with (Z.of_nat (n - 1)) by lia. change 4 with (Z.of_nat 4).
       rewrite of_nat_mod_eqb, (proj2 (Nat.eqb_neq _ 0)) by done. by eapply implements_reject. }
  rewrite Em, Nat.add_0_r in En. set (k := ((n - 1) / 4)%nat) in *. clearbody k.
  assert (n = 4 * k + 1)%nat as -> by lia. clear En Em.
  replace (Z.of_nat (4 * k + 1)) with (4 * Z.of_nat k + 1) in * by lia.
  destruct (Nat.leb_spec k 15); cbn [andb].
  - pose proof (write_bcd_signed_repr v k w bits H Hv ltac:(lia) Hr) as Hs.
    rewrite Z.add_simpl_r. destruct (Z.abs v <? _); [done|].
    destruct Hs as [msg ->]. by eexists; split; [|eexists].
  - unfold write_bcd_signed. rewrite (repr_no_error _ _ H), (proj2 (Z.ltb_ge _ 5)) by lia.
    rewrite Z.add_simpl_r, Z.mul_comm, Z.mod_mul, Z.div_mul by lia.
    cbn [negb Z.eqb]. rewrite (proj2 (Z.ltb_lt 15 _)) by lia. by eapply implements_reject.
Qed.

Lemma write_sign_magnitude_implements v n w bits :
  w ⊨ bits -> - 2 ^ 63 <= v < 2 ^ 63 -> (n <= 64)%nat -> room (Z.of_nat n) w ->
  implements (write_sign_magnitude v (Z.of_nat n) w) w (spec_write (WSignMagnitude v n) bits) (spec_error (WSignMagnitude v n)).
Proof.
  intros H Hv Hn Hr. cbn [spec_write spec_error]. destruct (Nat.leb_spec 2 n) as [H2|H2]; cbn [andb].
  - pose proof (write_sign_magnitude_repr v n w bits H Hv ltac:(lia) Hr) as Hs.
    destruct (Z.abs v <? _); [done|]. destruct Hs as [msg ->]. by eexists; split; [|eexists].
  - unfold write_sign_magnitude. rewrite (repr_no_error _ _ H), (proj2 (Z.ltb_lt _ 2)) by lia.
    by eapply implements_reject.
Qed.

(** Whole zero bytes written one by one. *)
Lemma iter_zero_bytes k w bits :
  holds w bits 0 -> room (8 * Z.of_nat k) w -> (length bits mod 8 = 0)%nat ->
  holds (Nat.iter k (write_u8 0) w) (bits ++ zeros (8 * k)) 0.
Proof.
  intros H Hr Hm. induction k as [|k IH]; [simpl; by rewrite app_nil_r|].
  rewrite Nat.iter_succ. specialize (IH ltac:(unfold room in *; lia)).
  set (w' := Nat.iter k (write_u8 0) w) in *.
  unfold write_u8. rewrite (holds_no_error _ _ _ IH).
  assert (align_to_byte w' = w') as ->.
  { unfold align_to_byte. by rewrite (proj2 (holds_aligned _ _ _ IH ltac:(lia)) eq_refl). }
  replace (8 * S k)%nat with (8 * k + 8)%nat by lia. rewrite <- zeros_app, app_assoc.
  apply (holds_push_byte w' _ 0 8 IH); [split; lia|done|].
  unfold room in *. rewrite (holds_pos _ _ _ IH), len_app, <- (holds_pos _ _ _ H).
  unfold len. rewrite length_replicate. lia.
Qed.

Lemma holds_size w bits : holds w bits 0 -> room 0 w -> size_bytes w = Z.of_nat (length bits / 8).
Proof.
  intros H Hr. pose proof (holds_length _ _ _ H) as EL. pose proof (holds_pos _ _ _ H) as Ep.
  unfold size_bytes, room in *. pose proof (len_nonneg bits).
  rewrite sz_small, <- of_nat_div8 by (unfold SIZE_MAX in *; lia). fold (len bits). div_lia.
Qed.

Lemma align_to_implements b w bits :
  w ⊨ bits -> room (8 * Z.of_nat b + 7) w ->
  implements (Some (align_to (Z.of_nat b) w)) w (spec_write (WAlignTo b) bits) (spec_error (WAlignTo b)).
Proof.
  intros H Hr. cbn [spec_write spec_error]. unfold align_to. case_decide as Hb; [by subst; eauto with conduit|].
  rewrite (proj2 (Z.eqb_neq _ 0)) by lia.
  pose proof (align_to_byte_holds w bits H ltac:(unfold room in *; lia)) as Ha.
  set (a := align_to_byte w) in *. pose proof (align8_mod bits) as Hm.
  assert (room (8 * Z.of_nat b) a) as Hra.
  { unfold room in *. rewrite (holds_pos _ _ _ Ha), align8_len, <- (repr_pos _ _ H).
    pose proof (pad8_lt (length bits)). lia. }
  cbv zeta. rewrite (holds_size a _ Ha) by (unfold room in *; lia).
  set (q := (length (align8 bits) / 8)%nat). rewrite of_nat_mod_eqb. unfold boundary_pad.
  rewrite decide_False by done. pose proof (Nat.mod_upper_bound q b Hb).
  apply implements_ok. eexists; split; [done|]. exists 0%nat. split; [lia|].
  destruct (Nat.eqb_spec (q mod b) 0) as [E|E]; cbn [negb].
  - rewrite E, Nat.sub_0_r, Nat.Div0.mod_same. cbn. by rewrite app_nil_r.
  - rewrite Nat.mod_small by lia. rewrite <- Nat2Z.inj_mod.
    replace (Z.to_nat (Z.of_nat b - Z.of_nat (q mod b))) with (b - q mod b)%nat by lia.
    apply iter_zero_bytes; [done|unfold room in *; lia|done].
Qed.

(** Patching completed bytes replaces exactly their bits. *)
Lemma holds_patch w bits pad off l :
  holds w bits pad -> Forall is_byte l -> 0 <= off -> 8 * (off + len l) <= len bits ->
  holds (mkWriter (take (Z.to_nat off) (data_ w) ++ l ++ drop (Z.to_nat off + length l) (data_ w))
           (bit_pos_ w) (error_ w)) (patch_bits bits off l) pad.
Proof.
  intros H Hl Ho Hr. pose proof (holds_length _ _ _ H) as EL. destruct H as [He Hd Hp Hb].
  unfold patch_bits, len in *. split; cbn [error_ data_ bit_pos_].
  - done.
  - apply Forall_app; split; [by apply Forall_take|]. apply Forall_app; split; [done|by apply Forall_drop].
  - rewrite Hp. unfold len. rewrite !length_app, length_take, length_bytes_bits, length_drop. lia.
  - rewrite !bytes_bits_app, <- take_bytes_bits, <- drop_bytes_bits, Hb.
    rewrite take_app_le, drop_app_le by lia. by rewrite <- !app_assoc.
Qed.

Lemma holds_data_len w bits pad : holds w bits pad -> (pad < 8)%nat -> 8 * len (data_ w) = len (align8 bits).
Proof.
  intros H Hp. rewrite align8_len, <- (holds_pad8 _ _ _ H Hp). by apply holds_length.
Qed.

Lemma spec_patch_implements w bits off l f :
  w ⊨ bits -> Forall is_byte l -> patch_ok off (len l) bits ->
  (8 * (off + len l) <= len bits ->
     f = Some (take (Z.to_nat off) (data_ w) ++ l ++ drop (Z.to_nat off + length l) (data_ w))) ->
  forall c m, implements
    (if len (data_ w) <? sz (off + len l) then Some (set_error c m w)
     else d ← f; Some (mkWriter d (bit_pos_ w) (error_ w))) w (spec_patch bits off l) c.
Proof.
  intros H Hl (Ho & Hmax & Hr) Hf c m. pose proof H as (pad & Hpad & Hh).
  pose proof (holds_data_len _ _ _ Hh Hpad) as ED. pose proof (align8_len bits).
  pose proof (len_nonneg l). rewrite sz_small by lia. unfold spec_patch.
  destruct (Z.leb_spec (8 * (off + len l)) (len bits)).
  - rewrite (proj2 (Z.ltb_ge _ _)), Hf by lia. cbn [mbind option_bind].
    apply implements_ok. eexists; split; [done|]. exists pad. split; [done|]. by apply holds_patch.
  - rewrite (proj2 (Z.ltb_lt _ _)) by lia. by eapply implements_reject.
Qed.

Lemma patch_u8_implements off v w bits :
  w ⊨ bits -> is_byte v -> patch_ok off 1 bits ->
  implements (snd <$> patch_u8 off v w) w (spec_write (WPatch8 off v) bits) (spec_error (WPatch8 off v)).
Proof.
  intros H Hv Hok. unfold patch_u8. rewrite (repr_no_error _ _ H). cbn [spec_write spec_error].
  pose proof H as (pad & Hpad & Hh). pose proof (holds_length _ _ _ Hh) as EL.
  pose proof Hok as (Ho & Hmax & _).
  set (err := set_error _ _ w).
  assert (implements (if len (data_ w) <? sz (off + len [v]) then Some err
    else d ← store (data_ w) off (fun _ => v); Some (mkWriter d (bit_pos_ w) (error_ w))) w
    (spec_patch bits off [v]) BufferOverrun) as Hi.
  { apply spec_patch_implements; [done|by constructor|done|]. intros Hr. unfold len in Hr; simpl in Hr.
    unfold store, at_. rewrite (proj2 (Z.leb_le _ _)) by lia.
    destruct (lookup_lt_is_Some_2 (data_ w) (Z.to_nat off)) as [b Eb]; [unfold len in *; lia|].
    rewrite Eb. cbn [mbind option_bind].
    rewrite insert_take_drop by (apply lookup_lt_is_Some_1; eauto).
    simpl. by replace (Z.to_nat off + 1)%nat with (S (Z.to_nat off)) by lia. }
  change (len [v]) with 1 in Hi. rewrite sz_small in Hi by lia.
  replace (len (data_ w) <=? off) with (len (data_ w) <? off + 1)
    by (apply eq_true_iff_eq; rewrite Z.ltb_lt, Z.leb_le; lia).
  destruct (_ <? _); [done|]. destruct (store _ _ _); [done|by destruct Hi as (? & ? & _)].
Qed.

(** The wider patches store the same bytes as the byte-order module. *)
Lemma patch_wide_implements (W : width) off v e w bits c m :
  let n := Z.of_nat (width_bytes W) in
  w ⊨ bits -> patch_ok off n bits -> room 0 w ->
  implements (if len (data_ w) <? sz (off + n) then Some (set_error c m w)
              else d ← write_uint W (data_ w) off v e; Some (mkWriter d (bit_pos_ w) (error_ w))) w
    (spec_patch bits off (wire_bytes e (width_bytes W) v)) c.
Proof.
  intros n H Hok Hroom.
  assert (len (wire_bytes e (width_bytes W) v) = n) as El by (unfold len; by rewrite length_wire_bytes).
  rewrite <- El in *. apply spec_patch_implements; [done|auto with conduit|done|].
  intros Hr. pose proof H as (pad & Hpad & Hh). pose proof (holds_length _ _ _ Hh) as EL.
  destruct Hok as (Ho & Hmax & _). rewrite write_uint_slice; [by rewrite length_wire_bytes|].
  rewrite El in *. unfold slice_ok. fold n. pose proof (holds_pos _ _ _ Hh).
  assert (0 <= n) by (unfold n; lia). unfold room in Hroom. split_and!; lia.
Qed.

Lemma patch_u16_implements off v e w bits :
  w ⊨ bits -> patch_ok off 2 bits -> room 0 w ->
  implements (snd <$> patch_u16 off v e w) w (spec_write (WPatch16 off v e) bits) (spec_error (WPatch16 off v e)).
Proof.
  intros H Hok Hr. unfold patch_u16. rewrite (repr_no_error _ _ H).
  set (msg := (_ +:+ _)%string).
  pose proof (patch_wide_implements W16 off v e w bits BufferOverrun msg H Hok Hr) as Hi.
  cbn [write_uint] in Hi. unfold Endian.write_u16 in Hi. change (Z.of_nat _) with 2 in Hi.
  cbn [spec_write spec_error]. destruct (_ <? _); [done|].
  destruct (match e with Big => _ | Little => _ end); [done|by destruct Hi as (? & ? & _)].
Qed.

Lemma patch_u32_implements off v e w bits :
  w ⊨ bits -> patch_ok off 4 bits -> room 0 w ->
  implements (snd <$> patch_u32 off v e w) w (spec_write (WPatch32 off v e) bits) (spec_error (WPatch32 off v e)).
Proof.
  intros H Hok Hr. unfold patch_u32. rewrite (repr_no_error _ _ H).
  set (msg := (_ +:+ _)%string).
  pose proof (patch_wide_implements W32 off v e w bits BufferOverrun msg H Hok Hr) as Hi.
  cbn [write_uint] in Hi. unfold Endian.write_u32 in Hi. change (Z.of_nat _) with 4 in Hi.
  cbn [spec_write spec_error]. destruct (_ <? _); [done|].
  destruct (match e with Big => _ | Little => _ end); [done|by destruct Hi as (? & ? & _)].
Qed.

Lemma run_write_implements op w bits :
  w ⊨ bits -> op_args_ok op bits -> room (op_bits op) w ->
  implements (run_write op w) w (spec_write op bits) (spec_error op).
Proof.
  intros H Hok Hr. pose proof (repr_no_error _ _ H) as He.
  destruct op; cbn [run_write op_args_ok op_bits] in *; try (apply implements_ok).
  - by apply write_bit_repr.
  - by apply write_bits_implements.
  - unfold write_signed_bits. rewrite He.
    pose proof (write_bits_implements (as_u64 v) count w bits H Hr) as Hi.
    cbn [spec_write spec_error]. destruct (Nat.leb_spec count 64); [|done].
    unfold as_u64 in *. by rewrite to_bits_wrap in Hi by lia.
  - apply write_bcd_implements; [done|lia|done].
  - by apply write_bcd_signed_implements.
  - destruct Hok. by apply write_sign_magnitude_implements.
  - eexists; split; [done|]. by apply write_u8_repr.
  - eexists; split; [done|]. by apply write_u16_repr.
  - eexists; split; [done|]. by apply write_u32_repr.
  - eexists; split; [done|]. by apply write_u64_repr.
  - eexists; split; [done|]. unfold write_f16. rewrite He. by apply write_u16_repr.
  - eexists; split; [done|]. unfold write_f32. rewrite He. by apply write_u32_repr.
  - by apply write_f48_repr.
  - eexists; split; [done|]. unfold write_f64. rewrite He. by apply write_u64_repr.
  - eexists; split; [done|]. by apply write_bytes_repr.
  - eexists; split; [done|]. by apply write_string_repr.
  - eexists; split; [done|]. by apply align_to_byte_repr.
  - by apply align_to_implements.
  - destruct Hok. by apply patch_u8_implements.
  - by apply patch_u16_implements.
  - by apply patch_u32_implements.
Qed.

(** *** After the first error

    The guarded operations do nothing; [write_bit] and the alignments do not
    test the error flag and still move the position, but the error stays. *)

Definition with_error (e : Error) (w : BitWriter) : BitWriter :=
  mkWriter (data_ w) (bit_pos_ w) (Some e).

Definition spec_failed (op : WriteOp) (bits : list bool) : list bool :=
  match op with
  | WBit b => bits ++ [b]
  | WAlign => align8 bits
  | WAlignTo b => if decide (b = 0)%nat then bits else align8 bits
  | _ => bits
  end.

Lemma or_byte_error e i m w : or_byte i m (with_error e w) = with_error e <$> or_byte i m w.
Proof. unfold or_byte; simpl. by destruct (store _ _ _). Qed.

Lemma ensure_capacity_error e n w : ensure_capacity n (with_error e w) = with_error e w.
Proof. unfold ensure_capacity. by destruct (_ <? _). Qed.

Lemma write_bit_error e b w bits :
  w ⊨ bits -> room 1 w -> write_bit b (with_error e w) = with_error e <$> write_bit b w.
Proof.
  intros H Hr. unfold write_bit. rewrite ensure_capacity_error.
  rewrite ensure_capacity_room by (try done; rewrite ?(repr_pos _ _ H); auto with conduit; lia).
  cbn [with_error bit_pos_ data_ error_]. destruct (bit_pos_ w mod 8 =? 0).
  - destruct b; [|done]. change (push_back 0 (with_error e w)) with (with_error e (push_back 0 w)).
    rewrite or_byte_error. unfold current_byte_index. cbn [with_error push_back bit_pos_].
    by destruct (or_byte _ _ _).
  - destruct b; [|done]. rewrite or_byte_error. unfold current_byte_index. cbn [with_error bit_pos_].
    by destruct (or_byte _ _ _).
Qed.

Lemma align_to_byte_error e w : align_to_byte (with_error e w) = with_error e (align_to_byte w).
Proof. unfold align_to_byte; simpl. by destruct (bit_pos_ w mod 8 =? 0). Qed.

Lemma failed_step op e w bits :
  w ⊨ bits -> room (op_bits op) w ->
  exists w', run_write op (with_error e w) = Some (with_error e w') /\ w' ⊨ spec_failed op bits.
Proof.
  intros H Hr. destruct op; cbn [run_write spec_failed op_bits] in *; try (by exists w).
  - rewrite (write_bit_error _ _ _ _ H Hr).
    destruct (write_bit_repr b w bits H Hr) as (w' & -> & H'). by exists w'.
  - rewrite align_to_byte_error. eexists; split; [done|]. by apply align_to_byte_repr.
  - unfold align_to. case_decide; [subst; by exists w|].
    rewrite (proj2 (Z.eqb_neq _ 0)), align_to_byte_error by lia. cbv zeta.
    exists (align_to_byte w). split; [|apply align_to_byte_repr; [done|unfold room in *; lia]].
    destruct (negb _); [|done]. f_equal.
    induction (Z.to_nat _) as [|n IH]; [done|]. by rewrite Nat.iter_succ, IH.
Qed.

(** ** The optimised writer against the bit-by-bit loop *)

(** The byte-wise fast and slow paths of [write_bits] (whole bytes pushed,
    the partial byte or-ed) produce exactly the state that writing the bits
    one at a time with [write_bit], most significant first, would produce, at
    every position and for every count up to 64. *)
Theorem write_bits_bit_by_bit (w : BitWriter) (bits : list bool) (v : Z) (n : nat) :
  w ⊨ bits -> (n <= 64)%nat -> room (Z.of_nat n) w ->
  write_bits v (Z.of_nat n) w = write_bits_down n v w
  /\ exists w', write_bits v (Z.of_nat n) w = Some w' /\ w' ⊨ bits ++ to_bits n v.
Proof.
  intros H Hn Hr. destruct (write_bits_repr v n w bits H Hn Hr) as (w1 & -> & H1).
  destruct (write_bits_down_repr n v w bits H Hr) as (w2 & -> & H2).
  split; [|by exists w1]. by rewrite (repr_functional _ _ _ H1 H2).
Qed.

Lemma write_bits_bit_by_bit_witness :
  exists w, write_bits 5 3 new_writer = Some w
    /\ write_bits 0xABC (Z.of_nat 12) w = write_bits_down 12 0xABC w.
Proof.
  exists (mkWriter [0xA0] 3 None). split; [reflexivity|].
  apply (write_bits_bit_by_bit _ (to_bits 3 5) 0xABC 12).
  - exists 5%nat. split; [lia|].
    split; [reflexivity|constructor; [unfold is_byte; lia|constructor]|reflexivity|reflexivity].
  - lia.
  - vm_compute. discriminate.
Defined.

(** ** Sign and magnitude beyond the width *)

(** [write_sign_magnitude] shifts by [bits - 1] before [write_bits] can
    reject a width above 64, so on a writer without error it is undefined
    exactly for widths above 64; the writer is otherwise always defined here. *)
Theorem write_sign_magnitude_undefined_iff (v bits : Z) (w : BitWriter) (written : list bool) :
  w ⊨ written -> - 2 ^ 63 <= v < 2 ^ 63 -> 0 <= bits <= SIZE_MAX -> room 64 w ->
  write_sign_magnitude v bits w = None <-> 64 < bits.
Proof.
  intros H Hv Hb Hr. destruct (Z.lt_ge_cases 64 bits) as [Hgt|Hle].
  - split; [done|]. intros _. unfold write_sign_magnitude.
    rewrite (repr_no_error _ _ H), (proj2 (Z.ltb_ge _ 2)) by lia.
    unfold shl1_64. by rewrite (proj2 (Z.ltb_ge _ 64)), andb_false_r by lia.
  - split; [|lia]. intros E.
    destruct (write_sign_magnitude_implements v (Z.to_nat bits) w written) as (w' & E' & _);
      [done|done|lia|unfold room in *; lia|].
    rewrite Z2Nat.id in E' by lia. congruence.
Qed.

Lemma write_sign_magnitude_undefined_iff_witness :
  write_sign_magnitude 1 65 new_writer = None.
Proof.
  apply (write_sign_magnitude_undefined_iff 1 65 new_writer []);
    [exact repr_new|lia|unfold SIZE_MAX; lia|vm_compute; discriminate|lia].
Defined.
