(* ===== verification/BitReader.v ===== *)
(** * BitReader

    Models [conduit/include/conduit/io/bit_reader.hpp] and
    [conduit/src/io/bit_reader.cpp].  A reading operation is a computation in
    the monad [R]: it takes the reader, and returns a [Result] with the advanced
    reader, or [None] when the C++ is undefined (a span indexed out of range, a
    [subspan] outside its span, a shift by the width).  [rest r] is the bit
    string still to be read; every operation is specified by what it takes off
    the front of it. *)

From stdpp Require Import base numbers list strings pretty.
From Stdlib Require Import ZArith Lia.
From S2P Require Import Prelude Bits CoreError Endian.

Open Scope Z_scope.

Record BitReader := mkReader {
  rdata_ : list Z;
  byte_pos_ : Z;
  rbit_pos_ : Z;  (* 0-7, bit within the current byte, 0 = MSB *)
}.

Definition new_reader (data : list Z) : BitReader := mkReader data 0 0.

(** ** The reader monad *)

Definition R (A : Type) : Type := BitReader -> option (Result A * BitReader).

Definition ret {A} (a : A) : R A := fun r => Some (Ok a, r).
Definition throw {A} (c : ErrorCode) (m : string) : R A :=
  fun r => Some (Fail (new_error c m), r).
(** [CONDUIT_TRY_ASSIGN]. *)
Definition bind {A B} (m : R A) (k : A -> R B) : R B := fun r =>
  match m r with
  | Some (Ok a, r') => k a r'
  | Some (Fail e, r') => Some (Fail e, r')
  | None => None
  end.
(** A step that may be undefined but never fails. *)
Definition lift {A} (o : option A) : R A := fun r => a ← o; Some (Ok a, r).

Declare Scope reader_scope.
Delimit Scope reader_scope with reader.
Notation "'let!' x ':=' m 'in' k" := (bind m (fun x => k))
  (at level 10, x name, m at level 100, k at level 200) : reader_scope.
Local Open Scope reader_scope.

(** ** Position and state *)

Definition remaining_bytes (r : BitReader) : Z :=
  if len (rdata_ r) <=? byte_pos_ r then 0
  else sz (len (rdata_ r) - byte_pos_ r - (if 0 <? rbit_pos_ r then 1 else 0)).

Definition remaining_bits (r : BitReader) : Z :=
  if len (rdata_ r) <=? byte_pos_ r then 0
  else sz ((len (rdata_ r) - byte_pos_ r) * 8 - rbit_pos_ r).

Definition bit_position (r : BitReader) : Z := sz (byte_pos_ r * 8 + rbit_pos_ r).
Definition at_end (r : BitReader) : bool := len (rdata_ r) <=? byte_pos_ r.
Definition reader_byte_aligned (r : BitReader) : bool := rbit_pos_ r =? 0.
Definition reset (r : BitReader) : BitReader := mkReader (rdata_ r) 0 0.
Definition underlying_data (r : BitReader) : list Z := rdata_ r.

Definition reader_advance (bits : Z) (r : BitReader) : BitReader :=
  let b := sz (rbit_pos_ r + bits) in
  mkReader (rdata_ r) (sz (byte_pos_ r + b / 8)) (b mod 8).

Definition skip_bits (count : Z) : R unit := fun r =>
  if remaining_bits r <? count then
    Some (Fail (new_error BufferUnderrun
      ("skip_bits: need " +:+ pretty count +:+ " bits, only "
       +:+ pretty (remaining_bits r) +:+ " remain")), r)
  else Some (Ok tt, reader_advance count r).

Definition reader_align_to_byte (r : BitReader) : BitReader :=
  if 0 <? rbit_pos_ r then mkReader (rdata_ r) (sz (byte_pos_ r + 1)) 0 else r.

Definition reader_align_to (byte_boundary : Z) (r : BitReader) : BitReader :=
  if byte_boundary =? 0 then r
  else
    let r := reader_align_to_byte r in
    let r := if (1 <? byte_boundary) && negb (byte_pos_ r mod byte_boundary =? 0)
             then mkReader (rdata_ r)
                    (sz (byte_pos_ r + (byte_boundary - byte_pos_ r mod byte_boundary)))
                    (rbit_pos_ r)
             else r in
    if len (rdata_ r) <? byte_pos_ r
    then mkReader (rdata_ r) (len (rdata_ r)) (rbit_pos_ r)
    else r.

(** ** Bit-level reading *)

(** The loop of [read_bits]; every round reads at least one bit, so [count]
    rounds are enough. *)
Fixpoint read_loop (fuel : nat) (result remaining : Z) (r : BitReader)
    : option (Z * BitReader) :=
  if remaining <=? 0 then Some (result, r)
  else match fuel with
  | O => None
  | S fuel =>
      let bits_in_byte := 8 - rbit_pos_ r in
      let bits_to_read := Z.min remaining bits_in_byte in
      let mask := u8 (if 8 <=? bits_to_read then 0xFF else Z.shiftl 1 bits_to_read - 1) in
      let shift := u8 (bits_in_byte - bits_to_read) in
      b ← at_ (rdata_ r) (byte_pos_ r);
      let bits := u8 (Z.land (Z.shiftr b shift) mask) in
      let result := Z.lor (wrap 64 (Z.shiftl result bits_to_read)) bits in
      read_loop fuel result (remaining - bits_to_read) (reader_advance bits_to_read r)
  end.

Definition read_bits (count : Z) : R Z := fun r =>
  if count =? 0 then Some (Ok 0, r)
  else if 64 <? count then
    Some (Fail (new_error InvalidArgument
      ("read_bits: requested " +:+ pretty count +:+ " bits, max is 64")), r)
  else if remaining_bits r <? count then
    Some (Fail (new_error BufferUnderrun
      ("read_bits: need " +:+ pretty count +:+ " bits, only "
       +:+ pretty (remaining_bits r) +:+ " remain")), r)
  else
    '(v, r') ← read_loop (Z.to_nat count) 0 count r;
    Some (Ok v, r').

(** [static_cast<int64_t>(val)]. *)
Definition as_i64 (v : Z) : Z := signed 64 (wrap 64 v).

Definition read_signed_bits (count : Z) : R Z :=
  if count =? 0 then ret 0
  else
    let! val := read_bits count in
    if 64 <=? count then ret (as_i64 val)
    else
      let! sign_bit := lift (shl1_64 (count - 1)) in
      if negb (Z.land val sign_bit =? 0) then
        let! m := lift (shl1_64 count) in
        let extension_mask := wrap 64 (Z.lnot (m - 1)) in
        ret (as_i64 (Z.lor val extension_mask))
      else ret (as_i64 val).

(** ** Aviation wire encodings *)

(** The digit loop of the BCD readers: [n] nibbles from nibble [i] up. *)
Fixpoint unpack_bcd (n : nat) (i raw result multiplier : Z) : Z + Z * Z :=
  match n with
  | O => inl result
  | S n =>
      let digit := u8 (Z.land (Z.shiftr raw (i * 4)) 0xF) in
      if 9 <? digit then inr (digit, i)
      else unpack_bcd n (i + 1) raw (wrap 64 (result + digit * multiplier))
             (wrap 64 (multiplier * 10))
  end.

Definition read_bcd (bits : Z) : R Z :=
  if bits =? 0 then ret 0
  else if negb (bits mod 4 =? 0) then
    throw InvalidArgument "read_bcd: bits must be a multiple of 4"
  else if 16 <? bits / 4 then
    throw InvalidArgument "read_bcd: max 64 bits (16 BCD digits) supported"
  else
    let! raw := read_bits bits in
    match unpack_bcd (Z.to_nat (bits / 4)) 0 raw 0 1 with
    | inl result => ret result
    | inr (digit, i) =>
        throw InvalidArgument
          ("read_bcd: invalid BCD digit " +:+ pretty digit +:+ " at nibble " +:+ pretty i)
    end.

Definition read_bcd_signed (bits : Z) : R Z :=
  if bits <? 5 then throw InvalidArgument "read_bcd_signed: bits must be >= 5"
  else if negb ((bits - 1) mod 4 =? 0) then
    throw InvalidArgument "read_bcd_signed: (bits - 1) must be a multiple of 4"
  else if 15 <? (bits - 1) / 4 then
    throw InvalidArgument "read_bcd_signed: max 61 bits (15 BCD digits + sign) supported"
  else
    let! raw := read_bits bits in
    let negative := negb (Z.land (Z.shiftr raw (bits - 1)) 1 =? 0) in
    let! m := lift (shl1_64 (bits - 1)) in
    let bcd_part := Z.land raw (m - 1) in
    match unpack_bcd (Z.to_nat ((bits - 1) / 4)) 0 bcd_part 0 1 with
    | inl result => ret (if negative then - result else result)
    | inr (digit, i) =>
        throw InvalidArgument
          ("read_bcd_signed: invalid BCD digit " +:+ pretty digit +:+ " at nibble " +:+ pretty i)
    end.

Definition read_sign_magnitude (bits : Z) : R Z :=
  if bits <? 2 then throw InvalidArgument "read_sign_magnitude: bits must be >= 2"
  else
    let! raw := read_bits bits in
    let negative := negb (Z.land (Z.shiftr raw (bits - 1)) 1 =? 0) in
    let! m := lift (shl1_64 (bits - 1)) in
    let magnitude := Z.land raw (m - 1) in
    ret (if negative then - as_i64 magnitude else as_i64 magnitude).

(** ** Byte-level reading *)

Definition underrun (op : string) (need : string) (r : BitReader) : Error :=
  new_error BufferUnderrun
    (op +:+ ": need " +:+ need +:+ ", have " +:+ pretty (remaining_bytes r) +:+ " remaining").

Definition set_byte_pos (p : Z) (r : BitReader) : BitReader :=
  mkReader (rdata_ r) p (rbit_pos_ r).

Definition read_u8 : R Z := fun r =>
  let r := reader_align_to_byte r in
  if len (rdata_ r) <=? byte_pos_ r then Some (Fail (underrun "read_u8" "1 byte" r), r)
  else
    v ← at_ (rdata_ r) (byte_pos_ r);
    Some (Ok v, set_byte_pos (sz (byte_pos_ r + 1)) r).

Definition read_u16 (e : endian) : R Z := fun r =>
  let r := reader_align_to_byte r in
  if len (rdata_ r) <? sz (byte_pos_ r + 2) then
    Some (Fail (underrun "read_u16" "2 bytes" r), r)
  else
    v ← Endian.read_u16 (rdata_ r) (byte_pos_ r) e;
    Some (Ok v, set_byte_pos (sz (byte_pos_ r + 2)) r).

Definition read_u32 (e : endian) : R Z := fun r =>
  let r := reader_align_to_byte r in
  if len (rdata_ r) <? sz (byte_pos_ r + 4) then
    Some (Fail (underrun "read_u32" "4 bytes" r), r)
  else
    v ← Endian.read_u32 (rdata_ r) (byte_pos_ r) e;
    Some (Ok v, set_byte_pos (sz (byte_pos_ r + 4)) r).

Definition read_u64 (e : endian) : R Z := fun r =>
  let r := reader_align_to_byte r in
  if len (rdata_ r) <? sz (byte_pos_ r + 8) then
    Some (Fail (underrun "read_u64" "8 bytes" r), r)
  else
    v ← Endian.read_u64 (rdata_ r) (byte_pos_ r) e;
    Some (Ok v, set_byte_pos (sz (byte_pos_ r + 8)) r).

Definition read_f16 (e : endian) : R Z := fun r =>
  let r := reader_align_to_byte r in
  if len (rdata_ r) <? sz (byte_pos_ r + 2) then
    Some (Fail (underrun "read_f16" "2 bytes" r), r)
  else
    v ← Endian.read_f16 (rdata_ r) (byte_pos_ r) e;
    Some (Ok v, set_byte_pos (sz (byte_pos_ r + 2)) r).

Definition read_f32 (e : endian) : R Z := fun r =>
  let r := reader_align_to_byte r in
  if len (rdata_ r) <? sz (byte_pos_ r + 4) then
    Some (Fail (underrun "read_f32" "4 bytes" r), r)
  else
    v ← Endian.read_f32 (rdata_ r) (byte_pos_ r) e;
    Some (Ok v, set_byte_pos (sz (byte_pos_ r + 4)) r).

Definition read_f48 (e : endian) : R Z := fun r =>
  let r := reader_align_to_byte r in
  if len (rdata_ r) <? sz (byte_pos_ r + 6) then
    Some (Fail (underrun "read_f48" "6 bytes" r), r)
  else
    v ← Endian.read_f48 (rdata_ r) (byte_pos_ r) e;
    Some (Ok v, set_byte_pos (sz (byte_pos_ r + 6)) r).

Definition read_f64 (e : endian) : R Z := fun r =>
  let r := reader_align_to_byte r in
  if len (rdata_ r) <? sz (byte_pos_ r + 8) then
    Some (Fail (underrun "read_f64" "8 bytes" r), r)
  else
    v ← Endian.read_f64 (rdata_ r) (byte_pos_ r) e;
    Some (Ok v, set_byte_pos (sz (byte_pos_ r + 8)) r).

(** ** Bulk reading and sub-readers *)

(** [data_.subspan(off, count)]: undefined unless [off <= size()] and
    [count <= size() - off]. *)
Definition subspan (data : list Z) (off count : Z) : option (list Z) :=
  if (off <=? len data) && (count <=? len data - off)
  then Some (take (Z.to_nat count) (drop (Z.to_nat off) data)) else None.

Definition read_bytes (count : Z) : R (list Z) := fun r =>
  let r := reader_align_to_byte r in
  if len (rdata_ r) <? sz (byte_pos_ r + count) then
    Some (Fail (underrun "read_bytes" (pretty count +:+ " bytes") r), r)
  else
    result ← subspan (rdata_ r) (byte_pos_ r) count;
    Some (Ok result, set_byte_pos (sz (byte_pos_ r + count)) r).

Definition read_string (byte_length : Z) : R (list Z) :=
  let! bytes := read_bytes byte_length in ret bytes.

Definition sub_reader (byte_count : Z) : R BitReader := fun r =>
  let r := reader_align_to_byte r in
  if len (rdata_ r) <? sz (byte_pos_ r + byte_count) then
    Some (Fail (underrun "sub_reader" (pretty byte_count +:+ " bytes") r), r)
  else
    sub_span ← subspan (rdata_ r) (byte_pos_ r) byte_count;
    Some (Ok (new_reader sub_span), set_byte_pos (sz (byte_pos_ r + byte_count)) r).

(** ** Well-formedness and the bits still to read *)

Record rwf (r : BitReader) : Prop := {
  rwf_bytes : Forall is_byte (rdata_ r);
  rwf_size : 8 * len (rdata_ r) + 8 <= SIZE_MAX;
  rwf_byte_pos : 0 <= byte_pos_ r <= len (rdata_ r);
  rwf_bit_pos : 0 <= rbit_pos_ r < 8;
  rwf_end : byte_pos_ r = len (rdata_ r) -> rbit_pos_ r = 0;
}.

Definition offset (r : BitReader) : Z := 8 * byte_pos_ r + rbit_pos_ r.
Definition rest (r : BitReader) : list bool :=
  drop (Z.to_nat (offset r)) (bytes_bits (rdata_ r)).

Lemma new_reader_wf data :
  Forall is_byte data -> 8 * len data + 8 <= SIZE_MAX -> rwf (new_reader data).
Proof.
  intros Hd Hs. pose proof (len_nonneg data). by split; simpl; try lia.
Qed.

Lemma rest_new data : rest (new_reader data) = bytes_bits data.
Proof. reflexivity. Qed.

Lemma rest_len r : rwf r -> len (rest r) = 8 * len (rdata_ r) - offset r.
Proof.
  intros [Hb Hs Hp Hbit He]. unfold rest, offset. unfold len at 1.
  rewrite length_drop, length_bytes_bits. unfold len in *.
  destruct (decide (byte_pos_ r = Z.of_nat (length (rdata_ r)))) as [E|E];
    [rewrite (He E)|]; lia.
Qed.

Lemma remaining_bits_rest r : rwf r -> remaining_bits r = len (rest r).
Proof.
  intros H. pose proof (rest_len r H) as E. destruct H as [Hb Hs Hp Hbit He].
  unfold remaining_bits, offset in *. destruct (Z.leb_spec (len (rdata_ r)) (byte_pos_ r)).
  - assert (byte_pos_ r = len (rdata_ r)) as E' by lia. rewrite (He E') in E. lia.
  - rewrite sz_small; lia.
Qed.

(** Advancing within the data drops bits. *)
Lemma advance_rest r n :
  rwf r -> 0 <= n <= len (rest r) ->
  rwf (reader_advance n r) /\ rest (reader_advance n r) = drop (Z.to_nat n) (rest r)
  /\ rdata_ (reader_advance n r) = rdata_ r
  /\ offset (reader_advance n r) = offset r + n.
Proof.
  intros H Hn. pose proof (rest_len r H) as E. destruct H as [Hb Hs Hp Hbit He].
  unfold reader_advance, offset in *.
  rewrite (sz_small (rbit_pos_ r + n)) by lia.
  rewrite (sz_small (byte_pos_ r + _)) by div_lia.
  assert (8 * (byte_pos_ r + (rbit_pos_ r + n) / 8) + (rbit_pos_ r + n) mod 8
          = 8 * byte_pos_ r + rbit_pos_ r + n) as Eo by div_lia.
  split_and!; simpl; [split; simpl; try done; div_lia| |done|exact Eo].
  unfold rest, offset; simpl. rewrite drop_drop, Eo. f_equal. lia.
Qed.

(** A well-formed reader is determined by its data and its bit offset. *)
Lemma reader_ext r1 r2 :
  rwf r1 -> rwf r2 -> rdata_ r1 = rdata_ r2 -> offset r1 = offset r2 -> r1 = r2.
Proof.
  destruct r1 as [d1 p1 b1], r2 as [d2 p2 b2]. intros [_ _ _ ? _] [_ _ _ ? _] E Eo.
  unfold offset in Eo. simpl in *. subst. f_equal; lia.
Qed.

Lemma advance_add r n m :
  rwf r -> 0 <= n -> 0 <= m -> n + m <= len (rest r) ->
  reader_advance m (reader_advance n r) = reader_advance (n + m) r.
Proof.
  intros H Hn Hm Hl. destruct (advance_rest r n H) as (H1 & R1 & D1 & O1); [lia|].
  assert (0 <= m <= len (rest (reader_advance n r))) as Hm'.
  { rewrite R1. unfold len in *. rewrite length_drop. lia. }
  destruct (advance_rest _ m H1 Hm') as (H2 & _ & D2 & O2).
  destruct (advance_rest r (n + m) H) as (H3 & _ & D3 & O3); [lia|].
  apply reader_ext; [done|done|congruence|lia].
Qed.

(** The byte under the cursor holds the next bits. *)
Lemma rest_cursor r k :
  rwf r -> Z.of_nat k <= 8 - rbit_pos_ r -> (0 < k)%nat -> Z.of_nat k <= len (rest r) ->
  exists b, at_ (rdata_ r) (byte_pos_ r) = Some b
    /\ take k (rest r) = to_bits k (Z.shiftr b (8 - rbit_pos_ r - Z.of_nat k)).
Proof.
  intros H Hk Hk0 Hl. rewrite rest_len in Hl by done.
  destruct H as [Hb Hs Hp Hbit He]. unfold offset, len in *.
  destruct (lookup_lt_is_Some_2 (rdata_ r) (Z.to_nat (byte_pos_ r))) as [b Eb]; [lia|].
  exists b. unfold at_. rewrite (proj2 (Z.leb_le _ _)) by lia. split; [done|].
  unfold rest, offset.
  replace (Z.to_nat (8 * byte_pos_ r + rbit_pos_ r))
    with (8 * Z.to_nat (byte_pos_ r) + Z.to_nat (rbit_pos_ r))%nat by lia.
  rewrite <- drop_drop, drop_bytes_bits.
  rewrite (drop_S _ _ _ Eb), bytes_bits_cons.
  set (s := (8 - Z.to_nat (rbit_pos_ r) - k)%nat).
  replace 8%nat with (Z.to_nat (rbit_pos_ r) + (k + s))%nat at 1 by lia.
  rewrite to_bits_app, <- app_assoc, drop_app_length' by (by rewrite length_to_bits).
  rewrite to_bits_app, <- app_assoc, take_app_length' by (by rewrite length_to_bits).
  do 2 f_equal. lia.
Qed.

(** Masking out the chunk of [k] bits below [shift]. *)
Lemma chunk_value b k s :
  0 < k <= 8 -> 0 <= s <= 8 ->
  u8 (Z.land (Z.shiftr b (u8 s)) (u8 (if 8 <=? k then 0xFF else Z.shiftl 1 k - 1)))
  = Z.shiftr b s mod 2 ^ k.
Proof.
  intros Hk Hs. rewrite (u8_id s) by (unfold is_byte; lia).
  assert (u8 (if 8 <=? k then 0xFF else Z.shiftl 1 k - 1) = 2 ^ k - 1) as ->.
  { destruct (Z.leb_spec 8 k); [by replace k with 8 by lia|].
    rewrite Z.shiftl_1_l. apply wrap_small. pose proof (pow2_pos k).
    assert (2 ^ k < 2 ^ 8) by (apply Z.pow_lt_mono_r; lia). lia. }
  rewrite land_mask by lia. apply wrap_small.
  pose proof (Z.mod_pos_bound (Z.shiftr b s) (2 ^ k) (pow2_pos k ltac:(lia))).
  assert (2 ^ k <= 2 ^ 8) by (apply Z.pow_le_mono_r; lia). lia.
Qed.

Lemma shift_in acc k v :
  0 <= k -> 0 <= v < 2 ^ k -> 0 <= acc -> acc * 2 ^ k < 2 ^ 64 ->
  Z.lor (wrap 64 (Z.shiftl acc k)) v = acc * 2 ^ k + v.
Proof.
  intros Hk Hv Ha Hlt. pose proof (pow2_pos k Hk).
  rewrite wrap_small by (rewrite Z.shiftl_mul_pow2 by lia; nia).
  by rewrite lor_disjoint.
Qed.

Lemma take_add {A} n m (l : list A) : take (n + m) l = take n l ++ take m (drop n l).
Proof.
  rewrite <- (take_drop n l) at 1. destruct (Nat.le_gt_cases n (length l)).
  - rewrite take_app_add' by (rewrite length_take; lia). done.
  - rewrite (drop_ge l) by lia. rewrite take_nil, !app_nil_r, take_ge by (rewrite length_take; lia). done.
Qed.

Lemma advance_0 r : rwf r -> reader_advance 0 r = r.
Proof.
  intros H. destruct (advance_rest r 0 H) as (H0 & _ & D & O); [pose proof (len_nonneg (rest r)); lia|].
  apply reader_ext; [done..|lia].
Qed.

Lemma read_loop_spec fuel acc n r :
  rwf r -> (n <= fuel)%nat -> Z.of_nat n <= len (rest r) ->
  (n <= 64)%nat -> 0 <= acc < 2 ^ (64 - Z.of_nat n) ->
  read_loop fuel acc (Z.of_nat n) r
  = Some (acc * 2 ^ Z.of_nat n + of_bits (take n (rest r)), reader_advance (Z.of_nat n) r).
Proof.
  revert acc n r. induction fuel as [|fuel IH]; intros acc n r H Hf Hl Hn Ha.
  { assert (n = 0%nat) as -> by lia. cbn [read_loop Z.of_nat Z.leb Z.compare].
    rewrite advance_0 by done. cbn [take]. do 2 f_equal. unfold of_bits; simpl; lia. }
  cbn [read_loop]. destruct (Z.leb_spec (Z.of_nat n) 0).
  { assert (n = 0%nat) as -> by lia. rewrite advance_0 by done. cbn [take].
    do 2 f_equal. unfold of_bits; simpl; lia. }
  pose proof (rwf_bit_pos _ H) as Hbit.
  remember (Z.to_nat (Z.min (Z.of_nat n) (8 - rbit_pos_ r))) as k eqn:Ek.
  replace (Z.min (Z.of_nat n) (8 - rbit_pos_ r)) with (Z.of_nat k) by lia.
  destruct (rest_cursor r k H) as (b & -> & Et); [lia..|]. cbn [mbind option_bind].
  rewrite chunk_value by lia.
  set (v := Z.shiftr b _ mod _). pose proof (Z.mod_pos_bound (Z.shiftr b (8 - rbit_pos_ r - Z.of_nat k))
    (2 ^ Z.of_nat k) (pow2_pos (Z.of_nat k) ltac:(lia))) as Hv. fold v in Hv.
  assert (v = of_bits (take k (rest r))) as Ev by (by rewrite Et, of_bits_to_bits).
  assert (2 ^ Z.of_nat n = 2 ^ Z.of_nat k * 2 ^ Z.of_nat (n - k)) as Ep
    by (rewrite <- Z.pow_add_r by lia; f_equal; lia).
  pose proof (pow2_pos (Z.of_nat (n - k)) ltac:(lia)).
  assert (2 ^ 64 = 2 ^ (64 - Z.of_nat n) * 2 ^ Z.of_nat n) as E64
    by (rewrite <- Z.pow_add_r by lia; f_equal; lia).
  rewrite shift_in by (done || lia || nia).
  replace (Z.of_nat n - Z.of_nat k) with (Z.of_nat (n - k)) by lia.
  destruct (advance_rest r (Z.of_nat k) H) as (Hr1 & R1 & _ & _); [lia|].
  rewrite Nat2Z.id in R1. rewrite IH; [|done|lia| |lia|].
  - rewrite advance_add, R1 by (done || lia).
    replace (take n (rest r)) with (take (k + (n - k)) (rest r)) by (f_equal; lia). rewrite take_add, of_bits_app.
    rewrite <- Ev. unfold len. rewrite length_take, length_drop, Nat.min_l by (unfold len in *; lia).
    f_equal. f_equal; [|f_equal; lia]. rewrite Ep. lia.
  - rewrite R1. unfold len in *. rewrite length_drop. lia.
  - replace (64 - Z.of_nat (n - k)) with (64 - Z.of_nat n + Z.of_nat k) by lia.
    rewrite Z.pow_add_r by lia. nia.
Qed.

(** [cursor r pre post]: the reader stands between [pre], already read, and
    [post], still to come. *)
Record cursor (r : BitReader) (pre post : list bool) : Prop := {
  cursor_wf : rwf r;
  cursor_bits : bytes_bits (rdata_ r) = pre ++ post;
  cursor_pos : offset r = len pre;
}.

Lemma cursor_rest r pre post : cursor r pre post -> rest r = post.
Proof.
  intros [H Hb Ho]. unfold rest. rewrite Hb, Ho. apply drop_app_length'. unfold len. lia.
Qed.

Lemma cursor_new data :
  Forall is_byte data -> 8 * len data + 8 <= SIZE_MAX ->
  cursor (new_reader data) [] (bytes_bits data).
Proof. intros. split; [by apply new_reader_wf|done|done]. Qed.

(** Every well-formed reader stands somewhere. *)
Lemma cursor_exists r : rwf r -> exists pre, cursor r pre (rest r).
Proof.
  intros H. exists (take (Z.to_nat (offset r)) (bytes_bits (rdata_ r))). split; [done| |].
  - unfold rest. by rewrite take_drop.
  - pose proof (rest_len r H). pose proof (len_nonneg (rest r)). destruct H as [_ _ ? ? _].
    unfold len at 1. rewrite length_take, length_bytes_bits. unfold offset, len in *. lia.
Qed.

Lemma cursor_advance r pre bits post :
  cursor r pre (bits ++ post) -> cursor (reader_advance (len bits) r) (pre ++ bits) post.
Proof.
  intros H. pose proof (cursor_rest _ _ _ H) as Hr. destruct H as [H Hb Ho].
  destruct (advance_rest r (len bits) H) as (H1 & _ & D & O).
  { rewrite Hr, len_app. pose proof (len_nonneg bits). pose proof (len_nonneg post). lia. }
  split; [done| |].
  - by rewrite D, Hb, app_assoc.
  - by rewrite O, Ho, len_app.
Qed.

(** ** [read_bits] *)

Lemma read_bits_cursor r pre bits post :
  cursor r pre (bits ++ post) -> (length bits <= 64)%nat ->
  read_bits (len bits) r = Some (Ok (of_bits bits), reader_advance (len bits) r).
Proof.
  intros H Hl. pose proof (cursor_rest _ _ _ H) as Hr. pose proof (cursor_wf _ _ _ H) as Hw.
  unfold read_bits. destruct (Z.eqb_spec (len bits) 0) as [E|E].
  { destruct bits; [|unfold len in E; simpl in E; lia]. by rewrite advance_0. }
  rewrite (proj2 (Z.ltb_ge 64 _)) by (unfold len; lia).
  rewrite remaining_bits_rest, Hr by done.
  rewrite (proj2 (Z.ltb_ge _ _)) by (unfold len; rewrite length_app; lia).
  unfold len. rewrite Nat2Z.id, read_loop_spec; [|done|lia| |lia|].
  - cbn [mbind option_bind]. rewrite Hr, take_app_length. do 2 f_equal.
  - rewrite Hr. len_lia.
  - split; [lia|]. apply pow2_pos. lia.
Qed.

(** The error branches leave the reader where it is. *)
Lemma read_bits_fails r count :
  rwf r -> 0 <= count -> 64 < count \/ len (rest r) < count ->
  exists e, read_bits count r = Some (Fail e, r)
    /\ code e = if 64 <? count then InvalidArgument else BufferUnderrun.
Proof.
  intros H Hc Hbad. pose proof (len_nonneg (rest r)). unfold read_bits.
  rewrite (proj2 (Z.eqb_neq _ 0)) by lia. destruct (Z.ltb_spec 64 count); [by eexists|].
  rewrite remaining_bits_rest, (proj2 (Z.ltb_lt _ _)) by (done || lia). by eexists.
Qed.

(** ** Signed and decimal encodings *)

Lemma shl1_64_pow k : 0 <= k < 64 -> shl1_64 k = Some (2 ^ k).
Proof.
  intros Hk. unfold shl1_64. rewrite (proj2 (Z.leb_le _ _)), (proj2 (Z.ltb_lt _ _)) by lia.
  cbn [andb]. by rewrite Z.shiftl_1_l.
Qed.

Lemma bind_ok {A B} (m : R A) (k : A -> R B) r a r' :
  m r = Some (Ok a, r') -> bind m k r = k a r'.
Proof. intros E. unfold bind. by rewrite E. Qed.

Lemma land_pow2_zero v k : 0 <= k -> 0 <= v < 2 ^ (k + 1) ->
  (Z.land v (2 ^ k) =? 0) = (v <? 2 ^ k).
Proof.
  intros Hk Hv. rewrite land_bit by done. rewrite Z.pow_add_r in Hv by lia.
  pose proof (pow2_pos k Hk). destruct (Z.ltb_spec v (2 ^ k)).
  - rewrite Z.div_small by lia. done.
  - replace v with (1 * 2 ^ k + (v - 2 ^ k)) by lia.
    rewrite Z.div_add_l, (Z.div_small (v - _)) by lia. apply Z.eqb_neq. change ((1 + 0) mod 2) with 1. lia.
Qed.

Lemma sign_extend v k : 0 <= k < 64 -> 0 <= v < 2 ^ k ->
  as_i64 (Z.lor v (wrap 64 (Z.lnot (2 ^ k - 1)))) = v - 2 ^ k.
Proof.
  intros Hk Hv. pose proof (pow2_pos k ltac:(lia)).
  assert (2 ^ 64 = 2 ^ (64 - k) * 2 ^ k) as E64 by (rewrite <- Z.pow_add_r by lia; f_equal; lia).
  assert (2 <= 2 ^ (64 - k)) by (change 2 with (2 ^ 1) at 1; apply Z.pow_le_mono_r; lia).
  assert (wrap 64 (Z.lnot (2 ^ k - 1)) = Z.shiftl (2 ^ (64 - k) - 1) k) as ->.
  { rewrite Z.shiftl_mul_pow2 by lia. unfold wrap.
    replace (Z.lnot (2 ^ k - 1)) with ((2 ^ (64 - k) - 1) * 2 ^ k + (-1) * 2 ^ 64)
      by (pose proof (Z.add_lnot_diag (2 ^ k - 1)); lia).
    rewrite Z.mod_add by lia. apply Z.mod_small. nia. }
  rewrite Z.lor_comm, lor_disjoint by lia. unfold as_i64, signed.
  rewrite wrap_small by nia.
  rewrite (proj2 (Z.leb_le _ _)); [lia|]. change (2 ^ 64) with (2 * 2 ^ (64 - 1)) in E64. nia.
Qed.

Lemma read_signed_bits_cursor r pre bits post :
  cursor r pre (bits ++ post) -> (0 < length bits <= 64)%nat ->
  read_signed_bits (len bits) r
  = Some (Ok (signed (len bits) (of_bits bits)), reader_advance (len bits) r).
Proof.
  intros H Hl. unfold read_signed_bits. pose proof (of_bits_range bits) as Hv.
  rewrite (proj2 (Z.eqb_neq _ 0)) by (unfold len; lia).
  rewrite (bind_ok _ _ _ _ _ (read_bits_cursor _ _ _ _ H ltac:(lia))).
  destruct (Z.leb_spec 64 (len bits)) as [E|E].
  { replace (len bits) with 64 in * by (unfold len in *; lia). unfold ret, as_i64.
    by rewrite wrap_small. }
  rewrite !shl1_64_pow by (unfold len in *; lia). unfold bind, lift, ret. cbn [mbind option_bind].
  rewrite land_pow2_zero, Z.ltb_antisym, negb_involutive
    by (try rewrite Z.sub_add; unfold len in *; done || lia).
  unfold signed. destruct (Z.leb_spec (2 ^ (len bits - 1)) (of_bits bits)).
  - by rewrite sign_extend by (unfold len in *; lia).
  - unfold as_i64, signed.
    assert (2 ^ (len bits - 1) <= 2 ^ (64 - 1)) by (apply Z.pow_le_mono_r; unfold len in *; lia).
    rewrite wrap_small by lia. by rewrite (proj2 (Z.leb_gt _ _)) by lia.
Qed.

(** The sign test and the magnitude of a sign-magnitude word. *)
Lemma sign_magnitude_split v k m :
  0 <= k -> 0 <= m < 2 ^ k ->
  negb (Z.land (Z.shiftr (sign_bit v k + m) k) 1 =? 0) = (v <? 0)
  /\ Z.land (sign_bit v k + m) (2 ^ k - 1) = m.
Proof.
  intros Hk Hm. pose proof (pow2_pos k Hk). rewrite Z.shiftr_div_pow2, land_mask by done.
  unfold sign_bit. destruct (v <? 0).
  - replace (2 ^ k + m) with (1 * 2 ^ k + m) by lia.
    rewrite Z.div_add_l, Z.div_small, (Z.add_comm (1 * 2 ^ k)), Z.mod_add, Z.mod_small by lia. done.
  - rewrite Z.add_0_l, Z.div_small, Z.mod_small by lia. done.
Qed.

Lemma sign_abs v : (if v <? 0 then - Z.abs v else Z.abs v) = v.
Proof. destruct (Z.ltb_spec v 0); lia. Qed.

Lemma read_sign_magnitude_cursor r pre v n post :
  let bits := to_bits n (sign_bit v (Z.of_nat n - 1) + Z.abs v) in
  cursor r pre (bits ++ post) -> (1 < n <= 64)%nat -> Z.abs v < 2 ^ (Z.of_nat n - 1) ->
  read_sign_magnitude (Z.of_nat n) r = Some (Ok v, reader_advance (Z.of_nat n) r).
Proof.
  intros bits H Hn Hv. assert (len bits = Z.of_nat n) as El by apply len_to_bits.
  unfold read_sign_magnitude. rewrite (proj2 (Z.ltb_ge _ _)) by lia.
  rewrite <- El at 1.
  rewrite (bind_ok _ _ _ _ _ (read_bits_cursor _ _ _ _ H ltac:(subst bits; rewrite length_to_bits; lia))).
  assert (2 ^ Z.of_nat n = 2 * 2 ^ (Z.of_nat n - 1)) as E2
    by (rewrite <- Z.pow_succ_r by lia; f_equal; lia).
  assert (of_bits bits = sign_bit v (Z.of_nat n - 1) + Z.abs v) as ->.
  { unfold bits. rewrite of_bits_to_bits, Z.mod_small; [done|].
    unfold sign_bit. destruct (v <? 0); lia. }
  destruct (sign_magnitude_split v (Z.of_nat n - 1) (Z.abs v)) as [-> Em]; [lia..|].
  rewrite shl1_64_pow by lia. unfold bind, lift, ret; cbn [mbind option_bind].
  rewrite Em, El. unfold as_i64, signed.
  assert (2 ^ (Z.of_nat n - 1) <= 2 ^ (64 - 1)) by (apply Z.pow_le_mono_r; lia).
  rewrite wrap_small by lia. rewrite (proj2 (Z.leb_gt _ _)) by lia. by rewrite sign_abs.
Qed.

(** *** Decimal digits *)

Lemma nibble_value raw i : 0 <= i ->
  u8 (Z.land (Z.shiftr raw (i * 4)) 0xF) = Z.shiftr raw (4 * i) mod 16.
Proof.
  intros Hi. change 0xF with (2 ^ 4 - 1). rewrite land_mask, (Z.mul_comm i) by lia.
  apply u8_id. change (2 ^ 4) with 16. pose proof (Z.mod_pos_bound (Z.shiftr raw (4 * i)) 16).
  unfold is_byte. lia.
Qed.

Lemma nibble_rest raw i n : 0 <= i ->
  Z.shiftr raw (4 * i) mod 16 ^ Z.of_nat (S n)
  = Z.shiftr raw (4 * i) mod 16 + 16 * (Z.shiftr raw (4 * (i + 1)) mod 16 ^ Z.of_nat n).
Proof.
  intros Hi. rewrite Nat2Z.inj_succ, Z.pow_succ_r, Z.rem_mul_r by (try apply Z.pow_pos_nonneg; lia).
  do 3 f_equal. replace (4 * (i + 1)) with (4 * i + 4) by lia.
  rewrite <- Z.shiftr_shiftr by lia. by rewrite (Z.shiftr_div_pow2 _ 4).
Qed.

(** The digit loop either finds the decimal value the nibbles spell, or stops
    at a nibble above nine. *)
Lemma unpack_bcd_spec n i raw acc :
  0 <= i -> i + Z.of_nat n <= 16 -> 0 <= acc < 10 ^ i ->
  match unpack_bcd n i raw acc (10 ^ i) with
  | inl res => exists v, 0 <= v < 10 ^ Z.of_nat n /\ res = acc + v * 10 ^ i
                 /\ Z.shiftr raw (4 * i) mod 16 ^ Z.of_nat n = bcd n v
  | inr (d, j) => 9 < d < 16 /\ i <= j < i + Z.of_nat n /\ d = Z.shiftr raw (4 * j) mod 16
  end.
Proof.
  revert i acc. induction n as [|n IH]; intros i acc Hi Hn Hacc; cbn [unpack_bcd].
  { exists 0. split_and!; [lia|simpl;lia|lia|]. by rewrite Z.mod_1_r. }
  rewrite nibble_value by done. set (d := Z.shiftr raw (4 * i) mod 16).
  pose proof (Z.mod_pos_bound (Z.shiftr raw (4 * i)) 16 ltac:(lia)) as Hd. fold d in Hd.
  destruct (Z.ltb_spec 9 d); [split_and!; lia|].
  assert (10 ^ (i + 1) = 10 * 10 ^ i) as E10 by (rewrite Z.pow_add_r by lia; lia).
  assert (10 ^ (i + 1) <= 10 ^ 16) as Hle by (apply Z.pow_le_mono_r; lia).
  assert (10 ^ 16 < 2 ^ 64) by reflexivity.
  rewrite !wrap_small by nia. rewrite (Z.mul_comm (10 ^ i)), <- E10.
  specialize (IH (i + 1) (acc + d * 10 ^ i)). pose proof (nibble_rest raw i n Hi) as Er. fold d in Er.
  destruct (unpack_bcd n (i + 1) raw _ _) as [res|[d' j]].
  - destruct IH as (v & Hv & -> & Eb); [lia|lia|nia|]. exists (d + 10 * v).
    rewrite Nat2Z.inj_succ, Z.pow_succ_r by lia. split_and!; [lia|lia|nia|].
    rewrite <- Nat2Z.inj_succ, Er, Eb. cbn [bcd].
    rewrite (Z.mul_comm 10), Z.mod_add, Z.mod_small, Z.div_add, Z.div_small by lia. done.
  - destruct IH as (? & ? & ?); [lia|lia|nia|]. split_and!; lia.
Qed.

Lemma bcd_digit n v j : 0 <= v -> 0 <= j -> Z.shiftr (bcd n v) (4 * j) mod 16 <= 9.
Proof.
  revert v j. induction n as [|n IH]; intros v j Hv Hj.
  { cbn [bcd]. rewrite Z.shiftr_0_l. done. }
  cbn [bcd]. pose proof (Z.mod_pos_bound v 10 ltac:(lia)).
  destruct (decide (j = 0)) as [->|Hj0].
  - rewrite Z.shiftr_0_r, Z.mul_comm, Z.mod_add, Z.mod_small by lia. lia.
  - replace (4 * j) with (4 + 4 * (j - 1)) by lia. rewrite <- Z.shiftr_shiftr by lia.
    rewrite (Z.shiftr_div_pow2 _ 4) by lia. change (2 ^ 4) with 16.
    rewrite (Z.mul_comm 16), Z.div_add, Z.div_small, Z.add_0_l by lia.
    apply IH; [apply Z.div_pos|]; lia.
Qed.

Lemma bcd_inj n v w :
  0 <= v < 10 ^ Z.of_nat n -> 0 <= w < 10 ^ Z.of_nat n -> bcd n v = bcd n w -> v = w.
Proof.
  revert v w. induction n as [|n IH]; intros v w Hv Hw E; [simpl in *; lia|].
  cbn [bcd] in E. rewrite Nat2Z.inj_succ, Z.pow_succ_r in Hv, Hw by lia.
  pose proof (Z.mod_pos_bound v 10 ltac:(lia)). pose proof (Z.mod_pos_bound w 10 ltac:(lia)).
  assert (v / 10 = w / 10) by (apply IH; [div_lia..|lia]). div_lia.
Qed.

(** Reading back what the digit loop of the writer packed. *)
Lemma unpack_pack_bcd n v :
  (n <= 16)%nat -> 0 <= v < 10 ^ Z.of_nat n ->
  unpack_bcd n 0 (bcd n v) 0 1 = inl v.
Proof.
  intros Hn Hv. pose proof (unpack_bcd_spec n 0 (bcd n v) 0) as H.
  change (10 ^ 0) with 1 in H. destruct (unpack_bcd n 0 (bcd n v) 0 1) as [res|[d j]].
  - destruct H as (u & Hu & -> & E); [lia..|]. f_equal.
    pose proof (bcd_range n v) as Hr. rewrite Z.shiftr_0_r, Z.mod_small in E.
    + rewrite (bcd_inj n v u Hv Hu E). lia.
    + replace (16 ^ Z.of_nat n) with (2 ^ (4 * Z.of_nat n)); [done|]. by rewrite Z.pow_mul_r by lia.
  - destruct H as (Hd & Hj & ->); [lia..|].
    pose proof (bcd_digit n v j ltac:(lia) ltac:(lia)). lia.
Qed.

Lemma read_bcd_cursor r pre v n post :
  cursor r pre (to_bits (4 * n) (bcd n v) ++ post) -> (0 < n <= 16)%nat ->
  0 <= v < 10 ^ Z.of_nat n ->
  read_bcd (4 * Z.of_nat n) r = Some (Ok v, reader_advance (4 * Z.of_nat n) r).
Proof.
  intros H Hn Hv. unfold read_bcd. rewrite (proj2 (Z.eqb_neq _ 0)) by lia.
  rewrite (Z.mul_comm 4), Z.mod_mul, Z.div_mul, (Z.mul_comm _ 4) by lia. cbn [negb Z.eqb].
  rewrite (proj2 (Z.ltb_ge 16 _)) by lia.
  assert (len (to_bits (4 * n) (bcd n v)) = 4 * Z.of_nat n) as El by (rewrite len_to_bits; lia).
  rewrite <- El at 1.
  rewrite (bind_ok _ _ _ _ _ (read_bits_cursor _ _ _ _ H ltac:(rewrite length_to_bits; lia))).
  rewrite of_bits_to_bits, Nat2Z.id, El, Nat2Z.inj_mul.
  rewrite Z.mod_small by apply bcd_range. by rewrite unpack_pack_bcd by (done || lia).
Qed.

Lemma read_bcd_signed_cursor r pre v n post :
  let bits := to_bits (4 * n + 1) (sign_bit v (4 * Z.of_nat n) + bcd n (Z.abs v)) in
  cursor r pre (bits ++ post) -> (0 < n <= 15)%nat -> Z.abs v < 10 ^ Z.of_nat n ->
  read_bcd_signed (4 * Z.of_nat n + 1) r
  = Some (Ok v, reader_advance (4 * Z.of_nat n + 1) r).
Proof.
  intros bits H Hn Hv. unfold read_bcd_signed.
  rewrite Z.add_simpl_r, (Z.mul_comm 4), Z.mod_mul, Z.div_mul, (Z.mul_comm _ 4) by lia.
  rewrite (proj2 (Z.ltb_ge _ 5)), (proj2 (Z.ltb_ge 15 _)) by lia. cbn [negb Z.eqb].
  assert (len bits = 4 * Z.of_nat n + 1) as El by (unfold bits; rewrite len_to_bits; lia).
  rewrite <- El at 1.
  rewrite (bind_ok _ _ _ _ _ (read_bits_cursor _ _ _ _ H ltac:(unfold bits; rewrite length_to_bits; lia))).
  pose proof (bcd_range n (Z.abs v)) as Hb.
  assert (of_bits bits = sign_bit v (4 * Z.of_nat n) + bcd n (Z.abs v)) as ->.
  { unfold bits. rewrite of_bits_to_bits, Z.mod_small; [done|].
    replace (Z.of_nat (4 * n + 1)) with (Z.succ (4 * Z.of_nat n)) by lia.
    rewrite Z.pow_succ_r by lia. unfold sign_bit. destruct (v <? 0); lia. }
  destruct (sign_magnitude_split v (4 * Z.of_nat n) (bcd n (Z.abs v))) as [-> Em]; [lia..|].
  rewrite shl1_64_pow by lia. unfold bind, lift. cbn [mbind option_bind].
  rewrite Em, Nat2Z.id, El, unpack_pack_bcd by lia. unfold ret. by rewrite sign_abs.
Qed.

(** ** Alignment and byte-level reads *)

Lemma cursor_bit_pos r pre post :
  cursor r pre post -> rbit_pos_ r = Z.of_nat (length pre mod 8)
  /\ byte_pos_ r = Z.of_nat (length pre / 8).
Proof.
  intros [[_ _ Hp Hb _] _ Ho]. unfold offset, len in Ho.
  rewrite <- of_nat_mod8, <- of_nat_div8, <- Ho. div_lia.
Qed.

(** Aligning skips the bits up to the byte boundary, whatever they are. *)
Lemma cursor_align r pre skip post :
  cursor r pre (skip ++ post) -> length skip = pad8 (length pre) ->
  cursor (reader_align_to_byte r) (pre ++ skip) post.
Proof.
  intros H Hs. pose proof (cursor_bit_pos _ _ _ H) as [Eb _].
  pose proof (cursor_advance r pre skip post H) as Ha.
  assert (reader_align_to_byte r = reader_advance (len skip) r) as ->; [|done].
  pose proof (cursor_wf _ _ _ H) as Hw. pose proof (cursor_wf _ _ _ Ha) as Hwa.
  pose proof (Nat.mod_upper_bound (length pre) 8).
  unfold reader_align_to_byte. destruct (Z.ltb_spec 0 (rbit_pos_ r)).
  - assert (len skip = 8 - rbit_pos_ r) as ->.
    { unfold len. rewrite Hs. unfold pad8. rewrite Nat.mod_small by lia. lia. }
    unfold reader_advance. rewrite (sz_small (_ + (8 - _))) by (unfold SIZE_MAX; lia).
    by replace (rbit_pos_ r + (8 - rbit_pos_ r)) with 8 by lia.
  - assert (skip = []) as ->.
    { apply length_zero_iff_nil. rewrite Hs. unfold pad8.
      replace (length pre mod 8)%nat with 0%nat by lia. done. }
    symmetry. by apply advance_0.
Qed.

(** A byte slice under an aligned cursor. *)
Lemma cursor_slice r pre l post :
  cursor r pre (bytes_bits l ++ post) -> Forall is_byte l -> (length pre mod 8 = 0)%nat ->
  slice_ok (rdata_ r) (byte_pos_ r) (length l)
  /\ take (length l) (drop (Z.to_nat (byte_pos_ r)) (rdata_ r)) = l
  /\ (forall n, n = len l ->
      cursor (set_byte_pos (sz (byte_pos_ r + n)) r) (pre ++ bytes_bits l) post).
Proof.
  intros H Hl Hm. pose proof (cursor_bit_pos _ _ _ H) as [Eb Ep].
  pose proof (cursor_rest _ _ _ H) as Hr. pose proof (cursor_wf _ _ _ H) as [Hb Hs Hp Hbit He].
  rewrite Hm in Eb. pose proof (f_equal len (cursor_bits _ _ _ H)) as EL.
  rewrite !len_app, !len_bytes_bits in EL. pose proof (cursor_pos _ _ _ H) as Ho.
  unfold offset in Ho. rewrite Eb in Ho.
  pose proof (len_nonneg l). pose proof (len_nonneg post).
  split_and!.
  - unfold slice_ok. fold (len l). lia.
  - apply bytes_bits_inj; [by apply Forall_take, Forall_drop|done|].
    rewrite <- take_bytes_bits, <- drop_bytes_bits.
    replace (8 * Z.to_nat (byte_pos_ r))%nat with (Z.to_nat (offset r)) by (unfold offset; lia).
    fold (rest r). rewrite Hr. apply take_app_length'. by rewrite length_bytes_bits.
  - intros n ->. pose proof (cursor_advance r pre (bytes_bits l) post H) as Ha.
    assert (set_byte_pos (sz (byte_pos_ r + len l)) r = reader_advance (len (bytes_bits l)) r)
      as ->; [|done].
    unfold reader_advance, set_byte_pos. rewrite len_bytes_bits, Eb.
    rewrite (sz_small (_ + 8 * _)) by lia.
    replace (Z.of_nat 0 + 8 * len l) with (len l * 8) by lia.
    by rewrite Z.div_mul, Z.mod_mul by lia.
Qed.

(** The shape of every byte-level read: align, take the bytes of [l]. *)
Definition byte_read {A} (m : R A) (l : list Z) (v : A) : Prop :=
  forall r pre skip post,
    cursor r pre (skip ++ bytes_bits l ++ post) -> length skip = pad8 (length pre) ->
    exists r', m r = Some (Ok v, r') /\ cursor r' (pre ++ skip ++ bytes_bits l) post.

Lemma byte_read_intro {A} (m : R A) l v :
  Forall is_byte l ->
  (forall r, Forall is_byte (rdata_ r) ->
     slice_ok (rdata_ (reader_align_to_byte r)) (byte_pos_ (reader_align_to_byte r)) (length l) ->
     take (length l) (drop (Z.to_nat (byte_pos_ (reader_align_to_byte r))) (rdata_ r)) = l ->
     m r = Some (Ok v, set_byte_pos (sz (byte_pos_ (reader_align_to_byte r) + len l))
                         (reader_align_to_byte r))) ->
  byte_read m l v.
Proof.
  intros Hl Hm r pre skip post H Hs.
  pose proof (cursor_align _ _ _ _ H Hs) as Ha.
  assert (length (pre ++ skip) mod 8 = 0)%nat as Hmod.
  { rewrite length_app, Hs, <- (length_replicate (pad8 _) false), <- length_app. apply align8_mod. }
  destruct (cursor_slice _ _ _ _ Ha Hl Hmod) as (Hok & Ht & Hc).
  assert (rdata_ (reader_align_to_byte r) = rdata_ r) as Ed
    by (unfold reader_align_to_byte; destruct (0 <? rbit_pos_ r); done).
  eexists; split.
  - apply Hm; [apply (cursor_wf _ _ _ H)|done|congruence].
  - rewrite app_assoc. by apply Hc.
Qed.

Lemma align_data r : rdata_ (reader_align_to_byte r) = rdata_ r.
Proof. unfold reader_align_to_byte. by destruct (0 <? rbit_pos_ r). Qed.

Lemma read_u8_read b : is_byte b -> byte_read read_u8 [b] b.
Proof.
  intros Hb. apply byte_read_intro; [by constructor|]. intros r Hd (H1 & H2 & H3) Ht.
  unfold read_u8. rewrite align_data in *. simpl in H2.
  rewrite (proj2 (Z.leb_gt _ _)) by lia. unfold at_. rewrite (proj2 (Z.leb_le _ _)) by lia.
  destruct (drop _ (rdata_ r)) as [|b' l'] eqn:Ed; simplify_eq/=.
  assert (rdata_ r !! Z.to_nat (byte_pos_ (reader_align_to_byte r)) = Some b) as ->; [|done].
  rewrite <- (Nat.add_0_r (Z.to_nat _)), <- lookup_drop, Ed. done.
Qed.

(** The multi-byte loads, through the slice lemma of the byte-order module. *)
Ltac solve_read W :=
  intros Hl Hn; apply byte_read_intro; [done|];
  intros r Hd Hok Ht; rewrite align_data in *; rewrite Hn in *; cbv zeta;
  let z := eval compute in (Z.of_nat (width_bytes W)) in
  assert ((len (rdata_ r) <? sz (byte_pos_ (reader_align_to_byte r) + z)) = false) as Hg
    by exact (guard_slice _ _ _ Hok);
  pose proof (read_uint_slice W (rdata_ r) (byte_pos_ (reader_align_to_byte r))) as Hread;
  cbn [width_bytes read_uint] in Hread.

Lemma read_u16_read e l :
  Forall is_byte l -> length l = 2%nat -> byte_read (read_u16 e) l (wire_value e l).
Proof.
  solve_read W16. unfold read_u16. rewrite align_data, Hg, Hread, Ht by done.
  cbn [mbind option_bind]. unfold len. by rewrite Hn.
Qed.

Lemma read_u32_read e l :
  Forall is_byte l -> length l = 4%nat -> byte_read (read_u32 e) l (wire_value e l).
Proof.
  solve_read W32. unfold read_u32. rewrite align_data, Hg, Hread, Ht by done.
  cbn [mbind option_bind]. unfold len. by rewrite Hn.
Qed.

Lemma read_u64_read e l :
  Forall is_byte l -> length l = 8%nat -> byte_read (read_u64 e) l (wire_value e l).
Proof.
  solve_read W64. unfold read_u64. rewrite align_data, Hg, Hread, Ht by done.
  cbn [mbind option_bind]. unfold len. by rewrite Hn.
Qed.

Lemma read_f32_read e l :
  Forall is_byte l -> length l = 4%nat -> byte_read (read_f32 e) l (wire_value e l).
Proof.
  solve_read W32. unfold read_f32, Endian.read_f32. rewrite align_data, Hg, Hread, Ht by done.
  cbn [mbind option_bind]. unfold len. by rewrite Hn.
Qed.

Lemma read_f64_read e l :
  Forall is_byte l -> length l = 8%nat -> byte_read (read_f64 e) l (wire_value e l).
Proof.
  solve_read W64. unfold read_f64, Endian.read_f64. rewrite align_data, Hg, Hread, Ht by done.
  cbn [mbind option_bind]. unfold len. by rewrite Hn.
Qed.

Lemma read_f48_read e l :
  Forall is_byte l -> length l = 6%nat -> byte_read (read_f48 e) l (f48_to_f64 (wire_value e l)).
Proof.
  solve_read W48. unfold read_f48, Endian.read_f48. rewrite align_data, Hg, Hread, Ht by done.
  cbn [mbind option_bind]. unfold len. by rewrite Hn.
Qed.

Lemma read_f16_read e l f :
  Forall is_byte l -> length l = 2%nat -> f16_to_f32 (wire_value e l) = Some f ->
  byte_read (read_f16 e) l f.
Proof.
  intros Hl Hn Hf. revert Hl Hn. solve_read W16.
  unfold read_f16, Endian.read_f16. rewrite align_data, Hg, Hread, Ht by done.
  cbn [mbind option_bind]. rewrite Hf. cbn [mbind option_bind]. unfold len. by rewrite Hn.
Qed.

Lemma subspan_slice data off n :
  slice_ok data off n -> subspan data off (Z.of_nat n) = Some (take n (drop (Z.to_nat off) data)).
Proof.
  intros (H1 & H2 & H3). unfold subspan. rewrite !(proj2 (Z.leb_le _ _)) by lia.
  simpl. by rewrite Nat2Z.id.
Qed.

Lemma read_bytes_read l : Forall is_byte l -> byte_read (read_bytes (len l)) l l.
Proof.
  intros Hl. apply byte_read_intro; [done|]. intros r Hd Hok Ht. rewrite align_data in *.
  unfold read_bytes. rewrite align_data. change (len l) with (Z.of_nat (length l)).
  by rewrite (guard_slice _ _ _ Hok), subspan_slice, Ht by done.
Qed.

Lemma read_string_read l : Forall is_byte l -> byte_read (read_string (len l)) l l.
Proof.
  intros Hl r pre skip post H Hs. destruct (read_bytes_read l Hl _ _ _ _ H Hs) as (r' & E & Hc).
  exists r'. split; [|done]. unfold read_string. by rewrite (bind_ok _ _ _ _ _ E).
Qed.

Lemma sub_reader_read l : Forall is_byte l -> byte_read (sub_reader (len l)) l (new_reader l).
Proof.
  intros Hl. apply byte_read_intro; [done|]. intros r Hd Hok Ht. rewrite align_data in *.
  unfold sub_reader. rewrite align_data. change (len l) with (Z.of_nat (length l)).
  by rewrite (guard_slice _ _ _ Hok), subspan_slice, Ht by done.
Qed.

(** ** Safety on arbitrary input

    [safe m Q]: from a well-formed reader [m] is defined, keeps the reader
    well-formed on the same data, never moves it backwards, and a successful
    result satisfies [Q]. *)

Definition forward (r r' : BitReader) : Prop :=
  rwf r' /\ rdata_ r' = rdata_ r /\ offset r <= offset r'.

Definition safe {A} (m : R A) (Q : A -> Prop) : Prop :=
  forall r, rwf r -> exists res r', m r = Some (res, r') /\ forward r r'
    /\ match res with Ok a => Q a | Fail _ => True end.

Lemma forward_refl r : rwf r -> forward r r.
Proof. intros H. split_and!; [done|done|lia]. Qed.

Lemma forward_trans r1 r2 r3 : forward r1 r2 -> forward r2 r3 -> forward r1 r3.
Proof. intros (_ & E1 & L1) (H & E2 & L2). split_and!; [done|congruence|lia]. Qed.

Lemma safe_ret {A} (a : A) (Q : A -> Prop) : Q a -> safe (ret a) Q.
Proof. intros Ha r H. do 2 eexists. split_and!; [done|by apply forward_refl|done]. Qed.

Lemma safe_throw {A} c m (Q : A -> Prop) : safe (throw c m) Q.
Proof. intros r H. do 2 eexists. split_and!; [done|by apply forward_refl|done]. Qed.

Lemma safe_lift {A} (a : A) o (Q : A -> Prop) : o = Some a -> Q a -> safe (lift o) Q.
Proof. intros -> Ha r H. do 2 eexists. split_and!; [done|by apply forward_refl|done]. Qed.

Lemma safe_bind {A B} (m : R A) (k : A -> R B) P Q :
  safe m P -> (forall a, P a -> safe (k a) Q) -> safe (bind m k) Q.
Proof.
  intros Hm Hk r H. destruct (Hm r H) as ([a|e] & r1 & E & F1 & Ha); unfold bind; rewrite E.
  - destruct (Hk a Ha r1) as (res & r2 & E2 & F2 & HQ); [apply F1|].
    do 2 eexists. split_and!; [done|by eapply forward_trans|done].
  - do 2 eexists. split_and!; [done|done|done].
Qed.

Lemma safe_weaken {A} (m : R A) (P Q : A -> Prop) : safe m P -> (forall a, P a -> Q a) -> safe m Q.
Proof.
  intros Hm HPQ r H. destruct (Hm r H) as (res & r' & E & F & HP).
  exists res, r'. split_and!; [done|done|]. destruct res; auto.
Qed.

Create HintDb safe discriminated.
#[export] Hint Resolve safe_throw : safe.

Lemma read_bits_safe count : 0 <= count -> safe (read_bits count) (fun v => count <= 64).
Proof.
  intros Hc r H. destruct (decide (64 < count \/ len (rest r) < count)) as [Hbad|Hok].
  - destruct (read_bits_fails r count H Hc Hbad) as (e & -> & _).
    do 2 eexists. split_and!; [done|by apply forward_refl|done].
  - destruct (cursor_exists r H) as [pre Hcur].
    rewrite <- (take_drop (Z.to_nat count) (rest r)) in Hcur.
    assert (len (take (Z.to_nat count) (rest r)) = count) as El.
    { unfold len in *. rewrite length_take. lia. }
    pose proof (read_bits_cursor _ _ _ _ Hcur) as E. rewrite El in E.
    rewrite E by (unfold len in El; lia).
    do 2 eexists. split_and!; [done| |cbn; lia].
    destruct (advance_rest r count H) as (? & ? & ? & Ho); [lia|]. split_and!; [done|done|lia].
Qed.

Lemma skip_bits_safe count : 0 <= count -> safe (skip_bits count) (fun _ => True).
Proof.
  intros Hc r H. unfold skip_bits. rewrite remaining_bits_rest by done.
  destruct (Z.ltb_spec (len (rest r)) count).
  - do 2 eexists. split_and!; [done|by apply forward_refl|done].
  - destruct (advance_rest r count H) as (? & ? & ? & Ho); [lia|].
    do 2 eexists. split_and!; [done| |done]. split_and!; [done|done|lia].
Qed.

Lemma read_signed_bits_safe count : 0 <= count -> safe (read_signed_bits count) (fun _ => True).
Proof.
  intros Hc. unfold read_signed_bits. destruct (Z.eqb_spec count 0); [by apply safe_ret|].
  eapply safe_bind; [by apply read_bits_safe|]. intros v Hv. cbv beta in Hv.
  destruct (Z.leb_spec 64 count); [by apply safe_ret|].
  eapply safe_bind; [apply (safe_lift (2 ^ (count - 1)) _ (fun _ => True)); [apply shl1_64_pow; lia|done]|].
  intros s _. destruct (negb _); [|by apply safe_ret].
  eapply safe_bind; [apply (safe_lift (2 ^ count) _ (fun _ => True)); [apply shl1_64_pow; lia|done]|].
  intros m _. by apply safe_ret.
Qed.

Lemma read_bcd_safe bits : 0 <= bits -> safe (read_bcd bits) (fun _ => True).
Proof.
  intros Hb. unfold read_bcd. repeat destruct_if; auto with safe; [by apply safe_ret|].
  eapply safe_bind; [by apply read_bits_safe|]. intros v _.
  destruct (unpack_bcd _ _ _ _ _) as [res|[d i]]; auto with safe. by apply safe_ret.
Qed.

Lemma read_bcd_signed_safe bits : 0 <= bits -> safe (read_bcd_signed bits) (fun _ => True).
Proof.
  intros Hb. unfold read_bcd_signed. repeat destruct_if; auto with safe. bool_to_prop.
  eapply safe_bind; [by apply read_bits_safe|]. intros v Hv. cbv beta in Hv.
  eapply safe_bind; [apply (safe_lift (2 ^ (bits - 1)) _ (fun _ => True)); [apply shl1_64_pow; lia|done]|].
  intros m _. destruct (unpack_bcd _ _ _ _ _) as [res|[d i]]; auto with safe. by apply safe_ret.
Qed.

Lemma read_sign_magnitude_safe bits : 0 <= bits -> safe (read_sign_magnitude bits) (fun _ => True).
Proof.
  intros Hb. unfold read_sign_magnitude. destruct_if; auto with safe. bool_to_prop.
  eapply safe_bind; [by apply read_bits_safe|]. intros v Hv. cbv beta in Hv.
  eapply safe_bind; [apply (safe_lift (2 ^ (bits - 1)) _ (fun _ => True)); [apply shl1_64_pow; lia|done]|].
  intros m _. by apply safe_ret.
Qed.

(** Byte-level reads: an underrun after aligning, or the bytes. *)
Lemma align_forward r : rwf r -> forward r (reader_align_to_byte r).
Proof.
  intros H. pose proof H as [Hb Hs Hp Hbit He]. unfold reader_align_to_byte.
  destruct (Z.ltb_spec 0 (rbit_pos_ r)); [|by apply forward_refl].
  assert (byte_pos_ r <> len (rdata_ r)) by (intros E; specialize (He E); lia).
  rewrite sz_small by lia. split_and!; [|done|unfold offset; simpl; lia].
  split; simpl; done || lia.
Qed.

Lemma align_bit_pos r : rwf r -> rbit_pos_ (reader_align_to_byte r) = 0.
Proof.
  intros [_ _ _ Hbit _]. unfold reader_align_to_byte.
  destruct (Z.ltb_spec 0 (rbit_pos_ r)); simpl; lia.
Qed.

Lemma byte_read_safe {A} (n : Z) (r : BitReader) (load : option A) (e : Error) :
  rwf r -> 0 <= n -> len (rdata_ r) + n <= SIZE_MAX ->
  (slice_ok (rdata_ r) (byte_pos_ (reader_align_to_byte r)) (Z.to_nat n) -> is_Some load) ->
  let a := reader_align_to_byte r in
  exists res r',
    (if len (rdata_ a) <? sz (byte_pos_ a + n) then Some (Fail e, a)
     else v ← load; Some (Ok v, set_byte_pos (sz (byte_pos_ a + n)) a)) = Some (res, r')
    /\ forward r r' /\ match res with Ok a => True | Fail _ => True end.
Proof.
  intros H Hn Hmax Hload a. pose proof (align_forward r H) as Ha. pose proof (align_bit_pos r H) as Hbp.
  fold a in Ha, Hbp, Hload. destruct Ha as ([Hb Hs Hp Hbit He] & Ed & Ho). rewrite Ed in *.
  rewrite sz_small by lia. destruct (Z.ltb_spec (len (rdata_ r)) (byte_pos_ a + n)).
  - do 2 eexists. split_and!; [done| |done]. split_and!; [split; rewrite ?Ed; done|done|done].
  - destruct Hload as [v ->]; [unfold slice_ok; lia|].
    do 2 eexists. split_and!; [done| |done]. unfold forward, offset, set_byte_pos in *; simpl.
    split_and!; [|done|lia]. split; simpl; rewrite ?Ed; done || lia.
Qed.

Lemma f16_to_f32_defined h : 0 <= h < 65536 -> is_Some (f16_to_f32 h).
Proof.
  intros Hh. destruct (pack16_surj h Hh) as (s & e & m & -> & Hs & He & Hm).
  destruct (f16_to_f32_pack s e m Hs He Hm) as (E & M & -> & _). eauto.
Qed.

(** ** The reader's operations as one type *)

Inductive ReadOp :=
  | RBits (count : Z) | RSigned (count : Z)
  | RBcd (bits : Z) | RBcdSigned (bits : Z) | RSignMagnitude (bits : Z)
  | RU8 | RU16 (e : endian) | RU32 (e : endian) | RU64 (e : endian)
  | RF16 (e : endian) | RF32 (e : endian) | RF48 (e : endian) | RF64 (e : endian)
  | RBytes (count : Z) | RString (count : Z) | RSub (count : Z)
  | RSkip (count : Z) | RAlign | RAlignTo (boundary : Z).

Inductive Value :=
  | VInt (v : Z) | VBytes (l : list Z) | VReader (r : BitReader) | VUnit.

Definition fmap_R {A B} (f : A -> B) (m : R A) : R B := let! a := m in ret (f a).

Definition run_read (op : ReadOp) : R Value :=
  match op with
  | RBits n => fmap_R VInt (read_bits n)
  | RSigned n => fmap_R VInt (read_signed_bits n)
  | RBcd n => fmap_R VInt (read_bcd n)
  | RBcdSigned n => fmap_R VInt (read_bcd_signed n)
  | RSignMagnitude n => fmap_R VInt (read_sign_magnitude n)
  | RU8 => fmap_R VInt read_u8
  | RU16 e => fmap_R VInt (read_u16 e)
  | RU32 e => fmap_R VInt (read_u32 e)
  | RU64 e => fmap_R VInt (read_u64 e)
  | RF16 e => fmap_R VInt (read_f16 e)
  | RF32 e => fmap_R VInt (read_f32 e)
  | RF48 e => fmap_R VInt (read_f48 e)
  | RF64 e => fmap_R VInt (read_f64 e)
  | RBytes n => fmap_R VBytes (read_bytes n)
  | RString n => fmap_R VBytes (read_string n)
  | RSub n => fmap_R VReader (sub_reader n)
  | RSkip n => fmap_R (fun _ => VUnit) (skip_bits n)
  | RAlign => fun r => Some (Ok VUnit, reader_align_to_byte r)
  | RAlignTo b => fun r => Some (Ok VUnit, reader_align_to b r)
  end.

(** The sizes a caller passes are [size_t]s; a byte count must not make
    [byte_pos_ + count] wrap. *)
Definition read_op_ok (data : list Z) (op : ReadOp) : Prop :=
  match op with
  | RBits n | RSigned n | RBcd n | RBcdSigned n | RSignMagnitude n | RSkip n | RAlignTo n =>
      0 <= n <= SIZE_MAX
  | RBytes n | RString n | RSub n => 0 <= n /\ len data + n <= SIZE_MAX
  | _ => True
  end.

Lemma align_to_forward r b : rwf r -> 0 <= b <= SIZE_MAX -> forward r (reader_align_to b r).
Proof.
  intros H Hb. unfold reader_align_to. destruct (Z.eqb_spec b 0); [by apply forward_refl|].
  pose proof (align_forward r H) as Hf. pose proof (align_bit_pos r H) as H0.
  set (a := reader_align_to_byte r) in *. destruct Hf as (Hw & Ed & Ho).
  pose proof Hw as [Hby Hs Hp Hbit He].
  assert (forall p, byte_pos_ a <= p ->
    forward r (if len (rdata_ a) <? p then mkReader (rdata_ a) (len (rdata_ a)) (rbit_pos_ a)
               else mkReader (rdata_ a) p (rbit_pos_ a))) as Hgoal.
  { intros p Hge. unfold forward, offset in *. rewrite H0 in *.
    destruct (Z.ltb_spec (len (rdata_ a)) p); simpl; (split_and!; [|done|lia]);
      split; simpl; done || lia. }
  destruct ((1 <? b) && negb (byte_pos_ a mod b =? 0)) eqn:E; cbv zeta; cbn [rdata_ byte_pos_ rbit_pos_].
  - apply Hgoal. bool_to_prop. pose proof (Z.mod_pos_bound (byte_pos_ a) b ltac:(lia)).
    rewrite sz_small; [lia|]. split; [lia|].
    destruct (Z.lt_ge_cases (byte_pos_ a) b); [rewrite Z.mod_small by lia; lia|].
    pose proof (Z.mod_le (byte_pos_ a) b ltac:(lia) ltac:(lia)). lia.
  - specialize (Hgoal (byte_pos_ a) ltac:(lia)). by destruct a.
Qed.

Lemma safe_fmap {A B} (f : A -> B) (m : R A) : safe m (fun _ => True) -> safe (fmap_R f m) (fun _ => True).
Proof. intros H. eapply safe_bind; [exact H|]. intros a _. by apply safe_ret. Qed.

(** Loading a slice that passed the guard is defined. *)
Lemma read_uint_defined w data off e :
  slice_ok data off (width_bytes w) -> Forall is_byte data ->
  exists v, read_uint w data off e = Some v /\ 0 <= v < 2 ^ (8 * Z.of_nat (width_bytes w)).
Proof.
  intros Hok Hd. rewrite read_uint_slice by done. eexists; split; [done|].
  pose proof (wire_value_range e (take (width_bytes w) (drop (Z.to_nat off) data))) as Hr.
  assert (len (take (width_bytes w) (drop (Z.to_nat off) data)) = Z.of_nat (width_bytes w)) as <-; [|done].
  destruct Hok as (? & ? & ?). unfold len in *. rewrite length_take, length_drop. lia.
Qed.

Ltac uint_safe n W e Hd :=
  let Hok := fresh in
  apply (byte_read_safe n); [done|done|unfold SIZE_MAX; lia|];
  intros Hok; rewrite align_data;
  destruct (read_uint_defined W _ _ e Hok Hd) as (v & E & Hv); cbn [read_uint] in E.

Definition is_scalar (op : ReadOp) : bool :=
  match op with
  | RU8 | RU16 _ | RU32 _ | RU64 _ | RF16 _ | RF32 _ | RF48 _ | RF64 _ => true
  | _ => false
  end.

Lemma scalar_reads_safe op : is_scalar op = true -> safe (run_read op) (fun _ => True).
Proof.
  intros Hop. destruct op as [| | | | | |e|e|e|e|e|e|e| | | | | |]; try done; apply safe_fmap;
    intros r H; pose proof (rwf_size _ H) as Hs; pose proof (rwf_bytes _ H) as Hd;
    unfold SIZE_MAX in Hs.
  - unfold read_u8. pose proof (align_forward r H) as (Hw & Ed & Ho).
    pose proof (align_bit_pos r H) as H0. destruct (Z.leb_spec (len (rdata_ (reader_align_to_byte r)))
      (byte_pos_ (reader_align_to_byte r))).
    + do 2 eexists. split_and!; [done|split_and!; done|done].
    + destruct Hw as [Hb Hz Hp Hbit He]. unfold at_. rewrite (proj2 (Z.leb_le _ _)) by lia.
      destruct (lookup_lt_is_Some_2 (rdata_ (reader_align_to_byte r))
        (Z.to_nat (byte_pos_ (reader_align_to_byte r)))) as [v ->]; [unfold len in *; lia|].
      do 2 eexists. split_and!; [done| |done]. rewrite sz_small by lia.
      unfold forward, set_byte_pos, offset in *; simpl. split_and!; [|done|lia].
      split; simpl; done || lia.
  - uint_safe 2 W16 e Hd. by exists v.
  - uint_safe 4 W32 e Hd. by exists v.
  - uint_safe 8 W64 e Hd. by exists v.
  - uint_safe 2 W16 e Hd. unfold Endian.read_f16. rewrite E. cbn [mbind option_bind].
    by apply f16_to_f32_defined.
  - uint_safe 4 W32 e Hd. by exists v.
  - uint_safe 6 W48 e Hd. unfold Endian.read_f48. rewrite E. by eexists.
  - uint_safe 8 W64 e Hd. by exists v.
Qed.

Lemma subspan_reads_safe n r (f : list Z -> Value) :
  rwf r -> 0 <= n -> len (rdata_ r) + n <= SIZE_MAX ->
  exists res r', fmap_R f (read_bytes n) r = Some (res, r') /\ forward r r'.
Proof.
  intros H Hn Hmax.
  destruct (byte_read_safe n r (subspan (rdata_ r) (byte_pos_ (reader_align_to_byte r)) n)
    (underrun "read_bytes" (pretty n +:+ " bytes") (reader_align_to_byte r)) H Hn Hmax)
    as (res & r' & E & F & _).
  { intros Hok. apply subspan_slice in Hok. rewrite Z2Nat.id in Hok by done. by eexists. }
  unfold fmap_R, bind, read_bytes. rewrite align_data in *. rewrite E.
  destruct res; do 2 eexists; done.
Qed.

Lemma run_read_safe op r :
  rwf r -> read_op_ok (rdata_ r) op ->
  exists res r', run_read op r = Some (res, r') /\ forward r r'.
Proof.
  intros H Hop.
  assert (forall m : R Value, safe m (fun _ => True) ->
    exists res r', m r = Some (res, r') /\ forward r r') as Hgo.
  { intros m Hm. destruct (Hm r H) as (res & r' & E & F & _). eauto. }
  destruct (is_scalar op) eqn:Es; [by apply Hgo, scalar_reads_safe|].
  destruct op as [n|n|n|n|n| |e|e|e|e|e|e|e|n|n|n|n| |n]; try done; cbn [read_op_ok run_read] in *.
  - apply Hgo, safe_fmap. eapply safe_weaken; [apply read_bits_safe; lia|done].
  - apply Hgo, safe_fmap, read_signed_bits_safe; lia.
  - apply Hgo, safe_fmap, read_bcd_safe; lia.
  - apply Hgo, safe_fmap, read_bcd_signed_safe; lia.
  - apply Hgo, safe_fmap, read_sign_magnitude_safe; lia.
  - destruct Hop. by apply subspan_reads_safe.
  - destruct Hop. destruct (subspan_reads_safe n r VBytes H) as (res & r' & E & F); [done..|].
    exists res, r'. split; [|done]. rewrite <- E. unfold read_string, fmap_R, bind, ret.
    by destruct (read_bytes n r) as [[[]]|].
  - destruct Hop as [Hn Hmax].
    destruct (byte_read_safe n r (sub ← subspan (rdata_ r) (byte_pos_ (reader_align_to_byte r)) n;
        Some (new_reader sub))
      (underrun "sub_reader" (pretty n +:+ " bytes") (reader_align_to_byte r)) H Hn Hmax)
      as (res & r' & E & F & _).
    { intros Hok. apply subspan_slice in Hok. rewrite Z2Nat.id in Hok by done. rewrite Hok. by eexists. }
    exists (match res with Ok a => Ok (VReader a) | Fail e => Fail e end), r'. split; [|done].
    unfold fmap_R, bind, sub_reader. rewrite align_data in *. revert E.
    destruct (len _ <? _); [by intros [= <- <-]|].
    destruct (subspan _ _ n); cbn [mbind option_bind]; [by intros [= <- <-]|done].
  - apply Hgo, safe_fmap, skip_bits_safe; lia.
  - do 2 eexists; split; [done|]. by apply align_forward.
  - do 2 eexists; split; [done|]. by apply align_to_forward.
Qed.

(** ** Canonical decimal fields *)

Lemma read_bits_split r n : rwf r -> (n <= 64)%nat -> Z.of_nat n <= len (rest r) ->
  read_bits (Z.of_nat n) r = Some (Ok (of_bits (take n (rest r))), reader_advance (Z.of_nat n) r).
Proof.
  intros H Hn Hl. destruct (cursor_exists r H) as [pre Hc].
  rewrite <- (take_drop n (rest r)) in Hc.
  assert (length (take n (rest r)) = n) as El by (unfold len in *; rewrite length_take; lia).
  pose proof (read_bits_cursor _ _ _ _ Hc) as E. unfold len in E. rewrite El in E. by apply E.
Qed.

(** [read_bcd] accepts exactly the canonical encodings: whatever bits the
    input holds, either the value returned has at most [k] digits and
    [write_bcd] would emit precisely the bits that were read, or some nibble is
    above nine and the read fails with [InvalidArgument]. *)
Theorem read_bcd_canonical (r : BitReader) (k : nat) :
  rwf r -> (0 < k <= 16)%nat -> 4 * Z.of_nat k <= len (rest r) ->
  exists res, read_bcd (4 * Z.of_nat k) r = Some (res, reader_advance (4 * Z.of_nat k) r) /\
    match res with
    | Ok v => 0 <= v < 10 ^ Z.of_nat k /\ take (4 * k) (rest r) = to_bits (4 * k) (bcd k v)
    | Fail e => code e = InvalidArgument /\
        exists j, 0 <= j < Z.of_nat k /\
          9 < Z.shiftr (of_bits (take (4 * k) (rest r))) (4 * j) mod 16
    end.
Proof.
  intros H Hk Hl. unfold read_bcd. rewrite (proj2 (Z.eqb_neq _ 0)) by lia.
  rewrite (Z.mul_comm 4), Z.mod_mul, Z.div_mul, (Z.mul_comm _ 4) by lia. cbn [negb Z.eqb].
  rewrite (proj2 (Z.ltb_ge 16 _)) by lia.
  assert (4 * Z.of_nat k = Z.of_nat (4 * k)) as Ek by lia.
  pose proof (read_bits_split r (4 * k) H ltac:(lia) ltac:(lia)) as E. rewrite <- Ek in E.
  rewrite (bind_ok _ _ _ _ _ E). rewrite Nat2Z.id.
  set (raw := of_bits (take (4 * k) (rest r))). pose proof (unpack_bcd_spec k 0 raw 0) as Hu.
  change (10 ^ 0) with 1 in Hu. destruct (unpack_bcd k 0 raw 0 1) as [res|[d j]].
  - destruct Hu as (v & Hv & -> & Eb); [lia..|]. eexists; split; [done|]. cbv beta iota.
    rewrite Z.add_0_l, Z.mul_1_r. split; [done|].
    assert (length (take (4 * k) (rest r)) = 4 * k)%nat as El by (unfold len in *; rewrite length_take; lia).
    pose proof (of_bits_range (take (4 * k) (rest r))) as Hr. unfold len in Hr. rewrite El in Hr.
    rewrite Z.mul_0_r, Z.shiftr_0_r, Z.mod_small in Eb.
    + rewrite <- Eb. unfold raw. rewrite <- El at 2. by rewrite to_bits_of_bits.
    + replace (16 ^ Z.of_nat k) with (2 ^ Z.of_nat (4 * k)); [done|].
      by rewrite Nat2Z.inj_mul, Z.pow_mul_r by lia.
  - destruct Hu as (Hd & Hj & ->); [lia..|]. eexists; split; [done|]. split; [done|].
    exists j. lia.
Qed.

Lemma read_bcd_canonical_witness :
  exists res, read_bcd (4 * Z.of_nat 2) (new_reader [0x9A])
      = Some (res, reader_advance (4 * Z.of_nat 2) (new_reader [0x9A]))
    /\ match res with
       | Ok v => 0 <= v < 10 ^ Z.of_nat 2
           /\ take (4 * 2) (rest (new_reader [0x9A])) = to_bits (4 * 2) (bcd 2 v)
       | Fail e => code e = InvalidArgument /\
           exists j, 0 <= j < Z.of_nat 2 /\
             9 < Z.shiftr (of_bits (take (4 * 2) (rest (new_reader [0x9A])))) (4 * j) mod 16
       end.
Proof.
  apply (read_bcd_canonical (new_reader [0x9A]) 2).
  - apply new_reader_wf; [repeat constructor; lia|vm_compute; discriminate].
  - lia.
  - vm_compute. discriminate.
Defined.

(** ** Where the bounds checks wrap *)

Lemma subspan_guard_wraps r count :
  rwf r -> 0 <= count <= SIZE_MAX ->
  let a := reader_align_to_byte r in
  (if len (rdata_ a) <? sz (byte_pos_ a + count) then true
   else bool_decide (is_Some (subspan (rdata_ a) (byte_pos_ a) count)))
  = (byte_pos_ a + count <=? SIZE_MAX).
Proof.
  intros H Hc a. destruct (align_forward r H) as (Hw & _ & _). fold a in Hw.
  destruct Hw as [_ Hs Hp _ _]. unfold subspan.
  destruct (Z.leb_spec (byte_pos_ a + count) SIZE_MAX) as [E|E].
  - rewrite sz_small by lia. destruct (Z.ltb_spec (len (rdata_ a)) (byte_pos_ a + count)); [done|].
    rewrite !(proj2 (Z.leb_le _ _)) by lia. done.
  - assert (sz (byte_pos_ a + count) = byte_pos_ a + count - 2 ^ 64) as ->.
    { unfold sz, wrap, SIZE_MAX in *. replace (byte_pos_ a + count) with (byte_pos_ a + count - 2 ^ 64 + 1 * 2 ^ 64) at 1 by lia.
      rewrite Z.mod_add by lia. apply Z.mod_small. lia. }
    rewrite (proj2 (Z.ltb_ge _ _)) by (unfold SIZE_MAX in *; lia).
    rewrite (proj2 (Z.leb_gt count _)), andb_false_r by lia. done.
Qed.

(** The guard [byte_pos_ + count > data_.size()] of [read_bytes] and
    [sub_reader] is computed in [size_t]: for a count so large that the sum
    wraps it passes, and the [subspan] that follows is out of contract.  The
    two reads are undefined exactly for those counts. *)
Theorem read_bytes_undefined_iff (r : BitReader) (count : Z) :
  rwf r -> 0 <= count <= SIZE_MAX ->
  (read_bytes count r = None <-> SIZE_MAX < byte_pos_ (reader_align_to_byte r) + count)
  /\ (sub_reader count r = None <-> SIZE_MAX < byte_pos_ (reader_align_to_byte r) + count).
Proof.
  intros H Hc. pose proof (subspan_guard_wraps r count H Hc) as Hg. cbv zeta in Hg.
  rewrite <- !Z.leb_gt, <- Hg. unfold read_bytes, sub_reader.
  destruct (_ <? _); [split; split; discriminate|].
  destruct (subspan _ _ _); cbn [mbind option_bind]; rewrite ?bool_decide_eq_false.
  - split; split; intros E; [discriminate|by destruct E|discriminate|by destruct E].
  - split; (split; intros; [by intros [? ?]|done]).
Qed.

Lemma read_bytes_undefined_iff_witness :
  read_bytes SIZE_MAX (mkReader [7; 8] 1 0) = None.
Proof.
  apply (read_bytes_undefined_iff (mkReader [7; 8] 1 0) SIZE_MAX).
  - split; simpl; try (unfold SIZE_MAX, len; simpl; lia). repeat constructor; unfold is_byte; lia.
  - unfold SIZE_MAX. lia.
  - vm_compute. reflexivity.
Defined.
