(* ===== verification/BitIO.v ===== *)
(** * Bit-level I/O end to end

    [BitWriter] and [BitReader] used together, the way generated encoders and
    decoders use them: a message is a sequence of writes, [finish] yields the
    buffer, and the decoder reads it with the matching sequence of reads. *)

From stdpp Require Import base numbers list strings pretty.
From Stdlib Require Import ZArith Lia.
From S2P Require Import Prelude Bits CoreError Endian BitWriter BitReader.

Open Scope Z_scope.

(** ** Sequences *)

Fixpoint run_writes (ops : list WriteOp) (w : BitWriter) : option BitWriter :=
  match ops with
  | [] => Some w
  | op :: ops => w' ← run_write op w; run_writes ops w'
  end.

Fixpoint run_reads (ops : list ReadOp) : R (list Value) :=
  match ops with
  | [] => ret []
  | op :: ops => bind (run_read op) (fun v => bind (run_reads ops) (fun vs => ret (v :: vs)))
  end.

(** The read that matches a write, and the value it must deliver.  Half floats
    and 48-bit floats come back rounded to their wire width. *)
Definition read_of (op : WriteOp) : ReadOp :=
  match op with
  | WBit _ => RBits 1
  | WBits _ n => RBits (Z.of_nat n)
  | WSigned _ n => RSigned (Z.of_nat n)
  | WBcd _ n => RBcd (Z.of_nat n)
  | WBcdSigned _ n => RBcdSigned (Z.of_nat n)
  | WSignMagnitude _ n => RSignMagnitude (Z.of_nat n)
  | WU8 _ => RU8
  | WU16 _ e => RU16 e | WU32 _ e => RU32 e | WU64 _ e => RU64 e
  | WF16 _ e => RF16 e | WF32 _ e => RF32 e | WF48 _ e => RF48 e | WF64 _ e => RF64 e
  | WBytes l => RBytes (len l)
  | WString _ n _ => RString (Z.of_nat n)
  | WAlignTo b => RAlignTo (Z.of_nat b)
  | _ => RAlign
  end.

Definition read_back (op : WriteOp) : Value :=
  match op with
  | WBit b => VInt (Z.b2z b)
  | WBits v _ | WSigned v _ | WBcd v _ | WBcdSigned v _ | WSignMagnitude v _
  | WU8 v | WU16 v _ | WU32 v _ | WU64 v _ | WF32 v _ | WF64 v _ => VInt v
  | WF16 v _ => VInt (default 0 (f16_to_f32 (f32_to_f16 v)))
  | WF48 v _ => VInt (f48_to_f64 (f64_to_f48 v))
  | WBytes l => VBytes l
  | WString str n p => VBytes (padded str n p)
  | _ => VUnit
  end.

(** The value fits the width the message layout gives it. *)
Definition fits (op : WriteOp) : Prop :=
  match op with
  | WBit _ | WAlign => True
  | WAlignTo b => Z.of_nat b <= SIZE_MAX
  | WBits v n => 0 <= v < 2 ^ Z.of_nat n /\ (n <= 64)%nat
  | WSigned v n => - 2 ^ (Z.of_nat n - 1) <= v < 2 ^ (Z.of_nat n - 1) /\ (0 < n <= 64)%nat
  | WBcd v n => exists k, n = (4 * k)%nat /\ (0 < k <= 16)%nat /\ 0 <= v < 10 ^ Z.of_nat k
  | WBcdSigned v n => exists k, n = (4 * k + 1)%nat /\ (0 < k <= 15)%nat /\ Z.abs v < 10 ^ Z.of_nat k
  | WSignMagnitude v n => (1 < n <= 64)%nat /\ Z.abs v < 2 ^ (Z.of_nat n - 1)
  | WU8 v => 0 <= v < 2 ^ 8
  | WU16 v _ => 0 <= v < 2 ^ 16
  | WU32 v _ | WF32 v _ | WF16 v _ => 0 <= v < 2 ^ 32
  | WU64 v _ | WF64 v _ | WF48 v _ => 0 <= v < 2 ^ 64
  | WBytes l => Forall is_byte l
  | WString str n _ => Forall is_byte str
  | WPatch8 _ _ | WPatch16 _ _ _ | WPatch32 _ _ _ => False
  end.

(** The bits an operation appends after [pre]. *)
Definition appended (op : WriteOp) (pre : list bool) : list bool :=
  let aligned l := zeros (pad8 (length pre)) ++ l in
  match op with
  | WBit b => [b]
  | WBits v n | WSigned v n => to_bits n v
  | WBcd v n => to_bits n (bcd (n / 4) v)
  | WBcdSigned v n => to_bits n (sign_bit v (Z.of_nat n - 1) + bcd ((n - 1) / 4) (Z.abs v))
  | WSignMagnitude v n => to_bits n (sign_bit v (Z.of_nat n - 1) + Z.abs v)
  | WU8 v => aligned (bytes_bits [v])
  | WU16 v e => aligned (bytes_bits (wire_bytes e 2 v))
  | WU32 v e | WF32 v e => aligned (bytes_bits (wire_bytes e 4 v))
  | WU64 v e | WF64 v e => aligned (bytes_bits (wire_bytes e 8 v))
  | WF16 v e => aligned (bytes_bits (wire_bytes e 2 (f32_to_f16 v)))
  | WF48 v e => aligned (bytes_bits (wire_bytes e 6 (f64_to_f48 v)))
  | WBytes l => aligned (bytes_bits l)
  | WString str n p => aligned (bytes_bits (padded str n p))
  | WAlign => aligned []
  | WAlignTo b =>
      if decide (b = 0)%nat then []
      else aligned (zeros (8 * boundary_pad (length (align8 pre) / 8) b))
  | WPatch8 _ _ | WPatch16 _ _ _ | WPatch32 _ _ _ => []
  end.

Lemma fits_spec op pre : fits op -> spec_write op pre = Some (pre ++ appended op pre).
Proof.
  intros Hf. destruct op; cbn [fits spec_write appended] in *; unfold align8; rewrite <- ?app_assoc;
    try done.
  - destruct Hf. by rewrite (proj2 (Nat.leb_le _ _)).
  - destruct Hf. by rewrite (proj2 (Nat.leb_le _ _)) by lia.
  - destruct Hf as (k & -> & Hk & Hv). rewrite (Nat.mul_comm 4), Nat.Div0.mod_mul, Nat.div_mul by lia.
    rewrite (proj2 (Nat.leb_le _ _)), (proj2 (Z.ltb_lt _ _)), orb_true_r by lia. done.
  - destruct Hf as (k & -> & Hk & Hv). rewrite Nat.add_sub, (Nat.mul_comm 4), Nat.Div0.mod_mul, Nat.div_mul by lia.
    rewrite !(proj2 (Nat.leb_le _ _)), (proj2 (Z.ltb_lt _ _)) by lia. done.
  - destruct Hf as [? ?]. by rewrite (proj2 (Nat.leb_le _ _)), (proj2 (Z.ltb_lt _ _)) by lia.
  - by rewrite app_nil_r.
  - case_decide; [by rewrite app_nil_r|done].
Qed.

Lemma fits_args op pre : fits op -> op_args_ok op pre.
Proof.
  assert (forall n, (n <= 64)%nat -> 2 ^ (Z.of_nat n - 1) <= 2 ^ 63) as Hp
    by (intros; apply Z.pow_le_mono_r; lia).
  destruct op; cbn [fits op_args_ok]; try done.
  - intros [? ?]. assert (2 ^ Z.of_nat count <= 2 ^ 64) by (apply Z.pow_le_mono_r; lia). lia.
  - intros [? ?]. specialize (Hp count). lia.
  - intros (k & -> & ? & ?). assert (10 ^ Z.of_nat k <= 10 ^ 16) by (apply Z.pow_le_mono_r; lia). lia.
  - intros (k & -> & ? & ?). assert (10 ^ Z.of_nat k <= 10 ^ 16) by (apply Z.pow_le_mono_r; lia). lia.
  - intros [? ?]. specialize (Hp bits). lia.
Qed.

(** ** The matching read recovers the value *)

Lemma fmap_R_ok {A B} (f : A -> B) (m : R A) r a r' :
  m r = Some (Ok a, r') -> fmap_R f m r = Some (Ok (f a), r').
Proof. intros E. unfold fmap_R. by rewrite (bind_ok _ _ _ _ _ E). Qed.

(** Bit-level reads: the value, and the cursor past the field. *)
Lemma bit_read {A} (f : A -> Value) (m : R A) r pre bits post a n :
  cursor r pre (bits ++ post) -> len bits = n ->
  m r = Some (Ok a, reader_advance n r) ->
  exists r', fmap_R f m r = Some (Ok (f a), r') /\ cursor r' (pre ++ bits) post.
Proof.
  intros H <- E. eexists. split; [by apply fmap_R_ok|]. by apply cursor_advance.
Qed.

Lemma aligned_read {A} (f : A -> Value) (m : R A) r pre l post a :
  byte_read m l a ->
  cursor r pre ((zeros (pad8 (length pre)) ++ bytes_bits l) ++ post) ->
  exists r', fmap_R f m r = Some (Ok (f a), r')
    /\ cursor r' (pre ++ zeros (pad8 (length pre)) ++ bytes_bits l) post.
Proof.
  intros Hm H. rewrite <- app_assoc in H.
  destruct (Hm _ _ _ _ H) as (r' & E & Hc); [by rewrite length_replicate|].
  exists r'. split; [by apply fmap_R_ok|done].
Qed.

Lemma wire_value_small e n v : 0 <= v < 2 ^ (8 * Z.of_nat n) -> wire_value e (wire_bytes e n v) = v.
Proof. intros Hv. by rewrite wire_value_bytes, Z.mod_small. Qed.

Lemma signed_wrap n v : 0 < n -> - 2 ^ (n - 1) <= v < 2 ^ (n - 1) -> signed n (v mod 2 ^ n) = v.
Proof.
  intros Hn Hv. assert (2 ^ n = 2 * 2 ^ (n - 1)) as E
    by (rewrite <- Z.pow_succ_r by lia; f_equal; lia).
  unfold signed. destruct (Z.lt_ge_cases v 0).
  - replace (v mod 2 ^ n) with (v + 2 ^ n).
    + rewrite (proj2 (Z.leb_le _ _)); lia.
    + replace v with ((v + 2 ^ n) + (-1) * 2 ^ n) at 2 by lia.
      rewrite Z.mod_add by lia. rewrite Z.mod_small; lia.
  - rewrite Z.mod_small by lia. by rewrite (proj2 (Z.leb_gt _ _)) by lia.
Qed.

Lemma f32_to_f16_range f : 0 <= f32_to_f16 f < 2 ^ 16.
Proof. unfold f32_to_f16. repeat case_match; by apply (wrap_range 16). Qed.

Lemma f64_to_f48_range d : 0 <= d < 2 ^ 64 -> 0 <= f64_to_f48 d < 2 ^ 48.
Proof. intros Hd. unfold f64_to_f48. rewrite Z.shiftr_div_pow2 by lia. div_lia. Qed.

Lemma boundary_pad_spec n b : (0 < b)%nat -> (boundary_pad n b < b)%nat
  /\ ((n mod b = 0 /\ boundary_pad n b = 0) \/ (n mod b <> 0 /\ boundary_pad n b = b - n mod b))%nat.
Proof.
  intros Hb. unfold boundary_pad. rewrite decide_False by lia.
  pose proof (Nat.mod_upper_bound n b). destruct (decide (n mod b = 0)%nat) as [E|E].
  - rewrite E, Nat.sub_0_r, Nat.Div0.mod_same. lia.
  - rewrite Nat.mod_small by lia. lia.
Qed.

(** The reader's [align_to] skips exactly the padding the writer's emits. *)
Lemma read_align_to b r pre post :
  (0 < b)%nat -> Z.of_nat b <= SIZE_MAX ->
  let fill := zeros (pad8 (length pre))
                ++ zeros (8 * boundary_pad (length (align8 pre) / 8) b) in
  cursor r pre (fill ++ post) -> cursor (reader_align_to (Z.of_nat b) r) (pre ++ fill) post.
Proof.
  intros Hb Hmax fill H. unfold fill in *. rewrite <- app_assoc in H.
  pose proof (cursor_align _ _ _ _ H ltac:(by rewrite length_replicate)) as Ha.
  fold (align8 pre) in *. rewrite app_assoc. fold (align8 pre).
  unfold reader_align_to. rewrite (proj2 (Z.eqb_neq _ 0)) by lia.
  set (a := reader_align_to_byte r) in *. set (q := (length (align8 pre) / 8)%nat) in *.
  pose proof (cursor_bit_pos _ _ _ Ha) as [Ebit Ebyte]. fold q in Ebyte.
  rewrite align8_mod in Ebit.
  pose proof (cursor_advance _ _ _ _ Ha) as Hadv.
  assert (len (zeros (8 * boundary_pad q b)) = 8 * Z.of_nat (boundary_pad q b)) as El
    by (unfold len; rewrite length_replicate; lia).
  rewrite El in Hadv. pose proof (cursor_wf _ _ _ Ha) as [_ Hs Hp _ _].
  pose proof (rwf_byte_pos _ (cursor_wf _ _ _ Hadv)) as Hp'.
  destruct (boundary_pad_spec q b Hb) as [Hlt Hcase].
  pose proof (f_equal len (cursor_bits _ _ _ Ha)) as EL.
  rewrite !len_app, len_bytes_bits, El in EL.
  pose proof (len_nonneg post). pose proof (len_nonneg (align8 pre)).
  assert (len (align8 pre) = 8 * Z.of_nat q) as Eq.
  { pose proof (Nat.div_mod_eq (length (align8 pre)) 8) as E. rewrite align8_mod in E. fold q in E.
    unfold len. lia. }
  assert (reader_advance (8 * Z.of_nat (boundary_pad q b)) a
          = mkReader (rdata_ a) (byte_pos_ a + Z.of_nat (boundary_pad q b)) (rbit_pos_ a)) as Eadv.
  { unfold reader_advance. rewrite Ebit. cbn [Z.of_nat]. rewrite Z.add_0_l.
    rewrite (sz_small (8 * _)) by lia. rewrite Z.mul_comm, Z.div_mul, Z.mod_mul by lia.
    by rewrite sz_small by lia. }
  rewrite Eadv in Hadv. rewrite Ebyte, of_nat_mod_eqb. cbv zeta.
  destruct Hcase as [[E0 Ep]|[E0 Ep]].
  - rewrite E0. cbn [Nat.eqb negb]. rewrite andb_false_r. cbn [rdata_ byte_pos_].
    rewrite (proj2 (Z.ltb_ge _ _)) by lia. rewrite Ep in *. cbn [Nat.mul replicate]. by rewrite app_nil_r.
  - rewrite (proj2 (Nat.eqb_neq _ 0)) by done.
    assert (1 < Z.of_nat b) by (destruct (decide (b = 1)%nat) as [->|]; [by rewrite Nat.mod_1_r in E0|lia]).
    rewrite (proj2 (Z.ltb_lt 1 _)) by lia. cbn [negb andb rdata_ byte_pos_ rbit_pos_].
    rewrite <- Nat2Z.inj_mod. pose proof (Nat.mod_upper_bound q b ltac:(lia)).
    replace (Z.of_nat b - Z.of_nat (q mod b)) with (Z.of_nat (boundary_pad q b)) by lia.
    rewrite sz_small by lia. rewrite (proj2 (Z.ltb_ge _ _)) by lia. by rewrite <- Ebyte.
Qed.

Lemma read_of_cursor op r pre post :
  fits op -> cursor r pre (appended op pre ++ post) ->
  exists r', run_read (read_of op) r = Some (Ok (read_back op), r')
    /\ cursor r' (pre ++ appended op pre) post.
Proof.
  intros Hf H.
  destruct op; cbn [fits appended read_of read_back run_read] in *; try done.
  - eapply bit_read; [exact H|done|].
    assert (Z.b2z b = of_bits [b]) as -> by (by destruct b).
    apply (read_bits_cursor r pre [b] post); [done|simpl; lia].
  - destruct Hf as [Hv Hn]. eapply bit_read; [exact H|apply len_to_bits|].
    pose proof (read_bits_cursor _ _ _ _ H) as E. rewrite length_to_bits, len_to_bits in E.
    rewrite E by done. by rewrite of_bits_to_bits, Z.mod_small.
  - destruct Hf as [Hv Hn]. eapply bit_read; [exact H|apply len_to_bits|].
    pose proof (read_signed_bits_cursor _ _ _ _ H) as E. rewrite length_to_bits, len_to_bits in E.
    rewrite E by done. by rewrite of_bits_to_bits, signed_wrap by lia.
  - destruct Hf as (k & -> & Hk & Hv). rewrite (Nat.mul_comm 4), Nat.div_mul, (Nat.mul_comm k) in * by lia.
    eapply bit_read; [exact H|apply len_to_bits|].
    replace (Z.of_nat (4 * k)) with (4 * Z.of_nat k) by lia. by eapply read_bcd_cursor.
  - destruct Hf as (k & -> & Hk & Hv).
    rewrite Nat.add_sub, (Nat.mul_comm 4), Nat.div_mul, (Nat.mul_comm k) in * by lia.
    replace (Z.of_nat (4 * k + 1)) with (4 * Z.of_nat k + 1) in * by lia. rewrite Z.add_simpl_r in *.
    eapply (bit_read _ _ _ _ _ _ _ (4 * Z.of_nat k + 1)); [exact H|rewrite len_to_bits; lia|].
    by eapply read_bcd_signed_cursor.
  - destruct Hf as [Hn Hv]. eapply bit_read; [exact H|apply len_to_bits|].
    by eapply read_sign_magnitude_cursor.
  - eapply aligned_read; [by apply read_u8_read|done].
  - eapply aligned_read; [|exact H]. rewrite <- (wire_value_small e 2 v) at 2 by done.
    apply read_u16_read; [auto with conduit|apply length_wire_bytes].
  - eapply aligned_read; [|exact H]. rewrite <- (wire_value_small e 4 v) at 2 by done.
    apply read_u32_read; [auto with conduit|apply length_wire_bytes].
  - eapply aligned_read; [|exact H]. rewrite <- (wire_value_small e 8 v) at 2 by done.
    apply read_u64_read; [auto with conduit|apply length_wire_bytes].
  - eapply aligned_read; [|exact H]. apply read_f16_read; [auto with conduit|apply length_wire_bytes|].
    rewrite wire_value_small by apply f32_to_f16_range.
    destruct (f16_to_f32_defined (f32_to_f16 v)) as [f ->]; [apply f32_to_f16_range|done].
  - eapply aligned_read; [|exact H]. rewrite <- (wire_value_small e 4 v) at 2 by done.
    apply read_f32_read; [auto with conduit|apply length_wire_bytes].
  - eapply aligned_read; [|exact H].
    rewrite <- (wire_value_small e 6 (f64_to_f48 v)) at 2 by (by apply f64_to_f48_range).
    apply read_f48_read; [auto with conduit|apply length_wire_bytes].
  - eapply aligned_read; [|exact H]. rewrite <- (wire_value_small e 8 v) at 2 by done.
    apply read_f64_read; [auto with conduit|apply length_wire_bytes].
  - eapply aligned_read; [|exact H]. by apply read_bytes_read.
  - eapply aligned_read; [|exact H]. pose proof (read_string_read (padded str n padding)) as Hr.
    unfold len in Hr. rewrite length_padded in Hr. by apply Hr, padded_byte.
  - eexists; split; [done|]. rewrite app_nil_r in *. apply cursor_align; [done|by rewrite length_replicate].
  - case_decide as Hb.
    + subst. rewrite app_nil_r. by exists r.
    + eexists; split; [done|]. apply read_align_to; [lia|done|done].
Qed.

(** ** Whole messages *)

Fixpoint encoded (ops : list WriteOp) (pre : list bool) : list bool :=
  match ops with
  | [] => []
  | op :: ops => appended op pre ++ encoded ops (pre ++ appended op pre)
  end.

Definition total_bits (ops : list WriteOp) : Z := foldr (fun op n => op_bits op + n) 0 ops.

Lemma aligned_len (pre : list bool) l n : n = 8 * len l + 7 ->
  len (zeros (pad8 (length pre)) ++ bytes_bits l) <= n.
Proof.
  intros ->. rewrite len_app, len_bytes_bits. unfold len. rewrite length_replicate.
  pose proof (pad8_lt (length pre)). lia.
Qed.

Lemma appended_len op pre : len (appended op pre) <= op_bits op.
Proof.
  destruct op; cbn [appended op_bits]; rewrite ?len_to_bits; try done;
    try (apply aligned_len; unfold len; rewrite ?length_wire_bytes, ?length_padded; reflexivity).
  - rewrite app_nil_r. unfold len. rewrite length_replicate. pose proof (pad8_lt (length pre)). lia.
  - case_decide; [unfold len; simpl; lia|].
    destruct (boundary_pad_spec (length (align8 pre) / 8) boundary) as [? _]; [lia|].
    rewrite len_app. unfold len. rewrite !length_replicate. pose proof (pad8_lt (length pre)). lia.
Qed.

Lemma op_bits_nonneg op : 0 <= op_bits op.
Proof. etransitivity; [|apply (appended_len op [])]. apply len_nonneg. Qed.

Lemma total_bits_nonneg ops : 0 <= total_bits ops.
Proof.
  induction ops as [|op ops IH]; [done|]. pose proof (op_bits_nonneg op).
  change (total_bits (op :: ops)) with (op_bits op + total_bits ops). lia.
Qed.

Lemma run_writes_repr ops w bits :
  w ⊨ bits -> Forall fits ops -> room (total_bits ops) w ->
  exists w', run_writes ops w = Some w' /\ w' ⊨ bits ++ encoded ops bits
    /\ len (bits ++ encoded ops bits) <= bit_pos_ w + total_bits ops.
Proof.
  revert w bits. induction ops as [|op ops IH]; intros w bits H Hf Hr; cbn [run_writes encoded].
  { exists w. rewrite app_nil_r, (repr_pos _ _ H). split_and!; [done|done|simpl; lia]. }
  inversion_clear Hf as [|? ? Hop Hops].
  change (total_bits (op :: ops)) with (op_bits op + total_bits ops) in *.
  pose proof (total_bits_nonneg ops). pose proof (appended_len op bits) as Hl.
  destruct (run_write_implements op w bits H (fits_args _ _ Hop)) as (w1 & -> & H1);
    [unfold room in *; lia|].
  rewrite fits_spec in H1 by done. cbn [mbind option_bind].
  pose proof (repr_pos _ _ H1) as E1. rewrite len_app, <- (repr_pos _ _ H) in E1.
  destruct (IH w1 _ H1 Hops) as (w2 & -> & H2 & L2); [unfold room in *; lia|].
  exists w2. rewrite <- app_assoc in H2, L2. split_and!; [done|done|lia].
Qed.

Lemma run_reads_cursor ops r pre post :
  Forall fits ops -> cursor r pre (encoded ops pre ++ post) ->
  exists r', run_reads (map read_of ops) r = Some (Ok (map read_back ops), r')
    /\ cursor r' (pre ++ encoded ops pre) post.
Proof.
  intros Hf. revert r pre. induction Hf as [|op ops Hop Hops IH]; intros r pre H;
    cbn [map run_reads encoded] in *.
  { exists r. rewrite app_nil_r. done. }
  rewrite <- app_assoc in H. destruct (read_of_cursor op _ _ _ Hop H) as (r1 & E1 & H1).
  destruct (IH _ _ H1) as (r2 & E2 & H2). exists r2.
  rewrite (bind_ok _ _ _ _ _ E1), (bind_ok _ _ _ _ _ E2). split; [done|].
  by rewrite <- app_assoc in H2.
Qed.

(** C2: Writing any sequence of fields that fit their widths into a fresh
    writer is defined and error-free; [finish] returns the buffer and leaves
    the writer fresh; and reading that buffer with the matching sequence of
    reads returns exactly the written values (half and 48-bit floats rounded
    to their wire width, strings cut or padded), leaving less than one byte of
    padding unread. *)
Theorem wire_roundtrip (ops : list WriteOp) :
  Forall fits ops -> total_bits ops <= SIZE_MAX - 32 ->
  exists w d r, run_writes ops new_writer = Some w
    /\ finish w = (Ok d, new_writer)
    /\ run_reads (map read_of ops) (new_reader d) = Some (Ok (map read_back ops), r)
    /\ remaining_bits r < 8.
Proof.
  intros Hf Ht.
  destruct (run_writes_repr ops new_writer [] repr_new Hf) as (w & Ew & Hw & Hl);
    [unfold room; simpl; lia|].
  simpl in Hw, Hl. pose proof (repr_pos _ _ Hw) as Ep.
  destruct (finish_repr w _ Hw) as (d & Ed & Hb & Hbits); [unfold room; lia|].
  pose proof (f_equal len Hbits) as El. rewrite len_bytes_bits, align8_len in El.
  pose proof (pad8_lt (length (encoded ops []))).
  assert (cursor (new_reader d) [] (encoded ops [] ++ zeros (pad8 (length (encoded ops [])))))
    as Hc by (fold (align8 (encoded ops [])); rewrite <- Hbits; apply cursor_new; [done|lia]).
  destruct (run_reads_cursor ops _ [] _ Hf Hc) as (r & Er & Hr).
  exists w, d, r. split_and!; [done..|].
  rewrite remaining_bits_rest by apply Hr. rewrite (cursor_rest _ _ _ Hr).
  unfold len. rewrite length_replicate. lia.
Qed.

Definition sample_message : list WriteOp :=
  [WBits 5 3; WSigned (-2) 5; WBcd 1234 16; WBcdSigned (-97) 9; WU16 0xBEEF Little;
   WSignMagnitude (-3) 12; WF32 0x3F800000 Big; WString [72; 105] 4 32; WAlignTo 8; WBit true].

Lemma wire_roundtrip_witness :
  Forall fits sample_message /\ total_bits sample_message <= SIZE_MAX - 32
  /\ exists w d r, run_writes sample_message new_writer = Some w
    /\ finish w = (Ok d, new_writer)
    /\ run_reads (map read_of sample_message) (new_reader d)
         = Some (Ok (map read_back sample_message), r)
    /\ remaining_bits r < 8.
Proof.
  assert (Forall fits sample_message) as Hf.
  { repeat apply Forall_cons_2; cbn [fits]; try done; try (simpl; lia).
    - exists 4%nat. simpl. lia.
    - exists 2%nat. simpl. lia. }
  split; [exact Hf|]. split; [vm_compute; discriminate|].
  apply (wire_roundtrip sample_message Hf). vm_compute. discriminate.
Defined.

(** ** The writer as a whole: a bit string or a first error *)















(** ** The reader on arbitrary input *)

Lemma run_reads_safe ops r :
  rwf r -> Forall (read_op_ok (rdata_ r)) ops ->
  exists res r', run_reads ops r = Some (res, r') /\ forward r r'.
Proof.
  intros H Hf. remember (rdata_ r) as data eqn:Ed. revert r H Ed.
  induction Hf as [|op ops Hop Hops IH]; intros r H ->; cbn [run_reads].
  { do 2 eexists. split; [done|]. by apply forward_refl. }
  destruct (run_read_safe op r H Hop) as (res & r1 & E1 & F1). unfold bind. rewrite E1.
  destruct res as [v|e]; [|by do 2 eexists].
  pose proof F1 as (Hw1 & Ed1 & _). destruct (IH r1 Hw1 ltac:(done)) as (res & r2 & E2 & F2).
  rewrite E2. destruct res; (do 2 eexists; split; [done|by eapply forward_trans]).
Qed.

(** Reading untrusted input is memory-safe.  On any buffer and for any
    sequence of reads with any bit counts and any byte counts that do not make
    [byte_pos_ + count] wrap, every read is defined (no out-of-range index, no
    shift past the width), ends in a value or an error, leaves the buffer
    untouched, keeps the position inside it and never moves it backwards. *)
Theorem reader_never_undefined (data : list Z) (ops : list ReadOp) :
  Forall is_byte data -> 8 * len data + 8 <= SIZE_MAX ->
  Forall (read_op_ok data) ops ->
  exists res r, run_reads ops (new_reader data) = Some (res, r)
    /\ rdata_ r = data
    /\ 0 <= byte_pos_ r <= len data /\ 0 <= rbit_pos_ r < 8
    /\ remaining_bits r = 8 * len data - bit_position r.
Proof.
  intros Hd Hs Hf. destruct (run_reads_safe ops (new_reader data)) as (res & r & E & Hw & Ed & _);
    [by apply new_reader_wf|done|].
  exists res, r. simpl in Ed. pose proof Hw as [_ Hs' Hp Hb _]. rewrite Ed in *.
  split_and!; [done|done|lia..|].
  rewrite remaining_bits_rest, rest_len, Ed by done. unfold bit_position, offset.
  rewrite sz_small by lia. lia.
Qed.

Definition hostile_reads : list ReadOp :=
  [RBits 3; RBcdSigned 9; RU8; RSub 2; RF16 Little; RSignMagnitude 70; RBytes 1000].

Lemma reader_never_undefined_witness :
  Forall is_byte [255; 255; 255; 1; 2; 3; 4; 5] /\ Forall (read_op_ok [255; 255; 255; 1; 2; 3; 4; 5]) hostile_reads
  /\ exists res r, run_reads hostile_reads (new_reader [255; 255; 255; 1; 2; 3; 4; 5]) = Some (res, r)
    /\ rdata_ r = [255; 255; 255; 1; 2; 3; 4; 5]
    /\ 0 <= byte_pos_ r <= 8 /\ 0 <= rbit_pos_ r < 8
    /\ remaining_bits r = 8 * 8 - bit_position r.
Proof.
  assert (Forall is_byte [255; 255; 255; 1; 2; 3; 4; 5]) as Hb by (repeat constructor; lia).
  assert (Forall (read_op_ok [255; 255; 255; 1; 2; 3; 4; 5]) hostile_reads) as Hf
    by (repeat constructor; vm_compute; congruence).
  split; [exact Hb|]. split; [exact Hf|].
  apply (reader_never_undefined [255; 255; 255; 1; 2; 3; 4; 5] hostile_reads Hb); [|exact Hf].
  vm_compute. discriminate.
Defined.
