(* ===== verification/BoundedQueue.v ===== *)
(** * BoundedQueue

    Models [conduit/include/conduit/queue/bounded_queue.hpp], the bounded
    multi-producer multi-consumer ring buffer between the I/O thread and the
    worker threads.  Each public operation holds the mutex for its whole body,
    so it is one function on the queue state; the indices are [nat] ([head_],
    [tail_], [size_] stay below the capacity of a vector), the counters are
    64-bit.  [None] is an out-of-range [buffer_] access.  The blocking
    operations are the guard they wait for and the body that runs once it
    holds; the module [QueueThreads] models the waiting itself. *)

From stdpp Require Import base numbers list.
From Stdlib Require Import ZArith Lia.
From S2P Require Import Prelude.

Open Scope nat_scope.

Inductive DropPolicy := DropOldest | DropNewest | Block.

Global Instance DropPolicy_eq_dec : EqDecision DropPolicy.
Proof. solve_decision. Defined.

Record QueueStats := mkStats {
  enqueued : Z;
  dequeued : Z;
  dropped : Z;
  peak_size : nat;
  current_size : nat;
}.

Definition stats_reset : QueueStats := mkStats 0 0 0 0 0.

(** [fetch_add] on a [uint64_t] counter. *)
Definition fetch_add (c : Z) (n : nat) : Z := wrap 64 (c + Z.of_nat n).

Section queue.
Context {T : Type} (T0 : T).  (* [T{}] *)

Record BoundedQueue := mkQueue {
  capacity_ : nat;
  drop_policy_ : DropPolicy;
  buffer_ : list T;
  head_ : nat;
  tail_ : nat;
  size_ : nat;
  closed_ : bool;
  stats_ : QueueStats;
}.

Definition new_queue (capacity : nat) (policy : DropPolicy) : BoundedQueue :=
  let capacity := if 0 <? capacity then capacity else 1 in
  mkQueue capacity policy (replicate capacity T0) 0 0 0 false stats_reset.

Definition set_stats (s : QueueStats) (q : BoundedQueue) : BoundedQueue :=
  mkQueue (capacity_ q) (drop_policy_ q) (buffer_ q) (head_ q) (tail_ q) (size_ q) (closed_ q) s.

Definition count_dropped (q : BoundedQueue) : BoundedQueue :=
  let s := stats_ q in
  set_stats (mkStats (enqueued s) (dequeued s) (fetch_add (dropped s) 1) (peak_size s) (current_size s)) q.

Definition count_enqueued (q : BoundedQueue) : BoundedQueue :=
  let s := stats_ q in
  set_stats (mkStats (fetch_add (enqueued s) 1) (dequeued s) (dropped s) (peak_size s) (current_size s)) q.

Definition count_dequeued (n : nat) (q : BoundedQueue) : BoundedQueue :=
  let s := stats_ q in
  set_stats (mkStats (enqueued s) (fetch_add (dequeued s) n) (dropped s) (peak_size s) (size_ q)) q.

(** The compare-exchange loop runs under the mutex: nobody else raises the
    peak, so it stores [size_] when that is larger. *)
Definition update_peak_size (q : BoundedQueue) : BoundedQueue :=
  let s := stats_ q in
  let peak := if peak_size s <? size_ q then size_ q else peak_size s in
  set_stats (mkStats (enqueued s) (dequeued s) (dropped s) peak (size_ q)) q.

(** [item = std::move(buffer_[head_]); buffer_[head_] = T{}; head_ = (head_ + 1) % capacity_]. *)
Definition take_head (q : BoundedQueue) : option (T * BoundedQueue) :=
  item ← buffer_ q !! head_ q;
  Some (item, mkQueue (capacity_ q) (drop_policy_ q) (<[head_ q := T0]> (buffer_ q))
                (S (head_ q) mod capacity_ q) (tail_ q) (size_ q) (closed_ q) (stats_ q)).

Definition set_size (n : nat) (q : BoundedQueue) : BoundedQueue :=
  mkQueue (capacity_ q) (drop_policy_ q) (buffer_ q) (head_ q) (tail_ q) n (closed_ q) (stats_ q).

(** The [DropOldest] branch. *)
Definition drop_oldest (q : BoundedQueue) : option BoundedQueue :=
  '(_, q) ← take_head q;
  Some (count_dropped (set_size (size_ q - 1) q)).

(** [buffer_[tail_] = std::move(item)] and the bookkeeping of every push. *)
Definition append (item : T) (q : BoundedQueue) : option BoundedQueue :=
  _ ← buffer_ q !! tail_ q;
  let q := mkQueue (capacity_ q) (drop_policy_ q) (<[tail_ q := item]> (buffer_ q))
             (head_ q) (S (tail_ q) mod capacity_ q) (S (size_ q)) (closed_ q) (stats_ q) in
  Some (update_peak_size (count_enqueued q)).

Definition try_push (item : T) (q : BoundedQueue) : option (bool * BoundedQueue) :=
  if closed_ q then Some (false, q)
  else if capacity_ q <=? size_ q then
    match drop_policy_ q with
    | DropOldest => q ← drop_oldest q; q ← append item q; Some (true, q)
    | DropNewest => Some (false, count_dropped q)
    | Block => Some (false, count_dropped q)
    end
  else q ← append item q; Some (true, q).

(** [push] waits on [not_full_] until this holds (under [Block] only). *)
Definition push_ready (q : BoundedQueue) : bool :=
  match drop_policy_ q with
  | Block => (size_ q <? capacity_ q) || closed_ q
  | _ => true
  end.

(** The body of [push] after the wait. *)
Definition push (item : T) (q : BoundedQueue) : option (bool * BoundedQueue) :=
  if closed_ q then Some (false, q)
  else if capacity_ q <=? size_ q then
    match drop_policy_ q with
    | DropOldest => q ← drop_oldest q; q ← append item q; Some (true, q)
    | DropNewest => Some (false, count_dropped q)
    | Block => q ← append item q; Some (true, q)
    end
  else q ← append item q; Some (true, q).

(** [push_for]: [expired] says that the timed wait ended with the queue still
    full and open. *)
Definition push_for (item : T) (expired : bool) (q : BoundedQueue) : option (bool * BoundedQueue) :=
  if bool_decide (drop_policy_ q = Block) && (capacity_ q <=? size_ q) && expired
  then Some (false, q)
  else if closed_ q then Some (false, q)
  else if capacity_ q <=? size_ q then
    match drop_policy_ q with
    | DropOldest => q ← drop_oldest q; q ← append item q; Some (true, q)
    | _ => Some (false, count_dropped q)
    end
  else q ← append item q; Some (true, q).

Definition try_pop (q : BoundedQueue) : option (option T * BoundedQueue) :=
  if size_ q =? 0 then Some (None, q)
  else
    '(item, q) ← take_head q;
    Some (Some item, count_dequeued 1 (set_size (size_ q - 1) q)).

(** [pop] and [pop_for] wait on [not_empty_] until this holds; their body is
    then the one of [try_pop]. *)
Definition pop_ready (q : BoundedQueue) : bool := (0 <? size_ q) || closed_ q.
Definition pop (q : BoundedQueue) : option (option T * BoundedQueue) := try_pop q.
Definition pop_for (expired : bool) (q : BoundedQueue) : option (option T * BoundedQueue) :=
  if negb (pop_ready q) && expired then Some (None, q) else try_pop q.

(** The loop of [pop_batch]: [size_] is adjusted after it. *)
Fixpoint take_heads (count : nat) (q : BoundedQueue) : option (list T * BoundedQueue) :=
  match count with
  | O => Some ([], q)
  | S n =>
      '(item, q) ← take_head q;
      '(items, q) ← take_heads n q;
      Some (item :: items, q)
  end.

Definition pop_batch (max_count : nat) (q : BoundedQueue) : option (list T * BoundedQueue) :=
  let count := Nat.min max_count (size_ q) in
  '(result, q) ← take_heads count q;
  Some (result, count_dequeued count (set_size (size_ q - count) q)).

Definition close (q : BoundedQueue) : BoundedQueue :=
  mkQueue (capacity_ q) (drop_policy_ q) (buffer_ q) (head_ q) (tail_ q) (size_ q) true (stats_ q).

(** [while (size_ > 0)]: every round lowers [size_], so [size_] rounds suffice. *)
Fixpoint clear_loop (fuel : nat) (q : BoundedQueue) : option BoundedQueue :=
  if size_ q =? 0 then Some q
  else match fuel with
  | O => None
  | S fuel => '(_, q) ← take_head q; clear_loop fuel (set_size (size_ q - 1) q)
  end.

Definition clear (q : BoundedQueue) : option BoundedQueue :=
  q ← clear_loop (size_ q) q;
  let s := stats_ q in
  Some (set_stats (mkStats (enqueued s) (dequeued s) (dropped s) (peak_size s) 0) q).

Definition is_closed (q : BoundedQueue) : bool := closed_ q.
Definition size (q : BoundedQueue) : nat := size_ q.
Definition capacity (q : BoundedQueue) : nat := capacity_ q.
Definition empty (q : BoundedQueue) : bool := size_ q =? 0.
Definition full (q : BoundedQueue) : bool := capacity_ q <=? size_ q.
Definition reset_stats (q : BoundedQueue) : BoundedQueue := set_stats stats_reset q.

End queue.

(** ** Representation invariant and contents *)

Section invariant.
Context {T : Type} (T0 : T).
Implicit Types q : @BoundedQueue T.

Record wf (q : @BoundedQueue T) : Prop := {
  wf_cap : 0 < capacity_ q;
  wf_buffer : length (buffer_ q) = capacity_ q;
  wf_head : head_ q < capacity_ q;
  wf_size : size_ q <= capacity_ q;
  wf_tail : tail_ q = (head_ q + size_ q) mod capacity_ q;
}.

(** The [n] slots from [h] on, around the ring. *)
Definition slots (cap : nat) (buf : list T) (h n : nat) : list T :=
  map (fun i => default T0 (buf !! ((h + i) mod cap))) (seq 0 n).

Definition contents (q : @BoundedQueue T) : list T :=
  slots (capacity_ q) (buffer_ q) (head_ q) (size_ q).

Lemma mod_wrap a cap : a < 2 * cap -> a mod cap = if a <? cap then a else a - cap.
Proof.
  intros H. destruct (Nat.ltb_spec a cap); [by apply Nat.mod_small|].
  replace a with (a - cap + 1 * cap) at 1 by lia. rewrite Nat.Div0.mod_add.
  apply Nat.mod_small. lia.
Qed.

Lemma length_slots cap buf h n : length (slots cap buf h n) = n.
Proof. unfold slots. by rewrite length_map, length_seq. Qed.

Lemma length_contents q : length (contents q) = size_ q.
Proof. apply length_slots. Qed.

Lemma slots_ext cap buf buf' h n :
  (forall i, i < n -> buf !! ((h + i) mod cap) = buf' !! ((h + i) mod cap)) ->
  slots cap buf h n = slots cap buf' h n.
Proof.
  intros H. apply map_ext_in. intros i Hi. apply in_seq in Hi. rewrite H by lia. done.
Qed.

Lemma slots_cons cap buf h n : h < cap -> n < cap ->
  slots cap buf h (S n) = default T0 (buf !! h) :: slots cap buf (S h mod cap) n.
Proof.
  intros Hh Hn. unfold slots. simpl. rewrite Nat.add_0_r, (Nat.mod_small h) by done. f_equal.
  rewrite <- seq_shift, map_map. apply map_ext_in. intros i Hi. apply in_seq in Hi.
  do 2 f_equal. rewrite Nat.Div0.add_mod_idemp_l. f_equal. lia.
Qed.

Lemma slots_snoc cap buf h n :
  slots cap buf h (S n) = slots cap buf h n ++ [default T0 (buf !! ((h + n) mod cap))].
Proof. unfold slots. by rewrite seq_S, map_app. Qed.

(** Moving the head past an element clears a slot outside the rest. *)
Lemma take_head_slots q n :
  0 < capacity_ q -> length (buffer_ q) = capacity_ q -> head_ q < capacity_ q -> n < capacity_ q ->
  exists x q', take_head T0 q = Some (x, q')
    /\ slots (capacity_ q) (buffer_ q) (head_ q) (S n)
         = x :: slots (capacity_ q) (buffer_ q') (head_ q') n
    /\ length (buffer_ q') = capacity_ q /\ head_ q' = S (head_ q) mod capacity_ q
    /\ q' = mkQueue (capacity_ q) (drop_policy_ q) (buffer_ q') (head_ q')
              (tail_ q) (size_ q) (closed_ q) (stats_ q).
Proof.
  intros Hc Hb Hh Hn. unfold take_head.
  destruct (lookup_lt_is_Some_2 (buffer_ q) (head_ q)) as [x Ex]; [lia|].
  rewrite Ex. cbn [mbind option_bind]. eexists x, _. split; [done|]. cbn [buffer_ head_].
  split_and!; [|by rewrite length_insert|done|done].
  rewrite slots_cons, Ex by done. cbn [default from_option]. f_equal.
  apply slots_ext. intros i Hi. rewrite list_lookup_insert_ne; [done|].
  rewrite Nat.Div0.add_mod_idemp_l, mod_wrap by lia.
  destruct (Nat.ltb_spec (S (head_ q) + i) (capacity_ q)); lia.
Qed.

Lemma wf_new c p : wf (new_queue T0 c p) /\ contents (new_queue T0 c p) = [].
Proof.
  unfold new_queue. destruct (Nat.ltb_spec 0 c); (split; [|done]); split; simpl;
    rewrite ?length_replicate; try lia. by rewrite Nat.mod_small.
Qed.

Lemma set_stats_wf s q : wf q -> wf (set_stats s q).
Proof. intros []; by split. Qed.

(** Removing the head element. *)
Lemma remove_head q : wf q -> 0 < size_ q ->
  exists x q', take_head T0 q = Some (x, q')
    /\ contents q = x :: contents (set_size (size_ q' - 1) q')
    /\ wf (set_size (size_ q' - 1) q')
    /\ size_ q' = size_ q /\ capacity_ q' = capacity_ q
    /\ drop_policy_ q' = drop_policy_ q /\ closed_ q' = closed_ q /\ stats_ q' = stats_ q.
Proof.
  intros [Hc Hb Hh Hs Ht] Hpos.
  destruct (take_head_slots q (size_ q - 1) Hc Hb Hh) as (x & q' & E & Hsl & Hb' & Hh' & Eq); [lia|].
  exists x, q'. rewrite Eq in *; cbn [size_ capacity_ drop_policy_ closed_ stats_ buffer_ head_] in *.
  split_and!; [done| | |done..].
  - unfold contents. cbn [set_size size_ capacity_ buffer_ head_].
    by replace (size_ q) with (S (size_ q - 1)) at 1 by lia.
  - split; cbn [set_size size_ capacity_ buffer_ head_ tail_]; try lia.
    + rewrite Hh'. apply Nat.mod_upper_bound. lia.
    + rewrite Hh', Ht, Nat.Div0.add_mod_idemp_l. f_equal. lia.
Qed.

Lemma append_spec x q : wf q -> size_ q < capacity_ q ->
  exists q', append x q = Some q' /\ wf q' /\ contents q' = contents q ++ [x]
    /\ capacity_ q' = capacity_ q /\ drop_policy_ q' = drop_policy_ q /\ closed_ q' = closed_ q
    /\ stats_ q' = mkStats (fetch_add (enqueued (stats_ q)) 1) (dequeued (stats_ q))
         (dropped (stats_ q)) (Nat.max (peak_size (stats_ q)) (size_ q')) (size_ q').
Proof.
  intros [Hc Hb Hh Hs Ht] Hlt. unfold append.
  assert (tail_ q < capacity_ q) as Htl by (rewrite Ht; apply Nat.mod_upper_bound; lia).
  destruct (lookup_lt_is_Some_2 (buffer_ q) (tail_ q)) as [y Ey]; [lia|].
  rewrite Ey. cbn [mbind option_bind]. eexists; split; [done|].
  unfold update_peak_size, count_enqueued, set_stats, contents; cbn -[slots fetch_add Nat.modulo Nat.ltb Nat.max].
  split_and!; try done.
  - split; cbn -[Nat.modulo]; rewrite ?length_insert; try lia.
    rewrite Ht. rewrite <- Nat.add_1_r, Nat.Div0.add_mod_idemp_l. f_equal. lia.
  - rewrite slots_snoc, <- Ht, list_lookup_insert_eq by lia.
    f_equal. apply slots_ext. intros i Hi. apply list_lookup_insert_ne.
    rewrite Ht, !mod_wrap by lia.
    destruct (Nat.ltb_spec (head_ q + i) (capacity_ q)), (Nat.ltb_spec (head_ q + size_ q) (capacity_ q)); lia.
  - f_equal. destruct (Nat.ltb_spec (peak_size (stats_ q)) (S (size_ q))); lia.
Qed.

(** ** Refinement of the abstract bounded FIFO

    [spec_push] is what a push of [x] does to the contents under each policy:
    the new contents and whether the item was accepted. *)

Definition spec_push (p : DropPolicy) (cap : nat) (closed : bool) (x : T) (l : list T) : bool * list T :=
  if closed then (false, l)
  else if length l <? cap then (true, l ++ [x])
  else match p with DropOldest => (true, tail l ++ [x]) | _ => (false, l) end.

(** Fields a push or pop never changes. *)
Definition same_shape q q' : Prop :=
  capacity_ q' = capacity_ q /\ drop_policy_ q' = drop_policy_ q /\ closed_ q' = closed_ q.

Lemma drop_append_spec x q : wf q -> size_ q = capacity_ q ->
  exists q1 q2, drop_oldest T0 q = Some q1 /\ append x q1 = Some q2 /\ wf q2
    /\ contents q2 = tail (contents q) ++ [x] /\ same_shape q q2
    /\ stats_ q2 = mkStats (fetch_add (enqueued (stats_ q)) 1) (dequeued (stats_ q))
         (fetch_add (dropped (stats_ q)) 1) (Nat.max (peak_size (stats_ q)) (size_ q2)) (size_ q2).
Proof.
  intros H Hfull. pose proof (wf_cap _ H).
  destruct (remove_head q H) as (y & q' & E & Hc & Hw & Es & Ec & Ep & Ecl & Est); [lia|].
  unfold drop_oldest. rewrite E. cbn [mbind option_bind].
  set (q1 := count_dropped (set_size (size_ q' - 1) q')).
  assert (wf q1) as Hw1 by (by apply set_stats_wf).
  destruct (append_spec x q1 Hw1) as (q2 & E2 & Hw2 & Hc2 & Ec2 & Ep2 & Ecl2 & Est2).
  { unfold q1; simpl. lia. }
  exists q1, q2. split_and!; [done..| |unfold same_shape; simpl in *; split_and!; congruence|].
  - rewrite Hc2, Hc. done.
  - rewrite Est2. unfold q1; simpl. by rewrite Est.
Qed.

Lemma count_dropped_contents q : contents (count_dropped q) = contents q.
Proof. done. Qed.

(** Every push variant whose wait is over. *)
Lemma push_like_spec x q (full_rest : BoundedQueue -> option (bool * BoundedQueue)) :
  wf q ->
  (closed_ q = false -> size_ q = capacity_ q -> drop_policy_ q <> DropOldest ->
     full_rest q = Some (false, count_dropped q)) ->
  exists b q',
    (if closed_ q then Some (false, q)
     else if capacity_ q <=? size_ q then
       match drop_policy_ q with
       | DropOldest => q ← drop_oldest T0 q; q ← append x q; Some (true, q)
       | _ => full_rest q
       end
     else q ← append x q; Some (true, q)) = Some (b, q')
    /\ wf q' /\ same_shape q q'
    /\ (b, contents q') = spec_push (drop_policy_ q) (capacity_ q) (closed_ q) x (contents q)
    /\ current_size (stats_ q') = (if b then size_ q' else current_size (stats_ q))
    /\ peak_size (stats_ q') = (if b then Nat.max (peak_size (stats_ q)) (size_ q') else peak_size (stats_ q))
    /\ enqueued (stats_ q') = (if b then fetch_add (enqueued (stats_ q)) 1 else enqueued (stats_ q))
    /\ dequeued (stats_ q') = dequeued (stats_ q)
    /\ dropped (stats_ q') = (if negb (closed_ q) && full q then fetch_add (dropped (stats_ q)) 1
                              else dropped (stats_ q)).
Proof.
  intros H Hrest. unfold spec_push, full. rewrite length_contents. pose proof (wf_size _ H).
  destruct (closed_ q) eqn:Ecl.
  { exists false, q. split_and!; try done. }
  destruct (Nat.leb_spec (capacity_ q) (size_ q)) as [Hf|Hf]; cbn [negb andb].
  - rewrite (proj2 (Nat.ltb_ge _ _)) by lia.
    destruct (decide (drop_policy_ q = DropOldest)) as [Ep|Ep].
    + destruct (drop_append_spec x q H) as (q1 & q2 & E1 & E2 & Hw & Hc & Hs & Est); [lia|].
      exists true, q2. rewrite Ep, E1. cbn [mbind option_bind]. rewrite E2, Est, Hc.
      cbn [mbind option_bind]. split_and!; done.
    + exists false, (count_dropped q). rewrite Hrest by (done || lia).
      destruct (drop_policy_ q); [done|..]; (split_and!; [done|by apply set_stats_wf|done..]).
  - rewrite (proj2 (Nat.ltb_lt _ _)) by lia.
    destruct (append_spec x q H Hf) as (q' & E & Hw & Hc & E1 & E2 & E3 & Est).
    exists true, q'. rewrite E, Est, Hc. cbn [mbind option_bind]. split_and!; try done.
Qed.

Lemma try_pop_spec q : wf q ->
  exists q', try_pop T0 q = Some (head (contents q), q') /\ wf q' /\ same_shape q q'
    /\ contents q' = tail (contents q)
    /\ stats_ q' = if size_ q =? 0 then stats_ q else
         mkStats (enqueued (stats_ q)) (fetch_add (dequeued (stats_ q)) 1) (dropped (stats_ q))
           (peak_size (stats_ q)) (size_ q').
Proof.
  intros H. unfold try_pop. destruct (Nat.eqb_spec (size_ q) 0) as [E|E].
  - pose proof (length_contents q) as El. rewrite E in El. apply length_zero_iff_nil in El.
    exists q. rewrite El. split_and!; done.
  - destruct (remove_head q H) as (y & q' & Et & Hc & Hw & Es & Ec & Ep & Ecl & Est); [lia|].
    rewrite Et. cbn [mbind option_bind]. eexists. rewrite Hc.
    split_and!; [done|by apply set_stats_wf|unfold same_shape; simpl; split_and!; congruence|done|].
    unfold count_dequeued; simpl. by rewrite Est.
Qed.

Lemma take_heads_spec n k q :
  0 < capacity_ q -> length (buffer_ q) = capacity_ q -> head_ q < capacity_ q -> n + k <= capacity_ q ->
  exists q', take_heads T0 n q = Some (slots (capacity_ q) (buffer_ q) (head_ q) n, q')
    /\ slots (capacity_ q) (buffer_ q) (head_ q) (n + k)
       = slots (capacity_ q) (buffer_ q) (head_ q) n ++ slots (capacity_ q) (buffer_ q') (head_ q') k
    /\ length (buffer_ q') = capacity_ q /\ head_ q' = (head_ q + n) mod capacity_ q
    /\ q' = mkQueue (capacity_ q) (drop_policy_ q) (buffer_ q') (head_ q')
              (tail_ q) (size_ q) (closed_ q) (stats_ q).
Proof.
  revert q. induction n as [|n IH]; intros q Hc Hb Hh Hn; cbn [take_heads].
  { exists q. rewrite Nat.add_0_r, Nat.mod_small by done. split_and!; try done. by destruct q. }
  destruct (take_head_slots q (n + k) Hc Hb Hh) as (x & q1 & E1 & Hs1 & Hb1 & Hh1 & Eq1); [lia|].
  destruct (take_head_slots q n Hc Hb Hh) as (x' & q1' & E1' & Hs1' & _); [lia|].
  rewrite E1 in E1'. injection E1' as <- <-. rewrite E1. cbn [mbind option_bind].
  assert (capacity_ q1 = capacity_ q) as Ec by (by rewrite Eq1).
  destruct (IH q1) as (q2 & E2 & Hs2 & Hb2 & Hh2 & Eq2); rewrite ?Ec; try lia.
  { rewrite Hh1. apply Nat.mod_upper_bound. lia. }
  rewrite E2. cbn [mbind option_bind]. exists q2. rewrite Ec in *. rewrite Hs1'.
  split_and!; [done| |done| |].
  - simpl. rewrite Hs1. simpl. f_equal. exact Hs2.
  - rewrite Hh2, Hh1, Nat.Div0.add_mod_idemp_l. f_equal. lia.
  - rewrite Eq2 at 1. by rewrite Eq1.
Qed.

Lemma slots_take cap buf h n k : n <= k -> take n (slots cap buf h k) = slots cap buf h n.
Proof.
  intros Hn. unfold slots. replace k with (n + (k - n)) by lia.
  rewrite seq_app, map_app. apply take_app_length'. by rewrite length_map, length_seq.
Qed.

Lemma pop_batch_spec m q : wf q ->
  exists q', pop_batch T0 m q = Some (take m (contents q), q') /\ wf q' /\ same_shape q q'
    /\ contents q' = drop m (contents q)
    /\ stats_ q' = mkStats (enqueued (stats_ q)) (fetch_add (dequeued (stats_ q)) (Nat.min m (size_ q)))
         (dropped (stats_ q)) (peak_size (stats_ q)) (size_ q').
Proof.
  intros [Hc Hb Hh Hs Ht]. unfold pop_batch. set (n := Nat.min m (size_ q)).
  destruct (take_heads_spec n (size_ q - n) q Hc Hb Hh) as (q' & E & Hsl & Hb' & Hh' & Eq); [lia|].
  rewrite E. cbn [mbind option_bind].
  assert (size_ q' = size_ q) as Es by (by rewrite Eq).
  assert (take m (contents q) = slots (capacity_ q) (buffer_ q) (head_ q) n) as Etk.
  { unfold contents. destruct (Nat.le_gt_cases m (size_ q)).
    - rewrite slots_take by done. f_equal. unfold n. lia.
    - rewrite take_ge by (rewrite length_slots; lia). f_equal. unfold n. lia. }
  replace (n + (size_ q - n)) with (size_ q) in Hsl by lia. fold (contents q) in Hsl.
  assert (drop m (contents q) = slots (capacity_ q) (buffer_ q') (head_ q') (size_ q - n)) as Edr.
  { rewrite <- Etk in Hsl. rewrite <- (take_drop m (contents q)) in Hsl at 1. by apply app_inv_head in Hsl. }
  eexists; split; [by rewrite Etk|]. rewrite Edr. unfold contents, same_shape.
  rewrite Eq; cbn -[slots fetch_add Nat.modulo Nat.min]. split_and!; try done.
  - split; cbn -[Nat.modulo]; try lia.
    + rewrite Hh'. apply Nat.mod_upper_bound. lia.
    + rewrite Hh', Nat.Div0.add_mod_idemp_l, Ht. f_equal. lia.
Qed.

Lemma clear_loop_spec n q : wf q -> size_ q <= n ->
  exists q', clear_loop T0 n q = Some q' /\ wf q' /\ same_shape q q' /\ contents q' = []
    /\ stats_ q' = stats_ q.
Proof.
  revert q. induction n as [|n IH]; intros q H Hn.
  { exists q. unfold clear_loop. rewrite (proj2 (Nat.eqb_eq _ 0)) by lia. split_and!; try done.
    apply length_zero_iff_nil. rewrite length_contents. lia. }
  cbn [clear_loop]. destruct (Nat.eqb_spec (size_ q) 0).
  { exists q. split_and!; try done. apply length_zero_iff_nil. rewrite length_contents. lia. }
  destruct (remove_head q H) as (y & q' & Et & Hc & Hw & Es & Ec & Ep & Ecl & Est); [lia|].
  rewrite Et. cbn [mbind option_bind].
  destruct (IH (set_size (size_ q' - 1) q') Hw) as (q2 & E & Hw2 & (S1 & S2 & S3) & Hc2 & Est2); [simpl; lia|].
  exists q2. unfold same_shape. simpl in *. split_and!; [done|done|congruence..].
Qed.

(** ** All operations as one type

    A blocking call that is not ready is [OBlocked] and changes nothing; a
    timed call is taken at the moment its wait ends. *)

Inductive QueueOp :=
  | QTryPush (x : T) | QPush (x : T) | QPushFor (x : T)
  | QTryPop | QPop | QPopFor | QPopBatch (n : nat)
  | QClose | QClear | QResetStats.

Inductive QueueOut :=
  | OBool (b : bool) | OItem (o : option T) | OItems (l : list T) | OUnit | OBlocked.

Definition out {A} (f : A -> QueueOut) (o : option (A * @BoundedQueue T)) : option (QueueOut * BoundedQueue) :=
  '(a, q) ← o; Some (f a, q).

Definition exec (op : QueueOp) (q : @BoundedQueue T) : option (QueueOut * BoundedQueue) :=
  match op with
  | QTryPush x => out OBool (try_push T0 x q)
  | QPush x => if push_ready q then out OBool (push T0 x q) else Some (OBlocked, q)
  | QPushFor x => out OBool (push_for T0 x (negb (push_ready q)) q)
  | QTryPop => out OItem (try_pop T0 q)
  | QPop => if pop_ready q then out OItem (pop T0 q) else Some (OBlocked, q)
  | QPopFor => out OItem (pop_for T0 (negb (pop_ready q)) q)
  | QPopBatch n => out OItems (pop_batch T0 n q)
  | QClose => Some (OUnit, close q)
  | QClear => q ← clear T0 q; Some (OUnit, q)
  | QResetStats => Some (OUnit, reset_stats q)
  end.

Fixpoint exec_all (ops : list QueueOp) (q : @BoundedQueue T) : option (list QueueOut * BoundedQueue) :=
  match ops with
  | [] => Some ([], q)
  | op :: ops => '(o, q) ← exec op q; '(os, q) ← exec_all ops q; Some (o :: os, q)
  end.

(** *** The abstract queue: a list, a bound, a policy, a flag *)

Record Fifo := mkFifo { fcap : nat; fpolicy : DropPolicy; items : list T; fclosed : bool }.

Definition fifo_push (x : T) (f : Fifo) : bool * Fifo :=
  let '(b, l) := spec_push (fpolicy f) (fcap f) (fclosed f) x (items f) in
  (b, mkFifo (fcap f) (fpolicy f) l (fclosed f)).

Definition fifo_blocks (f : Fifo) : bool :=
  bool_decide (fpolicy f = Block) && negb (fclosed f) && (fcap f <=? length (items f)).

Definition fifo_exec (op : QueueOp) (f : Fifo) : QueueOut * Fifo :=
  let with_items l := mkFifo (fcap f) (fpolicy f) l (fclosed f) in
  match op with
  | QTryPush x | QPushFor x => let '(b, f') := fifo_push x f in (OBool b, f')
  | QPush x => if fifo_blocks f then (OBlocked, f)
               else let '(b, f') := fifo_push x f in (OBool b, f')
  | QTryPop | QPopFor => (OItem (head (items f)), with_items (tail (items f)))
  | QPop => if negb (fclosed f) && (length (items f) =? 0) then (OBlocked, f)
            else (OItem (head (items f)), with_items (tail (items f)))
  | QPopBatch n => (OItems (take n (items f)), with_items (drop n (items f)))
  | QClose => (OUnit, mkFifo (fcap f) (fpolicy f) (items f) true)
  | QClear => (OUnit, with_items [])
  | QResetStats => (OUnit, f)
  end.

Fixpoint fifo_exec_all (ops : list QueueOp) (f : Fifo) : list QueueOut * Fifo :=
  match ops with
  | [] => ([], f)
  | op :: ops => let '(o, f) := fifo_exec op f in let '(os, f) := fifo_exec_all ops f in (o :: os, f)
  end.

Definition abs q : Fifo := mkFifo (capacity_ q) (drop_policy_ q) (contents q) (closed_ q).

(** The counters account for every element: what was enqueued has left, was
    dropped as the oldest, or is still inside (modulo the counter width). *)
Definition evicted q : Z :=
  match drop_policy_ q with DropOldest => dropped (stats_ q) | _ => 0%Z end.

Record accounted q : Prop := {
  acc_balance : (enqueued (stats_ q)
    = wrap 64 (dequeued (stats_ q) + evicted q + Z.of_nat (size_ q)))%Z;
  acc_current : current_size (stats_ q) = size_ q;
  acc_peak : size_ q <= peak_size (stats_ q) <= capacity_ q;
}.

Lemma abs_eq q q' l : same_shape q q' -> contents q' = l ->
  abs q' = mkFifo (capacity_ q) (drop_policy_ q) l (closed_ q).
Proof. intros (E1 & E2 & E3) <-. unfold abs. congruence. Qed.

Lemma fetch_add_wrap c a n : c = wrap 64 a -> fetch_add c n = wrap 64 (a + Z.of_nat n).
Proof. intros ->. unfold fetch_add, wrap. by rewrite Zplus_mod_idemp_l. Qed.

Lemma wrap_add_mid a b c : wrap 64 (a + wrap 64 b + c) = wrap 64 (a + b + c).
Proof.
  unfold wrap. rewrite (Z.add_comm a), <- Z.add_assoc, Zplus_mod_idemp_l. f_equal. lia.
Qed.

Lemma push_accounted b q q' x :
  accounted q -> wf q -> same_shape q q' ->
  (b, contents q') = spec_push (drop_policy_ q) (capacity_ q) (closed_ q) x (contents q) ->
  current_size (stats_ q') = (if b then size_ q' else current_size (stats_ q)) ->
  peak_size (stats_ q') = (if b then Nat.max (peak_size (stats_ q)) (size_ q') else peak_size (stats_ q)) ->
  enqueued (stats_ q') = (if b then fetch_add (enqueued (stats_ q)) 1 else enqueued (stats_ q)) ->
  dequeued (stats_ q') = dequeued (stats_ q) ->
  dropped (stats_ q') = (if negb (closed_ q) && full q then fetch_add (dropped (stats_ q)) 1
                         else dropped (stats_ q)) ->
  accounted q'.
Proof.
  intros [Hbal Hcur Hpk] Hw (Ec & Ep & Ecl) Hs Hcs Hps Hen Hde Hdr.
  pose proof (length_contents q) as Lq. pose proof (length_contents q') as Lq'.
  pose proof (wf_size _ Hw). pose proof (wf_cap _ Hw). unfold spec_push, full, evicted in *. rewrite Lq in Hs.
  destruct (closed_ q); cbn [negb andb] in *.
  { injection Hs as -> Hc. rewrite Hc, Lq in Lq'.
    split; rewrite ?Hcs, ?Hps, ?Hen, ?Hde, ?Ec, <- ?Lq' in *; try done. unfold evicted.
    by rewrite Ep, Hdr. }
  destruct (Nat.ltb_spec (size_ q) (capacity_ q)) as [Hlt|Hge].
  - injection Hs as -> Hc. rewrite Hc, length_app, Lq in Lq'. simpl in Lq'.
    rewrite (proj2 (Nat.leb_gt _ _)) in Hdr by lia.
    split; rewrite ?Hcs, ?Hps, ?Hen, ?Ec; try lia.
    unfold evicted. rewrite Ep, Hde, Hdr, (fetch_add_wrap _ _ _ Hbal). f_equal. lia.
  - rewrite (proj2 (Nat.leb_le _ _)) in Hdr by lia. destruct (drop_policy_ q); injection Hs as -> Hc.
    + assert (length (tail (contents q)) = size_ q - 1) as Lt by (destruct (contents q); simpl in *; lia).
      rewrite Hc, length_app, Lt in Lq'. simpl in Lq'.
      split; rewrite ?Hcs, ?Hps, ?Hen, ?Ec; try lia.
      unfold evicted. rewrite Ep, Hde, Hdr, (fetch_add_wrap _ _ _ Hbal).
      unfold fetch_add. rewrite wrap_add_mid. f_equal. lia.
    + split; rewrite ?Hcs, ?Hps, ?Hen, ?Hde, ?Ec; rewrite Hc, Lq in Lq'; rewrite <- ?Lq'; try lia.
      unfold evicted. by rewrite Ep.
    + split; rewrite ?Hcs, ?Hps, ?Hen, ?Hde, ?Ec; rewrite Hc, Lq in Lq'; rewrite <- ?Lq'; try lia.
      unfold evicted. by rewrite Ep.
Qed.

(** Pops: [n] elements left through [dequeued]. *)
Lemma pop_accounted n q q' :
  accounted q -> same_shape q q' -> n <= size_ q -> size_ q' = size_ q - n ->
  stats_ q' = mkStats (enqueued (stats_ q)) (fetch_add (dequeued (stats_ q)) n)
                (dropped (stats_ q)) (peak_size (stats_ q)) (size_ q') ->
  accounted q'.
Proof.
  intros [Hbal Hcur Hpk] (Ec & Ep & Ecl) Hn Hs Est.
  split; rewrite Est; cbn [enqueued dequeued current_size peak_size]; [|done|lia].
  rewrite Hbal. unfold evicted, fetch_add. rewrite Ep, Est. cbn [dropped].
  replace (wrap 64 (dequeued (stats_ q) + Z.of_nat n) + _ + Z.of_nat (size_ q'))%Z
    with (0 + wrap 64 (dequeued (stats_ q) + Z.of_nat n)
          + ((match drop_policy_ q with DropOldest => dropped (stats_ q) | _ => 0 end) + Z.of_nat (size_ q')))%Z by lia.
  rewrite wrap_add_mid. f_equal. lia.
Qed.

Lemma push_ready_abs q : push_ready q = negb (fifo_blocks (abs q)).
Proof.
  unfold push_ready, fifo_blocks, abs; cbn [fpolicy fclosed fcap items]. rewrite length_contents.
  rewrite Nat.leb_antisym. by destruct (drop_policy_ q), (closed_ q), (size_ q <? capacity_ q).
Qed.

Lemma push_try_push x q : push_ready q = true -> push T0 x q = try_push T0 x q.
Proof.
  unfold push_ready, push, try_push. rewrite Nat.leb_antisym.
  by destruct (drop_policy_ q), (closed_ q), (size_ q <? capacity_ q).
Qed.

Lemma push_for_try_push x q :
  push_for T0 x (negb (push_ready q)) q = if push_ready q then try_push T0 x q else Some (false, q).
Proof.
  unfold push_ready, push_for, try_push. rewrite Nat.leb_antisym.
  by destruct (drop_policy_ q), (closed_ q), (size_ q <? capacity_ q).
Qed.

Definition keeps_accounts (op : QueueOp) : bool :=
  match op with QClear | QResetStats => false | _ => true end.

Definition step_ok (op : QueueOp) q (o : option (QueueOut * @BoundedQueue T)) : Prop :=
  exists r q', o = Some (r, q') /\ wf q' /\ fifo_exec op (abs q) = (r, abs q')
    /\ (keeps_accounts op = true -> accounted q -> accounted q').

Lemma try_push_step x q op : wf q ->
  fifo_exec op (abs q) = (let '(b, f') := fifo_push x (abs q) in (OBool b, f')) ->
  step_ok op q (out OBool (try_push T0 x q)).
Proof.
  intros H Eop.
  destruct (push_like_spec x q (fun q => Some (false, count_dropped q)) H)
    as (b & q' & E & Hw & Hsh & Hs & Hcs & Hps & Hen & Hde & Hdr); [done|].
  exists (OBool b), q'. unfold out, try_push. rewrite E. cbn [mbind option_bind].
  split_and!; [done|done| |].
  - rewrite Eop. unfold fifo_push, abs at 1 2 3 4 5 6; cbn [fpolicy fcap fclosed items]. rewrite <- Hs.
    f_equal. symmetry. by apply abs_eq.
  - intros _ Ha. by eapply push_accounted.
Qed.

Lemma try_pop_step q op : wf q ->
  fifo_exec op (abs q) = (OItem (head (contents q)),
    mkFifo (capacity_ q) (drop_policy_ q) (tail (contents q)) (closed_ q)) ->
  step_ok op q (out OItem (try_pop T0 q)).
Proof.
  intros H Eop. destruct (try_pop_spec q H) as (q' & E & Hw & Hsh & Hc & Hst).
  exists (OItem (head (contents q))), q'. unfold out. rewrite E. cbn [mbind option_bind].
  split_and!; [done|done| |].
  - rewrite Eop. f_equal. symmetry. by apply abs_eq.
  - intros _ Ha. pose proof (length_contents q) as L. pose proof (length_contents q') as L'.
    rewrite Hc in L'. destruct (Nat.eqb_spec (size_ q) 0) as [E0|E0].
    + destruct (contents q); simpl in *; [|lia]. destruct Hsh as (Ec & Ep & Ecl).
      destruct Ha as [Hb Hcu Hp]. split; unfold evicted; rewrite ?Hst, ?Ep, ?Ec, <- ?L'; rewrite ?E0 in *; done.
    + apply (pop_accounted 1 q); [done|done|lia| |done]. destruct (contents q); simpl in *; lia.
Qed.

Lemma step_refl op q r : wf q -> fifo_exec op (abs q) = (r, abs q) -> step_ok op q (Some (r, q)).
Proof. intros H E. exists r, q. split_and!; auto. Qed.

Lemma exec_step op q : wf q -> step_ok op q (exec op q).
Proof.
  intros H. pose proof (length_contents q) as L. destruct op; cbn [exec].
  - by apply try_push_step.
  - rewrite push_ready_abs. destruct (fifo_blocks (abs q)) eqn:Eb; cbn [negb].
    + apply step_refl; [done|]. cbn [fifo_exec]. by rewrite Eb.
    + rewrite push_try_push by (by rewrite push_ready_abs, Eb).
      apply try_push_step; [done|]. cbn [fifo_exec]. by rewrite Eb.
  - rewrite push_for_try_push, push_ready_abs. destruct (fifo_blocks (abs q)) eqn:Eb; cbn [negb].
    + apply step_refl; [done|]. cbn [fifo_exec]. unfold fifo_blocks in Eb.
      apply andb_true_iff in Eb as [[Ep Ecl]%andb_true_iff Ef].
      apply bool_decide_eq_true in Ep. apply negb_true_iff in Ecl. apply Nat.leb_le in Ef.
      unfold fifo_push, spec_push. rewrite Ep, Ecl, (proj2 (Nat.ltb_ge _ _)) by done.
      unfold abs in *; cbn [fpolicy fclosed fcap items] in *. by rewrite Ep, Ecl.
    + by apply try_push_step.
  - by apply try_pop_step.
  - unfold pop_ready. destruct (closed_ q) eqn:Ecl; [rewrite orb_true_r|rewrite orb_false_r].
    + apply try_pop_step; [done|]. cbn [fifo_exec abs fclosed]. by rewrite Ecl.
    + destruct (Nat.ltb_spec 0 (size_ q)).
      * apply try_pop_step; [done|]. cbn [fifo_exec abs fclosed items]. rewrite Ecl, L.
        by rewrite (proj2 (Nat.eqb_neq _ 0)) by lia.
      * apply step_refl; [done|]. cbn [fifo_exec abs fclosed items]. rewrite Ecl, L.
        by rewrite (proj2 (Nat.eqb_eq _ 0)) by lia.
  - unfold pop_for. rewrite andb_diag. destruct (pop_ready q) eqn:Er; cbn [negb].
    + by apply try_pop_step.
    + unfold pop_ready in Er. apply orb_false_iff in Er as [E0 Ecl]. apply Nat.ltb_ge in E0.
      apply step_refl; [done|]. cbn [fifo_exec abs items fcap fpolicy fclosed].
      assert (contents q = []) as En by (apply length_zero_iff_nil; lia). unfold abs. by rewrite En.
  - destruct (pop_batch_spec n q H) as (q' & E & Hw & Hsh & Hc & Hst).
    exists (OItems (take n (contents q))), q'. unfold out. rewrite E. cbn [mbind option_bind].
    split_and!; [done|done| |].
    + cbn [fifo_exec abs items]. f_equal. symmetry. by apply abs_eq.
    + intros _ Ha. pose proof (length_contents q') as L'. rewrite Hc, length_drop, L in L'.
      apply (pop_accounted (Nat.min n (size_ q)) q); [done|done|lia|lia|done].
  - exists OUnit, (close q). destruct H. split_and!; [done|by split|done|].
    intros _ [Hb Hc Hp]. by split.
  - unfold clear. destruct (clear_loop_spec (size_ q) q H) as (q' & E & Hw & Hsh & Hc & Est); [done|].
    rewrite E. cbn [mbind option_bind]. do 2 eexists. split_and!; [done|by apply set_stats_wf| |done].
    cbn [fifo_exec]. f_equal. symmetry. by apply (abs_eq q).
  - exists OUnit, (reset_stats q). split_and!; [done|by apply set_stats_wf|done|done].
Qed.

Lemma exec_all_ok ops q : wf q ->
  exists os q', exec_all ops q = Some (os, q') /\ wf q' /\ fifo_exec_all ops (abs q) = (os, abs q')
    /\ (forallb keeps_accounts ops = true -> accounted q -> accounted q').
Proof.
  revert q. induction ops as [|op ops IH]; intros q H; cbn [exec_all fifo_exec_all].
  { exists [], q. split_and!; auto. }
  destruct (exec_step op q H) as (r & q1 & E1 & H1 & F1 & A1).
  destruct (IH q1 H1) as (os & q2 & E2 & H2 & F2 & A2).
  rewrite E1. cbn [mbind option_bind]. rewrite E2, F1, F2. cbn [mbind option_bind].
  do 2 eexists. split_and!; [done|done|done|]. cbn [forallb]. intros [? ?]%andb_true_iff. auto.
Qed.

Lemma new_accounted c p : accounted (new_queue T0 c p).
Proof. unfold new_queue. split; unfold evicted; destruct p; simpl; try done; lia. Qed.

(** C11: The ring buffer refines a bounded FIFO.  For every capacity, policy
    and sequence of operations (a blocking call that cannot proceed leaves
    everything as it is), the queue is defined, and its outputs and contents
    are those of the abstract queue: items leave in the order they were
    accepted; a full queue evicts the oldest, rejects the newest or makes the
    caller wait according to the policy; a closed queue rejects pushes but can
    be drained; and the capacity is never exceeded. *)
Theorem queue_refines_fifo (c : nat) (p : DropPolicy) (ops : list QueueOp) :
  exists outs q, exec_all ops (new_queue T0 c p) = Some (outs, q)
    /\ fifo_exec_all ops (mkFifo (Nat.max 1 c) p [] false) = (outs, abs q)
    /\ size_ q = length (contents q) /\ size_ q <= capacity_ q.
Proof.
  destruct (wf_new c p) as [H Hc]. destruct (exec_all_ok ops _ H) as (os & q & E & Hw & F & _).
  exists os, q. split_and!; [done| |by rewrite length_contents|apply Hw].
  rewrite <- F. f_equal. unfold abs. rewrite Hc. unfold new_queue.
  destruct (Nat.ltb_spec 0 c); simpl; f_equal; lia.
Qed.

(** The statistics are exact between resets: over any sequence without
    [clear] and [reset_stats], elements enqueued are those dequeued, evicted
    as the oldest, or still queued (modulo the 64-bit counters); the reported
    current size is the size; and the peak bounds it without exceeding the
    capacity. *)
Theorem queue_statistics_exact (c : nat) (p : DropPolicy) (ops : list QueueOp) :
  forallb keeps_accounts ops = true ->
  exists outs q, exec_all ops (new_queue T0 c p) = Some (outs, q)
    /\ enqueued (stats_ q) = wrap 64 (dequeued (stats_ q) + evicted q + Z.of_nat (size_ q))
    /\ current_size (stats_ q) = size_ q
    /\ size_ q <= peak_size (stats_ q) <= capacity_ q.
Proof.
  intros Hops. destruct (wf_new c p) as [H _].
  destruct (exec_all_ok ops _ H) as (os & q & E & _ & _ & Ha).
  destruct (Ha Hops (new_accounted c p)) as [? ? ?]. exists os, q. split_and!; try done; lia.
Qed.

End invariant.

Lemma queue_statistics_exact_witness :
  forallb (@keeps_accounts nat) [QTryPush 1; QTryPush 2; QTryPush 3; QTryPop] = true
  /\ exists outs q, exec_all 0 [QTryPush 1; QTryPush 2; QTryPush 3; QTryPop] (new_queue 0 2 DropOldest)
        = Some (outs, q)
    /\ enqueued (stats_ q) = wrap 64 (dequeued (stats_ q) + evicted q + Z.of_nat (size_ q))
    /\ current_size (stats_ q) = size_ q
    /\ size_ q <= peak_size (stats_ q) <= capacity_ q.
Proof.
  split; [reflexivity|].
  exact (queue_statistics_exact 0 2 DropOldest [QTryPush 1; QTryPush 2; QTryPush 3; QTryPop] eq_refl).
Defined.
