(* ===== verification/QueueThreads.v ===== *)
(** * Threads around the bounded queue

    The waiting protocol of [conduit/include/conduit/queue/bounded_queue.hpp]:
    producers and consumers that call the queue from any number of threads,
    go to sleep on [not_full_] or [not_empty_] when their predicate fails,
    are woken by [notify_one] or [notify_all] after the notifier has released
    the mutex, by a timeout or spuriously, and re-check the predicate.  A
    configuration is the queue and the list of threads; [step] is the
    interleaving semantics, each critical section being one step and each
    notification a separate one. *)

From stdpp Require Import base numbers list relations.
From Stdlib Require Import ZArith Lia ZifyBool.
From S2P Require Import Prelude BoundedQueue.

Open Scope nat_scope.

Section threads.
Context {T : Type} (T0 : T).
Implicit Types q : @BoundedQueue T.

(** [CPush] is [push] or [push_for], [CPop] is [pop] or [pop_for]. *)
Inductive Call :=
  | CTryPush (x : T) | CPush (x : T) | CTryPop | CPop | CPopBatch (n : nat) | CClose | CClear.

Inductive Signal := NotEmptyOne | NotEmptyAll | NotFullOne | NotFullAll.

Inductive Outcome :=
  | Sleep
  | Done (q : @BoundedQueue T) (sigs : list Signal).

(** One critical section: the new queue and the notifications sent after the
    unlock, or a wait. *)
Definition attempt (c : Call) q : option Outcome :=
  match c with
  | CTryPush x => '(b, q') ← try_push T0 x q; Some (Done q' (if b : bool then [NotEmptyOne] else []))
  | CPush x =>
      if push_ready q then
        '(b, q') ← push T0 x q; Some (Done q' (if b : bool then [NotEmptyOne] else []))
      else Some Sleep
  | CTryPop => '(o, q') ← try_pop T0 q; Some (Done q' (match o with Some _ => [NotFullOne] | None => [] end))
  | CPop =>
      if pop_ready q then
        '(o, q') ← pop T0 q; Some (Done q' (match o with Some _ => [NotFullOne] | None => [] end))
      else Some Sleep
  | CPopBatch n => '(l, q') ← pop_batch T0 n q; Some (Done q' (match l with [] => [] | _ => [NotFullAll] end))
  | CClose => Some (Done (close q) [NotEmptyAll; NotFullAll])
  | CClear => q' ← clear T0 q; Some (Done q' [NotFullAll])
  end.

Inductive Thread :=
  | Idle
  | Sleeping (c : Call)
  | Woken (c : Call)
  | Signalling (sigs : list Signal).

Definition after (sigs : list Signal) : Thread :=
  match sigs with [] => Idle | _ => Signalling sigs end.

(** The condition variable a sleeping call waits on. *)
Definition hears (s : Signal) (t : Thread) : bool :=
  match s, t with
  | (NotEmptyOne | NotEmptyAll), Sleeping CPop => true
  | (NotFullOne | NotFullAll), Sleeping (CPush _) => true
  | _, _ => false
  end.

Definition is_all (s : Signal) : bool :=
  match s with NotEmptyAll | NotFullAll => true | _ => false end.

Definition wake (t : Thread) : Thread := match t with Sleeping c => Woken c | _ => t end.

Definition wake_all (s : Signal) (ts : list Thread) : list Thread :=
  map (fun t => if hears s t then wake t else t) ts.

Definition config : Type := @BoundedQueue T * list Thread.

Inductive step : config -> config -> Prop :=
  | step_call q q' ts i c sigs :
      ts !! i = Some Idle -> attempt c q = Some (Done q' sigs) ->
      step (q, ts) (q', <[i := after sigs]> ts)
  | step_sleep q ts i c :
      ts !! i = Some Idle -> attempt c q = Some Sleep ->
      step (q, ts) (q, <[i := Sleeping c]> ts)
  | step_retry q q' ts i c sigs :
      ts !! i = Some (Woken c) -> attempt c q = Some (Done q' sigs) ->
      step (q, ts) (q', <[i := after sigs]> ts)
  | step_resleep q ts i c :
      ts !! i = Some (Woken c) -> attempt c q = Some Sleep ->
      step (q, ts) (q, <[i := Sleeping c]> ts)
  | step_timeout q ts i c :
      ts !! i = Some (Woken c) -> attempt c q = Some Sleep ->
      step (q, ts) (q, <[i := Idle]> ts)
  | step_spurious q ts i c :
      ts !! i = Some (Sleeping c) ->
      step (q, ts) (q, <[i := Woken c]> ts)
  | step_notify_one q ts i j s sigs t :
      ts !! i = Some (Signalling (s :: sigs)) -> is_all s = false ->
      ts !! j = Some t -> hears s t = true ->
      step (q, ts) (q, <[i := after sigs]> (<[j := wake t]> ts))
  | step_notify_nobody q ts i s sigs :
      ts !! i = Some (Signalling (s :: sigs)) -> is_all s = false ->
      forallb (fun t => negb (hears s t)) ts = true ->
      step (q, ts) (q, <[i := after sigs]> ts)
  | step_notify_all q ts i s sigs :
      ts !! i = Some (Signalling (s :: sigs)) -> is_all s = true ->
      step (q, ts) (q, <[i := after sigs]> (wake_all s ts)).

Definition init (c : nat) (p : DropPolicy) (n : nat) : config := (new_queue T0 c p, replicate n Idle).

(** ** Counting threads *)

Definition total (w : Thread -> nat) (ts : list Thread) : nat := sum_list_with w ts.

Lemma total_insert w ts i a b : ts !! i = Some a -> total w (<[i := b]> ts) + w a = total w ts + w b.
Proof.
  unfold total. revert i. induction ts as [|t ts IH]; intros [|i] H; simplify_eq/=; [lia|].
  specialize (IH i H). lia.
Qed.

Definition sum_signals (f : Signal -> nat) (t : Thread) : nat :=
  match t with Signalling l => sum_list_with f l | _ => 0 end.

Definition pop_sleep (t : Thread) : nat := match t with Sleeping CPop => 1 | _ => 0 end.
Definition pop_wake (t : Thread) : nat := match t with Woken CPop => 1 | _ => 0 end.
Definition push_sleep (t : Thread) : nat := match t with Sleeping (CPush _) => 1 | _ => 0 end.
Definition push_wake (t : Thread) : nat := match t with Woken (CPush _) => 1 | _ => 0 end.
Definition one_empty (s : Signal) : nat := match s with NotEmptyOne => 1 | _ => 0 end.
Definition all_empty (s : Signal) : nat := match s with NotEmptyAll => 1 | _ => 0 end.
Definition one_full (s : Signal) : nat := match s with NotFullOne => 1 | _ => 0 end.
Definition all_full (s : Signal) : nat := match s with NotFullAll => 1 | _ => 0 end.

(** ** The invariant

    Unless everybody is about to be woken or nobody sleeps, the elements
    (resp. free slots) that could serve a sleeper are covered by threads
    already woken or notifications already under way. *)

Definition may_wait (p : DropPolicy) (c : Call) : Prop :=
  c = CPop \/ exists x, c = CPush x /\ p = Block.

Record invariant (k : config) : Prop := {
  inv_wf : wf (fst k);
  inv_sleepers : forall i c, snd k !! i = Some (Sleeping c) \/ snd k !! i = Some (Woken c) ->
    may_wait (drop_policy_ (fst k)) c;
  inv_empty :
    0 < total (sum_signals all_empty) (snd k) \/ total pop_sleep (snd k) = 0
    \/ closed_ (fst k) = false
       /\ size_ (fst k) <= total pop_wake (snd k) + total (sum_signals one_empty) (snd k);
  inv_full :
    0 < total (sum_signals all_full) (snd k) \/ total push_sleep (snd k) = 0
    \/ closed_ (fst k) = false
       /\ capacity_ (fst k) <= size_ (fst k) + total push_wake (snd k) + total (sum_signals one_full) (snd k);
}.

(** ** What one critical section does to the counts *)

Record effect (c : Call) q q' (sigs : list Signal) : Prop := {
  eff_wf : wf q';
  eff_cap : capacity_ q' = capacity_ q;
  eff_policy : drop_policy_ q' = drop_policy_ q;
  eff_closed : closed_ q' = closed_ q
    \/ 0 < sum_list_with all_empty sigs /\ 0 < sum_list_with all_full sigs;
  eff_grow : size_ q' <= size_ q + sum_list_with one_empty sigs;
  eff_shrink : 0 < sum_list_with all_full sigs \/ size_ q <= size_ q' + sum_list_with one_full sigs;
  eff_pop : c = CPop -> closed_ q = false -> S (size_ q') <= size_ q;
  eff_push : forall x, c = CPush x -> drop_policy_ q = Block -> closed_ q = false -> S (size_ q) <= size_ q';
}.

Lemma try_push_effect x q c :
  wf q -> c = CTryPush x \/ c = CPush x /\ push_ready q = true ->
  exists b q', try_push T0 x q = Some (b, q') /\ effect c q q' (if b : bool then [NotEmptyOne] else []).
Proof.
  intros H Hc.
  destruct (push_like_spec T0 x q (fun q => Some (false, count_dropped q)) H)
    as (b & q' & E & Hw & (E1 & E2 & E3) & Hs & _); [done|].
  exists b, q'. split; [exact E|].
  pose proof (length_contents T0 q) as L. pose proof (length_contents T0 q') as L'.
  pose proof (wf_size _ H). pose proof (wf_cap _ H). unfold spec_push in Hs. rewrite L in Hs.
  assert (forall x', c = CPush x' -> drop_policy_ q = Block -> closed_ q = false -> size_ q < capacity_ q) as Hr.
  { intros x' -> Ep Ecl. destruct Hc as [?|[_ Hr]]; [done|]. unfold push_ready in Hr.
    rewrite Ep, Ecl, orb_false_r in Hr. by apply Nat.ltb_lt in Hr. }
  assert (c <> CPop) by (destruct Hc as [->|[-> _]]; done).
  destruct (closed_ q) eqn:Ecl; [|destruct (Nat.ltb_spec (size_ q) (capacity_ q)); [|destruct (drop_policy_ q) eqn:Ep]];
    injection Hs as -> Hc'; rewrite Hc', ?length_app in L'; simpl in L';
    try (assert (length (tail (contents T0 q)) = size_ q - 1) by (destruct (contents T0 q); simpl in *; lia));
    split; simpl; try done; try lia; try (by left); try (by right; lia); try (intros; simplify_eq; lia).
  all: try congruence; try (left; congruence);
    intros x' Hx Hp Hcl; try congruence;
    specialize (Hr x' Hx ltac:(congruence) ltac:(congruence)); lia.
Qed.

Lemma pop_effect q c (Hready : c = CPop -> pop_ready q = true) :
  wf q -> c = CTryPop \/ c = CPop ->
  exists o q', try_pop T0 q = Some (o, q')
    /\ effect c q q' (match o with Some _ => [NotFullOne] | None => [] end).
Proof.
  intros H Hc. destruct (try_pop_spec T0 q H) as (q' & E & Hw & (E1 & E2 & E3) & Hs & _).
  pose proof (length_contents T0 q) as L. pose proof (length_contents T0 q') as L'. rewrite Hs in L'.
  do 2 eexists. split; [exact E|].
  assert (forall x, c <> CPush x) by (destruct Hc; congruence).
  assert (c = CPop -> closed_ q = false -> 0 < size_ q) as Hpos.
  { intros Ec Ecl. specialize (Hready Ec). unfold pop_ready in Hready.
    rewrite Ecl, orb_false_r in Hready. by apply Nat.ltb_lt in Hready. }
  destruct (contents T0 q) as [|y l]; simpl in *; split; simpl; try done; try lia;
    try (by left); try (by right; lia); try (intros; congruence).
  all: intros Ec Ecl; specialize (Hpos Ec Ecl); lia.
Qed.

Lemma attempt_effect c q : wf q ->
  match attempt c q with
  | None => False
  | Some Sleep => closed_ q = false /\
      (c = CPop /\ size_ q = 0 \/ exists x, c = CPush x /\ drop_policy_ q = Block /\ size_ q = capacity_ q)
  | Some (Done q' sigs) => effect c q q' sigs
  end.
Proof.
  intros H. pose proof (wf_size _ H). destruct c; cbn [attempt].
  - destruct (try_push_effect x q (CTryPush x) H) as (b & q' & -> & He); [by left|exact He].
  - destruct (push_ready q) eqn:Er.
    + rewrite push_try_push by done.
      destruct (try_push_effect x q (CPush x) H) as (b & q' & -> & He); [by right|exact He].
    + unfold push_ready in Er. destruct (drop_policy_ q); try done.
      apply orb_false_iff in Er as [Er Ecl]. apply Nat.ltb_ge in Er. split; [done|].
      right. exists x. split_and!; [done|done|lia].
  - destruct (pop_effect q CTryPop ltac:(done) H) as (o & q' & -> & He); [by left|exact He].
  - destruct (pop_ready q) eqn:Er.
    + unfold pop. destruct (pop_effect q CPop ltac:(done) H) as (o & q' & -> & He); [by right|exact He].
    + unfold pop_ready in Er. apply orb_false_iff in Er as [Er Ecl]. apply Nat.ltb_ge in Er.
      split; [done|]. left. split; [done|lia].
  - destruct (pop_batch_spec T0 n q H) as (q' & -> & Hw & (E1 & E2 & E3) & Hc & _). cbn [mbind option_bind].
    pose proof (length_contents T0 q) as L. pose proof (length_contents T0 q') as L'.
    rewrite Hc, length_drop, L in L'.
    destruct (take n (contents T0 q)) as [|y l] eqn:Et; split; simpl; try done; try lia; try (by left).
    right. apply (f_equal length) in Et. rewrite length_take, L in Et. simpl in Et. lia.
  - split; simpl; try done; try lia; [by destruct H|..]; right; lia.
  - unfold clear. destruct (clear_loop_spec T0 (size_ q) q H) as (q' & -> & Hw & (E1 & E2 & E3) & Hc & _); [done|].
    cbn [mbind option_bind]. pose proof (length_contents T0 q') as L'. rewrite Hc in L'. simpl in L'.
    split; simpl; try done; try lia; try (by left). by apply set_stats_wf.
Qed.

(** ** Every step preserves the invariant *)

Lemma after_sleep sigs : pop_sleep (after sigs) = 0 /\ push_sleep (after sigs) = 0
  /\ pop_wake (after sigs) = 0 /\ push_wake (after sigs) = 0.
Proof. by destruct sigs. Qed.

Lemma after_signals f sigs : sum_signals f (after sigs) = sum_list_with f sigs.
Proof. by destruct sigs. Qed.

(** Pose the change of every count when thread [i] moves from [a] to [b]. *)
Ltac counts H b :=
  pose proof (total_insert pop_sleep _ _ _ b H);
  pose proof (total_insert pop_wake _ _ _ b H);
  pose proof (total_insert push_sleep _ _ _ b H);
  pose proof (total_insert push_wake _ _ _ b H);
  pose proof (total_insert (sum_signals one_empty) _ _ _ b H);
  pose proof (total_insert (sum_signals all_empty) _ _ _ b H);
  pose proof (total_insert (sum_signals one_full) _ _ _ b H);
  pose proof (total_insert (sum_signals all_full) _ _ _ b H).

Lemma sleepers_insert (P : Call -> Prop) (ts : list Thread) i b :
  (forall j c, ts !! j = Some (Sleeping c) \/ ts !! j = Some (Woken c) -> P c) ->
  (forall c, b = Sleeping c \/ b = Woken c -> P c) ->
  forall j c, <[i := b]> ts !! j = Some (Sleeping c) \/ <[i := b]> ts !! j = Some (Woken c) -> P c.
Proof.
  intros H Hb j c Hj. destruct (decide (i = j)) as [<-|Hne].
  - destruct (decide (i < length ts)).
    + rewrite list_lookup_insert_eq in Hj by done. apply Hb. destruct Hj; simplify_eq; auto.
    + rewrite list_insert_ge in Hj by lia. by eapply H.
  - rewrite list_lookup_insert_ne in Hj by done. by eapply H.
Qed.

Lemma after_calls sigs c : ~ (after sigs = Sleeping c \/ after sigs = Woken c).
Proof. destruct sigs; intros [?|?]; simplify_eq. Qed.

Lemma total_wake_all w s ts :
  (forall t, hears s t = true -> w (wake t) = w t) -> total w (wake_all s ts) = total w ts.
Proof.
  intros Hw. unfold total, wake_all. induction ts as [|t ts IH]; simpl; [done|].
  rewrite IH. destruct (hears s t) eqn:E; [by rewrite Hw|done].
Qed.

Lemma total_wake_all_zero w s ts :
  (forall t, w (if hears s t then wake t else t) = 0) -> total w (wake_all s ts) = 0.
Proof.
  intros Hw. unfold total, wake_all. induction ts as [|t ts IH]; simpl; [done|]. by rewrite IH, Hw.
Qed.

Lemma total_zero w (ts : list Thread) : (forall t, t ∈ ts -> w t = 0) -> total w ts = 0.
Proof.
  intros H. unfold total. induction ts as [|t ts IH]; simpl; [done|].
  rewrite H, IH; [done| |by left]. intros t' Ht'. apply H. by right.
Qed.

Lemma wake_all_lookup s (ts : list Thread) i t : ts !! i = Some t -> hears s t = false -> wake_all s ts !! i = Some t.
Proof. intros H Hh. unfold wake_all. by rewrite list_lookup_fmap, H; simpl; rewrite Hh. Qed.

(** A call that completes, from an idle or a woken thread. *)
Lemma done_preserves q q' ts i t c sigs :
  invariant (q, ts) -> ts !! i = Some t -> t = Idle \/ t = Woken c ->
  attempt c q = Some (Done q' sigs) -> invariant (q', <[i := after sigs]> ts).
Proof.
  intros [Hw Hsl He Hf] Hi Ht Ha. cbn [fst snd] in *.
  pose proof (attempt_effect c q Hw) as Heff. rewrite Ha in Heff.
  destruct Heff as [Hw' Hcap Hpol Hcl Hgrow Hshr Hpop Hpush].
  counts Hi (after sigs). rewrite !after_signals in *.
  destruct (after_sleep sigs) as (A1 & A2 & A3 & A4). rewrite A1, A2, A3, A4 in *.
  assert (t = Woken c -> may_wait (drop_policy_ q) c) as Hc
    by (intros ->; apply (Hsl i); auto).
  split; cbn [fst snd]; [done| | |].
  - rewrite Hpol. apply sleepers_insert; [exact Hsl|]. by intros c' ?%after_calls.
  - destruct Ht as [->| ->]; cbn [pop_sleep pop_wake sum_signals] in *.
    + destruct Hcl as [Ecl|[? ?]]; [rewrite Ecl|]; lia.
    + destruct (Hc eq_refl) as [->|(x & -> & _)]; cbn [pop_sleep pop_wake] in *;
        (destruct Hcl as [Ecl|[? ?]]; [rewrite Ecl|]); try lia.
      destruct (closed_ q) eqn:Ec; [lia|]. specialize (Hpop eq_refl eq_refl). lia.
  - destruct Ht as [->| ->]; cbn [push_sleep push_wake sum_signals] in *.
    + destruct Hcl as [Ecl|[? ?]]; [rewrite Ecl|]; lia.
    + destruct (Hc eq_refl) as [->|(x & -> & Hb)]; cbn [push_sleep push_wake] in *;
        (destruct Hcl as [Ecl|[? ?]]; [rewrite Ecl|]); try lia.
      destruct (closed_ q) eqn:Ec; [lia|]. specialize (Hpush x eq_refl Hb eq_refl). lia.
Qed.

(** A thread that finds its predicate false: it sleeps, or gives up. *)
Lemma wait_preserves q ts i t c b :
  invariant (q, ts) -> ts !! i = Some t -> t = Idle \/ t = Woken c ->
  attempt c q = Some Sleep -> b = Sleeping c \/ b = Idle -> invariant (q, <[i := b]> ts).
Proof.
  intros [Hw Hsl He Hf] Hi Ht Ha Hb. cbn [fst snd] in *.
  pose proof (attempt_effect c q Hw) as Heff. rewrite Ha in Heff. destruct Heff as [Hcl Hc].
  pose proof (wf_size _ Hw). counts Hi b. rewrite Hcl in *.
  split; cbn [fst snd]; [done| | |].
  - apply sleepers_insert; [exact Hsl|]. destruct Hb as [->| ->]; intros c' [?|?]; simplify_eq.
    destruct Hc as [[-> _]|(x & -> & Hb & _)]; [by left|right; eauto].
  - destruct Hc as [[-> Hs]|(x & -> & Hb' & Hs)], Ht as [->| ->], Hb as [->| ->];
      cbn [pop_sleep pop_wake sum_signals] in *; lia.
  - destruct Hc as [[-> Hs]|(x & -> & Hb' & Hs)], Ht as [->| ->], Hb as [->| ->];
      cbn [push_sleep push_wake sum_signals] in *; lia.
Qed.

(** A sleeper that wakes by itself. *)
Lemma spurious_preserves q ts i c :
  invariant (q, ts) -> ts !! i = Some (Sleeping c) -> invariant (q, <[i := Woken c]> ts).
Proof.
  intros [Hw Hsl He Hf] Hi. cbn [fst snd] in *. counts Hi (Woken c).
  assert (may_wait (drop_policy_ q) c) as Hc by (apply (Hsl i); auto).
  split; cbn [fst snd]; [done| | |].
  - apply sleepers_insert; [exact Hsl|]. by intros c' [?|?]; simplify_eq.
  - destruct Hc as [->|(x & -> & _)]; cbn [pop_sleep pop_wake sum_signals] in *; lia.
  - destruct Hc as [->|(x & -> & _)]; cbn [push_sleep push_wake sum_signals] in *; lia.
Qed.

(** The notification of one signal. *)
Lemma notify_one_preserves q ts i j s sigs t :
  invariant (q, ts) -> ts !! i = Some (Signalling (s :: sigs)) -> is_all s = false ->
  ts !! j = Some t -> hears s t = true ->
  invariant (q, <[i := after sigs]> (<[j := wake t]> ts)).
Proof.
  intros [Hw Hsl He Hf] Hi Hs Hj Hh. cbn [fst snd] in *.
  assert (exists c, t = Sleeping c) as [c ->] by (destruct s, t; try done; eauto).
  assert (may_wait (drop_policy_ q) c) as Hc by (apply (Hsl j); auto).
  assert (i <> j) by (intros ->; simplify_eq). counts Hj (wake (Sleeping c)).
  assert (<[j := wake (Sleeping c)]> ts !! i = Some (Signalling (s :: sigs))) as Hi'
    by (by rewrite list_lookup_insert_ne).
  counts Hi' (after sigs). rewrite !after_signals in *.
  destruct (after_sleep sigs) as (A1 & A2 & A3 & A4). rewrite A1, A2, A3, A4 in *.
  cbn [sum_signals sum_list_with wake] in *.
  split; cbn [fst snd]; [done| | |].
  - apply sleepers_insert; [|by intros c' ?%after_calls].
    apply sleepers_insert; [exact Hsl|]. by intros c' [?|?]; simplify_eq.
  - destruct s; try done; destruct Hc as [->|(x & -> & _)]; try done;
      cbn [pop_sleep pop_wake sum_signals one_empty all_empty] in *; lia.
  - destruct s; try done; destruct Hc as [->|(x & -> & _)]; try done;
      cbn [push_sleep push_wake sum_signals one_full all_full] in *; lia.
Qed.

Lemma notify_nobody_preserves q ts i s sigs :
  invariant (q, ts) -> ts !! i = Some (Signalling (s :: sigs)) -> is_all s = false ->
  forallb (fun t => negb (hears s t)) ts = true -> invariant (q, <[i := after sigs]> ts).
Proof.
  intros [Hw Hsl He Hf] Hi Hs Hn. cbn [fst snd] in *.
  assert (forall t, t ∈ ts -> hears s t = false) as Hno.
  { intros t Ht. apply list_elem_of_In in Ht. rewrite forallb_forall in Hn.
    specialize (Hn t Ht). by apply negb_true_iff in Hn. }
  counts Hi (after sigs). rewrite !after_signals in *.
  destruct (after_sleep sigs) as (A1 & A2 & A3 & A4). rewrite A1, A2, A3, A4 in *.
  cbn [sum_signals sum_list_with pop_sleep push_sleep pop_wake push_wake] in *.
  split; cbn [fst snd]; [done| | |].
  - apply sleepers_insert; [exact Hsl|]. by intros c' ?%after_calls.
  - destruct s; try done; cbn [one_empty all_empty] in *; [|lia].
    assert (total pop_sleep ts = 0); [|lia]. apply total_zero. intros t Ht. specialize (Hno t Ht).
    by destruct t as [|[]| |].
  - destruct s; try done; cbn [one_full all_full] in *; [lia|].
    assert (total push_sleep ts = 0); [|lia]. apply total_zero. intros t Ht. specialize (Hno t Ht).
    by destruct t as [|[]| |].
Qed.

Lemma notify_all_preserves q ts i s sigs :
  invariant (q, ts) -> ts !! i = Some (Signalling (s :: sigs)) -> is_all s = true ->
  invariant (q, <[i := after sigs]> (wake_all s ts)).
Proof.
  intros [Hw Hsl He Hf] Hi Hs. cbn [fst snd] in *.
  assert (wake_all s ts !! i = Some (Signalling (s :: sigs))) as Hi'
    by (apply wake_all_lookup; [done|by destruct s]).
  counts Hi' (after sigs). rewrite !after_signals in *.
  destruct (after_sleep sigs) as (A1 & A2 & A3 & A4). rewrite A1, A2, A3, A4 in *.
  cbn [sum_signals sum_list_with pop_sleep push_sleep pop_wake push_wake] in *.
  assert (forall f, total (sum_signals f) (wake_all s ts) = total (sum_signals f) ts) as Hsum.
  { intros f. apply total_wake_all. by intros [|[]| |]; destruct s. }
  rewrite !Hsum in *.
  split; cbn [fst snd]; [done| | |].
  - apply sleepers_insert; [|by intros c' ?%after_calls]. intros j c Hj.
    unfold wake_all in Hj. rewrite list_lookup_fmap in Hj.
    destruct (ts !! j) as [t|] eqn:Ej; simpl in Hj; [|by destruct Hj].
    apply (Hsl j). destruct (hears s t), t; destruct Hj; simplify_eq/=; auto.
  - destruct s; try done; cbn [one_empty all_empty] in *.
    + assert (total pop_sleep (wake_all NotEmptyAll ts) = 0); [|lia].
      apply total_wake_all_zero. by intros [|[]| |].
    + rewrite (total_wake_all pop_sleep), (total_wake_all pop_wake) in * by (by intros [|[]| |]). lia.
  - destruct s; try done; cbn [one_full all_full] in *.
    + rewrite (total_wake_all push_sleep), (total_wake_all push_wake) in * by (by intros [|[]| |]). lia.
    + assert (total push_sleep (wake_all NotFullAll ts) = 0); [|lia].
      apply total_wake_all_zero. by intros [|[]| |].
Qed.

Lemma step_preserves k k' : step k k' -> invariant k -> invariant k'.
Proof.
  intros [] Hinv.
  - eapply done_preserves; eauto.
  - eapply wait_preserves; eauto.
  - eapply done_preserves; eauto.
  - eapply wait_preserves; eauto.
  - eapply wait_preserves; eauto.
  - by apply spurious_preserves.
  - by eapply notify_one_preserves.
  - by eapply notify_nobody_preserves.
  - by apply notify_all_preserves.
Qed.

Lemma init_invariant c p n : invariant (init c p n).
Proof.
  unfold init. split; cbn [fst snd].
  - apply wf_new.
  - intros i c' [H|H]; apply lookup_replicate in H as [? _]; done.
  - right; left. apply total_zero. by intros t [-> _]%elem_of_replicate.
  - right; left. apply total_zero. by intros t [-> _]%elem_of_replicate.
Qed.

Lemma reachable_invariant c p n k : rtc step (init c p n) k -> invariant k.
Proof.
  intros H. pose proof (init_invariant c p n) as Hi. induction H as [|k1 k2 k3 Hs _ IH]; [done|].
  apply IH. by eapply step_preserves.
Qed.

(** Nothing is under way: every thread is idle or asleep. *)
Definition quiescent (ts : list Thread) : Prop :=
  Forall (fun t => match t with Woken _ | Signalling _ => False | _ => True end) ts.

Lemma quiescent_total w ts :
  quiescent ts -> (forall t, match t with Woken _ | Signalling _ => True | _ => w t = 0 end) ->
  total w ts = 0.
Proof.
  intros Hq Hw. apply total_zero. intros t Ht. unfold quiescent in Hq. rewrite Forall_forall in Hq.
  specialize (Hq t Ht). specialize (Hw t). by destruct t.
Qed.

Lemma total_pos w (ts : list Thread) i t : ts !! i = Some t -> w t <= total w ts.
Proof.
  unfold total. revert i. induction ts as [|u ts IH]; intros [|i] H; simplify_eq/=; [lia|].
  specialize (IH i H). lia.
Qed.

(** C29: No wake-up is lost.  In every state any number of threads can reach
    by any interleaving of queue calls, notifications, timeouts and spurious
    wake-ups: once nothing is under way any more, a consumer still asleep on
    [not_empty_] means that the queue is empty and open, and a producer still
    asleep on [not_full_] means that it is full and open; so a consumer and a
    producer never sleep against each other, and closing the queue wakes
    everybody. *)
Theorem no_lost_wakeup (c : nat) (p : DropPolicy) (n : nat) (q : @BoundedQueue T) (ts : list Thread) :
  rtc step (init c p n) (q, ts) -> quiescent ts ->
  (forall i, ts !! i = Some (Sleeping CPop) -> size_ q = 0 /\ closed_ q = false)
  /\ (forall i x, ts !! i = Some (Sleeping (CPush x)) -> size_ q = capacity_ q /\ closed_ q = false)
  /\ (closed_ q = true -> Forall (fun t => t = Idle) ts).
Proof.
  intros Hr Hq. destruct (reachable_invariant _ _ _ _ Hr) as [Hw Hsl He Hf]. cbn [fst snd] in *.
  pose proof (wf_size _ Hw). pose proof (wf_cap _ Hw).
  assert (forall f, total (sum_signals f) ts = 0) as Hsum
    by (intros f; apply quiescent_total; [done|by intros []]).
  rewrite !Hsum in *.
  rewrite (quiescent_total pop_wake) in He by (done || by intros []).
  rewrite (quiescent_total push_wake) in Hf by (done || by intros []).
  assert (forall i, ts !! i = Some (Sleeping CPop) -> size_ q = 0 /\ closed_ q = false) as H1.
  { intros i Hi. pose proof (total_pos pop_sleep _ _ _ Hi) as Hp. cbn in Hp. lia. }
  assert (forall i x, ts !! i = Some (Sleeping (CPush x)) -> size_ q = capacity_ q /\ closed_ q = false) as H2.
  { intros i x Hi. pose proof (total_pos push_sleep _ _ _ Hi) as Hp. cbn in Hp. lia. }
  split_and!; [done|done|]. intros Hcl. apply Forall_lookup_2. intros i t Hi.
  pose proof (Forall_lookup_1 _ _ _ _ Hq Hi) as Ht. destruct t as [|c'| |]; try done.
  destruct (Hsl i c') as [->|(x & -> & _)]; [by left| |].
  - destruct (H1 i Hi). congruence.
  - destruct (H2 i x Hi). congruence.
Qed.
End threads.

(** A consumer goes to sleep on an empty queue, and nothing else happens. *)
Lemma no_lost_wakeup_witness :
  rtc (step 0) (init 0 1 Block 2) (new_queue 0 1 Block, [Sleeping CPop; Idle])
  /\ (size_ (new_queue 0 1 Block) = 0 /\ closed_ (new_queue 0 1 Block) = false).
Proof.
  assert (rtc (step 0) (init 0 1 Block 2) (new_queue 0 1 Block, [Sleeping CPop; Idle])) as Hr.
  { apply rtc_once. apply (step_sleep 0 (new_queue 0 1 Block) [Idle; Idle] 0 CPop); reflexivity. }
  split; [exact Hr|].
  apply (no_lost_wakeup 0 1 Block 2 (new_queue 0 1 Block) [Sleeping CPop; Idle] Hr) with (i := 0).
  - repeat constructor.
  - reflexivity.
Defined.
