(* ===== verification/StreamFramer.v ===== *)
(** * StreamFramer

    Models [conduit/src/transceiver/stream_framer.cpp] (and its header): the
    extraction of protocol frames from a byte stream.  The session that knows
    the protocol is generated code behind the interface [ISession]
    ([conduit/include/conduit/traits/session_traits.hpp]); the framer's view of
    it is the class [FrameSession].  Sizes are [nat]: no addition here leaves
    the range of a vector's size. *)

From stdpp Require Import base numbers list strings.
From Stdlib Require Import ZArith Lia.
From S2P Require Import Prelude CoreError.

Open Scope nat_scope.

(** The framing part of [ISession]: pure functions of the session. *)
Class FrameSession := {
  sync_pattern : list Z;
  min_frame_header_size : nat;
  extract_frame_length : list Z -> nat;
}.

Section framer.
Context `{Sess : FrameSession}.

Record StreamFramer := mkFramer {
  buffer_ : list Z;
  offset_ : nat;
  max_buffer_size_ : nat;
}.

Definition new_framer (max : nat) : StreamFramer := mkFramer [] 0 max.

Definition reset (f : StreamFramer) : StreamFramer := mkFramer [] 0 (max_buffer_size_ f).

Definition buffered_bytes (f : StreamFramer) : nat :=
  if offset_ f <=? length (buffer_ f) then length (buffer_ f) - offset_ f else 0.

Definition set_max_buffer_size (max : nat) (f : StreamFramer) : StreamFramer :=
  mkFramer (buffer_ f) (offset_ f) max.

Definition set_offset (n : nat) (f : StreamFramer) : StreamFramer :=
  mkFramer (buffer_ f) n (max_buffer_size_ f).

(** [buffer_.erase(begin, begin + offset_); offset_ = 0]. *)
Definition compact (f : StreamFramer) : StreamFramer :=
  mkFramer (drop (offset_ f) (buffer_ f)) 0 (max_buffer_size_ f).

(** [std::search]: the distance to the first occurrence of [needle]. *)
Fixpoint starts_with (needle hay : list Z) : bool :=
  match needle, hay with
  | [], _ => true
  | _, [] => false
  | a :: needle, b :: hay => (a =? b)%Z && starts_with needle hay
  end.

Fixpoint search (needle hay : list Z) : option nat :=
  if starts_with needle hay then Some 0
  else match hay with
  | [] => None
  | _ :: hay => S <$> search needle hay
  end.

(** [min_header] after the clamp against zero. *)
Definition min_header : nat := if min_frame_header_size =? 0 then 1 else min_frame_header_size.

(** The resynchronisation the three corrupt-length branches share: past the
    sync pattern, or one byte; [None] is the [break]. *)
Definition skip_corrupt (f : StreamFramer) : option StreamFramer :=
  if negb (bool_decide (sync_pattern = [])) then
    if length sync_pattern <=? buffered_bytes f
    then Some (set_offset (offset_ f + length sync_pattern) f)
    else None
  else if 0 <? buffered_bytes f then Some (set_offset (offset_ f + 1) f)
  else None.

(** One round of [while (true)]: stop, go on, or go on with a frame. *)
Inductive Round :=
  | Break (f : StreamFramer)
  | Continue (f : StreamFramer)
  | Emit (frame : list Z) (f : StreamFramer).

(** Steps 4 to 6 once the offset is at the sync pattern. *)
Definition round_header (f : StreamFramer) : Round :=
  if buffered_bytes f <? min_header then Break f
  else
    let header_span := take min_header (drop (offset_ f) (buffer_ f)) in
    let frame_length := extract_frame_length header_span in
    let corrupt := match skip_corrupt f with Some f' => Continue f' | None => Break f end in
    if (0 <? frame_length) && (frame_length <? min_header) then corrupt
    else if max_buffer_size_ f <? frame_length then corrupt
    else if frame_length =? 0 then corrupt
    else if buffered_bytes f <? frame_length then Break f
    else Emit (take frame_length (drop (offset_ f) (buffer_ f)))
              (set_offset (offset_ f + frame_length) f).

Definition round (f : StreamFramer) : Round :=
  if negb (bool_decide (sync_pattern = [])) then
    match search sync_pattern (drop (offset_ f) (buffer_ f)) with
    | None =>
        Break (if length sync_pattern - 1 <? buffered_bytes f
               then set_offset (length (buffer_ f) - (length sync_pattern - 1)) f else f)
    | Some d => round_header (set_offset (offset_ f + d) f)
    end
  else round_header f.

(** Every round that does not stop moves the offset forward, so one round per
    buffered byte and a last one suffice. *)
Fixpoint rounds (fuel : nat) (frames : list (list Z)) (f : StreamFramer)
    : option (list (list Z) * StreamFramer) :=
  match fuel with
  | O => None
  | S fuel =>
      match round f with
      | Break f => Some (frames, f)
      | Continue f => rounds fuel frames f
      | Emit frame f => rounds fuel (frames ++ [frame]) f
      end
  end.

Definition push_data (data : list Z) (f : StreamFramer)
    : option (Result (list (list Z)) * StreamFramer) :=
  let overrun f := max_buffer_size_ f <? length (buffer_ f) + length data in
  let f := if overrun f && (0 <? offset_ f) then compact f else f in
  if overrun f then
    Some (Fail (new_error BufferOverrun "StreamFramer buffer exceeds max size"), reset f)
  else
    let f := mkFramer (buffer_ f ++ data) (offset_ f) (max_buffer_size_ f) in
    '(frames, f) ← rounds (S (buffered_bytes f)) [] f;
    let f := if (0 <? offset_ f)
                && ((length (buffer_ f) / 2 <? offset_ f) || negb (bool_decide (frames = [])))
             then compact f else f in
    Some (Ok frames, f).

(** ** The framer's view: the bytes not yet consumed *)

Definition framer_wf (f : StreamFramer) : Prop := offset_ f <= length (buffer_ f).
Definition view (f : StreamFramer) : list Z := drop (offset_ f) (buffer_ f).

(** The same rounds on the view alone. *)
Inductive ViewRound := VBreak (v : list Z) | VContinue (v : list Z) | VEmit (frame v : list Z).

Definition skip_len : nat := if bool_decide (sync_pattern = []) then 1 else length sync_pattern.

Definition view_header (max : nat) (v : list Z) : ViewRound :=
  if length v <? min_header then VBreak v
  else
    let n := extract_frame_length (take min_header v) in
    if (n <? min_header) || (max <? n) then VContinue (drop skip_len v)
    else if length v <? n then VBreak v
    else VEmit (take n v) (drop n v).

Definition view_round (max : nat) (v : list Z) : ViewRound :=
  if bool_decide (sync_pattern = []) then view_header max v
  else match search sync_pattern v with
  | None => VBreak (drop (length v - (length sync_pattern - 1)) v)
  | Some d => view_header max (drop d v)
  end.

Fixpoint scan (fuel max : nat) (v : list Z) : option (list (list Z) * list Z) :=
  match fuel with
  | O => None
  | S fuel =>
      match view_round max v with
      | VBreak v => Some ([], v)
      | VContinue v => scan fuel max v
      | VEmit frame v => '(fs, v) ← scan fuel max v; Some (frame :: fs, v)
      end
  end.

(** ** [std::search] *)

Lemma starts_with_length n h : starts_with n h = true -> length n <= length h.
Proof.
  revert h. induction n as [|a n IH]; intros [|b h] H; simpl in *; try done; [lia|].
  apply andb_true_iff in H as [_ H]. specialize (IH h H). lia.
Qed.

Lemma starts_with_app n h b : length n <= length h -> starts_with n (h ++ b) = starts_with n h.
Proof.
  revert h. induction n as [|a n IH]; intros [|c h] H; simpl in *; try done; [lia|].
  by rewrite IH by lia.
Qed.

Lemma search_Some n h d : search n h = Some d ->
  starts_with n (drop d h) = true /\ d <= length h
  /\ forall j, j < d -> starts_with n (drop j h) = false.
Proof.
  revert d. induction h as [|c h IH]; intros d H; cbn [search] in H.
  - destruct (starts_with n []) eqn:E; [|done]. injection H as <-. split_and!; [done|done|lia].
  - destruct (starts_with n (c :: h)) eqn:E.
    + injection H as <-. split_and!; [done|simpl; lia|lia].
    + destruct (search n h) as [d'|] eqn:Es; simplify_eq/=.
      destruct (IH d' eq_refl) as (H1 & H2 & H3). split_and!; [done|lia|].
      intros [|j] Hj; [done|]. apply H3. lia.
Qed.

Lemma search_None n h : search n h = None -> forall j, starts_with n (drop j h) = false.
Proof.
  induction h as [|c h IH]; intros H j; cbn [search] in H.
  - destruct (starts_with n []) eqn:E; [done|]. by rewrite drop_nil.
  - destruct (starts_with n (c :: h)) eqn:E; [done|].
    destruct (search n h) eqn:Es; [done|]. destruct j as [|j]; [done|]. by apply IH.
Qed.

(** The search is determined by its first match. *)
Lemma search_first n h d :
  starts_with n (drop d h) = true -> d <= length h ->
  (forall j, j < d -> starts_with n (drop j h) = false) -> search n h = Some d.
Proof.
  revert d. induction h as [|c h IH]; intros d H1 H2 H3; cbn [search].
  - simpl in H2. assert (d = 0) as -> by lia. by rewrite drop_nil in H1; rewrite H1.
  - destruct d as [|d]; [simpl in H1; by rewrite H1|].
    pose proof (H3 0 ltac:(lia)) as H0. simpl drop in H0. rewrite H0.
    rewrite (IH d); [done|done|simpl in H2; lia|]. intros j Hj. apply (H3 (S j)). lia.
Qed.

Lemma search_absent n h : n <> [] -> (forall j, j <= length h -> starts_with n (drop j h) = false) -> search n h = None.
Proof.
  intros Hn. induction h as [|c h IH]; intros H; cbn [search].
  - pose proof (H 0 ltac:(simpl; lia)) as H0. simpl in H0. by rewrite H0.
  - pose proof (H 0 ltac:(simpl; lia)) as H0. simpl drop in H0. rewrite H0.
    rewrite IH; [done|]. intros j Hj. apply (H (S j)). simpl. lia.
Qed.

(** Skipping a stretch where nothing starts. *)
Lemma search_drop n h k : n <> [] -> k <= length h ->
  (forall j, j < k -> starts_with n (drop j h) = false) ->
  search n h = (fun d => k + d) <$> search n (drop k h).
Proof.
  intros Hn Hk H. destruct (search n (drop k h)) as [d|] eqn:E.
  - apply search_Some in E as (H1 & H2 & H3). rewrite drop_drop in H1. rewrite length_drop in H2.
    apply search_first; [done|lia|]. intros j Hj. destruct (decide (j < k)); [by apply H|].
    specialize (H3 (j - k) ltac:(lia)). rewrite drop_drop in H3. by replace (k + (j - k)) with j in H3 by lia.
  - apply search_absent; [done|]. intros j Hj. destruct (decide (j < k)); [by apply H|].
    pose proof (search_None _ _ E (j - k)) as H3. rewrite drop_drop in H3.
    by replace (k + (j - k)) with j in H3 by lia.
Qed.

(** ** The buffer-and-offset rounds simulate the view *)

Lemma min_header_pos : 0 < min_header.
Proof. unfold min_header. destruct (Nat.eqb_spec min_frame_header_size 0); lia. Qed.

Lemma skip_len_pos : 0 < skip_len.
Proof. unfold skip_len. case_bool_decide as E; [lia|]. destruct sync_pattern; [done|simpl; lia]. Qed.

Lemma length_view f : framer_wf f -> length (view f) = buffered_bytes f.
Proof.
  intros H. unfold buffered_bytes, view. rewrite (proj2 (Nat.leb_le _ _)) by done. by rewrite length_drop.
Qed.

Lemma set_offset_view f n : offset_ f + n <= length (buffer_ f) ->
  framer_wf (set_offset (offset_ f + n) f) /\ view (set_offset (offset_ f + n) f) = drop n (view f).
Proof. intros H. unfold framer_wf, view; simpl. by rewrite drop_drop. Qed.

(** [f'] continues [f] with the unread bytes [v]. *)
Definition at_view (f f' : StreamFramer) (v : list Z) : Prop :=
  framer_wf f' /\ view f' = v /\ max_buffer_size_ f' = max_buffer_size_ f.

Definition round_sim (f : StreamFramer) (r : Round) (vr : ViewRound) : Prop :=
  match r, vr with
  | Break f', VBreak v => at_view f f' v
  | Continue f', VContinue v => at_view f f' v
  | Emit fr f', VEmit fr' v => fr = fr' /\ at_view f f' v
  | _, _ => False
  end.

Lemma advance_at_view f n : framer_wf f -> n <= length (view f) ->
  at_view f (set_offset (offset_ f + n) f) (drop n (view f)).
Proof.
  intros H Hn. unfold view in Hn. rewrite length_drop in Hn. unfold framer_wf in H.
  destruct (set_offset_view f n ltac:(lia)). by split_and!.
Qed.

Lemma round_header_sim f :
  framer_wf f -> sync_pattern = [] \/ starts_with sync_pattern (view f) = true ->
  round_sim f (round_header f) (view_header (max_buffer_size_ f) (view f)).
Proof.
  intros H Hs. pose proof (length_view f H) as Lv. pose proof min_header_pos.
  unfold round_header, view_header. rewrite Lv. fold (view f).
  destruct (Nat.ltb_spec (buffered_bytes f) min_header); [by split_and!|].
  set (n := extract_frame_length _).
  assert (exists f', skip_corrupt f = Some f' /\ at_view f f' (drop skip_len (view f))) as (f' & -> & Hf').
  { unfold skip_corrupt, skip_len. case_bool_decide as E; cbn [negb].
    - rewrite (proj2 (Nat.ltb_lt _ _)) by lia. eexists; split; [done|]. apply advance_at_view; [done|lia].
    - destruct Hs as [?|Hs]; [done|]. apply starts_with_length in Hs.
      rewrite (proj2 (Nat.leb_le _ _)) by lia. eexists; split; [done|]. apply advance_at_view; [done|lia]. }
  destruct (Nat.ltb_spec n min_header) as [Hlt|Hge]; cbn [orb].
  - rewrite andb_true_r. destruct (Nat.ltb_spec 0 n); [done|].
    destruct (max_buffer_size_ f <? n); [done|]. by rewrite (proj2 (Nat.eqb_eq n 0)) by lia.
  - rewrite andb_false_r. destruct (max_buffer_size_ f <? n); [done|].
    rewrite (proj2 (Nat.eqb_neq n 0)) by lia.
    destruct (Nat.ltb_spec (buffered_bytes f) n); [by split_and!|]. split; [done|].
    apply advance_at_view; [done|lia].
Qed.

Lemma round_sim_trans f f1 r vr : max_buffer_size_ f1 = max_buffer_size_ f ->
  round_sim f1 r vr -> round_sim f r vr.
Proof. unfold round_sim, at_view. intros E. destruct r, vr; rewrite ?E; done. Qed.

Lemma round_view f : framer_wf f -> round_sim f (round f) (view_round (max_buffer_size_ f) (view f)).
Proof.
  intros H. pose proof (length_view f H) as Lv. unfold round, view_round.
  case_bool_decide as E; cbn [negb]; [by apply round_header_sim; auto|]. fold (view f).
  destruct (search sync_pattern (view f)) as [d|] eqn:Es.
  - apply search_Some in Es as (H1 & H2 & _). destruct (advance_at_view f d H H2) as (W & V & M).
    rewrite <- V in H1 |- *. apply (round_sim_trans f (set_offset (offset_ f + d) f)); [done|].
    rewrite <- M. apply round_header_sim; auto.
  - cbn [round_sim]. destruct (Nat.ltb_spec (length sync_pattern - 1) (buffered_bytes f)) as [Hl|Hl].
    + pose proof (advance_at_view f (length (view f) - (length sync_pattern - 1)) H ltac:(lia)) as Ha.
      assert (offset_ f + (length (view f) - (length sync_pattern - 1))
              = length (buffer_ f) - (length sync_pattern - 1)) as <-; [|done].
      unfold framer_wf in H. unfold buffered_bytes in *. rewrite (proj2 (Nat.leb_le _ _)) in * by done. lia.
    + rewrite (proj2 (Nat.sub_0_le _ _)) by lia. by split_and!.
Qed.

(** ** Termination and independence of the fuel *)

Lemma view_header_shrinks max v : 
  match view_header max v with
  | VBreak v' => v' = v
  | VContinue v' | VEmit _ v' => length v' < length v
  end.
Proof.
  unfold view_header. pose proof min_header_pos. pose proof skip_len_pos.
  destruct (Nat.ltb_spec (length v) min_header); [done|].
  destruct ((_ <? min_header) || _) eqn:E; [rewrite length_drop; lia|].
  apply orb_false_iff in E as [E _]. apply Nat.ltb_ge in E.
  destruct (_ <? _); [done|]. rewrite length_drop. lia.
Qed.

Lemma view_round_shrinks max v :
  match view_round max v with
  | VBreak v' => length v' <= length v
  | VContinue v' | VEmit _ v' => length v' < length v
  end.
Proof.
  unfold view_round. case_bool_decide.
  - pose proof (view_header_shrinks max v). destruct (view_header max v); [by subst|done..].
  - destruct (search sync_pattern v) as [d|]; [|rewrite length_drop; lia].
    pose proof (view_header_shrinks max (drop d v)) as Hs. rewrite length_drop in Hs.
    destruct (view_header max (drop d v)); [subst; rewrite length_drop; lia|lia..].
Qed.

Lemma scan_total fuel max v : length v < fuel -> exists fs r, scan fuel max v = Some (fs, r) /\ length r <= length v.
Proof.
  revert v. induction fuel as [|fuel IH]; intros v Hf; [lia|]. cbn [scan].
  pose proof (view_round_shrinks max v) as Hs. destruct (view_round max v) as [v'|v'|fr v'].
  - by exists [], v'.
  - destruct (IH v') as (fs & r & E & Hl); [lia|]. exists fs, r. split; [done|lia].
  - destruct (IH v') as (fs & r & -> & Hl); [lia|]. exists (fr :: fs), r. split; [done|lia].
Qed.

Lemma scan_mono fuel fuel' max v x : fuel <= fuel' -> scan fuel max v = Some x -> scan fuel' max v = Some x.
Proof.
  revert fuel' v x. induction fuel as [|fuel IH]; intros [|fuel'] v x Hf H; try done; [lia|].
  cbn [scan] in *. destruct (view_round max v) as [v'|v'|fr v']; [done|apply IH; [lia|done]|].
  destruct (scan fuel max v') as [[fs r]|] eqn:E; [|done]. by rewrite (IH fuel' v' (fs, r)) by (done || lia).
Qed.

Definition scans (max : nat) (v : list Z) (fs : list (list Z)) (r : list Z) : Prop :=
  exists fuel, scan fuel max v = Some (fs, r).

Lemma scans_total max v : exists fs r, scans max v fs r /\ length r <= length v.
Proof.
  destruct (scan_total (S (length v)) max v) as (fs & r & E & H); [lia|].
  exists fs, r. split; [by eexists|done].
Qed.

Lemma scans_functional max v fs r fs' r' : scans max v fs r -> scans max v fs' r' -> fs = fs' /\ r = r'.
Proof.
  intros [n E] [m E']. apply (scan_mono _ (Nat.max n m)) in E; [|lia].
  apply (scan_mono _ (Nat.max n m)) in E'; [|lia]. rewrite E in E'. by injection E'.
Qed.

Lemma scans_step max v fs r :
  match view_round max v with
  | VBreak v' => fs = [] /\ r = v'
  | VContinue v' => scans max v' fs r
  | VEmit fr v' => exists fs', fs = fr :: fs' /\ scans max v' fs' r
  end -> scans max v fs r.
Proof.
  destruct (view_round max v) as [v'|v'|fr v'] eqn:E.
  - intros [-> ->]. exists 1. simpl. by rewrite E.
  - intros [n H]. exists (S n). simpl. by rewrite E.
  - intros (fs' & -> & n & H). exists (S n). simpl. by rewrite E, H.
Qed.

Lemma rounds_scan fuel acc f fs v :
  framer_wf f -> scan fuel (max_buffer_size_ f) (view f) = Some (fs, v) ->
  exists f', rounds fuel acc f = Some (acc ++ fs, f') /\ at_view f f' v.
Proof.
  revert acc f fs. induction fuel as [|fuel IH]; intros acc f fs H E; [done|]. cbn [scan rounds] in *.
  pose proof (round_view f H) as Hr.
  destruct (view_round _ (view f)) as [v1|v1|fr v1], (round f) as [f1|f1|fr' f1]; try done; cbn [round_sim] in Hr.
  - injection E as <- <-. exists f1. by rewrite app_nil_r.
  - destruct Hr as (W & <- & M). destruct (IH acc f1 fs W) as (f2 & E2 & W2 & V2 & M2); [by rewrite M|].
    exists f2. split; [done|]. unfold at_view. split_and!; [done|done|congruence].
  - destruct Hr as (-> & W & <- & M). destruct (scan fuel _ (view f1)) as [[fs1 r1]|] eqn:Es; [|done].
    cbn in E. injection E as <- <-.
    destruct (IH (acc ++ [fr]) f1 fs1 W) as (f2 & E2 & W2 & V2 & M2); [by rewrite M|].
    exists f2. rewrite E2, <- app_assoc. split; [done|]. unfold at_view. split_and!; [done|done|congruence].
Qed.

(** ** [push_data] in terms of the view *)

Lemma compact_view f : framer_wf f -> at_view f (compact f) (view f).
Proof. intros H. unfold at_view, framer_wf, view, compact; simpl. split_and!; [lia|done|done]. Qed.

Lemma push_data_spec data f :
  framer_wf f ->
  if length (view f) + length data <=? max_buffer_size_ f then
    exists fs v f', push_data data f = Some (Ok fs, f') /\ at_view f f' v
      /\ scans (max_buffer_size_ f) (view f ++ data) fs v
  else exists e, push_data data f = Some (Fail e, reset f) /\ code e = BufferOverrun.
Proof.
  intros H. pose proof (compact_view f H) as (Wc & Vc & Mc).
  assert (length (view f) <= length (buffer_ f)) as Hle by (unfold view; rewrite length_drop; lia).
  unfold push_data. cbv zeta beta.
  set (f1 := if (max_buffer_size_ f <? length (buffer_ f) + length data) && (0 <? offset_ f)
             then compact f else f).
  assert (at_view f f1 (view f) /\ (max_buffer_size_ f1 <? length (buffer_ f1) + length data) = negb (length (view f) + length data <=? max_buffer_size_ f))
    as [(W1 & V1 & M1) Hov].
  { unfold f1. rewrite <- Nat.ltb_antisym.
    destruct (Nat.ltb_spec (max_buffer_size_ f) (length (buffer_ f) + length data)) as [Hb|Hb].
    - destruct (Nat.ltb_spec 0 (offset_ f)) as [Ho|Ho]; cbn [andb].
      + split; [done|]. unfold compact; cbn [max_buffer_size_ buffer_]. done.
      + split; [by split_and!|]. assert (view f = buffer_ f) as ->; [|done].
        unfold view. by replace (offset_ f) with 0 by lia.
    - cbn [andb]. split; [by split_and!|]. rewrite !(proj2 (Nat.ltb_ge _ _)) by lia. done. }
  rewrite Hov. destruct (length (view f) + length data <=? max_buffer_size_ f); cbn [negb].
  - set (f2 := mkFramer (buffer_ f1 ++ data) (offset_ f1) (max_buffer_size_ f1)).
    assert (framer_wf f2) as W2 by (unfold framer_wf in *; simpl; rewrite length_app; lia).
    assert (view f2 = view f ++ data) as V2
      by (rewrite <- V1; unfold view; simpl; by rewrite drop_app_le by done).
    destruct (scan_total (S (buffered_bytes f2)) (max_buffer_size_ f2) (view f2)) as (fs & v & E & _);
      [rewrite length_view by done; lia|].
    destruct (rounds_scan _ [] f2 fs v W2 E) as (f3 & E3 & W3 & V3 & M3).
    rewrite E3. cbn [mbind option_bind app]. exists fs, v. eexists. split; [done|]. split.
    + match goal with |- at_view _ (if ?b then _ else _) _ => destruct b end.
      * destruct (compact_view f3 W3) as (W4 & V4 & M4).
        split; [done|]. split; [congruence|]. rewrite M4, M3. done.
      * split; [done|]. split; [done|]. by rewrite M3.
    + rewrite <- V2, <- M1. by eexists.
  - eexists. unfold reset. rewrite M1. done.
Qed.

(** ** More data only extends what was already decided *)

Lemma view_header_app max v b :
  sync_pattern = [] \/ starts_with sync_pattern v = true ->
  match view_header max v with
  | VBreak _ => True
  | VContinue v' => view_header max (v ++ b) = VContinue (v' ++ b)
  | VEmit fr v' => view_header max (v ++ b) = VEmit fr (v' ++ b)
  end.
Proof.
  intros Hs. unfold view_header. rewrite length_app. pose proof min_header_pos.
  destruct (Nat.ltb_spec (length v) min_header); [done|].
  rewrite (proj2 (Nat.ltb_ge (length v + length b) _)) by lia. rewrite take_app_le by lia.
  set (n := extract_frame_length _). destruct ((n <? min_header) || (max <? n)).
  - rewrite drop_app_le; [done|]. unfold skip_len. case_bool_decide; [lia|].
    destruct Hs as [?|Hs%starts_with_length]; done.
  - destruct (Nat.ltb_spec (length v) n); [done|].
    rewrite (proj2 (Nat.ltb_ge (length v + length b) _)) by lia.
    by rewrite take_app_le, drop_app_le by lia.
Qed.

(** The first match stays the first match. *)
Lemma search_app n a b d : search n a = Some d -> search n (a ++ b) = Some d.
Proof.
  intros (H1 & H2 & H3)%search_Some. pose proof (starts_with_length _ _ H1) as Hl.
  rewrite length_drop in Hl. apply search_first.
  - rewrite drop_app_le by done. rewrite starts_with_app; [done|rewrite length_drop; lia].
  - rewrite length_app. lia.
  - intros j Hj. rewrite drop_app_le by lia. rewrite starts_with_app; [by apply H3|rewrite length_drop; lia].
Qed.

(** Without a match only the last [|n| - 1] bytes can matter later. *)
Lemma search_app_None n a b : n <> [] -> search n a = None ->
  let k := length a - (length n - 1) in
  search n (a ++ b) = (fun d => k + d) <$> search n (drop k a ++ b).
Proof.
  intros Hn Hs k. rewrite <- drop_app_le by lia. apply search_drop; [done|rewrite length_app; lia|].
  intros j Hj. rewrite drop_app_le by lia. rewrite starts_with_app by (rewrite length_drop; lia).
  by apply search_None.
Qed.

Lemma view_round_break_app max a b r :
  view_round max a = VBreak r -> view_round max (a ++ b) = view_round max (r ++ b).
Proof.
  unfold view_round. case_bool_decide as Hn.
  - intros E. pose proof (view_header_shrinks max a) as Hr. rewrite E in Hr. by subst.
  - destruct (search sync_pattern a) as [d|] eqn:Es.
    + intros E. pose proof (view_header_shrinks max (drop d a)) as Hr. rewrite E in Hr. subst r.
      rewrite (search_app _ _ _ _ Es). apply search_Some in Es as (H1 & H2 & _).
      rewrite <- drop_app_le by done.
      rewrite (search_first _ (drop d (a ++ b)) 0); [done| |lia|lia].
      rewrite drop_0, drop_app_le by done. rewrite starts_with_app; [done|by apply starts_with_length].
    + intros [= <-]. pose proof (search_app_None _ a b Hn Es) as E. cbv zeta in E.
      set (k := length a - (length sync_pattern - 1)) in *. rewrite E.
      destruct (search sync_pattern (drop k a ++ b)) as [d|]; cbn [fmap option_fmap option_map].
      * rewrite <- drop_app_le by lia. by rewrite drop_drop.
      * f_equal. rewrite <- drop_app_le by lia. rewrite drop_drop, length_drop, length_app. f_equal. lia.
Qed.

Lemma view_round_go_app max a b :
  match view_round max a with
  | VBreak _ => True
  | VContinue v => view_round max (a ++ b) = VContinue (v ++ b)
  | VEmit fr v => view_round max (a ++ b) = VEmit fr (v ++ b)
  end.
Proof.
  unfold view_round. case_bool_decide as Hn; [by apply view_header_app; left|].
  destruct (search sync_pattern a) as [d|] eqn:Es; [|done].
  rewrite (search_app _ _ _ _ Es). apply search_Some in Es as (H1 & H2 & _).
  rewrite drop_app_le by done. by apply view_header_app; right.
Qed.

(** Scanning a prefix first, then the leftover with the rest, is scanning the whole. *)
Lemma scans_app max a b fs1 r1 fs2 r2 :
  scans max a fs1 r1 -> scans max (r1 ++ b) fs2 r2 -> scans max (a ++ b) (fs1 ++ fs2) r2.
Proof.
  intros [n E]. revert a fs1 E. induction n as [|n IH]; intros a fs1 E H2; [done|]. cbn [scan] in E.
  pose proof (view_round_go_app max a b) as Hgo.
  destruct (view_round max a) as [v|v|fr v] eqn:Ev.
  - injection E as <- <-. destruct H2 as [m H2]. exists m.
    destruct m as [|m]; [done|]. cbn [scan] in *. by rewrite (view_round_break_app _ _ _ _ Ev).
  - apply scans_step. rewrite Hgo. by apply IH.
  - destruct (scan n max v) as [[fs v']|] eqn:Es; [|done]. cbn in E. injection E as <- <-.
    apply scans_step. rewrite Hgo. exists (fs ++ fs2). split; [done|]. by apply IH.
Qed.

(** ** A stream pushed in chunks *)

Fixpoint push_all (chunks : list (list Z)) (f : StreamFramer)
    : option (Result (list (list Z)) * StreamFramer) :=
  match chunks with
  | [] => Some (Ok [], f)
  | c :: cs =>
      '(res, f) ← push_data c f;
      match res with
      | Fail e => Some (Fail e, f)
      | Ok fs =>
          '(res, f) ← push_all cs f;
          match res with
          | Fail e => Some (Fail e, f)
          | Ok fs' => Some (Ok (fs ++ fs'), f)
          end
      end
  end.

(** Between calls the framer has nothing more to extract from what it holds. *)
Definition framer_ok (f : StreamFramer) : Prop :=
  framer_wf f /\ view_round (max_buffer_size_ f) (view f) = VBreak (view f)
  /\ length (view f) <= max_buffer_size_ f.

Lemma scans_settled max v fs r : scans max v fs r -> view_round max r = VBreak r.
Proof.
  intros [n E]. revert v fs E. induction n as [|n IH]; intros v fs E; [done|]. cbn [scan] in E.
  destruct (view_round max v) as [v'|v'|fr v'] eqn:Ev; [|by eapply IH|].
  - injection E as <- <-. rewrite <- (app_nil_r v') at 1.
    rewrite <- (view_round_break_app max v [] v' Ev). by rewrite app_nil_r.
  - destruct (scan n max v') as [[fs' r']|] eqn:Es; [|done]. cbn in E. injection E as <- <-. by eapply IH.
Qed.

Lemma view_round_nil max : view_round max [] = VBreak [].
Proof.
  unfold view_round, view_header. pose proof min_header_pos. case_bool_decide as E.
  - simpl. by rewrite (proj2 (Nat.ltb_lt _ _)) by done.
  - destruct sync_pattern eqn:Es; done.
Qed.

Lemma new_framer_ok max : framer_ok (new_framer max).
Proof. split_and!; [unfold framer_wf; done|apply view_round_nil|simpl; lia]. Qed.

Lemma scans_length max v fs r : scans max v fs r -> length r <= length v.
Proof.
  intros H. destruct (scans_total max v) as (fs' & r' & H' & Hl).
  by destruct (scans_functional _ _ _ _ _ _ H H') as [_ ->].
Qed.

Lemma push_data_ok data f res f' : framer_ok f -> push_data data f = Some (res, f') -> framer_ok f'.
Proof.
  intros (W & Hs & Hl) E. pose proof (push_data_spec data f W) as Hp.
  destruct (Nat.leb_spec (length (view f) + length data) (max_buffer_size_ f)).
  - destruct Hp as (fs & v & f1 & E1 & (W1 & V1 & M1) & Hsc). rewrite E1 in E. injection E as <- <-.
    unfold framer_ok. rewrite V1, M1. split_and!; [done|by eapply scans_settled|].
    apply scans_length in Hsc. rewrite length_app in Hsc. lia.
  - destruct Hp as (e & E1 & _). rewrite E1 in E. injection E as <- <-.
    split_and!; [unfold framer_wf; simpl; lia|apply view_round_nil|simpl; lia].
Qed.

Lemma push_all_scans chunks f :
  framer_ok f -> length (view f) + length (concat chunks) <= max_buffer_size_ f ->
  exists fs f', push_all chunks f = Some (Ok fs, f') /\ framer_ok f'
    /\ scans (max_buffer_size_ f) (view f ++ concat chunks) fs (view f').
Proof.
  revert f. induction chunks as [|c cs IH]; intros f H Hl; cbn [push_all concat] in *.
  { exists [], f. split_and!; [done|done|]. rewrite app_nil_r. apply scans_step.
    destruct H as (_ & -> & _). done. }
  rewrite length_app in Hl. pose proof (push_data_spec c f ltac:(apply H)) as Hp.
  rewrite (proj2 (Nat.leb_le _ _)) in Hp by lia.
  destruct Hp as (fs & v & f1 & E1 & (W1 & V1 & M1) & Hsc). rewrite E1. cbn [mbind option_bind].
  pose proof (scans_length _ _ _ _ Hsc) as Hv. rewrite length_app in Hv.
  destruct (IH f1) as (fs2 & f2 & E2 & H2 & Hsc2); [by eapply push_data_ok|rewrite V1, M1; lia|].
  rewrite E2. cbn [mbind option_bind]. exists (fs ++ fs2), f2. split_and!; [done|done|].
  rewrite app_assoc. rewrite V1, M1 in Hsc2. by eapply scans_app.
Qed.

(** C12: Framing does not depend on how the transport cuts the stream.  From
    any state the framer can be in between calls, pushing the bytes in any
    chunks returns, concatenated, the frames that one push of all the bytes
    returns, and leaves the same unconsumed bytes (as long as the bytes fit the
    buffer limit). *)
Theorem framing_independent_of_chunks (f : StreamFramer) (chunks : list (list Z)) :
  framer_ok f -> length (view f) + length (concat chunks) <= max_buffer_size_ f ->
  exists fs f1 f2, push_all chunks f = Some (Ok fs, f1)
    /\ push_data (concat chunks) f = Some (Ok fs, f2)
    /\ view f1 = view f2 /\ framer_ok f1 /\ framer_ok f2.
Proof.
  intros H Hl. destruct (push_all_scans chunks f H Hl) as (fs & f1 & E1 & H1 & S1).
  pose proof (push_data_spec (concat chunks) f ltac:(apply H)) as Hp.
  rewrite (proj2 (Nat.leb_le _ _)) in Hp by lia.
  destruct Hp as (fs2 & v & f2 & E2 & (W2 & V2 & M2) & S2).
  destruct (scans_functional _ _ _ _ _ _ S1 S2) as [-> Ev].
  exists fs2, f1, f2. split_and!; [done|done|congruence|done|exact (push_data_ok _ _ _ _ H E2)].
Qed.

(** ** Frames that come out *)

(** What the framer guarantees of a frame: it agrees with the sync pattern as
    far as it reaches, and its header announces its own length, within the
    limits. *)
Definition frame_ok (max : nat) (fr : list Z) : Prop :=
  starts_with (take (length fr) sync_pattern) fr = true
  /\ extract_frame_length (take min_header fr) = length fr
  /\ min_header <= length fr <= max.

(** The frames lie in the stream in order, between skipped stretches. *)
Inductive embedded : list (list Z) -> list Z -> list Z -> Prop :=
  | embedded_end gap r : embedded [] r (gap ++ r)
  | embedded_frame gap fr fs r v :
      embedded fs r v -> embedded (fr :: fs) r (gap ++ fr ++ v).

Lemma embedded_skip fs r v gap : embedded fs r v -> embedded fs r (gap ++ v).
Proof. destruct 1; rewrite app_assoc; by constructor. Qed.

Lemma starts_with_take k n v : starts_with n v = true -> starts_with (take k n) (take k v) = true.
Proof.
  revert k v. induction n as [|a n IH]; intros [|k] [|b v] H; simpl in *; try done.
  apply andb_true_iff in H as [-> H]. by rewrite IH.
Qed.

Lemma view_header_emit max v fr v' :
  sync_pattern = [] \/ starts_with sync_pattern v = true ->
  view_header max v = VEmit fr v' -> frame_ok max fr /\ v = fr ++ v'.
Proof.
  intros Hs. unfold view_header. pose proof min_header_pos.
  destruct (Nat.ltb_spec (length v) min_header); [done|]. set (n := extract_frame_length _).
  destruct ((n <? min_header) || (max <? n)) eqn:En; [done|].
  apply orb_false_iff in En as [E1%Nat.ltb_ge E2%Nat.ltb_ge].
  destruct (Nat.ltb_spec (length v) n); [done|]. intros [= <- <-].
  split; [|by rewrite take_drop]. unfold frame_ok. rewrite length_take, take_take, !Nat.min_l by lia.
  split_and!; [|done|lia..]. destruct Hs as [->|Hs]; [by rewrite take_nil|by apply starts_with_take].
Qed.

Lemma view_round_embeds max v :
  match view_round max v with
  | VBreak v' | VContinue v' => exists gap, v = gap ++ v'
  | VEmit fr v' => frame_ok max fr /\ exists gap, v = gap ++ fr ++ v'
  end.
Proof.
  assert (forall w, sync_pattern = [] \/ starts_with sync_pattern w = true ->
    match view_header max w with
    | VBreak v' | VContinue v' => exists gap, w = gap ++ v'
    | VEmit fr v' => frame_ok max fr /\ w = fr ++ v'
    end) as Hh.
  { intros w Hs. pose proof (view_header_shrinks max w). destruct (view_header max w) eqn:E.
    - subst. by exists [].
    - unfold view_header in E. repeat case_match; simplify_eq. eexists. by rewrite take_drop.
    - by apply view_header_emit. }
  unfold view_round. case_bool_decide as Hn.
  - specialize (Hh v (or_introl Hn)). destruct (view_header max v); [done|done|].
    destruct Hh as [Hf ->]. split; [done|]. by exists [].
  - destruct (search sync_pattern v) as [d|] eqn:Es; [|by eexists; rewrite take_drop].
    apply search_Some in Es as (H1 & _ & _). specialize (Hh (drop d v) (or_intror H1)).
    pose proof (take_drop d v) as Ev. destruct (view_header max (drop d v)).
    + destruct Hh as [g Eg]. exists (take d v ++ g). by rewrite <- app_assoc, <- Eg.
    + destruct Hh as [g Eg]. exists (take d v ++ g). by rewrite <- app_assoc, <- Eg.
    + destruct Hh as [Hf Eg]. split; [done|]. exists (take d v). by rewrite <- Eg.
Qed.

Lemma scans_embedded max v fs r : scans max v fs r -> Forall (frame_ok max) fs /\ embedded fs r v.
Proof.
  intros [n E]. revert v fs E. induction n as [|n IH]; intros v fs E; [done|]. cbn [scan] in E.
  pose proof (view_round_embeds max v) as He. destruct (view_round max v) as [v'|v'|fr v'].
  - injection E as <- <-. destruct He as [gap ->]. split; constructor.
  - destruct He as [gap ->]. destruct (IH _ _ E). split; [done|by apply embedded_skip].
  - destruct (scan n max v') as [[fs' r']|] eqn:Es; [|done]. cbn in E. injection E as <- <-.
    destruct He as [Hf [gap ->]]. destruct (IH _ _ Es). split; [by constructor|by constructor].
Qed.

(** Every call of [push_data] ends, and does one of two things.  If the
    unconsumed bytes and the new data fit the limit, it returns frames that
    each announce their own length (at least a header, at most the limit), lie
    in the stream in order and without overlap, followed by the bytes it keeps;
    otherwise it reports [BufferOverrun] and forgets its buffer.  In both cases
    the bytes kept stay within the limit. *)
Theorem push_data_frames (data : list Z) (f : StreamFramer) :
  framer_ok f ->
  exists res f', push_data data f = Some (res, f') /\ framer_ok f'
    /\ max_buffer_size_ f' = max_buffer_size_ f
    /\ match res with
       | Ok fs => buffered_bytes f + length data <= max_buffer_size_ f
           /\ Forall (frame_ok (max_buffer_size_ f)) fs /\ embedded fs (view f') (view f ++ data)
       | Fail e => code e = BufferOverrun /\ max_buffer_size_ f < buffered_bytes f + length data
           /\ buffered_bytes f' = 0
       end.
Proof.
  intros H. pose proof (push_data_spec data f ltac:(apply H)) as Hp.
  pose proof (push_data_ok data f) as Hok.
  rewrite <- length_view by apply H.
  destruct (Nat.leb_spec (length (view f) + length data) (max_buffer_size_ f)).
  - destruct Hp as (fs & v & f' & E & (W & <- & M) & Hsc). apply scans_embedded in Hsc as [Hf He].
    exists (Ok fs), f'. split_and!; [done|by eapply Hok|done|lia|done|done].
  - destruct Hp as (e & E & Hc). exists (Fail e), (reset f).
    split_and!; [done|by eapply Hok|done..].
Qed.

(** ** A clean stream *)

(** A frame as a conforming peer sends it. *)
Definition sent_ok (L : nat) (fr : list Z) : Prop :=
  starts_with sync_pattern fr = true /\ extract_frame_length (take min_header fr) = length fr
  /\ min_header <= length fr <= L.

Lemma starts_with_search v : starts_with sync_pattern v = true -> search sync_pattern v = Some 0.
Proof. intros H. apply search_first; [by rewrite drop_0|lia|lia]. Qed.

Lemma view_round_sent max L fr v : sent_ok L fr -> L <= max -> view_round max (fr ++ v) = VEmit fr v.
Proof.
  intros (Hs & He & Hl) HL.
  assert (view_header max (fr ++ v) = VEmit fr v) as Hh.
  { unfold view_header. rewrite length_app, take_app_le by lia. rewrite He.
    rewrite !(proj2 (Nat.ltb_ge _ _)) by lia. cbn [orb]. by rewrite take_app_length, drop_app_length. }
  unfold view_round. case_bool_decide; [done|].
  rewrite starts_with_search; [by rewrite drop_0|].
  rewrite starts_with_app; [done|by apply starts_with_length].
Qed.

(** A frame of which only a part has arrived stays in the buffer. *)
Lemma view_round_partial max L p s : sent_ok L (p ++ s) -> L <= max -> s <> [] -> view_round max p = VBreak p.
Proof.
  intros (Hs & He & Hl) HL Hne. assert (0 < length s) by (destruct s; [done|simpl; lia]).
  rewrite length_app in *.
  assert (view_header max p = VBreak p) as Hh.
  { unfold view_header. destruct (Nat.ltb_spec (length p) min_header); [done|].
    rewrite take_app_le in He by done. rewrite He. rewrite !(proj2 (Nat.ltb_ge _ _)) by lia. cbn [orb].
    by rewrite (proj2 (Nat.ltb_lt _ _)) by lia. }
  unfold view_round. case_bool_decide as Hn; [done|].
  destruct (search sync_pattern p) as [d|] eqn:Es.
  - pose proof (search_app _ _ s _ Es) as E. rewrite starts_with_search in E by done.
    injection E as <-. by rewrite drop_0.
  - f_equal. rewrite (proj2 (Nat.sub_0_le _ _)); [done|].
    destruct (decide (length sync_pattern <= length p)) as [Hle|]; [|lia].
    rewrite starts_with_app in Hs by done. pose proof (search_None _ _ Es 0) as H0.
    rewrite drop_0 in H0. congruence.
Qed.

Lemma scans_clean max L frs p tail :
  Forall (sent_ok L) frs -> L <= max -> p ++ tail = concat frs ->
  exists k r, scans max p (take k frs) r /\ r ++ tail = concat (drop k frs) /\ length r <= L.
Proof.
  intros Hf HL. revert p. induction Hf as [|fr frs Hfr Hf IH]; intros p E; cbn [concat] in E.
  - apply app_eq_nil in E as [-> ->]. exists 0, []. split_and!; [|done|simpl; lia].
    apply scans_step. by rewrite view_round_nil.
  - destruct (decide (length fr <= length p)) as [Hle|Hlt].
    + assert (p = fr ++ drop (length fr) p) as Ep.
      { apply (f_equal (take (length fr))) in E. rewrite take_app_le, take_app_length in E by done.
        rewrite <- E at 1. by rewrite take_drop. }
      rewrite Ep, <- app_assoc in E. apply app_inv_head in E.
      destruct (IH _ E) as (k & r & Hs & Er & Hr). exists (S k), r. split_and!; [|done|done].
      rewrite Ep. apply scans_step. rewrite (view_round_sent max L) by done. eauto.
    + exists 0, p. destruct Hfr as (H1 & H2 & H3).
      assert (fr = p ++ drop (length p) fr) as Ef.
      { apply (f_equal (take (length p))) in E. rewrite take_app_length, take_app_le in E by lia.
        rewrite E at 1. by rewrite take_drop. }
      split_and!; [|done|lia]. apply scans_step.
      rewrite (view_round_partial max L p (drop (length p) fr)); [done|by rewrite <- Ef|done|].
      intros E0. apply (f_equal length) in E0. rewrite length_drop in E0. simpl in E0. lia.
Qed.

Lemma push_all_clean L chunks frs f :
  Forall (sent_ok L) frs -> L <= max_buffer_size_ f -> framer_ok f ->
  Forall (fun c => length c + L <= max_buffer_size_ f) chunks ->
  view f ++ concat chunks = concat frs -> length (view f) <= L ->
  exists f', push_all chunks f = Some (Ok frs, f') /\ view f' = [] /\ framer_ok f'.
Proof.
  revert frs f. induction chunks as [|c cs IH]; intros frs f Hf HL Hok Hc E Hv; cbn [push_all concat] in *.
  - rewrite app_nil_r in E. destruct Hf as [|fr frs Hfr Hf]; [by exists f|].
    cbn [concat] in E. destruct Hok as (_ & Hset & _). rewrite E in Hset.
    by rewrite (view_round_sent _ L) in Hset by done.
  - inversion_clear Hc as [|? ? Hc1 Hcs]. rewrite app_assoc in E.
    destruct (scans_clean (max_buffer_size_ f) L frs (view f ++ c) (concat cs) Hf HL E)
      as (k & r & Hs & Er & Hr).
    pose proof (push_data_spec c f ltac:(apply Hok)) as Hp. rewrite (proj2 (Nat.leb_le _ _)) in Hp by lia.
    destruct Hp as (fs & v & f1 & E1 & (W1 & V1 & M1) & Hs1).
    destruct (scans_functional _ _ _ _ _ _ Hs Hs1) as [<- <-].
    rewrite <- M1 in *. destruct (IH (drop k frs) f1) as (f2 & E2 & V2 & H2).
    + by apply Forall_drop.
    + done.
    + exact (push_data_ok _ _ _ _ Hok E1).
    + done.
    + by rewrite V1.
    + by rewrite V1.
    + exists f2. rewrite E1. cbn [mbind option_bind]. rewrite E2. cbn [mbind option_bind].
      by rewrite take_drop.
Qed.

(** Frames sent are frames received.  If a peer sends frames of at most
    [L] bytes that carry the sync pattern and announce their own length, then
    however the stream is cut into chunks (each leaving room for one frame in
    the buffer), a fresh framer returns exactly those frames, in order, and
    ends with nothing buffered. *)
Theorem clean_stream_roundtrip (L max : nat) (frs chunks : list (list Z)) :
  Forall (sent_ok L) frs -> L <= max ->
  Forall (fun c => length c + L <= max) chunks -> concat chunks = concat frs ->
  exists f, push_all chunks (new_framer max) = Some (Ok frs, f) /\ buffered_bytes f = 0.
Proof.
  intros Hf HL Hc E.
  destruct (push_all_clean L chunks frs (new_framer max)) as (f & E1 & V & W & _);
    [done|done|apply new_framer_ok|done|done|simpl; lia|].
  exists f. split; [done|]. by rewrite <- length_view, V.
Qed.
End framer.

(** A small session: two sync bytes, then the total length. *)
Definition sample_session : FrameSession := {|
  sync_pattern := [0xAA; 0x55]%Z;
  min_frame_header_size := 3;
  extract_frame_length := fun h => match h with [_; _; n] => Z.to_nat n | _ => 0 end;
|}.

Definition sample_frames : list (list Z) := [[0xAA; 0x55; 5; 1; 2]; [0xAA; 0x55; 3]]%Z.
Definition sample_chunks : list (list Z) := [[0xAA]; [0x55; 5; 1]; [2; 0xAA; 0x55; 3]]%Z.

Lemma framing_independent_of_chunks_witness :
  exists fs f1 f2, push_all (Sess := sample_session) sample_chunks (new_framer 64) = Some (Ok fs, f1)
    /\ push_data (Sess := sample_session) (concat sample_chunks) (new_framer 64) = Some (Ok fs, f2)
    /\ view f1 = view f2.
Proof.
  destruct (framing_independent_of_chunks (Sess := sample_session) (new_framer 64) sample_chunks)
    as (fs & f1 & f2 & E1 & E2 & Ev & _).
  - apply new_framer_ok.
  - simpl. lia.
  - exists fs, f1, f2. auto.
Defined.

Lemma push_data_frames_witness :
  exists res f', push_data (Sess := sample_session) [9; 0xAA; 0x55; 4; 7; 0xAA]%Z (new_framer 64) = Some (res, f')
    /\ max_buffer_size_ f' = 64.
Proof.
  destruct (push_data_frames (Sess := sample_session) [9; 0xAA; 0x55; 4; 7; 0xAA]%Z (new_framer 64))
    as (res & f' & E & _ & M & _).
  - apply new_framer_ok.
  - exists res, f'. auto.
Defined.

Lemma clean_stream_roundtrip_witness :
  Forall (sent_ok (Sess := sample_session) 5) sample_frames
  /\ exists f, push_all (Sess := sample_session) sample_chunks (new_framer 16) = Some (Ok sample_frames, f)
     /\ buffered_bytes f = 0.
Proof.
  assert (Forall (sent_ok (Sess := sample_session) 5) sample_frames) as Hf
    by (repeat constructor; vm_compute; lia).
  split; [exact Hf|].
  apply (clean_stream_roundtrip (Sess := sample_session) 5 16 sample_frames sample_chunks Hf).
  - lia.
  - repeat constructor; simpl; lia.
  - reflexivity.
Defined.
