(* ===== verification/Handler.v ===== *)
(** * HandlerRegistry

    Models [conduit/src/transceiver/handler.cpp], [handler.hpp] and the builder
    of [message_handler.hpp]: the table of message handlers and the dispatch of
    one message.  User callbacks are opaque: a callback is a name of the type
    [F], and [throws] says which invocations raise.  A dispatch returns its
    result and the invocations it made, in order. *)

From stdpp Require Import base numbers list gmap strings.
From Stdlib Require Import ZArith Lia.
From S2P Require Import Prelude.

Open Scope Z_scope.

(** [PeerId] and [type_id] by value; the default [PeerId{}] is 0. *)
Definition PeerId := Z.
Definition peer_valid (p : PeerId) : bool := negb (p =? 0).

Inductive DispatchResult := Handled | NotFound | DispatchError.

Section handlers.
Context {F Payload : Type}.

Record ErasedHandler := mkHandler { handler_fn : F; handler_type_id : Z }.

Record HandlerRegistry := mkRegistry {
  per_peer_handlers_ : gmap (PeerId * Z) ErasedHandler;
  global_handlers_ : gmap Z ErasedHandler;
  per_peer_catch_all_ : gmap PeerId F;
  catch_all_ : option F;
  raw_catch_all_ : option F;
}.

Definition new_registry : HandlerRegistry := mkRegistry ∅ ∅ ∅ None None.

(** ** The builder *)

Record MessageHandler := mkMessageHandler { mh_handlers : list ErasedHandler; mh_catch_all : option F }.

Definition new_message_handler : MessageHandler := mkMessageHandler [] None.
Definition mh_on (type_id : Z) (cb : F) (m : MessageHandler) : MessageHandler :=
  mkMessageHandler (mh_handlers m ++ [mkHandler cb type_id]) (mh_catch_all m).
Definition mh_on_group (type_ids : list Z) (cb : F) (m : MessageHandler) : MessageHandler :=
  mkMessageHandler (mh_handlers m ++ map (fun tid => mkHandler cb tid) type_ids) (mh_catch_all m).
Definition mh_on_any (cb : F) (m : MessageHandler) : MessageHandler :=
  mkMessageHandler (mh_handlers m) (Some cb).

(** ** Registration *)

Definition register_handler (peer : PeerId) (h : ErasedHandler) (r : HandlerRegistry) : HandlerRegistry :=
  mkRegistry (<[(peer, handler_type_id h) := h]> (per_peer_handlers_ r)) (global_handlers_ r)
    (per_peer_catch_all_ r) (catch_all_ r) (raw_catch_all_ r).

Definition register_handler_all (h : ErasedHandler) (r : HandlerRegistry) : HandlerRegistry :=
  mkRegistry (per_peer_handlers_ r) (<[handler_type_id h := h]> (global_handlers_ r))
    (per_peer_catch_all_ r) (catch_all_ r) (raw_catch_all_ r).

Definition unregister_handler (peer : PeerId) (type_id : Z) (r : HandlerRegistry)
    : bool * HandlerRegistry :=
  (bool_decide (is_Some (per_peer_handlers_ r !! (peer, type_id))),
   mkRegistry (delete (peer, type_id) (per_peer_handlers_ r)) (global_handlers_ r)
     (per_peer_catch_all_ r) (catch_all_ r) (raw_catch_all_ r)).

Definition unregister_handler_all (type_id : Z) (r : HandlerRegistry) : bool * HandlerRegistry :=
  (bool_decide (is_Some (global_handlers_ r !! type_id)),
   mkRegistry (per_peer_handlers_ r) (delete type_id (global_handlers_ r))
     (per_peer_catch_all_ r) (catch_all_ r) (raw_catch_all_ r)).

Definition set_catch_all_peer (peer : PeerId) (cb : F) (r : HandlerRegistry) : HandlerRegistry :=
  mkRegistry (per_peer_handlers_ r) (global_handlers_ r) (<[peer := cb]> (per_peer_catch_all_ r))
    (catch_all_ r) (raw_catch_all_ r).

Definition set_catch_all (cb : F) (r : HandlerRegistry) : HandlerRegistry :=
  mkRegistry (per_peer_handlers_ r) (global_handlers_ r) (per_peer_catch_all_ r)
    (Some cb) (raw_catch_all_ r).

Definition set_raw_catch_all (cb : F) (r : HandlerRegistry) : HandlerRegistry :=
  mkRegistry (per_peer_handlers_ r) (global_handlers_ r) (per_peer_catch_all_ r)
    (catch_all_ r) (Some cb).

Definition install_handler_peer (peer : PeerId) (m : MessageHandler) (r : HandlerRegistry) : HandlerRegistry :=
  let r := fold_left (fun r h => register_handler peer h r) (mh_handlers m) r in
  match mh_catch_all m with Some cb => set_catch_all_peer peer cb r | None => r end.

Definition install_handler (m : MessageHandler) (r : HandlerRegistry) : HandlerRegistry :=
  let r := fold_left (fun r h => register_handler_all h r) (mh_handlers m) r in
  match mh_catch_all m with Some cb => set_catch_all cb r | None => r end.

Definition remove_peer (peer : PeerId) (r : HandlerRegistry) : HandlerRegistry :=
  mkRegistry (filter (fun kv => kv.1.1 <> peer) (per_peer_handlers_ r)) (global_handlers_ r)
    (delete peer (per_peer_catch_all_ r)) (catch_all_ r) (raw_catch_all_ r).

(** ** Dispatch *)

Inductive Invocation :=
  | CallTyped (f : F) (payload : Payload)
  | CallCatchAll (f : F) (type_id : Z) (payload : Payload)
  | CallRaw (f : F) (peer : PeerId) (type_id : Z) (payload : Payload) (raw : list Z).

Variable throws : Invocation -> bool.

(** The lookup both overloads make under the shared lock. *)
Inductive Target := ToHandler (h : ErasedHandler) | ToCatchAll (f : F) | ToNobody.

Definition lookup_target (peer : PeerId) (type_id : Z) (r : HandlerRegistry) : Target :=
  match per_peer_handlers_ r !! (peer, type_id) with
  | Some h => ToHandler h
  | None =>
      match global_handlers_ r !! type_id with
      | Some h => ToHandler h
      | None =>
          match per_peer_catch_all_ r !! peer with
          | Some f => ToCatchAll f
          | None => match catch_all_ r with Some f => ToCatchAll f | None => ToNobody end
          end
      end
  end.

(** [dispatch(peer, type_id, payload)]. *)
Definition dispatch (peer : PeerId) (type_id : Z) (payload : Payload) (r : HandlerRegistry)
    : DispatchResult * list Invocation :=
  let call i := (if throws i then DispatchError else Handled, [i]) in
  match lookup_target peer type_id r with
  | ToHandler h => call (CallTyped (handler_fn h) payload)
  | ToCatchAll f => call (CallCatchAll f type_id payload)
  | ToNobody => (NotFound, [])
  end.

(** [dispatch(peer, type_id, payload, raw)]: the raw catch-all goes first, and
    when it throws the typed handler is not reached. *)
Definition dispatch_raw (peer : PeerId) (type_id : Z) (payload : Payload) (raw : list Z)
    (r : HandlerRegistry) : DispatchResult * list Invocation :=
  let target := lookup_target peer type_id r in
  let raw_calls := match raw_catch_all_ r with
                   | Some f => [CallRaw f peer type_id payload raw] | None => [] end in
  if existsb throws raw_calls then (DispatchError, raw_calls)
  else
    let call i := (if throws i then DispatchError else Handled, raw_calls ++ [i]) in
    match target with
    | ToHandler h => call (CallTyped (handler_fn h) payload)
    | ToCatchAll f => call (CallCatchAll f type_id payload)
    | ToNobody => (match raw_catch_all_ r with Some _ => Handled | None => NotFound end, raw_calls)
    end.

(** ** Registration history

    The registry after a sequence of calls, described without the maps: for
    each question dispatch asks, the last call that answers it. *)

Inductive RegOp :=
  | RegPeer (p : PeerId) (h : ErasedHandler) | RegAll (h : ErasedHandler)
  | UnregPeer (p : PeerId) (t : Z) | UnregAll (t : Z)
  | CatchPeer (p : PeerId) (f : F) | CatchAll (f : F) | RawCatchAll (f : F)
  | InstallPeer (p : PeerId) (m : MessageHandler) | InstallAll (m : MessageHandler)
  | RemovePeer (p : PeerId).

Definition run_reg (op : RegOp) (r : HandlerRegistry) : HandlerRegistry :=
  match op with
  | RegPeer p h => register_handler p h r
  | RegAll h => register_handler_all h r
  | UnregPeer p t => snd (unregister_handler p t r)
  | UnregAll t => snd (unregister_handler_all t r)
  | CatchPeer p f => set_catch_all_peer p f r
  | CatchAll f => set_catch_all f r
  | RawCatchAll f => set_raw_catch_all f r
  | InstallPeer p m => install_handler_peer p m r
  | InstallAll m => install_handler m r
  | RemovePeer p => remove_peer p r
  end.

Definition run_regs (ops : list RegOp) (r : HandlerRegistry) : HandlerRegistry :=
  fold_left (fun r op => run_reg op r) ops r.

(** The last handler of a builder for type [t], typed or group alike. *)
Definition builder_lookup (t : Z) (m : MessageHandler) : option ErasedHandler :=
  fold_left (fun acc h => if decide (handler_type_id h = t) then Some h else acc) (mh_handlers m) None.

Definition or_else {A} (o acc : option A) : option A := match o with Some _ => o | None => acc end.

Definition hist_peer (p : PeerId) (t : Z) (acc : option ErasedHandler) (op : RegOp) : option ErasedHandler :=
  match op with
  | RegPeer p' h => if decide (p' = p /\ handler_type_id h = t) then Some h else acc
  | UnregPeer p' t' => if decide (p' = p /\ t' = t) then None else acc
  | InstallPeer p' m => if decide (p' = p) then or_else (builder_lookup t m) acc else acc
  | RemovePeer p' => if decide (p' = p) then None else acc
  | _ => acc
  end.

Definition hist_all (t : Z) (acc : option ErasedHandler) (op : RegOp) : option ErasedHandler :=
  match op with
  | RegAll h => if decide (handler_type_id h = t) then Some h else acc
  | UnregAll t' => if decide (t' = t) then None else acc
  | InstallAll m => or_else (builder_lookup t m) acc
  | _ => acc
  end.

Definition hist_catch_peer (p : PeerId) (acc : option F) (op : RegOp) : option F :=
  match op with
  | CatchPeer p' f => if decide (p' = p) then Some f else acc
  | InstallPeer p' m => if decide (p' = p) then or_else (mh_catch_all m) acc else acc
  | RemovePeer p' => if decide (p' = p) then None else acc
  | _ => acc
  end.

Definition hist_catch (acc : option F) (op : RegOp) : option F :=
  match op with
  | CatchAll f => Some f
  | InstallAll m => or_else (mh_catch_all m) acc
  | _ => acc
  end.

Definition hist_raw (acc : option F) (op : RegOp) : option F :=
  match op with RawCatchAll f => Some f | _ => acc end.

(** What dispatch must do, from the history alone. *)
Definition spec_target (ops : list RegOp) (p : PeerId) (t : Z) : Target :=
  match or_else (fold_left (hist_peer p t) ops None) (fold_left (hist_all t) ops None) with
  | Some h => ToHandler h
  | None =>
      match or_else (fold_left (hist_catch_peer p) ops None) (fold_left hist_catch ops None) with
      | Some f => ToCatchAll f
      | None => ToNobody
      end
  end.

(** *** The maps implement the history *)

Lemma builder_fold_acc t hs acc :
  fold_left (fun acc h => if decide (handler_type_id h = t) then Some h else acc) hs acc
  = or_else (fold_left (fun acc h => if decide (handler_type_id h = t) then Some h else acc) hs None) acc.
Proof.
  revert acc. induction hs as [|h hs IH]; intros acc; [done|]. cbn [fold_left].
  case_decide; [|apply IH]. rewrite !(IH (Some h)). by destruct (fold_left _ hs None).
Qed.

(** Fields a fold of registrations leaves alone, and the one it extends. *)
Lemma fold_register_peer p hs r :
  let r' := fold_left (fun r h => register_handler p h r) hs r in
  (forall p' t, per_peer_handlers_ r' !! (p', t)
     = if decide (p = p') then fold_left (fun acc h => if decide (handler_type_id h = t) then Some h else acc) hs
                                  (per_peer_handlers_ r !! (p', t))
       else per_peer_handlers_ r !! (p', t))
  /\ global_handlers_ r' = global_handlers_ r /\ per_peer_catch_all_ r' = per_peer_catch_all_ r
  /\ catch_all_ r' = catch_all_ r /\ raw_catch_all_ r' = raw_catch_all_ r.
Proof.
  revert r. induction hs as [|h hs IH]; intros r; cbn [fold_left].
  { split_and!; try done. intros. by case_decide. }
  destruct (IH (register_handler p h r)) as (H1 & H2 & H3 & H4 & H5).
  split_and!; [|done..]. intros p' t. rewrite H1. cbn [register_handler per_peer_handlers_].
  case_decide as Hp; subst.
  - f_equal. case_decide as Ht; [subst; by rewrite lookup_insert_eq|].
    rewrite lookup_insert_ne; [done|congruence].
  - rewrite lookup_insert_ne; [done|congruence].
Qed.

Lemma fold_register_all hs r :
  let r' := fold_left (fun r h => register_handler_all h r) hs r in
  (forall t, global_handlers_ r' !! t
     = fold_left (fun acc h => if decide (handler_type_id h = t) then Some h else acc) hs (global_handlers_ r !! t))
  /\ per_peer_handlers_ r' = per_peer_handlers_ r /\ per_peer_catch_all_ r' = per_peer_catch_all_ r
  /\ catch_all_ r' = catch_all_ r /\ raw_catch_all_ r' = raw_catch_all_ r.
Proof.
  revert r. induction hs as [|h hs IH]; intros r; cbn [fold_left]; [done|].
  destruct (IH (register_handler_all h r)) as (H1 & H2 & H3 & H4 & H5).
  split_and!; [|done..]. intros t. rewrite H1. cbn [register_handler_all global_handlers_].
  f_equal. case_decide as Ht; [subst; by rewrite lookup_insert_eq|by rewrite lookup_insert_ne].
Qed.

Lemma peer_step op r p t :
  per_peer_handlers_ (run_reg op r) !! (p, t) = hist_peer p t (per_peer_handlers_ r !! (p, t)) op.
Proof.
  destruct op as [p' h|h|p' t'|t'|p' f|f|f|p' m|m|p']; cbn [run_reg hist_peer]; try done.
  - cbn [register_handler per_peer_handlers_]. case_decide as H.
    + destruct H as [-> ->]. by rewrite lookup_insert_eq.
    + rewrite lookup_insert_ne; [done|]. intros [= -> E]. by apply H.
  - cbn. case_decide as H; [destruct H as [-> ->]; by rewrite lookup_delete_eq|].
    rewrite lookup_delete_ne; [done|]. intros [= -> E]. by apply H.
  - unfold install_handler_peer. destruct (fold_register_peer p' (mh_handlers m) r) as (H1 & _).
    assert (per_peer_handlers_ match mh_catch_all m with
        | Some cb => set_catch_all_peer p' cb (fold_left (fun r h => register_handler p' h r) (mh_handlers m) r)
        | None => fold_left (fun r h => register_handler p' h r) (mh_handlers m) r end !! (p, t)
      = per_peer_handlers_ (fold_left (fun r h => register_handler p' h r) (mh_handlers m) r) !! (p, t)) as ->
      by (by destruct (mh_catch_all m)).
    rewrite H1. case_decide; [|done]. apply builder_fold_acc.
  - unfold install_handler. destruct (fold_register_all (mh_handlers m) r) as (_ & H2 & _).
    destruct (mh_catch_all m); cbn; by rewrite H2.
  - cbn. case_decide as H.
    + subst. apply map_lookup_filter_None. right. intros h _. simpl. auto.
    + destruct (per_peer_handlers_ r !! (p, t)) as [h|] eqn:E.
      * apply map_lookup_filter_Some. simpl. auto.
      * apply map_lookup_filter_None. auto.
Qed.

Lemma all_step op r t : global_handlers_ (run_reg op r) !! t = hist_all t (global_handlers_ r !! t) op.
Proof.
  destruct op as [p' h|h|p' t'|t'|p' f|f|f|p' m|m|p']; cbn [run_reg hist_all]; try done.
  - cbn. case_decide as H; [subst; by rewrite lookup_insert_eq|by rewrite lookup_insert_ne].
  - cbn. case_decide as H; [subst; by rewrite lookup_delete_eq|by rewrite lookup_delete_ne].
  - unfold install_handler_peer. destruct (fold_register_peer p' (mh_handlers m) r) as (_ & H2 & _).
    destruct (mh_catch_all m); cbn; by rewrite H2.
  - unfold install_handler. destruct (fold_register_all (mh_handlers m) r) as (H1 & _).
    destruct (mh_catch_all m); cbn; rewrite H1; apply builder_fold_acc.
Qed.

Lemma catch_peer_step op r p :
  per_peer_catch_all_ (run_reg op r) !! p = hist_catch_peer p (per_peer_catch_all_ r !! p) op.
Proof.
  destruct op as [p' h|h|p' t'|t'|p' f|f|f|p' m|m|p']; cbn [run_reg hist_catch_peer]; try done.
  - cbn. case_decide as H; [subst; by rewrite lookup_insert_eq|by rewrite lookup_insert_ne].
  - unfold install_handler_peer. destruct (fold_register_peer p' (mh_handlers m) r) as (_ & _ & H3 & _).
    destruct (mh_catch_all m) as [f|]; cbn; rewrite H3; case_decide as H; try done.
    + subst. by rewrite lookup_insert_eq.
    + by rewrite lookup_insert_ne.
  - unfold install_handler. destruct (fold_register_all (mh_handlers m) r) as (_ & _ & H3 & _).
    destruct (mh_catch_all m); cbn; by rewrite H3.
  - cbn. case_decide as H; [subst; by rewrite lookup_delete_eq|by rewrite lookup_delete_ne].
Qed.

Lemma catch_step op r : catch_all_ (run_reg op r) = hist_catch (catch_all_ r) op
  /\ raw_catch_all_ (run_reg op r) = hist_raw (raw_catch_all_ r) op.
Proof.
  destruct op as [p' h|h|p' t'|t'|p' f|f|f|p' m|m|p']; cbn [run_reg hist_catch hist_raw]; try done.
  - unfold install_handler_peer. destruct (fold_register_peer p' (mh_handlers m) r) as (_ & _ & _ & H4 & H5).
    destruct (mh_catch_all m); cbn; by rewrite ?H4, ?H5.
  - unfold install_handler. destruct (fold_register_all (mh_handlers m) r) as (_ & _ & _ & H4 & H5).
    destruct (mh_catch_all m); cbn; by rewrite ?H4, ?H5.
Qed.

(** A field read after a run is the fold of its history. *)
Lemma fold_history {A} (get : HandlerRegistry -> A) (h : A -> RegOp -> A) :
  (forall op r, get (run_reg op r) = h (get r) op) ->
  forall ops r, get (run_regs ops r) = fold_left h ops (get r).
Proof.
  intros H ops. unfold run_regs. induction ops as [|op ops IH]; intros r; [done|].
  cbn [fold_left]. by rewrite IH, H.
Qed.

Lemma registry_target ops p t : lookup_target p t (run_regs ops new_registry) = spec_target ops p t.
Proof.
  unfold lookup_target, spec_target.
  rewrite (fold_history (fun r => per_peer_handlers_ r !! (p, t)) (hist_peer p t))
    by (intros; apply peer_step).
  rewrite (fold_history (fun r => global_handlers_ r !! t) (hist_all t)) by (intros; apply all_step).
  rewrite (fold_history (fun r => per_peer_catch_all_ r !! p) (hist_catch_peer p))
    by (intros; apply catch_peer_step).
  rewrite (fold_history catch_all_ hist_catch) by (intros; apply catch_step).
  cbn [new_registry per_peer_handlers_ global_handlers_ per_peer_catch_all_ catch_all_].
  rewrite !lookup_empty.
  destruct (fold_left (hist_peer p t) ops None); [done|]. cbn [or_else].
  destruct (fold_left (hist_all t) ops None); [done|].
  by destruct (fold_left (hist_catch_peer p) ops None).
Qed.

(** C37: Dispatch follows the registrations.  After any sequence of
    registrations, builder installations, removals and peer clean-ups, a
    message of type [t] from peer [p] goes to the handler last registered for
    that peer and type, else to the last global handler of the type, else to
    the peer's last catch-all, else to the global one; the raw catch-all, if
    set, is called first in every case; a callback that throws turns the
    result into an error and ends the dispatch; the result is [NotFound] only
    when nothing was called. *)
Theorem dispatch_follows_registrations (ops : list RegOp) (p : PeerId) (t : Z)
    (payload : Payload) (raw : list Z) :
  let typed := match spec_target ops p t with
    | ToHandler h => [CallTyped (handler_fn h) payload]
    | ToCatchAll f => [CallCatchAll f t payload]
    | ToNobody => []
    end in
  let raws := match fold_left hist_raw ops None with
    | Some f => [CallRaw f p t payload raw]
    | None => []
    end in
  let '(res, calls) := dispatch_raw p t payload raw (run_regs ops new_registry) in
  calls = (if existsb throws raws then raws else raws ++ typed)
  /\ (res = DispatchError <-> existsb throws calls = true)
  /\ (res = NotFound <-> calls = [])
  /\ dispatch p t payload (run_regs ops new_registry)
     = (match typed with [] => NotFound | _ => if existsb throws typed then DispatchError else Handled end, typed).
Proof.
  unfold dispatch_raw, dispatch. rewrite registry_target.
  rewrite (fold_history raw_catch_all_ hist_raw) by (intros; apply catch_step).
  cbn [new_registry raw_catch_all_].
  destruct (fold_left hist_raw ops None) as [f|]; cbn [existsb orb].
  - rewrite orb_false_r. destruct (throws (CallRaw f p t payload raw)) eqn:Er.
    + cbn [existsb]. rewrite Er. destruct (spec_target ops p t); cbn [existsb]; rewrite ?orb_false_r; done.
    + destruct (spec_target ops p t); cbn [existsb app]; rewrite ?Er, ?orb_false_r; cbn [orb];
        (split_and!; intros; repeat case_match; simplify_eq; try done; congruence).
  - destruct (spec_target ops p t); cbn [existsb app]; rewrite ?orb_false_r;
      (split_and!; intros; repeat case_match; simplify_eq; try done; congruence).
Qed.

(** Cleaning up a disconnected peer forgets exactly that peer.  After
    [remove_peer p] every other peer's messages are dispatched as before, and
    messages that would come from [p] are dispatched as if nothing had ever
    been registered for it. *)
Theorem remove_peer_isolated (r : HandlerRegistry) (p q : PeerId) (t : Z) (payload : Payload) (raw : list Z) :
  dispatch_raw q t payload raw (remove_peer p r) =
    if decide (q = p) then
      dispatch_raw q t payload raw
        (mkRegistry ∅ (global_handlers_ r) ∅ (catch_all_ r) (raw_catch_all_ r))
    else dispatch_raw q t payload raw r.
Proof.
  assert (lookup_target q t (remove_peer p r) =
    if decide (q = p) then
      lookup_target q t (mkRegistry ∅ (global_handlers_ r) ∅ (catch_all_ r) (raw_catch_all_ r))
    else lookup_target q t r) as E.
  { unfold lookup_target. pose proof (peer_step (RemovePeer p) r q t) as H1.
    pose proof (catch_peer_step (RemovePeer p) r q) as H2.
    cbn [run_reg hist_peer hist_catch_peer] in H1, H2. rewrite H1, H2.
    cbn [remove_peer global_handlers_ catch_all_ per_peer_handlers_ per_peer_catch_all_].
    repeat case_decide; try congruence; by rewrite ?lookup_empty. }
  unfold dispatch_raw. rewrite E. by case_decide.
Qed.

(** In one [MessageHandler] the order of registration decides, not the
    kind: a group handler added after a typed handler of the same type replaces
    it, and a typed handler added after the group replaces the group. *)
Theorem builder_last_wins (p : PeerId) (t : Z) (typed group : F) (r : HandlerRegistry) :
  lookup_target p t (install_handler_peer p (mh_on_group [t] group (mh_on t typed new_message_handler)) r)
    = ToHandler (mkHandler group t)
  /\ lookup_target p t (install_handler_peer p (mh_on t typed (mh_on_group [t] group new_message_handler)) r)
    = ToHandler (mkHandler typed t).
Proof.
  unfold lookup_target.
  pose proof (peer_step (InstallPeer p (mh_on_group [t] group (mh_on t typed new_message_handler))) r p t) as H1.
  pose proof (peer_step (InstallPeer p (mh_on t typed (mh_on_group [t] group new_message_handler))) r p t) as H2.
  cbn [run_reg hist_peer] in H1, H2. rewrite H1, H2, !decide_True by done.
  unfold builder_lookup, mh_on, mh_on_group, new_message_handler; cbn.
  rewrite !decide_True by done. done.
Qed.
End handlers.
