(* ===== verification/Transceiver.v ===== *)
(** * Transceiver

    Models [conduit/src/transceiver/transceiver.cpp] with the data of
    [transceiver.hpp], [peer.hpp], [transceiver_stats.hpp] and
    [transceiver_config.hpp]: the orchestrator that owns the peers, feeds
    received bytes through framer and session into the dispatch queue, lets
    workers dispatch them, and sends.

    [peers_] owns the peer contexts and [peer_map_] points into them, so the
    contexts live in a heap of addresses: erasing a peer frees its address, and
    following a stale pointer is [None].  Sessions (generated code), transports
    (sockets) and user callbacks are parameters, and what the transceiver does
    to them is the list of events of a call.  Log output is not modelled. *)

From stdpp Require Import base numbers list gmap strings pretty.
From Stdlib Require Import ZArith Lia SpecFloat.
From S2P Require Import Prelude CoreError BoundedQueue StreamFramer Handler.

Open Scope Z_scope.

Inductive ConnectionState := Disconnected | Connecting | Connected | Reconnecting | ConnFailed.

(** A transport by identity; [nullptr] is 0. *)
Definition TransportId := Z.

(** What the transceiver may ask of a transport ([ITransport]). *)
Class Transports := {
  is_multi_peer : TransportId -> bool;
  is_stream_oriented : TransportId -> bool;
  transport_start : TransportId -> Result unit;
  transport_send : TransportId -> PeerId -> list Z -> Result unit;
}.

(** What it may ask of a session ([ISession]); the framing questions are the
    session's [FrameSession]. *)
Record DecodedMessage {Payload : Type} := mkDecoded {
  type_id : Z; msg_payload : Payload; raw_bytes : list Z
}.
Arguments DecodedMessage : clear implicits.
Arguments mkDecoded {_}.

Class ISession (S Payload : Type) := {
  framing : S -> FrameSession;
  decode_frame : list Z -> S -> Result (list (DecodedMessage Payload)) * S;
  encode_wrap : Z -> Payload -> S -> Result (list Z) * S;
  encode_batch : Z -> list Payload -> S -> Result (list Z) * S;
  is_receive_only : S -> Z -> bool;
  type_name : S -> Z -> string;
  session_reset : S -> S;
}.

Record TransceiverStats := mkTStats {
  messages_received : Z; messages_dispatched : Z; messages_dropped : Z;
  decode_errors : Z; handler_errors : Z; handler_timeouts : Z;
  bytes_received : Z; bytes_sent : Z;
}.
Definition tstats_zero : TransceiverStats := mkTStats 0 0 0 0 0 0 0 0.

Definition add64 (c n : Z) : Z := wrap 64 (c + n).
Definition count_received n s := mkTStats (add64 (messages_received s) n) (messages_dispatched s)
  (messages_dropped s) (decode_errors s) (handler_errors s) (handler_timeouts s) (bytes_received s) (bytes_sent s).
Definition count_dispatched s := mkTStats (messages_received s) (add64 (messages_dispatched s) 1)
  (messages_dropped s) (decode_errors s) (handler_errors s) (handler_timeouts s) (bytes_received s) (bytes_sent s).
Definition count_dropped_msg s := mkTStats (messages_received s) (messages_dispatched s)
  (add64 (messages_dropped s) 1) (decode_errors s) (handler_errors s) (handler_timeouts s) (bytes_received s) (bytes_sent s).
Definition count_decode_error s := mkTStats (messages_received s) (messages_dispatched s)
  (messages_dropped s) (add64 (decode_errors s) 1) (handler_errors s) (handler_timeouts s) (bytes_received s) (bytes_sent s).
Definition count_handler_error s := mkTStats (messages_received s) (messages_dispatched s)
  (messages_dropped s) (decode_errors s) (add64 (handler_errors s) 1) (handler_timeouts s) (bytes_received s) (bytes_sent s).
Definition count_timeout s := mkTStats (messages_received s) (messages_dispatched s)
  (messages_dropped s) (decode_errors s) (handler_errors s) (add64 (handler_timeouts s) 1) (bytes_received s) (bytes_sent s).
Definition count_bytes_in n s := mkTStats (messages_received s) (messages_dispatched s)
  (messages_dropped s) (decode_errors s) (handler_errors s) (handler_timeouts s) (add64 (bytes_received s) n) (bytes_sent s).
Definition count_bytes_out n s := mkTStats (messages_received s) (messages_dispatched s)
  (messages_dropped s) (decode_errors s) (handler_errors s) (handler_timeouts s) (bytes_received s) (add64 (bytes_sent s) n).

(** ** Double arithmetic of the back-pressure thresholds (IEEE binary64) *)

Definition double := spec_float.
Definition d_of_nat (n : nat) : double := binary_normalize 53 1024 (Z.of_nat n) 0 false.
Definition d_div (x y : double) : double := SFdiv 53 1024 x y.
Definition d_mul (x y : double) : double := SFmul 53 1024 x y.
Definition d_zero : double := S754_zero false.
Definition d_one : double := d_of_nat 1.
Definition d_0_8 : double := S754_finite false 7205759403792794 (-53).

Record QueueConfig := mkQueueConfig {
  rx_capacity : nat;
  rx_drop_policy : DropPolicy;
  back_pressure_threshold : double;
}.

Record WorkerConfig := mkWorkerConfig { thread_count : nat; handler_timeout_ms : Z }.

Section transceiver.
Context {S Payload F : Type} `{HS : ISession S Payload} `{HT : Transports}.
Variable throws : @Invocation F Payload -> bool.
Variable any0 : Payload.  (* [std::any{}] *)
Variable raw_any : list Z -> Payload.  (* [std::any(std::vector<uint8_t>)] *)
Variable format_double : double -> string.  (* [std::format] of a double *)

Record InboundMessage := mkInbound { in_peer : PeerId; decoded : DecodedMessage Payload }.

(** [InboundMessage{}]. *)
Definition inbound0 : InboundMessage := mkInbound 0 (mkDecoded 0 any0 []).

Record PeerContext := mkPeer {
  ctx_id : PeerId;
  ctx_name : string;
  remote_endpoint : string;
  session : S;
  framer : option StreamFramer;
  ctx_transport : TransportId;
  ctx_state : ConnectionState;
}.

(** [session_factory()] may return null. *)
Record MultiPeerEntry := mkEntry {
  base_id : PeerId;
  entry_name : string;
  session_factory : option S;
  entry_transport : TransportId;
  next_child : Z;
}.

Record ErrorEvent := mkErrorEvent {
  ev_peer : PeerId; ev_name : string; ev_endpoint : string; ev_error : Error
}.

(** What a call does outside the transceiver's own state. *)
Inductive Event :=
  | EvState (cb : F) (p : PeerId) (s : ConnectionState)
  | EvError (cb : F) (e : ErrorEvent)
  | EvInvoke (i : @Invocation F Payload)
  | EvSend (t : TransportId) (p : PeerId) (bytes : list Z)
  | EvPause (t : TransportId) | EvResume (t : TransportId)
  | EvStart (t : TransportId) | EvStop (t : TransportId).

Record Transceiver := mkTransceiver {
  rx_queue : QueueConfig;
  worker : WorkerConfig;
  running_ : bool;
  next_peer_id_ : Z;
  peers_ : list nat;
  heap : gmap nat PeerContext;
  next_addr : nat;
  peer_map_ : gmap PeerId nat;
  multi_peer_entries_ : list MultiPeerEntry;
  name_to_peer_ : gmap string PeerId;
  transports_ : list TransportId;
  handlers_ : @HandlerRegistry F;
  stats_ : TransceiverStats;
  state_callbacks_ : list (Z * F);
  error_callbacks_ : list (Z * F);
  next_callback_id_ : Z;
  dispatch_queue_ : option (@BoundedQueue InboundMessage);
  workers_ : nat;
}.

(** ** State, failure and events *)

Definition M (A : Type) : Type := Transceiver -> option (A * Transceiver * list Event).

Definition mret {A} (a : A) : M A := fun t => Some (a, t, []).
Definition mbind_ {A B} (m : M A) (k : A -> M B) : M B := fun t =>
  '(a, t, e1) ← m t;
  '(b, t, e2) ← k a t;
  Some (b, t, e1 ++ e2).
Definition gets {A} (f : Transceiver -> A) : M A := fun t => Some (f t, t, []).
Definition modify (f : Transceiver -> Transceiver) : M unit := fun t => Some (tt, f t, []).
Definition emit (es : list Event) : M unit := fun t => Some (tt, t, es).
Definition undefined {A} : M A := fun _ => None.
Definition mfail {A} (c : ErrorCode) (m : string) : M (Result A) := mret (Fail (new_error c m)).

Local Notation "'let*' x ':=' m 'in' k" := (mbind_ m (fun x => k))
  (at level 10, x name, m at level 100, k at level 200).
Local Notation "m ';;;' k" := (mbind_ m (fun _ => k)) (at level 100, k at level 200, right associativity).

(** Field updates. *)
Definition set_running b t := mkTransceiver (rx_queue t) (worker t) b (next_peer_id_ t) (peers_ t) (heap t)
  (next_addr t) (peer_map_ t) (multi_peer_entries_ t) (name_to_peer_ t) (transports_ t) (handlers_ t) (stats_ t)
  (state_callbacks_ t) (error_callbacks_ t) (next_callback_id_ t) (dispatch_queue_ t) (workers_ t).
Definition set_next_peer_id n t := mkTransceiver (rx_queue t) (worker t) (running_ t) n (peers_ t) (heap t)
  (next_addr t) (peer_map_ t) (multi_peer_entries_ t) (name_to_peer_ t) (transports_ t) (handlers_ t) (stats_ t)
  (state_callbacks_ t) (error_callbacks_ t) (next_callback_id_ t) (dispatch_queue_ t) (workers_ t).
Definition set_peers ps h a m t := mkTransceiver (rx_queue t) (worker t) (running_ t) (next_peer_id_ t) ps h
  a m (multi_peer_entries_ t) (name_to_peer_ t) (transports_ t) (handlers_ t) (stats_ t)
  (state_callbacks_ t) (error_callbacks_ t) (next_callback_id_ t) (dispatch_queue_ t) (workers_ t).
Definition set_entries es t := mkTransceiver (rx_queue t) (worker t) (running_ t) (next_peer_id_ t) (peers_ t) (heap t)
  (next_addr t) (peer_map_ t) es (name_to_peer_ t) (transports_ t) (handlers_ t) (stats_ t)
  (state_callbacks_ t) (error_callbacks_ t) (next_callback_id_ t) (dispatch_queue_ t) (workers_ t).
Definition set_names n t := mkTransceiver (rx_queue t) (worker t) (running_ t) (next_peer_id_ t) (peers_ t) (heap t)
  (next_addr t) (peer_map_ t) (multi_peer_entries_ t) n (transports_ t) (handlers_ t) (stats_ t)
  (state_callbacks_ t) (error_callbacks_ t) (next_callback_id_ t) (dispatch_queue_ t) (workers_ t).
Definition set_transports ts t := mkTransceiver (rx_queue t) (worker t) (running_ t) (next_peer_id_ t) (peers_ t) (heap t)
  (next_addr t) (peer_map_ t) (multi_peer_entries_ t) (name_to_peer_ t) ts (handlers_ t) (stats_ t)
  (state_callbacks_ t) (error_callbacks_ t) (next_callback_id_ t) (dispatch_queue_ t) (workers_ t).
Definition set_handlers h t := mkTransceiver (rx_queue t) (worker t) (running_ t) (next_peer_id_ t) (peers_ t) (heap t)
  (next_addr t) (peer_map_ t) (multi_peer_entries_ t) (name_to_peer_ t) (transports_ t) h (stats_ t)
  (state_callbacks_ t) (error_callbacks_ t) (next_callback_id_ t) (dispatch_queue_ t) (workers_ t).
Definition map_stats f t := mkTransceiver (rx_queue t) (worker t) (running_ t) (next_peer_id_ t) (peers_ t) (heap t)
  (next_addr t) (peer_map_ t) (multi_peer_entries_ t) (name_to_peer_ t) (transports_ t) (handlers_ t) (f (stats_ t))
  (state_callbacks_ t) (error_callbacks_ t) (next_callback_id_ t) (dispatch_queue_ t) (workers_ t).
Definition set_callbacks sc ec n t := mkTransceiver (rx_queue t) (worker t) (running_ t) (next_peer_id_ t) (peers_ t) (heap t)
  (next_addr t) (peer_map_ t) (multi_peer_entries_ t) (name_to_peer_ t) (transports_ t) (handlers_ t) (stats_ t)
  sc ec n (dispatch_queue_ t) (workers_ t).
Definition set_queue q w t := mkTransceiver (rx_queue t) (worker t) (running_ t) (next_peer_id_ t) (peers_ t) (heap t)
  (next_addr t) (peer_map_ t) (multi_peer_entries_ t) (name_to_peer_ t) (transports_ t) (handlers_ t) (stats_ t)
  (state_callbacks_ t) (error_callbacks_ t) (next_callback_id_ t) q w.
Definition set_config rc wc t := mkTransceiver rc wc (running_ t) (next_peer_id_ t) (peers_ t) (heap t)
  (next_addr t) (peer_map_ t) (multi_peer_entries_ t) (name_to_peer_ t) (transports_ t) (handlers_ t) (stats_ t)
  (state_callbacks_ t) (error_callbacks_ t) (next_callback_id_ t) (dispatch_queue_ t) (workers_ t).

(** An empty transceiver (before the configured peers are added). *)
Definition new_transceiver (rc : QueueConfig) (wc : WorkerConfig) : Transceiver :=
  mkTransceiver rc wc false 1 [] ∅ 0 ∅ [] ∅ [] new_registry tstats_zero [] [] 1 None 0.

(** ** Internal helpers *)

(** [for (attempt = 0; attempt < 256; ...)], then the unchecked fallback. *)
Fixpoint next_peer_id_loop (attempts : nat) (t : Transceiver) : PeerId * Transceiver :=
  let id := next_peer_id_ t in
  let t := set_next_peer_id (wrap 32 (id + 1)) t in
  match attempts with
  | O => (id, t)
  | Datatypes.S n =>
      if id =? 0 then next_peer_id_loop n t
      else match peer_map_ t !! id with
      | None => (id, t)
      | Some _ => next_peer_id_loop n t
      end
  end.

Definition next_peer_id : M PeerId := fun t => let '(id, t) := next_peer_id_loop 256 t in Some (id, t, []).

Definition find_peer (id : PeerId) : M (option nat) := gets (fun t => peer_map_ t !! id).
Definition deref (a : nat) : M PeerContext := fun t => c ← heap t !! a; Some (c, t, []).
Definition write_ctx (a : nat) (c : PeerContext) : M unit :=
  modify (fun t => set_peers (peers_ t) (<[a := c]> (heap t)) (next_addr t) (peer_map_ t) t).

Definition find_multi_peer_entry (tr : TransportId) : M (option MultiPeerEntry) :=
  gets (fun t => list_find (fun e => entry_transport e = tr) (multi_peer_entries_ t) ≫= fun '(_, e) => Some e).

(** [transports_.push_back] unless present. *)
Definition track_transport (tr : TransportId) : M unit :=
  modify (fun t => if bool_decide (tr ∈ transports_ t) then t else set_transports (transports_ t ++ [tr]) t).

(** [peers_.push_back(ctx); peer_map_[id] = peers_.back().get()]. *)
Definition push_peer (c : PeerContext) : M unit :=
  modify (fun t => let a := next_addr t in
    set_peers (peers_ t ++ [a]) (<[a := c]> (heap t)) (Datatypes.S a) (<[ctx_id c := a]> (peer_map_ t)) t).

Definition default_framer (tr : TransportId) : option StreamFramer :=
  if is_stream_oriented tr then Some (new_framer (Z.to_nat 1048576)) else None.

(** ** Peer management *)

Definition add_peer (name : string) (sess : option S) (tr : TransportId) : M (Result PeerId) :=
  let* run := gets running_ in
  if run : bool then mfail AlreadyRunning "Cannot add peers while transceiver is running"
  else match sess with
  | None => mfail InvalidArgument "Session must not be null"
  | Some s =>
      if tr =? 0 then mfail InvalidArgument "Transport must not be null"
      else if is_multi_peer tr then
        mfail InvalidArgument ("Single-session add_peer rejects multi-peer transport for peer '"
          +:+ name +:+ "'; use the SessionFactory overload")
      else
        let* id := next_peer_id in
        let* names := gets name_to_peer_ in
        match names !! name with
        | Some _ => mfail InvalidArgument ("Duplicate peer name '" +:+ name +:+ "'")
        | None =>
            push_peer (mkPeer id name "" s (default_framer tr) tr Disconnected) ;;;
            modify (fun t => set_names (<[name := id]> (name_to_peer_ t)) t) ;;;
            track_transport tr ;;;
            mret (Ok id)
        end
  end.

(** The [SessionFactory] overload; the factory itself is [None] when null. *)
Definition add_peer_factory (name : string) (factory : option (option S)) (tr : TransportId)
    : M (Result PeerId) :=
  let* run := gets running_ in
  if run : bool then mfail AlreadyRunning "Cannot add peers while transceiver is running"
  else match factory with
  | None => mfail InvalidArgument "Session factory must not be null"
  | Some fac =>
      if tr =? 0 then mfail InvalidArgument "Transport must not be null"
      else if negb (is_multi_peer tr) then
        mfail InvalidArgument "Session factory overload requires a multi-peer transport"
      else
        let* id := next_peer_id in
        let* names := gets name_to_peer_ in
        match names !! name with
        | Some _ => mfail InvalidArgument ("Duplicate peer name '" +:+ name +:+ "'")
        | None =>
            modify (fun t => set_entries (multi_peer_entries_ t ++ [mkEntry id name fac tr 1]) t) ;;;
            modify (fun t => set_names (<[name := id]> (name_to_peer_ t)) t) ;;;
            track_transport tr ;;;
            mret (Ok id)
        end
  end.

Definition sole_peer : M (Result PeerId) :=
  let* ps := gets peers_ in
  match ps with
  | [] => mfail PeerNotFound "No peers registered"
  | [a] => let* c := deref a in mret (Ok (ctx_id c))
  | _ => mfail MultiplePeers "Multiple peers exist; specify PeerId explicitly"
  end.

Definition peer (name : string) : M (Result PeerId) :=
  let* names := gets name_to_peer_ in
  match names !! name with
  | None => mfail PeerNotFound ("No peer named '" +:+ name +:+ "'")
  | Some id => mret (Ok id)
  end.

(** ** Handlers and callbacks *)

Definition set_handler_peer (p : PeerId) (m : @MessageHandler F) : M unit :=
  modify (fun t => set_handlers (install_handler_peer p m (handlers_ t)) t).
Definition set_handler (m : @MessageHandler F) : M unit :=
  modify (fun t => set_handlers (install_handler m (handlers_ t)) t).

(** The typed [on] and [remove_handler] overloads. *)
Definition on_peer (p : PeerId) (h : @ErasedHandler F) : M unit :=
  modify (fun t => set_handlers (register_handler p h (handlers_ t)) t).
Definition on_all (h : @ErasedHandler F) : M unit :=
  modify (fun t => set_handlers (register_handler_all h (handlers_ t)) t).
Definition remove_handler_peer (p : PeerId) (tid : Z) : M bool := fun t =>
  let '(found, h) := unregister_handler p tid (handlers_ t) in Some (found, set_handlers h t, []).
Definition remove_handler (tid : Z) : M bool := fun t =>
  let '(found, h) := unregister_handler_all tid (handlers_ t) in Some (found, set_handlers h t, []).

Definition on_state_change (cb : F) : M Z :=
  let* id := gets next_callback_id_ in
  modify (fun t => set_callbacks (state_callbacks_ t ++ [(id, cb)]) (error_callbacks_ t) (wrap 32 (id + 1)) t) ;;;
  mret id.

Definition on_error (cb : F) : M Z :=
  let* id := gets next_callback_id_ in
  modify (fun t => set_callbacks (state_callbacks_ t) (error_callbacks_ t ++ [(id, cb)]) (wrap 32 (id + 1)) t) ;;;
  mret id.

(** Erase the first entry with the id. *)
Fixpoint erase_callback (id : Z) (l : list (Z * F)) : bool * list (Z * F) :=
  match l with
  | [] => (false, [])
  | e :: l => if fst e =? id then (true, l)
              else let '(b, l') := erase_callback id l in (b, e :: l')
  end.

Definition remove_state_change (id : Z) : M bool := fun t =>
  let '(b, l) := erase_callback id (state_callbacks_ t) in
  Some (b, set_callbacks l (error_callbacks_ t) (next_callback_id_ t) t, []).

Definition remove_error_callback (id : Z) : M bool := fun t =>
  let '(b, l) := erase_callback id (error_callbacks_ t) in
  Some (b, set_callbacks (state_callbacks_ t) l (next_callback_id_ t) t, []).

(** A copy of the list is called; what a callback throws is swallowed. *)
Definition fire_error_event (e : ErrorEvent) : M unit :=
  let* cbs := gets error_callbacks_ in emit (map (fun c => EvError (snd c) e) cbs).

Definition fire_error (p : PeerId) (e : Error) : M unit :=
  let* o := find_peer p in
  match o with
  | Some a =>
      let* c := deref a in
      fire_error_event (mkErrorEvent p (ctx_name c) (remote_endpoint c) e)
  | None => fire_error_event (mkErrorEvent p "" "" e)
  end.

Definition notify_state (p : PeerId) (s : ConnectionState) : M unit :=
  let* cbs := gets state_callbacks_ in emit (map (fun c => EvState (snd c) p s) cbs).

(** ** State changes *)

Definition with_state (st : ConnectionState) (c : PeerContext) : PeerContext :=
  mkPeer (ctx_id c) (ctx_name c) (remote_endpoint c) (session c) (framer c) (ctx_transport c) st.
Definition with_session (s : S) (f : option StreamFramer) (c : PeerContext) : PeerContext :=
  mkPeer (ctx_id c) (ctx_name c) (remote_endpoint c) s f (ctx_transport c) (ctx_state c).
Definition with_endpoint (ep : string) (c : PeerContext) : PeerContext :=
  mkPeer (ctx_id c) (ctx_name c) ep (session c) (framer c) (ctx_transport c) (ctx_state c).

(** On (re)connect the session and the framer start afresh. *)
Definition reconnect (c : PeerContext) : PeerContext :=
  with_session (session_reset (session c)) (StreamFramer.reset <$> framer c) c.

Definition handle_state_changed (p : PeerId) (st : ConnectionState) : M unit :=
  (let* o := find_peer p in
   match o with
   | Some a =>
       let* c := deref a in
       let c := match st with Connected => reconnect c | _ => c end in
       write_ctx a (with_state st c)
   | None => mret tt
   end) ;;;
  notify_state p st.

(** ** Connections *)

(** The first peer of [ps] on transport [tr]. *)
Fixpoint find_transport_peer (tr : TransportId) (ps : list nat) : M (option nat) :=
  match ps with
  | [] => mret None
  | a :: ps =>
      let* c := deref a in
      if ctx_transport c =? tr then mret (Some a) else find_transport_peer tr ps
  end.

(** [entry->next_child++] on the entry [find_multi_peer_entry] returned. *)
Fixpoint bump_child (tr : TransportId) (es : list MultiPeerEntry) : list MultiPeerEntry :=
  match es with
  | [] => []
  | e :: es =>
      if entry_transport e =? tr
      then mkEntry (base_id e) (entry_name e) (session_factory e) (entry_transport e)
             (wrap 32 (next_child e + 1)) :: es
      else e :: bump_child tr es
  end.

Definition child_name (e : MultiPeerEntry) : string := entry_name e +:+ "/" +:+ pretty (next_child e).

Definition handle_peer_connected (tr : TransportId) (ep : string) : M PeerId :=
  if negb (is_multi_peer tr) then
    let* ps := gets peers_ in
    let* o := find_transport_peer tr ps in
    match o with
    | Some a => let* c := deref a in write_ctx a (with_endpoint ep c) ;;; mret (ctx_id c)
    | None => mret 0
    end
  else
    let* eo := find_multi_peer_entry tr in
    match eo with
    | None => mret 0
    | Some e =>
        let* id := next_peer_id in
        match session_factory e with
        | None =>
            fire_error_event (mkErrorEvent 0 (entry_name e) ""
              (new_error InternalError "session factory returned null")) ;;;
            mret 0
        | Some s =>
            let name := child_name e in
            modify (fun t => set_entries (bump_child tr (multi_peer_entries_ t)) t) ;;;
            push_peer (mkPeer id name ep s (default_framer tr) (entry_transport e) Connected) ;;;
            modify (fun t => set_names (<[name := id]> (name_to_peer_ t)) t) ;;;
            handle_state_changed id Connected ;;;
            mret id
        end
    end.

(** [name_to_peer_.erase] of one entry that maps to [p]; the iteration order
    of the hash map is that of [map_to_list] here. *)
Definition erase_name (p : PeerId) (m : gmap string PeerId) : gmap string PeerId :=
  match filter (fun kv => kv.2 = p) (map_to_list m) with
  | (n, _) :: _ => delete n m
  | [] => m
  end.

(** The first context in [ps] with id [p]. *)
Fixpoint find_id_peer (p : PeerId) (ps : list nat) : M (option nat) :=
  match ps with
  | [] => mret None
  | a :: ps =>
      let* c := deref a in
      if ctx_id c =? p then mret (Some a) else find_id_peer p ps
  end.

(** [peers_.erase(it)] destroys the context. *)
Definition erase_peer (p : PeerId) (a : nat) : M unit :=
  modify (fun t => set_peers (filter (fun b => b <> a) (peers_ t)) (delete a (heap t)) (next_addr t)
                     (delete p (peer_map_ t)) t).

Definition handle_peer_disconnected (p : PeerId) : M unit :=
  (let* o := find_peer p in
   match o with
   | Some a => let* c := deref a in write_ctx a (with_state Disconnected c)
   | None => mret tt
   end) ;;;
  (let* ps := gets peers_ in
   let* it := find_id_peer p ps in
   match it with
   | Some a =>
       let* c := deref a in
       let* eo := find_multi_peer_entry (ctx_transport c) in
       match eo with
       | Some _ =>
           modify (fun t => set_names (erase_name p (name_to_peer_ t)) t) ;;;
           erase_peer p a ;;;
           modify (fun t => set_handlers (remove_peer p (handlers_ t)) t)
       | None => mret tt
       end
   | None => mret tt
   end) ;;;
  notify_state p Disconnected.

(** ** Receive pipeline *)

(** Frames decoded one after the other; a frame that fails is reported and
    skipped. *)
Fixpoint decode_frames (frames : list (list Z)) (s : S)
    : list (DecodedMessage Payload) * list Error * S :=
  match frames with
  | [] => ([], [], s)
  | fr :: frames =>
      let '(res, s) := decode_frame fr s in
      let '(msgs, errs, s) := decode_frames frames s in
      match res with
      | Ok ms => (ms ++ msgs, errs, s)
      | Fail e => (msgs, with_context "decode" e :: errs, s)
      end
  end.

(** The part under the locks: new messages, deferred errors, the context. *)
Definition receive (data : list Z) (c : PeerContext)
    : option (list (DecodedMessage Payload) * list Error * PeerContext) :=
  match framer c with
  | Some f =>
      '(res, f) ← push_data (Sess := framing (session c)) data f;
      match res with
      | Fail e => Some ([], [with_context "framing" e], with_session (session c) (Some (StreamFramer.reset f)) c)
      | Ok frames =>
          let '(msgs, errs, s) := decode_frames frames (session c) in
          Some (msgs, errs, with_session s (Some f) c)
      end
  | None =>
      let '(msgs, errs, s) := decode_frames [data] (session c) in
      Some (msgs, errs, with_session s None c)
  end.

Fixpoint fire_all (es : list ErrorEvent) : M unit :=
  match es with
  | [] => mret tt
  | e :: es => fire_error_event e ;;; fire_all es
  end.

(** [dispatch_queue_->push] for each message; returns the messages left when a
    push has to wait (policy [Block]). *)
Fixpoint enqueue_all (p : PeerId) (msgs : list InboundMessage) : M (list InboundMessage) :=
  match msgs with
  | [] => mret []
  | m :: rest => fun t =>
      match dispatch_queue_ t with
      | None => None
      | Some q =>
          if negb (push_ready q) then Some (msgs, t, [])
          else
            '(ok, q) ← push inbound0 m q;
            let t := set_queue (Some q) (workers_ t) t in
            (if ok : bool then enqueue_all p rest
             else
               modify (map_stats count_dropped_msg) ;;;
               fire_error p (new_error QueueFull
                 ("dispatch queue dropped message type_id=" +:+ pretty (type_id (decoded m)))) ;;;
               enqueue_all p rest) t
      end
  end.

Definition queue_fill (t : Transceiver) : option double :=
  q ← dispatch_queue_ t;
  Some (d_div (d_of_nat (BoundedQueue.size q)) (d_of_nat (rx_capacity (rx_queue t)))).

(** Pause the peer's transport when the queue is fuller than the threshold. *)
Definition apply_back_pressure (p : PeerId) : M unit := fun t =>
  let threshold := back_pressure_threshold (rx_queue t) in
  match queue_fill t with
  | Some fill =>
      if SFltb d_zero threshold && SFleb threshold fill then
        (let* o := find_peer p in
         match o with
         | Some a => let* c := deref a in emit [EvPause (ctx_transport c)]
         | None => mret tt
         end) t
      else Some (tt, t, [])
  | None => Some (tt, t, [])
  end.

(** The tail of [handle_data_received], also taken up again when a blocked
    push can go on. *)
Definition deliver (p : PeerId) (msgs : list InboundMessage) : M (list InboundMessage) :=
  let* rest := enqueue_all p msgs in
  match rest with
  | [] => apply_back_pressure p ;;; mret []
  | _ => mret rest
  end.

Definition handle_data_received (p : PeerId) (data : list Z) : M (list InboundMessage) :=
  modify (map_stats (count_bytes_in (len data))) ;;;
  let* o := find_peer p in
  match o with
  | None => mret []
  | Some a =>
      let* c := deref a in
      let* r := (fun t => r ← receive data c; Some (r, t, [])) in
      let '(msgs, errs, c') := r in
      write_ctx a c' ;;;
      modify (map_stats (fun s => fold_left (fun s _ => count_decode_error s) errs
                                    (count_received (len msgs) s))) ;;;
      fire_all (map (mkErrorEvent p (ctx_name c) (remote_endpoint c)) errs) ;;;
      deliver p (map (mkInbound p) msgs)
  end.

(** ** Send pipeline *)

(** Encoding under the peer's lock, then one send outside the locks. *)
Definition send_with (p : PeerId) (tid : Z) (encode : S -> Result (list Z) * S) : M (Result unit) :=
  let* o := find_peer p in
  match o with
  | None => mfail PeerNotFound ("Peer " +:+ pretty p +:+ " not found")
  | Some a =>
      let* c := deref a in
      if is_receive_only (session c) tid then
        mfail DirectionViolation
          ("Cannot send receive-only message type '" +:+ type_name (session c) tid +:+ "'")
      else
        let '(res, s) := encode (session c) in
        write_ctx a (with_session s (framer c) c) ;;;
        match res with
        | Fail e => mret (Fail e)
        | Ok bytes =>
            modify (map_stats (count_bytes_out (len bytes))) ;;;
            emit [EvSend (ctx_transport c) p bytes] ;;;
            mret (transport_send (ctx_transport c) p bytes)
        end
  end.

Definition send_impl (p : PeerId) (tid : Z) (payload : Payload) : M (Result unit) :=
  let* run := gets running_ in
  if negb run then mfail NotRunning "Transceiver is not running"
  else send_with p tid (encode_wrap tid payload).

Definition send_batch_impl (p : PeerId) (tid : Z) (payloads : list Payload) : M (Result unit) :=
  let* run := gets running_ in
  if negb run then mfail NotRunning "Transceiver is not running"
  else match payloads with
  | [] => mfail InvalidArgument "Batch must contain at least one message"
  | _ => send_with p tid (encode_batch tid payloads)
  end.

Definition send_raw (p : PeerId) (tid : Z) (bytes : list Z) : M (Result unit) :=
  send_impl p tid (raw_any bytes).
Definition send_raw_batch (p : PeerId) (tid : Z) (payloads : list (list Z)) : M (Result unit) :=
  send_batch_impl p tid (map raw_any payloads).

(** The overloads for the sole peer. *)
Definition to_sole_peer (k : PeerId -> M (Result unit)) : M (Result unit) :=
  let* r := sole_peer in
  match r with Fail e => mret (Fail e) | Ok p => k p end.
Definition send_sole (tid : Z) (payload : Payload) : M (Result unit) :=
  to_sole_peer (fun p => send_impl p tid payload).
Definition send_batch_sole (tid : Z) (payloads : list Payload) : M (Result unit) :=
  to_sole_peer (fun p => send_batch_impl p tid payloads).

(** ** Queries *)

Definition is_running : M bool := gets running_.
Definition stats_reset : M unit := modify (map_stats (fun _ => tstats_zero)).

Definition peer_state (p : PeerId) : M ConnectionState :=
  let* o := find_peer p in
  match o with
  | None => mret Disconnected
  | Some a => let* c := deref a in mret (ctx_state c)
  end.
Definition peer_count : M nat := gets (fun t => length (peers_ t)).

Fixpoint ids_of (ps : list nat) : M (list PeerId) :=
  match ps with
  | [] => mret []
  | a :: ps => let* c := deref a in let* ids := ids_of ps in mret (ctx_id c :: ids)
  end.
Definition peer_ids : M (list PeerId) := let* ps := gets peers_ in ids_of ps.

(** ** Lifecycle *)

(** The worker threads are joined; what they still dispatch are steps of
    [worker_step] after the queue is closed.  (When the transceiver was not
    running, the code closes the queue before it stops the transports; closing
    has no outside effect, so the call is the same.) *)
Definition stop : M unit := fun t =>
  let stops := map EvStop (transports_ t) in
  let q := close <$> dispatch_queue_ t in
  Some (tt, set_running false (set_queue q 0 t), stops).

Fixpoint start_transports (trs : list TransportId) : M (Result unit) :=
  match trs with
  | [] => mret (Ok tt)
  | tr :: trs =>
      emit [EvStart tr] ;;;
      match transport_start tr with
      | Ok _ => start_transports trs
      | Fail e => stop ;;; mret (Fail e)
      end
  end.

Definition start : M (Result unit) :=
  let* run := gets running_ in
  if run : bool then mfail AlreadyRunning "Transceiver is already running"
  else
    let* cfg := gets rx_queue in
    let bp := back_pressure_threshold cfg in
    if negb (SFleb d_zero bp && SFleb bp d_one) then
      mfail InvalidArgument ("back_pressure_threshold must be in [0.0, 1.0], got " +:+ format_double bp)
    else
      modify (fun t =>
        let n := if Nat.eqb (thread_count (worker t)) 0 then 1%nat else thread_count (worker t) in
        set_running true (set_queue (Some (new_queue inbound0 (rx_capacity cfg) (rx_drop_policy cfg))) n t)) ;;;
      let* trs := gets transports_ in
      start_transports trs.

Definition set_queue_config (c : QueueConfig) : M unit :=
  modify (fun t => if running_ t then t else set_config c (worker t) t).
Definition set_worker_config (c : WorkerConfig) : M unit :=
  modify (fun t => if running_ t then t else set_config (rx_queue t) c t).

(** ** Worker threads *)

(** Resume every transport once the fill is below 80% of the threshold. *)
Definition release_back_pressure : M unit := fun t =>
  let threshold := back_pressure_threshold (rx_queue t) in
  match queue_fill t with
  | Some fill =>
      if SFltb d_zero threshold && SFltb fill (d_mul threshold d_0_8)
      then Some (tt, t, map EvResume (transports_ t)) else Some (tt, t, [])
  | None => Some (tt, t, [])
  end.

(** The body of [worker_loop] for one message; [elapsed_ns] is the time the
    handler took, in the clock's nanoseconds. *)
Definition process_message (elapsed_ns : Z) (m : InboundMessage) : M unit :=
  let tid := type_id (decoded m) in
  let* hs := gets handlers_ in
  let* timeout := gets (fun t => handler_timeout_ms (worker t)) in
  let '(res, calls) := dispatch_raw throws (in_peer m) tid (msg_payload (decoded m))
                         (raw_bytes (decoded m)) hs in
  emit (map EvInvoke calls) ;;;
  (if (0 <? timeout) && (timeout * 1000000 <? elapsed_ns) then
     modify (map_stats count_timeout) ;;;
     fire_error (in_peer m) (new_error CoreError.Timeout
       ("handler exceeded timeout for type_id=" +:+ pretty tid +:+ " (" +:+ pretty (elapsed_ns / 1000000)
        +:+ "ms > " +:+ pretty timeout +:+ "ms)"))
   else mret tt) ;;;
  match res with
  | Handled => modify (map_stats count_dispatched)
  | DispatchError =>
      modify (map_stats count_handler_error) ;;;
      fire_error (in_peer m) (new_error InternalError
        ("handler threw exception for type_id=" +:+ pretty tid))
  | NotFound => mret tt
  end ;;;
  release_back_pressure.

(** One round of [worker_loop] whose [pop] does not have to wait.  [false]: the
    queue is closed and drained. *)
Definition worker_step (elapsed_ns : Z) : M bool := fun t =>
  match dispatch_queue_ t with
  | None => None
  | Some q =>
      '(o, q) ← pop inbound0 q;
      let t := set_queue (Some q) (workers_ t) t in
      match o with
      | None => Some (false, t, [])
      | Some m => (process_message elapsed_ns m ;;; mret true) t
      end
  end.

(** [worker_loop] over the durations of its rounds: [false] when it left the
    loop, [true] when it is still running after the last duration. *)
Fixpoint worker_loop (durations : list Z) : M bool :=
  match durations with
  | [] => mret true
  | ns :: durations =>
      let* more := worker_step ns in
      if more : bool then worker_loop durations else mret false
  end.

(** ** Configured peers *)

Inductive TransportConfig :=
  | UdpConfig (remote_address : string) | TcpClientConfig | TcpServerConfig | SerialConfig.

Definition is_multi_peer_config (c : TransportConfig) : bool :=
  match c with
  | UdpConfig remote => String.eqb remote ""
  | TcpServerConfig => true
  | TcpClientConfig | SerialConfig => false
  end.

Record PeerConfig := mkPeerConfig {
  cfg_name : string; cfg_factory : option (option S); cfg_transport : TransportConfig
}.

Variable make_transport : TransportConfig -> TransportId.

(** Calling a null [std::function] throws: the constructor fails. *)
Fixpoint materialize_config_peers (peers : list PeerConfig) : M (Result unit) :=
  match peers with
  | [] => mret (Ok tt)
  | pc :: peers =>
      let tr := make_transport (cfg_transport pc) in
      let* res :=
        (if is_multi_peer_config (cfg_transport pc)
         then add_peer_factory (cfg_name pc) (cfg_factory pc) tr
         else match cfg_factory pc with
              | None => undefined
              | Some None => mfail InvalidArgument ("Session factory returned null for peer '" +:+ cfg_name pc +:+ "'")
              | Some (Some s) => add_peer (cfg_name pc) (Some s) tr
              end) in
      match res with
      | Fail e => mret (Fail e)
      | Ok _ => materialize_config_peers peers
      end
  end.

End transceiver.
