(* ===== verification/TransceiverInv.v ===== *)
(** * Transceiver: invariant and behaviour

    Theorems about the operations of [Transceiver]: the peer tables stay
    consistent (no pointer of [peer_map_] dangles, ids are unique), identifiers
    are fresh, received messages reach the queue in order, and the lifecycle
    operations do what the header promises. *)

From stdpp Require Import base numbers list gmap strings pretty fin_maps fin_map_dom.
From Stdlib Require Import ZArith Lia SpecFloat.
From S2P Require Import Prelude CoreError BoundedQueue StreamFramer Handler Transceiver.

Open Scope Z_scope.

Section inv.
Context {S Payload F : Type} `{HS : ISession S Payload} `{HT : Transports}.
Variable throws : @Invocation F Payload -> bool.
Variable any0 : Payload.
Variable raw_any : list Z -> Payload.
Variable format_double : double -> string.

Abbreviation T := (@Transceiver S Payload F).
Abbreviation MM A := (@M S Payload F A).

Record tables_ok (t : T) : Prop := {
  ok_nodup : NoDup (peers_ t);
  ok_owned : forall a, a ∈ peers_ t <-> is_Some (heap t !! a);
  ok_map : forall id a, peer_map_ t !! id = Some a <-> exists c, heap t !! a = Some c /\ ctx_id c = id;
  ok_addr : forall a, is_Some (heap t !! a) -> (a < next_addr t)%nat;
  ok_ids : forall a c, heap t !! a = Some c -> 0 < ctx_id c < 2 ^ 32;
  ok_framer : forall a c, heap t !! a = Some c ->
    match framer c with
    | Some f => is_stream_oriented (ctx_transport c) = true /\ framer_wf f
    | None => is_stream_oriented (ctx_transport c) = false
    end;
  ok_counter : 0 <= next_peer_id_ t < 2 ^ 32;
  ok_queue : forall q, dispatch_queue_ t = Some q -> wf q;
}.

(** ** Hoare triples for the call monad *)

Definition triple {A} (P : T -> Prop) (m : MM A) (Q : A -> T -> Prop) : Prop :=
  forall t, P t -> exists a t' e, m t = Some (a, t', e) /\ Q a t'.

Lemma triple_bind {A B} P Q R (m : MM A) (k : A -> MM B) :
  triple P m Q -> (forall a, triple (Q a) (k a) R) -> triple P (mbind_ m k) R.
Proof.
  intros Hm Hk t Ht. destruct (Hm t Ht) as (a & t1 & e1 & E1 & H1).
  destruct (Hk a t1 H1) as (b & t2 & e2 & E2 & H2).
  exists b, t2, (e1 ++ e2). unfold mbind_. rewrite E1. cbn [mbind option_bind]. by rewrite E2.
Qed.

Lemma triple_ret {A} (P : T -> Prop) (a : A) (Q : A -> T -> Prop) :
  (forall t, P t -> Q a t) -> triple P (mret a) Q.
Proof. intros H t Ht. do 3 eexists. split; [done|auto]. Qed.

Lemma triple_fail {A} (P : T -> Prop) c m (Q : Result A -> T -> Prop) :
  (forall t e, P t -> Q (Fail e) t) -> triple P (mfail c m) Q.
Proof. intros H. apply triple_ret. auto. Qed.

Lemma triple_gets {A} (P : T -> Prop) (f : T -> A) (Q : A -> T -> Prop) :
  (forall t, P t -> Q (f t) t) -> triple P (gets f) Q.
Proof. intros H t Ht. do 3 eexists. split; [done|auto]. Qed.

Lemma triple_modify (P : T -> Prop) (f : T -> T) (Q : unit -> T -> Prop) :
  (forall t, P t -> Q tt (f t)) -> triple P (modify f) Q.
Proof. intros H t Ht. do 3 eexists. split; [done|auto]. Qed.

Lemma triple_emit (P : T -> Prop) es (Q : unit -> T -> Prop) :
  (forall t, P t -> Q tt t) -> triple P (emit es) Q.
Proof. intros H t Ht. do 3 eexists. split; [done|auto]. Qed.

Lemma triple_weaken {A} (P P' : T -> Prop) (m : MM A) (Q Q' : A -> T -> Prop) :
  (forall t, P' t -> P t) -> (forall a t, Q a t -> Q' a t) -> triple P m Q -> triple P' m Q'.
Proof.
  intros HP HQ H t Ht. destruct (H t (HP t Ht)) as (a & t' & e & E & Hq).
  exists a, t', e. auto.
Qed.

Lemma triple_pure {A} (φ : Prop) (P : T -> Prop) (m : MM A) (Q : A -> T -> Prop) :
  (φ -> triple P m Q) -> triple (fun t => φ /\ P t) m Q.
Proof. intros H t [Hφ Ht]. by apply H. Qed.

Lemma triple_deref a (P : T -> Prop) :
  (forall t, P t -> is_Some (heap t !! a)) ->
  triple P (deref a) (fun c t => P t /\ heap t !! a = Some c).
Proof.
  intros H t Ht. destruct (H t Ht) as [c Ec]. exists c, t, []. unfold deref. by rewrite Ec.
Qed.

(** ** Updates that keep the tables *)

Lemma tables_ext (t t' : T) :
  peers_ t' = peers_ t -> heap t' = heap t -> peer_map_ t' = peer_map_ t -> next_addr t' = next_addr t ->
  0 <= next_peer_id_ t' < 2 ^ 32 -> (forall q, dispatch_queue_ t' = Some q -> wf q) ->
  tables_ok t -> tables_ok t'.
Proof. intros E1 E2 E3 E4 Hc Hq [? ? ? ? ? ? ? ?]. split; rewrite ?E1, ?E2, ?E3, ?E4; auto. Qed.

(** Overwriting a context with one of the same identity. *)
Lemma tables_write (t : T) a c c' :
  tables_ok t -> heap t !! a = Some c -> ctx_id c' = ctx_id c -> ctx_transport c' = ctx_transport c ->
  match framer c', framer c with
  | Some f, Some _ => framer_wf f | None, None => True | _, _ => False end ->
  tables_ok (set_peers (peers_ t) (<[a := c']> (heap t)) (next_addr t) (peer_map_ t) t).
Proof.
  intros [H1 H2 H3 H4 H5 H6 H7 H8] Ha Hid Htr Hf. split; cbn [peers_ heap peer_map_ next_addr set_peers next_peer_id_ dispatch_queue_].
  - done.
  - intros b. rewrite H2. destruct (decide (a = b)) as [<-|].
    + rewrite lookup_insert_eq, Ha. split; by eexists.
    + by rewrite lookup_insert_ne.
  - intros id b. rewrite H3. destruct (decide (a = b)) as [<-|].
    + rewrite lookup_insert_eq, Ha. split; intros (x & [= <-] & <-); eexists; split; done.
    + by rewrite lookup_insert_ne.
  - intros b. destruct (decide (a = b)) as [<-|]; [intros _; apply H4; eauto|rewrite lookup_insert_ne; auto].
  - intros b x. destruct (decide (a = b)) as [<-|].
    + rewrite lookup_insert_eq. intros [= <-]. rewrite Hid. by eapply H5.
    + rewrite lookup_insert_ne by done. apply H5.
  - intros b x. destruct (decide (a = b)) as [<-|].
    + rewrite lookup_insert_eq. intros [= <-]. specialize (H6 _ _ Ha). rewrite Htr.
      destruct (framer c'), (framer c); try done. destruct H6. done.
    + rewrite lookup_insert_ne by done. apply H6.
  - done.
  - done.
Qed.

(** A new context under a fresh id. *)
Lemma tables_push (t : T) c :
  tables_ok t -> peer_map_ t !! ctx_id c = None -> 0 < ctx_id c < 2 ^ 32 ->
  framer c = default_framer (ctx_transport c) ->
  tables_ok (set_peers (peers_ t ++ [next_addr t]) (<[next_addr t := c]> (heap t)) (Datatypes.S (next_addr t))
               (<[ctx_id c := next_addr t]> (peer_map_ t)) t).
Proof.
  intros [H1 H2 H3 H4 H5 H6 H7 H8] Hid Hr Hf.
  assert (heap t !! next_addr t = None) as Hn.
  { apply eq_None_not_Some. intros Hs. apply H4 in Hs. lia. }
  split; cbn [peers_ heap peer_map_ next_addr set_peers next_peer_id_ dispatch_queue_].
  - apply NoDup_app. split_and!; [done| |apply NoDup_singleton].
    intros a Ha. rewrite list_elem_of_singleton. intros ->. apply H2 in Ha. rewrite Hn in Ha. by destruct Ha.
  - intros a. rewrite elem_of_app, list_elem_of_singleton, H2. destruct (decide (next_addr t = a)) as [<-|].
    + rewrite lookup_insert_eq. split; [by eexists|by right].
    + rewrite lookup_insert_ne by done. split; [intros [?|?]; congruence|by left].
  - intros id a. destruct (decide (ctx_id c = id)) as [<-|Hne].
    + rewrite lookup_insert_eq. split.
      * intros [= <-]. exists c. by rewrite lookup_insert_eq.
      * intros (x & Hx & Ex). destruct (decide (next_addr t = a)) as [<-|]; [done|].
        rewrite lookup_insert_ne in Hx by done.
        assert (peer_map_ t !! ctx_id c = Some a) by (apply H3; eauto). congruence.
    + rewrite lookup_insert_ne by done. rewrite H3. split; intros (x & Hx & Ex).
      * exists x. split; [|done]. rewrite lookup_insert_ne; [done|]. intros <-. congruence.
      * exists x. split; [|done]. destruct (decide (next_addr t = a)) as [<-|].
        -- rewrite lookup_insert_eq in Hx. congruence.
        -- by rewrite lookup_insert_ne in Hx.
  - intros a. destruct (decide (next_addr t = a)) as [<-|]; [lia|]. rewrite lookup_insert_ne by done.
    intros Ha. apply H4 in Ha. lia.
  - intros a x. destruct (decide (next_addr t = a)) as [<-|].
    + rewrite lookup_insert_eq. by intros [= <-].
    + rewrite lookup_insert_ne by done. apply H5.
  - intros a x. destruct (decide (next_addr t = a)) as [<-|].
    + rewrite lookup_insert_eq. intros [= <-]. rewrite Hf. unfold default_framer.
      destruct (is_stream_oriented (ctx_transport c)) eqn:E; [|done]. split; [done|unfold framer_wf; simpl; lia].
    + rewrite lookup_insert_ne by done. apply H6.
  - done.
  - done.
Qed.

(** Destroying a context that its id points to. *)
Lemma tables_erase (t : T) p a :
  tables_ok t -> peer_map_ t !! p = Some a ->
  tables_ok (set_peers (filter (fun b => b <> a) (peers_ t)) (delete a (heap t)) (next_addr t)
               (delete p (peer_map_ t)) t).
Proof.
  intros [H1 H2 H3 H4 H5 H6 H7 H8] Hp. pose proof (proj1 (H3 p a) Hp) as (c & Hc & Ec).
  split; cbn [peers_ heap peer_map_ next_addr set_peers next_peer_id_ dispatch_queue_].
  - by apply NoDup_filter.
  - intros b. rewrite list_elem_of_filter, H2. destruct (decide (b = a)) as [->|].
    + rewrite lookup_delete_eq. split; [by intros [? _]|by intros [? ?]].
    + rewrite lookup_delete_ne by done. tauto.
  - intros id b. destruct (decide (id = p)) as [->|Hid].
    + rewrite lookup_delete_eq. split; [done|]. intros (x & Hx & Ex).
      destruct (decide (b = a)) as [->|]; [by rewrite lookup_delete_eq in Hx|].
      rewrite lookup_delete_ne in Hx by done.
      assert (peer_map_ t !! p = Some b) by (apply H3; eauto). congruence.
    + rewrite lookup_delete_ne by done. rewrite H3. split; intros (x & Hx & Ex); exists x.
      * split; [|done]. rewrite lookup_delete_ne; [done|]. intros <-. congruence.
      * split; [|done]. destruct (decide (b = a)) as [->|]; [by rewrite lookup_delete_eq in Hx|].
        by rewrite lookup_delete_ne in Hx.
  - intros b Hb. destruct (decide (b = a)) as [->|]; [rewrite lookup_delete_eq in Hb; by destruct Hb|].
    rewrite lookup_delete_ne in Hb by done. by apply H4.
  - intros b x Hx. apply lookup_delete_Some in Hx as [_ Hx]. by eapply H5.
  - intros b x Hx. apply lookup_delete_Some in Hx as [_ Hx]. by eapply H6.
  - done.
  - done.
Qed.

(** ** Identifier allocation *)

(** The ids tried from [x] on. *)
Definition tried (x : Z) (n : nat) : list Z := map (fun i => wrap 32 (x + Z.of_nat i)) (seq 0 n).

Lemma tried_cons x n : 0 <= x < 2 ^ 32 -> tried x (Datatypes.S n) = x :: tried (wrap 32 (x + 1)) n.
Proof.
  intros Hx. unfold tried. simpl. rewrite Z.add_0_r, wrap_small by done. f_equal.
  rewrite <- seq_shift, map_map. apply map_ext. intros i. unfold wrap.
  rewrite Zplus_mod_idemp_l. f_equal. lia.
Qed.

Lemma tried_nodup x n : Z.of_nat n <= 2 ^ 32 -> NoDup (tried x n).
Proof.
  intros Hn. unfold tried. apply NoDup_fmap_2_strong; [|apply NoDup_seq].
  intros i j Hi%elem_of_seq Hj%elem_of_seq E. unfold wrap in E.
  apply (f_equal (fun v => (v - (x + Z.of_nat j)) mod 2 ^ 32)) in E.
  rewrite !Zminus_mod_idemp_l, Z.sub_diag, Z.mod_0_l in E by lia.
  apply Z.mod_divide in E as [k Ek]; [|lia]. assert (k = 0) by nia. lia.
Qed.

(** The loop changes only the counter, and finds a free id unless every id it
    tried is taken or zero. *)
Lemma next_peer_id_loop_spec n (t : T) :
  0 <= next_peer_id_ t < 2 ^ 32 ->
  let '(id, t') := next_peer_id_loop n t in
  t' = set_next_peer_id (next_peer_id_ t') t /\ 0 <= next_peer_id_ t' < 2 ^ 32
  /\ (0 < id < 2 ^ 32 /\ peer_map_ t !! id = None
      \/ forall x, x ∈ tried (next_peer_id_ t) n -> x = 0 \/ is_Some (peer_map_ t !! x)).
Proof.
  revert t. induction n as [|n IH]; intros t Hc; cbn [next_peer_id_loop].
  { split; [done|]. split; [by apply wrap_range|].
    right. intros x Hx. by apply elem_of_nil in Hx. }
  set (t1 := set_next_peer_id (wrap 32 (next_peer_id_ t + 1)) t).
  assert (0 <= next_peer_id_ t1 < 2 ^ 32) as Hc1 by (apply wrap_range; lia).
  specialize (IH t1 Hc1).
  assert (next_peer_id_ t = 0 \/ is_Some (peer_map_ t !! next_peer_id_ t) ->
    let '(id, t') := next_peer_id_loop n t1 in
    t' = set_next_peer_id (next_peer_id_ t') t /\ 0 <= next_peer_id_ t' < 2 ^ 32
    /\ (0 < id < 2 ^ 32 /\ peer_map_ t !! id = None
        \/ forall x, x ∈ tried (next_peer_id_ t) (Datatypes.S n) -> x = 0 \/ is_Some (peer_map_ t !! x))) as Hretry.
  { intros Hused. destruct (next_peer_id_loop n t1) as [id t']. destruct IH as (E & Hr & Hcase).
    split; [by rewrite E|]. split; [done|]. destruct Hcase as [[? ?]|Hall]; [by left|right].
    intros x. rewrite tried_cons by done. rewrite elem_of_cons. intros [->|Hx]; [done|by apply Hall]. }
  destruct (Z.eqb_spec (next_peer_id_ t) 0) as [E0|E0]; [by apply Hretry; left|].
  change (peer_map_ t1) with (peer_map_ t).
  destruct (peer_map_ t !! next_peer_id_ t) eqn:Em; [apply Hretry; right; eauto|].
  split; [done|]. split; [done|]. left. split; [lia|done].
Qed.

(** Pigeonhole: distinct ids, all zero or taken. *)
Lemma window_size (m : gmap Z nat) (l : list Z) :
  NoDup l -> (forall x, x ∈ l -> x = 0 \/ is_Some (m !! x)) -> (length l <= 1 + base.size m)%nat.
Proof.
  intros Hl Hall.
  assert (list_to_set l ⊆ ({[0]} ∪ dom m : gset Z)) as Hsub.
  { intros x Hx%elem_of_list_to_set. apply elem_of_union.
    destruct (Hall x Hx) as [->|?]; [left; by apply elem_of_singleton|right; by apply elem_of_dom]. }
  apply subseteq_size in Hsub. rewrite size_list_to_set in Hsub by done.
  rewrite size_union_alt, size_singleton in Hsub.
  assert (dom m ∖ {[0]} ⊆ dom m) as Hd by set_solver. apply subseteq_size in Hd.
  rewrite size_dom in Hd. lia.
Qed.

(** With at most 254 live peers one of 256 consecutive ids is free. *)
Lemma next_peer_id_fresh (t : T) :
  0 <= next_peer_id_ t < 2 ^ 32 -> (base.size (peer_map_ t) <= 254)%nat ->
  exists id n, next_peer_id t = Some (id, set_next_peer_id n t, [])
    /\ 0 < id < 2 ^ 32 /\ peer_map_ t !! id = None /\ 0 <= n < 2 ^ 32.
Proof.
  intros Hc Hs. pose proof (next_peer_id_loop_spec 256 t Hc) as H. unfold next_peer_id.
  destruct (next_peer_id_loop 256 t) as [id t']. destruct H as (E & Hr & Hcase).
  exists id, (next_peer_id_ t'). rewrite <- E. split; [done|].
  destruct Hcase as [[? ?]|Hall]; [done|exfalso].
  pose proof (window_size (peer_map_ t) (tried (next_peer_id_ t) 256) (tried_nodup _ 256 ltac:(lia)) Hall) as Hw.
  unfold tried in Hw. rewrite length_map, length_seq in Hw. change PeerId with Z in Hs. lia.
Qed.

Definition live (t : T) : nat := length (peers_ t).

(** Live peers and mapped ids are the same number. *)
Lemma size_peer_map (t : T) : tables_ok t -> (base.size (peer_map_ t) <= live t)%nat.
Proof.
  intros [H1 H2 H3 H4 H5 H6 H7 H8]. unfold live. rewrite <- (length_map_to_list (peer_map_ t)).
  rewrite <- (length_fmap snd (map_to_list (peer_map_ t))). apply submseteq_length, NoDup_submseteq.
  - apply NoDup_fmap_2_strong; [|apply NoDup_map_to_list].
    intros [i a] [j b] Hi%elem_of_map_to_list Hj%elem_of_map_to_list E. simpl in E. subst b.
    apply H3 in Hi as (c & Hc & <-). apply H3 in Hj as (c' & Hc' & <-). congruence.
  - intros a (p & -> & Hp)%list_elem_of_fmap. destruct p as [i a].
    apply elem_of_map_to_list in Hp. apply H3 in Hp as (c & Hc & _). apply H2. simpl. eauto.
Qed.

(** ** Every operation keeps the tables

    [J b] is the invariant, with the dispatch queue present when [b]. *)

Definition J (b : bool) (t : T) : Prop := tables_ok t /\ (b = true -> is_Some (dispatch_queue_ t)).

Lemma J_frame b (t t' : T) :
  peers_ t' = peers_ t -> heap t' = heap t -> peer_map_ t' = peer_map_ t -> next_addr t' = next_addr t ->
  next_peer_id_ t' = next_peer_id_ t -> dispatch_queue_ t' = dispatch_queue_ t -> J b t -> J b t'.
Proof.
  intros E1 E2 E3 E4 E5 E6 [H Hq]. split; [|by rewrite E6].
  apply (tables_ext t); auto; [rewrite E5|rewrite E6]; apply H.
Qed.


Lemma J_write b (t : T) a c c' :
  J b t -> heap t !! a = Some c -> ctx_id c' = ctx_id c -> ctx_transport c' = ctx_transport c ->
  match framer c', framer c with
  | Some f, Some _ => framer_wf f | None, None => True | _, _ => False end ->
  J b (set_peers (peers_ t) (<[a := c']> (heap t)) (next_addr t) (peer_map_ t) t).
Proof. intros [H Hq] Ha Hid Htr Hf. split; [by eapply tables_write|done]. Qed.

Lemma framer_refl b (t : T) a c : J b t -> heap t !! a = Some c ->
  match framer c, framer c with Some f, Some _ => framer_wf f | None, None => True | _, _ => False end.
Proof. intros [H _] Ha. pose proof (ok_framer _ H _ _ Ha). destruct (framer c); [tauto|done]. Qed.

Lemma J_update b (t : T) a c c' :
  J b t -> heap t !! a = Some c -> ctx_id c' = ctx_id c -> ctx_transport c' = ctx_transport c ->
  framer c' = framer c ->
  J b (set_peers (peers_ t) (<[a := c']> (heap t)) (next_addr t) (peer_map_ t) t).
Proof.
  intros Hj Hc Hid Htr Hf. eapply J_write; eauto. rewrite Hf. by eapply framer_refl.
Qed.

(** Looking a peer up and following the pointer. *)
Lemma triple_with_peer {A} b p (k : nat -> PeerContext -> MM A) (none : MM A) (Q : A -> T -> Prop) :
  (forall a c, triple (fun t => J b t /\ heap t !! a = Some c /\ ctx_id c = p) (k a c) Q) ->
  triple (J b) none Q ->
  triple (J b) (mbind_ (find_peer p) (fun o => match o with
                  | Some a => mbind_ (deref a) (fun c => k a c) | None => none end)) Q.
Proof.
  intros Hk Hn. eapply triple_bind; [apply (triple_gets _ _ (fun o t => J b t /\ o = peer_map_ t !! p)); auto|].
  intros [a|]; [|by eapply triple_weaken; [| |exact Hn]; [intros ? [? _]|]].
  eapply triple_bind.
  - apply triple_deref. intros t [[H _] E]. symmetry in E. apply (ok_map _ H) in E as (c & -> & _). eauto.
  - intros c. eapply triple_weaken; [|done|apply (Hk a c)]. intros t [[Hj E] Hc]. split_and!; [done|done|].
    symmetry in E. apply (ok_map _ (proj1 Hj)) in E as (c' & Hc' & <-). congruence.
Qed.

Lemma fire_error_event_ok b e : triple (J b) (fire_error_event e) (fun _ => J b).
Proof.
  eapply triple_bind; [apply (triple_gets _ _ (fun _ => J b)); auto|]. intros cbs. by apply triple_emit.
Qed.

Lemma fire_error_ok b p e : triple (J b) (fire_error p e) (fun _ => J b).
Proof.
  apply triple_with_peer; [|apply fire_error_event_ok].
  intros a c. eapply triple_weaken; [| |apply (fire_error_event_ok b)]; [tauto|done].
Qed.

Lemma notify_state_ok b p st : triple (J b) (notify_state p st) (fun _ => J b).
Proof.
  eapply triple_bind; [apply (triple_gets _ _ (fun _ => J b)); auto|]. intros cbs. by apply triple_emit.
Qed.

Lemma handle_state_changed_ok b p st : triple (J b) (handle_state_changed p st) (fun _ => J b).
Proof.
  apply (triple_bind _ (fun _ => J b)); [|intros ?; apply notify_state_ok].
  apply triple_with_peer; [|by apply triple_ret].
  intros a c. apply triple_modify. intros t (Hj & Hc & Hid). pose proof (framer_refl b t a c Hj Hc) as Hf.
  eapply J_write; [done|done|by destruct st|by destruct st|].
  destruct st; cbn; try exact Hf. destruct (framer c); cbn; [unfold framer_wf; simpl; lia|done].
Qed.

(** Walking the owned contexts. *)
Lemma find_peer_walk_ok b (f : PeerContext -> bool) ps (walk : list nat -> MM (option nat)) :
  (forall l, walk l = match l with
     | [] => mret None
     | a :: l => mbind_ (deref a) (fun c => if f c then mret (Some a) else walk l)
     end) ->
  triple (fun t => J b t /\ Forall (fun a => is_Some (heap t !! a)) ps) (walk ps)
    (fun o t => J b t /\ match o with Some a => exists c, heap t !! a = Some c /\ f c = true | None => True end).
Proof.
  intros Hw. induction ps as [|a ps IH]; rewrite Hw.
  - apply triple_ret. tauto.
  - eapply triple_bind.
    + apply triple_deref. intros t [_ H]. by inversion H.
    + intros c. destruct (f c) eqn:E.
      * apply triple_ret. intros t [[? ?] Hc]. eauto.
      * eapply triple_weaken; [| |exact IH]; [|done]. intros t [[Hj Hf] Hc]. split; [done|]. by inversion Hf.
Qed.

Lemma peers_alive b (t : T) : J b t -> Forall (fun a => is_Some (heap t !! a)) (peers_ t).
Proof. intros [H _]. apply Forall_forall. intros a Ha. by apply (ok_owned _ H). Qed.

(** Every owned context is found by its id. *)
Lemma owned_id b (t : T) a c : J b t -> heap t !! a = Some c -> peer_map_ t !! ctx_id c = Some a.
Proof. intros [H _] Hc. apply (ok_map _ H). eauto. Qed.

Definition fresh_id (id : PeerId) (t : T) : Prop := 0 < id < 2 ^ 32 /\ peer_map_ t !! id = None.

Lemma next_peer_id_ok b :
  triple (fun t => J b t /\ (live t <= 254)%nat) next_peer_id (fun id t => J b t /\ fresh_id id t).
Proof.
  intros t [Hj Hl]. destruct Hj as [H Hq]. pose proof (size_peer_map t H) as Hs.
  destruct (next_peer_id_fresh t (ok_counter _ H) ltac:(lia)) as (id & n & E & Hr & Hf & Hn).
  exists id, (set_next_peer_id n t), []. split; [done|]. split; [|done]. split; [|done].
  apply (tables_ext t); auto. apply H.
Qed.

Lemma push_peer_ok b id c :
  ctx_id c = id -> framer c = default_framer (ctx_transport c) ->
  triple (fun t => J b t /\ fresh_id id t) (push_peer c) (fun _ => J b).
Proof.
  intros <- Hf. apply triple_modify. intros t [[H Hq] [Hr Hn]]. split; [|done]. by apply tables_push.
Qed.

Lemma modify_ok b (f : T -> T) :
  (forall t, peers_ (f t) = peers_ t /\ heap (f t) = heap t /\ peer_map_ (f t) = peer_map_ t
     /\ next_addr (f t) = next_addr t /\ next_peer_id_ (f t) = next_peer_id_ t
     /\ dispatch_queue_ (f t) = dispatch_queue_ t) ->
  triple (J b) (modify f) (fun _ => J b).
Proof.
  intros Hf. apply triple_modify. intros t. destruct (Hf t) as (?&?&?&?&?&?). by apply J_frame.
Qed.

Ltac mod_ok := apply modify_ok; intros ?; by split_and!.
Ltac step_J b := apply (triple_bind _ (fun _ => J b)); [mod_ok|intros _].

Lemma track_transport_ok b tr : triple (J b) (track_transport tr) (fun _ => J b).
Proof. apply modify_ok. intros t. case_bool_decide; by split_and!. Qed.

Lemma gets_ok {A} b (P : T -> Prop) (f : T -> A) :
  triple (fun t => J b t /\ P t) (gets f) (fun _ t => J b t /\ P t).
Proof. apply triple_gets. tauto. Qed.

Lemma fail_ok {A} b (P : T -> Prop) c m :
  triple (fun t => J b t /\ P t) (mfail c m) (fun _ : Result A => J b).
Proof. apply triple_fail. tauto. Qed.

Lemma add_peer_ok b name sess tr :
  triple (fun t => J b t /\ (live t <= 254)%nat) (add_peer name sess tr) (fun _ => J b).
Proof.
  eapply triple_bind; [apply gets_ok|]. intros [|]; [apply fail_ok|].
  destruct sess as [s|]; [|apply fail_ok]. case_match; [apply fail_ok|]. case_match; [apply fail_ok|].
  eapply triple_bind; [apply next_peer_id_ok|]. intros id.
  eapply triple_bind; [apply gets_ok|]. intros names. case_match; [apply fail_ok|].
  eapply triple_bind; [by apply push_peer_ok|]. intros ?. step_J b.
  eapply triple_bind; [apply track_transport_ok|]. intros ?. by apply triple_ret.
Qed.

Lemma add_peer_factory_ok b name fac tr :
  triple (fun t => J b t /\ (live t <= 254)%nat) (add_peer_factory name fac tr) (fun _ => J b).
Proof.
  eapply triple_bind; [apply gets_ok|]. intros [|]; [apply fail_ok|].
  destruct fac as [s|]; [|apply fail_ok]. case_match; [apply fail_ok|]. case_match; [apply fail_ok|].
  eapply triple_bind; [apply next_peer_id_ok|]. intros id.
  eapply triple_bind; [apply gets_ok|]. intros names. case_match; [apply fail_ok|].
  apply (triple_bind _ (fun _ => J b)).
  { eapply triple_weaken; [| |apply (modify_ok b)]; [tauto|done|]. intros ?. by split_and!. }
  intros _. step_J b.
  eapply triple_bind; [apply track_transport_ok|]. intros ?. by apply triple_ret.
Qed.

Lemma walk_peers_ok b (f : PeerContext -> bool) (walk : list nat -> MM (option nat)) :
  (forall l, walk l = match l with
     | [] => mret None
     | a :: l => mbind_ (deref a) (fun c => if f c then mret (Some a) else walk l)
     end) ->
  triple (J b) (mbind_ (gets peers_) walk)
    (fun o t => J b t /\ match o with Some a => exists c, heap t !! a = Some c /\ f c = true | None => True end).
Proof.
  intros Hw. apply (triple_bind _ (fun ps t => J b t /\ Forall (fun a => is_Some (heap t !! a)) ps)).
  - apply triple_gets. intros t Hj. split; [done|by eapply peers_alive].
  - intros ps. by apply find_peer_walk_ok.
Qed.

(** The monad laws the re-associations below need. *)
Lemma triple_assoc {A B C} P (m : MM A) (k : A -> MM B) (h : B -> MM C) Q :
  triple P (mbind_ (mbind_ m k) h) Q -> triple P (mbind_ m (fun a => mbind_ (k a) h)) Q.
Proof.
  intros H t Ht. destruct (H t Ht) as (c & t' & e & E & Hq). exists c, t', e. split; [|done].
  revert E. unfold mbind_. destruct (m t) as [[[a t1] e1]|]; [|done]. cbn [mbind option_bind].
  destruct (k a t1) as [[[x t2] e2]|]; [|done]. cbn [mbind option_bind].
  destruct (h x t2) as [[[y t3] e3]|]; [|done]. cbn [mbind option_bind].
  intros [= <- <- <-]. by rewrite app_assoc.
Qed.


Lemma found_entry_transport tr (t : T) e :
  list_find (fun e => entry_transport e = tr) (multi_peer_entries_ t) ≫= (fun '(_, e) => Some e) = Some e ->
  entry_transport e = tr.
Proof.
  destruct (list_find _ _) as [[i x]|] eqn:E; [|done]. intros [= <-]. by apply list_find_Some in E as (_ & ? & _).
Qed.

Lemma handle_peer_connected_ok b tr ep :
  triple (fun t => J b t /\ (live t <= 254)%nat) (handle_peer_connected tr ep) (fun _ => J b).
Proof.
  unfold handle_peer_connected. destruct (negb (is_multi_peer tr)).
  - apply (triple_weaken (J b) _ _ (fun _ => J b)); [tauto|done|]. apply triple_assoc.
    eapply triple_bind; [apply (walk_peers_ok b (fun c => ctx_transport c =? tr)); by intros []|].
    intros [a|]; [|apply triple_ret; tauto].
    eapply triple_bind; [apply triple_deref; intros t [_ (c & -> & _)]; eauto|]. intros c.
    apply (triple_bind _ (fun _ => J b)); [|intros _; by apply triple_ret].
    apply triple_modify. intros t [[Hj _] Hc]. by eapply J_update.
  - apply (triple_bind _ (fun o t => (forall e, o = Some e -> entry_transport e = tr) /\ J b t /\ (live t <= 254)%nat)).
    { apply triple_gets. intros t Hj. split; [|done]. intros e He. by eapply found_entry_transport. }
    intros o. apply triple_pure. intros He.
    destruct o as [e|]; [specialize (He e eq_refl)|apply triple_ret; tauto].
    eapply triple_bind; [apply next_peer_id_ok|]. intros id. destruct (session_factory e) as [s|].
    + apply (triple_bind _ (fun _ t => J b t /\ fresh_id id t)).
      { apply triple_modify. intros t [Hj Hf]. split; [|done]. by apply (J_frame b t). }
      intros _. eapply triple_bind; [apply push_peer_ok; [done|simpl; by rewrite He]|]. intros ?. step_J b.
      eapply triple_bind; [apply handle_state_changed_ok|]. intros ?. by apply triple_ret.
    + apply (triple_bind _ (fun _ => J b)); [|intros _; by apply triple_ret].
      eapply triple_weaken; [| |apply (fire_error_event_ok b)]; [tauto|done].
Qed.


Lemma erase_peer_ok b p a :
  triple (fun t => J b t /\ peer_map_ t !! p = Some a) (erase_peer p a) (fun _ => J b).
Proof.
  apply triple_modify. intros t [[H Hq] Hp]. split; [by apply tables_erase|done].
Qed.

Lemma handle_peer_disconnected_ok b p : triple (J b) (handle_peer_disconnected p) (fun _ => J b).
Proof.
  apply (triple_bind _ (fun _ => J b)); [|intros _; apply (triple_bind _ (fun _ => J b)); [|intros _; apply notify_state_ok]].
  - apply triple_with_peer; [|by apply triple_ret].
    intros a c. apply triple_modify. intros t (Hj & Hc & Hid).
    by eapply J_update.
  - apply triple_assoc. eapply triple_bind; [apply (walk_peers_ok b (fun c => ctx_id c =? p)); by intros []|].
    intros [a|]; [|apply triple_ret; tauto].
    eapply triple_bind; [apply triple_deref; intros t [_ (c & -> & _)]; eauto|]. intros c.
    apply (triple_bind _ (fun _ t => J b t /\ peer_map_ t !! p = Some a)).
    { apply triple_gets. intros t [[Hj (c' & Hc' & E)] Hc]. split; [done|].
      apply Z.eqb_eq in E as <-. by eapply owned_id. }
    intros [e|]; [|apply triple_ret; tauto].
    apply (triple_bind _ (fun _ t => J b t /\ peer_map_ t !! p = Some a)).
    { apply triple_modify. intros t [Hj Hp]. split; [by apply (J_frame b t)|done]. }
    intros _. eapply triple_bind; [apply erase_peer_ok|]. intros ?. mod_ok.
Qed.

Lemma sole_peer_ok b : triple (J b) sole_peer (fun _ => J b).
Proof.
  apply (triple_bind _ (fun ps t => J b t /\ Forall (fun a => is_Some (heap t !! a)) ps)).
  - apply triple_gets. intros t Hj. split; [done|by eapply peers_alive].
  - intros [|a [|? ?]]; [apply fail_ok| |apply fail_ok].
    eapply triple_bind; [apply triple_deref; intros t [_ H]; by inversion H|]. intros c. apply triple_ret. tauto.
Qed.

Lemma ids_of_pure ps (t : T) ids t' e : ids_of ps t = Some (ids, t', e) -> t' = t.
Proof.
  revert ids t' e. induction ps as [|a ps IH]; simpl; intros ids t' e E; [by inversion E|].
  unfold mbind_, deref, mret in *. destruct (heap t !! a); [|done]. cbn [mbind option_bind] in E.
  destruct (ids_of ps t) as [[[ids1 t1] e1]|] eqn:E1; [|done]. cbn [mbind option_bind] in E.
  inversion E; subst. by eapply IH.
Qed.

Lemma ids_of_ok b ps :
  triple (fun t => J b t /\ Forall (fun a => is_Some (heap t !! a)) ps) (ids_of ps)
    (fun ids t => J b t /\ Forall2 (fun a id => exists c, heap t !! a = Some c /\ ctx_id c = id) ps ids).
Proof.
  induction ps as [|a ps IH]; [apply triple_ret; intros t [? _]; split; [done|constructor]|].
  cbn [ids_of]. eapply triple_bind; [apply triple_deref; intros t [_ H]; by inversion H|]. intros c t [[Hj Hf] Hc].
  destruct (IH t) as (ids & t' & e & E & Hj' & H2); [split; [done|by inversion Hf]|].
  pose proof (ids_of_pure _ _ _ _ _ E) as ->.
  exists (ctx_id c :: ids), t, (e ++ []). unfold mbind_. rewrite E. cbn [mbind option_bind]. split; [done|].
  split; [done|]. constructor; [eauto|done].
Qed.

Lemma peer_ids_ok b : triple (J b) peer_ids (fun _ => J b).
Proof.
  apply (triple_bind _ (fun ps t => J b t /\ Forall (fun a => is_Some (heap t !! a)) ps)).
  - apply triple_gets. intros t Hj. split; [done|by eapply peers_alive].
  - intros ps. eapply triple_weaken; [| |apply (ids_of_ok b)]; [by intros t|by intros ? t []].
Qed.

Lemma send_with_ok b p tid enc : triple (J b) (send_with p tid enc) (fun _ => J b).
Proof.
  apply triple_with_peer; [|by apply triple_fail]. intros a c.
  case_match; [apply fail_ok|]. destruct (enc (session c)) as [res s].
  apply (triple_bind _ (fun _ => J b)).
  { apply triple_modify. intros t (Hj & Hc & _). by eapply J_update. }
  intros _. destruct res as [bytes|e]; [|by apply triple_ret]. step_J b.
  apply (triple_bind _ (fun _ => J b)); [by apply triple_emit|]. intros _. by apply triple_ret.
Qed.

Lemma peer_state_ok b p : triple (J b) (peer_state p) (fun _ => J b).
Proof. apply triple_with_peer; [|by apply triple_ret]. intros a c. apply triple_ret. tauto. Qed.


(** ** The receive pipeline *)

Lemma receive_ok data c :
  match framer c with Some f => framer_wf f | None => True end ->
  exists msgs errs c', receive data c = Some (msgs, errs, c')
    /\ ctx_id c' = ctx_id c /\ ctx_transport c' = ctx_transport c
    /\ match framer c', framer c with Some f, Some _ => framer_wf f | None, None => True | _, _ => False end.
Proof.
  intros Hf. unfold receive. destruct (framer c) as [f|] eqn:Ef.
  - pose proof (push_data_spec (Sess := framing (session c)) data f Hf) as Hp. case_match.
    + destruct Hp as (fs & v & f' & E & (Hw & _) & _). rewrite E. cbn [mbind option_bind].
      destruct (decode_frames fs (session c)) as [[msgs errs] s]. by exists msgs, errs, (with_session s (Some f') c).
    + destruct Hp as (e & E & _). rewrite E. cbn [mbind option_bind].
      do 3 eexists. split_and!; [done|done|done|unfold framer_wf; simpl; lia].
  - destruct (decode_frames [data] (session c)) as [[msgs errs] s]. by exists msgs, errs, (with_session s None c).
Qed.

Lemma fire_all_ok b es : triple (J b) (fire_all es) (fun _ => J b).
Proof.
  induction es as [|e es IH]; [by apply triple_ret|].
  apply (triple_bind _ (fun _ => J b)); [apply fire_error_event_ok|by intros _].
Qed.

Lemma J_set_queue (t : T) q w : tables_ok t -> wf q -> J true (set_queue (Some q) w t).
Proof.
  intros H Hq. split; [|by eexists]. apply (tables_ext t); auto; [apply H|]. by intros ? [= <-].
Qed.

(** A push that need not wait returns, and is the queue's abstract push. *)
Lemma push_spec x (q : @BoundedQueue InboundMessage) : wf q -> push_ready q = true ->
  exists ok q', push (inbound0 any0) x q = Some (ok, q') /\ wf q' /\ fifo_push x (abs (inbound0 any0) q) = (ok, abs (inbound0 any0) q').
Proof.
  intros Hq Hr. rewrite push_try_push by done.
  destruct (try_push_step (inbound0 any0) x q (QTryPush x) Hq) as (r & q' & E & Hw & Ef & _); [done|].
  unfold out in E. destruct (try_push (inbound0 any0) x q) as [[ok q1]|]; [|done]. cbn in E. injection E as <- <-.
  exists ok, q1. split; [done|]. split; [done|]. simpl in Ef.
  destruct (fifo_push x (abs (inbound0 any0) q)) as [ok' f']. congruence.
Qed.

Lemma enqueue_all_ok p msgs : triple (J true) (enqueue_all any0 p msgs) (fun _ => J true).
Proof.
  induction msgs as [|m msgs IH]; [by apply triple_ret|]. intros t [H Hq]. cbn [enqueue_all].
  destruct (Hq eq_refl) as [q Eq]. rewrite Eq. destruct (push_ready q) eqn:Er; cbn [negb].
  - destruct (push_spec m q (ok_queue _ H _ Eq) Er) as (ok & q' & E & Hw & _). rewrite E. cbn [mbind option_bind].
    pose proof (J_set_queue t q' (workers_ t) H Hw) as Hj. destruct ok; [by apply IH|].
    revert Hj. generalize (set_queue (Some q') (workers_ t) t).
    change (triple (J true) (mbind_ (modify (map_stats count_dropped_msg)) (fun _ =>
      mbind_ (fire_error p (new_error QueueFull
        ("dispatch queue dropped message type_id=" +:+ pretty (type_id (decoded m))))) (fun _ => enqueue_all any0 p msgs)))
      (fun _ => J true)).
    step_J true. apply (triple_bind _ (fun _ => J true)); [apply fire_error_ok|by intros _].
  - exists (m :: msgs), t, []. split; [done|]. by split.
Qed.

Lemma apply_back_pressure_ok b p : triple (J b) (apply_back_pressure p) (fun _ => J b).
Proof.
  intros t Hj. unfold apply_back_pressure. destruct (queue_fill t); [|by do 3 eexists].
  case_match; [|by do 3 eexists]. revert t Hj H.
  assert (triple (J b) (mbind_ (find_peer p) (fun o => match o with
    | Some a => mbind_ (deref a) (fun c => emit [EvPause (ctx_transport c)]) | None => mret tt end)) (fun _ => J b)) as Ht.
  { apply triple_with_peer; [|by apply triple_ret]. intros a c. apply triple_emit. tauto. }
  intros t Hj _. by apply Ht.
Qed.

Lemma deliver_ok p msgs : triple (J true) (deliver any0 p msgs) (fun _ => J true).
Proof.
  eapply triple_bind; [apply enqueue_all_ok|]. intros [|]; [|by apply triple_ret].
  apply (triple_bind _ (fun _ => J true)); [apply apply_back_pressure_ok|]. intros _. by apply triple_ret.
Qed.

Lemma handle_data_received_ok p data : triple (J true) (handle_data_received any0 p data) (fun _ => J true).
Proof.
  unfold handle_data_received. step_J true. apply triple_with_peer; [|by apply triple_ret]. intros a c.
  apply (triple_bind _ (fun r t => J true t /\ exists c0, heap t !! a = Some c0 /\ ctx_id r.2 = ctx_id c0
    /\ ctx_transport r.2 = ctx_transport c0
    /\ match framer r.2, framer c0 with Some f, Some _ => framer_wf f | None, None => True | _, _ => False end)).
  - intros t (Hj & Hc & _). destruct (receive_ok data c) as (msgs & errs & c' & E & H1 & H2 & H3).
    { pose proof (framer_refl _ _ _ _ Hj Hc) as H. by destruct (framer c). }
    exists (msgs, errs, c'), t, []. rewrite E. split; [done|]. split; [done|]. eauto.
  - intros [[msgs errs] c']. simpl. apply (triple_bind _ (fun _ => J true)).
    { apply triple_modify. intros t (Hj & c0 & Hc & H1 & H2 & H3). by eapply J_write. }
    intros _. step_J true. apply (triple_bind _ (fun _ => J true)); [apply fire_all_ok|]. intros _. apply deliver_ok.
Qed.

(** ** Workers and lifecycle *)

Lemma process_message_ok b ns m : triple (J b) (process_message throws ns m) (fun _ => J b).
Proof.
  apply (triple_bind _ (fun _ => J b)); [by apply triple_gets|]. intros hs.
  apply (triple_bind _ (fun _ => J b)); [by apply triple_gets|]. intros timeout.
  destruct (dispatch_raw _ _ _ _ _ _) as [res calls].
  apply (triple_bind _ (fun _ => J b)); [by apply triple_emit|]. intros _.
  apply (triple_bind _ (fun _ => J b)).
  { case_match; [|by apply triple_ret]. step_J b. apply fire_error_ok. }
  intros _. apply (triple_bind _ (fun _ => J b)).
  { destruct res; [mod_ok|by apply triple_ret|]. step_J b. apply fire_error_ok. }
  intros _ t Ht. unfold release_back_pressure. repeat case_match; by do 3 eexists.
Qed.

Lemma worker_step_ok ns : triple (J true) (worker_step throws any0 ns) (fun _ => J true).
Proof.
  intros t [H Hq]. unfold worker_step. destruct (Hq eq_refl) as [q Eq]. rewrite Eq. unfold pop.
  destruct (try_pop_spec (inbound0 any0) q (ok_queue _ H _ Eq)) as (q' & E & Hw & _). rewrite E. cbn [mbind option_bind].
  pose proof (J_set_queue t q' (workers_ t) H Hw) as Hj. destruct (head _) as [m|]; [|by do 3 eexists].
  revert Hj. apply (triple_bind _ (fun _ => J true)); [apply process_message_ok|intros _; by apply triple_ret].
Qed.

Lemma stop_ok b : triple (J b) stop (fun _ => J b).
Proof.
  intros t [H Hq]. do 3 eexists. split; [done|]. split.
  - apply (tables_ext t); auto; [apply H|]. simpl. intros q'. destruct (dispatch_queue_ t) as [q|] eqn:Eq; [|done].
    intros [= <-]. pose proof (ok_queue _ H _ Eq) as [? ? ? ?]. by split.
  - simpl. intros Hb. destruct (Hq Hb) as [q ->]. by eexists.
Qed.

Lemma start_transports_ok b trs : triple (J b) (start_transports trs) (fun _ => J b).
Proof.
  induction trs as [|tr trs IH]; [by apply triple_ret|].
  apply (triple_bind _ (fun _ => J b)); [by apply triple_emit|]. intros _.
  destruct (transport_start tr); [done|].
  apply (triple_bind _ (fun _ => J b)); [apply stop_ok|]. intros _. by apply triple_ret.
Qed.


Lemma start_ok b : triple (J b) (start any0 format_double) (fun _ => J b).
Proof.
  apply (triple_bind _ (fun _ => J b)); [by apply triple_gets|]. intros [|]; [by apply triple_fail|].
  apply (triple_bind _ (fun _ => J b)); [by apply triple_gets|]. intros cfg. cbv zeta.
  match goal with |- context [if ?c then _ else _] => destruct c end; [by apply triple_fail|].
  apply (triple_bind _ (fun _ => J b)).
  { apply triple_modify. intros t [Ht Hq]. split; [|intros _; by eexists].
    apply (tables_ext t); auto; [apply Ht|]. simpl. intros q [= <-]. apply wf_new. }
  intros _. apply (triple_bind _ (fun _ => J b)); [by apply triple_gets|]. intros trs. apply start_transports_ok.
Qed.

(** ** Calls on a transceiver *)

(** Everything a user, a transport's I/O thread or a worker may call. *)
Inductive TCall :=
  | CAddPeer (name : string) (sess : option S) (tr : TransportId)
  | CAddPeerFactory (name : string) (factory : option (option S)) (tr : TransportId)
  | CSolePeer | CPeer (name : string) | CPeerState (p : PeerId) | CPeerIds
  | CSetHandler (m : @MessageHandler F) | CSetHandlerPeer (p : PeerId) (m : @MessageHandler F)
  | COn (p : PeerId) (h : @ErasedHandler F) | COnAll (h : @ErasedHandler F)
  | CRemoveHandler (p : PeerId) (tid : Z) | CRemoveHandlerAll (tid : Z) | CStatsReset
  | COnStateChange (cb : F) | COnError (cb : F) | CRemoveStateChange (id : Z) | CRemoveError (id : Z)
  | CSetQueueConfig (c : QueueConfig) | CSetWorkerConfig (c : WorkerConfig)
  | CStart | CStop
  | CSend (p : PeerId) (tid : Z) (payload : Payload) | CSendBatch (p : PeerId) (tid : Z) (payloads : list Payload)
  | CSendRaw (p : PeerId) (tid : Z) (bytes : list Z) | CSendRawBatch (p : PeerId) (tid : Z) (payloads : list (list Z))
  | CSendSole (tid : Z) (payload : Payload) | CSendBatchSole (tid : Z) (payloads : list Payload)
  | CConnected (tr : TransportId) (ep : string) | CDisconnected (p : PeerId)
  | CStateChanged (p : PeerId) (st : ConnectionState)
  | CData (p : PeerId) (data : list Z) | CDeliver (p : PeerId) (msgs : list (@InboundMessage Payload))
  | CWorker (elapsed_ns : Z).

Definition ignore {A} (m : MM A) : MM unit := mbind_ m (fun _ => mret tt).

Definition call (c : TCall) : MM unit :=
  match c with
  | CAddPeer name sess tr => ignore (add_peer name sess tr)
  | CAddPeerFactory name fac tr => ignore (add_peer_factory name fac tr)
  | CSolePeer => ignore sole_peer
  | CPeer name => ignore (peer name)
  | CPeerState p => ignore (peer_state p)
  | CPeerIds => ignore peer_ids
  | CSetHandler m => set_handler m
  | CSetHandlerPeer p m => set_handler_peer p m
  | COn p h => on_peer p h
  | COnAll h => on_all h
  | CRemoveHandler p tid => ignore (remove_handler_peer p tid)
  | CRemoveHandlerAll tid => ignore (remove_handler tid)
  | CStatsReset => Transceiver.stats_reset
  | COnStateChange cb => ignore (on_state_change cb)
  | COnError cb => ignore (on_error cb)
  | CRemoveStateChange id => ignore (remove_state_change id)
  | CRemoveError id => ignore (remove_error_callback id)
  | CSetQueueConfig c => set_queue_config c
  | CSetWorkerConfig c => set_worker_config c
  | CStart => ignore (start any0 format_double)
  | CStop => stop
  | CSend p tid x => ignore (send_impl p tid x)
  | CSendBatch p tid xs => ignore (send_batch_impl p tid xs)
  | CSendRaw p tid x => ignore (send_raw raw_any p tid x)
  | CSendRawBatch p tid xs => ignore (send_raw_batch raw_any p tid xs)
  | CSendSole tid x => ignore (send_sole tid x)
  | CSendBatchSole tid xs => ignore (send_batch_sole tid xs)
  | CConnected tr ep => ignore (handle_peer_connected tr ep)
  | CDisconnected p => handle_peer_disconnected p
  | CStateChanged p st => handle_state_changed p st
  | CData p data => ignore (handle_data_received any0 p data)
  | CDeliver p msgs => ignore (deliver any0 p msgs)
  | CWorker ns => ignore (worker_step throws any0 ns)
  end.

(** When a call may happen: data and workers exist once [start] has made the
    queue; calls that allocate an id leave room in the 256 ids tried. *)
Definition allowed (c : TCall) (t : T) : Prop :=
  match c with
  | CAddPeer _ _ _ | CAddPeerFactory _ _ _ | CConnected _ _ => (live t <= 254)%nat
  | CData _ _ | CDeliver _ _ | CWorker _ => is_Some (dispatch_queue_ t)
  | _ => True
  end.

Inductive reachable : T -> Prop :=
  | reach_new rc wc : reachable (new_transceiver rc wc)
  | reach_call t c t' e : reachable t -> allowed c t -> call c t = Some (tt, t', e) -> reachable t'.

Lemma ignore_ok {A} (P : T -> Prop) (m : MM A) b :
  triple P m (fun _ => J b) -> triple P (ignore m) (fun _ => J b).
Proof. intros H. eapply triple_bind; [exact H|]. intros a. by apply triple_ret. Qed.

Lemma remove_callback_ok b id :
  triple (J b) (remove_state_change id) (fun _ => J b) /\ triple (J b) (remove_error_callback id) (fun _ => J b).
Proof.
  split; intros t Hj.
  - unfold remove_state_change. destruct (erase_callback _ _) as [r l]. do 3 eexists. split; [done|]. by apply (J_frame b t).
  - unfold remove_error_callback. destruct (erase_callback _ _) as [r l]. do 3 eexists. split; [done|]. by apply (J_frame b t).
Qed.

Lemma send_impl_ok b p tid x : triple (J b) (send_impl p tid x) (fun _ => J b).
Proof.
  apply (triple_bind _ (fun _ => J b)); [by apply triple_gets|]. intros [|]; [apply send_with_ok|by apply triple_fail].
Qed.

Lemma send_batch_impl_ok b p tid xs : triple (J b) (send_batch_impl p tid xs) (fun _ => J b).
Proof.
  apply (triple_bind _ (fun _ => J b)); [by apply triple_gets|]. intros [|]; [|by apply triple_fail].
  cbn [negb]. destruct xs; [by apply triple_fail|apply send_with_ok].
Qed.

Lemma to_sole_peer_ok b k : (forall p, triple (J b) (k p) (fun _ => J b)) -> triple (J b) (to_sole_peer k) (fun _ => J b).
Proof.
  intros Hk. eapply triple_bind; [apply sole_peer_ok|]. intros [p|e]; [apply Hk|by apply triple_ret].
Qed.

(** The calls by what they need: nothing, room for an id, or the queue. *)
Lemma plain_call_ok b c :
  match c with
  | CAddPeer _ _ _ | CAddPeerFactory _ _ _ | CConnected _ _ | CData _ _ | CDeliver _ _ | CWorker _ => True
  | _ => triple (J b) (call c) (fun _ => J b)
  end.
Proof.
  destruct c; try exact I; cbn [call]; try mod_ok; try (apply ignore_ok).
  - apply sole_peer_ok.
  - apply (triple_bind _ (fun _ => J b)); [by apply triple_gets|]. intros names. case_match; [by apply triple_ret|by apply triple_fail].
  - apply peer_state_ok.
  - apply peer_ids_ok.
  - apply remove_callback_ok.
  - apply remove_callback_ok.
  - apply modify_ok. intros t. destruct (running_ t); by split_and!.
  - apply modify_ok. intros t. destruct (running_ t); by split_and!.
  - apply start_ok.
  - apply stop_ok.
  - apply send_impl_ok.
  - apply send_batch_impl_ok.
  - apply send_impl_ok.
  - apply send_batch_impl_ok.
  - apply to_sole_peer_ok. intros. apply send_impl_ok.
  - apply to_sole_peer_ok. intros. apply send_batch_impl_ok.
  - apply handle_peer_disconnected_ok.
  - apply handle_state_changed_ok.
Qed.

Lemma call_ok c (t : T) : tables_ok t -> allowed c t -> exists t' e, call c t = Some (tt, t', e) /\ tables_ok t'
  /\ (is_Some (dispatch_queue_ t) -> is_Some (dispatch_queue_ t')).
Proof.
  intros H Ha. set (b := bool_decide (is_Some (dispatch_queue_ t))).
  assert (J b t) as Hj by (split; [done|]; intros Hb; by apply bool_decide_eq_true in Hb).
  assert (exists t' e, call c t = Some (tt, t', e) /\ J b t') as (t' & e & E & Hj').
  { enough (exists P, P t /\ triple P (call c) (fun _ => J b)) as (P & HP & Ht).
    { destruct (Ht t HP) as ([] & t' & e & E & H'). eauto. }
    assert (is_Some (dispatch_queue_ t) -> b = true) as Hb by (intros; by apply bool_decide_eq_true).
    pose proof (plain_call_ok b c) as Hp.
    destruct c; try (by exists (J b)); simpl in Ha; cbn [call].
    - exists (fun t => J b t /\ (live t <= 254)%nat). split; [done|]. apply ignore_ok, add_peer_ok.
    - exists (fun t => J b t /\ (live t <= 254)%nat). split; [done|]. apply ignore_ok, add_peer_factory_ok.
    - exists (fun t => J b t /\ (live t <= 254)%nat). split; [done|]. apply ignore_ok, handle_peer_connected_ok.
    - exists (J b). split; [done|]. rewrite Hb by done. apply ignore_ok, handle_data_received_ok.
    - exists (J b). split; [done|]. rewrite Hb by done. apply ignore_ok, deliver_ok.
    - exists (J b). split; [done|]. rewrite Hb by done. apply ignore_ok, worker_step_ok. }
  exists t', e. split; [done|]. destruct Hj' as [H' Hq']. split; [done|]. intros Hs. apply Hq'.
  by apply bool_decide_eq_true.
Qed.

Lemma tables_new rc wc : tables_ok (new_transceiver rc wc).
Proof.
  split; simpl; try done.
  - constructor.
  - intros a. rewrite lookup_empty. split; [intros H; by apply elem_of_nil in H|by intros []].
  - intros id a. rewrite lookup_empty. split; [done|]. by intros (c & ? & _).
  - intros a. rewrite lookup_empty. by intros [].
Qed.

Lemma reachable_ok (t : T) : reachable t -> tables_ok t.
Proof.
  induction 1 as [rc wc|t c t' e _ IH Ha E]; [apply tables_new|].
  destruct (call_ok c t IH Ha) as (t1 & e1 & E1 & H1 & _). congruence.
Qed.

(** C1: No call on a transceiver follows a dangling pointer or a missing queue.
    From every state reachable by calls of the public interface, of the
    transports and of the workers, every further allowed call returns, and the
    peer tables stay consistent: each owned context is alive and found under
    exactly its own id, every pointer of the id map points to an owned context,
    ids are nonzero 32-bit values, the framers and the queue are well formed. *)
Theorem transceiver_memory_safe (t : T) (c : TCall) :
  reachable t -> allowed c t ->
  exists t' e, call c t = Some (tt, t', e) /\ tables_ok t /\ tables_ok t'.
Proof.
  intros Hr Ha. pose proof (reachable_ok t Hr) as H.
  destruct (call_ok c t H Ha) as (t' & e & E & H' & _). eauto.
Qed.


End inv.

(** ** A small instance *)

(** A session whose frames carry one message each and that fails on frames of
    three bytes; its state counts the frames. *)
#[local] Instance sample_isession : ISession nat (list Z) := {|
  framing := fun _ => sample_session;
  decode_frame := fun fr s =>
    (if Nat.eqb (length fr) 3 then Fail (new_error InvalidArgument "empty frame")
     else Ok [mkDecoded (nth 3 fr 0) (drop 4 fr) fr], Datatypes.S s);
  encode_wrap := fun tid x s => (Ok ([0xAA; 0x55; 4 + len x; tid] ++ x), Datatypes.S s);
  encode_batch := fun tid xs s => (Ok ([0xAA; 0x55; 4 + len (concat xs); tid] ++ concat xs), Datatypes.S s);
  is_receive_only := fun _ tid => tid =? 9;
  type_name := fun _ tid => "T" +:+ pretty tid;
  session_reset := fun _ => O;
|}.

(** Transport 1 is a stream to one peer, 2 a datagram server, 3 a datagram
    socket to one peer. *)
#[local] Instance sample_transports : Transports := {|
  is_multi_peer := fun tr => tr =? 2;
  is_stream_oriented := fun tr => tr =? 1;
  transport_start := fun _ => Ok tt;
  transport_send := fun _ _ _ => Ok tt;
|}.

Definition sample_throws : @Invocation Z (list Z) -> bool := fun _ => false.
Definition sample_format : double -> string := fun _ => EmptyString.
Definition sample_config : QueueConfig := mkQueueConfig 2 DropNewest d_zero.
Definition sample_transceiver : @Transceiver nat (list Z) Z := new_transceiver sample_config (mkWorkerConfig 1 0).

(** Calls in sequence, as long as each is allowed. *)
Definition allowedb (c : @TCall nat (list Z) Z) (t : @Transceiver nat (list Z) Z) : bool :=
  match c with
  | CAddPeer _ _ _ | CAddPeerFactory _ _ _ | CConnected _ _ => (live t <=? 254)%nat
  | CData _ _ | CDeliver _ _ | CWorker _ => match dispatch_queue_ t with Some _ => true | None => false end
  | _ => true
  end.

Fixpoint run_calls (cs : list (@TCall nat (list Z) Z)) (t : @Transceiver nat (list Z) Z) : @Transceiver nat (list Z) Z :=
  match cs with
  | [] => t
  | c :: cs =>
      if allowedb c t then
        match call sample_throws [] id sample_format c t with Some (_, t', _) => run_calls cs t' | None => t end
      else t
  end.

Lemma allowedb_allowed c t : allowedb c t = true -> allowed c t.
Proof. destruct c; simpl; try done; try apply Nat.leb_le; by destruct (dispatch_queue_ t). Qed.

Lemma run_calls_reachable cs t : reachable sample_throws [] id sample_format t -> reachable sample_throws [] id sample_format (run_calls cs t).
Proof.
  revert t. induction cs as [|c cs IH]; intros t H; [done|]. cbn [run_calls].
  destruct (allowedb c t) eqn:Ea; [|done]. destruct (call sample_throws [] id sample_format c t) as [[[[] t'] e]|] eqn:E; [|done].
  apply IH. eapply reach_call; [exact H|by apply allowedb_allowed|exact E].
Qed.

(** A peer named like the server's first child, the server, and a start. *)
Definition sample_running : @Transceiver nat (list Z) Z :=
  run_calls [CAddPeer "srv/1" (Some O) 3; CAddPeerFactory "srv" (Some (Some O)) 2; CSetHandler (mh_on 7 70 new_message_handler);
             COnError 5; CStart] sample_transceiver.

Lemma sample_running_ok : tables_ok sample_running.
Proof. eapply reachable_ok, run_calls_reachable, reach_new. Qed.

Lemma transceiver_memory_safe_witness :
  exists t' e, call sample_throws ([] : list Z) id sample_format (CData 1 [0; 0; 0; 7; 1]) sample_running = Some (tt, t', e)
    /\ tables_ok sample_running /\ tables_ok t'.
Proof.
  apply (transceiver_memory_safe sample_throws [] id sample_format sample_running (CData 1 [0; 0; 0; 7; 1])).
  - apply run_calls_reachable, reach_new.
  - apply allowedb_allowed. reflexivity.
Defined.
