(* ===== verification/TransceiverSpec.v ===== *)
(** * Transceiver: what the operations do

    Functional theorems about [Transceiver]: registering and losing peers,
    delivering received messages to the queue, draining the queue, sending.
    The operations are characterised by the run they make (result, new state,
    events) from a state whose tables are consistent. *)

From stdpp Require Import base numbers list gmap strings pretty fin_maps.
From Stdlib Require Import ZArith Lia SpecFloat.
From S2P Require Import Prelude CoreError BoundedQueue StreamFramer Handler Transceiver TransceiverInv.

Open Scope Z_scope.

Section spec.
Context {S Payload F : Type} `{HS : ISession S Payload} `{HT : Transports}.
Variable throws : @Invocation F Payload -> bool.
Variable any0 : Payload.

Abbreviation T := (@Transceiver S Payload F).
Abbreviation MM A := (@M S Payload F A).
Abbreviation Ev := (@Event Payload F).

Lemma bind_run {A B} (m : MM A) (k : A -> MM B) t a t1 e1 b t2 e2 :
  m t = Some (a, t1, e1) -> k a t1 = Some (b, t2, e2) -> mbind_ m k t = Some (b, t2, e1 ++ e2).
Proof. intros E1 E2. unfold mbind_. rewrite E1. cbn [mbind option_bind]. by rewrite E2. Qed.

Lemma find_deref_run {A} p a c (k : nat -> PeerContext -> MM A) none (t : T) :
  peer_map_ t !! p = Some a -> heap t !! a = Some c ->
  mbind_ (find_peer p) (fun o => match o with
    | Some a => mbind_ (deref a) (fun c => k a c) | None => none end) t = k a c t.
Proof.
  intros Hp Hc. unfold mbind_ at 1, find_peer, gets. rewrite Hp. cbn [mbind option_bind].
  unfold mbind_, deref. rewrite Hc. cbn [mbind option_bind]. destruct (k a c t) as [[[? ?] ?]|]; done.
Qed.

Lemma find_none_run {A} p (k : nat -> PeerContext -> MM A) none (t : T) :
  peer_map_ t !! p = None ->
  mbind_ (find_peer p) (fun o => match o with
    | Some a => mbind_ (deref a) (fun c => k a c) | None => none end) t = none t.
Proof.
  intros Hp. unfold mbind_ at 1, find_peer, gets. rewrite Hp. cbn [mbind option_bind].
  destruct (none t) as [[[? ?] ?]|]; done.
Qed.

(** ** Error events *)

(** Who an error event names: the peer's context while it exists. *)
Definition peer_label (t : T) (p : PeerId) : string * string :=
  match peer_map_ t !! p ≫= fun a => heap t !! a with
  | Some c => (ctx_name c, remote_endpoint c)
  | None => ("", "")
  end.

Definition reports (t : T) (p : PeerId) (e : Error) : list Ev :=
  map (fun cb => EvError (snd cb) (mkErrorEvent p (peer_label t p).1 (peer_label t p).2 e)) (error_callbacks_ t).

Lemma fire_error_run (t : T) p e : tables_ok t -> fire_error p e t = Some (tt, t, reports t p e).
Proof.
  intros H. unfold fire_error, reports, peer_label. destruct (peer_map_ t !! p) as [a|] eqn:Ep.
  - pose proof (proj1 (ok_map _ H _ _) Ep) as (c & Hc & _). rewrite (find_deref_run p a c) by done.
    cbn [mbind option_bind]. rewrite Hc. done.
  - by rewrite find_none_run.
Qed.

(** ** The queue receives the messages in order *)

(** Offering messages to an abstract queue: those still waiting when it blocks,
    those it refuses, and the queue that results. *)
Fixpoint offer (msgs : list (@InboundMessage Payload)) (f : @Fifo (@InboundMessage Payload))
    : list InboundMessage * list InboundMessage * Fifo :=
  match msgs with
  | [] => ([], [], f)
  | m :: more =>
      if fifo_blocks f then (msgs, [], f)
      else
        let '(ok, f) := fifo_push m f in
        let '(rest_, dropped, f) := offer more f in
        (rest_, if ok : bool then dropped else m :: dropped, f)
  end.

(** Under [DropOldest] an open queue refuses nothing and keeps the newest messages:
    those it evicts for them are not among the refused ones, so neither the statistics
    of the transceiver nor its error callbacks show them. *)
Lemma oldest_evicted_silently msgs f :
  fpolicy f = DropOldest -> fclosed f = false -> (0 < fcap f)%nat -> (length (items f) <= fcap f)%nat ->
  offer msgs f = ([], [], mkFifo (fcap f) DropOldest (drop (length (items f ++ msgs) - fcap f) (items f ++ msgs)) false).
Proof.
  destruct f as [cap pol l cl]. cbn. intros -> -> Hc. revert l. induction msgs as [|m msgs IH]; intros l Hl; cbn [offer].
  { rewrite app_nil_r. replace (length l - cap)%nat with 0%nat by lia. done. }
  unfold fifo_blocks, fifo_push, spec_push. cbn [fpolicy fclosed fcap items]. rewrite bool_decide_eq_false_2 by done. cbn [andb].
  destruct (Nat.ltb_spec (length l) cap).
  - rewrite IH by (rewrite length_app; cbn; lia). by rewrite <- app_assoc.
  - destruct l as [|x l]; cbn [length] in *; [lia|]. cbn [tail]. rewrite IH by (rewrite length_app; cbn; lia).
    rewrite <- app_assoc. cbn [app length]. rewrite !length_app. cbn [length].
    rewrite (Nat.sub_succ_l cap) by lia. done.
Qed.

Definition dropped_error (m : @InboundMessage Payload) : Error :=
  new_error QueueFull ("dispatch queue dropped message type_id=" +:+ pretty (type_id (decoded m))).

Definition queue_abs (q : @BoundedQueue (@InboundMessage Payload)) : Fifo := abs (inbound0 any0) q.

Lemma enqueue_all_run p msgs (t : T) q :
  tables_ok t -> dispatch_queue_ t = Some q ->
  let '(rest_, drops, f) := offer msgs (queue_abs q) in
  exists q', wf q' /\ queue_abs q' = f
    /\ enqueue_all any0 p msgs t
       = Some (rest_, map_stats (fun s => fold_left (fun s _ => count_dropped_msg s) drops s)
                       (set_queue (Some q') (workers_ t) t),
               drops ≫= fun m => reports t p (dropped_error m)).
Proof.
  revert t q. induction msgs as [|m msgs IH]; intros t q H Hq; cbn [offer enqueue_all].
  { exists q. split_and!; [by eapply ok_queue|done|]. destruct t; simpl in *; by subst. }
  rewrite Hq. pose proof (push_ready_abs (inbound0 any0) q) as Hr. unfold queue_abs at 1.
  destruct (fifo_blocks (abs (inbound0 any0) q)); cbn [negb] in Hr; rewrite Hr; cbn [negb].
  { exists q. split_and!; [by eapply ok_queue|done|]. destruct t; simpl in *; by subst. }
  destruct (push_spec any0 m q (ok_queue _ H _ Hq) Hr) as (ok & q1 & E & Hw & Ef).
  unfold queue_abs. rewrite E, Ef. cbn [mbind option_bind].
  set (t1 := set_queue (Some q1) (workers_ t) t).
  assert (forall f, tables_ok (map_stats f t1)) as H1.
  { intros f. destruct (J_set_queue t q1 (workers_ t) H Hw) as [Hj _].
    apply (tables_ext t1); auto; [apply Hj|]. by intros ? [= <-]. }
  destruct ok.
  - specialize (IH t1 q1 (H1 (fun s => s)) eq_refl). unfold queue_abs in IH.
    destruct (offer msgs (abs (inbound0 any0) q1)) as [[rest_ drops] f].
    destruct IH as (q2 & Hw2 & Ha & E2). by exists q2.
  - specialize (IH (map_stats count_dropped_msg t1) q1 (H1 _) eq_refl). unfold queue_abs in IH.
    destruct (offer msgs (abs (inbound0 any0) q1)) as [[rest_ drops] f].
    destruct IH as (q2 & Hw2 & Ha & E2). exists q2. split_and!; [done|done|].
    etransitivity; [eapply bind_run; [reflexivity|eapply bind_run; [by apply fire_error_run|exact E2]]|]. done.
Qed.

Lemma fire_all_run (es : list ErrorEvent) (t : T) :
  fire_all es t = Some (tt, t, es ≫= fun e => map (fun cb => EvError (snd cb) e) (error_callbacks_ t)).
Proof.
  induction es as [|e es IH]; [done|]. cbn [fire_all]. etransitivity; [eapply bind_run; [reflexivity|exact IH]|]. done.
Qed.

Lemma apply_back_pressure_run p a c (t : T) :
  peer_map_ t !! p = Some a -> heap t !! a = Some c ->
  exists es, apply_back_pressure p t = Some (tt, t, es) /\ (es = [] \/ es = [EvPause (ctx_transport c)]).
Proof.
  intros Hp Hc. unfold apply_back_pressure. destruct (queue_fill t); [|by eexists; eauto].
  match goal with |- context [if ?b then _ else _] => destruct b end; [|by eexists; eauto].
  rewrite (find_deref_run p a c) by done. eexists. eauto.
Qed.

Lemma receive_label data c msgs errs c' : receive data c = Some (msgs, errs, c') ->
  ctx_name c' = ctx_name c /\ remote_endpoint c' = remote_endpoint c.
Proof.
  unfold receive. destruct (framer c) as [f|].
  - destruct (push_data data f) as [[[frames|e] f']|]; [| |done]; cbn [mbind option_bind];
      [destruct (decode_frames frames (session c)) as [[? ?] ?]|]; by intros [= <- <- <-].
  - destruct (decode_frames [data] (session c)) as [[? ?] ?]. by intros [= <- <- <-].
Qed.

(** C27: What a peer's bytes turn into.  The frames and messages are those of
    [receive] on the peer's framer and session; every framing or decode error
    is reported to every error callback, in order, before any message is
    queued; the messages are offered to the dispatch queue in decode order,
    each once, under the queue's drop policy; each one the queue refuses is counted
    and reported, while those [DropOldest] evicts to make room are not
    ([oldest_evicted_silently]); the only further effect is a possible pause of the
    peer's own transport, and the statistics count bytes, messages, errors and
    refused messages. *)
Theorem data_received_delivered (t : T) (p : PeerId) (a : nat) (c : PeerContext) (data : list Z)
    (q : @BoundedQueue (@InboundMessage Payload)) :
  tables_ok t -> dispatch_queue_ t = Some q -> peer_map_ t !! p = Some a -> heap t !! a = Some c ->
  exists msgs errs c' q' t' bp,
    receive data c = Some (msgs, errs, c')
    /\ let '(rest_, drops, f) := offer (map (mkInbound p) msgs) (queue_abs q) in
       wf q' /\ queue_abs q' = f
       /\ handle_data_received any0 p data t
          = Some (rest_, t', (errs ≫= reports t p) ++ (drops ≫= fun m => reports t p (dropped_error m)) ++ bp)
       /\ dispatch_queue_ t' = Some q' /\ heap t' = <[a := c']> (heap t)
       /\ stats_ t' = fold_left (fun s _ => count_dropped_msg s) drops
            (fold_left (fun s _ => count_decode_error s) errs
              (count_received (len msgs) (count_bytes_in (len data) (stats_ t))))
       /\ (bp = [] \/ bp = [EvPause (ctx_transport c)]).
Proof.
  intros H Hq Hp Hc.
  destruct (receive_ok data c) as (msgs & errs & c' & Er & H1 & H2 & H3).
  { pose proof (ok_framer _ H _ _ Hc) as Hf. destruct (framer c); [tauto|done]. }
  set (u := fun s => fold_left (fun s _ => count_decode_error s) errs
              (count_received (len msgs) (count_bytes_in (len data) s))).
  set (t1 := map_stats u (set_peers (peers_ t) (<[a := c']> (heap t)) (next_addr t) (peer_map_ t) t)).
  assert (tables_ok t1) as H1'.
  { assert (J true (set_peers (peers_ t) (<[a := c']> (heap t)) (next_addr t) (peer_map_ t) t)) as [Hj _].
    { eapply J_write; [split; [done|by eexists]|done..]. }
    eapply tables_ext; [..|exact Hj]; try done; apply Hj. }
  assert (forall e, reports t1 p e = reports t p e) as Erep.
  { intros e. unfold reports, peer_label. cbn [peer_map_ heap t1 map_stats set_peers error_callbacks_].
    rewrite Hp. cbn [mbind option_bind]. rewrite lookup_insert_eq, Hc.
    by destruct (receive_label _ _ _ _ _ Er) as [-> ->]. }
  pose proof (enqueue_all_run p (map (mkInbound p) msgs) t1 q H1' Hq) as He.
  destruct (offer (map (mkInbound p) msgs) (queue_abs q)) as [[rest_ drops] f] eqn:Eo.
  destruct He as (q' & Hw & Ha & E).
  set (t2 := map_stats (fun s => fold_left (fun s _ => count_dropped_msg s) drops s)
               (set_queue (Some q') (workers_ t1) t1)) in *.
  destruct (apply_back_pressure_run p a c' t2) as (es & Eb & Hes); [done|by apply lookup_insert_eq|].
  rewrite H2 in Hes.
  assert (deliver any0 p (map (mkInbound p) msgs) t1 = Some (rest_, t2,
    (drops ≫= fun m => reports t p (dropped_error m)) ++ match rest_ with [] => es | _ => [] end)) as Ed.
  { unfold deliver, mbind_ at 1. rewrite E. cbn [mbind option_bind].
    assert ((drops ≫= fun m => reports t1 p (dropped_error m)) = drops ≫= fun m => reports t p (dropped_error m)) as ->.
    { clear -Erep. induction drops as [|d drops IH]; [done|]. cbn in *. by rewrite Erep, IH. }
    destruct rest_; [|done]. unfold mbind_. rewrite Eb. cbn [mbind option_bind mret]. by rewrite app_nil_r. }
  exists msgs, errs, c', q', t2, (match rest_ with [] => es | _ => [] end). split; [done|]. rewrite Eo.
  split_and!; [done|done| |done|done|done|].
  - unfold handle_data_received. etransitivity; [eapply bind_run; [reflexivity|]|].
    + rewrite (find_deref_run p a c) by done. eapply bind_run; [by rewrite Er|].
      eapply bind_run; [reflexivity|]. eapply bind_run; [reflexivity|]. eapply bind_run; [apply fire_all_run|exact Ed].
    + cbn [app]. f_equal. f_equal. f_equal. unfold reports, peer_label. rewrite Hp. cbn [mbind option_bind].
      rewrite Hc. clear. induction errs as [|e errs IH]; [done|]. cbn in *. by rewrite IH.
  - destruct rest_; [done|by left].
Qed.


(** ** The stream a peer sends, however it is cut *)

Fixpoint receive_all (chunks : list (list Z)) (c : PeerContext)
    : option (list (DecodedMessage Payload) * list Error * PeerContext) :=
  match chunks with
  | [] => Some ([], [], c)
  | d :: ds =>
      '(ms, es, c) ← receive d c;
      '(ms', es', c) ← receive_all ds c;
      Some (ms ++ ms', es ++ es', c)
  end.

Lemma decode_frames_app fs gs (s : S) :
  decode_frames (fs ++ gs) s =
  let '(ms, es, s) := decode_frames fs s in
  let '(ms', es', s) := decode_frames gs s in
  (ms ++ ms', es ++ es', s).
Proof.
  revert s. induction fs as [|fr fs IH]; intros s; cbn [decode_frames app].
  { by destruct (decode_frames gs s) as [[? ?] ?]. }
  destruct (decode_frame fr s) as [res s1]. rewrite IH. destruct (decode_frames fs s1) as [[ms es] s2].
  destruct res; destruct (decode_frames gs s2) as [[ms' es'] s3]; by rewrite ?app_assoc.
Qed.

(** What a session's framing answers does not change as it decodes. *)
Definition framing_fixed : Prop := forall fr (s : S), framing (decode_frame fr s).2 = framing s.

Lemma decode_frames_framing fs (s : S) : framing_fixed -> framing (decode_frames fs s).2 = framing s.
Proof.
  intros Hx. revert s. induction fs as [|fr fs IH]; intros s; [done|]. cbn [decode_frames].
  pose proof (Hx fr s) as E. destruct (decode_frame fr s) as [res s1]. simpl in E. specialize (IH s1).
  destruct (decode_frames fs s1) as [[ms es] s2]. destruct res; simpl in *; congruence.
Qed.

(** Chunks through the receive path are [push_all] on the framer, then the
    session on all the frames. *)
Lemma receive_all_run chunks (c : PeerContext) f frames f' :
  framing_fixed -> framer c = Some f ->
  push_all (Sess := framing (session c)) chunks f = Some (Ok frames, f') ->
  receive_all chunks c = Some (let '(ms, es, s) := decode_frames frames (session c) in (ms, es, with_session s (Some f') c)).
Proof.
  intros Hx. revert c f frames. induction chunks as [|d ds IH]; intros c f frames Hf; cbn [push_all receive_all].
  { intros [= <- <-]. cbn. destruct c; simpl in *; by subst. }
  unfold receive. rewrite Hf. destruct (push_data d f) as [[res f1]|]; [|done]. cbn [mbind option_bind].
  destruct res as [fs1|e]; [|done]. destruct (push_all ds f1) as [[res2 f2]|] eqn:E2; [|done]. cbn [mbind option_bind].
  destruct res2 as [fs2|e]; [|done]. intros [= <- <-]. rewrite decode_frames_app.
  pose proof (decode_frames_framing fs1 (session c) Hx) as Ex.
  destruct (decode_frames fs1 (session c)) as [[ms es] s1]. cbn [mbind option_bind]. simpl in Ex.
  rewrite (IH (with_session s1 (Some f1) c) f1 fs2); [|done|by cbn [session with_session]; rewrite Ex].
  cbn [mbind option_bind session with_session]. by destruct (decode_frames fs2 s1) as [[ms' es'] s2].
Qed.

(** The messages of a stream peer do not depend on how the transport cuts
    the stream: receiving the bytes in any chunks yields the same messages, the
    same decode errors and the same session state as receiving them at once,
    and leaves the same bytes unconsumed in the framer. *)
Theorem receive_independent_of_chunks (chunks : list (list Z)) (c : PeerContext) (f : StreamFramer) :
  framing_fixed -> framer c = Some f -> framer_ok (Sess := framing (session c)) f ->
  (length (view f) + length (concat chunks) <= max_buffer_size_ f)%nat ->
  exists msgs errs s f1 f2,
    receive_all chunks c = Some (msgs, errs, with_session s (Some f1) c)
    /\ receive (concat chunks) c = Some (msgs, errs, with_session s (Some f2) c)
    /\ view f1 = view f2.
Proof.
  intros Hx Hf Hok Hl.
  destruct (push_all_scans (Sess := framing (session c)) chunks f Hok Hl) as (fs & f1 & E1 & _ & S1).
  destruct (push_all_scans (Sess := framing (session c)) [concat chunks] f Hok) as (fs2 & f2 & E2 & _ & S2);
    [cbn [concat]; by rewrite app_nil_r|].
  cbn [concat] in S2. rewrite app_nil_r in S2.
  destruct (scans_functional _ _ _ _ _ _ S1 S2) as [<- Ev].
  pose proof (receive_all_run _ _ _ _ _ Hx Hf E1) as R1. pose proof (receive_all_run _ _ _ _ _ Hx Hf E2) as R2.
  destruct (decode_frames fs (session c)) as [[msgs errs] s].
  exists msgs, errs, s, f1, f2. split; [done|]. split; [|done].
  cbn [receive_all] in R2. destruct (receive (concat chunks) c) as [[[ms es] c']|]; [|done].
  cbn [mbind option_bind] in R2. rewrite !app_nil_r in R2. done.
Qed.

(** ** Workers drain the queue *)

Definition invoked (es : list Ev) : list (@Invocation F Payload) :=
  omap (fun e => match e with EvInvoke i => Some i | _ => None end) es.

Lemma invoked_app es1 es2 : invoked (es1 ++ es2) = invoked es1 ++ invoked es2.
Proof. apply omap_app. Qed.

Lemma invoked_calls l : invoked (map EvInvoke l) = l.
Proof. induction l as [|i l IH]; [done|]. cbn. by f_equal. Qed.

Lemma invoked_reports (t : T) p e : invoked (reports t p e) = [].
Proof. unfold reports. induction (error_callbacks_ t) as [|cb cbs IH]; [done|]. exact IH. Qed.

Lemma invoked_resume l : invoked (map EvResume l) = [].
Proof. induction l as [|i l IH]; [done|]. exact IH. Qed.

Definition dispatch_of (hs : @HandlerRegistry F) (m : @InboundMessage Payload) : DispatchResult * list (@Invocation F Payload) :=
  dispatch_raw throws (in_peer m) (type_id (decoded m)) (msg_payload (decoded m)) (raw_bytes (decoded m)) hs.

(** What one message does to the statistics. *)
Definition account (hs : @HandlerRegistry F) (timeout ns : Z) (m : @InboundMessage Payload) (s : TransceiverStats)
    : TransceiverStats :=
  let s := if (0 <? timeout) && (timeout * 1000000 <? ns) then count_timeout s else s in
  match (dispatch_of hs m).1 with
  | Handled => count_dispatched s
  | DispatchError => count_handler_error s
  | NotFound => s
  end.

Lemma map_stats_tables (t : T) f : tables_ok t -> tables_ok (map_stats f t).
Proof. intros H. apply (tables_ext t); auto; apply H. Qed.

Lemma release_run (t : T) : exists es, release_back_pressure t = Some (tt, t, es) /\ invoked es = [].
Proof.
  unfold release_back_pressure. repeat case_match; (eexists; split; [done|]); first [done|apply invoked_resume].
Qed.

Lemma process_message_run ns m (t : T) : tables_ok t ->
  exists es, process_message throws ns m t
      = Some (tt, map_stats (account (handlers_ t) (handler_timeout_ms (worker t)) ns m) t, es)
    /\ invoked es = (dispatch_of (handlers_ t) m).2.
Proof.
  intros H. unfold process_message, account. set (timeout := handler_timeout_ms (worker t)).
  unfold mbind_ at 1 2. cbn [gets mbind option_bind]. fold timeout.
  change (dispatch_raw throws (in_peer m) (type_id (decoded m)) (msg_payload (decoded m)) (raw_bytes (decoded m)) (handlers_ t))
    with (dispatch_of (handlers_ t) m).
  destruct (dispatch_of (handlers_ t) m) as [res calls]. cbn [fst snd].
  set (late := (0 <? timeout) && _). set (u := fun s => if late then count_timeout s else s).
  assert (exists e1, (if late then mbind_ (modify (map_stats count_timeout)) (fun _ => fire_error (in_peer m) (new_error CoreError.Timeout
       ("handler exceeded timeout for type_id=" +:+ pretty (type_id (decoded m)) +:+ " (" +:+ pretty (ns / 1000000)
        +:+ "ms > " +:+ pretty timeout +:+ "ms)"))) else mret tt) t = Some (tt, map_stats u t, e1) /\ invoked e1 = []) as (e1 & E1 & I1).
  { subst u. destruct late.
    - eexists. split; [eapply bind_run; [reflexivity|]; apply fire_error_run; by apply map_stats_tables|apply invoked_reports].
    - eexists. split; [destruct t; done|done]. }
  assert (tables_ok (map_stats u t)) as H1 by by apply map_stats_tables.
  assert (exists e2, match res with
     | Handled => modify (map_stats count_dispatched)
     | NotFound => mret tt
     | DispatchError => mbind_ (modify (map_stats count_handler_error)) (fun _ => fire_error (in_peer m) (new_error InternalError
        ("handler threw exception for type_id=" +:+ pretty (type_id (decoded m))))) end (map_stats u t)
     = Some (tt, map_stats (fun s => match res with Handled => count_dispatched (u s) | NotFound => u s | DispatchError => count_handler_error (u s) end) t, e2)
     /\ invoked e2 = []) as (e2 & E2 & I2).
  { destruct res; [by eexists|by eexists|].
    eexists. split; [eapply bind_run; [reflexivity|]; apply fire_error_run; by apply map_stats_tables|apply invoked_reports]. }
  destruct (release_run (map_stats (fun s => match res with
    | Handled => count_dispatched (u s) | NotFound => u s | DispatchError => count_handler_error (u s) end) t))
    as (e3 & E3 & I3).
  eexists. split.
  - erewrite bind_run; [|reflexivity|eapply bind_run; [exact E1|eapply bind_run; [exact E2|exact E3]]].
    cbn [mbind option_bind]. done.
  - cbn [app]. by rewrite !invoked_app, invoked_calls, I1, I2, I3, !app_nil_r.
Qed.


Lemma worker_step_run ns (t : T) q :
  tables_ok t -> dispatch_queue_ t = Some q ->
  exists q' es, wf q' /\ same_shape q q' /\ contents (inbound0 any0) q' = tail (contents (inbound0 any0) q)
    /\ tables_ok (set_queue (Some q') (workers_ t) t)
    /\ match contents (inbound0 any0) q with
       | [] => worker_step throws any0 ns t = Some (false, set_queue (Some q') (workers_ t) t, es) /\ es = []
       | m :: _ =>
           worker_step throws any0 ns t
             = Some (true, map_stats (account (handlers_ t) (handler_timeout_ms (worker t)) ns m)
                             (set_queue (Some q') (workers_ t) t), es)
           /\ invoked es = (dispatch_of (handlers_ t) m).2
       end.
Proof.
  intros H Hq. destruct (try_pop_spec (inbound0 any0) q (ok_queue _ H _ Hq)) as (q' & E & Hw & Hs & Hc & _).
  assert (tables_ok (set_queue (Some q') (workers_ t) t)) as H1 by by apply J_set_queue.
  unfold worker_step, pop. rewrite Hq, E. cbn [mbind option_bind].
  destruct (contents (inbound0 any0) q) as [|m l]; cbn [head tail] in *.
  - exists q', []. by split_and!.
  - destruct (process_message_run ns m _ H1) as (es & Em & Hi).
    exists q', (es ++ []). split_and!; [done|done|done|done| |].
    + eapply bind_run; [exact Em|done].
    + by rewrite app_nil_r.
Qed.

(** The statistics after draining messages with the given durations. *)
Definition account_all hs timeout (l : list (Z * @InboundMessage Payload)) (s : TransceiverStats) : TransceiverStats :=
  fold_left (fun s '(ns, m) => account hs timeout ns m s) l s.

Lemma worker_loop_run durations msgs (t : T) q :
  tables_ok t -> dispatch_queue_ t = Some q -> contents (inbound0 any0) q = msgs ->
  (length msgs < length durations)%nat ->
  exists q' es, contents (inbound0 any0) q' = [] /\ same_shape q q'
    /\ worker_loop throws any0 durations t
       = Some (false, map_stats (account_all (handlers_ t) (handler_timeout_ms (worker t)) (zip durations msgs))
                        (set_queue (Some q') (workers_ t) t), es)
    /\ invoked es = msgs ≫= fun m => (dispatch_of (handlers_ t) m).2.
Proof.
  revert msgs t q. induction durations as [|ns ds IH]; intros msgs t q H Hq Hc Hl; [simpl in Hl; lia|].
  destruct (worker_step_run ns t q H Hq) as (q1 & es1 & Hw1 & Hs1 & Hc1 & H1 & Hstep). rewrite Hc in Hstep, Hc1.
  cbn [worker_loop]. destruct msgs as [|m msgs].
  - destruct Hstep as [E ->]. exists q1, []. split_and!; [done|done| |done].
    etransitivity; [eapply bind_run; [exact E|reflexivity]|]. done.
  - destruct Hstep as [E Hi]. cbn [tail] in Hc1. simpl in Hl.
    destruct (IH msgs (map_stats (account (handlers_ t) (handler_timeout_ms (worker t)) ns m)
      (set_queue (Some q1) (workers_ t) t)) q1) as (q2 & es2 & Hc2 & Hs2 & E2 & Hi2);
      [by apply map_stats_tables|done|done|lia|].
    exists q2, (es1 ++ es2). split_and!; [done| | |].
    + unfold same_shape in *. destruct Hs1 as (?&?&?), Hs2 as (?&?&?). split_and!; congruence.
    + etransitivity; [eapply bind_run; [exact E|exact E2]|]. done.
    + rewrite invoked_app, Hi, Hi2. done.
Qed.

(** C28: Stopping loses no queued message.  After [stop], the workers' loop
    dispatches every message still queued, once, in the order it was queued,
    to the handlers registered for it, accounts for each, and only then
    leaves; and it does leave. *)
Theorem stop_drains_queue (t : T) (q : @BoundedQueue (@InboundMessage Payload)) (durations : list Z) :
  tables_ok t -> dispatch_queue_ t = Some q ->
  (length (contents (inbound0 any0) q) < length durations)%nat ->
  exists t1 q' es, stop t = Some (tt, t1, map EvStop (transports_ t)) /\ running_ t1 = false
    /\ worker_loop throws any0 durations t1
       = Some (false, map_stats (account_all (handlers_ t) (handler_timeout_ms (worker t))
                                  (zip durations (contents (inbound0 any0) q)))
                        (set_queue (Some q') (workers_ t1) t1), es)
    /\ contents (inbound0 any0) q' = [] /\ closed_ q' = true
    /\ invoked es = contents (inbound0 any0) q ≫= fun m => (dispatch_of (handlers_ t) m).2.
Proof.
  intros H Hq Hl. set (t1 := set_running false (set_queue (close <$> dispatch_queue_ t) 0 t)).
  destruct (stop_ok true t) as ([] & t1' & e1 & E1 & H1 & _); [split; [done|by eexists]|].
  assert (t1' = t1) as -> by (unfold stop in E1; by injection E1).
  assert (dispatch_queue_ t1 = Some (close q)) as Hq1 by (unfold t1; simpl; by rewrite Hq).
  destruct (worker_loop_run durations (contents (inbound0 any0) q) t1 (close q)) as (q' & es & Hc & Hs & E & Hi);
    [done|done|done|done|].
  exists t1, q', es. split_and!; [done|done|exact E|done| |done].
  by destruct Hs as (? & ? & ->).
Qed.


(** ** Registering peers *)

(** The errors of [add_peer], in the order the code checks them. *)
Definition add_peer_error (t : T) (name : string) (sess : option S) (tr : TransportId) : option ErrorCode :=
  if running_ t then Some AlreadyRunning
  else match sess with
  | None => Some InvalidArgument
  | Some _ =>
      if (tr =? 0) || is_multi_peer tr || bool_decide (is_Some (name_to_peer_ t !! name))
      then Some InvalidArgument else None
  end.

(** [add_peer] either refuses with the documented error and registers
    nothing, or registers exactly one peer: under a nonzero id no live peer
    has, found by its name and by its id, disconnected, with a framer exactly
    when its transport is a stream; no other peer's context, id or name
    changes, and the transport is tracked once. *)
Theorem add_peer_registers (t : T) (name : string) (sess : option S) (tr : TransportId) :
  tables_ok t -> (live t <= 254)%nat ->
  exists r t', add_peer name sess tr t = Some (r, t', []) /\ tables_ok t'
    /\ match r, add_peer_error t name sess tr with
       | Fail e, Some code' => code e = code' /\ peers_ t' = peers_ t /\ heap t' = heap t
           /\ peer_map_ t' = peer_map_ t /\ name_to_peer_ t' = name_to_peer_ t /\ transports_ t' = transports_ t
       | Ok id, None => exists s, sess = Some s /\ 0 < id < 2 ^ 32 /\ peer_map_ t !! id = None
           /\ peers_ t' = peers_ t ++ [next_addr t]
           /\ heap t' = <[next_addr t := mkPeer id name "" s (default_framer tr) tr Disconnected]> (heap t)
           /\ peer_map_ t' = <[id := next_addr t]> (peer_map_ t)
           /\ name_to_peer_ t' = <[name := id]> (name_to_peer_ t)
           /\ transports_ t' = (if bool_decide (tr ∈ transports_ t) then transports_ t else transports_ t ++ [tr])
       | _, _ => False
       end.
Proof.
  intros H Hl. destruct (add_peer_ok false name sess tr t) as (r & t' & e & E & H' & _); [split; [by split|done]|].
  exists r, t'. pose proof (size_peer_map t H) as Hsz.
  destruct (next_peer_id_fresh t (ok_counter _ H) ltac:(lia)) as (id & n & Eid & Hr & Hf & Hn).
  match goal with |- _ /\ _ /\ ?G => enough (e = [] /\ G) as [-> HG] by by split_and! end.
  revert E. unfold add_peer, add_peer_error, mbind_ at 1. cbn [gets mbind option_bind].
  destruct (running_ t); [intros [= <- <- <-]; by split_and!|].
  destruct sess as [s|]; [|intros [= <- <- <-]; by split_and!].
  destruct (tr =? 0); [intros [= <- <- <-]; by split_and!|]. destruct (is_multi_peer tr); [intros [= <- <- <-]; by split_and!|].
  cbn [orb]. unfold mbind_ at 1. rewrite Eid. unfold mbind_ at 1. cbn [gets mbind option_bind].
  cbn [name_to_peer_ set_next_peer_id]. destruct (name_to_peer_ t !! name) as [old|] eqn:En.
  { rewrite bool_decide_true by by eexists. intros [= <- <- <-]. by split_and!. }
  rewrite bool_decide_false by by intros []. intros [= <- <- <-]. split; [done|]. exists s.
  cbn [transports_ set_names set_peers set_next_peer_id]. split_and!; try done; try lia; by case_bool_decide.
Qed.

(** ** Losing a peer *)

Lemma find_id_peer_run p a c ps (t : T) :
  (forall b c', b ∈ ps -> heap t !! b = Some c' -> ctx_id c' = p -> b = a) ->
  Forall (fun b => is_Some (heap t !! b)) ps -> a ∈ ps -> heap t !! a = Some c -> ctx_id c = p ->
  find_id_peer p ps t = Some (Some a, t, []).
Proof.
  intros Hu Hf Ha Hc Hp. induction ps as [|b ps IH]; [by apply elem_of_nil in Ha|].
  cbn [find_id_peer]. unfold mbind_, deref. inversion Hf as [|? ? [cb Hb] Hf']; subst. rewrite Hb. cbn [mbind option_bind].
  destruct (Z.eqb_spec (ctx_id cb) (ctx_id c)) as [E|E].
  - cbn. do 3 f_equal. rewrite (Hu b cb); [done|by left|done|done].
  - rewrite IH; [done|intros ? ? Hin; apply Hu; by right|done|].
    apply elem_of_cons in Ha as [->|?]; [congruence|done].
Qed.

Lemma find_entry_existsb (es : list MultiPeerEntry) tr :
  existsb (fun e : @MultiPeerEntry S => entry_transport e =? tr) es
  = match list_find (fun e => entry_transport e = tr) es ≫= (fun '(_, e) => Some e) with Some _ => true | None => false end.
Proof.
  destruct (list_find _ es) as [[i e]|] eqn:E; cbn.
  - apply list_find_Some in E as (Hi & He & _). apply existsb_exists. exists e.
    split; [apply list_elem_of_In; by eapply list_elem_of_lookup_2|lia].
  - apply list_find_None in E. apply not_true_iff_false. rewrite existsb_exists. intros (e & He & Eq).
    apply list_elem_of_In in He. rewrite Forall_forall in E. apply (E e He). lia.
Qed.

(** A peer of a multi-peer transport exists only while it is connected. *)
Definition dynamic_child (t : T) (c : @PeerContext S) : bool :=
  existsb (fun e => entry_transport e =? ctx_transport c) (multi_peer_entries_ t).

(** Losing a connection.  A dynamic child of a multi-peer transport is
    erased: its id and its context are gone, its handlers are removed, and
    every other peer keeps its id, context and handlers; a configured peer is
    kept and only marked disconnected.  In both cases every state callback
    hears of it, last. *)
Theorem disconnect_forgets_dynamic_peer (t : T) (p : PeerId) (a : nat) (c : PeerContext) :
  tables_ok t -> peer_map_ t !! p = Some a -> heap t !! a = Some c ->
  let dynamic := dynamic_child t c in
  exists t', handle_peer_disconnected p t
      = Some (tt, t', map (fun cb => EvState (snd cb) p Disconnected) (state_callbacks_ t))
    /\ tables_ok t'
    /\ (forall p', peer_map_ t' !! p' = if dynamic && (p' =? p) then None else peer_map_ t !! p')
    /\ (forall a', heap t' !! a' = if decide (a' = a)
          then (if dynamic then None else Some (with_state Disconnected c)) else heap t !! a')
    /\ handlers_ t' = (if dynamic then remove_peer p (handlers_ t) else handlers_ t).
Proof.
  intros H Hp Hc dynamic. set (c1 := with_state Disconnected c).
  set (t1 := set_peers (peers_ t) (<[a := c1]> (heap t)) (next_addr t) (peer_map_ t) t).
  destruct (handle_peer_disconnected_ok false p t) as ([] & t' & e & E & H' & _); [by split|].
  pose proof (proj1 (ok_map _ H _ _) Hp) as (c' & Hc' & Hid). assert (c' = c) as -> by congruence.
  assert (J false t1) as [H1 _] by by eapply J_update.
  assert (heap t1 !! a = Some c1) as Hc1 by apply lookup_insert_eq.
  assert (find_id_peer p (peers_ t1) t1 = Some (Some a, t1, [])) as Ef.
  { eapply find_id_peer_run; [|by eapply (peers_alive false); split|by apply (ok_owned _ H); eexists|done|done].
    intros b cb _ Hb Hbp. assert (peer_map_ t1 !! p = Some b) as Hpb by (apply (ok_map _ H1); eauto). simpl in Hpb. congruence. }
  assert (exists t2, handle_peer_disconnected p t
      = Some (tt, t2, map (fun cb => EvState (snd cb) p Disconnected) (state_callbacks_ t))
    /\ t2 = if dynamic then set_handlers (remove_peer p (handlers_ t1))
              (set_peers (filter (fun b => b <> a) (peers_ t1)) (delete a (heap t1)) (next_addr t1) (delete p (peer_map_ t1))
                (set_names (erase_name p (name_to_peer_ t1)) t1)) else t1) as (t2 & E2 & ->).
  { eexists. split; [|reflexivity]. unfold handle_peer_disconnected.
    unfold mbind_ at 1. rewrite (find_deref_run p a c) by done. cbn [write_ctx modify mbind option_bind]. fold c1. fold t1.
    unfold mbind_ at 1. unfold mbind_ at 1. cbn [gets mbind option_bind]. unfold mbind_ at 1. rewrite Ef. cbn [mbind option_bind].
    unfold mbind_ at 1, deref at 1. rewrite Hc1. cbn [mbind option_bind]. unfold find_multi_peer_entry, mbind_ at 1.
    cbn [gets mbind option_bind]. change (multi_peer_entries_ t1) with (multi_peer_entries_ t).
    change (ctx_transport c1) with (ctx_transport c).
    pose proof (find_entry_existsb (multi_peer_entries_ t) (ctx_transport c)) as Hd. fold (dynamic_child t c) dynamic in Hd.
    destruct (list_find _ _ ≫= _) as [en|]; rewrite Hd; done. }
  rewrite E2 in E. injection E as <- <-. eexists. split; [exact E2|]. split; [done|].
  clearbody dynamic. destruct dynamic; cbn [andb peer_map_ heap handlers_ set_handlers set_peers set_names t1].
  - split_and!; [| |done].
    + intros p'. destruct (Z.eqb_spec p' p) as [->|]; [apply lookup_delete_eq|by apply lookup_delete_ne].
    + intros a'. case_decide as Ea; [subst a'; apply lookup_delete_eq|].
      rewrite lookup_delete_ne, lookup_insert_ne by done. done.
  - split_and!; [done| |done]. intros a'. case_decide as Ea; [subst a'; apply lookup_insert_eq|by apply lookup_insert_ne].
Qed.

(** ** Sending *)

(** What [send_impl] decides before the transport is asked. *)
Definition send_outcome (t : T) (p : PeerId) (tid : Z) (enc : S -> Result (list Z) * S)
    : Result unit * option (TransportId * list Z) :=
  match running_ t, peer_map_ t !! p ≫= (fun a => heap t !! a) with
  | false, _ => (Fail (new_error NotRunning "Transceiver is not running"), None)
  | true, None => (Fail (new_error PeerNotFound ("Peer " +:+ pretty p +:+ " not found")), None)
  | true, Some c =>
      if is_receive_only (session c) tid then
        (Fail (new_error DirectionViolation
          ("Cannot send receive-only message type '" +:+ type_name (session c) tid +:+ "'")), None)
      else match (enc (session c)).1 with
      | Fail e => (Fail e, None)
      | Ok bytes => (transport_send (ctx_transport c) p bytes, Some (ctx_transport c, bytes))
      end
  end.

Lemma send_with_run (t : T) p tid enc : tables_ok t -> running_ t = true ->
  let '(r, sent) := send_outcome t p tid enc in
  exists t', send_with p tid enc t
      = Some (r, t', match sent with Some (tr, bytes) => [EvSend tr p bytes] | None => [] end)
    /\ stats_ t' = match sent with Some (_, bytes) => count_bytes_out (len bytes) (stats_ t) | None => stats_ t end
    /\ (forall a, heap t' !! a = match heap t !! a with
          | Some c => Some (if (ctx_id c =? p) && negb (is_receive_only (session c) tid)
                            then with_session (enc (session c)).2 (framer c) c else c)
          | None => None end).
Proof.
  intros H Hr. unfold send_outcome. rewrite Hr. unfold send_with.
  assert (forall a c, heap t !! a = Some c -> peer_map_ t !! p <> Some a -> ctx_id c <> p) as Hne.
  { intros a c Hc Hp <-. apply Hp, (ok_map _ H). eauto. }
  destruct (peer_map_ t !! p) as [a|] eqn:Ep; cbn [mbind option_bind].
  - pose proof (proj1 (ok_map _ H _ _) Ep) as (c & Hc & Hid). rewrite Hc, (find_deref_run p a c) by done.
    assert (forall b c', heap t !! b = Some c' -> b <> a -> (ctx_id c' =? p) = false) as Hother.
    { intros b c' Hb Hba. apply Z.eqb_neq. eapply Hne; [done|congruence]. }
    destruct (is_receive_only (session c) tid) eqn:Ero.
    { exists t. split_and!; [done|done|]. intros b. destruct (heap t !! b) as [c'|] eqn:Eb; [|done].
      destruct (decide (b = a)) as [->|Hba]; [|by rewrite (Hother b)].
      assert (c' = c) as -> by congruence. by rewrite Ero, andb_false_r. }
    assert (forall b, <[a := with_session (enc (session c)).2 (framer c) c]> (heap t) !! b = match heap t !! b with
      | Some c => Some (if (ctx_id c =? p) && negb (is_receive_only (session c) tid)
                        then with_session (enc (session c)).2 (framer c) c else c)
      | None => None end) as Hheap.
    { intros b. destruct (decide (b = a)) as [->|Hba].
      - rewrite lookup_insert_eq, Hc, Hid, Z.eqb_refl, Ero. done.
      - rewrite lookup_insert_ne by done. destruct (heap t !! b) as [c'|] eqn:Eb; [|done]. by rewrite (Hother b). }
    destruct (enc (session c)) as [[bytes|e] s]; cbn [fst snd] in *.
    + eexists. split; [reflexivity|]. split; [done|]. exact Hheap.
    + eexists. split; [reflexivity|]. split; [done|]. exact Hheap.
  - rewrite find_none_run by done. exists t. split_and!; [done|done|]. intros b.
    destruct (heap t !! b) as [c'|] eqn:Eb; [|done].
    rewrite (proj2 (Z.eqb_neq _ _)); [done|]. by eapply Hne.
Qed.

(** C40: [send] refuses, in this order, when the transceiver is not running, the
    peer is unknown, the message type is receive-only, or encoding fails, and
    then sends nothing and counts nothing; otherwise it hands exactly the
    encoded bytes to the peer's transport once and returns the transport's
    result.  Only the addressed peer's session changes. *)
Theorem send_one_message (t : T) (p : PeerId) (tid : Z) (x : Payload) :
  tables_ok t ->
  let '(r, sent) := send_outcome t p tid (encode_wrap tid x) in
  exists t', send_impl p tid x t
      = Some (r, t', match sent with Some (tr, bytes) => [EvSend tr p bytes] | None => [] end)
    /\ stats_ t' = match sent with Some (_, bytes) => count_bytes_out (len bytes) (stats_ t) | None => stats_ t end
    /\ (forall a c, heap t !! a = Some c -> ctx_id c <> p -> heap t' !! a = Some c).
Proof.
  intros H. destruct (running_ t) eqn:Hr.
  - pose proof (send_with_run t p tid (encode_wrap tid x) H Hr) as Hs.
    destruct (send_outcome t p tid (encode_wrap tid x)) as [r sent]. destruct Hs as (t' & E & Hst & Hh).
    exists t'. split_and!; [|done|].
    + unfold send_impl, mbind_ at 1. cbn [gets mbind option_bind]. rewrite Hr. cbn [negb]. by rewrite E.
    + intros a c Hc Hid. rewrite Hh, Hc, (proj2 (Z.eqb_neq _ _)) by done. done.
  - unfold send_outcome. rewrite Hr. exists t. unfold send_impl, mbind_ at 1. cbn [gets mbind option_bind].
    rewrite Hr. done.
Qed.

(** ** Names of dynamic children *)

(** The next child of the entry gets a name under which a live peer is known. *)
Definition child_name_taken (t : T) (e : @MultiPeerEntry S) (old : PeerId) : Prop :=
  name_to_peer_ t !! child_name e = Some old /\ is_Some (peer_map_ t !! old).

(** The name of a dynamic child is not checked against the names in use,
    although [add_peer] refuses a duplicate: when a configured peer already has
    the name the next child of a server gets, the connection rebinds the name,
    and looking it up then finds the child while the configured peer is still
    registered. *)
Theorem child_connection_rebinds_name (t : T) (tr : TransportId) (ep : string) (i : nat) (e : MultiPeerEntry) (s : S)
    (old : PeerId) :
  tables_ok t -> (live t <= 254)%nat -> is_multi_peer tr = true ->
  list_find (fun e => entry_transport e = tr) (multi_peer_entries_ t) = Some (i, e) -> session_factory e = Some s ->
  child_name_taken t e old ->
  exists id t' es, handle_peer_connected tr ep t = Some (id, t', es) /\ id <> old
    /\ peer (child_name e) t' = Some (Ok id, t', []) /\ is_Some (peer_map_ t' !! old).
Proof.
  intros H Hl Hm He Hs [Hn Ho]. pose proof (size_peer_map t H) as Hsz.
  destruct (next_peer_id_fresh t (ok_counter _ H) ltac:(lia)) as (id & n & Eid & Hr & Hf & Hnr).
  assert (id <> old) as Hne by (intros ->; rewrite Hf in Ho; by destruct Ho).
  unfold handle_peer_connected. rewrite Hm. cbn [negb]. unfold mbind_ at 1, find_multi_peer_entry. cbn [gets mbind option_bind].
  rewrite He. cbn [mbind option_bind]. unfold mbind_ at 1. rewrite Eid. cbn [mbind option_bind]. rewrite Hs.
  set (c := mkPeer id (child_name e) ep s (default_framer tr) (entry_transport e) Connected).
  unfold mbind_ at 1 2 3. cbn [modify push_peer mbind option_bind].
  set (t1 := set_names _ _).
  unfold mbind_ at 1. unfold handle_state_changed, mbind_ at 1. rewrite (find_deref_run id (next_addr t) c);
    [|apply lookup_insert_eq|apply lookup_insert_eq].
  cbn [write_ctx modify mbind option_bind].
  unfold notify_state, mbind_ at 1. cbn [gets emit mbind option_bind mret].
  do 3 eexists. split; [reflexivity|]. split; [done|]. split.
  - unfold peer, mbind_. cbn [gets mbind option_bind name_to_peer_ set_peers t1 set_names ctx_id]. by rewrite lookup_insert_eq.
  - cbn [peer_map_ set_peers t1 set_names set_entries set_next_peer_id ctx_id c]. rewrite lookup_insert_ne by done. done.
Qed.

(** ** Back-pressure without a capacity *)

Lemma d_of_nat_sign n : match d_of_nat n with S754_finite s _ _ | S754_infinity s | S754_zero s => s = false | S754_nan => True end.
Proof.
  unfold d_of_nat, binary_normalize. destruct (Z.of_nat n) as [|m|m] eqn:E; [done| |lia].
  unfold binary_round. destruct (shl_align _ _ _) as [mz ez]. unfold binary_round_aux.
  destruct (shr_fexp _ _ _ _ _) as [mrs e1]. destruct (shr_fexp _ _ _ _ _) as [mrs2 e2].
  destruct (shr_m mrs2); [done| |done]. by destruct (e2 <=? _).
Qed.

Lemma div_zero_not_less n y : SFltb (d_div (d_of_nat n) (d_of_nat 0)) y = false.
Proof.
  pose proof (d_of_nat_sign n) as H. change (d_of_nat 0) with (S754_zero false).
  unfold d_div, SFdiv. destruct (d_of_nat n) as [s|s| |s m e]; [done| |done|]; subst s; by destruct y as [|[]| |].
Qed.

(** Back-pressure is on, for a configured capacity of zero. *)
Definition pressed_without_capacity (t : T) : Prop :=
  rx_capacity (rx_queue t) = 0%nat /\ SFltb d_zero (back_pressure_threshold (rx_queue t)) = true.

(** With [rx_queue.capacity = 0] (which the queue itself takes as 1)
    back-pressure pauses and never resumes: the fill is a division by zero, so
    one queued message pauses the peer's transport under any threshold in
    (0, 1], and no worker ever resumes a transport, not even on an empty
    queue. *)
Theorem zero_capacity_never_resumes (t : T) (p : PeerId) (a : nat) (c : PeerContext) (q : @BoundedQueue (@InboundMessage Payload)) :
  pressed_without_capacity t ->
  dispatch_queue_ t = Some q -> BoundedQueue.size q = 1%nat ->
  peer_map_ t !! p = Some a -> heap t !! a = Some c ->
  apply_back_pressure p t = Some (tt, t, [EvPause (ctx_transport c)])
  /\ forall q' w, release_back_pressure (set_queue q' w t) = Some (tt, set_queue q' w t, []).
Proof.
  intros [Hcap Hth] Hq Hsz Hp Hc. split.
  - unfold apply_back_pressure, queue_fill. rewrite Hq. cbn [mbind option_bind]. rewrite Hcap, Hsz, Hth.
    change (d_div (d_of_nat 1) (d_of_nat 0)) with (S754_infinity false).
    assert (SFleb (back_pressure_threshold (rx_queue t)) (S754_infinity false) = true) as ->
      by (by destruct (back_pressure_threshold (rx_queue t)) as [|[]| |]).
    cbn [andb]. by rewrite (find_deref_run p a c).
  - intros q' w. unfold release_back_pressure, queue_fill. cbn [dispatch_queue_ set_queue rx_queue].
    destruct q' as [q'|]; [|done]. cbn [mbind option_bind]. rewrite Hcap, div_zero_not_less, andb_false_r. done.
Qed.


End spec.

(** ** Witnesses on the sample instance *)

#[local] Existing Instance sample_isession.
#[local] Existing Instance sample_transports.

(** The queue of the running sample transceiver. *)
Definition sample_queue : @BoundedQueue (@InboundMessage (list Z)) :=
  new_queue (inbound0 []) 2 DropNewest.

Definition sample_peer : @PeerContext nat := mkPeer 1 "srv/1" "" O None 3 Disconnected.

Lemma data_received_delivered_witness :
  exists msgs errs c' q' t' bp,
    receive [0; 0; 0; 7; 1] sample_peer = Some (msgs, errs, c')
    /\ let '(rest_, drops, f) := offer (map (mkInbound 1) msgs) (queue_abs [] sample_queue) in
       wf q' /\ queue_abs [] q' = f
       /\ handle_data_received [] 1 [0; 0; 0; 7; 1] sample_running
          = Some (rest_, t', (errs ≫= reports sample_running 1)
              ++ (drops ≫= fun m => reports sample_running 1 (dropped_error m)) ++ bp)
       /\ dispatch_queue_ t' = Some q' /\ heap t' = <[O := c']> (heap sample_running)
       /\ stats_ t' = fold_left (fun s _ => count_dropped_msg s) drops
            (fold_left (fun s _ => count_decode_error s) errs
              (count_received (len msgs) (count_bytes_in 5 (stats_ sample_running))))
       /\ (bp = [] \/ bp = [EvPause (ctx_transport sample_peer)]).
Proof.
  apply (data_received_delivered [] sample_running 1 O sample_peer [0; 0; 0; 7; 1] sample_queue).
  - exact sample_running_ok.
  - vm_compute. reflexivity.
  - vm_compute. reflexivity.
  - vm_compute. reflexivity.
Defined.

Lemma receive_independent_of_chunks_witness :
  exists msgs errs s f1 f2,
    receive_all sample_chunks (mkPeer 1 "a" "" O (Some (new_framer 64)) 1 Connected)
      = Some (msgs, errs, with_session s (Some f1) (mkPeer 1 "a" "" O (Some (new_framer 64)) 1 Connected))
    /\ receive (concat sample_chunks) (mkPeer 1 "a" "" O (Some (new_framer 64)) 1 Connected)
      = Some (msgs, errs, with_session s (Some f2) (mkPeer 1 "a" "" O (Some (new_framer 64)) 1 Connected))
    /\ view f1 = view f2.
Proof.
  apply (receive_independent_of_chunks sample_chunks (mkPeer 1 "a" "" O (Some (new_framer 64)) 1 Connected) (new_framer 64)).
  - intros fr s. reflexivity.
  - reflexivity.
  - apply new_framer_ok.
  - simpl. lia.
Defined.

(** The sample transceiver with one message queued. *)
Definition sample_loaded : @Transceiver nat (list Z) Z := run_calls [CData 1 [0; 0; 0; 7; 1]] sample_running.
Definition sample_loaded_queue : @BoundedQueue (@InboundMessage (list Z)) :=
  match dispatch_queue_ sample_loaded with Some q => q | None => sample_queue end.

Lemma sample_loaded_ok : tables_ok sample_loaded.
Proof. eapply reachable_ok, run_calls_reachable, run_calls_reachable, reach_new. Qed.

Lemma stop_drains_queue_witness :
  exists t1 q' es, stop sample_loaded = Some (tt, t1, map EvStop (transports_ sample_loaded)) /\ running_ t1 = false
    /\ worker_loop sample_throws [] [0; 0] t1
       = Some (false, map_stats (account_all sample_throws (handlers_ sample_loaded) 0
                                  (zip [0; 0] (contents (inbound0 []) sample_loaded_queue)))
                        (set_queue (Some q') (workers_ t1) t1), es)
    /\ contents (inbound0 []) q' = [] /\ closed_ q' = true
    /\ invoked es = contents (inbound0 []) sample_loaded_queue
         ≫= fun m => (dispatch_of sample_throws (handlers_ sample_loaded) m).2.
Proof.
  apply (stop_drains_queue sample_throws [] sample_loaded sample_loaded_queue [0; 0]).
  - exact sample_loaded_ok.
  - vm_compute. reflexivity.
  - vm_compute. lia.
Defined.

Lemma add_peer_registers_witness :
  exists r t', add_peer "a" (Some O) 3 sample_transceiver = Some (r, t', []) /\ tables_ok t'.
Proof.
  destruct (add_peer_registers sample_transceiver "a" (Some O) 3) as (r & t' & E & H & _).
  - apply tables_new.
  - vm_compute. lia.
  - exists r, t'. auto.
Defined.

(** The sample transceiver with a connected child. *)
Definition sample_connected : @Transceiver nat (list Z) Z := run_calls [CConnected 2 "host:1"] sample_running.
Definition sample_child : @PeerContext nat := mkPeer 3 "srv/1" "host:1" O None 2 Connected.

Lemma sample_connected_ok : tables_ok sample_connected.
Proof. eapply reachable_ok, run_calls_reachable, run_calls_reachable, reach_new. Qed.

Lemma disconnect_forgets_dynamic_peer_witness :
  exists t', handle_peer_disconnected 3 sample_connected
      = Some (tt, t', map (fun cb => EvState (snd cb) 3 Disconnected) (state_callbacks_ sample_connected))
    /\ tables_ok t' /\ (forall p', peer_map_ t' !! p' = if p' =? 3 then None else peer_map_ sample_connected !! p').
Proof.
  destruct (disconnect_forgets_dynamic_peer sample_connected 3 1 sample_child) as (t' & E & H & Hm & _).
  - exact sample_connected_ok.
  - vm_compute. reflexivity.
  - vm_compute. reflexivity.
  - exists t'. auto.
Defined.

Lemma send_one_message_witness :
  exists t', send_impl 1 7 [1; 2] sample_running = Some (Ok tt, t', [EvSend 3 1 [0xAA; 0x55; 6; 7; 1; 2]])
    /\ stats_ t' = count_bytes_out 6 (stats_ sample_running).
Proof.
  destruct (send_one_message sample_running 1 7 [1; 2] sample_running_ok) as (t' & E & Hs & _).
  exists t'. auto.
Defined.

Lemma child_connection_rebinds_name_witness :
  exists id t' es, handle_peer_connected 2 "host:1" sample_running = Some (id, t', es) /\ id <> 1
    /\ peer "srv/1" t' = Some (Ok id, t', []) /\ is_Some (peer_map_ t' !! 1).
Proof.
  apply (child_connection_rebinds_name sample_running 2 "host:1" 0 (mkEntry 2 "srv" (Some O) 2 1) O 1).
  - exact sample_running_ok.
  - vm_compute. lia.
  - reflexivity.
  - vm_compute. reflexivity.
  - reflexivity.
  - split; [vm_compute; reflexivity|vm_compute; eauto].
Defined.

(** The loaded transceiver under a configuration with capacity 0. *)
Definition sample_zero : @Transceiver nat (list Z) Z :=
  set_config (mkQueueConfig 0 DropNewest d_one) (mkWorkerConfig 1 0) sample_loaded.

Lemma zero_capacity_never_resumes_witness :
  apply_back_pressure 1 sample_zero = Some (tt, sample_zero, [EvPause 3])
  /\ forall q' w, release_back_pressure (set_queue q' w sample_zero) = Some (tt, set_queue q' w sample_zero, []).
Proof.
  apply (zero_capacity_never_resumes sample_zero 1 O (mkPeer 1 "srv/1" "" 1%nat None 3 Disconnected) sample_loaded_queue);
    [split|..]; vm_compute; reflexivity.
Defined.
