(* ===== verification/CharConv.v ===== *)
(** * Characters and [std::from_chars]

    What the parsers of the message compiler use of the C++ standard library:
    the character classes of [<cctype>] in the C locale and [std::from_chars]
    into an [int64_t].  A [std::string_view] is its list of characters. *)

From stdpp Require Import base numbers list strings.
From Stdlib Require Import ZArith Lia Ascii.
From S2P Require Import Prelude.

Open Scope Z_scope.

Definition text := list ascii.

Definition txt (s : string) : text := String.list_ascii_of_string s.
Definition str (t : text) : string := String.string_of_list_ascii t.

Definition code (c : ascii) : Z := Z.of_N (N_of_ascii c).
Definition in_range (lo hi : Z) (c : ascii) : bool := (lo <=? code c) && (code c <=? hi).

Definition isdigit (c : ascii) : bool := in_range 48 57 c.
Definition isupper (c : ascii) : bool := in_range 65 90 c.
Definition islower (c : ascii) : bool := in_range 97 122 c.
Definition isalpha (c : ascii) : bool := isupper c || islower c.
Definition isalnum (c : ascii) : bool := isalpha c || isdigit c.
Definition isxdigit (c : ascii) : bool := isdigit c || in_range 65 70 c || in_range 97 102 c.
Definition isspace (c : ascii) : bool := in_range 9 13 c || (code c =? 32).

(** How many characters at the front satisfy [p]. *)
Fixpoint prefix_len (p : ascii -> bool) (l : text) : nat :=
  match l with
  | c :: l => if p c then S (prefix_len p l) else O
  | [] => O
  end.

(** ** [std::from_chars] *)

Definition INT64_MIN : Z := - 2 ^ 63.
Definition INT64_MAX : Z := 2 ^ 63 - 1.

Definition digit_value (c : ascii) : Z :=
  if isdigit c then code c - 48
  else if islower c then code c - 97 + 10
  else if isupper c then code c - 65 + 10
  else 36.

Definition is_digit_of (base : Z) (c : ascii) : bool := digit_value c <? base.

Definition value_of (base : Z) (l : text) : Z := fold_left (fun v c => v * base + digit_value c) l 0.

Inductive errc := invalid_argument | result_out_of_range.

(** An optional minus sign. *)
Definition minus_sign (l : text) : bool * text :=
  match l with
  | c :: r => if Ascii.eqb c "-" then (true, r) else (false, l)
  | [] => (false, l)
  end.

(** The error, the value left in the variable (initially 0) and how many
    characters [ptr] is past the first. *)
Definition from_chars (base : Z) (l : text) : option errc * Z * nat :=
  let '(negative, body) := minus_sign l in
  let n := prefix_len (is_digit_of base) body in
  if Nat.eqb n 0 then (Some invalid_argument, 0, O)
  else
    let v := value_of base (take n body) in
    let v := if negative : bool then - v else v in
    let used := if negative then S n else n in
    if (INT64_MIN <=? v) && (v <=? INT64_MAX) then (None, v, used)
    else (Some result_out_of_range, 0, used).

(** ** Decimal and hexadecimal numerals *)

Definition digit_char (d : Z) : ascii :=
  ascii_of_N (Z.to_N (if d <? 10 then 48 + d else 97 + (d - 10))).

(** The digits of [n], at most [fuel] of them, least significant first. *)
Fixpoint digits_rev (base : Z) (fuel : nat) (n : Z) : text :=
  match fuel with
  | O => []
  | S fuel => digit_char (n mod base) :: if n / base =? 0 then [] else digits_rev base fuel (n / base)
  end.

Definition numeral (base : Z) (n : Z) : text := rev (digits_rev base 64 n).

Lemma digit_char_value d : 0 <= d < 36 -> digit_value (digit_char d) = d.
Proof.
  intros Hd. pose proof (forall_bits_range 6 (fun d => implb (d <? 36) (digit_value (digit_char d) =? d)) d eq_refl) as H.
  specialize (H ltac:(lia)). cbv beta in H. rewrite (proj2 (Z.ltb_lt d 36)) in H by lia. by apply Z.eqb_eq.
Qed.

Lemma value_of_snoc base l c : value_of base (l ++ [c]) = value_of base l * base + digit_value c.
Proof. unfold value_of. by rewrite fold_left_app. Qed.

Lemma digits_rev_value base fuel n :
  2 <= base <= 36 -> 0 <= n < base ^ Z.of_nat fuel -> value_of base (rev (digits_rev base fuel n)) = n.
Proof.
  intros Hb. revert n. induction fuel as [|fuel IH]; intros n Hn; cbn [digits_rev rev].
  { change (base ^ Z.of_nat 0) with 1 in Hn. unfold value_of. simpl. lia. }
  pose proof (Z.mod_pos_bound n base ltac:(lia)) as Hm. pose proof (Z.div_mod n base ltac:(lia)) as Hdm.
  rewrite value_of_snoc, digit_char_value by lia.
  destruct (Z.eqb_spec (n / base) 0) as [E|E].
  - unfold value_of. simpl. lia.
  - rewrite IH; [lia|]. split; [apply Z.div_pos; lia|].
    rewrite Nat2Z.inj_succ, Z.pow_succ_r in Hn by lia. apply Z.div_lt_upper_bound; lia.
Qed.

Lemma digits_rev_digits base fuel n :
  2 <= base <= 36 -> Forall (fun c => is_digit_of base c = true) (digits_rev base fuel n).
Proof.
  intros Hb. revert n. induction fuel as [|fuel IH]; intros n; cbn [digits_rev]; constructor.
  - unfold is_digit_of. pose proof (Z.mod_pos_bound n base ltac:(lia)) as Hm.
    rewrite digit_char_value by lia. lia.
  - case_match; [constructor|apply IH].
Qed.

Lemma prefix_len_app p l r : Forall (fun c => p c = true) l ->
  prefix_len p (l ++ r) = (length l + prefix_len p r)%nat.
Proof. induction 1 as [|c l Hc _ IH]; [done|]. cbn. by rewrite Hc, IH. Qed.

Lemma prefix_len_le p l : (prefix_len p l <= length l)%nat.
Proof. induction l as [|c l IH]; [done|]. cbn. destruct (p c); lia. Qed.

Lemma numeral_value base n : 2 <= base <= 36 -> 0 <= n < 2 ^ 64 -> value_of base (numeral base n) = n.
Proof.
  intros Hb Hn. apply digits_rev_value; [done|]. split; [lia|].
  apply (Z.lt_le_trans _ (2 ^ 64)); [lia|]. apply Z.pow_le_mono_l. lia.
Qed.

Lemma numeral_digits base n : 2 <= base <= 36 -> Forall (fun c => is_digit_of base c = true) (numeral base n).
Proof. intros Hb. apply Forall_rev. by apply digits_rev_digits. Qed.

Lemma numeral_nonempty base n : numeral base n <> [].
Proof. unfold numeral. cbn [digits_rev rev]. intros H. by apply app_eq_nil in H as [_ ?]. Qed.

Lemma no_minus_digit base c : 2 <= base <= 36 -> is_digit_of base c = true -> c <> "-"%char.
Proof. intros Hb H ->. unfold is_digit_of in H. change (digit_value "-"%char) with 36 in H. lia. Qed.

(** Reading back a numeral, whatever follows that is not a digit. *)
Lemma from_chars_numeral base n r :
  2 <= base <= 36 -> 0 <= n <= INT64_MAX -> prefix_len (is_digit_of base) r = O ->
  from_chars base (numeral base n ++ r) = (None, n, length (numeral base n)).
Proof.
  intros Hb Hn Hr. unfold INT64_MAX in Hn. pose proof (numeral_digits base n Hb) as Hd.
  pose proof (numeral_nonempty base n) as Hne. pose proof (numeral_value base n Hb ltac:(lia)) as Hv.
  unfold from_chars. destruct (numeral base n) as [|c l] eqn:E; [done|].
  assert (c <> "-"%char) as Hc by (inversion Hd; by eapply no_minus_digit).
  unfold minus_sign. cbn [app]. rewrite (proj2 (Ascii.eqb_neq _ _)) by done. rewrite app_comm_cons.
  rewrite prefix_len_app, Hr, Nat.add_0_r by done. rewrite take_app_length. cbn [Nat.eqb length].
  rewrite Hv. unfold INT64_MIN, INT64_MAX. replace (_ && _) with true by (symmetry; apply andb_true_iff; lia). done.
Qed.

(** A decimal numeral with an optional minus sign. *)
Definition signed_numeral (v : Z) : text := if v <? 0 then "-"%char :: numeral 10 (- v) else numeral 10 v.

Lemma from_chars_signed v :
  INT64_MIN <= v <= INT64_MAX -> from_chars 10 (signed_numeral v) = (None, v, length (signed_numeral v)).
Proof.
  intros Hv. unfold INT64_MIN, INT64_MAX in Hv. unfold signed_numeral. destruct (Z.ltb_spec v 0).
  - unfold from_chars. assert (forall t, minus_sign ("-"%char :: t) = (true, t)) as -> by done. pose proof (numeral_digits 10 (- v) ltac:(lia)) as Hd. pose proof (numeral_nonempty 10 (- v)) as Hne.
    pose proof (numeral_value 10 (- v) ltac:(lia) ltac:(lia)) as Hval.
    pose proof (prefix_len_app (is_digit_of 10) (numeral 10 (- v)) [] Hd) as Hp. rewrite app_nil_r in Hp.
    rewrite Hp. cbn [prefix_len]. rewrite Nat.add_0_r, firstn_all, Hval.
    destruct (numeral 10 (- v)) as [|c l]; [done|]. cbn [length Nat.eqb].
    unfold INT64_MIN, INT64_MAX. replace (_ && _) with true by (symmetry; apply andb_true_iff; lia).
    by rewrite Z.opp_involutive.
  - pose proof (from_chars_numeral 10 v [] ltac:(lia) ltac:(unfold INT64_MAX; lia) eq_refl) as H'.
    by rewrite app_nil_r in H'.
Qed.

(** A numeral without a sign is not negative. *)
Lemma from_chars_unsigned base t v n :
  2 <= base -> match t with c :: _ => c <> "-"%char | [] => True end ->
  from_chars base t = (None, v, n) -> 0 <= v <= INT64_MAX.
Proof.
  intros Hb Hc. unfold from_chars, minus_sign.
  assert (forall l a, 0 <= a -> 0 <= fold_left (fun v c => v * base + digit_value c) l a) as Hpos.
  { induction l as [|c l IH]; intros a Ha; [done|]. cbn [fold_left]. apply IH.
    assert (0 <= digit_value c); [|nia]. unfold digit_value, isdigit, islower, isupper, in_range.
    repeat case_match; bool_to_prop; lia. }
  destruct t as [|c t]; [done|]. rewrite (proj2 (Ascii.eqb_neq _ _)) by done.
  case_match; [done|]. case_match eqn:E; [|done]. intros [= <- _]. bool_to_prop.
  split; [by apply Hpos|]. done.
Qed.
