(* ===== verification/AutoExpr.v ===== *)
(** * Automatic field values and literals

    Models [conduit/bgen/src/parser/auto_expr_parser.cpp] (the [auto="..."]
    attribute) with [ArithModifier] and [AutoExpr] of
    [bgen/src/model/ast.hpp], and [parse_literal] of
    [bgen/src/analyzer/parse_utils.hpp]. *)

From stdpp Require Import base numbers list strings.
From Stdlib Require Import ZArith Lia Ascii.
From S2P Require Import Prelude CharConv.

Open Scope Z_scope.

Inductive AutoKind := AutoId | AutoLength | AutoCount | AutoIncrement | AutoConfig | AutoTimestamp.
Inductive ArithOp := OpNone | OpAdd | OpSub | OpMul | OpDiv | OpMod.

Record ArithModifier := mkModifier { mod_op : ArithOp; mod_literal : Z; mod_field_ref : text }.
Definition no_modifier : ArithModifier := mkModifier OpNone 0 [].

Global Instance ArithOp_eq_dec : EqDecision ArithOp.
Proof. solve_decision. Defined.
Global Instance ArithModifier_eq_dec : EqDecision ArithModifier.
Proof. solve_decision. Defined.

Record AutoExpr := mkAuto { auto_kind : AutoKind; auto_field_ref : text; auto_key : text; auto_modifier : ArithModifier }.

Inductive AutoExprResult := AOk (a : AutoExpr) | AErr (message : string).

(** ** The parser *)

Definition is_blank (c : ascii) : bool := Ascii.eqb c " " || Ascii.eqb c "009".

Definition trim_front (t : text) : text := drop (prefix_len is_blank t) t.
Definition trim (t : text) : text := rev (trim_front (rev (trim_front t))).

(** The argument in parentheses and what follows, from the text after the
    keyword. *)
Definition try_parse_paren_arg (after_keyword : text) : option (text * text) :=
  match trim_front after_keyword with
  | c :: t =>
      if Ascii.eqb c "(" then
        let n := prefix_len (fun c => negb (Ascii.eqb c ")")) t in
        if (length t <=? n)%nat then None else Some (trim (take n t), drop (S n) t)
      else None
  | [] => None
  end.

Definition arith_op (c : ascii) : option ArithOp :=
  if Ascii.eqb c "+" then Some OpAdd else if Ascii.eqb c "-" then Some OpSub
  else if Ascii.eqb c "*" then Some OpMul else if Ascii.eqb c "/" then Some OpDiv
  else if Ascii.eqb c "%" then Some OpMod else None.

Definition is_name_char (c : ascii) : bool := isalnum c || Ascii.eqb c "-" || Ascii.eqb c "_".

Definition try_parse_modifier (remaining : text) : option ArithModifier :=
  match trim remaining with
  | [] => Some no_modifier
  | op_ch :: t =>
      o ← arith_op op_ch;
      match trim t with
      | [] => None
      | first :: more =>
          let operand := first :: more in
          if isdigit first || Ascii.eqb first "-" then
            let '(ec, val, used) := from_chars 10 operand in
            match ec with
            | Some _ => None
            | None => if (used =? length operand)%nat then Some (mkModifier o val []) else None
            end
          else if isalpha first || Ascii.eqb first "_" then
            if forallb is_name_char operand then Some (mkModifier o 0 operand) else None
          else None
      end
  end.

(** [sv.starts_with(keyword)]: what follows the keyword. *)
Fixpoint after_prefix (keyword t : text) : option text :=
  match keyword, t with
  | [], _ => Some t
  | k :: keyword, c :: t => if Ascii.eqb k c then after_prefix keyword t else None
  | _ :: _, [] => None
  end.

Definition parse_config (t : text) : AutoExprResult :=
  match try_parse_paren_arg t with
  | None => AErr "config requires a key argument: config(key)"
  | Some ([], _) => AErr "config key cannot be empty"
  | Some (arg, after) =>
      match trim after with
      | [] => AOk (mkAuto AutoConfig [] arg no_modifier)
      | rest => AErr ("unexpected text after config(...): '" +:+ str rest +:+ "'")
      end
  end.

Definition parse_count (t : text) : AutoExprResult :=
  match try_parse_paren_arg t with
  | None => AErr "count requires a field argument: count(field)"
  | Some ([], _) => AErr "count field reference cannot be empty"
  | Some (arg, after) =>
      match trim after with
      | [] => AOk (mkAuto AutoCount arg [] no_modifier)
      | rest => AErr ("unexpected text after count(...): '" +:+ str rest +:+ "'")
      end
  end.

Definition length_modifier (field t : text) : AutoExprResult :=
  match trim t with
  | [] => AOk (mkAuto AutoLength field [] no_modifier)
  | rest =>
      match try_parse_modifier rest with
      | Some m => AOk (mkAuto AutoLength field [] m)
      | None => AErr ("invalid modifier in length expression: '" +:+ str rest +:+ "'")
      end
  end.

Definition parse_length (t : text) : AutoExprResult :=
  match try_parse_paren_arg t with
  | Some ([], _) => AErr "length field reference cannot be empty"
  | Some (arg, after) => length_modifier arg after
  | None => length_modifier [] t
  end.

Definition parse_auto_expr (input : text) : AutoExprResult :=
  let sv := trim input in
  if bool_decide (sv = []) then AErr "empty auto expression"
  else if bool_decide (sv = txt "id") then AOk (mkAuto AutoId [] [] no_modifier)
  else if bool_decide (sv = txt "increment") then AOk (mkAuto AutoIncrement [] [] no_modifier)
  else if bool_decide (sv = txt "timestamp") then AOk (mkAuto AutoTimestamp [] [] no_modifier)
  else match after_prefix (txt "config") sv with
  | Some t => parse_config t
  | None =>
  match after_prefix (txt "count") sv with
  | Some t => parse_count t
  | None =>
  match after_prefix (txt "length") sv with
  | Some t => parse_length t
  | None => AErr ("unknown auto expression: '" +:+ str sv +:+ "'")
  end end end.

(** ** Literals *)

(** [None] is undefined behaviour: the negation of [INT64_MIN] overflows. *)
Definition parse_literal (s : text) : option (option Z) :=
  match s with
  | [] => Some None
  | _ =>
      let '(negate, t) := minus_sign s in
      let hex := match t with c0 :: c1 :: _ :: _ => Ascii.eqb c0 "0" && (Ascii.eqb c1 "x" || Ascii.eqb c1 "X") | _ => false end in
      let digits := if hex : bool then drop 2 t else t in
      let '(ec, val, used) := from_chars (if hex then 16 else 10) digits in
      match ec with
      | Some _ => Some None
      | None =>
          if negb (used =? length digits)%nat then Some None
          else if negate : bool then if val =? INT64_MIN then None else Some (Some (- val))
          else Some (Some val)
      end
  end.

(** ** Blanks *)

(** Nonempty, and no blank at either end. *)
Definition trimmed (t : text) : bool :=
  match t, rev t with c :: _, c' :: _ => negb (is_blank c) && negb (is_blank c') | _, _ => false end.

Lemma trim_front_blank c t : is_blank c = true -> trim_front (c :: t) = trim_front t.
Proof. intros H. unfold trim_front. cbn [prefix_len]. by rewrite H. Qed.

Lemma trim_front_none c t : is_blank c = false -> trim_front (c :: t) = c :: t.
Proof. intros H. unfold trim_front. cbn [prefix_len]. by rewrite H. Qed.

Lemma trim_trimmed t : trimmed t = true -> trim t = t.
Proof.
  unfold trimmed, trim. destruct t as [|c t]; [done|]. destruct (rev (c :: t)) as [|c' t'] eqn:E; [done|].
  intros H. apply andb_true_iff in H as [H1%negb_true_iff H2%negb_true_iff].
  rewrite trim_front_none, E, trim_front_none by done. rewrite <- E. apply rev_involutive.
Qed.

Lemma trimmed_nonempty t : trimmed t = true -> t <> [].
Proof. by intros H ->. Qed.

(** A text with trimmed ends is trimmed. *)
Lemma trimmed_app a b : match a with c :: _ => is_blank c = false | [] => False end ->
  match rev b with c :: _ => is_blank c = false | [] => False end -> trimmed (a ++ b) = true.
Proof.
  intros Ha Hb. destruct a as [|c a]; [done|]. unfold trimmed. cbn [app].
  change (c :: a ++ b) with ((c :: a) ++ b). rewrite rev_app_distr.
  destruct (rev b) as [|c' b']; [done|]. cbn [app]. by rewrite Ha, Hb.
Qed.

(** ** Printing *)

Definition op_char (o : ArithOp) : ascii :=
  match o with OpAdd => "+" | OpSub => "-" | OpMul => "*" | OpDiv => "/" | _ => "%" end.

Definition print_operand (m : ArithModifier) : text :=
  if bool_decide (mod_field_ref m = []) then signed_numeral (mod_literal m) else mod_field_ref m.

Definition print_modifier (m : ArithModifier) : text :=
  match mod_op m with
  | OpNone => []
  | o => txt " " ++ op_char o :: txt " " ++ print_operand m
  end.

Definition print_auto (a : AutoExpr) : text :=
  match auto_kind a with
  | AutoId => txt "id" | AutoIncrement => txt "increment" | AutoTimestamp => txt "timestamp"
  | AutoConfig => txt "config(" ++ auto_key a ++ txt ")"
  | AutoCount => txt "count(" ++ auto_field_ref a ++ txt ")"
  | AutoLength =>
      txt "length" ++ (if bool_decide (auto_field_ref a = []) then [] else txt "(" ++ auto_field_ref a ++ txt ")")
      ++ print_modifier (auto_modifier a)
  end.

(** Arguments that can be written between parentheses. *)
Definition argument_ok (t : text) : bool := trimmed t && forallb (fun c => negb (Ascii.eqb c ")")) t.

Definition operand_name_ok (t : text) : bool :=
  match t with c :: _ => isalpha c || Ascii.eqb c "_" | [] => false end && forallb is_name_char t.

Definition modifier_ok (m : ArithModifier) : bool :=
  match mod_op m with
  | OpNone => bool_decide (mod_literal m = 0 /\ mod_field_ref m = [])
  | _ => if bool_decide (mod_field_ref m = []) then (INT64_MIN <=? mod_literal m) && (mod_literal m <=? INT64_MAX)
         else (mod_literal m =? 0) && operand_name_ok (mod_field_ref m)
  end.

(** Only the parts the kind uses are set, and they can be written. *)
Definition auto_ok (a : AutoExpr) : bool :=
  match auto_kind a with
  | AutoId | AutoIncrement | AutoTimestamp =>
      bool_decide (auto_field_ref a = [] /\ auto_key a = [] /\ auto_modifier a = no_modifier)
  | AutoConfig => bool_decide (auto_field_ref a = [] /\ auto_modifier a = no_modifier) && argument_ok (auto_key a)
  | AutoCount => bool_decide (auto_key a = [] /\ auto_modifier a = no_modifier) && argument_ok (auto_field_ref a)
  | AutoLength => bool_decide (auto_key a = []) && (bool_decide (auto_field_ref a = []) || argument_ok (auto_field_ref a))
                  && modifier_ok (auto_modifier a)
  end.

(** ** Reading back *)

Lemma paren_arg_read arg after : argument_ok arg = true ->
  try_parse_paren_arg (txt "(" ++ arg ++ txt ")" ++ after) = Some (arg, after).
Proof.
  unfold argument_ok. intros H. apply andb_true_iff in H as [Ht Hf]. unfold try_parse_paren_arg.
  change (txt "(" ++ arg ++ txt ")" ++ after) with ("("%char :: arg ++ ")"%char :: after).
  rewrite trim_front_none by done. cbn match. change (Ascii.eqb "(" "(") with true. cbn match.
  rewrite prefix_len_app by (apply Forall_forall; intros c Hc; rewrite forallb_forall in Hf; apply Hf; by apply list_elem_of_In).
  change (prefix_len (fun c => negb (Ascii.eqb c ")")) (")"%char :: after)) with O. rewrite Nat.add_0_r, length_app.
  cbn [length]. rewrite (proj2 (Nat.leb_gt _ _)) by lia.
  rewrite take_app_length, trim_trimmed by done. rewrite drop_app_ge by lia.
  by replace (S (length arg) - length arg)%nat with 1%nat by lia.
Qed.

Lemma arith_op_char o : o <> OpNone -> arith_op (op_char o) = Some o.
Proof. by destruct o. Qed.

Lemma digit_not_blank c : is_digit_of 10 c = true -> is_blank c = false.
Proof.
  intros H. unfold is_blank. apply orb_false_iff.
  split; apply Ascii.eqb_neq; intros ->; discriminate H.
Qed.

Lemma name_not_blank c : is_name_char c = true -> is_blank c = false.
Proof. intros H. unfold is_blank. apply orb_false_iff. split; apply Ascii.eqb_neq; intros ->; discriminate H. Qed.

Lemma trimmed_all t : t <> [] -> Forall (fun c => is_blank c = false) t -> trimmed t = true.
Proof.
  intros Hne Hf. unfold trimmed. destruct t as [|c t]; [done|].
  pose proof (Forall_rev Hf) as Hr. destruct (rev (c :: t)) as [|c' t'] eqn:E.
  - apply (f_equal (@rev ascii)) in E. by rewrite rev_involutive in E.
  - inversion Hf; inversion Hr; subst. by apply andb_true_iff; split; apply negb_true_iff.
Qed.

Lemma signed_numeral_trimmed v : trimmed (signed_numeral v) = true.
Proof.
  assert (forall n, Forall (fun c => is_blank c = false) (numeral 10 n)) as Hn.
  { intros n. eapply Forall_impl; [apply numeral_digits; lia|]. intros c. apply digit_not_blank. }
  unfold signed_numeral. destruct (v <? 0).
  - apply trimmed_all; [done|]. constructor; [done|apply Hn].
  - apply trimmed_all; [apply numeral_nonempty|apply Hn].
Qed.

Lemma operand_name_inv t : operand_name_ok t = true ->
  trimmed t = true /\ forallb is_name_char t = true
  /\ exists c t', t = c :: t' /\ (isdigit c || Ascii.eqb c "-") = false /\ (isalpha c || Ascii.eqb c "_") = true.
Proof.
  unfold operand_name_ok. intros H. apply andb_true_iff in H as [Hc Hf]. destruct t as [|c t]; [done|].
  split; [|split; [done|]].
  - apply trimmed_all; [done|]. apply Forall_forall. intros x Hx. apply name_not_blank.
    rewrite forallb_forall in Hf. apply Hf. by apply list_elem_of_In.
  - exists c, t. split; [done|]. split; [|done]. apply orb_false_iff. apply orb_true_iff in Hc as [Hc|Hc%Ascii.eqb_eq]; [|by subst].
    unfold isalpha, isupper, islower, isdigit, in_range in *. split.
    + apply andb_false_iff. apply orb_true_iff in Hc as [Hc|Hc]; bool_to_prop; lia.
    + apply Ascii.eqb_neq. intros ->. discriminate Hc.
Qed.

Lemma signed_numeral_head v : exists c t, signed_numeral v = c :: t /\ (isdigit c || Ascii.eqb c "-") = true.
Proof.
  unfold signed_numeral. destruct (v <? 0); [by eexists _, _|].
  pose proof (numeral_digits 10 v ltac:(lia)) as Hd. pose proof (numeral_nonempty 10 v).
  destruct (numeral 10 v) as [|c t]; [done|]. exists c, t. split; [done|]. inversion Hd as [|? ? Hc _]; subst.
  unfold is_digit_of, digit_value in Hc. destruct (isdigit c) eqn:E; [done|].
  unfold isdigit, islower, isupper, in_range in *. repeat case_match; bool_to_prop; lia.
Qed.

Lemma modifier_read m : modifier_ok m = true -> mod_op m <> OpNone ->
  trimmed (op_char (mod_op m) :: txt " " ++ print_operand m) = true
  /\ try_parse_modifier (op_char (mod_op m) :: txt " " ++ print_operand m) = Some m.
Proof.
  intros Hok Ho. assert (trimmed (print_operand m) = true) as Ht.
  { unfold print_operand. case_bool_decide as E; [apply signed_numeral_trimmed|].
    unfold modifier_ok in Hok. apply operand_name_inv.
    destruct (mod_op m); try done; rewrite bool_decide_false in Hok by done; by apply andb_true_iff in Hok as [_ ?]. }
  assert (trimmed (op_char (mod_op m) :: txt " " ++ print_operand m) = true) as Ht2.
  { change (op_char (mod_op m) :: txt " " ++ print_operand m) with ((op_char (mod_op m) :: txt " ") ++ print_operand m).
    apply trimmed_app; [by destruct (mod_op m)|]. unfold trimmed in Ht.
    destruct (print_operand m) as [|c t]; [done|]. destruct (rev (c :: t)); [done|]. by apply andb_true_iff in Ht as [_ ?%negb_true_iff]. }
  split; [done|]. unfold try_parse_modifier. rewrite trim_trimmed by done. rewrite arith_op_char by done.
  cbn [mbind option_bind]. assert (trim (txt " " ++ print_operand m) = print_operand m) as ->.
  { change (txt " " ++ print_operand m) with (" "%char :: print_operand m). unfold trim.
    rewrite trim_front_blank by done. fold (trim (print_operand m)). by apply trim_trimmed. }
  unfold print_operand. unfold modifier_ok in Hok. destruct m as [o v f]. cbn [mod_op mod_literal mod_field_ref] in *.
  assert ((if bool_decide (f = []) then (INT64_MIN <=? v) && (v <=? INT64_MAX)
           else (v =? 0) && operand_name_ok f) = true) as Hf by by destruct o.
  clear Hok. case_bool_decide as Ef.
  - subst f. destruct (signed_numeral_head v) as (c & t & E & Hc). pose proof (from_chars_signed v) as Hv.
    rewrite E in Hv |- *. rewrite Hc, Hv; [by rewrite Nat.eqb_refl|]. bool_to_prop. lia.
  - apply andb_true_iff in Hf as [->%Z.eqb_eq Hf].
    destruct (operand_name_inv f Hf) as (_ & Hall & c & t & -> & Hd & Ha). by rewrite Hd, Ha, Hall.
Qed.

(** ** Round trips *)

Lemma paren_none t : match trim_front t with c :: _ => c <> "("%char | [] => True end ->
  try_parse_paren_arg t = None.
Proof.
  unfold try_parse_paren_arg. destruct (trim_front t) as [|c t']; [done|]. intros Hc.
  by rewrite (proj2 (Ascii.eqb_neq _ _)).
Qed.

Lemma print_modifier_some m : mod_op m <> OpNone ->
  print_modifier m = [" "%char] ++ op_char (mod_op m) :: txt " " ++ print_operand m.
Proof. unfold print_modifier. by destruct (mod_op m). Qed.

Lemma length_modifier_read f m : modifier_ok m = true -> length_modifier f (print_modifier m) = AOk (mkAuto AutoLength f [] m).
Proof.
  intros Hm. unfold length_modifier. destruct (decide (mod_op m = OpNone)) as [E|E].
  - unfold modifier_ok, print_modifier in *. rewrite E in *. apply bool_decide_eq_true in Hm as [H1 H2].
    destruct m; cbn in *; by subst.
  - destruct (modifier_read m Hm E) as [Ht Hr]. rewrite print_modifier_some by done. cbn [app].
    unfold trim. rewrite trim_front_blank by done. fold (trim (op_char (mod_op m) :: txt " " ++ print_operand m)).
    rewrite (trim_trimmed _ Ht). by rewrite Hr.
Qed.

Lemma print_modifier_last m : modifier_ok m = true -> mod_op m <> OpNone ->
  match rev (print_modifier m) with c :: _ => is_blank c = false | [] => False end.
Proof.
  intros Hm Ho. destruct (modifier_read m Hm Ho) as [Ht _].
  rewrite print_modifier_some, rev_app_distr by done. unfold trimmed in Ht. destruct (rev (_ :: _)) as [|c t]; [done|].
  by apply andb_true_iff in Ht as [_ ?%negb_true_iff].
Qed.

Lemma print_auto_trimmed a : auto_ok a = true -> trimmed (print_auto a) = true.
Proof.
  unfold auto_ok, print_auto. destruct a as [[] f k m]; cbn [auto_kind auto_key auto_field_ref auto_modifier]; intros Hok;
    try reflexivity.
  - apply andb_true_iff in Hok as [_ Hm]. destruct (decide (mod_op m = OpNone)) as [E|E].
    + assert (print_modifier m = []) as -> by (unfold print_modifier; by rewrite E). rewrite app_nil_r.
      case_bool_decide; [reflexivity|]. rewrite app_assoc. apply trimmed_app; [done|]. by rewrite rev_app_distr.
    + apply trimmed_app; [done|]. rewrite rev_app_distr. pose proof (print_modifier_last m Hm E) as Hl.
      by destruct (rev (print_modifier m)).
  - apply trimmed_app; [done|]. by rewrite rev_app_distr.
  - apply trimmed_app; [done|]. by rewrite rev_app_distr.
Qed.

(** Every automatic field value that can be written is read back as it was:
    printing an [AutoExpr] whose parts are those its kind uses, with trimmed
    arguments free of a closing parenthesis and operands that are 64-bit
    literals or field names, and parsing the text gives the same [AutoExpr]. *)
Theorem auto_expr_roundtrip (a : AutoExpr) : auto_ok a = true -> parse_auto_expr (print_auto a) = AOk a.
Proof.
  intros Hok. unfold parse_auto_expr. rewrite trim_trimmed by by apply print_auto_trimmed.
  rewrite (bool_decide_false (print_auto a = [])) by by apply trimmed_nonempty, print_auto_trimmed.
  unfold auto_ok, print_auto in *. destruct a as [[] f k m]; cbn [auto_kind auto_key auto_field_ref auto_modifier] in *.
  - apply bool_decide_eq_true in Hok as (-> & -> & ->). reflexivity.
  - apply andb_true_iff in Hok as [Hok Hm]. apply andb_true_iff in Hok as [->%bool_decide_eq_true Hf].
    change (parse_length ((if bool_decide (f = []) then [] else txt "(" ++ f ++ txt ")") ++ print_modifier m)
            = AOk (mkAuto AutoLength f [] m)).
    unfold parse_length. case_bool_decide as E.
    + subst f. cbn [app]. rewrite paren_none.
      * by apply length_modifier_read.
      * unfold print_modifier. destruct (mod_op m); [done|..]; cbn [txt String.list_ascii_of_string app op_char];
          rewrite trim_front_blank, trim_front_none by done; done.
    + apply orb_true_iff in Hf as [Hf|Hf]; [done|].
      rewrite <- !app_assoc, paren_arg_read by done. destruct f; [done|]. by apply length_modifier_read.
  - apply andb_true_iff in Hok as [[-> ->]%bool_decide_eq_true Hf].
    change (parse_count (txt "(" ++ f ++ txt ")") = AOk (mkAuto AutoCount f [] no_modifier)).
    unfold parse_count. pose proof (paren_arg_read f [] Hf) as E. rewrite app_nil_r in E. rewrite E. by destruct f.
  - apply bool_decide_eq_true in Hok as (-> & -> & ->). reflexivity.
  - apply andb_true_iff in Hok as [[-> ->]%bool_decide_eq_true Hf].
    change (parse_config (txt "(" ++ k ++ txt ")") = AOk (mkAuto AutoConfig [] k no_modifier)).
    unfold parse_config. pose proof (paren_arg_read k [] Hf) as E. rewrite app_nil_r in E. rewrite E. by destruct k.
  - apply bool_decide_eq_true in Hok as (-> & -> & ->). reflexivity.
Qed.

Lemma auto_expr_roundtrip_witness :
  parse_auto_expr (print_auto (mkAuto AutoLength (txt "body") [] (mkModifier OpSub (-5) [])))
  = AOk (mkAuto AutoLength (txt "body") [] (mkModifier OpSub (-5) [])).
Proof. apply auto_expr_roundtrip. reflexivity. Defined.

(** A decimal numeral has no [0x] prefix. *)
Definition hex_literal (t : text) : bool :=
  match t with c0 :: c1 :: _ :: _ => Ascii.eqb c0 "0" && (Ascii.eqb c1 "x" || Ascii.eqb c1 "X") | _ => false end.

Lemma decimal_not_hex n : hex_literal (numeral 10 n) = false.
Proof.
  pose proof (numeral_digits 10 n ltac:(lia)) as Hd. unfold hex_literal.
  destruct (numeral 10 n) as [|c0 [|c1 [|c2 t]]]; try done. apply andb_false_iff. right.
  inversion Hd as [|? ? _ Hd1]; subst. inversion Hd1 as [|? ? Hc _]; subst.
  apply orb_false_iff; split; apply Ascii.eqb_neq; intros ->; discriminate Hc.
Qed.

Lemma literal_decimal v : INT64_MIN <= v <= INT64_MAX ->
  parse_literal (signed_numeral v) = Some (if v =? INT64_MIN then None else Some v).
Proof.
  intros Hv. unfold INT64_MIN, INT64_MAX in Hv.
  assert (forall n, 0 <= n -> exists c t, numeral 10 n = c :: t /\ minus_sign (numeral 10 n) = (false, numeral 10 n)) as Hns.
  { intros n Hn. pose proof (numeral_digits 10 n ltac:(lia)) as Hd. pose proof (numeral_nonempty 10 n).
    destruct (numeral 10 n) as [|c t]; [done|]. exists c, t. split; [done|]. cbn [minus_sign].
    inversion Hd; subst. rewrite (proj2 (Ascii.eqb_neq _ _)); [done|]. by eapply (no_minus_digit 10). }
  unfold signed_numeral. destruct (Z.ltb_spec v 0) as [Hneg|Hpos].
  - unfold parse_literal. assert (forall t, minus_sign ("-"%char :: t) = (true, t)) as -> by done.
    fold (hex_literal (numeral 10 (- v))). rewrite decimal_not_hex.
    destruct (Z.eqb_spec v INT64_MIN) as [->|Hmin]; [by vm_compute|].
    unfold INT64_MIN in Hmin. pose proof (from_chars_numeral 10 (- v) [] ltac:(lia) ltac:(unfold INT64_MAX; lia) eq_refl) as Hf.
    rewrite app_nil_r in Hf. rewrite Hf, Nat.eqb_refl. cbn [negb].
    rewrite (proj2 (Z.eqb_neq _ _)) by (unfold INT64_MIN; lia). by rewrite Z.opp_involutive.
  - destruct (Hns v Hpos) as (c & t & E & Hm). unfold parse_literal. rewrite Hm.
    fold (hex_literal (numeral 10 v)). rewrite decimal_not_hex.
    pose proof (from_chars_numeral 10 v [] ltac:(lia) ltac:(unfold INT64_MAX; lia) eq_refl) as Hf.
    rewrite app_nil_r in Hf. rewrite Hf, Nat.eqb_refl. cbn [negb].
    rewrite (proj2 (Z.eqb_neq _ _)) by (unfold INT64_MIN; lia). by rewrite E.
Qed.

Lemma literal_hex v : 0 <= v <= INT64_MAX -> parse_literal (txt "0x" ++ numeral 16 v) = Some (Some v).
Proof.
  intros Hv. pose proof (from_chars_numeral 16 v [] ltac:(lia) Hv eq_refl) as Hf. rewrite app_nil_r in Hf.
  pose proof (numeral_nonempty 16 v) as Hne. unfold parse_literal. cbn [txt String.list_ascii_of_string app].
  assert (forall t, minus_sign ("0"%char :: t) = (false, "0"%char :: t)) as -> by done.
  destruct (numeral 16 v) as [|c t] eqn:E; [done|].
  assert ((Ascii.eqb "0" "0" && (Ascii.eqb "x" "x" || Ascii.eqb "x" "X")) = true) as -> by done.
  cbn [drop]. by rewrite Hf, Nat.eqb_refl.
Qed.

(** [parse_literal] reads back every 64-bit value but the least one,
    written in decimal or, for the nonnegative ones, in hexadecimal; the least
    value is rejected. *)
Theorem literal_roundtrip (v : Z) :
  INT64_MIN <= v <= INT64_MAX ->
  parse_literal (signed_numeral v) = Some (if v =? INT64_MIN then None else Some v)
  /\ (0 <= v -> parse_literal (txt "0x" ++ numeral 16 v) = Some (Some v)).
Proof.
  intros Hv. split; [by apply literal_decimal|intros Hpos; apply literal_hex; lia].
Qed.

Lemma literal_roundtrip_witness :
  parse_literal (signed_numeral (-42)) = Some (Some (-42))
  /\ (0 <= -42 -> parse_literal (txt "0x" ++ numeral 16 (-42)) = Some (Some (-42))).
Proof. apply (literal_roundtrip (-42)). split; discriminate. Defined.

(** Where a second minus sign may hide. *)
Definition doubly_signed (s : text) : Prop :=
  exists t, s = txt "--" ++ t \/ s = txt "-0x-" ++ t \/ s = txt "-0X-" ++ t.

Lemma from_chars_min base t n : 2 <= base -> from_chars base t = (None, INT64_MIN, n) -> exists t', t = "-"%char :: t'.
Proof.
  intros Hb. destruct t as [|c t]; [done|]. destruct (Ascii.eqb_spec c "-") as [->|Hc]; [by eexists|].
  intros E. pose proof (from_chars_unsigned base (c :: t) _ _ Hb Hc E) as Hv. unfold INT64_MIN in Hv. lia.
Qed.

(** [parse_literal] accepts a second sign after its own, and then its final
    negation can overflow: the behaviour is undefined on
    [--9223372036854775808], and only on literals with two signs. *)
Theorem literal_undefined_doubly_signed :
  parse_literal (txt "--9223372036854775808") = None
  /\ (forall s, parse_literal s = None -> doubly_signed s)
  /\ parse_literal (txt "--5") = Some (Some 5).
Proof.
  split; [by vm_compute|]. split; [|by vm_compute]. intros s. unfold parse_literal.
  destruct s as [|c s]; [done|]. cbn [minus_sign]. destruct (Ascii.eqb_spec c "-") as [->|Hc]; [|].
  - fold (hex_literal s). destruct (hex_literal s) eqn:Eh.
    + destruct (from_chars 16 (drop 2 s)) as [[ec v] n] eqn:E. destruct ec; [done|]. case_match; [done|].
      destruct (Z.eqb_spec v INT64_MIN) as [->|]; [|done]. intros _.
      apply from_chars_min in E as [t' Et]; [|lia]. unfold hex_literal in Eh.
      destruct s as [|c0 [|c1 [|c2 s]]]; try done. apply andb_true_iff in Eh as [->%Ascii.eqb_eq Ex].
      cbn [drop] in Et. injection Et as -> ->. exists t'.
      apply orb_true_iff in Ex as [->%Ascii.eqb_eq| ->%Ascii.eqb_eq]; [by right; left|by right; right].
    + destruct (from_chars 10 s) as [[ec v] n] eqn:E. destruct ec; [done|]. case_match; [done|].
      destruct (Z.eqb_spec v INT64_MIN) as [->|]; [|done]. intros _.
      apply from_chars_min in E as [t' ->]; [|lia]. exists t'. by left.
  - repeat case_match; done.
Qed.
