(* ===== verification/ExprParser.v ===== *)
(** * The expression parser

    Models [conduit/bgen/src/parser/expression_parser.cpp] with the [Expr] and
    [SourceLoc] of [bgen/src/model/ast.hpp]: the lexer and the recursive
    descent parser of the expressions in message definitions
    ([present-when], [length-from], [count-from], [switch]).

    The parser object's state (lexer, current token, nesting depth) is passed
    explicitly.  Loops take as fuel a bound on the characters left; nested
    [parse_or] calls take theirs from the depth guard.  [int] positions are
    natural numbers (inputs below 2 GiB). *)

From stdpp Require Import base numbers list strings pretty.
From Stdlib Require Import ZArith Lia Ascii.
From S2P Require Import Prelude CharConv.

Open Scope Z_scope.

(** ** The AST *)

Record SourceLoc := mkLoc { loc_file : string; loc_offset : Z; loc_line : Z; loc_column : Z }.

Inductive ExprOp :=
  | NumberLit | BoolLit | FieldRef | ConstantRef | Remaining
  | Add | Sub | Mul | Div | Mod
  | BitAnd | BitOr | BitXor | ShiftLeft | ShiftRight
  | Eq | Neq | Lt | Lte | Gt | Gte
  | LogAnd | LogOr
  | Negate | BitNot | LogNot.

Global Instance ExprOp_eq_dec : EqDecision ExprOp.
Proof. solve_decision. Defined.

Inductive Expr := mkExpr {
  op : ExprOp;
  number_value : Z;
  bool_value : bool;
  name : text;
  left_ : option Expr;
  right_ : option Expr;
  loc : SourceLoc;
}.

Record ParseError := mkParseError { message : string; err_loc : SourceLoc }.

Inductive ExprResult := POk (e : Expr) | PErr (e : ParseError).

(** ** Tokens *)

Inductive TokenKind :=
  | TNumber | TTrue | TFalse | TRemaining
  | TIdentifier
  | TPlus | TMinus | TStar | TSlash | TPercent
  | TAmp | TPipe | TCaret | TTilde
  | TShiftLeft | TShiftRight
  | TEq | TNeq | TLt | TLte | TGt | TGte
  | TBang
  | TAnd | TOr | TNot
  | TLParen | TRParen | TDot
  | TEof.

Global Instance TokenKind_eq_dec : EqDecision TokenKind.
Proof. solve_decision. Defined.

Record Token := mkToken {
  kind : TokenKind; tok_text : text; number : Z; tok_pos : nat; has_error : bool
}.

(** ** Lexer *)

Record Lexer := mkLexer { input_ : text; pos_ : nat }.

Definition new_lexer (input : text) : Lexer := mkLexer input 0.
Definition rest (l : Lexer) : text := drop (pos_ l) (input_ l).
Definition move (n : nat) (l : Lexer) : Lexer := mkLexer (input_ l) (pos_ l + n).

Definition skip_whitespace (l : Lexer) : Lexer := move (prefix_len isspace (rest l)) l.

(** [input_.substr(start, pos_ - start)] after consuming [n] characters. *)
Definition lexeme (n : nat) (l : Lexer) : text := take n (rest l).

Definition is_x (c : ascii) : bool := Ascii.eqb c "x" || Ascii.eqb c "X".

(** A [0x] prefix. *)
Definition hex_prefix (t : text) : bool :=
  match t with c0 :: c1 :: _ => Ascii.eqb c0 "0" && is_x c1 | _ => false end.

Definition number_length (t : text) : nat :=
  if hex_prefix t then (2 + prefix_len isxdigit (drop 2 t))%nat else prefix_len isdigit t.

Definition lex_number (l : Lexer) : Token * Lexer :=
  let n := number_length (rest l) in
  let t := lexeme n l in
  let '(ec, val, _) :=
    if (2 <? length t)%nat && hex_prefix t then from_chars 16 (drop 2 t) else from_chars 10 t in
  (match ec with
   | Some _ => mkToken TNumber t 0 (pos_ l) true
   | None => mkToken TNumber t val (pos_ l) false
   end, move n l).

Definition is_word (c : ascii) : bool := isalnum c || Ascii.eqb c "_".

(** The identifier loop: a hyphen belongs to the identifier when a word
    character follows it. *)
Fixpoint identifier_length (t : text) : nat :=
  match t with
  | [] => O
  | c :: t' =>
      if is_word c then S (identifier_length t')
      else if Ascii.eqb c "-" then
        match t' with
        | c' :: _ => if is_word c' then S (identifier_length t') else O
        | [] => O
        end
      else O
  end.

Definition keyword (t : text) : TokenKind :=
  if bool_decide (t = txt "true") then TTrue
  else if bool_decide (t = txt "false") then TFalse
  else if bool_decide (t = txt "remaining") then TRemaining
  else if bool_decide (t = txt "and") then TAnd
  else if bool_decide (t = txt "or") then TOr
  else if bool_decide (t = txt "not") then TNot
  else TIdentifier.

Definition lex_identifier (l : Lexer) : Token * Lexer :=
  let n := identifier_length (rest l) in
  let t := lexeme n l in
  (mkToken (keyword t) t 0 (pos_ l) false, move n l).

Definition two_char (c c2 : ascii) : option TokenKind :=
  if Ascii.eqb c "<" && Ascii.eqb c2 "<" then Some TShiftLeft
  else if Ascii.eqb c ">" && Ascii.eqb c2 ">" then Some TShiftRight
  else if Ascii.eqb c "=" && Ascii.eqb c2 "=" then Some TEq
  else if Ascii.eqb c "!" && Ascii.eqb c2 "=" then Some TNeq
  else if Ascii.eqb c "<" && Ascii.eqb c2 "=" then Some TLte
  else if Ascii.eqb c ">" && Ascii.eqb c2 "=" then Some TGte
  else None.

Definition one_char (c : ascii) : option TokenKind :=
  if Ascii.eqb c "+" then Some TPlus else if Ascii.eqb c "-" then Some TMinus
  else if Ascii.eqb c "*" then Some TStar else if Ascii.eqb c "/" then Some TSlash
  else if Ascii.eqb c "%" then Some TPercent else if Ascii.eqb c "&" then Some TAmp
  else if Ascii.eqb c "|" then Some TPipe else if Ascii.eqb c "^" then Some TCaret
  else if Ascii.eqb c "~" then Some TTilde else if Ascii.eqb c "<" then Some TLt
  else if Ascii.eqb c ">" then Some TGt else if Ascii.eqb c "!" then Some TBang
  else if Ascii.eqb c "(" then Some TLParen else if Ascii.eqb c ")" then Some TRParen
  else if Ascii.eqb c "." then Some TDot else None.

(** The operators, two characters first; an unrecognised character is an
    [Eof] token with the error flag. *)
Definition lex_operator (c : ascii) (t : text) (l : Lexer) : Token * Lexer :=
  match (match t with c2 :: _ => two_char c c2 | [] => None end) with
  | Some k => (mkToken k (lexeme 2 l) 0 (pos_ l) false, move 2 l)
  | None =>
      match one_char c with
      | Some k => (mkToken k (lexeme 1 l) 0 (pos_ l) false, move 1 l)
      | None => (mkToken TEof (lexeme 1 l) 0 (pos_ l) true, move 1 l)
      end
  end.

Definition next (l : Lexer) : Token * Lexer :=
  let l := skip_whitespace l in
  match rest l with
  | [] => (mkToken TEof [] 0 (pos_ l) false, l)
  | c :: t =>
      if isdigit c then lex_number l
      else if isalpha c || Ascii.eqb c "_" then lex_identifier l
      else lex_operator c t l
  end.

(** ** Parser state *)

Definition MAX_EXPR_DEPTH : nat := 128.

Record PState := mkState { lexer_ : Lexer; current_ : Token; depth_ : nat; base_loc_ : SourceLoc }.

Definition cur (st : PState) : TokenKind := kind (current_ st).

Definition advance (st : PState) : PState :=
  let '(t, l) := next (lexer_ st) in mkState l t (depth_ st) (base_loc_ st).

Definition new_parser (input : text) (base : SourceLoc) : PState :=
  advance (mkState (new_lexer input) (mkToken TEof [] 0 0 false) 0 base).

Definition loc_at (pos : nat) (st : PState) : SourceLoc :=
  let b := base_loc_ st in mkLoc (loc_file b) (loc_offset b + Z.of_nat pos) (loc_line b) (loc_column b).

Definition error (msg : string) (st : PState) : ExprResult :=
  PErr (mkParseError msg (loc_at (tok_pos (current_ st)) st)).

Definition make_number (val : Z) (pos : nat) (st : PState) : Expr :=
  mkExpr NumberLit val false [] None None (loc_at pos st).

Definition make_bool (val : bool) (pos : nat) (st : PState) : Expr :=
  mkExpr BoolLit 0 val [] None None (loc_at pos st).

Definition make_remaining (pos : nat) (st : PState) : Expr :=
  mkExpr Remaining 0 false [] None None (loc_at pos st).

(** UPPER_SNAKE_CASE without a dot, starting with a letter. *)
Definition is_const (n : text) : bool :=
  negb (bool_decide ("."%char ∈ n))
  && forallb (fun c => Ascii.eqb c "_" || isupper c || isdigit c) n
  && match n with c :: _ => isupper c | [] => false end.

Definition make_ref (n : text) (pos : nat) (st : PState) : Expr :=
  mkExpr (if is_const n then ConstantRef else FieldRef) 0 false n None None (loc_at pos st).

Definition make_binary (o : ExprOp) (l r : Expr) (pos : nat) (st : PState) : Expr :=
  mkExpr o 0 false [] (Some l) (Some r) (loc_at pos st).

Definition make_unary (o : ExprOp) (e : Expr) (pos : nat) (st : PState) : Expr :=
  mkExpr o 0 false [] (Some e) None (loc_at pos st).

(** ** The grammar

    A parser returns a result and the state it leaves, or [None] when its fuel
    is spent. *)

Definition Parser := PState -> option (ExprResult * PState).

Definition fuel_for (st : PState) : nat := (2 + length (input_ (lexer_ st)))%nat.

(** [while (op) { advance; right = sub(); left = make_binary(...) }]. *)
Fixpoint chain_loop (fuel : nat) (ops : TokenKind -> option ExprOp) (sub : Parser) (l : Expr) : Parser := fun st =>
  match fuel with
  | O => None
  | S fuel =>
      match ops (cur st) with
      | None => Some (POk l, st)
      | Some o =>
          let pos := tok_pos (current_ st) in
          '(r, st) ← sub (advance st);
          match r with
          | PErr e => Some (PErr e, st)
          | POk r => chain_loop fuel ops sub (make_binary o l r pos st) st
          end
      end
  end.

Definition chain (ops : TokenKind -> option ExprOp) (sub : Parser) : Parser := fun st =>
  '(l, st) ← sub st;
  match l with
  | PErr e => Some (PErr e, st)
  | POk l => chain_loop (fuel_for st) ops sub l st
  end.

Definition mul_op (k : TokenKind) : option ExprOp :=
  match k with TStar => Some Mul | TSlash => Some Div | TPercent => Some Mod | _ => None end.
Definition add_op (k : TokenKind) : option ExprOp :=
  match k with TPlus => Some Add | TMinus => Some Sub | _ => None end.
Definition shift_op (k : TokenKind) : option ExprOp :=
  match k with TShiftLeft => Some ShiftLeft | TShiftRight => Some ShiftRight | _ => None end.
Definition bitand_op (k : TokenKind) : option ExprOp := match k with TAmp => Some BitAnd | _ => None end.
Definition xor_op (k : TokenKind) : option ExprOp := match k with TCaret => Some BitXor | _ => None end.
Definition bitor_op (k : TokenKind) : option ExprOp := match k with TPipe => Some BitOr | _ => None end.
Definition cmp_op (k : TokenKind) : option ExprOp :=
  match k with
  | TEq => Some Eq | TNeq => Some Neq | TLt => Some Lt | TLte => Some Lte | TGt => Some Gt | TGte => Some Gte
  | _ => None
  end.
Definition and_op (k : TokenKind) : option ExprOp := match k with TAnd => Some LogAnd | _ => None end.
Definition or_op (k : TokenKind) : option ExprOp := match k with TOr => Some LogOr | _ => None end.
Definition unary_op (k : TokenKind) : option ExprOp :=
  match k with TNot | TBang => Some LogNot | TMinus => Some Negate | TTilde => Some BitNot | _ => None end.

(** [while (current_.kind == Dot)]: the rest of a dotted path. *)
Fixpoint path_loop (fuel : nat) (n : text) (pos : nat) : Parser := fun st =>
  match fuel with
  | O => None
  | S fuel =>
      match cur st with
      | TDot =>
          let st := advance st in
          match cur st with
          | TIdentifier => path_loop fuel (n ++ txt "." ++ tok_text (current_ st)) pos (advance st)
          | _ => Some (error "expected identifier after '.'" st, st)
          end
      | _ => Some (POk (make_ref n pos st), st)
      end
  end.

Section grammar.
Variable parse_expr : Parser.  (* the [parse_or] of a parenthesis *)

Definition parse_primary : Parser := fun st =>
  let t := current_ st in
  match kind t with
  | TNumber =>
      if has_error t then Some (error ("numeric literal too large: " +:+ str (tok_text t)) st, st)
      else Some (POk (make_number (number t) (tok_pos t) st), advance st)
  | TTrue => Some (POk (make_bool true (tok_pos t) st), advance st)
  | TFalse => Some (POk (make_bool false (tok_pos t) st), advance st)
  | TRemaining => Some (POk (make_remaining (tok_pos t) st), advance st)
  | TIdentifier => path_loop (fuel_for st) (tok_text t) (tok_pos t) (advance st)
  | TLParen =>
      '(r, st) ← parse_expr (advance st);
      match r with
      | PErr e => Some (PErr e, st)
      | POk e =>
          match cur st with
          | TRParen => Some (POk e, advance st)
          | _ => Some (error "expected ')'" st, st)
          end
      end
  | TEof =>
      if has_error t then Some (error ("unexpected character: " +:+ str (tok_text t)) st, st)
      else Some (error "expected expression, got: end of input" st, st)
  | _ => Some (error ("expected expression, got: " +:+ str (tok_text t)) st, st)
  end.

Fixpoint parse_unary_loop (fuel : nat) : Parser := fun st =>
  match fuel with
  | O => None
  | S fuel =>
      match unary_op (cur st) with
      | Some o =>
          let pos := tok_pos (current_ st) in
          '(r, st) ← parse_unary_loop fuel (advance st);
          match r with
          | PErr e => Some (PErr e, st)
          | POk e => Some (POk (make_unary o e pos st), st)
          end
      | None => parse_primary st
      end
  end.
Definition parse_unary : Parser := fun st => parse_unary_loop (fuel_for st) st.

Definition parse_mul : Parser := chain mul_op parse_unary.
Definition parse_add : Parser := chain add_op parse_mul.
Definition parse_shift : Parser := chain shift_op parse_add.
Definition parse_bitand : Parser := chain bitand_op parse_shift.
Definition parse_xor : Parser := chain xor_op parse_bitand.
Definition parse_bitor : Parser := chain bitor_op parse_xor.

(** One comparison at most. *)
Definition parse_cmp : Parser := fun st =>
  '(l, st) ← parse_bitor st;
  match l with
  | PErr e => Some (PErr e, st)
  | POk l =>
      match cmp_op (cur st) with
      | None => Some (POk l, st)
      | Some o =>
          let pos := tok_pos (current_ st) in
          '(r, st) ← parse_bitor (advance st);
          match r with
          | PErr e => Some (PErr e, st)
          | POk r => Some (POk (make_binary o l r pos st), st)
          end
      end
  end.

Definition parse_and : Parser := chain and_op parse_cmp.
End grammar.

Definition with_depth (d : nat) (st : PState) : PState := mkState (lexer_ st) (current_ st) d (base_loc_ st).

(** [DepthGuard] counts the nesting up on entry and down on every exit. *)
Fixpoint parse_or (fuel : nat) : Parser := fun st =>
  match fuel with
  | O => None
  | S fuel =>
      let d := depth_ st in
      let st := with_depth (S d) st in
      if (MAX_EXPR_DEPTH <? S d)%nat then
        Some (error ("expression nesting too deep (>" +:+ pretty MAX_EXPR_DEPTH +:+ " levels)") st, with_depth d st)
      else
        '(r, st) ← chain or_op (parse_and (parse_or fuel)) st;
        Some (r, with_depth d st)
  end.

(** At most [MAX_EXPR_DEPTH + 1] calls of [parse_or] are nested. *)
Definition parse (st : PState) : option (ExprResult * PState) :=
  '(r, st) ← parse_or (S MAX_EXPR_DEPTH) st;
  match r with
  | PErr e => Some (PErr e, st)
  | POk e =>
      if negb (bool_decide (cur st = TEof)) then
        Some (error ("unexpected token after expression: " +:+ str (tok_text (current_ st))) st, st)
      else if has_error (current_ st) then
        Some (error ("unexpected character in expression: " +:+ str (tok_text (current_ st))) st, st)
      else Some (POk e, st)
  end.

Definition parse_expression (input : text) (base : SourceLoc) : option ExprResult :=
  '(r, _) ← parse (new_parser input base); Some r.
