(* ===== verification/ExprParserSpec.v ===== *)
(** * The expression parser: totality and well-formed trees

    Theorems about [ExprParser]: every input gets an answer, accepted trees have
    the shape the operators demand, and errors point inside the input. *)

From stdpp Require Import base numbers list strings pretty.
From Stdlib Require Import ZArith Lia Ascii.
From S2P Require Import Prelude CharConv ExprParser.

Open Scope Z_scope.

(** ** What the lexer consumes *)

Definition rem (l : Lexer) : nat := length (rest l).

Definition lexer_ok (l : Lexer) : Prop := (pos_ l <= length (input_ l))%nat.

Lemma rem_move n l : lexer_ok l -> (n <= rem l)%nat ->
  lexer_ok (move n l) /\ (rem (move n l) = rem l - n)%nat.
Proof.
  unfold lexer_ok, rem, rest, move; simpl. rewrite !length_drop. lia.
Qed.

Lemma skip_whitespace_ok l : lexer_ok l ->
  lexer_ok (skip_whitespace l) /\ (rem (skip_whitespace l) <= rem l)%nat.
Proof.
  intros H. unfold skip_whitespace. pose proof (prefix_len_le isspace (rest l)).
  destruct (rem_move (prefix_len isspace (rest l)) l H) as [? ?]; [done|]. split; [done|lia].
Qed.

Lemma number_length_bounds c t : isdigit c = true -> (1 <= number_length (c :: t) <= length (c :: t))%nat.
Proof.
  intros H. unfold number_length. destruct (hex_prefix (c :: t)) eqn:E.
  - destruct t as [|x t]; [done|]. pose proof (prefix_len_le isxdigit t). simpl. unfold drop. lia.
  - pose proof (prefix_len_le isdigit (c :: t)). cbn [prefix_len] in *. rewrite H in *. lia.
Qed.

Lemma identifier_length_le t : (identifier_length t <= length t)%nat.
Proof.
  induction t as [|c t IH]; [done|]. cbn [identifier_length length]. destruct (is_word c); [lia|].
  destruct (Ascii.eqb c "-"); [|lia]. destruct t as [|c' t]; [lia|]. destruct (is_word c'); lia.
Qed.

(** A token that the parser may rely on. *)
Record token_ok (size : nat) (t : Token) : Prop := {
  tok_in_input : (tok_pos t <= size)%nat;
  tok_number : kind t = TNumber -> has_error t = false -> 0 <= number t <= INT64_MAX;
  tok_identifier : kind t = TIdentifier -> tok_text t <> [];
}.

Lemma digit_not_minus c : isdigit c = true -> c <> "-"%char.
Proof. intros H ->. done. Qed.

Lemma xdigit_not_minus c : isxdigit c = true -> c <> "-"%char.
Proof. intros H ->. done. Qed.

Lemma take_prefix_len p n l : (n <= prefix_len p l)%nat -> Forall (fun c => p c = true) (take n l).
Proof.
  revert n. induction l as [|c l IH]; intros [|n] H; simpl in *; try constructor; try (lia || done).
  - destruct (p c) eqn:E; [done|lia].
  - apply IH. destruct (p c); lia.
Qed.

Lemma lex_number_ok l c t : lexer_ok l -> rest l = c :: t -> isdigit c = true ->
  let '(tk, l') := lex_number l in
  kind tk = TNumber /\ token_ok (length (input_ l)) tk /\ lexer_ok l' /\ (S (rem l') <= rem l)%nat /\ input_ l' = input_ l.
Proof.
  intros H E Hc. unfold lex_number, lexeme. pose proof (number_length_bounds c t Hc) as Hn. rewrite E.
  set (n := number_length (c :: t)) in *.
  destruct (rem_move n l H) as [Hl Hr]; [unfold rem; rewrite E; lia|].
  assert (forall ec v k, (if (2 <? length (take n (c :: t)))%nat && hex_prefix (take n (c :: t))
      then from_chars 16 (drop 2 (take n (c :: t))) else from_chars 10 (take n (c :: t))) = (ec, v, k) ->
      ec = None -> 0 <= v <= INT64_MAX) as Hv.
  { intros ec v k Hf ->. destruct ((2 <? length (take n (c :: t)))%nat && _) eqn:Eh.
    - apply andb_true_iff in Eh as [E1 E2]. eapply (from_chars_unsigned 16); [lia| |exact Hf].
      destruct n as [|[|n']] eqn:En; [done|by destruct t|]. destruct t as [|x t]; [done|].
      cbn [take drop] in *. destruct t as [|y t]; [by rewrite take_nil|].
      destruct n' as [|n']; [done|]. cbn [take].
      unfold n, number_length in En. change (hex_prefix (c :: x :: y :: t)) with (hex_prefix (c :: x :: take (S n') (y :: t))) in En.
      rewrite E2 in En. cbn [drop] in En. cbn [prefix_len] in En. destruct (isxdigit y) eqn:Ey; [by apply xdigit_not_minus|lia].
    - eapply (from_chars_unsigned 10); [lia| |exact Hf]. destruct n; [done|]. cbn [take]. by apply digit_not_minus. }
  destruct (if _ : bool then _ else _) as [[ec v] k]. specialize (Hv _ _ _ eq_refl).
  destruct ec as [ec|]; cbn [kind]; (split; [done|]); (split; [|by split_and!; [|unfold rem in *; rewrite ?E in *; lia|]]);
    split; cbn; try done; auto.
Qed.

Lemma next_ok l : lexer_ok l ->
  let '(t, l') := next l in
  token_ok (length (input_ l)) t /\ lexer_ok l' /\ input_ l' = input_ l
  /\ (rem l' <= rem l)%nat /\ (kind t <> TEof -> (S (rem l') <= rem l)%nat).
Proof.
  intros H. unfold next. destruct (skip_whitespace_ok l H) as [Hs Hr]. set (l1 := skip_whitespace l) in *.
  change (input_ l) with (input_ l1). destruct (rest l1) as [|c t] eqn:E.
  { split; [split; [exact Hs|done|done]|]. done. }
  assert (forall tk n, kind tk <> TNumber -> tok_pos tk = pos_ l1 -> (kind tk = TIdentifier -> tok_text tk <> []) ->
    (1 <= n <= rem l1)%nat ->
    token_ok (length (input_ l1)) tk /\ lexer_ok (move n l1) /\ input_ (move n l1) = input_ l1
    /\ (rem (move n l1) <= rem l)%nat /\ (kind tk <> TEof -> (S (rem (move n l1)) <= rem l)%nat)) as Hmove.
  { intros tk n Hk Hp Hi Hn. destruct (rem_move n l1 Hs) as [Hl Hrm]; [lia|].
    split; [split; [rewrite Hp; exact Hs|done|done]|]. split; [done|]. split; [done|]. lia. }
  destruct (isdigit c) eqn:Ed.
  { pose proof (lex_number_ok l1 c t Hs E Ed) as Hn. destruct (lex_number l1) as [tk l2].
    destruct Hn as (Hk & Ht & Hl & Hm & Hin). split; [done|]. split; [done|]. split; [done|]. lia. }
  assert (rem l1 = S (length t)) as Hrem by (unfold rem; by rewrite E).
  destruct (isalpha c || Ascii.eqb c "_") eqn:Ea.
  { unfold lex_identifier, lexeme. rewrite E. assert (is_word c = true) as Hw.
    { unfold is_word, isalnum. apply orb_true_iff in Ea as [->| ->]; [done|]. by rewrite orb_true_r. }
    pose proof (identifier_length_le (c :: t)) as Hle. cbn [identifier_length] in *. rewrite Hw in *.
    apply Hmove; [|done|done|rewrite Hrem; simpl in Hle; lia]. cbn [kind]. unfold keyword. repeat case_bool_decide; done. }
  unfold lex_operator, lexeme. rewrite E.
  destruct (match t with c2 :: _ => two_char c c2 | [] => None end) as [k|] eqn:E2.
  { destruct t as [|c2 t]; [done|]. apply Hmove; [cbn [kind]|done|done|simpl in Hrem; lia].
    unfold two_char in E2. repeat case_match; simplify_eq; done. }
  destruct (one_char c) as [k|] eqn:E1; (apply Hmove; [cbn [kind]|done|done|lia]); [|done].
  unfold one_char in E1. repeat case_match; simplify_eq; done.
Qed.

(** ** Trees with the children their operator demands *)

Definition arity (o : ExprOp) : nat :=
  match o with
  | NumberLit | BoolLit | FieldRef | ConstantRef | Remaining => 0
  | Negate | BitNot | LogNot => 1
  | _ => 2
  end.

Fixpoint expr_wf (e : Expr) : bool :=
  let sub o := match o with Some e => expr_wf e | None => false end in
  match arity (op e), left_ e, right_ e with
  | O, None, None =>
      match op e with
      | NumberLit => (0 <=? number_value e) && (number_value e <=? INT64_MAX)
      | FieldRef => negb (is_const (name e)) && negb (bool_decide (name e = []))
      | ConstantRef => is_const (name e)
      | _ => true
      end
  | 1%nat, l, None => sub l
  | 2%nat, l, r => sub l && sub r
  | _, _, _ => false
  end.

(** ** Every parser returns, and consumes what it accepts *)

Definition state_ok (st : PState) : Prop :=
  lexer_ok (lexer_ st) /\ token_ok (length (input_ (lexer_ st))) (current_ st).

(** Characters left, and the current token. *)
Definition mu (st : PState) : nat := (rem (lexer_ st) + if decide (cur st = TEof) then 0 else 1)%nat.

Definition same_source (st st' : PState) : Prop :=
  input_ (lexer_ st') = input_ (lexer_ st) /\ depth_ st' = depth_ st /\ base_loc_ st' = base_loc_ st.

Lemma same_source_trans st1 st2 st3 : same_source st1 st2 -> same_source st2 st3 -> same_source st1 st3.
Proof. unfold same_source. intros (?&?&?) (?&?&?). split_and!; congruence. Qed.

Lemma mu_fuel st : state_ok st -> (mu st < fuel_for st)%nat.
Proof.
  intros [H _]. unfold mu, fuel_for, rem, rest. rewrite length_drop. destruct (decide _); lia.
Qed.

Lemma advance_ok st : state_ok st ->
  state_ok (advance st) /\ same_source st (advance st) /\ (mu (advance st) <= mu st)%nat
  /\ (cur st <> TEof -> (mu (advance st) < mu st)%nat).
Proof.
  intros [Hl Ht]. unfold advance. pose proof (next_ok _ Hl) as Hn. destruct (next (lexer_ st)) as [t l'].
  destruct Hn as (Ht' & Hl' & Hin & Hr & Hr'). split; [split; cbn; [done|by rewrite Hin]|].
  split; [by split_and!|]. unfold mu, cur; cbn.
  destruct (decide (kind t = TEof)), (decide (kind (current_ st) = TEof)); (split; [|intros Hk]); try done; try lia;
    specialize (Hr' ltac:(done)); lia.
Qed.

(** An error points into the input. *)
Definition err_ok (st : PState) (e : ParseError) : Prop :=
  exists p, (p <= length (input_ (lexer_ st)))%nat /\ err_loc e = loc_at p st.

Definition result_ok (st st' : PState) (r : ExprResult) : Prop :=
  match r with
  | POk e => expr_wf e = true /\ (mu st' < mu st)%nat
  | PErr e => err_ok st e
  end.

Definition answers (st : PState) (o : option (ExprResult * PState)) : Prop :=
  exists r st', o = Some (r, st') /\ state_ok st' /\ same_source st st' /\ (mu st' <= mu st)%nat /\ result_ok st st' r.

Definition good (d : nat) (p : Parser) : Prop := forall st, state_ok st -> depth_ st = d -> answers st (p st).

Lemma err_ok_same st st' e : same_source st st' -> err_ok st' e -> err_ok st e.
Proof.
  intros (Hi & Hd & Hb) (p & Hp & E). exists p. rewrite Hi in Hp. split; [done|]. rewrite E. unfold loc_at. by rewrite Hb.
Qed.

(** Continuing from a later state. *)
Lemma answers_later st st1 o : same_source st st1 -> (mu st1 <= mu st)%nat -> answers st1 o -> answers st o.
Proof.
  intros Hs Hm (r & st' & -> & Hok & Hs' & Hm' & Hr). exists r, st'. split; [done|]. split; [done|].
  split; [by eapply same_source_trans|]. split; [lia|]. destruct r; cbn in *; [intuition lia|by eapply err_ok_same].
Qed.

Lemma answers_err st st1 e : state_ok st1 -> same_source st st1 -> (mu st1 <= mu st)%nat -> err_ok st e ->
  answers st (Some (PErr e, st1)).
Proof. intros. exists (PErr e), st1. by split_and!. Qed.

Lemma answers_ok st st1 e : state_ok st1 -> same_source st st1 -> (mu st1 < mu st)%nat -> expr_wf e = true ->
  answers st (Some (POk e, st1)).
Proof. intros. exists (POk e), st1. split_and!; try done. lia. Qed.

Lemma answers_error st st1 msg : state_ok st1 -> same_source st st1 -> (mu st1 <= mu st)%nat ->
  answers st (Some (error msg st1, st1)).
Proof.
  intros H Hs Hm. apply answers_err; [done..|]. eapply err_ok_same; [done|].
  eexists. split; [|reflexivity]. apply H.
Qed.

Lemma same_source_refl st : same_source st st.
Proof. by split_and!. Qed.

(** Sequencing: an error of the first parser is the answer, otherwise the rest
    goes on from a state that has consumed something. *)
Lemma answers_bind d p st (k : Expr -> PState -> option (ExprResult * PState)) :
  good d p -> state_ok st -> depth_ st = d ->
  (forall e st1, expr_wf e = true -> state_ok st1 -> same_source st st1 -> (mu st1 < mu st)%nat -> answers st (k e st1)) ->
  answers st ('(r, st) ← p st; match r with PErr e => Some (PErr e, st) | POk e => k e st end).
Proof.
  intros Hp Hst Hd Hk. destruct (Hp st Hst Hd) as (r & st1 & -> & Hok & Hs & Hm & Hr). cbn [mbind option_bind].
  destruct r as [e|e]; cbn in Hr; [apply Hk; tauto|by apply answers_err].
Qed.

Lemma chain_loop_good ops d sub :
  (forall k o, ops k = Some o -> k <> TEof /\ arity o = 2%nat) -> good d sub ->
  forall fuel l st st0, (mu st < fuel)%nat -> expr_wf l = true -> state_ok st -> depth_ st = d ->
  same_source st0 st -> (mu st < mu st0)%nat -> answers st0 (chain_loop fuel ops sub l st).
Proof.
  intros Hops Hsub fuel. induction fuel as [|fuel IH]; intros l st st0 Hf Hl Hst Hd Hs Hm; [lia|].
  cbn [chain_loop]. destruct (ops (cur st)) as [o|] eqn:Eo; [|by apply answers_ok].
  destruct (Hops _ _ Eo) as [Hk Ha]. destruct (advance_ok st Hst) as (Hst1 & Hs1 & Hm1 & Hm1'). specialize (Hm1' Hk).
  apply (answers_later st0 (advance st)); [by eapply same_source_trans|lia|].
  eapply answers_bind; [exact Hsub|done|by destruct Hs1 as (?&->&?)|].
  intros e st2 He Hst2 Hs2 Hm2. apply IH; [lia| |done| |done|lia].
  - cbn. by rewrite Ha, Hl, He.
  - destruct Hs1 as (?&?&?), Hs2 as (?&?&?). congruence.
Qed.

Lemma chain_good ops d sub :
  (forall k o, ops k = Some o -> k <> TEof /\ arity o = 2%nat) -> good d sub -> good d (chain ops sub).
Proof.
  intros Hops Hsub st Hst Hd. unfold chain. eapply answers_bind; [exact Hsub|done|done|].
  intros e st1 He Hst1 Hs1 Hm1. eapply chain_loop_good; [exact Hops|exact Hsub|by apply mu_fuel|done|done| |done|done].
  destruct Hs1 as (?&?&?). congruence.
Qed.

Lemma path_loop_good pos fuel n st st0 :
  (mu st < fuel)%nat -> n <> [] -> state_ok st -> same_source st0 st -> (mu st < mu st0)%nat ->
  answers st0 (path_loop fuel n pos st).
Proof.
  revert n st. induction fuel as [|fuel IH]; intros n st Hf Hn Hst Hs Hm; [lia|]. cbn [path_loop].
  destruct (cur st) eqn:Ek; try (apply answers_ok; [done..|]; cbn; rewrite bool_decide_false by done;
    unfold expr_wf; cbn; destruct (is_const n) eqn:Ec; cbn; rewrite ?Ec, ?bool_decide_false by done; done).
  destruct (advance_ok st Hst) as (Hst1 & Hs1 & Hm1 & Hm1'). specialize (Hm1' ltac:(by rewrite Ek)).
  set (st1 := advance st) in *. pose proof (same_source_trans _ _ _ Hs Hs1) as Hs1'.
  destruct (cur st1) eqn:Ek1; try (apply answers_error; [done|done|lia]).
  destruct (advance_ok st1 Hst1) as (Hst2 & Hs2 & Hm2 & Hm2'). specialize (Hm2' ltac:(by rewrite Ek1)).
  apply IH; [lia|by destruct n|done|by eapply same_source_trans|lia].
Qed.

Lemma parse_primary_good d pe : good d pe -> good d (parse_primary pe).
Proof.
  intros Hpe st Hst Hd. unfold parse_primary. destruct (advance_ok st Hst) as (Hst1 & Hs1 & Hm1 & Hm1').
  unfold cur in Hm1'. assert (forall msg, answers st (Some (error msg st, st))) as Herr
    by (intros; by apply answers_error; [|apply same_source_refl|]).
  destruct (kind (current_ st)) eqn:Ek; try apply Herr; try specialize (Hm1' ltac:(done)).
  - destruct (has_error (current_ st)) eqn:Ee; [apply Herr|]. apply answers_ok; [done..|].
    cbn. pose proof (tok_number _ _ (proj2 Hst) Ek Ee). lia.
  - by apply answers_ok.
  - by apply answers_ok.
  - by apply answers_ok.
  - eapply path_loop_good; [|by apply (tok_identifier _ _ (proj2 Hst))|done|done|done].
    pose proof (mu_fuel st Hst). lia.
  - apply (answers_later st (advance st)); [done|lia|].
    eapply answers_bind; [exact Hpe|done|by destruct Hs1 as (?&->&?)|].
    intros e st2 He Hst2 Hs2 Hm2. destruct (advance_ok st2 Hst2) as (Hst3 & Hs3 & Hm3 & _).
    destruct (cur st2); try (by apply answers_error; [|done|lia]).
    apply answers_ok; [done|by eapply same_source_trans|lia|done].
  - destruct (has_error (current_ st)); apply Herr.
Qed.

Lemma parse_unary_good d pe : good d pe -> good d (parse_unary pe).
Proof.
  intros Hpe st Hst Hd. unfold parse_unary. pose proof (mu_fuel st Hst) as Hf. revert st Hst Hd Hf.
  generalize (fuel_for). intros ff st Hst Hd. generalize (ff st). clear ff. intros fuel.
  revert st Hst Hd. induction fuel as [|fuel IH]; intros st Hst Hd Hf; [lia|]. cbn [parse_unary_loop].
  destruct (unary_op (cur st)) as [o|] eqn:Eo; [|by eapply parse_primary_good].
  assert (cur st <> TEof /\ arity o = 1%nat) as [Hk Ha] by (destruct (cur st); simplify_eq/=; done).
  destruct (advance_ok st Hst) as (Hst1 & Hs1 & Hm1 & Hm1'). specialize (Hm1' Hk).
  apply (answers_later st (advance st)); [done|lia|].
  assert (depth_ (advance st) = d) as Hd1 by by destruct Hs1 as (?&->&?).
  destruct (IH (advance st) Hst1 Hd1 ltac:(lia)) as (r & st2 & -> & Hok & Hs & Hm & Hr). cbn [mbind option_bind].
  destruct r as [e|e]; cbn in Hr; [|by apply answers_err]. destruct Hr as [He Hm2].
  apply answers_ok; [done|done|done|]. cbn. by rewrite Ha.
Qed.

Ltac chain_ops := let k := fresh in intros k ? ?; destruct k; simplify_eq/=; done.

Lemma parse_cmp_good d pe : good d pe -> good d (parse_cmp pe).
Proof.
  intros Hpe st Hst Hd. unfold parse_cmp.
  assert (good d (parse_bitor pe)) as Hb.
  { do 6 (apply chain_good; [chain_ops|]). by apply parse_unary_good. }
  eapply answers_bind; [exact Hb|done|done|]. intros l st1 Hl Hst1 Hs1 Hm1.
  destruct (cmp_op (cur st1)) as [o|] eqn:Eo; [|by apply answers_ok].
  assert (cur st1 <> TEof /\ arity o = 2%nat) as [Hk Ha] by (destruct (cur st1); simplify_eq/=; done).
  destruct (advance_ok st1 Hst1) as (Hst2 & Hs2 & Hm2 & Hm2'). specialize (Hm2' Hk).
  apply (answers_later st (advance st1)); [by eapply same_source_trans|lia|].
  eapply answers_bind; [exact Hb|done|destruct Hs1 as (?&?&?), Hs2 as (?&?&?); congruence|].
  intros r st3 Hr Hst3 Hs3 Hm3. apply answers_ok; [done|done|done|]. cbn. by rewrite Ha, Hl, Hr.
Qed.

Lemma with_depth_ok d st : state_ok st -> state_ok (with_depth d st).
Proof. done. Qed.

(** Beyond the limit the guard stops before any recursion, so the fuel need
    only cover the levels below it. *)
Lemma parse_or_good n d : (MAX_EXPR_DEPTH < n + d)%nat -> (0 < n)%nat -> good d (parse_or n).
Proof.
  revert d. induction n as [|n IH]; intros d Hn Hpos st Hst Hd; [lia|]. cbn [parse_or]. rewrite Hd.
  destruct (Nat.ltb_spec MAX_EXPR_DEPTH (S d)) as [Hov|Hov].
  - eexists _, _. split; [reflexivity|]. split; [done|]. split; [by split_and!|]. split; [done|].
    eexists. split; [|reflexivity]. apply Hst.
  - assert (good (S d) (chain or_op (parse_and (parse_or n)))) as Hg.
    { do 2 (apply chain_good; [chain_ops|]). apply parse_cmp_good, IH; lia. }
    destruct (Hg (with_depth (S d) st) Hst eq_refl) as (r & st' & -> & Hok & (Hi & Hd' & Hb) & Hm & Hr).
    cbn [mbind option_bind]. exists r, (with_depth d st'). split; [done|]. split; [done|]. split; [by split_and!|].
    split; [done|]. exact Hr.
Qed.

Lemma new_parser_ok input base : state_ok (new_parser input base)
  /\ input_ (lexer_ (new_parser input base)) = input /\ depth_ (new_parser input base) = O
  /\ base_loc_ (new_parser input base) = base.
Proof.
  unfold new_parser, advance. cbn [lexer_].
  pose proof (next_ok (new_lexer input)) as Hn. destruct (next (new_lexer input)) as [t l].
  destruct Hn as (Ht & Hl & Hin & _); [unfold lexer_ok; cbn; lia|].
  split; [split; cbn; [done|by rewrite Hin]|]. by split_and!.
Qed.

(** The expression parser answers every input, and what it answers is
    usable: an accepted expression is a tree in which every operator has
    exactly its operands, literals fit [int64_t], and names are nonempty and
    classified as constants by the UPPER_SNAKE_CASE rule; a rejection carries a
    location inside the input, relative to the given base. *)
Theorem parse_expression_total (input : text) (base : SourceLoc) :
  exists r, parse_expression input base = Some r
    /\ match r with
       | POk e => expr_wf e = true
       | PErr e => exists p, (p <= length input)%nat
           /\ err_loc e = mkLoc (loc_file base) (loc_offset base + Z.of_nat p) (loc_line base) (loc_column base)
       end.
Proof.
  destruct (new_parser_ok input base) as (Hst & Hi & Hd & Hb). unfold parse_expression, parse.
  set (st := new_parser input base) in *.
  assert (forall e, err_ok st e -> exists p, (p <= length input)%nat
           /\ err_loc e = mkLoc (loc_file base) (loc_offset base + Z.of_nat p) (loc_line base) (loc_column base)) as Herr.
  { intros e (p & Hp & E). exists p. rewrite <- Hi. split; [done|]. rewrite E. unfold loc_at. by rewrite Hb. }
  destruct (parse_or_good (S MAX_EXPR_DEPTH) 0 ltac:(lia) ltac:(lia) st Hst Hd) as (r & st' & -> & Hok & Hs & Hm & Hr).
  cbn [mbind option_bind]. destruct r as [e|e]; cbn in Hr; [|by eexists; split; [reflexivity|apply Herr]].
  assert (forall msg, err_ok st (mkParseError msg (loc_at (tok_pos (current_ st')) st'))) as Hloc.
  { intros msg. eapply err_ok_same; [exact Hs|]. eexists. split; [|reflexivity]. apply Hok. }
  destruct (negb _); [|destruct (has_error _)]; (eexists; split; [reflexivity|]).
  - apply Herr, Hloc.
  - apply Herr, Hloc.
  - apply Hr.
Qed.
