(* ===== verification/ExprParserRoundtrip.v ===== *)
(** * The expression parser: printing and parsing again

    A printer that puts parentheses only where the grammar's precedence and
    associativity need them, and the proof that parsing what it prints gives
    the expression back.  This fixes the grammar the parser implements:
    precedence levels from [or] (0) to [*] (8), unary operators (9) and
    primaries (10), all binary operators left associative except the
    comparisons, which do not associate. *)

From stdpp Require Import base numbers list strings pretty.
From Stdlib Require Import ZArith Lia Ascii.
From S2P Require Import Prelude CharConv ExprParser ExprParserSpec.

Open Scope nat_scope.

(** ** Expressions without locations *)

Inductive Syn :=
  | SNum (n : Z) | SBool (b : bool) | SRemaining
  | SRef (first : text) (path : list text)
  | SBin (o : ExprOp) (l r : Syn)
  | SUn (o : ExprOp) (e : Syn).

Definition join (first : text) (path : list text) : text :=
  fold_left (fun n p => n ++ txt "." ++ p) path first.

(** The tree the parser builds for an expression. *)
Fixpoint represents (e : Expr) (s : Syn) {struct s} : Prop :=
  match s with
  | SNum n => op e = NumberLit /\ number_value e = n
  | SBool b => op e = BoolLit /\ bool_value e = b
  | SRemaining => op e = Remaining
  | SRef n path => op e = (if is_const (join n path) then ConstantRef else FieldRef) /\ name e = join n path
  | SBin o l r => op e = o
      /\ match left_ e, right_ e with Some el, Some er => represents el l /\ represents er r | _, _ => False end
  | SUn o s => op e = o
      /\ match left_ e, right_ e with Some el, None => represents el s | _, _ => False end
  end.

(** ** Printing *)

Definition Tk : Type := TokenKind * text * Z.

Definition level (o : ExprOp) : nat :=
  match o with
  | LogOr => 0 | LogAnd => 1
  | Eq | Neq | Lt | Lte | Gt | Gte => 2
  | BitOr => 3 | BitXor => 4 | BitAnd => 5
  | ShiftLeft | ShiftRight => 6
  | Add | Sub => 7
  | Mul | Div | Mod => 8
  | Negate | BitNot | LogNot => 9
  | _ => 10
  end.

Definition op_token (o : ExprOp) : Tk :=
  match o with
  | LogOr => (TOr, txt "or", 0%Z) | LogAnd => (TAnd, txt "and", 0%Z)
  | Eq => (TEq, txt "==", 0%Z) | Neq => (TNeq, txt "!=", 0%Z)
  | Lt => (TLt, txt "<", 0%Z) | Lte => (TLte, txt "<=", 0%Z)
  | Gt => (TGt, txt ">", 0%Z) | Gte => (TGte, txt ">=", 0%Z)
  | BitOr => (TPipe, txt "|", 0%Z) | BitXor => (TCaret, txt "^", 0%Z) | BitAnd => (TAmp, txt "&", 0%Z)
  | ShiftLeft => (TShiftLeft, txt "<<", 0%Z) | ShiftRight => (TShiftRight, txt ">>", 0%Z)
  | Add => (TPlus, txt "+", 0%Z) | Sub | Negate => (TMinus, txt "-", 0%Z)
  | Mul => (TStar, txt "*", 0%Z) | Div => (TSlash, txt "/", 0%Z) | Mod => (TPercent, txt "%", 0%Z)
  | BitNot => (TTilde, txt "~", 0%Z) | LogNot => (TNot, txt "not", 0%Z)
  | _ => (TEof, [], 0%Z)
  end.

Definition syn_level (s : Syn) : nat :=
  match s with SBin o _ _ | SUn o _ => level o | _ => 10 end.

(** Comparisons need a tighter left operand. *)
Definition left_level (o : ExprOp) : nat := if level o =? 2 then 3 else level o.

Definition parens (b : bool) (ts : list Tk) : list Tk :=
  if b then (TLParen, txt "(", 0%Z) :: ts ++ [(TRParen, txt ")", 0%Z)] else ts.

(** The tokens of [s] where an operand of level [k] or tighter is expected. *)
Fixpoint tokens (k : nat) (s : Syn) : list Tk :=
  parens (syn_level s <? k)
    match s with
    | SNum n => [(TNumber, numeral 10 n, n)]
    | SBool true => [(TTrue, txt "true", 0%Z)]
    | SBool false => [(TFalse, txt "false", 0%Z)]
    | SRemaining => [(TRemaining, txt "remaining", 0%Z)]
    | SRef n path => (TIdentifier, n, 0%Z)
        :: flat_map (fun p => [(TDot, txt ".", 0%Z); (TIdentifier, p, 0%Z)]) path
    | SBin o l r => tokens (left_level o) l ++ op_token o :: tokens (S (level o)) r
    | SUn o e => op_token o :: tokens 9 e
    end.

(** How deeply those parentheses nest. *)
Fixpoint nest (k : nat) (s : Syn) : nat :=
  (if syn_level s <? k then 1 else 0) +
  match s with
  | SBin o l r => Nat.max (nest (left_level o) l) (nest (S (level o)) r)
  | SUn o e => nest 9 e
  | _ => 0
  end.

Definition render (ts : list Tk) : text := flat_map (fun '(_, t, _) => t ++ [" "%char]) ts.
Definition print (s : Syn) : text := render (tokens 0 s).

(** Identifiers the lexer takes as one token, and printable expressions. *)
Definition identifier_ok (t : text) : bool :=
  match t with c :: _ => isalpha c || Ascii.eqb c "_" | [] => false end
  && (identifier_length t =? length t) && bool_decide (keyword t = TIdentifier).

Fixpoint syn_ok (s : Syn) : bool :=
  match s with
  | SNum n => (0 <=? n)%Z && (n <=? INT64_MAX)%Z
  | SRef n path => identifier_ok n && forallb identifier_ok path
  | SBin o l r => (arity o =? 2) && syn_ok l && syn_ok r
  | SUn o e => (arity o =? 1) && syn_ok e
  | _ => true
  end.

(** ** The parser as a family of levels *)

Definition ops (k : nat) : TokenKind -> option ExprOp :=
  match k with
  | 0 => or_op | 1 => and_op | 2 => cmp_op | 3 => bitor_op | 4 => xor_op | 5 => bitand_op
  | 6 => shift_op | 7 => add_op | 8 => mul_op | _ => fun _ => None
  end.

Definition level_parser (pe : Parser) (k : nat) : Parser :=
  match k with
  | 0 => chain or_op (parse_and pe) | 1 => parse_and pe | 2 => parse_cmp pe | 3 => parse_bitor pe
  | 4 => parse_xor pe | 5 => parse_bitand pe | 6 => parse_shift pe | 7 => parse_add pe | 8 => parse_mul pe
  | 9 => parse_unary pe | _ => parse_primary pe
  end.

Lemma level_parser_chain pe k : k <= 8 -> k <> 2 -> level_parser pe k = chain (ops k) (level_parser pe (S k)).
Proof. intros H1 H2. do 9 (destruct k as [|k]; [done|]). lia. Qed.

Lemma level_parser_good d pe k : good d pe -> good d (level_parser pe k).
Proof.
  intros H. assert (good d (parse_cmp pe)) as Hc by by apply parse_cmp_good.
  assert (good d (parse_unary pe)) as Hu by by apply parse_unary_good.
  do 10 (destruct k as [|k]; [first [exact Hc|exact Hu|repeat (apply chain_good; [chain_ops|])]; assumption|]).
  by apply parse_primary_good.
Qed.

(** ** Token streams *)

(** The tokens the parser will see, the current one first, up to the end. *)
Fixpoint stream (st : PState) (ts : list Tk) : Prop :=
  match ts with
  | [] => cur st = TEof /\ has_error (current_ st) = false
  | (k, t, n) :: ts =>
      cur st = k /\ tok_text (current_ st) = t /\ number (current_ st) = n
      /\ has_error (current_ st) = false /\ stream (advance st) ts
  end.

Lemma stream_depth d st ts : stream (with_depth d st) ts <-> stream st ts.
Proof.
  revert st. induction ts as [|[[k t] n] ts IH]; intros st; [done|]. cbn [stream].
  assert (advance (with_depth d st) = with_depth d (advance st)) as ->
    by (unfold advance, with_depth; cbn; by destruct (next (lexer_ st))).
  by rewrite IH.
Qed.

(** What may follow an operand of level [k]. *)
Definition stops (k : nat) (ts : list Tk) : Prop :=
  match ts with
  | [] => True
  | (K, _, _) :: _ => K <> TDot /\ forall j, k <= j -> ops j K = None
  end.

Lemma stops_mono k k' ts : k <= k' -> stops k ts -> stops k' ts.
Proof. intros Hk. destruct ts as [|[[K t] n] ts]; [done|]. intros [H1 H2]. split; [done|]. intros j Hj. apply H2. lia. Qed.

Lemma stops_ops k j st ts : stops k ts -> stream st ts -> k <= j -> ops j (cur st) = None.
Proof.
  intros Hs Hst Hj. destruct ts as [|[[K t] n] ts].
  - destruct Hst as [-> _]. do 9 (destruct j as [|j]; [done|]). done.
  - destruct Hst as [-> _]. by apply Hs.
Qed.

Lemma stops_dot k st ts : stops k ts -> stream st ts -> cur st <> TDot.
Proof. intros Hs Hst. destruct ts as [|[[K t] n] ts]; destruct Hst as [-> _]; [done|]. by apply Hs. Qed.

(** ** Parsing printed tokens *)

Definition parses (n d k : nat) (s : Syn) : Prop := forall st r,
  state_ok st -> depth_ st = d -> stops k r -> stream st (tokens k s ++ r) ->
  exists e st', level_parser (parse_or n) k st = Some (POk e, st') /\ stream st' r /\ represents e s.

(** The fuel and the depth below which [parse_or n] is total. *)
Definition enough (n d : nat) : Prop := MAX_EXPR_DEPTH < n + d /\ 0 < n.

Lemma good_result n d k st e st' :
  enough n d -> state_ok st -> depth_ st = d -> level_parser (parse_or n) k st = Some (POk e, st') ->
  state_ok st' /\ depth_ st' = d /\ mu st' < mu st.
Proof.
  intros [H1 H2] Hst Hd E.
  destruct (level_parser_good d (parse_or n) k (parse_or_good n d H1 H2) st Hst Hd) as (r & st1 & E1 & Hok & Hs & _ & Hr).
  rewrite E in E1. injection E1 as <- <-. destruct Hs as (_ & Hd' & _). split; [done|]. split; [congruence|apply Hr].
Qed.

Lemma stream_advance st k t n ts : state_ok st -> stream st ((k, t, n) :: ts) -> k <> TEof ->
  state_ok (advance st) /\ depth_ (advance st) = depth_ st /\ mu (advance st) < mu st /\ stream (advance st) ts.
Proof.
  intros Hst (Hk & _ & _ & _ & Hs) Hne. destruct (advance_ok st Hst) as (H1 & (_ & Hd & _) & _ & H3).
  split; [done|]. split; [done|]. split; [apply H3; congruence|done].
Qed.

(** Parentheses are the same at two neighbouring levels unless the expression
    is exactly of the lower one. *)
Lemma tokens_step k s : syn_level s <> k -> tokens k s = tokens (S k) s.
Proof.
  intros H. assert ((syn_level s <? k) = (syn_level s <? S k)) as E.
  { destruct (Nat.ltb_spec (syn_level s) k), (Nat.ltb_spec (syn_level s) (S k)); try done; lia. }
  destruct s; cbn [tokens]; by rewrite E.
Qed.

(** The first token of an operand that is no unary operation. *)
Lemma tokens_head s r : syn_ok s = true ->
  match tokens 10 s ++ r with (K, _, _) :: _ => unary_op K = None | [] => False end.
Proof.
  intros Hok. destruct s as [n|[]| |n path|o s1 s2|o s]; try done; by destruct o.
Qed.

(** Nothing of level [k] follows: the looser level returns the same. *)
Lemma parses_lower n d k s :
  enough n d -> syn_ok s = true -> syn_level s <> k -> k <= 9 -> parses n d (S k) s -> parses n d k s.
Proof.
  intros Hn Hok Hl Hk Hp st r Hst Hd Hr Hs. rewrite tokens_step in Hs by done.
  destruct (Hp st r Hst Hd (stops_mono _ _ _ (Nat.le_succ_diag_r k) Hr) Hs) as (e & st' & E & Hs' & He).
  destruct (good_result n d (S k) st e st' Hn Hst Hd E) as (Hst' & Hd' & Hm).
  exists e, st'. split; [|done]. destruct (decide (k = 9)) as [->|H9].
  { pose proof (tokens_head s r Hok) as Hh. destruct (tokens 10 s ++ r) as [|[[K t] m] ts]; [done|].
    destruct Hs as (HK & _). cbn [level_parser] in *. unfold parse_unary, fuel_for.
    cbn [Nat.add parse_unary_loop]. by rewrite HK, Hh. }
  pose proof (stops_ops k k st' r Hr Hs' (le_n k)) as Hno. destruct (decide (k = 2)) as [->|H2].
  { cbn [level_parser ops] in *. unfold parse_cmp. rewrite E. cbn [mbind option_bind]. by rewrite Hno. }
  rewrite level_parser_chain by lia. unfold chain. rewrite E. cbn [mbind option_bind]. unfold fuel_for.
  cbn [Nat.add chain_loop]. by rewrite Hno.
Qed.

Lemma parses_down n d j k s :
  enough n d -> syn_ok s = true -> k <= j -> j <= 10 ->
  (forall i, k <= i -> i < j -> syn_level s <> i) -> parses n d j s -> parses n d k s.
Proof.
  intros Hn Hok Hk Hj Hi Hp. remember (j - k) as m eqn:Em. revert k Hk Hi Em. induction m as [|m IH]; intros k Hk Hi Em.
  { by replace k with j by lia. }
  apply parses_lower; [done|done|apply Hi; lia|lia|]. apply IH; [lia|intros; apply Hi; lia|lia].
Qed.

(** ** Primaries *)

Lemma path_tokens fuel pos n path r st :
  state_ok st -> mu st < fuel -> stops 0 r \/ stops 10 r ->
  stream st (flat_map (fun p => [(TDot, txt ".", 0%Z); (TIdentifier, p, 0%Z)]) path ++ r) ->
  exists e st', path_loop fuel n pos st = Some (POk e, st') /\ stream st' r
    /\ op e = (if is_const (join n path) then ConstantRef else FieldRef) /\ name e = join n path.
Proof.
  intros Hst Hf Hr. assert (stops 10 r) as Hr' by (destruct Hr; [eapply stops_mono; [|done]; lia|done]). clear Hr.
  revert n st fuel Hst Hf. induction path as [|p path IH]; intros n st fuel Hst Hf Hs; (destruct fuel as [|fuel]; [lia|]).
  - cbn [flat_map app] in Hs. pose proof (stops_dot _ _ _ Hr' Hs) as Hd.
    exists (make_ref n pos st), st. split; [|done]. cbn [path_loop]. by destruct (cur st).
  - cbn [flat_map app] in Hs. destruct (stream_advance st _ _ _ _ Hst Hs) as (Hst1 & _ & Hm1 & Hs1); [done|].
    destruct (stream_advance _ _ _ _ _ Hst1 Hs1) as (Hst2 & _ & Hm2 & Hs2); [done|].
    destruct Hs as (Hk & _). destruct Hs1 as (Hk1 & Ht1 & _).
    cbn [path_loop]. rewrite Hk. cbn zeta. rewrite Hk1, Ht1.
    destruct (IH (n ++ txt "." ++ p) _ fuel Hst2 ltac:(lia) Hs2) as (e & st' & E & H'). exists e, st'. done.
Qed.

Lemma parses_atom n d s :
  enough n d -> syn_ok s = true -> match s with SBin _ _ _ | SUn _ _ => False | _ => True end -> parses n d 10 s.
Proof.
  intros Hn Hok Ha st r Hst Hd Hr Hs. cbn [level_parser]. unfold parse_primary.
  destruct s as [v|[]| |i path| |]; try done; cbn [tokens parens syn_level Nat.ltb Nat.leb app] in Hs;
    destruct Hs as (Hk & Ht & Hv & He & Hs'); unfold cur in Hk; rewrite Hk.
  - rewrite He, Hv. eexists _, _. split; [done|]. by split.
  - eexists _, _. split; [done|]. by split.
  - eexists _, _. split; [done|]. by split.
  - eexists _, _. split; [done|]. by split.
  - rewrite Ht. destruct (advance_ok st Hst) as (Hst1 & _ & _ & Hm). unfold cur in Hm. rewrite Hk in Hm.
    specialize (Hm ltac:(done)). pose proof (mu_fuel st Hst).
    eapply path_tokens; [done|lia|by right|done].
Qed.

(** A parenthesised expression, from its parse one nesting level deeper. *)
Lemma parses_parens n d s :
  enough n d -> d < MAX_EXPR_DEPTH -> syn_level s < 10 ->
  (forall n', enough n' (S d) -> parses n' (S d) 0 s) -> parses n d 10 s.
Proof.
  intros Hn Hd10 Hl Hp st r Hst Hd Hr Hs.
  assert (tokens 10 s = (TLParen, txt "(", 0%Z) :: tokens 0 s ++ [(TRParen, txt ")", 0%Z)]) as Et.
  { destruct s as [v|[]| |i path|o s1 s2|o s]; cbn in Hl; try lia; cbn [tokens syn_level];
      rewrite (proj2 (Nat.ltb_lt (level o) 10)) by lia; done. }
  rewrite Et in Hs. cbn [app] in Hs. rewrite <- app_assoc in Hs. cbn [app] in Hs.
  destruct (stream_advance st _ _ _ _ Hst Hs) as (Hst1 & Hd1 & _ & Hs1); [done|].
  destruct Hs as (Hk & _). cbn [level_parser]. unfold parse_primary. unfold cur in Hk. rewrite Hk.
  destruct n as [|n']; [destruct Hn; lia|]. cbn [parse_or]. rewrite Hd1, Hd.
  rewrite (proj2 (Nat.ltb_ge _ _)) by lia.
  assert (enough n' (S d)) as Hn' by (destruct Hn; split; lia).
  destruct (Hp n' Hn' (with_depth (S d) (advance st)) ((TRParen, txt ")", 0%Z) :: r)) as (e & st2 & E & Hs2 & He);
    [done|done|by split; [|intros [|[|[|[|[|[|[|[|[|j]]]]]]]]] _]|by apply stream_depth|].
  change (chain or_op (parse_and (parse_or n'))) with (level_parser (parse_or n') 0). rewrite E. cbn [mbind option_bind].
  exists e, (advance (with_depth d st2)). destruct Hs2 as (Hk2 & Ht2 & Hn2 & He2 & Hs2).
  change (cur (with_depth d st2)) with (cur st2). rewrite Hk2. split; [done|]. split; [|done].
  assert (advance (with_depth d st2) = with_depth d (advance st2)) as ->
    by (unfold advance, with_depth; cbn; by destruct (next (lexer_ st2))).
  by apply stream_depth.
Qed.

(** ** Operators *)

Lemma tokens_self s : tokens (syn_level s) s
  = match s with
    | SNum n => [(TNumber, numeral 10 n, n)]
    | SBool true => [(TTrue, txt "true", 0%Z)]
    | SBool false => [(TFalse, txt "false", 0%Z)]
    | SRemaining => [(TRemaining, txt "remaining", 0%Z)]
    | SRef n path => (TIdentifier, n, 0%Z)
        :: flat_map (fun p => [(TDot, txt ".", 0%Z); (TIdentifier, p, 0%Z)]) path
    | SBin o l r => tokens (left_level o) l ++ op_token o :: tokens (S (level o)) r
    | SUn o e => op_token o :: tokens 9 e
    end.
Proof. destruct s; cbn [tokens]; by rewrite Nat.ltb_irrefl. Qed.

(** Any fuel above the measure gives the same answer. *)
Lemma unary_fuel pe f f' st : state_ok st -> mu st < f -> mu st < f' ->
  parse_unary_loop pe f st = parse_unary_loop pe f' st.
Proof.
  revert f' st. induction f as [|f IH]; intros f' st Hst H1 H2; [lia|]. destruct f' as [|f']; [lia|].
  cbn [parse_unary_loop]. destruct (unary_op (cur st)) eqn:E; [|done].
  destruct (advance_ok st Hst) as (Hst1 & _ & _ & Hm).
  specialize (Hm ltac:(by destruct (cur st))). by rewrite (IH f' (advance st)) by (done || lia).
Qed.

Lemma parses_unary n d o s :
  enough n d -> arity o = 1 -> parses n d 9 s -> parses n d 9 (SUn o s).
Proof.
  intros Hn Ha Hp st r Hst Hd Hr Hs.
  assert (tokens 9 (SUn o s) = op_token o :: tokens 9 s) as Et by by destruct o.
  rewrite Et in Hs. cbn [app] in Hs. destruct (op_token o) as [[K t] v] eqn:Eo.
  assert (unary_op K = Some o /\ K <> TEof) as [HK Hne] by by destruct o; simplify_eq/=.
  destruct (stream_advance st _ _ _ _ Hst Hs) as (Hst1 & Hd1 & Hm1 & Hs1); [done|]. destruct Hs as (Hk & _).
  destruct (Hp (advance st) r Hst1 ltac:(congruence) Hr Hs1) as (e & st' & E & Hs' & He).
  exists (make_unary o e (tok_pos (current_ st)) st'), st'. split; [|by split; [|split; [done|]]].
  pose proof (mu_fuel st Hst) as Hf. cbn [level_parser] in *. unfold parse_unary in *.
  rewrite (unary_fuel _ _ (1 + length (input_ (lexer_ st))) _ Hst1) in E
    by (unfold fuel_for in Hf; first [by apply mu_fuel|lia]).
  unfold fuel_for. cbn [Nat.add parse_unary_loop] in *. rewrite Hk, HK, E. done.
Qed.

(** An operator token continues exactly its own level. *)
Lemma op_token_stops o k : arity o = 2 -> level o < k ->
  let '(K, _, _) := op_token o in K <> TDot /\ forall j, k <= j -> ops j K = None.
Proof.
  intros Ha Hk. destruct o; try done; (split; [done|]); cbn in Hk; intros j Hj;
    do 9 (destruct j as [|j]; [first [lia|done]|]); done.
Qed.

Lemma op_token_ops o : arity o = 2 ->
  let '(K, _, _) := op_token o in ops (level o) K = Some o /\ K <> TEof.
Proof. by destruct o. Qed.

Fixpoint syn_size (s : Syn) : nat :=
  match s with
  | SBin _ l r => 1 + syn_size l + syn_size r
  | SUn _ e => 1 + syn_size e
  | _ => 1
  end.

Lemma nest_step k s : syn_level s <> k -> nest k s = nest (S k) s.
Proof.
  intros H. assert ((syn_level s <? k) = (syn_level s <? S k)) as E.
  { destruct (Nat.ltb_spec (syn_level s) k), (Nat.ltb_spec (syn_level s) (S k)); try done; lia. }
  destruct s; cbn [nest]; by rewrite E.
Qed.

(** An expression of a binary level is a binary operation. *)
Lemma binary_inv s k : syn_ok s = true -> syn_level s = k -> k <= 8 ->
  exists o l r, s = SBin o l r /\ level o = k /\ arity o = 2 /\ syn_ok l = true /\ syn_ok r = true.
Proof.
  intros Hok Hl Hk. destruct s as [| | | |o l r|o e]; cbn in Hl; try lia.
  - cbn in Hok. apply andb_true_iff in Hok as [Hok Hr]. apply andb_true_iff in Hok as [Ha Hl'].
    apply Nat.eqb_eq in Ha. by exists o, l, r.
  - cbn in Hok. apply andb_true_iff in Hok as [Ha _]. destruct o; try done; cbn in Hl; lia.
Qed.

(** A left-associative chain: after the operands of [s], the loop holds [s]. *)
Lemma chain_spine n d k s :
  enough n d -> k <= 8 -> k <> 2 -> syn_ok s = true -> nest k s + d <= MAX_EXPR_DEPTH ->
  (forall s', syn_size s' < syn_size s -> syn_ok s' = true -> nest (S k) s' + d <= MAX_EXPR_DEPTH -> parses n d (S k) s') ->
  syn_level s = k \/ parses n d (S k) s ->
  forall st r, state_ok st -> depth_ st = d -> stops (S k) r -> stream st (tokens k s ++ r) ->
  exists e st1 f, chain (ops k) (level_parser (parse_or n) (S k)) st
      = chain_loop f (ops k) (level_parser (parse_or n) (S k)) e st1
    /\ stream st1 r /\ represents e s /\ state_ok st1 /\ depth_ st1 = d /\ mu st1 < f.
Proof.
  intros Hn Hk Hk2. remember (syn_size s) as N eqn:EN. revert s EN.
  induction (lt_wf N) as [N _ IH]. intros s -> Hok Hnest Hsub Hs st r Hst Hd Hr Hstr.
  destruct (decide (syn_level s = k)) as [El|El].
  - destruct (binary_inv s k Hok El Hk) as (o & l & rt & -> & Ho & Ha & Hokl & Hokr).
    assert (left_level o = k) as Ell by (unfold left_level; rewrite Ho; by rewrite (proj2 (Nat.eqb_neq k 2))).
    assert (tokens k (SBin o l rt) = tokens k l ++ op_token o :: tokens (S k) rt) as Et.
    { pose proof (tokens_self (SBin o l rt)) as E. cbn [syn_level] in E. by rewrite Ell, Ho in E. }
    assert (nest k (SBin o l rt) = Nat.max (nest k l) (nest (S k) rt)) as En.
    { cbn [nest syn_level]. by rewrite Ho, Nat.ltb_irrefl, Ell. }
    rewrite Et, <- app_assoc in Hstr. cbn [app] in Hstr.
    destruct (op_token o) as [[K t] v] eqn:Eo.
    pose proof (op_token_stops o (S k) Ha ltac:(lia)) as Hst_op. rewrite Eo in Hst_op.
    pose proof (op_token_ops o Ha) as Hop. rewrite Eo, Ho in Hop. destruct Hop as [HK Hne].
    destruct (IH (syn_size l) ltac:(cbn [syn_size]; lia) l eq_refl Hokl ltac:(lia)) with (st := st) (r := (K, t, v) :: tokens (S k) rt ++ r)
      as (el & st1 & f & E1 & Hs1 & He1 & Hst1 & Hd1 & Hf1); try done.
    { intros s' Hsz. apply Hsub. cbn [syn_size]. lia. }
    { destruct (decide (syn_level l = k)) as [?|Hll]; [by left|right].
      apply Hsub; [cbn [syn_size]; lia|done|]. rewrite <- nest_step by done. lia. }
    destruct (stream_advance st1 _ _ _ _ Hst1 Hs1 Hne) as (Hst2 & Hd2 & Hm2 & Hs2).
    destruct Hs1 as (Hk1 & _).
    destruct (Hsub rt ltac:(cbn [syn_size]; lia) Hokr ltac:(lia) (advance st1) r Hst2 ltac:(congruence) Hr Hs2)
      as (er & st3 & E3 & Hs3 & He3).
    destruct (good_result n d (S k) _ _ _ Hn Hst2 ltac:(congruence) E3) as (Hst3 & Hd3 & Hm3).
    destruct f as [|f]; [lia|].
    exists (make_binary o el er (tok_pos (current_ st1)) st3), st3, f. rewrite E1. cbn [chain_loop].
    rewrite Hk1, HK, E3. cbn [mbind option_bind]. split_and!; try done. lia.
  - destruct Hs as [?|Hp]; [done|]. rewrite tokens_step in Hstr by done.
    destruct (Hp st r Hst Hd Hr Hstr) as (e & st1 & E & Hs1 & He).
    destruct (good_result n d (S k) _ _ _ Hn Hst Hd E) as (Hst1 & Hd1 & _).
    exists e, st1, (fuel_for st1). unfold chain. rewrite E. cbn [mbind option_bind]. split_and!; try done. by apply mu_fuel.
Qed.

Lemma parses_chain n d o l r :
  enough n d -> arity o = 2 -> level o <> 2 -> syn_ok (SBin o l r) = true ->
  nest (level o) (SBin o l r) + d <= MAX_EXPR_DEPTH ->
  (forall s' k, k <= 10 -> syn_size s' < syn_size (SBin o l r) -> syn_ok s' = true -> nest k s' + d <= MAX_EXPR_DEPTH -> parses n d k s') ->
  parses n d (level o) (SBin o l r).
Proof.
  intros Hn Ha H2 Hok Hnest Hsub st rs Hst Hd Hr Hs.
  assert (level o <= 8) as H8 by (destruct o; cbn in *; lia).
  destruct (chain_spine n d (level o) (SBin o l r) Hn H8 H2 Hok Hnest) with (st := st) (r := rs)
    as (e & st1 & f & E & Hs1 & He & Hst1 & _ & Hf); try done.
  { intros s' Hsz Hok' Hn'. apply Hsub; [lia|done|done|done]. }
  { by left. }
  { eapply stops_mono; [|exact Hr]. lia. }
  exists e, st1. rewrite level_parser_chain, E by done. destruct f as [|f]; [lia|]. cbn [chain_loop].
  rewrite (stops_ops _ _ _ _ Hr Hs1 (le_n _)). done.
Qed.

(** Comparisons do not associate. *)
Lemma parses_comparison n d o l r :
  enough n d -> level o = 2 -> arity o = 2 -> parses n d 3 l -> parses n d 3 r -> parses n d 2 (SBin o l r).
Proof.
  intros Hn H2 Ha Hl Hrt st rs Hst Hd Hr Hs.
  assert (tokens 2 (SBin o l r) = tokens 3 l ++ op_token o :: tokens 3 r) as Et.
  { pose proof (tokens_self (SBin o l r)) as E. cbn [syn_level] in E. unfold left_level in E. by rewrite H2 in E. }
  rewrite Et, <- app_assoc in Hs. cbn [app] in Hs. destruct (op_token o) as [[K t] v] eqn:Eo.
  pose proof (op_token_stops o 3 Ha ltac:(lia)) as Hst_op. rewrite Eo in Hst_op.
  pose proof (op_token_ops o Ha) as Hop. rewrite Eo, H2 in Hop. destruct Hop as [HK Hne].
  destruct (Hl st ((K, t, v) :: tokens 3 r ++ rs) Hst Hd Hst_op Hs) as (el & st1 & E1 & Hs1 & He1).
  destruct (good_result n d 3 _ _ _ Hn Hst Hd E1) as (Hst1 & Hd1 & _).
  destruct (stream_advance st1 _ _ _ _ Hst1 Hs1 Hne) as (Hst2 & Hd2 & Hm2 & Hs2). destruct Hs1 as (Hk1 & _).
  destruct (Hrt (advance st1) rs Hst2 ltac:(congruence) (stops_mono 2 3 _ ltac:(lia) Hr) Hs2) as (er & st3 & E3 & Hs3 & He3).
  exists (make_binary o el er (tok_pos (current_ st1)) st3), st3. split; [|by split].
  cbn [level_parser ops] in *. unfold parse_cmp. rewrite E1. cbn [mbind option_bind]. by rewrite Hk1, HK, E3.
Qed.

(** Every printable expression parses at every level. *)
Lemma parses_all s n d k :
  enough n d -> k <= 10 -> syn_ok s = true -> nest k s + d <= MAX_EXPR_DEPTH -> parses n d k s.
Proof.
  remember (syn_size s) as N eqn:EN. revert s EN n d k. induction (lt_wf N) as [N _ IH]. intros s -> n d k Hn Hk Hok Hnest.
  assert (forall n d, enough n d -> nest (syn_level s) s + d <= MAX_EXPR_DEPTH -> parses n d (syn_level s) s) as Hown.
  { clear n d k Hn Hk Hnest. intros n d Hn Hnest. destruct s as [v|b| |i path|o l r|o e];
      try (by apply parses_atom).
    - cbn in Hok. apply andb_true_iff in Hok as [Hok Hr]. apply andb_true_iff in Hok as [Ha Hl]. apply Nat.eqb_eq in Ha.
      destruct (decide (level o = 2)) as [E2|E2].
      + cbn [syn_level nest] in *. unfold left_level in Hnest. rewrite E2 in *. cbn [Nat.eqb] in Hnest.
        rewrite Nat.ltb_irrefl in Hnest.
        apply parses_comparison; [done|done|done| |]; (eapply IH; [|reflexivity|done|lia|done|lia]); cbn [syn_size]; lia.
      + apply parses_chain; [done|done|done|cbn; by rewrite Ha, Hl, Hr|done|].
        intros s' k' Hk' Hsz Hok' Hn'. eapply IH; [|reflexivity|done|done|done|done]. done.
    - cbn in Hok. apply andb_true_iff in Hok as [Ha He]. apply Nat.eqb_eq in Ha.
      assert (level o = 9) as E9 by by destruct o. cbn [syn_level nest] in *. rewrite E9 in *. cbn in Hnest.
      apply parses_unary; [done|done|]. eapply IH; [|reflexivity|done|lia|done|lia]. cbn [syn_size]. lia. }
  destruct (Nat.le_gt_cases k (syn_level s)) as [Hle|Hgt].
  - assert (nest (syn_level s) s = nest k s) as En.
    { destruct s; cbn [nest]; rewrite Nat.ltb_irrefl; by rewrite (proj2 (Nat.ltb_ge _ _)) by done. }
    apply (parses_down n d (syn_level s)); [done|done|done| |lia|apply Hown; [done|lia]].
    destruct s as [| | | |o l r|o e]; cbn; try lia; destruct o; cbn; lia.
  - assert (nest k s = S (nest (syn_level s) s)) as En.
    { destruct s; cbn [nest]; rewrite Nat.ltb_irrefl; by rewrite (proj2 (Nat.ltb_lt _ _)) by done. }
    apply (parses_down n d 10); [done|done|done|done|lia|].
    apply parses_parens; [done|lia|lia|]. intros n' Hn'.
    apply (parses_down n' (S d) (syn_level s)); [done|done|lia|lia|lia|]. apply Hown; [done|lia].
Qed.

(** ** Lexing what was printed *)

(** A token text, followed by a space, that the lexer reads as this token. *)
Definition lexes (tk : Tk) : Prop :=
  let '(k, t, n) := tk in
  match t with c :: _ => isspace c = false | [] => False end
  /\ forall l r, rest l = t ++ " "%char :: r ->
     next l = (mkToken k t n (pos_ l) false, move (length t) l).

Lemma move_0 l : move 0 l = l.
Proof. destruct l. unfold move. cbn. by rewrite Nat.add_0_r. Qed.

Lemma skip_none l c t : rest l = c :: t -> isspace c = false -> skip_whitespace l = l.
Proof. intros E Hc. unfold skip_whitespace. rewrite E. cbn. by rewrite Hc, move_0. Qed.

Lemma rest_move n l : rest (move n l) = drop n (rest l).
Proof. unfold rest, move. cbn. by rewrite drop_drop. Qed.

Lemma lexes_op t k : (k, t, 0%Z) ∈ [(TLParen, txt "(", 0%Z); (TRParen, txt ")", 0%Z); (TDot, txt ".", 0%Z);
    (TTrue, txt "true", 0%Z); (TFalse, txt "false", 0%Z); (TRemaining, txt "remaining", 0%Z)]
  \/ (exists o, op_token o = (k, t, 0%Z) /\ arity o <> 0) -> lexes (k, t, 0%Z).
Proof.
  intros Hin.
  assert (forall c t', t = c :: t' -> isspace c = false ->
    (forall l r, rest l = (c :: t') ++ " "%char :: r ->
       (if isdigit c then lex_number l else if isalpha c || Ascii.eqb c "_" then lex_identifier l
        else lex_operator c (t' ++ " "%char :: r) l) = (mkToken k t 0 (pos_ l) false, move (length t) l)) ->
    lexes (k, t, 0%Z)) as Hgen.
  { intros c t' -> Hsp Hl. split; [done|]. intros l r E. unfold next. cbn [app] in E.
    rewrite (skip_none l c _ E Hsp), E. by apply Hl with (r := r). }
  assert (forall x : Tk, x = (k, t, 0%Z) -> lexes x -> lexes (k, t, 0%Z)) as Hx by by intros ? ->.
  destruct Hin as [Hin|(o & Ho & Ha)].
  - repeat (apply elem_of_cons in Hin as [[= -> ->]|Hin]); [..|by apply elem_of_nil in Hin];
      (eapply Hgen; [reflexivity|reflexivity|]); intros l r E; cbn in E |- *;
      unfold lex_identifier, lex_operator, lexeme; rewrite E; done.
  - destruct o; cbn in Ho; try (by destruct Ha); injection Ho as <- <-;
      (eapply Hgen; [reflexivity|reflexivity|]); intros l r E; cbn in E |- *;
      unfold lex_identifier, lex_operator, lexeme; rewrite E; done.
Qed.

Lemma identifier_length_app t r : identifier_length t = length t ->
  identifier_length (t ++ " "%char :: r) = length t.
Proof.
  induction t as [|c t IH]; [done|]. cbn [identifier_length app length].
  destruct (is_word c); [intros [= H]; by rewrite IH|].
  destruct (Ascii.eqb c "-"); [|done]. destruct t as [|c' t]; [done|].
  cbn [app]. destruct (is_word c') eqn:E; [|done]. intros H. injection H as H.
  change (c' :: t ++ " "%char :: r) with ((c' :: t) ++ " "%char :: r). by rewrite IH.
Qed.

Lemma lexes_identifier t : identifier_ok t = true -> lexes (TIdentifier, t, 0%Z).
Proof.
  unfold identifier_ok. intros H. apply andb_true_iff in H as [H Hk]. apply andb_true_iff in H as [Hc Hl].
  apply Nat.eqb_eq in Hl. apply bool_decide_eq_true in Hk. destruct t as [|c t]; [done|].
  assert (isspace c = false /\ isdigit c = false) as [Hsp Hd].
  { unfold isalpha, isupper, islower, isspace, isdigit, in_range in *. apply orb_true_iff in Hc as [Hc|Hc%Ascii.eqb_eq]; [|by subst].
    apply orb_true_iff in Hc as [Hc|Hc]; bool_to_prop;
      (split; [apply orb_false_iff; split; [apply andb_false_iff|]; lia|apply andb_false_iff; lia]). }
  split; [done|]. intros l r E. unfold next. rewrite (skip_none l c _ E Hsp), E. cbn [app].
  rewrite Hd, Hc. unfold lex_identifier, lexeme. rewrite E, (identifier_length_app (c :: t) r Hl).
  by rewrite take_app_length, Hk.
Qed.

Lemma digit10 c : is_digit_of 10 c = isdigit c.
Proof.
  unfold is_digit_of, digit_value. pose proof (N_ascii_bounded c). unfold isdigit, islower, isupper, in_range.
  assert (0 <= code c)%Z by (unfold code; lia). repeat case_match; bool_to_prop; lia.
Qed.

Lemma lexes_number n : (0 <= n <= INT64_MAX)%Z -> lexes (TNumber, numeral 10 n, n).
Proof.
  intros Hn. pose proof (numeral_digits 10 n ltac:(lia)) as Hd. pose proof (numeral_nonempty 10 n) as Hne.
  pose proof (from_chars_numeral 10 n [] ltac:(lia) Hn eq_refl) as Hf. rewrite app_nil_r in Hf.
  destruct (numeral 10 n) as [|c t]; [done|]. inversion Hd as [|? ? Hc Ht]; subst. rewrite digit10 in Hc.
  assert (isspace c = false) as Hsp.
  { unfold isspace, isdigit, in_range in *. bool_to_prop. apply orb_false_iff. split; [apply andb_false_iff|]; lia. }
  assert (forall x y, is_digit_of 10 y = true \/ y = " "%char -> (Ascii.eqb x "0" && is_x y) = false) as Hx.
  { intros x y Hy. apply andb_false_iff. right. unfold is_x. destruct Hy as [Hy| ->]; [|done]. rewrite digit10 in Hy.
    apply orb_false_iff. split; apply Ascii.eqb_neq; by intros ->. }
  assert (forall r, hex_prefix ((c :: t) ++ r) = false \/ exists y r', t = [] /\ r = y :: r') as Hh.
  { intros r. destruct t as [|y t]; [destruct r as [|y r']; [by left|right; eauto]|].
    left. cbn. apply Hx. left. by inversion Ht. }
  assert (forall r, prefix_len isdigit ((c :: t) ++ " "%char :: r) = length (c :: t)) as Hp.
  { intros r. rewrite prefix_len_app; [change (prefix_len isdigit (" "%char :: r)) with 0; lia|]. constructor; [done|].
    eapply Forall_impl; [exact Ht|]. intros x Hxd. cbv beta in Hxd. by rewrite digit10 in Hxd. }
  split; [done|]. intros l r E. unfold next. rewrite (skip_none l c _ E Hsp), E. cbn [app]. rewrite Hc.
  unfold lex_number, lexeme, number_length. rewrite E.
  assert (hex_prefix ((c :: t) ++ " "%char :: r) = false) as ->.
  { destruct (Hh (" "%char :: r)) as [?|(y & r' & -> & [= <- <-])]; [done|]. apply (Hx c " "%char). by right. }
  rewrite Hp, take_app_length.
  assert (hex_prefix (c :: t) = false) as ->.
  { destruct (Hh []) as [Hh'|(y & r' & _ & ?)]; [by rewrite app_nil_r in Hh'|done]. }
  by rewrite andb_false_r, Hf.
Qed.

Ltac in_list := apply list_elem_of_In; simpl; tauto.

Lemma lexes_tokens k s : syn_ok s = true -> Forall lexes (tokens k s).
Proof.
  revert k. induction s as [n|b| |i path|o l IHl r IHr|o e IHe]; intros k Hok; cbn [tokens];
    (assert (forall b ts, Forall lexes ts -> Forall lexes (parens b ts)) as Hpar;
     [intros [] ts H; [|done]; unfold parens; constructor; [apply lexes_op; left; in_list|];
      apply Forall_app; split; [done|]; constructor; [apply lexes_op; left; in_list|constructor]|]); apply Hpar; clear Hpar.
  - constructor; [|constructor]. apply lexes_number. cbn in Hok. bool_to_prop. lia.
  - destruct b; (constructor; [|constructor]); apply lexes_op; left; in_list.
  - constructor; [|constructor]. apply lexes_op; left; in_list.
  - cbn in Hok. apply andb_true_iff in Hok as [Hi Hpath]. constructor; [by apply lexes_identifier|].
    clear Hi.
    induction path as [|p path IH]; [constructor|]. cbn in Hpath. apply andb_true_iff in Hpath as [Hp Hpath].
    cbn [flat_map app]. constructor; [apply lexes_op; left; in_list|]. constructor; [by apply lexes_identifier|by apply IH].
  - cbn in Hok. apply andb_true_iff in Hok as [Hok Hr]. apply andb_true_iff in Hok as [Ha Hl]. apply Nat.eqb_eq in Ha.
    apply Forall_app. split; [by apply IHl|]. constructor; [|by apply IHr].
    assert (exists K t, op_token o = (K, t, 0%Z)) as (K & t & E) by (destruct o; eauto).
    rewrite E. apply lexes_op. right. exists o. split; [done|lia].
  - cbn in Hok. apply andb_true_iff in Hok as [Ha He]. apply Nat.eqb_eq in Ha. constructor; [|by apply IHe].
    assert (exists K t, op_token o = (K, t, 0%Z)) as (K & t & E) by (destruct o; eauto).
    rewrite E. apply lexes_op. right. exists o. split; [done|lia].
Qed.

(** The parser sees the printed tokens. *)
Lemma rendered_stream ts l w d b tk :
  Forall lexes ts -> (w = [] \/ w = [" "%char]) -> rest l = w ++ render ts ->
  stream (advance (mkState l tk d b)) ts.
Proof.
  intros Hl. revert l w tk. induction Hl as [|[[k t] n] ts [Hsp Hk] Hts IH]; intros l w tk Hw E.
  - unfold advance. cbn [lexer_]. cbn [render flat_map] in E. rewrite app_nil_r in E.
    assert (next l = (mkToken TEof [] 0 (pos_ (skip_whitespace l)) false, skip_whitespace l)) as ->; [|done].
    unfold next. assert (rest (skip_whitespace l) = []) as ->; [|done].
    unfold skip_whitespace. rewrite rest_move, E. by destruct Hw as [-> | ->].
  - assert (exists l1, next l = (mkToken k t n (pos_ l1) false, move (length t) l1)
      /\ rest (move (length t) l1) = [" "%char] ++ render ts) as (l1 & En & Er).
    { cbn [render flat_map] in E. rewrite <- app_assoc in E. cbn [app] in E.
      change (flat_map (λ '(_, t, _), t ++ [" "%char]) ts) with (render ts) in E.
      destruct t as [|c t]; [done|]. set (l1 := skip_whitespace l).
      assert (rest l1 = (c :: t) ++ " "%char :: render ts) as E1.
      { subst l1. unfold skip_whitespace. rewrite rest_move, E. destruct Hw as [-> | ->].
        - cbn [app prefix_len]. by rewrite Hsp.
        - cbn [app prefix_len]. change (isspace " "%char) with true. cbn match. by rewrite Hsp. }
      exists l1. split; [|by rewrite rest_move, E1, drop_app_length].
      rewrite <- (Hk l1 (render ts) E1). unfold next at 2. rewrite (skip_none l1 c _ E1 Hsp). done. }
    cbn [stream]. unfold advance at 1 2 3 4. cbn [lexer_]. rewrite En. unfold cur. cbn [current_ kind tok_text number has_error].
    split_and!; try done. unfold advance at 2. cbn [lexer_ depth_ base_loc_]. rewrite En.
    eapply IH; [by right|exact Er].
Qed.

Lemma print_parses (s : Syn) (base : SourceLoc) :
  syn_ok s = true -> nest 0 s < MAX_EXPR_DEPTH ->
  exists e, parse_expression (print s) base = Some (POk e) /\ represents e s.
Proof.
  intros Hok Hnest. unfold parse_expression, parse.
  assert (stream (new_parser (print s) base) (tokens 0 s ++ [])) as Hs.
  { rewrite app_nil_r. eapply rendered_stream; [by apply lexes_tokens|by left|]. done. }
  destruct (new_parser_ok (print s) base) as (Hst & _ & Hd & _). set (st := new_parser (print s) base) in *.
  destruct (parses_all s MAX_EXPR_DEPTH 1 0) with (st := with_depth 1 st) (r := @nil Tk) as (e & st' & E & Hs' & He);
    [by split; lia|lia|done|lia|done|done|done|by apply stream_depth|].
  cbn [parse_or]. rewrite Hd. cbn [Nat.ltb Nat.leb MAX_EXPR_DEPTH].
  change (chain or_op (parse_and (parse_or MAX_EXPR_DEPTH))) with (level_parser (parse_or MAX_EXPR_DEPTH) 0).
  change (parse_or 128) with (parse_or MAX_EXPR_DEPTH). rewrite E. cbn [mbind option_bind].
  destruct Hs' as [Hk Hne]. exists e. split; [|done].
  rewrite bool_decide_true by done. cbn [negb]. change (current_ (with_depth 0 st')) with (current_ st'). by rewrite Hne.
Qed.

(** C13: Printing and parsing again gives the expression back: for every
    expression whose names and literals are lexically valid, the text printed
    with parentheses only where precedence and associativity demand them is
    accepted and parses to exactly that expression, constants and field
    references told apart by their spelling, as long as the parentheses nest
    less deep than the parser's limit. *)
Theorem parse_print (s : Syn) (base : SourceLoc) :
  syn_ok s = true -> nest 0 s < MAX_EXPR_DEPTH ->
  exists e, parse_expression (print s) base = Some (POk e) /\ represents e s.
Proof. apply print_parses. Qed.

Definition sample_syn : Syn :=
  SBin LogAnd (SBin Lt (SRef (txt "hdr") [txt "msg-len"]) (SBin Mul (SNum 2) (SBin Add (SRef (txt "MAX_LEN") []) (SNum 31))))
    (SUn LogNot (SBin Eq (SBin Sub (SBin Sub (SNum 7) (SNum 2)) (SUn Negate (SNum 1))) SRemaining)).

Lemma parse_print_witness :
  exists e, parse_expression (print sample_syn) (mkLoc "" 0 0 0) = Some (POk e) /\ represents e sample_syn.
Proof.
  apply (parse_print sample_syn (mkLoc "" 0 0 0)).
  - reflexivity.
  - unfold MAX_EXPR_DEPTH. cbn. lia.
Defined.

(** ** The nesting limit does not cover unary operators *)

Fixpoint negations (n : nat) : Syn :=
  match n with O => SNum 1 | S n => SUn Negate (negations n) end.

(** The nesting limit of 128 does not bound the nesting of unary
    operators: any number of minus signs before a literal is accepted, each
    one a level of the tree and a nested call of [parse_unary]. *)
Theorem unary_nesting_unlimited (n : nat) (base : SourceLoc) :
  exists e, parse_expression (print (negations n)) base = Some (POk e) /\ represents e (negations n).
Proof.
  assert (syn_ok (negations n) = true /\ nest 9 (negations n) = 0) as [Hok Hn].
  { induction n as [|n [H1 H2]]; [done|]. cbn [negations syn_ok nest syn_level level]. by rewrite H1, H2. }
  apply print_parses; [done|]. assert (nest 0 (negations n) = 0) as ->; [by destruct n|unfold MAX_EXPR_DEPTH; lia].
Qed.
