(* ===== verification/AstBuilder.v ===== *)
(** * Building the protocol

    Models [conduit/bgen/src/model/ast_builder.cpp]: the files an import tree
    resolved to are merged into one protocol, and the protocol's defaults are
    filled in where a field or type does not say otherwise. *)

From stdpp Require Import base numbers list strings.
From Stdlib Require Import ZArith Lia.
From S2P Require Import Prelude ExprParser Ast.

Open Scope Z_scope.

Record BuildError := mkBuildError { build_message : string; build_loc : SourceLoc }.
Inductive BuildResult := Built (p : Protocol) | BuildFailed (errors : list BuildError).

Definition no_loc (file : string) : SourceLoc := mkLoc file 0 0 0.

Definition is_text_ref (ref : string) : bool := String.eqb ref "string" || String.eqb ref "bytes".

(** [if (!o) o = d]. *)
Definition or_default {A} (o : option A) (d : A) : option A := match o with Some _ => o | None => Some d end.

Definition apply_defaults_to_field (d : Defaults) (f : Field) : Field :=
  let f := if f_endian_explicit f then f else set_endian (def_endian d) f in
  if is_text_ref (f_type_ref f) then
    set_text_attrs (or_default (f_encoding f) (def_encoding d)) (or_default (f_padding f) (def_padding d))
      (or_default (f_trim f) (def_trim d)) f
  else f.

Definition apply_defaults_to_children (d : Defaults) : list StructChild -> list StructChild :=
  map (map_child (apply_defaults_to_field d)).

Definition apply_defaults_to_struct (d : Defaults) (s : StructDef) : StructDef :=
  set_sd_children (apply_defaults_to_children d (sd_children s)) s.

Definition apply_defaults_to_type (d : Defaults) (t : TypeDef) : TypeDef :=
  let text := bool_decide (td_base t = BaseString) || bool_decide (td_base t = BaseBytes) in
  mkTypeDef (td_name t) (td_base t) (td_bits t)
    (if td_endian_explicit t then td_endian t else def_endian d) (td_endian_explicit t)
    (td_format t) (td_format_explicit t) (td_wire_encoding t) (td_wire_encoding_explicit t)
    (td_scale t) (td_offset t) (td_unit t) (td_enum_values t) (td_flags t) (td_constraint t) (td_length t)
    (if text && negb (td_encoding_explicit t) then def_encoding d else td_encoding t) (td_encoding_explicit t)
    (if text && negb (td_padding_explicit t) then def_padding d else td_padding t) (td_padding_explicit t)
    (if text && negb (td_trim_explicit t) then def_trim d else td_trim t) (td_trim_explicit t)
    (td_terminated t) (td_max_length t) (td_char_bits t) (td_annotations t) (td_doc t) (td_loc t).

(** [f.types.empty() && ...]: an import that adds nothing. *)
Definition defines_nothing (f : BmdlFile) : bool :=
  negb (has_protocol f)
  && match file_types f, file_structs f, file_messages f, file_constants f with
     | [], [], [], [] => true
     | _, _, _, _ => false
     end.

(** One round of the merge loop. *)
Definition merge_file (protocol_defaults : Defaults) (p : Protocol) (f : BmdlFile) : Protocol :=
  let d := if has_protocol f then file_defaults f else protocol_defaults in
  mkProtocol (proto_name p) (proto_version p) (proto_bmdl_version p) (proto_defaults p)
    (proto_imports p ++ file_imports f)
    (proto_constants p ++ file_constants f)
    (proto_types p ++ map (apply_defaults_to_type d) (file_types f))
    (proto_structs p ++ map (apply_defaults_to_struct d) (file_structs f))
    (proto_messages p ++
       map (fun m => set_msg_children (apply_defaults_to_children d (msg_children m)) m) (file_messages f))
    (proto_frames p ++
       map (fun fr => set_frame_children (apply_defaults_to_children d (header_fields fr))
                        (apply_defaults_to_children d (footer_fields fr)) fr) (file_frames f))
    (proto_warnings p
       ++ (if defines_nothing f
           then [("imported file '" +:+ file_path f +:+ "' contains no definitions", file_loc f)] else [])
       ++ file_warnings f)
    (proto_doc p) (proto_loc p).

(** [build_protocol] on the outcome of [resolve_imports(root_path)]. *)
Definition build_protocol (root_path : string) (resolved : list BuildError + list BmdlFile) : BuildResult :=
  match resolved with
  | inl errors => BuildFailed errors
  | inr files =>
      match filter (fun f => has_protocol f = true) files with
      | [] => BuildFailed [mkBuildError
          "no protocol file found — expected <defaults> or <frame> in at least one file" (no_loc root_path)]
      | [f] =>
          Built (fold_left (merge_file (file_defaults f)) files
            (mkProtocol (protocol_name f) (protocol_version f) (file_bmdl_version f) (file_defaults f)
               [] [] [] [] [] [] [] (file_doc f) (file_loc f)))
      | _ => BuildFailed [mkBuildError
          "multiple protocol files found — only one file may define <defaults> or <frame>" (no_loc root_path)]
      end
  end.

(** ** What the merge contains *)

(** The fields a file contributes, in the order the protocol lists them. *)
Definition message_fields (f : BmdlFile) : list Field := flat_map (fun m => fields_of (msg_children m)) (file_messages f).
Definition struct_fields (f : BmdlFile) : list Field := flat_map (fun s => fields_of (sd_children s)) (file_structs f).
Definition frame_fields (f : BmdlFile) : list Field :=
  flat_map (fun d => fields_of (header_fields d) ++ fields_of (footer_fields d)) (file_frames f).

Lemma flat_map_snoc {A B} (g : A -> list B) l x : flat_map g (l ++ [x]) = flat_map g l ++ g x.
Proof. by rewrite flat_map_app; cbn; rewrite app_nil_r. Qed.

(** Accumulating a per-file list is concatenating it over the files. *)
Lemma merge_collects {A} (get : Protocol -> list A) (part : BmdlFile -> list A) d files p :
  (forall p f, f ∈ files -> get (merge_file d p f) = get p ++ part f) ->
  get (fold_left (merge_file d) files p) = get p ++ flat_map part files.
Proof.
  revert p. induction files as [|f files IH]; intros p H; cbn; [by rewrite app_nil_r|].
  rewrite IH by (intros; apply H; by right). rewrite H by (by left). by rewrite app_assoc.
Qed.

Lemma fields_of_defaults d l : fields_of (apply_defaults_to_children d l) = map (apply_defaults_to_field d) (fields_of l).
Proof. apply fields_of_map. Qed.

Lemma flat_map_fields {A} (g : Field -> Field) (h : A -> A) (k : A -> list StructChild) (l : list A) :
  (forall x, k (h x) = map (map_child g) (k x)) ->
  flat_map (fun x => fields_of (k x)) (map h l) = map g (flat_map (fun x => fields_of (k x)) l).
Proof.
  intros H. induction l as [|x l IH]; cbn; [done|]. by rewrite IH, H, fields_of_map, map_app.
Qed.

(** The protocol file's defaults are those of the protocol: no other file has its own. *)
Definition one_protocol (f : BmdlFile) (files : list BmdlFile) : Prop :=
  filter (fun f => has_protocol f = true) files = [f].

Lemma one_protocol_defaults f files g :
  one_protocol f files -> g ∈ files -> (if has_protocol g then file_defaults g else file_defaults f) = file_defaults f.
Proof.
  intros H Hg. destruct (has_protocol g) eqn:E; [|done].
  assert (g ∈ filter (fun f => has_protocol f = true) files) as Hin by by apply list_elem_of_filter.
  rewrite H in Hin. apply list_elem_of_singleton in Hin. by subst.
Qed.

(** The fields of all files: messages first, then structs, then frames. *)
Definition source_fields (files : list BmdlFile) : list Field :=
  flat_map message_fields files ++ flat_map struct_fields files ++ flat_map frame_fields files.

Lemma build_protocol_built root files p :
  build_protocol root (inr files) = Built p -> exists f, one_protocol f files
    /\ p = fold_left (merge_file (file_defaults f)) files
             (mkProtocol (protocol_name f) (protocol_version f) (file_bmdl_version f) (file_defaults f)
                [] [] [] [] [] [] [] (file_doc f) (file_loc f)).
Proof.
  unfold build_protocol, one_protocol. destruct (filter _ files) as [|f [|]]; intros E; try discriminate.
  injection E as <-. by exists f.
Qed.

Lemma map_flat_map {A B C} (g : B -> C) (h : A -> list B) l : flat_map (fun x => map g (h x)) l = map g (flat_map h l).
Proof. induction l as [|x l IH]; cbn; [done|]. by rewrite IH, map_app. Qed.

(** Merging keeps every definition, in file order, with the protocol's
    defaults filled in. *)
Lemma built_types root files p f :
  build_protocol root (inr files) = Built p -> one_protocol f files ->
  proto_types p = map (apply_defaults_to_type (file_defaults f)) (flat_map file_types files).
Proof.
  intros E Hf. apply build_protocol_built in E as (f' & Hf' & ->). assert (f' = f) as -> by (unfold one_protocol in *; congruence).
  rewrite (merge_collects proto_types (fun g => map (apply_defaults_to_type (file_defaults f)) (file_types g))).
  - cbn [proto_types app]. apply map_flat_map.
  - intros q g Hg. cbn [merge_file proto_types]. by rewrite (one_protocol_defaults f files).
Qed.

Lemma built_fields root files p f :
  build_protocol root (inr files) = Built p -> one_protocol f files ->
  protocol_fields p = map (apply_defaults_to_field (file_defaults f)) (source_fields files).
Proof.
  intros E Hf. apply build_protocol_built in E as (f' & Hf' & ->). assert (f' = f) as -> by (unfold one_protocol in *; congruence).
  set (d := file_defaults f).
  assert (forall g, g ∈ files -> (if has_protocol g then file_defaults g else file_defaults f) = d) as Hd
    by (intros; by apply (one_protocol_defaults f files)).
  unfold protocol_fields, all_children, source_fields. rewrite !fields_of_app, !fields_of_flat_map, !map_app. f_equal; [|f_equal].
  - rewrite <- map_flat_map.
    rewrite (merge_collects (fun p => flat_map (fun m => fields_of (msg_children m)) (proto_messages p))
      (fun g => map (apply_defaults_to_field d) (message_fields g))); [done|].
    intros q g Hg. cbn [merge_file proto_messages]. rewrite Hd, flat_map_app by done. f_equal.
    by apply (flat_map_fields (apply_defaults_to_field d)).
  - rewrite <- map_flat_map.
    rewrite (merge_collects (fun p => flat_map (fun s => fields_of (sd_children s)) (proto_structs p))
      (fun g => map (apply_defaults_to_field d) (struct_fields g))); [done|].
    intros q g Hg. cbn [merge_file proto_structs]. rewrite Hd, flat_map_app by done. f_equal.
    by apply (flat_map_fields (apply_defaults_to_field d)).
  - rewrite <- map_flat_map.
    rewrite (merge_collects (fun p => flat_map (fun x => fields_of (header_fields x ++ footer_fields x)) (proto_frames p))
      (fun g => map (apply_defaults_to_field d) (frame_fields g))); [done|].
    intros q g Hg. cbn [merge_file proto_frames]. rewrite Hd, flat_map_app by done. f_equal.
    rewrite (flat_map_fields (apply_defaults_to_field d)).
    + unfold frame_fields. f_equal. apply flat_map_ext. intros x. apply fields_of_app.
    + intros x. by rewrite map_app.
Qed.
