(* ===== verification/ImportResolver.v ===== *)
(** * Import resolution

    Models [conduit/bgen/src/parser/import_resolver.cpp]: the files reachable
    from the root are parsed once each, imports before importers.  The file
    system and the XML reader are a parameter ([Files]).  The depth limit bounds
    the recursion: [levels] is [MAX_IMPORT_DEPTH + 1 - depth]. *)

From stdpp Require Import base numbers list gmap strings relations.
From Stdlib Require Import ZArith Lia Ascii.
From S2P Require Import Prelude CharConv ExprParser Ast AstBuilder.

(** [parse_bmdl_file], [fs::absolute(...).lexically_normal()], the path of an
    import relative to the importing file, and [fs::exists]; an exception is its
    text on the left. *)
Record Files := mkFiles {
  parse_bmdl_file : string -> list BuildError + BmdlFile;
  normalize : string -> string + string;
  sibling : string -> string -> string;
  file_exists : string -> string + bool;
}.

Record Resolver := mkResolver { seen_ : gset string; files_ : list BmdlFile; errors_ : list BuildError }.

Definition MAX_IMPORT_DEPTH : nat := 64.

Definition add_errors (es : list BuildError) (st : Resolver) : Resolver := mkResolver (seen_ st) (files_ st) (errors_ st ++ es).

Section resolve.
Variable windows : bool.
Variable fs : Files.

Definition tolower (c : ascii) : ascii := if isupper c then ascii_of_N (N_of_ascii c + 32) else c.

Definition dedup_key (path : string) : string := if windows then str (map tolower (txt path)) else path.

Definition normalize_path (path : string) (st : Resolver) : string * Resolver :=
  match normalize fs path with
  | inr p => (p, st)
  | inl what =>
      (path, add_errors [mkBuildError ("path normalization failed for: " +:+ path +:+ " (" +:+ what +:+ ")") (mkLoc "" 0 0 0)] st)
  end.

(** The loop over the imports of the file at [abs_path]; [visit] resolves one
    of them. *)
Section loop.
Variable visit : string -> Resolver -> Resolver.
Variable abs_path : string.

Definition resolve_import (st : Resolver) (imp : ImportDef) : Resolver :=
  let '(imp_path, st) := normalize_path (sibling fs abs_path (href imp)) st in
  match file_exists fs imp_path with
  | inl what => add_errors [mkBuildError ("cannot access import '" +:+ href imp +:+ "': " +:+ what) (import_loc imp)] st
  | inr false => add_errors [mkBuildError ("import file not found: " +:+ href imp) (import_loc imp)] st
  | inr true => visit imp_path st
  end.

Definition resolve_all (imps : list ImportDef) (st : Resolver) : Resolver := fold_left resolve_import imps st.
End loop.

Fixpoint resolve_file (levels : nat) (abs_path : string) (st : Resolver) : Resolver :=
  match levels with
  | O => add_errors [mkBuildError "import depth exceeds 64 — possible circular import chain" (no_loc abs_path)] st
  | S levels =>
      if bool_decide (dedup_key abs_path ∈ seen_ st) then st
      else
        let st := mkResolver ({[dedup_key abs_path]} ∪ seen_ st) (files_ st) (errors_ st) in
        match parse_bmdl_file fs abs_path with
        | inl es => add_errors es st
        | inr bmdl =>
            let st := resolve_all (resolve_file levels) abs_path (file_imports bmdl) st in
            mkResolver (seen_ st) (files_ st ++ [bmdl]) (errors_ st)
        end
  end.

Definition resolve_imports (root_path : string) : list BuildError + list BmdlFile :=
  let '(abs_path, st) := normalize_path root_path (mkResolver ∅ [] []) in
  let st := resolve_file (S MAX_IMPORT_DEPTH) abs_path st in
  match errors_ st with [] => inr (files_ st) | es => inl es end.

(** ** The import graph *)

(** [a] imports the file at [b]. *)
Definition imports (a b : string) : Prop :=
  exists f imp, parse_bmdl_file fs a = inr f /\ imp ∈ file_imports f /\ normalize fs (sibling fs a (href imp)) = inr b.

(** The same file, as far as the resolver can tell. *)
Definition same_file (a b : string) : Prop := dedup_key a = dedup_key b.

(** What a run adds: the files at [paths], in this order. *)
Record resolves (st : Resolver) (paths : list string) (st' : Resolver) : Prop := {
  res_files : exists fl, files_ st' = files_ st ++ fl /\ Forall2 (fun q f => parse_bmdl_file fs q = inr f) paths fl;
  res_seen : forall k, k ∈ seen_ st' <-> k ∈ seen_ st \/ k ∈ map dedup_key paths;
  res_once : NoDup (map dedup_key paths);
  res_new : forall q, q ∈ paths -> dedup_key q ∉ seen_ st;
  res_order : forall a q b r, paths = a ++ q :: b -> imports q r ->
    dedup_key r ∈ seen_ st \/ (exists r', r' ∈ a /\ same_file r' r)
    \/ (exists r', r' ∈ q :: b /\ same_file r' r /\ rtc imports r' q);
  res_exist : forall q f imp, q ∈ paths -> parse_bmdl_file fs q = inr f -> imp ∈ file_imports f ->
    exists r, normalize fs (sibling fs q (href imp)) = inr r /\ file_exists fs r = inr true;
}.

Lemma resolves_nil st : resolves st [] st.
Proof.
  split.
  - exists []. rewrite app_nil_r. by split.
  - intros k. split; [by left|]. by intros [?| ?%elem_of_nil].
  - constructor.
  - by intros q ?%elem_of_nil.
  - intros a q b r E. by destruct a.
  - by intros q f imp ?%elem_of_nil.
Qed.

Lemma resolves_app st1 st2 st3 ps1 ps2 : resolves st1 ps1 st2 -> resolves st2 ps2 st3 -> resolves st1 (ps1 ++ ps2) st3.
Proof.
  intros [(f1 & E1 & P1) S1 O1 N1 R1 X1] [(f2 & E2 & P2) S2 O2 N2 R2 X2]. split.
  - exists (f1 ++ f2). rewrite E2, E1, app_assoc. split; [done|by apply Forall2_app].
  - intros k. rewrite S2, S1, map_app, elem_of_app. tauto.
  - rewrite map_app. apply NoDup_app. split_and!; [done| |done]. intros k Hk (q & -> & Hq)%list_elem_of_fmap_1.
    apply (N2 q Hq), S1. by right.
  - intros q [Hq|Hq]%elem_of_app; [by apply N1|]. intros Hs. apply (N2 q Hq), S1. by left.
  - intros a q b r E Hr. apply app_eq_app in E as (l & [[-> E]|[-> ->]]).
    + destruct l as [|x l].
      * cbn in E. destruct (R2 [] q b r (eq_sym E) Hr) as [H|[(r' & H & _)|H]].
        -- apply S1 in H as [H|H]; [by left|]. right. left. apply list_elem_of_fmap_1 in H as (r' & Ek & H).
           exists r'. rewrite app_nil_r in H. by split.
        -- by apply elem_of_nil in H.
        -- by right; right.
      * injection E as <- ->. destruct (R1 a q l r eq_refl Hr) as [H|[H|(r' & H & Hs & Hc)]]; [by left|by right; left|].
        right. right. exists r'. split_and!; [|done|done]. apply elem_of_cons in H as [->|H]; [by left|]. right. set_solver.
    + destruct (R2 l q b r eq_refl Hr) as [H|[(r' & H & Hs)|H]].
      * apply S1 in H as [H|H]; [by left|]. right. left. apply list_elem_of_fmap_1 in H as (r' & Ek & H).
        exists r'. split; [set_solver|done].
      * right. left. exists r'. split; [set_solver|done].
      * by right; right.
  - intros q f imp [Hq|Hq]%elem_of_app; [by apply X1|by apply X2].
Qed.

(** ** A run without errors *)

(** The errors only grow, so a run that adds none adds none on the way. *)
Definition grows (st st' : Resolver) : Prop := exists es, errors_ st' = errors_ st ++ es.

#[local] Instance grows_preorder : PreOrder grows.
Proof.
  split; [intros st; exists []; by rewrite app_nil_r|]. intros s1 s2 s3 [e1 E1] [e2 E2]. exists (e1 ++ e2).
  by rewrite E2, E1, app_assoc.
Qed.

Lemma grows_no_errors s1 s2 s3 : grows s1 s2 -> grows s2 s3 -> errors_ s3 = errors_ s1 ->
  errors_ s2 = errors_ s1 /\ errors_ s3 = errors_ s2.
Proof.
  intros [e1 E1] [e2 E2] E. rewrite E2, E1, <- app_assoc in E. rewrite <- (app_nil_r (errors_ s1)) in E at 2.
  apply app_inv_head, app_nil in E as [-> ->]. rewrite app_nil_r in *. by rewrite E2, E1.
Qed.

Lemma add_errors_grows es st : grows st (add_errors es st).
Proof. by exists es. Qed.

Lemma normalize_grows path st : grows st (normalize_path path st).2.
Proof. unfold normalize_path. destruct (normalize fs path); [apply add_errors_grows|reflexivity]. Qed.

Lemma resolve_import_grows visit a st imp : (forall q st, grows st (visit q st)) -> grows st (resolve_import visit a st imp).
Proof.
  intros Hv. unfold resolve_import. pose proof (normalize_grows (sibling fs a (href imp)) st) as Hn.
  destruct (normalize_path (sibling fs a (href imp)) st) as [q st1]. cbn in Hn. etrans; [exact Hn|].
  destruct (file_exists fs q) as [|[]]; [apply add_errors_grows|apply Hv|apply add_errors_grows].
Qed.

Lemma resolve_all_grows visit a imps st : (forall q st, grows st (visit q st)) -> grows st (resolve_all visit a imps st).
Proof.
  intros Hv. unfold resolve_all. revert st. induction imps as [|imp imps IH]; intros st; cbn; [reflexivity|].
  etrans; [by apply (resolve_import_grows visit a)|apply IH].
Qed.

Lemma resolve_file_grows levels q st : grows st (resolve_file levels q st).
Proof.
  revert q st. induction levels as [|levels IH]; intros q st; cbn [resolve_file]; [apply add_errors_grows|].
  case_bool_decide; [reflexivity|]. destruct (parse_bmdl_file fs q) as [es|f]; [by exists es|].
  destruct (resolve_all_grows (resolve_file levels) q (file_imports f) (mkResolver ({[dedup_key q]} ∪ seen_ st) (files_ st) (errors_ st)) IH)
    as [es E]. by exists es.
Qed.

Lemma add_errors_same es st : es <> [] -> errors_ (add_errors es st) <> errors_ st.
Proof. intros H E. cbn in E. rewrite <- (app_nil_r (errors_ st)) in E at 2. by apply app_inv_head in E. Qed.

(** An import resolved without errors: the path, and the run on it. *)
Lemma resolve_import_ok visit a st imp :
  (forall q st, grows st (visit q st)) -> errors_ (resolve_import visit a st imp) = errors_ st ->
  exists q, normalize fs (sibling fs a (href imp)) = inr q /\ file_exists fs q = inr true
    /\ resolve_import visit a st imp = visit q st.
Proof.
  intros Hv. unfold resolve_import, normalize_path. destruct (normalize fs (sibling fs a (href imp))) as [w|q].
  - intros E. exfalso. set (st1 := add_errors _ st) in E.
    assert (grows st1 (match file_exists fs (sibling fs a (href imp)) with
      | inl what => add_errors [mkBuildError ("cannot access import '" +:+ href imp +:+ "': " +:+ what) (import_loc imp)] st1
      | inr false => add_errors [mkBuildError ("import file not found: " +:+ href imp) (import_loc imp)] st1
      | inr true => visit (sibling fs a (href imp)) st1 end)) as Hg.
    { destruct (file_exists fs _) as [|[]]; [apply add_errors_grows|apply Hv|apply add_errors_grows]. }
    destruct (grows_no_errors st st1 _ (add_errors_grows _ _) Hg E) as [E1 _]. by apply add_errors_same in E1.
  - destruct (file_exists fs q) as [w|[]] eqn:Ex; intros E; [by apply add_errors_same in E| |by apply add_errors_same in E].
    by exists q.
Qed.

Section level.
Variable visit : string -> Resolver -> Resolver.
Hypothesis visit_grows : forall q st, grows st (visit q st).
Hypothesis visit_ok : forall q st, errors_ (visit q st) = errors_ st ->
  exists ps, resolves st ps (visit q st) /\ dedup_key q ∈ seen_ (visit q st) /\ forall r, r ∈ ps -> rtc imports q r.

(** The loop: every import is seen afterwards, and what is added is reached
    through one of them. *)
Lemma resolve_all_ok a f imps st :
  parse_bmdl_file fs a = inr f -> (forall imp, imp ∈ imps -> imp ∈ file_imports f) ->
  errors_ (resolve_all visit a imps st) = errors_ st ->
  exists ps, resolves st ps (resolve_all visit a imps st)
    /\ (forall imp, imp ∈ imps -> exists q, normalize fs (sibling fs a (href imp)) = inr q
         /\ file_exists fs q = inr true /\ dedup_key q ∈ seen_ (resolve_all visit a imps st))
    /\ forall r, r ∈ ps -> exists q, imports a q /\ rtc imports q r.
Proof.
  intros Ha. unfold resolve_all. revert st. induction imps as [|imp imps IH]; intros st Hin E; cbn [fold_left] in *.
  { exists []. split_and!; [apply resolves_nil|by intros ? ?%elem_of_nil|by intros ? ?%elem_of_nil]. }
  destruct (grows_no_errors st (resolve_import visit a st imp) _
    (resolve_import_grows visit a st imp visit_grows) (resolve_all_grows visit a imps _ visit_grows) E) as [E1 E2].
  destruct (resolve_import_ok visit a st imp visit_grows E1) as (q & Hq & Hx & Ei). rewrite Ei in *.
  destruct (visit_ok q st E1) as (ps1 & R1 & Hs1 & C1).
  destruct (IH (visit q st)) as (ps2 & R2 & H2 & C2); [intros; apply Hin; by right|exact E2|].
  exists (ps1 ++ ps2). split_and!; [by eapply resolves_app| |].
  - intros imp' [->|Hi]%elem_of_cons; [|by apply H2]. exists q. split_and!; [done|done|].
    apply (res_seen _ _ _ R2). by left.
  - intros r [Hr|Hr]%elem_of_app; [|by apply C2]. exists q. split; [|by apply C1].
    exists f, imp. split_and!; [done| |done]. apply Hin. by left.
Qed.
End level.

Lemma snoc_split {A} (ps : list A) x a q b : ps ++ [x] = a ++ q :: b ->
  (exists l, ps = a ++ q :: l /\ b = l ++ [x]) \/ (ps = a /\ q = x /\ b = []).
Proof.
  intros E. apply app_eq_app in E as ([|y l] & [[-> E]|[-> E]]); cbn in E.
  - injection E as -> ->. right. by rewrite app_nil_r.
  - injection E as <- <-. right. by rewrite app_nil_r.
  - injection E as <- ->. left. by exists l.
  - injection E as <- E. by destruct l.
Qed.

(** A file whose imports are done is added after them. *)
Lemma resolves_snoc a f st ps st2 :
  dedup_key a ∉ seen_ st -> parse_bmdl_file fs a = inr f ->
  resolves (mkResolver ({[dedup_key a]} ∪ seen_ st) (files_ st) (errors_ st)) ps st2 ->
  (forall imp, imp ∈ file_imports f -> exists q, normalize fs (sibling fs a (href imp)) = inr q
     /\ file_exists fs q = inr true /\ dedup_key q ∈ seen_ st2) ->
  (forall r, r ∈ ps -> exists q, imports a q /\ rtc imports q r) ->
  resolves st (ps ++ [a]) (mkResolver (seen_ st2) (files_ st2 ++ [f]) (errors_ st2)).
Proof.
  intros Hn Hf [(fl & E & P) S O N R X] Himp Hc. cbn [seen_ files_ errors_] in *.
  assert (forall k, k ∈ seen_ st2 <-> k = dedup_key a \/ k ∈ seen_ st \/ k ∈ map dedup_key ps) as S'.
  { intros k. rewrite S, elem_of_union, elem_of_singleton. tauto. }
  split; cbn [seen_ files_ errors_].
  - exists (fl ++ [f]). rewrite E, app_assoc. split; [done|]. apply Forall2_app; [done|by constructor].
  - intros k. rewrite S', map_app, elem_of_app. cbn. rewrite list_elem_of_singleton. tauto.
  - rewrite map_app. apply NoDup_app. split_and!; [done| |apply NoDup_singleton].
    intros k (q & -> & Hq)%list_elem_of_fmap_1 Hk. cbn in Hk. apply list_elem_of_singleton in Hk. apply (N q Hq). set_solver.
  - intros q [Hq|Hq]%elem_of_app; [intros Hs; apply (N q Hq); set_solver|]. apply list_elem_of_singleton in Hq as ->. done.
  - intros b q c r Es Hr. apply snoc_split in Es as [(l & -> & ->)|(-> & -> & ->)].
    + destruct (R b q l r eq_refl Hr) as [H|[H|(r' & H & Hs & Hp)]]; [|by right; left|].
      * apply elem_of_union in H as [H|H]; [|by left]. apply elem_of_singleton in H. right. right. exists a.
        split_and!; [set_solver|done|]. destruct (Hc q) as (q0 & H0 & Hq); [set_solver|]. by eapply rtc_l.
      * right. right. exists r'. split_and!; [set_solver|done|done].
    + destruct Hr as (f' & imp & Hf' & Hi & Hr). rewrite Hf in Hf'. injection Hf' as <-.
      destruct (Himp imp Hi) as (q & Hq & _ & Hs). rewrite Hr in Hq. injection Hq as <-. apply S' in Hs as [Hs|[Hs|Hs]].
      * right. right. exists a. split_and!; [by left|by symmetry|reflexivity].
      * by left.
      * apply list_elem_of_fmap_1 in Hs as (r' & Es & Hr'). right. left. by exists r'.
  - intros q g imp [Hq|Hq]%elem_of_app; [by apply X|]. apply list_elem_of_singleton in Hq as ->. intros Hg Hi.
    rewrite Hf in Hg. injection Hg as <-. destruct (Himp imp Hi) as (r & Hr & Hx & _). eauto.
Qed.

(** A file that cannot be parsed comes with errors. *)
Hypothesis parse_errors : forall q es, parse_bmdl_file fs q = inl es -> es <> [].

Lemma resolve_file_ok levels q st : errors_ (resolve_file levels q st) = errors_ st ->
  exists ps, resolves st ps (resolve_file levels q st) /\ dedup_key q ∈ seen_ (resolve_file levels q st)
    /\ (forall r, r ∈ ps -> rtc imports q r) /\ (dedup_key q ∉ seen_ st -> exists ps', ps = ps' ++ [q]).
Proof.
  revert q st. induction levels as [|levels IH]; intros q st; cbn [resolve_file].
  { intros E. by apply add_errors_same in E. }
  case_bool_decide as Hs.
  { intros _. exists []. split_and!; [apply resolves_nil|done|by intros ? ?%elem_of_nil|done]. }
  destruct (parse_bmdl_file fs q) as [es|f] eqn:Ef.
  - cbn. intros E. destruct es as [|e es]; [|by apply (add_errors_same (e :: es) st) in E].
    by apply parse_errors in Ef.
  - cbn [errors_ seen_]. intros E. destruct (resolve_all_ok (resolve_file levels) (resolve_file_grows levels)) with
      (a := q) (f := f) (imps := file_imports f) (st := mkResolver ({[dedup_key q]} ∪ seen_ st) (files_ st) (errors_ st))
      as (ps & R & Himp & Hc); [|done|done|done|].
    { intros q' st' E'. destruct (IH q' st' E') as (ps & R & H & C & _). eauto. }
    exists (ps ++ [q]). split_and!.
    + by apply resolves_snoc.
    + apply (res_seen _ _ _ R). left. set_solver.
    + intros r [Hr|Hr]%elem_of_app.
      * destruct (Hc r Hr) as (q0 & H0 & H1). by eapply rtc_l.
      * apply list_elem_of_singleton in Hr as ->. reflexivity.
    + eauto.
Qed.

(** ** When there are no errors *)

(** Every file reached parses, and its imports have paths and exist. *)
Definition healthy (root : string) : Prop :=
  forall q, rtc imports root q ->
    exists f, parse_bmdl_file fs q = inr f
      /\ forall imp, imp ∈ file_imports f ->
           exists r, normalize fs (sibling fs q (href imp)) = inr r /\ file_exists fs r = inr true.

(** The files reached are among [known]. *)
Definition reaches_within (root : string) (known : gset string) : Prop :=
  forall q, rtc imports root q -> dedup_key q ∈ known.

Section succeeds.
Variables (root : string) (known : gset string).
Hypothesis Hhealthy : healthy root.
Hypothesis Hknown : reaches_within root known.
Hypothesis Hsize : (size known <= MAX_IMPORT_DEPTH)%nat.

(** Along a chain of imports every file is another one. *)
Definition on_track (levels : nat) (st : Resolver) : Prop :=
  seen_ st ⊆ known /\ (MAX_IMPORT_DEPTH < levels + size (seen_ st))%nat.

Definition succeeds (st st' : Resolver) : Prop :=
  errors_ st' = errors_ st /\ seen_ st ⊆ seen_ st' /\ seen_ st' ⊆ known.

Lemma on_track_later levels st st' : on_track levels st -> succeeds st st' -> on_track levels st'.
Proof. intros [_ H] (_ & Hs & Hk). split; [done|]. apply subseteq_size in Hs. lia. Qed.

Lemma resolve_all_succeeds levels a imps st :
  (forall q st, rtc imports root q -> on_track levels st -> succeeds st (resolve_file levels q st)) ->
  on_track levels st ->
  (forall imp, imp ∈ imps -> exists r, normalize fs (sibling fs a (href imp)) = inr r /\ file_exists fs r = inr true
     /\ rtc imports root r) ->
  succeeds st (resolve_all (resolve_file levels) a imps st).
Proof.
  intros Hv. unfold resolve_all. revert st. induction imps as [|imp imps IH]; intros st Ht Himp; cbn [fold_left].
  { destruct Ht. by split. }
  destruct (Himp imp) as (r & Hr & Hx & Hreach); [by left|].
  assert (resolve_import (resolve_file levels) a st imp = resolve_file levels r st) as ->.
  { unfold resolve_import, normalize_path. by rewrite Hr, Hx. }
  pose proof (Hv r st Hreach Ht) as Hs. destruct (IH (resolve_file levels r st)) as (E & S & K).
  - by eapply on_track_later.
  - intros; apply Himp; by right.
  - destruct Hs as (E' & S' & _). split_and!; [congruence|set_solver|done].
Qed.

Lemma resolve_file_succeeds levels q st :
  rtc imports root q -> on_track levels st -> succeeds st (resolve_file levels q st).
Proof.
  revert q st. induction levels as [|levels IH]; intros q st Hq [Hk Hl].
  { exfalso. apply subseteq_size in Hk. lia. }
  cbn [resolve_file]. case_bool_decide as Hs; [by split|]. destruct (Hhealthy q Hq) as (f & Hf & Himp). rewrite Hf.
  set (st1 := mkResolver ({[dedup_key q]} ∪ seen_ st) (files_ st) (errors_ st)). assert (on_track levels st1) as Ht.
  { split; [apply union_subseteq; split; [by apply singleton_subseteq_l, Hknown|done]|]. cbn. rewrite size_union, size_singleton by set_solver. lia. }
  destruct (resolve_all_succeeds levels q (file_imports f) st1) as (E & S & K); [exact IH|exact Ht| |].
  - intros imp Hi. destruct (Himp imp Hi) as (r & Hr & Hx). exists r. split_and!; [done|done|].
    eapply rtc_r; [exact Hq|]. by exists f, imp.
  - cbn. split_and!; [exact E| |exact K]. cbn in S. set_solver.
Qed.
End succeeds.

Lemma resolve_imports_spec root abs : normalize fs root = inr abs ->
  match resolve_imports root with
  | inr files => exists paths, Forall2 (fun q f => parse_bmdl_file fs q = inr f) paths files
      /\ NoDup (map dedup_key paths) /\ (exists before, paths = before ++ [abs])
      /\ (forall q, q ∈ paths -> rtc imports abs q)
      /\ (forall a q b r, paths = a ++ q :: b -> imports q r ->
            (exists r', r' ∈ a /\ same_file r' r) \/ (exists r', r' ∈ q :: b /\ same_file r' r /\ rtc imports r' q))
  | inl es => es <> [] /\ ~ (healthy abs /\ exists known, reaches_within abs known /\ (size known <= MAX_IMPORT_DEPTH)%nat)
  end.
Proof.
  intros Hr. unfold resolve_imports, normalize_path. rewrite Hr. set (st0 := mkResolver ∅ [] []).
  destruct (errors_ (resolve_file (S MAX_IMPORT_DEPTH) abs st0)) as [|e es] eqn:E.
  - destruct (resolve_file_ok (S MAX_IMPORT_DEPTH) abs st0 E) as (ps & [(fl & Ef & P) S O N R X] & _ & C & L).
    exists ps. rewrite Ef. split_and!; [exact P|done|apply L, not_elem_of_empty|done|].
    intros a q b r Ep Hi. destruct (R a q b r Ep Hi) as [H|H]; [by apply elem_of_empty in H|exact H].
  - split; [done|]. intros (Hh & known & Hk & Hs).
    destruct (resolve_file_succeeds abs known Hh Hk Hs (S MAX_IMPORT_DEPTH) abs st0) as (E' & _); [reflexivity| |].
    + split; [apply empty_subseteq|]. change (seen_ st0) with (∅ : gset string). rewrite size_empty. lia.
    + rewrite E in E'. discriminate E'.
Qed.
End resolve.

(** C32: Import resolution.  It answers for every file system, cyclic imports
    included.  On success the files are those at distinct paths, each reachable
    from the root, the root last; every import of a file is among them, and
    earlier than the file unless the two import each other in a cycle.  It fails
    only with at least one error, and never when every file reached parses,
    every import exists and at most 64 files are reached. *)
Theorem imports_resolved (windows : bool) (fs : Files) (root abs : string) :
  (forall q es, parse_bmdl_file fs q = inl es -> es <> []) -> normalize fs root = inr abs ->
  match resolve_imports windows fs root with
  | inr files => exists paths, Forall2 (fun q f => parse_bmdl_file fs q = inr f) paths files
      /\ NoDup (map (dedup_key windows) paths) /\ (exists before, paths = before ++ [abs])
      /\ (forall q, q ∈ paths -> rtc (imports fs) abs q)
      /\ (forall a q b r, paths = a ++ q :: b -> imports fs q r ->
            (exists r', r' ∈ a /\ same_file windows r' r)
            \/ (exists r', r' ∈ q :: b /\ same_file windows r' r /\ rtc (imports fs) r' q))
  | inl es => es <> []
      /\ ~ (healthy fs abs /\ exists known, reaches_within windows fs abs known /\ (size known <= MAX_IMPORT_DEPTH)%nat)
  end.
Proof. intros Hp Hr. by apply resolve_imports_spec. Qed.

(** ** A sample: a root and two libraries that import each other *)

Definition sample_import (to : string) : ImportDef := mkImportDef to None unknown_loc.
Definition sample_file (path : string) (imports : list string) : BmdlFile :=
  mkFile path "2" false "" "" new_defaults "" (map sample_import imports) [] [] [] [] [] [] unknown_loc.

Definition sample_disk : Files :=
  mkFiles (fun q => if String.eqb q "/root" then inr (sample_file q ["a"; "b"])
                    else if String.eqb q "/a" then inr (sample_file q ["b"])
                    else if String.eqb q "/b" then inr (sample_file q ["a"])
                    else inl [mkBuildError "cannot open" (no_loc q)])
    (fun q => inr q) (fun _ h => "/" +:+ h) (fun q => inr (negb (String.eqb q "/c"))).

Example sample_order : resolve_imports false sample_disk "/root"
  = inr [sample_file "/b" ["a"]; sample_file "/a" ["b"]; sample_file "/root" ["a"; "b"]].
Proof. vm_compute. reflexivity. Qed.

Lemma imports_resolved_witness :
  exists files paths, resolve_imports false sample_disk "/root" = inr files
    /\ Forall2 (fun q f => parse_bmdl_file sample_disk q = inr f) paths files /\ NoDup (map (dedup_key false) paths).
Proof.
  pose proof (imports_resolved false sample_disk "/root" "/root") as H.
  rewrite sample_order in *. destruct H as (paths & Hp & Hn & _).
  - intros q es. cbn. repeat destruct (String.eqb q _); intros E; try discriminate E. injection E as <-. done.
  - reflexivity.
  - exists [sample_file "/b" ["a"]; sample_file "/a" ["b"]; sample_file "/root" ["a"; "b"]], paths. auto.
Defined.
