(* ===== verification/XmlParser.v ===== *)
(** * The XML parser

    Models [conduit/bgen/src/parser/xml_parser.*]: from the document a third-party
    library (pugixml) makes of a file to a [BmdlFile].  The library's part is
    parameters: loading ([load_file], [load_buffer]) and the conversion of text to
    a double ([as_double]); a document is the tree [xml], as the library's default
    options give it: elements with their attributes, and text.  An element's
    [offset] is that of [offset_debug].

    A parse function computes a node and the errors it appends to [errors_];
    [None] is undefined behaviour (an overflow of [int]).  Offsets fit an [int]:
    files are smaller than 2 GiB. *)

From stdpp Require Import base numbers list strings pretty.
From Stdlib Require Import ZArith Lia Ascii SpecFloat.
From S2P Require Import Prelude CharConv AutoExpr ExprParser Ast AstBuilder.

Open Scope Z_scope.

(** ** Documents *)

Inductive xml :=
  | Element (name : string) (attrs : list (string * string)) (children : list xml) (offset : Z)
  | Text (value : string) (offset : Z).

Definition name (n : xml) : string := match n with Element s _ _ _ => s | Text _ _ => "" end.
Definition attributes (n : xml) : list (string * string) := match n with Element _ l _ _ => l | Text _ _ => [] end.
Definition children (n : xml) : list xml := match n with Element _ _ l _ => l | Text _ _ => [] end.
Definition offset (n : xml) : Z := match n with Element _ _ _ o => o | Text _ o => o end.

Fixpoint assoc (k : string) (l : list (string * string)) : option string :=
  match l with [] => None | (k', v) :: l => if String.eqb k k' then Some v else assoc k l end.

(** [node.attribute(k)], and its [value()], empty if there is none. *)
Definition attribute (n : xml) (k : string) : option string := assoc k (attributes n).
Definition attr_value (n : xml) (k : string) : string := default "" (attribute n k).

Definition named (k : string) (n : xml) : bool := match n with Element s _ _ _ => String.eqb s k | Text _ _ => false end.
Definition children_named (n : xml) (k : string) : list xml := List.filter (named k) (children n).
Definition child (n : xml) (k : string) : option xml := head (children_named n k).

(** [node.text().get()]: the first text below the node. *)
Fixpoint first_text (l : list xml) : string :=
  match l with [] => "" | Text v _ :: _ => v | _ :: l => first_text l end.
Definition text_of (n : xml) : string := match n with Element _ _ l _ => first_text l | Text v _ => v end.

(** ** Errors *)

Record XmlParseError := mkXmlError { xml_message : string; xml_loc : SourceLoc }.

Definition X (A : Type) : Type := option (A * list XmlParseError).

Global Instance X_ret : MRet X := fun A a => Some (a, []).
Global Instance X_bind : MBind X := fun A B f p =>
  match p with
  | Some (a, es) => match f a with Some (b, es') => Some (b, es ++ es') | None => None end
  | None => None
  end.

(** Each element of a list, one after the other. *)
Fixpoint each {A B} (f : A -> X B) (l : list A) : X (list B) :=
  match l with [] => mret [] | x :: l => y ← f x; ys ← each f l; mret (y :: ys) end.

Definition INT_MAX : Z := 2 ^ 31 - 1.
Definition INT_MIN : Z := - 2 ^ 31.
Definition is_int (v : Z) : bool := (INT_MIN <=? v) && (v <=? INT_MAX).

(** A sum of type [int]. *)
Definition int_sum (a b : Z) : X Z := if is_int (a + b) then mret (a + b) else None.

(** [std::from_chars] for an [int]. *)
Definition from_chars_int (base : Z) (t : text) : option errc * Z * nat :=
  match from_chars base t with
  | (None, v, n) => if is_int v then (None, v, n) else (Some result_out_of_range, 0, n)
  | r => r
  end.

(** The digits of a hexadecimal value, after its prefix. *)
Definition hex_digits (t : text) : option text :=
  match t with
  | c0 :: c1 :: _ :: _ => if Ascii.eqb c0 "0" && (Ascii.eqb c1 "x" || Ascii.eqb c1 "X") then Some (drop 2 t) else None
  | _ => None
  end.

(** A number that takes up the whole text. *)
Definition whole_number (parse : Z -> text -> option errc * Z * nat) (t : text) : option Z :=
  let '(base, digits) := match hex_digits t with Some d => (16, d) | None => (10, t) end in
  match parse base digits with
  | (None, v, n) => if Nat.eqb n (length digits) then Some v else None
  | _ => None
  end.

(** The starts of the lines of a file. *)
Fixpoint newlines (i : Z) (t : text) : list Z :=
  match t with [] => [] | c :: t => (if Ascii.eqb c "010" then [i + 1] else []) ++ newlines (i + 1) t end.
Definition line_starts (content : string) : list Z := 0 :: newlines 0 (txt content).

(** [std::upper_bound] in a sorted vector: how many elements are at most [off]. *)
Fixpoint upper_bound (l : list Z) (off : Z) : nat :=
  match l with [] => O | s :: l => if s <=? off then S (upper_bound l off) else O end.

Section context.
Variable as_double : string -> spec_float.
Variable file_path : string.
Variable line_offsets : list Z.

(** The location of an offset; without a line index only the offset is known. *)
Definition loc_of (off : Z) : SourceLoc :=
  match line_offsets with
  | [] => mkLoc file_path off 0 0
  | _ =>
      let k := upper_bound line_offsets off in
      let line_start := match k with O => 0 | S j => nth j line_offsets 0 end in
      mkLoc file_path off (Z.of_nat k) (off - line_start + 1)
  end.

Definition loc (n : xml) : SourceLoc := loc_of (offset n).

Definition error (n : xml) (msg : string) : X unit := Some (tt, [mkXmlError msg (loc n)]).
Definition error_if (b : bool) (n : xml) (msg : string) : X unit := if b then error n msg else mret tt.

Definition unknown_attr_error (n : xml) (known : list string) (a : string * string) : X unit :=
  error_if (negb (existsb (String.eqb a.1) known)) n
    ("unrecognized attribute '" +:+ a.1 +:+ "' on <" +:+ name n +:+ "> element").
Definition check_unknown_attrs (n : xml) (known : list string) : X unit :=
  _ ← each (unknown_attr_error n known) (attributes n); mret tt.

Definition is_empty (s : string) : bool := String.eqb s "".

(** In double quotes. *)
Definition dquote (s : string) : string := String "034" (s +:+ String "034" "").

(** ** Attributes *)

Definition parse_expr_attr (n : xml) (k : string) : X (option Expr) :=
  if is_empty (attr_value n k) then mret None else
  match parse_expression (txt (attr_value n k)) (loc n) with
  | None => None
  | Some (POk e) => mret (Some e)
  | Some (PErr e) => error n ("invalid expression in '" +:+ k +:+ "': " +:+ message e);; mret None
  end.

(** [parse_int_attr] and [parse_int64_attr], which differ in the width only. *)
Definition parse_number_attr (parse : Z -> text -> option errc * Z * nat) (n : xml) (k : string) : X (option Z) :=
  match attribute n k with
  | None => mret None
  | Some v =>
      match whole_number parse (txt v) with
      | Some z => mret (Some z)
      | None => error n ("invalid integer value for '" +:+ k +:+ "': " +:+ v);; mret None
      end
  end.
Definition parse_int_attr : xml -> string -> X (option Z) := parse_number_attr from_chars_int.
Definition parse_int64_attr : xml -> string -> X (option Z) := parse_number_attr from_chars.

Definition parse_nonneg_int_attr (n : xml) (k : string) : X (option Z) :=
  v ← parse_int_attr n k;
  match v with
  | Some z =>
      if z <? 0 then error n ("'" +:+ k +:+ "' must be non-negative, got " +:+ pretty z);; mret None
      else mret (Some z)
  | None => mret None
  end.

(** One of the names a table knows; an unknown one is an error. *)
Fixpoint keyword {A} (table : list (string * A)) (v : string) : option A :=
  match table with [] => None | (k, a) :: table => if String.eqb v k then Some a else keyword table v end.
Definition parse_keyword {A} (table : list (string * A)) (fallback : A) (n : xml) (what expected v : string) : X A :=
  match keyword table v with
  | Some a => mret a
  | None => error n ("unknown " +:+ what +:+ " '" +:+ v +:+ "'; expected " +:+ expected);; mret fallback
  end.

Definition endian_table : list (string * Endian) := [("little", EndianLittle); ("big", EndianBig)].
Definition parse_endian (n : xml) : X (Endian * bool) :=
  match attribute n "endian" with
  | Some v => e ← parse_keyword endian_table EndianBig n "endian value" "'little' or 'big'" v; mret (e, true)
  | None => mret (EndianBig, false)
  end.

Definition format_table : list (string * DisplayFormat) :=
  [("hex", FmtHex); ("octal", FmtOctal); ("binary", FmtBinary); ("decimal", FmtDecimal)].
Definition parse_format (n : xml) : X (DisplayFormat * bool) :=
  match attribute n "format" with
  | Some v => e ← parse_keyword format_table FmtDecimal n "format value" "'hex', 'octal', 'binary', or 'decimal'" v; mret (e, true)
  | None => mret (FmtDecimal, false)
  end.

Definition encoding_table : list (string * StringEncoding) :=
  [("ascii", EncAscii); ("utf8", EncUtf8); ("ia5", EncIa5); ("ebcdic", EncEbcdic)].
Definition parse_encoding (n : xml) (v : string) : X StringEncoding :=
  parse_keyword encoding_table EncAscii n "encoding value" "'ascii', 'utf8', 'ia5', or 'ebcdic'" v.

Definition padding_table : list (string * StringPadding) := [("null", PadNull); ("space", PadSpace); ("none", PadNone)].
Definition parse_padding (n : xml) (v : string) : X StringPadding :=
  parse_keyword padding_table PadNull n "padding value" "'null', 'space', or 'none'" v.

Definition trim_table : list (string * StringTrim) :=
  [("right", TrimRight); ("left", TrimLeft); ("both", TrimBoth); ("none", TrimNone)].
Definition parse_trim_val (n : xml) (v : string) : X StringTrim :=
  parse_keyword trim_table TrimRight n "trim value" "'right', 'left', 'both', or 'none'" v.

Definition wire_encoding_table : list (string * WireEncoding) :=
  [("cb2", CB2); ("bnr", BNR); ("bnr-s", BNR_S); ("bnr_s", BNR_S); ("bcd", BCD); ("bcd-s", BCD_S); ("bcd_s", BCD_S)].
Definition parse_wire_encoding (n : xml) (v : string) : X WireEncoding :=
  parse_keyword wire_encoding_table WireDefault n "wire-encoding" "'cb2', 'bnr', 'bnr-s', 'bcd', or 'bcd-s'" v.

Definition base_table : list (string * PrimitiveBase) :=
  [("uint", BaseUint); ("int", BaseInt); ("float", BaseFloat); ("bool", BaseBool); ("bytes", BaseBytes); ("string", BaseString)].
Definition parse_base (n : xml) (v : string) : X PrimitiveBase :=
  parse_keyword base_table BaseUint n "base value" "'uint', 'int', 'float', 'bool', 'bytes', or 'string'" v.

Definition direction_table : list (string * Direction) := [("send", DirSend); ("receive", DirReceive); ("both", DirBoth)].
Definition parse_direction (n : xml) : X Direction :=
  match attribute n "direction" with
  | Some v => parse_keyword direction_table DirBoth n "direction value" "'send', 'receive', or 'both'" v
  | None => mret DirBoth
  end.

(** An attribute that is parsed if it is there. *)
Definition if_attr {A} (n : xml) (k : string) (f : string -> X A) : X (option A) :=
  match attribute n k with Some v => a ← f v; mret (Some a) | None => mret None end.

(** ** Small elements *)

Definition get_doc (n : xml) : string := match child n "doc" with Some d => text_of d | None => "" end.

Definition parse_annotation (ann : xml) : X Annotation :=
  error_if (is_empty (attr_value ann "name")) ann "<annotation> element missing 'name' attribute";;
  mret (mkAnnotation (attr_value ann "name")
    (if is_empty (attr_value ann "value") then text_of ann else attr_value ann "value")).
Definition parse_annotations (n : xml) : X (list Annotation) := each parse_annotation (children_named n "annotation").

(** The values of an enumeration, numbered on from the last one. *)
Fixpoint enum_values (next_id : Z) (l : list xml) : X (list EnumValue) :=
  match l with
  | [] => mret []
  | v :: l =>
      error_if (is_empty (attr_value v "name")) v "enum <value> element missing required 'name' attribute";;
      id ← parse_int64_attr v "id";
      let this := default next_id id in
      vs ← enum_values (if this <? INT64_MAX then this + 1 else this) l;
      mret (mkEnumValue (attr_value v "name") this (loc v) :: vs)
  end.
Definition parse_enum (n : xml) : X (list EnumValue) := enum_values 0 (children_named n "value").

Definition parse_flag (flag : xml) : X FlagDef :=
  let nm := attr_value flag "name" in
  error_if (is_empty nm) flag "<flag> element missing required 'name' attribute";;
  b ← parse_int_attr flag "bit";
  match b with
  | Some z => mret (mkFlagDef nm z (loc flag))
  | None => error flag ("<flag> '" +:+ nm +:+ "' missing required 'bit' attribute");; mret (mkFlagDef nm 0 (loc flag))
  end.
Definition parse_flags (n : xml) : X (list FlagDef) := each parse_flag (children_named n "flag").

Definition parse_constraint (parent : xml) : X (option Constraint) :=
  match child parent "constraint" with
  | None => mret None
  | Some n =>
      timing ← (match attribute n "validate" with
                | Some v => parse_keyword [("deferred", Deferred); ("immediate", Immediate)] Immediate n
                              "validate value" "'immediate' or 'deferred'" v
                | None => mret Immediate
                end);
      mret (Some (mkConstraint (attribute n "equals") (attribute n "min") (attribute n "max") timing (loc n)))
  end.

(** [<scale>], [<offset>]. *)
Definition child_double (n : xml) (k : string) : option spec_float := as_double ∘ text_of <$> child n k.
Definition child_text (n : xml) (k : string) : option string := text_of <$> child n k.

(** [<enum>], [<flags>]: none if there is no such child. *)
Definition child_list {A} (n : xml) (k : string) (f : xml -> X (list A)) : X (list A) :=
  match child n k with Some c => f c | None => mret [] end.

(** [*bytes * 8] is an [int] up to this many bytes. *)
Definition MAX_BYTES : Z := 0x0FFFFFFF.

(** ** Types *)

Definition type_bits (n : xml) (bits bytes : option Z) : X Z :=
  match bytes with
  | None => mret (default 0 bits)
  | Some b =>
      if MAX_BYTES <? b then error n "<type> bytes attribute too large";; mret (default 0 bits)
      else match bits with Some k => int_sum (b * 8) k | None => mret (b * 8) end
  end.

Definition type_attrs : list string :=
  ["name"; "base"; "bits"; "bytes"; "endian"; "format"; "wire-encoding"; "length"; "encoding"; "padding"; "trim";
   "terminated"; "max-length"; "char-bits"]%string.

Definition parse_type (n : xml) : X TypeDef :=
  error_if (is_empty (attr_value n "name")) n "<type> element missing required 'name' attribute";;
  base ← if_attr n "base" (parse_base n);
  bits ← parse_nonneg_int_attr n "bits";
  bytes ← parse_nonneg_int_attr n "bytes";
  td_bits ← type_bits n bits bytes;
  '(endian, endian_explicit) ← parse_endian n;
  '(fmt, fmt_explicit) ← parse_format n;
  we ← if_attr n "wire-encoding" (parse_wire_encoding n);
  length ← parse_nonneg_int_attr n "length";
  enc ← if_attr n "encoding" (parse_encoding n);
  pad ← if_attr n "padding" (parse_padding n);
  trm ← if_attr n "trim" (parse_trim_val n);
  max_length ← parse_int_attr n "max-length";
  char_bits ← parse_int_attr n "char-bits";
  enums ← child_list n "enum" parse_enum;
  flags ← child_list n "flags" parse_flags;
  con ← parse_constraint n;
  anns ← parse_annotations n;
  check_unknown_attrs n type_attrs;;
  mret (mkTypeDef (attr_value n "name") (default BaseUint base) td_bits endian endian_explicit fmt fmt_explicit
    (default WireDefault we) (bool_decide (is_Some we))
    (child_double n "scale") (child_double n "offset") (child_text n "unit") enums flags con length
    (default EncAscii enc) (bool_decide (is_Some enc)) (default PadNull pad) (bool_decide (is_Some pad))
    (default TrimRight trm) (bool_decide (is_Some trm)) (attribute n "terminated") max_length char_bits
    anns (get_doc n) (loc n)).

(** ** Fields *)

(** The width of a field with [bits] and [bytes]; the bytes are then folded in. *)
Definition field_bits (n : xml) (bits bytes : option Z) : X (option Z * option Z) :=
  match bits, bytes with
  | Some k, Some b =>
      if MAX_BYTES <? b then error n "bytes attribute too large";; mret (Some k, None)
      else s ← int_sum (b * 8) k; mret (Some s, None)
  | _, _ => mret (bits, bytes)
  end.

Definition is_true (v : option string) : bool := match v with Some s => String.eqb s "true" | None => false end.

(** [length]: a number, or [*]. *)
Definition field_length (n : xml) : X (option Z * bool) :=
  match attribute n "length" with
  | None => mret (None, false)
  | Some v => if String.eqb v "*" then mret (None, true) else l ← parse_nonneg_int_attr n "length"; mret (l, false)
  end.

Definition some {A} (o : option A) : bool := match o with Some _ => true | None => false end.
Definition count (l : list bool) : nat := length (List.filter (fun b => b) l).

Definition length_conflicts (n : xml) (nm : string) (length : option Z) (star : bool) (from : option Expr)
    (prefix term : option string) : X unit :=
  error_if (1 <? Z.of_nat (count [some length || star; some from; some prefix])) n
    ("field '" +:+ nm +:+ "' has conflicting length specifications (use only one of: length, length-from, length-prefix)");;
  error_if (some term && (some from || some prefix || star)) n
    ("field '" +:+ nm +:+ "' has conflicting length specifications "
     +:+ "(terminated cannot be combined with length-from, length-prefix, or open-ended length)").

Definition auto_of (v : option string) : option AutoExpr :=
  match v with
  | Some s => match parse_auto_expr (txt s) with AOk a => Some a | AErr _ => None end
  | None => None
  end.

Definition field_attrs : list string :=
  ["name"; "type"; "bits"; "bytes"; "signed"; "base"; "bit"; "present-when"; "length"; "length-from"; "length-prefix";
   "length-includes-prefix"; "encoding"; "padding"; "trim"; "terminated"; "max-length"; "char-bits"; "endian"; "format";
   "wire-encoding"; "inline"; "default"; "auto"]%string.

Definition parse_field (n : xml) : X Field :=
  let nm := attr_value n "name" in
  error_if (is_empty nm) n "<field> element missing required 'name' attribute";;
  bits0 ← parse_nonneg_int_attr n "bits";
  bytes0 ← parse_nonneg_int_attr n "bytes";
  base ← if_attr n "base" (parse_base n);
  '(bits, bytes) ← field_bits n bits0 bytes0;
  enums ← child_list n "enum" parse_enum;
  flags ← child_list n "flags" parse_flags;
  con ← parse_constraint n;
  bit ← parse_int_attr n "bit";
  present_when ← parse_expr_attr n "present-when";
  '(length, star) ← field_length n;
  length_from ← parse_expr_attr n "length-from";
  let prefix := attribute n "length-prefix" in
  let includes := is_true (attribute n "length-includes-prefix") in
  error_if (includes && negb (some prefix)) n ("field '" +:+ nm +:+ "' has length-includes-prefix without length-prefix");;
  enc ← if_attr n "encoding" (parse_encoding n);
  pad ← if_attr n "padding" (parse_padding n);
  trm ← if_attr n "trim" (parse_trim_val n);
  max_length ← parse_int_attr n "max-length";
  char_bits ← parse_int_attr n "char-bits";
  length_conflicts n nm length star length_from prefix (attribute n "terminated");;
  '(endian, endian_explicit) ← parse_endian n;
  '(fmt, fmt_explicit) ← parse_format n;
  we ← if_attr n "wire-encoding" (parse_wire_encoding n);
  error_if (some (attribute n "initial")) n "attribute 'initial' is not supported; use 'default' instead";;
  error_if (some (child n "initial")) n "element <initial> is not supported; use the 'default' attribute instead";;
  anns ← parse_annotations n;
  check_unknown_attrs n field_attrs;;
  let type_ref := attr_value n "type" in
  mret (mkField nm type_ref (is_empty type_ref && (some bits || some bytes || some base)) bits bytes
    (is_true (attribute n "signed") || bool_decide (base = Some BaseInt)) base
    (child_double n "scale") (child_double n "offset") (child_text n "unit") enums flags con
    bit present_when length star length_from prefix includes enc pad trm (attribute n "terminated") max_length char_bits
    endian endian_explicit fmt fmt_explicit we (is_true (attribute n "inline")) (attribute n "default")
    (attribute n "auto") (auto_of (attribute n "auto")) anns (get_doc n) (loc n)).

Definition parse_reserved (n : xml) : X Reserved :=
  bits ← parse_nonneg_int_attr n "bits";
  bytes ← parse_nonneg_int_attr n "bytes";
  if MAX_BYTES <? default 0 bytes then
    error n "<reserved> bytes attribute too large";; mret (mkReserved 0 (loc n))
  else
  total ← (match bytes with Some b => int_sum (default 0 bits) (b * 8) | None => mret (default 0 bits) end);
  if total <=? 0 then
    error n "<reserved> element must specify non-zero 'bits' or 'bytes'";; mret (mkReserved 0 (loc n))
  else
  check_unknown_attrs n ["bits"; "bytes"]%string;;
  mret (mkReserved total (loc n)).

Definition parse_align (n : xml) : X Align :=
  to ← parse_int_attr n "to";
  error_if (negb (some to)) n "<align> element missing required 'to' attribute";;
  check_unknown_attrs n ["to"]%string;;
  mret (mkAlign (default 0 to) (loc n)).

(** ** Elements with children

    [kids] is the parse of the children, made where the code calls
    [parse_struct_children]. *)

(** [<bitmap>]: the bits, the extension bit and the byte order. *)
Definition parse_bitmap (b : option xml) : X (Z * option Z * Endian) :=
  match b with
  | None => mret (8, None, EndianBig)
  | Some n =>
      bits ← parse_int_attr n "bits";
      ext ← (match attribute n "ext" with
             | None => mret None
             | Some v =>
                 if String.eqb v "none" then mret None else
                 e ← parse_nonneg_int_attr n "ext";
                 error_if (negb (some e)) n ("<bitmap> ext attribute must be 'none' or a valid integer, got '" +:+ v +:+ "'");;
                 mret e
             end);
      endian ← (match attribute n "endian" with
                | None => mret EndianBig
                | Some v =>
                    match keyword endian_table v with
                    | Some e => mret e
                    | None => error n ("<bitmap> endian attribute must be 'big' or 'little', got '" +:+ v +:+ "'");; mret EndianBig
                    end
                end);
      mret (default 8 bits, ext, endian)
  end.

Definition parse_struct (kids : X (list StructChild)) (n : xml) : X StructDef :=
  let nm := attr_value n "name" in
  error_if (is_empty nm) n "<struct> element missing required 'name' attribute";;
  error_if (some (attribute n "role")) n ("'role' attribute is not valid on <struct> element '" +:+ nm +:+ "'");;
  '(bits, ext, endian) ← parse_bitmap (child n "bitmap");
  bit ← parse_int_attr n "bit";
  present_when ← parse_expr_attr n "present-when";
  l ← kids;
  anns ← parse_annotations n;
  check_unknown_attrs n ["name"; "presence"; "bit"; "present-when"; "typeName"]%string;;
  mret (mkStructDef nm l (match attribute n "presence" with Some v => String.eqb v "bitmap" | None => false end) bits ext endian
    bit present_when (attribute n "typeName") (some (child n "empty")) anns (get_doc n) (loc n)).

(** [count]: a number, of which only the front is read, [*] or [fx]. *)
Definition parse_count (n : xml) : X (option Z * bool * bool) :=
  match attribute n "count" with
  | None => mret (None, false, false)
  | Some v =>
      if String.eqb v "*" then mret (None, true, false)
      else if String.eqb v "fx" then mret (None, false, true)
      else match from_chars_int 10 (txt v) with
           | (None, z, _) => mret (Some z, false, false)
           | _ => error n ("invalid integer value for 'count': " +:+ v);; mret (None, false, false)
           end
  end.

Definition parse_array (kids : X (list StructChild)) (n : xml) : X ArrayDef :=
  let nm := attr_value n "name" in
  error_if (is_empty nm) n "<array> element missing required 'name' attribute";;
  '(fixed, star, fx) ← parse_count n;
  count_from ← parse_expr_attr n "count-from";
  error_if ((some fixed || star || fx) && some count_from) n
    ("array '" +:+ nm +:+ "' has conflicting count specifications (use only one of: count, count-from)");;
  length ← parse_nonneg_int_attr n "length";
  length_from ← parse_expr_attr n "length-from";
  error_if (some length && some length_from) n
    ("array '" +:+ nm +:+ "' has conflicting length specifications (use only one of: length, length-from)");;
  error_if (fx && (some length || some length_from)) n
    ("array '" +:+ nm +:+ "' with count=" +:+ dquote "fx" +:+ " cannot also specify length or length-from (the FX bit determines termination)");;
  bit ← parse_int_attr n "bit";
  present_when ← parse_expr_attr n "present-when";
  l ← (if some (attribute n "type") then mret [] else kids);
  anns ← parse_annotations n;
  check_unknown_attrs n ["name"; "type"; "count"; "count-from"; "length"; "length-from"; "bit"; "present-when"; "typeName"]%string;;
  mret (mkArrayDef nm (attr_value n "type") l fixed count_from star fx length length_from bit present_when
    (attribute n "typeName") anns (get_doc n) (loc n)).

Definition parse_case (kids : X (list StructChild)) (n : xml) : X CaseDef :=
  error_if (is_empty (attr_value n "name")) n "<case> element missing required 'name' attribute";;
  dir ← parse_direction n;
  l ← (if some (attribute n "type") then mret [] else kids);
  anns ← parse_annotations n;
  check_unknown_attrs n ["name"; "type"; "value"; "range"; "direction"; "typeName"]%string;;
  mret (mkCaseDef (attr_value n "name") (attr_value n "type") l (attribute n "value") (attribute n "range") dir
    (attribute n "typeName") anns (get_doc n) (loc n)).

Definition parse_otherwise (choice : string) (kids : X (list StructChild)) (n : xml) : X OtherwiseDef :=
  error_if (some (attribute n "direction")) n
    ("'direction' attribute is not valid on <otherwise> in choice '" +:+ choice +:+ "'");;
  l ← (if some (attribute n "type") then mret [] else kids);
  anns ← parse_annotations n;
  check_unknown_attrs n ["name"; "type"; "typeName"]%string;;
  mret (mkOtherwiseDef (attr_value n "name") (attr_value n "type") l (attribute n "typeName") anns (get_doc n) (loc n)).

(** The first [<case>] after an [<otherwise>]. *)
Fixpoint case_after_otherwise (seen : bool) (l : list xml) : option xml :=
  match l with
  | [] => None
  | c :: l =>
      if String.eqb (name c) "otherwise" then case_after_otherwise true l
      else if String.eqb (name c) "case" && seen then Some c else case_after_otherwise seen l
  end.

(** An error for every child whose name is not known. *)
Definition check_children (known : list string) (what : string) (n : xml) : X unit :=
  _ ← each (fun c => error_if (negb (existsb (String.eqb (name c)) known)) c
               ("unrecognized element <" +:+ name c +:+ "> " +:+ what)) (children n);
  mret tt.

Definition parse_choice (cases : X (list CaseDef)) (otherwise : X (option OtherwiseDef)) (n : xml) : X ChoiceDef :=
  let nm := attr_value n "name" in
  error_if (is_empty nm) n "<choice> element missing required 'name' attribute";;
  switch ← parse_expr_attr n "switch";
  length ← parse_nonneg_int_attr n "length";
  length_from ← parse_expr_attr n "length-from";
  error_if (some length && some length_from) n
    ("choice '" +:+ nm +:+ "' has conflicting length specifications (use only one of: length, length-from)");;
  bit ← parse_int_attr n "bit";
  present_when ← parse_expr_attr n "present-when";
  cs ← cases;
  (match case_after_otherwise false (children n) with
   | Some c => error c ("<case> must not appear after <otherwise> in choice '" +:+ nm +:+ "'")
   | None => mret tt
   end);;
  ow ← otherwise;
  check_children ["case"; "otherwise"; "doc"; "annotation"]%string "inside <choice>" n;;
  anns ← parse_annotations n;
  check_unknown_attrs n ["name"; "switch"; "length"; "length-from"; "bit"; "present-when"; "typeName"]%string;;
  mret (mkChoiceDef nm switch cs ow length length_from bit present_when (attribute n "typeName") anns (get_doc n) (loc n)).

Definition parse_fx (kids : X (list StructChild)) (n : xml) : X FxBlock := l ← kids; mret (mkFxBlock l (loc n)).

(** ** The recursion

    One round of the loop of [parse_struct_children]: the child an element adds, if
    any. *)
Fixpoint parse_struct_child (n : xml) : X (option StructChild) :=
  let all := fix all (l : list xml) : X (list StructChild) :=
    match l with
    | [] => mret []
    | c :: l => x ← parse_struct_child c; xs ← all l; mret (option_list x ++ xs)
    end in
  match n with
  | Text _ _ => mret None
  | Element nm _ l _ =>
      if String.eqb nm "field" then f ← parse_field n; mret (Some (ChField f))
      else if String.eqb nm "struct" then s ← parse_struct (all l) n; mret (Some (ChStruct s))
      else if String.eqb nm "array" then a ← parse_array (all l) n; mret (Some (ChArray a))
      else if String.eqb nm "choice" then
        c ← parse_choice
          ((fix cases (l : list xml) : X (list CaseDef) :=
              match l with
              | [] => mret []
              | Element k a l' o :: l =>
                  if String.eqb k "case" then c ← parse_case (all l') (Element k a l' o); cs ← cases l; mret (c :: cs)
                  else cases l
              | Text _ _ :: l => cases l
              end) l)
          ((fix other (l : list xml) : X (option OtherwiseDef) :=
              match l with
              | [] => mret None
              | Element k a l' o :: l =>
                  if String.eqb k "otherwise" then
                    d ← parse_otherwise (attr_value n "name") (all l') (Element k a l' o); mret (Some d)
                  else other l
              | Text _ _ :: l => other l
              end) l) n;
        mret (Some (ChChoice c))
      else if String.eqb nm "fx" then x ← parse_fx (all l) n; mret (Some (ChFx x))
      else if String.eqb nm "reserved" then r ← parse_reserved n; mret (Some (ChReserved r))
      else if String.eqb nm "align" then a ← parse_align n; mret (Some (ChAlign a))
      else
        error_if (negb (existsb (String.eqb nm) ["doc"; "annotation"; "bitmap"; "empty"; ""]%string)) n
          ("unrecognized child element <" +:+ nm +:+ ">");;
        mret None
  end.

Fixpoint parse_all (l : list xml) : X (list StructChild) :=
  match l with
  | [] => mret []
  | c :: l => x ← parse_struct_child c; xs ← parse_all l; mret (option_list x ++ xs)
  end.

Definition parse_struct_children (n : xml) : X (list StructChild) := parse_all (children n).

(** The loops over the branches of a choice. *)
Fixpoint parse_cases (l : list xml) : X (list CaseDef) :=
  match l with
  | [] => mret []
  | Element k a l' o :: l =>
      if String.eqb k "case" then c ← parse_case (parse_all l') (Element k a l' o); cs ← parse_cases l; mret (c :: cs)
      else parse_cases l
  | Text _ _ :: l => parse_cases l
  end.

Definition parse_other (choice : string) : list xml -> X (option OtherwiseDef) :=
  fix other (l : list xml) : X (option OtherwiseDef) :=
    match l with
    | [] => mret None
    | Element k a l' o :: l =>
        if String.eqb k "otherwise" then d ← parse_otherwise choice (parse_all l') (Element k a l' o); mret (Some d)
        else other l
    | Text _ _ :: l => other l
    end.

Lemma parse_struct_child_element k a l o :
  let n := Element k a l o in
  parse_struct_child n =
    (if String.eqb k "field" then f ← parse_field n; mret (Some (ChField f))
     else if String.eqb k "struct" then s ← parse_struct (parse_all l) n; mret (Some (ChStruct s))
     else if String.eqb k "array" then a ← parse_array (parse_all l) n; mret (Some (ChArray a))
     else if String.eqb k "choice" then
       c ← parse_choice (parse_cases l) (parse_other (attr_value n "name") l) n; mret (Some (ChChoice c))
     else if String.eqb k "fx" then x ← parse_fx (parse_all l) n; mret (Some (ChFx x))
     else if String.eqb k "reserved" then r ← parse_reserved n; mret (Some (ChReserved r))
     else if String.eqb k "align" then a ← parse_align n; mret (Some (ChAlign a))
     else
       error_if (negb (existsb (String.eqb k) ["doc"; "annotation"; "bitmap"; "empty"; ""]%string)) n
         ("unrecognized child element <" +:+ k +:+ ">");;
       mret None).
Proof. reflexivity. Qed.

(** ** Definitions *)

Definition parse_import (n : xml) : X ImportDef :=
  error_if (is_empty (attr_value n "href")) n "<import> element missing required 'href' attribute";;
  check_unknown_attrs n ["href"; "ns"]%string;;
  mret (mkImportDef (attr_value n "href") (attribute n "ns") (loc n)).

Definition parse_const (n : xml) : X ConstDef :=
  anns ← parse_annotations n;
  error_if (is_empty (attr_value n "name")) n "<const> element missing required 'name' attribute";;
  error_if (is_empty (attr_value n "type")) n "<const> element missing required 'type' attribute";;
  error_if (is_empty (attr_value n "value")) n "<const> element missing required 'value' attribute";;
  check_unknown_attrs n ["name"; "type"; "value"]%string;;
  mret (mkConstDef (attr_value n "name") (attr_value n "type") (attr_value n "value") anns (get_doc n) (loc n)).

Definition parse_message (n : xml) : X MessageDef :=
  error_if (is_empty (attr_value n "name")) n "<message> element missing required 'name' attribute";;
  dir ← parse_direction n;
  l ← parse_struct_children n;
  anns ← parse_annotations n;
  check_unknown_attrs n ["name"; "id"; "direction"]%string;;
  mret (mkMessageDef (attr_value n "name") l (attr_value n "id") dir (some (child n "empty")) anns (get_doc n) (loc n)).

(** A default given as the text of a child. *)
Definition default_text {A} (n : xml) (k : string) (old : A) (f : xml -> string -> X A) : X A :=
  match child n k with Some c => f c (text_of c) | None => mret old end.

Definition parse_defaults (n : xml) : X Defaults :=
  endian ← default_text n "endian" EndianBig
             (fun c v => parse_keyword endian_table EndianBig c "endian value" "'little' or 'big'" v);
  enc ← default_text n "string-encoding" EncAscii parse_encoding;
  pad ← default_text n "string-padding" PadNull parse_padding;
  trm ← default_text n "string-trim" TrimRight parse_trim_val;
  check_children ["endian"; "string-encoding"; "string-padding"; "string-trim"; "namespace"]%string "inside <defaults>" n;;
  mret (mkDefaults endian enc pad trm (child_text n "namespace")).

(** The children of a frame, before and after its payload. *)
Fixpoint frame_children (nm : string) (payload : option PayloadDef) (l : list xml)
    : X (list StructChild * option PayloadDef * list StructChild) :=
  match l with
  | [] => mret ([], payload, [])
  | c :: l =>
      if String.eqb (name c) "payload" then
        match payload with
        | Some _ => error c ("duplicate <payload/> in frame '" +:+ nm +:+ "'");; frame_children nm payload l
        | None =>
            from ← parse_expr_attr c "length-from";
            check_unknown_attrs c ["count"; "length-from"]%string;;
            frame_children nm
              (Some (mkPayload (match attribute c "count" with Some v => String.eqb v "*" | None => false end) from (loc c))) l
        end
      else if existsb (String.eqb (name c)) ["field"; "struct"; "array"; "choice"; "fx"; "reserved"; "align"]%string then
        x ← parse_struct_child c;
        '(h, p, f) ← frame_children nm payload l;
        mret (match payload with None => (option_list x ++ h, p, f) | Some _ => (h, p, option_list x ++ f) end)
      else
        error_if (negb (existsb (String.eqb (name c)) ["doc"; "annotation"; ""]%string)) c
          ("unrecognized element <" +:+ name c +:+ "> inside <frame>");;
        frame_children nm payload l
  end.

Definition parse_frame (n : xml) : X FrameDef :=
  let nm := attr_value n "name" in
  error_if (is_empty nm) n "<frame> element missing required 'name' attribute";;
  '(header, payload, footer) ← frame_children nm None (children n);
  error_if (negb (some payload)) n ("<frame> '" +:+ nm +:+ "' missing required <payload/> element");;
  anns ← parse_annotations n;
  check_unknown_attrs n ["name"]%string;;
  mret (mkFrameDef nm header (default (mkPayload false None unknown_loc) payload) footer anns (get_doc n) (loc n)).

(** ** The file *)

(** What [parse_definitions] adds to the file. *)
Record Definitions := mkDefinitions {
  d_constants : list ConstDef; d_types : list TypeDef; d_structs : list StructDef;
  d_messages : list MessageDef; d_frames : list FrameDef
}.

(** The elements of blocks; one that is not known is an error. *)
Definition in_blocks {A} (n : xml) (block : string) (f : xml -> option (X A)) : X (list A) :=
  l ← each (fun c =>
    match f c with
    | Some p => a ← p; mret (Some a)
    | None => error c ("unrecognized element <" +:+ name c +:+ "> inside <" +:+ block +:+ ">");; mret None
    end) (flat_map children (children_named n block));
  mret (omap id l).

Definition parse_definitions (n : xml) : X Definitions :=
  cs ← in_blocks n "constants" (fun c => if String.eqb (name c) "const" then Some (parse_const c) else None);
  ts ← in_blocks n "types" (fun c =>
    if String.eqb (name c) "type" then Some (t ← parse_type c; mret (inl t))
    else if String.eqb (name c) "struct" then Some (s ← parse_struct (parse_struct_children c) c; mret (inr s))
    else None);
  ms ← in_blocks n "messages" (fun c => if String.eqb (name c) "message" then Some (parse_message c) else None);
  fs ← each parse_frame (children_named n "frame");
  mret (mkDefinitions cs (omap (fun d => match d with inl t => Some t | inr _ => None end) ts)
    (omap (fun d => match d with inl _ => None | inr s => Some s end) ts) ms fs).

(** [BmdlFile] before the definitions are added. *)
Record Header := mkHeader {
  h_has_protocol : bool; h_name : string; h_version : string; h_defaults : Defaults; h_doc : string; h_imports : list ImportDef
}.

(** The first frame of a flat file names the protocol if no namespace does. *)
Definition flat_name (root : xml) (d : Defaults) : string :=
  match def_namespace d with
  | Some s => s
  | None => match child root "frame" with Some f => attr_value f "name" | None => "" end
  end.

Definition parse_contents (root : xml) (bmdl_version : string) (imports : list ImportDef) : X (Header * Definitions) :=
  match child root "protocol" with
  | Some p =>
      error_if (negb (some (attribute p "name"))) p "<protocol> missing required 'name' attribute";;
      error_if (negb (some (attribute p "version"))) p "<protocol> missing required 'version' attribute";;
      check_unknown_attrs p ["name"; "version"]%string;;
      defaults ← (match child p "defaults" with Some d => parse_defaults d | None => mret new_defaults end);
      more ← each parse_import (children_named p "import");
      defs ← parse_definitions p;
      check_children ["defaults"; "import"; "constants"; "types"; "messages"; "frame"; "doc"]%string "inside <protocol>" p;;
      mret (mkHeader true (attr_value p "name") (attr_value p "version") defaults (get_doc p) (imports ++ more), defs)
  | None =>
  match child root "defaults" with
  | Some d =>
      defaults ← parse_defaults d;
      defs ← parse_definitions root;
      check_children ["import"; "defaults"; "constants"; "types"; "messages"; "frame"; "doc"]%string "in v2 file" root;;
      mret (mkHeader true (flat_name root defaults) bmdl_version defaults (get_doc root) imports, defs)
  | None =>
      defs ← parse_definitions root;
      check_children ["import"; "constants"; "types"; "messages"; "frame"; "doc"; "annotation"]%string "in library file" root;;
      mret (mkHeader false "" "" new_defaults "" imports, defs)
  end
  end.

Definition unsupported_version (v : string) : string :=
  "unsupported BMDL version '" +:+ v +:+ "'; only version '2.0' is supported".

Definition parse_root (root : xml) : X BmdlFile :=
  let v := attr_value root "version" in
  let has_version := some (attribute root "version") in
  error_if (negb has_version) root "<bmdl> missing required 'version' attribute";;
  check_unknown_attrs root ["version"]%string;;
  imports ← each parse_import (children_named root "import");
  '(h, d) ← parse_contents root v imports;
  mret (mkFile file_path v (h_has_protocol h) (h_name h) (h_version h) (h_defaults h) (h_doc h) (h_imports h)
    (d_constants d) (d_types d) (d_structs d) (d_messages d) (d_frames d)
    (if has_version && negb (String.eqb v "2.0") then [(unsupported_version v, loc root)] else []) (loc root)).
End context.

(** What pugixml makes of a file: the offset and the text of an error, or the nodes
    of the document. *)
Definition Document : Type := (Z * string) + list xml.

Section file.
Variable as_double : string -> spec_float.
(** The contents of a file that can be opened. *)
Variable read_file : string -> option string.
Variable load_file load_buffer : string -> Document.

Definition parse_bmdl_file (path : string) : option (list XmlParseError + BmdlFile) :=
  let content := default "" (read_file path) in
  let line_offsets := match read_file path with Some c => line_starts c | None => [] end in
  match (if is_empty content then load_file path else load_buffer content) with
  | inl (off, description) =>
      Some (inl [mkXmlError ("XML parse error: " +:+ description) (loc_of path line_offsets off)])
  | inr nodes =>
      match List.find (named "bmdl") nodes with
      | None => Some (inl [mkXmlError "missing <bmdl> root element" (mkLoc path 0 0 0)])
      | Some root =>
          '(f, errors) ← parse_root as_double path line_offsets root;
          Some (match errors with [] => inr f | _ => inl errors end)
      end
  end.
End file.
