(* ===== verification/XmlParserSpec.v ===== *)
(** * The XML parser: it answers, and its locations are right

    The parser returns on every document in which no element gives a size that
    overflows [int], and the line and column of every location are those of the
    offset in the file. *)

From stdpp Require Import base numbers list strings pretty.
From Stdlib Require Import ZArith Lia Ascii SpecFloat.
From S2P Require Import Prelude CharConv AutoExpr ExprParser ExprParserSpec Ast AstBuilder XmlParser.

Open Scope Z_scope.

(** ** Induction over documents *)

Section xml_ind.
Variable P : xml -> Prop.
Hypothesis Helement : forall k a l o, Forall P l -> P (Element k a l o).
Hypothesis Htext : forall v o, P (Text v o).

Fixpoint xml_nested_ind (n : xml) : P n :=
  match n with
  | Element k a l o =>
      Helement k a l o
        ((fix all (l : list xml) : Forall P l :=
            match l with
            | [] => @List.Forall_nil _ P
            | x :: l => @List.Forall_cons _ P x l (xml_nested_ind x) (all l)
            end) l)
  | Text v o => Htext v o
  end.
End xml_ind.

(** [m] is [n] or an element below it. *)
Inductive within (m : xml) : xml -> Prop :=
  | within_self : within m m
  | within_child n c : c ∈ children n -> within m c -> within m n.

(** ** Sizes that overflow *)

(** The value of an attribute that is a number. *)
Definition int_attr (n : xml) (k : string) : option Z := v ← attribute n k; whole_number from_chars_int (txt v).

Definition size_overflows (n : xml) : bool :=
  match int_attr n "bits", int_attr n "bytes" with
  | Some k, Some b => (0 <=? k) && (0 <=? b) && (b <=? MAX_BYTES) && (INT_MAX <? b * 8 + k)
  | _, _ => false
  end.

(** ** Computations that answer *)

Definition ensures {A} (p : X A) (Q : A -> Prop) : Prop := exists a es, p = Some (a, es) /\ Q a.
Abbreviation answers p := (ensures p (fun _ => True)).

Lemma ensures_ret {A} (a : A) (Q : A -> Prop) : Q a -> ensures (mret a) Q.
Proof. intros HQ. by exists a, []. Qed.

Lemma ensures_bind {A B} (p : X A) (f : A -> X B) (P : A -> Prop) (Q : B -> Prop) :
  ensures p P -> (forall a, P a -> ensures (f a) Q) -> ensures (p ≫= f) Q.
Proof.
  intros (a & es & -> & HP) Hf. destruct (Hf a HP) as (b & es' & E & HQ). exists b, (es ++ es').
  unfold mbind, X_bind. by rewrite E.
Qed.

Lemma xml_answers_bind {A B} (p : X A) (f : A -> X B) : answers p -> (forall a, answers (f a)) -> answers (p ≫= f).
Proof. intros Hp Hf. eapply ensures_bind; [exact Hp|]. intros a _. apply Hf. Qed.

Lemma ensures_mono {A} (p : X A) (P Q : A -> Prop) : ensures p P -> (forall a, P a -> Q a) -> ensures p Q.
Proof. intros (a & es & -> & HP) HPQ. exists a, es. auto. Qed.

Lemma answers_each {A B} (f : A -> X B) l : (forall x, x ∈ l -> answers (f x)) -> answers (each f l).
Proof.
  induction l as [|x l IH]; intros Hf; cbn [each]; [by apply ensures_ret|].
  apply xml_answers_bind; [apply Hf; by left|]. intros y. apply xml_answers_bind; [|intros; by apply ensures_ret].
  apply IH. intros z Hz. apply Hf. by right.
Qed.

Create HintDb xml discriminated.
#[export] Hint Resolve ensures_ret I : xml.

(** Closes [answers] goals by following the code. *)
Ltac answer :=
  repeat first
    [ solve [auto with xml]
    | match goal with |- ensures (_ ≫= _) _ => apply xml_answers_bind; [|intro] end
    | match goal with |- ensures (match ?x with _ => _ end) _ => destruct x end ].

Section context.
Variable as_double : string -> spec_float.
Variable file_path : string.
Variable line_offsets : list Z.

Abbreviation X_error := (error file_path line_offsets).

Lemma xml_answers_error n msg : answers (X_error n msg).
Proof. by eexists _, _. Qed.

Lemma answers_error_if b n msg : answers (error_if file_path line_offsets b n msg).
Proof. destruct b; [apply xml_answers_error|by apply ensures_ret]. Qed.

Hint Resolve xml_answers_error answers_error_if : xml.

Lemma answers_unknown_attrs n known : answers (check_unknown_attrs file_path line_offsets n known).
Proof. apply xml_answers_bind; [|auto with xml]. apply answers_each. intros. unfold unknown_attr_error. auto with xml. Qed.

Lemma answers_children known what n : answers (check_children file_path line_offsets known what n).
Proof. apply xml_answers_bind; [|auto with xml]. apply answers_each. auto with xml. Qed.

Lemma answers_expr n k : answers (parse_expr_attr file_path line_offsets n k).
Proof.
  unfold parse_expr_attr. destruct (is_empty _); [auto with xml|].
  destruct (parse_expression_total (txt (attr_value n k)) (loc file_path line_offsets n)) as (r & -> & _). answer.
Qed.

Lemma ensures_int n k : ensures (parse_int_attr file_path line_offsets n k) (fun v => v = int_attr n k).
Proof.
  unfold parse_int_attr, parse_number_attr, int_attr. destruct (attribute n k) as [v|]; [|by apply ensures_ret].
  change (Some v ≫= _) with (whole_number from_chars_int (txt v)).
  destruct (whole_number from_chars_int (txt v)); [by apply ensures_ret|].
  eapply ensures_bind; [apply xml_answers_error|]. intros _ _. by apply ensures_ret.
Qed.

Lemma ensures_nonneg n k :
  ensures (parse_nonneg_int_attr file_path line_offsets n k) (fun v => forall z, v = Some z -> int_attr n k = Some z /\ 0 <= z).
Proof.
  unfold parse_nonneg_int_attr. eapply ensures_bind; [apply ensures_int|]. intros v ->.
  destruct (int_attr n k) as [z|]; [|by apply ensures_ret]. destruct_if; bool_to_prop.
  - eapply ensures_bind; [apply xml_answers_error|]. intros _ _. by apply ensures_ret.
  - apply ensures_ret. by intros z' [= <-].
Qed.

Lemma answers_int n k : answers (parse_int_attr file_path line_offsets n k).
Proof. eapply ensures_mono; [apply ensures_int|done]. Qed.
Lemma answers_nonneg n k : answers (parse_nonneg_int_attr file_path line_offsets n k).
Proof. eapply ensures_mono; [apply ensures_nonneg|done]. Qed.
Lemma answers_int64 n k : answers (parse_int64_attr file_path line_offsets n k).
Proof. unfold parse_int64_attr, parse_number_attr. answer. Qed.
Lemma answers_keyword {A} table (a : A) n what expected v : answers (parse_keyword file_path line_offsets table a n what expected v).
Proof. unfold parse_keyword. answer. Qed.
Lemma answers_if_attr {A} n k (f : string -> X A) : (forall v, answers (f v)) -> answers (if_attr n k f).
Proof. intros Hf. unfold if_attr. answer. Qed.

Hint Resolve answers_unknown_attrs answers_children answers_expr answers_int answers_nonneg answers_int64 answers_keyword
  answers_if_attr : xml.

Lemma answers_annotations n : answers (parse_annotations file_path line_offsets n).
Proof. apply answers_each. intros. unfold parse_annotation. answer. Qed.

Lemma answers_enum n : answers (parse_enum file_path line_offsets n).
Proof.
  unfold parse_enum. generalize 0. induction (children_named n "value") as [|v l IH]; intros z; cbn [enum_values]; answer.
Qed.

Lemma answers_flags n : answers (parse_flags file_path line_offsets n).
Proof. apply answers_each. intros. unfold parse_flag. answer. Qed.

Lemma answers_constraint n : answers (parse_constraint file_path line_offsets n).
Proof. unfold parse_constraint. answer. Qed.

Lemma answers_child_list {A} n k (f : xml -> X (list A)) : (forall c, answers (f c)) -> answers (child_list n k f).
Proof. intros Hf. unfold child_list. answer. Qed.

Lemma answers_endian n : answers (parse_endian file_path line_offsets n).
Proof. unfold parse_endian. answer. Qed.
Lemma answers_format n : answers (parse_format file_path line_offsets n).
Proof. unfold parse_format. answer. Qed.
Lemma answers_direction n : answers (parse_direction file_path line_offsets n).
Proof. unfold parse_direction. answer. Qed.

Hint Resolve answers_annotations answers_enum answers_flags answers_constraint answers_child_list answers_endian answers_format
  answers_direction : xml.
Hint Extern 1 (answers (parse_base _ _ _ _)) => apply answers_keyword : xml.
Hint Extern 1 (answers (parse_encoding _ _ _ _)) => apply answers_keyword : xml.
Hint Extern 1 (answers (parse_padding _ _ _ _)) => apply answers_keyword : xml.
Hint Extern 1 (answers (parse_trim_val _ _ _ _)) => apply answers_keyword : xml.
Hint Extern 1 (answers (parse_wire_encoding _ _ _ _)) => apply answers_keyword : xml.

(** The sum of an element whose size does not overflow. *)
Lemma sum_fits n (bits bytes : Z) :
  size_overflows n = false -> int_attr n "bits" = Some bits -> 0 <= bits -> int_attr n "bytes" = Some bytes -> 0 <= bytes ->
  (MAX_BYTES <? bytes) = false -> is_int (bytes * 8 + bits) = true.
Proof.
  unfold size_overflows, is_int, INT_MIN. intros Ho Ek Hk Eb Hb Hm. rewrite Ek, Eb in Ho. bool_to_prop.
  rewrite (proj2 (Z.leb_le 0 bits)), (proj2 (Z.leb_le 0 bytes)), (proj2 (Z.leb_le bytes MAX_BYTES)) in Ho by done. cbn [andb] in Ho.
  bool_to_prop. rewrite (proj2 (Z.leb_le _ _)), (proj2 (Z.leb_le _ INT_MAX)); [done|lia|lia].
Qed.

Lemma answers_field n : size_overflows n = false -> answers (parse_field as_double file_path line_offsets n).
Proof.
  intros Ho. unfold parse_field. apply xml_answers_bind; [auto with xml|]. intros _.
  eapply ensures_bind; [apply ensures_nonneg|]. intros bits Hk. eapply ensures_bind; [apply ensures_nonneg|]. intros bytes Hb.
  apply xml_answers_bind; [auto with xml|]. intros base. apply xml_answers_bind.
  { unfold field_bits. destruct bits as [k|], bytes as [b|]; auto with xml. destruct (MAX_BYTES <? b) eqn:Em; [answer|].
    destruct (Hk k eq_refl), (Hb b eq_refl). unfold int_sum. rewrite (sum_fits n) by done. answer. }
  intros [bits' bytes']. unfold field_length, length_conflicts. answer.
Qed.

Lemma answers_type n : size_overflows n = false -> answers (parse_type as_double file_path line_offsets n).
Proof.
  intros Ho. unfold parse_type. apply xml_answers_bind; [auto with xml|]. intros _. apply xml_answers_bind; [auto with xml|]. intros base.
  eapply ensures_bind; [apply ensures_nonneg|]. intros bits Hk. eapply ensures_bind; [apply ensures_nonneg|]. intros bytes Hb.
  apply xml_answers_bind.
  { unfold type_bits. destruct bytes as [b|]; [|auto with xml]. destruct (MAX_BYTES <? b) eqn:Em; [answer|].
    destruct bits as [k|]; [|auto with xml]. destruct (Hk k eq_refl), (Hb b eq_refl). unfold int_sum. rewrite (sum_fits n) by done. answer. }
  intros w. answer.
Qed.

Lemma answers_reserved n : size_overflows n = false -> answers (parse_reserved file_path line_offsets n).
Proof.
  intros Ho. unfold parse_reserved. eapply ensures_bind; [apply ensures_nonneg|]. intros bits Hk.
  eapply ensures_bind; [apply ensures_nonneg|]. intros bytes Hb. destruct (MAX_BYTES <? default 0 bytes) eqn:Em; [answer|].
  apply xml_answers_bind; [|intros total; answer]. destruct bytes as [b|]; [|auto with xml]. destruct (Hb b eq_refl). unfold int_sum. cbn in Em.
  destruct bits as [k|]; cbn [default].
  - destruct (Hk k eq_refl). rewrite Z.add_comm, (sum_fits n) by done. answer.
  - bool_to_prop. assert (is_int (0 + b * 8) = true) as ->; [|answer]. unfold is_int, INT_MIN, INT_MAX, MAX_BYTES in *.
    rewrite (proj2 (Z.leb_le _ _)), (proj2 (Z.leb_le _ (2 ^ 31 - 1))); [done|lia|lia].
Qed.

Lemma answers_struct kids n : answers kids -> answers (parse_struct file_path line_offsets kids n).
Proof. intros Hk. unfold parse_struct, parse_bitmap. answer. Qed.
Lemma answers_array kids n : answers kids -> answers (parse_array file_path line_offsets kids n).
Proof. intros Hk. unfold parse_array, XmlParser.parse_count. answer. Qed.
Lemma answers_case kids n : answers kids -> answers (parse_case file_path line_offsets kids n).
Proof. intros Hk. unfold parse_case. answer. Qed.
Lemma answers_otherwise c kids n : answers kids -> answers (parse_otherwise file_path line_offsets c kids n).
Proof. intros Hk. unfold parse_otherwise. answer. Qed.
Lemma answers_choice cases other n : answers cases -> answers other -> answers (parse_choice file_path line_offsets cases other n).
Proof. intros Hc Ho. unfold parse_choice. answer. Qed.
Lemma answers_align n : answers (parse_align file_path line_offsets n).
Proof. unfold parse_align. answer. Qed.

Definition sizes_fit (n : xml) : Prop := forall m, within m n -> size_overflows m = false.

Lemma sizes_fit_child n c : sizes_fit n -> c ∈ children n -> sizes_fit c.
Proof. intros Hn Hc m Hm. apply Hn. by eapply within_child. Qed.

Abbreviation parse_child := (parse_struct_child as_double file_path line_offsets).

Lemma answers_all l :
  Forall (fun c => sizes_fit c -> answers (parse_child c)) l -> (forall c, c ∈ l -> sizes_fit c) ->
  answers (parse_all as_double file_path line_offsets l).
Proof.
  induction 1 as [|c l Hc _ IH]; intros Hl; cbn [parse_all]; [by apply ensures_ret|].
  apply xml_answers_bind; [apply Hc, Hl; by left|]. intros x. apply xml_answers_bind; [|auto with xml].
  apply IH. intros c' Hc'. apply Hl. by right.
Qed.

Lemma answers_cases l :
  Forall (fun c => forall l', children c = l' -> answers (parse_all as_double file_path line_offsets l')) l ->
  answers (parse_cases as_double file_path line_offsets l).
Proof.
  induction 1 as [|[k a l' o|v o] l Hc _ IH]; cbn [parse_cases]; [by apply ensures_ret| |done].
  destruct_if; [|done]. apply xml_answers_bind; [by apply answers_case, Hc|]. intros c. answer.
Qed.

Lemma answers_other choice l :
  Forall (fun c => forall l', children c = l' -> answers (parse_all as_double file_path line_offsets l')) l ->
  answers (parse_other as_double file_path line_offsets choice l).
Proof.
  induction 1 as [|[k a l' o|v o] l Hc _ IH]; cbn [parse_other]; [by apply ensures_ret| |done].
  destruct_if; [|done]. apply xml_answers_bind; [by apply answers_otherwise, Hc|]. intros c. answer.
Qed.

(** With the children of the children, which choices parse. *)
Lemma answers_child_all n :
  sizes_fit n -> answers (parse_child n) /\ answers (parse_all as_double file_path line_offsets (children n)).
Proof.
  induction n as [k a l o IH|v o] using xml_nested_ind; intros Hn; [|split; by apply ensures_ret].
  assert (forall c, c ∈ l -> sizes_fit c) as Hl by (intros c Hc; by apply (sizes_fit_child _ _ Hn)).
  assert (answers (parse_all as_double file_path line_offsets l)) as Hall.
  { apply answers_all; [|done]. eapply Forall_impl; [exact IH|]. intros c Hc Hfit. by apply Hc. }
  split; [|exact Hall]. assert (size_overflows (Element k a l o) = false) as Hs by (apply Hn; constructor).
  assert (Forall (fun c => forall l', children c = l' -> answers (parse_all as_double file_path line_offsets l')) l) as Hkids.
  { rewrite Forall_forall in IH |- *. intros c Hc l' <-. by apply IH, Hl. }
  rewrite parse_struct_child_element. cbn zeta. unfold parse_fx.
  repeat (destruct_if; [apply xml_answers_bind; [|intros ?; auto with xml];
    first [by apply answers_field|by apply answers_struct|by apply answers_array|by apply answers_reserved|apply answers_align
          |apply answers_choice; [by apply answers_cases|by apply answers_other]|answer]|]).
  answer.
Qed.

Lemma answers_struct_children n : sizes_fit n -> answers (parse_struct_children as_double file_path line_offsets n).
Proof. intros Hn. by apply answers_child_all. Qed.

Lemma answers_message n : sizes_fit n -> answers (parse_message as_double file_path line_offsets n).
Proof. intros Hn. pose proof (answers_struct_children n Hn). unfold parse_message. answer. Qed.

Lemma answers_import n : answers (parse_import file_path line_offsets n).
Proof. unfold parse_import. answer. Qed.
Lemma answers_const n : answers (parse_const file_path line_offsets n).
Proof. unfold parse_const. answer. Qed.
Lemma answers_defaults n : answers (parse_defaults file_path line_offsets n).
Proof. unfold parse_defaults, default_text. answer. Qed.
Hint Resolve answers_import answers_const answers_defaults : xml.

Lemma answers_frame_children nm l : forall payload, (forall c, c ∈ l -> sizes_fit c) ->
  answers (frame_children as_double file_path line_offsets nm payload l).
Proof.
  induction l as [|c l IH]; intros payload Hl; cbn [frame_children]; [by apply ensures_ret|].
  assert (forall p, answers (frame_children as_double file_path line_offsets nm p l)) as Hrest.
  { intros p. apply IH. intros c' Hc'. apply Hl. by right. }
  pose proof (proj1 (answers_child_all c (Hl c ltac:(by left)))) as Hc. answer.
Qed.

Lemma answers_frame n : sizes_fit n -> answers (parse_frame as_double file_path line_offsets n).
Proof.
  intros Hn. unfold parse_frame. apply xml_answers_bind; [auto with xml|]. intros _. apply xml_answers_bind; [|intros r; answer].
  apply answers_frame_children. intros c Hc. by apply (sizes_fit_child n).
Qed.

Lemma child_in n k c : child n k = Some c -> c ∈ children n.
Proof.
  unfold child, children_named. intros H. destruct (List.filter (named k) (children n)) as [|c' l] eqn:E; [done|].
  injection H as ->. apply list_elem_of_In. apply (List.filter_In (named k)). rewrite E. by left.
Qed.

Lemma children_named_in n k c : c ∈ children_named n k -> c ∈ children n.
Proof. unfold children_named. rewrite !list_elem_of_In. intros [H _]%List.filter_In. done. Qed.

Lemma answers_in_blocks {A} n block (f : xml -> option (X A)) :
  sizes_fit n -> (forall c p, sizes_fit c -> f c = Some p -> answers p) ->
  answers (in_blocks file_path line_offsets n block f).
Proof.
  intros Hn Hf. unfold in_blocks. apply xml_answers_bind; [|intros l; auto with xml]. apply answers_each.
  intros c Hc. apply list_elem_of_In, in_flat_map in Hc as (b & Hb & Hc). apply list_elem_of_In in Hb, Hc.
  destruct (f c) as [p|] eqn:E; [|answer]. apply xml_answers_bind; [|intros a; auto with xml]. eapply Hf; [|exact E].
  eapply sizes_fit_child; [|exact Hc]. eapply sizes_fit_child; [exact Hn|]. by eapply children_named_in.
Qed.

Lemma answers_definitions n : sizes_fit n -> answers (parse_definitions as_double file_path line_offsets n).
Proof.
  intros Hn. unfold parse_definitions. apply xml_answers_bind; [|intros cs].
  { apply answers_in_blocks; [done|]. intros c p _. destruct_if; [|done]. intros [= <-]. auto with xml. }
  apply xml_answers_bind; [|intros ts].
  { apply answers_in_blocks; [done|]. intros c p Hc.
    destruct_if; [intros [= <-]; apply xml_answers_bind; [apply answers_type, Hc; constructor|intros t; auto with xml]|].
    destruct_if; [|done]. intros [= <-]. apply xml_answers_bind; [|intros s; auto with xml].
    by apply answers_struct, answers_struct_children. }
  apply xml_answers_bind; [|intros ms].
  { apply answers_in_blocks; [done|]. intros c p Hc. destruct_if; [|done]. intros [= <-]. by apply answers_message. }
  apply xml_answers_bind; [|intros fs; auto with xml]. apply answers_each. intros c Hc. apply answers_frame.
  eapply sizes_fit_child; [exact Hn|by eapply children_named_in].
Qed.

Lemma answers_root n : sizes_fit n -> answers (parse_root as_double file_path line_offsets n).
Proof.
  intros Hn. assert (forall n k, answers (each (parse_import file_path line_offsets) (children_named n k))) as Himp.
  { intros. apply answers_each. auto with xml. }
  pose proof (answers_definitions n Hn) as Hdefs. unfold parse_root, parse_contents.
  assert (forall p, child n "protocol" = Some p -> answers (parse_definitions as_double file_path line_offsets p)) as Hp.
  { intros p Hp. apply answers_definitions. eapply sizes_fit_child; [exact Hn|by eapply child_in]. }
  destruct (child n "protocol") as [p|]; [specialize (Hp p eq_refl)|]; answer.
Qed.
End context.

(** ** The whole file *)

Section file.
Variable as_double : string -> spec_float.
Variable read_file : string -> option string.
Variable load_file load_buffer : string -> Document.

Definition document (path : string) : Document :=
  let content := default "" (read_file path) in if is_empty content then load_file path else load_buffer content.

Definition document_fits (path : string) : Prop :=
  match document path with inr nodes => Forall sizes_fit nodes | inl _ => True end.

Lemma xml_parser_answers (path : string) :
  document_fits path ->
  exists r, parse_bmdl_file as_double read_file load_file load_buffer path = Some r /\ (forall es, r = inl es -> es <> []).
Proof.
  unfold document_fits, document, parse_bmdl_file. intros Hfit.
  destruct (if is_empty _ then _ else _) as [[off d]|nodes]; [eexists; split; [done|]; by intros es [= <-]|].
  destruct (List.find (named "bmdl") nodes) as [root|] eqn:Er; [|eexists; split; [done|]; by intros es [= <-]].
  apply find_some in Er as [Hin _]. rewrite Forall_forall in Hfit. specialize (Hfit root ltac:(by apply list_elem_of_In)).
  destruct (answers_root as_double path (match read_file path with Some c => line_starts c | None => [] end) root Hfit) as (f & es & E & _).
  rewrite E. cbn. eexists. split; [done|]. destruct es; [done|]. by intros es' [= <-].
Qed.

(** the XML parser answers on every file: unless some element has [bits] and
    [bytes] whose sum overflows [int], it returns the file or a list of errors that
    is not empty, whatever the elements, attributes and texts, nested to any depth,
    and whatever the XML library reports. *)
Theorem xml_parser_total (path : string) :
  document_fits path ->
  exists r, parse_bmdl_file as_double read_file load_file load_buffer path = Some r /\ (forall es, r = inl es -> es <> []).
Proof. intros Hfit. by apply xml_parser_answers. Qed.
End file.

(** ** Locations *)

Definition is_newline (c : ascii) : bool := Ascii.eqb c "010".

Lemma newlines_app i t t' : newlines i (t ++ t') = newlines i t ++ newlines (i + len t) t'.
Proof.
  revert i. induction t as [|c t IH]; intros i; cbn [newlines app]; [by rewrite len_nil, Z.add_0_r|].
  rewrite IH, len_cons, <- app_assoc. do 3 f_equal. lia.
Qed.

Lemma newlines_range i t s : s ∈ newlines i t -> i < s <= i + len t.
Proof.
  revert i. induction t as [|c t IH]; intros i; cbn [newlines]; [by intros ?%elem_of_nil|]. rewrite len_cons.
  pose proof (len_nonneg t) as Hlen. intros [H|H%IH]%elem_of_app; [|lia].
  destruct (Ascii.eqb c "010"); [|by apply elem_of_nil in H]. apply list_elem_of_singleton in H. lia.
Qed.

Lemma upper_bound_split l r off :
  Forall (fun s => s <= off) l -> Forall (fun s => off < s) r -> upper_bound (l ++ r) off = length l.
Proof.
  intros Hl Hr. induction Hl as [|s l Hs _ IH]; cbn [app upper_bound].
  - destruct Hr as [|s r Hs _]; [done|]. cbn. by rewrite (proj2 (Z.leb_gt _ _)).
  - rewrite (proj2 (Z.leb_le _ _)) by done. cbn. by rewrite IH.
Qed.

(** The start of the line on which the text before an offset ends. *)
Lemma last_line_start t :
  nth (length (newlines 0 t)) (0 :: newlines 0 t) 0 = len t - Z.of_nat (prefix_len (negb ∘ is_newline) (rev t)).
Proof.
  induction t as [|c t IH] using rev_ind; [done|]. rewrite newlines_app, rev_unit, len_app. cbn [newlines prefix_len compose].
  unfold is_newline at 1. rewrite Z.add_0_l, app_nil_r. destruct (Ascii.eqb c "010"); cbn [negb].
  - rewrite length_app. cbn [length]. rewrite app_comm_cons, app_nth2; cbn [length]; [|lia].
    replace _ with O by lia. cbn. unfold len. cbn. lia.
  - rewrite app_nil_r, IH. change (len [c]) with 1. lia.
Qed.

(** the location of an offset is that of the text in front of it: its line is
    one more than the number of line breaks before it, its column one more than the
    number of characters since the last of them. *)
Theorem location_exact (path : string) (before rest : text) :
  loc_of path (line_starts (str (before ++ rest))) (len before)
  = mkLoc path (len before) (1 + Z.of_nat (count (is_newline <$> before)))
      (1 + Z.of_nat (prefix_len (negb ∘ is_newline) (rev before))).
Proof.
  unfold loc_of, line_starts, txt, str. rewrite String.list_ascii_of_string_of_list_ascii, newlines_app, Z.add_0_l.
  rewrite app_comm_cons, upper_bound_split.
  - cbn [length]. rewrite app_nth1 by (cbn; lia). rewrite last_line_start. f_equal; [|lia].
    assert (forall i, length (newlines i before) = count (is_newline <$> before)) as Hc.
    { induction before as [|c t IH]; intros i; [done|]. cbn [newlines]. rewrite length_app, IH. unfold count. rewrite fmap_cons.
      cbn [List.filter]. unfold is_newline at 2. by destruct (Ascii.eqb c "010"). }
    rewrite Hc. lia.
  - constructor; [apply len_nonneg|]. apply Forall_forall. intros s Hs%newlines_range. lia.
  - apply Forall_forall. intros s Hs%newlines_range. lia.
Qed.

(** ** Witnesses and deviations *)

Definition no_double (_ : string) : spec_float := S754_zero false.

(** [<bmdl version="2.0"><types><struct name="s"> elements </struct></types></bmdl>]. *)
Definition library_of (elements : list xml) : Document :=
  inr [Element "bmdl" [("version", "2.0")] [Element "types" [] [Element "struct" [("name", "s")] elements 20] 10] 0].

Definition sample_elements : list xml :=
  [Element "field" [("name", "len"); ("bytes", "2"); ("bits", "3")] [] 30; Element "reserved" [("bits", "5")] [] 40].

Definition parse_library (elements : list xml) : option (list XmlParseError + BmdlFile) :=
  parse_bmdl_file no_double (fun _ => None) (fun _ => library_of elements) (fun _ => library_of elements) "a.xml".

(** Every element of a document, with its descendants. *)
Fixpoint elements_of (n : xml) : list xml :=
  n :: match n with Element _ _ l _ => (fix all l := match l with [] => [] | c :: l => elements_of c ++ all l end) l | Text _ _ => [] end.

Lemma elements_of_within m n : within m n -> m ∈ elements_of n.
Proof.
  induction 1 as [|n c Hc _ IH]; [destruct m; by left|]. destruct n as [k a l o|v o]; [|by apply elem_of_nil in Hc].
  cbn [elements_of children] in *. right. induction l as [|x l IHl]; [by apply elem_of_nil in Hc|].
  apply elem_of_app. apply elem_of_cons in Hc as [<-|Hc]; [by left|]. right. by apply IHl.
Qed.

Lemma fits_by_search n : forallb (fun m => negb (size_overflows m)) (elements_of n) = true -> sizes_fit n.
Proof.
  rewrite forallb_forall. intros H m Hm%elements_of_within. apply list_elem_of_In in Hm. by apply negb_true_iff, H.
Qed.

Lemma xml_parser_total_witness :
  exists f, parse_library sample_elements = Some (inr f).
Proof.
  destruct (xml_parser_total no_double (fun _ => None) (fun _ => library_of sample_elements) (fun _ => library_of sample_elements) "a.xml")
    as ([es|f] & E & Hne).
  - apply Forall_singleton, fits_by_search. vm_compute. reflexivity.
  - exfalso. assert (parse_library sample_elements = Some (inl es)) as E' by exact E. vm_compute in E'. discriminate E'.
  - exists f. exact E.
Defined.

(** The guard on [bytes] covers the product only: with [bits] the sum of [int]s
    overflows. *)
Example size_sum_overflows :
  parse_library [Element "reserved" [("bits", "8"); ("bytes", "268435455")] [] 30] = None
  /\ parse_library [Element "field" [("name", "x"); ("bits", "8"); ("bytes", "268435455")] [] 30] = None.
Proof. by vm_compute. Qed.

Definition counts_of (r : option (list XmlParseError + BmdlFile)) : option (list (option Z)) :=
  match r with
  | Some (inr f) => Some (omap (fun c => match c with ChArray a => Some (fixed_count a) | _ => None end) (flat_map sd_children (file_structs f)))
  | _ => None
  end.

(** What follows the digits of a [count] is not looked at: [0x10] is the number 0. *)
Example count_front_only :
  counts_of (parse_library [Element "array" [("name", "a"); ("type", "t"); ("count", "3 or 4")] [] 30;
                            Element "array" [("name", "b"); ("type", "t"); ("count", "0x10")] [] 40]) = Some [Some 3; Some 0].
Proof. by vm_compute. Qed.

(** Attributes of [<constraint>] and [<fx>] are not checked: a misspelt bound is
    ignored. *)
Example misspelt_bound_ignored :
  match parse_library [Element "field" [("name", "x"); ("bits", "8")] [Element "constraint" [("maximum", "5")] [] 35] 30;
                       Element "fx" [("bogus", "1")] [] 40] with
  | Some (inr f) => match fields_of (flat_map sd_children (file_structs f)) with [x] => option_map max_ (f_constraint x) = Some None | _ => False end
  | _ => False
  end.
Proof. by vm_compute. Qed.
