(* ===== verification/XmlRoundtrip.v ===== *)
(** * The XML parser: writing a file down and reading it back

    [print_file] writes a [BmdlFile] as a document, and the parser gives the file
    back, node for node, if it is one that can be written ([file_ok]): names are
    not empty, numbers fit their types, what the language excludes is not combined,
    and every location is that of its offset.  So the parser loses nothing and
    mixes nothing up, for every construct of the language at any depth.

    [show_expr] and [show_double] write expressions and doubles; that reading gives
    them back is part of [file_ok] (for expressions see [ExprParserRoundtrip]). *)

From stdpp Require Import base numbers list sets strings pretty.
From Stdlib Require Import ZArith Lia Ascii SpecFloat.
From S2P Require Import Prelude CharConv AutoExpr ExprParser Ast AstBuilder XmlParser XmlParserSpec.

Open Scope Z_scope.

(** ** Attributes *)

Definition attrs (l : list (string * option string)) : list (string * string) := omap (fun e => (e.1,.) <$> e.2) l.

Fixpoint assoc_opt (k : string) (l : list (string * option string)) : option string :=
  match l with [] => None | (k', v) :: l => if String.eqb k k' then v else assoc_opt k l end.

Lemma assoc_attrs_none k l : k ∉ l.*1 -> assoc k (attrs l) = None.
Proof.
  induction l as [|[k' [v|]] l IH]; intros Hk; rewrite ?fmap_cons in Hk; [done| |apply IH; set_solver].
  change (attrs _) with ((k', v) :: attrs l). cbn [assoc]. cbn [fst] in Hk.
  rewrite (proj2 (String.eqb_neq k k')) by set_solver. apply IH. set_solver.
Qed.

Lemma assoc_attrs k l : NoDup l.*1 -> assoc k (attrs l) = assoc_opt k l.
Proof.
  induction l as [|[k' v] l IH]; intros Hnd; [done|]. rewrite fmap_cons in Hnd. apply NoDup_cons in Hnd as [Hk Hnd].
  cbn [assoc_opt]. destruct (String.eqb_spec k k') as [->|Hne].
  - destruct v as [v|]; [|exact (assoc_attrs_none k' l Hk)]. change (attrs _) with ((k', v) :: attrs l). cbn [assoc]. by rewrite String.eqb_refl.
  - destruct v as [v|]; [|by apply IH]. change (attrs _) with ((k', v) :: attrs l). cbn [assoc].
    rewrite (proj2 (String.eqb_neq k k')) by done. by apply IH.
Qed.

(** The keys of a list of attributes are distinct. *)
Fixpoint keys_distinct (l : list (string * option string)) : bool :=
  match l with [] => true | (k, _) :: l => negb (existsb (fun e => String.eqb k e.1) l) && keys_distinct l end.

Lemma keys_distinct_NoDup l : keys_distinct l = true -> NoDup l.*1.
Proof.
  induction l as [|[k v] l IH]; cbn [keys_distinct]; [constructor|]. intros [Hk%negb_true_iff Hl]%andb_true_iff.
  constructor; [|by apply IH]. intros (e & Ee & He)%list_elem_of_fmap. cbn in Ee. subst k.
  apply (not_true_iff_false (existsb _ _)) in Hk. apply Hk, existsb_exists. exists e. by rewrite <- list_elem_of_In, String.eqb_refl.
Qed.

Lemma attribute_attrs nm l cs o k : keys_distinct l = true -> attribute (Element nm (attrs l) cs o) k = assoc_opt k l.
Proof. intros Hnd%keys_distinct_NoDup. by apply assoc_attrs. Qed.

Lemma attr_value_attrs nm l cs o k :
  keys_distinct l = true -> attr_value (Element nm (attrs l) cs o) k = default "" (assoc_opt k l).
Proof. intros Hnd. unfold attr_value. by rewrite attribute_attrs. Qed.

(** Looking up an attribute of an element that was written down. *)
Ltac look_up := first [apply attribute_attrs; reflexivity | apply attr_value_attrs; reflexivity].

(** ** Writing values *)

Definition num (z : Z) : string := str (signed_numeral z).
Definition nonempty (s : string) : option string := if is_empty s then None else Some s.
Definition flag (b : bool) : option string := if b then Some "true"%string else None.

Lemma default_nonempty s : default "" (nonempty s) = s.
Proof. unfold nonempty, is_empty. by destruct (String.eqb_spec s ""). Qed.

Lemma is_true_flag b : is_true (flag b) = b.
Proof. by destruct b. Qed.

Lemma hex_digits_literal t : hex_literal t = false -> hex_digits t = None.
Proof. unfold hex_literal, hex_digits. destruct t as [|c0 [|c1 [|c2 t]]]; try done. by intros ->. Qed.

Lemma signed_not_hex z : hex_digits (signed_numeral z) = None.
Proof.
  apply hex_digits_literal. unfold signed_numeral. destruct_if; [|apply decimal_not_hex].
  unfold hex_literal. by destruct (numeral 10 (- z)) as [|c0 [|c1 t]].
Qed.

Lemma num_int z : is_int z = true -> whole_number from_chars_int (txt (num z)) = Some z.
Proof.
  intros Hz. unfold whole_number, num, txt, str. rewrite String.list_ascii_of_string_of_list_ascii, signed_not_hex.
  unfold from_chars_int. rewrite from_chars_signed, Hz, Nat.eqb_refl; [done|].
  unfold is_int, INT_MIN, INT_MAX, INT64_MIN, INT64_MAX in *. bool_to_prop. lia.
Qed.

Lemma num_int64 z : INT64_MIN <= z <= INT64_MAX -> whole_number from_chars (txt (num z)) = Some z.
Proof.
  intros Hz. unfold whole_number, num, txt, str. rewrite String.list_ascii_of_string_of_list_ascii, signed_not_hex.
  by rewrite from_chars_signed, Nat.eqb_refl.
Qed.

Definition base_name (b : PrimitiveBase) : string :=
  match b with BaseUint => "uint" | BaseInt => "int" | BaseFloat => "float" | BaseBool => "bool" | BaseBytes => "bytes" | BaseString => "string" end.
Definition endian_name (e : Endian) : string := match e with EndianBig => "big" | EndianLittle => "little" end.
Definition format_name (d : DisplayFormat) : string :=
  match d with FmtDecimal => "decimal" | FmtHex => "hex" | FmtOctal => "octal" | FmtBinary => "binary" end.
Definition encoding_name (e : StringEncoding) : string :=
  match e with EncAscii => "ascii" | EncUtf8 => "utf8" | EncIa5 => "ia5" | EncEbcdic => "ebcdic" end.
Definition padding_name (p : StringPadding) : string := match p with PadNull => "null" | PadSpace => "space" | PadNone => "none" end.
Definition trim_name (t : StringTrim) : string :=
  match t with TrimLeft => "left" | TrimRight => "right" | TrimBoth => "both" | TrimNone => "none" end.
(** [WireDefault] has no name. *)
Definition wire_name (w : WireEncoding) : string :=
  match w with WireDefault => "" | CB2 => "cb2" | BNR => "bnr" | BNR_S => "bnr-s" | BCD => "bcd" | BCD_S => "bcd-s" end.
Definition direction_name (d : Direction) : string := match d with DirBoth => "both" | DirSend => "send" | DirReceive => "receive" end.

(** ** Computations without errors *)

Lemma clean_bind {A B} (p : X A) (f : A -> X B) a b : p = Some (a, []) -> f a = Some (b, []) -> p ≫= f = Some (b, []).
Proof. intros -> Hf. unfold mbind, X_bind. by rewrite Hf. Qed.

Tactic Notation "clean" "by" tactic3(t) := (eapply clean_bind; [t|]; cbn beta iota).

Lemma clean_each {A B} (f : A -> X B) (g : A -> B) l : (forall x, x ∈ l -> f x = Some (g x, [])) -> each f l = Some (map g l, []).
Proof.
  induction l as [|x l IH]; intros Hf; cbn [each map]; [done|]. eapply clean_bind; [apply Hf; by left|].
  eapply clean_bind; [apply IH; intros y Hy; apply Hf; by right|done].
Qed.

(** ** Children by name *)

Lemma pick_same k l : Forall (fun n => named k n = true) l -> List.filter (named k) l = l.
Proof. induction 1 as [|n l Hn _ IH]; cbn; [done|]. by rewrite Hn, IH. Qed.

Lemma pick_other k k' l : Forall (fun n => named k' n = true) l -> String.eqb k' k = false -> List.filter (named k) l = [].
Proof.
  intros Hl Hne. induction Hl as [|[s a cs o|v o] l Hn _ IH]; cbn in *; [done| |done].
  apply String.eqb_eq in Hn as ->. by rewrite Hne.
Qed.

Lemma pick_block k k' l : Forall (fun n => named k' n = true) l -> List.filter (named k) l = if String.eqb k' k then l else [].
Proof.
  intros Hl. destruct (String.eqb k' k) eqn:E; [|by eapply pick_other]. apply String.eqb_eq in E as ->. by apply pick_same.
Qed.

(** Children in blocks, each of elements of one name. *)
Definition blocks_ok (l : list (string * list xml)) : Prop := Forall (fun b => Forall (fun n => named b.1 n = true) b.2) l.
Definition block_named (k : string) (l : list (string * list xml)) : list xml :=
  flat_map (fun b => if String.eqb b.1 k then b.2 else []) l.

Lemma pick_blocks k l : blocks_ok l -> List.filter (named k) (flat_map snd l) = block_named k l.
Proof.
  induction 1 as [|[k' ns] l Hb _ IH]; [done|]. cbn [flat_map block_named]. rewrite List.filter_app, IH. f_equal. by apply pick_block.
Qed.

Section print.
Variable as_double : string -> spec_float.
Variable show_double : spec_float -> string.
Variable show_expr : Expr -> string.
Variable path : string.
Variable lines : list Z.

(** ** What can be written *)

Definition located (l : SourceLoc) : Prop := loc_of path lines (loc_offset l) = l.
Definition int_ok (o : option Z) : Prop := forall z, o = Some z -> is_int z = true.
Definition nonneg_ok (o : option Z) : Prop := forall z, o = Some z -> is_int z = true /\ 0 <= z.
Definition double_ok (o : option spec_float) : Prop := forall d, o = Some d -> as_double (show_double d) = d.
Definition expr_ok (l : SourceLoc) (o : option Expr) : Prop := forall e, o = Some e ->
  show_expr e <> ""%string /\ parse_expression (txt (show_expr e)) l = Some (POk e).

(** ** Small elements *)

Definition text_nodes (s : string) : list xml := if is_empty s then [] else [Text s 0].
Definition text_child (k : string) (t : option string) : list xml :=
  match t with Some s => [Element k [] (text_nodes s) 0] | None => [] end.

Definition print_annotation (a : Annotation) : xml :=
  Element "annotation" (attrs [("name", Some (ann_name a)); ("value", nonempty (ann_value a))]%string) [] 0.
Definition annotation_ok (a : Annotation) : Prop := ann_name a <> ""%string.

Definition info (anns : list Annotation) (doc : string) : list xml := map print_annotation anns ++ text_child "doc" (nonempty doc).

Definition print_value (v : EnumValue) : xml :=
  Element "value" (attrs [("name", Some (enum_name v)); ("id", Some (num (enum_id v)))]%string) [] (loc_offset (enum_loc v)).
Definition value_ok (v : EnumValue) : Prop :=
  enum_name v <> ""%string /\ INT64_MIN <= enum_id v <= INT64_MAX /\ located (enum_loc v).

Definition print_flag (f : FlagDef) : xml :=
  Element "flag" (attrs [("name", Some (flag_name f)); ("bit", Some (num (flag_bit f)))]%string) [] (loc_offset (flag_loc f)).
Definition flag_ok (f : FlagDef) : Prop := flag_name f <> ""%string /\ is_int (flag_bit f) = true /\ located (flag_loc f).

Definition print_constraint (c : Constraint) : xml :=
  Element "constraint" (attrs [("equals", equals c); ("min", min_ c); ("max", max_ c);
    ("validate", Some (match validate_timing c with Immediate => "immediate" | Deferred => "deferred" end))]%string)
    [] (loc_offset (constraint_loc c)).

(** A list as a child of its own, if it is not empty. *)
Definition list_child {A} (k : string) (print : A -> xml) (l : list A) : list xml :=
  match l with [] => [] | _ => [Element k [] (map print l) 0] end.

Definition constraint_child (c : option Constraint) : list xml := match c with Some c => [print_constraint c] | None => [] end.

Lemma located_loc n l : located l -> offset n = loc_offset l -> loc path lines n = l.
Proof. intros Hl Ho. unfold loc. by rewrite Ho. Qed.

Lemma clean_error_if b n msg : b = false -> error_if path lines b n msg = Some (tt, []).
Proof. by intros ->. Qed.

Lemma clean_attrs n known :
  forallb (fun a => existsb (String.eqb a.1) known) (attributes n) = true -> check_unknown_attrs path lines n known = Some (tt, []).
Proof.
  intros H. unfold check_unknown_attrs. eapply clean_bind; [|done]. apply (clean_each _ (fun _ => tt)). intros a Ha.
  apply clean_error_if. apply negb_false_iff. rewrite forallb_forall in H. by apply H, list_elem_of_In.
Qed.

(** Attributes that are written are among the known ones. *)
Lemma attrs_known (l : list (string * option string)) known :
  forallb (fun k => existsb (String.eqb k) known) l.*1 = true -> forallb (fun a => existsb (String.eqb a.1) known) (attrs l) = true.
Proof.
  rewrite !forallb_forall. intros H [k v] Ha. apply list_elem_of_In in Ha. cbn.
  apply list_elem_of_omap in Ha as ([k' [v'|]] & He & E); [|done]. cbn in E. injection E as -> ->.
  apply H, list_elem_of_In, list_elem_of_fmap. by exists (k, Some v).
Qed.

Lemma clean_children known what n :
  forallb (fun c => existsb (String.eqb (name c)) known) (children n) = true -> check_children path lines known what n = Some (tt, []).
Proof.
  intros H. unfold check_children. eapply clean_bind; [|done]. apply (clean_each _ (fun _ => tt)). intros a Ha.
  apply clean_error_if. apply negb_false_iff. rewrite forallb_forall in H. by apply H, list_elem_of_In.
Qed.

Lemma clean_int n k o : attribute n k = num <$> o -> int_ok o -> parse_int_attr path lines n k = Some (o, []).
Proof.
  intros Ha Ho. unfold parse_int_attr, parse_number_attr. rewrite Ha. destruct o as [z|]; [|done]. cbn [fmap option_fmap option_map].
  by rewrite num_int by by apply Ho.
Qed.

Lemma clean_int64 n k z :
  attribute n k = Some (num z) -> INT64_MIN <= z <= INT64_MAX -> parse_int64_attr path lines n k = Some (Some z, []).
Proof. intros Ha Hz. unfold parse_int64_attr, parse_number_attr. by rewrite Ha, num_int64. Qed.

Lemma clean_nonneg n k o : attribute n k = num <$> o -> nonneg_ok o -> parse_nonneg_int_attr path lines n k = Some (o, []).
Proof.
  intros Ha Ho. unfold parse_nonneg_int_attr. eapply clean_bind; [apply clean_int; [done|intros z Hz; by apply Ho]|].
  destruct o as [z|]; [|done]. destruct (Ho z eq_refl) as [_ Hz]. by rewrite (proj2 (Z.ltb_ge z 0)).
Qed.

Lemma clean_expr n k o :
  attribute n k = show_expr <$> o -> expr_ok (loc path lines n) o -> parse_expr_attr path lines n k = Some (o, []).
Proof.
  intros Ha Ho. unfold parse_expr_attr, attr_value. rewrite Ha. destruct o as [e|]; [|reflexivity].
  destruct (Ho e eq_refl) as [Hne Hp]. cbn [fmap option_fmap option_map default from_option id]. unfold is_empty.
  rewrite (proj2 (String.eqb_neq _ _)), Hp by exact Hne. reflexivity.
Qed.

Lemma clean_keyword {A} table (fallback : A) n what expected v a :
  keyword table v = Some a -> parse_keyword path lines table fallback n what expected v = Some (a, []).
Proof. intros H. unfold parse_keyword. by rewrite H. Qed.

(** An attribute with a name of a table. *)
Lemma clean_if_attr {A} n k (show : A -> string) (f : string -> X A) o :
  attribute n k = show <$> o -> (forall a, o = Some a -> f (show a) = Some (a, [])) -> if_attr n k f = Some (o, []).
Proof. intros Ha Hf. unfold if_attr. rewrite Ha. destruct o as [a|]; [|done]. cbn. eapply clean_bind; [by apply Hf|done]. Qed.

Lemma text_of_nodes k s : text_of (Element k [] (text_nodes s) 0) = s.
Proof. unfold text_nodes, is_empty. by destruct (String.eqb_spec s "") as [->|]. Qed.

Lemma clean_text n k t : children_named n k = text_child k t -> child_text n k = t.
Proof. intros Hn. unfold child_text, child. rewrite Hn. destruct t as [t|]; [|done].
  change (Some (text_of (Element k [] (text_nodes t) 0)) = Some t). by rewrite text_of_nodes. Qed.

Lemma clean_double n k o :
  children_named n k = text_child k (show_double <$> o) -> double_ok o -> child_double as_double n k = o.
Proof.
  intros Hn Ho. unfold child_double, child. rewrite Hn. destruct o as [d|]; [|done].
  change (Some (as_double (text_of (Element k [] (text_nodes (show_double d)) 0))) = Some d). by rewrite text_of_nodes, Ho.
Qed.

Lemma clean_doc n doc : children_named n "doc" = text_child "doc" (nonempty doc) -> get_doc n = doc.
Proof.
  intros Hn. unfold get_doc, child. rewrite Hn. unfold nonempty. destruct (is_empty doc) eqn:E.
  - by apply String.eqb_eq in E as ->.
  - exact (text_of_nodes "doc" doc).
Qed.

Lemma clean_child_list {A} n k (print : A -> xml) (f : xml -> X (list A)) l :
  children_named n k = list_child k print l -> (forall c, children c = map print l -> f c = Some (l, [])) ->
  child_list n k f = Some (l, []).
Proof. intros Hn Hf. unfold child_list, child. rewrite Hn. destruct l as [|x l]; [done|]. by apply Hf. Qed.

Lemma clean_annotations n anns :
  children_named n "annotation" = map print_annotation anns -> Forall annotation_ok anns ->
  parse_annotations path lines n = Some (anns, []).
Proof.
  intros Hn Hok. unfold parse_annotations. rewrite Hn. clear Hn. induction Hok as [|a anns Ha _ IH]; cbn [map each]; [done|].
  eapply clean_bind; [|eapply clean_bind; [exact IH|done]]. unfold parse_annotation.
  assert (attr_value (print_annotation a) "name" = ann_name a) as En by look_up.
  assert (attr_value (print_annotation a) "value" = ann_value a) as Ev by (etransitivity; [look_up|apply default_nonempty]).
  rewrite En, Ev. eapply clean_bind; [by apply clean_error_if, String.eqb_neq|].
  unfold is_empty. destruct (String.eqb_spec (ann_value a) "") as [E|_]; [cbn|]; destruct a; [cbn in *; by subst|done].
Qed.

Lemma clean_enum n l : children n = map print_value l -> Forall value_ok l -> parse_enum path lines n = Some (l, []).
Proof.
  intros Hn Hok. unfold parse_enum, children_named. rewrite Hn, pick_same by (apply Forall_map, Forall_true; done). clear Hn. generalize 0.
  induction Hok as [|v l (Hv & Hid & Hloc) _ IH]; intros next; cbn [map enum_values]; [done|].
  assert (attr_value (print_value v) "name" = enum_name v) as En by look_up.
  rewrite En. eapply clean_bind; [by apply clean_error_if, String.eqb_neq|].
  eapply clean_bind; [apply (clean_int64 _ _ (enum_id v)); [look_up|done]|]. cbn [default].
  eapply clean_bind; [apply IH|]. rewrite (located_loc _ (enum_loc v)) by done. by destruct v.
Qed.

Lemma clean_flags n l : children n = map print_flag l -> Forall flag_ok l -> parse_flags path lines n = Some (l, []).
Proof.
  intros Hn Hok. unfold parse_flags, children_named. rewrite Hn, pick_same by (apply Forall_map, Forall_true; done). clear Hn.
  induction Hok as [|f l (Hf & Hbit & Hloc) _ IH]; cbn [map each]; [done|]. eapply clean_bind; [|eapply clean_bind; [exact IH|done]].
  unfold parse_flag. assert (attr_value (print_flag f) "name" = flag_name f) as En by look_up.
  rewrite En. eapply clean_bind; [by apply clean_error_if, String.eqb_neq|].
  eapply clean_bind; [apply (clean_int _ _ (Some (flag_bit f))); [look_up|by intros z [= <-]]|].
  rewrite (located_loc _ (flag_loc f)) by done. by destruct f.
Qed.

Lemma clean_constraint n c :
  children_named n "constraint" = constraint_child c -> (forall d, c = Some d -> located (constraint_loc d)) ->
  parse_constraint path lines n = Some (c, []).
Proof.
  intros Hn Hok. unfold parse_constraint, child. rewrite Hn. destruct c as [c|]; [|done]. cbn [constraint_child head].
  specialize (Hok c eq_refl). unfold print_constraint. rewrite !attribute_attrs by reflexivity. cbn [assoc_opt String.eqb Ascii.eqb Bool.eqb].
  eapply clean_bind; [apply clean_keyword; by instantiate (1 := validate_timing c); destruct (validate_timing c)|].
  rewrite (located_loc _ (constraint_loc c)) by done. by destruct c.
Qed.

(** ** Fields and types *)

Definition info_blocks (anns : list Annotation) (doc : string) : list (string * list xml) :=
  [("annotation", map print_annotation anns); ("doc", text_child "doc" (nonempty doc))]%string.

Lemma info_blocks_ok anns doc : blocks_ok (info_blocks anns doc).
Proof.
  repeat constructor; cbn; [apply Forall_map, Forall_true; done|]. unfold text_child. destruct (nonempty doc); by repeat constructor.
Qed.

(** What the values of a field or a type are. *)
Definition value_blocks (scale offset : option spec_float) (unit : option string) (enums : list EnumValue) (flags : list FlagDef)
    (con : option Constraint) : list (string * list xml) :=
  [("scale", text_child "scale" (show_double <$> scale)); ("offset", text_child "offset" (show_double <$> offset));
   ("unit", text_child "unit" unit); ("enum", list_child "enum" print_value enums); ("flags", list_child "flags" print_flag flags);
   ("constraint", constraint_child con)]%string.

Lemma value_blocks_ok scale off unit enums flags con : blocks_ok (value_blocks scale off unit enums flags con).
Proof.
  repeat constructor; cbn; [destruct scale|destruct off|destruct unit|destruct enums|destruct flags|destruct con]; by repeat constructor.
Qed.

Definition field_list (f : Field) : list (string * option string) :=
  [("name", Some (f_name f)); ("type", nonempty (f_type_ref f)); ("bits", num <$> f_bits f); ("bytes", num <$> f_bytes_attr f);
   ("signed", flag (f_is_signed f)); ("base", base_name <$> f_base f); ("bit", num <$> f_bit f);
   ("present-when", show_expr <$> f_present_when f);
   ("length", if f_length_star f then Some "*" else num <$> f_length f); ("length-from", show_expr <$> f_length_from f);
   ("length-prefix", f_length_prefix f); ("length-includes-prefix", flag (f_length_includes_prefix f));
   ("encoding", encoding_name <$> f_encoding f); ("padding", padding_name <$> f_padding f); ("trim", trim_name <$> f_trim f);
   ("terminated", f_terminated f); ("max-length", num <$> f_max_length f); ("char-bits", num <$> f_char_bits f);
   ("endian", if f_endian_explicit f then Some (endian_name (f_endian f)) else None);
   ("format", if f_format_explicit f then Some (format_name (f_format f)) else None);
   ("wire-encoding", wire_name <$> f_wire_encoding f); ("inline", flag (f_is_inline f)); ("default", f_default_value f);
   ("auto", f_auto_attr f)]%string.

Definition field_blocks (f : Field) : list (string * list xml) :=
  info_blocks (f_annotations f) (f_doc f)
  ++ value_blocks (f_scale f) (f_offset f) (f_unit f) (f_enum_values f) (f_flags f) (f_constraint f).

Definition print_field (f : Field) : xml :=
  Element "field" (attrs (field_list f)) (flat_map snd (field_blocks f)) (loc_offset (f_loc f)).

Record values_ok (scale offset : option spec_float) (enums : list EnumValue) (flags : list FlagDef) (con : option Constraint) : Prop := {
  vo_scale : double_ok scale; vo_offset : double_ok offset;
  vo_enums : Forall value_ok enums; vo_flags : Forall flag_ok flags;
  vo_constraint : forall d, con = Some d -> located (constraint_loc d)
}.

Record field_ok (f : Field) : Prop := {
  fo_name : f_name f <> ""%string;
  fo_bits : nonneg_ok (f_bits f); fo_bytes : nonneg_ok (f_bytes_attr f);
  fo_size : f_bits f = None \/ f_bytes_attr f = None;
  fo_inline : f_type_is_inline f = is_empty (f_type_ref f) && (some (f_bits f) || some (f_bytes_attr f) || some (f_base f));
  fo_signed : f_base f = Some BaseInt -> f_is_signed f = true;
  fo_values : values_ok (f_scale f) (f_offset f) (f_enum_values f) (f_flags f) (f_constraint f);
  fo_bit : int_ok (f_bit f); fo_present : expr_ok (f_loc f) (f_present_when f);
  fo_length : nonneg_ok (f_length f); fo_star : f_length_star f = true -> f_length f = None;
  fo_from : expr_ok (f_loc f) (f_length_from f);
  fo_includes : f_length_includes_prefix f && negb (some (f_length_prefix f)) = false;
  fo_one_length : (1 <? Z.of_nat (count [some (f_length f) || f_length_star f; some (f_length_from f); some (f_length_prefix f)])) = false;
  fo_terminated : some (f_terminated f) && (some (f_length_from f) || some (f_length_prefix f) || f_length_star f) = false;
  fo_max : int_ok (f_max_length f); fo_char : int_ok (f_char_bits f);
  fo_endian : f_endian_explicit f = false -> f_endian f = EndianBig;
  fo_format : f_format_explicit f = false -> f_format f = FmtDecimal;
  fo_wire : f_wire_encoding f <> Some WireDefault;
  fo_auto : f_auto_expr f = auto_of (f_auto_attr f);
  fo_anns : Forall annotation_ok (f_annotations f); fo_loc : located (f_loc f)
}.

Lemma clean_endian n e (explicit : bool) :
  attribute n "endian" = (if explicit then Some (endian_name e) else None) -> (explicit = false -> e = EndianBig) ->
  parse_endian path lines n = Some (e, explicit, []).
Proof.
  intros Ha He. unfold parse_endian. rewrite Ha. destruct explicit; [by destruct e|]. by rewrite He.
Qed.

Lemma clean_format n d (explicit : bool) :
  attribute n "format" = (if explicit then Some (format_name d) else None) -> (explicit = false -> d = FmtDecimal) ->
  parse_format path lines n = Some (d, explicit, []).
Proof. intros Ha Hd. unfold parse_format. rewrite Ha. destruct explicit; [by destruct d|]. by rewrite Hd. Qed.

Lemma clean_base n o : attribute n "base" = base_name <$> o -> if_attr n "base" (parse_base path lines n) = Some (o, []).
Proof. intros Ha. eapply clean_if_attr; [exact Ha|]. intros b _. apply clean_keyword. by destruct b. Qed.

Lemma clean_encoding n o : attribute n "encoding" = encoding_name <$> o -> if_attr n "encoding" (parse_encoding path lines n) = Some (o, []).
Proof. intros Ha. eapply clean_if_attr; [exact Ha|]. intros b _. apply clean_keyword. by destruct b. Qed.

Lemma clean_padding n o : attribute n "padding" = padding_name <$> o -> if_attr n "padding" (parse_padding path lines n) = Some (o, []).
Proof. intros Ha. eapply clean_if_attr; [exact Ha|]. intros b _. apply clean_keyword. by destruct b. Qed.

Lemma clean_trim n o : attribute n "trim" = trim_name <$> o -> if_attr n "trim" (parse_trim_val path lines n) = Some (o, []).
Proof. intros Ha. eapply clean_if_attr; [exact Ha|]. intros b _. apply clean_keyword. by destruct b. Qed.

Lemma clean_wire n o :
  attribute n "wire-encoding" = wire_name <$> o -> o <> Some WireDefault ->
  if_attr n "wire-encoding" (parse_wire_encoding path lines n) = Some (o, []).
Proof. intros Ha Ho. eapply clean_if_attr; [exact Ha|]. intros b ->. apply clean_keyword. by destruct b. Qed.

(** A numeral is none of the words that some attributes can have in its place. *)
Definition is_word (s : string) : bool := match s with String c _ => negb (isdigit c || Ascii.eqb c "-") | EmptyString => false end.

Lemma num_not_word z s : is_word s = true -> String.eqb (num z) s = false.
Proof.
  intros Hs. apply String.eqb_neq. intros <-. unfold num in Hs. destruct (signed_numeral_head z) as (c & t & E & Hc).
  rewrite E in Hs. cbn [str String.string_of_list_ascii is_word] in Hs. by rewrite Hc in Hs.
Qed.

Lemma clean_field_length n length (star : bool) :
  attribute n "length" = (if star then Some "*"%string else num <$> length) -> nonneg_ok length -> (star = true -> length = None) ->
  field_length path lines n = Some (length, star, []).
Proof.
  intros Ha Hl Hs. unfold field_length. rewrite Ha. destruct star; [by rewrite Hs|]. destruct length as [z|]; [|done].
  cbn [fmap option_fmap option_map]. rewrite num_not_word by done. eapply clean_bind; [by apply clean_nonneg|done].
Qed.

Lemma field_blocks_ok f : blocks_ok (field_blocks f).
Proof. apply Forall_app. split; [apply info_blocks_ok|apply value_blocks_ok]. Qed.

(** The children of an element in blocks, by name. *)
Lemma children_blocks nm a l o k b :
  blocks_ok l -> block_named k l = b ++ [] -> children_named (Element nm a (flat_map snd l) o) k = b.
Proof. intros Hl Hb. unfold children_named. cbn [children]. by rewrite pick_blocks, Hb, app_nil_r. Qed.

Lemma child_blocks nm a l o k : blocks_ok l -> child (Element nm a (flat_map snd l) o) k = head (block_named k l).
Proof. intros Hl. unfold child. by rewrite (children_blocks _ _ _ _ _ (block_named k l)) by (by rewrite ?app_nil_r). Qed.

Lemma clean_conflicts n f :
  field_ok f ->
  length_conflicts path lines n (f_name f) (f_length f) (f_length_star f) (f_length_from f) (f_length_prefix f) (f_terminated f) = Some (tt, []).
Proof.
  intros Hf. unfold length_conflicts. eapply clean_bind; [by apply clean_error_if, fo_one_length|]. by apply clean_error_if, fo_terminated.
Qed.

Lemma clean_field_bits n f : field_ok f -> field_bits path lines n (f_bits f) (f_bytes_attr f) = Some (f_bits f, f_bytes_attr f, []).
Proof. intros Hf. unfold field_bits. destruct (fo_size f Hf) as [->| ->]; [done|]. by destruct (f_bits f). Qed.

Lemma parse_print_field f : field_ok f -> parse_field as_double path lines (print_field f) = Some (f, []).
Proof.
  intros Hf. pose proof (fo_values f Hf) as Hv. pose proof (field_blocks_ok f) as Hb.
  assert (forall k, attribute (print_field f) k = assoc_opt k (field_list f)) as Ha by (intros k; look_up).
  assert (loc path lines (print_field f) = f_loc f) as Hloc by (by apply located_loc; [apply Hf|]).
  assert (attr_value (print_field f) "name" = f_name f) as Hname by look_up.
  assert (attr_value (print_field f) "type" = f_type_ref f) as Htype by (etransitivity; [look_up|apply default_nonempty]).
  assert (children_named (print_field f) "initial" = []) as Hinit by by eapply children_blocks.
  unfold parse_field. rewrite Hname, Htype.
  clean by (apply clean_error_if, String.eqb_neq, Hf).
  clean by (apply (clean_nonneg _ _ (f_bits f)); [apply Ha|apply Hf]).
  clean by (apply (clean_nonneg _ _ (f_bytes_attr f)); [apply Ha|apply Hf]).
  clean by (apply (clean_base _ (f_base f)), Ha).
  clean by (by apply clean_field_bits).
  clean by (eapply clean_child_list; [by eapply children_blocks|intros c Hc; apply clean_enum; [exact Hc|apply Hv]]).
  clean by (eapply clean_child_list; [by eapply children_blocks|intros c Hc; apply clean_flags; [exact Hc|apply Hv]]).
  clean by (apply (clean_constraint _ (f_constraint f)); [by eapply children_blocks|apply Hv]).
  clean by (apply (clean_int _ _ (f_bit f)); [apply Ha|apply Hf]).
  clean by (apply (clean_expr _ _ (f_present_when f)); [apply Ha|rewrite Hloc; apply Hf]).
  clean by (apply (clean_field_length _ (f_length f) (f_length_star f)); [apply Ha|apply Hf|apply Hf]).
  clean by (apply (clean_expr _ _ (f_length_from f)); [apply Ha|rewrite Hloc; apply Hf]).
  rewrite !Ha. cbn [assoc_opt field_list String.eqb Ascii.eqb Bool.eqb]. rewrite !is_true_flag.
  clean by (apply clean_error_if, Hf).
  clean by (apply (clean_encoding _ (f_encoding f)), Ha).
  clean by (apply (clean_padding _ (f_padding f)), Ha).
  clean by (apply (clean_trim _ (f_trim f)), Ha).
  clean by (apply (clean_int _ _ (f_max_length f)); [apply Ha|apply Hf]).
  clean by (apply (clean_int _ _ (f_char_bits f)); [apply Ha|apply Hf]).
  clean by (by apply clean_conflicts).
  clean by (apply (clean_endian _ (f_endian f) (f_endian_explicit f)); [apply Ha|apply Hf]).
  clean by (apply (clean_format _ (f_format f) (f_format_explicit f)); [apply Ha|apply Hf]).
  clean by (apply (clean_wire _ (f_wire_encoding f)); [apply Ha|apply Hf]).
  clean by (apply clean_error_if; reflexivity).
  clean by (apply clean_error_if; unfold child; by rewrite Hinit).
  clean by (apply (clean_annotations _ (f_annotations f)); [by eapply children_blocks|apply Hf]).
  clean by (apply clean_attrs, attrs_known; reflexivity).
  rewrite Hloc, (clean_double _ _ (f_scale f)), (clean_double _ _ (f_offset f)), (clean_text _ _ (f_unit f)), (clean_doc _ (f_doc f));
    try (by eapply children_blocks); try apply Hv.
  rewrite <- fo_inline, <- fo_auto by exact Hf.
  replace (f_is_signed f || bool_decide (f_base f = Some BaseInt)) with (f_is_signed f); [by destruct f|].
  case_bool_decide as E; [by rewrite (fo_signed f Hf E)|by rewrite orb_false_r].
Qed.

(** A value that is written if it was given. *)
Definition given {A} (explicit : bool) (a : A) : option A := if explicit then Some a else None.

Lemma given_default {A} (explicit : bool) (a d : A) : (explicit = false -> a = d) -> default d (given explicit a) = a.
Proof. destruct explicit; [done|]. by intros ->. Qed.

Lemma given_explicit {A} (explicit : bool) (a : A) : bool_decide (is_Some (given explicit a)) = explicit.
Proof. destruct explicit; [by apply bool_decide_eq_true; exists a|]. apply bool_decide_eq_false. by intros [? ?]. Qed.

Definition type_list (t : TypeDef) : list (string * option string) :=
  [("name", Some (td_name t)); ("base", base_name <$> Some (td_base t)); ("bits", num <$> Some (td_bits t));
   ("endian", if td_endian_explicit t then Some (endian_name (td_endian t)) else None);
   ("format", if td_format_explicit t then Some (format_name (td_format t)) else None);
   ("wire-encoding", wire_name <$> given (td_wire_encoding_explicit t) (td_wire_encoding t));
   ("length", num <$> td_length t);
   ("encoding", encoding_name <$> given (td_encoding_explicit t) (td_encoding t));
   ("padding", padding_name <$> given (td_padding_explicit t) (td_padding t));
   ("trim", trim_name <$> given (td_trim_explicit t) (td_trim t));
   ("terminated", td_terminated t); ("max-length", num <$> td_max_length t); ("char-bits", num <$> td_char_bits t)]%string.

Definition type_blocks (t : TypeDef) : list (string * list xml) :=
  info_blocks (td_annotations t) (td_doc t)
  ++ value_blocks (td_scale t) (td_offset t) (td_unit t) (td_enum_values t) (td_flags t) (td_constraint t).

Definition print_type (t : TypeDef) : xml :=
  Element "type" (attrs (type_list t)) (flat_map snd (type_blocks t)) (loc_offset (td_loc t)).

Record type_ok (t : TypeDef) : Prop := {
  to_name : td_name t <> ""%string; to_bits : nonneg_ok (Some (td_bits t));
  to_endian : td_endian_explicit t = false -> td_endian t = EndianBig;
  to_format : td_format_explicit t = false -> td_format t = FmtDecimal;
  to_wire : if td_wire_encoding_explicit t then td_wire_encoding t <> WireDefault else td_wire_encoding t = WireDefault;
  to_encoding : td_encoding_explicit t = false -> td_encoding t = EncAscii;
  to_padding : td_padding_explicit t = false -> td_padding t = PadNull;
  to_trim : td_trim_explicit t = false -> td_trim t = TrimRight;
  to_values : values_ok (td_scale t) (td_offset t) (td_enum_values t) (td_flags t) (td_constraint t);
  to_length : nonneg_ok (td_length t); to_max : int_ok (td_max_length t); to_char : int_ok (td_char_bits t);
  to_anns : Forall annotation_ok (td_annotations t); to_loc : located (td_loc t)
}.

Lemma parse_print_type t : type_ok t -> parse_type as_double path lines (print_type t) = Some (t, []).
Proof.
  intros Ht. pose proof (to_values t Ht) as Hv.
  assert (blocks_ok (type_blocks t)) as Hb by (apply Forall_app; split; [apply info_blocks_ok|apply value_blocks_ok]).
  assert (forall k, attribute (print_type t) k = assoc_opt k (type_list t)) as Ha by (intros k; look_up).
  assert (loc path lines (print_type t) = td_loc t) as Hloc by (by apply located_loc; [apply Ht|]).
  assert (attr_value (print_type t) "name" = td_name t) as Hname by look_up.
  unfold parse_type. rewrite Hname.
  clean by (apply clean_error_if, String.eqb_neq, Ht).
  clean by (apply (clean_base _ (Some (td_base t))), Ha).
  clean by (apply (clean_nonneg _ _ (Some (td_bits t))); [apply Ha|apply Ht]).
  clean by (apply (clean_nonneg _ _ None); [apply Ha|done]).
  clean by reflexivity.
  clean by (apply (clean_endian _ (td_endian t) (td_endian_explicit t)); [apply Ha|apply Ht]).
  clean by (apply (clean_format _ (td_format t) (td_format_explicit t)); [apply Ha|apply Ht]).
  clean by (apply (clean_wire _ (given (td_wire_encoding_explicit t) (td_wire_encoding t))); [apply Ha|];
    pose proof (to_wire t Ht); unfold given; destruct (td_wire_encoding_explicit t); congruence).
  clean by (apply (clean_nonneg _ _ (td_length t)); [apply Ha|apply Ht]).
  clean by (apply (clean_encoding _ (given (td_encoding_explicit t) (td_encoding t))), Ha).
  clean by (apply (clean_padding _ (given (td_padding_explicit t) (td_padding t))), Ha).
  clean by (apply (clean_trim _ (given (td_trim_explicit t) (td_trim t))), Ha).
  clean by (apply (clean_int _ _ (td_max_length t)); [apply Ha|apply Ht]).
  clean by (apply (clean_int _ _ (td_char_bits t)); [apply Ha|apply Ht]).
  clean by (eapply clean_child_list; [by eapply children_blocks|intros c Hc; apply clean_enum; [exact Hc|apply Hv]]).
  clean by (eapply clean_child_list; [by eapply children_blocks|intros c Hc; apply clean_flags; [exact Hc|apply Hv]]).
  clean by (apply (clean_constraint _ (td_constraint t)); [by eapply children_blocks|apply Hv]).
  clean by (apply (clean_annotations _ (td_annotations t)); [by eapply children_blocks|apply Ht]).
  clean by (apply clean_attrs, attrs_known; reflexivity).
  rewrite Hloc, Ha, (clean_double _ _ (td_scale t)), (clean_double _ _ (td_offset t)), (clean_text _ _ (td_unit t)), (clean_doc _ (td_doc t));
    try (by eapply children_blocks); try apply Hv.
  rewrite !given_explicit, !given_default; try apply Ht; [by destruct t|].
  intros E. pose proof (to_wire t Ht) as Hw. by rewrite E in Hw.
Qed.

(** ** Reserved bits and alignment *)

Definition print_reserved (r : Reserved) : xml :=
  Element "reserved" (attrs [("bits", num <$> Some (res_bits r))]%string) [] (loc_offset (res_loc r)).
Definition reserved_ok (r : Reserved) : Prop := is_int (res_bits r) = true /\ 0 < res_bits r /\ located (res_loc r).

Lemma parse_print_reserved r : reserved_ok r -> parse_reserved path lines (print_reserved r) = Some (r, []).
Proof.
  intros (Hi & Hpos & Hloc). unfold parse_reserved. rewrite (located_loc _ (res_loc r)) by done.
  clean by (apply (clean_nonneg _ _ (Some (res_bits r))); [look_up|intros z [= <-]; split; [done|lia]]).
  clean by (apply (clean_nonneg _ _ None); [look_up|done]).
  clean by reflexivity. rewrite (proj2 (Z.leb_gt _ _)) by done.
  clean by (apply clean_attrs, attrs_known; reflexivity). by destruct r.
Qed.

Definition print_align (a : Align) : xml :=
  Element "align" (attrs [("to", num <$> Some (align_to a))]%string) [] (loc_offset (align_loc a)).
Definition align_ok (a : Align) : Prop := is_int (align_to a) = true /\ located (align_loc a).

Lemma parse_print_align a : align_ok a -> parse_align path lines (print_align a) = Some (a, []).
Proof.
  intros (Hi & Hloc). unfold parse_align. rewrite (located_loc _ (align_loc a)) by done.
  clean by (apply (clean_int _ _ (Some (align_to a))); [look_up|by intros z [= <-]]).
  clean by reflexivity. clean by (apply clean_attrs, attrs_known; reflexivity). by destruct a.
Qed.
End print.
