(* ===== verification/XmlChildRoundtrip.v ===== *)
(** * The XML parser: writing nested definitions down and reading them back

    [print_child] writes any child of a message, struct or frame; the parser reads
    it back, by induction over the children. *)

From stdpp Require Import base numbers list sets strings pretty.
From Stdlib Require Import ZArith Lia Ascii SpecFloat.
From S2P Require Import Prelude CharConv AutoExpr ExprParser Ast AstBuilder XmlParser XmlParserSpec XmlRoundtrip.

Open Scope Z_scope.

(** ** Blocks and what follows them *)

Definition kid_names : list string := ["field"; "struct"; "array"; "choice"; "fx"; "reserved"; "align"]%string.
Definition is_kid (n : xml) : Prop := existsb (String.eqb (name n)) kid_names = true.

Lemma pick_kids k l : Forall is_kid l -> existsb (String.eqb k) kid_names = false -> List.filter (named k) l = [].
Proof.
  intros Hl Hk. induction Hl as [|[s a cs o|v o] l Hn _ IH]; [done| |done]. cbn [List.filter named].
  destruct (String.eqb_spec s k) as [->|_]; [|done]. unfold is_kid in Hn. cbn [name] in Hn. by rewrite Hk in Hn.
Qed.

(** The children of an element whose blocks come before others. *)
Lemma children_kids nm a l kids o k b :
  blocks_ok l -> Forall is_kid kids -> existsb (String.eqb k) kid_names = false -> block_named k l = b ++ [] ->
  children_named (Element nm a (flat_map snd l ++ kids) o) k = b.
Proof.
  intros Hl Hkids Hk Hb. unfold children_named. cbn [children].
  by rewrite List.filter_app, pick_blocks, pick_kids, Hb, !app_nil_r.
Qed.

Lemma child_kids nm a l kids o k :
  blocks_ok l -> Forall is_kid kids -> existsb (String.eqb k) kid_names = false ->
  child (Element nm a (flat_map snd l ++ kids) o) k = head (block_named k l).
Proof. intros Hl Hkids Hk. unfold child. by rewrite (children_kids _ _ l _ _ _ (block_named k l)) by (by rewrite ?app_nil_r). Qed.

Lemma blocks_names known l :
  blocks_ok l -> forallb (fun b => existsb (String.eqb b.1) known) l = true ->
  forallb (fun c => existsb (String.eqb (name c)) known) (flat_map snd l) = true.
Proof.
  induction 1 as [|[k ns] l Hb _ IH]; [done|]. cbn [forallb flat_map fst snd]. intros [Hk Hl]%andb_true_iff.
  rewrite forallb_app. apply andb_true_iff. split; [|by apply IH]. apply forallb_forall. intros n Hn%list_elem_of_In.
  cbn [fst snd] in Hb. rewrite Forall_forall in Hb. specialize (Hb n Hn). destruct n as [s a cs o|v o]; [|done].
  cbn in *. by apply String.eqb_eq in Hb as ->.
Qed.

Section children.
Variable as_double : string -> spec_float.
Variable show_double : spec_float -> string.
Variable show_expr : Expr -> string.
Variable path : string.
Variable lines : list Z.

Local Notation located := (located path lines).
Local Notation expr_ok := (expr_ok show_expr).

(** ** What the loops pass over *)

Definition quiet_names : list string := ["doc"; "annotation"; "bitmap"; "empty"; ""]%string.

Lemma parse_all_quiet l kids r :
  forallb (fun c => existsb (String.eqb (name c)) quiet_names) l = true ->
  parse_all as_double path lines kids = Some (r, []) -> parse_all as_double path lines (l ++ kids) = Some (r, []).
Proof.
  induction l as [|n l IH]; cbn [forallb app]; [done|]. intros [Hn Hl]%andb_true_iff Hk. cbn [parse_all].
  clean by instantiate (1 := None); [|clean by (by apply IH); done].
  destruct n as [k a cs o|v o]; [|done]. rewrite parse_struct_child_element. cbn [name] in Hn.
  assert (existsb (String.eqb k) quiet_names = true) as Hq by exact Hn.
  apply existsb_exists in Hn as (q & Hq' & ->%String.eqb_eq).
  cbn in Hq'. decompose [or] Hq'; subst; try done.
Qed.

Lemma parse_cases_each l :
  parse_cases as_double path lines l =
    each (fun c => parse_case path lines (parse_all as_double path lines (children c)) c) (List.filter (named "case") l).
Proof.
  induction l as [|[k a cs o|v o] l IH]; [done| |done]. cbn [parse_cases List.filter named].
  destruct (String.eqb k "case"); [|done]. cbn [each children]. by rewrite IH.
Qed.

Lemma parse_other_head choice l :
  parse_other as_double path lines choice l =
    match head (List.filter (named "otherwise") l) with
    | Some c => d ← parse_otherwise path lines choice (parse_all as_double path lines (children c)) c; mret (Some d)
    | None => mret None
    end.
Proof.
  induction l as [|[k a cs o|v o] l IH]; [done| |done]. cbn [parse_other List.filter named].
  destruct (String.eqb k "otherwise"); [done|]. exact IH.
Qed.

(** ** Elements with children *)

Definition print_bitmap {C} (s : StructDefOf C) : xml :=
  Element "bitmap" (attrs [("bits", num <$> Some (bitmap_bits s));
    ("ext", match bitmap_ext s with Some z => Some (num z) | None => Some "none" end);
    ("endian", Some (endian_name (bitmap_endian s)))]%string) [] 0.

Definition empty_child (b : bool) : list xml := if b then [Element "empty" [] [] 0] else [].

Definition struct_list {C} (s : StructDefOf C) : list (string * option string) :=
  [("name", Some (sd_name s)); ("presence", if is_bitmap s then Some "bitmap" else None); ("bit", num <$> sd_bit s);
   ("present-when", show_expr <$> sd_present_when s); ("typeName", sd_type_name s)]%string.
Definition struct_blocks {C} (s : StructDefOf C) : list (string * list xml) :=
  info_blocks (sd_annotations s) (sd_doc s) ++ [("bitmap", [print_bitmap s]); ("empty", empty_child (sd_has_explicit_empty s))]%string.
Definition print_struct {C} (kids : list xml) (s : StructDefOf C) : xml :=
  Element "struct" (attrs (struct_list s)) (flat_map snd (struct_blocks s) ++ kids) (loc_offset (sd_loc s)).

Definition array_list {C} (a : ArrayDefOf C) : list (string * option string) :=
  [("name", Some (ad_name a)); ("type", nonempty (ad_type_ref a));
   ("count", if count_star a then Some "*" else if count_fx a then Some "fx" else num <$> fixed_count a);
   ("count-from", show_expr <$> count_from a); ("length", num <$> ad_length a); ("length-from", show_expr <$> ad_length_from a);
   ("bit", num <$> ad_bit a); ("present-when", show_expr <$> ad_present_when a); ("typeName", ad_type_name a)]%string.
Definition print_array {C} (kids : list xml) (a : ArrayDefOf C) : xml :=
  Element "array" (attrs (array_list a)) (flat_map snd (info_blocks (ad_annotations a) (ad_doc a)) ++ kids) (loc_offset (ad_loc a)).

Definition case_list {C} (c : CaseDefOf C) : list (string * option string) :=
  [("name", Some (case_name c)); ("type", nonempty (case_type_ref c)); ("value", case_value c); ("range", case_range c);
   ("direction", Some (direction_name (case_direction c))); ("typeName", case_type_name c)]%string.
Definition print_case {C} (kids : list xml) (c : CaseDefOf C) : xml :=
  Element "case" (attrs (case_list c)) (flat_map snd (info_blocks (case_annotations c) (case_doc c)) ++ kids) (loc_offset (case_loc c)).

Definition other_list {C} (o : OtherwiseDefOf C) : list (string * option string) :=
  [("name", nonempty (ow_name o)); ("type", nonempty (ow_type_ref o)); ("typeName", ow_type_name o)]%string.
Definition print_other {C} (kids : list xml) (o : OtherwiseDefOf C) : xml :=
  Element "otherwise" (attrs (other_list o)) (flat_map snd (info_blocks (ow_annotations o) (ow_doc o)) ++ kids) (loc_offset (ow_loc o)).

Definition choice_list {C} (c : ChoiceDefOf C) : list (string * option string) :=
  [("name", Some (ch_name c)); ("switch", show_expr <$> switch_expr c); ("length", num <$> ch_length c);
   ("length-from", show_expr <$> ch_length_from c); ("bit", num <$> ch_bit c); ("present-when", show_expr <$> ch_present_when c);
   ("typeName", ch_type_name c)]%string.
Definition choice_blocks {C} (cases other : list xml) (c : ChoiceDefOf C) : list (string * list xml) :=
  info_blocks (ch_annotations c) (ch_doc c) ++ [("case", cases); ("otherwise", other)]%string.
Definition print_choice {C} (cases other : list xml) (c : ChoiceDefOf C) : xml :=
  Element "choice" (attrs (choice_list c)) (flat_map snd (choice_blocks cases other c)) (loc_offset (ch_loc c)).

Fixpoint print_child (c : StructChild) : xml :=
  match c with
  | ChField f => print_field show_double show_expr f
  | ChStruct s => print_struct (map print_child (sd_children s)) s
  | ChArray a => print_array (map print_child (ad_children a)) a
  | ChChoice c =>
      print_choice (map (fun cs => print_case (map print_child (case_children cs)) cs) (ch_cases c))
        (match ch_otherwise c with Some o => [print_other (map print_child (ow_children o)) o] | None => [] end) c
  | ChFx x => Element "fx" [] (map print_child (fx_children x)) (loc_offset (fx_loc x))
  | ChReserved r => print_reserved r
  | ChAlign a => print_align a
  end.

(** ** What can be written *)

Record struct_ok {C} (s : StructDefOf C) : Prop := {
  so_name : sd_name s <> ""%string; so_bits : int_ok (Some (bitmap_bits s)); so_ext : nonneg_ok (bitmap_ext s);
  so_bit : int_ok (sd_bit s); so_present : expr_ok (sd_loc s) (sd_present_when s);
  so_anns : Forall annotation_ok (sd_annotations s); so_loc : located (sd_loc s)
}.

Record array_ok {C} (a : ArrayDefOf C) : Prop := {
  ao_name : ad_name a <> ""%string; ao_type : ad_type_ref a <> ""%string -> ad_children a = [];
  ao_count : int_ok (fixed_count a);
  ao_words : (1 <? Z.of_nat (XmlParser.count [some (fixed_count a); count_star a; count_fx a])) = false;
  ao_from : expr_ok (ad_loc a) (count_from a);
  ao_one_count : (some (fixed_count a) || count_star a || count_fx a) && some (count_from a) = false;
  ao_length : nonneg_ok (ad_length a); ao_length_from : expr_ok (ad_loc a) (ad_length_from a);
  ao_one_length : some (ad_length a) && some (ad_length_from a) = false;
  ao_fx : count_fx a && (some (ad_length a) || some (ad_length_from a)) = false;
  ao_bit : int_ok (ad_bit a); ao_present : expr_ok (ad_loc a) (ad_present_when a);
  ao_anns : Forall annotation_ok (ad_annotations a); ao_loc : located (ad_loc a)
}.

Record case_ok {C} (c : CaseDefOf C) : Prop := {
  co_name : case_name c <> ""%string; co_type : case_type_ref c <> ""%string -> case_children c = [];
  co_anns : Forall annotation_ok (case_annotations c); co_loc : located (case_loc c)
}.

Record other_ok {C} (o : OtherwiseDefOf C) : Prop := {
  oo_type : ow_type_ref o <> ""%string -> ow_children o = [];
  oo_anns : Forall annotation_ok (ow_annotations o); oo_loc : located (ow_loc o)
}.

Record choice_ok {C} (c : ChoiceDefOf C) : Prop := {
  cho_name : ch_name c <> ""%string; cho_switch : expr_ok (ch_loc c) (switch_expr c);
  cho_length : nonneg_ok (ch_length c); cho_from : expr_ok (ch_loc c) (ch_length_from c);
  cho_one_length : some (ch_length c) && some (ch_length_from c) = false;
  cho_bit : int_ok (ch_bit c); cho_present : expr_ok (ch_loc c) (ch_present_when c);
  cho_anns : Forall annotation_ok (ch_annotations c); cho_loc : located (ch_loc c)
}.

Inductive child_ok : StructChild -> Prop :=
  | field_is_ok f : field_ok as_double show_double show_expr path lines f -> child_ok (ChField f)
  | struct_is_ok s : struct_ok s -> Forall child_ok (sd_children s) -> child_ok (ChStruct s)
  | array_is_ok a : array_ok a -> Forall child_ok (ad_children a) -> child_ok (ChArray a)
  | choice_is_ok c : choice_ok c -> Forall case_ok (ch_cases c) -> Forall (fun cs => Forall child_ok (case_children cs)) (ch_cases c) ->
      (forall o, ch_otherwise c = Some o -> other_ok o) -> (forall o, ch_otherwise c = Some o -> Forall child_ok (ow_children o)) ->
      child_ok (ChChoice c)
  | fx_is_ok x : located (fx_loc x) -> Forall child_ok (fx_children x) -> child_ok (ChFx x)
  | reserved_is_ok r : reserved_ok path lines r -> child_ok (ChReserved r)
  | align_is_ok a : align_ok path lines a -> child_ok (ChAlign a).

(** ** Reading them back *)

Local Notation parse_all := (parse_all as_double path lines).

Lemma struct_blocks_ok {C} (s : StructDefOf C) : blocks_ok (struct_blocks s).
Proof.
  apply Forall_app. split; [apply info_blocks_ok|]. repeat constructor. cbn [fst snd]. unfold empty_child.
  destruct (sd_has_explicit_empty s); by repeat constructor.
Qed.

Lemma clean_bitmap {C} (s : StructDefOf C) :
  struct_ok s -> parse_bitmap path lines (Some (print_bitmap s)) = Some (bitmap_bits s, bitmap_ext s, bitmap_endian s, []).
Proof.
  intros Hs. unfold parse_bitmap.
  clean by (apply (clean_int _ _ _ _ (Some (bitmap_bits s))); [look_up|apply Hs]).
  assert (attribute (print_bitmap s) "ext" = match bitmap_ext s with Some z => Some (num z) | None => Some "none"%string end) as He by look_up.
  assert (attribute (print_bitmap s) "endian" = Some (endian_name (bitmap_endian s))) as Hd by look_up.
  rewrite He, Hd. clean by (instantiate (1 := bitmap_ext s)).
  - destruct (bitmap_ext s) as [z|] eqn:E; [|done]. rewrite num_not_word by done.
    clean by (apply (clean_nonneg _ _ _ _ (Some z)); [rewrite He; done|rewrite <- E; apply Hs]). done.
  - by destruct (bitmap_endian s).
Qed.

(** The children are parsed unless a type is referred to. *)
Lemma clean_kids {C} (kids : X (list C)) n type (l : list C) :
  attribute n "type" = nonempty type -> (type <> ""%string -> l = []) -> kids = Some (l, []) ->
  (if some (attribute n "type") then mret [] else kids) = Some (l, []).
Proof.
  intros Ha Hl Hk. rewrite Ha. unfold nonempty, is_empty. destruct (String.eqb_spec type "") as [->|Hne]; [done|]. cbn. by rewrite Hl.
Qed.

Lemma parse_info_kids anns doc ks r :
  parse_all ks = Some (r, []) -> parse_all (flat_map snd (info_blocks anns doc) ++ ks) = Some (r, []).
Proof. intros Hk. apply parse_all_quiet; [|done]. apply blocks_names; [apply info_blocks_ok|done]. Qed.

Lemma parse_print_struct ks s :
  struct_ok s -> Forall is_kid ks -> parse_all ks = Some (sd_children s, []) ->
  parse_struct path lines (parse_all (children (print_struct ks s))) (print_struct ks s) = Some (s, []).
Proof.
  intros Hs Hks Hk. pose proof (struct_blocks_ok s) as Hb.
  assert (forall k, attribute (print_struct ks s) k = assoc_opt k (struct_list s)) as Ha by (intros k; look_up).
  assert (loc path lines (print_struct ks s) = sd_loc s) as Hloc by (by apply located_loc; [apply Hs|]).
  assert (attr_value (print_struct ks s) "name" = sd_name s) as Hname by look_up.
  unfold parse_struct. rewrite Hname, !Ha.
  clean by (apply clean_error_if, String.eqb_neq, Hs).
  clean by reflexivity.
  assert (child (print_struct ks s) "bitmap" = Some (print_bitmap s)) as -> by exact (child_kids _ _ _ _ _ "bitmap" Hb Hks eq_refl).
  clean by (by apply clean_bitmap).
  clean by (apply (clean_int _ _ _ _ (sd_bit s)); [apply Ha|apply Hs]).
  clean by (apply (clean_expr show_expr _ _ _ _ (sd_present_when s)); [apply Ha|rewrite Hloc; apply Hs]).
  clean by (apply parse_all_quiet; [by apply blocks_names|exact Hk]).
  clean by (apply (clean_annotations _ _ _ (sd_annotations s)); [by eapply children_kids|apply Hs]).
  clean by (apply clean_attrs, attrs_known; reflexivity).
  rewrite Hloc, (clean_doc _ (sd_doc s)) by by eapply children_kids.
  assert (child (print_struct ks s) "empty" = head (empty_child (sd_has_explicit_empty s))) as ->.
  { etransitivity; [exact (child_kids _ _ _ _ _ "empty" Hb Hks eq_refl)|].
    change (head (empty_child (sd_has_explicit_empty s) ++ []) = head (empty_child (sd_has_explicit_empty s))). by rewrite app_nil_r. }
  destruct s as [? ? [] ? ? ? ? ? ? []]; reflexivity.
Qed.

Lemma clean_count {C} (a : ArrayDefOf C) n :
  array_ok a ->
  attribute n "count" = (if count_star a then Some "*"%string else if count_fx a then Some "fx"%string else num <$> fixed_count a) ->
  parse_count path lines n = Some (fixed_count a, count_star a, count_fx a, []).
Proof.
  intros Ha Hn. unfold parse_count. rewrite Hn. pose proof (ao_words a Ha) as Hw.
  destruct (count_star a); [|destruct (count_fx a)]; [by destruct (fixed_count a), (count_fx a)|by destruct (fixed_count a)|].
  destruct (fixed_count a) as [z|] eqn:E; [|done]. cbn [fmap option_fmap option_map]. rewrite !num_not_word by done.
  pose proof (ao_count a Ha z E) as Hz. unfold num, txt, str. rewrite String.list_ascii_of_string_of_list_ascii.
  unfold from_chars_int. rewrite from_chars_signed, Hz; [done|].
  unfold is_int, INT_MIN, INT_MAX, INT64_MIN, INT64_MAX in *. bool_to_prop. lia.
Qed.

Lemma parse_print_array ks a :
  array_ok a -> Forall is_kid ks -> parse_all ks = Some (ad_children a, []) ->
  parse_array path lines (parse_all (children (print_array ks a))) (print_array ks a) = Some (a, []).
Proof.
  intros Ho Hks Hk. pose proof (info_blocks_ok (ad_annotations a) (ad_doc a)) as Hb.
  assert (forall k, attribute (print_array ks a) k = assoc_opt k (array_list a)) as Ha by (intros k; look_up).
  assert (loc path lines (print_array ks a) = ad_loc a) as Hloc by (by apply located_loc; [apply Ho|]).
  assert (attr_value (print_array ks a) "name" = ad_name a) as Hname by look_up.
  assert (attr_value (print_array ks a) "type" = ad_type_ref a) as Htype by (etransitivity; [look_up|apply default_nonempty]).
  unfold parse_array. rewrite Hname, Htype.
  clean by (apply clean_error_if, String.eqb_neq, Ho).
  clean by (apply (clean_count a); [exact Ho|apply Ha]).
  clean by (apply (clean_expr show_expr _ _ _ _ (count_from a)); [apply Ha|rewrite Hloc; apply Ho]).
  clean by (apply clean_error_if, Ho).
  clean by (apply (clean_nonneg _ _ _ _ (ad_length a)); [apply Ha|apply Ho]).
  clean by (apply (clean_expr show_expr _ _ _ _ (ad_length_from a)); [apply Ha|rewrite Hloc; apply Ho]).
  clean by (apply clean_error_if, Ho).
  clean by (apply clean_error_if, Ho).
  clean by (apply (clean_int _ _ _ _ (ad_bit a)); [apply Ha|apply Ho]).
  clean by (apply (clean_expr show_expr _ _ _ _ (ad_present_when a)); [apply Ha|rewrite Hloc; apply Ho]).
  clean by (apply (clean_kids _ _ (ad_type_ref a)); [apply Ha|apply Ho|by apply parse_info_kids]).
  clean by (apply (clean_annotations _ _ _ (ad_annotations a)); [by eapply children_kids|apply Ho]).
  clean by (apply clean_attrs, attrs_known; reflexivity).
  rewrite Hloc, Ha, (clean_doc _ (ad_doc a)) by by eapply children_kids. by destruct a.
Qed.

Lemma clean_direction n d : attribute n "direction" = Some (direction_name d) -> parse_direction path lines n = Some (d, []).
Proof. intros Ha. unfold parse_direction. rewrite Ha. by destruct d. Qed.

Lemma parse_print_case ks c :
  case_ok c -> Forall is_kid ks -> parse_all ks = Some (case_children c, []) ->
  parse_case path lines (parse_all (children (print_case ks c))) (print_case ks c) = Some (c, []).
Proof.
  intros Ho Hks Hk. pose proof (info_blocks_ok (case_annotations c) (case_doc c)) as Hb.
  assert (forall k, attribute (print_case ks c) k = assoc_opt k (case_list c)) as Ha by (intros k; look_up).
  assert (loc path lines (print_case ks c) = case_loc c) as Hloc by (by apply located_loc; [apply Ho|]).
  assert (attr_value (print_case ks c) "name" = case_name c) as Hname by look_up.
  assert (attr_value (print_case ks c) "type" = case_type_ref c) as Htype by (etransitivity; [look_up|apply default_nonempty]).
  unfold parse_case. rewrite Hname, Htype.
  clean by (apply clean_error_if, String.eqb_neq, Ho).
  clean by (apply (clean_direction _ (case_direction c)), Ha).
  clean by (apply (clean_kids _ _ (case_type_ref c)); [apply Ha|apply Ho|by apply parse_info_kids]).
  clean by (apply (clean_annotations _ _ _ (case_annotations c)); [by eapply children_kids|apply Ho]).
  clean by (apply clean_attrs, attrs_known; reflexivity).
  rewrite Hloc, !Ha, (clean_doc _ (case_doc c)) by by eapply children_kids. by destruct c.
Qed.

Lemma parse_print_other choice ks o :
  other_ok o -> Forall is_kid ks -> parse_all ks = Some (ow_children o, []) ->
  parse_otherwise path lines choice (parse_all (children (print_other ks o))) (print_other ks o) = Some (o, []).
Proof.
  intros Ho Hks Hk. pose proof (info_blocks_ok (ow_annotations o) (ow_doc o)) as Hb.
  assert (forall k, attribute (print_other ks o) k = assoc_opt k (other_list o)) as Ha by (intros k; look_up).
  assert (loc path lines (print_other ks o) = ow_loc o) as Hloc by (by apply located_loc; [apply Ho|]).
  assert (attr_value (print_other ks o) "name" = ow_name o) as Hname by (etransitivity; [look_up|apply default_nonempty]).
  assert (attr_value (print_other ks o) "type" = ow_type_ref o) as Htype by (etransitivity; [look_up|apply default_nonempty]).
  unfold parse_otherwise. rewrite Hname, Htype.
  clean by (rewrite Ha; reflexivity).
  clean by (apply (clean_kids _ _ (ow_type_ref o)); [apply Ha|apply Ho|by apply parse_info_kids]).
  clean by (apply (clean_annotations _ _ _ (ow_annotations o)); [by eapply children_kids|apply Ho]).
  clean by (apply clean_attrs, attrs_known; reflexivity).
  rewrite Hloc, !Ha, (clean_doc _ (ow_doc o)) by by eapply children_kids. by destruct o.
Qed.

Lemma choice_blocks_ok {C} cases other (c : ChoiceDefOf C) :
  Forall (fun n => named "case" n = true) cases -> Forall (fun n => named "otherwise" n = true) other ->
  blocks_ok (choice_blocks cases other c).
Proof. intros Hc Ho. apply Forall_app. split; [apply info_blocks_ok|]. repeat constructor; done. Qed.

Lemma no_case_after l other :
  forallb (fun n => existsb (String.eqb (name n)) ["annotation"; "doc"; "case"]%string) l = true -> Forall (fun n => named "otherwise" n = true) other ->
  case_after_otherwise false (l ++ other) = None.
Proof.
  intros Hl Ho. induction l as [|n l IH]; cbn [app case_after_otherwise].
  - generalize false. induction Ho as [|[s a cs o|v o] l Hn _ IH]; intros seen; [done| |done].
    cbn [case_after_otherwise name]. cbn in Hn. by rewrite Hn.
  - cbn [forallb] in Hl. apply andb_true_iff in Hl as [Hn Hl].
    assert (String.eqb (name n) "otherwise" = false) as ->.
    { destruct (String.eqb_spec (name n) "otherwise") as [E|_]; [by rewrite E in Hn|done]. }
    by rewrite andb_false_r, IH.
Qed.

Lemma clean_cases (print : CaseDef -> xml) (cs : list CaseDef) l :
  List.filter (named "case") l = map print cs ->
  (forall c, c ∈ cs -> parse_case path lines (parse_all (children (print c))) (print c) = Some (c, [])) ->
  parse_cases as_double path lines l = Some (cs, []).
Proof.
  intros Hl Hc. rewrite parse_cases_each, Hl. clear Hl. induction cs as [|c cs IH]; [done|]. cbn [map each].
  clean by (apply Hc; by left). clean by (apply IH; intros c' Hc'; apply Hc; by right). done.
Qed.

Lemma parse_print_choice cases other (c : ChoiceDef) :
  choice_ok c -> Forall (fun n => named "case" n = true) cases -> Forall (fun n => named "otherwise" n = true) other ->
  parse_cases as_double path lines (children (print_choice cases other c)) = Some (ch_cases c, []) ->
  parse_other as_double path lines (ch_name c) (children (print_choice cases other c)) = Some (ch_otherwise c, []) ->
  parse_choice path lines (parse_cases as_double path lines (children (print_choice cases other c)))
    (parse_other as_double path lines (ch_name c) (children (print_choice cases other c))) (print_choice cases other c) = Some (c, []).
Proof.
  intros Ho Hcs Hot Hpc Hpo. pose proof (choice_blocks_ok cases other c Hcs Hot) as Hb. set (n := print_choice cases other c) in *.
  assert (forall k, attribute n k = assoc_opt k (choice_list c)) as Ha by (intros k; look_up).
  assert (loc path lines n = ch_loc c) as Hloc by (by apply located_loc; [apply Ho|]).
  assert (attr_value n "name" = ch_name c) as Hname by look_up.
  assert (forallb (fun c => existsb (String.eqb (name c)) ["case"; "otherwise"; "doc"; "annotation"]%string) (children n) = true) as Hnames
    by by apply blocks_names.
  unfold parse_choice. rewrite Hname.
  clean by (apply clean_error_if, String.eqb_neq, Ho).
  clean by (apply (clean_expr show_expr _ _ _ _ (switch_expr c)); [apply Ha|rewrite Hloc; apply Ho]).
  clean by (apply (clean_nonneg _ _ _ _ (ch_length c)); [apply Ha|apply Ho]).
  clean by (apply (clean_expr show_expr _ _ _ _ (ch_length_from c)); [apply Ha|rewrite Hloc; apply Ho]).
  clean by (apply clean_error_if, Ho).
  clean by (apply (clean_int _ _ _ _ (ch_bit c)); [apply Ha|apply Ho]).
  clean by (apply (clean_expr show_expr _ _ _ _ (ch_present_when c)); [apply Ha|rewrite Hloc; apply Ho]).
  clean by exact Hpc.
  assert (case_after_otherwise false (children n) = None) as Hafter.
  { assert (children n = flat_map snd (info_blocks (ch_annotations c) (ch_doc c) ++ [("case"%string, cases)]) ++ other) as ->.
    { cbn. by rewrite !app_nil_r, <- !app_assoc. }
    apply no_case_after; [|done]. apply blocks_names; [|done]. apply Forall_app. split; [apply info_blocks_ok|by repeat constructor]. }
  rewrite Hafter. clean by reflexivity.
  clean by exact Hpo.
  clean by (apply clean_children; exact Hnames).
  clean by (apply (clean_annotations _ _ _ (ch_annotations c)); [by eapply children_blocks|apply Ho]).
  clean by (apply clean_attrs, attrs_known; reflexivity).
  rewrite Hloc, Ha, (clean_doc _ (ch_doc c)) by by eapply children_blocks. by destruct c.
Qed.

Lemma print_child_kid c : is_kid (print_child c).
Proof. by destruct c. Qed.

Lemma kids_are_kids l : Forall is_kid (map print_child l).
Proof. apply Forall_map, Forall_true. intros c. apply print_child_kid. Qed.

Lemma parse_all_print l :
  Forall child_ok l -> Forall (fun c => child_ok c -> parse_struct_child as_double path lines (print_child c) = Some (Some c, [])) l ->
  parse_all (map print_child l) = Some (l, []).
Proof.
  intros Hok IH. induction l as [|c l IHl]; [done|]. apply Forall_cons in Hok as [Hc Hl]. apply Forall_cons in IH as [Hpc Hpl].
  cbn [map XmlParser.parse_all]. clean by (by apply Hpc). clean by (by apply IHl). done.
Qed.

(** The branches of a choice. *)
Definition print_cases (c : ChoiceDef) : list xml := map (fun cs => print_case (map print_child (case_children cs)) cs) (ch_cases c).
Definition print_others (c : ChoiceDef) : list xml :=
  match ch_otherwise c with Some o => [print_other (map print_child (ow_children o)) o] | None => [] end.

Lemma print_cases_named c : Forall (fun n => named "case" n = true) (print_cases c).
Proof. apply Forall_map, Forall_true. done. Qed.

Lemma print_others_named c : Forall (fun n => named "otherwise" n = true) (print_others c).
Proof. unfold print_others. destruct (ch_otherwise c); by repeat constructor. Qed.

Lemma parse_print_cases c :
  Forall case_ok (ch_cases c) -> Forall (fun cs => parse_all (map print_child (case_children cs)) = Some (case_children cs, [])) (ch_cases c) ->
  parse_cases as_double path lines (children (print_choice (print_cases c) (print_others c) c)) = Some (ch_cases c, []).
Proof.
  intros Hok Hk. eapply clean_cases.
  - eapply (children_blocks "choice" [] _ 0 "case"); [|reflexivity].
    apply choice_blocks_ok; [apply print_cases_named|apply print_others_named].
  - intros cs Hcs. rewrite Forall_forall in Hok, Hk. apply parse_print_case; [by apply Hok|apply kids_are_kids|by apply Hk].
Qed.

Lemma parse_print_others c :
  (forall o, ch_otherwise c = Some o -> other_ok o) ->
  (forall o, ch_otherwise c = Some o -> parse_all (map print_child (ow_children o)) = Some (ow_children o, [])) ->
  parse_other as_double path lines (ch_name c) (children (print_choice (print_cases c) (print_others c) c)) = Some (ch_otherwise c, []).
Proof.
  intros Hok Hk. rewrite parse_other_head.
  assert (List.filter (named "otherwise") (children (print_choice (print_cases c) (print_others c) c)) = print_others c) as ->.
  { eapply (children_blocks "choice" [] _ 0 "otherwise"); [|reflexivity].
    apply choice_blocks_ok; [apply print_cases_named|apply print_others_named]. }
  unfold print_others. destruct (ch_otherwise c) as [o|]; [|done]. cbn [head].
  clean by (apply parse_print_other; [by apply Hok|apply kids_are_kids|by apply Hk]). done.
Qed.

Lemma parse_print_child c : child_ok c -> parse_struct_child as_double path lines (print_child c) = Some (Some c, []).
Proof.
  induction c as [f|s IH|a IH|c IHc IHo|x IH|r|a] using child_ind; inversion 1; subst.
  - clean by (by apply parse_print_field). done.
  - clean by (apply parse_print_struct; [done|apply kids_are_kids|by apply parse_all_print]). done.
  - clean by (apply parse_print_array; [done|apply kids_are_kids|by apply parse_all_print]). done.
  - clean by (apply (parse_print_choice (print_cases c) (print_others c)); [done|apply print_cases_named|apply print_others_named| |]).
    + apply parse_print_cases; [done|]. rewrite Forall_forall in *. intros cs Hcs. apply parse_all_print; auto.
    + apply parse_print_others; [done|]. intros o Ho. apply parse_all_print; auto.
    + done.
  - clean by (unfold parse_fx; clean by (by apply parse_all_print); by rewrite (located_loc _ _ _ (fx_loc x))). by destruct x.
  - clean by (by apply parse_print_reserved). done.
  - clean by (by apply parse_print_align). done.
Qed.
End children.
