(* ===== verification/XmlFileRoundtrip.v ===== *)
(** * The XML parser: writing a file down and reading it back

    [print_file] writes a [BmdlFile] as a document; [xml_roundtrip] says that
    [parse_bmdl_file] gives the file back, node for node, with no error, if it is
    one that can be written ([file_ok]): names are not empty, numbers fit their
    types, what the language excludes is not combined, and every location is that
    of its offset. *)

From stdpp Require Import base numbers list sets strings pretty.
From Stdlib Require Import ZArith Lia Ascii SpecFloat.
From S2P Require Import Prelude CharConv AutoExpr ExprParser Ast AstBuilder XmlParser XmlParserSpec XmlRoundtrip XmlChildRoundtrip.

Open Scope Z_scope.

Section file.
Variable as_double : string -> spec_float.
Variable show_double : spec_float -> string.
Variable show_expr : Expr -> string.
Variable path : string.
Variable lines : list Z.

Local Notation located := (located path lines).
Local Notation child_ok := (child_ok as_double show_double show_expr path lines).
Local Notation print_child := (print_child show_double show_expr).
Local Notation parse_all := (parse_all as_double path lines).

Lemma parse_print_children l : Forall child_ok l -> parse_all (map print_child l) = Some (l, []).
Proof. intros Hl. apply parse_all_print; [exact Hl|]. apply Forall_true. intros c. apply parse_print_child. Qed.

(** ** Definitions *)

Definition print_import (i : ImportDef) : xml :=
  Element "import" (attrs [("href", Some (href i)); ("ns", import_ns i)]%string) [] (loc_offset (import_loc i)).
Definition import_ok (i : ImportDef) : Prop := href i <> ""%string /\ located (import_loc i).

Lemma parse_print_import i : import_ok i -> parse_import path lines (print_import i) = Some (i, []).
Proof.
  intros (Hn & Hloc). unfold parse_import. rewrite (located_loc _ _ _ (import_loc i)) by done.
  assert (attr_value (print_import i) "href" = href i) as -> by look_up.
  assert (attribute (print_import i) "ns" = import_ns i) as -> by look_up.
  clean by (by apply clean_error_if, String.eqb_neq). clean by (apply clean_attrs, attrs_known; reflexivity). by destruct i.
Qed.

Definition print_const (c : ConstDef) : xml :=
  Element "const" (attrs [("name", Some (const_name c)); ("type", Some (const_type_ref c)); ("value", Some (const_value c))]%string)
    (flat_map snd (info_blocks (const_annotations c) (const_doc c))) (loc_offset (const_loc c)).
Definition const_ok (c : ConstDef) : Prop :=
  const_name c <> ""%string /\ const_type_ref c <> ""%string /\ const_value c <> ""%string
  /\ Forall annotation_ok (const_annotations c) /\ located (const_loc c).

Lemma parse_print_const c : const_ok c -> parse_const path lines (print_const c) = Some (c, []).
Proof.
  intros (Hn & Ht & Hv & Hanns & Hloc). pose proof (info_blocks_ok (const_annotations c) (const_doc c)) as Hb.
  unfold parse_const. rewrite (located_loc _ _ _ (const_loc c)) by done.
  assert (attr_value (print_const c) "name" = const_name c) as -> by look_up.
  assert (attr_value (print_const c) "type" = const_type_ref c) as -> by look_up.
  assert (attr_value (print_const c) "value" = const_value c) as -> by look_up.
  clean by (apply (clean_annotations _ _ _ (const_annotations c)); [by eapply children_blocks|done]).
  do 3 clean by (by apply clean_error_if, String.eqb_neq). clean by (apply clean_attrs, attrs_known; reflexivity).
  rewrite (clean_doc _ (const_doc c)) by by eapply children_blocks. by destruct c.
Qed.

Definition message_blocks (m : MessageDef) : list (string * list xml) :=
  info_blocks (msg_annotations m) (msg_doc m) ++ [("empty"%string, empty_child (msg_has_explicit_empty m))].
Definition print_message (m : MessageDef) : xml :=
  Element "message" (attrs [("name", Some (msg_name m)); ("id", nonempty (msg_id m)); ("direction", Some (direction_name (msg_direction m)))]%string)
    (flat_map snd (message_blocks m) ++ map print_child (msg_children m)) (loc_offset (msg_loc m)).
Definition message_ok (m : MessageDef) : Prop :=
  msg_name m <> ""%string /\ Forall child_ok (msg_children m) /\ Forall annotation_ok (msg_annotations m) /\ located (msg_loc m).

Lemma message_blocks_ok m : blocks_ok (message_blocks m).
Proof.
  apply Forall_app. split; [apply info_blocks_ok|]. repeat constructor. cbn [fst snd]. unfold empty_child.
  destruct (msg_has_explicit_empty m); by repeat constructor.
Qed.

Lemma head_empty b : some (head (empty_child b ++ [])) = b.
Proof. by destruct b. Qed.

Lemma parse_print_message m : message_ok m -> parse_message as_double path lines (print_message m) = Some (m, []).
Proof.
  intros (Hn & Hk & Hanns & Hloc). pose proof (message_blocks_ok m) as Hb.
  pose proof (kids_are_kids show_double show_expr (msg_children m)) as Hks.
  unfold parse_message. rewrite (located_loc _ _ _ (msg_loc m)) by done.
  assert (attr_value (print_message m) "name" = msg_name m) as -> by look_up.
  assert (attr_value (print_message m) "id" = msg_id m) as -> by (etransitivity; [look_up|apply default_nonempty]).
  clean by (by apply clean_error_if, String.eqb_neq).
  clean by (apply (clean_direction _ _ _ (msg_direction m)); look_up).
  clean by (apply parse_all_quiet; [by apply blocks_names|by apply parse_print_children]).
  clean by (apply (clean_annotations _ _ _ (msg_annotations m)); [by eapply children_kids|done]).
  clean by (apply clean_attrs, attrs_known; reflexivity).
  rewrite (clean_doc _ (msg_doc m)) by by eapply children_kids.
  assert (some (child (print_message m) "empty") = msg_has_explicit_empty m) as ->; [|by destruct m].
  etransitivity; [apply f_equal; exact (child_kids _ _ _ _ _ "empty" Hb Hks eq_refl)|]. exact (head_empty _).
Qed.

(** ** Defaults and frames *)

Definition default_blocks (d : Defaults) : list (string * list xml) :=
  [("endian", text_child "endian" (Some (endian_name (def_endian d))));
   ("string-encoding", text_child "string-encoding" (Some (encoding_name (def_encoding d))));
   ("string-padding", text_child "string-padding" (Some (padding_name (def_padding d))));
   ("string-trim", text_child "string-trim" (Some (trim_name (def_trim d))));
   ("namespace", text_child "namespace" (def_namespace d))]%string.
Definition print_defaults (d : Defaults) : xml := Element "defaults" [] (flat_map snd (default_blocks d)) 0.

Lemma default_blocks_ok d : blocks_ok (default_blocks d).
Proof. repeat constructor. cbn. destruct (def_namespace d); by repeat constructor. Qed.

Lemma clean_default {A} n k (old a : A) (show : A -> string) f :
  children_named n k = text_child k (Some (show a)) -> (forall c, f c (show a) = Some (a, [])) -> default_text n k old f = Some (a, []).
Proof.
  intros Hn Hf. unfold default_text, child. rewrite Hn. cbn [text_child head]. rewrite text_of_nodes. apply Hf.
Qed.

Lemma parse_print_defaults d : parse_defaults path lines (print_defaults d) = Some (d, []).
Proof.
  pose proof (default_blocks_ok d) as Hb. unfold parse_defaults.
  clean by (apply (clean_default _ _ _ (def_endian d) endian_name); [by eapply children_blocks|intros c; apply clean_keyword; by destruct (def_endian d)]).
  clean by (apply (clean_default _ _ _ (def_encoding d) encoding_name); [by eapply children_blocks|intros c; apply clean_keyword; by destruct (def_encoding d)]).
  clean by (apply (clean_default _ _ _ (def_padding d) padding_name); [by eapply children_blocks|intros c; apply clean_keyword; by destruct (def_padding d)]).
  clean by (apply (clean_default _ _ _ (def_trim d) trim_name); [by eapply children_blocks|intros c; apply clean_keyword; by destruct (def_trim d)]).
  clean by (by apply clean_children, blocks_names).
  rewrite (clean_text _ _ (def_namespace d)) by by eapply children_blocks. by destruct d.
Qed.

Definition print_payload (p : PayloadDef) : xml :=
  Element "payload" (attrs [("count", if payload_is_array p then Some "*" else None); ("length-from", show_expr <$> payload_length_from p)]%string)
    [] (loc_offset (payload_loc p)).
Definition payload_ok (p : PayloadDef) : Prop := expr_ok show_expr (payload_loc p) (payload_length_from p) /\ located (payload_loc p).

Definition print_frame (f : FrameDef) : xml :=
  Element "frame" (attrs [("name", Some (frame_name f))]%string)
    (flat_map snd (info_blocks (frame_annotations f) (frame_doc f))
     ++ map print_child (header_fields f) ++ print_payload (frame_payload f) :: map print_child (footer_fields f)) (loc_offset (frame_loc f)).
Definition frame_ok (f : FrameDef) : Prop :=
  frame_name f <> ""%string /\ Forall child_ok (header_fields f) /\ payload_ok (frame_payload f) /\ Forall child_ok (footer_fields f)
  /\ Forall annotation_ok (frame_annotations f) /\ located (frame_loc f).

Local Notation frame_children := (frame_children as_double path lines).

(** What a frame has besides its payload and its children. *)
Lemma frame_quiet nm p l l' r :
  forallb (fun c => existsb (String.eqb (name c)) ["annotation"; "doc"]%string) l = true ->
  frame_children nm p l' = Some (r, []) -> frame_children nm p (l ++ l') = Some (r, []).
Proof.
  induction l as [|n l IH]; cbn [forallb app]; [done|]. intros [Hn Hl]%andb_true_iff Hr. cbn [XmlParser.frame_children].
  apply existsb_exists in Hn as (q & Hq & ->%String.eqb_eq). cbn in Hq.
  destruct Hq as [<-|[<-|[]]]; (clean by reflexivity; by apply IH).
Qed.

(** Children go before or after the payload. *)
Definition put (p : option PayloadDef) (kids : list StructChild) (r : list StructChild * option PayloadDef * list StructChild)
    : list StructChild * option PayloadDef * list StructChild :=
  let '(h, q, f) := r in match p with None => (kids ++ h, q, f) | Some _ => (h, q, kids ++ f) end.

Lemma frame_kids nm p kids l r :
  Forall child_ok kids -> frame_children nm p l = Some (r, []) ->
  frame_children nm p (map print_child kids ++ l) = Some (put p kids r, []).
Proof.
  intros Hk Hr. induction Hk as [|c kids Hc _ IH]; cbn [map app]; [by destruct r as [[h q] f], p|]. cbn [XmlParser.frame_children].
  assert (String.eqb (name (print_child c)) "payload" = false) as -> by by destruct c.
  pose proof (print_child_kid show_double show_expr c) as Hkid. unfold is_kid, kid_names in Hkid. rewrite Hkid.
  clean by (by apply parse_print_child). clean by exact IH. by destruct r as [[h q] f], p.
Qed.

Lemma parse_print_payload nm p l r :
  payload_ok p -> frame_children nm (Some p) l = Some (r, []) -> frame_children nm None (print_payload p :: l) = Some (r, []).
Proof.
  intros [He Hloc] Hr. cbn [XmlParser.frame_children]. assert (loc path lines (print_payload p) = payload_loc p) as Hl by (by apply located_loc).
  change (String.eqb (name (print_payload p)) "payload") with true. cbn iota.
  clean by (apply (clean_expr show_expr _ _ _ _ (payload_length_from p)); [look_up|by rewrite Hl]).
  clean by (apply clean_attrs, attrs_known; reflexivity). rewrite Hl.
  assert (attribute (print_payload p) "count" = if payload_is_array p then Some "*"%string else None) as -> by look_up.
  destruct p as [[] from l0]; exact Hr.
Qed.

(** The blocks of a frame are found by name, whatever follows them. *)
Lemma frame_named f k b :
  existsb (String.eqb k) kid_names = false -> String.eqb "payload" k = false ->
  block_named k (info_blocks (frame_annotations f) (frame_doc f)) = b ++ [] -> children_named (print_frame f) k = b.
Proof.
  intros Hk Hp Hb. unfold children_named. cbn [print_frame children].
  rewrite List.filter_app, pick_blocks, List.filter_app, pick_kids by (apply info_blocks_ok || apply kids_are_kids || done).
  cbn [List.filter named print_payload app]. rewrite Hp, pick_kids, Hb by (apply kids_are_kids || done). by rewrite !app_nil_r.
Qed.

Lemma parse_print_frame f : frame_ok f -> parse_frame as_double path lines (print_frame f) = Some (f, []).
Proof.
  intros (Hn & Hh & Hp & Hf & Hanns & Hloc). unfold parse_frame. rewrite (located_loc _ _ _ (frame_loc f)) by done.
  assert (attr_value (print_frame f) "name" = frame_name f) as -> by look_up.
  clean by (by apply clean_error_if, String.eqb_neq).
  assert (frame_children (frame_name f) (Some (frame_payload f)) (map print_child (footer_fields f))
    = Some ([], Some (frame_payload f), footer_fields f, [])) as Hfoot.
  { rewrite <- (app_nil_r (map _ _)). rewrite (frame_kids _ _ _ _ ([], Some (frame_payload f), [])) by done. cbn [put]. by rewrite app_nil_r. }
  clean by (apply frame_quiet; [apply blocks_names; [apply info_blocks_ok|done]|];
    apply frame_kids; [done|]; apply parse_print_payload; [done|exact Hfoot]).
  clean by reflexivity.
  clean by (apply (clean_annotations _ _ _ (frame_annotations f)); [by apply frame_named|done]).
  clean by (apply clean_attrs, attrs_known; reflexivity).
  rewrite (clean_doc _ (frame_doc f)) by by apply frame_named. rewrite app_nil_r. by destruct f.
Qed.

(** ** Blocks of definitions *)

Definition block {A} (k : string) (print : A -> xml) (l : list A) : list xml := [Element k [] (map print l) 0].

Definition print_def (d : TypeDef + StructDef) : xml :=
  match d with
  | inl t => print_type show_double t
  | inr s => print_struct show_expr (map print_child (sd_children s)) s
  end.
Definition def_ok (d : TypeDef + StructDef) : Prop :=
  match d with
  | inl t => type_ok as_double show_double path lines t
  | inr s => struct_ok show_expr path lines s /\ Forall child_ok (sd_children s)
  end.

(** The types come before the structs. *)
Definition defs_of (f : BmdlFile) : list (TypeDef + StructDef) := map inl (file_types f) ++ map inr (file_structs f).

Definition definition_blocks (f : BmdlFile) : list (string * list xml) :=
  [("constants", block "constants" print_const (file_constants f)); ("types", block "types" print_def (defs_of f));
   ("messages", block "messages" print_message (file_messages f)); ("frame", map print_frame (file_frames f))]%string.

Lemma definition_blocks_ok f : blocks_ok (definition_blocks f).
Proof. repeat constructor. cbn. apply Forall_map, Forall_true. done. Qed.

Lemma clean_each_map {A B C} (g : B -> X C) (print : A -> B) (h : A -> C) l :
  (forall x, x ∈ l -> g (print x) = Some (h x, [])) -> each g (map print l) = Some (map h l, []).
Proof.
  induction l as [|x l IH]; intros Hg; cbn [each map]; [done|]. clean by (apply Hg; by left).
  clean by (apply IH; intros y Hy; apply Hg; by right). done.
Qed.

Lemma clean_elements {A} (g : xml -> X A) (print : A -> xml) (ok : A -> Prop) l :
  (forall x, ok x -> g (print x) = Some (x, [])) -> Forall ok l -> each g (map print l) = Some (l, []).
Proof.
  intros Hg Hl. rewrite Forall_forall in Hl. rewrite <- (map_id l) at 2. apply clean_each_map. intros x Hx. by apply Hg, Hl.
Qed.

Lemma clean_in_blocks {A} n k (print : A -> xml) (ok : A -> Prop) (g : xml -> option (X A)) l :
  children_named n k = block k print l -> (forall x, ok x -> g (print x) = Some (Some (x, []))) -> Forall ok l ->
  in_blocks path lines n k g = Some (l, []).
Proof.
  intros Hn Hg Hl. unfold in_blocks. rewrite Hn. cbn [block flat_map children]. rewrite app_nil_r. rewrite Forall_forall in Hl.
  clean by (apply (clean_each_map _ print Some); intros x Hx; by rewrite (Hg x (Hl x Hx))).
  change (Some (omap id (map Some l), []) = Some (l, [] : list XmlParseError)). do 2 f_equal. clear.
  induction l as [|x l IH]; cbn; [done|by f_equal].
Qed.

Record defs_ok (f : BmdlFile) : Prop := {
  do_constants : Forall const_ok (file_constants f); do_defs : Forall def_ok (defs_of f);
  do_messages : Forall message_ok (file_messages f); do_frames : Forall frame_ok (file_frames f)
}.

Definition definitions_of (f : BmdlFile) : Definitions :=
  mkDefinitions (file_constants f) (file_types f) (file_structs f) (file_messages f) (file_frames f).

Lemma parse_print_def d : def_ok d ->
  (if String.eqb (name (print_def d)) "type" then Some (t ← parse_type as_double path lines (print_def d); mret (inl t))
   else if String.eqb (name (print_def d)) "struct"
     then Some (s ← parse_struct path lines (parse_struct_children as_double path lines (print_def d)) (print_def d); mret (inr s))
   else None) = Some (Some (d, [])).
Proof.
  destruct d as [t|s]; cbn [def_ok print_def].
  - intros Ht. change (name (print_type show_double t)) with "type"%string. cbn [String.eqb Ascii.eqb Bool.eqb]. f_equal.
    clean by (by apply parse_print_type). done.
  - intros [Hs Hk]. change (name (print_struct _ _ s)) with "struct"%string. cbn [String.eqb Ascii.eqb Bool.eqb]. f_equal.
    clean by (apply parse_print_struct; [done|apply kids_are_kids|by apply parse_print_children]). done.
Qed.

Lemma types_of_defs (ts : list TypeDef) (ss : list StructDef) :
  omap (fun d => match d with inl t => Some t | inr _ => None end) (map inl ts ++ map inr ss) = ts
  /\ omap (fun d => match d with inl _ => None | inr s => Some s end) (map inl ts ++ map inr ss) = ss.
Proof.
  rewrite !omap_app. split.
  - induction ts as [|t ts IH]; cbn; [by induction ss|]. by f_equal.
  - induction ts as [|t ts IH]; cbn; [|done]. induction ss as [|s' ss IH]; cbn; [done|by f_equal].
Qed.

Lemma parse_print_definitions f n :
  defs_ok f -> (forall k, existsb (String.eqb k) ["constants"; "types"; "messages"; "frame"]%string = true ->
    children_named n k = block_named k (definition_blocks f)) ->
  parse_definitions as_double path lines n = Some (definitions_of f, []).
Proof.
  intros [Hc Hd Hm Hf] Hn. unfold parse_definitions.
  clean by (apply (clean_in_blocks _ _ print_const const_ok _ (file_constants f)); [by apply Hn| |exact Hc];
    intros c Hok; cbn; f_equal; by apply parse_print_const).
  clean by (apply (clean_in_blocks _ _ print_def def_ok _ (defs_of f)); [by apply Hn|apply parse_print_def|exact Hd]).
  clean by (apply (clean_in_blocks _ _ print_message message_ok _ (file_messages f)); [by apply Hn| |exact Hm];
    intros m Hok; cbn; f_equal; by apply parse_print_message).
  rewrite (Hn "frame"%string eq_refl). cbn [block_named definition_blocks flat_map fst snd String.eqb Ascii.eqb Bool.eqb app]. rewrite app_nil_r.
  clean by (by apply (clean_elements _ print_frame frame_ok); [apply parse_print_frame|]).
  unfold defs_of. destruct (types_of_defs (file_types f) (file_structs f)) as [-> ->]. done.
Qed.

(** ** The file

    A file with a protocol is written with a [<protocol>] element, one without as a
    library. *)

Definition protocol_blocks (f : BmdlFile) : list (string * list xml) :=
  [("defaults", [print_defaults (file_defaults f)]); ("import", map print_import (file_imports f));
   ("doc", text_child "doc" (nonempty (file_doc f)))]%string ++ definition_blocks f.
Definition library_blocks (f : BmdlFile) : list (string * list xml) :=
  ("import"%string, map print_import (file_imports f)) :: definition_blocks f.

Definition print_protocol (f : BmdlFile) : xml :=
  Element "protocol" (attrs [("name", Some (protocol_name f)); ("version", Some (protocol_version f))]%string) (flat_map snd (protocol_blocks f)) 0.

Definition print_file (f : BmdlFile) : xml :=
  Element "bmdl" (attrs [("version"%string, Some (file_bmdl_version f))])
    (if has_protocol f then [print_protocol f] else flat_map snd (library_blocks f)) (loc_offset (file_loc f)).

Record file_ok (f : BmdlFile) : Prop := {
  fio_path : file_path f = path;
  fio_imports : Forall import_ok (file_imports f); fio_defs : defs_ok f;
  (** A library has no protocol to describe. *)
  fio_library : has_protocol f = false ->
    protocol_name f = ""%string /\ protocol_version f = ""%string /\ file_defaults f = new_defaults /\ file_doc f = ""%string;
  fio_warnings : file_warnings f =
    if String.eqb (file_bmdl_version f) "2.0" then [] else [(unsupported_version (file_bmdl_version f), file_loc f)];
  fio_loc : located (file_loc f)
}.

Lemma protocol_blocks_ok f : blocks_ok (protocol_blocks f).
Proof.
  apply Forall_app. split; [|apply definition_blocks_ok]. repeat constructor; cbn; [apply Forall_map, Forall_true; done|].
  destruct (nonempty (file_doc f)); by repeat constructor.
Qed.

Lemma library_blocks_ok f : blocks_ok (library_blocks f).
Proof. constructor; [apply Forall_map, Forall_true; done|apply definition_blocks_ok]. Qed.

(** The definitions of a file, wherever they are written. *)
Lemma definitions_named pre f n :
  blocks_ok (pre ++ definition_blocks f) -> children n = flat_map snd (pre ++ definition_blocks f) ->
  forallb (fun b => negb (existsb (String.eqb b.1) ["constants"; "types"; "messages"; "frame"]%string)) pre = true ->
  forall k, existsb (String.eqb k) ["constants"; "types"; "messages"; "frame"]%string = true ->
  children_named n k = block_named k (definition_blocks f).
Proof.
  intros Hb Hn Hpre k Hk. unfold children_named. rewrite Hn, pick_blocks by done. unfold block_named. rewrite flat_map_app.
  assert (flat_map (fun b => if String.eqb b.1 k then b.2 else []) pre = []) as ->; [|done].
  clear Hb Hn. induction pre as [|b pre IH]; [done|]. cbn [forallb flat_map] in *. apply andb_true_iff in Hpre as [Hnb Hpre].
  destruct (String.eqb_spec b.1 k) as [E|_]; [by rewrite E, Hk in Hnb|]. by apply IH.
Qed.

Definition header_of (f : BmdlFile) : Header :=
  mkHeader (has_protocol f) (protocol_name f) (protocol_version f) (file_defaults f) (file_doc f) (file_imports f).

Lemma parse_print_imports n f : file_ok f -> children_named n "import" = map print_import (file_imports f) ->
  each (parse_import path lines) (children_named n "import") = Some (file_imports f, []).
Proof. intros Hf ->. apply (clean_elements _ print_import import_ok); [apply parse_print_import|apply Hf]. Qed.

Lemma parse_print_protocol f v :
  file_ok f -> has_protocol f = true ->
  parse_contents as_double path lines (print_file f) v [] = Some (header_of f, definitions_of f, []).
Proof.
  intros Hf Hp. pose proof (protocol_blocks_ok f) as Hb. unfold parse_contents.
  assert (child (print_file f) "protocol" = Some (print_protocol f)) as -> by (unfold print_file; by rewrite Hp).
  assert (attribute (print_protocol f) "name" = Some (protocol_name f)) as Hn by look_up.
  assert (attribute (print_protocol f) "version" = Some (protocol_version f)) as Hv by look_up.
  unfold attr_value. rewrite Hn, Hv. do 2 clean by reflexivity. clean by (apply clean_attrs, attrs_known; reflexivity).
  assert (child (print_protocol f) "defaults" = Some (print_defaults (file_defaults f))) as ->
    by exact (child_blocks _ _ _ _ "defaults" Hb).
  clean by apply parse_print_defaults.
  clean by (apply parse_print_imports; [done|by eapply children_blocks]).
  clean by (apply (parse_print_definitions f); [apply Hf|]; by eapply definitions_named).
  clean by (by apply clean_children, blocks_names).
  rewrite (clean_doc _ (file_doc f)) by by eapply children_blocks. unfold header_of. by rewrite Hp.
Qed.

Lemma parse_print_library f v :
  file_ok f -> has_protocol f = false ->
  parse_contents as_double path lines (print_file f) v (file_imports f) = Some (header_of f, definitions_of f, []).
Proof.
  intros Hf Hp. pose proof (library_blocks_ok f) as Hb. unfold parse_contents.
  assert (children (print_file f) = flat_map snd (library_blocks f)) as Hc by (unfold print_file; by rewrite Hp).
  assert (forall k, children_named (print_file f) k = block_named k (library_blocks f)) as Hk.
  { intros k. unfold children_named. by rewrite Hc, pick_blocks. }
  unfold child. rewrite !Hk. cbn [block_named library_blocks definition_blocks flat_map fst snd String.eqb Ascii.eqb Bool.eqb app head].
  clean by (apply (parse_print_definitions f); [apply Hf|]; by apply (definitions_named [_] f _ Hb Hc)).
  clean by (apply clean_children; rewrite Hc; by apply blocks_names).
  destruct (fio_library f Hf Hp) as (Hn & Hv & Hd & Hdoc). unfold header_of. by rewrite Hp, Hn, Hv, Hd, Hdoc.
Qed.

Lemma parse_print_root f : file_ok f -> parse_root as_double path lines (print_file f) = Some (f, []).
Proof.
  intros Hf. unfold parse_root. rewrite (located_loc _ _ _ (file_loc f)) by (done || apply Hf).
  assert (attribute (print_file f) "version" = Some (file_bmdl_version f)) as Hv by look_up.
  unfold attr_value. rewrite Hv. clean by reflexivity. clean by (apply clean_attrs, attrs_known; reflexivity).
  clean by (instantiate (1 := if has_protocol f then [] else file_imports f)).
  { destruct (has_protocol f) eqn:Hp; [|apply parse_print_imports; [done|]].
    - assert (children_named (print_file f) "import" = []) as -> by (unfold print_file, children_named; by rewrite Hp). done.
    - unfold children_named. cbn [print_file children]. rewrite Hp, pick_blocks by apply library_blocks_ok. exact (app_nil_r _). }
  clean by (instantiate (1 := (header_of f, definitions_of f))).
  { destruct (has_protocol f) eqn:Hp; [by apply parse_print_protocol|by apply parse_print_library]. }
  cbn [header_of definitions_of h_has_protocol h_name h_version h_defaults h_doc h_imports d_constants d_types d_structs d_messages d_frames default from_option id].
  rewrite <- (fio_path f Hf). pose proof (fio_warnings f Hf) as Hw. destruct f; cbn in *. rewrite Hw. by destruct (String.eqb _ _).
Qed.
End file.

(** C14: if the document the XML library makes of a file's content is what
    [print_file] writes for a description that can be written, then
    [parse_bmdl_file] reports no error and returns exactly that description: the
    attributes of every kind of element, their children in order at any depth, the
    blocks of definitions and every location. *)
Theorem xml_roundtrip as_double show_double show_expr read_file load_file load_buffer path content f :
  read_file path = Some content -> content <> ""%string ->
  load_buffer content = inr [print_file show_double show_expr f] ->
  file_ok as_double show_double show_expr path (line_starts content) f ->
  parse_bmdl_file as_double read_file load_file load_buffer path = Some (inr f).
Proof.
  intros Hr Hne Hl Hf. unfold parse_bmdl_file. rewrite Hr. cbn [default from_option id].
  unfold is_empty. rewrite (proj2 (String.eqb_neq _ _)), Hl by done. cbn [List.find named print_file].
  change (Element "bmdl" _ _ _) with (print_file show_double show_expr f). cbn [String.eqb Ascii.eqb Bool.eqb].
  by rewrite (parse_print_root _ _ _ _ _ f Hf).
Qed.

(** ** A description with every kind of element *)

Definition at_offset (o : Z) : SourceLoc := mkLoc "a.xml" o 1 (o + 1).
Definition sample_expr (o : Z) : Expr := mkExpr FieldRef 0 false (txt "len") None None (at_offset o).
Definition sample_show (e : Expr) : string := str (ExprParser.name e).
Definition sample_double (s : string) : spec_float := S754_zero false.

Definition sample_field (nm : string) (o : Z) : Field :=
  mkField nm "" true (Some 8) None false (Some BaseUint) (Some (S754_zero false)) None (Some "kt"%string) [mkEnumValue "on" 1 (at_offset (o + 1))] []
    (Some (mkConstraint None (Some "0"%string) (Some "9"%string) Immediate (at_offset (o + 2)))) None (Some (sample_expr o)) None false None None false
    None None None None None None EndianLittle true FmtDecimal false (Some BCD) false None None None [mkAnnotation "unit" "kt"] "speed" (at_offset o).

Definition sample_choice : ChoiceDef :=
  mkChoiceDef "body" (Some (sample_expr 30))
    [mkCaseDef "a" "" [ChField (sample_field "x" 40); ChReserved (mkReserved 4 (at_offset 50)); ChAlign (mkAlign 8 (at_offset 60))]
       (Some "1"%string) None DirSend None [] "" (at_offset 35)]
    (Some (mkOtherwiseDef "" "Other" [] None [] "" (at_offset 70))) None None None None None [] "" (at_offset 30).

Definition sample_children : list StructChild :=
  [ChField (sample_field "len" 20); ChChoice sample_choice;
   ChArray (mkArrayDef "items" "" [ChFx (mkFxBlock [ChField (sample_field "y" 90)] (at_offset 85))] (Some 3) None false false
     None None None None None [] "" (at_offset 80));
   ChStruct (mkStructDef "inner" [] true 16 (Some 7) EndianLittle None None None true [] "" (at_offset 100))].

Definition sample_file : BmdlFile :=
  mkFile "a.xml" "2.0" true "demo" "1.0" (mkDefaults EndianLittle EncUtf8 PadSpace TrimBoth (Some "ns"%string)) "a demo"
    [mkImportDef "b.xml" (Some "b"%string) (at_offset 3)]
    [mkConstDef "MAX" "u8" "9" [] "" (at_offset 5)]
    [mkTypeDef "u8" BaseUint 8 EndianBig false FmtHex true WireDefault false None None None [] [] None None EncAscii false PadNull false
       TrimRight false None None None [] "" (at_offset 7)]
    [mkStructDef "s" sample_children false 8 None EndianBig None None None false [] "" (at_offset 9)]
    [mkMessageDef "m" sample_children "1" DirReceive false [] "" (at_offset 11)]
    [mkFrameDef "fr" [ChField (sample_field "h" 13)] (mkPayload true (Some (sample_expr 15)) (at_offset 15)) [] [] "" (at_offset 12)]
    [] (at_offset 0).

(** An optional part of the sample. *)
Ltac sample_part := let z := fresh "z" in let Hz := fresh "Hz" in intros z Hz; cbn in Hz; first [discriminate Hz|injection Hz as <-].

(** What holds of the sample by computation. *)
Ltac sample :=
  repeat lazymatch goal with
  | |- Forall _ _ => constructor
  | |- _ /\ _ => split
  | |- values_ok _ _ _ _ _ _ _ _ _ => constructor
  | |- int_ok _ => sample_part
  | |- nonneg_ok _ => sample_part
  | |- double_ok _ _ _ => sample_part
  | |- expr_ok _ _ _ => sample_part
  | |- value_ok _ _ _ => split
  | |- annotation_ok _ => discriminate
  | |- located _ _ _ => vm_compute; reflexivity
  | |- _ = None \/ _ = None => first [left; reflexivity|right; reflexivity]
  | |- _ <> _ => discriminate
  | |- forall d : Constraint, _ => sample_part
  | |- _ <= _ => vm_compute; discriminate
  | |- if _ then _ else _ => cbn
  | |- _ <> _ -> _ => let H := fresh in intros H; first [reflexivity|destruct H; reflexivity]
  | |- _ -> _ => first [discriminate|intros _]
  | |- _ = _ => vm_compute; reflexivity
  end.

Definition sample_lines : list Z := line_starts "<bmdl/>".
Definition no_show (d : spec_float) : string := "0".

Lemma sample_field_ok nm o :
  nm <> ""%string -> In o [13; 20; 40; 90] -> field_ok sample_double no_show sample_show "a.xml" sample_lines (sample_field nm o).
Proof. intros Hnm [<-|[<-|[<-|[<-|[]]]]]; (constructor; [exact Hnm|sample..]). Qed.

Lemma sample_child_ok nm o :
  nm <> ""%string -> In o [13; 20; 40; 90] -> child_ok sample_double no_show sample_show "a.xml" sample_lines (ChField (sample_field nm o)).
Proof. intros Hnm Ho. constructor. by apply sample_field_ok. Qed.

Lemma sample_children_ok : Forall (child_ok sample_double no_show sample_show "a.xml" sample_lines) sample_children.
Proof.
  repeat (apply Forall_cons; split); [| | | |constructor].
  - apply sample_child_ok; [done|cbn; tauto].
  - constructor.
    + constructor; sample.
    + repeat constructor; done.
    + constructor; [|constructor]. repeat (apply Forall_cons; split); [apply sample_child_ok; [done|cbn; tauto]| | |constructor];
        constructor; split_and!; vm_compute; reflexivity.
    + intros o [= <-]. constructor; sample.
    + intros o [= <-]. constructor.
  - constructor; [constructor; sample|]. constructor; [|constructor]. constructor; [reflexivity|].
    constructor; [|constructor]. apply sample_child_ok; [done|cbn; tauto].
  - constructor; [constructor; sample|constructor].
Qed.

Lemma sample_file_ok : file_ok sample_double no_show sample_show "a.xml" sample_lines sample_file.
Proof.
  constructor; [reflexivity| | |done|reflexivity|reflexivity].
  - constructor; [split; [done|reflexivity]|constructor].
  - constructor.
    + constructor; [|constructor]. split_and!; try discriminate; [constructor|reflexivity].
    + constructor; [|constructor; [|constructor]]; [constructor; sample|].
      split; [constructor; sample|apply sample_children_ok].
    + constructor; [|constructor]. split_and!; [done|apply sample_children_ok|constructor|reflexivity].
    + constructor; [|constructor]. split_and!; [done| |split; [sample|reflexivity]|constructor|constructor|reflexivity].
      constructor; [|constructor]. apply sample_child_ok; [done|cbn; tauto].
Qed.

Lemma xml_roundtrip_witness :
  parse_bmdl_file sample_double (fun _ => Some "<bmdl/>"%string) (fun _ => inr []) (fun _ => inr [print_file no_show sample_show sample_file]) "a.xml"
  = Some (inr sample_file).
Proof.
  apply (xml_roundtrip sample_double no_show sample_show _ _ _ _ "<bmdl/>"); [reflexivity|discriminate|reflexivity|exact sample_file_ok].
Defined.
