(* ===== verification/TypeResolver.v ===== *)
(** * The type resolver

    Models [conduit/bgen/src/analyzer/type_resolver.hpp] and
    [type_resolver.cpp]: the tables of the names a protocol declares, the check
    of every type reference, and what fields inherit from their types.  The
    tables hold pointers into the protocol's vectors; a pointer is the position
    of the definition.  The hash maps are iterated in the order of
    [map_to_list].  The result is undefined ([None]) only where
    [parse_literal] is. *)

From stdpp Require Import base numbers list gmap strings.
From Stdlib Require Import ZArith Lia.
From S2P Require Import Prelude CharConv AutoExpr ExprParser Ast AstBuilder.

Open Scope Z_scope.

Record ResolveError := mkResolveError { res_message : string; res_error_loc : SourceLoc }.

Inductive ResolvedDef := RType (i : nat) | RStruct (i : nat) | RMessage (i : nat).

Record TypeIndex := mkIndex {
  idx_types : gmap string nat;
  idx_structs : gmap string nat;
  idx_messages : gmap string nat;
  idx_constants : gmap string nat;
  idx_frames : gmap string nat;
}.

Definition find (idx : TypeIndex) (name : string) : option ResolvedDef :=
  match idx_types idx !! name with
  | Some i => Some (RType i)
  | None =>
      match idx_structs idx !! name with
      | Some i => Some (RStruct i)
      | None => RMessage <$> idx_messages idx !! name
      end
  end.

Inductive ResolveResult := Resolved (idx : TypeIndex) | Unresolved (errors : list ResolveError).

(** ** The tables *)

(** One of the loops that fill a table; [i] is the position of the head. *)
Fixpoint add_names (what : string) (i : nat) (defs : list (string * SourceLoc)) (m : gmap string nat)
    : gmap string nat * list ResolveError :=
  match defs with
  | [] => (m, [])
  | (n, l) :: defs =>
      match m !! n with
      | Some _ =>
          let '(m, es) := add_names what (S i) defs m in
          (m, mkResolveError ("duplicate " +:+ what +:+ " name: " +:+ n) l :: es)
      | None => add_names what (S i) defs (<[n := i]> m)
      end
  end.

Definition validate_type_ref (idx : TypeIndex) (ref : string) (loc : SourceLoc) : list ResolveError :=
  if String.eqb ref "bytes" || String.eqb ref "string" then []
  else match find idx ref with
  | Some _ => []
  | None => [mkResolveError ("unresolved type reference: " +:+ ref) loc]
  end.

(** [if (!ref.empty()) validate_type_ref(ref, loc)]. *)
Definition validate_ref (idx : TypeIndex) (ref : string) (loc : SourceLoc) : list ResolveError :=
  if String.eqb ref "" then [] else validate_type_ref idx ref loc.

(** The loop over the constants: each is entered and its type checked. *)
Fixpoint add_constants (idx : TypeIndex) (i : nat) (cs : list ConstDef) (m : gmap string nat)
    : gmap string nat * list ResolveError :=
  match cs with
  | [] => (m, [])
  | c :: cs =>
      let '(m, es1) := add_names "constant" i [(const_name c, const_loc c)] m in
      let es2 := validate_ref idx (const_type_ref c) (const_loc c) in
      let '(m, es3) := add_constants idx (S i) cs m in
      (m, es1 ++ es2 ++ es3)
  end.

(** The [loc] of the definition a table points to. *)
Definition loc_of {A} (loc : A -> SourceLoc) (defs : list A) (i : nat) : SourceLoc :=
  match defs !! i with Some d => loc d | None => no_loc "" end.

(** Cross-category collisions. *)
Definition collisions (p : Protocol) (idx : TypeIndex) : list ResolveError :=
  flat_map (fun '(n, i) =>
      let l := loc_of td_loc (proto_types p) i in
      match idx_structs idx !! n with
      | Some _ => [mkResolveError ("name '" +:+ n +:+ "' defined as both type and struct") l] | None => [] end
      ++ match idx_messages idx !! n with
         | Some _ => [mkResolveError ("name '" +:+ n +:+ "' defined as both type and message") l] | None => [] end)
    (map_to_list (idx_types idx))
  ++ flat_map (fun '(n, i) =>
      match idx_messages idx !! n with
      | Some _ => [mkResolveError ("name '" +:+ n +:+ "' defined as both struct and message")
                     (loc_of sd_loc (proto_structs p) i)]
      | None => []
      end) (map_to_list (idx_structs idx)).

Definition validate_field_ref (idx : TypeIndex) (f : Field) : list ResolveError :=
  validate_ref idx (f_type_ref f) (f_loc f).

Definition validate_children (idx : TypeIndex) : list StructChild -> list ResolveError :=
  collect (validate_field_ref idx) (validate_ref idx).

(** ** Inheritance *)

Definition inherit_field (td : TypeDef) (f : Field) : Field :=
  let f := if negb (f_endian_explicit f) && td_endian_explicit td then set_endian (td_endian td) f else f in
  if negb (f_format_explicit f) && td_format_explicit td then set_format (td_format td) f else f.

Definition is_some {A} (o : option A) : bool := match o with Some _ => true | None => false end.

(** Both bounds are literals and the field's is beyond the type's. *)
Definition relaxes (beyond : Z -> Z -> bool) (field type : option string) : option bool :=
  match type, field with
  | Some t, Some f =>
      type_v ← parse_literal (txt t);
      field_v ← parse_literal (txt f);
      Some (match type_v, field_v with Some tv, Some fv => beyond fv tv | _, _ => false end)
  | _, _ => Some false
  end.

Definition constraint_errors (td : TypeDef) (f : Field) (tc fc : Constraint) : option (list ResolveError) :=
  let e1 := match equals tc, equals fc with
    | Some a, Some b =>
        if String.eqb a b then [] else
        [mkResolveError ("field '" +:+ f_name f +:+ "' constraint conflicts with type '" +:+ td_name td
           +:+ "' constraint") (f_loc f)]
    | _, _ => []
    end in
  lo ← relaxes Z.ltb (min_ fc) (min_ tc);
  hi ← relaxes Z.gtb (max_ fc) (max_ tc);
  Some (e1
    ++ (if lo : bool then [mkResolveError ("field '" +:+ f_name f +:+ "' constraint min ("
          +:+ default "" (min_ fc) +:+ ") is less than type '" +:+ td_name td +:+ "' min ("
          +:+ default "" (min_ tc) +:+ ")") (f_loc f)] else [])
    ++ (if hi : bool then [mkResolveError ("field '" +:+ f_name f +:+ "' constraint max ("
          +:+ default "" (max_ fc) +:+ ") exceeds type '" +:+ td_name td +:+ "' max ("
          +:+ default "" (max_ tc) +:+ ")") (f_loc f)] else [])).

Definition inheritance_errors (td : TypeDef) (f : Field) : option (list ResolveError) :=
  let e1 := if (is_some (f_scale f) || is_some (f_offset f)) && (is_some (td_scale td) || is_some (td_offset td))
    then [mkResolveError ("field '" +:+ f_name f +:+ "' and type '" +:+ td_name td +:+ "' both define scale/offset")
            (f_loc f)]
    else [] in
  match f_constraint f, td_constraint td with
  | Some fc, Some tc => es ← constraint_errors td f tc fc; Some (e1 ++ es)
  | _, _ => Some e1
  end.

(** [index_.types.find(f.type_ref)], dereferenced. *)
Definition field_type (p : Protocol) (idx : TypeIndex) (f : Field) : option TypeDef :=
  if String.eqb (f_type_ref f) "" then None
  else i ← idx_types idx !! f_type_ref f; proto_types p !! i.

Definition apply_inheritance_to_field (p : Protocol) (idx : TypeIndex) (f : Field)
    : option (Field * list ResolveError) :=
  match field_type p idx f with
  | None => Some (f, [])
  | Some td => es ← inheritance_errors td f; Some (inherit_field td f, es)
  end.

(** The edit and the errors of [apply_inheritance_to_children]: a field's errors
    depend on what is not edited. *)
Definition inherited (p : Protocol) (idx : TypeIndex) (f : Field) : Field :=
  match field_type p idx f with None => f | Some td => inherit_field td f end.

Definition field_errors (p : Protocol) (idx : TypeIndex) (f : Field) : option (list ResolveError) :=
  snd <$> apply_inheritance_to_field p idx f.

Definition apply_inheritance_to_children (p : Protocol) (idx : TypeIndex) (l : list StructChild)
    : option (list StructChild * list ResolveError) :=
  es ← mapM (field_errors p idx) (fields_of l);
  Some (map (map_child (inherited p idx)) l, concat es).

(** The same over all messages, structs and frames. *)
Definition inherit_protocol (p : Protocol) (idx : TypeIndex) : Protocol :=
  let g := map (map_child (inherited p idx)) in
  mkProtocol (proto_name p) (proto_version p) (proto_bmdl_version p) (proto_defaults p) (proto_imports p)
    (proto_constants p) (proto_types p)
    (map (fun s => set_sd_children (g (sd_children s)) s) (proto_structs p))
    (map (fun m => set_msg_children (g (msg_children m)) m) (proto_messages p))
    (map (fun f => set_frame_children (g (header_fields f)) (g (footer_fields f)) f) (proto_frames p))
    (proto_warnings p) (proto_doc p) (proto_loc p).

(** ** [resolve] *)

Definition named {A} (name : A -> string) (loc : A -> SourceLoc) (l : list A) : list (string * SourceLoc) :=
  map (fun d => (name d, loc d)) l.

Definition resolve_types (p : Protocol) : option (ResolveResult * Protocol) :=
  let '(types, e1) := add_names "type" 0 (named td_name td_loc (proto_types p)) ∅ in
  let '(structs, e2) := add_names "struct" 0 (named sd_name sd_loc (proto_structs p)) ∅ in
  let '(messages, e3) := add_names "message" 0 (named msg_name msg_loc (proto_messages p)) ∅ in
  let '(constants, e4) := add_constants (mkIndex types structs messages ∅ ∅) 0 (proto_constants p) ∅ in
  let '(frames, e5) := add_names "frame" 0 (named frame_name frame_loc (proto_frames p)) ∅ in
  let idx := mkIndex types structs messages constants frames in
  let e6 := collisions p idx in
  let e7 := validate_children idx (all_children p) in
  '(_, e8) ← apply_inheritance_to_children p idx (all_children p);
  let errors := e1 ++ e2 ++ e3 ++ e4 ++ e5 ++ e6 ++ e7 ++ e8 in
  Some (match errors with [] => Resolved idx | _ => Unresolved errors end, inherit_protocol p idx).

(** ** Well-formed protocols *)

Definition type_names (p : Protocol) : list string := map td_name (proto_types p).
Definition struct_names (p : Protocol) : list string := map sd_name (proto_structs p).
Definition message_names (p : Protocol) : list string := map msg_name (proto_messages p).

(** The references of fields, arrays and choice branches, at any depth. *)
Definition all_refs (p : Protocol) : list (string * SourceLoc) :=
  collect (fun f => [(f_type_ref f, f_loc f)]) (fun r loc => [(r, loc)]) (all_children p).

Definition ref_ok (p : Protocol) (r : string) : Prop :=
  r = "" \/ r = "bytes" \/ r = "string" \/ r ∈ type_names p ++ struct_names p ++ message_names p.

(** The type a field refers to. *)
Definition declared_type (p : Protocol) (f : Field) : option TypeDef :=
  if String.eqb (f_type_ref f) "" then None
  else snd <$> list_find (fun td => td_name td = f_type_ref f) (proto_types p).

Definition bound_within (le : Z -> Z -> Prop) (type field : option string) : Prop :=
  forall t f tv fv, type = Some t -> field = Some f ->
    parse_literal (txt t) = Some (Some tv) -> parse_literal (txt f) = Some (Some fv) -> le tv fv.

(** A field may scale or constrain only what its type leaves open. *)
Record compatible (td : TypeDef) (f : Field) : Prop := {
  compat_scale : f_scale f = None /\ f_offset f = None \/ td_scale td = None /\ td_offset td = None;
  compat_equals : forall tc fc a b, td_constraint td = Some tc -> f_constraint f = Some fc ->
    equals tc = Some a -> equals fc = Some b -> a = b;
  compat_min : forall tc fc, td_constraint td = Some tc -> f_constraint f = Some fc ->
    bound_within Z.le (min_ tc) (min_ fc);
  compat_max : forall tc fc, td_constraint td = Some tc -> f_constraint f = Some fc ->
    bound_within Z.ge (max_ tc) (max_ fc);
}.

Record well_formed (p : Protocol) : Prop := {
  wf_types : NoDup (type_names p);
  wf_structs : NoDup (struct_names p);
  wf_messages : NoDup (message_names p);
  wf_constants : NoDup (map const_name (proto_constants p));
  wf_frames : NoDup (map frame_name (proto_frames p));
  wf_type_struct : forall n, n ∈ type_names p -> n ∉ struct_names p;
  wf_type_message : forall n, n ∈ type_names p -> n ∉ message_names p;
  wf_struct_message : forall n, n ∈ struct_names p -> n ∉ message_names p;
  wf_constant_refs : Forall (fun c => ref_ok p (const_type_ref c)) (proto_constants p);
  wf_refs : Forall (fun r => ref_ok p r.1) (all_refs p);
  wf_fields : forall f td, f ∈ protocol_fields p -> declared_type p f = Some td -> compatible td f;
}.

(** The three kinds of definitions a reference may name share no name. *)
Definition distinct_names (p : Protocol) : Prop := NoDup (type_names p ++ struct_names p ++ message_names p).

Lemma well_formed_distinct p : well_formed p -> distinct_names p.
Proof.
  intros [H1 H2 H3 _ _ H4 H5 H6 _ _ _]. apply NoDup_app. split; [done|]. split.
  - intros n Hn [Hs|Hm]%elem_of_app; [by apply (H4 n)|by apply (H5 n)].
  - apply NoDup_app. split; [done|]. split; [done|done].
Qed.

(** No bound of a constraint is a literal on which [parse_literal] overflows. *)
Definition bounds_of (c : option Constraint) : list (option string) :=
  match c with Some c => [min_ c; max_ c] | None => [] end.
Definition bounds_defined (c : option Constraint) : Prop :=
  forall s, Some s ∈ bounds_of c -> parse_literal (txt s) <> None.
Definition literals_defined (p : Protocol) : Prop :=
  (forall td, td ∈ proto_types p -> bounds_defined (td_constraint td))
  /\ (forall f, f ∈ protocol_fields p -> bounds_defined (f_constraint f)).

(** The same by evaluation. *)
Definition literals_checked (p : Protocol) : bool :=
  forallb (fun c => forallb (fun b => match b with Some s => match parse_literal (txt s) with Some _ => true | None => false end | None => true end)
                      (bounds_of c))
    (map td_constraint (proto_types p) ++ map f_constraint (protocol_fields p)).

Lemma literals_checked_defined p : literals_checked p = true -> literals_defined p.
Proof.
  unfold literals_checked. rewrite forallb_forall. intros H.
  assert (forall c, c ∈ map td_constraint (proto_types p) ++ map f_constraint (protocol_fields p) -> bounds_defined c) as Hc.
  { intros c Hc%list_elem_of_In s Hs%list_elem_of_In. specialize (H c Hc). rewrite forallb_forall in H. specialize (H _ Hs). cbn in H.
    by destruct (parse_literal (txt s)). }
  split; intros x Hx; apply Hc, elem_of_app; [left|right]; by apply list_elem_of_fmap_2.
Qed.

(** ** The tables hold the first definition of each name *)

Definition first_pos (n : string) (names : list string) : option nat := fst <$> list_find (fun x => x = n) names.

Lemma first_pos_cons n m names :
  first_pos n (m :: names) = if decide (m = n) then Some 0%nat else S <$> first_pos n names.
Proof. unfold first_pos. cbn. case_decide; [done|]. by destruct (list_find _ names) as [[]|]. Qed.

Lemma first_pos_is_Some n names : is_Some (first_pos n names) <-> n ∈ names.
Proof.
  induction names as [|m names IH].
  { split; [by intros []|by intros ?%elem_of_nil]. }
  rewrite first_pos_cons, elem_of_cons. case_decide; [by split; eauto|].
  rewrite fmap_is_Some, IH. split; [by right|]. by intros [->|?].
Qed.

Lemma add_names_spec what i defs m :
  let '(m', es) := add_names what i defs m in
  (forall n, m' !! n = match m !! n with Some j => Some j | None => Nat.add i <$> first_pos n (map fst defs) end)
  /\ (es = [] <-> NoDup (map fst defs) /\ Forall (fun n => m !! n = None) (map fst defs)).
Proof.
  revert i m. induction defs as [|[n l] defs IH]; intros i m; cbn [add_names map fst].
  - split; [intros n; by destruct (m !! n)|]. split; [intros; split; constructor|done].
  - destruct (m !! n) as [j|] eqn:Em.
    + specialize (IH (S i) m). destruct (add_names what (S i) defs m) as [m' es]. destruct IH as [IH1 IH2]. split.
      * intros x. rewrite IH1, first_pos_cons. destruct (m !! x) eqn:Ex; [done|]. case_decide; [congruence|].
        destruct (first_pos x _); cbn; f_equal; lia.
      * split; [done|]. intros [_ H]. inversion H. congruence.
    + specialize (IH (S i) (<[n := i]> m)). destruct (add_names what (S i) defs _) as [m' es]. destruct IH as [IH1 IH2]. split.
      * intros x. rewrite IH1, first_pos_cons. case_decide as E.
        { subst x. rewrite lookup_insert_eq, Em. cbn. f_equal. lia. }
        rewrite lookup_insert_ne by done. destruct (m !! x); [done|]. destruct (first_pos x _); cbn; f_equal; lia.
      * rewrite IH2, NoDup_cons, Forall_cons, !Forall_forall. split.
        { intros [Hnd Hf]. assert (n ∉ map fst defs) as Hn by (intros Hn; specialize (Hf n Hn); by rewrite lookup_insert_eq in Hf).
          repeat split; try done. intros x Hx. specialize (Hf x Hx). rewrite lookup_insert_ne in Hf; congruence. }
        { intros [[Hn Hnd] [_ Hf]]. split; [done|]. intros x Hx. rewrite lookup_insert_ne by congruence. by apply Hf. }
Qed.

Lemma add_constants_spec idx i cs m :
  let '(m', es) := add_constants idx i cs m in
  es = [] <-> (NoDup (map const_name cs) /\ Forall (fun n => m !! n = None) (map const_name cs))
    /\ Forall (fun c => validate_ref idx (const_type_ref c) (const_loc c) = []) cs.
Proof.
  revert i m. induction cs as [|c cs IH]; intros i m; cbn [add_constants map].
  - split; [|done]. by repeat constructor.
  - pose proof (add_names_spec "constant" i [(const_name c, const_loc c)] m) as H1.
    destruct (add_names _ i _ m) as [m1 e1]. destruct H1 as [Hm1 He1].
    specialize (IH (S i) m1). destruct (add_constants idx (S i) cs m1) as [m2 e3].
    rewrite !app_nil, He1, IH, NoDup_cons, !Forall_cons. cbn [map fst] in *.
    assert (forall n, m1 !! n = match m !! n with Some j => Some j | None => if decide (const_name c = n) then Some i else None end) as Hm.
    { intros n. rewrite Hm1, first_pos_cons. destruct (m !! n); [done|]. case_decide; cbn; [f_equal; lia|done]. }
    assert (Forall (fun n => m1 !! n = None) (map const_name cs)
      <-> Forall (fun n => m !! n = None) (map const_name cs) /\ const_name c ∉ map const_name cs) as Hf.
    { rewrite !Forall_forall. split.
      - intros H. split.
        + intros n Hn. specialize (H n Hn). rewrite Hm in H. by destruct (m !! n).
        + intros Hn. specialize (H _ Hn). rewrite Hm, decide_True in H by done. by destruct (m !! const_name c).
      - intros [H Hn] n Hin. rewrite Hm, (H n Hin). rewrite decide_False; [done|congruence]. }
    pose proof (NoDup_singleton (const_name c)). rewrite Hf, Forall_singleton. tauto.
Qed.

(** ** What each check finds *)

Section checks.
Variable p : Protocol.
Variable idx : TypeIndex.
Hypothesis Htypes : forall n, idx_types idx !! n = first_pos n (type_names p).
Hypothesis Hstructs : forall n, idx_structs idx !! n = first_pos n (struct_names p).
Hypothesis Hmessages : forall n, idx_messages idx !! n = first_pos n (message_names p).

Lemma find_is_Some n : is_Some (find idx n) <-> n ∈ type_names p ++ struct_names p ++ message_names p.
Proof.
  rewrite !elem_of_app, <- !first_pos_is_Some. unfold find. rewrite Htypes, Hstructs, Hmessages.
  destruct (first_pos n (type_names p)), (first_pos n (struct_names p)), (first_pos n (message_names p)); cbn;
    (split; [intros [? ?]; try discriminate; eauto|]); try (intros _; eauto; done);
    intros [[? ?]|[[? ?]|[? ?]]]; discriminate.
Qed.

Lemma validate_ref_nil r loc : validate_ref idx r loc = [] <-> ref_ok p r.
Proof.
  unfold validate_ref, validate_type_ref, ref_ok. rewrite <- find_is_Some.
  destruct (String.eqb_spec r ""); [naive_solver|].
  destruct (String.eqb_spec r "bytes"); [naive_solver|]. destruct (String.eqb_spec r "string"); [naive_solver|].
  cbn. destruct (find idx r); split; try done; [eauto|]. intros [?|[?|[?|[? ?]]]]; congruence.
Qed.

Lemma validate_children_nil : validate_children idx (all_children p) = [] <-> Forall (fun r => ref_ok p r.1) (all_refs p).
Proof.
  assert (validate_children idx (all_children p) = flat_map (fun '(r, loc) => validate_ref idx r loc) (all_refs p)) as ->.
  { unfold all_refs. rewrite flat_map_collect. apply collect_ext; intros; symmetry; apply app_nil_r. }
  rewrite flat_map_nil. apply Forall_proper; [|done]. intros [r loc]. apply validate_ref_nil.
Qed.

Lemma table_names (m : gmap string nat) names (Q : string -> Prop) :
  (forall n, m !! n = first_pos n names) ->
  Forall (fun kv => Q kv.1) (map_to_list m) <-> forall n, n ∈ names -> Q n.
Proof.
  intros Hm. rewrite Forall_forall. split.
  - intros H n Hn. apply first_pos_is_Some in Hn as [i Hi]. rewrite <- Hm in Hi. by apply (H (n, i)), elem_of_map_to_list.
  - intros H [n i] Hin. apply elem_of_map_to_list in Hin. rewrite Hm in Hin. apply H, first_pos_is_Some. by eexists.
Qed.

Lemma first_pos_None n names : first_pos n names = None <-> n ∉ names.
Proof. rewrite <- first_pos_is_Some, eq_None_not_Some. done. Qed.

Lemma collisions_nil :
  collisions p idx = [] <->
    (forall n, n ∈ type_names p -> (n ∉ struct_names p) /\ (n ∉ message_names p))
    /\ (forall n, n ∈ struct_names p -> n ∉ message_names p).
Proof.
  unfold collisions. rewrite app_nil, !flat_map_nil.
  rewrite <- (table_names _ _ (fun n => (n ∉ struct_names p) /\ (n ∉ message_names p)) Htypes).
  rewrite <- (table_names _ _ (fun n => n ∉ message_names p) Hstructs).
  f_equiv; apply Forall_proper; try done; intros [n i]; cbn [fst]; rewrite <- !first_pos_None.
  - rewrite app_nil, Hstructs, Hmessages.
    destruct (first_pos n (struct_names p)), (first_pos n (message_names p)); split; try done; by intros [??].
  - rewrite Hmessages. by destruct (first_pos n (message_names p)).
Qed.

Lemma list_find_map {A} (g : A -> string) n l :
  list_find (fun x => x = n) (map g l) = prod_map id g <$> list_find (fun d => g d = n) l.
Proof.
  induction l as [|x l IH]; cbn; [done|]. case_decide; [done|]. rewrite IH. by destruct (list_find _ l) as [[]|].
Qed.

Lemma field_type_declared f : field_type p idx f = declared_type p f.
Proof.
  unfold field_type, declared_type. destruct (String.eqb _ ""); [done|]. rewrite Htypes. unfold first_pos, type_names.
  rewrite list_find_map. destruct (list_find _ _) as [[i td]|] eqn:E; [|done].
  apply list_find_Some in E as (Hi & _). exact Hi.
Qed.

Lemma relaxes_spec beyond (le : Z -> Z -> Prop) (type field : option string) :
  (forall tv fv, beyond fv tv = false <-> le tv fv) ->
  (forall s, type = Some s -> parse_literal (txt s) <> None) ->
  (forall s, field = Some s -> parse_literal (txt s) <> None) ->
  exists b, relaxes beyond field type = Some b /\ (b = false <-> bound_within le type field).
Proof.
  intros Hle Ht Hf. unfold relaxes, bound_within.
  destruct type as [t|]; [|exists false; split; [done|]; by split].
  destruct field as [f|]; [|exists false; split; [done|]; by split].
  specialize (Ht t eq_refl). specialize (Hf f eq_refl).
  destruct (parse_literal (txt t)) as [tv|] eqn:Et; [|done]. destruct (parse_literal (txt f)) as [fv|] eqn:Ef; [|done].
  eexists. split; [reflexivity|]. destruct tv as [tv|], fv as [fv|]; rewrite ?Hle; split; intros; simplify_eq; eauto; congruence.
Qed.

Lemma is_some_false {A} (o : option A) : is_some o = false <-> o = None.
Proof. by destruct o. Qed.

Lemma constraint_errors_spec td f tc fc :
  bounds_defined (Some tc) -> bounds_defined (Some fc) ->
  exists es, constraint_errors td f tc fc = Some es
    /\ (es = [] <-> (forall a b, equals tc = Some a -> equals fc = Some b -> a = b)
         /\ bound_within Z.le (min_ tc) (min_ fc) /\ bound_within Z.ge (max_ tc) (max_ fc)).
Proof.
  intros Ht Hf. unfold bounds_defined, bounds_of in Ht, Hf.
  destruct (relaxes_spec Z.ltb Z.le (min_ tc) (min_ fc)) as (lo & Elo & Hlo);
    [intros; apply Z.ltb_ge|intros s E; apply Ht; rewrite E; left|intros s E; apply Hf; rewrite E; left|].
  destruct (relaxes_spec Z.gtb Z.ge (max_ tc) (max_ fc)) as (hi & Ehi & Hhi);
    [intros; rewrite Z.gtb_ltb, Z.ltb_ge; lia|intros s E; apply Ht; rewrite E; right; left
    |intros s E; apply Hf; rewrite E; right; left|].
  unfold constraint_errors. rewrite Elo, Ehi. cbn [mbind option_bind]. eexists. split; [reflexivity|].
  rewrite !app_nil, <- Hlo, <- Hhi. f_equiv; [|f_equiv; [by destruct lo|by destruct hi]].
  destruct (equals tc) as [a|], (equals fc) as [b|]; try (split; [congruence|done]).
  destruct (String.eqb_spec a b); split; intros H; try done; [congruence|]. exfalso. by apply n, (H a b).
Qed.

Lemma inheritance_errors_spec td f :
  bounds_defined (td_constraint td) -> bounds_defined (f_constraint f) ->
  exists es, inheritance_errors td f = Some es /\ (es = [] <-> compatible td f).
Proof.
  intros Ht Hf. unfold inheritance_errors.
  set (e1 := if _ && _ then _ else _).
  assert (e1 = [] <-> f_scale f = None /\ f_offset f = None \/ td_scale td = None /\ td_offset td = None) as He1.
  { unfold e1. rewrite <- !is_some_false, <- !orb_false_iff. destruct (_ || _), (_ || _); cbn; naive_solver. }
  destruct (f_constraint f) as [fc|] eqn:Efc.
  - destruct (td_constraint td) as [tc|] eqn:Etc.
    + destruct (constraint_errors_spec td f tc fc Ht Hf) as (es & -> & Hes). eexists. split; [reflexivity|].
      rewrite app_nil, He1, Hes. split.
      * intros (Hs & He & Hlo & Hhi). split; [done|..]; intros; simplify_eq; eauto.
      * intros [Hs He Hlo Hhi]. split; [done|]. split; [eauto|]. eauto.
    + eexists. split; [reflexivity|]. rewrite He1. split; [intros; split; [done|..]; intros; congruence|by intros []].
  - eexists. split; [reflexivity|]. rewrite He1. split; [intros; split; [done|..]; intros; congruence|by intros []].
Qed.

Lemma field_errors_spec f :
  literals_defined p -> f ∈ protocol_fields p ->
  exists es, field_errors p idx f = Some es
    /\ (es = [] <-> forall td, declared_type p f = Some td -> compatible td f).
Proof.
  intros [Ht Hf] Hin. unfold field_errors, apply_inheritance_to_field. rewrite field_type_declared.
  destruct (declared_type p f) as [td|] eqn:E; cbn.
  - destruct (inheritance_errors_spec td f) as (es & -> & Hes); [|by apply Hf|].
    + apply Ht. unfold declared_type in E. destruct (String.eqb _ ""); [done|].
      destruct (list_find _ _) as [[i td']|] eqn:El; [|done]. cbn in E. simplify_eq.
      apply list_find_Some in El as (Hi & _). by eapply list_elem_of_lookup_2.
    + exists es. split; [done|]. rewrite Hes. split; [intros; by simplify_eq|eauto].
  - exists []. split; [done|]. split; [congruence|done].
Qed.

Lemma inheritance_spec :
  literals_defined p ->
  exists l es, apply_inheritance_to_children p idx (all_children p) = Some (l, es)
    /\ (es = [] <-> forall f td, f ∈ protocol_fields p -> declared_type p f = Some td -> compatible td f).
Proof.
  intros Hl. unfold apply_inheritance_to_children. fold (protocol_fields p).
  assert (forall fs, (forall f, f ∈ fs -> f ∈ protocol_fields p) ->
    exists es, mapM (field_errors p idx) fs = Some es
      /\ (concat es = [] <-> forall f td, f ∈ fs -> declared_type p f = Some td -> compatible td f)) as H.
  { induction fs as [|f fs IH]; intros Hin; cbn.
    - exists []. split; [done|]. split; [|done]. by intros _ f td ?%elem_of_nil.
    - destruct (field_errors_spec f Hl) as (e & -> & He); [apply Hin; left|].
      destruct IH as (es & -> & Hes); [intros; apply Hin; by right|].
      exists (e :: es). split; [done|]. cbn. rewrite app_nil, He, Hes. split.
      + intros [H1 H2] g td [->|Hg]%elem_of_cons; eauto.
      + intros H. split; [intros td; apply H; left|intros g td Hg; apply H; by right]. }
  destruct (H (protocol_fields p)) as (es & -> & Hes); [done|]. do 2 eexists. split; [reflexivity|done].
Qed.
End checks.

(** ** The whole phase *)

(** Definition [d] of the protocol has the name [n]. *)
Definition declares (p : Protocol) (n : string) (d : ResolvedDef) : Prop :=
  match d with
  | RType i => td_name <$> proto_types p !! i = Some n
  | RStruct i => sd_name <$> proto_structs p !! i = Some n
  | RMessage i => msg_name <$> proto_messages p !! i = Some n
  end.

(** A field with what it inherits from its type. *)
Definition inherits (p : Protocol) (f : Field) : Field :=
  match declared_type p f with None => f | Some td => inherit_field td f end.

Lemma map_named {A} (name : A -> string) loc l : map fst (named name loc l) = map name l.
Proof. unfold named. rewrite map_map. by apply map_ext. Qed.

Lemma table_spec {A} what (name : A -> string) loc l m es :
  add_names what 0 (named name loc l) ∅ = (m, es) ->
  (forall n, m !! n = first_pos n (map name l)) /\ (es = [] <-> NoDup (map name l)).
Proof.
  intros E. pose proof (add_names_spec what 0 (named name loc l) ∅) as H. rewrite E, map_named in H.
  destruct H as [Hm He]. split.
  - intros n. rewrite Hm, lookup_empty. by destruct (first_pos n _).
  - rewrite He. split; [by intros []|]. intros. split; [done|]. apply Forall_forall. intros. apply lookup_empty.
Qed.

Lemma first_pos_NoDup n names i : NoDup names -> first_pos n names = Some i <-> names !! i = Some n.
Proof.
  intros Hnd. unfold first_pos. split.
  - destruct (list_find _ names) as [[j x]|] eqn:E; [|done]. intros [= <-].
    apply list_find_Some in E as (Hj & -> & _). done.
  - intros Hi. destruct (list_find_elem_of (fun x => x = n) names n) as [[j x] E]; [by eapply list_elem_of_lookup_2|done|].
    rewrite E. cbn. f_equal. apply list_find_Some in E as (Hj & -> & _). by eapply NoDup_lookup.
Qed.

Lemma find_declares p idx n d :
  (forall n, idx_types idx !! n = first_pos n (type_names p)) ->
  (forall n, idx_structs idx !! n = first_pos n (struct_names p)) ->
  (forall n, idx_messages idx !! n = first_pos n (message_names p)) ->
  distinct_names p -> find idx n = Some d <-> declares p n d.
Proof.
  intros Ht Hs Hm (Nt & Dt & (Ns & Ds & Nm)%NoDup_app)%NoDup_app. unfold find. rewrite Ht, Hs, Hm.
  assert (forall {A} (g : A -> string) l i, NoDup (map g l) -> g <$> l !! i = Some n <-> first_pos n (map g l) = Some i) as Hp.
  { intros A g l i Hnd. rewrite first_pos_NoDup by done. by rewrite list_lookup_fmap. }
  assert (n ∈ type_names p -> n ∉ struct_names p) as D1 by (intros Hn E; apply (Dt n Hn), elem_of_app; auto).
  assert (n ∈ type_names p -> n ∉ message_names p) as D2 by (intros Hn E; apply (Dt n Hn), elem_of_app; auto).
  pose proof (Ds n) as D3. rewrite <- !first_pos_is_Some in D1, D2, D3.
  destruct d as [i|i|i]; cbn [declares]; rewrite Hp by done; fold (type_names p) (struct_names p) (message_names p);
    destruct (first_pos n (type_names p)), (first_pos n (struct_names p)), (first_pos n (message_names p)); cbn;
    split; intros; simplify_eq; try done; exfalso; solve [apply D1; eauto | apply D2; eauto | apply D3; eauto].
Qed.

Lemma inherit_protocol_names p idx :
  type_names (inherit_protocol p idx) = type_names p /\ struct_names (inherit_protocol p idx) = struct_names p
  /\ message_names (inherit_protocol p idx) = message_names p.
Proof.
  unfold struct_names, message_names. cbn [inherit_protocol proto_structs proto_messages]. rewrite !map_map. done.
Qed.

Lemma inherit_protocol_declares p idx n d : declares (inherit_protocol p idx) n d <-> declares p n d.
Proof.
  destruct d as [i|i|i]; cbn [declares inherit_protocol proto_types proto_structs proto_messages]; [done|..];
    rewrite list_lookup_fmap; by destruct (_ !! i).
Qed.

Lemma inherited_fields p idx :
  protocol_fields (inherit_protocol p idx) = map (inherited p idx) (protocol_fields p).
Proof.
  unfold protocol_fields, all_children. rewrite !fields_of_app, !fields_of_flat_map, !map_app.
  cbn [inherit_protocol proto_messages proto_structs proto_frames]. f_equal; [|f_equal].
  - by apply flat_map_fields.
  - by apply flat_map_fields.
  - apply (flat_map_fields (inherited p idx) _ (fun x => header_fields x ++ footer_fields x)).
    intros x. by rewrite map_app.
Qed.

(** Accepted or not, the fields are edited by inheritance alone. *)
Lemma resolve_types_inherits p r p' :
  resolve_types p = Some (r, p') -> protocol_fields p' = map (inherits p) (protocol_fields p).
Proof.
  unfold resolve_types. destruct (add_names "type" _ _ _) as [types e1] eqn:E1. apply table_spec in E1 as [Ht _].
  destruct (add_names "struct" _ _ _) as [structs e2]. destruct (add_names "message" _ _ _) as [messages e3].
  destruct (add_constants _ _ _ _) as [constants e4]. destruct (add_names "frame" _ _ _) as [frames e5].
  destruct (apply_inheritance_to_children _ _ _) as [[l e8]|]; [|done]. cbn [mbind option_bind]. intros [= _ <-].
  rewrite inherited_fields. apply map_ext. intros f. unfold inherited, inherits. by rewrite field_type_declared.
Qed.

Lemma resolve_types_spec (p : Protocol) :
  literals_defined p ->
  exists r p', resolve_types p = Some (r, p')
    /\ protocol_fields p' = map (inherits p) (protocol_fields p)
    /\ (exists idx, p' = inherit_protocol p idx)
    /\ match r with
       | Resolved idx => well_formed p /\ forall n d, find idx n = Some d <-> declares p n d
       | Unresolved es => es <> [] /\ ~ well_formed p
       end.
Proof.
  intros Hl. pose proof (resolve_types_inherits p) as Hfields. revert Hfields. unfold resolve_types.
  destruct (add_names "type" _ _ _) as [types e1] eqn:E1. apply table_spec in E1 as [Ht He1].
  destruct (add_names "struct" _ _ _) as [structs e2] eqn:E2. apply table_spec in E2 as [Hs He2].
  destruct (add_names "message" _ _ _) as [messages e3] eqn:E3. apply table_spec in E3 as [Hm He3].
  pose proof (add_constants_spec (mkIndex types structs messages ∅ ∅) 0 (proto_constants p) ∅) as He4.
  destruct (add_constants _ _ _ _) as [constants e4].
  destruct (add_names "frame" _ _ _) as [frames e5] eqn:E5. apply table_spec in E5 as [_ He5].
  set (idx := mkIndex types structs messages constants frames).
  destruct (inheritance_spec p idx Ht Hl) as (l & e8 & -> & He8). cbn [mbind option_bind]. intros Hfields.
  do 2 eexists. split; [reflexivity|]. split; [by eapply Hfields|]. split; [by exists idx|].
  set (es := e1 ++ _). assert (es = [] <-> well_formed p) as Hes.
  { unfold es. rewrite !app_nil, He1, He2, He3, He4, He5, He8.
    rewrite (collisions_nil p idx Ht Hs Hm), (validate_children_nil p idx Ht Hs Hm).
    assert (Forall (fun c => validate_ref (mkIndex types structs messages ∅ ∅) (const_type_ref c) (const_loc c) = []) (proto_constants p)
      <-> Forall (fun c => ref_ok p (const_type_ref c)) (proto_constants p)) as ->.
    { apply Forall_proper; [|done]. intros c. by apply (validate_ref_nil p (mkIndex types structs messages ∅ ∅)). }
    assert (Forall (fun n => (∅ : gmap string nat) !! n = None) (map const_name (proto_constants p))) as Hemp
      by (apply Forall_forall; intros; apply lookup_empty).
    split.
    - intros (H1 & H2 & H3 & ((H4 & _) & H4') & H5 & [H6 H6'] & H7 & H8). split; auto; intros n Hn; by apply H6.
    - intros [H1 H2 H3 H4 H5 H6 H7 H8 H9 H10 H11]. split_and!; auto. }
  destruct es as [|e es'] eqn:Ees.
  - split; [by apply Hes|]. intros n d. apply find_declares; try done. by apply well_formed_distinct, Hes.
  - split; [done|]. intros W. by apply Hes in W.
Qed.

(** C30: The resolver accepts exactly the well-formed protocols: names unique
    within types, structs, messages, constants and frames and not shared between
    types, structs and messages; every reference, at any depth, built in or
    declared; no field that rescales or relaxes its type.  That references lead in a
    circle is not looked at here but by the validator.  For an accepted
    protocol the index finds under every name exactly its definition; a rejected
    one comes with at least one error.  In both cases every field is left as it
    was except for the byte order and display format it inherits. *)
Theorem resolve_types_exact (p : Protocol) :
  literals_defined p ->
  exists r p', resolve_types p = Some (r, p')
    /\ protocol_fields p' = map (inherits p) (protocol_fields p)
    /\ match r with
       | Resolved idx => well_formed p /\ forall n d, find idx n = Some d <-> declares p n d
       | Unresolved es => es <> [] /\ ~ well_formed p
       end.
Proof.
  intros Hl. destruct (resolve_types_spec p Hl) as (r & p' & E & Hf & _ & Hr). by exists r, p'.
Qed.

(** ** Byte order, from the files to the resolved protocol *)

(** The type a field of the files refers to. *)
Definition source_type (files : list BmdlFile) (f : Field) : option TypeDef :=
  if String.eqb (f_type_ref f) "" then None
  else snd <$> list_find (fun td => td_name td = f_type_ref f) (flat_map file_types files).

Definition effective_endian (files : list BmdlFile) (d : Endian) (f : Field) : Endian :=
  if f_endian_explicit f then f_endian f
  else match source_type files f with
  | Some td => if td_endian_explicit td then td_endian td else d
  | None => d
  end.

Lemma set_endian_proj e f : f_endian (set_endian e f) = e /\ f_endian_explicit (set_endian e f) = f_endian_explicit f
  /\ f_format_explicit (set_endian e f) = f_format_explicit f /\ f_type_ref (set_endian e f) = f_type_ref f.
Proof. by destruct f. Qed.
Lemma set_format_endian x f : f_endian (set_format x f) = f_endian f.
Proof. by destruct f. Qed.
Lemma set_text_attrs_proj a b c f : f_endian (set_text_attrs a b c f) = f_endian f
  /\ f_endian_explicit (set_text_attrs a b c f) = f_endian_explicit f /\ f_type_ref (set_text_attrs a b c f) = f_type_ref f.
Proof. by destruct f. Qed.

Lemma defaults_proj d f :
  f_endian (apply_defaults_to_field d f) = (if f_endian_explicit f then f_endian f else def_endian d)
  /\ f_endian_explicit (apply_defaults_to_field d f) = f_endian_explicit f
  /\ f_type_ref (apply_defaults_to_field d f) = f_type_ref f.
Proof.
  unfold apply_defaults_to_field. set (f1 := if f_endian_explicit f then f else _).
  assert (f_endian f1 = (if f_endian_explicit f then f_endian f else def_endian d)
    /\ f_endian_explicit f1 = f_endian_explicit f /\ f_type_ref f1 = f_type_ref f) as H.
  { unfold f1. destruct (f_endian_explicit f) eqn:E; [done|].
    destruct (set_endian_proj (def_endian d) f) as (-> & -> & _ & ->). done. }
  destruct (is_text_ref _); [|done]. destruct (set_text_attrs_proj (or_default (f_encoding f1) (def_encoding d))
    (or_default (f_padding f1) (def_padding d)) (or_default (f_trim f1) (def_trim d)) f1) as (-> & -> & ->). done.
Qed.

Lemma inherit_field_endian td f :
  f_endian (inherit_field td f) = if negb (f_endian_explicit f) && td_endian_explicit td then td_endian td else f_endian f.
Proof.
  unfold inherit_field. destruct (_ && td_endian_explicit td); destruct (_ && _); rewrite ?set_format_endian; try done.
  all: by destruct (set_endian_proj (td_endian td) f) as (-> & _).
Qed.

Lemma declared_type_source root files p pf f :
  build_protocol root (inr files) = Built p -> one_protocol pf files ->
  declared_type p (apply_defaults_to_field (file_defaults pf) f)
  = apply_defaults_to_type (file_defaults pf) <$> source_type files f.
Proof.
  intros E H. unfold declared_type, source_type. destruct (defaults_proj (file_defaults pf) f) as (_ & _ & ->).
  destruct (String.eqb _ ""); [done|]. rewrite (built_types root files p pf) by done.
  induction (flat_map file_types files) as [|td l IH]; cbn; [done|].
  case_decide; [done|]. cbn in IH. destruct (list_find _ (map _ l)) as [[]|], (list_find _ l) as [[]|]; cbn in *; congruence.
Qed.

(** The byte order of every field, from the parsed files to the resolved
    protocol: its own when it states one, else the one its type states, else
    the default of the protocol file; whichever file the field and the type come
    from. *)
Theorem effective_byte_order (root : string) (files : list BmdlFile) (pf : BmdlFile) (p p' : Protocol) (r : ResolveResult) :
  build_protocol root (inr files) = Built p -> one_protocol pf files -> resolve_types p = Some (r, p') ->
  map f_endian (protocol_fields p') = map (effective_endian files (def_endian (file_defaults pf))) (source_fields files).
Proof.
  intros Hb Hpf Hr. rewrite (resolve_types_inherits _ _ _ Hr), (built_fields _ _ _ _ Hb Hpf), !map_map.
  apply map_ext. intros f. unfold inherits, effective_endian. rewrite (declared_type_source _ _ _ _ f Hb Hpf).
  destruct (defaults_proj (file_defaults pf) f) as (He & Hx & _).
  destruct (source_type files f) as [td|]; cbn; [|done]. rewrite inherit_field_endian, Hx, He. cbn [td_endian td_endian_explicit apply_defaults_to_type].
  by destruct (f_endian_explicit f), (td_endian_explicit td).
Qed.

(** ** A sample: a library of types imported by a little-endian protocol *)

Definition sample_library : BmdlFile :=
  mkFile "types.xml" "2" false "" "" new_defaults "" [] []
    [mkTypeDef "net16" BaseUint 16 EndianBig true FmtHex true WireDefault false None None None [] [] None
       None EncAscii false PadNull false TrimRight false None None None [] "" unknown_loc;
     mkTypeDef "u8" BaseUint 8 EndianBig false FmtDecimal false WireDefault false None None None [] [] 
       (Some (mkConstraint None (Some "1") (Some "0x7F") Immediate unknown_loc))
       None EncAscii false PadNull false TrimRight false None None None [] "" unknown_loc]
    [new_struct "point" [ChField (new_field "x" "net16"); ChField (new_field "y" "u8")]] [] [] [] unknown_loc.

Definition sample_protocol_file : BmdlFile :=
  mkFile "proto.xml" "2" true "Demo" "1" (mkDefaults EndianLittle EncAscii PadNull TrimRight None) "" [] [] [] []
    [new_message "track" [ChField (new_field "where" "point"); ChArray (new_array "tail" "u8" 3);
       ChField (set_endian EndianBig (new_field "crc" "u8"))]] [] [] unknown_loc.

Definition sample_files : list BmdlFile := [sample_library; sample_protocol_file].

Definition sample_protocol : Protocol :=
  match build_protocol "proto.xml" (inr sample_files) with
  | Built p => p
  | BuildFailed _ => mkProtocol "" "" "" new_defaults [] [] [] [] [] [] [] "" unknown_loc
  end.

(** The same with a reference that nothing declares. *)
Definition broken_protocol : Protocol :=
  mkProtocol "Demo" "1" "2" new_defaults [] [] (proto_types sample_protocol) (proto_structs sample_protocol)
    [new_message "track" [ChField (new_field "where" "pointt")]] [] [] "" unknown_loc.

Lemma sample_literals_defined : literals_defined sample_protocol.
Proof. by apply literals_checked_defined. Qed.

Lemma resolve_types_exact_witness :
  exists r p', resolve_types sample_protocol = Some (r, p')
    /\ protocol_fields p' = map (inherits sample_protocol) (protocol_fields sample_protocol)
    /\ match r with
       | Resolved idx => well_formed sample_protocol /\ forall n d, find idx n = Some d <-> declares sample_protocol n d
       | Unresolved es => es <> [] /\ ~ well_formed sample_protocol
       end.
Proof.
  exact (resolve_types_exact sample_protocol sample_literals_defined).
Defined.

Lemma effective_byte_order_witness :
  exists r p', resolve_types sample_protocol = Some (r, p')
    /\ map f_endian (protocol_fields p')
       = map (effective_endian sample_files EndianLittle) (source_fields sample_files).
Proof.
  destruct (resolve_types sample_protocol) as [[r p']|] eqn:E; [|vm_compute in E; discriminate].
  exists r, p'. split; [reflexivity|].
  apply (effective_byte_order "proto.xml" sample_files sample_protocol_file sample_protocol p' r).
  - vm_compute. reflexivity.
  - vm_compute. reflexivity.
  - exact E.
Defined.

Example sample_byte_orders :
  map (fun f => (f_name f, effective_endian sample_files EndianLittle f)) (source_fields sample_files)
  = [("where", EndianLittle); ("crc", EndianLittle); ("x", EndianBig); ("y", EndianLittle)].
Proof. reflexivity. Qed.

Example broken_rejected :
  exists es p', resolve_types broken_protocol = Some (Unresolved es, p')
    /\ map res_message es = ["unresolved type reference: pointt"].
Proof. vm_compute. eauto. Qed.
