(* ===== verification/ProtocolIndex.v ===== *)
(** * What the resolver promises to later phases

    The validator, the wire sizer and the session analyzer look names up in the
    tables of [TypeIndex] and follow the pointers they find.  [Indexes] states
    what they rely on, and [resolved_index] that [resolve_types] of
    [conduit/bgen/src/analyzer/type_resolver.cpp] provides it. *)

From stdpp Require Import base numbers list gmap strings.
From Stdlib Require Import ZArith Lia.
From S2P Require Import Prelude CharConv AutoExpr ExprParser Ast AstBuilder TypeResolver.

(** Each table sends a name to the position of its definition, and the three
    kinds of definitions a reference may name share no name. *)
Class Indexes (p : Protocol) (idx : TypeIndex) : Prop := {
  index_types : forall n, idx_types idx !! n = first_pos n (type_names p);
  index_structs : forall n, idx_structs idx !! n = first_pos n (struct_names p);
  index_messages : forall n, idx_messages idx !! n = first_pos n (message_names p);
  index_constants : forall n, idx_constants idx !! n = first_pos n (map const_name (proto_constants p));
  index_distinct : distinct_names p;
  index_constants_distinct : NoDup (map const_name (proto_constants p));
}.

Lemma add_constants_table idx i cs m :
  forall n, (add_constants idx i cs m).1 !! n
    = match m !! n with Some j => Some j | None => Nat.add i <$> first_pos n (map const_name cs) end.
Proof.
  revert i m. induction cs as [|c cs IH]; intros i m n; cbn [add_constants map]; [cbn; by destruct (m !! n)|].
  pose proof (add_names_spec "constant" i [(const_name c, const_loc c)] m) as H1.
  destruct (add_names _ i _ m) as [m1 e1]. destruct H1 as [Hm1 _]. specialize (IH (S i) m1 n).
  destruct (add_constants idx (S i) cs m1) as [m2 e3]. cbn [fst] in *. rewrite IH, Hm1, !first_pos_cons. cbn.
  destruct (m !! n); [done|]. case_decide; cbn; [done|]. destruct (first_pos n _); cbn; f_equal; lia.
Qed.

(** The index of an accepted protocol describes the protocol it returns. *)
Lemma resolved_index p p' idx :
  literals_defined p -> resolve_types p = Some (Resolved idx, p') -> Indexes p' idx.
Proof.
  intros Hl E. destruct (resolve_types_spec p Hl) as (r & q & E' & _ & (idx0 & Hq) & Hr).
  rewrite E in E'. injection E' as <- <-. destruct Hr as [W _]. subst p'. revert E. unfold resolve_types.
  destruct (add_names "type" _ _ _) as [types e1] eqn:E1. apply table_spec in E1 as [Ht _].
  destruct (add_names "struct" _ _ _) as [structs e2] eqn:E2. apply table_spec in E2 as [Hs _].
  destruct (add_names "message" _ _ _) as [messages e3] eqn:E3. apply table_spec in E3 as [Hm _].
  pose proof (add_constants_table (mkIndex types structs messages ∅ ∅) 0 (proto_constants p) ∅) as Hc.
  destruct (add_constants _ _ _ _) as [constants e4].
  destruct (add_names "frame" _ _ _) as [frames e5]. destruct (apply_inheritance_to_children _ _ _) as [[l e8]|]; [|done].
  cbn [mbind option_bind]. destruct (_ ++ _); [|done]. intros [= <- _].
  destruct (inherit_protocol_names p idx0) as (N1 & N2 & N3). split.
  - by rewrite N1.
  - by rewrite N2.
  - by rewrite N3.
  - intros n. cbn [idx_constants]. pose proof (Hc n) as Hn. rewrite lookup_empty in Hn. cbn in Hn. rewrite Hn. by destruct (first_pos n _).
  - unfold distinct_names. rewrite N1, N2, N3. by apply well_formed_distinct.
  - apply (wf_constants p W).
Qed.

(** ** Following the tables *)

Lemma first_pos_lookup {A} (g : A -> string) l n i :
  first_pos n (map g l) = Some i -> exists x, l !! i = Some x /\ g x = n.
Proof.
  unfold first_pos. destruct (list_find _ _) as [[j y]|] eqn:E; [|done]. intros [= <-].
  apply list_find_Some in E as (Hj & -> & _). change (map g l) with (g <$> l) in Hj.
  apply list_lookup_fmap_Some in Hj as (x & -> & Hx). by exists x.
Qed.

Section indexed.
Context (p : Protocol) (idx : TypeIndex) `{!Indexes p idx}.

Lemma index_find n d : find idx n = Some d <-> declares p n d.
Proof. apply find_declares; apply Indexes0. Qed.

Lemma index_type_lookup n i :
  idx_types idx !! n = Some i -> exists t, proto_types p !! i = Some t /\ td_name t = n.
Proof. rewrite index_types. apply first_pos_lookup. Qed.
Lemma index_struct_lookup n i :
  idx_structs idx !! n = Some i -> exists s, proto_structs p !! i = Some s /\ sd_name s = n.
Proof. rewrite index_structs. apply first_pos_lookup. Qed.
Lemma index_message_lookup n i :
  idx_messages idx !! n = Some i -> exists m, proto_messages p !! i = Some m /\ msg_name m = n.
Proof. rewrite index_messages. apply first_pos_lookup. Qed.
Lemma index_constant_lookup n i :
  idx_constants idx !! n = Some i -> exists c, proto_constants p !! i = Some c /\ const_name c = n.
Proof. rewrite index_constants. apply first_pos_lookup. Qed.

(** A name stands for at most one constant, struct or message. *)
Lemma constant_name_unique c c' :
  c ∈ proto_constants p -> c' ∈ proto_constants p -> const_name c = const_name c' -> c = c'.
Proof.
  intros [i Hi]%list_elem_of_lookup_1 [j Hj]%list_elem_of_lookup_1 E.
  assert (i = j) as ->; [|congruence].
  apply (NoDup_lookup (const_name <$> proto_constants p) i j (const_name c) index_constants_distinct);
    rewrite list_lookup_fmap, ?Hi, ?Hj; cbn; congruence.
Qed.
Lemma struct_name_unique s s' :
  s ∈ proto_structs p -> s' ∈ proto_structs p -> sd_name s = sd_name s' -> s = s'.
Proof.
  pose proof index_distinct as (_ & _ & (Ns & _ & _)%NoDup_app)%NoDup_app.
  intros [i Hi]%list_elem_of_lookup_1 [j Hj]%list_elem_of_lookup_1 E.
  assert (i = j) as ->; [|congruence]. apply (NoDup_lookup (struct_names p) i j (sd_name s) Ns);
    change (struct_names p) with (sd_name <$> proto_structs p); rewrite list_lookup_fmap, ?Hi, ?Hj; cbn; congruence.
Qed.
Lemma message_name_unique m m' :
  m ∈ proto_messages p -> m' ∈ proto_messages p -> msg_name m = msg_name m' -> m = m'.
Proof.
  pose proof index_distinct as (_ & _ & (_ & _ & Nm)%NoDup_app)%NoDup_app.
  intros [i Hi]%list_elem_of_lookup_1 [j Hj]%list_elem_of_lookup_1 E.
  assert (i = j) as ->; [|congruence]. apply (NoDup_lookup (message_names p) i j (msg_name m) Nm);
    change (message_names p) with (msg_name <$> proto_messages p); rewrite list_lookup_fmap, ?Hi, ?Hj; cbn; congruence.
Qed.
End indexed.

(** ** The structs and messages not visited yet

    Searches through references enter a struct or message at most once, so this
    set bounds how deep they go. *)

Definition composite_names (p : Protocol) : list string := struct_names p ++ message_names p.

Definition unvisited (p : Protocol) (visited : gset string) : gset string :=
  list_to_set (composite_names p) ∖ visited.

Lemma unvisited_less p visited name : name ∈ composite_names p -> name ∉ visited ->
  S (size (unvisited p ({[name]} ∪ visited))) = size (unvisited p visited).
Proof.
  intros He Hv. assert (name ∈ unvisited p visited) as Hin.
  { unfold unvisited. apply elem_of_difference. split; [by apply elem_of_list_to_set|done]. }
  assert (unvisited p ({[name]} ∪ visited) = unvisited p visited ∖ {[name]}) as ->.
  { unfold unvisited. rewrite difference_difference_l_L. f_equal. apply (comm_L (∪)). }
  assert ({[name]} ⊆ unvisited p visited) as Hs by by apply singleton_subseteq_l.
  rewrite size_difference, size_singleton by done. apply subseteq_size in Hs. rewrite size_singleton in Hs. lia.
Qed.

Lemma unvisited_mono p visited visited' :
  visited ⊆ visited' -> (size (unvisited p visited') <= size (unvisited p visited))%nat.
Proof. intros H. apply subseteq_size. unfold unvisited. set_solver. Qed.

Lemma size_list_to_set_le (l : list string) : (size (list_to_set l : gset string) <= length l)%nat.
Proof.
  induction l as [|x l IH]; cbn; [done|]. rewrite size_union_alt, size_singleton.
  assert (list_to_set l ∖ {[x]} ⊆ (list_to_set l : gset string)) as H%subseteq_size by apply subseteq_difference_l, reflexivity.
  lia.
Qed.

Lemma unvisited_bound p : (size (unvisited p ∅) < S (length (proto_structs p) + length (proto_messages p)))%nat.
Proof.
  unfold unvisited. rewrite difference_empty_L.
  pose proof (size_list_to_set_le (composite_names p)) as H. unfold composite_names in *. rewrite length_app in H.
  assert (length (struct_names p) = length (proto_structs p)) by apply length_map.
  assert (length (message_names p) = length (proto_messages p)) by apply length_map. lia.
Qed.
