(* ===== verification/Validation.v ===== *)
(** * The validator: errors, literals and expressions

    Models the helpers of [conduit/bgen/src/analyzer/validator.cpp] that its
    checks share: the error list, literals with constants, and the checks on
    expressions.  A check returns the errors it appends, in order. *)

From stdpp Require Import base numbers list gmap strings.
From Stdlib Require Import ZArith Lia.
From S2P Require Import Prelude CharConv AutoExpr ExprParser Ast AstBuilder TypeResolver ProtocolIndex.

Open Scope Z_scope.

Record ValidationError := mkValidationError { val_message : string; val_loc : SourceLoc }.

Section helpers.
Variable p : Protocol.
Variable idx : TypeIndex.

(** [index_.types.find(ref)], followed. *)
Definition type_at (ref : string) : option (option TypeDef) :=
  match idx_types idx !! ref with
  | Some i => td ← proto_types p !! i; Some (Some td)
  | None => Some None
  end.

Definition is_struct_or_message_type (type_ref : string) : bool :=
  is_some (idx_structs idx !! type_ref) || is_some (idx_messages idx !! type_ref).

(** [parse_literal(value)], or the literal of the constant of that name; [None]
    where [parse_literal] is undefined. *)
Definition constant_literal (name : string) : option (option Z) :=
  match idx_constants idx !! name with
  | Some i => c ← proto_constants p !! i; parse_literal (txt (const_value c))
  | None => Some None
  end.

Definition literal_or_constant (s : string) : option (option Z) :=
  v ← parse_literal (txt s);
  match v with Some _ => Some v | None => constant_literal s end.
End helpers.

Section composite.
Context (p : Protocol) (idx : TypeIndex) `{!Indexes p idx}.

Lemma is_composite r : is_struct_or_message_type idx r = true <-> r ∈ composite_names p.
Proof.
  unfold is_struct_or_message_type. rewrite index_structs, index_messages. unfold composite_names.
  rewrite elem_of_app, <- !first_pos_is_Some. destruct (first_pos r (struct_names p)), (first_pos r (message_names p)); cbn; naive_solver.
Qed.

Lemma type_at_spec ref : exists t, type_at p idx ref = Some t /\ forall td, t = Some td -> td ∈ proto_types p.
Proof.
  unfold type_at. destruct (idx_types idx !! ref) as [i|] eqn:E; [|by exists None].
  destruct (index_type_lookup p idx ref i E) as (t & Ht & _). rewrite Ht. cbn. exists (Some t). split; [done|].
  intros ? [= <-]. by eapply list_elem_of_lookup_2.
Qed.
End composite.
