(* ===== verification/StructCycles.v ===== *)
(** * Recursive types

    Models [detect_struct_cycles], [detect_cycle_dfs] and [collect_struct_refs] of [conduit/bgen/src/analyzer/validator.cpp]: the
    check that no struct or message contains itself.  The depth-first search
    passes its two sets and the error list as state; [None] is a pointer outside
    the protocol or spent fuel, and the theorems show that neither happens. *)

From stdpp Require Import base numbers list gmap strings relations.
From Stdlib Require Import ZArith Lia.
From S2P Require Import Prelude CharConv AutoExpr ExprParser Ast AstBuilder TypeResolver ProtocolIndex Validation.

Record Dfs := mkDfs { visited : gset string; in_stack : gset string; dfs_errors : list ValidationError }.

Section search.
Variable p : Protocol.
Variable idx : TypeIndex.

(** Arrays are skipped, with everything below them. *)
Fixpoint child_struct_refs (c : StructChild) : list string :=
  match c with
  | ChField f =>
      if negb (String.eqb (f_type_ref f) "") && is_struct_or_message_type idx (f_type_ref f) then [f_type_ref f] else []
  | ChStruct s => flat_map child_struct_refs (sd_children s)
  | ChArray _ => []
  | ChChoice c =>
      flat_map (fun cs => flat_map child_struct_refs (case_children cs)) (ch_cases c)
      ++ match ch_otherwise c with Some o => flat_map child_struct_refs (ow_children o) | None => [] end
  | ChFx x => flat_map child_struct_refs (fx_children x)
  | ChReserved _ | ChAlign _ => []
  end.

Definition collect_struct_refs (l : list StructChild) : list string := flat_map child_struct_refs l.

(** The children and the location of a struct or message, if there is one. *)
Definition node (name : string) : option (option (list StructChild * SourceLoc)) :=
  match idx_structs idx !! name with
  | Some i => s ← proto_structs p !! i; Some (Some (sd_children s, sd_loc s))
  | None =>
      match idx_messages idx !! name with
      | Some i => m ← proto_messages p !! i; Some (Some (msg_children m, msg_loc m))
      | None => Some None
      end
  end.

Definition cycle_error (loc : SourceLoc) (name ref : string) : ValidationError :=
  mkValidationError ("recursive type cycle detected: '" +:+ name +:+ "' eventually contains itself via '"
    +:+ ref +:+ "'") loc.

(** The loop over the references of [name]; [dfs] is the recursive call. *)
Section visit_refs.
Variable dfs : string -> Dfs -> option Dfs.
Variables (loc : SourceLoc) (name : string).

Fixpoint visit_refs (refs : list string) (st : Dfs) : option Dfs :=
  match refs with
  | [] => Some st
  | ref :: refs =>
      if bool_decide (ref ∈ in_stack st) then
        visit_refs refs (mkDfs (visited st) (in_stack st) (dfs_errors st ++ [cycle_error loc name ref]))
      else if bool_decide (ref ∈ visited st) then visit_refs refs st
      else st ← dfs ref st; visit_refs refs st
  end.
End visit_refs.

Fixpoint detect_cycle_dfs (fuel : nat) (name : string) (st : Dfs) : option Dfs :=
  match fuel with
  | O => None
  | S fuel =>
      let st := mkDfs ({[name]} ∪ visited st) ({[name]} ∪ in_stack st) (dfs_errors st) in
      n ← node name;
      st ← match n with
           | None => Some st
           | Some (children, loc) => visit_refs (detect_cycle_dfs fuel) loc name (collect_struct_refs children) st
           end;
      Some (mkDfs (visited st) (in_stack st ∖ {[name]}) (dfs_errors st))
  end.

Fixpoint search_from (fuel : nat) (names : list string) (st : Dfs) : option Dfs :=
  match names with
  | [] => Some st
  | n :: names =>
      if bool_decide (n ∈ visited st) then search_from fuel names st
      else st ← detect_cycle_dfs fuel n st; search_from fuel names st
  end.

(** Every call visits another name. *)
Definition search_fuel : nat := S (length (proto_structs p) + length (proto_messages p)).

Definition detect_struct_cycles : option (list ValidationError) :=
  st ← search_from search_fuel (composite_names p) (mkDfs ∅ ∅ []);
  Some (dfs_errors st).
End search.

(** ** Containment *)

Section contains.
Variable p : Protocol.

(** A list of children holds a value of the named struct or message: in a field
    of its own, or in one of a nested struct, of a branch of a choice or of an
    extension block, or, where [typed] says to look there too, as the branch that
    names it with its [type] attribute.  An array holds its elements on the heap. *)
Inductive holds (typed : bool) : list StructChild -> string -> Prop :=
  | holds_field l f : ChField f ∈ l -> f_type_ref f <> "" -> f_type_ref f ∈ composite_names p -> holds typed l (f_type_ref f)
  | holds_struct l s r : ChStruct s ∈ l -> holds typed (sd_children s) r -> holds typed l r
  | holds_case l c cs r : ChChoice c ∈ l -> cs ∈ ch_cases c -> holds typed (case_children cs) r -> holds typed l r
  | holds_otherwise l c o r : ChChoice c ∈ l -> ch_otherwise c = Some o -> holds typed (ow_children o) r -> holds typed l r
  | holds_fx l x r : ChFx x ∈ l -> holds typed (fx_children x) r -> holds typed l r
  | holds_case_type l c cs : typed = true -> ChChoice c ∈ l -> cs ∈ ch_cases c ->
      case_type_ref cs ∈ composite_names p -> holds typed l (case_type_ref cs)
  | holds_otherwise_type l c o : typed = true -> ChChoice c ∈ l -> ch_otherwise c = Some o ->
      ow_type_ref o ∈ composite_names p -> holds typed l (ow_type_ref o).

Definition holds_in (typed : bool) (a b : string) : Prop :=
  (exists s, s ∈ proto_structs p /\ sd_name s = a /\ holds typed (sd_children s) b)
  \/ (exists m, m ∈ proto_messages p /\ msg_name m = a /\ holds typed (msg_children m) b).

(** The struct or message [a] contains a value of [b]. *)
Definition contains : string -> string -> Prop := holds_in true.

(** The containments the search follows: all but those by the [type] of a branch. *)
Definition follows : string -> string -> Prop := holds_in false.

(** No struct or message contains itself, directly or through others. *)
Definition acyclic : Prop := forall n, ~ tc contains n n.
Definition no_followed_cycle : Prop := forall n, ~ tc follows n n.

(** The types the branches of choices name, at any depth. *)
Fixpoint child_branch_types (c : StructChild) : list string :=
  match c with
  | ChStruct s => flat_map child_branch_types (sd_children s)
  | ChChoice c =>
      flat_map (fun cs => case_type_ref cs :: flat_map child_branch_types (case_children cs)) (ch_cases c)
      ++ match ch_otherwise c with
         | Some o => ow_type_ref o :: flat_map child_branch_types (ow_children o)
         | None => []
         end
  | ChFx x => flat_map child_branch_types (fx_children x)
  | _ => []
  end.

Definition branch_types (l : list StructChild) : list string := flat_map child_branch_types l.

(** No branch of a choice names a struct or message as its type. *)
Definition branches_spelled_out : Prop :=
  forall r, r ∈ branch_types (flat_map sd_children (proto_structs p) ++ flat_map msg_children (proto_messages p)) ->
    r ∉ composite_names p.
End contains.

(** ** What the references are *)

Section theory.
Context (p : Protocol) (idx : TypeIndex) `{!Indexes p idx}.

Lemma holds_elem l c r : c ∈ l -> holds p false [c] r -> holds p false l r.
Proof.
  intros Hc H. inversion H; subst; match goal with E : _ ∈ [c] |- _ => apply list_elem_of_singleton in E; subst end.
  - by apply holds_field.
  - by eapply holds_struct.
  - by eapply holds_case.
  - by eapply holds_otherwise.
  - by eapply holds_fx.
  - done.
  - done.
Qed.

Lemma flat_map_holds l r :
  Forall (fun c => r ∈ child_struct_refs idx c -> holds p false [c] r) l -> r ∈ flat_map (child_struct_refs idx) l -> holds p false l r.
Proof.
  rewrite Forall_forall. intros H (c & Hc & Hr)%list_elem_of_In%in_flat_map.
  apply (holds_elem _ c); [by apply list_elem_of_In|]. apply H; by apply list_elem_of_In.
Qed.

Lemma child_refs_hold c r : r ∈ child_struct_refs idx c -> holds p false [c] r.
Proof.
  induction c as [f|s IH|a IH|c IHc IHo|x IH|t|a] using child_ind; cbn [child_struct_refs]; try by intros ?%elem_of_nil.
  - destruct (String.eqb_spec (f_type_ref f) ""); [by intros ?%elem_of_nil|]. cbn [negb andb].
    destruct (is_struct_or_message_type _ _) eqn:E; [|by intros ?%elem_of_nil]. intros ->%list_elem_of_singleton.
    apply holds_field; [by apply list_elem_of_singleton|done|]. by apply (is_composite p idx).
  - intros H. eapply holds_struct; [by apply list_elem_of_singleton|]. by apply flat_map_holds.
  - intros [H|H]%elem_of_app.
    + apply list_elem_of_In, in_flat_map in H as (cs & Hcs & H). apply list_elem_of_In in Hcs.
      rewrite Forall_forall in IHc. eapply holds_case; [by apply list_elem_of_singleton|exact Hcs|].
      apply flat_map_holds; [by apply IHc|by apply list_elem_of_In].
    + destruct (ch_otherwise c) as [o|] eqn:Eo; [|by apply elem_of_nil in H].
      eapply holds_otherwise; [by apply list_elem_of_singleton|done|]. apply flat_map_holds; [by apply IHo|done].
  - intros H. eapply holds_fx; [by apply list_elem_of_singleton|]. by apply flat_map_holds.
Qed.

(** The references collected are the structs and messages held. *)
Lemma collect_refs_holds l r : r ∈ collect_struct_refs idx l <-> holds p false l r.
Proof.
  split.
  - apply flat_map_holds, Forall_forall. intros c _. apply child_refs_hold.
  - unfold collect_struct_refs. induction 1 as [l f Hf Hn Hr|l s r Hs _ IH|l c cs r Hc Hcs _ IH|l c o r Hc Ho _ IH|l x r Hx _ IH|? ? ? [=]|? ? ? [=]];
      (eapply flat_map_elem; [eassumption|]); cbn [child_struct_refs].
    + apply String.eqb_neq in Hn. rewrite Hn, (proj2 (is_composite p idx _) Hr). cbn. by apply list_elem_of_singleton.
    + done.
    + apply elem_of_app. left. eapply flat_map_elem; [exact Hcs|done].
    + apply elem_of_app. right. by rewrite Ho.
    + done.
Qed.

Lemma holds_composite l r : holds p false l r -> r ∈ composite_names p.
Proof. induction 1; done. Qed.

(** A node of the search is a definition, and its references are what it
    contains. *)
Lemma node_contains name : name ∈ composite_names p ->
  exists cs loc, node p idx name = Some (Some (cs, loc)) /\ forall b, b ∈ collect_struct_refs idx cs <-> follows p name b.
Proof.
  intros Hn. unfold node. destruct (idx_structs idx !! name) as [i|] eqn:Es.
  - destruct (index_struct_lookup p idx name i Es) as (s & Hs & <-). rewrite Hs. cbn. do 2 eexists. split; [reflexivity|].
    intros b. rewrite collect_refs_holds. assert (s ∈ proto_structs p) as Hin by by eapply list_elem_of_lookup_2.
    split; [intros H; left; by exists s|]. intros [(s' & Hs' & E & H)|(m & Hm & E & H)].
    + by rewrite <- (struct_name_unique p idx s' s).
    + exfalso. pose proof index_distinct as (_ & _ & (_ & D & _)%NoDup_app)%NoDup_app. apply (D (sd_name s)).
      * by apply list_elem_of_fmap_2.
      * rewrite <- E. by apply list_elem_of_fmap_2.
  - assert (name ∉ struct_names p) as Hns by by rewrite index_structs, first_pos_None in Es.
    destruct (idx_messages idx !! name) as [i|] eqn:Em.
    + destruct (index_message_lookup p idx name i Em) as (m & Hm & <-). rewrite Hm. cbn. do 2 eexists. split; [reflexivity|].
      intros b. rewrite collect_refs_holds. assert (m ∈ proto_messages p) as Hin by by eapply list_elem_of_lookup_2.
      split; [intros H; right; by exists m|]. intros [(s & Hs & E & H)|(m' & Hm' & E & H)].
      * destruct Hns. rewrite <- E. by apply list_elem_of_fmap_2.
      * by rewrite <- (message_name_unique p idx m' m).
    + rewrite index_messages, first_pos_None in Em. by apply elem_of_app in Hn as [].
Qed.

(** ** The search *)

(** An error names a step of a cycle. *)
Definition on_cycle (e : ValidationError) : Prop :=
  exists loc a b, e = cycle_error loc a b /\ follows p a b /\ rtc (follows p) b a.

Definition finished (st : Dfs) : gset string := visited st ∖ in_stack st.

(** From a finished name every path of containments ends. *)
Definition settled (st : Dfs) : Prop := forall n, n ∈ finished st -> Acc (flip (follows p)) n.

(** What part of the search does to the state. *)
Record progress (st st' : Dfs) : Prop := {
  progress_visited : visited st ⊆ visited st';
  progress_stack : in_stack st' = in_stack st;
  progress_errors : exists es, dfs_errors st' = dfs_errors st ++ es /\ Forall on_cycle es
    /\ (es = [] -> settled st -> settled st');
}.

#[local] Instance progress_preorder : PreOrder progress.
Proof.
  split.
  - intros st. split; [done|done|]. exists []. rewrite app_nil_r. split_and!; [done|constructor|done].
  - intros s1 s2 s3 [V1 S1 (e1 & E1 & C1 & T1)] [V2 S2 (e2 & E2 & C2 & T2)]. split; [set_solver|congruence|].
    exists (e1 ++ e2). rewrite E2, E1, app_assoc. split_and!; [done|by apply Forall_app|].
    intros [-> ->]%app_nil. auto.
Qed.

Lemma progress_no_errors st st' : progress st st' -> dfs_errors st' = dfs_errors st -> settled st -> settled st'.
Proof.
  intros [_ _ (es & E & _ & T)] E' Hs. apply T; [|done]. apply (app_inv_head (dfs_errors st)).
  rewrite <- E, E'. by rewrite app_nil_r.
Qed.

(** The states in which the search may go on to [name]: the stack is a chain
    of containments that leads to it. *)
Definition ready (name : string) (st : Dfs) : Prop :=
  in_stack st ⊆ visited st /\ forall s, s ∈ in_stack st -> rtc (follows p) s name.

Section one_node.
Variable dfs : string -> Dfs -> option Dfs.
Variable fuel : nat.
Hypothesis dfs_spec : forall name st, name ∈ composite_names p -> name ∉ visited st -> ready name st ->
  (size (unvisited p (visited st)) <= fuel)%nat ->
  exists st', dfs name st = Some st' /\ progress st st' /\ name ∈ visited st'.

Lemma visit_refs_spec loc name refs st :
  (forall r, r ∈ refs -> follows p name r) -> ready name st -> name ∈ in_stack st ->
  (size (unvisited p (visited st)) <= fuel)%nat ->
  exists st', visit_refs dfs loc name refs st = Some st' /\ progress st st'
    /\ (dfs_errors st' = dfs_errors st -> forall r, r ∈ refs -> r ∈ finished st').
Proof.
  revert st. induction refs as [|r refs IH]; intros st Hrefs Hr Hin Hf; cbn [visit_refs].
  { exists st. split_and!; [done|reflexivity|]. by intros _ r ?%elem_of_nil. }
  assert (follows p name r) as Hc by (apply Hrefs; by left).
  assert (forall r', r' ∈ refs -> follows p name r') as Hrefs' by (intros; apply Hrefs; by right).
  destruct Hr as [Hsub Hch]. case_bool_decide as Hs.
  - destruct (IH (mkDfs (visited st) (in_stack st) (dfs_errors st ++ [cycle_error loc name r]))) as (st' & E & P & H);
      [done|done|done|done|].
    destruct P as [V S (es & Ee & Ce & _)]. cbn in *. exists st'. split_and!; [done| |].
    + split; [done|done|]. exists (cycle_error loc name r :: es). rewrite Ee, <- app_assoc. split_and!; [done| |done].
      constructor; [|done]. exists loc, name, r. split_and!; [done|done|]. by apply Hch.
    + intros E'. rewrite Ee in E'. apply (f_equal length) in E'. rewrite !length_app in E'. cbn in E'. lia.
  - case_bool_decide as Hv.
    + destruct (IH st) as (st' & E & P & H); [done|done|done|done|]. exists st'. split_and!; [done|done|].
      intros E' r' [->|Hr']%elem_of_cons; [|by apply H]. destruct P as [V S _]. unfold finished. rewrite S. set_solver.
    + destruct (dfs_spec r st) as (st1 & -> & P1 & Hv1); [| |split; [done|]|done|].
      * destruct Hc as [(s & _ & _ & Hh)|(m & _ & _ & Hh)]; by eapply holds_composite.
      * done.
      * intros s Hs'. eapply rtc_r; [by apply Hch|done].
      * cbn [mbind option_bind]. pose proof P1 as [V1 S1 R1]. destruct (IH st1) as (st' & E & P & H).
        { done. } { split; [set_solver|]. rewrite S1. done. } { by rewrite S1. }
        { pose proof (unvisited_mono p _ _ V1). lia. }
        exists st'. split_and!; [done|by etrans|]. intros E' r' Hr'.
        assert (dfs_errors st' = dfs_errors st1) as E2.
        { destruct R1 as (e1 & E1 & _). destruct P as [_ _ (e2 & E2 & _)]. rewrite E2, E1, <- app_assoc in E'.
          rewrite <- (app_nil_r (dfs_errors st)) in E' at 2. apply app_inv_head, app_nil in E' as [_ ->].
          by rewrite E2, app_nil_r. }
        apply elem_of_cons in Hr' as [->|Hr']; [|by apply H].
        unfold finished. destruct P as [V S _]. rewrite S, S1. set_solver.
Qed.
End one_node.

Lemma dfs_spec fuel name st :
  name ∈ composite_names p -> name ∉ visited st -> ready name st -> (size (unvisited p (visited st)) <= fuel)%nat ->
  exists st', detect_cycle_dfs p idx fuel name st = Some st' /\ progress st st' /\ name ∈ visited st'.
Proof.
  revert name st. induction fuel as [|fuel IH]; intros name st Hn Hv [Hsub Hch] Hf.
  { exfalso. rewrite <- (unvisited_less p _ name Hn Hv) in Hf. lia. }
  cbn [detect_cycle_dfs]. destruct (node_contains name Hn) as (cs & loc & -> & Hcs). cbn [mbind option_bind].
  set (st1 := mkDfs _ _ _). destruct (visit_refs_spec _ fuel IH loc name (collect_struct_refs idx cs) st1) as (st2 & -> & P & H).
  { intros r. apply Hcs. }
  { split; [set_solver|]. cbn. intros s [->%elem_of_singleton|Hs]%elem_of_union; [done|by apply Hch]. }
  { set_solver. }
  { cbn. rewrite <- (unvisited_less p _ name Hn Hv) in Hf. lia. }
  cbn. destruct P as [V S (es & Ee & Ce & Te)]. cbn in *. eexists. split; [reflexivity|]. split; [|cbn; set_solver].
  split; cbn; [set_solver|set_solver|]. exists es. split_and!; [done|done|]. intros -> Hst.
  assert (settled st2) as Hst2. { apply Te; [done|]. intros n. unfold finished. cbn. intros Hn'. apply Hst. set_solver. }
  rewrite app_nil_r in Ee. intros n Hfin. destruct (decide (n = name)) as [->|Hne].
  - constructor. intros b Hb. apply Hst2, H; [done|]. by apply Hcs.
  - apply Hst2. unfold finished in *. cbn in Hfin. set_solver.
Qed.

Lemma search_from_spec fuel names st :
  (forall n, n ∈ names -> n ∈ composite_names p) -> in_stack st = ∅ -> (size (unvisited p (visited st)) <= fuel)%nat ->
  exists st', search_from p idx fuel names st = Some st' /\ progress st st' /\ forall n, n ∈ names -> n ∈ visited st'.
Proof.
  revert st. induction names as [|n names IH]; intros st Hn Hs Hf; cbn [search_from].
  { exists st. split_and!; [done|reflexivity|]. by intros n ?%elem_of_nil. }
  assert (forall m, m ∈ names -> m ∈ composite_names p) as Hn' by (intros; apply Hn; by right).
  case_bool_decide as Hv.
  - destruct (IH st) as (st' & E & P & H); [done..|]. exists st'. split_and!; [done|done|].
    intros m [->|Hm]%elem_of_cons; [|by apply H]. destruct P. set_solver.
  - destruct (dfs_spec fuel n st) as (st1 & -> & P1 & H1); [apply Hn; by left|done|split; set_solver|done|].
    cbn [mbind option_bind]. destruct (IH st1) as (st' & E & P & H); [done| | |].
    + by rewrite (progress_stack _ _ P1).
    + pose proof (unvisited_mono p _ _ (progress_visited _ _ P1)). lia.
    + exists st'. split_and!; [done|by etrans|]. intros m [->|Hm]%elem_of_cons; [|by apply H]. destruct P. set_solver.
Qed.

Lemma acc_no_cycle n : Acc (flip (follows p)) n -> ~ tc (follows p) n n.
Proof.
  induction 1 as [n _ IH]. intros H. inversion H as [? ? Hn|? b ? Hb Ht]; subst.
  - by apply (IH n).
  - apply (IH b Hb). by eapply tc_r.
Qed.

Lemma contains_composite a b : follows p a b -> a ∈ composite_names p.
Proof.
  intros [(s & Hs & <- & _)|(m & Hm & <- & _)]; apply elem_of_app; [left|right]; by apply list_elem_of_fmap_2.
Qed.

Lemma detect_cycles_spec :
  exists es, detect_struct_cycles p idx = Some es /\ Forall on_cycle es /\ (es = [] -> forall n, Acc (flip (follows p)) n).
Proof.
  unfold detect_struct_cycles. destruct (search_from_spec (search_fuel p) (composite_names p) (mkDfs ∅ ∅ [])) as (st & -> & P & H).
  - done.
  - done.
  - pose proof (unvisited_bound p). cbn. unfold search_fuel. lia.
  - cbn. destruct P as [_ S (es & E & C & T)]. cbn in *. exists es. rewrite E. split_and!; [done|done|].
    intros -> n. destruct (decide (n ∈ composite_names p)) as [Hn|Hn].
    + apply T; [done|intros m; unfold finished; cbn; set_solver|]. unfold finished. rewrite S. set_solver.
    + constructor. intros b Hb. destruct Hn. by eapply contains_composite.
Qed.
End theory.

(** ** The containments that are not followed *)

Lemma follows_contains p a b : follows p a b -> contains p a b.
Proof.
  assert (forall l r, holds p false l r -> holds p true l r) as H
    by (induction 1; eauto using holds_field, holds_struct, holds_case, holds_otherwise, holds_fx; done).
  intros [(s & Hs & E & Hh)|(m & Hm & E & Hh)]; [left|right]; eauto.
Qed.

Lemma spelled_out_followed p l r :
  holds p true l r -> (forall t, t ∈ branch_types l -> t ∉ composite_names p) -> holds p false l r.
Proof.
  unfold branch_types.
  induction 1 as [l f Hf Hn Hr|l s r Hs _ IH|l c cs r Hc Hcs _ IH|l c o r Hc Ho _ IH|l x r Hx _ IH|l c cs _ Hc Hcs Hr|l c o _ Hc Ho Hr]; intros Hb.
  - by apply holds_field.
  - eapply holds_struct; [done|]. apply IH. intros t Ht. apply Hb. by eapply flat_map_elem.
  - eapply holds_case; [done..|]. apply IH. intros t Ht. apply Hb. eapply flat_map_elem; [exact Hc|]. cbn.
    apply elem_of_app. left. eapply flat_map_elem; [exact Hcs|]. by right.
  - eapply holds_otherwise; [done..|]. apply IH. intros t Ht. apply Hb. eapply flat_map_elem; [exact Hc|]. cbn.
    apply elem_of_app. right. rewrite Ho. by right.
  - eapply holds_fx; [done|]. apply IH. intros t Ht. apply Hb. by eapply flat_map_elem.
  - destruct (Hb (case_type_ref cs)); [|done]. eapply flat_map_elem; [exact Hc|]. cbn.
    apply elem_of_app. left. eapply flat_map_elem; [exact Hcs|]. by left.
  - destruct (Hb (ow_type_ref o)); [|done]. eapply flat_map_elem; [exact Hc|]. cbn.
    apply elem_of_app. right. rewrite Ho. by left.
Qed.

Lemma contains_follows p a b : branches_spelled_out p -> contains p a b -> follows p a b.
Proof.
  intros Hp. unfold branches_spelled_out, branch_types in Hp.
  intros [(s & Hs & E & Hh)|(m & Hm & E & Hh)]; [left; exists s|right; exists m]; (split_and!; [done..|]);
    apply spelled_out_followed; try done; unfold branch_types; intros t (c & Hc & Ht)%list_elem_of_In%in_flat_map;
    apply Hp, (flat_map_elem _ _ c); try (by apply list_elem_of_In); apply elem_of_app; [left|right];
    (eapply flat_map_elem; [done|by apply list_elem_of_In]).
Qed.

Lemma tc_mono {A} (R S : relation A) x y : (forall a b, R a b -> S a b) -> tc R x y -> tc S x y.
Proof. intros H. induction 1; [by apply tc_once, H|]. by eapply tc_l; [apply H|]. Qed.

Lemma acyclic_followed p : acyclic p -> no_followed_cycle p.
Proof. intros H n Hn. apply (H n). eapply tc_mono; [|exact Hn]. apply follows_contains. Qed.

(** C31: The search for recursive types.  On every protocol the resolver accepts it
    ends.  What it reports is right: every error names a containment on a cycle,
    where a struct or message contains a value of another in a field, in a nested
    struct, in a branch of a choice, spelled out or named by the [type] of the
    branch, or in an extension block.  It reports no error if and only if there is
    no cycle of containments other than by the [type] of a branch, which it does not
    look at ([branch_not_searched]); so, where no branch of a choice names a struct
    or message as its type, if and only if nothing contains itself. *)
Theorem struct_cycles_exact (p p' : Protocol) (idx : TypeIndex) :
  literals_defined p -> resolve_types p = Some (Resolved idx, p') ->
  exists es, detect_struct_cycles p' idx = Some es
    /\ (forall e, e ∈ es -> exists loc a b, e = cycle_error loc a b /\ contains p' a b /\ rtc (contains p') b a)
    /\ (es = [] <-> no_followed_cycle p')
    /\ (branches_spelled_out p' -> (es = [] <-> acyclic p')).
Proof.
  intros Hl E. pose proof (resolved_index p p' idx Hl E) as Hidx. destruct (detect_cycles_spec p' idx) as (es & D & C & A).
  rewrite Forall_forall in C. exists es. assert (es = [] <-> no_followed_cycle p') as Hes.
  { split; [intros H n; by apply acc_no_cycle, A|]. destruct es as [|e es]; [done|]. intros Hac. exfalso.
    destruct (C e) as (loc & a & b & _ & Hab & Hba); [by left|]. apply (Hac a). by eapply tc_rtc_r; [apply tc_once|]. }
  split_and!; [done| |done|].
  - intros e (loc & a & b & -> & Hab & Hba)%C. exists loc, a, b. split_and!; [done|by apply follows_contains|].
    revert Hba. apply rtc_subrel. intros x y. apply follows_contains.
  - intros Hb. rewrite Hes. split; [|apply acyclic_followed]. intros H n Hn. apply (H n).
    eapply tc_mono; [|exact Hn]. intros x y. by apply contains_follows.
Qed.

Lemma struct_cycles_exact_witness :
  exists idx p' es, resolve_types sample_protocol = Some (Resolved idx, p')
    /\ detect_struct_cycles p' idx = Some es /\ (es = [] <-> acyclic p').
Proof.
  destruct (resolve_types sample_protocol) as [[[idx|] p']|] eqn:E; [|vm_compute in E; discriminate..].
  destruct (struct_cycles_exact sample_protocol p' idx) as (es & Es & _ & _ & H).
  - exact sample_literals_defined.
  - exact E.
  - exists idx, p', es. split_and!; [done|exact Es|]. apply H. intros r Hr.
    vm_compute in E. injection E as <- <-. by apply elem_of_nil in Hr.
Defined.

(** The errors of a protocol after resolution. *)
Definition cycles_of (p : Protocol) : option (list ValidationError) :=
  '(r, p') ← resolve_types p;
  match r with Resolved idx => detect_struct_cycles p' idx | Unresolved _ => None end.

Example sample_no_cycles : cycles_of sample_protocol = Some [].
Proof. vm_compute. reflexivity. Qed.

(** Two structs that contain each other are reported once. *)
Definition mutual_protocol : Protocol :=
  mkProtocol "Demo" "1" "2" new_defaults [] [] []
    [new_struct "a" [ChField (new_field "b" "b")]; new_struct "b" [ChField (new_field "a" "a")]] [] [] [] "" unknown_loc.

Example mutual_reported : cycles_of mutual_protocol = Some [cycle_error unknown_loc "b" "a"].
Proof. vm_compute. reflexivity. Qed.

(** A branch of a choice that refers to a struct by its [type] attribute is not
    searched: the struct below contains itself in the branch and is accepted. *)
Definition branch_protocol : Protocol :=
  mkProtocol "Demo" "1" "2" new_defaults [] [] []
    [new_struct "a" [ChChoice (mkChoiceDef "c" None
       [mkCaseDef "again" "a" [] (Some "1") None DirBoth None [] "" unknown_loc] None None None None None None []
       "" unknown_loc)]] [] [] [] "" unknown_loc.

Example branch_not_searched : cycles_of branch_protocol = Some [] /\ ~ acyclic branch_protocol.
Proof.
  split; [vm_compute; reflexivity|]. intros H. apply (H "a"), tc_once. left. eexists. split_and!; [by left|done|].
  eapply (holds_case_type _ true _ _ (mkCaseDef "again" "a" [] (Some "1") None DirBoth None [] "" unknown_loc)); [done|by left|by left|by left].
Qed.
