(* ===== verification/CaseOverlap.v ===== *)
(** * Overlapping cases of a choice

    Models [check_case_overlap] of [conduit/bgen/src/analyzer/validator.cpp].
    [std::sort] leaves the order of equal elements open: it is a parameter with
    its contract, and the theorem holds for every implementation. *)

From stdpp Require Import base numbers list gmap strings sorting.
From Stdlib Require Import ZArith Lia.
From S2P Require Import Prelude CharConv AutoExpr ExprParser Ast AstBuilder TypeResolver ProtocolIndex Validation.

Open Scope Z_scope.

Record Range := mkRange { lo : Z; hi : Z; range_loc : SourceLoc; dir : Direction }.

(** What [std::sort] with the comparison [a.lo < b.lo] guarantees. *)
Definition lo_le (a b : Range) : Prop := lo a <= lo b.

Class SortsByLo (sort : list Range -> list Range) : Prop := {
  sort_permutes : forall l, Permutation (sort l) l;
  sort_orders : forall l, StronglySorted lo_le (sort l);
}.

Section check.
Variable sort : list Range -> list Range.
Variable p : Protocol.
Variable idx : TypeIndex.
Variable c : ChoiceDef.

Definition case_error (cs : CaseDef) (what : string) : ValidationError :=
  mkValidationError ("choice '" +:+ ch_name c +:+ "': " +:+ what) (case_loc cs).

(** One boundary of a range: a literal, or the constant of that name. *)
Definition boundary (cs : CaseDef) (which s : string) : option (option Z * list ValidationError) :=
  v ← parse_literal (txt s);
  match v with
  | Some _ => Some (v, [])
  | None =>
      match idx_constants idx !! s with
      | Some _ => v ← constant_literal p idx s; Some (v, [])
      | None =>
          Some (None, if String.eqb s "" then []
                      else [case_error cs ("case range " +:+ which +:+ " boundary '" +:+ s +:+
                                           "' is not a valid literal or constant")])
      end
  end.

Definition split_range (r : string) : option (string * string) :=
  match String.index 0 ".." r with
  | None => None
  | Some dot => Some (String.substring 0 dot r, String.substring (dot + 2) (String.length r) r)
  end.

(** The body of the first loop: the range of a case, if it has one, and the
    errors. *)
Definition case_range_of (cs : CaseDef) : option (option Range * list ValidationError) :=
  match case_value cs, case_range cs with
  | Some s, _ =>
      v ← literal_or_constant p idx s;
      Some (match v with Some v => Some (mkRange v v (case_loc cs) (case_direction cs)) | None => None end, [])
  | None, Some r =>
      match split_range r with
      | None => Some (None, [case_error cs ("case range '" +:+ r +:+ "' missing '..' separator")])
      | Some (lo_str, hi_str) =>
          if String.eqb lo_str "" || String.eqb hi_str "" then
            Some (None, [case_error cs ("case range '" +:+ r +:+ "' has empty boundary")])
          else
            '(lo, e1) ← boundary cs "low" lo_str;
            '(hi, e2) ← boundary cs "high" hi_str;
            match lo, hi with
            | Some lo, Some hi =>
                Some (Some (mkRange lo hi (case_loc cs) (case_direction cs)),
                      e1 ++ e2 ++ if hi <? lo then [case_error cs ("case range '" +:+ r +:+ "' is inverted (lo > hi)")]
                                  else [])
            | _, _ => Some (None, e1 ++ e2)
            end
      end
  | None, None => Some (None, [])
  end.

Fixpoint case_ranges (l : list CaseDef) : option (list Range * list ValidationError) :=
  match l with
  | [] => Some ([], [])
  | cs :: l =>
      '(r, e) ← case_range_of cs;
      '(rs, es) ← case_ranges l;
      Some (match r with Some r => r :: rs | None => rs end, e ++ es)
  end.

(** The loop over adjacent elements of a sorted lane. *)
Fixpoint lane_errors (lane : list Range) : list ValidationError :=
  match lane with
  | a :: ((b :: _) as rest) =>
      (if lo b <=? hi a then [mkValidationError ("choice '" +:+ ch_name c +:+ "': case values overlap") (range_loc b)]
       else []) ++ lane_errors rest
  | _ => []
  end.

Definition check_lane (lane : list Range) : list ValidationError := lane_errors (sort lane).

Definition in_lane (lane : Direction) (r : Range) : bool :=
  match dir r, lane with
  | DirBoth, _ => true
  | DirSend, DirSend => true
  | DirReceive, DirReceive => true
  | _, _ => false
  end.

Definition check_case_overlap : option (list ValidationError) :=
  '(ranges, es) ← case_ranges (ch_cases c);
  Some (es ++ check_lane (List.filter (in_lane DirSend) ranges) ++ check_lane (List.filter (in_lane DirReceive) ranges)).
End check.

(** ** What the check decides *)

Section meaning.
Variable p : Protocol.
Variable idx : TypeIndex.

(** The value of a literal, or of the constant of that name. *)
Definition value_named (s : string) (v : Z) : Prop :=
  parse_literal (txt s) = Some (Some v)
  \/ parse_literal (txt s) = Some None
     /\ exists k, k ∈ proto_constants p /\ const_name k = s /\ parse_literal (txt (const_value k)) = Some (Some v).

(** The values a case is for. *)
Definition covers (cs : CaseDef) (v : Z) : Prop :=
  match case_value cs, case_range cs with
  | Some s, _ => value_named s v
  | None, Some r =>
      exists a b l h, split_range r = Some (a, b) /\ a <> "" /\ b <> "" /\ value_named a l /\ value_named b h /\ l <= v <= h
  | None, None => False
  end.

(** The direction [d] of a session, sending or receiving, uses a case. *)
Definition uses (d : Direction) (cs : CaseDef) : Prop := case_direction cs = DirBoth \/ case_direction cs = d.

(** No value selects both cases in one direction. *)
Definition disjoint_cases (a b : CaseDef) : Prop :=
  forall d v, d <> DirBoth -> uses d a -> uses d b -> covers a v -> covers b v -> False.

(** Both boundaries of a range are given, are literals or constants, and are
    in order where their values are known. *)
Definition range_ok (cs : CaseDef) : Prop :=
  forall r, case_value cs = None -> case_range cs = Some r ->
    exists a b, split_range r = Some (a, b) /\ a <> "" /\ b <> ""
      /\ (forall s, s = a \/ s = b -> (exists v, parse_literal (txt s) = Some (Some v)) \/ s ∈ map const_name (proto_constants p))
      /\ (forall l h, value_named a l -> value_named b h -> l <= h).

(** No literal of the choice or of a constant is one on which [parse_literal]
    overflows. *)
Definition case_texts (cs : CaseDef) : list string :=
  match case_value cs, case_range cs with
  | Some s, _ => [s]
  | None, Some r => match split_range r with Some (a, b) => [a; b] | None => [] end
  | None, None => []
  end.

Definition case_literals_defined (c : ChoiceDef) : Prop :=
  (forall k, k ∈ proto_constants p -> parse_literal (txt (const_value k)) <> None)
  /\ forall cs s, cs ∈ ch_cases c -> s ∈ case_texts cs -> parse_literal (txt s) <> None.
End meaning.

(** ** Pairs of a list *)

Section pairs.
Context {A : Type}.
Implicit Types R : A -> A -> Prop.

Lemma fop_impl R S l : (forall a b, R a b -> S a b) -> ForallOrdPairs R l -> ForallOrdPairs S l.
Proof. intros H. induction 1; constructor; [|done]. eapply Forall_impl; [eassumption|]. auto. Qed.

Lemma fop_and R S l : ForallOrdPairs R l /\ ForallOrdPairs S l <-> ForallOrdPairs (fun a b => R a b /\ S a b) l.
Proof.
  split.
  - intros [H1 H2]. induction H1 as [|a l Ha _ IH]; [constructor|]. inversion H2; subst. constructor; [|auto].
    by apply Forall_and.
  - intros H. split; (eapply fop_impl; [|exact H]); by intros a b [].
Qed.

Lemma fop_perm R l l' : Symmetric R -> Permutation l l' -> ForallOrdPairs R l -> ForallOrdPairs R l'.
Proof.
  intros HR. induction 1 as [|x l l' Hp IH|x y l|l1 l2 l3 _ IH1 _ IH2]; auto.
  - inversion 1; subst. constructor; [|auto]. by rewrite <- Hp.
  - intros H. inversion H as [|? ? Hx Ht]; subst. inversion Ht as [|? ? Hy Hl]; subst. inversion Hx; subst.
    constructor; [constructor; [by apply HR|done]|by constructor].
Qed.

Lemma fop_omap {B} (R : B -> B -> Prop) (f : A -> option B) l :
  ForallOrdPairs R (omap f l) <-> ForallOrdPairs (fun x y => forall a b, f x = Some a -> f y = Some b -> R a b) l.
Proof.
  induction l as [|x l IH]; cbn; [split; constructor|].
  assert (forall a, Forall (R a) (omap f l) <-> Forall (fun y => forall b, f y = Some b -> R a b) l) as HF.
  { intros a. clear IH. induction l as [|y l IH]; cbn; [split; constructor|]. destruct (f y) eqn:Ey;
      rewrite !Forall_cons, IH, ?Ey; naive_solver. }
  split.
  - intros H. constructor.
    + apply Forall_forall. intros y Hy a b Ea Eb. rewrite Ea in H. inversion H as [|? ? Ha _]; subst.
      apply HF in Ha. rewrite Forall_forall in Ha. eauto.
    + apply IH. destruct (f x); [by inversion H|done].
  - inversion 1 as [|? ? Hx Ht]; subst. apply IH in Ht. destruct (f x) as [a|] eqn:Ea; [|done]. constructor; [|done].
    apply HF. eapply Forall_impl; [exact Hx|]. naive_solver.
Qed.

Lemma filter_omap (f : A -> bool) l : List.filter f l = omap (fun x => if f x then Some x else None) l.
Proof. induction l as [|x l IH]; cbn; [done|]. destruct (f x); by rewrite IH. Qed.

Lemma fop_filter R (f : A -> bool) l :
  ForallOrdPairs R (List.filter f l) <-> ForallOrdPairs (fun x y => f x = true -> f y = true -> R x y) l.
Proof.
  rewrite filter_omap, fop_omap. split; apply fop_impl; intros a b H; destruct (f a), (f b); naive_solver.
Qed.
End pairs.

(** ** Lanes *)

Definition ordered (r : Range) : Prop := lo r <= hi r.
Definition disjoint_ranges (a b : Range) : Prop := forall v, lo a <= v <= hi a -> lo b <= v <= hi b -> False.

#[local] Instance disjoint_ranges_sym : Symmetric disjoint_ranges.
Proof. intros a b H v Ha Hb. by apply (H v). Qed.

(** In a sorted list of ranges neighbours tell everything. *)
Lemma lane_errors_nil c l :
  StronglySorted lo_le l -> Forall ordered l -> lane_errors c l = [] <-> ForallOrdPairs disjoint_ranges l.
Proof.
  intros Hs. induction Hs as [|a l Hs IH Ha]; intros Ho; [split; [constructor|done]|].
  inversion Ho as [|? ? Oa Ol]; subst. specialize (IH Ol). destruct l as [|b l].
  { split; [by repeat constructor|done]. }
  assert (lane_errors c (a :: b :: l) = [] <-> hi a < lo b /\ lane_errors c (b :: l) = []) as ->.
  { cbn [lane_errors]. rewrite app_nil. destruct (Z.leb_spec (lo b) (hi a)); naive_solver lia. }
  rewrite IH. inversion Ol; subst. inversion Ha; subst. unfold lo_le, ordered in *. split.
  - intros [Hab Hp]. constructor; [|done]. inversion Hs as [|? ? _ Hb]; subst. unfold lo_le in Hb.
    constructor; [intros v ? ?; lia|]. eapply Forall_impl; [exact Hb|]. cbn. intros r Hr v ? ?. lia.
  - inversion 1 as [|? ? Hd Hp]; subst. split; [|done]. inversion Hd as [|? ? Hab _]; subst.
    destruct (Z.lt_ge_cases (hi a) (lo b)); [done|]. exfalso. apply (Hab (lo b)); lia.
Qed.

Lemma check_lane_nil sort `{!SortsByLo sort} c l :
  Forall ordered l -> check_lane sort c l = [] <-> ForallOrdPairs disjoint_ranges l.
Proof.
  intros Ho. unfold check_lane. rewrite lane_errors_nil.
  - split; apply fop_perm; try apply _; [|symmetry]; apply sort_permutes.
  - apply sort_orders.
  - by rewrite sort_permutes.
Qed.

(** ** Cases *)

Section theory.
Context (p : Protocol) (idx : TypeIndex) `{!Indexes p idx}.
Hypothesis constants_defined : forall k, k ∈ proto_constants p -> parse_literal (txt (const_value k)) <> None.

Lemma constant_literal_spec s :
  exists v, constant_literal p idx s = Some v
    /\ forall x, v = Some x <-> exists k, k ∈ proto_constants p /\ const_name k = s /\ parse_literal (txt (const_value k)) = Some (Some x).
Proof.
  unfold constant_literal. destruct (idx_constants idx !! s) as [i|] eqn:E.
  - destruct (index_constant_lookup p idx s i E) as (k & Hk & <-). rewrite Hk. cbn.
    assert (k ∈ proto_constants p) as Hin by by eapply list_elem_of_lookup_2.
    destruct (parse_literal (txt (const_value k))) as [v|] eqn:Ev; [|by destruct (constants_defined k Hin)].
    exists v. split; [done|]. intros x. split; [intros ->; eauto|]. intros (k' & Hk' & En & Ev').
    rewrite (constant_name_unique p idx k' k) in Ev' by done. congruence.
  - exists None. split; [done|]. intros x. split; [done|]. intros (k & Hk & En & _). rewrite index_constants in E.
    apply first_pos_None in E. destruct E. subst s. by apply list_elem_of_fmap_2.
Qed.

Lemma literal_or_constant_spec s : parse_literal (txt s) <> None ->
  exists v, literal_or_constant p idx s = Some v /\ forall x, v = Some x <-> value_named p s x.
Proof.
  intros Hd. unfold literal_or_constant, value_named. destruct (parse_literal (txt s)) as [[v|]|]; [..|done]; cbn.
  - exists (Some v). split; [done|]. intros x. naive_solver.
  - destruct (constant_literal_spec s) as (v & -> & Hv). exists v. split; [done|]. intros x. rewrite Hv. naive_solver.
Qed.

Lemma boundary_spec c cs which s : parse_literal (txt s) <> None -> s <> "" ->
  exists v es, boundary p idx c cs which s = Some (v, es)
    /\ (forall x, v = Some x <-> value_named p s x)
    /\ (es = [] <-> (exists x, parse_literal (txt s) = Some (Some x)) \/ s ∈ map const_name (proto_constants p)).
Proof.
  intros Hd Hs. unfold boundary, value_named. destruct (parse_literal (txt s)) as [[v|]|]; [..|done]; cbn.
  - exists (Some v), []. split_and!; naive_solver.
  - destruct (constant_literal_spec s) as (v & E & Hv). destruct (idx_constants idx !! s) as [i|] eqn:Ei.
    + rewrite E. cbn. exists v, []. split_and!; [done| |].
      * intros x. rewrite Hv. naive_solver.
      * split; [|done]. intros _. right. rewrite <- first_pos_is_Some, <- (index_constants (p := p)), Ei. eauto.
    + exists None. apply String.eqb_neq in Hs. rewrite Hs. eexists. split_and!; [done| |].
      * intros x. unfold constant_literal in E. rewrite Ei in E. injection E as <-. rewrite Hv. naive_solver.
      * rewrite index_constants in Ei. apply first_pos_None in Ei. naive_solver.
Qed.

(** Range and errors of one case. *)
Record case_exact (cs : CaseDef) (r : option Range) (es : list ValidationError) : Prop := {
  exact_errors : es = [] <-> range_ok p cs;
  exact_covers : forall v, covers p cs v <-> exists g, r = Some g /\ lo g <= v <= hi g;
  exact_dir : forall g, r = Some g -> dir g = case_direction cs;
  exact_ordered : forall g, r = Some g -> es = [] -> ordered g;
}.

(** A case with both boundaries of its range given. *)
Lemma interval_spec c cs rs a b :
  case_value cs = None -> case_range cs = Some rs -> split_range rs = Some (a, b) -> a <> "" -> b <> "" ->
  parse_literal (txt a) <> None -> parse_literal (txt b) <> None ->
  exists r es, case_range_of p idx c cs = Some (r, es) /\ case_exact cs r es.
Proof.
  intros Ev Er Es Ha Hb Da Db. unfold case_range_of. rewrite Ev, Er, Es.
  rewrite (proj2 (String.eqb_neq a "") Ha), (proj2 (String.eqb_neq b "") Hb). cbn [orb].
  destruct (boundary_spec c cs "low" a) as (l & e1 & -> & Hl & He1); [done..|].
  destruct (boundary_spec c cs "high" b) as (h & e2 & -> & Hh & He2); [done..|].
  cbn [mbind option_bind].
  assert (forall v, covers p cs v <-> exists x y, l = Some x /\ h = Some y /\ x <= v <= y) as Hc.
  { intros v. unfold covers. rewrite Ev, Er. setoid_rewrite Hl. setoid_rewrite Hh. naive_solver. }
  assert (range_ok p cs <-> e1 = [] /\ e2 = [] /\ forall x y, l = Some x -> h = Some y -> x <= y) as Hok.
  { rewrite He1, He2. setoid_rewrite Hl. setoid_rewrite Hh. unfold range_ok. split.
    - intros H. destruct (H rs) as (a' & b' & Es' & _ & _ & H1 & H2); [done|done|]. rewrite Es in Es'.
      injection Es' as <- <-. split_and!; [apply H1; auto|apply H1; auto|done].
    - intros (H1 & H2 & H3) r _ Er'. rewrite Er in Er'. injection Er' as <-. exists a, b. split_and!; [done..| |done]. intros s [->| ->]; done. }
  destruct l as [x|], h as [y|]; do 2 eexists; (split; [done|]); split;
    try (rewrite Hok, app_nil; split; [intros []; split_and!; [done..|by intros]|tauto]);
    try (intros v; rewrite Hc; split; [by intros (? & ? & ? & ? & _)|by intros (? & ? & _)]); try done.
  + rewrite Hok, !app_nil. destruct (Z.ltb_spec y x) as [Hlt|Hge].
    * split; [by intros (_ & _ & ?)|]. intros (_ & _ & H). specialize (H x y eq_refl eq_refl). lia.
    * split; intros (? & ? & _); split_and!; try done. by intros ? ? [= <-] [= <-].
  + intros v. rewrite Hc. split.
    * intros (x' & y' & [= <-] & [= <-] & Hv). by eexists.
    * intros (g & [= <-] & Hg). by exists x, y.
  + by intros g [= <-].
  + intros g [= <-]. rewrite !app_nil. intros (_ & _ & H). destruct (Z.ltb_spec y x); [done|]. done.
Qed.

Lemma case_range_spec c cs : (forall s, s ∈ case_texts cs -> parse_literal (txt s) <> None) ->
  exists r es, case_range_of p idx c cs = Some (r, es) /\ case_exact cs r es.
Proof.
  unfold case_texts, case_range_of. intros Hd. destruct (case_value cs) as [s|] eqn:Ev.
  - destruct (literal_or_constant_spec s) as (v & -> & Hv); [apply Hd; by left|]. cbn. do 2 eexists. split; [done|].
    split.
    + unfold range_ok. rewrite Ev. naive_solver.
    + intros x. unfold covers. rewrite Ev, <- Hv. destruct v as [v|]; [|naive_solver]. split.
      * intros [= ->]. eexists. split; [done|]. cbn. lia.
      * intros (g & [= <-] & Hg). cbn in Hg. f_equal. lia.
    + destruct v; naive_solver.
    + destruct v; [|naive_solver]. intros g [= <-] _. unfold ordered. cbn. lia.
  - destruct (case_range cs) as [rs|] eqn:Er.
    2:{ do 2 eexists. split; [done|]. split; [unfold range_ok|unfold covers; rewrite Ev, Er|..]; naive_solver. }
    destruct (split_range rs) as [[a b]|] eqn:Es.
    2:{ do 2 eexists. split; [done|]. split; [unfold range_ok|unfold covers; rewrite Ev, Er|..]; naive_solver. }
    destruct (decide (a = "")) as [->|Ha]; [|destruct (decide (b = "")) as [->|Hb]].
    3:{ destruct (interval_spec c cs rs a b) as (r & es & E & H); [done..|apply Hd; by left|apply Hd; by right; left|].
        exists r, es. split; [|done]. rewrite <- E. unfold case_range_of. by rewrite Ev, Er, Es. }
    all: rewrite ?orb_true_r; do 2 eexists; (split; [done|]).
    all: split; [unfold range_ok|unfold covers; rewrite Ev, Er|..]; naive_solver.
Qed.

(** ** The whole choice *)

Definition the_range (c : ChoiceDef) (cs : CaseDef) : option Range :=
  match case_range_of p idx c cs with Some (r, _) => r | None => None end.

Lemma case_ranges_spec c l :
  (forall cs s, cs ∈ l -> s ∈ case_texts cs -> parse_literal (txt s) <> None) ->
  exists es, case_ranges p idx c l = Some (omap (the_range c) l, es) /\ (es = [] <-> Forall (range_ok p) l).
Proof.
  induction l as [|cs l IH]; intros Hd; cbn [case_ranges].
  { exists []. split; [done|]. split; [constructor|done]. }
  destruct (case_range_spec c cs) as (r & e & E & H); [intros s; apply Hd; by left|].
  destruct IH as (es & -> & He); [intros cs' s Hcs; apply Hd; by right|].
  assert (the_range c cs = r) as Hr by (unfold the_range; by rewrite E). rewrite E. cbn. rewrite Hr. eexists. split.
  - by destruct r.
  - rewrite app_nil, Forall_cons, He, (exact_errors _ _ _ H). done.
Qed.

(** The ranges of two cases meet where a value is for both. *)
Lemma disjoint_cases_ranges c a b :
  (forall s, s ∈ case_texts a -> parse_literal (txt s) <> None) ->
  (forall s, s ∈ case_texts b -> parse_literal (txt s) <> None) ->
  disjoint_cases p a b <-> forall x y, the_range c a = Some x -> the_range c b = Some y ->
    (in_lane DirSend x = true -> in_lane DirSend y = true -> disjoint_ranges x y)
    /\ (in_lane DirReceive x = true -> in_lane DirReceive y = true -> disjoint_ranges x y).
Proof.
  intros Da Db. unfold the_range.
  destruct (case_range_spec c a Da) as (ra & ea & -> & Ha). destruct (case_range_spec c b Db) as (rb & eb & -> & Hb).
  assert (forall cs r es d, d <> DirBoth -> case_exact cs r es -> forall g, r = Some g -> in_lane d g = true <-> uses d cs) as Hl.
  { intros cs r es d Hd H g Hg. unfold in_lane, uses. rewrite (exact_dir _ _ _ H g Hg).
    destruct (case_direction cs), d; naive_solver. }
  unfold disjoint_cases, disjoint_ranges. setoid_rewrite (exact_covers _ _ _ Ha). setoid_rewrite (exact_covers _ _ _ Hb). split.
  - intros H x y -> ->. split; intros Lx Ly v Hx Hy.
    + apply (H DirSend v); [done|by eapply (Hl a); [|exact Ha|..]|by eapply (Hl b); [|exact Hb|..]|eauto..].
    + apply (H DirReceive v); [done|by eapply (Hl a); [|exact Ha|..]|by eapply (Hl b); [|exact Hb|..]|eauto..].
  - intros H d v Hd Ua Ub (x & -> & Hx) (y & -> & Hy). destruct (H x y eq_refl eq_refl) as [Hs Hr].
    destruct d; [done|apply (Hs) with v|apply (Hr) with v]; try done;
      solve [by apply (Hl _ _ _ _ Hd Ha x) | by apply (Hl _ _ _ _ Hd Hb y)].
Qed.

Lemma ranges_ordered c l :
  (forall cs s, cs ∈ l -> s ∈ case_texts cs -> parse_literal (txt s) <> None) ->
  Forall (range_ok p) l -> Forall ordered (omap (the_range c) l).
Proof.
  intros Hd. rewrite !Forall_forall. intros Hok g (cs & Hcs & Hg)%list_elem_of_omap.
  destruct (case_range_spec c cs) as (r & es & E & H); [intros s; by apply Hd|]. unfold the_range in Hg. rewrite E in Hg.
  subst r. apply (exact_ordered _ _ _ H); [done|]. by apply (exact_errors _ _ _ H), Hok.
Qed.

Lemma filter_forall {A} (P : A -> Prop) f l : Forall P l -> Forall P (List.filter f l).
Proof. induction 1; cbn; [constructor|]. destruct (f x); [by constructor|done]. Qed.

Lemma forall_and {A} (P Q : A -> Prop) (R S : A -> A -> Prop) :
  ((forall x y, P x -> Q y -> R x y) /\ (forall x y, P x -> Q y -> S x y)) <-> (forall x y, P x -> Q y -> R x y /\ S x y).
Proof. split; [intros [H1 H2] x y Hx Hy; split; auto|]. intros H. split; intros x y Hx Hy; by apply H. Qed.

Lemma fop_local {A} (R S : A -> A -> Prop) l :
  (forall a b, a ∈ l -> b ∈ l -> R a b <-> S a b) -> ForallOrdPairs R l <-> ForallOrdPairs S l.
Proof.
  induction l as [|x l IH]; intros H; [split; constructor|].
  assert (ForallOrdPairs R l <-> ForallOrdPairs S l) as E by (apply IH; intros; apply H; by right).
  split; inversion 1 as [|? ? Hx Ht]; subst; (constructor; [|by apply E]); rewrite Forall_forall in *; intros y Hy;
    (apply H; [by left|by right|by apply Hx]).
Qed.

Lemma check_overlap_spec sort `{!SortsByLo sort} c :
  (forall cs s, cs ∈ ch_cases c -> s ∈ case_texts cs -> parse_literal (txt s) <> None) ->
  exists es, check_case_overlap sort p idx c = Some es
    /\ (es = [] <-> Forall (range_ok p) (ch_cases c) /\ ForallOrdPairs (disjoint_cases p) (ch_cases c)).
Proof.
  intros Hd. unfold check_case_overlap. destruct (case_ranges_spec c (ch_cases c) Hd) as (es & -> & He). cbn [mbind option_bind].
  eexists. split; [reflexivity|]. rewrite !app_nil, He. split.
  - intros (Hok & Hs & Hr). split; [done|]. pose proof (ranges_ordered c _ Hd Hok) as Ho.
    apply (check_lane_nil sort) in Hs, Hr; try by apply filter_forall.
    rewrite fop_filter, fop_omap in Hs, Hr.
    pose proof (proj1 (fop_and _ _ _) (conj Hs Hr)) as H. eapply fop_local, H.
    intros a b Ha Hb. rewrite (disjoint_cases_ranges c) by eauto. first [apply forall_and|symmetry; apply forall_and].
  - intros (Hok & Hp). split; [done|]. pose proof (ranges_ordered c _ Hd Hok) as Ho.
    rewrite !(check_lane_nil sort c) by (try apply _; by apply filter_forall). rewrite !fop_filter, !fop_omap.
    apply fop_and. eapply fop_local, Hp. intros a b Ha Hb. rewrite (disjoint_cases_ranges c) by eauto. first [apply forall_and|symmetry; apply forall_and].
Qed.
End theory.

(** C36: The overlap check of a choice is exact.  For every way [std::sort] may
    order equal elements, the check ends and reports nothing if and only if
    every range has two boundaries that are literals or constants, in order, and
    no switch value selects two cases that one direction uses; a send-only and a
    receive-only case may share values. *)
Theorem case_overlap_exact (sort : list Range -> list Range) (p p' : Protocol) (idx : TypeIndex) (c : ChoiceDef) :
  SortsByLo sort -> literals_defined p -> resolve_types p = Some (Resolved idx, p') -> case_literals_defined p' c ->
  exists es, check_case_overlap sort p' idx c = Some es
    /\ (es = [] <-> Forall (range_ok p') (ch_cases c) /\ ForallOrdPairs (disjoint_cases p') (ch_cases c)).
Proof.
  intros HS Hl E [Hk Hc]. pose proof (resolved_index p p' idx Hl E). by apply check_overlap_spec.
Qed.

(** A sorting routine that meets the contract. *)
#[export] Instance lo_le_dec : RelDecision lo_le.
Proof. intros a b. unfold lo_le. apply _. Defined.

Definition stable_sort : list Range -> list Range := merge_sort lo_le.

Lemma stable_sort_sorts : SortsByLo stable_sort.
Proof.
  assert (Transitive lo_le) by (intros a b d; unfold lo_le; lia).
  assert (Total lo_le) by (intros a b; unfold lo_le; lia).
  split; intros l; [apply merge_sort_Permutation|by apply StronglySorted_merge_sort].
Qed.

(** A case of a sample choice, by value or by range. *)
Definition sample_case (name : string) (value range : option string) (d : Direction) : CaseDef :=
  mkCaseDef name "" [] value range d None [] "" unknown_loc.

Definition sample_choice (cases : list CaseDef) : ChoiceDef :=
  mkChoiceDef "body" None cases None None None None None None [] "" unknown_loc.

Definition lanes_choice : ChoiceDef :=
  sample_choice [sample_case "ack" (Some "1") None DirBoth; sample_case "low" None (Some "2..0x0F") DirSend;
                 sample_case "high" None (Some "3..20") DirReceive].

Lemma lanes_choice_defined : case_literals_defined sample_protocol lanes_choice.
Proof.
  split.
  - intros k Hk. by apply elem_of_nil in Hk.
  - assert (Forall (fun cs => Forall (fun s => parse_literal (txt s) <> None) (case_texts cs)) (ch_cases lanes_choice)) as H.
    { repeat first [apply Forall_nil; exact I | apply Forall_cons; split | (vm_compute; discriminate)]. }
    intros cs s Hcs Hs. rewrite Forall_forall in H. specialize (H cs Hcs). rewrite Forall_forall in H. auto.
Qed.

Lemma case_overlap_exact_witness :
  exists idx p', resolve_types sample_protocol = Some (Resolved idx, p')
    /\ ForallOrdPairs (disjoint_cases p') (ch_cases lanes_choice).
Proof.
  destruct (resolve_types sample_protocol) as [[[idx|] p']|] eqn:E; [|vm_compute in E; discriminate..].
  exists idx, p'. split; [done|].
  destruct (case_overlap_exact stable_sort sample_protocol p' idx lanes_choice) as (es & Es & H).
  - exact stable_sort_sorts.
  - exact sample_literals_defined.
  - exact E.
  - pose proof lanes_choice_defined as D. unfold case_literals_defined in *. vm_compute in E. injection E as <- <-. exact D.
  - apply H. vm_compute in E. injection E as <- <-. vm_compute in Es. congruence.
Defined.

(** The overlap errors of a choice in the sample protocol. *)
Definition overlaps (c : ChoiceDef) : option nat :=
  length <$> check_case_overlap stable_sort sample_protocol (mkIndex ∅ ∅ ∅ ∅ ∅) c.

Example overlap_counts :
  map overlaps [lanes_choice;
    sample_choice [sample_case "a" None (Some "0..100") DirBoth; sample_case "b" (Some "7") None DirSend];
    sample_choice [sample_case "a" None (Some "5..1") DirBoth]; sample_choice [sample_case "a" None (Some "5-9") DirBoth]]
  = [Some 0; Some 1; Some 1; Some 1]%nat.
Proof. vm_compute. reflexivity. Qed.
