(* ===== verification/WireSizer.v ===== *)
(** * Wire sizes

    Models [conduit/bgen/src/analyzer/wire_sizer.hpp] and [wire_sizer.cpp]: which
    types, structs and messages have a fixed size on the wire, and which one.
    [size_t] arithmetic wraps at 64 bits.  A computation returns [None] when it
    follows a pointer outside the protocol or when its fuel is spent; the
    theorems show that neither happens. *)

From stdpp Require Import base numbers list gmap strings.
From Stdlib Require Import ZArith Lia.
From S2P Require Import Prelude CharConv AutoExpr ExprParser Ast AstBuilder TypeResolver ProtocolIndex.

Open Scope Z_scope.

(** [std::optional<size_t>]: [None] is a dynamic size. *)
Abbreviation WireSize := (option Z).

(** [info_.sizes]. *)
Abbreviation Sizes := (gmap string WireSize).
Definition get (sizes : Sizes) (name : string) : WireSize := default None (sizes !! name).

Definition to_bytes (bits : Z) : Z := sz (bits + 7) / 8.

Definition compute_type_size (t : TypeDef) : WireSize :=
  match td_base t with
  | BaseString =>
      match td_length t with
      | Some n =>
          match td_char_bits t with
          | Some cb => Some (to_bytes (sz (sz n * sz cb)))
          | None => Some (sz n)
          end
      | None => None
      end
  | BaseBytes => sz <$> td_length t
  | BaseBool => if 0 <? td_bits t then Some (to_bytes (sz (td_bits t))) else Some 1
  | _ => if 0 <? td_bits t then Some (to_bytes (sz (td_bits t))) else None
  end.

(** The bit count of a type, as fields and arrays take it. *)
Definition type_bits (t : TypeDef) : WireSize :=
  match td_base t with
  | BaseString =>
      match td_length t with
      | Some n =>
          match td_char_bits t with
          | Some cb => Some (sz (sz n * sz cb))
          | None => Some (sz (sz n * 8))
          end
      | None => None
      end
  | BaseBytes => (fun n => sz (sz n * 8)) <$> td_length t
  | BaseBool => Some (if 0 <? td_bits t then sz (td_bits t) else 1)
  | _ => if 0 <? td_bits t then Some (sz (td_bits t)) else None
  end.

(** The accumulation over a list of children: every child is visited. *)
Section sum_bits.
Variable f : StructChild -> option WireSize.

Fixpoint sum_bits (l : list StructChild) (total : Z) (all_fixed : bool) : option WireSize :=
  match l with
  | [] => Some (if all_fixed then Some total else None)
  | c :: l =>
      s ← f c;
      match s with
      | Some n => sum_bits l (sz (total + n)) all_fixed
      | None => sum_bits l total false
      end
  end.
End sum_bits.

Section sizer.
Variable p : Protocol.
Variable idx : TypeIndex.

Section child.
(** Entering a struct or message by name: the cycle check and the recursion. *)
Variable enter : string -> list StructChild -> option WireSize.

(** The size of a referenced definition; [on_type] for a plain type. *)
Definition ref_bits (on_type : TypeDef -> WireSize) (name : string) : option WireSize :=
  match find idx name with
  | Some (RType i) => td ← proto_types p !! i; Some (on_type td)
  | Some (RStruct i) => s ← proto_structs p !! i; enter (sd_name s) (sd_children s)
  | Some (RMessage i) => m ← proto_messages p !! i; enter (msg_name m) (msg_children m)
  | None => Some None
  end.

Definition compute_field_size_bits (f : Field) : option WireSize :=
  if is_some (f_bit f) || is_some (f_present_when f) then Some None
  else if f_is_inline f && negb (String.eqb (f_type_ref f) "") then ref_bits (fun _ => None) (f_type_ref f)
  else match f_bits f with
  | Some n => Some (Some (sz (Z.max 0 n)))
  | None =>
      match f_bytes_attr f with
      | Some n => Some (Some (sz (sz (Z.max 0 n) * 8)))
      | None =>
          if String.eqb (f_type_ref f) "" then Some None
          else if String.eqb (f_type_ref f) "bytes" || String.eqb (f_type_ref f) "string" then
            Some ((fun n => sz (sz (Z.max 0 n) * 8)) <$> f_length f)
          else ref_bits type_bits (f_type_ref f)
      end
  end.

(** [children_bits] sizes the children of an inline element. *)
Definition compute_array_size_bits (children_bits : list StructChild -> option WireSize) (a : ArrayDef)
  : option WireSize :=
  if count_star a || is_some (count_from a) || count_fx a then Some None
  else if is_some (ad_bit a) || is_some (ad_present_when a) then Some None
  else match fixed_count a with
  | None => Some None
  | Some n =>
      elem ← (if String.eqb (ad_type_ref a) "" then children_bits (ad_children a)
              else ref_bits type_bits (ad_type_ref a));
      Some (match elem with Some e => Some (sz (sz n * e)) | None => None end)
  end.

Fixpoint child_bits (c : StructChild) : option WireSize :=
  match c with
  | ChField f => compute_field_size_bits f
  | ChStruct s =>
      if is_some (sd_bit s) || is_some (sd_present_when s) then Some None
      else if is_bitmap s then Some None
      else sum_bits child_bits (sd_children s) 0 true
  | ChArray a => compute_array_size_bits (fun l => sum_bits child_bits l 0 true) a
  | ChReserved r => Some (Some (sz (res_bits r)))
  | ChChoice _ | ChFx _ | ChAlign _ => Some None
  end.
End child.

(** [visiting] is [visiting_]: a name is inserted before the recursion and
    erased after it. *)
Fixpoint compute_children_size_bits (fuel : nat) (visiting : gset string) (l : list StructChild) : option WireSize :=
  match fuel with
  | O => None
  | S fuel =>
      sum_bits (child_bits (fun name cs =>
        if bool_decide (name ∈ visiting) then Some None
        else compute_children_size_bits fuel ({[name]} ∪ visiting) cs)) l 0 true
  end.

(** Names are entered at most once along a path. *)
Definition nesting_fuel : nat := S (length (proto_structs p) + length (proto_messages p)).

Definition compute_children_size (l : list StructChild) : option WireSize :=
  bits ← compute_children_size_bits nesting_fuel ∅ l;
  Some (match bits with Some n => Some (to_bytes n) | None => None end).

Definition compute_struct_size (s : StructDef) : option WireSize :=
  if is_bitmap s then Some None else compute_children_size (sd_children s).

(** One round of [while (changed)]. *)
Fixpoint struct_pass (ss : list StructDef) (sizes : Sizes) (changed : bool) : option (Sizes * bool) :=
  match ss with
  | [] => Some (sizes, changed)
  | s :: ss =>
      match get sizes (sd_name s) with
      | Some _ => struct_pass ss sizes changed
      | None =>
          r ← compute_struct_size s;
          match r with
          | Some n => struct_pass ss (<[sd_name s := Some n]> sizes) true
          | None => struct_pass ss sizes changed
          end
      end
  end.

Fixpoint fixed_point (rounds : nat) (sizes : Sizes) : option Sizes :=
  match rounds with
  | O => None
  | S rounds =>
      '(sizes, changed) ← struct_pass (proto_structs p) sizes false;
      if changed : bool then fixed_point rounds sizes else Some sizes
  end.

Fixpoint message_pass (ms : list MessageDef) (sizes : Sizes) : option Sizes :=
  match ms with
  | [] => Some sizes
  | m :: ms => r ← compute_children_size (msg_children m); message_pass ms (<[msg_name m := r]> sizes)
  end.

(** A round does not read the sizes it computes, so the second one changes
    nothing. *)
Definition compute_wire_sizes : option Sizes :=
  let sizes := fold_left (fun m t => <[td_name t := compute_type_size t]> m) (proto_types p) ∅ in
  sizes ← fixed_point 2 sizes;
  let sizes := fold_left (fun m s => match m !! sd_name s with
                                     | Some _ => m
                                     | None => <[sd_name s := None]> m
                                     end) (proto_structs p) sizes in
  message_pass (proto_messages p) sizes.
End sizer.

(** ** Layouts

    What it means for children to have a fixed size in bits: every part is
    unconditional and has one, and references nest finitely.  [sized] says which
    structs a reference may name. *)

Section layout.
Variable p : Protocol.
Variable idx : TypeIndex.

Variable sized : StructDef -> Prop.

Inductive layout : list StructChild -> Z -> Prop :=
  | layout_nil : layout [] 0
  | layout_cons c l n m : child_layout c n -> layout l m -> layout (c :: l) (n + m)
with child_layout : StructChild -> Z -> Prop :=
  | layout_bits f n : f_bit f = None -> f_present_when f = None ->
      f_is_inline f = false \/ f_type_ref f = "" ->
      f_bits f = Some n -> child_layout (ChField f) (Z.max 0 n)
  | layout_bytes f n : f_bit f = None -> f_present_when f = None ->
      f_is_inline f = false \/ f_type_ref f = "" -> f_bits f = None ->
      f_bytes_attr f = Some n -> child_layout (ChField f) (8 * Z.max 0 n)
  | layout_text f n : f_bit f = None -> f_present_when f = None -> f_is_inline f = false ->
      f_bits f = None -> f_bytes_attr f = None -> f_type_ref f = "bytes" \/ f_type_ref f = "string" ->
      f_length f = Some n -> child_layout (ChField f) (8 * Z.max 0 n)
  | layout_typed f n : f_bit f = None -> f_present_when f = None -> f_is_inline f = false ->
      f_bits f = None -> f_bytes_attr f = None -> f_type_ref f <> "" ->
      f_type_ref f <> "bytes" -> f_type_ref f <> "string" ->
      ref_layout (f_type_ref f) n -> child_layout (ChField f) n
  | layout_inline f n : f_bit f = None -> f_present_when f = None -> f_is_inline f = true ->
      f_type_ref f <> "" -> composite_layout (f_type_ref f) n -> child_layout (ChField f) n
  | layout_struct s n : sd_bit s = None -> sd_present_when s = None -> is_bitmap s = false ->
      layout (sd_children s) n -> child_layout (ChStruct s) n
  | layout_array a k n : count_star a = false -> count_from a = None -> count_fx a = false ->
      ad_bit a = None -> ad_present_when a = None -> fixed_count a = Some k -> ad_type_ref a = "" ->
      layout (ad_children a) n -> child_layout (ChArray a) (k * n)
  | layout_typed_array a k n : count_star a = false -> count_from a = None -> count_fx a = false ->
      ad_bit a = None -> ad_present_when a = None -> fixed_count a = Some k -> ad_type_ref a <> "" ->
      ref_layout (ad_type_ref a) n -> child_layout (ChArray a) (k * n)
  | layout_reserved r : child_layout (ChReserved r) (res_bits r)
with ref_layout : string -> Z -> Prop :=
  | ref_type name i td n : find idx name = Some (RType i) -> proto_types p !! i = Some td ->
      type_bits td = Some n -> ref_layout name n
  | ref_composite name n : composite_layout name n -> ref_layout name n
with composite_layout : string -> Z -> Prop :=
  | ref_struct name i s n : find idx name = Some (RStruct i) -> proto_structs p !! i = Some s ->
      sized s -> layout (sd_children s) n -> composite_layout name n
  | ref_message name i m n : find idx name = Some (RMessage i) -> proto_messages p !! i = Some m ->
      layout (msg_children m) n -> composite_layout name n.

Scheme layout_mut := Minimality for layout Sort Prop
  with child_layout_mut := Minimality for child_layout Sort Prop
  with ref_layout_mut := Minimality for ref_layout Sort Prop
  with composite_layout_mut := Minimality for composite_layout Sort Prop.
Combined Scheme layout_mutind from layout_mut, child_layout_mut, ref_layout_mut, composite_layout_mut.
End layout.

(** A struct with a presence bitmap has no fixed size, and so neither has what refers
    to it.  The code asks for this of a struct itself and of one nested in place, but
    not of one that is referred to. *)
Definition no_bitmap (s : StructDef) : Prop := is_bitmap s = false.
Definition any_struct (s : StructDef) : Prop := True.

(** ** Sums *)

Lemma sz_add_l a b : sz (sz a + b) = sz (a + b).
Proof. unfold sz, wrap. by rewrite Z.add_mod_idemp_l. Qed.
Lemma sz_add_r a b : sz (a + sz b) = sz (a + b).
Proof. unfold sz, wrap. by rewrite Z.add_mod_idemp_r. Qed.
Lemma sz_mul a b : sz (sz a * sz b) = sz (a * b).
Proof. unfold sz, wrap. by rewrite <- Z.mul_mod. Qed.
Lemma sz_octets n : sz (sz n * 8) = sz (8 * n).
Proof. unfold sz, wrap. rewrite Z.mul_mod_idemp_l by done. by rewrite Z.mul_comm. Qed.
Lemma sz_sz a : sz (sz a) = sz a.
Proof. unfold sz, wrap. by rewrite Z.mod_mod. Qed.

(** A sum is fixed exactly when every term is. *)
Lemma sum_bits_fixed f l t b k :
  sum_bits f l t b = Some (Some k) <->
  b = true /\ exists ks, Forall2 (fun c n => f c = Some (Some n)) l ks /\ k = fold_left (fun t n => sz (t + n)) ks t.
Proof.
  revert t b. induction l as [|c l IH]; intros t b; cbn.
  - split.
    + destruct b; intros [= ->]. split; [done|]. exists []. by split; [constructor|].
    + intros (-> & ks & H & ->). by inversion H.
  - destruct (f c) as [[n|]|] eqn:E; cbn.
    + rewrite IH. split.
      * intros (-> & ks & H & ->). split; [done|]. exists (n :: ks). by split; [constructor|].
      * intros (-> & ks & H & ->). split; [done|]. inversion H as [|? n' ? ks' E' H']; simplify_eq. by exists ks'.
    + rewrite IH. split; [by intros [? _]|]. intros (_ & ks & H & _). inversion H. congruence.
    + split; [done|]. intros (_ & ks & H & _). inversion H. congruence.
Qed.

Lemma fold_sz ks t : sz (fold_left (fun t n => sz (t + n)) ks t) = sz (t + foldr Z.add 0 ks).
Proof.
  revert t. induction ks as [|n ks IH]; intros t; cbn; [by rewrite Z.add_0_r|].
  by rewrite IH, sz_add_l, <- Z.add_assoc.
Qed.

Lemma fold_sz_0 ks : fold_left (fun t n => sz (t + n)) ks 0 = sz (foldr Z.add 0 ks).
Proof.
  rewrite <- (Z.add_0_l (foldr _ _ _)), <- fold_sz. symmetry. destruct ks as [|n ks]; [done|]. cbn.
  generalize (0 + n). induction ks as [|m ks IH]; intros x; cbn; [apply sz_sz|]. rewrite sz_add_l. apply IH.
Qed.

Lemma sum_bits_total f l t b :
  Forall (fun c => exists v, f c = Some v) l -> exists v, sum_bits f l t b = Some v.
Proof.
  intros H. revert t b. induction H as [|c l [v Hv] _ IH]; intros t b; cbn; [by eexists|].
  rewrite Hv. cbn. destruct v; apply IH.
Qed.

Lemma sum_bits_mono f g l k :
  Forall (fun c => forall n, f c = Some (Some n) -> g c = Some (Some n)) l ->
  sum_bits f l 0 true = Some (Some k) -> sum_bits g l 0 true = Some (Some k).
Proof.
  intros Hfg. rewrite !sum_bits_fixed. intros (_ & ks & H & ->). split; [done|]. exists ks. split; [|done].
  induction H; inversion Hfg; subst; constructor; auto.
Qed.

Section theory.
Variable p : Protocol.
Variable idx : TypeIndex.
Hypothesis Hidx : forall n d, find idx n = Some d <-> declares p n d.

(** The definitions [enter] is called on. *)
Definition entered (name : string) (cs : list StructChild) : Prop :=
  (exists i s, find idx name = Some (RStruct i) /\ proto_structs p !! i = Some s /\ sd_children s = cs)
  \/ (exists i m, find idx name = Some (RMessage i) /\ proto_messages p !! i = Some m /\ msg_children m = cs).

Lemma entered_unique name cs cs' : entered name cs -> entered name cs' -> cs = cs'.
Proof. intros [(i & s & ? & ? & <-)|(i & s & ? & ? & <-)] [(j & s' & ? & ? & <-)|(j & s' & ? & ? & <-)]; by simplify_eq. Qed.

Lemma ref_bits_cases enter on_type name :
  (exists td, ref_bits p idx enter on_type name = Some (on_type td)
     /\ exists i, find idx name = Some (RType i) /\ proto_types p !! i = Some td)
  \/ (exists cs, entered name cs /\ ref_bits p idx enter on_type name = enter name cs)
  \/ find idx name = None /\ ref_bits p idx enter on_type name = Some None.
Proof.
  unfold ref_bits. destruct (find idx name) as [[i|i|i]|] eqn:E; [..|by auto]; pose proof (proj1 (Hidx _ _) E) as D; cbn in D.
  - destruct (proto_types p !! i) as [td|] eqn:Et; [|done]. left. exists td. split; [done|]. by exists i.
  - destruct (proto_structs p !! i) as [s|] eqn:Es; [|done]. injection D as D. right. left. exists (sd_children s).
    split; [left; by exists i, s|]. cbn. by rewrite D.
  - destruct (proto_messages p !! i) as [m|] eqn:Em; [|done]. injection D as D. right. left. exists (msg_children m).
    split; [right; by exists i, m|]. cbn. by rewrite D.
Qed.

(** ** Totality *)

Lemma ref_bits_total enter on_type name :
  (forall n cs, entered n cs -> exists v, enter n cs = Some v) -> exists v, ref_bits p idx enter on_type name = Some v.
Proof.
  intros H. destruct (ref_bits_cases enter on_type name) as [(td & -> & _)|[(cs & Hc & ->)|(_ & ->)]]; eauto.
Qed.

Lemma child_bits_total enter c :
  (forall n cs, entered n cs -> exists v, enter n cs = Some v) -> exists v, child_bits p idx enter c = Some v.
Proof.
  intros H. pose proof (fun ot n => ref_bits_total enter ot n H) as Hr.
  induction c as [f|s IH|a IH|c IHc IHo|x IH|r|a] using child_ind; cbn [child_bits]; unfold compute_array_size_bits; eauto.
  - unfold compute_field_size_bits. repeat (case_match; eauto).
  - repeat (destruct_if; eauto). by apply sum_bits_total.
  - destruct_if; eauto. destruct_if; eauto. destruct (fixed_count a); eauto.
    assert (exists v, (if String.eqb (ad_type_ref a) "" then sum_bits (child_bits p idx enter) (ad_children a) 0 true
      else ref_bits p idx enter type_bits (ad_type_ref a)) = Some v) as [v ->]; [|eauto].
    destruct_if; [by apply sum_bits_total|apply Hr].
Qed.

Lemma entered_name name cs : entered name cs -> name ∈ composite_names p.
Proof.
  intros [(i & s & E & Es & _)|(i & m & E & Em & _)]; apply Hidx in E; cbn in E; apply elem_of_app.
  - left. rewrite Es in E. injection E as <-. by apply list_elem_of_fmap_2, (list_elem_of_lookup_2 _ i).
  - right. rewrite Em in E. injection E as <-. by apply list_elem_of_fmap_2, (list_elem_of_lookup_2 _ i).
Qed.

Lemma children_bits_total fuel visiting l :
  (size (unvisited p visiting) < fuel)%nat -> exists v, compute_children_size_bits p idx fuel visiting l = Some v.
Proof.
  revert visiting l. induction fuel as [|fuel IH]; intros visiting l Hf; [lia|]. cbn.
  apply sum_bits_total, Forall_forall. intros c _. apply child_bits_total. intros n cs Hn.
  case_bool_decide as Hv; [by eexists|]. apply IH. rewrite <- (unvisited_less p visiting n) in Hf by (try done; by eapply entered_name). lia.
Qed.

(** ** Soundness: a fixed size is that of a layout *)

Lemma type_bits_range td n : type_bits td = Some n -> sz n = n.
Proof.
  unfold type_bits. destruct (td_base td); repeat case_match; cbn; intros; simplify_eq; rewrite ?sz_sz; try done.
  all: destruct (td_length td); cbn in *; simplify_eq; by rewrite sz_sz.
Qed.

Lemma is_some_orb {A B} (a : option A) (b : option B) : is_some a || is_some b = false -> a = None /\ b = None.
Proof. by destruct a, b. Qed.

Section sound.
Variable enter : string -> list StructChild -> option WireSize.
Hypothesis Henter : forall n cs k, entered n cs -> enter n cs = Some (Some k) -> exists m, layout p idx any_struct cs m /\ k = sz m.

Lemma entered_sound name cs k :
  entered name cs -> enter name cs = Some (Some k) -> exists m, composite_layout p idx any_struct name m /\ k = sz m.
Proof.
  intros He Hk. destruct (Henter _ _ _ He Hk) as (m & Hm & ->). exists m. split; [|done].
  destruct He as [(i & s & E & Es & <-)|(i & d & E & Ed & <-)]; [by eapply (ref_struct _ _ _ name i s)|by eapply ref_message].
Qed.

Lemma ref_bits_sound name k :
  ref_bits p idx enter type_bits name = Some (Some k) -> exists m, ref_layout p idx any_struct name m /\ k = sz m.
Proof.
  destruct (ref_bits_cases enter type_bits name) as [(td & -> & i & Hi & Ht)|[(cs & Hc & ->)|(_ & ->)]]; intros E; [| |done].
  - injection E as E. exists k. split; [by eapply ref_type|]. symmetry. by eapply type_bits_range.
  - destruct (entered_sound _ _ _ Hc E) as (m & Hm & ->). exists m. split; [by apply ref_composite|done].
Qed.

Lemma inline_bits_sound name k :
  ref_bits p idx enter (fun _ => None) name = Some (Some k) -> exists m, composite_layout p idx any_struct name m /\ k = sz m.
Proof.
  destruct (ref_bits_cases enter (fun _ => None) name) as [(td & -> & _)|[(cs & Hc & ->)|(_ & ->)]]; intros E; [done| |done].
  by apply (entered_sound name cs).
Qed.

Lemma sum_bits_sound f l k :
  Forall (fun c => forall k, f c = Some (Some k) -> exists m, child_layout p idx any_struct c m /\ k = sz m) l ->
  sum_bits f l 0 true = Some (Some k) -> exists m, layout p idx any_struct l m /\ k = sz m.
Proof.
  intros Hf. rewrite sum_bits_fixed. intros (_ & ks & H & ->). rewrite fold_sz_0.
  induction H as [|c n l ks Hc _ IH]; cbn; [exists 0; by split; [constructor|]|].
  apply Forall_cons in Hf as [Hf Hl]. destruct (Hf _ Hc) as (m & Hm & ->). destruct (IH Hl) as (m' & Hm' & E).
  exists (m + m'). split; [by constructor|]. by rewrite sz_add_l, <- (sz_add_r m), E, sz_add_r.
Qed.

Lemma field_bits_sound f k :
  compute_field_size_bits p idx enter f = Some (Some k) -> exists m, child_layout p idx any_struct (ChField f) m /\ k = sz m.
Proof.
  unfold compute_field_size_bits. destruct (is_some _ || is_some _) eqn:E0; [done|]. apply is_some_orb in E0 as [Hb Hp].
  destruct (f_is_inline f) eqn:Ei; destruct (String.eqb_spec (f_type_ref f) "") as [Er|Er]; cbn [andb negb].
  2: { intros H. destruct (inline_bits_sound _ _ H) as (m & Hm & ->). exists m. split; [by apply layout_inline|done]. }
  all: destruct (f_bits f) as [n|] eqn:En;
    [intros [= <-]; exists (Z.max 0 n); split; [apply layout_bits; auto|done]|].
  all: destruct (f_bytes_attr f) as [n'|] eqn:Eb;
    [intros [= <-]; exists (8 * Z.max 0 n'); split; [apply layout_bytes; auto|apply sz_octets]|].
  all: try done.
  destruct (String.eqb_spec (f_type_ref f) "bytes") as [E1|E1]; [|destruct (String.eqb_spec (f_type_ref f) "string") as [E2|E2]].
  1,2: cbn; destruct (f_length f) as [n|] eqn:El; [|done]; intros [= <-]; exists (8 * Z.max 0 n);
    split; [by apply layout_text; auto|apply sz_octets].
  cbn. intros H. destruct (ref_bits_sound _ _ H) as (m & Hm & ->). exists m. split; [by apply layout_typed|done].
Qed.

Lemma child_bits_sound c k :
  child_bits p idx enter c = Some (Some k) -> exists m, child_layout p idx any_struct c m /\ k = sz m.
Proof.
  revert k. induction c as [f|s IH|a IH|c IHc IHo|x IH|r|a] using child_ind; intros k; cbn [child_bits]; unfold compute_array_size_bits; try done.
  - apply field_bits_sound.
  - destruct (is_some _ || is_some _) eqn:E0; [done|]. apply is_some_orb in E0 as [Hb Hp].
    destruct (is_bitmap s) eqn:Ebm; [done|]. intros H. destruct (sum_bits_sound _ _ _ IH H) as (m & Hm & ->).
    exists m. split; [by apply layout_struct|done].
  - destruct (count_star a) eqn:Es; [done|]. destruct (count_from a) eqn:Ef; [done|]. destruct (count_fx a) eqn:Ex; [done|].
    cbn. destruct (is_some _ || is_some _) eqn:E0; [done|]. apply is_some_orb in E0 as [Hb Hp].
    destruct (fixed_count a) as [n|] eqn:En; [|done]. destruct (String.eqb_spec (ad_type_ref a) "") as [Er|Er].
    + destruct (sum_bits _ _ _ _) as [[e|]|] eqn:E; cbn; try done. intros [= <-].
      destruct (sum_bits_sound _ _ _ IH E) as (m & Hm & ->). exists (n * m). split; [by apply layout_array|apply sz_mul].
    + destruct (ref_bits _ _ _ _ _) as [[e|]|] eqn:E; cbn; try done. intros [= <-].
      destruct (ref_bits_sound _ _ E) as (m & Hm & ->). exists (n * m). split; [by apply layout_typed_array|apply sz_mul].
  - intros [= <-]. exists (res_bits r). split; [constructor|done].
Qed.
End sound.

Lemma children_bits_sound fuel visiting l k :
  compute_children_size_bits p idx fuel visiting l = Some (Some k) -> exists m, layout p idx any_struct l m /\ k = sz m.
Proof.
  revert visiting l k. induction fuel as [|fuel IH]; intros visiting l k; cbn; [done|].
  apply sum_bits_sound, Forall_forall. intros c _ k'. apply child_bits_sound.
  intros n cs j _. case_bool_decide; [done|]. apply IH.
Qed.

(** ** Completeness: the cycle check loses no layout *)

Lemma ref_bits_mono r1 r2 on_type name k :
  (forall n cs j, entered n cs -> r1 n cs = Some (Some j) -> r2 n cs = Some (Some j)) ->
  ref_bits p idx r1 on_type name = Some (Some k) -> ref_bits p idx r2 on_type name = Some (Some k).
Proof.
  intros H. unfold ref_bits. destruct (find idx name) as [[i|i|i]|] eqn:E; [done|..|done];
    pose proof (proj1 (Hidx _ _) E) as D; cbn in D.
  - destruct (proto_structs p !! i) as [s|] eqn:Es; [|done]. injection D as D. cbn. apply H. left. exists i, s. by rewrite D.
  - destruct (proto_messages p !! i) as [m|] eqn:Em; [|done]. injection D as D. cbn. apply H. right. exists i, m. by rewrite D.
Qed.

Lemma child_bits_mono r1 r2 c k :
  (forall n cs j, entered n cs -> r1 n cs = Some (Some j) -> r2 n cs = Some (Some j)) ->
  child_bits p idx r1 c = Some (Some k) -> child_bits p idx r2 c = Some (Some k).
Proof.
  intros H. revert k. induction c as [f|s IH|a IH|c IHc IHo|x IH|r|a] using child_ind; intros k; cbn [child_bits]; unfold compute_array_size_bits; try done.
  - unfold compute_field_size_bits. repeat case_match; try done; by apply ref_bits_mono.
  - repeat case_match; try done. by apply sum_bits_mono.
  - repeat case_match; try done.
    + destruct (sum_bits (child_bits p idx r1) _ _ _) as [[e|]|] eqn:E; try done.
      by rewrite (sum_bits_mono _ (child_bits p idx r2) _ _ IH E).
    + destruct (ref_bits p idx r1 _ _) as [[e|]|] eqn:E; try done. by rewrite (ref_bits_mono _ _ _ _ _ H E).
Qed.

(** The same computation without the cycle check, cut off at a height. *)
Fixpoint plain (h : nat) (l : list StructChild) : option WireSize :=
  match h with
  | O => Some None
  | S h => sum_bits (child_bits p idx (fun _ cs => plain h cs)) l 0 true
  end.

Lemma plain_step h l k : plain h l = Some (Some k) -> plain (S h) l = Some (Some k).
Proof.
  revert l k. induction h as [|h IH]; intros l k; [done|]. intros H. cbn [plain] in *.
  eapply sum_bits_mono; [|exact H]. apply Forall_forall. intros c _ n. apply child_bits_mono. intros _ cs j _. apply IH.
Qed.

Lemma plain_mono h h' l k : (h <= h')%nat -> plain h l = Some (Some k) -> plain h' l = Some (Some k).
Proof. induction 1; auto using plain_step. Qed.

(** The least height at which a list is fixed. *)
Lemma plain_least h l k :
  plain h l = Some (Some k) -> exists h0, (h0 < h)%nat /\ plain (S h0) l = Some (Some k) /\ forall j, plain h0 l <> Some (Some j).
Proof.
  induction h as [|h IH]; [done|]. intros H. destruct (plain h l) as [[j|]|] eqn:E.
  - assert (j = k) as -> by (apply plain_step in E; congruence). destruct IH as (h0 & ? & ?); [done|]. exists h0. split; [lia|done].
  - exists h. split; [lia|]. split; [done|]. congruence.
  - exists h. split; [lia|]. split; [done|]. congruence.
Qed.

Lemma children_bits_complete h fuel visiting l k :
  (size (unvisited p visiting) < fuel)%nat ->
  (forall n cs j, entered n cs -> n ∈ visiting -> plain h cs <> Some (Some j)) ->
  plain (S h) l = Some (Some k) -> compute_children_size_bits p idx fuel visiting l = Some (Some k).
Proof.
  revert fuel visiting l k. induction h as [h IH] using lt_wf_ind. intros fuel visiting l k Hf Hv Hk.
  destruct fuel as [|fuel]; [lia|]. cbn [plain compute_children_size_bits] in *.
  eapply sum_bits_mono; [|exact Hk]. apply Forall_forall. intros c _ n. apply child_bits_mono.
  intros name cs j He Hj. rewrite bool_decide_false by (intros Hin; by apply (Hv name cs j)).
  destruct (plain_least _ _ _ Hj) as (h0 & Hh & Hj0 & Hmin). apply (IH h0); [done| | |done].
  - rewrite <- (unvisited_less p visiting name) in Hf; [lia|by eapply entered_name|]. intros Hin. by apply (Hv name cs j).
  - intros name' cs' j' He' [->%elem_of_singleton|Hin]%elem_of_union Hj'.
    + rewrite (entered_unique _ _ _ He' He) in Hj'. by apply (Hmin j').
    + apply (Hv name' cs' j' He' Hin). eapply plain_mono; [|exact Hj']. lia.
Qed.

Abbreviation at_height h := (fun _ cs => plain h cs).

Lemma child_height h h' c k : (h <= h')%nat ->
  child_bits p idx (at_height h) c = Some (Some k) -> child_bits p idx (at_height h') c = Some (Some k).
Proof. intros Hh. apply child_bits_mono. intros _ cs j _. by apply plain_mono. Qed.

Lemma plain_cons h c l k m :
  child_bits p idx (at_height h) c = Some (Some (sz k)) -> plain (S h) l = Some (Some (sz m)) ->
  plain (S h) (c :: l) = Some (Some (sz (k + m))).
Proof.
  intros Hc Hl. cbn [plain] in *. apply sum_bits_fixed in Hl as (_ & ks & Hks & E). apply sum_bits_fixed. split; [done|].
  exists (sz k :: ks). split; [by constructor|]. rewrite fold_sz_0 in *. cbn. by rewrite sz_add_l, <- sz_add_r, E, sz_add_r.
Qed.

Lemma composite_height name h cs k :
  entered name cs -> plain h cs = Some (Some k) -> forall ot, ref_bits p idx (at_height h) ot name = Some (Some k).
Proof.
  intros He Hk ot. destruct (ref_bits_cases (at_height h) ot name) as [(td & _ & i & Hi & _)|[(cs' & Hc & ->)|(E & _)]].
  - destruct He as [(? & ? & E & _)|(? & ? & E & _)]; congruence.
  - by rewrite (entered_unique _ _ _ Hc He).
  - destruct He as [(? & ? & E' & _)|(? & ? & E' & _)]; congruence.
Qed.

Lemma layout_plain :
  (forall l n, layout p idx any_struct l n -> exists h, plain h l = Some (Some (sz n)))
  /\ (forall c n, child_layout p idx any_struct c n -> exists h, child_bits p idx (at_height h) c = Some (Some (sz n)))
  /\ (forall name n, ref_layout p idx any_struct name n -> exists h, ref_bits p idx (at_height h) type_bits name = Some (Some (sz n)))
  /\ (forall name n, composite_layout p idx any_struct name n -> exists h, forall ot, ref_bits p idx (at_height h) ot name = Some (Some (sz n))).
Proof.
  apply (layout_mutind p idx any_struct).
  - exists 1%nat. done.
  - intros c l n m _ [h1 H1] _ [h2 H2]. exists (S (h1 + h2)). apply plain_cons.
    + eapply child_height; [|exact H1]. lia.
    + eapply plain_mono; [|exact H2]. lia.
  - intros f n Hb Hp Hi Hn. exists O. cbn. unfold compute_field_size_bits. rewrite Hb, Hp, Hn. cbn.
    destruct Hi as [-> | ->]; [done|]. by rewrite andb_false_r.
  - intros f n Hb Hp Hi Hn Hy. exists O. cbn. unfold compute_field_size_bits. rewrite Hb, Hp, Hn, Hy, sz_octets. cbn.
    destruct Hi as [-> | ->]; [done|]. by rewrite andb_false_r.
  - intros f n Hb Hp Hi Hn Hy Hr Hl. exists O. cbn. unfold compute_field_size_bits.
    rewrite Hb, Hp, Hi, Hn, Hy, Hl. cbn. destruct Hr as [->| ->]; cbn; by rewrite sz_octets.
  - intros f n Hb Hp Hi Hn Hy Hr1 Hr2 Hr3 _ [h H]. exists h. cbn. unfold compute_field_size_bits.
    rewrite Hb, Hp, Hi, Hn, Hy. cbn. by rewrite (proj2 (String.eqb_neq _ _) Hr1), (proj2 (String.eqb_neq _ _) Hr2), (proj2 (String.eqb_neq _ _) Hr3).
  - intros f n Hb Hp Hi Hr _ [h H]. exists h. cbn. unfold compute_field_size_bits. rewrite Hb, Hp, Hi. cbn.
    rewrite (proj2 (String.eqb_neq _ _) Hr). apply H.
  - intros s n Hb Hp Hm _ [[|h] H]; [done|]. exists h. cbn [child_bits]; unfold compute_array_size_bits. rewrite Hb, Hp, Hm. exact H.
  - intros a k n Hs Hf Hx Hb Hp Hk Hr _ [[|h] H]; [done|]. exists h. cbn [child_bits]; unfold compute_array_size_bits.
    rewrite Hs, Hf, Hx, Hb, Hp, Hk, Hr. cbn [plain] in H. cbn [is_some orb String.eqb]. rewrite H. cbn. by rewrite sz_mul.
  - intros a k n Hs Hf Hx Hb Hp Hk Hr _ [h H]. exists h. cbn [child_bits]; unfold compute_array_size_bits.
    rewrite Hs, Hf, Hx, Hb, Hp, Hk. cbn [is_some orb]. rewrite (proj2 (String.eqb_neq _ _) Hr), H. cbn. by rewrite sz_mul.
  - intros r. by exists O.
  - intros name i td n Hi Ht Hn. exists O. unfold ref_bits. rewrite Hi, Ht. cbn. by rewrite Hn, (type_bits_range td).
  - intros name n _ [h H]. by exists h.
  - intros name i s n Hi Hs _ _ [h H]. exists h. apply (composite_height name h (sd_children s)); [left; by exists i, s|done].
  - intros name i m n Hi Hm _ [h H]. exists h. apply (composite_height name h (msg_children m)); [right; by exists i, m|done].
Qed.

(** The computed size of a list of children is that of its layout, and dynamic
    when it has none. *)
Lemma children_size_exact l :
  exists v, compute_children_size_bits p idx (nesting_fuel p) ∅ l = Some v
    /\ forall k, v = Some k <-> exists n, layout p idx any_struct l n /\ k = sz n.
Proof.
  destruct (children_bits_total (nesting_fuel p) ∅ l (unvisited_bound p)) as [v E]. exists v. split; [done|]. intros k. split.
  - intros ->. by eapply children_bits_sound.
  - intros (n & Hl & ->). destruct (proj1 layout_plain l n Hl) as [[|h] H]; [done|].
    assert (compute_children_size_bits p idx (nesting_fuel p) ∅ l = Some (Some (sz n))) as E'; [|congruence].
    eapply (children_bits_complete h); [exact (unvisited_bound p)|by intros ? ? ? _ ?%elem_of_empty|done].
Qed.

(** ** All sizes of a protocol *)

(** The children have a layout of [k] bytes. *)
Definition byte_layout (sized : StructDef -> Prop) (l : list StructChild) (k : Z) : Prop :=
  exists n, layout p idx sized l n /\ k = to_bytes (sz n).

Lemma compute_children_size_exact l :
  exists v, compute_children_size p idx l = Some v /\ forall k, v = Some k <-> byte_layout any_struct l k.
Proof.
  unfold compute_children_size, byte_layout. destruct (children_size_exact l) as (v & -> & Hv). cbn. eexists. split; [reflexivity|].
  intros k. split.
  - destruct v as [b|]; [|done]. intros [= <-]. destruct (proj1 (Hv b) eq_refl) as (n & Hn & ->). by exists n.
  - intros (n & Hn & ->). by rewrite (proj2 (Hv (sz n))) by by exists n.
Qed.

Lemma compute_struct_size_exact s :
  exists v, compute_struct_size p idx s = Some v
    /\ forall k, v = Some k <-> is_bitmap s = false /\ byte_layout any_struct (sd_children s) k.
Proof.
  unfold compute_struct_size. destruct (is_bitmap s); [exists None; split; [done|]; by split; [|intros []]|].
  destruct (compute_children_size_exact (sd_children s)) as (v & -> & Hv). exists v. split; [done|].
  intros k. rewrite Hv. by split; [|intros []].
Qed.

(** The size each struct gets, whenever it is computed. *)
Definition struct_size (s : StructDef) : WireSize := default None (compute_struct_size p idx s).
Definition message_size (m : MessageDef) : WireSize := default None (compute_children_size p idx (msg_children m)).

Lemma struct_size_eq s : compute_struct_size p idx s = Some (struct_size s).
Proof. unfold struct_size. by destruct (compute_struct_size_exact s) as (v & -> & _). Qed.
Lemma message_size_eq m : compute_children_size p idx (msg_children m) = Some (message_size m).
Proof. unfold message_size. by destruct (compute_children_size_exact (msg_children m)) as (v & -> & _). Qed.

Lemma get_insert (sizes : Sizes) n v m : get (<[n := v]> sizes) m = if decide (n = m) then v else get sizes m.
Proof. unfold get. case_decide; [subst; by rewrite lookup_insert_eq|by rewrite lookup_insert_ne]. Qed.

(** A round gives every struct without a size its own. *)
Lemma struct_pass_spec ss sizes ch :
  NoDup (map sd_name ss) -> exists sizes' ch', struct_pass p idx ss sizes ch = Some (sizes', ch')
    /\ (forall s, s ∈ ss -> get sizes' (sd_name s) =
          match get sizes (sd_name s) with Some k => Some k | None => struct_size s end)
    /\ (forall n, n ∉ map sd_name ss -> sizes' !! n = sizes !! n)
    /\ ((forall s, s ∈ ss -> get sizes (sd_name s) = None -> struct_size s = None) -> sizes' = sizes /\ ch' = ch).
Proof.
  revert sizes ch. induction ss as [|s ss IH]; intros sizes ch Hnd; cbn [struct_pass map].
  { exists sizes, ch. split_and!; try done. by intros ? ?%elem_of_nil. }
  apply NoDup_cons in Hnd as [Hs Hnd].
  assert (forall x, x ∈ ss -> sd_name s <> sd_name x) as Hne by (intros x Hx E; apply Hs; rewrite E; by apply list_elem_of_fmap_2).
  assert (forall sizes1 ch1 (v : WireSize), get sizes1 (sd_name s) = v ->
      (forall n, n <> sd_name s -> sizes1 !! n = sizes !! n) ->
      v = match get sizes (sd_name s) with Some k => Some k | None => struct_size s end ->
      ((get sizes (sd_name s) = None -> struct_size s = None) -> sizes1 = sizes /\ ch1 = ch) ->
      exists sizes' ch', struct_pass p idx ss sizes1 ch1 = Some (sizes', ch')
        /\ (forall x, x ∈ s :: ss -> get sizes' (sd_name x) =
              match get sizes (sd_name x) with Some k => Some k | None => struct_size x end)
        /\ (forall n, n ∉ sd_name s :: map sd_name ss -> sizes' !! n = sizes !! n)
        /\ ((forall x, x ∈ s :: ss -> get sizes (sd_name x) = None -> struct_size x = None) -> sizes' = sizes /\ ch' = ch)) as Hgo.
  { intros sizes1 ch1 v Hv Hoth Ev Hsame. destruct (IH sizes1 ch1 Hnd) as (sizes' & ch' & E & H1 & H2 & H3).
    exists sizes', ch'. split; [done|]. split_and!.
    - intros x [->|Hx]%elem_of_cons.
      + unfold get at 1. rewrite H2 by done. fold (get sizes1 (sd_name s)). by rewrite Hv.
      + rewrite H1 by done. unfold get at 1. rewrite Hoth; [done|]. specialize (Hne x Hx). congruence.
    - intros n Hn. rewrite not_elem_of_cons in Hn. rewrite H2, Hoth by tauto. done.
    - intros Hall. destruct Hsame as [-> ->]; [apply Hall; by left|]. apply H3. intros x Hx. apply Hall. by right. }
  rewrite struct_size_eq. cbn [mbind option_bind].
  destruct (get sizes (sd_name s)) as [k|] eqn:Eg; [by eapply Hgo|].
  destruct (struct_size s) as [n|] eqn:En.
  - eapply (Hgo _ _ (Some n)); [by rewrite get_insert, decide_True| |done|].
    + intros m Hm. by rewrite lookup_insert_ne.
    + intros H. by specialize (H eq_refl).
  - by eapply Hgo.
Qed.

Lemma fixed_point_spec sizes :
  NoDup (struct_names p) -> exists sizes', fixed_point p idx 2 sizes = Some sizes'
    /\ (forall s, s ∈ proto_structs p -> get sizes' (sd_name s) =
          match get sizes (sd_name s) with Some k => Some k | None => struct_size s end)
    /\ (forall n, n ∉ struct_names p -> sizes' !! n = sizes !! n).
Proof.
  intros Hnd. cbn [fixed_point].
  destruct (struct_pass_spec (proto_structs p) sizes false Hnd) as (sizes1 & ch1 & -> & H1 & H2 & _). cbn.
  destruct ch1; [|by exists sizes1].
  destruct (struct_pass_spec (proto_structs p) sizes1 false Hnd) as (sizes2 & ch2 & -> & _ & _ & H3).
  destruct H3 as [-> ->]; [|by exists sizes1].
  intros s Hs. rewrite H1 by done. by destruct (get sizes (sd_name s)).
Qed.

Lemma message_pass_spec ms sizes :
  NoDup (map msg_name ms) -> exists sizes', message_pass p idx ms sizes = Some sizes'
    /\ (forall m, m ∈ ms -> get sizes' (msg_name m) = message_size m)
    /\ (forall n, n ∉ map msg_name ms -> sizes' !! n = sizes !! n).
Proof.
  revert sizes. induction ms as [|m ms IH]; intros sizes Hnd; cbn [message_pass map].
  { exists sizes. split_and!; try done. by intros ? ?%elem_of_nil. }
  apply NoDup_cons in Hnd as [Hm Hnd]. rewrite message_size_eq. cbn [mbind option_bind].
  destruct (IH (<[msg_name m := message_size m]> sizes) Hnd) as (sizes' & -> & H1 & H2). exists sizes'. split_and!; [done|..].
  - intros x [->|Hx]%elem_of_cons; [|by apply H1]. unfold get. by rewrite H2, lookup_insert_eq.
  - intros n Hn. rewrite not_elem_of_cons in Hn. rewrite H2 by tauto. apply lookup_insert_ne. intros <-. tauto.
Qed.

Lemma type_sizes_spec ts (m : Sizes) :
  NoDup (map td_name ts) ->
  let m' := fold_left (fun m t => <[td_name t := compute_type_size t]> m) ts m in
  (forall t, t ∈ ts -> get m' (td_name t) = compute_type_size t) /\ (forall n, n ∉ map td_name ts -> m' !! n = m !! n).
Proof.
  revert m. induction ts as [|t ts IH]; intros m Hnd; cbn; [by split; [intros ? ?%elem_of_nil|]|].
  apply NoDup_cons in Hnd as [Ht Hnd]. destruct (IH (<[td_name t := compute_type_size t]> m) Hnd) as [H1 H2]. split.
  - intros x [->|Hx]%elem_of_cons; [|by apply H1]. unfold get. by rewrite H2, lookup_insert_eq.
  - intros n Hn. rewrite not_elem_of_cons in Hn. rewrite H2 by tauto. apply lookup_insert_ne. intros <-. tauto.
Qed.

Lemma entries_spec (ss : list StructDef) (m : Sizes) n :
  get (fold_left (fun m s => match m !! sd_name s with Some _ => m | None => <[sd_name s := None]> m end) ss m) n = get m n.
Proof.
  revert m. induction ss as [|s ss IH]; intros m; cbn; [done|]. rewrite IH. destruct (m !! sd_name s) eqn:E; [done|].
  rewrite get_insert. case_decide; [subst|done]. unfold get. by rewrite E.
Qed.

(** *** References to bitmap structs *)

(** The references the size of a child depends on. *)
Fixpoint child_sized_refs (c : StructChild) : list string :=
  match c with
  | ChField f => [f_type_ref f]
  | ChStruct s => flat_map child_sized_refs (sd_children s)
  | ChArray a => ad_type_ref a :: flat_map child_sized_refs (ad_children a)
  | _ => []
  end.

Definition sized_refs (l : list StructChild) : list string := flat_map child_sized_refs l.

(** The name is not that of a struct with a presence bitmap. *)
Definition not_bitmap (r : string) : Prop :=
  forall i s, find idx r = Some (RStruct i) -> proto_structs p !! i = Some s -> no_bitmap s.

(** No field or array of a struct or message names a struct with a presence bitmap. *)
Definition bitmaps_not_named : Prop :=
  Forall not_bitmap (sized_refs (flat_map sd_children (proto_structs p) ++ flat_map msg_children (proto_messages p))).

Lemma layout_mono (P Q : StructDef -> Prop) : (forall s, P s -> Q s) -> forall l n, layout p idx P l n -> layout p idx Q l n.
Proof.
  intros HPQ. apply (layout_mut p idx P _ (child_layout p idx Q) (ref_layout p idx Q) (composite_layout p idx Q)); intros;
    eauto using layout, child_layout, ref_layout, composite_layout.
Qed.

Lemma body_refs cs : bitmaps_not_named ->
  (exists s, s ∈ proto_structs p /\ cs = sd_children s) \/ (exists m, m ∈ proto_messages p /\ cs = msg_children m) ->
  Forall not_bitmap (sized_refs cs).
Proof.
  unfold bitmaps_not_named, sized_refs. rewrite !Forall_forall. intros Hp Hcs r (c & Hc & Hr)%list_elem_of_In%in_flat_map.
  apply Hp, (flat_map_elem _ _ c); [|by apply list_elem_of_In]. apply elem_of_app. apply list_elem_of_In in Hc.
  destruct Hcs as [(s & Hs & ->)|(m & Hm & ->)]; [left; by apply (flat_map_elem _ _ s)|right; by apply (flat_map_elem _ _ m)].
Qed.

(** Where no reference names one, no layout makes use of a bitmap struct. *)
Lemma layout_without_bitmaps :
  bitmaps_not_named -> forall l n, layout p idx any_struct l n -> Forall not_bitmap (sized_refs l) -> layout p idx no_bitmap l n.
Proof.
  intros Hp. apply (layout_mut p idx any_struct
    (fun l n => Forall not_bitmap (sized_refs l) -> layout p idx no_bitmap l n)
    (fun c n => Forall not_bitmap (child_sized_refs c) -> child_layout p idx no_bitmap c n)
    (fun r n => not_bitmap r -> ref_layout p idx no_bitmap r n)
    (fun r n => not_bitmap r -> composite_layout p idx no_bitmap r n)); cbn [child_sized_refs sized_refs flat_map];
    intros; repeat match goal with H : Forall _ (_ :: _) |- _ => apply Forall_cons in H as [? ?] | H : Forall _ (_ ++ _) |- _ => apply Forall_app in H as [? ?] end;
    eauto using layout, child_layout, ref_layout, composite_layout.
  - match goal with Hi : find idx _ = Some (RStruct ?i), Hs : proto_structs p !! ?i = Some ?s |- _ =>
      apply (ref_struct p idx no_bitmap _ i s); [done|done|by eauto|] end.
    match goal with IH : _ -> layout _ _ _ _ _ |- _ => apply IH, body_refs; [done|] end.
    left. eexists. split; [by eapply list_elem_of_lookup_2|done].
  - match goal with Hi : find idx _ = Some (RMessage ?i), Hs : proto_messages p !! ?i = Some ?s |- _ =>
      apply (ref_message p idx no_bitmap _ i s); [done|done|] end.
    match goal with IH : _ -> layout _ _ _ _ _ |- _ => apply IH, body_refs; [done|] end.
    right. eexists. split; [by eapply list_elem_of_lookup_2|done].
Qed.

Lemma byte_layout_without_bitmaps cs k : bitmaps_not_named ->
  (exists s, s ∈ proto_structs p /\ cs = sd_children s) \/ (exists m, m ∈ proto_messages p /\ cs = msg_children m) ->
  byte_layout any_struct cs k <-> byte_layout no_bitmap cs k.
Proof.
  intros Hp Hcs. split; intros (n & Hn & ->); exists n; (split; [|done]).
  - apply layout_without_bitmaps; [done|done|by apply body_refs].
  - eapply layout_mono; [|exact Hn]. done.
Qed.

(** *** The sizes

    A size is that of the layout, and every layout is found, where no reference names
    a struct with a presence bitmap.  What the code computes otherwise counts such a
    reference with the children of the struct alone. *)
Record sizes_exact (sizes : Sizes) : Prop := {
  exact_type : forall t, t ∈ proto_types p -> get sizes (td_name t) = compute_type_size t;
  exact_struct : bitmaps_not_named -> forall s, s ∈ proto_structs p ->
    forall k, get sizes (sd_name s) = Some k <-> no_bitmap s /\ byte_layout no_bitmap (sd_children s) k;
  exact_message : bitmaps_not_named -> forall m, m ∈ proto_messages p ->
    forall k, get sizes (msg_name m) = Some k <-> byte_layout no_bitmap (msg_children m) k;
  computed_struct : forall s, s ∈ proto_structs p ->
    forall k, get sizes (sd_name s) = Some k <-> no_bitmap s /\ byte_layout any_struct (sd_children s) k;
  computed_message : forall m, m ∈ proto_messages p ->
    forall k, get sizes (msg_name m) = Some k <-> byte_layout any_struct (msg_children m) k;
}.

Lemma compute_wire_sizes_exact :
  distinct_names p -> exists sizes, compute_wire_sizes p idx = Some sizes /\ sizes_exact sizes.
Proof.
  intros (Nt & Dt & (Ns & Ds & Nm)%NoDup_app)%NoDup_app. unfold compute_wire_sizes. cbv zeta.
  assert (forall n, n ∈ type_names p -> n ∉ struct_names p) as D1 by (intros n Hn E; apply (Dt n Hn), elem_of_app; by left).
  assert (forall n, n ∈ type_names p -> n ∉ message_names p) as D2 by (intros n Hn E; apply (Dt n Hn), elem_of_app; by right).
  destruct (type_sizes_spec (proto_types p) ∅ Nt) as [Ht Hto]. set (sizes0 := fold_left _ (proto_types p) ∅) in *.
  destruct (fixed_point_spec sizes0 Ns) as (sizes1 & -> & Hs & Hso). cbn [mbind option_bind].
  match goal with |- context [message_pass p idx _ ?f] => set (sizes2 := f) end.
  assert (forall n, get sizes2 n = get sizes1 n) as H2 by (intros; apply entries_spec).
  destruct (message_pass_spec (proto_messages p) sizes2 Nm) as (sizes3 & -> & Hm & Hmo).
  exists sizes3. split; [done|].
  assert (forall n, n ∉ message_names p -> get sizes3 n = get sizes1 n) as H3
    by (intros n Hn; rewrite <- H2; unfold get at 1; by rewrite Hmo).
  enough ((forall s, s ∈ proto_structs p -> forall k, get sizes3 (sd_name s) = Some k <-> no_bitmap s /\ byte_layout any_struct (sd_children s) k)
    /\ (forall m, m ∈ proto_messages p -> forall k, get sizes3 (msg_name m) = Some k <-> byte_layout any_struct (msg_children m) k)) as [Hcs Hcm].
  { split; [|intros Hp s Hin k; rewrite Hcs by done; rewrite byte_layout_without_bitmaps; eauto
      |intros Hp m Hin k; rewrite Hcm by done; rewrite byte_layout_without_bitmaps; eauto|done|done].
    intros t Hin. assert (td_name t ∈ type_names p) as Hn by by apply list_elem_of_fmap_2.
    rewrite H3 by by apply D2. unfold get. rewrite Hso by by apply D1.
    by apply Ht. }
  split.
  - intros s Hin k. assert (sd_name s ∈ struct_names p) as Hn by by apply list_elem_of_fmap_2.
    rewrite H3 by by apply Ds. rewrite Hs by done. unfold get.
    rewrite Hto by (intros E; by apply (D1 (sd_name s))). cbn. unfold struct_size.
    destruct (compute_struct_size_exact s) as (v & -> & Hv). apply Hv.
  - intros m Hin k. rewrite Hm by done. unfold message_size.
    destruct (compute_children_size_exact (msg_children m)) as (v & -> & Hv). apply Hv.
Qed.
End theory.

Lemma resolved_wire_sizes (p p' : Protocol) (idx : TypeIndex) :
  literals_defined p -> resolve_types p = Some (Resolved idx, p') ->
  exists sizes, compute_wire_sizes p' idx = Some sizes /\ sizes_exact p' idx sizes.
Proof.
  intros Hl E. destruct (resolve_types_spec p Hl) as (r & q & E' & _ & (idx0 & Hq) & Hr).
  rewrite E in E'. injection E' as <- <-. destruct Hr as [W Hidx]. subst p'. apply compute_wire_sizes_exact.
  - intros n d. by rewrite Hidx, inherit_protocol_declares.
  - unfold distinct_names. destruct (inherit_protocol_names p idx0) as (-> & -> & ->). by apply well_formed_distinct.
Qed.

(** C15: Wire sizes.  For every protocol the resolver accepts, cyclic references
    included, the computation ends.  Where no field or array names a struct with a
    presence bitmap, the sizes are exact: a struct or message has the size [k]
    precisely when its parts have a layout - every part unconditional and of fixed
    size, references nested finitely, no presence bitmap - and [k] is the sum of the
    bits rounded up to bytes.  A struct with a bitmap never has a size itself; but a
    reference to one is counted with the children of that struct, without the octets
    of the bitmap ([bitmap_reference_sized]), and the theorem says exactly so.  Types
    have the size their definition states. *)
Theorem wire_sizes_exact (p p' : Protocol) (idx : TypeIndex) :
  literals_defined p -> resolve_types p = Some (Resolved idx, p') ->
  exists sizes, compute_wire_sizes p' idx = Some sizes /\ sizes_exact p' idx sizes.
Proof. intros Hl E. by apply (resolved_wire_sizes p). Qed.

Lemma wire_sizes_exact_witness :
  exists idx p' sizes, resolve_types sample_protocol = Some (Resolved idx, p')
    /\ compute_wire_sizes p' idx = Some sizes /\ bitmaps_not_named p' idx
    /\ forall m, m ∈ proto_messages p' -> forall k, get sizes (msg_name m) = Some k <-> byte_layout p' idx no_bitmap (msg_children m) k.
Proof.
  destruct (resolve_types sample_protocol) as [[[idx|] p']|] eqn:E; [|vm_compute in E; discriminate..].
  destruct (wire_sizes_exact sample_protocol p' idx) as (sizes & Es & Hs).
  - exact sample_literals_defined.
  - exact E.
  - assert (bitmaps_not_named p' idx) as Hb.
    { clear Es Hs. vm_compute in E. injection E as <- <-. apply Forall_forall. intros r _ i s _ Hi.
      apply list_elem_of_lookup_2 in Hi. cbn [proto_structs] in Hi.
      repeat (apply elem_of_cons in Hi as [->|Hi]; [reflexivity|]). by apply elem_of_nil in Hi. }
    exists idx, p', sizes. split_and!; [done|exact Es|exact Hb|]. exact (exact_message _ _ _ Hs Hb).
Defined.

(** The sizes of some names after both phases. *)
Definition sizes_of (p : Protocol) (names : list string) : option (list WireSize) :=
  '(r, p') ← resolve_types p;
  match r with
  | Resolved idx => sizes ← compute_wire_sizes p' idx; Some (map (get sizes) names)
  | Unresolved _ => None
  end.

(** A point is 3 bytes, a track 3 + 3 + 1. *)
Example sample_sizes : sizes_of sample_protocol ["net16"; "point"; "track"] = Some [Some 2; Some 3; Some 7].
Proof. vm_compute. reflexivity. Qed.

(** A reference to a struct with a presence bitmap is sized by its children
    alone: the message below is reported as 2 bytes, while the struct it
    consists of has no fixed size and puts its presence bits on the wire. *)
Definition bitmap_struct : StructDef :=
  mkStructDef "flags" [ChField (new_field "x" "net16")] true 8 None EndianBig None None None false [] "" unknown_loc.

Definition bitmap_protocol : Protocol :=
  mkProtocol "Demo" "1" "2" new_defaults [] [] (proto_types sample_protocol) [bitmap_struct]
    [new_message "status" [ChField (new_field "f" "flags")]] [] [] "" unknown_loc.

Example bitmap_reference_sized : sizes_of bitmap_protocol ["flags"; "status"] = Some [None; Some 2].
Proof. vm_compute. reflexivity. Qed.

(** Two structs that contain each other have no size. *)
Definition cyclic_protocol : Protocol :=
  mkProtocol "Demo" "1" "2" new_defaults [] [] []
    [new_struct "a" [ChField (new_field "b" "b")]; new_struct "b" [ChField (new_field "a" "a")]] [] [] [] "" unknown_loc.

Example cyclic_sized : sizes_of cyclic_protocol ["a"; "b"] = Some [None; None].
Proof. vm_compute. reflexivity. Qed.
