(* ===== verification/SessionAnalyzer.v ===== *)
(** * Sessions of a protocol

    Models [conduit/bgen/src/analyzer/session_analyzer.hpp] and
    [session_analyzer.cpp]: from the frame definitions the sync pattern, the
    place of the length field and the sizes of header and footer; from the
    messages the leaf types with their type ids and automatic fields.  A function
    returns [None] where the code is undefined (a signed overflow, a shift by 64
    or more, a pointer outside the protocol) or does not return within its
    fuel.  Log output is left out. *)

From stdpp Require Import base numbers list gmap strings relations.
From Stdlib Require Import ZArith Lia Ascii.
From S2P Require Import Prelude Bits CoreError Endian BitWriter CharConv AutoExpr ExprParser Ast AstBuilder TypeResolver ProtocolIndex Validation StructCycles WireSizer.

Open Scope Z_scope.

Record ConfigField := mkConfigField {
  cf_key : text; cf_field_name : string; cf_type_ref : string; cf_bits : Z; cf_is_signed : bool
}.

Record LeafTypeInfo := mkLeaf {
  leaf_name : string; type_id : Z;
  leaf_constraints : list (string * string);
  auto_fields : list string; auto_field_bits : list Z;
  timestamp_fields : list string; timestamp_field_bits : list Z;
  leaf_config_fields : list ConfigField;
  send_only : bool; receive_only : bool;
  leaf_annotations : list (string * string)
}.

(** What the loop over the header fills in. *)
Record HeaderInfo := mkHeader {
  id_field_name : string;
  length_field_name : string; frame_length_field_ref : text; frame_length_expr : string;
  frame_length_bit_offset : Z; frame_length_bits : Z; frame_length_signed : bool;
  frame_length_modifier : ArithModifier; frame_length_endian : Endian;
  config_fields : list ConfigField; count_field_name : string;
  sync_pattern : list Z
}.

Definition new_header : HeaderInfo := mkHeader "" "" [] "" 0 0 false no_modifier EndianBig [] "" [].

Record SessionInfo := mkSession {
  session_name : string; leaf_types : list LeafTypeInfo;
  si_header : HeaderInfo; min_frame_header_size : Z;
  si_frame : FrameDef; is_frame_based : bool; si_payload_is_array : bool; si_payload_length_from : option Expr;
  frame_footer_size : Z
}.

(** [char] is signed or not, as the platform has it. *)
Section hash.
Variable char_is_signed : bool.

Definition char_value (c : ascii) : Z := if char_is_signed && (128 <=? code c) then code c - 256 else code c.

Definition fnv1a_step (hash : Z) (c : ascii) : Z := sz (Z.lxor hash (sz (char_value c)) * 1099511628211).

(** [while ( *str )] stops at the end of the name or at a NUL in it. *)
Fixpoint fnv1a_from (hash : Z) (t : text) : Z :=
  match t with
  | [] => hash
  | c :: t => if code c =? 0 then hash else fnv1a_from (fnv1a_step hash c) t
  end.

Definition fnv1a_hash (name : string) : Z := fnv1a_from 14695981039346656037 (txt name).
End hash.

Definition INT_MAX : Z := 2 ^ 31 - 1.

(** [std::max(0, bytes) * 8] in [int]. *)
Definition octets (bytes : Z) : option Z := let v := Z.max 0 bytes * 8 in if v <=? INT_MAX then Some v else None.

Section analyzer.
Variable char_is_signed : bool.
Variable p : Protocol.
Variable idx : TypeIndex.

Definition resolve_field_bits (f : Field) : option Z :=
  match f_bits f with
  | Some n => Some n
  | None =>
      match f_bytes_attr f with
      | Some n => octets n
      | None =>
          if String.eqb (f_type_ref f) "" then Some 0
          else t ← type_at p idx (f_type_ref f); Some (match t with Some td => td_bits td | None => 0 end)
      end
  end.

(** The signedness of a field: its own attribute or the base of its type. *)
Definition resolve_signed (f : Field) : option bool :=
  if f_is_signed f then Some true
  else if String.eqb (f_type_ref f) "" then Some false
  else match find idx (f_type_ref f) with
  | Some (RType i) => td ← proto_types p !! i; Some (match td_base td with BaseInt => true | _ => false end)
  | _ => Some false
  end.

Definition config_field (f : Field) (a : AutoExpr) (bits : Z) : option ConfigField :=
  s ← resolve_signed f; Some (mkConfigField (auto_key a) (f_name f) (f_type_ref f) bits s).

(** ** Sync bytes *)

Definition parse_sync_value (s : text) : option Z :=
  let hex := match s with c0 :: c1 :: _ :: _ => Ascii.eqb c0 "0" && (Ascii.eqb c1 "x" || Ascii.eqb c1 "X") | _ => false end in
  let digits := if hex : bool then drop 2 s else s in
  let '(ec, val, used) := from_chars (if hex then 16 else 10) digits in
  match ec with
  | Some _ => None
  | None => if (used =? length digits)%nat then Some val else None
  end.

(** [(val >> (i * 8)) & 0xFF]; a shift by the width of [val] is undefined. *)
Definition sync_byte (val : Z) (i : nat) : option Z :=
  if 8 * Z.of_nat i <? 64 then Some (u8 (Z.land (Z.shiftr val (8 * Z.of_nat i)) 255)) else None.

Definition sync_bytes (e : Endian) (bytes : nat) (val : Z) : option (list Z) :=
  match e with
  | EndianLittle => mapM (sync_byte val) (seq 0 bytes)
  | EndianBig => mapM (sync_byte val) (rev (seq 0 bytes))
  end.

Definition sync_width (t : option TypeDef) : nat :=
  match t with
  | Some td => if 0 <? td_bits td then Z.to_nat (to_bytes (sz (td_bits td))) else 1
  | None => 1
  end.

Definition add_sync (l : list Z) (h : HeaderInfo) : HeaderInfo :=
  mkHeader (id_field_name h) (length_field_name h) (frame_length_field_ref h) (frame_length_expr h)
    (frame_length_bit_offset h) (frame_length_bits h) (frame_length_signed h) (frame_length_modifier h)
    (frame_length_endian h) (config_fields h) (count_field_name h) (sync_pattern h ++ l).

Definition parse_sync_bytes (value_str type_ref : string) (e : Endian) (h : HeaderInfo) : option HeaderInfo :=
  match parse_sync_value (txt value_str) with
  | None => Some h
  | Some val =>
      t ← type_at p idx type_ref;
      l ← sync_bytes e (sync_width t) val;
      Some (add_sync l h)
  end.

(** ** The header *)

Definition set_id (name : string) (h : HeaderInfo) : HeaderInfo :=
  mkHeader name (length_field_name h) (frame_length_field_ref h) (frame_length_expr h)
    (frame_length_bit_offset h) (frame_length_bits h) (frame_length_signed h) (frame_length_modifier h)
    (frame_length_endian h) (config_fields h) (count_field_name h) (sync_pattern h).

Definition set_count (name : string) (h : HeaderInfo) : HeaderInfo :=
  mkHeader (id_field_name h) (length_field_name h) (frame_length_field_ref h) (frame_length_expr h)
    (frame_length_bit_offset h) (frame_length_bits h) (frame_length_signed h) (frame_length_modifier h)
    (frame_length_endian h) (config_fields h) name (sync_pattern h).

Definition add_config (c : ConfigField) (h : HeaderInfo) : HeaderInfo :=
  mkHeader (id_field_name h) (length_field_name h) (frame_length_field_ref h) (frame_length_expr h)
    (frame_length_bit_offset h) (frame_length_bits h) (frame_length_signed h) (frame_length_modifier h)
    (frame_length_endian h) (config_fields h ++ [c]) (count_field_name h) (sync_pattern h).

Definition set_length (f : Field) (a : AutoExpr) (offset bits : Z) (s : bool) (h : HeaderInfo) : HeaderInfo :=
  mkHeader (id_field_name h) (f_name f) (auto_field_ref a) (f_name f) offset bits s (auto_modifier a) (f_endian f)
    (config_fields h) (count_field_name h) (sync_pattern h).

(** The switch on the kind of an automatic header field. *)
Definition header_auto (f : Field) (offset bits : Z) (h : HeaderInfo) : option HeaderInfo :=
  match f_auto_expr f with
  | None => Some h
  | Some a =>
      match auto_kind a with
      | AutoId => Some (set_id (f_name f) h)
      | AutoLength => s ← resolve_signed f; Some (set_length f a offset bits s h)
      | AutoConfig => c ← config_field f a bits; Some (add_config c h)
      | AutoCount => Some (set_count (f_name f) h)
      | AutoIncrement | AutoTimestamp => Some h
      end
  end.

(** The sync bytes of a field with an [equals] constraint: those of the
    constant of that name, or of the literal. *)
Definition header_sync (f : Field) (h : HeaderInfo) : option HeaderInfo :=
  match f_constraint f with
  | Some c =>
      match equals c with
      | Some eq =>
          match idx_constants idx !! eq with
          | Some i => k ← proto_constants p !! i; parse_sync_bytes (const_value k) (const_type_ref k) (f_endian f) h
          | None => parse_sync_bytes eq (f_type_ref f) (f_endian f) h
          end
      | None => Some h
      end
  | None => Some h
  end.

Definition align_offset (to offset : Z) : Z :=
  let align_bits := sz (sz to * 8) in
  if 0 <? align_bits then sz (sz (sz (offset + align_bits) - 1) / align_bits * align_bits) else offset.

(** Nested definitions below [children] count nothing. *)
Fixpoint compute_fixed_size_bits (children : list StructChild) (total : Z) : option Z :=
  match children with
  | [] => Some total
  | ChField f :: l =>
      match f_bits f with
      | Some n => compute_fixed_size_bits l (sz (total + sz n))
      | None =>
          match f_bytes_attr f with
          | Some n => compute_fixed_size_bits l (sz (total + sz (sz n * 8)))
          | None =>
              match (if String.eqb (f_type_ref f) "" then None else find idx (f_type_ref f)) with
              | Some (RType i) => td ← proto_types p !! i; compute_fixed_size_bits l (sz (total + sz (td_bits td)))
              | _ => compute_fixed_size_bits l total
              end
          end
      end
  | ChReserved r :: l => compute_fixed_size_bits l (sz (total + sz (res_bits r)))
  | ChAlign a :: l => compute_fixed_size_bits l (align_offset (align_to a) total)
  | _ :: l => compute_fixed_size_bits l total
  end.

(** The loop over the header, with [header_bit_offset]. *)
Fixpoint scan_header (children : list StructChild) (offset : Z) (h : HeaderInfo) : option (Z * HeaderInfo) :=
  match children with
  | [] => Some (offset, h)
  | ChField f :: l =>
      bits ← resolve_field_bits f;
      h ← header_auto f offset bits h;
      h ← header_sync f h;
      scan_header l (sz (offset + sz bits)) h
  | ChReserved r :: l => scan_header l (sz (offset + sz (res_bits r))) h
  | ChAlign a :: l => scan_header l (align_offset (align_to a) offset) h
  | ChStruct s :: l =>
      if is_some (sd_bit s) || is_some (sd_present_when s) then scan_header l offset h
      else n ← compute_fixed_size_bits (sd_children s) 0; scan_header l (sz (offset + n)) h
  | _ :: l => scan_header l offset h
  end.

Fixpoint footer_bits (children : list StructChild) (offset : Z) : option Z :=
  match children with
  | [] => Some offset
  | ChField f :: l => bits ← resolve_field_bits f; footer_bits l (sz (offset + sz bits))
  | ChReserved r :: l => footer_bits l (sz (offset + sz (res_bits r)))
  | ChAlign a :: l => footer_bits l (align_offset (align_to a) offset)
  | _ :: l => footer_bits l offset
  end.

(** ** Leaf types *)

Definition is_auto (k : AutoKind) (f : Field) : bool :=
  match f_auto_expr f with
  | Some a =>
      match auto_kind a, k with
      | AutoIncrement, AutoIncrement | AutoTimestamp, AutoTimestamp | AutoConfig, AutoConfig => true
      | _, _ => false
      end
  | None => false
  end.

(** The names and widths of the header fields of a kind. *)
Fixpoint frame_autos (k : AutoKind) (children : list StructChild) : option (list (string * Z)) :=
  match children with
  | [] => Some []
  | ChField f :: l =>
      if is_auto k f then bits ← resolve_field_bits f; r ← frame_autos k l; Some ((f_name f, bits) :: r)
      else frame_autos k l
  | _ :: l => frame_autos k l
  end.

(** The width of a counter or time stamp in a message: 8 where nothing says
    otherwise. *)
Definition auto_bits (f : Field) : option Z :=
  if String.eqb (f_type_ref f) "" then
    match f_bits f with
    | Some n => Some n
    | None => match f_bytes_attr f with Some n => octets n | None => Some 8 end
    end
  else t ← type_at p idx (f_type_ref f);
       Some (match t with Some td => if 0 <? td_bits td then td_bits td else 8 | None => 8 end).

Definition add_auto (f : Field) (bits : Z) (l : LeafTypeInfo) : LeafTypeInfo :=
  mkLeaf (leaf_name l) (type_id l) (leaf_constraints l) (auto_fields l ++ [f_name f]) (auto_field_bits l ++ [bits])
    (timestamp_fields l) (timestamp_field_bits l) (leaf_config_fields l) (send_only l) (receive_only l)
    (leaf_annotations l).

Definition add_timestamp (f : Field) (bits : Z) (l : LeafTypeInfo) : LeafTypeInfo :=
  mkLeaf (leaf_name l) (type_id l) (leaf_constraints l) (auto_fields l) (auto_field_bits l)
    (timestamp_fields l ++ [f_name f]) (timestamp_field_bits l ++ [bits]) (leaf_config_fields l) (send_only l)
    (receive_only l) (leaf_annotations l).

Definition add_leaf_config (c : ConfigField) (l : LeafTypeInfo) : LeafTypeInfo :=
  mkLeaf (leaf_name l) (type_id l) (leaf_constraints l) (auto_fields l) (auto_field_bits l) (timestamp_fields l)
    (timestamp_field_bits l) (leaf_config_fields l ++ [c]) (send_only l) (receive_only l) (leaf_annotations l).

(** The three tests on one field. *)
Definition leaf_field (f : Field) (l : LeafTypeInfo) : option LeafTypeInfo :=
  match f_auto_expr f with
  | None => Some l
  | Some a =>
      match auto_kind a with
      | AutoIncrement => b ← auto_bits f; Some (add_auto f b l)
      | AutoTimestamp => b ← auto_bits f; Some (add_timestamp f b l)
      | AutoConfig => b ← resolve_field_bits f; c ← config_field f a b; Some (add_leaf_config c l)
      | AutoId | AutoLength | AutoCount => Some l
      end
  end.

(** The children an inline field brings in. *)
Definition inline_children (f : Field) : option (option (list StructChild)) :=
  if f_is_inline f && negb (String.eqb (f_type_ref f) "") then
    match find idx (f_type_ref f) with
    | Some (RStruct i) => s ← proto_structs p !! i; Some (Some (sd_children s))
    | Some (RMessage i) => m ← proto_messages p !! i; Some (Some (msg_children m))
    | _ => Some None
    end
  else Some None.

Section loop.
Variable find_auto_fields : list StructChild -> LeafTypeInfo -> option LeafTypeInfo.

Fixpoint leaf_children (children : list StructChild) (leaf : LeafTypeInfo) : option LeafTypeInfo :=
  match children with
  | [] => Some leaf
  | ChField f :: l =>
      leaf ← leaf_field f leaf;
      inl ← inline_children f;
      leaf ← match inl with Some cs => find_auto_fields cs leaf | None => Some leaf end;
      leaf_children l leaf
  | _ :: l => leaf_children l leaf
  end.
End loop.

Fixpoint find_auto_fields (fuel : nat) (children : list StructChild) (leaf : LeafTypeInfo) : option LeafTypeInfo :=
  match fuel with
  | O => None
  | S fuel => leaf_children (find_auto_fields fuel) children leaf
  end.

Definition is_dir (d e : Direction) : bool :=
  match d, e with DirSend, DirSend | DirReceive, DirReceive | DirBoth, DirBoth => true | _, _ => false end.

(** The leaf type of a message before its own fields are searched. *)
Definition new_leaf (id_field : string) (autos stamps : list (string * Z)) (m : MessageDef) : LeafTypeInfo :=
  mkLeaf (msg_name m) (fnv1a_hash char_is_signed (msg_name m))
    (if negb (String.eqb (msg_id m) "") && negb (String.eqb id_field "") then [(id_field, msg_id m)] else [])
    (map fst autos) (map snd autos) (map fst stamps) (map snd stamps) []
    (is_dir (msg_direction m) DirSend) (is_dir (msg_direction m) DirReceive)
    (map (fun a => (ann_name a, ann_value a)) (msg_annotations m)).

Definition message_leaf (fuel : nat) (id_field : string) (autos stamps : list (string * Z)) (m : MessageDef)
  : option LeafTypeInfo := find_auto_fields fuel (msg_children m) (new_leaf id_field autos stamps m).

(** [seen] maps an id to the name that has it. *)
Fixpoint check_type_id_collisions (leaves : list LeafTypeInfo) (seen : gmap Z string) (ok : bool) : bool :=
  match leaves with
  | [] => ok
  | l :: leaves =>
      match seen !! type_id l with
      | None => check_type_id_collisions leaves (<[type_id l := leaf_name l]> seen) ok
      | Some n => check_type_id_collisions leaves seen (ok && String.eqb n (leaf_name l))
      end
  end.

Definition analyze_frame (fuel : nat) (frame : FrameDef) : option SessionInfo :=
  '(header_bits, h) ← scan_header (header_fields frame) 0 new_header;
  footer ← footer_bits (footer_fields frame) 0;
  autos ← frame_autos AutoIncrement (header_fields frame);
  stamps ← frame_autos AutoTimestamp (header_fields frame);
  leaves ← mapM (message_leaf fuel (id_field_name h) autos stamps) (proto_messages p);
  Some (mkSession (frame_name frame) leaves h (to_bytes header_bits) frame true
          (payload_is_array (frame_payload frame)) (payload_length_from (frame_payload frame)) (to_bytes footer)).

Fixpoint analyze_frames (fuel : nat) (frames : list FrameDef) : option (list SessionInfo) :=
  match frames with
  | [] => Some []
  | f :: frames =>
      si ← analyze_frame fuel f;
      r ← analyze_frames fuel frames;
      Some (if check_type_id_collisions (leaf_types si) ∅ true then si :: r else r)
  end.

Definition analyze_sessions (fuel : nat) : option (list SessionInfo) := analyze_frames fuel (proto_frames p).
End analyzer.

(** ** Sync bytes are what the writer puts on the wire *)

Definition wire_endian (e : Endian) : endian := match e with EndianBig => Big | EndianLittle => Little end.

Lemma sync_byte_value v i : (i < 8)%nat -> sync_byte v i = Some (u8 (Z.shiftr v (8 * Z.of_nat i))).
Proof.
  intros H. unfold sync_byte. rewrite (proj2 (Z.ltb_lt _ _)) by lia. f_equal. change 255 with (Z.ones 8).
  rewrite Z.land_ones by lia. unfold u8, wrap. by rewrite Z.mod_mod.
Qed.

Lemma sync_bytes_wire e n v : (n <= 8)%nat -> sync_bytes e n v = Some (wire_bytes (wire_endian e) n v).
Proof.
  intros Hn. assert (mapM (sync_byte v) (rev (seq 0 n)) = Some (be_bytes n v)) as HB.
  { induction n as [|n IH]; [done|]. rewrite seq_S, rev_app_distr. cbn [app rev Nat.add be_bytes mapM].
    rewrite sync_byte_value by lia. cbn. by rewrite IH by lia. }
  destruct e; [exact HB|]. cbn [sync_bytes wire_endian wire_bytes].
  apply mapM_Some in HB. apply mapM_Some. rewrite <- (rev_involutive (seq 0 n)), !(rev_alt (rev _)), (rev_alt (be_bytes n v)).
  by apply Forall2_reverse.
Qed.

Lemma finished_bytes w l : w ⊨ bytes_bits l -> Forall is_byte l -> room 7 w -> finish w = (Ok l, new_writer).
Proof.
  intros Hw Hl Hr. destruct (finish_repr w _ Hw Hr) as (d & -> & Hd & E). rewrite align8_aligned in E.
  - by rewrite (bytes_bits_inj d l Hd Hl E).
  - rewrite length_bytes_bits. apply Nat.mod_divide; [lia|]. exists (length l). lia.
Qed.

(** The sync bytes of a constrained header field are the bytes the field has
    on the wire: up to 64 bits they are always defined, and they are what a fresh
    [BitWriter] returns for the field's value, written bit by bit in the big
    endian order or as a 16, 32 or 64 bit integer in either order.  Beyond 64
    bits the shift that computes them is undefined. *)
Theorem sync_bytes_written (e : Endian) (n : nat) (v : Z) :
  if decide (n <= 8)%nat then
    exists l, sync_bytes e n v = Some l
      /\ (e = EndianBig -> exists w, write_bits v (8 * Z.of_nat n) new_writer = Some w /\ finish w = (Ok l, new_writer))
      /\ (n = 2%nat -> finish (write_u16 v (wire_endian e) new_writer) = (Ok l, new_writer))
      /\ (n = 4%nat -> finish (write_u32 v (wire_endian e) new_writer) = (Ok l, new_writer))
      /\ (n = 8%nat -> finish (write_u64 v (wire_endian e) new_writer) = (Ok l, new_writer))
  else sync_bytes e n v = None.
Proof.
  case_decide as Hn.
  - rewrite sync_bytes_wire by done. eexists. split; [done|].
    assert (forall w, w ⊨ bytes_bits (wire_bytes (wire_endian e) n v) -> finish w = (Ok (wire_bytes (wire_endian e) n v), new_writer)) as Hf.
    { intros w Hw. apply finished_bytes; [done|auto with conduit|]. unfold room. rewrite (repr_pos _ _ Hw), len_bytes_bits.
      unfold len. rewrite length_wire_bytes. unfold SIZE_MAX. lia. }
    assert (forall k, k <= 71 -> room k new_writer) as Hroom by (intros k Hk; unfold room, SIZE_MAX; cbn; lia).
    split_and!.
    + intros ->. destruct (write_bits_repr v (8 * n) new_writer []) as (w & E & Hw); [apply repr_new|lia|apply Hroom; lia|].
      exists w. replace (8 * Z.of_nat n) with (Z.of_nat (8 * n)) by lia. split; [done|]. apply Hf. cbn [wire_endian wire_bytes].
      by rewrite bytes_bits_be_bytes.
    + intros ->. apply Hf, (write_u16_repr v _ new_writer []); [apply repr_new|by apply Hroom].
    + intros ->. apply Hf, (write_u32_repr v _ new_writer []); [apply repr_new|by apply Hroom].
    + intros ->. apply Hf, (write_u64_repr v _ new_writer []); [apply repr_new|by apply Hroom].
  - assert (8%nat ∈ seq 0 n) as Hin by (apply elem_of_seq; lia).
    assert (forall l, 8%nat ∈ l -> mapM (sync_byte v) l = None) as H.
    { intros l Hl. apply mapM_None, Exists_exists. by exists 8%nat. }
    destruct e; cbn [sync_bytes]; apply H; [|done]. apply list_elem_of_In, in_rev. rewrite rev_involutive. by apply list_elem_of_In.
Qed.

(** ** Which fields a leaf type sees *)

Section expansion.
Variable p : Protocol.

(** The children of the struct or message of a name. *)
Definition body (name : string) (cs : list StructChild) : Prop :=
  (exists s, s ∈ proto_structs p /\ sd_name s = name /\ sd_children s = cs)
  \/ (exists m, m ∈ proto_messages p /\ msg_name m = name /\ msg_children m = cs).

Definition inlined (f : Field) : Prop :=
  f_is_inline f = true /\ f_type_ref f <> "" /\ f_type_ref f ∈ composite_names p.

(** The fields of a list of children with those of the inline references in
    place, in order. *)
Inductive expands : list StructChild -> list Field -> Prop :=
  | expands_nil : expands [] []
  | expands_field f l fs : ~ inlined f -> expands l fs -> expands (ChField f :: l) (f :: fs)
  | expands_inline f cs l fs1 fs2 : inlined f -> body (f_type_ref f) cs -> expands cs fs1 -> expands l fs2 ->
      expands (ChField f :: l) (f :: fs1 ++ fs2)
  | expands_other c l fs : (forall f, c <> ChField f) -> expands l fs -> expands (c :: l) fs.

Lemma expands_list l :
  (forall f, ChField f ∈ l -> inlined f -> exists cs fs, body (f_type_ref f) cs /\ expands cs fs) ->
  exists fs, expands l fs.
Proof.
  induction l as [|c l IH]; intros H; [exists []; constructor|].
  destruct IH as [fs Hfs]; [intros f Hf; apply H; by right|].
  destruct c as [f| | | | | |]; try (exists fs; by constructor).
  destruct (decide (f_is_inline f = true)) as [Hi|Hi].
  2:{ exists (f :: fs). constructor; [|done]. by intros []. }
  destruct (decide (f_type_ref f = "")) as [He|He].
  1:{ exists (f :: fs). constructor; [|done]. by intros (? & ? & ?). }
  destruct (decide (f_type_ref f ∈ composite_names p)) as [Hc|Hc].
  2:{ exists (f :: fs). constructor; [|done]. by intros (? & ? & ?). }
  destruct (H f) as (cs & fs1 & Hb & Hx); [by left|done|]. exists (f :: fs1 ++ fs). by eapply expands_inline.
Qed.

Lemma body_exists name : name ∈ composite_names p -> exists cs, body name cs.
Proof.
  intros [(s & -> & Hs)%list_elem_of_fmap_1|(m & -> & Hm)%list_elem_of_fmap_1]%elem_of_app;
    eexists; [left|right]; eauto.
Qed.

Lemma inlined_contains name cs f : body name cs -> ChField f ∈ cs -> inlined f -> follows p name (f_type_ref f).
Proof.
  intros Hb Hf (_ & Hne & Hc).
  destruct Hb as [(s & Hs & <- & <-)|(m & Hm & <- & <-)]; [left|right]; eexists; (split_and!; [done|done|by apply holds_field]).
Qed.

(** Without recursive types every list of children of the protocol expands. *)
Lemma expands_exists name cs : (forall n, Acc (flip (follows p)) n) -> body name cs -> exists fs, expands cs fs.
Proof.
  intros HA. specialize (HA name). revert cs. induction HA as [name _ IH]. intros cs Hb. apply expands_list.
  intros f Hf Hi. destruct (body_exists (f_type_ref f)) as [cs' Hb']; [apply Hi|].
  destruct (IH (f_type_ref f)) with cs' as [fs Hfs]; [by eapply inlined_contains|done|]. by exists cs', fs.
Qed.
End expansion.

Section leaves.
Context (p : Protocol) (idx : TypeIndex) `{!Indexes p idx}.

Lemma find_type_lookup n i : find idx n = Some (RType i) -> exists td, proto_types p !! i = Some td /\ td_name td = n.
Proof. intros H%(index_find p idx). cbn in H. destruct (_ !! i) as [td|]; [|done]. exists td. naive_solver. Qed.

Lemma resolve_signed_total f : exists b, resolve_signed p idx f = Some b.
Proof.
  unfold resolve_signed. destruct (f_is_signed f); [eauto|]. destruct_if; [eauto|].
  destruct (find idx (f_type_ref f)) as [[i| |]|] eqn:E; eauto.
  destruct (find_type_lookup _ _ E) as (td & -> & _). cbn. eauto.
Qed.

(** What an inline field brings in. *)
Lemma inline_children_spec f :
  (~ inlined p f /\ inline_children p idx f = Some None)
  \/ exists cs, inlined p f /\ body p (f_type_ref f) cs /\ inline_children p idx f = Some (Some cs).
Proof.
  unfold inline_children, inlined. destruct (f_is_inline f); cbn [andb]; [|left; naive_solver].
  destruct (String.eqb_spec (f_type_ref f) "") as [He|He]; cbn [negb]; [left; naive_solver|].
  destruct (find idx (f_type_ref f)) as [[i|i|i]|] eqn:E.
  - left. split; [|done]. intros (_ & _ & Hc). apply (index_find p idx) in E. cbn in E.
    destruct (proto_types p !! i) as [td|] eqn:Et; [|done]. injection E as E.
    pose proof index_distinct as (_ & D & _)%NoDup_app. apply (D (f_type_ref f)); [|done]. rewrite <- E.
    by apply list_elem_of_fmap_2, (list_elem_of_lookup_2 _ i).
  - apply (index_find p idx) in E. cbn in E. destruct (proto_structs p !! i) as [s|] eqn:Es; [|done]. injection E as E.
    apply list_elem_of_lookup_2 in Es. right. exists (sd_children s). split_and!; [done|done| |left; by exists s|done].
    rewrite <- E. apply elem_of_app. left. by apply list_elem_of_fmap_2.
  - apply (index_find p idx) in E. cbn in E. destruct (proto_messages p !! i) as [m|] eqn:Em; [|done]. injection E as E.
    apply list_elem_of_lookup_2 in Em. right. exists (msg_children m). split_and!; [done|done| |right; by exists m|done].
    rewrite <- E. apply elem_of_app. right. by apply list_elem_of_fmap_2.
  - left. split; [|done]. intros (_ & _ & Hc). unfold composite_names in Hc. unfold find in E.
    rewrite index_types, index_structs, index_messages in E. rewrite elem_of_app, <- !first_pos_is_Some in Hc.
    destruct (first_pos _ (type_names p)); [done|]. destruct (first_pos _ (struct_names p)); [done|].
    destruct (first_pos _ (message_names p)); [done|]. by destruct Hc as [[]|[]].
Qed.

Lemma body_unique name cs cs' : body p name cs -> body p name cs' -> cs = cs'.
Proof.
  pose proof index_distinct as (_ & _ & (_ & D & _)%NoDup_app)%NoDup_app.
  assert (forall s m, s ∈ proto_structs p -> m ∈ proto_messages p -> sd_name s <> msg_name m) as X.
  { intros s m Hs Hm E. apply (D (sd_name s)); [by apply list_elem_of_fmap_2|rewrite E; by apply list_elem_of_fmap_2]. }
  intros [(s & Hs & <- & <-)|(m & Hm & <- & <-)] [(s' & Hs' & E & <-)|(m' & Hm' & E & <-)].
  - by rewrite (struct_name_unique p idx s s').
  - by destruct (X s m').
  - by destruct (X s' m).
  - by rewrite (message_name_unique p idx m m').
Qed.

(** ** The search through inline fields *)

Fixpoint leaf_fields (fs : list Field) (leaf : LeafTypeInfo) : option LeafTypeInfo :=
  match fs with
  | [] => Some leaf
  | f :: fs => leaf ← leaf_field p idx f leaf; leaf_fields fs leaf
  end.

Lemma leaf_fields_app fs1 fs2 leaf :
  leaf_fields (fs1 ++ fs2) leaf = (leaf1 ← leaf_fields fs1 leaf; leaf_fields fs2 leaf1).
Proof. revert leaf. induction fs1 as [|f fs1 IH]; intros leaf; cbn; [done|]. destruct (leaf_field p idx f leaf); cbn; auto. Qed.

(** With enough fuel the search looks at the expanded fields one by one. *)
Lemma expands_runs l fs : expands p l fs ->
  exists F, forall fuel, (F <= fuel)%nat -> forall leaf,
    leaf_children p idx (find_auto_fields p idx fuel) l leaf = leaf_fields fs leaf.
Proof.
  induction 1 as [|f l fs Hn _ [F IH]|f cs l fs1 fs2 Hi Hb _ [F1 IH1] _ [F2 IH2]|c l fs Hc _ [F IH]].
  - exists O. done.
  - exists F. intros fuel Hf leaf. cbn [leaf_children leaf_fields]. destruct (leaf_field p idx f leaf) as [leaf1|]; [|done]. cbn [mbind option_bind].
    destruct (inline_children_spec f) as [[_ ->]|(cs & Hi & _)]; [by apply IH|done].
  - exists (S (Nat.max F1 F2)). intros [|fuel] Hf leaf; [lia|]. cbn [leaf_children leaf_fields].
    destruct (leaf_field p idx f leaf) as [leaf1|]; [|done]. cbn [mbind option_bind]. rewrite leaf_fields_app.
    destruct (inline_children_spec f) as [[Hn _]|(cs' & _ & Hb' & ->)]; [done|]. cbn [mbind option_bind].
    rewrite (body_unique _ cs' cs Hb' Hb).
    change (find_auto_fields p idx (S fuel) cs leaf1) with (leaf_children p idx (find_auto_fields p idx fuel) cs leaf1).
    rewrite IH1 by lia. destruct (leaf_fields fs1 leaf1) as [leaf2|]; [|done]. cbn [mbind option_bind]. apply IH2. lia.
  - exists F. intros fuel Hf leaf. destruct c; cbn [leaf_children]; try by apply IH. by destruct (Hc f).
Qed.

(** *** What the fields add *)

Definition bytes_ok (f : Field) : Prop := forall n, f_bytes_attr f = Some n -> n <= 268435455.

Lemma octets_ok n : n <= 268435455 -> octets n = Some (Z.max 0 n * 8).
Proof. intros H. unfold octets, INT_MAX. rewrite (proj2 (Z.leb_le _ _)); [done|lia]. Qed.

Lemma resolve_field_bits_total f : bytes_ok f -> exists b, resolve_field_bits p idx f = Some b.
Proof.
  intros H. unfold resolve_field_bits. destruct (f_bits f); [eauto|]. destruct (f_bytes_attr f) as [n|] eqn:E.
  - rewrite octets_ok by (by apply H). eauto.
  - destruct_if; [eauto|]. destruct (type_at_spec p idx (f_type_ref f)) as (t & -> & _). cbn. eauto.
Qed.

Lemma auto_bits_total f : bytes_ok f -> exists b, auto_bits p idx f = Some b.
Proof.
  intros H. unfold auto_bits. destruct_if.
  - destruct (f_bits f); [eauto|]. destruct (f_bytes_attr f) as [n|] eqn:E; [|eauto]. rewrite octets_ok by (by apply H). eauto.
  - destruct (type_at_spec p idx (f_type_ref f)) as (t & -> & _). cbn. eauto.
Qed.

(** [leaf'] is [leaf] with the automatic fields among [fs] added in order. *)
Record leaf_adds (fs : list Field) (leaf leaf' : LeafTypeInfo) : Prop := {
  adds_name : leaf_name leaf' = leaf_name leaf;
  adds_id : type_id leaf' = type_id leaf;
  adds_constraints : leaf_constraints leaf' = leaf_constraints leaf;
  adds_dir : send_only leaf' = send_only leaf /\ receive_only leaf' = receive_only leaf;
  adds_annotations : leaf_annotations leaf' = leaf_annotations leaf;
  adds_autos : auto_fields leaf' = auto_fields leaf ++ map f_name (List.filter (is_auto AutoIncrement) fs);
  adds_stamps : timestamp_fields leaf' = timestamp_fields leaf ++ map f_name (List.filter (is_auto AutoTimestamp) fs);
  adds_configs : map cf_field_name (leaf_config_fields leaf')
    = map cf_field_name (leaf_config_fields leaf) ++ map f_name (List.filter (is_auto AutoConfig) fs);
  adds_widths : length (auto_fields leaf) = length (auto_field_bits leaf) ->
    length (timestamp_fields leaf) = length (timestamp_field_bits leaf) ->
    length (auto_fields leaf') = length (auto_field_bits leaf')
    /\ length (timestamp_fields leaf') = length (timestamp_field_bits leaf');
}.

Lemma leaf_field_adds f leaf : bytes_ok f -> exists leaf', leaf_field p idx f leaf = Some leaf' /\ leaf_adds [f] leaf leaf'.
Proof.
  intros H. unfold leaf_field. destruct (auto_bits_total f H) as [b Eb]. destruct (resolve_field_bits_total f H) as [r Er].
  destruct (resolve_signed_total f) as [s Es]. unfold config_field. rewrite Eb, Er, Es.
  destruct (f_auto_expr f) as [a|] eqn:Ea; [destruct (auto_kind a) eqn:Ek|]; cbn; (eexists; split; [reflexivity|]);
    split; cbn; unfold is_auto; rewrite ?Ea, ?Ek; cbn; rewrite ?map_app, ?length_app, ?app_nil_r; cbn; auto; lia.
Qed.

Lemma leaf_fields_add fs leaf : Forall bytes_ok fs -> exists leaf', leaf_fields fs leaf = Some leaf' /\ leaf_adds fs leaf leaf'.
Proof.
  intros H. revert leaf. induction H as [|f fs Hf _ IH]; intros leaf; cbn [leaf_fields].
  - exists leaf. split; [done|]. split; rewrite ?app_nil_r; auto.
  - destruct (leaf_field_adds f leaf Hf) as (l1 & -> & H1). cbn [mbind option_bind]. destruct (IH l1) as (l2 & -> & H2).
    exists l2. split; [done|]. destruct H1, H2. split; try congruence.
    + destruct adds_dir0, adds_dir1. split; congruence.
    + rewrite adds_autos1, adds_autos0, <- app_assoc. f_equal. cbn. destruct_if; done.
    + rewrite adds_stamps1, adds_stamps0, <- app_assoc. f_equal. cbn. destruct_if; done.
    + rewrite adds_configs1, adds_configs0, <- app_assoc. f_equal. cbn. destruct_if; done.
    + intros Ha Hs. destruct (adds_widths0 Ha Hs). auto.
Qed.

(** ** The frame *)

Lemma frame_autos_spec k l : Forall bytes_ok (top_fields l) ->
  exists r, frame_autos p idx k l = Some r /\ map fst r = map f_name (List.filter (is_auto k) (top_fields l)).
Proof.
  induction l as [|c l IH]; [by exists []|]. destruct c as [f| | | | | |]; cbn [frame_autos]; try exact IH.
  change (top_fields (ChField f :: l)) with (f :: top_fields l). intros [Hf Hl]%Forall_cons.
  destruct (IH Hl) as (r & -> & Hr). destruct (resolve_field_bits_total f Hf) as [b ->]. cbn [List.filter].
  destruct (is_auto k f); [exists ((f_name f, b) :: r)|by exists r]. cbn. by rewrite Hr.
Qed.

Lemma footer_bits_total l n : Forall bytes_ok (top_fields l) -> exists r, footer_bits p idx l n = Some r.
Proof.
  revert n. induction l as [|c l IH]; intros n; [by eexists|]. destruct c as [f| | | | | |]; cbn [footer_bits]; try apply IH.
  change (top_fields (ChField f :: l)) with (f :: top_fields l). intros [Hf Hl]%Forall_cons.
  destruct (resolve_field_bits_total f Hf) as [b ->]. by apply IH.
Qed.

Lemma fixed_size_total l n : exists r, compute_fixed_size_bits p idx l n = Some r.
Proof.
  revert n. induction l as [|c l IH]; intros n; [by eexists|]. destruct c as [f| | | | | |]; cbn [compute_fixed_size_bits]; try apply IH.
  destruct (f_bits f); [apply IH|]. destruct (f_bytes_attr f); [apply IH|]. destruct_if; [apply IH|].
  destruct (find idx (f_type_ref f)) as [[i| |]|] eqn:E; try apply IH.
  destruct (find_type_lookup _ _ E) as (td & -> & _). apply IH.
Qed.

Section bounded_types.
Hypothesis bits_ok : forall t, t ∈ proto_types p -> td_bits t <= 64.

Lemma sync_width_ok t : (forall td, t = Some td -> td ∈ proto_types p) -> (sync_width t <= 8)%nat.
Proof.
  intros H. unfold sync_width. destruct t as [td|]; [|lia]. destruct (Z.ltb_spec 0 (td_bits td)) as [Hb|_]; [|lia].
  pose proof (bits_ok td (H td eq_refl)). unfold to_bytes. rewrite !sz_small by (unfold SIZE_MAX; rewrite ?sz_small; unfold SIZE_MAX; lia).
  apply (Nat2Z.inj_le _ 8). rewrite Z2Nat.id by (apply Z.div_pos; lia). cbn. assert ((td_bits td + 7) / 8 < 9); [|lia].
  apply Z.div_lt_upper_bound; lia.
Qed.

Lemma parse_sync_total v ref e h : exists h', parse_sync_bytes p idx v ref e h = Some h'.
Proof.
  unfold parse_sync_bytes. destruct (parse_sync_value (txt v)); [|eauto]. destruct (type_at_spec p idx ref) as (t & -> & Ht).
  cbn. rewrite sync_bytes_wire by by apply sync_width_ok. eauto.
Qed.

Lemma header_sync_total f h : exists h', header_sync p idx f h = Some h'.
Proof.
  unfold header_sync. destruct (f_constraint f) as [c|]; [|eauto]. destruct (equals c) as [eq|]; [|eauto].
  destruct (idx_constants idx !! eq) as [i|] eqn:E; [|apply parse_sync_total].
  destruct (index_constant_lookup p idx eq i E) as (k & -> & _). apply parse_sync_total.
Qed.

Lemma header_auto_total f n b h : exists h', header_auto p idx f n b h = Some h'.
Proof.
  unfold header_auto. destruct (f_auto_expr f) as [a|]; [|eauto]. destruct (resolve_signed_total f) as [s Es].
  unfold config_field. rewrite Es. destruct (auto_kind a); cbn; eauto.
Qed.

Lemma scan_header_total l n h : Forall bytes_ok (top_fields l) -> exists r, scan_header p idx l n h = Some r.
Proof.
  revert n h. induction l as [|c l IH]; intros n h; [by eexists|].
  destruct c as [f|s| | | | |]; cbn [scan_header]; try apply IH.
  - change (top_fields (ChField f :: l)) with (f :: top_fields l). intros [Hf Hl]%Forall_cons.
    destruct (resolve_field_bits_total f Hf) as [b ->]. cbn [mbind option_bind].
    destruct (header_auto_total f n b h) as [h1 ->]. cbn [mbind option_bind]. destruct (header_sync_total f h1) as [h2 ->].
    by apply IH.
  - destruct_if; [apply IH|]. destruct (fixed_size_total (sd_children s) 0) as [k ->]. apply IH.
Qed.
End bounded_types.
End leaves.

(** ** Type ids *)

(** With names that differ the check passes exactly when the ids differ. *)
Lemma collisions_spec leaves seen ok :
  NoDup (map leaf_name leaves) -> (forall id n, seen !! id = Some n -> n ∉ map leaf_name leaves) ->
  check_type_id_collisions leaves seen ok = true
  <-> ok = true /\ NoDup (map type_id leaves) /\ forall l, l ∈ leaves -> seen !! type_id l = None.
Proof.
  revert seen ok. induction leaves as [|l leaves IH]; intros seen ok Hn Hs; cbn [check_type_id_collisions].
  { split; [|tauto]. intros ->. split_and!; [done|constructor|]. by intros ? ?%elem_of_nil. }
  cbn [map] in *. apply NoDup_cons in Hn as [Hl Hn]. destruct (seen !! type_id l) as [n|] eqn:E.
  - rewrite IH; [|done|]. 2:{ intros id m Hm Hin. apply (Hs id m Hm). by right. }
    destruct (String.eqb_spec n (leaf_name l)) as [->|Hne].
    + destruct (Hs _ _ E). by left.
    + rewrite andb_false_r. split; [by intros (? & _)|]. intros (_ & _ & H). specialize (H l). rewrite E in H.
      discriminate H. by left.
  - rewrite IH; [|done|].
    2:{ intros id m Hm Hin. destruct (decide (id = type_id l)) as [->|Hd].
        - rewrite lookup_insert_eq in Hm. injection Hm as <-. done.
        - rewrite lookup_insert_ne in Hm by done. apply (Hs id m Hm). by right. }
    rewrite NoDup_cons. split.
    + intros (Ho & Hd & H). split_and!; [done| |done|].
      * intros (l' & E' & Hl')%list_elem_of_fmap_1. specialize (H l' Hl'). rewrite E', lookup_insert_eq in H. done.
      * intros l' [->|Hl']%elem_of_cons; [done|]. specialize (H l' Hl'). by apply lookup_insert_None in H as [? _].
    + intros (Ho & (Hi & Hd) & H). split_and!; [done|done|]. intros l' Hl'. apply lookup_insert_None. split.
      * apply H. by right.
      * intros E'. apply Hi. rewrite E'. by apply list_elem_of_fmap_2.
Qed.

(** ** Sessions *)

Section sessions.
Variable char_is_signed : bool.
Variable p : Protocol.

(** The arithmetic of the analysis stays within its types. *)
Record analyzable : Prop := {
  an_bytes : forall f, f ∈ protocol_fields p -> bytes_ok f;
  an_bits : forall t, t ∈ proto_types p -> td_bits t <= 64;
}.

(** The leaf type of a message in a frame whose own fields are [top]: its
    automatic fields are those of the frame, then those of the message with
    inline references expanded. *)
Record leaf_of (id_field : string) (top : list Field) (m : MessageDef) (leaf : LeafTypeInfo) : Prop := {
  leaf_of_name : leaf_name leaf = msg_name m;
  leaf_of_id : type_id leaf = fnv1a_hash char_is_signed (msg_name m);
  leaf_of_constraints : leaf_constraints leaf
    = if negb (String.eqb (msg_id m) "") && negb (String.eqb id_field "") then [(id_field, msg_id m)] else [];
  leaf_of_direction : (send_only leaf = true <-> msg_direction m = DirSend)
    /\ (receive_only leaf = true <-> msg_direction m = DirReceive);
  leaf_of_fields : exists fs, expands p (msg_children m) fs
    /\ auto_fields leaf = map f_name (List.filter (is_auto AutoIncrement) (top ++ fs))
    /\ timestamp_fields leaf = map f_name (List.filter (is_auto AutoTimestamp) (top ++ fs))
    /\ map cf_field_name (leaf_config_fields leaf) = map f_name (List.filter (is_auto AutoConfig) fs);
  leaf_of_widths : length (auto_fields leaf) = length (auto_field_bits leaf)
    /\ length (timestamp_fields leaf) = length (timestamp_field_bits leaf);
}.

Record session_of (frame : FrameDef) (si : SessionInfo) : Prop := {
  session_of_name : session_name si = frame_name frame;
  session_of_leaves : Forall2 (leaf_of (id_field_name (si_header si)) (top_fields (header_fields frame)))
    (proto_messages p) (leaf_types si);
}.
End sessions.

Section session_theory.
Context (char_is_signed : bool) (p : Protocol) (idx : TypeIndex) `{!Indexes p idx}.
Hypothesis Hok : analyzable p.
Hypothesis Hacc : forall n, Acc (flip (follows p)) n.

Lemma child_in_fields (l : list StructChild) f : (forall c, c ∈ l -> c ∈ all_children p) -> ChField f ∈ l -> bytes_ok f.
Proof.
  intros H Hf. apply (an_bytes p Hok). unfold protocol_fields, fields_of, collect. apply list_elem_of_In, in_flat_map.
  exists (ChField f). split; [by apply list_elem_of_In, H|by left].
Qed.

Lemma body_children name cs c : body p name cs -> c ∈ cs -> c ∈ all_children p.
Proof.
  intros [(s & Hs & _ & <-)|(m & Hm & _ & <-)] Hc; unfold all_children; rewrite !elem_of_app; [right; left|left];
    apply list_elem_of_In, in_flat_map; [exists s|exists m]; by rewrite <- !list_elem_of_In.
Qed.

Lemma expands_bytes_ok l fs : expands p l fs -> (forall c, c ∈ l -> c ∈ all_children p) -> Forall bytes_ok fs.
Proof.
  induction 1 as [|f l fs _ _ IH|f cs l fs1 fs2 _ Hb _ IH1 _ IH2|c l fs _ _ IH]; intros Hl.
  - constructor.
  - constructor; [apply (child_in_fields (ChField f :: l)); [done|by left]|]. apply IH. intros; apply Hl; by right.
  - constructor; [apply (child_in_fields (ChField f :: l)); [done|by left]|]. apply Forall_app. split.
    + apply IH1. intros. by eapply body_children.
    + apply IH2. intros; apply Hl; by right.
  - apply IH. intros; apply Hl; by right.
Qed.

Lemma message_body m : m ∈ proto_messages p -> body p (msg_name m) (msg_children m).
Proof. intros H. right. by exists m. Qed.

Lemma is_dir_true d e : is_dir d e = true <-> d = e.
Proof. destruct d, e; cbn; naive_solver. Qed.

Lemma message_leaf_spec m : m ∈ proto_messages p ->
  exists F, forall fuel, (F <= fuel)%nat -> forall id_field autos stamps top,
    map fst autos = map f_name (List.filter (is_auto AutoIncrement) top) ->
    map fst stamps = map f_name (List.filter (is_auto AutoTimestamp) top) ->
    exists leaf, message_leaf char_is_signed p idx fuel id_field autos stamps m = Some leaf
      /\ leaf_of char_is_signed p id_field top m leaf.
Proof.
  intros Hm. pose proof (message_body m Hm) as Hb. destruct (expands_exists p _ _ Hacc Hb) as [fs Hfs].
  destruct (expands_runs p idx _ _ Hfs) as [F HF]. exists (S F). intros [|fuel] Hle id_field autos stamps top Ha Hs; [lia|].
  unfold message_leaf. cbn [find_auto_fields]. rewrite HF by lia.
  destruct (leaf_fields_add p idx fs (new_leaf char_is_signed id_field autos stamps m)) as (leaf & -> & H).
  { apply (expands_bytes_ok _ _ Hfs). intros c. by apply (body_children (msg_name m)). }
  exists leaf. split; [done|]. destruct H. cbn in *. split; try done.
  - destruct adds_dir0 as [-> ->]. split; apply is_dir_true.
  - exists fs. rewrite !List.filter_app, !map_app. split_and!; [done|congruence|congruence|done].
  - apply adds_widths0; by rewrite !length_map.
Qed.

Lemma leaves_spec (ms : list MessageDef) : (forall m, m ∈ ms -> m ∈ proto_messages p) ->
  exists F, forall fuel, (F <= fuel)%nat -> forall id_field autos stamps top,
    map fst autos = map f_name (List.filter (is_auto AutoIncrement) top) ->
    map fst stamps = map f_name (List.filter (is_auto AutoTimestamp) top) ->
    exists leaves, mapM (message_leaf char_is_signed p idx fuel id_field autos stamps) ms = Some leaves
      /\ Forall2 (leaf_of char_is_signed p id_field top) ms leaves.
Proof.
  induction ms as [|m ms IH]; intros Hms.
  { exists O. intros. exists []. by split. }
  destruct IH as [F HF]; [intros; apply Hms; by right|]. destruct (message_leaf_spec m) as [F' HF']; [apply Hms; by left|].
  exists (Nat.max F F'). intros fuel Hle id_field autos stamps top Ha Hs. cbn [mapM].
  destruct (HF' fuel ltac:(lia) id_field autos stamps top Ha Hs) as (leaf & -> & Hl).
  destruct (HF fuel ltac:(lia) id_field autos stamps top Ha Hs) as (leaves & HE & Hls). cbn. rewrite HE. cbn.
  exists (leaf :: leaves). split; [done|by constructor].
Qed.

Lemma top_bytes_ok (l : list StructChild) : (forall c, c ∈ l -> c ∈ all_children p) -> Forall bytes_ok (top_fields l).
Proof.
  intros H. apply Forall_forall. intros f (c & Hc & E)%list_elem_of_omap. destruct c; try done. injection E as ->.
  by apply (child_in_fields l).
Qed.

Lemma frame_children_ok frame : frame ∈ proto_frames p ->
  Forall bytes_ok (top_fields (header_fields frame)) /\ Forall bytes_ok (top_fields (footer_fields frame)).
Proof.
  intros Hf. split; apply top_bytes_ok; intros c Hc; unfold all_children; rewrite !elem_of_app; right; right;
    apply list_elem_of_In, in_flat_map; exists frame; (split; [by apply list_elem_of_In|]);
    apply list_elem_of_In, elem_of_app; auto.
Qed.

Lemma frame_session :
  exists F, forall fuel, (F <= fuel)%nat -> forall frame, frame ∈ proto_frames p ->
    exists si, analyze_frame char_is_signed p idx fuel frame = Some si /\ session_of char_is_signed p frame si.
Proof.
  destruct (leaves_spec (proto_messages p)) as [F HF]; [done|]. exists F. intros fuel Hle frame Hin.
  destruct (frame_children_ok frame Hin) as [Hh Hfoot]. unfold analyze_frame.
  destruct (scan_header_total p idx (an_bits p Hok) (header_fields frame) 0 new_header Hh) as [[off h] ->].
  cbn [mbind option_bind]. destruct (footer_bits_total p idx (footer_fields frame) 0 Hfoot) as [foot ->].
  destruct (frame_autos_spec p idx AutoIncrement _ Hh) as (autos & -> & Ha).
  destruct (frame_autos_spec p idx AutoTimestamp _ Hh) as (stamps & -> & Hs). cbn [mbind option_bind].
  destruct (HF fuel Hle (id_field_name h) autos stamps _ Ha Hs) as (leaves & -> & Hl). cbn.
  eexists. split; [reflexivity|]. by split.
Qed.

Lemma leaf_names id_field top leaves :
  Forall2 (leaf_of char_is_signed p id_field top) (proto_messages p) leaves ->
  map leaf_name leaves = message_names p /\ map type_id leaves = map (fnv1a_hash char_is_signed) (message_names p).
Proof.
  unfold message_names. intros H. induction H as [|m leaf ms leaves Hm _ [IH1 IH2]]; [done|]. cbn [map]. rewrite IH1, IH2.
  by rewrite (leaf_of_name _ _ _ _ _ _ Hm), (leaf_of_id _ _ _ _ _ _ Hm).
Qed.

Lemma session_kept frame si : session_of char_is_signed p frame si ->
  check_type_id_collisions (leaf_types si) ∅ true = true <-> NoDup (map (fnv1a_hash char_is_signed) (message_names p)).
Proof.
  intros [_ H]. apply leaf_names in H as [Hn Hi]. pose proof index_distinct as (_ & _ & (_ & _ & Nm)%NoDup_app)%NoDup_app.
  rewrite collisions_spec, Hi.
  - split; [by intros (_ & ? & _)|]. intros Hd. split_and!; [done|done|]. intros. apply lookup_empty.
  - by rewrite Hn.
  - intros id n E. by rewrite lookup_empty in E.
Qed.

(** One session per frame, or none. *)
Lemma frames_spec fuel frames :
  (forall frame, frame ∈ frames ->
    exists si, analyze_frame char_is_signed p idx fuel frame = Some si /\ session_of char_is_signed p frame si) ->
  exists sessions, analyze_frames char_is_signed p idx fuel frames = Some sessions
    /\ if decide (NoDup (map (fnv1a_hash char_is_signed) (message_names p)))
       then Forall2 (session_of char_is_signed p) frames sessions else sessions = [].
Proof.
  induction frames as [|f frames IH]; intros H; cbn [analyze_frames].
  { exists []. split; [done|]. by case_decide. }
  destruct (H f) as (si & -> & Hsi); [by left|]. destruct IH as (r & -> & Hr); [intros; apply H; by right|]. cbn.
  pose proof (session_kept f si Hsi) as Hk. eexists. split; [reflexivity|]. case_decide as Hd.
  - rewrite (proj2 Hk Hd). by constructor.
  - destruct (check_type_id_collisions _ _ _); [|done]. destruct Hd. by apply Hk.
Qed.
End session_theory.

Lemma resolved_sessions (char_is_signed : bool) (p p' : Protocol) (idx : TypeIndex) :
  literals_defined p -> resolve_types p = Some (Resolved idx, p') -> detect_struct_cycles p' idx = Some [] ->
  analyzable p' ->
  exists F, forall fuel, (F <= fuel)%nat ->
    exists sessions, analyze_sessions char_is_signed p' idx fuel = Some sessions
      /\ if decide (NoDup (map (fnv1a_hash char_is_signed) (message_names p')))
         then Forall2 (session_of char_is_signed p') (proto_frames p') sessions else sessions = [].
Proof.
  intros Hl E Hc Hok. pose proof (resolved_index p p' idx Hl E) as Hidx.
  destruct (detect_cycles_spec p' idx) as (es & D & _ & A). rewrite Hc in D. injection D as <-.
  destruct (frame_session char_is_signed p' idx Hok (A eq_refl)) as [F HF]. exists F. intros fuel Hle.
  apply frames_spec; [done|]. by apply HF.
Qed.

(** C17: On every protocol that passes the resolver and the check for recursive
    types, and whose sizes stay within their types, the analysis returns,
    although its search through inline fields has no guard of its own.  If two
    messages have the same type id there is no session at all; otherwise there
    is one for every frame, with one leaf type per message, in order and with
    ids that are all different, and the automatic fields of a leaf type are those
    of the frame and then those of the message with inline references expanded. *)
Theorem sessions_exact (char_is_signed : bool) (p p' : Protocol) (idx : TypeIndex) :
  literals_defined p -> resolve_types p = Some (Resolved idx, p') -> detect_struct_cycles p' idx = Some [] ->
  analyzable p' ->
  exists F, forall fuel, (F <= fuel)%nat ->
    exists sessions, analyze_sessions char_is_signed p' idx fuel = Some sessions
      /\ if decide (NoDup (map (fnv1a_hash char_is_signed) (message_names p')))
         then Forall2 (session_of char_is_signed p') (proto_frames p') sessions else sessions = [].
Proof. intros Hl E Hc Hok. by apply (resolved_sessions char_is_signed p). Qed.

(** ** A sample frame *)

(** A header field by type or by width, automatic or constrained. *)
Definition header_field (name type_ref : string) (bits : option Z) (auto : option AutoKind) (eq : option string) : Field :=
  mkField name type_ref false bits None false None None None None [] []
    (match eq with Some e => Some (mkConstraint (Some e) None None Immediate unknown_loc) | None => None end)
    None None None false None None false None None None None None None EndianBig true FmtDecimal false None false None None
    (match auto with Some k => Some (mkAuto k [] [] no_modifier) | None => None end) [] "" unknown_loc.

Definition inline_field (name type_ref : string) : Field :=
  mkField name type_ref false None None false None None None None [] [] None None None None false None None false
    None None None None None None EndianBig false FmtDecimal false None true None None None [] "" unknown_loc.

Definition sample_frame (header : list StructChild) : FrameDef :=
  mkFrameDef "link" header (mkPayload false None unknown_loc) [] [] "" unknown_loc.

Definition sample_header : list StructChild :=
  [ChField (header_field "sync" "net16" None None (Some "0xEB90")); ChReserved (mkReserved 4 unknown_loc);
   ChField (header_field "len" "" (Some 12) (Some AutoLength) None); ChField (header_field "kind" "u8" None (Some AutoId) None);
   ChField (header_field "seq" "u8" None (Some AutoIncrement) None)].

(** Two messages, one with a struct inlined that carries a counter. *)
Definition framed_protocol (header : list StructChild) : Protocol :=
  mkProtocol "Demo" "1" "2" new_defaults [] [] (proto_types sample_protocol)
    [new_struct "trailer" [ChField (header_field "tick" "u8" None (Some AutoIncrement) None)]]
    [mkMessageDef "ping" [ChField (inline_field "t" "trailer")] "1" DirSend false [] "" unknown_loc;
     mkMessageDef "pong" [] "2" DirReceive false [] "" unknown_loc]
    [sample_frame header] [] "" unknown_loc.

Definition framed : Protocol := framed_protocol sample_header.

(** The sessions of a protocol after the phases before. *)
Definition sessions_of (p : Protocol) (fuel : nat) : option (list SessionInfo) :=
  '(r, p') ← resolve_types p;
  match r with
  | Resolved idx => es ← detect_struct_cycles p' idx;
      match es with [] => analyze_sessions true p' idx fuel | _ => None end
  | Unresolved _ => None
  end.

(** Sync bytes, length field, header size, and the leaf types with their
    counters. *)
Definition summary (si : SessionInfo) :=
  let h := si_header si in
  (sync_pattern h, frame_length_bit_offset h, frame_length_bits h, min_frame_header_size si,
   map (fun l => (leaf_name l, leaf_constraints l, auto_fields l, auto_field_bits l)) (leaf_types si)).

Example framed_session :
  map summary <$> sessions_of framed 3
  = Some [([235; 144], 20, 12, 6,
           [("ping", [("kind", "1")], ["seq"; "tick"], [8; 8]); ("pong", [("kind", "2")], ["seq"], [8])])].
Proof. vm_compute. reflexivity. Qed.

Lemma framed_literals_defined : literals_defined framed.
Proof. by apply literals_checked_defined. Qed.

Lemma analyzable_checked p :
  Forall (fun f => match f_bytes_attr f with Some n => n <= 268435455 | None => True end) (protocol_fields p) ->
  Forall (fun t => td_bits t <= 64) (proto_types p) -> analyzable p.
Proof.
  rewrite !Forall_forall. intros Hf Ht. split; [|done]. intros f Hin n E. specialize (Hf f Hin). by rewrite E in Hf.
Qed.

Lemma sessions_exact_witness :
  exists idx p' F sessions, resolve_types framed = Some (Resolved idx, p')
    /\ analyze_sessions true p' idx F = Some sessions /\ Forall2 (session_of true p') (proto_frames p') sessions.
Proof.
  destruct (resolve_types framed) as [[[idx|] p']|] eqn:E; [|vm_compute in E; discriminate..].
  destruct (sessions_exact true framed p' idx) as [F HF].
  - exact framed_literals_defined.
  - exact E.
  - vm_compute in E. injection E as <- <-. vm_compute. reflexivity.
  - apply analyzable_checked; vm_compute in E; injection E as <- <-;
      repeat first [apply Forall_nil; exact I | apply Forall_cons; split | exact I | (vm_compute; discriminate)].
  - destruct (HF F (le_n F)) as (sessions & Es & Hs). exists idx, p', F, sessions. split_and!; [done|done|].
    rewrite decide_True in Hs; [done|]. clear -E. vm_compute in E. injection E as <- <-.
    apply (bool_decide_unpack _). vm_compute. exact I.
Defined.

(** ** Where the length field lies *)

Section header_layout.
Context (p : Protocol) (idx : TypeIndex) `{!Indexes p idx}.

(** A header of fields with a width of their own or of a numeric type, and
    reserved bits. *)
Definition numeric_child (c : StructChild) : Prop :=
  match c with
  | ChField f => f_bit f = None /\ f_present_when f = None /\ f_is_inline f = false
      /\ match f_bits f, f_bytes_attr f with
         | Some n, _ => 0 <= n
         | None, Some n => 0 <= n <= 268435455
         | None, None => exists td, td ∈ proto_types p /\ td_name td = f_type_ref f /\ f_type_ref f <> ""
             /\ f_type_ref f <> "bytes" /\ f_type_ref f <> "string"
             /\ (td_base td = BaseUint \/ td_base td = BaseInt \/ td_base td = BaseFloat) /\ 0 < td_bits td <= INT_MAX
         end
  | ChReserved _ => True
  | _ => False
  end.

Lemma type_at_name ref td : td ∈ proto_types p -> td_name td = ref ->
  type_at p idx ref = Some (Some td) /\ exists i, find idx ref = Some (RType i) /\ proto_types p !! i = Some td.
Proof.
  intros [i Hi]%list_elem_of_lookup_1 <-. assert (find idx (td_name td) = Some (RType i)) as E.
  { apply (index_find p idx). cbn. by rewrite Hi. }
  split; [|eauto]. unfold type_at. unfold find in E. destruct (idx_types idx !! td_name td) as [j|] eqn:Ej.
  - injection E as <-. by rewrite Hi.
  - destruct (idx_structs idx !! td_name td); [done|]. by destruct (idx_messages idx !! td_name td).
Qed.

(** The width the analyzer takes for such a field is its size on the wire. *)
Lemma numeric_field_bits f : numeric_child (ChField f) ->
  exists n, resolve_field_bits p idx f = Some n /\ child_layout p idx no_bitmap (ChField f) n.
Proof.
  intros (Hb & Hp & Hi & H). unfold resolve_field_bits. destruct (f_bits f) as [n|] eqn:En.
  - exists n. split; [done|]. replace n with (Z.max 0 n) by lia. apply layout_bits; auto.
  - destruct (f_bytes_attr f) as [n|] eqn:Ey.
    + exists (8 * Z.max 0 n). rewrite octets_ok by lia. split; [f_equal; lia|]. apply layout_bytes; auto.
    + destruct H as (td & Htd & Hn & He & H1 & H2 & Hbase & Hbits).
      rewrite (proj2 (String.eqb_neq _ _) He). destruct (type_at_name _ td Htd Hn) as (-> & i & Hf & Ht). cbn.
      exists (td_bits td). split; [done|]. apply layout_typed; auto. apply (ref_type p idx _ _ i td); [done|done|].
      unfold type_bits. rewrite (proj2 (Z.ltb_lt 0 _) (proj1 Hbits)), sz_small by (unfold SIZE_MAX, INT_MAX in *; lia).
      by destruct Hbase as [->|[->| ->]].
Qed.

Hypothesis bits_ok : forall t, t ∈ proto_types p -> td_bits t <= 64.

Lemma scan_numeric l n h : Forall numeric_child l ->
  exists h' k, scan_header p idx l (sz n) h = Some (sz (n + k), h') /\ layout p idx no_bitmap l k.
Proof.
  intros H. revert n h. induction H as [|c l Hc _ IH]; intros n h; cbn [scan_header].
  { exists h, 0. rewrite Z.add_0_r. split; [done|constructor]. }
  destruct c as [f| | | | |r|]; try done.
  - destruct (numeric_field_bits f Hc) as (b & -> & Hb). cbn [mbind option_bind].
    destruct (header_auto_total p idx f (sz n) b h) as [h1 ->]. cbn [mbind option_bind].
    destruct (header_sync_total p idx bits_ok f h1) as [h2 ->]. cbn [mbind option_bind].
    rewrite sz_add_l, sz_add_r. destruct (IH (n + b) h2) as (h' & k & -> & Hk). exists h', (b + k). rewrite Z.add_assoc.
    split; [done|by constructor].
  - rewrite sz_add_l, sz_add_r. destruct (IH (n + res_bits r) h) as (h' & k & -> & Hk). exists h', (res_bits r + k).
    rewrite Z.add_assoc. split; [done|]. constructor; [constructor|done].
Qed.

Lemma scan_app l1 l2 n h :
  scan_header p idx (l1 ++ l2) n h = ('(n1, h1) ← scan_header p idx l1 n h; scan_header p idx l2 n1 h1).
Proof.
  revert n h. induction l1 as [|c l1 IH]; intros n h; [done|].
  destruct c as [f|s| | | | |]; cbn [scan_header app]; try apply IH.
  - destruct (resolve_field_bits p idx f); [|done]. cbn [mbind option_bind].
    destruct (header_auto p idx f n z h) as [h1|]; [|done]. cbn [mbind option_bind].
    destruct (header_sync p idx f h1); [|done]. apply IH.
  - destruct_if; [apply IH|]. destruct (compute_fixed_size_bits p idx (sd_children s) 0); [|done]. apply IH.
Qed.

(** *** Only a length field sets the place of the length *)

Definition is_length (f : Field) : bool :=
  match f_auto_expr f with Some a => match auto_kind a with AutoLength => true | _ => false end | None => false end.

Definition length_info (h : HeaderInfo) : string * Z * Z * Endian :=
  (length_field_name h, frame_length_bit_offset h, frame_length_bits h, frame_length_endian h).

Lemma header_auto_keeps f n b h h' : is_length f = false -> header_auto p idx f n b h = Some h' -> length_info h' = length_info h.
Proof.
  unfold is_length, header_auto. destruct (f_auto_expr f) as [a|]; [|congruence].
  destruct (auto_kind a); try done; intros _; try (intros [= <-]; done).
  destruct (config_field p idx f a b); [|done]. cbn. by intros [= <-].
Qed.

Lemma header_sync_keeps f h h' : header_sync p idx f h = Some h' -> length_info h' = length_info h.
Proof.
  assert (forall v r e, parse_sync_bytes p idx v r e h = Some h' -> length_info h' = length_info h) as H.
  { intros v r e. unfold parse_sync_bytes. destruct (parse_sync_value (txt v)); [|congruence].
    destruct (type_at p idx r) as [t|]; [|done]. cbn. destruct (sync_bytes e (sync_width t) z); [|done]. cbn. by intros [= <-]. }
  unfold header_sync. destruct (f_constraint f) as [c|]; [|congruence]. destruct (equals c) as [eq|]; [|congruence].
  destruct (idx_constants idx !! eq); [|apply H]. destruct (proto_constants p !! n); [|done]. apply H.
Qed.

Lemma scan_keeps l n h n' h' : Forall (fun f => is_length f = false) (top_fields l) ->
  scan_header p idx l n h = Some (n', h') -> length_info h' = length_info h.
Proof.
  revert n h. induction l as [|c l IH]; intros n h; [intros _; cbn; congruence|].
  destruct c as [f|s| | | | |]; cbn [scan_header]; try apply IH.
  - change (top_fields (ChField f :: l)) with (f :: top_fields l). intros [Hf Hl]%Forall_cons.
    destruct (resolve_field_bits p idx f) as [b|]; [|done]. cbn [mbind option_bind].
    destruct (header_auto p idx f n b h) as [h1|] eqn:E1; [|done]. cbn [mbind option_bind].
    destruct (header_sync p idx f h1) as [h2|] eqn:E2; [|done]. intros H. rewrite (IH _ _ Hl H).
    rewrite (header_sync_keeps _ _ _ E2). by eapply header_auto_keeps.
  - destruct_if; [apply IH|]. destruct (compute_fixed_size_bits p idx (sd_children s) 0); [|done]. apply IH.
Qed.

Lemma length_field_place pre f post :
  Forall numeric_child (pre ++ ChField f :: post) -> is_length f = true ->
  Forall (fun g => is_length g = false) (top_fields post) ->
  exists h n k b, scan_header p idx (pre ++ ChField f :: post) 0 new_header = Some (sz n, h)
    /\ layout p idx no_bitmap (pre ++ ChField f :: post) n /\ layout p idx no_bitmap pre k /\ child_layout p idx no_bitmap (ChField f) b
    /\ length_info h = (f_name f, sz k, b, f_endian f).
Proof.
  intros Hn Hf Hpost. destruct (scan_numeric _ 0 new_header Hn) as (h & n & E & Hl). change (sz 0) with 0 in E. rewrite Z.add_0_l in E.
  pose proof Hn as [Hpre [Hc Hp]%Forall_cons]%Forall_app. destruct (scan_numeric pre 0 new_header Hpre) as (h1 & k & E1 & Hk).
  change (sz 0) with 0 in E1. rewrite Z.add_0_l in E1. destruct (numeric_field_bits f Hc) as (b & Eb & Hb).
  exists h, n, k, b. split_and!; [done..|]. rewrite scan_app, E1 in E. cbn [mbind option_bind scan_header] in E.
  rewrite Eb in E. cbn [mbind option_bind] in E. destruct (header_auto p idx f (sz k) b h1) as [h2|] eqn:E2; [|done].
  cbn [mbind option_bind] in E. destruct (header_sync p idx f h2) as [h3|] eqn:E3; [|done]. cbn [mbind option_bind] in E.
  rewrite (scan_keeps _ _ _ _ _ Hpost E), (header_sync_keeps _ _ _ E3). unfold header_auto in E2. unfold is_length in Hf.
  destruct (f_auto_expr f) as [a|]; [|done]. destruct (auto_kind a); try done.
  destruct (resolve_signed p idx f); [|done]. cbn in E2. by injection E2 as <-.
Qed.
End header_layout.

(** The length field is read where it lies.  In a header of fields with a
    width, a byte count or a numeric type and of reserved bits, the scan ends
    and records for the last automatic length field its name, its byte order,
    its width on the wire and, as bit offset, the size on the wire of everything
    before it; the header size is the size on the wire of the whole header. *)
Theorem length_field_located (p p' : Protocol) (idx : TypeIndex) (pre post : list StructChild) (f : Field) :
  literals_defined p -> resolve_types p = Some (Resolved idx, p') ->
  (forall t, t ∈ proto_types p' -> td_bits t <= 64) ->
  Forall (numeric_child p') (pre ++ ChField f :: post) -> is_length f = true ->
  Forall (fun g => is_length g = false) (top_fields post) ->
  exists h n k b, scan_header p' idx (pre ++ ChField f :: post) 0 new_header = Some (sz n, h)
    /\ layout p' idx no_bitmap (pre ++ ChField f :: post) n /\ layout p' idx no_bitmap pre k /\ child_layout p' idx no_bitmap (ChField f) b
    /\ length_info h = (f_name f, sz k, b, f_endian f).
Proof.
  intros Hl E Hb Hn Hf Hp. pose proof (resolved_index p p' idx Hl E) as Hidx. by apply length_field_place.
Qed.

Lemma length_field_located_witness :
  exists idx p' h n, resolve_types framed = Some (Resolved idx, p')
    /\ scan_header p' idx sample_header 0 new_header = Some (sz n, h) /\ layout p' idx no_bitmap sample_header n.
Proof.
  destruct (resolve_types framed) as [[[idx|] p']|] eqn:E; [|vm_compute in E; discriminate..].
  destruct (length_field_located framed p' idx (take 2 sample_header) (drop 3 sample_header)
    (header_field "len" "" (Some 12) (Some AutoLength) None)) as (h & n & k & b & Es & Hl & _).
  - exact framed_literals_defined.
  - exact E.
  - apply Forall_forall. vm_compute in E. injection E as <- <-.
    repeat first [apply Forall_nil; exact I | apply Forall_cons; split | (vm_compute; discriminate)].
  - vm_compute in E. injection E as <- <-. cbn [sample_header take drop app].
    repeat first [apply Forall_nil; exact I | apply Forall_cons; split]; cbn; split_and?; try done;
      eexists; first
        [solve [split; [apply elem_of_cons; left; reflexivity|]; cbn; split_and!; try done; auto; unfold INT_MAX; lia]
        |solve [split; [apply elem_of_cons; right; apply elem_of_cons; left; reflexivity|];
                cbn; split_and!; try done; auto; unfold INT_MAX; lia]].
  - reflexivity.
  - repeat first [apply Forall_nil; exact I | apply Forall_cons; split | reflexivity].
  - exists idx, p', h, n. split_and!; [done|exact Es|exact Hl].
Defined.

(** Sync bytes and place of the length of the first session with another header. *)
Definition with_header (header : list StructChild) : option (list (list Z * Z * Z)) :=
  map (fun si => (sync_pattern (si_header si), frame_length_bit_offset (si_header si), min_frame_header_size si))
    <$> sessions_of (framed_protocol header) 3.

(** The number of sync bytes is taken from the type of the field alone: a field
    with a width of its own contributes one byte, here the second one of
    [0xEB90]. *)
Example inline_sync_one_byte :
  with_header [ChField (header_field "sync" "" (Some 16) None (Some "0xEB90"));
               ChField (header_field "len" "net16" None (Some AutoLength) None)] = Some [([144], 16, 4)].
Proof. vm_compute. reflexivity. Qed.

(** Constrained fields count as sync bytes wherever they stand: here frames
    start with the length, but the pattern is the version that follows it. *)
Example late_field_in_sync :
  with_header [ChField (header_field "len" "net16" None (Some AutoLength) None);
               ChField (header_field "version" "u8" None None (Some "7"))] = Some [([7], 0, 3)].
Proof. vm_compute. reflexivity. Qed.

(** A field of raw bytes counts nothing: the length is taken to lie at the start
    of the header instead of 4 bytes later. *)
Definition raw_bytes_field (name : string) (n : Z) : Field :=
  mkField name "bytes" false None None false None None None None [] [] None None None (Some n) false None None false
    None None None None None None EndianBig false FmtDecimal false None false None None None [] "" unknown_loc.

Example raw_bytes_not_counted :
  with_header [ChField (raw_bytes_field "magic" 4); ChField (header_field "len" "net16" None (Some AutoLength) None)]
  = Some [([], 0, 2)].
Proof. vm_compute. reflexivity. Qed.
