(* ===== verification/Names.v ===== *)
(** * Names in generated code

    Models [conduit/bgen/src/codegen/name_utils.hpp]: how names of a message
    description become C++ identifiers, the storage types of fields, and the
    test for range checks that a storage type makes superfluous.
    [strtoull] and [strtoll] of the C library (base 0) are here too, as [stoull]
    and [stoll] use them; [None] is an exception. *)

From stdpp Require Import base numbers list strings pretty.
From Stdlib Require Import ZArith Lia Ascii.
From S2P Require Import Prelude CharConv.

Open Scope Z_scope.

(** ** Identifiers *)

Definition snake_char (c : ascii) : ascii := if Ascii.eqb c "-" then "_"%char else c.
Definition to_snake_case (name : string) : string := str (map snake_char (txt name)).

(** [std::toupper] and [std::tolower] in the C locale. *)
Definition toupper (c : ascii) : ascii := if islower c then ascii_of_N (Z.to_N (code c - 32)) else c.
Definition tolower (c : ascii) : ascii := if isupper c then ascii_of_N (Z.to_N (code c + 32)) else c.

Definition is_separator (c : ascii) : bool := Ascii.eqb c "-" || Ascii.eqb c "_".

Fixpoint pascal_loop (cap_next : bool) (l : text) : text :=
  match l with
  | [] => []
  | c :: l =>
      if is_separator c then pascal_loop true l
      else (if cap_next then toupper c else c) :: pascal_loop false l
  end.
Definition to_pascal_case (name : string) : string := str (pascal_loop true (txt name)).

Definition to_member_name (name : string) : string := to_snake_case name +:+ "_".
Definition to_accessor_name (name : string) : string := to_snake_case name.

Fixpoint lower_snake_loop (previous : option ascii) (l : text) : text :=
  match l with
  | [] => []
  | c :: l =>
      (if is_separator c then ["_"%char]
       else if isupper c then
         (match previous with
          | Some b => if negb (is_separator b) && negb (isupper b) then ["_"%char] else []
          | None => []
          end) ++ [tolower c]
       else [c]) ++ lower_snake_loop (Some c) l
  end.
Definition to_lower_snake_case (name : string) : string := str (lower_snake_loop None (txt name)).

Definition to_cpp_type_name (name : string) : string := to_snake_case name.
Definition to_enum_value_name (name : string) : string := to_snake_case name.

Definition keywords : list string :=
  ["alignas"; "alignof"; "and"; "and_eq"; "asm"; "auto"; "bitand";
   "bitor"; "bool"; "break"; "case"; "catch"; "char"; "char8_t";
   "char16_t"; "char32_t"; "class"; "compl"; "concept"; "const";
   "consteval"; "constexpr"; "constinit"; "const_cast"; "continue";
   "co_await"; "co_return"; "co_yield"; "decltype"; "default";
   "delete"; "do"; "double"; "dynamic_cast"; "else"; "enum";
   "explicit"; "export"; "extern"; "false"; "float"; "for";
   "friend"; "goto"; "if"; "inline"; "int"; "long"; "mutable";
   "namespace"; "new"; "noexcept"; "not"; "not_eq"; "nullptr";
   "operator"; "or"; "or_eq"; "private"; "protected"; "public";
   "register"; "reinterpret_cast"; "requires"; "return"; "short";
   "signed"; "sizeof"; "static"; "static_assert"; "static_cast";
   "struct"; "switch"; "template"; "this"; "thread_local"; "throw";
   "true"; "try"; "typedef"; "typeid"; "typename"; "union";
   "unsigned"; "using"; "virtual"; "void"; "volatile"; "wchar_t";
   "while"; "xor"; "xor_eq"].

Definition is_cpp_keyword (name : string) : bool := bool_decide (name ∈ keywords).

Definition is_valid_cpp_identifier (name : string) : bool :=
  let l := txt name in
  match l with
  | [] => false
  | c :: r =>
      negb (isdigit c)
      && negb (Ascii.eqb c "_" && match r with d :: _ => Ascii.eqb d "_" | [] => false end)
      && forallb (fun c => isalnum c || Ascii.eqb c "_") l
  end.

(** ** Storage types *)

Definition primitive_cpp_type (base : string) (bits : Z) (is_signed : bool) : string :=
  if String.eqb base "float" then if bits <=? 32 then "float" else "double"
  else if String.eqb base "bool" then "bool"
  else if String.eqb base "string" || String.eqb base "bytes" then ""
  else
    let prefix := if is_signed then "int" else "uint" in
    if bits <=? 8 then prefix +:+ "8_t" else if bits <=? 16 then prefix +:+ "16_t"
    else if bits <=? 32 then prefix +:+ "32_t" else prefix +:+ "64_t".

Definition storage_type_for_bits (bits : Z) (is_signed : bool) : string :=
  let prefix := if is_signed then "int" else "uint" in
  if bits <=? 8 then prefix +:+ "8_t" else if bits <=? 16 then prefix +:+ "16_t"
  else if bits <=? 32 then prefix +:+ "32_t" else prefix +:+ "64_t".

Definition storage_width (bits : Z) : Z :=
  if bits <=? 8 then 8 else if bits <=? 16 then 16 else if bits <=? 32 then 32 else 64.

Definition storage_type_max (bits : Z) (is_signed : bool) : Z :=
  let width := storage_width bits in
  if is_signed then wrap 64 (wrap 64 (Z.shiftl 1 (width - 1)) - 1)
  else if 64 <=? width then wrap 64 (Z.lnot 0)
  else wrap 64 (wrap 64 (Z.shiftl 1 width) - 1).

(** ** The C library's integer parsers, base 0 *)

Definition plus_sign (l : text) : text :=
  match l with c :: r => if Ascii.eqb c "+" then r else l | [] => l end.

(** The sign, the base and the digits. *)
Definition strto_subject (l : text) : bool * Z * text :=
  let l := drop (prefix_len isspace l) l in
  let '(negative, body) := minus_sign l in
  let body := if negative : bool then body else plus_sign body in
  match body with
  | c0 :: c1 :: c2 :: r =>
      if Ascii.eqb c0 "0" && (Ascii.eqb c1 "x" || Ascii.eqb c1 "X") && isxdigit c2 then (negative, 16, c2 :: r)
      else if Ascii.eqb c0 "0" then (negative, 8, body) else (negative, 10, body)
  | c0 :: _ => if Ascii.eqb c0 "0" then (negative, 8, body) else (negative, 10, body)
  | [] => (negative, 10, [])
  end.

(** The sign and the magnitude of what is converted; nothing to convert is an
    exception. *)
Definition strto (l : text) : option (bool * Z) :=
  let '(negative, base, body) := strto_subject l in
  let n := prefix_len (is_digit_of base) body in
  if (n =? 0)%nat then None else Some (negative, value_of base (take n body)).

Definition stoull (l : text) : option Z :=
  '(negative, v) ← strto l;
  if 2 ^ 64 <=? v then None else Some (if negative : bool then wrap 64 (- v) else v).

Definition stoll (l : text) : option Z :=
  '(negative, v) ← strto l;
  let v := if negative : bool then - v else v in
  if (v <? INT64_MIN) || (INT64_MAX <? v) then None else Some v.

(** ** Superfluous range checks *)

Definition constraint_max_saturates_storage (max_str : string) (bits : Z) (is_signed : bool) : bool :=
  match txt max_str with
  | [] => false
  | first :: _ =>
      if isalpha first || Ascii.eqb first "_" then false
      else if Ascii.eqb first "-" then false
      else match stoull (txt max_str) with
           | Some value => value =? storage_type_max bits is_signed
           | None => false
           end
  end.

(** ** Numerals *)

Definition to_hex (val : Z) : string := str (numeral 16 val).

Definition type_id_literal (val : Z) : string :=
  let digits := numeral 16 val in
  "0x" +:+ str (replicate (16 - length digits) "0"%char ++ digits) +:+ "ULL".
