(* ===== verification/TypeChecks.v ===== *)
(** * The validator: constants and types

    Models [validate_protocol], [validate_constants], [validate_type],
    [validate_constraint] and the presence-bit checks of [validate_struct_def]
    of [conduit/bgen/src/analyzer/validator.cpp], with the helpers for names and
    literals.  A check gives the errors it appends to [errors_]; [None] is
    undefined behaviour.  Warnings go to the log and are not modelled. *)

From stdpp Require Import base numbers list gmap strings pretty.
From Stdlib Require Import ZArith Lia Ascii.
From S2P Require Import Prelude CharConv AutoExpr ExprParser Ast AstBuilder TypeResolver ProtocolIndex Validation Names.

Open Scope Z_scope.

Declare Scope check_scope.
Delimit Scope check_scope with check.

(** ** Collecting errors *)

Abbreviation errors := (list ValidationError).

Definition report (loc : SourceLoc) (msg : string) : errors := [mkValidationError msg loc].
Definition when (b : bool) (es : errors) : errors := if b then es else [].

Definition both (a b : option errors) : option errors := x ← a; y ← b; Some (x ++ y).
Infix "+++" := both (at level 60, right associativity) : check_scope.
Open Scope check_scope.

(** A double quote. *)
Definition dq : string := String "034" EmptyString.
Definition quoted (s : string) : string := dq +:+ s +:+ dq.

Definition is_empty (s : string) : bool := String.eqb s "".

(** ** Literals *)

Definition is_valid_numeric_literal (s : string) : bool :=
  match txt s with
  | [] => false
  | _ =>
      let '(_, body) := minus_sign (txt s) in
      match body with
      | [] => false
      | c0 :: c1 :: _ :: _ =>
          if Ascii.eqb c0 "0" && (Ascii.eqb c1 "x" || Ascii.eqb c1 "X") then forallb isxdigit (drop 2 body)
          else forallb isdigit body
      | _ => forallb isdigit body
      end
  end.

(** Whether a value lies outside the range of an integer of 1 to 64 bits; the
    bounds are computed in [int64_t]. *)
Definition out_of_range (is_signed : bool) (bits v : Z) : bool :=
  if bits =? 64 then negb is_signed && (v <? 0)
  else
    let min_val := if is_signed then - Z.shiftl 1 (bits - 1) else 0 in
    let max_val := if is_signed then Z.shiftl 1 (bits - 1) - 1 else signed 64 (wrap 64 (Z.shiftl 1 bits - 1)) in
    (v <? min_val) || (max_val <? v).

(** ** Names *)

Definition check_keyword_collision (loc : SourceLoc) (bmdl_name kind : string) : errors :=
  let snake := to_snake_case bmdl_name in
  when (is_cpp_keyword snake)
    (report loc (kind +:+ " '" +:+ bmdl_name +:+ "' produces C++ keyword '" +:+ snake +:+
                 "' — rename to avoid compilation errors")).

(** ** Protocol and constants *)

Definition validate_protocol (p : Protocol) : errors :=
  when (is_empty (proto_name p)) (report (proto_loc p) "protocol name is empty")
  ++ when (is_empty (proto_version p)) (report (proto_loc p) "protocol version is empty").

Section checks.
Variable p : Protocol.
Variable idx : TypeIndex.

(** The value of a constant of an integer type. *)
Definition constant_value_errors (c : ConstDef) (t : TypeDef) : option errors :=
  let numeric := match td_base t with BaseUint | BaseInt => true | _ => false end in
  if negb numeric then Some []
  else if negb (is_valid_numeric_literal (const_value c)) then
    Some (report (const_loc c) ("constant '" +:+ const_name c +:+ "': value must be a valid numeric literal"))
  else if (0 <? td_bits t) && (td_bits t <=? 64) then
    v ← parse_literal (txt (const_value c));
    Some (match v with
          | Some v =>
              when (out_of_range (bool_decide (td_base t = BaseInt)) (td_bits t) v)
                (report (const_loc c) ("constant '" +:+ const_name c +:+ "': value " +:+ const_value c +:+ " exceeds "
                   +:+ pretty (td_bits t) +:+ "-bit range"))
          | None => []
          end)
  else Some [].

Definition constant_errors (names : gset string) (c : ConstDef) : option errors :=
  let n := const_name c in
  Some (when (is_empty n) (report (const_loc c) "constant has empty name")
        ++ check_keyword_collision (const_loc c) n "constant"
        ++ when (bool_decide (n ∈ names)) (report (const_loc c) ("duplicate constant name: " +:+ n))
        ++ when (is_empty (const_type_ref c)) (report (const_loc c) ("constant '" +:+ n +:+ "' missing 'type' attribute"))
        ++ when (is_empty (const_value c)) (report (const_loc c) ("constant '" +:+ n +:+ "' missing 'value' attribute")))
  +++ (if is_empty (const_type_ref c) || is_empty (const_value c) then Some []
       else t ← type_at p idx (const_type_ref c);
            match t with Some t => constant_value_errors c t | None => Some [] end).

Fixpoint constants_loop (names : gset string) (l : list ConstDef) : option errors :=
  match l with
  | [] => Some []
  | c :: l => constant_errors names c +++ constants_loop ({[const_name c]} ∪ names) l
  end.

Definition validate_constants : option errors := constants_loop ∅ (proto_constants p).

(** ** Enumerations and flags

    Types and fields have the same loops.  [place] says where the values are;
    [bits] bounds the ids of a field and is 0 for a type. *)

Fixpoint enum_loop (kind place : string) (bits : Z) (ids : gset Z) (names : gset string) (l : list EnumValue) : errors :=
  match l with
  | [] => []
  | ev :: l =>
      let n := enum_name ev in let id := enum_id ev in let loc := enum_loc ev in
      when (is_empty n) (report loc ("enum value has empty name in " +:+ place))
      ++ check_keyword_collision loc n kind
      ++ when (negb (is_valid_cpp_identifier (to_enum_value_name n)))
           (report loc ("enum value name '" +:+ n +:+ "' is not a valid C++ identifier after conversion"))
      ++ when (bool_decide (id ∈ ids)) (report loc ("duplicate enum id " +:+ pretty id +:+ " in " +:+ place))
      ++ when (bool_decide (n ∈ names)) (report loc ("duplicate enum name '" +:+ n +:+ "' in " +:+ place))
      ++ when (id <? 0) (report loc ("enum id must be non-negative in " +:+ place))
      ++ when ((0 <? bits) && (bits <? 64) && (signed 64 (wrap 64 (Z.shiftl 1 bits)) <=? id))
           (report loc ("enum id " +:+ pretty id +:+ " exceeds " +:+ pretty bits +:+ "-bit range in " +:+ place))
      ++ enum_loop kind place bits ({[id]} ∪ ids) ({[n]} ∪ names) l
  end.

(** A type whose width is not known has no range for its flags. *)
Fixpoint flags_loop (place : string) (bits : Z) (used : gset Z) (names : gset string) (l : list FlagDef) : errors :=
  match l with
  | [] => []
  | f :: l =>
      let n := flag_name f in let b := flag_bit f in let loc := flag_loc f in
      when (is_empty n) (report loc ("flag has empty name in " +:+ place))
      ++ when ((0 <? bits) && ((b <? 0) || (bits <=? b)))
           (report loc ("flag bit " +:+ pretty b +:+ " out of range [0, " +:+ pretty (bits - 1) +:+ "] in " +:+ place))
      ++ when (bool_decide (b ∈ used)) (report loc ("duplicate flag bit " +:+ pretty b +:+ " in " +:+ place))
      ++ when (bool_decide (n ∈ names)) (report loc ("duplicate flag name '" +:+ n +:+ "' in " +:+ place))
      ++ flags_loop place bits ({[b]} ∪ used) ({[n]} ∪ names) l
  end.

(** How many of enum, flags and scale or offset there are. *)
Definition trait_count (enums : list EnumValue) (flags : list FlagDef) (scaled : bool) : Z :=
  (match enums with [] => 0 | _ => 1 end) + (match flags with [] => 0 | _ => 1 end) + (if scaled then 1 else 0).

(** ** Constraints *)

Definition validate_constraint (c : Constraint) (context : string) : option errors :=
  Some (when (is_some (equals c) && (is_some (min_ c) || is_some (max_ c)))
          (report (constraint_loc c) (context +:+ ": constraint 'equals' and 'min/max' are mutually exclusive")))
  +++ match min_ c, max_ c with
      | Some lo, Some hi =>
          min_val ← parse_literal (txt lo);
          max_val ← parse_literal (txt hi);
          Some (match min_val, max_val with
                | Some a, Some b =>
                    when (b <? a) (report (constraint_loc c)
                      (context +:+ ": constraint min (" +:+ lo +:+ ") > max (" +:+ hi +:+ ")"))
                | _, _ => []
                end)
      | _, _ => Some []
      end.

(** ** Wire encodings

    [needs] says how the messages name the base an encoding requires: they differ
    between types and fields. *)
Definition encoding_errors (loc : SourceLoc) (who : string) (needs : PrimitiveBase -> string)
    (enc : WireEncoding) (base : PrimitiveBase) (bits : Z) : errors :=
  let requires name b :=
    when (negb (bool_decide (base = b))) (report loc (who +:+ ": wire-encoding '" +:+ name +:+ "' requires " +:+ needs b)) in
  let complain name what := report loc (who +:+ ": wire-encoding '" +:+ name +:+ "' requires " +:+ what) in
  match enc with
  | BCD =>
      requires "bcd" BaseUint
      ++ when ((0 <? bits) && negb (Z.rem bits 4 =? 0)) (complain "bcd" "bits divisible by 4")
  | BCD_S =>
      requires "bcd-s" BaseInt
      ++ when ((0 <? bits) && (bits <? 5)) (complain "bcd-s" "bits >= 5")
      ++ when ((0 <? bits) && negb (Z.rem (bits - 1) 4 =? 0)) (complain "bcd-s" "(bits - 1) divisible by 4")
  | BNR_S =>
      requires "bnr-s" BaseInt
      ++ when ((0 <? bits) && (bits <? 2)) (complain "bnr-s" "bits >= 2")
  | CB2 => requires "cb2" BaseInt
  | BNR => requires "bnr" BaseUint
  | WireDefault => []
  end.

Definition type_needs (b : PrimitiveBase) : string :=
  match b with BaseInt => "base='int'" | _ => "base='uint'" end.

(** ** Types *)

Definition is_numeric (b : PrimitiveBase) : bool := match b with BaseInt | BaseUint | BaseFloat => true | _ => false end.

Definition type_encoding_errors (t : TypeDef) : errors :=
  let who := "type '" +:+ td_name t +:+ "'" in
  let inapplicable name := report (td_loc t) (who +:+ ": wire-encoding is not applicable to " +:+ name +:+ " types") in
  match td_base t with
  | BaseFloat => inapplicable "float"
  | BaseBool => inapplicable "bool"
  | BaseString => inapplicable "string"
  | _ => []
  end
  ++ encoding_errors (td_loc t) who type_needs (td_wire_encoding t) (td_base t) (td_bits t).

Definition validate_type (t : TypeDef) : option errors :=
  let who := "type '" +:+ td_name t +:+ "'" in
  let complain what := report (td_loc t) (who +:+ ": " +:+ what) in
  let scaled := is_some (td_scale t) || is_some (td_offset t) in
  Some (when (is_empty (td_name t)) (report (td_loc t) "type has empty name")
        ++ check_keyword_collision (td_loc t) (td_name t) "type"
        ++ when (is_numeric (td_base t) && (td_bits t =? 0))
             (complain "numeric types (int, uint, float) must have bits > 0")
        ++ enum_loop "enum value" who 0 ∅ ∅ (td_enum_values t)
        ++ flags_loop who (td_bits t) ∅ ∅ (td_flags t)
        ++ when (1 <? trait_count (td_enum_values t) (td_flags t) scaled)
             (complain "enum, flags, and scale/offset are mutually exclusive")
        ++ when (scaled && negb (is_numeric (td_base t))) (complain "scale/offset only valid on numeric types")
        ++ match td_char_bits t with
           | Some n =>
               when ((n <? 1) || (8 <? n)) (complain "char-bits must be 1-8")
               ++ when (negb (is_some (td_length t))) (complain "char-bits requires fixed length")
           | None => []
           end)
  +++ match td_constraint t with Some c => validate_constraint c (td_name t) | None => Some [] end
  +++ Some (when (td_wire_encoding_explicit t) (type_encoding_errors t)).

Fixpoint types_loop (l : list TypeDef) : option errors :=
  match l with [] => Some [] | t :: l => validate_type t +++ types_loop l end.

Definition validate_types : option errors := types_loop (proto_types p).
End checks.

(** ** Presence bits of a bitmap struct *)

(** The kind, the name, the place and the bit of a child that may have one. *)
Definition presence_bit (c : StructChild) : option (string * string * SourceLoc * Z) :=
  match c with
  | ChField f => b ← f_bit f; Some ("field", f_name f, f_loc f, b)
  | ChStruct s => b ← sd_bit s; Some ("struct", sd_name s, sd_loc s, b)
  | ChChoice c => b ← ch_bit c; Some ("choice", ch_name c, ch_loc c, b)
  | ChArray a => b ← ad_bit a; Some ("array", ad_name a, ad_loc a, b)
  | ChFx _ | ChReserved _ | ChAlign _ => None
  end.

Definition is_choice (c : StructChild) : bool := match c with ChChoice _ => true | _ => false end.

(** The extension bit of each octet is checked for everything but a choice. *)
Fixpoint bitmap_loop (s : StructDef) (used : gset Z) (l : list StructChild) : errors :=
  match l with
  | [] => []
  | c :: l =>
      match presence_bit c with
      | None => bitmap_loop s used l
      | Some (kind, n, loc, b) =>
          when ((b <? 0) || (bitmap_bits s <=? b))
            (report loc (kind +:+ " '" +:+ n +:+ "' bit " +:+ pretty b +:+ " out of range [0, "
               +:+ pretty (bitmap_bits s - 1) +:+ "] in " +:+ sd_name s))
          ++ when (bool_decide (b ∈ used)) (report loc ("duplicate bitmap bit " +:+ pretty b +:+ " in " +:+ sd_name s))
          ++ match bitmap_ext s with
             | Some e =>
                 when (negb (is_choice c) && (Z.rem b 8 =? e))
                   (report loc (kind +:+ " '" +:+ n +:+ "' uses extension bit position " +:+ pretty e +:+ " in " +:+ sd_name s))
             | None => []
             end
          ++ bitmap_loop s ({[b]} ∪ used) l
      end
  end.

Definition bitmap_errors (s : StructDef) : errors :=
  if is_bitmap s then
    match bitmap_ext s with
    | Some e =>
        when ((e <? 0) || (8 <=? e))
          (report (sd_loc s) ("bitmap ext bit must be 0-7 (per-octet), got " +:+ pretty e +:+ " in " +:+ sd_name s))
    | None => []
    end
    ++ bitmap_loop s ∅ (sd_children s)
  else [].
