(* ===== verification/FieldChecks.v ===== *)
(** * The validator: expressions and fields

    Models the checks on expressions, [resolve_base] and [validate_field] of
    [conduit/bgen/src/analyzer/validator.cpp].  [stod] says which texts
    [std::stod] converts without an exception. *)

From stdpp Require Import base numbers list gmap strings pretty.
From Stdlib Require Import ZArith Lia Ascii.
From S2P Require Import Prelude CharConv AutoExpr ExprParser Ast AstBuilder TypeResolver ProtocolIndex Validation Names TypeChecks.

Open Scope Z_scope.
Open Scope check_scope.

(** ** Expressions *)

(** The part of a dotted path before the first dot. *)
Definition root_name (n : text) : string := str (take (prefix_len (fun c => negb (Ascii.eqb c ".")) n) n).

Fixpoint collect_field_refs (e : Expr) : list (string * SourceLoc) :=
  (if bool_decide (op e = FieldRef) then [(root_name (name e), loc e)] else [])
  ++ match left_ e with Some l => collect_field_refs l | None => [] end
  ++ match right_ e with Some r => collect_field_refs r | None => [] end.

(** [parent] is the scope of an enclosing element, if the element has one. *)
Definition check_no_forward_refs (e : option Expr) (declared : gset string) (context : string)
    (parent : option (gset string)) : errors :=
  match e with
  | None => []
  | Some e =>
      flat_map (fun '(n, l) =>
        when (negb (bool_decide (n ∈ declared)) && negb (match parent with Some s => bool_decide (n ∈ s) | None => false end))
          (report l (context +:+ ": forward reference to undeclared field '" +:+ n +:+ "'")))
        (collect_field_refs e)
  end.

Section constants.
Variable idx : TypeIndex.

Fixpoint constant_ref_errors (context : string) (e : Expr) : errors :=
  (if bool_decide (op e = ConstantRef) then
     when (negb (is_some (idx_constants idx !! str (name e))))
       (report (loc e) (context +:+ ": references unknown constant '" +:+ str (name e) +:+ "'"))
   else [])
  ++ match left_ e with Some l => constant_ref_errors context l | None => [] end
  ++ match right_ e with Some r => constant_ref_errors context r | None => [] end.

Definition check_constant_refs (e : option Expr) (context : string) : errors :=
  match e with Some e => constant_ref_errors context e | None => [] end.
End constants.

Fixpoint safety_errors (context : string) (e : Expr) : errors :=
  match right_ e with
  | Some r =>
      if bool_decide (op r = NumberLit) then
        when (bool_decide (op e = Div) && (number_value r =? 0)) (report (loc e) (context +:+ ": division by zero in expression"))
        ++ when (bool_decide (op e = Mod) && (number_value r =? 0)) (report (loc e) (context +:+ ": modulo by zero in expression"))
        ++ when ((bool_decide (op e = ShiftLeft) || bool_decide (op e = ShiftRight))
                 && ((number_value r <? 0) || (64 <=? number_value r)))
             (report (loc e) (context +:+ ": shift amount out of range in expression"))
      else []
  | None => []
  end
  ++ match left_ e with Some l => safety_errors context l | None => [] end
  ++ match right_ e with Some r => safety_errors context r | None => [] end.

Definition check_expr_safety (e : option Expr) (context : string) : errors :=
  match e with Some e => safety_errors context e | None => [] end.

Fixpoint expr_uses_remaining (e : Expr) : bool :=
  if bool_decide (op e = Remaining) then true
  else match left_ e with Some l => expr_uses_remaining l | None => false end
       || match right_ e with Some r => expr_uses_remaining r | None => false end.

Definition uses_remaining (e : option Expr) : bool := match e with Some e => expr_uses_remaining e | None => false end.

(** ** Fields *)

Definition INT_MIN : Z := - 2 ^ 31.
Definition INT_MAX : Z := 2 ^ 31 - 1.

(** [bytes * 8] in an [int]. *)
Definition octet_bits (bytes : Z) : option Z :=
  let v := bytes * 8 in if (INT_MIN <=? v) && (v <=? INT_MAX) then Some v else None.

Definition has_modifier (m : ArithModifier) : bool := negb (bool_decide (mod_op m = OpNone)).
Definition is_field_operand (m : ArithModifier) : bool := match mod_field_ref m with [] => false | _ => true end.

Definition constrained (f : Field) : bool :=
  match f_constraint f with
  | Some c => is_some (equals c) || is_some (min_ c) || is_some (max_ c)
  | None => false
  end.

Definition named_enum_value (n : string) (l : list EnumValue) : bool := existsb (fun ev => String.eqb (enum_name ev) n) l.

Definition field_needs (b : PrimitiveBase) : string := match b with BaseInt => "signed type" | _ => "unsigned type" end.

Section fields.
Variable stod : string -> bool.
Variable p : Protocol.
Variable idx : TypeIndex.

Definition resolve_base (f : Field) : option PrimitiveBase :=
  match f_base f with
  | Some b => Some b
  | None =>
      let by_sign := if f_is_signed f then BaseInt else BaseUint in
      if is_empty (f_type_ref f) then Some by_sign
      else t ← type_at p idx (f_type_ref f);
           Some (match t with Some t => td_base t | None => by_sign end)
  end.

(** The width of a field: its own, or that of its type; 0 if it has none. *)
Definition field_width (f : Field) : option Z :=
  match f_bits f, f_bytes_attr f with
  | Some n, _ => Some n
  | None, Some n => octet_bits n
  | None, None =>
      if is_empty (f_type_ref f) then Some 0
      else t ← type_at p idx (f_type_ref f); Some (match t with Some t => td_bits t | None => 0 end)
  end.

Section field.
Variable f : Field.

Definition complain (what : string) : errors := report (f_loc f) ("field '" +:+ f_name f +:+ "': " +:+ what).

Definition inline_base_errors (b : PrimitiveBase) : errors :=
  let no_size := negb (is_some (f_length f)) && negb (is_some (f_length_from f)) && negb (f_length_star f) in
  let base_is n := "base=" +:+ quoted n in
  match b with
  | BaseFloat =>
      when (match f_bits f with Some n => n <=? 0 | None => true end) (complain (base_is "float" +:+ " requires bits > 0"))
      ++ when (f_is_signed f) (complain (base_is "float" +:+ " cannot combine with signed"))
      ++ when (is_some (f_wire_encoding f)) (complain (base_is "float" +:+ " cannot combine with wire-encoding"))
      ++ when (match f_enum_values f with [] => false | _ => true end)
           (complain (base_is "float" +:+ " cannot combine with inline enum"))
      ++ when (match f_flags f with [] => false | _ => true end)
           (complain (base_is "float" +:+ " cannot combine with inline flags"))
  | BaseString =>
      when (is_some (f_bits f)) (complain (base_is "string" +:+ " cannot have 'bits'"))
      ++ when (no_size && negb (is_some (f_length_prefix f)) && negb (is_some (f_terminated f)))
           (complain (base_is "string" +:+ " requires length, length-from, length-prefix, terminated, or length="
                      +:+ quoted "*"))
  | BaseBytes =>
      when (is_some (f_bits f)) (complain (base_is "bytes" +:+ " cannot have 'bits'; use bytes size attribute instead"))
      ++ when (no_size && negb (is_some (f_bytes_attr f)))
           (complain (base_is "bytes" +:+ " requires length, length-from, bytes, or length=" +:+ quoted "*"))
  | BaseBool => []
  | BaseInt | BaseUint =>
      when (match f_bits f with Some n => n =? 0 | None => false end) (complain "inline numeric type must have bits > 0")
  end.

(** ** Automatic values *)

Definition auto_is (kind : string) : string := "auto=" +:+ quoted kind.
Definition no_constraints (kind : string) : errors := when (constrained f) (complain (auto_is kind +:+ " fields cannot have constraints")).

Definition length_modifier_errors (m : ArithModifier) : errors :=
  let literal_zero := negb (is_field_operand m) && (mod_literal m =? 0) in
  if has_modifier m then
    when ((bool_decide (mod_op m = OpDiv) || bool_decide (mod_op m = OpMod)) && literal_zero)
      (complain "division/modulo by zero in auto expression")
    ++ when (bool_decide (mod_op m = OpMul) && literal_zero)
         (complain "multiplication by zero in auto expression (inverse would divide by zero at decode)")
  else [].

Definition auto_expr_errors (in_fx in_frame : bool) (a : AutoExpr) : option errors :=
  match auto_kind a with
  | AutoIncrement =>
      base ← resolve_base f;
      Some (when (negb (bool_decide (base = BaseUint))) (complain (auto_is "increment" +:+ " only valid on unsigned integer fields"))
            ++ no_constraints "increment")
  | AutoLength =>
      base ← resolve_base f;
      bits ← field_width f;
      Some (when in_fx (complain (auto_is "length" +:+ " is not valid inside <fx> blocks (dynamic FX layout would corrupt backpatch offsets)"))
            ++ when (negb (bool_decide (base = BaseUint)) && negb (bool_decide (base = BaseInt)))
                 (complain (auto_is "length" +:+ " requires integer type"))
            ++ when (32 <? bits) (complain (auto_is "length" +:+ " maximum supported is 32 bits"))
            ++ no_constraints "length"
            ++ length_modifier_errors (auto_modifier a))
  | AutoId =>
      Some (when (negb in_frame) (complain (auto_is "id" +:+ " is only valid inside <frame> definitions"))
            ++ no_constraints "id")
  | AutoConfig => Some (no_constraints "config")
  | AutoCount =>
      base ← resolve_base f;
      Some (when (negb (bool_decide (base = BaseUint)) && negb (bool_decide (base = BaseInt)))
              (complain (auto_is "count" +:+ " requires integer type"))
            ++ when (match auto_field_ref a with [] => true | _ => false end)
                 (complain (auto_is "count" +:+ " requires a field reference, e.g. auto=" +:+ quoted "count(items)")))
  | AutoTimestamp =>
      base ← resolve_base f;
      Some (when (negb (bool_decide (base = BaseUint))) (complain (auto_is "timestamp" +:+ " only valid on unsigned integer fields"))
            ++ no_constraints "timestamp")
  end.

Definition auto_errors (in_fx in_frame : bool) : option errors :=
  match f_auto_attr f with
  | None => Some []
  | Some attr =>
      match f_auto_expr f with
      | None => Some (complain ("unknown auto expression '" +:+ attr +:+ "'"))
      | Some a => auto_expr_errors in_fx in_frame a
      end
  end.
(** ** Default values *)

(** The default of an enumeration names one of its values. *)
Definition enum_default_errors (v : string) (l : list EnumValue) : errors :=
  when (negb (named_enum_value v l)) (complain ("default value '" +:+ v +:+ "' does not match any enum value")).

(** The values of the type of the field, if that is an enumeration. *)
Definition type_enum_values : option (list EnumValue) :=
  if is_empty (f_type_ref f) then Some []
  else match find idx (f_type_ref f) with
       | Some (RType i) => t ← proto_types p !! i; Some (td_enum_values t)
       | _ => Some []
       end.

Definition integer_default_errors (unsigned_base : bool) (bits : Z) (v : string) : errors :=
  let invalid := complain ("default value '" +:+ v +:+ "' is not a valid integer") in
  let out_of_range kind :=
    complain ("default value " +:+ v +:+ " out of range for " +:+ pretty bits +:+ "-bit " +:+ kind +:+ " field") in
  if unsigned_base then
    match stoull (txt v) with
    | None => invalid
    | Some uv => when ((0 <? bits) && (bits <? 64) && (Z.shiftl 1 bits <=? uv)) (out_of_range "unsigned")
    end
  else
    match stoll (txt v) with
    | None => invalid
    | Some sv =>
        when ((0 <? bits) && (bits <? 64)
              && ((sv <? - Z.shiftl 1 (bits - 1)) || (Z.shiftl 1 (bits - 1) - 1 <? sv))) (out_of_range "signed")
    end.

Definition plain_default_errors (v : string) : option errors :=
  base ← resolve_base f;
  bits ← field_width f;
  Some (match base with
        | BaseUint => integer_default_errors true bits v
        | BaseInt => integer_default_errors false bits v
        | BaseBool =>
            when (negb (String.eqb v "true" || String.eqb v "false" || String.eqb v "0" || String.eqb v "1"))
              (complain ("default value '" +:+ v +:+ "' is not valid for a bool field (use true/false/0/1)"))
        | BaseFloat => when (negb (stod v)) (complain ("default value '" +:+ v +:+ "' is not a valid float"))
        | BaseBytes | BaseString => []
        end).

Definition default_errors : option errors :=
  match f_default_value f with
  | None => Some []
  | Some v =>
      Some (when (negb (is_empty (f_type_ref f)) && is_struct_or_message_type idx (f_type_ref f))
              (complain "'default' not valid on struct/message fields")
            ++ when (String.eqb (f_type_ref f) "bytes" || is_some (f_bytes_attr f))
                 (complain "'default' not valid on bytes fields"))
      +++ (values ← type_enum_values;
           match values, f_enum_values f with
           | _ :: _, _ => Some (enum_default_errors v values)
           | [], _ :: _ => Some (enum_default_errors v (f_enum_values f))
           | [], [] => plain_default_errors v
           end)
  end.

(** ** Strings *)

Definition char_bits_errors : option errors :=
  match f_char_bits f with
  | None => Some []
  | Some n =>
      base ← resolve_base f;
      Some (when (negb (bool_decide (base = BaseString)) && negb (bool_decide (base = BaseBytes)))
              (complain "char-bits only valid on string or bytes fields")
            ++ when ((n <? 1) || (8 <? n)) (complain "char-bits must be 1-8")
            ++ when (is_some (f_terminated f)) (complain "char-bits not combinable with terminated")
            ++ when (is_some (f_length_prefix f)) (complain "char-bits not combinable with length-prefix")
            ++ when (is_some (f_length_from f)) (complain "char-bits not combinable with length-from")
            ++ when (f_length_star f) (complain ("char-bits not combinable with length=" +:+ quoted "*")))
  end.

Definition length_prefix_errors : option errors :=
  match f_length_prefix f with
  | None => Some []
  | Some r =>
      t ← type_at p idx r;
      Some (match t with
            | None => complain ("length-prefix references unknown type '" +:+ r +:+ "'")
            | Some t => when (negb (bool_decide (td_base t = BaseUint)))
                          (complain "length-prefix must reference unsigned integer type")
            end)
  end.

(** ** Constraints *)

Definition at_constraint (c : Constraint) (what : string) : errors :=
  report (constraint_loc c) ("field '" +:+ f_name f +:+ "': " +:+ what).

Definition is_constant_ref (eq : string) : bool := match txt eq with c :: _ => isupper c | [] => false end.

Definition compatible_bases (field_base const_base : PrimitiveBase) : bool :=
  bool_decide (field_base = const_base)
  || (bool_decide (field_base = BaseInt) && bool_decide (const_base = BaseUint))
  || (bool_decide (field_base = BaseUint) && bool_decide (const_base = BaseInt)).

(** A constant an equality refers to. *)
Definition equals_constant_errors (c : Constraint) (eq : string) : option errors :=
  match idx_constants idx !! eq with
  | None => Some (at_constraint c ("constraint references unknown constant '" +:+ eq +:+ "'"))
  | Some i =>
      k ← proto_constants p !! i;
      field_base ← resolve_base f;
      if is_empty (const_type_ref k) then Some []
      else t ← type_at p idx (const_type_ref k);
           Some (match t with
                 | Some t => when (negb (compatible_bases field_base (td_base t)))
                               (at_constraint c ("constraint constant '" +:+ eq +:+ "' type mismatch"))
                 | None => []
                 end)
  end.

Definition equals_errors (c : Constraint) (eq : string) : option errors :=
  if is_constant_ref eq then equals_constant_errors c eq
  else if is_valid_numeric_literal eq then Some []
  else
    let unknown := at_constraint c "constraint equals value must be a numeric literal, constant, or enum value" in
    if named_enum_value eq (f_enum_values f) then Some []
    else if is_empty (f_type_ref f) then Some unknown
    else t ← type_at p idx (f_type_ref f);
         Some (match t with Some t => when (negb (named_enum_value eq (td_enum_values t))) unknown | None => unknown end).

(** One bound of a constraint against the width of the field. *)
Definition bound_errors (c : Constraint) (is_signed : bool) (bits : Z) (label : string) (v : option string) : option errors :=
  match v with
  | None => Some []
  | Some s =>
      v ← parse_literal (txt s);
      Some (match v with
            | Some v =>
                when (out_of_range is_signed bits v)
                  (at_constraint c ("constraint " +:+ label +:+ " value " +:+ s +:+ " exceeds " +:+ pretty bits +:+ "-bit range"))
            | None => []
            end)
  end.

Definition constraint_range_errors (c : Constraint) (bits : Z) : option errors :=
  if (0 <? bits) && (bits <=? 64) then
    base ← resolve_base f;
    let is_signed := bool_decide (base = BaseInt) in
    bound_errors c is_signed bits "equals"
      (match equals c with Some s => if is_valid_numeric_literal s then Some s else None | None => None end)
    +++ bound_errors c is_signed bits "min" (min_ c)
    +++ bound_errors c is_signed bits "max" (max_ c)
  else Some [].

Definition on_constraint (check : Constraint -> option errors) : option errors :=
  match f_constraint f with Some c => check c | None => Some [] end.

(** ** The field as a whole *)

Definition shape_errors (in_bitmap : bool) (parent_name : string) : errors :=
  let no_type := is_empty (f_type_ref f) in
  when (is_empty (f_name f)) (report (f_loc f) ("field has empty name in " +:+ parent_name))
  ++ check_keyword_collision (f_loc f) (f_name f) "field"
  ++ when (no_type && negb (is_some (f_bits f)) && negb (is_some (f_bytes_attr f)) && negb (is_some (f_base f)))
       (report (f_loc f) ("field '" +:+ f_name f +:+ "' must have 'type', 'bits', 'bytes', or 'base' attribute"))
  ++ when (is_some (f_base f) && negb no_type) (complain "'base' and 'type' are mutually exclusive")
  ++ match f_base f with Some b => inline_base_errors b | None => [] end
  ++ when (is_some (f_bit f) && is_some (f_present_when f)) (complain "'bit' and 'present-when' are mutually exclusive")
  ++ when (is_some (f_bit f) && negb in_bitmap)
       (complain ("'bit' only valid inside presence=" +:+ quoted "bitmap" +:+ " struct")).

Definition scale_errors : option errors :=
  let scaled := is_some (f_scale f) || is_some (f_offset f) in
  (if scaled then
     base ← resolve_base f;
     Some (when (negb (is_numeric base)) (complain "scale/offset only valid on numeric types"))
   else Some [])
  +++ Some (when (1 <? trait_count (f_enum_values f) (f_flags f) scaled)
              (complain "enum, flags, and scale/offset are mutually exclusive")).

Definition wire_encoding_errors (bits : Z) : option errors :=
  match f_wire_encoding f with
  | None => Some []
  | Some enc =>
      base ← resolve_base f;
      Some (encoding_errors (f_loc f) ("field '" +:+ f_name f +:+ "'") field_needs enc base bits)
  end.

Definition validate_field (in_bitmap : bool) (parent_name : string) (in_fx in_frame : bool) : option errors :=
  let place := "field '" +:+ f_name f +:+ "'" in
  Some (shape_errors in_bitmap parent_name)
  +++ auto_errors in_fx in_frame
  +++ default_errors
  +++ Some (when (f_is_inline f && negb (is_empty (f_type_ref f)) && negb (is_struct_or_message_type idx (f_type_ref f)))
              (complain "inline type must be struct or message"))
  +++ char_bits_errors
  +++ length_prefix_errors
  +++ on_constraint (fun c => match equals c with Some eq => equals_errors c eq | None => Some [] end)
  +++ Some (when (f_length_includes_prefix f && negb (is_some (f_length_prefix f)))
              (complain "length-includes-prefix requires length-prefix"))
  +++ scale_errors
  +++ on_constraint (fun c => validate_constraint c place)
  +++ (bits ← field_width f;
       Some (when (0 <? bits) (flags_loop place bits ∅ ∅ (f_flags f))
             ++ enum_loop "inline enum value" place bits ∅ ∅ (f_enum_values f))
       +++ on_constraint (fun c => constraint_range_errors c bits)
       +++ wire_encoding_errors bits).
End field.
End fields.
