(* ===== verification/Validator.v ===== *)
(** * The validator

    Models the recursive checks, the frame checks and [validate] of
    [conduit/bgen/src/analyzer/validator.cpp].  [used_type_names_] is state, the
    errors are output, in order; [None] is undefined behaviour, a pointer outside
    the protocol or spent fuel.  [fuel] bounds the searches through references,
    for which the code uses the call stack.  [check_case_value_range] only warns
    and is left out. *)

From stdpp Require Import base numbers list gmap strings pretty.
From Stdlib Require Import ZArith Lia Ascii.
From S2P Require Import Prelude CharConv AutoExpr ExprParser Ast AstBuilder TypeResolver ProtocolIndex Validation StructCycles CaseOverlap Names TypeChecks FieldChecks.

Open Scope Z_scope.

(** ** Checks that remember type names *)

Definition V (A : Type) : Type := gset string -> option (errors * A * gset string).

Global Instance V_ret : MRet V := fun _ a used => Some ([], a, used).
Global Instance V_bind : MBind V := fun A B (k : A -> V B) (m : V A) used =>
  match m used with
  | Some (e1, a, used) =>
      match k a used with Some (e2, b, used) => Some (e1 ++ e2, b, used) | None => None end
  | None => None
  end.

Definition emit (es : errors) : V unit := fun used => Some (es, tt, used).
Definition check (o : option errors) : V unit := fun used => match o with Some es => Some (es, tt, used) | None => None end.

Section for_each.
Context {A S : Type} (body : A -> S -> V S).

Fixpoint for_each (l : list A) (s : S) : V S :=
  match l with
  | [] => mret s
  | x :: l => s ← body x s; for_each l s
  end.
End for_each.

Section validator.
Variable sort : list Range -> list Range.
Variable stod : string -> bool.
Variable p : Protocol.
Variable idx : TypeIndex.
Variable fuel : nat.

(** A [typeName] override. *)
Definition validate_type_name (loc : SourceLoc) (type_name element_kind element_name : string) (has_type_ref : bool) : V unit :=
  let complain what := report loc (element_kind +:+ " '" +:+ element_name +:+ "': " +:+ what) in
  let conflicts what := complain ("typeName '" +:+ type_name +:+ "' conflicts with existing " +:+ what +:+ " definition") in
  if is_empty type_name then emit (complain "typeName cannot be empty")
  else if has_type_ref then
    emit (complain "typeName is not valid when 'type' attribute is present (typeName overrides the generated class name for inline definitions only)")
  else if negb (is_valid_cpp_identifier type_name) then
    emit (complain ("typeName '" +:+ type_name +:+ "' is not a valid C++ identifier"))
  else if is_cpp_keyword type_name then emit (complain ("typeName '" +:+ type_name +:+ "' is a C++ keyword"))
  else if is_some (idx_types idx !! type_name) then emit (conflicts "type")
  else if is_some (idx_structs idx !! type_name) then emit (conflicts "struct")
  else if is_some (idx_messages idx !! type_name) then emit (conflicts "message")
  else fun used =>
    Some (when (bool_decide (type_name ∈ used))
            (complain ("typeName '" +:+ type_name +:+ "' is already used by another element")),
          tt, {[type_name]} ∪ used).

Definition check_type_name (loc : SourceLoc) (type_name : option string) (kind name : string) (has_type_ref : bool) : V unit :=
  match type_name with
  | Some n => validate_type_name loc n kind name has_type_ref
  | None => mret tt
  end.

(** ** Names brought in by inline fields *)

(** The name and the children of a struct or message. *)
Definition composite_body (d : ResolvedDef) : option (option (string * list StructChild)) :=
  match d with
  | RType _ => Some None
  | RStruct i => s ← proto_structs p !! i; Some (Some (sd_name s, sd_children s))
  | RMessage i => m ← proto_messages p !! i; Some (Some (msg_name m, msg_children m))
  end.

(** [names] is the scope of the enclosing element, [visiting] the references
    being followed. *)
Record InlineState := mkInline { names : gset string; visiting : gset string }.

Section inline_loop.
Variable dup : string -> InlineState -> option (errors * InlineState).
Variables (parent_name def_name : string).

Fixpoint inline_loop (l : list StructChild) (st : InlineState) : option (errors * InlineState) :=
  match l with
  | [] => Some ([], st)
  | ChField cf :: l =>
      let n := f_name cf in
      let e1 := when (negb (is_empty n) && bool_decide (n ∈ names st))
                  (report (f_loc cf) ("inline of '" +:+ def_name +:+ "' introduces duplicate field name '" +:+ n +:+ "' in " +:+ parent_name)) in
      let st := if is_empty n then st else mkInline ({[n]} ∪ names st) (visiting st) in
      '(e2, st) ← (if f_is_inline cf && negb (is_empty (f_type_ref cf)) then dup (f_type_ref cf) st else Some ([], st));
      '(e3, st) ← inline_loop l st;
      Some (e1 ++ e2 ++ e3, st)
  | _ :: l => inline_loop l st
  end.
End inline_loop.

Fixpoint check_inline_duplicates (n : nat) (parent_name type_ref : string) (st : InlineState) : option (errors * InlineState) :=
  match n with
  | O => None
  | S n =>
      if is_empty type_ref then Some ([], st)
      else if bool_decide (type_ref ∈ visiting st) then Some ([], st)
      else
        let st := mkInline (names st) ({[type_ref]} ∪ visiting st) in
        match find idx type_ref with
        | None => Some ([], st)
        | Some d =>
            body ← composite_body d;
            '(es, st) ← match body with
                        | Some (def_name, children) =>
                            inline_loop (check_inline_duplicates n parent_name) parent_name def_name children st
                        | None => Some ([], st)
                        end;
            Some (es, mkInline (names st) (visiting st ∖ {[type_ref]}))
        end
  end.

(** ** Arrays *)

Definition validate_align (a : Align) (parent_name : string) : errors :=
  let n := align_to a in
  if n <=? 0 then report (align_loc a) ("<align> 'to' must be positive in " +:+ parent_name)
  else if negb (Z.land n (n - 1) =? 0) then
    report (align_loc a) ("<align> 'to' (" +:+ pretty n +:+ ") is not a power of 2 in " +:+ parent_name)
  else when (8 <? n) (report (align_loc a) ("<align> 'to' (" +:+ pretty n +:+ ") exceeds maximum of 8 bytes in " +:+ parent_name)).

(** The loop stops at the first child that is not fixed. *)
Section all_fixed.
Variable fixed : StructChild -> option bool.

Fixpoint all_fixed (l : list StructChild) : option bool :=
  match l with
  | [] => Some true
  | c :: l => b ← fixed c; if (b : bool) then all_fixed l else Some false
  end.
End all_fixed.

Section child_fixed.
Variable ref_fixed : string -> option bool.

Fixpoint child_fixed_size (c : StructChild) : option bool :=
  match c with
  | ChField f =>
      if is_some (f_bits f) || is_some (f_bytes_attr f) then Some true
      else if f_length_star f || is_some (f_length_from f) || is_some (f_length f) || is_some (f_terminated f)
              || is_some (f_max_length f) || is_some (f_length_prefix f) then Some false
      else if is_empty (f_type_ref f) then Some false
      else ref_fixed (f_type_ref f)
  | ChReserved _ | ChAlign _ => Some true
  | ChStruct s => all_fixed child_fixed_size (sd_children s)
  | ChArray _ | ChChoice _ | ChFx _ => Some false
  end.
End child_fixed.

(** What a reference names is of fixed size. *)
Fixpoint ref_fixed_size (n : nat) (r : string) : option bool :=
  match n with
  | O => None
  | S n =>
      match find idx r with
      | None => Some false
      | Some (RType i) =>
          t ← proto_types p !! i;
          Some (if bool_decide (td_base t = BaseString) then is_some (td_length t) else 0 <? td_bits t)
      | Some (RStruct i) =>
          s ← proto_structs p !! i;
          all_fixed (child_fixed_size (ref_fixed_size n)) (sd_children s)
      | Some (RMessage _) => Some false
      end
  end.

Definition array_element_fixed_size (a : ArrayDef) : option bool :=
  if negb (is_empty (ad_type_ref a)) then ref_fixed_size fuel (ad_type_ref a)
  else match ad_children a with
       | [] => Some false
       | l => all_fixed (child_fixed_size (ref_fixed_size fuel)) l
       end.

Definition validate_array (a : ArrayDef) (parent_name : string) : option errors :=
  let count_specs := (if is_some (fixed_count a) then 1 else 0) + (if is_some (count_from a) then 1 else 0)
                     + (if count_star a then 1 else 0) + (if count_fx a then 1 else 0) in
  let complain what := report (ad_loc a) ("array '" +:+ ad_name a +:+ "' " +:+ what) in
  fixed ← (if count_fx a then array_element_fixed_size a else Some true);
  Some (when (is_empty (ad_name a)) (report (ad_loc a) ("array has empty name in " +:+ parent_name))
        ++ (if count_specs =? 0 then
              complain ("must have 'count', 'count-from', count=" +:+ quoted "*" +:+ ", or count=" +:+ quoted "fx")
            else when (1 <? count_specs) (complain "has multiple count specifications"))
        ++ when (negb (is_empty (ad_type_ref a)) && match ad_children a with [] => false | _ => true end)
             (complain "has both 'type' and inline children")
        ++ when (count_fx a && negb fixed)
             (complain ("with count=" +:+ quoted "fx" +:+ " requires a fixed-size element type (the FX bit follows each element at a fixed bit position)"))).

(** ** Children *)

(** Where a list of children stands: the parameters of [validate_children]. *)
Record Place := mkPlace {
  in_bitmap : bool; parent_name : string; in_array : bool; in_choice : bool;
  in_bounded_container : bool; parent_scope : option (gset string); in_fx : bool; in_frame : bool
}.

(** Its local variables; [star] is the element that takes the remaining bytes. *)
Record Scope := mkScope {
  field_names : gset string; array_names : gset string; fx_count : Z; star : option string
}.
Definition scope0 : Scope := mkScope ∅ ∅ 0 None.

(** Nothing may follow an element that takes the remaining bytes. *)
Definition after_star (sc : Scope) (loc : SourceLoc) (who : string) : errors :=
  match star sc with
  | Some s => report loc (who +:+ " follows '" +:+ s +:+ "' which consumes remaining bytes; it must be the last element")
  | None => []
  end.

(** Enter a name, if there is one. *)
Definition declare (sc : Scope) (n : string) : Scope :=
  if is_empty n then sc else mkScope ({[n]} ∪ field_names sc) (array_names sc) (fx_count sc) (star sc).
Definition duplicate (sc : Scope) (n : string) (loc : SourceLoc) (msg : string) : errors :=
  when (negb (is_empty n) && bool_decide (n ∈ field_names sc)) (report loc msg).
Definition declare_star (takes_rest : bool) (n : string) (sc : Scope) : Scope :=
  mkScope (field_names sc) (array_names sc) (fx_count sc) (if takes_rest then Some n else star sc).
Definition declare_array (n : string) (sc : Scope) : Scope :=
  if is_empty n then sc else mkScope (field_names sc) ({[n]} ∪ array_names sc) (fx_count sc) (star sc).

(** The expressions of an element with their contexts. *)
Definition forward_errors (pl : Place) (sc : Scope) (es : list (option Expr * string)) : errors :=
  flat_map (fun '(e, ctx) => check_no_forward_refs e (field_names sc) ctx (parent_scope pl)) es.
Definition expr_errors (es : list (option Expr * string)) : errors :=
  flat_map (fun '(e, ctx) => check_expr_safety e ctx) es
  ++ flat_map (fun '(e, ctx) => check_constant_refs idx e ctx) es.

(** The names an inline field brings into the scope. *)
Definition inline_names (pl : Place) (f : Field) (sc : Scope) : V Scope := fun used =>
  '(es, st) ← check_inline_duplicates fuel (parent_name pl) (f_type_ref f) (mkInline (field_names sc) ∅);
  Some (es, mkScope (names st) (array_names sc) (fx_count sc) (star sc), used).

Definition field_step (pl : Place) (f : Field) (sc : Scope) : V Scope :=
  let who := "field '" +:+ f_name f +:+ "'" in
  let exprs := [(f_present_when f, who +:+ " present-when"); (f_length_from f, who +:+ " length-from")] in
  emit (after_star sc (f_loc f) who ++ forward_errors pl sc exprs ++ expr_errors exprs
        ++ when (f_length_star f && negb (in_bounded_container pl))
             (report (f_loc f) (who +:+ ": length=" +:+ quoted "*" +:+ " requires a bounded container (message, length-delimited array/choice)"))
        ++ when (uses_remaining (f_length_from f) && negb (in_bounded_container pl))
             (report (f_loc f) (who +:+ ": 'remaining' in length-from requires a bounded container")));;
  check (validate_field stod p idx f (in_bitmap pl) (parent_name pl) (in_fx pl) (in_frame pl));;
  emit (duplicate sc (f_name f) (f_loc f) ("duplicate field name '" +:+ f_name f +:+ "' in " +:+ parent_name pl));;
  let sc := declare_star (f_length_star f) (f_name f) (declare sc (f_name f)) in
  if f_is_inline f && negb (is_empty (f_type_ref f)) then inline_names pl f sc else mret sc.

Definition struct_errors (pl : Place) (s : StructDef) (sc : Scope) : errors :=
  let who := "struct '" +:+ sd_name s +:+ "'" in
  let exprs := [(sd_present_when s, who +:+ " present-when")] in
  after_star sc (sd_loc s) who ++ forward_errors pl sc exprs ++ expr_errors exprs
  ++ duplicate sc (sd_name s) (sd_loc s) ("duplicate name '" +:+ sd_name s +:+ "' in " +:+ parent_name pl)
  ++ when (is_some (sd_bit s) && is_some (sd_present_when s))
       (report (sd_loc s) ("'" +:+ sd_name s +:+ "': 'bit' and 'present-when' are mutually exclusive"))
  ++ when (is_some (sd_bit s) && negb (in_bitmap pl))
       (report (sd_loc s) ("'" +:+ sd_name s +:+ "': 'bit' only valid inside presence=" +:+ quoted "bitmap" +:+ " struct")).

Definition array_exprs (a : ArrayDef) : list (option Expr * string) :=
  let who := "array '" +:+ ad_name a +:+ "'" in
  [(count_from a, who +:+ " count-from"); (ad_length_from a, who +:+ " length-from");
   (ad_present_when a, who +:+ " present-when")].

Definition array_errors (pl : Place) (a : ArrayDef) (sc : Scope) : errors :=
  let who := "array '" +:+ ad_name a +:+ "'" in
  after_star sc (ad_loc a) who ++ forward_errors pl sc (array_exprs a) ++ expr_errors (array_exprs a)
  ++ when (count_star a && negb (in_bounded_container pl))
       (report (ad_loc a) (who +:+ ": count=" +:+ quoted "*" +:+ " requires a bounded container (message, length-delimited array/choice)")).

Definition choice_exprs (c : ChoiceDef) : list (option Expr * string) :=
  let who := "choice '" +:+ ch_name c +:+ "'" in
  [(switch_expr c, who +:+ " switch"); (ch_present_when c, who +:+ " present-when");
   (ch_length_from c, who +:+ " length-from")].

Definition choice_errors (pl : Place) (c : ChoiceDef) (sc : Scope) : errors :=
  after_star sc (ch_loc c) ("choice '" +:+ ch_name c +:+ "'")
  ++ forward_errors pl sc (choice_exprs c) ++ expr_errors (choice_exprs c)
  ++ when (is_empty (ch_name c)) (report (ch_loc c) ("choice has empty name in " +:+ parent_name pl))
  ++ when (negb (is_some (switch_expr c))) (report (ch_loc c) ("choice '" +:+ ch_name c +:+ "' missing 'switch' attribute"))
  ++ when (match ch_cases c with [] => true | _ => false end)
       (report (ch_loc c) ("choice '" +:+ ch_name c +:+ "' must have at least one <case>")).

Definition case_errors (c : ChoiceDef) (case_names : gset string) (cs : CaseDef) : errors :=
  let who := "case '" +:+ case_name cs +:+ "'" in
  when (negb (is_some (case_value cs)) && negb (is_some (case_range cs))) (report (case_loc cs) (who +:+ " must have 'value' or 'range'"))
  ++ when (is_some (case_value cs) && is_some (case_range cs)) (report (case_loc cs) (who +:+ " cannot have both 'value' and 'range'"))
  ++ when (negb (is_empty (case_name cs)) && bool_decide (case_name cs ∈ case_names))
       (report (case_loc cs) ("duplicate case name '" +:+ case_name cs +:+ "' in choice '" +:+ ch_name c +:+ "'")).

Definition fx_errors (pl : Place) (x : FxBlock) (sc : Scope) : errors :=
  let complain what := report (fx_loc x) (what +:+ " in " +:+ parent_name pl) in
  when (1 <? fx_count sc + 1) (complain "multiple <fx> elements at same level")
  ++ when (match fx_children x with [] => true | _ => false end) (complain "<fx> block is empty")
  ++ when (in_array pl) (complain "<fx> cannot appear inside <array>")
  ++ when (in_choice pl) (complain "<fx> cannot appear inside <choice>/<case>/<otherwise>")
  ++ when (in_bitmap pl) (complain ("<fx> cannot appear inside presence=" +:+ quoted "bitmap" +:+ " struct")).

(** The second loop: references of automatic values to siblings. *)
Definition auto_ref_errors (sc : Scope) (c : StructChild) : errors :=
  match c with
  | ChField f =>
      match f_auto_expr f with
      | Some a =>
          let r := str (auto_field_ref a) in
          let m := str (mod_field_ref (auto_modifier a)) in
          let complain what := report (f_loc f) ("field '" +:+ f_name f +:+ "': " +:+ what) in
          let declared n := bool_decide (n ∈ field_names sc) in
          (if is_empty r then []
           else when (negb (String.eqb r "payload") && negb (declared r))
                  (complain ("auto expression references unknown sibling '" +:+ r +:+ "'"))
                ++ when (match auto_kind a with AutoCount => true | _ => false end && negb (String.eqb r "payload")
                         && negb (bool_decide (r ∈ array_names sc)) && declared r)
                     (complain ("auto=" +:+ quoted ("count(" +:+ r +:+ ")") +:+ " target must be an array")))
          ++ when (is_field_operand (auto_modifier a) && negb (declared m))
               (complain ("auto modifier references unknown sibling '" +:+ m +:+ "'"))
      | None => []
      end
  | _ => []
  end.

(** The place of the children of a nested element. *)
Definition struct_place (pl : Place) (s : StructDef) (sc : Scope) : Place :=
  mkPlace (is_bitmap s) (if is_empty (sd_name s) then parent_name pl else sd_name s) (in_array pl) (in_choice pl)
    (in_bounded_container pl) (Some (field_names sc)) (in_fx pl) (in_frame pl).
Definition array_place (pl : Place) (a : ArrayDef) : Place :=
  mkPlace false (ad_name a) true (in_choice pl)
    (is_some (ad_length_from a) || is_some (ad_length a) || in_bounded_container pl) None (in_fx pl) (in_frame pl).
Definition branch_place (pl : Place) (c : ChoiceDef) (sc : Scope) (branch : string) : Place :=
  mkPlace false (ch_name c +:+ "." +:+ branch) false true
    (is_some (ch_length_from c) || is_some (ch_length c) || in_bounded_container pl)
    (Some (field_names sc ∪ default ∅ (parent_scope pl))) false false.
Definition fx_place (pl : Place) : Place :=
  mkPlace false (parent_name pl +:+ ".<fx>") (in_array pl) (in_choice pl) (in_bounded_container pl) None true (in_frame pl).

(** Both loops over a list of children; [step] validates one of them. *)
Definition children_with (step : StructChild -> Scope -> V Scope) (l : list StructChild) : V unit :=
  sc ← for_each step l scope0;
  emit (flat_map (auto_ref_errors sc) l).

Fixpoint validate_child (pl : Place) (c : StructChild) (sc : Scope) : V Scope :=
  match c with
  | ChField f => field_step pl f sc
  | ChStruct s =>
      emit (struct_errors pl s sc);;
      check_type_name (sd_loc s) (sd_type_name s) "struct" (sd_name s) false;;
      let sc := declare sc (sd_name s) in
      children_with (validate_child (struct_place pl s sc)) (sd_children s);;
      mret sc
  | ChArray a =>
      emit (array_errors pl a sc);;
      check (validate_array a (parent_name pl));;
      emit (duplicate sc (ad_name a) (ad_loc a) ("duplicate name '" +:+ ad_name a +:+ "' in " +:+ parent_name pl));;
      check_type_name (ad_loc a) (ad_type_name a) "array" (ad_name a) (negb (is_empty (ad_type_ref a)));;
      let sc := declare_star (count_star a) (ad_name a) (declare_array (ad_name a) (declare sc (ad_name a))) in
      children_with (validate_child (array_place pl a)) (ad_children a);;
      mret sc
  | ChChoice c =>
      emit (choice_errors pl c sc);;
      check_type_name (ch_loc c) (ch_type_name c) "choice" (ch_name c) false;;
      for_each (fun cs case_names =>
          emit (case_errors c case_names cs);;
          check_type_name (case_loc cs) (case_type_name cs) "case" (case_name cs) (negb (is_empty (case_type_ref cs)));;
          children_with (validate_child (branch_place pl c sc (case_name cs))) (case_children cs);;
          mret (if is_empty (case_name cs) then case_names else {[case_name cs]} ∪ case_names))
        (ch_cases c) (∅ : gset string);;
      match ch_otherwise c with
      | Some o =>
          check_type_name (ow_loc o) (ow_type_name o) "otherwise" (if is_empty (ow_name o) then "otherwise" else ow_name o)
            (negb (is_empty (ow_type_ref o)));;
          children_with (validate_child (branch_place pl c sc "otherwise")) (ow_children o)
      | None => mret tt
      end;;
      check (check_case_overlap sort p idx c);;
      emit (when (is_some (ch_bit c) && is_some (ch_present_when c))
              (report (ch_loc c) ("choice '" +:+ ch_name c +:+ "': 'bit' and 'present-when' are mutually exclusive"))
            ++ duplicate sc (ch_name c) (ch_loc c) ("duplicate name '" +:+ ch_name c +:+ "' in " +:+ parent_name pl));;
      mret (declare sc (ch_name c))
  | ChFx x =>
      emit (fx_errors pl x sc);;
      children_with (validate_child (fx_place pl)) (fx_children x);;
      mret (mkScope (field_names sc) (array_names sc) (fx_count sc + 1) (star sc))
  | ChReserved r =>
      emit (when (res_bits r <=? 0) (report (res_loc r) ("<reserved> has no size in " +:+ parent_name pl)));; mret sc
  | ChAlign a => emit (validate_align a (parent_name pl));; mret sc
  end.

Definition validate_children (pl : Place) (l : list StructChild) : V unit := children_with (validate_child pl) l.

(** ** Structs and messages *)

Definition top_place (bitmap : bool) (parent : string) (bounded frame : bool) : Place :=
  mkPlace bitmap parent false false bounded None false frame.

Definition validate_struct_def (s : StructDef) : V unit :=
  emit (when (is_some (sd_type_name s))
          (report (sd_loc s) ("struct '" +:+ sd_name s +:+ "': typeName is not valid on top-level struct definitions (typeName overrides the generated class name for inline definitions only)")));;
  validate_children (top_place (is_bitmap s) (sd_name s) false false) (sd_children s);;
  emit (bitmap_errors s).

Definition validate_structs : V unit := for_each (fun s _ => validate_struct_def s) (proto_structs p) tt.

Definition validate_messages : V unit :=
  for_each (fun m _ => validate_children (top_place false (msg_name m) true false) (msg_children m)) (proto_messages p) tt.

(** ** Frames *)

Definition scalar_field_errors (section : string) (f : Field) : errors :=
  let who := "frame " +:+ section +:+ " field '" +:+ f_name f +:+ "'" in
  let complain what := report (f_loc f) (who +:+ " " +:+ what) in
  when (negb (is_empty (f_type_ref f)) && is_struct_or_message_type idx (f_type_ref f))
    (complain ("references struct/message type '" +:+ f_type_ref f +:+ "'; only scalar types are allowed in frame headers/footers"))
  ++ when (is_some (f_present_when f)) (complain "may not use present-when; frame fields must be unconditional")
  ++ when (is_some (f_terminated f)) (complain "may not use terminated; frame fields must have fixed size")
  ++ when (is_some (f_length_prefix f)) (complain "may not use length-prefix; frame fields must have fixed size")
  ++ when (is_some (f_length_from f)) (complain "may not use length-from; frame fields must have fixed size")
  ++ when (f_length_star f) (complain "may not use open-ended length; frame fields must have fixed size").

Definition check_scalar_fields (section : string) (l : list StructChild) : errors :=
  let banned loc kind n := report loc ("frame " +:+ section +:+ " may not contain " +:+ kind +:+ " '" +:+ n
                             +:+ "'; only scalar fields are allowed in frame headers/footers") in
  flat_map (fun c => match c with
                     | ChStruct s => banned (sd_loc s) "struct" (sd_name s)
                     | ChChoice c => banned (ch_loc c) "choice" (ch_name c)
                     | ChArray a => banned (ad_loc a) "array" (ad_name a)
                     | ChField f => scalar_field_errors section f
                     | ChFx _ | ChReserved _ | ChAlign _ => []
                     end) l.

(** What is counted and collected over the automatic fields of a frame. *)
Record FrameAutos := mkFrameAutos {
  auto_id_count : Z; auto_length_count : Z; id_field_bits : Z; length_field_bits : Z;
  id_is_enum : bool; config_keys : gset string
}.
Definition frame_autos0 : FrameAutos := mkFrameAutos 0 0 0 0 false ∅.

(** The width of a field, or the old value if it has none. *)
Definition known_width (f : Field) (old : Z) : option Z :=
  match f_bits f, f_bytes_attr f with
  | Some n, _ => Some n
  | None, Some n => octet_bits n
  | None, None =>
      if is_empty (f_type_ref f) then Some old
      else t ← type_at p idx (f_type_ref f); Some (match t with Some t => td_bits t | None => old end)
  end.

Definition frame_id_errors (frame : string) (f : Field) (base : PrimitiveBase) : errors :=
  let complain what := report (f_loc f) ("frame '" +:+ frame +:+ "' auto=" +:+ quoted "id" +:+ " field '" +:+ f_name f
                         +:+ "': message id fields must be an integer or enum type; " +:+ what) in
  match base with
  | BaseFloat => complain "a float cannot be a message id"
  | BaseBool => complain "a bool cannot be a message id"
  | BaseBytes => complain "raw bytes cannot be a message id"
  | BaseString => complain "string message ids are not supported — map the string values to an enum and use that as the id field type"
  | BaseUint | BaseInt => []
  end.

Definition frame_id_step (frame : string) (f : Field) (st : FrameAutos) : option (errors * FrameAutos) :=
  bits ← known_width f (id_field_bits st);
  t ← (if is_empty (f_type_ref f) then Some None else type_at p idx (f_type_ref f));
  let own_enum := match f_enum_values f with [] => false | _ => true end in
  let base := match t with Some t => td_base t | None => default BaseUint (f_base f) end in
  let is_enum := own_enum || match t with Some t => match td_enum_values t with [] => false | _ => true end | None => false end in
  Some (if is_enum then [] else frame_id_errors frame f base,
        mkFrameAutos (auto_id_count st + 1) (auto_length_count st) bits (length_field_bits st) is_enum (config_keys st)).

Definition frame_length_step (f : Field) (m : ArithModifier) (st : FrameAutos) : option (errors * FrameAutos) :=
  bits ← known_width f (length_field_bits st);
  let complain what := report (f_loc f) ("field '" +:+ f_name f +:+ "': " +:+ what) in
  Some (when (32 <? bits) (report (f_loc f) ("auto=" +:+ quoted "length" +:+ " field '" +:+ f_name f +:+ "' is " +:+ pretty bits
                             +:+ " bits; maximum supported is 32 bits"))
        ++ when (constrained f) (complain ("auto=" +:+ quoted "length" +:+ " fields cannot have constraints"))
        ++ (if has_modifier m then
              when (is_field_operand m)
                (complain ("field operands in auto=" +:+ quoted "length" +:+ " arithmetic are not supported at frame level (extract_frame_length cannot resolve field values)"))
              ++ when (bool_decide (mod_op m = OpMod))
                   (complain ("modulo operator in auto=" +:+ quoted "length" +:+ " is not supported at frame level (no inverse for frame length recovery)"))
            else []),
        mkFrameAutos (auto_id_count st) (auto_length_count st + 1) (id_field_bits st) bits (id_is_enum st) (config_keys st)).

Definition frame_config_step (frame : string) (f : Field) (key : string) (st : FrameAutos) : errors * FrameAutos :=
  (when (constrained f) (report (f_loc f) ("field '" +:+ f_name f +:+ "': auto=" +:+ quoted "config" +:+ " fields cannot have constraints"))
   ++ when (bool_decide (key ∈ config_keys st)) (report (f_loc f) ("duplicate config key '" +:+ key +:+ "' in frame '" +:+ frame +:+ "'")),
   mkFrameAutos (auto_id_count st) (auto_length_count st) (id_field_bits st) (length_field_bits st) (id_is_enum st)
     ({[key]} ∪ config_keys st)).

Fixpoint check_auto_fields (frame : string) (l : list Field) (st : FrameAutos) : option (errors * FrameAutos) :=
  match l with
  | [] => Some ([], st)
  | f :: l =>
      '(e1, st) ← match f_auto_expr f with
                  | None => Some ([], st)
                  | Some a =>
                      match auto_kind a with
                      | AutoId => frame_id_step frame f st
                      | AutoLength => frame_length_step f (auto_modifier a) st
                      | AutoConfig => Some (frame_config_step frame f (str (auto_key a)) st)
                      | _ => Some ([], st)
                      end
                  end;
      '(e2, st) ← check_auto_fields frame l st;
      Some (e1 ++ e2, st)
  end.

(** Configuration keys of messages, through inline fields. *)
Section scan_loop.
Variable scan : list StructChild -> gset string -> option (errors * gset string).

Fixpoint scan_loop (l : list Field) (keys : gset string) : option (errors * gset string) :=
  match l with
  | [] => Some ([], keys)
  | f :: l =>
      let '(e1, keys) :=
        match f_auto_expr f with
        | Some a =>
            match auto_kind a with
            | AutoConfig =>
                let k := str (auto_key a) in
                (when (bool_decide (k ∈ keys))
                   (report (f_loc f) ("duplicate config key '" +:+ k +:+ "' (keys must be unique across frame and all messages)")),
                 {[k]} ∪ keys)
            | _ => ([], keys)
            end
        | None => ([], keys)
        end in
      '(e2, keys) ← (if f_is_inline f && negb (is_empty (f_type_ref f)) then
                       match find idx (f_type_ref f) with
                       | None => Some ([], keys)
                       | Some d =>
                           body ← composite_body d;
                           match body with Some (_, children) => scan children keys | None => Some ([], keys) end
                       end
                     else Some ([], keys));
      '(e3, keys) ← scan_loop l keys;
      Some (e1 ++ e2 ++ e3, keys)
  end.
End scan_loop.

Fixpoint scan_msg_configs (n : nat) (l : list StructChild) (keys : gset string) : option (errors * gset string) :=
  match n with
  | O => None
  | S n => scan_loop (scan_msg_configs n) (top_fields l) keys
  end.

Fixpoint scan_messages (l : list MessageDef) (keys : gset string) : option (errors * gset string) :=
  match l with
  | [] => Some ([], keys)
  | m :: l =>
      '(e1, keys) ← scan_msg_configs fuel (msg_children m) keys;
      '(e2, keys) ← scan_messages l keys;
      Some (e1 ++ e2, keys)
  end.

Definition frame_fields (d : FrameDef) : list Field := top_fields (header_fields d) ++ top_fields (footer_fields d).

Definition frame_ref_errors (d : FrameDef) : errors :=
  let known := f_name <$> frame_fields d in
  flat_map (fun f =>
    match f_auto_expr f with
    | Some a =>
        let r := str (auto_field_ref a) in
        let to_payload := String.eqb r "payload" && match auto_kind a with AutoLength | AutoCount => true | _ => false end in
        when (negb (is_empty r) && negb (bool_decide (r ∈ known)) && negb to_payload)
          (report (f_loc f) ("field '" +:+ f_name f +:+ "': auto expression references unknown field '" +:+ r +:+ "'"))
    | None => []
    end) (frame_fields d).

Definition is_auto_id (f : Field) : bool :=
  match f_auto_expr f with Some a => match auto_kind a with AutoId => true | _ => false end | None => false end.

(** The value names of the id field of a header. *)
Fixpoint id_value_names (l : list Field) : option (list string) :=
  match l with
  | [] => Some []
  | f :: l =>
      rest ← id_value_names l;
      if is_auto_id f then
        t ← (if is_empty (f_type_ref f) then Some None else type_at p idx (f_type_ref f));
        Some ((enum_name <$> f_enum_values f) ++ match t with Some t => enum_name <$> td_enum_values t | None => [] end ++ rest)
      else Some rest
  end.

Definition enum_id_errors (value_names : list string) (m : MessageDef) : errors :=
  when (negb (is_empty (msg_id m)) && negb (is_valid_numeric_literal (msg_id m)) && negb (bool_decide (msg_id m ∈ value_names)))
    (report (msg_loc m) ("message '" +:+ msg_name m +:+ "' id='" +:+ msg_id m
       +:+ "' is not a numeric value or a value name of the enum id field")).

Definition id_range_errors (bits : Z) (m : MessageDef) : errors :=
  let max_id_val := Z.shiftl 1 bits - 1 in
  if is_empty (msg_id m) || negb (is_valid_numeric_literal (msg_id m)) then []
  else match stoull (txt (msg_id m)) with
       | Some v =>
           when (max_id_val <? v)
             (report (msg_loc m) ("message '" +:+ msg_name m +:+ "' id=" +:+ msg_id m +:+ " exceeds the " +:+ pretty bits
                +:+ "-bit id field range (max " +:+ pretty max_id_val +:+ ")"))
       | None => []
       end.

Definition name_clash_errors (d : FrameDef) (m : MessageDef) : errors :=
  flat_map (fun f => when (bool_decide (f_name f ∈ f_name <$> frame_fields d))
                       (report (f_loc f) ("message '" +:+ msg_name m +:+ "' field '" +:+ f_name f +:+ "' conflicts with frame field of the same name")))
    (top_fields (msg_children m)).

(** Everything about a frame but its children. *)
Definition frame_errors (d : FrameDef) : option errors :=
  let n := frame_name d in
  let complain what := report (frame_loc d) ("frame '" +:+ n +:+ "' " +:+ what) in
  '(e1, st) ← check_auto_fields n (frame_fields d) frame_autos0;
  '(e2, _) ← scan_messages (proto_messages p) (config_keys st);
  value_names ← id_value_names (top_fields (header_fields d));
  Some (check_scalar_fields "header" (header_fields d) ++ check_scalar_fields "footer" (footer_fields d)
        ++ e1 ++ e2
        ++ (if auto_id_count st =? 0 then complain ("must have exactly one auto=" +:+ quoted "id" +:+ " field")
            else when (1 <? auto_id_count st)
                   (complain ("has " +:+ pretty (auto_id_count st) +:+ " auto=" +:+ quoted "id" +:+ " fields; exactly one is required")))
        ++ when (1 <? auto_length_count st)
             (complain ("has " +:+ pretty (auto_length_count st) +:+ " auto=" +:+ quoted "length" +:+ " fields; at most one is allowed"))
        ++ frame_ref_errors d
        ++ when (match header_fields d with [] => true | _ => false end) (complain "has no header fields before <payload/>")
        ++ when (match proto_messages p with [] => true | _ => false end)
             (complain "is defined but no messages exist; at least one <message> is required")
        ++ when (id_is_enum st) (flat_map (enum_id_errors value_names) (proto_messages p))
        ++ when ((0 <? id_field_bits st) && (id_field_bits st <? 64))
             (flat_map (id_range_errors (id_field_bits st)) (proto_messages p))
        ++ flat_map (name_clash_errors d) (proto_messages p)).

(** Message ids per direction. *)
Definition same_id_errors (a b : MessageDef) : errors :=
  if negb (String.eqb (msg_id a) (msg_id b)) then []
  else
    let both_dirs := match msg_direction a, msg_direction b with DirBoth, _ | _, DirBoth => true | _, _ => false end in
    let same := match msg_direction a, msg_direction b with DirSend, DirSend | DirReceive, DirReceive => true | _, _ => false end in
    if both_dirs then
      report (msg_loc b) ("message '" +:+ msg_name b +:+ "' has same id '" +:+ msg_id b +:+ "' as '" +:+ msg_name a
        +:+ "'; both must have explicit direction (send/receive) to share an id")
    else when same (report (msg_loc b) ("message '" +:+ msg_name b +:+ "' has same id '" +:+ msg_id b
                      +:+ "' and direction as '" +:+ msg_name a +:+ "'")).

Fixpoint id_pair_errors (l : list MessageDef) : errors :=
  match l with
  | [] => []
  | m :: l => flat_map (same_id_errors m) l ++ id_pair_errors l
  end.

Definition message_id_errors : errors :=
  flat_map (fun m => when (is_empty (msg_id m))
                       (report (msg_loc m) ("message '" +:+ msg_name m +:+ "' must have an 'id' attribute when a frame is defined")))
    (proto_messages p)
  ++ id_pair_errors (List.filter (fun m => negb (is_empty (msg_id m))) (proto_messages p)).

Definition validate_frame (d : FrameDef) : V unit :=
  let pl := top_place false ("frame '" +:+ frame_name d +:+ "'") false true in
  validate_children pl (header_fields d);;
  validate_children pl (footer_fields d);;
  check (frame_errors d).

Definition validate_frames : V unit :=
  match proto_frames p with
  | [] => mret tt
  | frames =>
      emit (match frames with
            | _ :: second :: _ =>
                report (frame_loc second) "multiple <frame> definitions found; only one frame per protocol is supported"
            | _ => []
            end);;
      for_each (fun d _ => validate_frame d) frames tt;;
      emit message_id_errors
  end.

(** ** All checks *)

Definition validate_all : V unit :=
  emit (validate_protocol p);;
  check (validate_constants p idx);;
  check (validate_types p);;
  validate_structs;;
  validate_messages;;
  validate_frames;;
  check (detect_struct_cycles p idx).

(** The errors; none is success. *)
Definition validate : option errors :=
  match validate_all ∅ with Some (es, _, _) => Some es | None => None end.
End validator.
