(* ===== verification/ValidatorSpec.v ===== *)
(** * What the validator guarantees: frames and message ids

    Lemmas on checks that report nothing, and what an accepted protocol promises
    to the session analysis of [SessionAnalyzer]. *)

From stdpp Require Import base numbers list gmap strings pretty.
From Stdlib Require Import ZArith Lia.
From S2P Require Import Prelude CharConv AutoExpr ExprParser Ast AstBuilder TypeResolver ProtocolIndex Validation StructCycles CaseOverlap WireSizer SessionAnalyzer Names TypeChecks FieldChecks Validator.

Open Scope Z_scope.
Open Scope check_scope.

(** ** Checks that report nothing *)

Lemma when_nil b es : when b es = [] <-> (b = true -> es = []).
Proof. destruct b; cbn; naive_solver. Qed.

Lemma when_report_nil b loc msg : when b (report loc msg) = [] <-> b = false.
Proof. destruct b; cbn; naive_solver. Qed.

Lemma both_nil a b : a +++ b = Some [] <-> a = Some [] /\ b = Some [].
Proof.
  destruct a as [x|], b as [y|]; cbn; split; naive_solver (rewrite ?app_nil in *; naive_solver).
Qed.

Lemma bind_nil {A B} (m : V A) (k : A -> V B) used b used' :
  (m ≫= k) used = Some ([], b, used') <-> exists a u, m used = Some ([], a, u) /\ k a u = Some ([], b, used').
Proof.
  unfold mbind, V_bind. split.
  - destruct (m used) as [[[e1 a] u]|]; [|done]. destruct (k a u) as [[[e2 b'] u']|] eqn:E; [|done].
    intros [= [-> ->]%app_nil -> ->]. eauto.
  - intros (a & u & -> & ->). done.
Qed.

Lemma emit_nil es used x used' : emit es used = Some ([], x, used') <-> es = [] /\ used' = used.
Proof. unfold emit. destruct x. naive_solver. Qed.

Lemma check_nil o used x used' : check o used = Some ([], x, used') <-> o = Some [] /\ used' = used.
Proof. unfold check. destruct x, o; naive_solver. Qed.

Lemma ret_nil {A} (a b : A) used used' : (mret a : V A) used = Some ([], b, used') <-> b = a /\ used' = used.
Proof. unfold mret, V_ret. naive_solver. Qed.

(** A loop that reports nothing runs every body without a report. *)
Lemma for_each_nil {A S} (body : A -> S -> V S) l s used s' used' :
  for_each body l s used = Some ([], s', used') ->
  Forall (fun x => exists s u s' u', body x s u = Some ([], s', u')) l.
Proof.
  revert s used. induction l as [|x l IH]; intros s used H; [constructor|]. cbn in H.
  apply bind_nil in H as (s1 & u1 & Hx & Hl). constructor; eauto.
Qed.

(** Take apart a sequence of checks. *)
Ltac accepted H :=
  lazymatch type of H with
  | (_ ≫= _) _ = Some ([], _, _) =>
      let a := fresh "a" in let u := fresh "u" in let H1 := fresh H in
      apply bind_nil in H as (a & u & H1 & H); accepted H1; accepted H
  | emit _ _ = Some ([], _, _) => apply emit_nil in H as [H ->]
  | check _ _ = Some ([], _, _) => apply check_nil in H as [H ->]
  | mret _ _ = Some ([], _, _) => apply ret_nil in H as [-> ->]
  | _ => idtac
  end.

(** ** The parts of an accepted protocol *)

Section accepted.
Context (sort : list Range -> list Range) (stod : string -> bool) (p : Protocol) (idx : TypeIndex) (fuel : nat).

Abbreviation children pl l := (validate_children sort stod p idx fuel pl l).

Definition quiet {A} (m : V A) : Prop := exists u a u', m u = Some ([], a, u').

Record accepts : Prop := {
  acc_constants : validate_constants p idx = Some [];
  acc_types : validate_types p = Some [];
  acc_structs : Forall (fun s => quiet (validate_struct_def sort stod p idx fuel s)) (proto_structs p);
  acc_messages : Forall (fun m => quiet (children (top_place false (msg_name m) true false) (msg_children m))) (proto_messages p);
  acc_frames : proto_frames p = [] \/ exists d, proto_frames p = [d]
    /\ quiet (validate_frame sort stod p idx fuel d) /\ message_id_errors p = [];
  acc_cycles : detect_struct_cycles p idx = Some [];
}.

Lemma loop_quiet {A} (g : A -> V unit) l u x u' :
  for_each (fun a _ => g a) l tt u = Some ([], x, u') -> Forall (fun a => quiet (g a)) l.
Proof.
  intros H%for_each_nil. eapply Forall_impl; [exact H|]. intros a (? & u1 & y & u2 & E). by exists u1, y, u2.
Qed.

Lemma validate_accepts : validate sort stod p idx fuel = Some [] -> accepts.
Proof.
  unfold validate. destruct (validate_all _ _ _ _ _ ∅) as [[[es x] u]|] eqn:E; [|done]. unfold validate_all in E. intros [= ->].
  apply bind_nil in E as (? & ? & E1 & E). apply bind_nil in E as (? & ? & E2 & E).
  apply bind_nil in E as (? & ? & E3 & E). apply bind_nil in E as (? & ? & E4 & E).
  apply bind_nil in E as (? & ? & E5 & E). apply bind_nil in E as (? & ? & E6 & E).
  apply check_nil in E2 as [E2 _], E3 as [E3 _], E as [E _].
  constructor; try done; [by eapply loop_quiet|by eapply loop_quiet|].
  unfold validate_frames in E6. destruct (proto_frames p) as [|d [|d' l]]; [by left| |right].
  - right. exists d. apply bind_nil in E6 as (? & ? & _ & E6). apply bind_nil in E6 as (? & ? & Hd & E6).
    apply emit_nil in E6 as [E6 _]. apply loop_quiet in Hd. rewrite Forall_singleton in Hd. done.
  - apply bind_nil in E6 as (? & ? & H & _). by apply emit_nil in H as [? _].
Qed.

(** ** Fields of an accepted list *)

Lemma accepted_fields pl l f :
  quiet (children pl l) -> f ∈ top_fields l ->
  validate_field stod p idx f (in_bitmap pl) (parent_name pl) (in_fx pl) (in_frame pl) = Some [].
Proof.
  intros (u & x & u' & H) Hf. apply bind_nil in H as (sc & u1 & H & _).
  apply for_each_nil in H. rewrite Forall_forall in H.
  apply list_elem_of_omap in Hf as (c & Hc & E). destruct c; simplify_eq.
  destruct (H _ Hc) as (s & u2 & s' & u3 & Hs). cbn in Hs. unfold field_step in Hs.
  apply bind_nil in Hs as (? & ? & _ & Hs). apply bind_nil in Hs as (? & ? & Hs & _).
  by apply check_nil in Hs as [Hs _].
Qed.

Lemma accepted_field_named b n fx fr f : validate_field stod p idx f b n fx fr = Some [] -> f_name f <> "".
Proof.
  unfold validate_field. rewrite both_nil. intros [[= H] _]. unfold shape_errors in H.
  apply app_nil in H as [H _]. rewrite when_report_nil in H. unfold is_empty in H. by apply String.eqb_neq in H.
Qed.

(** ** The automatic fields of a frame *)

Definition is_auto_length (f : Field) : bool :=
  match f_auto_expr f with Some a => match auto_kind a with AutoLength => true | _ => false end | None => false end.

Definition count (q : Field -> bool) (l : list Field) : Z := len (List.filter q l).

Lemma count_cons q f l : count q (f :: l) = (if q f then 1 else 0) + count q l.
Proof. unfold count, len. cbn. destruct (q f); cbn; lia. Qed.

Lemma frame_autos_counted n l st es st' :
  check_auto_fields p idx n l st = Some (es, st') ->
  auto_id_count st' = auto_id_count st + count is_auto_id l
  /\ auto_length_count st' = auto_length_count st + count is_auto_length l.
Proof.
  revert st es. induction l as [|f l IH]; intros st es H; cbn in H.
  { simplify_eq. unfold count, len. cbn. lia. }
  assert (Hid : is_auto_id f = match f_auto_expr f with
      | Some a => match auto_kind a with AutoId => true | _ => false end | None => false end) by done.
  assert (Hlen : is_auto_length f = match f_auto_expr f with
      | Some a => match auto_kind a with AutoLength => true | _ => false end | None => false end) by done.
  rewrite !count_cons, Hid, Hlen. clear Hid Hlen.
  destruct (f_auto_expr f) as [a|]; [destruct (auto_kind a)|]; cbn in H; unfold frame_id_step, frame_length_step in H;
    repeat (destruct (known_width _ _ _ _); [|done]; cbn in H);
    repeat (destruct (if is_empty _ then _ else _); [|done]; cbn in H);
    (destruct (check_auto_fields _ _ _ l _) as [[]|] eqn:E; simplify_eq/=; apply IH in E; cbn in E; lia).
Qed.

Lemma accepted_frame d :
  quiet (validate_frame sort stod p idx fuel d) ->
  count is_auto_id (frame_fields d) = 1 /\ count is_auto_length (frame_fields d) <= 1
  /\ Forall (fun f => f_name f <> "") (frame_fields d).
Proof.
  intros (u & x & u' & H). unfold validate_frame in H.
  apply bind_nil in H as (? & ? & Hh & H). apply bind_nil in H as (? & ? & Hf & H).
  apply check_nil in H as [H _]. unfold frame_errors in H.
  destruct (check_auto_fields _ _ _ _ _) as [[e1 st]|] eqn:E; [|done]. cbn in H.
  destruct (scan_messages _ _ _ _ _) as [[e2 ?]|]; [|done]. cbn in H.
  destruct (id_value_names _ _ _); [|done]. cbn in H. injection H as H. rewrite !app_nil in H.
  destruct H as (_ & _ & _ & _ & Hid & Hlen & _). apply frame_autos_counted in E as [Ei El]. cbn in Ei, El.
  split_and!.
  - destruct (Z.eqb_spec (auto_id_count st) 0); [done|]. rewrite when_report_nil in Hid.
    apply Z.ltb_ge in Hid. unfold count, len in *. lia.
  - rewrite when_report_nil in Hlen. apply Z.ltb_ge in Hlen. lia.
  - apply Forall_app. split; apply Forall_forall; intros f Hin;
      (eapply accepted_field_named, accepted_fields; [|exact Hin]; by eexists _, _, _).
Qed.

(** Two messages with one id have one direction each. *)
Definition lanes (a b : MessageDef) : Prop :=
  msg_id a = msg_id b ->
  msg_direction a = DirSend /\ msg_direction b = DirReceive \/ msg_direction a = DirReceive /\ msg_direction b = DirSend.

Lemma same_id_lanes a b : same_id_errors a b = [] -> lanes a b.
Proof.
  unfold same_id_errors, lanes. intros H E. rewrite (proj2 (String.eqb_eq _ _) E) in H. cbn in H.
  destruct (msg_direction a), (msg_direction b); naive_solver.
Qed.

Lemma accepted_ids :
  message_id_errors p = [] ->
  Forall (fun m => msg_id m <> "") (proto_messages p) /\ ForallOrdPairs lanes (proto_messages p).
Proof.
  unfold message_id_errors. intros [H1 H2]%app_nil.
  assert (Hne : Forall (fun m => negb (is_empty (msg_id m)) = true) (proto_messages p)).
  { apply flat_map_nil in H1. eapply Forall_impl; [exact H1|]. intros m H. rewrite when_report_nil in H. by rewrite H. }
  rewrite (List.forallb_filter_id _ _) in H2 by (by apply forallb_forall; rewrite <- List.Forall_forall).
  split.
  - eapply Forall_impl; [exact Hne|]. intros m H%negb_true_iff. by apply String.eqb_neq.
  - clear H1 Hne. induction (proto_messages p) as [|m l IH]; constructor; cbn in H2; apply app_nil in H2 as [H2 H3].
    + apply flat_map_nil in H2. eapply Forall_impl; [exact H2|]. apply same_id_lanes.
    + by apply IH.
Qed.
End accepted.

(** ** The id field of a session *)

Section session_ids.
Context (p : Protocol) (idx : TypeIndex).

Lemma header_auto_id f n b h h' : header_auto p idx f n b h = Some h' ->
  id_field_name h' = if is_auto_id f then f_name f else id_field_name h.
Proof.
  unfold header_auto, is_auto_id. destruct (f_auto_expr f) as [a|]; [|congruence]. destruct (auto_kind a); try congruence.
  - by intros [= <-].
  - destruct (resolve_signed p idx f); [|done]. by intros [= <-].
  - by intros [= <-].
  - destruct (config_field p idx f a b); [|done]. by intros [= <-].
Qed.

Lemma header_sync_id f h h' : header_sync p idx f h = Some h' -> id_field_name h' = id_field_name h.
Proof.
  assert (forall v r e, parse_sync_bytes p idx v r e h = Some h' -> id_field_name h' = id_field_name h) as H.
  { intros v r e. unfold parse_sync_bytes. destruct (parse_sync_value (txt v)); [|congruence].
    destruct (type_at p idx r) as [t|]; [|done]. cbn. destruct (sync_bytes e (sync_width t) z); [|done]. cbn. by intros [= <-]. }
  unfold header_sync. destruct (f_constraint f) as [c|]; [|congruence]. destruct (equals c) as [eq|]; [|congruence].
  destruct (idx_constants idx !! eq); [|apply H]. destruct (proto_constants p !! n); [|done]. apply H.
Qed.

(** The last id field of the header gives the name. *)
Lemma scan_header_id l n h n' h' : scan_header p idx l n h = Some (n', h') ->
  id_field_name h' = fold_left (fun _ f => f_name f) (List.filter is_auto_id (top_fields l)) (id_field_name h).
Proof.
  revert n h. induction l as [|c l IH]; intros n h; [cbn; congruence|].
  destruct c as [f|s| | | | |]; cbn [scan_header]; try apply IH.
  - change (top_fields (ChField f :: l)) with (f :: top_fields l).
    destruct (resolve_field_bits p idx f) as [b|]; [|done]. cbn [mbind option_bind].
    destruct (header_auto p idx f n b h) as [h1|] eqn:E1; [|done]. cbn [mbind option_bind].
    destruct (header_sync p idx f h1) as [h2|] eqn:E2; [|done]. intros H. rewrite (IH _ _ H).
    rewrite (header_sync_id _ _ _ E2), (header_auto_id _ _ _ _ _ E1). cbn [List.filter]. by destruct (is_auto_id f).
  - destruct_if; [apply IH|]. destruct (compute_fixed_size_bits p idx (sd_children s) 0); [|done]. apply IH.
Qed.

(** Where one of the fields of a frame is its id, and it is in the header. *)
Lemma only_id d f :
  count is_auto_id (frame_fields d) = 1 -> f ∈ top_fields (header_fields d) -> is_auto_id f = true ->
  List.filter is_auto_id (top_fields (header_fields d)) = [f].
Proof.
  unfold count, frame_fields, len. rewrite List.filter_app, length_app. intros Hc Hf Hid.
  assert (In f (List.filter is_auto_id (top_fields (header_fields d)))) as Hin
    by (apply filter_In; by rewrite <- list_elem_of_In).
  destruct (List.filter is_auto_id (top_fields (header_fields d))) as [|g [|]]; cbn in *; [done| |lia].
  by destruct Hin as [->|].
Qed.
End session_ids.

(** Leaf types of a session that are told apart by their id or their direction. *)
Definition leaf_lanes (a b : LeafTypeInfo) : Prop :=
  leaf_constraints a = leaf_constraints b ->
  send_only a = true /\ receive_only b = true \/ receive_only a = true /\ send_only b = true.

Lemma ForallOrdPairs_image {A B} (R : A -> B -> Prop) (P : A -> A -> Prop) (Q : B -> B -> Prop) xs ys :
  (forall x x' y y', P x x' -> R x y -> R x' y' -> Q y y') -> Forall2 R xs ys -> ForallOrdPairs P xs -> ForallOrdPairs Q ys.
Proof.
  intros H HR. induction HR as [|x y xs ys Hxy HR IH]; intros HP; [constructor|].
  inversion_clear HP as [|? ? Hx Hxs]. constructor; [|by apply IH]. clear IH Hxs.
  induction HR as [|x' y' xs ys Hxy' _ IH]; [constructor|]. inversion_clear Hx. constructor; eauto.
Qed.

Section dispatch.
Context (char_is_signed : bool) (sort : list Range -> list Range) (stod : string -> bool) (fuel : nat).

Lemma leaves_apart p id ms leaves top :
  id <> "" -> Forall (fun m => msg_id m <> "") ms -> ForallOrdPairs lanes ms ->
  Forall2 (leaf_of char_is_signed p id top) ms leaves -> ForallOrdPairs leaf_lanes leaves.
Proof.
  intros Hid Hne Hl H. eapply (ForallOrdPairs_image (fun m leaf => msg_id m <> "" /\ leaf_of char_is_signed p id top m leaf) lanes); [| |done].
  - intros a b la lb Hab [Ha [_ _ Ca [Sa Ra] _ _]] [Hb [_ _ Cb [Sb Rb] _ _]] E.
    rewrite Ca, Cb, (proj2 (String.eqb_neq _ _) Ha), (proj2 (String.eqb_neq _ _) Hb), (proj2 (String.eqb_neq _ _) Hid) in E.
    cbn in E. injection E as E. destruct (Hab E) as [[]|[]]; [left|right]; split; naive_solver.
  - clear Hl. induction H as [|m leaf ms leaves Hm _ IH]; constructor; inversion_clear Hne; auto.
Qed.

Lemma leaves_constrained p id ms leaves top :
  id <> "" -> Forall (fun m => msg_id m <> "") ms -> Forall2 (leaf_of char_is_signed p id top) ms leaves ->
  Forall2 (fun m leaf => leaf_constraints leaf = [(id, msg_id m)]) ms leaves.
Proof.
  intros Hid Hne H. induction H as [|m leaf ms leaves [_ _ C _ _ _] _ IH]; constructor; inversion_clear Hne; auto.
  by rewrite C, (proj2 (String.eqb_neq _ _) H), (proj2 (String.eqb_neq _ _) Hid).
Qed.

Lemma analyzed_frame p idx fuel' d si :
  analyze_frame char_is_signed p idx fuel' d = Some si ->
  si_frame si = d
  /\ id_field_name (si_header si) = fold_left (fun _ f => f_name f) (List.filter is_auto_id (top_fields (header_fields d))) "".
Proof.
  unfold analyze_frame. destruct (scan_header _ _ _ _ _) as [[hb h]|] eqn:Eh; [|done]. apply scan_header_id in Eh. cbn.
  destruct (footer_bits _ _ _ _); [|done]. cbn. destruct (frame_autos _ _ AutoIncrement _); [|done]. cbn.
  destruct (frame_autos _ _ AutoTimestamp _); [|done]. cbn. destruct (mapM _ _); [|done]. cbn. by intros [= <-].
Qed.

(** C18: on a protocol that passes the resolver and the validator, the session
    analysis returns at most one session.  If the id field of the frame is in its
    header, every leaf type of the session has the id of its message as its
    constraint on that field, and two leaf types with the same id have opposite
    directions: what is received, or sent, under an id has one type. *)
Theorem accepted_ids_select_one_leaf (p p' : Protocol) (idx : TypeIndex) :
  literals_defined p -> resolve_types p = Some (Resolved idx, p') -> analyzable p' ->
  validate sort stod p' idx fuel = Some [] ->
  exists F, forall fuel', (F <= fuel')%nat ->
    exists sessions, analyze_sessions char_is_signed p' idx fuel' = Some sessions
      /\ (length sessions <= 1)%nat
      /\ forall si f, si ∈ sessions -> f ∈ top_fields (header_fields (si_frame si)) -> is_auto_id f = true ->
           Forall2 (fun m leaf => leaf_constraints leaf = [(f_name f, msg_id m)]) (proto_messages p') (leaf_types si)
           /\ ForallOrdPairs leaf_lanes (leaf_types si).
Proof.
  intros Hl E Hok Hv. pose proof (resolved_index p p' idx Hl E) as Hidx.
  destruct (validate_accepts _ _ _ _ _ Hv) as [_ _ _ _ Hframes Hc].
  destruct (detect_cycles_spec p' idx) as (es & D & _ & A). rewrite Hc in D. injection D as <-.
  destruct (frame_session char_is_signed p' idx Hok (A eq_refl)) as [F HF]. exists F. intros fuel' Hle.
  unfold analyze_sessions. destruct Hframes as [->|(d & Ed & Hd & Hids)].
  { exists []. split_and!; [done|cbn; lia|]. by intros ? ? ?%elem_of_nil. }
  destruct (HF fuel' Hle d) as (si & Es & Hsi); [rewrite Ed; by left|].
  rewrite Ed. cbn. rewrite Es. cbn. eexists. split; [done|]. split; [destruct_if; cbn; lia|].
  intros si' f Hin Hf Hid. assert (si' = si) as ->.
  { destruct (check_type_id_collisions _ _ _); [by apply list_elem_of_singleton in Hin|by apply elem_of_nil in Hin]. }
  destruct (accepted_frame _ _ _ _ _ _ Hd) as (Hone & _ & Hnames). destruct (accepted_ids _ Hids) as [Hne Hlanes].
  destruct (analyzed_frame _ _ _ _ _ Es) as [Hfr Hidn]. rewrite Hfr in Hf.
  rewrite (only_id _ _ Hone Hf Hid) in Hidn. cbn in Hidn. assert (f_name f <> "") as Hfn.
  { rewrite Forall_forall in Hnames. apply Hnames. unfold frame_fields. rewrite elem_of_app. by left. }
  destruct Hsi as [_ Hleaves]. rewrite Hidn in Hleaves.
  split; [by eapply leaves_constrained|by eapply leaves_apart].
Qed.
End dispatch.

Lemma accepted_ids_select_one_leaf_witness :
  exists idx p' F sessions, resolve_types framed = Some (Resolved idx, p')
    /\ validate stable_sort (fun _ => true) p' idx 10 = Some []
    /\ analyze_sessions true p' idx F = Some sessions /\ (length sessions <= 1)%nat.
Proof.
  destruct (resolve_types framed) as [[[idx|] p']|] eqn:E; [|vm_compute in E; discriminate..].
  destruct (accepted_ids_select_one_leaf true stable_sort (fun _ => true) 10 framed p' idx) as [F HF].
  - exact framed_literals_defined.
  - exact E.
  - apply analyzable_checked; vm_compute in E; injection E as <- <-;
      repeat first [apply Forall_nil; exact I | apply Forall_cons; split | exact I | (vm_compute; discriminate)].
  - vm_compute in E. injection E as <- <-. vm_compute. reflexivity.
  - destruct (HF F (le_n F)) as (sessions & Es & Hs & _). exists idx, p', F, sessions. split_and!; [done| |done|done].
    vm_compute in E. injection E as <- <-. vm_compute. reflexivity.
Defined.

(** ** What is accepted all the same *)

(** Resolve the types of a protocol, validate it, and pass on what is accepted. *)
Definition accepted_sessions (p : Protocol) (fuel : nat) : option (errors * list SessionInfo) :=
  '(r, p') ← resolve_types p;
  match r with
  | Resolved idx =>
      es ← validate stable_sort (fun _ => true) p' idx fuel;
      sessions ← analyze_sessions true p' idx fuel;
      Some (es, sessions)
  | Unresolved _ => None
  end.

Definition leaf_ids (si : SessionInfo) : list (string * list (string * string)) :=
  map (fun l => (leaf_name l, leaf_constraints l)) (leaf_types si).

(** Ids are compared as they are written: two spellings of the same number, in
    the same direction, are accepted, and both leaf types carry it. *)
Example same_number_two_spellings :
  let p := mkProtocol "Demo" "1" "2" new_defaults [] [] (proto_types sample_protocol) []
             [mkMessageDef "ping" [] "1" DirSend false [] "" unknown_loc;
              mkMessageDef "pong" [] "0x01" DirSend false [] "" unknown_loc]
             [sample_frame sample_header] [] "" unknown_loc in
  option_map (fun '(es, l) => (es, map leaf_ids l)) (accepted_sessions p 10)
  = Some ([], [[("ping", [("kind", "1")]); ("pong", [("kind", "0x01")])]]).
Proof. vm_compute. reflexivity. Qed.

(** The id field may stand in the footer, where the session analysis does not
    look for it: the leaf types then carry no constraint at all. *)
Example footer_id_not_used :
  let f := mkFrameDef "link" [ChField (header_field "seq" "u8" None (Some AutoIncrement) None)]
             (mkPayload false None unknown_loc) [ChField (header_field "kind" "u8" None (Some AutoId) None)] [] "" unknown_loc in
  let p := mkProtocol "Demo" "1" "2" new_defaults [] [] (proto_types sample_protocol) []
             [mkMessageDef "ping" [] "1" DirSend false [] "" unknown_loc;
              mkMessageDef "pong" [] "2" DirSend false [] "" unknown_loc] [f] [] "" unknown_loc in
  option_map (fun '(es, l) => (es, map leaf_ids l)) (accepted_sessions p 10) = Some ([], [[("ping", []); ("pong", [])]]).
Proof. vm_compute. reflexivity. Qed.
