(* ===== verification/ValidatorTotal.v ===== *)
(** * The validator returns

    [Validator::validate] follows references through three searches of its own:
    the names an inline field brings in, the size of an array element and the
    configuration keys of a message.  Only the first is guarded against recursive
    types, and the check that rejects them runs last.  This file shows that the
    validator returns on every protocol without recursive types, and protocols on
    which it does not. *)

From stdpp Require Import base numbers list gmap strings pretty.
From Stdlib Require Import ZArith Lia.
From S2P Require Import Prelude CharConv AutoExpr ExprParser Ast AstBuilder TypeResolver ProtocolIndex Validation StructCycles CaseOverlap WireSizer SessionAnalyzer Names TypeChecks FieldChecks Validator ValidatorSpec.

Open Scope Z_scope.
Open Scope check_scope.

(** ** Computations that return *)

Definition runs {A} (m : V A) : Prop := forall used, is_Some (m used).

Lemma runs_bind {A B} (m : V A) (k : A -> V B) : runs m -> (forall a, runs (k a)) -> runs (m ≫= k).
Proof.
  intros Hm Hk used. unfold mbind, V_bind. destruct (Hm used) as [[[e1 a] u] ->]. destruct (Hk a u) as [[[e2 b] u'] ->]. done.
Qed.

Lemma runs_ret {A} (a : A) : runs (mret a).
Proof. intros used. by eexists. Qed.

Lemma runs_emit es : runs (emit es).
Proof. intros used. by eexists. Qed.

Lemma runs_check o : is_Some o -> runs (check o).
Proof. intros [es ->] used. done. Qed.

Lemma runs_for_each {A S} (body : A -> S -> V S) l s : Forall (fun x => forall s, runs (body x s)) l -> runs (for_each body l s).
Proof. intros H. revert s. induction H as [|x l Hx _ IH]; intros s; cbn; [apply runs_ret|]. by apply runs_bind. Qed.

Create HintDb runs.
#[export] Hint Resolve runs_bind runs_ret runs_emit runs_check runs_for_each : runs.

Lemma both_some a b : is_Some a -> is_Some b -> is_Some (a +++ b).
Proof. intros [x ->] [y ->]. done. Qed.

Lemma bind_some {A B} (o : option A) (k : A -> option B) : is_Some o -> (forall a, o = Some a -> is_Some (k a)) -> is_Some (o ≫= k).
Proof. intros [a ->] H. by apply H. Qed.

Lemma some_some {A} (a : A) : is_Some (Some a).
Proof. done. Qed.
#[export] Hint Resolve both_some some_some : runs.

(** ** Eventually, as the fuel grows *)

Definition eventually (P : nat -> Prop) : Prop := exists F, forall n, (F <= n)%nat -> P n.

Lemma eventually_always (P : nat -> Prop) : (forall n, P n) -> eventually P.
Proof. exists 0%nat. auto. Qed.

Lemma eventually_and P Q : eventually P -> eventually Q -> eventually (fun n => P n /\ Q n).
Proof. intros [F HF] [G HG]. exists (F `max` G)%nat. intros n Hn. split; [apply HF|apply HG]; lia. Qed.

Lemma eventually_mono (P Q : nat -> Prop) : (forall n, P n -> Q n) -> eventually P -> eventually Q.
Proof. intros H [F HF]. exists F. auto. Qed.

Lemma eventually_S (P Q : nat -> Prop) : (forall n, P n -> Q (S n)) -> eventually P -> eventually Q.
Proof. intros H [F HF]. exists (S F). intros [|n] Hn; [lia|]. apply H, HF. lia. Qed.

Lemma eventually_list {A} (P : A -> nat -> Prop) (l : list A) :
  (forall x, x ∈ l -> eventually (P x)) -> eventually (fun n => forall x, x ∈ l -> P x n).
Proof.
  induction l as [|x l IH]; intros H.
  { apply eventually_always. by intros n x ?%elem_of_nil. }
  eapply eventually_mono; [|apply eventually_and; [apply (H x); by left|apply IH; intros; apply H; by right]].
  intros n [Hx Hl] y [->|Hy]%elem_of_cons; auto.
Qed.

(** ** What the checks of single definitions need *)

(** The choices at or below an element. *)
Fixpoint choices_of (c : StructChild) : list ChoiceDef :=
  match c with
  | ChStruct s => flat_map choices_of (sd_children s)
  | ChArray a => flat_map choices_of (ad_children a)
  | ChChoice c =>
      c :: flat_map (fun cs => flat_map choices_of (case_children cs)) (ch_cases c)
      ++ match ch_otherwise c with Some o => flat_map choices_of (ow_children o) | None => [] end
  | ChFx x => flat_map choices_of (fx_children x)
  | ChField _ | ChReserved _ | ChAlign _ => []
  end.

Definition protocol_choices (p : Protocol) : list ChoiceDef := flat_map choices_of (all_children p).

Definition text_defined (s : string) : Prop := parse_literal (txt s) <> None.

Definition constraint_texts (c : option Constraint) : list string :=
  match c with Some c => omap id [equals c; min_ c; max_ c] | None => [] end.

(** The evaluation of a protocol does not overflow: no literal on which
    [parse_literal] does, and no byte size whose bits do not fit an [int]. *)
Record no_overflow (p : Protocol) : Prop := {
  no_types : forall t s, t ∈ proto_types p -> s ∈ constraint_texts (td_constraint t) -> text_defined s;
  no_fields : forall f s, f ∈ protocol_fields p -> s ∈ constraint_texts (f_constraint f) -> text_defined s;
  no_bytes : forall f n, f ∈ protocol_fields p -> f_bytes_attr f = Some n -> -268435456 <= n <= 268435455;
  no_constants : forall k, k ∈ proto_constants p -> text_defined (const_value k);
  no_cases : forall c cs s, c ∈ protocol_choices p -> cs ∈ ch_cases c -> s ∈ case_texts cs -> text_defined s;
}.

Definition field_defined (f : Field) : Prop :=
  (forall s, s ∈ constraint_texts (f_constraint f) -> text_defined s)
  /\ (forall n, f_bytes_attr f = Some n -> -268435456 <= n <= 268435455).

Definition choice_defined (c : ChoiceDef) : Prop :=
  forall cs s, cs ∈ ch_cases c -> s ∈ case_texts cs -> text_defined s.

Definition child_defined (c : StructChild) : Prop :=
  (forall f, f ∈ fields_of [c] -> field_defined f) /\ (forall ch, ch ∈ choices_of c -> choice_defined ch).

Section checks.
Context (stod : string -> bool) (p : Protocol) (idx : TypeIndex) `{!Indexes p idx}.

Lemma type_at_some r : is_Some (type_at p idx r).
Proof. destruct (type_at_spec p idx r) as (t & -> & _). done. Qed.
#[local] Hint Resolve type_at_some : runs.

Lemma parse_some s : text_defined s -> is_Some (parse_literal (txt s)).
Proof. unfold text_defined. destruct (parse_literal (txt s)); done. Qed.

Lemma validate_constraint_some c who : (forall s, s ∈ constraint_texts (Some c) -> text_defined s) -> is_Some (validate_constraint c who).
Proof.
  intros H. unfold constraint_texts in H. unfold validate_constraint. apply both_some; [done|].
  destruct (min_ c) as [a|] eqn:Ea, (max_ c) as [b|] eqn:Eb; try done.
  assert (forall s, s ∈ [a; b] -> text_defined s) as H'.
  { intros s Hs. apply H. apply list_elem_of_omap. exists (Some s). cbn. set_solver. }
  apply bind_some; [apply parse_some, H'; set_solver|intros ? _]. apply bind_some; [apply parse_some, H'; set_solver|done].
Qed.

Lemma octet_bits_some n : -268435456 <= n <= 268435455 -> is_Some (octet_bits n).
Proof.
  intros H. unfold octet_bits, INT_MIN, INT_MAX. rewrite (proj2 (Z.leb_le _ _)), (proj2 (Z.leb_le _ _)) by lia. done.
Qed.

Lemma resolve_base_some f : is_Some (resolve_base p idx f).
Proof. unfold resolve_base. destruct (f_base f); [done|]. destruct (is_empty _); [done|]. apply bind_some; [apply type_at_some|done]. Qed.

Lemma field_width_some f : field_defined f -> is_Some (field_width p idx f).
Proof.
  intros [_ H]. unfold field_width. destruct (f_bits f); [done|]. destruct (f_bytes_attr f); [by apply octet_bits_some, H|].
  destruct (is_empty _); [done|]. apply bind_some; [apply type_at_some|done].
Qed.

Lemma known_width_some f old : field_defined f -> is_Some (known_width p idx f old).
Proof.
  intros [_ H]. unfold known_width. destruct (f_bits f); [done|]. destruct (f_bytes_attr f); [by apply octet_bits_some, H|].
  destruct (is_empty _); [done|]. apply bind_some; [apply type_at_some|done].
Qed.

#[local] Hint Resolve resolve_base_some field_width_some validate_constraint_some parse_some : runs.

Lemma bound_errors_some f c sg bits label v :
  (forall s, v = Some s -> text_defined s) -> is_Some (bound_errors f c sg bits label v).
Proof. intros H. unfold bound_errors. destruct v as [s|]; [|done]. apply bind_some; [by apply parse_some, H|done]. Qed.

Lemma constraint_text c s : Some s ∈ [equals c; min_ c; max_ c] -> s ∈ constraint_texts (Some c).
Proof. intros H. apply list_elem_of_omap. by exists (Some s). Qed.

Lemma range_errors_some f c bits :
  (forall s, s ∈ constraint_texts (Some c) -> text_defined s) -> is_Some (constraint_range_errors p idx f c bits).
Proof.
  intros H. unfold constraint_range_errors. destruct_if; [|done]. apply bind_some; [apply resolve_base_some|intros b _].
  repeat apply both_some; apply bound_errors_some; intros s E; apply H, constraint_text; [|set_solver..].
  destruct (equals c) as [e|]; [|done]. destruct (is_valid_numeric_literal e); simplify_eq. set_solver.
Qed.

Lemma auto_errors_some f in_fx in_frame : field_defined f -> is_Some (auto_errors p idx f in_fx in_frame).
Proof.
  intros H. unfold auto_errors. destruct (f_auto_attr f); [|done]. destruct (f_auto_expr f) as [a|]; [|done].
  unfold auto_expr_errors. destruct (auto_kind a); try done;
    repeat (apply bind_some; [by eauto with runs|intros ? _]); done.
Qed.

Lemma default_errors_some f : field_defined f -> is_Some (default_errors stod p idx f).
Proof.
  intros H. unfold default_errors. destruct (f_default_value f); [|done]. apply both_some; [done|].
  apply bind_some; [|intros l _; destruct l; [destruct (f_enum_values f); [|done]|done]].
  - unfold type_enum_values. destruct (is_empty _); [done|]. destruct (find idx _) as [[i|i|i]|] eqn:E; try done.
    destruct (find_type_lookup p idx _ i E) as (t & -> & _). done.
  - unfold plain_default_errors. repeat (apply bind_some; [by eauto with runs|intros ? _]). done.
Qed.

Lemma equals_errors_some f c eq : is_Some (equals_errors p idx f c eq).
Proof.
  unfold equals_errors, equals_constant_errors. destruct (is_constant_ref eq).
  - destruct (idx_constants idx !! eq) as [i|] eqn:E; [|done].
    destruct (index_constant_lookup p idx eq i E) as (k & -> & _). cbn [mbind option_bind].
    apply bind_some; [by eauto with runs|intros ? _]. destruct_if; [done|]. apply bind_some; [by eauto with runs|done].
  - destruct_if; [done|]. destruct_if; [done|]. destruct_if; [done|]. apply bind_some; [by eauto with runs|done].
Qed.

Lemma validate_field_some f in_bitmap parent in_fx in_frame :
  field_defined f -> is_Some (validate_field stod p idx f in_bitmap parent in_fx in_frame).
Proof.
  intros H. assert (forall check : Constraint -> option errors,
    (forall c, (forall s, s ∈ constraint_texts (Some c) -> text_defined s) -> is_Some (check c)) ->
    is_Some (on_constraint f check)) as Hc.
  { intros check Hck. unfold on_constraint. destruct (f_constraint f) as [c|] eqn:E; [|done]. apply Hck. rewrite <- E. apply H. }
  unfold validate_field. apply both_some; [done|]. apply both_some; [by apply auto_errors_some|].
  apply both_some; [by apply default_errors_some|]. apply both_some; [done|].
  apply both_some.
  { unfold char_bits_errors. destruct (f_char_bits f); [|done]. apply bind_some; [by eauto with runs|done]. }
  apply both_some.
  { unfold length_prefix_errors. destruct (f_length_prefix f); [|done]. apply bind_some; [by eauto with runs|done]. }
  apply both_some.
  { apply Hc. intros c _. destruct (equals c); [apply equals_errors_some|done]. }
  apply both_some; [done|]. apply both_some.
  { unfold scale_errors. apply both_some; [|done]. destruct_if; [|done]. apply bind_some; [by eauto with runs|done]. }
  apply both_some; [apply Hc; by eauto with runs|].
  apply bind_some; [by eauto with runs|intros bits _]. apply both_some; [done|].
  apply both_some; [apply Hc; intros c; apply range_errors_some|].
  unfold wire_encoding_errors. destruct (f_wire_encoding f); [|done]. apply bind_some; [by eauto with runs|done].
Qed.

Lemma validate_constants_some : (forall k, k ∈ proto_constants p -> text_defined (const_value k)) -> is_Some (validate_constants p idx).
Proof.
  unfold validate_constants. generalize (∅ : gset string). induction (proto_constants p) as [|c l IH]; intros names H; cbn [constants_loop]; [done|].
  apply both_some; [|apply IH; intros; apply H; by right]. unfold constant_errors. apply both_some; [done|].
  destruct_if; [done|]. apply bind_some; [by eauto with runs|intros t _]. destruct t as [t|]; [|done].
  unfold constant_value_errors. destruct_if; [done|]. destruct_if; [done|]. destruct_if; [|done].
  apply bind_some; [|done]. apply parse_some, H. by left.
Qed.

Lemma validate_types_some :
  (forall t s, t ∈ proto_types p -> s ∈ constraint_texts (td_constraint t) -> text_defined s) -> is_Some (validate_types p).
Proof.
  unfold validate_types. induction (proto_types p) as [|t l IH]; intros H; cbn [types_loop]; [done|].
  apply both_some; [|apply IH; intros t' ? ?; apply (H t'); by right]. unfold validate_type. apply both_some; [done|].
  apply both_some; [|done]. destruct (td_constraint t) as [c|] eqn:E; [|done]. apply validate_constraint_some.
  rewrite <- E. intros s. apply H. by left.
Qed.
End checks.

(** ** The searches through references *)

Section searches.
Context (p : Protocol) (idx : TypeIndex) `{!Indexes p idx}.

(** What a reference leads to. *)
Lemma composite_body_cases r d : find idx r = Some d ->
  composite_body p d = Some None
  \/ exists n cs, composite_body p d = Some (Some (n, cs)) /\ body p r cs /\ r ∈ composite_names p.
Proof.
  intros D%(index_find p idx). destruct d as [i|i|i]; cbn in *; [by left|right..].
  - destruct (proto_structs p !! i) as [s|] eqn:Es; [|done]. injection D as <-. cbn. do 2 eexists.
    assert (s ∈ proto_structs p) by by eapply list_elem_of_lookup_2.
    split_and!; [done|left; by exists s|]. apply elem_of_app. left. by apply list_elem_of_fmap_2.
  - destruct (proto_messages p !! i) as [m|] eqn:Em; [|done]. injection D as <-. cbn. do 2 eexists.
    assert (m ∈ proto_messages p) by by eapply list_elem_of_lookup_2.
    split_and!; [done|right; by exists m|]. apply elem_of_app. right. by apply list_elem_of_fmap_2.
Qed.

(** The first search is guarded: it never enters a reference it is visiting. *)
Definition searched (st : InlineState) (o : option (errors * InlineState)) : Prop :=
  exists es st', o = Some (es, st') /\ visiting st ⊆ visiting st'.

Lemma inline_loop_searched dup parent def l st :
  (forall r st', visiting st ⊆ visiting st' -> searched st' (dup r st')) -> searched st (inline_loop dup parent def l st).
Proof.
  revert st. induction l as [|c l IH]; intros st H; [by exists [], st|].
  destruct c as [f| | | | | |]; cbn [inline_loop]; try by apply IH.
  set (st1 := if is_empty (f_name f) then st else _). assert (visiting st1 = visiting st) as V1 by (subst st1; by destruct (is_empty _)).
  assert (searched st1 (if f_is_inline f && negb (is_empty (f_type_ref f)) then dup (f_type_ref f) st1 else Some ([], st1)))
    as (e2 & st2 & -> & V2).
  { destruct (_ && _); [apply H; by rewrite V1|by exists [], st1]. }
  cbn [mbind option_bind]. rewrite V1 in V2. destruct (IH st2) as (e3 & st3 & -> & V3); [intros; apply H; set_solver|].
  cbn. do 2 eexists. split; [done|]. set_solver.
Qed.

Lemma inline_duplicates_searched n parent r st :
  (size (unvisited p (visiting st)) < n)%nat -> searched st (check_inline_duplicates p idx n parent r st).
Proof.
  revert r st. induction n as [|n IH]; intros r st Hn; [lia|]. cbn [check_inline_duplicates].
  destruct (is_empty r); [by exists [], st|]. case_bool_decide as Hv; [by exists [], st|].
  set (st1 := mkInline _ _). destruct (find idx r) as [d|] eqn:E; [|exists [], st1; split; [done|cbn; set_solver]].
  destruct (composite_body_cases r d E) as [->|(m & cs & -> & _ & Hc)]; cbn [mbind option_bind].
  - do 2 eexists. split; [done|]. cbn. set_solver.
  - destruct (inline_loop_searched (check_inline_duplicates p idx n parent) parent m cs st1) as (es & st2 & -> & V2).
    + intros r' st' V. apply IH. apply (unvisited_mono p) in V. cbn in V.
      rewrite <- (unvisited_less p (visiting st) r) in Hn by done. lia.
    + cbn. do 2 eexists. split; [done|]. cbn in *. set_solver.
Qed.

Lemma contains_of_holds r cs b : body p r cs -> holds p false cs b -> follows p r b.
Proof. intros [(s & ? & ? & <-)|(m & ? & ? & <-)] ?; [left|right]; eauto. Qed.

(** The size of an element: a reference that is no struct or message ends it. *)
Lemma child_fixed_some ref_fixed c :
  (forall r, holds p false [c] r \/ r ∉ composite_names p -> is_Some (ref_fixed r)) -> is_Some (child_fixed_size ref_fixed c).
Proof.
  induction c as [f|s IH|a IH|c IHc IHo|x IH|r|a] using child_ind; intros H; cbn [child_fixed_size]; try done.
  - destruct_if; [done|]. destruct_if; [done|]. destruct (is_empty (f_type_ref f)) eqn:E; [done|]. apply H.
    destruct (decide (f_type_ref f ∈ composite_names p)) as [Hc|]; [left|by right].
    apply holds_field; [by left| |done]. intros E'. by rewrite E' in E.
  - assert (Forall (fun c => is_Some (child_fixed_size ref_fixed c)) (sd_children s)) as HF.
    { rewrite Forall_forall in *. intros c Hc. apply (IH c Hc). intros r [Hr|Hr]; apply H; [left|by right].
      eapply holds_struct; [by left|]. by apply (holds_elem p _ c). }
    clear -HF. induction HF as [|c l [b Hb] _ IH]; cbn; [done|]. rewrite Hb. cbn. by destruct b.
Qed.

Lemma all_fixed_some ref_fixed l :
  (forall r, holds p false l r \/ r ∉ composite_names p -> is_Some (ref_fixed r)) -> is_Some (all_fixed (child_fixed_size ref_fixed) l).
Proof.
  intros H. assert (Forall (fun c => is_Some (child_fixed_size ref_fixed c)) l) as HF.
  { apply Forall_forall. intros c Hc. apply child_fixed_some. intros r [Hr|Hr]; apply H; [left|by right].
    by apply (holds_elem p _ c). }
  clear -HF. induction HF as [|c l [b Hb] _ IH]; cbn; [done|]. rewrite Hb. cbn. by destruct b.
Qed.

Lemma ref_fixed_scalar n r : r ∉ composite_names p -> is_Some (ref_fixed_size p idx (S n) r).
Proof.
  intros Hr. cbn. destruct (find idx r) as [[i|i|i]|] eqn:E; try done.
  - destruct (find_type_lookup p idx r i E) as (t & -> & _). done.
  - destruct (composite_body_cases r _ E) as [?|(m & cs & _ & _ & Hc)]; [|by destruct Hr].
    cbn in *. by destruct (proto_structs p !! i).
Qed.

Lemma ref_fixed_eventually r : Acc (flip (follows p)) r -> eventually (fun n => is_Some (ref_fixed_size p idx n r)).
Proof.
  induction 1 as [r _ IH]. destruct (decide (r ∈ composite_names p)) as [Hr|Hr].
  2:{ exists 1%nat. intros [|n] ?; [lia|]. by apply ref_fixed_scalar. }
  destruct (find idx r) as [d|] eqn:E; [|exists 1%nat; intros [|n] ?; [lia|]; cbn; by rewrite E].
  destruct d as [i|i|i].
  1,3: exists 1%nat; intros [|n] ?; [lia|]; cbn; rewrite E; try done; destruct (find_type_lookup p idx r i E) as (t & -> & _); done.
  destruct (composite_body_cases r _ E) as [Eb|(m & cs & Eb & Hb & _)]; cbn in Eb; destruct (proto_structs p !! i) as [s|] eqn:Es; try done.
  injection Eb as _ <-. apply (eventually_S (fun n => (forall b, b ∈ collect_struct_refs idx (sd_children s) ->
    is_Some (ref_fixed_size p idx n b)) /\ (1 <= n)%nat)).
  - intros n [Hn H1]. cbn. rewrite E, Es. cbn. apply all_fixed_some. intros b [Hh|Hh].
    + apply Hn. by apply (collect_refs_holds p idx).
    + destruct n; [lia|]. by apply ref_fixed_scalar.
  - apply eventually_and; [|by exists 1%nat]. apply eventually_list. intros b Hh%(collect_refs_holds p idx).
    apply IH. by apply (contains_of_holds r (sd_children s)).
Qed.

(** The search for configuration keys. *)
Lemma scan_loop_some scan l keys :
  (forall f cs keys, f ∈ l -> inlined p f -> body p (f_type_ref f) cs -> is_Some (scan cs keys)) ->
  is_Some (scan_loop p idx scan l keys).
Proof.
  revert keys. induction l as [|f l IH]; intros keys H; cbn [scan_loop]; [done|].
  set (k := match f_auto_expr f with Some _ => _ | None => _ end). destruct k as [e1 keys1].
  apply bind_some; [|intros [e2 keys2] _; apply bind_some; [|by intros []]].
  - destruct (f_is_inline f && negb (is_empty (f_type_ref f))) eqn:E; [|done]. apply andb_true_iff in E as [Ei Ee].
    destruct (find idx (f_type_ref f)) as [d|] eqn:Ed; [|done].
    destruct (composite_body_cases _ d Ed) as [->|(m & cs & -> & Hb & Hc)]; cbn; [done|].
    apply (H f); [by left| |done]. split_and!; [done| |done]. intros E0. by rewrite E0 in Ee.
  - apply IH. intros. eapply H; [by right|done|done].
Qed.

Lemma scan_eventually r cs : Acc (flip (follows p)) r -> body p r cs ->
  eventually (fun n => forall keys, is_Some (scan_msg_configs p idx n cs keys)).
Proof.
  intros HA. revert cs. induction HA as [r _ IH]. intros cs Hb.
  apply (eventually_S (fun n => forall f, f ∈ top_fields cs -> forall cs' keys, inlined p f -> body p (f_type_ref f) cs' ->
    is_Some (scan_msg_configs p idx n cs' keys))).
  - intros n H keys. cbn. apply scan_loop_some. eauto.
  - apply eventually_list. intros f (c & Hc & E)%list_elem_of_omap. destruct c; try done. injection E as ->.
    destruct (decide (f_is_inline f = true /\ f_type_ref f <> "" /\ f_type_ref f ∈ composite_names p)) as [Hi|Hi].
    2:{ apply eventually_always. intros n cs' keys Hi'. by destruct Hi. }
    destruct (body_exists p (f_type_ref f)) as [cs' Hb']; [apply Hi|].
    eapply eventually_mono; [|apply (IH (f_type_ref f)); [by eapply inlined_contains|exact Hb']].
    intros n H cs2 keys _ Hb2. by rewrite <- (body_unique p idx (f_type_ref f) cs' cs2).
Qed.
End searches.

(** ** All children *)

Section children.
Context (sort : list Range -> list Range) `{!SortsByLo sort} (stod : string -> bool).
Context (p : Protocol) (idx : TypeIndex) `{!Indexes p idx} (fuel : nat).
Hypothesis constants_defined : forall k, k ∈ proto_constants p -> text_defined (const_value k).
Hypothesis enough_inline : (size (unvisited p ∅) < fuel)%nat.
Hypothesis enough_fixed : forall r, is_Some (ref_fixed_size p idx fuel r).

Lemma type_name_runs loc n kind name has : runs (check_type_name idx loc n kind name has).
Proof.
  unfold check_type_name, validate_type_name. destruct n; [|apply runs_ret].
  repeat (destruct_if; [apply runs_emit|]). intros used. by eexists.
Qed.
#[local] Hint Resolve type_name_runs : runs.

Lemma inline_names_runs pl f sc : runs (inline_names p idx fuel pl f sc).
Proof.
  intros used. unfold inline_names.
  destruct (inline_duplicates_searched p idx fuel (parent_name pl) (f_type_ref f) (mkInline (field_names sc) ∅)) as (es & st & -> & _); done.
Qed.

Lemma field_step_runs pl f sc : field_defined f -> runs (field_step stod p idx fuel pl f sc).
Proof.
  intros H. unfold field_step. repeat (apply runs_bind; [|intros _]).
  - apply runs_emit.
  - by apply runs_check, validate_field_some.
  - apply runs_emit.
  - destruct_if; [apply inline_names_runs|apply runs_ret].
Qed.

Lemma validate_array_some a parent : is_Some (validate_array p idx fuel a parent).
Proof.
  unfold validate_array. apply bind_some; [|done]. destruct (count_fx a); [|done]. unfold array_element_fixed_size.
  destruct_if; [apply enough_fixed|]. destruct (ad_children a) as [|c l] eqn:E; [done|]. by apply (all_fixed_some p).
Qed.

Lemma children_with_runs step l : Forall (fun c => forall sc, runs (step c sc)) l -> runs (children_with step l).
Proof. intros H. unfold children_with. apply runs_bind; [by apply runs_for_each|intros sc]. apply runs_emit. Qed.

Lemma below_defined l c' : c' ∈ l ->
  (forall f, f ∈ fields_of l -> field_defined f) -> (forall ch, ch ∈ flat_map choices_of l -> choice_defined ch) -> child_defined c'.
Proof.
  intros Hc Hf Hch. split.
  - intros f Hin. apply Hf. unfold fields_of, collect in *. cbn in Hin. rewrite app_nil_r in Hin. by eapply flat_map_elem.
  - intros ch Hin. apply Hch. by eapply flat_map_elem.
Qed.

Lemma validate_child_runs c pl sc : child_defined c -> runs (validate_child sort stod p idx fuel pl c sc).
Proof.
  revert pl sc. induction c as [f|s IH|a IH|c IHc IHo|x IH|r|a] using child_ind; intros pl sc [Hf Hch]; cbn [validate_child];
    cbn [fields_of collect flat_map collect_child choices_of] in Hf, Hch; rewrite ?app_nil_r in Hf.
  all: assert (forall l step, Forall (fun c => forall pl sc, child_defined c -> runs (validate_child sort stod p idx fuel pl c sc)) l ->
    (forall f, f ∈ fields_of l -> field_defined f) -> (forall ch, ch ∈ flat_map choices_of l -> choice_defined ch) ->
    (forall pl, step = validate_child sort stod p idx fuel pl -> runs (children_with step l))) as Hl
    by (intros l step HI Hf' Hch' pl' ->; apply children_with_runs; rewrite Forall_forall in *; intros c' Hc' sc';
        apply HI; [done|by eapply below_defined]).
  - apply field_step_runs, Hf. by left.
  - apply runs_bind; [apply runs_emit|intros _]. apply runs_bind; [apply type_name_runs|intros _].
    apply runs_bind; [by eapply Hl|intros _]. apply runs_ret.
  - apply runs_bind; [apply runs_emit|intros _]. apply runs_bind; [apply runs_check, validate_array_some|intros _].
    apply runs_bind; [apply runs_emit|intros _]. apply runs_bind; [apply type_name_runs|intros _].
    apply runs_bind; [by eapply Hl|intros _]. apply runs_ret.
  - apply runs_bind; [apply runs_emit|intros _]. apply runs_bind; [apply type_name_runs|intros _].
    apply runs_bind; [|intros _; apply runs_bind; [|intros _; apply runs_bind; [|intros _; apply runs_bind; [apply runs_emit|intros _; apply runs_ret]]]].
    + apply runs_for_each, Forall_forall. intros cs Hcs names. apply runs_bind; [apply runs_emit|intros _].
      apply runs_bind; [apply type_name_runs|intros _]. apply runs_bind; [|intros _; apply runs_ret].
      rewrite Forall_forall in IHc. eapply Hl; [by apply IHc| | |done].
      * intros f Hin. apply Hf, elem_of_app. left. eapply flat_map_elem; [exact Hcs|exact Hin].
      * intros ch Hin. apply Hch. right. apply elem_of_app. left. eapply flat_map_elem; [exact Hcs|exact Hin].
    + destruct (ch_otherwise c) as [o|] eqn:Eo; [|apply runs_ret]. apply runs_bind; [apply type_name_runs|intros _].
      eapply Hl; [by apply IHo| | |done].
      * intros f Hin. apply Hf, elem_of_app. by right.
      * intros ch Hin. apply Hch. right. apply elem_of_app. by right.
    + apply runs_check. destruct (check_overlap_spec p idx constants_defined sort c) as (es & -> & _); [|done].
      apply Hch. by left.
  - apply runs_bind; [apply runs_emit|intros _]. apply runs_bind; [by eapply Hl|intros _]. apply runs_ret.
  - apply runs_bind; [apply runs_emit|intros _]. apply runs_ret.
  - apply runs_bind; [apply runs_emit|intros _]. apply runs_ret.
Qed.
End children.

(** ** Frames *)

Section frames.
Context (p : Protocol) (idx : TypeIndex) `{!Indexes p idx}.

Lemma check_auto_fields_some frame l st : Forall field_defined l -> is_Some (check_auto_fields p idx frame l st).
Proof.
  intros H. revert st. induction H as [|f l Hf _ IH]; intros st; cbn [check_auto_fields]; [done|].
  apply bind_some; [|intros [e1 st1] _; apply bind_some; [apply IH|by intros []]].
  destruct (f_auto_expr f) as [a|]; [|done]. destruct (auto_kind a); try done.
  - unfold frame_id_step. apply bind_some; [by apply known_width_some|intros ? _].
    apply bind_some; [|done]. destruct (is_empty _); [done|apply type_at_some; apply _].
  - unfold frame_length_step. apply bind_some; [by apply known_width_some|done].
Qed.

Lemma id_value_names_some l : is_Some (id_value_names p idx l).
Proof.
  induction l as [|f l IH]; cbn; [done|]. apply bind_some; [done|intros ? _]. destruct (is_auto_id f); [|done].
  apply bind_some; [|done]. destruct (is_empty _); [done|apply type_at_some; apply _].
Qed.

Lemma scan_messages_some fuel l keys :
  (forall m, m ∈ l -> forall keys, is_Some (scan_msg_configs p idx fuel (msg_children m) keys)) ->
  is_Some (scan_messages p idx fuel l keys).
Proof.
  revert keys. induction l as [|m l IH]; intros keys H; cbn [scan_messages]; [done|].
  apply bind_some; [apply H; by left|intros [e1 k1] _]. apply bind_some; [|by intros []]. apply IH. intros. apply H. by right.
Qed.

Lemma frame_errors_some fuel d :
  (forall m, m ∈ proto_messages p -> forall keys, is_Some (scan_msg_configs p idx fuel (msg_children m) keys)) ->
  Forall field_defined (frame_fields d) -> is_Some (frame_errors p idx fuel d).
Proof.
  intros Hs Hf. unfold frame_errors. apply bind_some; [by apply check_auto_fields_some|intros [e1 st] _].
  apply bind_some; [by apply scan_messages_some|intros [e2 st2] _]. apply bind_some; [apply id_value_names_some|done].
Qed.
End frames.

(** ** The whole validator *)

Lemma acyclic_settles p idx `{!Indexes p idx} : no_followed_cycle p -> forall n, Acc (flip (follows p)) n.
Proof.
  intros H. destruct (detect_cycles_spec p idx) as (es & _ & Hc & HA). apply HA. destruct Hc as [|e es (loc & a & b & _ & Hab & Hba) _]; [done|].
  destruct (H a). by eapply tc_rtc_r, Hba; first by apply tc_once.
Qed.

Section whole.
Context (sort : list Range -> list Range) `{!SortsByLo sort} (stod : string -> bool).
Context (p : Protocol) (idx : TypeIndex) `{!Indexes p idx} (fuel : nat).
Hypothesis defined : no_overflow p.
Hypothesis enough_inline : (size (unvisited p ∅) < fuel)%nat.
Hypothesis enough_fixed : forall r, is_Some (ref_fixed_size p idx fuel r).
Hypothesis enough_scan : forall m, m ∈ proto_messages p -> forall keys, is_Some (scan_msg_configs p idx fuel (msg_children m) keys).

Lemma protocol_child_defined c : c ∈ all_children p -> child_defined c.
Proof.
  intros Hc. apply (below_defined (all_children p)); [done| |].
  - intros f Hf. split; [intros s; by apply (no_fields p defined)|intros n; by apply (no_bytes p defined)].
  - intros ch Hch cs s. by apply (no_cases p defined).
Qed.

Lemma validate_children_runs pl l : (forall c, c ∈ l -> c ∈ all_children p) -> runs (validate_children sort stod p idx fuel pl l).
Proof.
  intros H. apply children_with_runs, Forall_forall. intros c Hc sc.
  apply validate_child_runs; [done|done|apply (no_constants p defined)|done|done|by apply protocol_child_defined, H].
Qed.

Lemma frame_fields_defined d : d ∈ proto_frames p -> Forall field_defined (frame_fields d).
Proof.
  intros Hd. apply Forall_forall. intros f Hf. assert (ChField f ∈ header_fields d ++ footer_fields d) as Hin.
  { unfold frame_fields, top_fields in Hf. rewrite <- omap_app in Hf. apply list_elem_of_omap in Hf as (c & Hc & E).
    destruct c; try done. by injection E as ->. }
  destruct (protocol_child_defined (ChField f)) as [H _]; [|apply H; by left].
  unfold all_children. rewrite !elem_of_app. right. right. by eapply flat_map_elem.
Qed.

Lemma validate_all_runs : runs (validate_all sort stod p idx fuel).
Proof.
  unfold validate_all, all_children in *. apply runs_bind; [apply runs_emit|intros _].
  apply runs_bind; [apply runs_check, validate_constants_some; [done|apply (no_constants p defined)]|intros _].
  apply runs_bind; [apply runs_check, (validate_types_some stod p idx), (no_types p defined)|intros _].
  apply runs_bind; [|intros _; apply runs_bind; [|intros _; apply runs_bind; [|intros _]]].
  - apply runs_for_each, Forall_forall. intros s Hs _. unfold validate_struct_def. apply runs_bind; [apply runs_emit|intros _].
    apply runs_bind; [|intros _; apply runs_emit]. apply validate_children_runs. intros c Hc. unfold all_children.
    rewrite !elem_of_app. right. left. by eapply flat_map_elem.
  - apply runs_for_each, Forall_forall. intros m Hm _. apply validate_children_runs. intros c Hc. unfold all_children.
    rewrite !elem_of_app. left. by eapply flat_map_elem.
  - unfold validate_frames. destruct (proto_frames p) as [|d0 ds] eqn:Ed; [apply runs_ret|].
    apply runs_bind; [apply runs_emit|intros _]. apply runs_bind; [|intros _; apply runs_emit].
    apply runs_for_each, Forall_forall. intros d Hd _. rewrite <- Ed in Hd. unfold validate_frame.
    assert (forall c, c ∈ header_fields d ++ footer_fields d -> c ∈ all_children p) as Hall.
    { intros c Hc. unfold all_children. rewrite !elem_of_app. right. right. by eapply flat_map_elem. }
    repeat (apply runs_bind; [apply validate_children_runs; intros c Hc; apply Hall, elem_of_app; auto|intros _]).
    apply runs_check, frame_errors_some; [done|done|by apply frame_fields_defined].
  - apply runs_check. destruct (detect_cycles_spec p idx) as (es & -> & _). done.
Qed.
End whole.

Lemma validate_eventually (sort : list Range -> list Range) (stod : string -> bool) (p p' : Protocol) (idx : TypeIndex) :
  SortsByLo sort -> literals_defined p -> resolve_types p = Some (Resolved idx, p') -> no_overflow p' -> no_followed_cycle p' ->
  exists F, forall fuel, (F <= fuel)%nat -> exists es, validate sort stod p' idx fuel = Some es.
Proof.
  intros HS Hl E Hd Hac. pose proof (resolved_index p p' idx Hl E) as Hidx. pose proof (acyclic_settles p' idx Hac) as HA.
  assert (eventually (fun n => (size (unvisited p' ∅) < n)%nat)) as E1 by (exists (S (size (unvisited p' ∅))); lia).
  assert (eventually (fun n => forall r, r ∈ composite_names p' -> is_Some (ref_fixed_size p' idx n r))) as E2
    by (apply eventually_list; intros r _; by apply ref_fixed_eventually).
  assert (eventually (fun n => forall m, m ∈ proto_messages p' -> forall keys, is_Some (scan_msg_configs p' idx n (msg_children m) keys))) as E3.
  { apply eventually_list. intros m Hm. apply (scan_eventually p' idx (msg_name m)); [done|]. right. by exists m. }
  destruct (eventually_and _ _ E1 (eventually_and _ _ E2 E3)) as [F HF]. exists F. intros fuel Hle.
  destruct (HF fuel Hle) as (H1 & H2 & H3). unfold validate.
  destruct (validate_all_runs sort stod p' idx fuel Hd H1) with (used := ∅ : gset string) as [[[es ?] ?] ->]; [|done|by exists es].
  intros r. destruct (decide (r ∈ composite_names p')); [auto|]. destruct fuel; [lia|]. by apply ref_fixed_scalar.
Qed.

(** The validator returns on every protocol the resolver accepts in which no
    struct or message contains itself and no literal or size overflows: with
    enough fuel there is always a list of errors, for every [std::sort] and every
    [std::stod], and for every form its fields, arrays, choices and frames take. *)
Theorem validator_returns (sort : list Range -> list Range) (stod : string -> bool) (p p' : Protocol) (idx : TypeIndex) :
  SortsByLo sort -> literals_defined p -> resolve_types p = Some (Resolved idx, p') -> no_overflow p' -> no_followed_cycle p' ->
  exists F, forall fuel, (F <= fuel)%nat -> exists es, validate sort stod p' idx fuel = Some es.
Proof. intros HS Hl E Hd Hac. by apply (validate_eventually sort stod p). Qed.

(** The conditions as finite checks. *)
Lemma no_overflow_checked p :
  Forall (Forall text_defined) (map (fun t => constraint_texts (td_constraint t)) (proto_types p)) ->
  Forall (Forall text_defined) (map (fun f => constraint_texts (f_constraint f)) (protocol_fields p)) ->
  Forall (fun n => -268435456 <= n <= 268435455) (omap f_bytes_attr (protocol_fields p)) ->
  Forall text_defined (map const_value (proto_constants p)) ->
  Forall (fun c => Forall (Forall text_defined) (map case_texts (ch_cases c))) (protocol_choices p) -> no_overflow p.
Proof.
  rewrite !Forall_forall. intros H1 H2 H3 H4 H5. split.
  - intros t s Ht. apply Forall_forall, H1. by eapply list_elem_of_fmap_2'.
  - intros f s Hf. apply Forall_forall, H2. by eapply list_elem_of_fmap_2'.
  - intros f n Hf E. apply H3. apply list_elem_of_omap. by exists f.
  - intros k Hk. apply H4. by eapply list_elem_of_fmap_2'.
  - intros c cs s Hc Hcs. specialize (H5 c Hc). rewrite Forall_forall in H5. apply Forall_forall, H5. by eapply list_elem_of_fmap_2'.
Qed.

Lemma framed_acyclic p idx : resolve_types framed = Some (Resolved idx, p) -> no_followed_cycle p.
Proof.
  intros E n. pose proof (resolved_index framed p idx framed_literals_defined E) as Hidx.
  destruct (detect_cycles_spec p idx) as (es & D & _ & A). apply acc_no_cycle, A.
  clear A Hidx. vm_compute in E. injection E as <- <-. vm_compute in D. by injection D as <-.
Qed.

Lemma validator_returns_witness :
  exists idx p' F es, resolve_types framed = Some (Resolved idx, p') /\ validate stable_sort (fun _ => true) p' idx F = Some es.
Proof.
  destruct (resolve_types framed) as [[[idx|] p']|] eqn:E; [|vm_compute in E; discriminate..].
  destruct (validator_returns stable_sort (fun _ => true) framed p' idx) as [F HF].
  - exact stable_sort_sorts.
  - exact framed_literals_defined.
  - exact E.
  - apply no_overflow_checked; vm_compute in E; injection E as <- <-;
      repeat first [apply Forall_nil; exact I | apply Forall_cons; split | exact I | (vm_compute; discriminate)].
  - exact (framed_acyclic p' idx E).
  - destruct (HF F (le_n F)) as [es Es]. exists idx, p', F, es. split; [done|exact Es].
Defined.

(** ** Protocols on which the validator does not return *)

Lemma bind_none {A B} (m : V A) (k : A -> V B) used : (forall a u, k a u = None) -> (m ≫= k) used = None.
Proof. intros H. unfold mbind, V_bind. destruct (m used) as [[[e a] u]|]; [|done]. by rewrite H. Qed.

(** A frame whose own checks do not return. *)
Lemma frame_diverges sort stod p idx fuel d ds :
  proto_frames p = d :: ds -> frame_errors p idx fuel d = None -> validate sort stod p idx fuel = None.
Proof.
  intros Ed H. unfold validate. assert (validate_all sort stod p idx fuel ∅ = None) as ->; [|done].
  unfold validate_all. do 5 (apply bind_none; intros ? ?). unfold mbind at 1, V_bind at 1.
  assert (validate_frames sort stod p idx fuel u3 = None) as ->; [|done].
  unfold validate_frames. rewrite Ed. apply bind_none. intros ? ?. unfold mbind at 1, V_bind at 1. cbn [for_each].
  unfold mbind at 1, V_bind at 1. unfold validate_frame at 1.
  match goal with |- context [match ?m ?u with _ => _ end] => assert (m u = None) as -> end; [|done].
  do 2 (apply bind_none; intros ? ?). unfold check. by rewrite H.
Qed.

(** A struct that inlines itself, in a protocol with a frame: the search for
    configuration keys follows the inline field for ever, and the check that would
    report the recursion comes after it. *)
Definition endless : Protocol :=
  mkProtocol "Demo" "1" "2" new_defaults [] [] (proto_types sample_protocol)
    [new_struct "node" [ChField (inline_field "next" "node")]]
    [mkMessageDef "ping" [ChField (inline_field "n" "node")] "1" DirSend false [] "" unknown_loc]
    [sample_frame sample_header] [] "" unknown_loc.

Lemma scan_loop_none p idx scan l keys f i s :
  f ∈ l -> f_is_inline f = true -> f_type_ref f <> "" -> find idx (f_type_ref f) = Some (RStruct i) -> proto_structs p !! i = Some s ->
  (forall keys, scan (sd_children s) keys = None) -> scan_loop p idx scan l keys = None.
Proof.
  intros Hin Hf He Ei Es H. revert keys. induction l as [|g l IH]; intros keys; [by apply elem_of_nil in Hin|]. cbn [scan_loop].
  set (k := match f_auto_expr g with Some _ => _ | None => _ end). destruct k as [e1 keys1].
  apply elem_of_cons in Hin as [<-|Hin].
  - rewrite Hf, Ei. assert (is_empty (f_type_ref f) = false) as -> by by destruct (f_type_ref f). cbn. rewrite Es. cbn. by rewrite H.
  - match goal with |- (?o ≫= _) = None => destruct o as [[e2 keys2]|]; [|done] end. cbn. by rewrite IH.
Qed.

Lemma scan_diverges p idx f i s n keys :
  f ∈ top_fields (sd_children s) -> f_is_inline f = true -> f_type_ref f <> "" ->
  find idx (f_type_ref f) = Some (RStruct i) -> proto_structs p !! i = Some s -> scan_msg_configs p idx n (sd_children s) keys = None.
Proof. intros. revert keys. induction n as [|n IH]; intros keys; [done|]. cbn. by eapply scan_loop_none. Qed.

Example endless_not_validated sort stod fuel :
  exists idx p', resolve_types endless = Some (Resolved idx, p')
    /\ detect_struct_cycles p' idx = Some [cycle_error unknown_loc "node" "node"]
    /\ validate sort stod p' idx fuel = None.
Proof.
  destruct (resolve_types endless) as [[[idx|] p']|] eqn:E; [|vm_compute in E; discriminate..].
  exists idx, p'. split; [done|]. vm_compute in E. injection E as <- <-. split; [vm_compute; reflexivity|].
  eapply frame_diverges; [reflexivity|]. unfold frame_errors.
  match goal with |- (?o ≫= _) = None => destruct o as [[e st]|]; [|done] end. cbn [mbind option_bind].
  match goal with |- (?o ≫= _) = None => assert (o = None) as ->; [|done] end. cbn [proto_messages scan_messages].
  match goal with |- (?o ≫= _) = None => assert (o = None) as ->; [|done] end.
  destruct fuel as [|n]; [done|]. cbn [scan_msg_configs msg_children].
  eapply scan_loop_none; [by left|reflexivity|discriminate|vm_compute; reflexivity|reflexivity|].
  intros keys. eapply scan_diverges; [by left|reflexivity|discriminate|vm_compute; reflexivity|reflexivity].
Qed.

(** An array with extension bits over a struct that contains itself: the search
    for the size of its elements does not return. *)
Lemma ref_fixed_diverges p idx r i s f l n :
  find idx r = Some (RStruct i) -> proto_structs p !! i = Some s -> sd_children s = ChField f :: l ->
  f_bits f = None -> f_bytes_attr f = None -> f_length_star f = false -> f_length_from f = None -> f_length f = None ->
  f_terminated f = None -> f_max_length f = None -> f_length_prefix f = None -> f_type_ref f = r -> r <> "" ->
  ref_fixed_size p idx n r = None.
Proof.
  intros Ei Es El E1 E2 E3 E4 E5 E6 E7 E8 Er Hr. induction n as [|n IH]; [done|]. cbn. rewrite Ei, Es. cbn.
  rewrite El. cbn. rewrite E1, E2, E3, E4, E5, E6, E7, E8, Er, IH. by destruct r.
Qed.

Definition endless_array : ArrayDef :=
  mkArrayDef "items" "node" [] None None false true None None None None None [] "" unknown_loc.

Example endless_array_not_validated fuel :
  let p := mkProtocol "Demo" "1" "2" new_defaults [] [] [] [new_struct "node" [ChField (new_field "next" "node")]] [] [] [] "" unknown_loc in
  exists idx p', resolve_types p = Some (Resolved idx, p') /\ validate_array p' idx fuel endless_array "m" = None.
Proof.
  intros p. destruct (resolve_types p) as [[[idx|] p']|] eqn:E; [|vm_compute in E; discriminate..].
  exists idx, p'. split; [done|]. vm_compute in E. injection E as <- <-. unfold validate_array, endless_array. cbn [count_fx].
  unfold array_element_fixed_size. cbn [ad_type_ref is_empty]. cbn [negb].
  erewrite ref_fixed_diverges; [done|vm_compute; reflexivity|reflexivity..|discriminate].
Qed.
