(* ===== verification/FieldCodec.v ===== *)
(** * Reading and writing a field in generated code

    Models [conduit/bgen/src/codegen/cpp_structs_helpers.cpp] and the type-level
    pair of [cpp_types.cpp]: which C++ type a field has, and which call of the bit
    reader or writer is generated for it.  A call is a value of [ReadCall] or
    [WriteCall]; [read_text] and [write_text] are the text that is generated for
    it, [read_meaning] and [write_meaning] the operation of [BitReader] and
    [BitWriter] it performs. *)

From stdpp Require Import base numbers list gmap strings pretty.
From Stdlib Require Import ZArith Lia SpecFloat.
From S2P Require Import Prelude CharConv AutoExpr ExprParser Ast TypeResolver ProtocolIndex Validation Names FieldChecks Endian BitWriter BitReader.

Open Scope Z_scope.

(** ** The type of a field *)

Record FieldTypeInfo := mkFti {
  fti_cpp_type : string;
  fti_is_struct : bool; fti_is_enum : bool; fti_is_string : bool; fti_is_bytes : bool;
  fti_is_float : bool; fti_is_bool : bool;
  fti_bits : Z; fti_is_signed : bool;
  fti_has_field_scale : bool; fti_field_scale : spec_float; fti_field_offset : spec_float;
  fti_raw_bits : Z; fti_raw_signed : bool; fti_raw_endian : Ast.Endian;
  fti_wire_encoding : WireEncoding
}.

Definition double_one : spec_float := S754_finite false 4503599627370496 (-52).
Definition double_zero : spec_float := S754_zero false.

Definition new_fti : FieldTypeInfo :=
  mkFti "" false false false false false false 0 false false double_one double_zero 0 false EndianBig WireDefault.

(** An integer of a width; what kind of field it is, by [kind]. *)
Definition with_encoding (enc : option WireEncoding) (i : FieldTypeInfo) : FieldTypeInfo :=
  match enc with
  | Some e => mkFti (fti_cpp_type i) (fti_is_struct i) (fti_is_enum i) (fti_is_string i) (fti_is_bytes i) (fti_is_float i)
                (fti_is_bool i) (fti_bits i) (fti_is_signed i) (fti_has_field_scale i) (fti_field_scale i) (fti_field_offset i)
                (fti_raw_bits i) (fti_raw_signed i) (fti_raw_endian i) e
  | None => i
  end.

Definition float_info (cpp_type : string) (bits : Z) : FieldTypeInfo :=
  mkFti cpp_type false false false false true false bits false false double_one double_zero 0 false EndianBig WireDefault.
Definition bool_info (cpp_type : string) (bits : Z) : FieldTypeInfo :=
  mkFti cpp_type false false false false false true bits false false double_one double_zero 0 false EndianBig WireDefault.
Definition string_info : FieldTypeInfo :=
  mkFti "std::string" false false true false false false 0 false false double_one double_zero 0 false EndianBig WireDefault.
Definition bytes_info (cpp_type : string) : FieldTypeInfo :=
  mkFti cpp_type false false false true false false 0 false false double_one double_zero 0 false EndianBig WireDefault.
Definition struct_info (cpp_type : string) : FieldTypeInfo :=
  mkFti cpp_type true false false false false false 0 false false double_one double_zero 0 false EndianBig WireDefault.
Definition enum_info (cpp_type : string) (bits : Z) (is_signed : bool) : FieldTypeInfo :=
  mkFti cpp_type false true false false false false bits is_signed false double_one double_zero 0 false EndianBig WireDefault.

Definition field_scale_is_active (f : Field) : bool :=
  match f_scale f with Some s => negb (SFeqb s double_one) | None => false end
  || match f_offset f with Some o => negb (SFeqb o double_zero) | None => false end.

(** An integer; with a scale of its own the field is a [double] and the integer
    what is on the wire. *)
Definition integer_info (f : Field) (cpp_type : string) (bits : Z) (is_signed : bool) (e : Ast.Endian) : FieldTypeInfo :=
  if field_scale_is_active f then
    mkFti "double" false false false false false false 0 false true (default double_one (f_scale f))
      (default double_zero (f_offset f)) bits is_signed e WireDefault
  else mkFti cpp_type false false false false false false bits is_signed false double_one double_zero 0 false EndianBig WireDefault.

Definition byte_array (n : Z) : string := "std::array<uint8_t, " +:+ pretty n +:+ ">".

Definition inline_bits_info (f : Field) : option FieldTypeInfo :=
  match f_bits f, f_bytes_attr f with
  | Some n, _ => Some (integer_info f (storage_type_for_bits n (f_is_signed f)) n (f_is_signed f) (f_endian f))
  | None, Some n =>
      if n <=? 8 then
        bits ← octet_bits n;
        Some (integer_info f (storage_type_for_bits bits (f_is_signed f)) bits (f_is_signed f) (f_endian f))
      else Some (bytes_info (byte_array n))
  | None, None => Some new_fti
  end.

Definition inline_info (f : Field) : option FieldTypeInfo :=
  i ← match f_base f with
      | Some BaseFloat =>
          let bits := default 32 (f_bits f) in Some (float_info (if bits <=? 32 then "float" else "double") bits)
      | Some BaseString => Some string_info
      | Some BaseBytes =>
          Some (bytes_info match f_length f, f_bytes_attr f with
                           | Some n, _ => byte_array n
                           | None, Some n => byte_array n
                           | None, None => "std::vector<uint8_t>"
                           end)
      | Some BaseBool => Some (bool_info "bool" (default 1 (f_bits f)))
      | Some BaseInt | Some BaseUint | None => inline_bits_info f
      end;
  Some (with_encoding (f_wire_encoding f) i).

(** A field of a declared type. *)
Definition type_info (f : Field) (t : TypeDef) : FieldTypeInfo :=
  let has_enum := match td_enum_values t with [] => false | _ => true end in
  let has_flags := match td_flags t with [] => false | _ => true end in
  let has_scale := is_some (td_scale t) || is_some (td_offset t) in
  let is_string_type := bool_decide (td_base t = BaseString) in
  let cpp_type := to_cpp_type_name (td_name t) in
  if has_enum || has_flags || has_scale || is_string_type || is_some (td_constraint t) then
    if has_enum then enum_info cpp_type (td_bits t) (bool_decide (td_base t = BaseInt)) else struct_info cpp_type
  else match td_base t with
       | BaseBool => bool_info cpp_type (if 0 <? td_bits t then td_bits t else 1)
       | BaseFloat => float_info cpp_type (td_bits t)
       | _ => integer_info f cpp_type (td_bits t) (bool_decide (td_base t = BaseInt)) (td_endian t)
       end.

Section resolve.
Variable p : Protocol.
Variable idx : TypeIndex.

Definition resolve_field_type (f : Field) : option FieldTypeInfo :=
  if f_type_is_inline f || String.eqb (f_type_ref f) "" then inline_info f
  else if String.eqb (f_type_ref f) "bytes" then
    Some (bytes_info match f_length f with Some n => byte_array n | None => "std::vector<uint8_t>" end)
  else if String.eqb (f_type_ref f) "string" then Some string_info
  else match find idx (f_type_ref f) with
       | None => Some (mkFti (to_cpp_type_name (f_type_ref f)) false false false false false false 0 false false double_one
                         double_zero 0 false EndianBig WireDefault)
       | Some d =>
           i ← match d with
               | RType i => t ← proto_types p !! i; Some (type_info f t)
               | RStruct i => s ← proto_structs p !! i; Some (struct_info (to_cpp_type_name (sd_name s)))
               | RMessage i => m ← proto_messages p !! i; Some (struct_info (to_cpp_type_name (msg_name m)))
               end;
           match f_wire_encoding f with
           | Some e => Some (with_encoding (Some e) i)
           | None => t ← type_at p idx (f_type_ref f); Some (with_encoding (td_wire_encoding <$> t) i)
           end
       end.
End resolve.

(** ** Calls of the reader *)

Inductive ReadCall :=
  | ReadBcd (bits : Z) | ReadBcdSigned (bits : Z) | ReadSignMagnitude (bits : Z)
  | ReadF16 (e : Ast.Endian) | ReadF32 (e : Ast.Endian) | ReadF48 (e : Ast.Endian) | ReadF64 (e : Ast.Endian)
  | ReadU8 | ReadU16 (e : Ast.Endian) | ReadU32 (e : Ast.Endian) | ReadU64 (e : Ast.Endian)
  | ReadI16 (e : Ast.Endian) | ReadI32 (e : Ast.Endian) | ReadI64 (e : Ast.Endian)
  | ReadSignedBits (bits : Z) | ReadBits (bits : Z).

(** The call for a field; [None] is the exception for a field without a width. *)
Definition read_call (i : FieldTypeInfo) (e : Ast.Endian) (byte_aligned : bool) : option ReadCall :=
  let bits := fti_bits i in
  let sg := fti_is_signed i in
  let standard :=
    if fti_is_float i then
      Some (if bits =? 16 then ReadF16 e else if bits <=? 32 then ReadF32 e else if bits <=? 48 then ReadF48 e
            else if bits <=? 64 then ReadF64 e else ReadBits bits)
    else if (0 <? bits) && (bits <=? 64) then
      Some (if byte_aligned && (bits =? 8) && negb sg then ReadU8
            else if byte_aligned && (bits =? 16) && negb sg then ReadU16 e
            else if byte_aligned && (bits =? 32) && negb sg then ReadU32 e
            else if byte_aligned && (bits =? 64) && negb sg then ReadU64 e
            else if byte_aligned && (bits =? 16) && sg then ReadI16 e
            else if byte_aligned && (bits =? 32) && sg then ReadI32 e
            else if byte_aligned && (bits =? 64) && sg then ReadI64 e
            else if sg then ReadSignedBits bits else ReadBits bits)
    else None in
  match fti_wire_encoding i with
  | BCD => Some (ReadBcd bits)
  | BCD_S => Some (ReadBcdSigned bits)
  | BNR_S => Some (ReadSignMagnitude bits)
  | CB2 | BNR | WireDefault => standard
  end.

Definition endian_str (e : Ast.Endian) : string :=
  match e with EndianBig => "conduit::io::Endian::Big" | EndianLittle => "conduit::io::Endian::Little" end.

(** The unsigned read and the cast, in a lambda. *)
Definition signed_read (reader width : string) (e : Ast.Endian) : string :=
  "([&]() -> conduit::Result<int" +:+ width +:+ "_t> { auto v = " +:+ reader +:+ ".read_u" +:+ width +:+ "("
  +:+ endian_str e +:+ "); if (!v) return std::unexpected(v.error()); "
  +:+ "return static_cast<int" +:+ width +:+ "_t>(*v); })()".

Definition read_text (reader : string) (c : ReadCall) : string :=
  match c with
  | ReadBcd n => reader +:+ ".read_bcd(" +:+ pretty n +:+ ")"
  | ReadBcdSigned n => reader +:+ ".read_bcd_signed(" +:+ pretty n +:+ ")"
  | ReadSignMagnitude n => reader +:+ ".read_sign_magnitude(" +:+ pretty n +:+ ")"
  | ReadF16 e => reader +:+ ".read_f16(" +:+ endian_str e +:+ ")"
  | ReadF32 e => reader +:+ ".read_f32(" +:+ endian_str e +:+ ")"
  | ReadF48 e => reader +:+ ".read_f48(" +:+ endian_str e +:+ ")"
  | ReadF64 e => reader +:+ ".read_f64(" +:+ endian_str e +:+ ")"
  | ReadU8 => reader +:+ ".read_u8()"
  | ReadU16 e => reader +:+ ".read_u16(" +:+ endian_str e +:+ ")"
  | ReadU32 e => reader +:+ ".read_u32(" +:+ endian_str e +:+ ")"
  | ReadU64 e => reader +:+ ".read_u64(" +:+ endian_str e +:+ ")"
  | ReadI16 e => signed_read reader "16" e
  | ReadI32 e => signed_read reader "32" e
  | ReadI64 e => signed_read reader "64" e
  | ReadSignedBits n => reader +:+ ".read_signed_bits(" +:+ pretty n +:+ ")"
  | ReadBits n => reader +:+ ".read_bits(" +:+ pretty n +:+ ")"
  end.

Definition emit_read_expr (i : FieldTypeInfo) (e : Ast.Endian) (reader : string) (byte_aligned : bool) : option string :=
  read_text reader <$> read_call i e byte_aligned.

(** ** Calls of the writer *)

Inductive WriteCall :=
  | WriteBcd (bits : Z) | WriteBcdSigned (bits : Z) | WriteSignMagnitude (bits : Z)
  | WriteF16 (e : Ast.Endian) | WriteF32 (e : Ast.Endian) | WriteF48 (e : Ast.Endian) | WriteF64 (e : Ast.Endian)
  | WriteWideFloat (bits : Z)
  | WriteU8 | WriteU16 (e : Ast.Endian) | WriteU32 (e : Ast.Endian) | WriteU64 (e : Ast.Endian)
  | WriteBool (bits : Z) | WriteSignedBits (bits : Z) | WriteBits (bits : Z).

Definition write_call (i : FieldTypeInfo) (e : Ast.Endian) (byte_aligned : bool) : WriteCall :=
  let bits := fti_bits i in
  let sg := fti_is_signed i in
  let standard :=
    if fti_is_float i then
      if bits =? 16 then WriteF16 e else if bits <=? 32 then WriteF32 e else if bits <=? 48 then WriteF48 e
      else if bits <=? 64 then WriteF64 e else WriteWideFloat bits
    else if byte_aligned && (bits =? 8) && negb sg then WriteU8
    else if byte_aligned && (bits =? 16) && negb sg then WriteU16 e
    else if byte_aligned && (bits =? 32) && negb sg then WriteU32 e
    else if byte_aligned && (bits =? 64) && negb sg then WriteU64 e
    else if fti_is_bool i then WriteBool bits
    else if sg then WriteSignedBits bits else WriteBits bits in
  match fti_wire_encoding i with
  | BCD => WriteBcd bits
  | BCD_S => WriteBcdSigned bits
  | BNR_S => WriteSignMagnitude bits
  | CB2 | BNR | WireDefault => standard
  end.

(** A cast, unless the value is one already. *)
Definition cast_wrap (v type : string) : string :=
  if String.prefix "static_cast<" v then v else "static_cast<" +:+ type +:+ ">(" +:+ v +:+ ")".

Definition write_text (value : string) (c : WriteCall) : string :=
  match c with
  | WriteBcd n => "w.write_bcd(" +:+ value +:+ ", " +:+ pretty n +:+ ");"
  | WriteBcdSigned n => "w.write_bcd_signed(" +:+ value +:+ ", " +:+ pretty n +:+ ");"
  | WriteSignMagnitude n => "w.write_sign_magnitude(" +:+ value +:+ ", " +:+ pretty n +:+ ");"
  | WriteF16 e => "w.write_f16(" +:+ value +:+ ", " +:+ endian_str e +:+ ");"
  | WriteF32 e => "w.write_f32(" +:+ value +:+ ", " +:+ endian_str e +:+ ");"
  | WriteF48 e => "w.write_f48(" +:+ value +:+ ", " +:+ endian_str e +:+ ");"
  | WriteF64 e => "w.write_f64(" +:+ value +:+ ", " +:+ endian_str e +:+ ");"
  | WriteWideFloat n => "w.write_bits(static_cast<uint64_t>(" +:+ value +:+ "), " +:+ pretty n +:+ ");"
  | WriteU8 => "w.write_u8(" +:+ cast_wrap value "uint8_t" +:+ ");"
  | WriteU16 e => "w.write_u16(" +:+ cast_wrap value "uint16_t" +:+ ", " +:+ endian_str e +:+ ");"
  | WriteU32 e => "w.write_u32(" +:+ cast_wrap value "uint32_t" +:+ ", " +:+ endian_str e +:+ ");"
  | WriteU64 e => "w.write_u64(" +:+ cast_wrap value "uint64_t" +:+ ", " +:+ endian_str e +:+ ");"
  | WriteBool n => "w.write_bits(static_cast<uint8_t>(" +:+ value +:+ "), " +:+ pretty n +:+ ");"
  | WriteSignedBits n => "w.write_signed_bits(" +:+ value +:+ ", " +:+ pretty n +:+ ");"
  | WriteBits n => "w.write_bits(" +:+ value +:+ ", " +:+ pretty n +:+ ");"
  end.

(** The line that is added to the output. *)
Definition emit_write_stmt (value : string) (i : FieldTypeInfo) (e : Ast.Endian) (byte_aligned : bool) : string :=
  write_text value (write_call i e byte_aligned).

(** ** Values of a declared type

    The functions generated for a type of its own do not know where they are
    called: they never use the byte-wise calls and ignore the byte order. *)

Definition type_read_call (t : TypeDef) : ReadCall :=
  let bits := td_bits t in
  match td_wire_encoding t with
  | BCD => ReadBcd bits
  | BCD_S => ReadBcdSigned bits
  | BNR_S => ReadSignMagnitude bits
  | CB2 | BNR | WireDefault =>
      match td_base t with
      | BaseFloat =>
          if bits =? 16 then ReadF16 EndianBig else if bits <=? 32 then ReadF32 EndianBig
          else if bits <=? 48 then ReadF48 EndianBig else if bits <=? 64 then ReadF64 EndianBig else ReadBits bits
      | BaseInt => ReadSignedBits bits
      | _ => ReadBits bits
      end
  end.

Definition type_read_expr (t : TypeDef) : string := read_text "r" (type_read_call t).

Definition type_write_call (t : TypeDef) : WriteCall :=
  let bits := td_bits t in
  match td_wire_encoding t with
  | BCD => WriteBcd bits
  | BCD_S => WriteBcdSigned bits
  | BNR_S => WriteSignMagnitude bits
  | CB2 | BNR | WireDefault =>
      match td_base t with
      | BaseFloat =>
          if bits =? 16 then WriteF16 EndianBig else if bits <=? 32 then WriteF32 EndianBig
          else if bits <=? 48 then WriteF48 EndianBig else if bits <=? 64 then WriteF64 EndianBig else WriteWideFloat bits
      | BaseInt => WriteSignedBits bits
      | _ => WriteBits bits
      end
  end.

Definition type_write_stmt (value : string) (t : TypeDef) : string := write_text value (type_write_call t).

(** ** Length prefixes *)

Record PrefixTypeInfo := mkPti { pti_bits : Z; pti_endian : Ast.Endian }.

Definition resolve_prefix_type (p : Protocol) (idx : TypeIndex) (type_name : string) : option PrefixTypeInfo :=
  t ← type_at p idx type_name;
  Some (match t with Some t => mkPti (td_bits t) (td_endian t) | None => mkPti 8 EndianBig end).

Definition prefix_read_call (pti : PrefixTypeInfo) : ReadCall :=
  if pti_bits pti <=? 8 then ReadU8 else if pti_bits pti <=? 16 then ReadU16 (pti_endian pti)
  else if pti_bits pti <=? 32 then ReadU32 (pti_endian pti) else ReadU64 (pti_endian pti).
Definition emit_prefix_read (pti : PrefixTypeInfo) : string := read_text "r" (prefix_read_call pti).

Definition prefix_write_call (pti : PrefixTypeInfo) : WriteCall :=
  if pti_bits pti <=? 8 then WriteU8 else if pti_bits pti <=? 16 then WriteU16 (pti_endian pti)
  else if pti_bits pti <=? 32 then WriteU32 (pti_endian pti) else WriteU64 (pti_endian pti).
(** Here the cast is written in any case. *)
Definition emit_prefix_write (pti : PrefixTypeInfo) (value : string) : string :=
  let cast type := "static_cast<" +:+ type +:+ ">(" +:+ value +:+ ")" in
  if pti_bits pti <=? 8 then "w.write_u8(" +:+ cast "uint8_t" +:+ ");"
  else if pti_bits pti <=? 16 then "w.write_u16(" +:+ cast "uint16_t" +:+ ", " +:+ endian_str (pti_endian pti) +:+ ");"
  else if pti_bits pti <=? 32 then "w.write_u32(" +:+ cast "uint32_t" +:+ ", " +:+ endian_str (pti_endian pti) +:+ ");"
  else "w.write_u64(" +:+ cast "uint64_t" +:+ ", " +:+ endian_str (pti_endian pti) +:+ ");".

Definition get_prefix_bytes (pti : PrefixTypeInfo) : Z := Z.quot (pti_bits pti + 7) 8.

(** ** Arithmetic on lengths *)

Definition arith_op_str (op : ArithOp) : string :=
  match op with
  | OpAdd => " + " | OpSub => " - " | OpMul => " * " | OpDiv => " / " | OpMod => " % " | OpNone => ""
  end.

Definition inverse_op (op : ArithOp) : ArithOp :=
  match op with OpAdd => OpSub | OpSub => OpAdd | OpMul => OpDiv | OpDiv => OpMul | OpMod => OpMod | OpNone => OpNone end.

Definition apply_arith (base_expr : string) (m : ArithModifier) : string :=
  if negb (has_modifier m) then base_expr
  else
    let operand := if is_field_operand m then to_member_name (str (mod_field_ref m)) else pretty (mod_literal m) in
    "((" +:+ base_expr +:+ ")" +:+ arith_op_str (mod_op m) +:+ operand +:+ ")".

Definition reverse_arith (base_expr : string) (m : ArithModifier) : string :=
  if negb (has_modifier m) then base_expr
  else "((" +:+ base_expr +:+ ")" +:+ arith_op_str (inverse_op (mod_op m)) +:+ pretty (mod_literal m) +:+ ")".

(** ** What the calls do *)

Definition to_endian (e : Ast.Endian) : endian := match e with EndianBig => Big | EndianLittle => Little end.

(** The reader's operation and the cast of its result. *)
Definition read_meaning (c : ReadCall) : ReadOp * (Z -> Z) :=
  match c with
  | ReadBcd n => (RBcd (sz n), id)
  | ReadBcdSigned n => (RBcdSigned (sz n), id)
  | ReadSignMagnitude n => (RSignMagnitude (sz n), id)
  | ReadF16 e => (RF16 (to_endian e), id)
  | ReadF32 e => (RF32 (to_endian e), id)
  | ReadF48 e => (RF48 (to_endian e), id)
  | ReadF64 e => (RF64 (to_endian e), id)
  | ReadU8 => (RU8, id)
  | ReadU16 e => (RU16 (to_endian e), id)
  | ReadU32 e => (RU32 (to_endian e), id)
  | ReadU64 e => (RU64 (to_endian e), id)
  | ReadI16 e => (RU16 (to_endian e), signed 16)
  | ReadI32 e => (RU32 (to_endian e), signed 32)
  | ReadI64 e => (RU64 (to_endian e), signed 64)
  | ReadSignedBits n => (RSigned (sz n), id)
  | ReadBits n => (RBits (sz n), id)
  end.

(** The writer's operation on a value: the argument is converted to the type of
    the parameter, a width to [size_t].  A float is given by its bit pattern; the
    writer refuses one wider than 64 bits whatever its value. *)
Definition write_meaning (c : WriteCall) (v : Z) : WriteOp :=
  match c with
  | WriteBcd n => WBcd (wrap 64 v) (Z.to_nat (sz n))
  | WriteBcdSigned n => WBcdSigned v (Z.to_nat (sz n))
  | WriteSignMagnitude n => WSignMagnitude v (Z.to_nat (sz n))
  | WriteF16 e => WF16 v (to_endian e)
  | WriteF32 e => WF32 v (to_endian e)
  | WriteF48 e => WF48 v (to_endian e)
  | WriteF64 e => WF64 v (to_endian e)
  | WriteWideFloat n => WBits (wrap 64 v) (Z.to_nat (sz n))
  | WriteU8 => WU8 (wrap 8 v)
  | WriteU16 e => WU16 (wrap 16 v) (to_endian e)
  | WriteU32 e => WU32 (wrap 32 v) (to_endian e)
  | WriteU64 e => WU64 (wrap 64 v) (to_endian e)
  | WriteBool n => WBits (wrap 8 v) (Z.to_nat (sz n))
  | WriteSignedBits n => WSigned v (Z.to_nat (sz n))
  | WriteBits n => WBits (wrap 64 v) (Z.to_nat (sz n))
  end.

Definition run_read_call (c : ReadCall) : R Value :=
  fmap_R (fun v => match v with VInt x => VInt ((read_meaning c).2 x) | _ => v end) (run_read (read_meaning c).1).
