(* ===== verification/StructCodec.v ===== *)
(** * Encoding and decoding the children of a struct

    Models the alignment tracking of the struct emitter
    ([conduit/bgen/src/codegen/cpp_structs.cpp]) and what [cpp_structs_encode.cpp]
    and [cpp_structs_decode.cpp] generate for numeric fields, optional numeric
    fields, reserved bits and alignment.  The emitter follows the position in the
    struct modulo 8, and chooses byte-wise calls where it takes the position to be
    a whole number of bytes. *)

From stdpp Require Import base numbers list gmap strings pretty.
From Stdlib Require Import ZArith Lia SpecFloat.
From S2P Require Import Prelude Bits CoreError Endian BitWriter BitReader BitIO CharConv AutoExpr ExprParser Ast TypeResolver ProtocolIndex Validation WireSizer Names FieldChecks FieldCodec.

Open Scope Z_scope.

(** ** The alignment tracker

    [bit_mod8_]: the position modulo 8, or -1 where it is not known. *)

Definition is_byte_aligned (bit_mod8 : Z) : bool := bit_mod8 =? 0.

Definition advance_bits (bit_mod8 bits : Z) : Z := if bit_mod8 <? 0 then bit_mod8 else Z.rem (bit_mod8 + bits) 8.

Definition advance_bits_variable (bit_mod8 : Z) : Z := if negb (bit_mod8 =? 0) then -1 else bit_mod8.

(** ** Flat children *)

Inductive Item :=
  | IField (i : FieldTypeInfo) (e : Ast.Endian) (optional : bool)
  | IReserved (bits : Z)
  | IAlign (to : Z).

(** A field that the emitter treats as a simple number: no struct, enum, string,
    bytes or scaled field, not inline, and no value the encoder computes. *)
Definition simple_number (f : Field) (i : FieldTypeInfo) : bool :=
  negb (fti_is_struct i || fti_is_enum i || fti_is_string i || fti_is_bytes i || fti_has_field_scale i)
  && negb (f_is_inline f)
  && match f_enum_values f with [] => true | _ => false end
  && match f_auto_expr f with
     | Some a => match auto_kind a with AutoLength | AutoCount => false | _ => true end
     | None => true
     end
  && negb (is_some (f_constraint f)) && negb (is_some (f_bit f)).

(** What a child is for the emitter, if it is flat. *)
Definition flat_item (p : Protocol) (idx : TypeIndex) (c : StructChild) : option Item :=
  match c with
  | ChField f =>
      i ← resolve_field_type p idx f;
      if simple_number f i then Some (IField i (f_endian f) (is_some (f_present_when f))) else None
  | ChReserved r => Some (IReserved (res_bits r))
  | ChAlign a => Some (IAlign (align_to a))
  | ChStruct _ | ChArray _ | ChChoice _ | ChFx _ => None
  end.

(** The loop that splits reserved bits. *)
Fixpoint reserved_chunks (fuel : nat) (remaining : Z) : list Z :=
  match fuel with
  | S n => if 64 <? remaining then 64 :: reserved_chunks n (remaining - 64) else [remaining]
  | O => [remaining]
  end.

(** ** Encoding

    The operations generated for an item whose member holds a value, or none, and
    the tracker after it. *)

Definition encode_value (m : Z) (i : FieldTypeInfo) (e : Ast.Endian) (v : option Z) : list WriteOp :=
  match v with Some v => [write_meaning (write_call i e (is_byte_aligned m)) v] | None => [] end.

Definition encode_number (m : Z) (i : FieldTypeInfo) (e : Ast.Endian) (v : option Z) : list WriteOp * Z :=
  (encode_value m i e v, advance_bits m (fti_bits i)).

Definition encode_optional (m : Z) (i : FieldTypeInfo) (e : Ast.Endian) (v : option Z) : list WriteOp * Z :=
  (encode_value m i e v, advance_bits_variable m).

Definition encode_reserved (m n : Z) : list WriteOp * Z :=
  (map (fun k => WBits 0 (Z.to_nat (sz k))) (reserved_chunks (Z.to_nat n) n), advance_bits m n).

Definition encode_align (n : Z) : list WriteOp * Z := ([WAlignTo (Z.to_nat (sz n))], 0).

Definition encode_item (m : Z) (it : Item) (v : option Z) : list WriteOp * Z :=
  match it with
  | IField i e optional => if optional then encode_optional m i e v else encode_number m i e v
  | IReserved n => encode_reserved m n
  | IAlign n => encode_align n
  end.

Fixpoint encode_items (m : Z) (l : list (Item * option Z)) : list WriteOp :=
  match l with
  | [] => []
  | (it, v) :: l => let '(ops, m) := encode_item m it v in ops ++ encode_items m l
  end.

(** ** Decoding *)

Inductive ReadStep := StepCall (c : ReadCall) | StepSkip (n : Z) | StepAlign (n : Z).

Definition decode_number (m : Z) (i : FieldTypeInfo) (e : Ast.Endian) : option (list ReadStep * Z) :=
  c ← read_call i e (is_byte_aligned m);
  Some ([StepCall c], advance_bits m (fti_bits i)).

(** [present] says whether the condition of an optional field holds. *)
Definition decode_optional (m : Z) (i : FieldTypeInfo) (e : Ast.Endian) (present : bool) : option (list ReadStep * Z) :=
  '(body, after) ← decode_number m i e;
  Some (if present then body else [], advance_bits_variable after).

Definition decode_reserved (m n : Z) : option (list ReadStep * Z) :=
  Some (map StepSkip (reserved_chunks (Z.to_nat n) n), advance_bits m n).

Definition decode_align (n : Z) : option (list ReadStep * Z) := Some ([StepAlign n], 0).

Definition decode_item (m : Z) (it : Item) (present : bool) : option (list ReadStep * Z) :=
  match it with
  | IField i e optional => if optional then decode_optional m i e present else decode_number m i e
  | IReserved n => decode_reserved m n
  | IAlign n => decode_align n
  end.

Fixpoint decode_items (m : Z) (l : list (Item * bool)) : option (list ReadStep) :=
  match l with
  | [] => Some []
  | (it, present) :: l =>
      '(steps, m) ← decode_item m it present;
      rest ← decode_items m l;
      Some (steps ++ rest)
  end.

Definition run_step (s : ReadStep) : R Value :=
  match s with
  | StepCall c => run_read_call c
  | StepSkip n => run_read (RSkip (sz n))
  | StepAlign n => run_read (RAlignTo (sz n))
  end.

Fixpoint run_steps (l : list ReadStep) : R (list Value) :=
  match l with
  | [] => ret []
  | s :: l => bind (run_step s) (fun v => bind (run_steps l) (fun vs => ret (v :: vs)))
  end.

(** ** Which values a field can hold *)

Definition signed_word (i : FieldTypeInfo) : bool :=
  fti_is_signed i && ((fti_bits i =? 16) || (fti_bits i =? 32) || (fti_bits i =? 64)).

Definition integer_ok (i : FieldTypeInfo) (e : Ast.Endian) (v : Z) : Prop :=
  0 < fti_bits i <= 64
  /\ (if fti_is_signed i then - 2 ^ (fti_bits i - 1) <= v < 2 ^ (fti_bits i - 1)
      else if fti_is_bool i then 0 <= v < 2 else 0 <= v < 2 ^ fti_bits i)
  /\ (fti_is_signed i = true -> fti_is_bool i = false)
  /\ (signed_word i = true -> e = EndianBig).

Definition float_ok (i : FieldTypeInfo) (v : Z) : Prop :=
  match fti_bits i with
  | 16 | 32 => 0 <= v < 2 ^ 32
  | 48 | 64 => 0 <= v < 2 ^ 64
  | _ => False
  end.

Definition value_ok (i : FieldTypeInfo) (e : Ast.Endian) (v : Z) : Prop :=
  match fti_wire_encoding i with
  | BCD => exists k, fti_bits i = 4 * k /\ 0 < k <= 16 /\ 0 <= v < 10 ^ k
  | BCD_S => exists k, fti_bits i = 4 * k + 1 /\ 0 < k <= 15 /\ Z.abs v < 10 ^ k
  | BNR_S => 1 < fti_bits i <= 64 /\ Z.abs v < 2 ^ (fti_bits i - 1)
  | CB2 | BNR | WireDefault => if fti_is_float i then float_ok i v else integer_ok i e v
  end.

(** Floats are read and written from the next byte boundary on. *)
Definition is_plain_float (i : FieldTypeInfo) : bool :=
  match fti_wire_encoding i with BCD | BCD_S | BNR_S => false | CB2 | BNR | WireDefault => fti_is_float i end.

(** What comes back: half and 48-bit floats are rounded to their width. *)
Definition codec_value (i : FieldTypeInfo) (v : Z) : Z :=
  if is_plain_float i then
    match fti_bits i with
    | 16 => default 0 (f16_to_f32 (f32_to_f16 v))
    | 48 => f48_to_f64 (f64_to_f48 v)
    | _ => v
    end
  else v.

(** ** One field *)

Definition codec_ok (rc : ReadCall) (op : WriteOp) (bits : Z) (x : Z) (pre : list bool) : Prop :=
  fits op /\ len (appended op pre) = bits
  /\ forall r post, cursor r pre (appended op pre ++ post) ->
       exists r', run_read_call rc r = Some (Ok (VInt x), r') /\ cursor r' (pre ++ appended op pre) post.

(** A call that reads what the write wrote, without a cast. *)
Lemma codec_same rc op bits x pre :
  read_meaning rc = (read_of op, id) -> read_back op = VInt x -> fits op -> len (appended op pre) = bits -> codec_ok rc op bits x pre.
Proof.
  intros E1 E2 Hf Hl. split_and!; [done|done|]. intros r post Hc. destruct (read_of_cursor op r pre post Hf Hc) as (r' & Er & Hr).
  exists r'. split; [|done]. unfold run_read_call. rewrite E1. cbn [fst snd]. rewrite E2 in Er. by rewrite (fmap_R_ok _ _ _ (VInt x) r').
Qed.

Lemma aligned_pad (pre : list bool) : (length pre mod 8 = 0)%nat -> zeros (pad8 (length pre)) = [].
Proof. intros H. unfold pad8. rewrite H. done. Qed.

(** A signed word: written bit by bit, read as bytes and cast. *)
Lemma codec_word rc v (k : nat) pre w :
  read_meaning rc = (w, signed (8 * Z.of_nat k)) -> (k = 2 \/ k = 4 \/ k = 8)%nat ->
  w = match k with 2%nat => RU16 Big | 4%nat => RU32 Big | _ => RU64 Big end ->
  (length pre mod 8 = 0)%nat -> - 2 ^ (8 * Z.of_nat k - 1) <= v < 2 ^ (8 * Z.of_nat k - 1) ->
  codec_ok rc (WSigned v (8 * k)) (8 * Z.of_nat k) v pre.
Proof.
  intros E Hk Ew Ha Hv. cbn [codec_ok]. split_and!.
  - cbn [fits]. rewrite Nat2Z.inj_mul. split; [exact Hv|lia].
  - cbn [appended]. rewrite len_to_bits. lia.
  - intros r post Hc. cbn [appended] in *.
    pose (u := v mod 2 ^ (8 * Z.of_nat k)). assert (0 <= u < 2 ^ (8 * Z.of_nat k)) as Hu by (apply Z.mod_pos_bound; lia).
    assert (to_bits (8 * k) v = zeros (pad8 (length pre)) ++ bytes_bits (wire_bytes Big k u)) as Eb.
    { rewrite aligned_pad by done. cbn [app wire_bytes]. rewrite bytes_bits_be_bytes. unfold u.
      apply to_bits_ext. intros i Hi. rewrite Z.mod_pow2_bits_low by lia. done. }
    pose (op := match k with 2%nat => WU16 u Big | 4%nat => WU32 u Big | _ => WU64 u Big end).
    assert (fits op /\ read_of op = w /\ read_back op = VInt u /\ appended op pre = to_bits (8 * k) v) as (Hf & Er & Ebk & Eop).
    { rewrite Eb. subst op w. destruct Hk as [-> | [-> | ->]]; done. }
    rewrite <- Eop in Hc. destruct (read_of_cursor op r pre post Hf Hc) as (r' & E1 & E2). rewrite Eop in E2.
    exists r'. split; [|done]. unfold run_read_call. rewrite E. cbn [fst snd]. rewrite <- Er.
    rewrite (fmap_R_ok _ _ _ (VInt u) r') by (by rewrite <- Ebk). do 3 f_equal. unfold u. rewrite signed_wrap; [done|lia|done].
Qed.

Lemma width_nat n : 0 <= n <= 64 -> Z.of_nat (Z.to_nat (sz n)) = n /\ sz n = n.
Proof. intros H. rewrite sz_small by (unfold SIZE_MAX; lia). rewrite Z2Nat.id by lia. done. Qed.

Lemma codec_bcd i e v pre : fti_wire_encoding i = BCD -> value_ok i e v ->
  codec_ok (ReadBcd (fti_bits i)) (WBcd (wrap 64 v) (Z.to_nat (sz (fti_bits i)))) (fti_bits i) v pre.
Proof.
  unfold value_ok. intros -> (k & Ek & Hk & Hv). rewrite Ek.
  assert (10 ^ k <= 10 ^ 16) by (apply Z.pow_le_mono_r; lia). rewrite wrap_small by lia.
  destruct (width_nat (4 * k)) as [En Es]; [lia|]. apply codec_same; cbn [read_meaning read_of read_back fits appended].
  - by rewrite En, Es.
  - done.
  - exists (Z.to_nat k). rewrite Z2Nat.id by lia. split_and!; [|lia..]. lia.
  - by rewrite len_to_bits.
Qed.

Lemma codec_bcd_signed i e v pre : fti_wire_encoding i = BCD_S -> value_ok i e v ->
  codec_ok (ReadBcdSigned (fti_bits i)) (WBcdSigned v (Z.to_nat (sz (fti_bits i)))) (fti_bits i) v pre.
Proof.
  unfold value_ok. intros -> (k & Ek & Hk & Hv). rewrite Ek.
  destruct (width_nat (4 * k + 1)) as [En Es]; [lia|]. apply codec_same; cbn [read_meaning read_of read_back fits appended].
  - by rewrite En, Es.
  - done.
  - exists (Z.to_nat k). rewrite Z2Nat.id by lia. split_and!; [|lia..]. lia.
  - by rewrite len_to_bits.
Qed.

Lemma codec_sign_magnitude i e v pre : fti_wire_encoding i = BNR_S -> value_ok i e v ->
  codec_ok (ReadSignMagnitude (fti_bits i)) (WSignMagnitude v (Z.to_nat (sz (fti_bits i)))) (fti_bits i) v pre.
Proof.
  unfold value_ok. intros -> (Hk & Hv). destruct (width_nat (fti_bits i)) as [En Es]; [lia|].
  apply codec_same; cbn [read_meaning read_of read_back fits appended].
  - by rewrite En, Es.
  - done.
  - rewrite En. split; [lia|done].
  - by rewrite len_to_bits.
Qed.

Lemma codec_float i e v (pre : list bool) : is_plain_float i = true -> float_ok i v -> (length pre mod 8 = 0)%nat ->
  forall b, exists rc, read_call i e b = Some rc
    /\ codec_ok rc (write_meaning (write_call i e b) v) (fti_bits i) (codec_value i v) pre.
Proof.
  unfold is_plain_float, float_ok, codec_value, is_plain_float. intros Hf Hv Ha b.
  unfold read_call, write_call. destruct (fti_wire_encoding i) eqn:Ee; try done; rewrite Hf.
  all: assert (fti_bits i = 16 \/ fti_bits i = 32 \/ fti_bits i = 48 \/ fti_bits i = 64) as Hb
    by (destruct (fti_bits i) as [|q|q]; try done; repeat (destruct q as [q|q|]; try done); auto).
  all: destruct Hb as [Eb | [Eb | [Eb | Eb]]]; rewrite Eb in *; cbn -[f16_to_f32 f32_to_f16 f48_to_f64 f64_to_f48 codec_ok].
  all: eexists; (split; [reflexivity|]); apply codec_same; try done;
    cbn [appended]; rewrite aligned_pad by done; cbn [app]; rewrite len_bytes_bits; unfold len; by rewrite length_wire_bytes.
Qed.

Lemma codec_bits v n pre : 0 < n <= 64 -> 0 <= v < 2 ^ n -> codec_ok (ReadBits n) (WBits v (Z.to_nat (sz n))) n v pre.
Proof.
  intros Hn Hv. destruct (width_nat n) as [En Es]; [lia|]. apply codec_same; cbn [read_meaning read_of read_back fits appended].
  - by rewrite En, Es.
  - done.
  - rewrite En. split; [done|lia].
  - by rewrite len_to_bits.
Qed.

Lemma codec_signed_bits v n pre : 0 < n <= 64 -> - 2 ^ (n - 1) <= v < 2 ^ (n - 1) ->
  codec_ok (ReadSignedBits n) (WSigned v (Z.to_nat (sz n))) n v pre.
Proof.
  intros Hn Hv. destruct (width_nat n) as [En Es]; [lia|]. apply codec_same; cbn [read_meaning read_of read_back fits appended].
  - by rewrite En, Es.
  - done.
  - rewrite En. split; [done|lia].
  - by rewrite len_to_bits.
Qed.

(** The byte-wise calls for an unsigned field. *)
Lemma codec_bytes i e v (pre : list bool) : (length pre mod 8 = 0)%nat -> 0 <= v < 2 ^ fti_bits i ->
  (fti_bits i = 8 -> codec_ok ReadU8 (WU8 (wrap 8 v)) (fti_bits i) v pre)
  /\ (fti_bits i = 16 -> codec_ok (ReadU16 e) (WU16 (wrap 16 v) (to_endian e)) (fti_bits i) v pre)
  /\ (fti_bits i = 32 -> codec_ok (ReadU32 e) (WU32 (wrap 32 v) (to_endian e)) (fti_bits i) v pre)
  /\ (fti_bits i = 64 -> codec_ok (ReadU64 e) (WU64 (wrap 64 v) (to_endian e)) (fti_bits i) v pre).
Proof.
  intros Ha Hv. split_and!; intros E; rewrite E in *; rewrite wrap_small by done; apply codec_same; try done;
    cbn [appended]; rewrite aligned_pad by done; cbn [app]; rewrite len_bytes_bits; unfold len; by rewrite ?length_wire_bytes.
Qed.

(** The words a signed field may be read as. *)
Lemma codec_signed_word i v (pre : list bool) : (length pre mod 8 = 0)%nat -> - 2 ^ (fti_bits i - 1) <= v < 2 ^ (fti_bits i - 1) ->
  (fti_bits i = 16 -> codec_ok (ReadI16 EndianBig) (WSigned v (Z.to_nat (sz (fti_bits i)))) (fti_bits i) v pre)
  /\ (fti_bits i = 32 -> codec_ok (ReadI32 EndianBig) (WSigned v (Z.to_nat (sz (fti_bits i)))) (fti_bits i) v pre)
  /\ (fti_bits i = 64 -> codec_ok (ReadI64 EndianBig) (WSigned v (Z.to_nat (sz (fti_bits i)))) (fti_bits i) v pre).
Proof.
  intros Ha Hv. split_and!; intros E; rewrite E in *.
  - exact (codec_word (ReadI16 EndianBig) v 2 pre _ eq_refl (or_introl eq_refl) eq_refl Ha Hv).
  - exact (codec_word (ReadI32 EndianBig) v 4 pre _ eq_refl (or_intror (or_introl eq_refl)) eq_refl Ha Hv).
  - exact (codec_word (ReadI64 EndianBig) v 8 pre _ eq_refl (or_intror (or_intror eq_refl)) eq_refl Ha Hv).
Qed.

Lemma codec_integer i e v (b : bool) (pre : list bool) :
  is_plain_float i = false -> fti_is_float i = false -> integer_ok i e v -> (b = true -> (length pre mod 8 = 0)%nat) ->
  match fti_wire_encoding i with BCD | BCD_S | BNR_S => False | CB2 | BNR | WireDefault => True end ->
  exists rc, read_call i e b = Some rc /\ codec_ok rc (write_meaning (write_call i e b) v) (fti_bits i) v pre.
Proof.
  intros Hp Hf (Hn & Hv & Hsb & Hw) Ha He. unfold read_call, write_call.
  rewrite Hf, (proj2 (Z.ltb_lt 0 _)), (proj2 (Z.leb_le _ 64)) by lia. cbn [andb].
  unfold signed_word in Hw. destruct (fti_is_signed i) eqn:Hs; cbn [negb andb] in *; rewrite ?andb_false_r, ?andb_true_r.
  - rewrite (Hsb eq_refl). destruct b; cbn [andb].
    + destruct (codec_signed_word i v pre (Ha eq_refl) Hv) as (W16 & W32 & W64).
      destruct (Z.eqb_spec (fti_bits i) 16); [|destruct (Z.eqb_spec (fti_bits i) 32); [|destruct (Z.eqb_spec (fti_bits i) 64)]];
        cbn [andb orb] in *; rewrite ?(Hw eq_refl); eexists; (split; [by destruct (fti_wire_encoding i)|]);
        destruct (fti_wire_encoding i); try done; cbn [write_meaning]; auto; apply codec_signed_bits; lia.
    + eexists. split; [by destruct (fti_wire_encoding i)|].
      destruct (fti_wire_encoding i); try done; cbn [write_meaning]; apply codec_signed_bits; lia.
  - assert (0 <= v < 2 ^ fti_bits i) as Hv'.
    { destruct (fti_is_bool i); [|done]. assert (2 ^ 1 <= 2 ^ fti_bits i) by (apply Z.pow_le_mono_r; lia). lia. }
    assert (forall n, fti_bits i <= n -> 0 <= v < 2 ^ n) as Hmono.
    { intros n Hle. assert (2 ^ fti_bits i <= 2 ^ n) by (apply Z.pow_le_mono_r; lia). lia. }
    assert (codec_ok (ReadBits (fti_bits i)) (write_meaning (if fti_is_bool i then WriteBool (fti_bits i) else WriteBits (fti_bits i)) v)
      (fti_bits i) v pre) as Hbits.
    { destruct (fti_is_bool i); cbn [write_meaning].
      - rewrite wrap_small by lia. by apply codec_bits.
      - rewrite wrap_small by (apply Hmono; lia). by apply codec_bits. }
    destruct b; cbn [andb].
    + destruct (codec_bytes i e v pre (Ha eq_refl) Hv') as (W8 & W16 & W32 & W64).
      destruct (Z.eqb_spec (fti_bits i) 8); [|destruct (Z.eqb_spec (fti_bits i) 16); [|destruct (Z.eqb_spec (fti_bits i) 32);
        [|destruct (Z.eqb_spec (fti_bits i) 64)]]];
        cbn [andb]; eexists; (split; [by destruct (fti_wire_encoding i)|]);
        destruct (fti_wire_encoding i); try done; cbn [write_meaning]; auto.
    + eexists. split; [by destruct (fti_wire_encoding i)|]. by destruct (fti_wire_encoding i).
Qed.

Lemma codec_field i e v (b : bool) (pre : list bool) :
  value_ok i e v -> (b = true -> (length pre mod 8 = 0)%nat) -> (is_plain_float i = true -> (length pre mod 8 = 0)%nat) ->
  exists rc, read_call i e b = Some rc
    /\ codec_ok rc (write_meaning (write_call i e b) v) (fti_bits i) (codec_value i v) pre.
Proof.
  intros Hv Hb Hf. destruct (is_plain_float i) eqn:Ef.
  { apply codec_float; [done| |by apply Hf]. unfold is_plain_float, value_ok in *. destruct (fti_wire_encoding i); try done; by rewrite Ef in Hv. }
  unfold codec_value. rewrite Ef. destruct (fti_wire_encoding i) eqn:Ee.
  all: try (assert (fti_is_float i = false) as Ef' by (unfold is_plain_float in Ef; by rewrite Ee in Ef);
    apply codec_integer; [done|done| |done|by rewrite Ee]; unfold value_ok in Hv; by rewrite Ee, Ef' in Hv).
  - eexists. unfold read_call, write_call. rewrite Ee. split; [done|]. by eapply codec_sign_magnitude.
  - eexists. unfold read_call, write_call. rewrite Ee. split; [done|]. by eapply codec_bcd.
  - eexists. unfold read_call, write_call. rewrite Ee. split; [done|]. by eapply codec_bcd_signed.
Qed.

(** ** One item *)

(** An item of a struct with the value of its member.  A float stands at a byte
    boundary, an optional field is a whole number of bytes. *)
Definition item_ok (m : Z) (it : Item) (v : option Z) : Prop :=
  match it, v with
  | IField i e optional, Some v =>
      value_ok i e v /\ (is_plain_float i = true -> m = 0) /\ (optional = true -> fti_bits i mod 8 = 0)
  | IField i e optional, None => optional = true /\ fti_bits i mod 8 = 0 /\ 0 < fti_bits i <= 64
  | IReserved n, None => 0 < n
  | IAlign n, None => 0 < n <= 8
  | _, _ => False
  end.

Fixpoint items_ok (m : Z) (l : list (Item * option Z)) : Prop :=
  match l with
  | [] => True
  | (it, v) :: l => item_ok m it v /\ items_ok (encode_item m it v).2 l
  end.

(** What the steps of an item deliver. *)
Definition item_values (it : Item) (v : option Z) : list Value :=
  match it with
  | IField i _ _ => match v with Some v => [VInt (codec_value i v)] | None => [] end
  | IReserved n => map (fun _ => VUnit) (reserved_chunks (Z.to_nat n) n)
  | IAlign _ => [VUnit]
  end.

Definition items_values (l : list (Item * option Z)) : list Value := flat_map (fun '(it, v) => item_values it v) l.

(** The tracker says nothing, or the position. *)
Definition tracks (m : Z) (pre : list bool) : Prop := m = -1 \/ m = Z.of_nat (length pre mod 8).

Lemma tracks_aligned m pre : tracks m pre -> m = 0 -> (length pre mod 8 = 0)%nat.
Proof. intros [-> | ->] H; lia. Qed.

Lemma tracks_range m pre : tracks m pre -> -1 <= m < 8.
Proof. pose proof (Nat.mod_upper_bound (length pre) 8). intros [-> | ->]; lia. Qed.

Lemma tracks_advance m pre bits n : tracks m pre -> len bits = n -> tracks (advance_bits m n) (pre ++ bits).
Proof.
  intros H <-. unfold advance_bits. destruct H as [-> | ->]; [by left|]. right.
  rewrite (proj2 (Z.ltb_ge _ 0)) by lia. unfold len. rewrite Z.rem_mod_nonneg by lia.
  rewrite length_app, !Nat2Z.inj_mod, Nat2Z.inj_add. change (Z.of_nat 8) with 8. by rewrite Zplus_mod_idemp_l.
Qed.

(** After a whole number of bytes the tracker is right whether they were there or
    not. *)
Lemma tracks_variable m pre bits : tracks m pre -> len bits mod 8 = 0 -> tracks (advance_bits_variable m) (pre ++ bits).
Proof.
  intros H Hb. unfold advance_bits_variable. destruct (Z.eqb_spec m 0) as [->|]; cbn; [|by left]. right.
  pose proof (tracks_aligned 0 pre H eq_refl). unfold len in Hb. rewrite length_app, Nat2Z.inj_mod, Nat2Z.inj_add.
  change (Z.of_nat 8) with 8. rewrite <- Zplus_mod_idemp_r, Hb, Z.add_0_r. pose proof (Nat2Z.inj_mod (length pre) 8) as E. change (Z.of_nat 8) with 8 in E. rewrite <- E. lia.
Qed.

(** On such a field encoder and decoder agree. *)
Lemma optional_trackers m n : -1 <= m < 8 -> n mod 8 = 0 -> 0 < n ->
  advance_bits_variable (advance_bits m n) = advance_bits_variable m.
Proof.
  intros Hm Hn Hp. unfold advance_bits_variable, advance_bits. destruct (Z.ltb_spec m 0).
  - replace m with (-1) by lia. done.
  - rewrite Z.rem_mod_nonneg by lia. rewrite <- Zplus_mod_idemp_r, Hn, Z.add_0_r, Z.mod_small by lia. done.
Qed.

Lemma encoded_app a b pre : encoded (a ++ b) pre = encoded a pre ++ encoded b (pre ++ encoded a pre).
Proof.
  revert pre. induction a as [|op a IH]; intros pre; cbn [app encoded]; [by rewrite app_nil_r|].
  rewrite IH, <- !app_assoc. done.
Qed.

Lemma encoded_one op pre : encoded [op] pre = appended op pre.
Proof. cbn. by rewrite app_nil_r. Qed.

(** Steps that read what was written. *)
Definition steps_ok (steps : list ReadStep) (ops : list WriteOp) (vs : list Value) (pre : list bool) : Prop :=
  Forall fits ops
  /\ forall r post, cursor r pre (encoded ops pre ++ post) ->
       exists r', run_steps steps r = Some (Ok vs, r') /\ cursor r' (pre ++ encoded ops pre) post.

Lemma steps_ok_nil pre : steps_ok [] [] [] pre.
Proof. split; [done|]. intros r post H. exists r. by rewrite app_nil_r. Qed.

Lemma run_steps_app a b r : run_steps (a ++ b) r
  = (bind (run_steps a) (fun vs => bind (run_steps b) (fun ws => ret (vs ++ ws)))) r.
Proof.
  revert r. induction a as [|s a IH]; intros r; cbn [app run_steps].
  - rewrite (bind_ok _ _ _ _ _ (eq_refl (ret [] r))). cbn [app]. unfold bind, ret. destruct (run_steps b r) as [[[?|?] ?]|]; reflexivity.
  - unfold bind, ret in *. destruct (run_step s r) as [[[v|e] r1]|]; [|reflexivity|reflexivity]. rewrite IH.
    destruct (run_steps a r1) as [[[vs|e] r2]|]; [|reflexivity|reflexivity].
    destruct (run_steps b r2) as [[[ws|e] r3]|]; reflexivity.
Qed.

Lemma steps_ok_app s1 s2 o1 o2 v1 v2 pre :
  steps_ok s1 o1 v1 pre -> steps_ok s2 o2 v2 (pre ++ encoded o1 pre) -> steps_ok (s1 ++ s2) (o1 ++ o2) (v1 ++ v2) pre.
Proof.
  intros [F1 H1] [F2 H2]. split; [by apply Forall_app|]. intros r post Hc. rewrite encoded_app, <- app_assoc in Hc.
  destruct (H1 _ _ Hc) as (r1 & E1 & C1). destruct (H2 _ _ C1) as (r2 & E2 & C2). exists r2.
  rewrite run_steps_app, (bind_ok _ _ _ _ _ E1), (bind_ok _ _ _ _ _ E2), encoded_app, app_assoc. done.
Qed.

Lemma steps_ok_one s op v pre :
  fits op -> (forall r post, cursor r pre (appended op pre ++ post) ->
    exists r', run_step s r = Some (Ok v, r') /\ cursor r' (pre ++ appended op pre) post) -> steps_ok [s] [op] [v] pre.
Proof.
  intros Hf H. split; [by constructor|]. intros r post Hc. rewrite encoded_one in *. destruct (H r post Hc) as (r' & E & C).
  exists r'. cbn [run_steps]. rewrite (bind_ok _ _ _ _ _ E). done.
Qed.

Lemma chunks_spec fuel n : 0 < n <= 64 + Z.of_nat fuel ->
  Forall (fun k => 0 < k <= 64) (reserved_chunks fuel n) /\ foldr Z.add 0 (reserved_chunks fuel n) = n.
Proof.
  revert n. induction fuel as [|fuel IH]; intros n Hn; cbn [reserved_chunks].
  { split; [constructor; [lia|done]|cbn; lia]. }
  destruct (Z.ltb_spec 64 n).
  - destruct (IH (n - 64)) as [IH1 IH2]; [lia|]. split; [by constructor|]. cbn. lia.
  - split; [constructor; [lia|done]|cbn; lia].
Qed.

Definition reserved_ops (ks : list Z) : list WriteOp := map (fun k => WBits 0 (Z.to_nat (sz k))) ks.

Lemma skip_ok k pre : 0 < k <= 64 -> steps_ok [StepSkip k] [WBits 0 (Z.to_nat (sz k))] [VUnit] pre.
Proof.
  intros Hk. destruct (width_nat k) as [En Es]; [lia|]. apply steps_ok_one.
  - cbn [fits]. rewrite En. split; [|lia]. assert (0 < 2 ^ k) by (apply Z.pow_pos_nonneg; lia). lia.
  - intros r post Hc. cbn [appended] in *. cbn [run_step run_read]. rewrite Es in *.
    assert (len (to_bits (Z.to_nat k) 0) = k) as Hl by by rewrite len_to_bits.
    apply (bit_read (fun _ => VUnit) _ _ _ _ _ tt k Hc Hl). unfold skip_bits. rewrite remaining_bits_rest by apply Hc.
    rewrite (cursor_rest _ _ _ Hc), len_app, Hl. pose proof (len_nonneg post). rewrite (proj2 (Z.ltb_ge _ _)) by lia. done.
Qed.

Lemma reserved_ok ks pre : Forall (fun k => 0 < k <= 64) ks ->
  steps_ok (map StepSkip ks) (reserved_ops ks) (map (fun _ => VUnit) ks) pre
  /\ len (encoded (reserved_ops ks) pre) = foldr Z.add 0 ks.
Proof.
  intros H. revert pre. induction H as [|k ks Hk _ IH]; intros pre; [split; [apply steps_ok_nil|done]|].
  destruct (width_nat k) as [En _]; [lia|]. destruct (IH (pre ++ encoded [WBits 0 (Z.to_nat (sz k))] pre)) as [IH1 IH2]. split.
  - exact (steps_ok_app [StepSkip k] _ [_] _ [VUnit] _ pre (skip_ok k pre Hk) IH1).
  - change (reserved_ops (k :: ks)) with ([WBits 0 (Z.to_nat (sz k))] ++ reserved_ops ks). rewrite encoded_app, len_app, IH2, encoded_one.
    cbn [appended foldr]. by rewrite len_to_bits, En.
Qed.

Lemma align_ok n pre : 0 < n <= 8 ->
  steps_ok [StepAlign n] [WAlignTo (Z.to_nat (sz n))] [VUnit] pre
  /\ (length (pre ++ encoded [WAlignTo (Z.to_nat (sz n))] pre) mod 8 = 0)%nat.
Proof.
  intros Hn. destruct (width_nat n) as [En Es]; [lia|]. assert (fits (WAlignTo (Z.to_nat (sz n)))) as Hf
    by (cbn [fits]; unfold SIZE_MAX; lia). split.
  - apply steps_ok_one; [done|]. intros r post Hc. destruct (read_of_cursor _ _ _ _ Hf Hc) as (r' & E & C).
    cbn [read_of read_back] in E. rewrite En in E. exists r'. cbn [run_step]. split; [by rewrite Es|exact C].
  - rewrite encoded_one. cbn [appended]. rewrite decide_False by lia. rewrite app_assoc. fold (align8 pre).
    rewrite length_app, length_replicate, Nat.mul_comm, Nat.Div0.mod_add. apply align8_mod.
Qed.

(** The bits of an item; of an alignment, what it takes at this point. *)
Definition item_width (it : Item) (v : option Z) : Z :=
  match it with
  | IField i _ _ => match v with Some _ => fti_bits i | None => 0 end
  | IReserved n => n
  | IAlign _ => 0
  end.
Definition is_align (it : Item) : bool := match it with IAlign _ => true | _ => false end.

Lemma item_codec m it v pre : item_ok m it v -> tracks m pre ->
  exists steps, decode_item m it (is_some v) = Some (steps, (encode_item m it v).2)
    /\ steps_ok steps (encode_item m it v).1 (item_values it v) pre
    /\ tracks (encode_item m it v).2 (pre ++ encoded (encode_item m it v).1 pre)
    /\ (is_align it = false -> len (encoded (encode_item m it v).1 pre) = item_width it v).
Proof.
  intros Hok Ht. pose proof (tracks_range _ _ Ht) as Hr. destruct it as [i e optional|n|n]; cbn [item_ok] in Hok.
  - assert (encode_item m (IField i e optional) v = (encode_value m i e v, if optional then advance_bits_variable m else advance_bits m (fti_bits i)))
      as -> by by destruct optional.
    unfold decode_item, decode_optional, decode_number. destruct v as [v|]; cbn [encode_value item_values item_width is_some fst snd].
    + destruct Hok as (Hv & Hf & Ho).
      assert (is_byte_aligned m = true -> (length pre mod 8 = 0)%nat) as Hal
        by (unfold is_byte_aligned; intros E%Z.eqb_eq; by eapply tracks_aligned).
      destruct (codec_field i e v (is_byte_aligned m) pre Hv Hal) as (rc & -> & Hfit & Hlen & Hread);
        [intros E; eapply tracks_aligned; eauto|].
      assert (0 < fti_bits i) as Hpos.
      { unfold value_ok, float_ok, integer_ok in Hv. destruct (fti_wire_encoding i); try lia;
          try (destruct Hv as (? & ? & ? & ?); lia);
          (destruct (fti_is_float i); [|lia]); destruct (fti_bits i); done. }
      cbn [mbind option_bind]. eexists. split; [destruct optional; [by rewrite optional_trackers by auto|done]|].
      split; [|split].
      * destruct optional; by apply steps_ok_one.
      * rewrite encoded_one. destruct optional; [apply tracks_variable|apply tracks_advance]; try done. rewrite Hlen. by apply Ho.
      * intros _. by rewrite encoded_one.
    + destruct Hok as (-> & H8 & Hpos). assert (exists rc, read_call i e (is_byte_aligned m) = Some rc) as [rc ->].
      { unfold read_call. rewrite (proj2 (Z.ltb_lt 0 _)), (proj2 (Z.leb_le _ 64)) by lia.
        destruct (fti_wire_encoding i); try (by eexists); destruct (fti_is_float i); by eexists. }
      cbn [mbind option_bind]. rewrite optional_trackers by (try lia; done). eexists. split_and!; [done|apply steps_ok_nil| |done].
      cbn [encoded]. by apply tracks_variable.
  - destruct v; [done|]. unfold decode_item, encode_item, decode_reserved, encode_reserved; cbn [item_values item_width fst snd].
    destruct (chunks_spec (Z.to_nat n) n) as [Hc Hs]; [lia|]. destruct (reserved_ok _ pre Hc) as [H1 H2].
    eexists. split_and!; [done|exact H1| |]; fold (reserved_ops (reserved_chunks (Z.to_nat n) n)).
    + apply tracks_advance; [done|]. by rewrite H2.
    + intros _. by rewrite H2.
  - destruct v; [done|]. unfold decode_item, encode_item, decode_align, encode_align; cbn [item_values fst snd]. destruct (align_ok n pre Hok) as [H1 H2].
    eexists. split_and!; [done|exact H1| |done]. right. by rewrite H2.
Qed.

Definition presence (l : list (Item * option Z)) : list (Item * bool) := map (fun '(it, v) => (it, is_some v)) l.
Definition items_width (l : list (Item * option Z)) : Z := foldr (fun '(it, v) n => item_width it v + n) 0 l.

Lemma items_codec l : forall m pre, items_ok m l -> tracks m pre ->
  exists steps, decode_items m (presence l) = Some steps /\ steps_ok steps (encode_items m l) (items_values l) pre
    /\ (Forall (fun x => is_align x.1 = false) l -> len (encoded (encode_items m l) pre) = items_width l).
Proof.
  induction l as [|[it v] l IH]; intros m pre Hok Ht.
  { exists []. split_and!; [done|apply steps_ok_nil|done]. }
  destruct Hok as [Hit Hl]. destruct (item_codec m it v pre Hit Ht) as (s1 & E1 & K1 & T1 & W1).
  destruct (encode_item m it v) as [ops m'] eqn:Ee. cbn [fst snd] in *.
  destruct (IH _ _ Hl T1) as (s2 & E2 & K2 & W2). exists (s1 ++ s2).
  cbn [presence map decode_items encode_items items_values flat_map items_width foldr]. rewrite E1, Ee. cbn [mbind option_bind].
  fold (presence l). rewrite E2. cbn. split; [done|]. split; [by apply steps_ok_app|].
  intros [Ha Hf]%Forall_cons. rewrite encoded_app, len_app, W1, W2 by done. done.
Qed.

(** C5: The encoder and the decoder generated for a struct of numbers belong
    together.  Take numeric fields of 1 to 64 bits, signed or not, in every wire
    encoding; floats stand at byte boundaries, signed words of 16, 32 or 64 bits are
    big-endian ([signed_little_endian_swapped] shows why) and optional fields are
    whole bytes ([optional_nibble_misread]); reserved bits and alignment may stand
    between them; all values fit ([items_ok]).  Then the generated writes succeed, and
    the generated reads deliver the same values again (half and 48-bit floats rounded
    to their width).  Without alignment the encoder writes exactly the sum of the
    widths: the byte-wise calls, which skip to a byte boundary, are chosen only where
    the position is one. *)
Theorem generated_codec_roundtrip (l : list (Item * option Z)) :
  items_ok 0 l -> total_bits (encode_items 0 l) <= SIZE_MAX - 32 ->
  exists w d r steps, run_writes (encode_items 0 l) new_writer = Some w /\ finish w = (Ok d, new_writer)
    /\ decode_items 0 (presence l) = Some steps /\ run_steps steps (new_reader d) = Some (Ok (items_values l), r)
    /\ (Forall (fun x => is_align x.1 = false) l -> bit_pos_ w = items_width l).
Proof.
  intros Hok Hsize. destruct (items_codec l 0 [] Hok) as (steps & Es & (Hf & Hread) & Hw); [by right|].
  destruct (run_writes_repr _ new_writer [] repr_new Hf) as (w & Ew & Rw & Lw); [unfold room; simpl; lia|].
  simpl in Rw, Lw. pose proof (repr_pos _ _ Rw) as Ep. set (bits := encoded (encode_items 0 l) []) in *.
  destruct (finish_repr w bits Rw) as (d & Ed & Hb & Hbits); [unfold room; lia|].
  pose proof (f_equal len Hbits) as El. rewrite len_bytes_bits, align8_len in El. pose proof (pad8_lt (length bits)).
  assert (cursor (new_reader d) [] (bits ++ zeros (pad8 (length bits)))) as Hc.
  { fold (align8 bits). rewrite <- Hbits. apply cursor_new; [done|lia]. }
  destruct (Hread _ _ Hc) as (r & Er & _). exists w, d, r, steps. split_and!; [done..|].
  intros Hna. by rewrite Ep, Hw.
Qed.

(** A struct with most of what the emitter knows: a 3-bit number and 5 reserved
    bits, a little-endian word, a signed word, a 12-bit signed number, a packed
    decimal, an optional 16-bit field that is there and one that is not, then
    alignment and a half float. *)
Definition number (bits : Z) (is_signed : bool) (enc : WireEncoding) : FieldTypeInfo :=
  mkFti "" false false false false false false bits is_signed false double_one double_zero 0 false EndianBig enc.

Definition sample_struct : list (Item * option Z) :=
  [(IField (number 3 false WireDefault) EndianBig false, Some 5); (IReserved 5, None);
   (IField (number 16 false WireDefault) EndianLittle false, Some 0xBEEF);
   (IField (number 32 true WireDefault) EndianBig false, Some (-7));
   (IField (number 16 false WireDefault) EndianBig true, Some 77);
   (IField (number 8 false WireDefault) EndianBig true, None);
   (IField (number 12 true CB2) EndianBig false, Some (-1000)); (IField (number 16 false BCD) EndianBig false, Some 1234);
   (IAlign 4, None); (IField (float_info "float" 16) EndianBig false, Some 0x3F800000)].

Lemma sample_struct_ok : items_ok 0 sample_struct.
Proof.
  unfold sample_struct. cbn -[Z.pow]. unfold value_ok, integer_ok, float_ok. cbn -[Z.pow].
  split_and!; try done; try lia; try (intros; done). exists 4. lia.
Qed.

Lemma generated_codec_roundtrip_witness :
  exists w d r steps, run_writes (encode_items 0 sample_struct) new_writer = Some w /\ finish w = (Ok d, new_writer)
    /\ decode_items 0 (presence sample_struct) = Some steps
    /\ run_steps steps (new_reader d) = Some (Ok (items_values sample_struct), r).
Proof.
  destruct (generated_codec_roundtrip sample_struct sample_struct_ok) as (w & d & r & steps & H1 & H2 & H3 & H4 & _).
  - vm_compute. discriminate.
  - exists w, d, r, steps. auto.
Defined.

(** ** What does not come back

    The bytes of a struct and what the decoder makes of them. *)
Definition through_codec (l : list (Item * option Z)) : option (list Z * list Value) :=
  w ← run_writes (encode_items 0 l) new_writer;
  match finish w with
  | (Ok d, _) =>
      steps ← decode_items 0 (presence l);
      match run_steps steps (new_reader d) with Some (Ok vs, _) => Some (d, vs) | _ => None end
  | _ => None
  end.

(** A signed word in little-endian order is written in big-endian order and read
    in little-endian order. *)
Example signed_little_endian_swapped :
  through_codec [(IField (number 16 true WireDefault) EndianLittle false, Some 1)] = Some ([0; 1], [VInt 256]).
Proof. vm_compute. reflexivity. Qed.

(** After an optional field that is not a whole number of bytes the encoder takes
    the position to be aligned and the decoder does not know it: the next byte is
    written after a gap and read without it. *)
Example optional_nibble_misread :
  through_codec [(IField (number 4 false WireDefault) EndianBig true, Some 9); (IField (number 8 false WireDefault) EndianBig false, Some 0xAB)]
  = Some ([0x90; 0xAB], [VInt 9; VInt 0x0A]).
Proof. vm_compute. reflexivity. Qed.

(** The members of a nested struct are encoded by its own [encode], which starts
    with an aligned tracker, and the tracker of the enclosing struct stays aligned
    after it.  A nested struct of 4 bits and a byte after it take 16 bits, not 12. *)
Definition nested_then (inner outer : list (Item * option Z)) : list WriteOp :=
  encode_items 0 inner ++ encode_items (advance_bits_variable 0) outer.

Example nested_nibble_padded :
  bit_pos_ <$> run_writes (nested_then [(IField (number 4 false WireDefault) EndianBig false, Some 9)]
                             [(IField (number 8 false WireDefault) EndianBig false, Some 0xAB)]) new_writer = Some 16.
Proof. vm_compute. reflexivity. Qed.

(** A length prefix of three bytes is written as four and counted as three. *)
Example prefix_of_three_bytes :
  prefix_write_call (mkPti 24 EndianBig) = WriteU32 EndianBig /\ get_prefix_bytes (mkPti 24 EndianBig) = 3.
Proof. done. Qed.

(** ** The encoder against the wire sizer *)

Section sizes.
Context (p : Protocol) (idx : TypeIndex).

(** A field has its width from one place: its own attributes, with [bits] if its
    base is float or bool, or its type. *)
Definition one_width (f : Field) : Prop :=
  f_type_is_inline f = false
  /\ (if String.eqb (f_type_ref f) "" then
        is_some (f_bits f) = true \/ f_base f = None \/ f_base f = Some BaseInt \/ f_base f = Some BaseUint
      else f_bits f = None /\ f_bytes_attr f = None).

Lemma with_encoding_bits enc i : fti_bits (with_encoding enc i) = fti_bits i.
Proof. by destruct enc. Qed.

Lemma integer_info_bits f t n sg e : fti_has_field_scale (integer_info f t n sg e) = false -> fti_bits (integer_info f t n sg e) = n.
Proof. unfold integer_info. by destruct (field_scale_is_active f). Qed.

Lemma with_encoding_kind enc i :
  fti_is_struct (with_encoding enc i) = fti_is_struct i /\ fti_is_string (with_encoding enc i) = fti_is_string i
  /\ fti_is_bytes (with_encoding enc i) = fti_is_bytes i /\ fti_has_field_scale (with_encoding enc i) = fti_has_field_scale i.
Proof. by destruct enc. Qed.

(** The width the emitter takes for a simple number is the one the sizer takes. *)
Lemma inline_size f i n : inline_info f = Some i -> fti_is_string i = false -> fti_is_bytes i = false ->
  fti_has_field_scale i = false -> 0 < fti_bits i <= 64 ->
  (is_some (f_bits f) = true \/ f_base f = None \/ f_base f = Some BaseInt \/ f_base f = Some BaseUint) ->
  match f_bits f with
  | Some n => Some (sz (Z.max 0 n))
  | None => match f_bytes_attr f with Some n => Some (sz (sz (Z.max 0 n) * 8)) | None => None end
  end = Some n -> n = fti_bits i.
Proof.
  unfold inline_info. intros E Hs Hb Hsc Hr Hw Hn.
  match type of E with (?o ≫= _) = _ => destruct o as [j|] eqn:Ej; [|done] end. cbn in E. injection E as <-.
  destruct (with_encoding_kind (f_wire_encoding f) j) as (_ & K2 & K3 & K4). rewrite K2, K3, K4, with_encoding_bits in *.
  assert (inline_bits_info f = Some j -> n = fti_bits j) as Hbits.
  { unfold inline_bits_info. destruct (f_bits f) as [k|].
    - intros [= <-]. rewrite integer_info_bits in * by done. injection Hn as <-. rewrite Z.max_r, sz_small by (unfold SIZE_MAX; lia). done.
    - destruct (f_bytes_attr f) as [k|]; [|done]. destruct (Z.leb_spec k 8) as [Hk|]; [|by intros [= <-]].
      unfold octet_bits. destruct_if; [|done]. cbn. intros [= <-]. rewrite integer_info_bits in * by done. injection Hn as <-.
      rewrite Z.max_r by lia. rewrite !sz_small by (unfold SIZE_MAX; rewrite ?sz_small by (unfold SIZE_MAX; lia); lia). lia. }
  destruct (f_base f) as [[]|]; try (by apply Hbits); injection Ej as <-; try done;
    (destruct Hw as [Hw|[|[|]]]; [|done..]); destruct (f_bits f) as [k|]; try done; cbn in *; injection Hn as <-;
    rewrite Z.max_r, sz_small by (unfold SIZE_MAX; lia); done.
Qed.

Lemma typed_size f t n : fti_is_struct (type_info f t) = false -> fti_has_field_scale (type_info f t) = false ->
  0 < fti_bits (type_info f t) <= 64 -> fti_is_enum (type_info f t) = false -> td_base t <> BaseBytes ->
  type_bits t = Some n -> n = fti_bits (type_info f t).
Proof.
  unfold type_info, type_bits. intros H1 H2 H3 H4 Hb.
  destruct (match td_enum_values t with [] => false | _ => true end) eqn:E1; cbn [orb] in *; [done|].
  destruct (_ || _) eqn:E2; [done|]. rewrite !orb_false_iff in E2. destruct E2 as [[_ E2] _].
  destruct (td_base t); try done; cbn [fti_bits bool_info float_info] in *; rewrite ?integer_info_bits in * by done.
  1,2,3: rewrite (proj2 (Z.ltb_lt 0 _)) by lia; intros [= <-]; by rewrite sz_small by (unfold SIZE_MAX; lia).
  destruct (Z.ltb_spec 0 (td_bits t)); intros [= <-]; rewrite ?sz_small by (unfold SIZE_MAX; lia); done.
Qed.

Definition not_bytes_type (f : Field) : Prop :=
  forall i t, find idx (f_type_ref f) = Some (RType i) -> proto_types p !! i = Some t -> td_base t <> BaseBytes.

Lemma field_size enter f i n : resolve_field_type p idx f = Some i -> simple_number f i = true -> one_width f -> not_bytes_type f ->
  0 < fti_bits i <= 64 -> compute_field_size_bits p idx enter f = Some (Some n) -> f_present_when f = None /\ n = fti_bits i.
Proof.
  unfold resolve_field_type, simple_number, one_width, compute_field_size_bits. intros E Hs [Hi Hw] Hnb Hr.
  rewrite !andb_true_iff, !negb_true_iff, !orb_false_iff in Hs. destruct Hs as [[[[[[[[[Ks Ke] Kst] Kb] Ksc] Hin] _] _] _] Hbit].
  destruct (f_bit f); [done|]. destruct (f_present_when f); [done|]. rewrite Hin, Hi in *. cbn [is_some orb andb] in *.
  destruct (String.eqb (f_type_ref f) "").
  - intros Hn. split; [done|]. eapply inline_size; try done. destruct (f_bits f); [by injection Hn as <-|].
    destruct (f_bytes_attr f); [by injection Hn as <-|done].
  - destruct Hw as [-> ->]. destruct (String.eqb (f_type_ref f) "bytes"); [by injection E as <-|].
    destruct (String.eqb (f_type_ref f) "string"); [by injection E as <-|]. cbn [orb]. unfold ref_bits.
    destruct (find idx (f_type_ref f)) as [[j|j|j]|] eqn:Ef; [| | |done].
    + destruct (proto_types p !! j) as [t|] eqn:Et; [|done]. cbn [mbind option_bind] in *.
      assert (exists enc, i = with_encoding enc (type_info f t)) as [enc ->].
      { destruct (f_wire_encoding f) as [e|]; [injection E as <-; by exists (Some e)|].
        destruct (type_at p idx (f_type_ref f)) as [o|]; [|done]. injection E as <-. by exists (td_wire_encoding <$> o). }
      destruct (with_encoding_kind enc (type_info f t)) as (K1 & K2 & K3 & K4). rewrite K1, K4, with_encoding_bits in *.
      intros [= Hn]. split; [done|]. eapply typed_size; try done; [|by eapply Hnb]. by destruct enc.
    + destruct (proto_structs p !! j) as [st|]; [|done]. cbn [mbind option_bind] in E. exfalso.
      destruct (f_wire_encoding f); [injection E as <-; done|]. destruct (type_at p idx (f_type_ref f)) as [[o|]|]; [| |done]; by injection E as <-.
    + destruct (proto_messages p !! j) as [st|]; [|done]. cbn [mbind option_bind] in E. exfalso.
      destruct (f_wire_encoding f); [injection E as <-; done|]. destruct (type_at p idx (f_type_ref f)) as [[o|]|]; [| |done]; by injection E as <-.
Qed.

Lemma value_ok_width i e v : value_ok i e v -> 0 < fti_bits i <= 64.
Proof.
  unfold value_ok, float_ok, integer_ok. destruct (fti_wire_encoding i); try lia; try (intros (k & ? & ? & ?); lia);
    (destruct (fti_is_float i); [|tauto]); destruct (fti_bits i) as [|q|q]; try done;
    repeat (destruct q as [q|q|]; try done); lia.
Qed.

(** A child whose size is fixed takes that size. *)
Lemma item_size enter c it v m n : flat_item p idx c = Some it -> item_ok m it v ->
  (forall f, c = ChField f -> one_width f /\ not_bytes_type f) ->
  child_bits p idx enter c = Some (Some n) -> is_align it = false /\ n = sz (item_width it v).
Proof.
  destruct c as [f| | | | |r|a]; try done; cbn [flat_item child_bits].
  - intros E Hok Hf Hn. destruct (resolve_field_type p idx f) as [i|] eqn:Ei; [|done]. cbn in E.
    destruct (simple_number f i) eqn:Es; [|done]. injection E as <-. destruct (Hf f eq_refl) as [H1 H2]. split; [done|].
    assert (0 < fti_bits i <= 64) as Hr by (cbn [item_ok] in Hok; destruct v; [eapply value_ok_width, Hok|apply Hok]).
    destruct (field_size enter f i n Ei Es H1 H2 Hr Hn) as [Hp ->]. cbn [item_ok item_width] in *. rewrite Hp in Hok.
    destruct v; [by rewrite sz_small by (unfold SIZE_MAX; lia)|by destruct Hok].
  - intros [= <-] Hok _ [= <-]. by destruct v.
Qed.

Lemma items_size enter l items vs ns : mapM (flat_item p idx) l = Some items -> length vs = length items -> forall m,
  items_ok m (zip items vs) -> Forall (fun f => one_width f /\ not_bytes_type f) (top_fields l) ->
  Forall2 (fun c n => child_bits p idx enter c = Some (Some n)) l ns ->
  Forall (fun x => is_align x.1 = false) (zip items vs) /\ fold_left (fun t n => sz (t + n)) ns 0 = sz (items_width (zip items vs)).
Proof.
  intros Hm Hlen m Hok Hf Hn. rewrite fold_sz_0. revert items vs m Hm Hlen Hok Hf.
  induction Hn as [|c n l ns Hc _ IH]; intros items vs m Hm Hlen Hok Hf.
  { injection Hm as <-. by split. }
  cbn [mapM] in Hm. destruct (flat_item p idx c) as [it|] eqn:Ei; [|done]. cbn in Hm.
  destruct (mapM (flat_item p idx) l) as [its|] eqn:Em; [|done]. cbn in Hm. injection Hm as <-.
  destruct vs as [|v vs]; [done|]. injection Hlen as Hlen. change (zip (it :: its) (v :: vs)) with ((it, v) :: zip its vs) in *. destruct Hok as [H1 H2].
  assert ((forall f, c = ChField f -> one_width f /\ not_bytes_type f) /\ Forall (fun f => one_width f /\ not_bytes_type f) (top_fields l)) as [Hcf Hlf].
  { destruct c; try (by split). change (top_fields (ChField f :: l)) with (f :: top_fields l) in Hf. apply Forall_cons in Hf as [? ?].
    split; [|done]. by intros ? [= <-]. }
  destruct (item_size enter c it v m n Ei H1 Hcf Hc) as [Ha ->]. destruct (IH its vs _ eq_refl Hlen H2 Hlf) as [Hal Hs].
  split; [by constructor|]. cbn [foldr items_width]. fold (items_width (zip its vs)). rewrite sz_add_l, <- sz_add_r, Hs, sz_add_r. done.
Qed.
End sizes.

(** C16: The encoder writes the size the wire sizer computes.  Take a struct or
    message of numeric fields and reserved bits whose fields have their width from one
    place and are of no bytes type, for which the sizer finds a fixed size, with values
    that fit and floats at byte boundaries ([items_ok]; [unaligned_float_padded] shows
    why).  Then the generated encoder writes exactly that many bits. *)
Theorem encoder_writes_wire_size (p : Protocol) (idx : TypeIndex) (l : list StructChild) (items : list Item) (vs : list (option Z))
    (fuel : nat) (visiting : gset string) (n : Z) :
  mapM (flat_item p idx) l = Some items -> length vs = length items ->
  Forall (fun f => one_width f /\ not_bytes_type p idx f) (top_fields l) -> items_ok 0 (zip items vs) ->
  compute_children_size_bits p idx fuel visiting l = Some (Some n) ->
  total_bits (encode_items 0 (zip items vs)) <= SIZE_MAX - 32 ->
  exists w, run_writes (encode_items 0 (zip items vs)) new_writer = Some w /\ BitWriter.has_error w = false /\ bit_pos_ w = n.
Proof.
  intros Hm Hlen Hf Hok Hn Hsize. destruct fuel as [|fuel]; [done|]. cbn [compute_children_size_bits] in Hn.
  apply sum_bits_fixed in Hn as (_ & ns & Hns & ->). destruct (items_size _ _ _ _ _ _ _ Hm Hlen 0 Hok Hf Hns) as [Ha ->].
  destruct (items_codec (zip items vs) 0 [] Hok) as (steps & _ & (Hfit & _) & Hw); [by right|].
  destruct (run_writes_repr _ new_writer [] repr_new Hfit) as (w & Ew & Rw & Lw); [unfold room; simpl; lia|].
  exists w. split; [done|]. split; [by eapply repr_no_error|]. simpl in Rw, Lw. rewrite (repr_pos _ _ Rw), Hw by done.
  rewrite sz_small; [done|]. rewrite <- Hw by done. pose proof (len_nonneg (encoded (encode_items 0 (zip items vs)) [])). lia.
Qed.

(** A typed field, four reserved bits and a field of 12 bits. *)
Definition bits_field (name : string) (bits : Z) : Field :=
  mkField name "" false (Some bits) None false None None None None [] [] None None None None false None None false None None None
    None None None EndianBig true FmtDecimal false None false None None None [] "" unknown_loc.

Definition word_type : TypeDef :=
  mkTypeDef "word" BaseUint 16 EndianLittle true FmtDecimal false WireDefault false None None None [] [] None
    None EncAscii false PadNull false TrimRight false None None None [] "" unknown_loc.

Definition sized_children : list StructChild :=
  [ChField (new_field "a" "word"); ChReserved (mkReserved 4 unknown_loc); ChField (bits_field "b" 12)].

Definition sized_protocol : Protocol :=
  mkProtocol "Demo" "1" "2" new_defaults [] [] [word_type] [new_struct "s" sized_children] [] [] [] "" unknown_loc.
Definition sized_index : TypeIndex := mkIndex {["word" := 0%nat]} {["s" := 0%nat]} ∅ ∅ ∅.

Definition sized_items : list Item :=
  [IField (mkFti "word" false false false false false false 16 false false double_one double_zero 0 false EndianBig WireDefault) EndianBig false;
   IReserved 4;
   IField (mkFti "uint16_t" false false false false false false 12 false false double_one double_zero 0 false EndianBig WireDefault) EndianBig false].

Lemma encoder_writes_wire_size_witness :
  exists w, run_writes (encode_items 0 (zip sized_items [Some 7; None; Some 9])) new_writer = Some w
    /\ BitWriter.has_error w = false /\ bit_pos_ w = 32.
Proof.
  apply (encoder_writes_wire_size sized_protocol sized_index sized_children sized_items [Some 7; None; Some 9] 1 ∅ 32).
  - vm_compute. reflexivity.
  - reflexivity.
  - apply Forall_cons; split; [|apply Forall_cons; split; [|apply Forall_nil; exact I]]; (split; [vm_compute; auto|]); intros i t Hi Ht;
      vm_compute in Hi; try discriminate; injection Hi as <-; injection Ht as <-; discriminate.
  - cbn -[Z.pow]. unfold value_ok, integer_ok. cbn -[Z.pow]. split_and!; try done; try lia; intros; done.
  - vm_compute. reflexivity.
  - vm_compute. discriminate.
Defined.

(** A float behind a field that is no whole number of bytes is written from the next
    byte boundary on; the wire sizer does not count the bits passed over. *)
Definition real_type : TypeDef :=
  mkTypeDef "real" BaseFloat 32 EndianBig true FmtDecimal false WireDefault false None None None [] [] None
    None EncAscii false PadNull false TrimRight false None None None [] "" unknown_loc.

Definition float_children : list StructChild := [ChField (bits_field "a" 3); ChField (new_field "b" "real")].

Definition float_protocol : Protocol :=
  mkProtocol "Demo" "1" "2" new_defaults [] [] [real_type] [new_struct "s" float_children] [] [] [] "" unknown_loc.
Definition float_index : TypeIndex := mkIndex {["real" := 0%nat]} {["s" := 0%nat]} ∅ ∅ ∅.

Example unaligned_float_padded :
  compute_children_size_bits float_protocol float_index 1 ∅ float_children = Some (Some 35)
  /\ (items ← mapM (flat_item float_protocol float_index) float_children;
      bit_pos_ <$> run_writes (encode_items 0 (zip items [Some 5; Some 0x3F800000])) new_writer) = Some 40.
Proof. split; vm_compute; reflexivity. Qed.
