(* ===== verification/FrameCodec.v ===== *)
(** * Frames: what is sent and how its length is found again

    Models the [encode] of a frame class, generated by [emit_frame_class] of
    [conduit/bgen/src/codegen/cpp_structs.cpp], and the framing functions of a
    session class, generated by [conduit/bgen/src/codegen/cpp_session.cpp]: what
    [StreamFramer] of the runtime is given to cut a byte stream into frames. *)

From stdpp Require Import base numbers list gmap strings pretty.
From Stdlib Require Import ZArith Lia SpecFloat.
From S2P Require Import Prelude Bits CoreError Endian BitWriter BitReader BitIO StreamFramer CharConv AutoExpr ExprParser Ast TypeResolver ProtocolIndex Validation WireSizer SessionAnalyzer Names FieldChecks FieldCodec StructCodec.

Open Scope Z_scope.

(** ** Arithmetic on lengths

    The expressions [apply_arith] and [reverse_arith] generate, evaluated in
    [size_t]; [None] is a division by zero. *)

Definition arith (op : ArithOp) (x y : Z) : option Z :=
  match op with
  | OpNone => Some x
  | OpAdd => Some (sz (x + y))
  | OpSub => Some (sz (x - y))
  | OpMul => Some (sz (x * y))
  | OpDiv => if y =? 0 then None else Some (x / y)
  | OpMod => if y =? 0 then None else Some (x mod y)
  end.

(** A frame has no field operands. *)
Definition apply_value (m : ArithModifier) (x : Z) : option Z :=
  if negb (has_modifier m) then Some x
  else if is_field_operand m then None else arith (mod_op m) x (sz (mod_literal m)).

Definition reverse_value (m : ArithModifier) (x : Z) : option Z :=
  if negb (has_modifier m) then Some x else arith (inverse_op (mod_op m)) x (sz (mod_literal m)).

(** ** The frame class *)

(** A header or footer field with its type, the value of the constant it is
    constrained to and the value of its member. *)
Record FrameField := mkFrameField { ff_field : Field; ff_info : FieldTypeInfo; ff_constant : Z; ff_member : Z }.

Definition to_payload (f : Field) : bool :=
  match f_auto_expr f with Some a => bool_decide (auto_field_ref a = txt "payload") | None => false end.

Definition has_equals (f : Field) : bool := match f_constraint f with Some c => is_some (equals c) | None => false end.

(** [static_cast] to the storage type of the field. *)
Definition to_storage (i : FieldTypeInfo) (v : Z) : Z :=
  let w := storage_width (fti_bits i) in if fti_is_signed i then signed w (wrap w v) else wrap w v.

(** The value [emit_frame_field_write] writes; [count] is the number of payload
    items of an array. *)
Definition frame_field_value (array : bool) (count : Z) (x : FrameField) : Z :=
  let f := ff_field x in
  let other := if has_equals f then to_storage (ff_info x) (ff_constant x)
               else if fti_is_enum (ff_info x) then to_storage (ff_info x) (ff_member x) else ff_member x in
  match f_auto_expr f with
  | Some a =>
      match auto_kind a with
      | AutoLength => 0
      | AutoCount => if to_payload f && array then to_storage (ff_info x) count else ff_member x
      | AutoId | AutoIncrement | AutoConfig | AutoTimestamp => other
      end
  | None => other
  end.

(** The writer and the positions [encode] remembers. *)
Record FrameState := mkFrameState { fs_writer : BitWriter; length_byte_pos : Z; payload_start_pos : Z }.

Section encode.
Variables (array : bool) (count : Z).

(** The call is generated without an alignment: as if the position were aligned. *)
Definition frame_op (x : FrameField) : WriteOp :=
  write_meaning (write_call (ff_info x) (f_endian (ff_field x)) true) (frame_field_value array count x).

Definition emit_frame_field_write (x : FrameField) (s : FrameState) : option FrameState :=
  let f := ff_field x in
  let pos := size_bytes (fs_writer s) in
  w ← run_write (frame_op x) (fs_writer s);
  Some (if is_length f then mkFrameState w pos (if to_payload f then size_bytes w else payload_start_pos s)
        else mkFrameState w (length_byte_pos s) (payload_start_pos s)).

Fixpoint write_fields (l : list FrameField) (s : FrameState) : option FrameState :=
  match l with
  | [] => Some s
  | x :: l => s ← emit_frame_field_write x s; write_fields l s
  end.

(** The length that is written at the end, over the placeholder.  [patch] is
    [false] where the placeholder does not lie in the buffer. *)
Definition emit_frame_length_backpatch (x : FrameField) (start : Z) (s : FrameState) : option (Result unit * BitWriter) :=
  let f := ff_field x in
  let i := ff_info x in
  let w := fs_writer s in
  let raw := sz (size_bytes w - (if to_payload f then payload_start_pos s else start)) in
  match f_auto_expr f with
  | None => Some (Ok tt, w)
  | Some a =>
      v ← apply_value (auto_modifier a) raw;
      let v := wrap (storage_width (fti_bits i)) v in
      '(ok, w) ← (if fti_bits i <=? 8 then patch_u8 (length_byte_pos s) v w
                  else if fti_bits i <=? 16 then patch_u16 (length_byte_pos s) v (to_endian (f_endian f)) w
                  else patch_u32 (length_byte_pos s) (wrap 32 v) (to_endian (f_endian f)) w);
      Some (if (ok : bool) then Ok tt else Fail (new_error InvalidArgument "failed to patch frame length"), w)
  end.

(** The last length field of the header. *)
Definition length_field (header : list FrameField) : option FrameField :=
  last (List.filter (fun x => is_length (ff_field x)) header).

(** The payload is encoded by its own class: [payload] are the operations of all
    items, and an error they leave in the writer is returned. *)
Definition encode_frame (header footer : list FrameField) (payload : list WriteOp) (w : BitWriter) : option (Result unit * BitWriter) :=
  let start := size_bytes w in
  s ← write_fields header (mkFrameState w 0 0);
  w ← run_writes payload (fs_writer s);
  match error_ w with
  | Some e => Some (Fail e, w)
  | None =>
      s ← write_fields footer (mkFrameState w (length_byte_pos s) (payload_start_pos s));
      match length_field header with
      | Some x => emit_frame_length_backpatch x start s
      | None => Some (Ok tt, fs_writer s)
      end
  end.

Definition encode_frame_bytes (header footer : list FrameField) (payload : list WriteOp) : option (Result (list Z)) :=
  '(r, w) ← encode_frame header footer payload new_writer;
  Some (match r with Ok _ => (finish w).1 | Fail e => Fail e end).
End encode.

(** ** The session class *)

Definition read_length (bits : Z) (e : Ast.Endian) : R Z :=
  if bits <=? 8 then read_u8 else if bits <=? 16 then read_u16 (to_endian e)
  else if bits <=? 32 then read_u32 (to_endian e) else read_u64 (to_endian e).

(** [None] is undefined behaviour. *)
Definition session_frame_length (si : SessionInfo) (header : list Z) : option Z :=
  let h := si_header si in
  if 0 <? frame_length_bits h then
    if len header <? SessionAnalyzer.min_frame_header_size si then Some 0
    else
      let r := new_reader header in
      '(skipped, r) ← (if 0 <? frame_length_bit_offset h then skip_bits (frame_length_bit_offset h) r else Some (Ok tt, r));
      match skipped with
      | Fail _ => Some 0
      | Ok _ =>
          '(v, _) ← read_length (frame_length_bits h) (frame_length_endian h) r;
          match v with
          | Fail _ => Some 0
          | Ok v =>
              x ← reverse_value (frame_length_modifier h) v;
              Some (if bool_decide (frame_length_field_ref h = txt "payload")
                    then sz (x + sz (SessionAnalyzer.min_frame_header_size si + frame_footer_size si)) else x)
          end
      end
  else Some (len header).

(** What the framer sees of a session. *)
Definition generated_session (si : SessionInfo) : FrameSession := {|
  StreamFramer.sync_pattern := SessionAnalyzer.sync_pattern (si_header si);
  StreamFramer.min_frame_header_size := Z.to_nat (SessionAnalyzer.min_frame_header_size si);
  StreamFramer.extract_frame_length header := Z.to_nat (default 0 (session_frame_length si header))
|}.

(** ** The fields of a header *)

Section frame.
Context (p : Protocol) (idx : TypeIndex) (array : bool) (count : Z).

(** A field of whole bytes whose value fits. *)
Record frame_field_ok (x : FrameField) : Prop := {
  ffo_type : resolve_field_type p idx (ff_field x) = Some (ff_info x);
  ffo_width : one_width (ff_field x);
  ffo_bytes : fti_bits (ff_info x) mod 8 = 0;
  ffo_value : value_ok (ff_info x) (f_endian (ff_field x)) (frame_field_value array count x);
}.

Definition fields_bits (l : list FrameField) : Z := foldr (fun x n => fti_bits (ff_info x) + n) 0 l.
Definition fields_ops (l : list FrameField) : list WriteOp := map (frame_op array count) l.

Lemma info_width i : fti_bits i mod 8 = 0 -> 0 < fti_bits i <= 64 -> fti_bits i = 8 * (fti_bits i / 8) /\ 0 < fti_bits i / 8 <= 8.
Proof. intros H1 H2. pose proof (Z.div_mod (fti_bits i) 8). lia. Qed.

Lemma frame_field_width x : frame_field_ok x -> 0 < fti_bits (ff_info x) <= 64.
Proof. intros [_ _ _ Hv]. by eapply value_ok_width. Qed.

(** The analyzer counts the bits the emitter writes. *)
Lemma inline_bits_agree f i : inline_info f = Some i -> 0 < fti_bits i ->
  (is_some (f_bits f) = true \/ f_base f = None \/ f_base f = Some BaseInt \/ f_base f = Some BaseUint) ->
  match f_bits f with Some n => Some n | None => match f_bytes_attr f with Some n => octets n | None => Some 0 end end = Some (fti_bits i).
Proof.
  unfold inline_info. intros E Hr Hw. match type of E with (?o ≫= _) = _ => destruct o as [j|] eqn:Ej; [|done] end.
  injection E as <-. rewrite with_encoding_bits in *.
  assert (forall t n sg e, 0 < fti_bits (integer_info f t n sg e) -> fti_bits (integer_info f t n sg e) = n) as Hint.
  { intros t n sg e. unfold integer_info. by destruct (field_scale_is_active f). }
  assert (inline_bits_info f = Some j -> match f_bits f with Some n => Some n
    | None => match f_bytes_attr f with Some n => octets n | None => Some 0 end end = Some (fti_bits j)) as Hbits.
  { unfold inline_bits_info. destruct (f_bits f) as [k|]; [intros [= <-]; by rewrite Hint|].
    destruct (f_bytes_attr f) as [k|]; [|by intros [= <-]]. destruct (Z.leb_spec k 8) as [Hk|]; [|by intros [= <-]].
    unfold octet_bits. destruct_if; [|done]. cbn. intros [= <-]. rewrite Hint in * by done. unfold octets.
    rewrite Z.max_r by lia. rewrite (proj2 (Z.leb_le _ _)) by (unfold SessionAnalyzer.INT_MAX; lia). done. }
  destruct (f_base f) as [[]|]; try (by apply Hbits); injection Ej as <-; try done;
    (destruct Hw as [Hw|[|[|]]]; [|done..]); (destruct (f_bits f); [reflexivity|discriminate Hw]).
Qed.

Lemma frame_bits_agree x : frame_field_ok x -> resolve_field_bits p idx (ff_field x) = Some (fti_bits (ff_info x)).
Proof.
  intros H. pose proof (frame_field_width x H) as Hr. destruct H as [E [Hi Hw] H8 _]. unfold resolve_field_bits.
  unfold resolve_field_type in E. rewrite Hi in E. cbn [orb] in E.
  destruct (String.eqb (f_type_ref (ff_field x)) "") eqn:Er; [apply inline_bits_agree; [done|lia|done]|].
  destruct Hw as [-> ->]. destruct (String.eqb (f_type_ref (ff_field x)) "bytes"); [injection E as E; rewrite <- E in Hr; cbn in Hr; lia|].
  destruct (String.eqb (f_type_ref (ff_field x)) "string"); [injection E as E; rewrite <- E in Hr; cbn in Hr; lia|].
  unfold type_at in *. unfold find in E. destruct (idx_types idx !! f_type_ref (ff_field x)) as [j|].
  - destruct (proto_types p !! j) as [t|]; [|done]. cbn [mbind option_bind] in *.
    assert (fti_bits (ff_info x) = fti_bits (type_info (ff_field x) t)) as Eb.
    { destruct (f_wire_encoding (ff_field x)); injection E as <-; reflexivity. }
    rewrite Eb in *. do 2 f_equal. unfold type_info in *. destruct (_ || _) in *.
    { destruct (td_enum_values t) in *; cbn in *; [lia|done]. }
    destruct (td_base t); cbn [fti_bits bool_info float_info] in *;
      try (unfold integer_info in *; destruct (field_scale_is_active (ff_field x)); cbn in *; [lia|done]).
    destruct (Z.ltb_spec 0 (td_bits t)); [done|]. by vm_compute in H8.
  - exfalso. destruct (idx_structs idx !! _) as [j|]; [|destruct (idx_messages idx !! _) as [j|]].
    + cbn in E. destruct (proto_structs p !! j); cbn in E; [|discriminate E].
      destruct (f_wire_encoding (ff_field x)); injection E as E; rewrite <- E in Hr; cbn in Hr; lia.
    + cbn in E. destruct (proto_messages p !! j); cbn in E; [|discriminate E].
      destruct (f_wire_encoding (ff_field x)); injection E as E; rewrite <- E in Hr; cbn in Hr; lia.
    + injection E as E. rewrite <- E in Hr. cbn in Hr. lia.
Qed.

(** *** What the fields put on the wire *)

Lemma frame_op_ok x pre : frame_field_ok x -> (length pre mod 8 = 0)%nat ->
  fits (frame_op array count x) /\ len (appended (frame_op array count x) pre) = fti_bits (ff_info x).
Proof.
  intros [_ _ _ Hv] Ha. destruct (codec_field _ _ _ true pre Hv) as (rc & _ & H1 & H2 & _); [done..|]. by split.
Qed.

Lemma aligned_app (a b : list bool) : (length a mod 8 = 0)%nat -> len b mod 8 = 0 -> (length (a ++ b) mod 8 = 0)%nat.
Proof.
  intros Ha Hb. rewrite length_app. unfold len in Hb. apply Nat.Lcm0.mod_divide in Ha as [i ->].
  assert (length b mod 8 = 0)%nat as [j ->]%Nat.Lcm0.mod_divide by (apply Nat2Z.inj; rewrite Nat2Z.inj_mod; exact Hb).
  apply Nat.Lcm0.mod_divide. exists (i + j)%nat. lia.
Qed.

Lemma fields_encoded l pre : Forall frame_field_ok l -> (length pre mod 8 = 0)%nat ->
  Forall fits (fields_ops l) /\ len (encoded (fields_ops l) pre) = fields_bits l /\ fields_bits l mod 8 = 0
  /\ (length (pre ++ encoded (fields_ops l) pre) mod 8 = 0)%nat.
Proof.
  intros H. revert pre. induction H as [|x l Hx _ IH]; intros pre Ha.
  { split_and!; [constructor|done|done|by rewrite app_nil_r]. }
  destruct (frame_op_ok x pre Hx Ha) as [Hf Hl]. pose proof (ffo_bytes x Hx) as H8.
  destruct (IH (pre ++ appended (frame_op array count x) pre)) as (IH1 & IH2 & IH3 & IH4); [apply aligned_app; [done|by rewrite Hl]|].
  cbn [fields_ops map encoded fields_bits foldr]. fold (fields_bits l) (fields_ops l). split_and!.
  - by constructor.
  - by rewrite len_app, Hl, IH2.
  - by rewrite Z.add_mod, H8, IH3.
  - by rewrite app_assoc.
Qed.

Lemma write_fields_run l s : Forall (fun x => is_length (ff_field x) = false) l ->
  write_fields array count l s = (w ← run_writes (fields_ops l) (fs_writer s); Some (mkFrameState w (length_byte_pos s) (payload_start_pos s))).
Proof.
  intros H. revert s. induction H as [|x l Hx _ IH]; intros s; [by destruct s|]. cbn [write_fields fields_ops map run_writes].
  unfold emit_frame_field_write. destruct (run_write (frame_op array count x) (fs_writer s)) as [w|]; [|done].
  cbn [mbind option_bind]. rewrite Hx, IH. done.
Qed.

(** *** What the analyzer records *)

Definition length_record (h : HeaderInfo) : Z * Z * Ast.Endian * ArithModifier * text :=
  (frame_length_bit_offset h, frame_length_bits h, frame_length_endian h, frame_length_modifier h, frame_length_field_ref h).

Lemma auto_keeps_record f n b h h' : is_length f = false -> header_auto p idx f n b h = Some h' ->
  length_record h' = length_record h /\ SessionAnalyzer.sync_pattern h' = SessionAnalyzer.sync_pattern h.
Proof.
  unfold is_length, header_auto. destruct (f_auto_expr f) as [a|]; [|by intros _ [= <-]].
  destruct (auto_kind a); try done; intros _; try (intros [= <-]; done).
  destruct (config_field p idx f a b); [|done]. cbn. by intros [= <-].
Qed.

Lemma sync_keeps_record f h h' : header_sync p idx f h = Some h' -> length_record h' = length_record h.
Proof.
  assert (forall v r e, parse_sync_bytes p idx v r e h = Some h' -> length_record h' = length_record h) as H.
  { intros v r e. unfold parse_sync_bytes. destruct (parse_sync_value (txt v)); [|by intros [= <-]].
    destruct (type_at p idx r) as [t|]; [|done]. cbn. destruct (sync_bytes e (sync_width t) z); [|done]. cbn. by intros [= <-]. }
  unfold header_sync. destruct (f_constraint f) as [c|]; [|by intros [= <-]]. destruct (equals c) as [eq|]; [|by intros [= <-]].
  destruct (idx_constants idx !! eq); [|apply H]. destruct (proto_constants p !! n); [|done]. apply H.
Qed.

Lemma no_sync f h : has_equals f = false -> header_sync p idx f h = Some h.
Proof. unfold has_equals, header_sync. destruct (f_constraint f) as [c|]; [|done]. by destruct (equals c). Qed.

Definition header_children (l : list FrameField) : list StructChild := map (fun x => ChField (ff_field x)) l.

Context `{!Indexes p idx}.

(** Fields without a length or a constant change nothing but the offset. *)
Lemma scan_plain l n h : Forall frame_field_ok l -> Forall (fun x => is_length (ff_field x) = false /\ has_equals (ff_field x) = false) l ->
  exists h', scan_header p idx (header_children l) (sz n) h = Some (sz (n + fields_bits l), h')
    /\ length_record h' = length_record h /\ SessionAnalyzer.sync_pattern h' = SessionAnalyzer.sync_pattern h.
Proof.
  intros H. revert n h. induction H as [|x l Hx _ IH]; intros n h Hl.
  { exists h. cbn. by rewrite Z.add_0_r. }
  apply Forall_cons in Hl as [[H1 H2] Hl]. cbn [header_children map scan_header]. rewrite (frame_bits_agree x Hx). cbn [mbind option_bind].
  destruct (header_auto_total p idx (ff_field x) (sz n) (fti_bits (ff_info x)) h) as [h1 E1]. rewrite E1. cbn [mbind option_bind].
  rewrite no_sync by done. cbn [mbind option_bind]. rewrite sz_add_l, sz_add_r.
  destruct (IH (n + fti_bits (ff_info x)) h1 Hl) as (h' & E & R & S). fold (header_children l). rewrite E. exists h'.
  destruct (auto_keeps_record _ _ _ _ _ H1 E1) as [R1 S1]. cbn [fields_bits foldr]. fold (fields_bits l).
  rewrite R, S, R1, S1, Z.add_assoc. done.
Qed.

(** The length field. *)
Lemma scan_length x a n h : frame_field_ok x -> has_equals (ff_field x) = false ->
  f_auto_expr (ff_field x) = Some a -> auto_kind a = AutoLength ->
  exists h', scan_header p idx [ChField (ff_field x)] (sz n) h = Some (sz (n + fti_bits (ff_info x)), h')
    /\ length_record h' = (sz n, fti_bits (ff_info x), f_endian (ff_field x), auto_modifier a, auto_field_ref a)
    /\ SessionAnalyzer.sync_pattern h' = SessionAnalyzer.sync_pattern h.
Proof.
  intros Hx He Ea Ek. cbn [scan_header]. rewrite (frame_bits_agree x Hx). cbn [mbind option_bind]. unfold header_auto. rewrite Ea, Ek.
  destruct (resolve_signed_total p idx (ff_field x)) as [sg ->]. cbn [mbind option_bind]. rewrite no_sync by done. cbn.
  rewrite sz_add_l, sz_add_r. eexists. done.
Qed.

(** A sync field: a literal for a type of 1, 2, 4 or 8 bytes. *)
Record sync_field (x : FrameField) (n : nat) (l : list Z) : Prop := {
  sf_plain : is_length (ff_field x) = false;
  sf_literal : exists c eq, f_constraint (ff_field x) = Some c /\ equals c = Some eq /\ idx_constants idx !! eq = None
    /\ parse_sync_value (txt eq) = Some (ff_constant x);
  sf_type : exists t, type_at p idx (f_type_ref (ff_field x)) = Some (Some t) /\ td_bits t = 8 * Z.of_nat n;
  sf_width : (n = 1 \/ n = 2 \/ n = 4 \/ n = 8)%nat;
  sf_info : fti_bits (ff_info x) = 8 * Z.of_nat n /\ fti_is_signed (ff_info x) = false /\ fti_is_float (ff_info x) = false
    /\ match fti_wire_encoding (ff_info x) with BCD | BCD_S | BNR_S => False | CB2 | BNR | WireDefault => True end
    /\ match f_auto_expr (ff_field x) with Some a => auto_kind a <> AutoCount | None => True end;
  sf_range : 0 <= ff_constant x < 2 ^ (8 * Z.of_nat n);
  sf_bytes : l = wire_bytes (wire_endian (f_endian (ff_field x))) n (ff_constant x);
}.

Lemma scan_sync x n l off h : frame_field_ok x -> sync_field x n l ->
  exists h', scan_header p idx [ChField (ff_field x)] (sz off) h = Some (sz (off + fti_bits (ff_info x)), h')
    /\ length_record h' = length_record h /\ SessionAnalyzer.sync_pattern h' = SessionAnalyzer.sync_pattern h ++ l.
Proof.
  intros Hx [Hp (c & eq & Ec & Ee & Ek & Ev) (t & Et & Hb) Hn _ _ Hl]. cbn [scan_header]. rewrite (frame_bits_agree x Hx). cbn [mbind option_bind].
  destruct (header_auto_total p idx (ff_field x) (sz off) (fti_bits (ff_info x)) h) as [h1 E1]. rewrite E1. cbn [mbind option_bind].
  destruct (auto_keeps_record _ _ _ _ _ Hp E1) as [R1 S1]. unfold header_sync, parse_sync_bytes. rewrite Ec, Ee, Ek, Ev, Et. cbn [mbind option_bind].
  assert (sync_width (Some t) = n) as ->.
  { unfold sync_width, to_bytes. rewrite Hb. destruct Hn as [-> | [-> | [-> | ->]]]; reflexivity. }
  rewrite sync_bytes_wire by lia. cbn [mbind option_bind]. rewrite sz_add_l, sz_add_r. eexists. split; [done|]. rewrite <- Hl.
  split; [exact R1|]. cbn. by rewrite S1.
Qed.
End frame.

(** ** The bytes of a frame *)

Lemma total_bits_app a b : total_bits (a ++ b) = total_bits a + total_bits b.
Proof.
  induction a as [|op a IH]; [done|]. change (total_bits ((op :: a) ++ b)) with (op_bits op + total_bits (a ++ b)).
  change (total_bits (op :: a)) with (op_bits op + total_bits a). lia.
Qed.

Lemma total_bits_cons op a : total_bits (op :: a) = op_bits op + total_bits a.
Proof. done. Qed.

(** Operations that fit, one list after the other. *)
Lemma run_after ops w bits : w ⊨ bits -> Forall fits ops -> len bits + total_bits ops <= SIZE_MAX - 7 ->
  exists w', run_writes ops w = Some w' /\ w' ⊨ bits ++ encoded ops bits /\ len (bits ++ encoded ops bits) <= len bits + total_bits ops.
Proof.
  intros Hw Hf Hr. pose proof (repr_pos _ _ Hw) as Ep.
  destruct (run_writes_repr ops w bits Hw Hf) as (w' & E & H & L); [unfold room; lia|]. exists w'. rewrite <- Ep. done.
Qed.

Lemma size_bytes_repr w bits : w ⊨ bits -> len bits <= SIZE_MAX - 7 -> size_bytes w = (len bits + 7) / 8.
Proof.
  intros Hw Hr. unfold size_bytes. pose proof (len_nonneg bits). by rewrite (repr_pos _ _ Hw), sz_small by lia.
Qed.

(** A patch within the buffer succeeds. *)
Lemma patch_within k n e v w (bits : list bool) : w ⊨ bits -> len bits <= SIZE_MAX - 7 -> (n = 1 \/ n = 2 \/ n = 4)%nat -> 0 <= k ->
  8 * (k + Z.of_nat n) <= len bits -> 0 <= v < 2 ^ (8 * Z.of_nat n) ->
  exists w', (if 8 * Z.of_nat n <=? 8 then patch_u8 k v w else if 8 * Z.of_nat n <=? 16 then patch_u16 k v e w else patch_u32 k v e w)
    = Some (true, w') /\ w' ⊨ patch_bits bits k (wire_bytes e n v).
Proof.
  intros Hw Hr Hn Hk Hin Hv.
  pose (op := match n with 1%nat => WPatch8 k v | 2%nat => WPatch16 k v e | _ => WPatch32 k v e end).
  assert (op_args_ok op bits /\ op_bits op = 0 /\ spec_write op bits = Some (patch_bits bits k (wire_bytes e n v))) as (Ha & Ho & Hs).
  { assert (patch_ok k (Z.of_nat n) bits) as Hok by (unfold patch_ok; lia).
    subst op. destruct Hn as [-> | [-> | ->]]; cbn [op_args_ok op_bits spec_write]; unfold spec_patch, len in *; rewrite ?length_wire_bytes;
      (split; [first [done|split; [exact Hv|exact Hok]]|split; [done|]]); cbn [length]; rewrite (proj2 (Z.leb_le _ _)) by lia; try reflexivity.
    f_equal. f_equal. destruct e; cbn; unfold u8; rewrite Z.shiftr_0_r, wrap_small by done; done. }
  destruct (run_write_implements op w bits Hw Ha) as (w' & E & H); [unfold room; rewrite Ho, (repr_pos _ _ Hw); lia|].
  rewrite Hs in H. pose proof (repr_no_error _ _ Hw) as He. pose proof (repr_no_error _ _ H) as He'. exists w'. split; [|done].
  assert (forall (o : option (bool * BitWriter)), (snd <$> o) = Some w' ->
    (forall w1, o = Some (false, w1) -> BitWriter.has_error w1 = true) -> o = Some (true, w')) as Hgo.
  { intros [[b w1]|] Eo Hf; [|done]. injection Eo as ->. destruct b; [done|]. by rewrite (Hf w' eq_refl) in He'. }
  subst op. destruct Hn as [-> | [-> | ->]]; cbn [run_write] in E; change (8 * Z.of_nat 1) with 8; change (8 * Z.of_nat 2) with 16;
    change (8 * Z.of_nat 4) with 32; cbn; (apply Hgo; [exact E|]); intros w1;
    unfold patch_u8, patch_u16, patch_u32; rewrite He; (match goal with |- (if ?c then _ else _) = _ -> _ => destruct c end; [intros HQ; injection HQ as HQ; rewrite <- HQ; unfold set_error, BitWriter.has_error in *; by destruct (error_ w)|]);
    match goal with |- (?o ≫= _) = _ -> _ => destruct o; [done|done] end.
Qed.



Section encoded_frame.
Context (p : Protocol) (idx : TypeIndex) `{!Indexes p idx} (array : bool) (count : Z).
Context (pre post footer : list FrameField) (x : FrameField) (a : AutoExpr) (payload : list WriteOp) (n : nat) (v : Z).
Abbreviation ops := (fields_ops array count).
Abbreviation op := (frame_op array count).
Abbreviation e := (to_endian (f_endian (ff_field x))).

(** The operations of the whole frame, the bits before the length field, between
    it and the payload, and after. *)
Definition frame_ops : list WriteOp := ops (pre ++ x :: post) ++ payload ++ ops footer.
Definition frame_bits : list bool := encoded frame_ops [].
Definition frame_size : Z := (len frame_bits + 7) / 8.
Definition length_place : Z := fields_bits pre / 8.

(** The length before the modifier. *)
Definition measured : Z := if to_payload (ff_field x) then frame_size - (length_place + Z.of_nat n) else frame_size.

Hypothesis Hpre : Forall (frame_field_ok p idx array count) pre.
Hypothesis Hx : frame_field_ok p idx array count x.
Hypothesis Hpost : Forall (frame_field_ok p idx array count) post.
Hypothesis Hnl : Forall (fun y => is_length (ff_field y) = false) (pre ++ post ++ footer).
Hypothesis Ha : f_auto_expr (ff_field x) = Some a /\ auto_kind a = AutoLength.
Hypothesis Hn : fti_bits (ff_info x) = 8 * Z.of_nat n /\ (n = 1 \/ n = 2 \/ n = 4)%nat.
Hypothesis Hfit : Forall fits (payload ++ ops footer).
Hypothesis Hsize : total_bits frame_ops <= SIZE_MAX - 64.
Hypothesis Hv : apply_value (auto_modifier a) measured = Some v /\ 0 <= v < 2 ^ (8 * Z.of_nat n).

(** The bits before and after the length field. *)
Definition before : list bool := encoded (ops pre) [].
Definition behind : list bool := encoded (ops post) (before ++ appended (op x) before).
Definition rest_bits : list bool :=
  encoded (payload ++ ops footer) (before ++ appended (op x) before ++ behind).

Lemma frame_bits_split : frame_bits = before ++ appended (op x) before ++ behind ++ rest_bits.
Proof.
  unfold frame_bits, frame_ops, rest_bits, behind, before. rewrite encoded_app. unfold fields_ops. rewrite map_app. cbn [map].
  fold (ops pre) (ops post). rewrite encoded_app. cbn [encoded app]. by rewrite <- !app_assoc.
Qed.

Lemma header_widths :
  Forall fits (ops pre) /\ len before = fields_bits pre /\ fields_bits pre mod 8 = 0 /\ (length before mod 8 = 0)%nat
  /\ fits (op x) /\ len (appended (op x) before) = 8 * Z.of_nat n
  /\ Forall fits (ops post) /\ len behind = fields_bits post /\ fields_bits post mod 8 = 0.
Proof.
  destruct (fields_encoded p idx array count pre [] Hpre) as (F1 & L1 & M1 & A1); [done|]. cbn [app] in A1. fold before in L1, A1.
  destruct (frame_op_ok p idx array count x before Hx A1) as [Fx Lx]. destruct Hn as [En _]. rewrite En in Lx.
  destruct (fields_encoded p idx array count post (before ++ appended (op x) before) Hpost) as (F2 & L2 & M2 & _).
  { apply aligned_app; [done|]. rewrite Lx, Z.mul_comm. apply Z_mod_mult. }
  split_and!; done.
Qed.

Lemma is_length_x : is_length (ff_field x) = true.
Proof. unfold is_length. destruct Ha as [-> ->]. done. Qed.

Lemma length_field_x : length_field (pre ++ x :: post) = Some x.
Proof.
  unfold length_field. assert (forall l, Forall (fun y => is_length (ff_field y) = false) l ->
    List.filter (fun y => is_length (ff_field y)) l = []) as Hnone.
  { intros l. induction 1 as [|y l Hy _ IH]; [done|]. cbn. by rewrite Hy. }
  apply Forall_app in Hnl as [H1 [H2 _]%Forall_app]. rewrite List.filter_app. cbn. rewrite is_length_x, !Hnone by done. done.
Qed.

Lemma sizes_bounded : len frame_bits <= total_bits frame_ops /\ 0 <= frame_size <= SIZE_MAX /\ 0 <= length_place
  /\ len before = 8 * length_place /\ length_place + Z.of_nat n <= frame_size.
Proof.
  destruct header_widths as (F1 & L1 & M1 & A1 & Fx & Lx & F2 & L2 & M2).
  destruct (run_after frame_ops new_writer [] repr_new) as (w & _ & _ & L).
  { unfold frame_ops, fields_ops. rewrite map_app. cbn [map]. rewrite <- app_assoc. apply Forall_app. split; [done|]. constructor; [done|].
    by apply Forall_app. }
  { change (len []) with 0. lia. }
  change (len []) with 0 in L. cbn [app] in L. fold frame_bits in L.
  pose proof (len_nonneg frame_bits) as H0. pose proof frame_bits_split as Es. apply (f_equal len) in Es. rewrite !len_app in Es.
  pose proof (len_nonneg behind). pose proof (len_nonneg rest_bits). pose proof (len_nonneg before).
  assert (fields_bits pre = 8 * length_place) as Ep by (unfold length_place; pose proof (Z.div_mod (fields_bits pre) 8); lia).
  unfold frame_size. assert (0 <= (len frame_bits + 7) / 8 <= SIZE_MAX).
  { split; [apply Z.div_pos; lia|]. apply Z.div_le_upper_bound; lia. }
  split_and!; try lia. apply Z.div_le_lower_bound; lia.
Qed.

(** *** The run of [encode] *)

Lemma encode_frame_runs : exists w, encode_frame array count (pre ++ x :: post) footer payload new_writer = Some (Ok tt, w)
  /\ w ⊨ patch_bits frame_bits length_place (wire_bytes e n v).
Proof.
  destruct header_widths as (F1 & L1 & M1 & A1 & Fx & Lx & F2 & L2 & M2). destruct sizes_bounded as (B1 & B2 & B3 & B4 & B5).
  pose proof Hfit as [Fp Ff]%Forall_app. pose proof Hnl as [N1 [N2 N3]%Forall_app]%Forall_app.
  assert (total_bits (ops pre) + (op_bits (op x) + (total_bits (ops post) + (total_bits payload + total_bits (ops footer)))) <= SIZE_MAX - 64) as Ht.
  { revert Hsize. unfold frame_ops, fields_ops. rewrite map_app. cbn [map]. rewrite !total_bits_app.
    rewrite total_bits_cons. lia. }
  pose proof (total_bits_nonneg (ops pre)). pose proof (op_bits_nonneg (op x)). pose proof (total_bits_nonneg (ops post)).
  pose proof (total_bits_nonneg payload). pose proof (total_bits_nonneg (ops footer)).
  destruct (run_after (ops pre) new_writer [] repr_new F1) as (w1 & E1 & R1 & S1); [change (len []) with 0; lia|].
  cbn [app] in R1, S1. fold before in R1, S1. change (len []) with 0 in S1.
  assert (total_bits [op x] = op_bits (op x)) as Hone by (cbn; lia).
  destruct (run_after [op x] w1 before R1) as (w2 & E2 & R2 & S2); [by constructor|lia|]. rewrite encoded_one in R2, S2.
  destruct (run_after (ops post) w2 _ R2 F2) as (w3 & E3 & R3 & S3); [lia|]. fold behind in R3, S3.
  destruct (run_after payload w3 _ R3 Fp) as (w4 & E4 & R4 & S4); [lia|].
  destruct (run_after (ops footer) w4 _ R4 Ff) as (w5 & E5 & R5 & S5); [lia|].
  assert (w5 ⊨ frame_bits) as R5'.
  { rewrite frame_bits_split. unfold rest_bits. rewrite encoded_app. by rewrite <- !app_assoc in *. }
  cbn [run_writes] in E2. destruct (run_write (op x) w1) as [w2'|] eqn:Ex; [|done]. injection E2 as ->.
  assert (size_bytes w1 = length_place) as P1.
  { rewrite (size_bytes_repr _ _ R1) by lia. rewrite B4. replace (8 * length_place + 7) with (7 + length_place * 8) by lia.
    rewrite Z.div_add by lia. done. }
  assert (size_bytes w2 = length_place + Z.of_nat n) as P2.
  { rewrite (size_bytes_repr _ _ R2) by lia. rewrite len_app, B4, Lx.
    replace (8 * length_place + 8 * Z.of_nat n + 7) with (7 + (length_place + Z.of_nat n) * 8) by lia. rewrite Z.div_add by lia. done. }
  assert (size_bytes w5 = frame_size) as P5 by (rewrite (size_bytes_repr _ _ R5'); [done|lia]).
  unfold encode_frame. assert (write_fields array count (pre ++ x :: post) (mkFrameState new_writer 0 0)
    = Some (mkFrameState w3 length_place (if to_payload (ff_field x) then length_place + Z.of_nat n else 0))) as ->.
  { assert (forall l1 l2 s, write_fields array count (l1 ++ l2) s = (s ← write_fields array count l1 s; write_fields array count l2 s)) as Happ.
    { intros l1. induction l1 as [|y l1 IH]; intros l2 s; [done|]. cbn. destruct (emit_frame_field_write array count y s); [apply IH|done]. }
    rewrite Happ, write_fields_run by done. cbn [fs_writer]. rewrite E1. cbn [mbind option_bind write_fields].
    unfold emit_frame_field_write. cbn [fs_writer length_byte_pos payload_start_pos]. rewrite Ex. cbn [mbind option_bind].
    rewrite is_length_x, P1, P2. rewrite write_fields_run by done. cbn [fs_writer]. rewrite E3. done. }
  cbn [mbind option_bind fs_writer]. rewrite E4. cbn [mbind option_bind].
  pose proof (repr_no_error _ _ R4) as He4. unfold BitWriter.has_error in He4. destruct (error_ w4); [done|].
  rewrite write_fields_run by done. cbn [fs_writer length_byte_pos payload_start_pos]. rewrite E5. cbn [mbind option_bind].
  rewrite length_field_x. unfold emit_frame_length_backpatch. destruct Ha as [Ea Ek]. rewrite Ea. cbn [fs_writer length_byte_pos payload_start_pos].
  change (size_bytes new_writer) with 0. rewrite P5.
  assert (sz (frame_size - (if to_payload (ff_field x) then if to_payload (ff_field x) then length_place + Z.of_nat n else 0 else 0)) = measured) as ->.
  { unfold measured. destruct (to_payload (ff_field x)); rewrite sz_small by lia; lia. }
  destruct Hv as [Eapp Hrange]. rewrite Eapp. cbn [mbind option_bind]. destruct Hn as [En Hnn]. rewrite En.
  assert (wrap (storage_width (8 * Z.of_nat n)) v = v /\ (n = 4%nat -> wrap 32 v = v)) as [-> Hw32].
  { destruct Hnn as [-> | [-> | ->]]; (split; [by apply wrap_small|]); intros [=]. by apply wrap_small. }
  destruct (patch_within length_place n e v w5 frame_bits R5') as (w6 & E6 & R6); [lia|done|lia| |done|].
  { pose proof frame_bits_split as Es. apply (f_equal len) in Es. rewrite !len_app, Lx, B4 in Es.
    pose proof (len_nonneg behind). pose proof (len_nonneg rest_bits). lia. }
  exists w6. split; [|exact R6].
  assert ((if 8 * Z.of_nat n <=? 8 then patch_u8 length_place v w5
           else if 8 * Z.of_nat n <=? 16 then patch_u16 length_place v e w5 else patch_u32 length_place (wrap 32 v) e w5) = Some (true, w6)) as ->; [|done].
  rewrite <- E6. destruct Hnn as [-> | [-> | ->]]; [done|done|]. by rewrite (Hw32 eq_refl).
Qed.

(** *** The bytes *)

Definition sent_bits : list bool := before ++ bytes_bits (wire_bytes e n v) ++ behind ++ rest_bits.

Lemma patched_bits : patch_bits frame_bits length_place (wire_bytes e n v) = sent_bits.
Proof.
  destruct header_widths as (_ & L1 & _ & _ & _ & Lx & _). destruct sizes_bounded as (_ & _ & B3 & B4 & _).
  unfold patch_bits. rewrite length_wire_bytes, frame_bits_split.
  assert (length before = 8 * Z.to_nat length_place)%nat as El by (unfold len in B4; lia).
  assert (length (appended (op x) before) = 8 * n)%nat as Ex by (unfold len in Lx; lia).
  rewrite <- El, take_app_length. unfold sent_bits. f_equal. f_equal.
  rewrite app_assoc. rewrite drop_app_length'; [done|]. rewrite length_app. lia.
Qed.

Lemma sent_len : len sent_bits = len frame_bits.
Proof.
  destruct header_widths as (_ & _ & _ & _ & _ & Lx & _). rewrite frame_bits_split. unfold sent_bits.
  rewrite !len_app, Lx, len_bytes_bits. unfold len at 2. rewrite length_wire_bytes. lia.
Qed.

Lemma frame_bytes : exists d, encode_frame_bytes array count (pre ++ x :: post) footer payload = Some (Ok d)
  /\ Forall is_byte d /\ bytes_bits d = align8 sent_bits /\ len d = frame_size.
Proof.
  destruct encode_frame_runs as (w & Ew & Rw). rewrite patched_bits in Rw. destruct sizes_bounded as (B1 & B2 & _).
  destruct (finish_repr w sent_bits Rw) as (d & Ed & Hd & Hb); [unfold room; rewrite (repr_pos _ _ Rw), sent_len; lia|].
  exists d. unfold encode_frame_bytes. rewrite Ew. cbn [mbind option_bind]. rewrite Ed. split_and!; [done|done|done|].
  apply (f_equal len) in Hb. rewrite len_bytes_bits, align8_len, sent_len in Hb. unfold frame_size.
  pose proof (pad8_lt (length sent_bits)). apply (Z.div_unique _ 8 _ (7 - Z.of_nat (pad8 (length sent_bits)))); lia.
Qed.

Definition header_size : Z := length_place + Z.of_nat n + fields_bits post / 8.

Lemma header_prefix d : bytes_bits d = align8 sent_bits -> Forall is_byte d -> len d = frame_size ->
  bytes_bits (take (Z.to_nat header_size) d) = before ++ bytes_bits (wire_bytes e n v) ++ behind /\ header_size <= frame_size /\ 0 <= header_size.
Proof.
  intros Hb Hd Hl. destruct header_widths as (_ & L1 & _ & _ & _ & Lx & _ & L2 & M2). destruct sizes_bounded as (_ & _ & B3 & B4 & _).
  pose proof (len_nonneg behind). pose proof (Z.div_mod (fields_bits post) 8). assert (0 <= header_size) as Hh0 by (unfold header_size; lia).
  assert (len (before ++ bytes_bits (wire_bytes e n v) ++ behind) = 8 * header_size) as HL.
  { rewrite !len_app, B4, len_bytes_bits, L2. unfold len, header_size. rewrite length_wire_bytes. lia. }
  split_and!; [| |done].
  - rewrite <- take_bytes_bits, Hb. unfold align8, sent_bits. rewrite <- !app_assoc, !(app_assoc before), !(app_assoc (before ++ _)).
    rewrite take_app_length'; [by rewrite <- !app_assoc|]. rewrite <- !app_assoc. unfold len in HL. lia.
  - unfold frame_size. apply Z.div_le_lower_bound; [lia|]. rewrite <- sent_len. unfold sent_bits.
    rewrite !(app_assoc before), !(app_assoc (before ++ _)). rewrite <- !app_assoc.
    assert (len (before ++ bytes_bits (wire_bytes e n v) ++ behind ++ rest_bits)
      = len (before ++ bytes_bits (wire_bytes e n v) ++ behind) + len rest_bits) as -> by (rewrite !len_app; lia).
    pose proof (len_nonneg rest_bits). lia.
Qed.

(** *** The length is found again *)

Lemma read_length_back r post_bits : cursor r before (bytes_bits (wire_bytes e n v) ++ post_bits) ->
  exists r', read_length (8 * Z.of_nat n) (f_endian (ff_field x)) r = Some (Ok v, r').
Proof.
  intros Hc. destruct header_widths as (_ & _ & _ & A1 & _). destruct Hv as [_ Hr]. destruct Hn as [_ Hnn].
  assert (forall m, byte_read m (wire_bytes e n v) v -> exists r', m r = Some (Ok v, r')) as Hgo.
  { intros m Hm. destruct (Hm r before [] post_bits) as (r' & E & _); [exact Hc|unfold pad8; by rewrite A1|eauto]. }
  pose proof (wire_value_small e n v Hr) as Ev. unfold read_length. destruct Hnn as [-> | [-> | ->]].
  - apply Hgo. assert (wire_bytes e 1 v = [v]) as -> by (destruct e; cbn; unfold u8; rewrite Z.shiftr_0_r, wrap_small by done; done).
    by apply read_u8_read.
  - apply Hgo. rewrite <- Ev at 2. apply read_u16_read; [auto with conduit|apply length_wire_bytes].
  - apply Hgo. rewrite <- Ev at 2. apply read_u32_read; [auto with conduit|apply length_wire_bytes].
Qed.
End encoded_frame.


(** ** Lengths that can be recovered

    Sums and differences always, products that do not overflow, quotients without
    a remainder. *)
Definition recoverable (m : ArithModifier) (raw : Z) : Prop :=
  let k := sz (mod_literal m) in
  match mod_op m with
  | OpNone | OpAdd | OpSub => True
  | OpMul => 0 < k /\ raw * k <= SIZE_MAX
  | OpDiv => 0 < k /\ (k | raw)
  | OpMod => False
  end.

Lemma reverse_apply m raw v : recoverable m raw -> 0 <= raw <= SIZE_MAX -> apply_value m raw = Some v -> reverse_value m v = Some raw.
Proof.
  unfold recoverable, apply_value, reverse_value, has_modifier. intros Hr Hraw.
  pose proof (sz_range (mod_literal m)) as Hk. set (k := sz (mod_literal m)) in *.
  destruct (mod_op m) eqn:Eo; cbn [negb bool_decide]; try (rewrite bool_decide_eq_true_2 by done; cbn; by intros [= <-]);
    rewrite bool_decide_eq_false_2 by done; cbn [negb]; (destruct (is_field_operand m); [done|]); cbn [arith inverse_op].
  - intros [= <-]. f_equal. unfold sz, wrap. rewrite Zminus_mod_idemp_l. fold (wrap 64 (raw + k - k)) (sz (raw + k - k)). replace (raw + k - k) with raw by lia. by apply sz_small.
  - intros [= <-]. f_equal. rewrite sz_add_l. replace (raw - k + k) with raw by lia. by apply sz_small.
  - destruct Hr as [H1 H2]. intros [= <-]. rewrite (proj2 (Z.eqb_neq _ 0)) by lia. f_equal. rewrite sz_small by nia. apply Z.div_mul. lia.
  - destruct Hr as [H1 [q ->]]. rewrite (proj2 (Z.eqb_neq _ 0)) by lia. intros [= <-]. f_equal. rewrite Z.div_mul by lia. by apply sz_small.
Qed.


(** ** Frames of a session *)

(** The values of a frame: the header fields before the length field, that field,
    those after it, the footer fields, and the operations of the payload. *)
Record FrameInput := mkFrameInput {
  fi_pre : list FrameField; fi_length : FrameField; fi_post : list FrameField; fi_footer : list FrameField;
  fi_payload : list WriteOp; fi_count : Z
}.

Definition fi_header (i : FrameInput) : list FrameField := fi_pre i ++ fi_length i :: fi_post i.

Definition no_equals (x : FrameField) : Prop := has_equals (ff_field x) = false.

Section session.
Context (char_is_signed : bool) (p : Protocol) (idx : TypeIndex) `{!Indexes p idx}.

(** No constants in the header, or one at its start: the sync pattern. *)
Definition header_pattern (pre : list FrameField) (pattern : list Z) : Prop :=
  (pattern = [] /\ Forall no_equals pre)
  \/ exists x pre' k, pre = x :: pre' /\ sync_field p idx x k pattern /\ Forall no_equals pre'.

(** A frame of the definition [d] with values that fit, whose length fits its
    field and can be recovered from it.  The length counts the whole frame; or the
    payload, if nothing but the payload follows the length field. *)
Record input_ok (d : FrameDef) (L : Z) (i : FrameInput) : Prop := {
  io_header : header_fields d = header_children (fi_header i);
  io_footer : footer_fields d = header_children (fi_footer i);
  io_fields : Forall (frame_field_ok p idx (payload_is_array (frame_payload d)) (fi_count i)) (fi_header i);
  io_lengths : Forall (fun x => is_length (ff_field x) = false) (fi_pre i ++ fi_post i ++ fi_footer i);
  io_pattern : exists pattern, header_pattern (fi_pre i) pattern;
  io_equals : Forall no_equals (fi_length i :: fi_post i);
  io_fits : Forall fits (fi_payload i ++ fields_ops (payload_is_array (frame_payload d)) (fi_count i) (fi_footer i));
  io_room : total_bits (frame_ops (payload_is_array (frame_payload d)) (fi_count i) (fi_pre i) (fi_post i) (fi_footer i) (fi_length i)
              (fi_payload i)) <= SIZE_MAX - 64;
  io_size : frame_size (payload_is_array (frame_payload d)) (fi_count i) (fi_pre i) (fi_post i) (fi_footer i) (fi_length i)
              (fi_payload i) <= L;
  io_length : exists a n v, f_auto_expr (ff_field (fi_length i)) = Some a /\ auto_kind a = AutoLength
    /\ fti_bits (ff_info (fi_length i)) = 8 * Z.of_nat n /\ (n = 1 \/ n = 2 \/ n = 4)%nat
    /\ (let raw := measured (payload_is_array (frame_payload d)) (fi_count i) (fi_pre i) (fi_post i) (fi_footer i) (fi_length i)
                     (fi_payload i) n in
        apply_value (auto_modifier a) raw = Some v /\ 0 <= v < 2 ^ (8 * Z.of_nat n) /\ recoverable (auto_modifier a) raw);
  io_payload : to_payload (ff_field (fi_length i)) = true -> fi_post i = [] /\ fi_footer i = [];
}.

Lemma header_children_app a b : header_children (a ++ b) = header_children a ++ header_children b.
Proof. apply map_app. Qed.

Lemma fields_bits_app a b : fields_bits (a ++ b) = fields_bits a + fields_bits b.
Proof. induction a as [|x a IH]; [done|]. cbn [app fields_bits foldr]. fold (fields_bits (a ++ b)) (fields_bits a). lia. Qed.

(** What the analyzer finds in the header of such a frame. *)
Lemma scan_input array count pre x post a n pattern :
  Forall (frame_field_ok p idx array count) (pre ++ x :: post) -> Forall (fun y => is_length (ff_field y) = false) (pre ++ post) ->
  header_pattern pre pattern -> Forall no_equals (x :: post) ->
  f_auto_expr (ff_field x) = Some a -> auto_kind a = AutoLength -> fti_bits (ff_info x) = 8 * Z.of_nat n ->
  exists h, scan_header p idx (header_children (pre ++ x :: post)) 0 new_header = Some (sz (fields_bits (pre ++ x :: post)), h)
    /\ length_record h = (sz (fields_bits pre), 8 * Z.of_nat n, f_endian (ff_field x), auto_modifier a, auto_field_ref a)
    /\ SessionAnalyzer.sync_pattern h = pattern.
Proof.
  intros [Hpre [Hx Hpost]%Forall_cons]%Forall_app [Npre Npost]%Forall_app Hpat [Ex Epost]%Forall_cons Ea Ek Eb.
  assert (exists h1, scan_header p idx (header_children pre) (sz 0) new_header = Some (sz (fields_bits pre), h1)
    /\ SessionAnalyzer.sync_pattern h1 = pattern) as (h1 & E1 & S1).
  { destruct Hpat as [[-> Hne]|(x0 & pre' & k & -> & Hs & Hne)].
    - destruct (scan_plain p idx array count pre 0 new_header Hpre) as (h1 & E & _ & S); [by apply Forall_and|].
      exists h1. rewrite Z.add_0_l in E. done.
    - apply Forall_cons in Hpre as [Hx0 Hpre']. apply Forall_cons in Npre as [_ Npre'].
      destruct (scan_sync p idx array count x0 k pattern 0 new_header Hx0 Hs) as (h0 & E0 & _ & S0).
      destruct (scan_plain p idx array count pre' (0 + fti_bits (ff_info x0)) h0 Hpre') as (h1 & E & _ & S); [by apply Forall_and|].
      exists h1. change (header_children (x0 :: pre')) with ([ChField (ff_field x0)] ++ header_children pre').
      rewrite scan_app, E0. cbn [mbind option_bind]. rewrite E, S, S0. done. }
  destruct (scan_length p idx array count x a (fields_bits pre) h1 Hx Ex Ea Ek) as (h2 & E2 & R2 & S2).
  destruct (scan_plain p idx array count post (fields_bits pre + fti_bits (ff_info x)) h2 Hpost) as (h3 & E3 & R3 & S3); [by apply Forall_and|].
  exists h3. rewrite header_children_app. change (header_children (x :: post)) with ([ChField (ff_field x)] ++ header_children post).
  change 0 with (sz 0) at 1. rewrite scan_app, E1. cbn [mbind option_bind]. rewrite scan_app, E2. cbn [mbind option_bind]. rewrite E3.
  rewrite fields_bits_app. cbn [fields_bits foldr]. fold (fields_bits post). split_and!.
  - by rewrite Z.add_assoc.
  - by rewrite R3, R2, Eb.
  - by rewrite S3, S2.
Qed.

Lemma starts_with_prefix l d : starts_with l (l ++ d) = true.
Proof. induction l as [|b l IH]; [done|]. cbn. by rewrite Z.eqb_refl. Qed.

(** The constant of the sync field is what the frame starts with. *)
Lemma sync_written array count x n l : sync_field p idx x n l -> appended (frame_op array count x) [] = bytes_bits l.
Proof.
  intros [Hp (c & eq & Ec & Ee & _) _ Hn (Hb & Hsg & Hfl & Henc & Hcount) Hr ->].
  assert (frame_field_value array count x = ff_constant x) as Ev.
  { unfold frame_field_value, has_equals. rewrite Ec, Ee. cbn [is_some].
    assert (to_storage (ff_info x) (ff_constant x) = ff_constant x) as Es.
    { unfold to_storage. rewrite Hsg, Hb. apply wrap_small. by destruct Hn as [-> | [-> | [-> | ->]]]. }
    unfold is_length in Hp. destruct (f_auto_expr (ff_field x)) as [a|]; [|done]. destruct (auto_kind a); done. }
  assert (wire_endian (f_endian (ff_field x)) = to_endian (f_endian (ff_field x))) as -> by by destruct (f_endian (ff_field x)).
  unfold frame_op, write_call. rewrite Ev, Hsg, Hfl, Hb. cbn [negb andb].
  destruct (fti_wire_encoding (ff_info x)); try done; destruct Hn as [-> | [-> | [-> | ->]]];
    change (8 * Z.of_nat 1) with 8 in *; change (8 * Z.of_nat 2) with 16 in *;
    change (8 * Z.of_nat 4) with 32 in *; change (8 * Z.of_nat 8) with 64 in *;
    cbn [Z.eqb Pos.eqb Pos.leb Z.leb andb write_meaning appended length]; change (zeros (pad8 0)) with (@nil bool); cbn [app]; rewrite wrap_small by done; try done;
    (destruct (to_endian _); cbn; unfold u8; by rewrite Z.shiftr_0_r, wrap_small by done).
Qed.

(** The reader skips whole fields. *)
Lemma skip_bits_read bits r pre post : cursor r pre (bits ++ post) ->
  exists r', skip_bits (len bits) r = Some (Ok tt, r') /\ cursor r' (pre ++ bits) post.
Proof.
  intros H. unfold skip_bits. rewrite (proj2 (Z.ltb_ge _ _)).
  - eexists. split; [done|]. by apply cursor_advance.
  - pose proof (cursor_rest _ _ _ H) as Hr. rewrite (remaining_bits_rest r (cursor_wf _ _ _ H)), Hr, len_app. pose proof (len_nonneg post). lia.
Qed.

(** The session finds the measured length again in the header. *)
Lemma length_recovered si array count pre post footer x a payload n v d :
  Forall (frame_field_ok p idx array count) (pre ++ x :: post) ->
  f_auto_expr (ff_field x) = Some a -> auto_kind a = AutoLength ->
  fti_bits (ff_info x) = 8 * Z.of_nat n -> (n = 1 \/ n = 2 \/ n = 4)%nat ->
  Forall fits (payload ++ fields_ops array count footer) ->
  total_bits (frame_ops array count pre post footer x payload) <= SIZE_MAX - 64 ->
  apply_value (auto_modifier a) (measured array count pre post footer x payload n) = Some v -> 0 <= v < 2 ^ (8 * Z.of_nat n) ->
  recoverable (auto_modifier a) (measured array count pre post footer x payload n) ->
  (to_payload (ff_field x) = true -> post = [] /\ frame_footer_size si = 0) ->
  length_record (si_header si) = (sz (fields_bits pre), 8 * Z.of_nat n, f_endian (ff_field x), auto_modifier a, auto_field_ref a) ->
  SessionAnalyzer.min_frame_header_size si = header_size pre post n ->
  Forall is_byte d -> bytes_bits d = align8 (sent_bits array count pre post footer x payload n v) ->
  len d = frame_size array count pre post footer x payload ->
  session_frame_length si (take (Z.to_nat (header_size pre post n)) d) = Some (len d).
Proof.
  intros [Hpre [Hx Hpost]%Forall_cons]%Forall_app Ea Ek Eb Hn Hfit Hroom Hv Hr Hrec Hpay Hlr Hmin Hd Hbits Hlen.
  destruct (sizes_bounded p idx array count pre post footer x payload n) as (B1 & B2 & B3 & B4 & B5); [done..|].
  destruct (header_widths p idx array count pre post x n) as (_ & L1 & _); [done..|].
  destruct (header_prefix p idx array count pre post footer x payload n v) with d as (Hpf & Hle & Hge); [done..|].
  injection Hlr as Eo Ebits Een Em Eref. unfold session_frame_length. rewrite Eo, Ebits, Een, Em, Eref, Hmin.
  rewrite (proj2 (Z.ltb_lt _ _)) by lia.
  assert (len (take (Z.to_nat (header_size pre post n)) d) = header_size pre post n) as El.
  { unfold len in *. rewrite length_take. lia. }
  rewrite El, Z.ltb_irrefl. pose proof (len_nonneg (before array count pre)) as Hp0. pose proof (total_bits_nonneg (frame_ops array count pre post footer x payload)).
  assert (8 * frame_size array count pre post footer x payload <= SIZE_MAX - 57) as H8.
  { unfold frame_size. pose proof (Z.mul_div_le (len (frame_bits array count pre post footer x payload) + 7) 8). lia. }
  assert (cursor (new_reader (take (Z.to_nat (header_size pre post n)) d)) [] (before array count pre
    ++ bytes_bits (wire_bytes (to_endian (f_endian (ff_field x))) n v) ++ behind array count pre post x)) as Hc.
  { rewrite <- Hpf. apply cursor_new; [by apply Forall_take|]. rewrite El. lia. }
  assert (exists r, (if 0 <? sz (fields_bits pre) then skip_bits (sz (fields_bits pre)) (new_reader (take (Z.to_nat (header_size pre post n)) d))
      else Some (Ok tt, new_reader (take (Z.to_nat (header_size pre post n)) d))) = Some (Ok tt, r)
    /\ cursor r (before array count pre) (bytes_bits (wire_bytes (to_endian (f_endian (ff_field x))) n v) ++ behind array count pre post x))
    as (r & Er & Hcr).
  { rewrite <- L1, sz_small by lia. destruct (Z.ltb_spec 0 (len (before array count pre))) as [|H0].
    - by apply skip_bits_read in Hc.
    - assert (before array count pre = []) as E0 by (apply nil_length_inv; unfold len in H0, Hp0; lia). rewrite E0 in Hc |- *. eauto. }
  rewrite Er. cbn [mbind option_bind].
  destruct (read_length_back p idx array count pre post footer x a payload n v) with r (behind array count pre post x) as (r' & ->); [done..|].
  cbn [mbind option_bind]. rewrite (reverse_apply _ _ _ Hrec) by first [done|unfold measured; destruct_if; lia]. cbn [mbind option_bind].
  unfold measured, to_payload in *. rewrite Ea in *. rewrite Hlen. case_bool_decide as Hp; [|done].
  destruct (Hpay eq_refl) as [-> ->]. f_equal. unfold header_size, fields_bits. cbn [foldr]. change (0 / 8) with 0.
  rewrite (sz_small (_ + 0 + 0)), sz_small by lia. lia.
Qed.

Lemma analyze_frame_inv fuel d si : analyze_frame char_is_signed p idx fuel d = Some si ->
  exists bits foot, scan_header p idx (header_fields d) 0 new_header = Some (bits, si_header si)
    /\ footer_bits p idx (footer_fields d) 0 = Some foot
    /\ SessionAnalyzer.min_frame_header_size si = to_bytes bits /\ frame_footer_size si = to_bytes foot.
Proof.
  unfold analyze_frame. destruct (scan_header _ _ _ _ _) as [[bits h]|]; [|done]. cbn [mbind option_bind].
  destruct (footer_bits _ _ _ _) as [foot|]; [|done]. cbn [mbind option_bind].
  destruct (frame_autos _ _ AutoIncrement _); [|done]. cbn [mbind option_bind].
  destruct (frame_autos _ _ AutoTimestamp _); [|done]. cbn [mbind option_bind].
  destruct (mapM _ (proto_messages p)) as [leaves|]; [|done]. intros [= <-]. by exists bits, foot.
Qed.

Lemma starts_with_bits l d rest : Forall is_byte l -> Forall is_byte d -> bytes_bits d = bytes_bits l ++ rest -> starts_with l d = true.
Proof.
  intros Hl Hd E. rewrite <- (take_drop (length l) d). assert (take (length l) d = l) as ->; [|apply starts_with_prefix].
  apply bytes_bits_inj; [by apply Forall_take|done|]. rewrite <- take_bytes_bits, E. apply take_app_length'. by rewrite length_bytes_bits.
Qed.

(** The header in bytes. *)
Lemma header_bytes pre post x n : fields_bits pre mod 8 = 0 -> fields_bits post mod 8 = 0 -> fti_bits (ff_info x) = 8 * Z.of_nat n ->
  0 <= 8 * header_size pre post n <= SIZE_MAX - 7 -> to_bytes (sz (fields_bits (pre ++ x :: post))) = header_size pre post n.
Proof.
  intros H1 H2 En Hr. assert (fields_bits (pre ++ x :: post) = 8 * header_size pre post n) as ->.
  { rewrite fields_bits_app. cbn [fields_bits foldr]. fold (fields_bits post). unfold header_size, length_place.
    pose proof (Z.div_mod (fields_bits pre) 8). pose proof (Z.div_mod (fields_bits post) 8). lia. }
  unfold to_bytes. rewrite (sz_small (8 * _)), sz_small by lia. replace (8 * header_size pre post n + 7) with (7 + header_size pre post n * 8) by lia.
  by rewrite Z.div_add by lia.
Qed.

(** The pattern is at the start of the bits before the length field. *)
Lemma pattern_first array count pre pattern : header_pattern pre pattern ->
  Forall is_byte pattern /\ exists rest, before array count pre = bytes_bits pattern ++ rest.
Proof.
  intros [[-> _]|(x & pre' & k & -> & Hs & _)]; [by eauto|]. unfold before. cbn [fields_ops map encoded app].
  rewrite (sync_written array count x k pattern Hs). destruct Hs as [_ _ _ _ _ _ ->]. eauto with conduit.
Qed.

(** Every frame is encoded, and the session recognises its first bytes and finds
    its length in its header. *)
Lemma input_sent fuel d si L i : analyze_frame char_is_signed p idx fuel d = Some si -> input_ok d L i ->
  exists bytes, encode_frame_bytes (payload_is_array (frame_payload d)) (fi_count i) (fi_header i) (fi_footer i) (fi_payload i) = Some (Ok bytes)
    /\ @sent_ok (generated_session si) (Z.to_nat L) bytes.
Proof.
  intros Hsi [Hh Hf Hfields Hl (pattern & Hpat) Heq Hfits Hroom Hsize (a & n & v & Ea & Ek & Eb & Hn & Hv & Hvr & Hrec) Hpay].
  destruct (analyze_frame_inv _ _ _ Hsi) as (bits & foot & Escan & Efoot & Emin & Efs). rewrite Hh in Escan. rewrite Hf in Efoot.
  unfold fi_header in *. set (arr := payload_is_array (frame_payload d)) in *. set (c := fi_count i) in *.
  set (pre := fi_pre i) in *. set (x := fi_length i) in *. set (post := fi_post i) in *. set (footer := fi_footer i) in *. set (pay := fi_payload i) in *.
  pose proof Hfields as [Hpre [Hx Hpost]%Forall_cons]%Forall_app. pose proof Hl as [N1 [N2 N3]%Forall_app]%Forall_app.
  destruct (scan_input arr c pre x post a n pattern) as (h & Escan' & Rec & Sync); [done|by apply Forall_app|done|done|done|done|done|].
  rewrite Escan' in Escan. injection Escan as <- ->.
  destruct (sizes_bounded p idx arr c pre post footer x pay n) as (B1 & B2 & B3 & B4 & B5); [done..|].
  destruct (header_widths p idx arr c pre post x n) as (_ & L1 & M1 & _ & _ & _ & _ & L2 & M2); [done..|].
  destruct (frame_bytes p idx arr c pre post footer x a pay n v) as (bytes & Ebytes & Hbytes & Hbits & Hlen); [done..|].
  destruct (header_prefix p idx arr c pre post footer x pay n v) with bytes as (Hpf & Hle & Hge); [done..|].
  assert (SessionAnalyzer.min_frame_header_size si = header_size pre post n) as Emin'.
  { rewrite Emin. apply header_bytes; [done..|]. unfold frame_size in Hle.
    pose proof (Z.mul_div_le (len (frame_bits arr c pre post footer x pay) + 7) 8). lia. }
  assert (0 < header_size pre post n) as Hpos by (unfold header_size; pose proof (len_nonneg (behind arr c pre post x)); pose proof (Z.div_mod (fields_bits post) 8); lia).
  assert (@min_header (generated_session si) = Z.to_nat (header_size pre post n)) as Emh.
  { unfold min_header. cbn [StreamFramer.min_frame_header_size generated_session]. rewrite Emin', (proj2 (Nat.eqb_neq _ _)) by lia. done. }
  exists bytes. split; [exact Ebytes|]. split_and!.
  - cbn [StreamFramer.sync_pattern generated_session]. rewrite Sync. destruct (pattern_first arr c pre pattern Hpat) as (Hb & rest & Er).
    unfold align8, sent_bits in Hbits. rewrite Er, <- !app_assoc in Hbits. by eapply starts_with_bits.
  - rewrite Emh. cbn [extract_frame_length generated_session].
    rewrite (length_recovered si arr c pre post footer x a pay n v); try done.
    { unfold len. cbn. lia. }
    intros Hp. destruct (Hpay Hp) as [? Hnf]. split; [done|]. rewrite Efs. rewrite Hnf in Efoot. by injection Efoot as <-.
  - rewrite Emh. unfold len in Hlen. lia.
  - unfold len in Hlen. lia.
Qed.
End session.

(** [encode_bytes] of the frame class. *)
Definition encode_input (d : FrameDef) (i : FrameInput) : option (Result (list Z)) :=
  encode_frame_bytes (payload_is_array (frame_payload d)) (fi_count i) (fi_header i) (fi_footer i) (fi_payload i).

(** C4: Generated frames survive the stream.  Take an accepted protocol and a
    frame definition whose header is made of fields of whole bytes, with at most
    one sync constant, at its start, and one automatic length field of 1, 2 or 4
    bytes.  Every frame with values that fit, whose length fits its field and can
    be recovered from it, is encoded without error; and however the bytes of a
    sequence of such frames are cut into chunks that leave room for one frame,
    [StreamFramer] with the sync pattern, header size and length function
    generated for that frame returns exactly those frames, in order, and keeps
    nothing in its buffer. *)
Theorem generated_frames_recovered (char_is_signed : bool) (p p' : Protocol) (idx : TypeIndex) (fuel : nat) (d : FrameDef) (si : SessionInfo)
    (L max : nat) (inputs : list FrameInput) :
  literals_defined p -> resolve_types p = Some (Resolved idx, p') ->
  analyze_frame char_is_signed p' idx fuel d = Some si -> Forall (input_ok p' idx d (Z.of_nat L)) inputs -> (L <= max)%nat ->
  exists frames, Forall2 (fun i fr => encode_input d i = Some (Ok fr)) inputs frames
    /\ forall chunks, concat chunks = concat frames -> Forall (fun c => length c + L <= max)%nat chunks ->
       exists f, @push_all (generated_session si) chunks (new_framer max) = Some (Ok frames, f) /\ buffered_bytes f = 0%nat.
Proof.
  intros Hl E Hsi Hin HL. pose proof (resolved_index p p' idx Hl E) as Hidx.
  assert (exists frames, Forall2 (fun i fr => encode_input d i = Some (Ok fr)) inputs frames
    /\ Forall (@sent_ok (generated_session si) L) frames) as (frames & He & Hs).
  { induction Hin as [|i inputs Hi _ IH]; [by exists []|]. destruct IH as (frames & He & Hs).
    destruct (input_sent char_is_signed p' idx fuel d si (Z.of_nat L) i Hsi Hi) as (fr & Ei & Hfr). rewrite Nat2Z.id in Hfr.
    exists (fr :: frames). split; by constructor. }
  exists frames. split; [done|]. intros chunks Ec Hc.
  destruct (@push_all_clean (generated_session si) L chunks frames (new_framer max)) as (f & E1 & V & W & _);
    [done|done|apply new_framer_ok|done|done|cbn; lia|].
  exists f. split; [exact E1|]. by rewrite <- length_view, V.
Qed.

(** A frame with a sync word, the length of the whole frame and an identifier. *)
Definition framed_link : Protocol :=
  framed_protocol [ChField (header_field "sync" "net16" None None (Some "0xEB90"));
                   ChField (header_field "len" "net16" None (Some AutoLength) None);
                   ChField (header_field "kind" "" (Some 8) (Some AutoId) None)].

Definition link_frame : FrameDef := default (sample_frame []) (head (proto_frames framed_link)).

Definition info_in (p : Protocol) (f : Field) : FieldTypeInfo :=
  default new_fti match resolve_types p with Some (Resolved idx, p') => resolve_field_type p' idx f | _ => None end.

(** The fields of a definition with the values of a frame; sync constants by
    their number. *)
Definition link_input (kind : Z) (payload : list WriteOp) : FrameInput :=
  let sync := header_field "sync" "net16" None None (Some "0xEB90") in
  let size := header_field "len" "net16" None (Some AutoLength) None in
  let id := header_field "kind" "" (Some 8) (Some AutoId) None in
  mkFrameInput [mkFrameField sync (info_in framed_link sync) 0xEB90 0] (mkFrameField size (info_in framed_link size) 0 0)
    [mkFrameField id (info_in framed_link id) 0 kind] [] payload 0.

Definition link_inputs : list FrameInput := [link_input 1 [WU8 5; WU8 6]; link_input 2 []].

Example link_frames : map (encode_input link_frame) link_inputs
  = [Some (Ok [0xEB; 0x90; 0; 7; 1; 5; 6]); Some (Ok [0xEB; 0x90; 0; 5; 2])].
Proof. vm_compute. reflexivity. Qed.

(** Evaluates the conditions on a concrete frame of length [v]. *)
Ltac evaluate := vm_compute; repeat match goal with |- _ /\ _ => split end; try first [reflexivity|exact I|discriminate|(intros; discriminate)].
Ltac sync_field_ok :=
  split; [reflexivity|eexists _, _; split_and!; reflexivity|eexists; split; vm_compute; reflexivity|auto|split_and!; evaluate|
          split; evaluate|vm_compute; reflexivity].
Ltac link_input_ok v :=
  split; [reflexivity|reflexivity|
    repeat first [apply Forall_nil; exact I | apply Forall_cons; split]; (split; [reflexivity|(split; [reflexivity|evaluate; auto])|reflexivity|evaluate])|
    repeat first [apply Forall_nil; exact I | apply Forall_cons; split; [reflexivity|]]|
    exists [0xEB; 0x90]; right; eexists _, _, 2%nat; (split; [reflexivity|(split; [sync_field_ok|by constructor])])|
    repeat first [apply Forall_nil; exact I | apply Forall_cons; split; [reflexivity|]]|
    repeat first [apply Forall_nil; exact I | apply Forall_cons; split; [evaluate|]]|
    evaluate|evaluate|
    exists (mkAuto AutoLength [] [] no_modifier), 2%nat, v; cbv zeta; split_and!; [evaluate..|auto|evaluate|evaluate|evaluate|exact I]|
    discriminate].

Lemma link_inputs_ok idx p' : resolve_types framed_link = Some (Resolved idx, p') -> Forall (input_ok p' idx link_frame 16) link_inputs.
Proof.
  intros E. vm_compute in E. injection E as <- <-. apply Forall_cons. split; [|apply Forall_cons; split; [|by constructor]].
  - link_input_ok 7.
  - link_input_ok 5.
Qed.

Lemma framed_link_literals : literals_defined framed_link.
Proof. by apply literals_checked_defined. Qed.

Lemma generated_frames_recovered_witness :
  exists idx p' si frames f, resolve_types framed_link = Some (Resolved idx, p') /\ analyze_frame true p' idx 3 link_frame = Some si
    /\ Forall2 (fun i fr => encode_input link_frame i = Some (Ok fr)) link_inputs frames
    /\ @push_all (generated_session si) [[0xEB; 0x90; 0]; [7; 1; 5; 6; 0xEB]; [0x90; 0; 5; 2]] (new_framer 64) = Some (Ok frames, f).
Proof.
  destruct (resolve_types framed_link) as [[[idx|] p']|] eqn:E; [|vm_compute in E; discriminate..].
  destruct (analyze_frame true p' idx 3 link_frame) as [si|] eqn:Es; [|vm_compute in E; injection E as <- <-; vm_compute in Es; discriminate].
  destruct (generated_frames_recovered true framed_link p' idx 3 link_frame si 16 64 link_inputs framed_link_literals E Es
    (link_inputs_ok idx p' E)) as (frames & Hf & Hchunks); [lia|].
  destruct (Hchunks [[0xEB; 0x90; 0]; [7; 1; 5; 6; 0xEB]; [0x90; 0; 5; 2]]) as (f & Hpush & _).
  - pose proof (Forall2_impl _ _ _ _ Hf (fun i fr H => H)) as H.
    inversion_clear H as [|? fr1 ? ? E1 H2]. inversion_clear H2 as [|? fr2 ? ? E2 H3]. inversion_clear H3.
    vm_compute in E1, E2. injection E1 as <-. injection E2 as <-. reflexivity.
  - repeat first [apply Forall_nil; exact I | apply Forall_cons; split; [cbn; lia|]].
  - exists idx, p', si, frames, f. split_and!; [done|done|exact Hf|exact Hpush].
Defined.

(** ** Lengths the session gets wrong *)

Definition length_header (field_ref : string) (modifier : ArithModifier) (bits : Z) : Field :=
  mkField "len" "" false (Some bits) None false None None None None [] [] None None None None false None None false
    None None None None None None EndianBig true FmtDecimal false None false None None
    (Some (mkAuto AutoLength (txt field_ref) [] modifier)) [] "" unknown_loc.

Definition byte_field (name : string) : Field := header_field name "" (Some 8) None None.

(** The bytes of a frame with these header and footer fields and two bytes of
    payload, and the length the session takes it to have. *)
Definition sent_and_found (header : list StructChild) (footer : list Field) : option (list Z * Z) :=
  let p := framed_protocol header in
  let value f := mkFrameField f (info_in p f) 0 9 in
  let d := mkFrameDef "link" header (mkPayload false None unknown_loc) (map ChField footer) [] "" unknown_loc in
  match encode_frame_bytes false 0 (map value (top_fields header)) (map value footer) [WU8 5; WU8 6], resolve_types p with
  | Some (Ok bytes), Some (Resolved idx, p') =>
      si ← analyze_frame true p' idx 3 d;
      n ← session_frame_length si bytes;
      Some (bytes, n)
  | _, _ => None
  end.

(** With [length(payload)] the number written counts everything after the length
    field: the rest of the header and the footer are in it, and the session adds
    the sizes of the whole header and of the footer. *)
Example payload_length_alone : sent_and_found [ChField (length_header "payload" no_modifier 8)] [] = Some ([2; 5; 6], 3).
Proof. vm_compute. reflexivity. Qed.

Example payload_length_with_footer :
  sent_and_found [ChField (length_header "payload" no_modifier 8)] [byte_field "crc"] = Some ([3; 5; 6; 9], 5).
Proof. vm_compute. reflexivity. Qed.

Example payload_length_not_last :
  sent_and_found [ChField (length_header "payload" no_modifier 8); ChField (byte_field "kind")] [] = Some ([3; 9; 5; 6], 5).
Proof. vm_compute. reflexivity. Qed.

(** A length in words of a frame that is no whole number of words. *)
Example odd_length_in_words :
  sent_and_found [ChField (length_header "" (mkModifier OpDiv 2 []) 8)] [] = Some ([1; 5; 6], 2).
Proof. vm_compute. reflexivity. Qed.

(** Reserved bits of a header are counted by the session and not written. *)
Example reserved_not_written :
  sent_and_found [ChReserved (mkReserved 8 unknown_loc); ChField (length_header "" no_modifier 8)] [] = Some ([3; 5; 6], 5).
Proof. vm_compute. reflexivity. Qed.

(** A length of 12 bits after a nibble is written in those bits, but patched and
    read as the two bytes after them: the first byte of the payload is lost. *)
Example narrow_length :
  sent_and_found [ChField (header_field "kind" "" (Some 4) None None); ChField (length_header "" no_modifier 12)] []
  = Some ([0x90; 0; 4; 6], 4).
Proof. vm_compute. reflexivity. Qed.
