(* ===== verification/TextCodec.v ===== *)
(** * Strings and bytes in generated code

    Models what the C++ back end generates for the members that hold text: string
    and bytes fields of a struct ([conduit/bgen/src/codegen/cpp_structs_encode.cpp],
    [cpp_structs_decode.cpp], with the helpers of [cpp_structs_helpers.cpp] and
    [cpp_structs_expr.cpp]) and the classes of declared string types
    ([cpp_types.cpp]).  An encoder is the list of writer operations it performs, or
    the error it returns before the first of them; a decoder is a program of the
    reader monad.  A [std::string] is its list of bytes.  [None] is a program
    without a meaning: undefined behaviour, or a terminator that is none of those
    that are documented.  The members of a struct are these together with the
    numbers, reserved bits and alignment of [StructCodec]. *)

From stdpp Require Import base numbers list gmap strings pretty.
From Stdlib Require Import ZArith Lia.
From S2P Require Import Prelude CoreError Endian BitWriter BitReader StringEncoding CharConv AutoExpr ExprParser Ast TypeResolver ProtocolIndex Validation FieldCodec StructCodec.

Open Scope Z_scope.
Local Open Scope reader_scope.

(** ** Encodings *)

Global Instance StringEncoding_eq_dec : EqDecision StringEncoding.
Proof. solve_decision. Defined.
Global Instance StringPadding_eq_dec : EqDecision StringPadding.
Proof. solve_decision. Defined.

Definition needs_encoding_conversion (e : StringEncoding) : bool :=
  match e with EncIa5 | EncEbcdic => true | EncAscii | EncUtf8 => false end.

(** The enumerator of the run-time library. *)
Definition encoding_enum (e : StringEncoding) : Encoding :=
  match e with EncIa5 => IA5 | EncEbcdic => EBCDIC | EncUtf8 => UTF8 | EncAscii => ASCII end.

Definition field_needs_encoding (f : Field) : bool :=
  match f_encoding f with Some e => needs_encoding_conversion e | None => false end.

Definition field_encoding_enum (f : Field) : Encoding :=
  match f_encoding f with Some e => encoding_enum e | None => ASCII end.

Definition field_from_ascii (f : Field) (s : list Z) : list Z :=
  if field_needs_encoding f then from_ascii s (field_encoding_enum f) else s.
Definition field_to_ascii (f : Field) (s : list Z) : list Z :=
  if field_needs_encoding f then to_ascii s (field_encoding_enum f) else s.

Definition type_from_ascii (t : TypeDef) (s : list Z) : list Z :=
  if needs_encoding_conversion (td_encoding t) then from_ascii s (encoding_enum (td_encoding t)) else s.
Definition type_to_ascii (t : TypeDef) (s : list Z) : list Z :=
  if needs_encoding_conversion (td_encoding t) then to_ascii s (encoding_enum (td_encoding t)) else s.

(** ** Trimming *)

(** [find_first_not_of] and [erase]. *)
Fixpoint trim_left (c : Z) (s : list Z) : list Z :=
  match s with
  | x :: s' => if x =? c then trim_left c s' else s
  | [] => []
  end.

(** [while (!s.empty() && s.back() == c) s.pop_back();] *)
Fixpoint trim_right (c : Z) (s : list Z) : list Z :=
  match s with
  | x :: s' => match trim_right c s' with [] => if x =? c then [] else [x] | t => x :: t end
  | [] => []
  end.

Definition trim_char (padding : StringPadding) : Z := match padding with PadSpace => 0x20 | PadNull | PadNone => 0 end.

Definition trim_code (trim : StringTrim) (padding : StringPadding) (s : list Z) : list Z :=
  let c := trim_char padding in
  match trim with
  | TrimRight => trim_right c s
  | TrimLeft => trim_left c s
  | TrimBoth => trim_right c (trim_left c s)
  | TrimNone => s
  end.

(** ** Terminators *)

Inductive Terminator := TermCrlf | TermByte (b : Z).

Definition terminator (term : string) : option Terminator :=
  if String.eqb term "crlf" then Some TermCrlf
  else if String.eqb term "null" then Some (TermByte 0x00)
  else if String.eqb term "newline" then Some (TermByte 0x0A)
  else if hex_literal (txt term) then v ← parse_literal (txt term) ≫= id; Some (TermByte v)
  else None.

(** The argument of [write_u8] is converted to a byte. *)
Definition terminator_ops (t : Terminator) : list WriteOp :=
  match t with
  | TermCrlf => [WU8 0x0D; WU8 0x0A]
  | TermByte b => [WU8 (u8 b)]
  end.

(** ** Packed characters *)

(** The code of a character: its low bits, in upper case where lower case has no
    code. *)
Definition pack_code (char_bits ch : Z) : Z :=
  let ch := if (char_bits <? 7) && (0x61 <=? ch) && (ch <=? 0x7A) then ch - 32 else ch in
  Z.land ch (Z.shiftl 1 char_bits - 1).

(** Beyond the end of the string the filler takes the place of the character. *)
Definition pack_char (char_bits filler : Z) (s : list Z) (i : nat) : option WriteOp :=
  if (0 <=? char_bits) && (char_bits <? 31)
  then Some (WBits (pack_code char_bits (default filler (s !! i))) (Z.to_nat char_bits)) else None.

Definition pack_chars (char_bits count filler : Z) (s : list Z) : option (list WriteOp) :=
  mapM (pack_char char_bits filler s) (seq 0 (Z.to_nat count)).

(** The character of a code; a string type cuts the code to its width first. *)
Definition unpack_char (char_bits bits : Z) : Z :=
  let raw := u8 bits in
  if char_bits <? 7 then if raw =? 0 then 0 else if raw <? 32 then raw + 0x40 else raw else raw.

Definition unpack_type_char (char_bits bits : Z) : option Z :=
  if (0 <=? char_bits) && (char_bits <? 31)
  then Some (unpack_char char_bits (Z.land bits (Z.shiftl 1 char_bits - 1))) else None.

(** ** Reading *)

(** [if (!val) return std::unexpected(val.error().with_context(...));] *)
Definition in_context {A} (ctx : option string) (m : R A) : R A := fun r =>
  match ctx, m r with
  | Some c, Some (Fail e, r') => Some (Fail (with_context c e), r')
  | _, o => o
  end.

Fixpoint read_packed (ctx : option string) (char_bits : Z) (char_of : Z -> option Z) (count : nat) : R (list Z) :=
  match count with
  | O => ret []
  | S n =>
      let! bits := in_context ctx (read_bits (sz char_bits)) in
      let! ch := lift (char_of bits) in
      let! s := read_packed ctx char_bits char_of n in
      ret (ch :: s)
  end.

(** The loops that look for a terminator: at most so many rounds. *)
Fixpoint read_to_byte (ctx : option string) (term : Z) (rounds : nat) : R (list Z) :=
  match rounds with
  | O => ret []
  | S n =>
      let! b := in_context ctx read_u8 in
      if b =? term then ret []
      else let! s := read_to_byte ctx term n in ret (b :: s)
  end.

Fixpoint read_to_crlf (ctx : option string) (rounds : nat) : R (list Z) :=
  match rounds with
  | O => ret []
  | S n =>
      let! b := in_context ctx read_u8 in
      if b =? 0x0D then
        let! b2 := in_context ctx read_u8 in
        if b2 =? 0x0A then ret []
        else let! s := read_to_crlf ctx n in ret (b :: b2 :: s)
      else let! s := read_to_crlf ctx n in ret (b :: s)
  end.

Definition read_terminated (ctx : option string) (t : Terminator) (max_len : Z) : R (list Z) :=
  match t with
  | TermCrlf => read_to_crlf ctx (Z.to_nat (sz max_len))
  | TermByte b => read_to_byte ctx b (Z.to_nat (sz max_len))
  end.

Definition default_max_len : Z := 65535.

(** [auto len = <prefix read>;] *)
Definition read_prefix (ctx : option string) (pti : PrefixTypeInfo) : R Z :=
  let! v := in_context ctx (run_read_call (prefix_read_call pti)) in
  match v with VInt n => ret n | _ => lift None end.

(** ** String fields *)

Section fields.
Variable p : Protocol.
Variable idx : TypeIndex.

Definition resolve_effective_padding (f : Field) : option StringPadding :=
  match f_padding f with
  | Some pd => Some pd
  | None =>
      if String.eqb (f_type_ref f) "" then Some PadNull
      else t ← type_at p idx (f_type_ref f); Some (match t with Some t => td_padding t | None => PadNull end)
  end.

Definition resolve_padding_char (f : Field) : option Z :=
  t ← (if String.eqb (f_type_ref f) "" then Some None else type_at p idx (f_type_ref f));
  let is_space :=
    match f_padding f with
    | Some pd => bool_decide (pd = PadSpace)
    | None => match t with Some t => bool_decide (td_padding t = PadSpace) | None => false end
    end in
  let is_ebcdic :=
    bool_decide (f_encoding f = Some EncEbcdic)
    || match t with Some t => bool_decide (td_encoding t = EncEbcdic) | None => false end in
  Some (if is_space then if is_ebcdic then 0x40 else 0x20 else 0).

Definition emit_field_trim (f : Field) (s : list Z) : option (list Z) :=
  match f_trim f with
  | None => Some s
  | Some trim => pd ← resolve_effective_padding f; Some (trim_code trim pd s)
  end.

(** [if (member.size() > max_length) return ...] *)
Definition exceeds_max (f : Field) (s : list Z) : bool :=
  match f_max_length f with Some n => sz n <? len s | None => false end.

Definition too_long (what q : string) (s : list Z) (f : Field) : string :=
  what +:+ " " +:+ q +:+ ": length " +:+ pretty (len s) +:+ " exceeds max length " +:+ pretty (default 0 (f_max_length f)).

(** [w.write_string(s, s.size());] *)
Definition whole_string (s : list Z) : WriteOp := WString s (length s) 0.

(** The length that stands in front of a string: with its own size or without. *)
Definition prefix_value (f : Field) (pti : PrefixTypeInfo) (wire : list Z) : Z :=
  if f_length_includes_prefix f then len wire + get_prefix_bytes pti else len wire.

Definition emit_encode_string (f : Field) (member : list Z) : option (list WriteOp) :=
  match f_char_bits f, f_terminated f, f_length f, f_length_prefix f with
  | Some char_bits, _, Some n, _ => pack_chars char_bits n 0x20 member
  | _, Some term, _, _ => t ← terminator term; Some (whole_string member :: terminator_ops t)
  | _, None, Some n, _ =>
      pad ← resolve_padding_char f;
      Some [WString (field_from_ascii f member) (Z.to_nat (sz n)) pad]
  | _, None, None, Some prefix =>
      pti ← resolve_prefix_type p idx prefix;
      let wire := field_from_ascii f member in
      Some [write_meaning (prefix_write_call pti) (sz (prefix_value f pti wire)); whole_string wire]
  | _, None, None, None => Some [whole_string member]
  end.

(** [q] is the qualified name of the field in messages. *)
Definition encode_string_field (q : string) (f : Field) (member : list Z) : option (Result (list WriteOp)) :=
  if exceeds_max f member then Some (Fail (new_error StringTooLong (too_long "encode" q member f)))
  else ops ← emit_encode_string f member; Some (Ok ops).

(** The text as the member holds it: converted and trimmed. *)
Definition store_text (f : Field) (wire : list Z) : R (list Z) := lift (emit_field_trim f (field_to_ascii f wire)).

Definition emit_decode_length_prefix (q : string) (f : Field) (prefix : string) : R (list Z) :=
  let ctx := Some ("decode " +:+ q) in
  let! pti := lift (resolve_prefix_type p idx prefix) in
  let! n := read_prefix ctx pti in
  if f_length_includes_prefix f then
    let prefix_bytes := get_prefix_bytes pti in
    if n <? sz prefix_bytes then
      throw BufferOverrun ("decode " +:+ q +:+ ": length-prefix value " +:+ pretty n +:+ " smaller than prefix size "
                           +:+ pretty prefix_bytes)
    else let! s := in_context ctx (read_string (sz (n - prefix_bytes))) in store_text f s
  else let! s := in_context ctx (read_string n) in store_text f s.

(** [nbytes] is the value of the length-from expression, converted to [size_t].
    The member is empty before. *)
Definition emit_decode_string (q : string) (f : Field) (nbytes : Z) : R (list Z) :=
  let ctx := Some ("decode " +:+ q) in
  match f_char_bits f, f_length f, f_length_prefix f, f_length_from f, f_terminated f with
  | Some char_bits, Some n, _, _, _ =>
      let! s := read_packed ctx char_bits (fun bits => Some (unpack_char char_bits bits)) (Z.to_nat n) in lift (emit_field_trim f s)
  | _, Some n, _, _, _ => let! s := in_context ctx (read_string (sz n)) in store_text f s
  | _, None, Some prefix, _, _ => emit_decode_length_prefix q f prefix
  | _, None, None, Some _, _ => let! s := in_context ctx (read_string nbytes) in store_text f s
  | _, None, None, None, Some term =>
      let! t := lift (terminator term) in
      let! s := read_terminated ctx t (default default_max_len (f_max_length f)) in store_text f s
  | _, None, None, None, None =>
      if f_length_star f then
        fun r => (let! s := in_context ctx (read_string (remaining_bytes r)) in store_text f s) r
      else ret []
  end.

Definition check_max_length (q : string) (f : Field) (s : list Z) : R (list Z) :=
  if exceeds_max f s then throw MaxLengthExceeded (too_long "decode" q s f) else ret s.

Definition decode_string_field (q : string) (f : Field) (nbytes : Z) : R (list Z) :=
  let! s := emit_decode_string q f nbytes in check_max_length q f s.

(** *** Optional fields

    For the value of an optional field the encoder has statements of its own; the
    decoder's are those of any field, inside the test of its condition. *)

Definition emit_encode_optional_string (f : Field) (value : list Z) : option (list WriteOp) :=
  match f_char_bits f, f_length f with
  | Some char_bits, Some n => pack_chars char_bits n 0x20 value
  | _, Some n =>
      pad ← resolve_padding_char f;
      Some [WString (field_from_ascii f value) (Z.to_nat (sz n)) pad]
  | _, None => Some [whole_string value]
  end.

Definition encode_optional_string (q : string) (f : Field) (member : option (list Z)) : option (Result (list WriteOp)) :=
  match member with
  | None => Some (Ok [])
  | Some value =>
      if exceeds_max f value then Some (Fail (new_error StringTooLong (too_long "encode" q value f)))
      else ops ← emit_encode_optional_string f value; Some (Ok ops)
  end.

(** The member is a [std::optional], which can be assigned but has none of the
    functions that trimming and the length check call. *)
Definition optional_compiles (f : Field) : bool :=
  match f_trim f with Some TrimNone | None => true | _ => false end && negb (is_some (f_max_length f)).

Definition decode_optional_string (q : string) (f : Field) (present : bool) (nbytes : Z) : option (R (option (list Z))) :=
  if optional_compiles f then Some (if present then fmap_R Some (decode_string_field q f nbytes) else ret None) else None.

(** ** Bytes fields

    A field with a fixed length is a [std::array] of that many bytes, all other
    fields are vectors. *)

Definition bytes_array_size (f : Field) : option Z :=
  if f_type_is_inline f || String.eqb (f_type_ref f) "" then
    match f_base f, f_length f with Some BaseBytes, Some n => Some n | _, _ => f_bytes_attr f end
  else f_length f.

Definition encode_bytes_field (q : string) (f : Field) (member : list Z) : option (Result (list WriteOp)) :=
  if exceeds_max f member then Some (Fail (new_error StringTooLong (too_long "encode" q member f)))
  else match f_length f with
       | Some n => span ← subspan member 0 (sz n); Some (Ok [WBytes span])
       | None => Some (Ok [WBytes member])
       end.

(** [std::copy] into an array overwrites its first bytes. *)
Definition copy_into (member bytes : list Z) : option (list Z) :=
  if len bytes <=? len member then Some (bytes ++ drop (length bytes) member) else None.

Definition emit_decode_bytes (q : string) (f : Field) (nbytes : Z) (member : list Z) : R (list Z) :=
  let ctx := Some ("decode " +:+ q) in
  match f_length f, f_length_from f, f_length_star f, f_bytes_attr f with
  | Some n, _, _, _ => let! s := in_context ctx (read_bytes (sz n)) in lift (copy_into member s)
  | None, Some _, _, _ => in_context ctx (read_bytes nbytes)
  | None, None, true, _ => fun r => in_context ctx (read_bytes (remaining_bytes r)) r
  | None, None, false, Some n => let! s := in_context ctx (read_bytes (sz n)) in lift (copy_into member s)
  | None, None, false, None => ret member
  end.

(** The member of a new message: zeros, or an empty vector. *)
Definition new_bytes (f : Field) : list Z := replicate (Z.to_nat (default 0 (bytes_array_size f))) 0.

Definition decode_bytes_field (q : string) (f : Field) (nbytes : Z) : R (list Z) :=
  let! s := emit_decode_bytes q f nbytes (new_bytes f) in check_max_length q f s.

End fields.

(** ** String types *)

Definition type_filler (t : TypeDef) : Z := match td_padding t with PadNull => 0x00 | PadSpace | PadNone => 0x20 end.

Definition type_padding_char (t : TypeDef) : Z :=
  match td_padding t with PadSpace => match td_encoding t with EncEbcdic => 0x40 | _ => 0x20 end | PadNull | PadNone => 0 end.

(** [encode]: a class is generated for a type with a length or a terminator. *)
Definition encode_string_type (t : TypeDef) (value : list Z) : option (list WriteOp) :=
  match td_char_bits t, td_length t, td_terminated t with
  | Some char_bits, Some n, _ => pack_chars char_bits (sz n) (type_filler t) value
  | _, Some n, _ => Some [WString (type_from_ascii t value) (Z.to_nat (sz n)) (type_padding_char t)]
  | _, None, Some term => tm ← terminator term; Some (whole_string value :: terminator_ops tm)
  | _, None, None => None
  end.

(** [decode]: errors are handed on without a context. *)
Definition decode_string_type (t : TypeDef) : R (list Z) :=
  let trim := trim_code (td_trim t) (td_padding t) in
  match td_char_bits t, td_length t, td_terminated t with
  | Some char_bits, Some n, _ => let! s := read_packed None char_bits (unpack_type_char char_bits) (Z.to_nat (sz n)) in ret (trim s)
  | _, Some n, _ => let! s := read_string (sz n) in ret (trim (type_to_ascii t s))
  | _, None, Some term =>
      let! tm := lift (terminator term) in
      let! s := read_terminated None tm (default default_max_len (td_max_length t)) in ret (trim s)
  | _, None, None => lift None
  end.

(** [set_value]: only a terminated type with a maximum refuses a text. *)
Definition set_string_value (name : string) (t : TypeDef) (v : list Z) : Result (list Z) :=
  match td_length t, td_terminated t, td_max_length t with
  | None, Some _, Some n =>
      if sz n <? len v then Fail (new_error StringTooLong (name +:+ " exceeds max length " +:+ pretty n)) else Ok v
  | _, _, _ => Ok v
  end.

(** ** Structs with text *)

Inductive MemberKind :=
  | KItem (it : Item)
  | KString (q : string) (f : Field)
  | KOptString (q : string) (f : Field)
  | KBytes (q : string) (f : Field)
  | KStringType (q : string) (t : TypeDef).

Inductive MemberValue := Number (v : option Z) | Text (s : list Z) | OptText (s : option (list Z)).

Section members.
Variable p : Protocol.
Variable idx : TypeIndex.

(** What the encoder does for one member, and the alignment tracker behind it:
    after text the emitter calls [advance_bits_variable]. *)
Definition encode_member (m : Z) (k : MemberKind) (v : MemberValue) : option (Result (list WriteOp) * Z) :=
  match k, v with
  | KItem it, Number v => let '(ops, m) := encode_item m it v in Some (Ok ops, m)
  | KString q f, Text s => res ← encode_string_field p idx q f s; Some (res, advance_bits_variable m)
  | KOptString q f, OptText s => res ← encode_optional_string p idx q f s; Some (res, advance_bits_variable m)
  | KBytes q f, Text s => res ← encode_bytes_field q f s; Some (res, advance_bits_variable m)
  | KStringType q t, Text s => ops ← encode_string_type t s; Some (Ok ops, advance_bits_variable m)
  | _, _ => None
  end.

Fixpoint encode_members (m : Z) (l : list (MemberKind * MemberValue)) : option (Result (list WriteOp)) :=
  match l with
  | [] => Some (Ok [])
  | (k, v) :: l =>
      '(res, m) ← encode_member m k v;
      match res with
      | Fail e => Some (Fail e)
      | Ok ops =>
          res ← encode_members m l;
          Some (match res with Ok ops' => Ok (ops ++ ops') | Fail e => Fail e end)
      end
  end.

(** A member as the decoder sees it: whether its condition holds, and the value of
    its length-from expression. *)
Record Expected := mkExpected { x_kind : MemberKind; x_present : bool; x_nbytes : Z }.

Definition decode_member (m : Z) (x : Expected) : option (R (list Value) * Z) :=
  let text (d : R (list Z)) : option (R (list Value) * Z) := Some (fmap_R (fun s => [VBytes s]) d, advance_bits_variable m) in
  match x_kind x with
  | KItem it => '(steps, m) ← decode_item m it (x_present x); Some (run_steps steps, m)
  | KString q f => text (decode_string_field p idx q f (x_nbytes x))
  | KOptString q f =>
      d ← decode_optional_string p idx q f (x_present x) (x_nbytes x);
      Some (fmap_R (fun s => match s with Some s => [VBytes s] | None => [] end) d, advance_bits_variable m)
  | KBytes q f => text (decode_bytes_field q f (x_nbytes x))
  | KStringType q t => text (in_context (Some ("decode " +:+ q)) (decode_string_type t))
  end.

Fixpoint decode_members (m : Z) (l : list Expected) : option (R (list Value)) :=
  match l with
  | [] => Some (ret [])
  | x :: l =>
      '(d, m) ← decode_member m x;
      rest ← decode_members m l;
      Some (let! vs := d in let! ws := rest in ret (vs ++ ws))
  end.
End members.
