(* ===== verification/TextCodecSpec.v ===== *)
(** * The codec of strings and bytes, part by part

    Proves of [TextCodec] that the encoder and the decoder of one member belong
    together: what the writer operations put on the wire, what the programs of the
    reader make of it, and for which texts that is the same text. *)

From stdpp Require Import base numbers list gmap strings pretty.
From Stdlib Require Import ZArith Lia.
From S2P Require Import Prelude Bits CoreError Endian BitWriter BitReader BitIO StringEncoding CharConv AutoExpr ExprParser Ast TypeResolver ProtocolIndex Validation FieldCodec StructCodec TextCodec.

Open Scope Z_scope.
Local Open Scope reader_scope.

(** ** Trimming takes away what padding put there *)

Lemma trim_right_app c s k : trim_right c (s ++ replicate k c) = trim_right c s.
Proof.
  induction s as [|x s IH]; cbn [app trim_right]; [|by rewrite IH].
  induction k as [|k IH]; cbn [replicate trim_right]; [done|]. by rewrite IH, Z.eqb_refl.
Qed.

Lemma trim_left_replicate c k : trim_left c (replicate k c) = [].
Proof. induction k as [|k IH]; cbn; [done|]. by rewrite Z.eqb_refl. Qed.

Lemma trim_both_app c s k : trim_right c (trim_left c (s ++ replicate k c)) = trim_right c (trim_left c s).
Proof.
  induction s as [|x s IH]; cbn [app trim_left]; [by rewrite trim_left_replicate|].
  destruct (x =? c); [done|]. apply (trim_right_app c (x :: s)).
Qed.

Definition trims_right (t : StringTrim) : bool := match t with TrimRight | TrimBoth => true | TrimLeft | TrimNone => false end.

Lemma trim_code_filler t pd s k : trims_right t = true -> trim_code t pd (s ++ replicate k (trim_char pd)) = trim_code t pd s.
Proof. destruct t; try done; intros _; [apply trim_right_app|apply trim_both_app]. Qed.

(** ** Packed characters *)

(** The characters that have a code of their own in so many bits. *)
Definition packable (char_bits c : Z) : bool :=
  if 7 <=? char_bits then c <? 2 ^ char_bits
  else (c =? 0) || ((0x41 <=? c) && (c <? 0x40 + Z.min 32 (2 ^ char_bits))) || ((0x20 <=? c) && (c <? 2 ^ char_bits)).

Lemma pack_exact char_bits c : 1 <= char_bits <= 8 -> is_byte c ->
  (unpack_char char_bits (pack_code char_bits c) = c <-> packable char_bits c = true).
Proof.
  intros Hb Hc. pose proof (forall_bits_range 8 (fun c => eqb (unpack_char char_bits (pack_code char_bits c) =? c) (packable char_bits c)) c) as H.
  rewrite <- Z.eqb_eq. apply (eqb_prop (_ =? _)) in H; [by rewrite H| |done].
  assert (char_bits = 1 \/ char_bits = 2 \/ char_bits = 3 \/ char_bits = 4 \/ char_bits = 5 \/ char_bits = 6 \/ char_bits = 7 \/ char_bits = 8)
    as Hcases by lia.
  destruct_or! Hcases; subst; vm_compute; reflexivity.
Qed.

Lemma pack_code_range char_bits c : 0 <= char_bits -> 0 <= pack_code char_bits c < 2 ^ char_bits.
Proof.
  intros H. unfold pack_code. rewrite Z.shiftl_1_l, Z.sub_1_r, <- Z.ones_equiv, Z.land_ones by lia. apply Z.mod_pos_bound. lia.
Qed.

(** ** A program that reads what was written *)

Definition delivers {A} (m : R A) (ops : list WriteOp) (v : A) (pre post : list bool) : Prop :=
  forall r, cursor r pre (encoded ops pre ++ post) -> exists r', m r = Some (Ok v, r') /\ cursor r' (pre ++ encoded ops pre) post.

Lemma delivers_ret {A} (v : A) pre post : delivers (ret v) [] v pre post.
Proof. intros r H. exists r. by rewrite app_nil_r. Qed.

Lemma delivers_bind {A B} (m : R A) (k : A -> R B) o1 o2 a b pre post :
  delivers m o1 a pre (encoded o2 (pre ++ encoded o1 pre) ++ post) -> delivers (k a) o2 b (pre ++ encoded o1 pre) post ->
  delivers (bind m k) (o1 ++ o2) b pre post.
Proof.
  intros H1 H2 r Hc. rewrite encoded_app, <- app_assoc in Hc. destruct (H1 _ Hc) as (r1 & E1 & C1).
  destruct (H2 _ C1) as (r2 & E2 & C2). exists r2. rewrite (bind_ok _ _ _ _ _ E1), encoded_app, app_assoc. done.
Qed.

Lemma delivers_then {A B} (m : R A) (k : A -> R B) ops a b pre post :
  delivers m ops a pre post -> (forall r, k a r = Some (Ok b, r)) -> delivers (bind m k) ops b pre post.
Proof. intros H Hk r Hc. destruct (H _ Hc) as (r1 & E1 & C1). exists r1. by rewrite (bind_ok _ _ _ _ _ E1), Hk. Qed.

Lemma in_context_ok {A} ctx (m : R A) r a r' : m r = Some (Ok a, r') -> in_context ctx m r = Some (Ok a, r').
Proof. intros E. unfold in_context. rewrite E. by destruct ctx. Qed.

Lemma delivers_context {A} ctx (m : R A) ops v pre post : delivers m ops v pre post -> delivers (in_context ctx m) ops v pre post.
Proof. intros H r Hc. destruct (H _ Hc) as (r' & E & C). exists r'. by rewrite (in_context_ok _ _ _ _ _ E). Qed.

(** *** Bytes *)

(** Operations that align and write so many bytes. *)
Definition writes_bytes (ops : list WriteOp) (l : list Z) : Prop :=
  forall pre, encoded ops pre = zeros (pad8 (length pre)) ++ bytes_bits l.

Lemma pad8_align8 pre : pad8 (length (align8 pre)) = 0%nat.
Proof. pose proof (align8_mod pre) as H. unfold pad8. by rewrite H. Qed.

Lemma align8_bytes_mod (pre : list bool) l : (length (align8 pre ++ bytes_bits l) mod 8 = 0)%nat.
Proof.
  rewrite length_app, length_bytes_bits. pose proof (align8_mod pre) as H. rewrite <- Nat.Div0.add_mod_idemp_l, H.
  cbn [Nat.add]. rewrite Nat.mul_comm. apply Nat.Div0.mod_mul.
Qed.

Lemma writes_bytes_one op l : (forall pre, appended op pre = zeros (pad8 (length pre)) ++ bytes_bits l) -> writes_bytes [op] l.
Proof. intros H pre. by rewrite encoded_one. Qed.

Lemma writes_bytes_app o1 o2 l1 l2 : writes_bytes o1 l1 -> writes_bytes o2 l2 -> writes_bytes (o1 ++ o2) (l1 ++ l2).
Proof.
  intros H1 H2 pre. rewrite encoded_app, H1, H2, (app_assoc pre). fold (align8 pre).
  assert (pad8 (length (align8 pre ++ bytes_bits l1)) = 0%nat) as -> by (unfold pad8; by rewrite align8_bytes_mod).
  by rewrite bytes_bits_app, <- app_assoc.
Qed.

Lemma byte_read_delivers {A} (m : R A) ops l v pre post : byte_read m l v -> writes_bytes ops l -> delivers m ops v pre post.
Proof.
  intros Hm Hw r Hc. rewrite Hw in *. rewrite <- app_assoc in Hc. apply (Hm r pre _ post Hc). by rewrite length_replicate.
Qed.

Lemma byte_read_bind {A B} (m : R A) (k : A -> R B) l1 l2 a b :
  byte_read m l1 a -> byte_read (k a) l2 b -> byte_read (bind m k) (l1 ++ l2) b.
Proof.
  intros H1 H2 r pre skip post Hc Hs. rewrite bytes_bits_app, <- app_assoc in Hc. destruct (H1 _ _ _ _ Hc Hs) as (r1 & E1 & C1).
  destruct (H2 r1 _ [] post C1) as (r2 & E2 & C2).
  { rewrite app_assoc, !length_app, length_bytes_bits, Hs. unfold pad8.
    replace ((length pre + _ + _) mod 8)%nat with 0%nat; [done|].
    pose proof (align8_bytes_mod pre l1) as Hm. unfold align8 in Hm. rewrite !length_app, length_replicate, length_bytes_bits in Hm. done. }
  exists r2. rewrite (bind_ok _ _ _ _ _ E1), bytes_bits_app. split; [done|]. by rewrite <- !app_assoc in C2.
Qed.

Lemma byte_read_then {A B} (m : R A) (k : A -> R B) l a b :
  byte_read m l a -> (forall r, k a r = Some (Ok b, r)) -> byte_read (bind m k) l b.
Proof. intros H Hk r pre skip post Hc Hs. destruct (H _ _ _ _ Hc Hs) as (r1 & E1 & C1). exists r1. by rewrite (bind_ok _ _ _ _ _ E1), Hk. Qed.

Lemma byte_read_context {A} ctx (m : R A) l v : byte_read m l v -> byte_read (in_context ctx m) l v.
Proof. intros H r pre skip post Hc Hs. destruct (H _ _ _ _ Hc Hs) as (r' & E & C). exists r'. by rewrite (in_context_ok _ _ _ _ _ E). Qed.

Lemma byte_read_lift {A B} (a : A) (k : A -> R B) l v : byte_read (k a) l v -> byte_read (bind (lift (Some a)) k) l v.
Proof. intros H. exact H. Qed.

(** *** Terminated strings *)

(** A text that does not hold its terminator, found within the rounds. *)
Fixpoint crlf_free (s : list Z) : bool :=
  match s with
  | [] => true
  | b :: s' => if b =? 0x0D then match s' with [] => false | b2 :: s'' => negb (b2 =? 0x0A) && crlf_free s'' end else crlf_free s'
  end.

Fixpoint crlf_rounds (s : list Z) : nat :=
  match s with
  | [] => 0
  | b :: s' => S (if b =? 0x0D then match s' with [] => 0 | _ :: s'' => crlf_rounds s'' end else crlf_rounds s')
  end.

Definition terminated_ok (t : Terminator) (max_len : Z) (s : list Z) : Prop :=
  match t with
  | TermCrlf => crlf_free s = true /\ Z.of_nat (crlf_rounds s) < sz max_len
  | TermByte b => is_byte b /\ Forall (fun c => c <> b) s /\ len s < sz max_len
  end.

Definition terminator_bytes (t : Terminator) : list Z := match t with TermCrlf => [0x0D; 0x0A] | TermByte b => [u8 b] end.

Lemma read_to_byte_read ctx b s rounds : is_byte b -> Forall is_byte s -> Forall (fun c => c <> b) s -> (length s < rounds)%nat ->
  byte_read (read_to_byte ctx b rounds) (s ++ [b]) s.
Proof.
  intros Hb. revert rounds. induction s as [|c s IH]; intros [|n] Hs Hf Hn; cbn [length] in Hn; try lia; cbn [read_to_byte app].
  - eapply byte_read_then; [by apply byte_read_context, read_u8_read|]. intros r. by rewrite Z.eqb_refl.
  - inversion_clear Hs. inversion_clear Hf. change (c :: s ++ [b]) with ([c] ++ (s ++ [b])).
    eapply byte_read_bind; [by apply byte_read_context, read_u8_read|]. cbn beta. rewrite (proj2 (Z.eqb_neq c b)) by done.
    eapply byte_read_then; [apply IH; auto with lia|done].
Qed.

Lemma read_to_crlf_read ctx s rounds : Forall is_byte s -> crlf_free s = true -> (crlf_rounds s < rounds)%nat ->
  byte_read (read_to_crlf ctx rounds) (s ++ [0x0D; 0x0A]) s.
Proof.
  assert (forall c, is_byte c -> byte_read (in_context ctx read_u8) [c] c) as Hu by (intros; by apply byte_read_context, read_u8_read).
  revert s. induction rounds as [|n IH]; intros s Hs Hf Hn; [lia|]. cbn [read_to_crlf].
  destruct s as [|c s]; cbn [app crlf_free crlf_rounds] in *.
  - change [13; 10] with ([13] ++ [10]). eapply byte_read_bind; [by apply Hu|]. cbn beta. rewrite Z.eqb_refl.
    eapply byte_read_then; [by apply Hu|done].
  - inversion_clear Hs as [|? ? Hc Hs']. destruct (Z.eqb_spec c 0x0D) as [->|Hne].
    + destruct s as [|c2 s]; [done|]. inversion_clear Hs'. apply andb_true_iff in Hf as [H2%negb_true_iff Hf].
      change (13 :: (c2 :: s) ++ [13; 10]) with ([13] ++ [c2] ++ (s ++ [13; 10])). eapply byte_read_bind; [by apply Hu|].
      cbn beta. rewrite Z.eqb_refl. eapply byte_read_bind; [by apply Hu|]. cbn beta. rewrite H2.
      eapply byte_read_then; [apply IH; auto with lia|done].
    + change (c :: s ++ [13; 10]) with ([c] ++ (s ++ [13; 10])). eapply byte_read_bind; [by apply Hu|]. cbn beta.
      rewrite (proj2 (Z.eqb_neq c 13)) by done. eapply byte_read_then; [apply IH; auto with lia|done].
Qed.

Lemma read_terminated_read ctx t max_len s : Forall is_byte s -> terminated_ok t max_len s ->
  byte_read (read_terminated ctx t max_len) (s ++ terminator_bytes t) s.
Proof.
  intros Hs. destruct t as [|b]; cbn [terminated_ok read_terminated terminator_bytes].
  - intros [Hf Hn]. apply read_to_crlf_read; [done..|lia].
  - intros (Hb & Hf & Hn). unfold u8. rewrite wrap_small by (unfold is_byte in Hb; lia). apply read_to_byte_read; [done..|unfold len in Hn; lia].
Qed.

Lemma whole_string_writes s : writes_bytes [whole_string s] s.
Proof.
  apply writes_bytes_one. intros pre. cbn [whole_string appended]. do 2 f_equal. unfold padded. by rewrite take_ge, Nat.sub_diag, app_nil_r by lia.
Qed.

Lemma terminator_writes t : writes_bytes (terminator_ops t) (terminator_bytes t).
Proof.
  destruct t as [|b]; [|by apply writes_bytes_one].
  change (terminator_ops TermCrlf) with ([WU8 0x0D] ++ [WU8 0x0A]). by apply (writes_bytes_app _ _ [0x0D] [0x0A]); apply writes_bytes_one.
Qed.

Lemma terminator_fits t : Forall fits (terminator_ops t).
Proof. destruct t; repeat constructor; cbn [fits]; try lia; apply (wrap_range 8); lia. Qed.

(** *** Length prefixes *)

(** The bytes a prefix takes on the wire. *)
Definition prefix_width (pti : PrefixTypeInfo) : nat :=
  if pti_bits pti <=? 8 then 1 else if pti_bits pti <=? 16 then 2 else if pti_bits pti <=? 32 then 4 else 8.

Lemma wire_bytes_1 e v : 0 <= v < 2 ^ (8 * Z.of_nat 1) -> wire_bytes e 1 v = [v].
Proof.
  intros Hv. assert (u8 (Z.shiftr v 0) = v) as E by (rewrite Z.shiftr_0_r; by apply wrap_small).
  unfold wire_bytes, be_bytes. change (8 * Z.of_nat 0) with 0. rewrite E. by destruct e.
Qed.

Lemma prefix_writes pti v : 0 <= v < 2 ^ (8 * Z.of_nat (prefix_width pti)) ->
  let op := write_meaning (prefix_write_call pti) v in
  fits op /\ writes_bytes [op] (wire_bytes (to_endian (pti_endian pti)) (prefix_width pti) v)
  /\ forall ctx, byte_read (read_prefix ctx pti) (wire_bytes (to_endian (pti_endian pti)) (prefix_width pti) v) v.
Proof.
  set (e := to_endian (pti_endian pti)). unfold prefix_width, prefix_write_call, read_prefix, prefix_read_call. intros Hv.
  assert (forall c l, byte_read (run_read (read_meaning c).1) l (VInt v) -> (read_meaning c).2 v = v ->
    forall ctx, byte_read (let! x := in_context ctx (run_read_call c) in match x with VInt n => ret n | _ => lift None end) l v) as Hread.
  { intros c l H E ctx. eapply byte_read_then; [apply byte_read_context, (byte_read_then _ _ _ (VInt v) (VInt v) H)|done].
    intros r. cbn. by rewrite E. }
  assert (forall A (f : A -> Value) (m : R A) l a, byte_read m l a -> byte_read (fmap_R f m) l (f a)) as Hmap
    by (intros; by eapply byte_read_then).
  repeat case_match; cbn [write_meaning fits]; rewrite wrap_small by lia; fold e;
    (split; [lia|split; [apply writes_bytes_one|apply Hread; [|done]]]); cbn [read_meaning fst run_read]; fold e.
  - intros pre. by rewrite wire_bytes_1.
  - rewrite wire_bytes_1 by done. by apply Hmap, read_u8_read.
  - done.
  - rewrite <- (wire_value_small e 2 v) at 2 by done. apply Hmap, read_u16_read; [auto with conduit|apply length_wire_bytes].
  - done.
  - rewrite <- (wire_value_small e 4 v) at 2 by done. apply Hmap, read_u32_read; [auto with conduit|apply length_wire_bytes].
  - done.
  - rewrite <- (wire_value_small e 8 v) at 2 by done. apply Hmap, read_u64_read; [auto with conduit|apply length_wire_bytes].
Qed.

(** *** Packed characters *)

Lemma pack_char_ok char_bits filler s i : 1 <= char_bits <= 8 ->
  pack_char char_bits filler s i = Some (WBits (pack_code char_bits (default filler (s !! i))) (Z.to_nat char_bits)).
Proof. intros H. unfold pack_char. by rewrite (proj2 (Z.leb_le 0 _)), (proj2 (Z.ltb_lt _ 31)) by lia. Qed.

(** The string filled up to its length. *)
Definition filled (count : nat) (filler : Z) (s : list Z) : list Z := s ++ replicate (count - length s) filler.

Definition packed_ops (char_bits : Z) (l : list Z) : list WriteOp :=
  map (fun c => WBits (pack_code char_bits c) (Z.to_nat char_bits)) l.

Lemma pack_chars_ok char_bits count filler s : 1 <= char_bits <= 8 -> len s <= count ->
  pack_chars char_bits count filler s = Some (packed_ops char_bits (filled (Z.to_nat count) filler s)).
Proof.
  intros Hb Hs. unfold pack_chars, packed_ops, filled. apply mapM_Some, Forall2_same_length_lookup_2.
  { rewrite length_seq, length_map, length_app, length_replicate. unfold len in Hs. lia. }
  intros i x y [Hx Hi]%lookup_seq Hy. cbn in Hx. subst x. rewrite pack_char_ok by done.
  rewrite list_lookup_fmap in Hy. destruct (decide (i < length s)%nat) as [Hl|Hl].
  - rewrite lookup_app_l in Hy by done. destruct (s !! i); [|done]. cbn in *. by simplify_eq.
  - rewrite lookup_app_r, lookup_replicate_2 in Hy by lia. rewrite lookup_ge_None_2 by lia. cbn in *. by simplify_eq.
Qed.

Lemma packed_fits char_bits l : 1 <= char_bits <= 8 -> Forall fits (packed_ops char_bits l).
Proof.
  intros Hb. apply Forall_map, Forall_true. intros c. cbn [fits]. rewrite Z2Nat.id by lia. split; [apply pack_code_range|]; lia.
Qed.

Lemma packed_len char_bits l pre : 1 <= char_bits <= 8 -> len (encoded (packed_ops char_bits l) pre) = char_bits * len l.
Proof.
  intros Hb. revert pre. induction l as [|c l IH]; intros pre; cbn [packed_ops map encoded appended]; [unfold len; cbn; lia|].
  fold (packed_ops char_bits l). rewrite len_app, IH, len_to_bits, Z2Nat.id by lia. unfold len. cbn [length]. lia.
Qed.

(** Each code comes back as the character [char_of] gives for it. *)
Lemma read_packed_delivers ctx char_bits char_of l l' pre post : 1 <= char_bits <= 8 ->
  Forall2 (fun c c' => char_of (pack_code char_bits c) = Some c') l l' ->
  delivers (read_packed ctx char_bits char_of (length l)) (packed_ops char_bits l) l' pre post.
Proof.
  intros Hb Hl. revert pre. induction Hl as [|c c' l l' Hc Hl IH]; intros pre; [apply delivers_ret|].
  cbn [length read_packed packed_ops map]. fold (packed_ops char_bits l).
  pose proof (pack_code_range char_bits c ltac:(lia)) as Hr.
  change (?x :: packed_ops char_bits l) with ([x] ++ packed_ops char_bits l).
  eapply (delivers_bind _ _ _ _ (pack_code char_bits c)).
  { apply delivers_context. intros r Hcur. rewrite encoded_one in *. cbn [appended] in *.
    pose proof (read_bits_cursor _ _ _ _ Hcur) as E. pose proof (cursor_advance _ _ _ _ Hcur) as Ha.
    rewrite length_to_bits, len_to_bits, of_bits_to_bits, Z2Nat.id, Z.mod_small in * by lia. rewrite sz_small by (unfold SIZE_MAX; lia).
    eexists. split; [apply E; lia|done]. }
  cbn beta. rewrite Hc. intros r Hcur.
  destruct (delivers_then _ (fun s => ret (c' :: s)) _ _ (c' :: l') _ _ (IH (pre ++ encoded _ pre)) ltac:(done) r Hcur) as (r' & E & C).
  exists r'. split; [|done]. rewrite <- E. done.
Qed.

(** ** Encodings and padding *)

Lemma field_from_ascii_enum f s : field_from_ascii f s = from_ascii s (field_encoding_enum f).
Proof. unfold field_from_ascii, field_needs_encoding, field_encoding_enum. by destruct (f_encoding f) as [[]|]. Qed.
Lemma field_to_ascii_enum f s : field_to_ascii f s = to_ascii s (field_encoding_enum f).
Proof. unfold field_to_ascii, field_needs_encoding, field_encoding_enum. by destruct (f_encoding f) as [[]|]. Qed.
Lemma type_from_ascii_enum t s : type_from_ascii t s = from_ascii s (encoding_enum (td_encoding t)).
Proof. unfold type_from_ascii. by destruct (td_encoding t). Qed.
Lemma type_to_ascii_enum t s : type_to_ascii t s = to_ascii s (encoding_enum (td_encoding t)).
Proof. unfold type_to_ascii. by destruct (td_encoding t). Qed.

Definition carries (enc : Encoding) (s : list Z) : Prop := Forall (fun c => carried enc c = true) s.

Lemma recode_carried enc s : Forall is_byte s -> carries enc s -> to_ascii (from_ascii s enc) enc = s.
Proof.
  intros Hb Hs. induction s as [|c s IH]; [by destruct enc|]. inversion_clear Hb. inversion_clear Hs.
  rewrite recode_cons, IH by done. by rewrite (proj2 (recode_byte enc c ltac:(done))).
Qed.

Lemma length_from_ascii enc s : length (from_ascii s enc) = length s.
Proof. destruct enc; cbn; by rewrite ?length_map. Qed.

Lemma from_ascii_byte enc s : Forall is_byte s -> Forall is_byte (from_ascii s enc).
Proof.
  intros Hs. destruct enc; cbn [from_ascii]; [done| | |done]; apply Forall_map; (eapply Forall_impl; [exact Hs|]); intros c Hc; unfold is_byte in *.
  - change 0x7F with (Z.ones 7). rewrite Z.land_ones by lia. pose proof (Z.mod_pos_bound c (2 ^ 7) ltac:(lia)). lia.
  - pose proof (forall_bits_range 8 (fun c => (0 <=? table_at ascii_to_ebcdic c) && (table_at ascii_to_ebcdic c <? 256)) c ltac:(reflexivity) Hc) as H.
    apply andb_true_iff in H. lia.
Qed.

(** The characters of the wire, one by one. *)
Definition ascii_of (enc : Encoding) (c : Z) : Z :=
  match enc with ASCII | UTF8 => c | IA5 => Z.land c 0x7F | EBCDIC => table_at ebcdic_to_ascii c end.

Lemma to_ascii_map enc s : to_ascii s enc = map (ascii_of enc) s.
Proof. destruct enc; cbn [to_ascii ascii_of]; by rewrite ?map_id. Qed.

Lemma padded_text enc s n pad : Forall is_byte s -> carries enc s -> (length s <= n)%nat -> is_byte pad ->
  to_ascii (padded (from_ascii s enc) n pad) enc = s ++ replicate (n - length s) (ascii_of enc pad).
Proof.
  intros Hb Hs Hn Hp. unfold padded. rewrite take_ge, length_from_ascii by (rewrite length_from_ascii; lia).
  rewrite to_ascii_map, map_app, (fmap_replicate (ascii_of enc) : forall n x, map _ _ = _), <- to_ascii_map, recode_carried by done.
  unfold u8. by rewrite wrap_small.
Qed.

Definition filler_trimmed (trim : StringTrim) (pd : StringPadding) (c : Z) : Prop := trims_right trim = true /\ c = trim_char pd.

Lemma trim_filler trim pd s k c : (0 < k -> filler_trimmed trim pd c)%nat ->
  trim_code trim pd (s ++ replicate k c) = trim_code trim pd s.
Proof. destruct k as [|k]; intros H; [by rewrite app_nil_r|]. destruct (H ltac:(lia)) as [Ht ->]. by apply trim_code_filler. Qed.

(** ** String fields *)

Section fields.
Context (p : Protocol) (idx : TypeIndex).

(** What the field trims: nothing without a setting of its own. *)
Definition field_trim (f : Field) : StringTrim := default TrimNone (f_trim f).

Lemma emit_field_trim_code f pd s : resolve_effective_padding p idx f = Some pd ->
  emit_field_trim p idx f s = Some (trim_code (field_trim f) pd s).
Proof. intros E. unfold emit_field_trim, field_trim. destruct (f_trim f); [by rewrite E|done]. Qed.

Lemma padding_char_byte f pad : resolve_padding_char p idx f = Some pad -> is_byte pad.
Proof. unfold resolve_padding_char. intros (t & _ & [= <-])%bind_Some. unfold is_byte. repeat case_match; lia. Qed.

(** A field whose type is built in is filled up with the character it trims. *)
Lemma builtin_filler f pd pad : type_at p idx (f_type_ref f) = Some None -> resolve_effective_padding p idx f = Some pd ->
  resolve_padding_char p idx f = Some pad -> ascii_of (field_encoding_enum f) pad = trim_char pd.
Proof.
  intros Ht. unfold resolve_effective_padding, resolve_padding_char. rewrite Ht.
  assert ((if String.eqb (f_type_ref f) "" then Some None else Some None) = Some (@None TypeDef)) as -> by by case_match. cbn.
  intros Hpd [= <-]. unfold field_encoding_enum.
  destruct (f_padding f) as [[]|]; [..|destruct (String.eqb (f_type_ref f) "")]; simplify_eq; destruct (f_encoding f) as [[]|]; reflexivity.
Qed.

(** The texts that come back from a field.  A fixed length that the text does not
    fill needs trimming on the right; where the encoder writes the text as it is,
    decoding must not change it. *)
Definition string_ok (f : Field) (nbytes : Z) (v : list Z) : Prop :=
  Forall is_byte v /\ exceeds_max f v = false /\ exists pd, resolve_effective_padding p idx f = Some pd
  /\ trim_code (field_trim f) pd v = v
  /\ let enc := field_encoding_enum f in
    match f_char_bits f, f_length f, f_terminated f, f_length_prefix f, f_length_from f with
    | Some char_bits, Some n, _, _, _ =>
        1 <= char_bits <= 8 /\ len v <= n /\ Forall (fun c => packable char_bits c = true) v
        /\ (len v < n -> filler_trimmed (field_trim f) pd (unpack_char char_bits (pack_code char_bits 0x20)))
    | _, Some n, None, _, _ =>
        len v <= n <= SIZE_MAX /\ carries enc v /\ exists pad, resolve_padding_char p idx f = Some pad
        /\ (len v < n -> filler_trimmed (field_trim f) pd (ascii_of enc pad))
    | _, None, None, Some prefix, _ =>
        carries enc v /\ exists pti, resolve_prefix_type p idx prefix = Some pti /\ 0 <= pti_bits pti
        /\ prefix_value f pti v < 2 ^ (8 * Z.of_nat (prefix_width pti))
    | _, None, None, None, Some _ => nbytes = len v /\ field_to_ascii f v = v
    | _, None, Some term, None, None =>
        field_to_ascii f v = v /\ exists t, terminator term = Some t /\ terminated_ok t (default default_max_len (f_max_length f)) v
    | _, None, None, None, None => f_length_star f = true /\ field_to_ascii f v = v
    | _, _, _, _, _ => False
    end.

(** An open-ended string takes what is left. *)
Definition open_ended (f : Field) : bool :=
  f_length_star f && negb (is_some (f_length f) || is_some (f_length_prefix f) || is_some (f_length_from f) || is_some (f_terminated f)).

Lemma store_text_ok f pd s v r : resolve_effective_padding p idx f = Some pd -> trim_code (field_trim f) pd (field_to_ascii f s) = v ->
  store_text p idx f s r = Some (Ok v, r).
Proof. intros E H. unfold store_text. by rewrite (emit_field_trim_code _ _ _ E), H. Qed.

Lemma padded_writes s n pad : writes_bytes [WString s n pad] (padded s n pad).
Proof. by apply writes_bytes_one. Qed.

Lemma read_string_padded ctx s n pad : Forall is_byte s -> byte_read (in_context ctx (read_string (Z.of_nat n))) (padded s n pad) (padded s n pad).
Proof.
  intros Hs. apply byte_read_context. pose proof (read_string_read (padded s n pad) ltac:(by apply padded_byte)) as H.
  unfold len in H. by rewrite length_padded in H.
Qed.

Lemma remaining_bytes_cursor r pre v : cursor r pre (zeros (pad8 (length pre)) ++ bytes_bits v) -> remaining_bytes r = len v.
Proof.
  intros H. pose proof (cursor_bit_pos _ _ _ H) as [Eb Ep]. pose proof (f_equal len (cursor_bits _ _ _ H)) as El.
  destruct (cursor_wf _ _ _ H) as [_ Hs Hp _ _]. rewrite !len_app, !len_bytes_bits in El. unfold remaining_bytes.
  assert (len (zeros (pad8 (length pre))) = Z.of_nat (pad8 (length pre))) as Ez by (unfold len; by rewrite length_replicate). rewrite Ez in El.
  pose proof (Nat.div_mod_eq (length pre) 8) as Hd. pose proof (Nat.mod_upper_bound (length pre) 8 ltac:(lia)) as Hm.
  pose proof (len_nonneg v). assert (len pre = Z.of_nat (length pre)) as Epre by done. unfold pad8 in El. destruct (Nat.eq_dec (length pre mod 8) 0) as [E0|E0].
  - rewrite E0 in *. cbn [Nat.sub] in El. rewrite Nat.Div0.mod_same in El. rewrite Eb, Ep. change (0 <? Z.of_nat 0) with false. cbv iota.
    destruct (Z.leb_spec (len (rdata_ r)) (Z.of_nat (length pre / 8))); [lia|]. rewrite sz_small; lia.
  - rewrite Nat.mod_small in El by lia. rewrite (proj2 (Z.leb_gt _ _)), (proj2 (Z.ltb_lt 0 _)) by lia. rewrite sz_small; lia.
Qed.

(** Encoder and decoder of a text belong together; a text that is not packed is a
    whole number of bytes after alignment. *)
Definition text_codec (enc : option (list WriteOp)) (dec : R (list Z)) (packed : option Z) (v : list Z) (pre post : list bool) : Prop :=
  exists ops, enc = Some ops /\ Forall fits ops /\ delivers dec ops v pre post
    /\ match packed with Some w => len (encoded ops pre) = w | None => exists l, writes_bytes ops l end.

Lemma bytes_codec ops l dec v pre post : Forall fits ops -> writes_bytes ops l -> byte_read dec l v ->
  text_codec (Some ops) dec None v pre post.
Proof. intros Hf Hw Hr. exists ops. split_and!; [done|done|by eapply byte_read_delivers|by exists l]. Qed.

Lemma packed_codec ctx (k : list Z -> R (list Z)) char_bits char_of n filler v w pre post :
  1 <= char_bits <= 8 -> Forall is_byte v -> is_byte filler -> len v <= n -> Forall (fun c => packable char_bits c = true) v ->
  (forall c, 0 <= c < 2 ^ char_bits -> char_of c = Some (unpack_char char_bits c)) ->
  (forall r, k (filled (Z.to_nat n) (unpack_char char_bits (pack_code char_bits filler)) v) r = Some (Ok v, r)) -> w = char_bits * n ->
  text_codec (pack_chars char_bits n filler v) (bind (read_packed ctx char_bits char_of (Z.to_nat n)) k) (Some w) v pre post.
Proof.
  intros Hb Hv Hfb Hn Hp Hc Hk ->. assert (length (filled (Z.to_nat n) filler v) = Z.to_nat n) as El.
  { unfold filled. rewrite length_app, length_replicate. unfold len in Hn. lia. }
  eexists. split_and!; [by apply pack_chars_ok|by apply packed_fits| |].
  - eapply delivers_then; [|exact Hk]. rewrite <- El at 1. apply read_packed_delivers; [done|]. unfold filled.
    apply Forall2_app; [|apply Forall2_replicate; rewrite Hc by (apply pack_code_range; lia); done].
    apply Forall_Forall2_diag. apply Forall_forall. intros c Hin. rewrite Forall_forall in Hv, Hp.
    rewrite Hc by (apply pack_code_range; lia). f_equal. apply pack_exact; auto.
  - rewrite packed_len by done. unfold len in *. by rewrite El, Z2Nat.id by lia.
Qed.

Lemma fixed_codec ctx (k : list Z -> R (list Z)) enc n pad v pre post : Forall is_byte v -> carries enc v -> len v <= n <= SIZE_MAX -> is_byte pad ->
  (forall r, k (padded (from_ascii v enc) (Z.to_nat n) pad) r = Some (Ok v, r)) ->
  text_codec (Some [WString (from_ascii v enc) (Z.to_nat (sz n)) pad]) (bind (in_context ctx (read_string (sz n))) k) None v pre post.
Proof.
  intros Hv Hc Hn Hp Hk. pose proof (len_nonneg v). rewrite sz_small by lia.
  apply (bytes_codec _ (padded (from_ascii v enc) (Z.to_nat n) pad)).
  - repeat constructor. by apply from_ascii_byte.
  - apply padded_writes.
  - eapply byte_read_then; [|exact Hk]. rewrite <- (Z2Nat.id n) at 1 by lia. apply read_string_padded. by apply from_ascii_byte.
Qed.

Lemma terminated_codec ctx (k : list Z -> R (list Z)) t max_len v pre post : Forall is_byte v -> terminated_ok t max_len v ->
  (forall r, k v r = Some (Ok v, r)) ->
  text_codec (Some (whole_string v :: terminator_ops t)) (bind (read_terminated ctx t max_len) k) None v pre post.
Proof.
  intros Hv Ht Hk. apply (bytes_codec _ (v ++ terminator_bytes t)).
  - constructor; [done|apply terminator_fits].
  - apply (writes_bytes_app [_]); [apply whole_string_writes|apply terminator_writes].
  - eapply byte_read_then; [by apply read_terminated_read|done].
Qed.

(** A prefix and the text. *)
Lemma prefix_codec q f prefix pti pd v pre post : Forall is_byte v -> carries (field_encoding_enum f) v ->
  resolve_effective_padding p idx f = Some pd -> trim_code (field_trim f) pd v = v ->
  resolve_prefix_type p idx prefix = Some pti -> 0 <= pti_bits pti -> prefix_value f pti v < 2 ^ (8 * Z.of_nat (prefix_width pti)) ->
  let wire := field_from_ascii f v in
  text_codec (Some [write_meaning (prefix_write_call pti) (sz (prefix_value f pti wire)); whole_string wire])
    (emit_decode_length_prefix p idx q f prefix) None v pre post.
Proof.
  intros Hv Hc Hpd Htr Hpti Hbits Hmax wire.
  assert (Forall is_byte wire) as Hw by (unfold wire; rewrite field_from_ascii_enum; by apply from_ascii_byte).
  assert (len wire = len v) as El by (unfold wire, len; by rewrite field_from_ascii_enum, length_from_ascii).
  assert (0 <= get_prefix_bytes pti) as Hg by (unfold get_prefix_bytes; rewrite Z.quot_div_nonneg by lia; div_lia).
  assert (prefix_value f pti wire = prefix_value f pti v) as -> by (unfold prefix_value; by rewrite El).
  assert (0 <= prefix_value f pti v) by (unfold prefix_value; pose proof (len_nonneg v); case_match; lia).
  assert (2 ^ (8 * Z.of_nat (prefix_width pti)) <= 2 ^ 64) by (apply Z.pow_le_mono_r; [lia|unfold prefix_width; repeat case_match; lia]).
  rewrite sz_small by (unfold SIZE_MAX; lia). destruct (prefix_writes pti (prefix_value f pti v)) as (Hf & Hpw & Hpr); [lia|].
  assert (forall r, store_text p idx f wire r = Some (Ok v, r)) as Hst.
  { intros r. apply (store_text_ok _ pd); [done|]. unfold wire. by rewrite field_to_ascii_enum, field_from_ascii_enum, recode_carried. }
  eapply bytes_codec; [repeat constructor; [done|cbn; done]|apply (writes_bytes_app [_]); [exact Hpw|apply whole_string_writes]|].
  unfold emit_decode_length_prefix. rewrite Hpti. apply byte_read_lift.
  eapply byte_read_bind; [apply Hpr|]. cbn beta. unfold prefix_value in *.
  assert (byte_read (in_context (Some ("decode " +:+ q)) (read_string (len v))) wire wire) as Hrd
    by (rewrite <- El; by apply byte_read_context, read_string_read).
  destruct (f_length_includes_prefix f); [|by eapply byte_read_then].
  pose proof (len_nonneg v). rewrite (sz_small (get_prefix_bytes pti)) by (unfold SIZE_MAX; lia). rewrite (proj2 (Z.ltb_ge _ _)) by lia. rewrite Z.add_simpl_r, sz_small by (unfold SIZE_MAX; lia).
  by eapply byte_read_then.
Qed.

Lemma star_codec ctx f pd v pre post : Forall is_byte v -> resolve_effective_padding p idx f = Some pd -> trim_code (field_trim f) pd v = v ->
  field_to_ascii f v = v -> post = [] ->
  text_codec (Some [whole_string v])
    (fun r => (let! s := in_context ctx (read_string (remaining_bytes r)) in store_text p idx f s) r) None v pre post.
Proof.
  intros Hv Hpd Htr Hta ->. exists [whole_string v]. pose proof (whole_string_writes v) as Hw. split_and!; [done|by repeat constructor| |by exists v].
  intros r Hc. assert (remaining_bytes r = len v) as E by (apply (remaining_bytes_cursor r pre); rewrite <- (Hw pre); by rewrite app_nil_r in Hc).
  rewrite E. revert r E Hc. enough (delivers (let! s := in_context ctx (read_string (len v)) in store_text p idx f s) [whole_string v] v pre []) as H
    by (intros r _; apply H).
  eapply byte_read_delivers; [|exact Hw]. eapply byte_read_then; [by apply byte_read_context, read_string_read|].
  intros r. apply (store_text_ok _ pd); [done|]. by rewrite Hta.
Qed.

Definition packed_width (f : Field) : option Z := match f_char_bits f, f_length f with Some b, Some n => Some (b * n) | _, _ => None end.

(** Every text that [string_ok] lists comes back. *)
Lemma string_codec q f nbytes v pre post : string_ok f nbytes v -> (open_ended f = true -> post = []) ->
  text_codec (emit_encode_string p idx f v) (emit_decode_string p idx q f nbytes) (packed_width f) v pre post.
Proof.
  intros (Hv & _ & pd & Hpd & Htr & H) Hopen. unfold open_ended in Hopen. cbv zeta in H.
  assert (field_to_ascii f v = v -> forall r, store_text p idx f v r = Some (Ok v, r)) as Hst
    by (intros E r; apply (store_text_ok _ pd); [done|by rewrite E]).
  assert (forall n pad, len v <= n -> carries (field_encoding_enum f) v -> is_byte pad ->
    (len v < n -> filler_trimmed (field_trim f) pd (ascii_of (field_encoding_enum f) pad)) ->
    forall r, store_text p idx f (padded (from_ascii v (field_encoding_enum f)) (Z.to_nat n) pad) r = Some (Ok v, r)) as Hfix.
  { intros n pad Hn Hc Hp Hfill r. apply (store_text_ok _ pd); [done|]. rewrite field_to_ascii_enum, padded_text by (try done; unfold len in Hn; lia).
    rewrite trim_filler; [done|]. intros Hk. apply Hfill. unfold len. lia. }
  unfold emit_encode_string, emit_decode_string, packed_width. set (ctx := Some ("decode " +:+ q)).
  destruct (f_char_bits f) as [b|], (f_length f) as [n|], (f_terminated f) as [term|], (f_length_prefix f) as [prefix|],
    (f_length_from f) as [from|]; try done; cbn [is_some orb negb andb] in *.
  all: lazymatch type of H with
    | context [packable] =>
        destruct H as (Hb & Hn & Hp & Hfill); apply (packed_codec ctx); try done;
        intros r; unfold filled; rewrite (emit_field_trim_code _ pd), trim_filler by (try done; unfold len in *; intros; apply Hfill; lia);
        cbn; by rewrite Htr
    | context [terminated_ok] =>
        destruct H as (Hta & t & -> & Ht); apply (terminated_codec ctx); by auto
    | context [resolve_padding_char] =>
        destruct H as (Hn & Hc & pad & Hpad & Hfill); pose proof (padding_char_byte _ _ Hpad); rewrite Hpad, field_from_ascii_enum;
        apply (fixed_codec ctx); by auto with lia
    | context [prefix_value] =>
        destruct H as (Hc & pti & Hpti & Hbits & Hmax); rewrite Hpti; by apply (prefix_codec q f prefix pti pd)
    | _ = len _ /\ _ =>
        destruct H as (-> & Hta); eapply bytes_codec; [by repeat constructor|apply whole_string_writes|];
        eapply byte_read_then; [by apply byte_read_context, read_string_read|by auto]
    | _ => destruct H as (Hstar & Hta); rewrite Hstar in *; apply (star_codec ctx f pd); by auto
    end.
Qed.

(** A field on its own: the length check of the encoder and the decoder passes. *)
Lemma string_field_codec q f nbytes v pre post : string_ok f nbytes v -> (open_ended f = true -> post = []) ->
  exists ops, encode_string_field p idx q f v = Some (Ok ops) /\
    text_codec (Some ops) (decode_string_field p idx q f nbytes) (packed_width f) v pre post.
Proof.
  intros Hok Hopen. destruct (string_codec q f nbytes v pre post Hok Hopen) as (ops & E & Hf & Hd & Hw).
  destruct Hok as (_ & Hmax & _). exists ops. unfold encode_string_field, decode_string_field, check_max_length. rewrite Hmax, E.
  split; [done|]. exists ops. split_and!; [done|done| |done]. eapply delivers_then; [exact Hd|]. intros r. by rewrite Hmax.
Qed.

(** An optional field is written as the field without its condition, unless it has a
    length prefix or a terminator. *)
Lemma optional_string_codec q f nbytes v pre post : string_ok f nbytes v -> (open_ended f = true -> post = []) ->
  f_length_prefix f = None -> f_terminated f = None -> optional_compiles f = true ->
  exists ops d, encode_optional_string p idx q f (Some v) = Some (Ok ops) /\ decode_optional_string p idx q f true nbytes = Some (fmap_R Some d)
    /\ text_codec (Some ops) d (packed_width f) v pre post.
Proof.
  intros Hok Hopen Hp Ht Hc. destruct (string_field_codec q f nbytes v pre post Hok Hopen) as (ops & E & H).
  exists ops, (decode_string_field p idx q f nbytes). unfold decode_optional_string. rewrite Hc. split_and!; [|done|done]. rewrite <- E.
  unfold encode_optional_string, encode_string_field, emit_encode_optional_string, emit_encode_string. rewrite Hp, Ht.
  by destruct (f_char_bits f), (f_length f).
Qed.

(** ** Bytes fields *)

Definition bytes_ok (f : Field) (nbytes : Z) (v : list Z) : Prop :=
  Forall is_byte v /\ exceeds_max f v = false
  /\ match f_length f, f_length_from f, f_length_star f, f_bytes_attr f with
     | Some n, _, _, _ | None, None, false, Some n => bytes_array_size f = Some n /\ len v = n /\ n <= SIZE_MAX
     | None, Some _, _, _ => nbytes = len v
     | None, None, true, _ => True
     | None, None, false, None => False
     end.

Definition bytes_open_ended (f : Field) : bool := f_length_star f && negb (is_some (f_length f) || is_some (f_length_from f)).

Lemma subspan_all (v : list Z) : subspan v 0 (len v) = Some v.
Proof.
  unfold subspan. pose proof (len_nonneg v). rewrite !(proj2 (Z.leb_le _ _)) by lia. cbn. unfold len. by rewrite Nat2Z.id, firstn_all.
Qed.

Lemma copy_all (v : list Z) n : Z.of_nat n = len v -> copy_into (replicate n 0) v = Some v.
Proof.
  intros H. unfold copy_into. assert (len (replicate n 0) = len v) as -> by (unfold len at 1; by rewrite length_replicate).
  rewrite Z.leb_refl, drop_ge by (rewrite length_replicate; unfold len in H; lia). by rewrite app_nil_r.
Qed.

Lemma write_bytes_codec dec v pre post : Forall is_byte v -> byte_read dec v v -> text_codec (Some [WBytes v]) dec None v pre post.
Proof. intros Hv Hr. apply (bytes_codec _ v); [by repeat constructor|by apply writes_bytes_one|done]. Qed.

Lemma bytes_field_codec q f nbytes v pre post : bytes_ok f nbytes v -> (bytes_open_ended f = true -> post = []) ->
  exists ops, encode_bytes_field q f v = Some (Ok ops) /\ text_codec (Some ops) (decode_bytes_field q f nbytes) None v pre post.
Proof.
  intros (Hv & Hmax & H) Hopen. unfold encode_bytes_field, decode_bytes_field, emit_decode_bytes, bytes_open_ended, check_max_length in *.
  rewrite Hmax. set (ctx := Some ("decode " +:+ q)). pose proof (len_nonneg v).
  assert (forall n, bytes_array_size f = Some n /\ len v = n /\ n <= SIZE_MAX ->
    byte_read (let! s := let! s := in_context ctx (read_bytes (sz n)) in lift (copy_into (new_bytes f) s) in
               if exceeds_max f s then throw MaxLengthExceeded (too_long "decode" q s f) else ret s) v v) as Hfix.
  { intros n (Ha & <- & Hn). rewrite sz_small by lia. eapply byte_read_then; [|intros r; by rewrite Hmax].
    eapply byte_read_then; [by apply byte_read_context, read_bytes_read|]. intros r. unfold new_bytes. rewrite Ha. cbn [from_option id].
    rewrite copy_all by lia. done. }
  destruct (f_length f) as [n|]; [|destruct (f_length_from f); [|destruct (f_length_star f); [|destruct (f_bytes_attr f) as [n|]; [|done]]]].
  - destruct H as (Ha & Hn & Hm). rewrite sz_small by lia. rewrite <- Hn, subspan_all. eexists. split; [done|]. apply write_bytes_codec; [done|].
    specialize (Hfix n (conj Ha (conj Hn Hm))). rewrite sz_small, <- Hn in Hfix by lia. exact Hfix.
  - subst nbytes. eexists. split; [done|]. apply write_bytes_codec; [done|]. eapply byte_read_then; [by apply byte_read_context, read_bytes_read|].
    intros r. by rewrite Hmax.
  - rewrite (Hopen eq_refl). eexists. split; [done|]. exists [WBytes v].
    assert (writes_bytes [WBytes v] v) as Hw by by apply writes_bytes_one.
    split_and!; [done|by repeat constructor| |by exists v]. eapply delivers_then; [|intros r; by rewrite Hmax].
    intros r Hc. assert (remaining_bytes r = len v) as E by (apply (remaining_bytes_cursor r pre); rewrite <- (Hw pre); by rewrite app_nil_r in Hc).
    rewrite E. revert Hc. apply (byte_read_delivers _ _ v); [by apply byte_read_context, read_bytes_read|done].
  - eexists. split; [done|]. apply write_bytes_codec; [done|]. by apply Hfix.
Qed.
End fields.

(** ** String types *)

Definition string_type_ok (t : TypeDef) (v : list Z) : Prop :=
  Forall is_byte v /\ trim_code (td_trim t) (td_padding t) v = v
  /\ let enc := encoding_enum (td_encoding t) in
    match td_char_bits t, td_length t, td_terminated t with
    | Some char_bits, Some n, _ =>
        1 <= char_bits <= 8 /\ len v <= n <= SIZE_MAX /\ Forall (fun c => packable char_bits c = true) v
        /\ (len v < n -> filler_trimmed (td_trim t) (td_padding t) (unpack_char char_bits (pack_code char_bits (type_filler t))))
    | _, Some n, _ =>
        len v <= n <= SIZE_MAX /\ carries enc v
        /\ (len v < n -> filler_trimmed (td_trim t) (td_padding t) (ascii_of enc (type_padding_char t)))
    | _, None, Some term => exists tm, terminator term = Some tm /\ terminated_ok tm (default default_max_len (td_max_length t)) v
    | _, None, None => False
    end.

Definition type_packed_width (t : TypeDef) : option Z :=
  match td_char_bits t, td_length t with Some b, Some n => Some (b * n) | _, _ => None end.

(** A string type is filled up with the character it trims, whatever its padding
    and encoding, unless its characters are packed. *)
Lemma type_filler_trimmed t : ascii_of (encoding_enum (td_encoding t)) (type_padding_char t) = trim_char (td_padding t).
Proof. unfold type_padding_char. by destruct (td_encoding t), (td_padding t). Qed.

Lemma unpack_type_char_ok char_bits c : 1 <= char_bits <= 8 -> 0 <= c < 2 ^ char_bits ->
  unpack_type_char char_bits c = Some (unpack_char char_bits c).
Proof.
  intros Hb Hc. unfold unpack_type_char. rewrite (proj2 (Z.leb_le 0 _)), (proj2 (Z.ltb_lt _ 31)) by lia. cbn [andb].
  by rewrite Z.shiftl_1_l, Z.sub_1_r, <- Z.ones_equiv, Z.land_ones, Z.mod_small by lia.
Qed.

Lemma string_type_codec t v pre post : string_type_ok t v ->
  text_codec (encode_string_type t v) (decode_string_type t) (type_packed_width t) v pre post.
Proof.
  intros (Hv & Htr & H). unfold encode_string_type, decode_string_type, type_packed_width. cbv zeta in *.
  destruct (td_char_bits t) as [b|], (td_length t) as [n|], (td_terminated t) as [term|]; try done.
  all: lazymatch type of H with
    | context [packable] =>
        destruct H as (Hb & Hn & Hp & Hfill); pose proof (len_nonneg v); rewrite sz_small by lia; apply (packed_codec None); try done;
        [by unfold type_filler, is_byte; destruct (td_padding t)|lia|intros; by apply unpack_type_char_ok|];
        intros r; unfold filled; rewrite trim_filler by (unfold len in *; intros; apply Hfill; lia); by rewrite Htr
    | context [terminated_ok] => destruct H as (tm & -> & Ht); apply (terminated_codec None); [done|done|]; intros r; by rewrite Htr
    | _ =>
        destruct H as (Hn & Hc & Hfill); rewrite type_from_ascii_enum; apply (fixed_codec None); try done;
        [by unfold type_padding_char, is_byte; destruct (td_padding t), (td_encoding t)|];
        intros r; rewrite type_to_ascii_enum, padded_text, trim_filler;
        [by rewrite Htr|unfold len in *; intros; apply Hfill; lia|done|done|unfold len in Hn; lia|
         by unfold type_padding_char, is_byte; destruct (td_padding t), (td_encoding t)]
    end.
Qed.
