(* ===== verification/TextRoundtrip.v ===== *)
(** * Structs with text, end to end

    The members of a struct in order, numbers and text together: the generated
    encoder on a fresh writer, and the generated decoder on its bytes. *)

From stdpp Require Import base numbers list gmap strings pretty.
From Stdlib Require Import ZArith Lia.
From S2P Require Import Prelude Bits CoreError Endian BitWriter BitReader BitIO StringEncoding CharConv AutoExpr ExprParser Ast TypeResolver ProtocolIndex Validation FieldCodec StructCodec TextCodec TextCodecSpec.

Open Scope Z_scope.
Local Open Scope reader_scope.

(** ** Structs with text *)

Section members.
Context (p : Protocol) (idx : TypeIndex).

Record Member := mkMember { m_kind : MemberKind; m_value : MemberValue; m_nbytes : Z }.

(** Packed characters need not end at a byte boundary, but the emitter takes the
    position behind them to be one if it was one before. *)
Definition packed_fit (m : Z) (width : option Z) : Prop :=
  match width with Some w => m <> 0 \/ w mod 8 = 0 | None => True end.

Definition member_ok (m : Z) (x : Member) : Prop :=
  match m_kind x, m_value x with
  | KItem it, Number v => item_ok m it v
  | KString _ f, Text s => string_ok p idx f (m_nbytes x) s /\ packed_fit m (packed_width f)
  | KOptString _ f, OptText (Some s) =>
      string_ok p idx f (m_nbytes x) s /\ packed_fit m (packed_width f)
      /\ f_length_prefix f = None /\ f_terminated f = None /\ optional_compiles f = true
  | KOptString _ f, OptText None => optional_compiles f = true
  | KBytes _ f, Text s => bytes_ok f (m_nbytes x) s
  | KStringType _ t, Text s => string_type_ok t s /\ packed_fit m (type_packed_width t)
  | _, _ => False
  end.

(** The tracker behind a member. *)
Definition behind (m : Z) (x : Member) : Z :=
  match m_kind x, m_value x with KItem it, Number v => (encode_item m it v).2 | _, _ => advance_bits_variable m end.

Definition takes_rest (x : Member) : bool :=
  match m_kind x, m_value x with
  | KOptString _ _, OptText None => false
  | KString _ f, _ | KOptString _ f, _ => open_ended f
  | KBytes _ f, _ => bytes_open_ended f
  | _, _ => false
  end.

Fixpoint members_ok (m : Z) (l : list Member) : Prop :=
  match l with
  | [] => True
  | x :: l => member_ok m x /\ (takes_rest x = true -> l = []) /\ members_ok (behind m x) l
  end.

Definition member_values (x : Member) : list Value :=
  match m_kind x, m_value x with
  | KItem it, Number v => item_values it v
  | _, Text s | _, OptText (Some s) => [VBytes s]
  | _, _ => []
  end.

Definition expected (x : Member) : Expected :=
  mkExpected (m_kind x) (match m_value x with Number v => is_some v | Text _ => true | OptText s => is_some s end) (m_nbytes x).

Lemma tracks_text m pre ops packed :
  match packed with Some w => len (encoded ops pre) = w | None => exists l, writes_bytes ops l end ->
  packed_fit m packed -> tracks m pre -> tracks (advance_bits_variable m) (pre ++ encoded ops pre).
Proof.
  intros Hw Hp Ht. destruct (decide (m = 0)) as [->|Hm].
  - apply tracks_variable; [done|]. destruct packed as [w|]; [rewrite Hw; by destruct Hp|]. destruct Hw as [l ->].
    pose proof (tracks_aligned _ _ Ht eq_refl) as Ha. unfold pad8. rewrite Ha. cbn [Nat.sub Nat.modulo Nat.divmod fst snd replicate app].
    rewrite len_bytes_bits, Z.mul_comm. apply Z.mod_mul. lia.
  - left. unfold advance_bits_variable. by rewrite (proj2 (Z.eqb_neq _ _)).
Qed.

Lemma bytes_aligned ops l (pre : list bool) : writes_bytes ops l -> (length (pre ++ encoded ops pre) mod 8 = 0)%nat.
Proof. intros ->. rewrite app_assoc. apply align8_bytes_mod. Qed.

(** One member: its encoder succeeds, its decoder delivers it, and the tracker
    stays right. *)
Definition member_codec (m : Z) (x : Member) (pre post : list bool) : Prop :=
  exists ops d, encode_member p idx m (m_kind x) (m_value x) = Some (Ok ops, behind m x)
    /\ decode_member p idx m (expected x) = Some (d, behind m x)
    /\ Forall fits ops /\ delivers d ops (member_values x) pre post
    /\ tracks (behind m x) (pre ++ encoded ops pre)
    /\ (takes_rest x = true -> length (pre ++ encoded ops pre) mod 8 = 0)%nat.

Lemma text_member m x ops dec d packed s pre post :
  text_codec (Some ops) dec packed s pre post -> packed_fit m packed -> tracks m pre -> (takes_rest x = true -> packed = None) ->
  behind m x = advance_bits_variable m -> member_values x = [VBytes s] -> (delivers dec ops s pre post -> delivers d ops [VBytes s] pre post) ->
  encode_member p idx m (m_kind x) (m_value x) = Some (Ok ops, advance_bits_variable m) ->
  decode_member p idx m (expected x) = Some (d, advance_bits_variable m) ->
  member_codec m x pre post.
Proof.
  intros (ops' & [= <-] & Hf & Hd & Hw) Hp Ht Hr Eb Ev Hdel He Hdec.
  unfold member_codec. rewrite Eb, Ev. exists ops, d. split_and!; [done|done|done|by apply Hdel| |].
  - by eapply tracks_text.
  - intros E. rewrite (Hr E) in Hw. destruct Hw as [l Hl]. by eapply bytes_aligned.
Qed.

Lemma packed_not_open f : open_ended f = true -> packed_width f = None.
Proof. unfold open_ended, packed_width. by destruct (f_length f), (f_char_bits f), (f_length_star f). Qed.

Lemma optional_member m q f v n pre post : member_ok m (mkMember (KOptString q f) (OptText v) n) -> tracks m pre ->
  (takes_rest (mkMember (KOptString q f) (OptText v) n) = true -> post = []) -> member_codec m (mkMember (KOptString q f) (OptText v) n) pre post.
Proof.
  intros Hok Ht Hrest. destruct v as [s|]; cbn in Hok.
  - destruct Hok as (Hs & Hp & Hpre & Hterm & Hc).
    destruct (optional_string_codec p idx q f n s pre post Hs Hrest Hpre Hterm Hc) as (ops & d & E & D & H).
    eapply text_member; try done; [apply packed_not_open| |cbn [encode_member m_kind m_value]; by rewrite E|
      unfold decode_member, expected; cbn [m_kind m_value m_nbytes x_kind x_present x_nbytes is_some]; by rewrite D].
    intros Hd. eapply delivers_then; [eapply delivers_then; [exact Hd|done]|done].
  - exists [], (fmap_R (fun s => match s with Some s => [VBytes s] | None => [] end) (ret (@None (list Z)))). unfold decode_member, decode_optional_string. cbn.
    rewrite Hok. cbn. split_and!; try done; [apply delivers_ret|]. by apply tracks_variable.
Qed.

Lemma member_codec_ok m x pre post : member_ok m x -> tracks m pre -> (takes_rest x = true -> post = []) -> member_codec m x pre post.
Proof.
  intros Hok Ht Hrest. destruct x as [k v n].
  assert (forall dec ops s, delivers dec ops s pre post -> delivers (fmap_R (fun s => [VBytes s]) dec) ops [VBytes s] pre post) as Hmap
    by (intros; by eapply delivers_then).
  destruct k as [it|q f|q f|q f|q t], v as [v|s|v]; try done; [..|by apply optional_member| |]; unfold member_ok in Hok; cbn [m_kind m_value m_nbytes] in Hok.
  - destruct (item_codec m it v pre Hok Ht) as (steps & E & [Hf Hs] & T & _).
    exists (encode_item m it v).1, (run_steps steps). unfold behind, decode_member, expected, member_values. cbn.
    rewrite E. destruct (encode_item m it v). split_and!; try done. intros r Hc. by apply Hs.
  - destruct Hok as [Hs Hp]. destruct (string_field_codec p idx q f n s pre post Hs Hrest) as (ops & E & Hc).
    eapply text_member; try done; [apply packed_not_open|apply Hmap|cbn; by rewrite E].
  - destruct (bytes_field_codec q f n s pre post Hok Hrest) as (ops & E & Hc).
    eapply text_member; try done; [apply Hmap|cbn; by rewrite E].
  - destruct Hok as [Hs Hp]. destruct (string_type_codec t s pre post Hs) as (ops & E & Hf & Hd & Hw).
    eapply (text_member _ _ ops _ _ (type_packed_width t)); try done; [|apply Hmap|cbn; by rewrite E].
    exists ops. split_and!; try done. by apply delivers_context.
Qed.

Definition contents (l : list Member) : list (MemberKind * MemberValue) := map (fun x => (m_kind x, m_value x)) l.

Lemma members_codec l : forall m pre post, members_ok m l -> tracks m pre ->
  (match last l with Some x => takes_rest x = true | None => False end -> post = []) ->
  exists ops d, encode_members p idx m (contents l) = Some (Ok ops) /\ decode_members p idx m (map expected l) = Some d
    /\ Forall fits ops /\ delivers d ops (flat_map member_values l) pre post
    /\ (match last l with Some x => takes_rest x = true | None => False end -> length (pre ++ encoded ops pre) mod 8 = 0)%nat.
Proof.
  induction l as [|x l IH]; intros m pre post Hok Ht Hpost.
  { exists [], (ret []). split_and!; try done. apply delivers_ret. }
  destruct Hok as (Hx & Hrest & Hl). destruct l as [|y l].
  - destruct (member_codec_ok m x pre post Hx Ht) as (ops & d & E & D & F & Hd & _ & Ha); [by apply Hpost|].
    exists ops, (let! vs := d in let! ws := ret [] in ret (vs ++ ws)). cbn [contents map encode_members decode_members flat_map].
    rewrite E, D. cbn. rewrite !app_nil_r. split_and!; try done. eapply delivers_then; [exact Hd|]. intros r. cbn. by rewrite app_nil_r.
  - assert (takes_rest x = false) as Hno by (destruct (takes_rest x); [by specialize (Hrest eq_refl)|done]).
    (* the tracker and the rest do not depend on what follows *)
    destruct (member_codec_ok m x pre [] Hx Ht ltac:(done)) as (ops1 & d1 & E1 & D1 & F1 & _ & T1 & _).
    destruct (IH (behind m x) (pre ++ encoded ops1 pre) post Hl T1 Hpost) as (ops2 & d2 & E2 & D2 & F2 & Hd2 & Ha2).
    destruct (member_codec_ok m x pre (encoded ops2 (pre ++ encoded ops1 pre) ++ post) Hx Ht) as (ops1' & d1' & E1' & D1' & _ & Hd1 & _);
      [by rewrite Hno|].
    rewrite E1 in E1'. rewrite D1 in D1'. injection E1' as <-. injection D1' as <-.
    exists (ops1 ++ ops2), (let! vs := d1 in let! ws := d2 in ret (vs ++ ws)). unfold contents in *.
    cbn [map encode_members decode_members] in *. rewrite E1, D1. cbn [mbind option_bind]. rewrite E2, D2. cbn [mbind option_bind].
    split_and!; [done|done|by apply Forall_app| |].
    + eapply delivers_bind; [exact Hd1|]. cbn beta. eapply delivers_then; [exact Hd2|]. done.
    + rewrite encoded_app, app_assoc. exact Ha2.
Qed.
End members.

(** C6: The encoder and the decoder generated for a struct belong together when it
    holds text.  Take any sequence of numeric members, reserved bits, alignment,
    string fields of fixed length, with packed characters, with a length in front,
    with a length from another field, with a terminator or open-ended, bytes fields
    and members of a declared string type, each with a value its layout can carry:
    the encoder reports no error, the writer accepts every operation, and the decoder
    reads every value back from the bytes, to the last character. *)
Theorem text_struct_roundtrip (p : Protocol) (idx : TypeIndex) (l : list Member) :
  members_ok p idx 0 l ->
  exists ops, encode_members p idx 0 (contents l) = Some (Ok ops)
    /\ (total_bits ops <= SIZE_MAX - 32 ->
        exists w d dec r, run_writes ops new_writer = Some w /\ finish w = (Ok d, new_writer)
          /\ decode_members p idx 0 (map expected l) = Some dec
          /\ dec (new_reader d) = Some (Ok (flat_map member_values l), r)).
Proof.
  intros Hok. destruct (members_codec p idx l 0 [] [] Hok) as (ops & _ & E & _ & Hf & _ & Ha); [by right|done|].
  exists ops. split; [done|]. intros Hsize. cbn [app] in Ha. set (bits := encoded ops []) in *.
  destruct (run_writes_repr ops new_writer [] repr_new Hf) as (w & Ew & Rw & Lw); [unfold room; cbn; lia|].
  cbn [app] in Rw, Lw. fold bits in Rw, Lw. pose proof (repr_pos _ _ Rw) as Ep. cbn [bit_pos_ new_writer] in Lw.
  destruct (finish_repr w bits Rw) as (d & Ed & Hb & Hbits); [unfold room; lia|].
  pose proof (f_equal len Hbits) as El. rewrite len_bytes_bits, align8_len in El. pose proof (pad8_lt (length bits)).
  destruct (members_codec p idx l 0 [] (zeros (pad8 (length bits))) Hok) as (ops' & dec & E' & D & _ & Hd & _); [by right| |].
  { intros Hr. unfold pad8. by rewrite (Ha Hr). }
  rewrite E in E'. injection E' as <-. destruct (Hd (new_reader d)) as (r & Er & _).
  { fold bits. fold (align8 bits). rewrite <- Hbits. apply cursor_new; [done|lia]. }
  exists w, d, dec, r. done.
Qed.

(** *** A struct with every kind of text *)

(** The expression of a length-from; its value is given with the member. *)
Definition length_expr : Expr := mkExpr FieldRef 0 false (txt "n") None None unknown_loc.

(** The attributes of a text field. *)
Record TextAttrs := mkAttrs {
  a_length : option Z; a_star : bool; a_from : bool; a_prefix : option string; a_includes : bool;
  a_encoding : StringEncoding; a_padding : StringPadding; a_trim : StringTrim;
  a_terminated : option string; a_max_length : option Z; a_char_bits : option Z
}.

Definition text_field (type_ref : string) (a : TextAttrs) : Field :=
  mkField "text" type_ref false None None false None None None None [] [] None None None (a_length a) (a_star a)
    (if a_from a then Some length_expr else None) (a_prefix a) (a_includes a)
    (Some (a_encoding a)) (Some (a_padding a)) (Some (a_trim a)) (a_terminated a) (a_max_length a) (a_char_bits a)
    EndianBig false FmtDecimal false None false None None None [] "" unknown_loc.

Definition fixed (n : Z) (enc : StringEncoding) (pad : StringPadding) (trim : StringTrim) : TextAttrs :=
  mkAttrs (Some n) false false None false enc pad trim None None None.

Definition other (star from : bool) (prefix terminated : option string) (max_length : option Z) : TextAttrs :=
  mkAttrs None star from prefix true EncAscii PadNull TrimRight terminated max_length None.

Definition ident_type : TypeDef :=
  mkTypeDef "ident" BaseString 0 EndianBig false FmtDecimal false WireDefault false None None None [] [] None
    (Some 8) EncIa5 true PadSpace true TrimRight false None None (Some 6) [] "" unknown_loc.

Definition byte_type : TypeDef :=
  mkTypeDef "byte" BaseUint 8 EndianBig false FmtDecimal false WireDefault false None None None [] [] None
    None EncAscii false PadNull false TrimRight false None None None [] "" unknown_loc.

(** The word is little-endian. *)
Definition text_protocol : Protocol :=
  mkProtocol "Demo" "1" "2" new_defaults [] [] [word_type; ident_type; byte_type] [] [] [] [] "" unknown_loc.
Definition text_index : TypeIndex := mkIndex {["word" := 0%nat; "ident" := 1%nat; "byte" := 2%nat]} ∅ ∅ ∅ ∅.

Definition chars (s : string) : list Z := map (fun c => Z.of_nat (Ascii.nat_of_ascii c)) (String.list_ascii_of_string s).

Definition string_member (a : TextAttrs) (v : list Z) : Member := mkMember (KString "M.text" (text_field "string" a)) (Text v) (len v).

(** A number, then text: EBCDIC of fixed length, a packed identifier, with a length
    in front, newline-terminated, CRLF-terminated, bytes, a length from elsewhere,
    optional text that is there and that is not, a number, and what is left. *)
Definition sample_text : list Member :=
  [mkMember (KItem (IField (number 3 false WireDefault) EndianBig false)) (Number (Some 5)) 0;
   string_member (fixed 8 EncEbcdic PadSpace TrimRight) (chars "call 7");
   mkMember (KStringType "M.ident" ident_type) (Text (chars "AFR123")) 0;
   string_member (other false false (Some "word") None None) (chars "prefixed");
   string_member (other false false None (Some "newline") (Some 9)) (chars "one line");
   string_member (other false false None (Some "crlf") None) ([65; 0x0D; 66]);
   mkMember (KBytes "M.raw" (text_field "bytes" (fixed 3 EncAscii PadNull TrimNone))) (Text [0xFF; 0; 0x80]) 0;
   string_member (other false true None None None) (chars "four");
   mkMember (KOptString "M.opt" (text_field "string" (fixed 2 EncIa5 PadNull TrimNone))) (OptText (Some (chars "ok"))) 0;
   mkMember (KOptString "M.opt" (text_field "string" (fixed 2 EncIa5 PadNull TrimNone))) (OptText None) 0;
   mkMember (KItem (IField (number 16 true WireDefault) EndianBig false)) (Number (Some (-2))) 0;
   string_member (other true false None None None) (chars "the rest")].

(** Decides what [member_ok] asks of a concrete member. *)
Ltac text_leaf :=
  match goal with
  | |- _ /\ _ => split
  | |- ex _ => eexists
  | |- Forall _ _ => repeat constructor
  | |- terminated_ok _ _ _ => unfold terminated_ok; lazy iota
  | |- _ <> _ => vm_compute; discriminate
  | |- packed_fit _ _ => vm_compute; first [exact I|left; discriminate|right; reflexivity]
  | |- is_byte _ => split; vm_compute; (discriminate || reflexivity)
  | |- _ -> _ => let H := fresh in intros H; try (vm_compute in H; discriminate H)
  | |- _ <= _ => vm_compute; discriminate
  | |- _ < _ => vm_compute; reflexivity
  | |- _ = _ => vm_compute; reflexivity
  end.

Ltac text_member :=
  unfold member_ok, string_ok, bytes_ok, string_type_ok;
  lazy beta iota zeta delta [m_kind m_value m_nbytes text_field fixed other ident_type f_char_bits f_length f_terminated f_length_prefix f_length_from
    f_length_star f_bytes_attr td_char_bits td_length td_terminated
    a_length a_star a_from a_prefix a_includes a_encoding a_padding a_trim a_terminated a_max_length a_char_bits];
  unfold carries, filler_trimmed;
  repeat text_leaf.

Lemma sample_text_ok : members_ok text_protocol text_index 0 sample_text.
Proof.
  unfold sample_text, string_member. cbn [members_ok]. split_and!; try done.
  all: text_member.
Qed.

Lemma text_struct_roundtrip_witness :
  exists ops w d dec r, encode_members text_protocol text_index 0 (contents sample_text) = Some (Ok ops)
    /\ run_writes ops new_writer = Some w /\ finish w = (Ok d, new_writer)
    /\ decode_members text_protocol text_index 0 (map expected sample_text) = Some dec
    /\ dec (new_reader d) = Some (Ok (flat_map member_values sample_text), r).
Proof.
  destruct (text_struct_roundtrip text_protocol text_index sample_text sample_text_ok) as (ops & E & H).
  destruct H as (w & d & dec & r & H1 & H2 & H3 & H4); [|exists ops, w, d, dec, r; auto].
  vm_compute in E. injection E as <-. vm_compute. discriminate.
Defined.

(** ** What does not come back *)

(** The bytes of a struct, what its decoder makes of them, and how many bytes it
    leaves unread. *)
Definition through_text (l : list Member) : option (list Z * Result (list Value) * Z) :=
  match encode_members text_protocol text_index 0 (contents l) with
  | Some (Ok ops) =>
      w ← run_writes ops new_writer;
      match finish w with
      | (Ok d, _) =>
          dec ← decode_members text_protocol text_index 0 (map expected l);
          '(res, r) ← dec (new_reader d); Some (d, res, remaining_bytes r)
      | _ => None
      end
  | _ => None
  end.

Definition sent_text (a : TextAttrs) (v : list Z) : option (list Z * Result (list Value) * Z) := through_text [string_member a v].

Definition terminated (term : string) (length max_length : option Z) (enc : StringEncoding) : TextAttrs :=
  mkAttrs length false false None false enc PadNull TrimRight (Some term) max_length None.
Definition packed (n : Z) (pad : StringPadding) : TextAttrs :=
  mkAttrs (Some n) false false None false EncAscii pad TrimRight None None (Some 6).

(** With a length and a terminator the encoder writes the text and the terminator,
    the decoder reads as many bytes as the length says. *)
Example length_and_terminator_disagree :
  match sent_text (terminated "null" (Some 4) None EncAscii) (chars "AB") with
  | Some (d, Fail e, _) => d = [65; 66; 0] /\ CoreError.code e = BufferUnderrun
  | _ => False
  end.
Proof. vm_compute. split; reflexivity. Qed.

(** A terminated text as long as the maximum: the terminator stays unread. *)
Example maximal_text_keeps_terminator :
  sent_text (terminated "null" None (Some 3) EncAscii) (chars "ABC") = Some ([65; 66; 67; 0], Ok [VBytes (chars "ABC")], 1).
Proof. vm_compute. reflexivity. Qed.

(** Without a terminator within the maximum the decoder reports no error. *)
Example missing_terminator_accepted :
  match decode_string_field text_protocol text_index "M.text" (text_field "string" (terminated "null" None (Some 3) EncAscii)) 0
          (new_reader [65; 66; 67; 68]) with
  | Some (res, r) => res = Ok (chars "ABC") /\ remaining_bytes r = 1
  | None => False
  end.
Proof. vm_compute. split; reflexivity. Qed.

(** Terminated text is written as it is and converted when it is read. *)
Example terminated_ebcdic_not_converted :
  sent_text (terminated "null" None None EncEbcdic) (chars "A") = Some ([65; 0], Ok [VBytes [0xA0]], 0).
Proof. vm_compute. reflexivity. Qed.

(** A carriage return at the end swallows the terminator. *)
Example final_cr_swallows_terminator :
  match sent_text (terminated "crlf" None None EncAscii) [65; 0x0D] with
  | Some (d, Fail e, _) => d = [65; 0x0D; 0x0D; 0x0A] /\ CoreError.code e = BufferUnderrun
  | _ => False
  end.
Proof. vm_compute. split; reflexivity. Qed.

(** In six bits the sign @ has the code of the null character. *)
Example packed_at_sign_lost : sent_text (packed 4 PadSpace) (chars "A@BC") = Some ([4; 0; 131], Ok [VBytes [65; 0; 66; 67]], 0).
Proof. vm_compute. reflexivity. Qed.

(** Packed fields are filled up with blanks whatever their padding: with null
    padding the blanks are not trimmed. *)
Example packed_null_padding_ignored :
  sent_text (packed 4 PadNull) (chars "AB") = Some ([4; 40; 32], Ok [VBytes (chars "AB  ")], 0).
Proof. vm_compute. reflexivity. Qed.

(** What exceeds a fixed length is cut off without an error. *)
Example long_text_cut : sent_text (fixed 4 EncAscii PadNull TrimRight) (chars "ABCDE") = Some (chars "ABCD", Ok [VBytes (chars "ABCD")], 0).
Proof. vm_compute. reflexivity. Qed.

(** A length that does not fit its prefix is cut to its width: of 260 characters
    behind a one-byte prefix the decoder finds four. *)
Example prefix_overflows :
  match sent_text (mkAttrs None false false (Some "byte") false EncAscii PadNull TrimRight None None None) (replicate 260 65) with
  | Some (_, Ok vs, unread) => vs = [VBytes (chars "AAAA")] /\ unread = 256
  | _ => False
  end.
Proof. vm_compute. split; reflexivity. Qed.

(** A bytes field with a length prefix, which the validator does not refuse, is
    written without the prefix and not read at all. *)
Example prefixed_bytes_lost :
  through_text [mkMember (KBytes "M.raw" (text_field "bytes" (other false false (Some "word") None None))) (Text [1; 2]) 0]
  = Some ([1; 2], Ok [VBytes []], 2).
Proof. vm_compute. reflexivity. Qed.

(** An optional string is written without its length prefix and without its
    terminator, and read with them. *)
Example optional_prefix_missing :
  match through_text [mkMember (KOptString "M.opt" (text_field "string"
          (mkAttrs None false false (Some "byte") false EncAscii PadNull TrimNone None None None))) (OptText (Some (chars "AB"))) 0] with
  | Some (d, Fail e, _) => d = chars "AB" /\ CoreError.code e = BufferUnderrun
  | _ => False
  end.
Proof. vm_compute. split; reflexivity. Qed.

Example optional_terminator_missing :
  match through_text [mkMember (KOptString "M.opt" (text_field "string"
          (mkAttrs None false false None false EncAscii PadNull TrimNone (Some "null") None None))) (OptText (Some (chars "AB"))) 0] with
  | Some (d, Fail e, _) => d = chars "AB" /\ CoreError.code e = BufferUnderrun
  | _ => False
  end.
Proof. vm_compute. split; reflexivity. Qed.

(** Behind packed characters that end inside a byte the next byte is moved to the
    boundary: three characters of six bits, a byte and six bits take 38 bits. *)
Example gap_behind_packed_text :
  match encode_members text_protocol text_index 0
          [(KString "M.text" (text_field "string" (packed 3 PadSpace)), Text (chars "ABC"));
           (KItem (IField (number 8 false WireDefault) EndianBig false), Number (Some 7));
           (KItem (IField (number 6 false WireDefault) EndianBig false), Number (Some 1))] with
  | Some (Ok ops) => bit_pos_ <$> run_writes ops new_writer = Some 38
  | _ => False
  end.
Proof. vm_compute. reflexivity. Qed.

(** A length-from expression with a negative value: the count wraps around behind
    the check of the reader. *)
Example negative_length_undefined :
  decode_string_field text_protocol text_index "M.text" (text_field "string" (other false true None None None)) (sz (-2))
    (mkReader [1; 2; 3] 2 0) = None.
Proof. vm_compute. reflexivity. Qed.
