(* ===== verification/TextSafety.v ===== *)
(** * Decoding text from arbitrary bytes

    The decoders of [TextCodec] on input that no encoder wrote: they are defined,
    stay inside the buffer and deliver at most what the description allows. *)

From stdpp Require Import base numbers list gmap strings pretty.
From Stdlib Require Import ZArith Lia.
From S2P Require Import Prelude Bits CoreError Endian BitWriter BitReader BitIO StringEncoding CharConv AutoExpr ExprParser Ast TypeResolver ProtocolIndex Validation FieldCodec TextCodec TextCodecSpec TextRoundtrip.

Open Scope Z_scope.
Local Open Scope reader_scope.

(** ** The reads a text decoder makes *)

Lemma safe_context {A} ctx (m : R A) Q : safe m Q -> safe (in_context ctx m) Q.
Proof.
  intros H r Hw. destruct (H r Hw) as (res & r' & E & F & HQ). unfold in_context. rewrite E.
  destruct ctx, res; do 2 eexists; (split_and!; [reflexivity|done|done]).
Qed.

Lemma safe_unmap {A B} (f : A -> B) (m : R A) : safe (fmap_R f m) (fun _ => True) -> safe m (fun _ => True).
Proof.
  intros H r Hw. destruct (H r Hw) as (res & r' & E & F & _). unfold fmap_R, bind, ret in E.
  destruct (m r) as [[[a|e] r1]|]; simplify_eq; do 2 eexists; done.
Qed.

Lemma read_u8_safe : safe read_u8 is_byte.
Proof.
  intros r Hw. destruct (safe_unmap VInt read_u8 (scalar_reads_safe RU8 eq_refl) r Hw) as (res & r' & E & F & _).
  exists res, r'. split_and!; [done|done|]. destruct res as [v|]; [|done]. unfold read_u8 in E. rewrite align_data in E.
  destruct (_ <=? _); [discriminate|]. destruct (at_ _ _) as [b|] eqn:Ea; [|discriminate]. injection E as <- _.
  unfold at_ in Ea. case_match; [|done]. apply (Forall_lookup_1 _ _ _ _ (rwf_bytes _ Hw) Ea).
Qed.

Lemma read_string_safe n : 0 <= n <= 2 ^ 63 -> safe (read_string n) (fun _ => True).
Proof.
  intros Hn. assert (safe (read_bytes n) (fun _ => True)) as H; [|eapply safe_bind; [exact H|intros a _; by apply safe_ret]].
  apply (safe_unmap VBytes). intros r Hw. pose proof (rwf_size _ Hw) as Hs.
  destruct (subspan_reads_safe n r VBytes Hw) as (res & r' & E & F); [lia|unfold SIZE_MAX in *; lia|].
  exists res, r'. split_and!; [done|done|by destruct res].
Qed.

Lemma remaining_bytes_range r : rwf r -> 0 <= remaining_bytes r <= 2 ^ 63.
Proof.
  intros Hw. pose proof (rwf_size _ Hw). destruct Hw as [_ _ Hp Hbit He]. unfold remaining_bytes, SIZE_MAX in *.
  destruct (Z.leb_spec (len (rdata_ r)) (byte_pos_ r)); [lia|]. rewrite sz_small by (unfold SIZE_MAX; case_match; lia). case_match; lia.
Qed.

(** An unsigned number of so many bytes is as small as its width says. *)
Lemma uint_read_safe W e err : 
  safe (fun r => let a := reader_align_to_byte r in
    if len (rdata_ a) <? sz (byte_pos_ a + Z.of_nat (width_bytes W)) then Some (Fail (err a), a)
    else v ← read_uint W (rdata_ a) (byte_pos_ a) e; Some (Ok v, set_byte_pos (sz (byte_pos_ a + Z.of_nat (width_bytes W))) a))
    (fun v => 0 <= v < 2 ^ (8 * Z.of_nat (width_bytes W))).
Proof.
  intros r Hw. pose proof (rwf_size _ Hw) as Hs. pose proof (rwf_bytes _ Hw) as Hd. cbv zeta. rewrite align_data.
  set (a := reader_align_to_byte r). set (n := Z.of_nat (width_bytes W)).
  assert (0 <= n <= 8) as Hn by (unfold n; destruct W; cbn; lia).
  assert (slice_ok (rdata_ r) (byte_pos_ a) (Z.to_nat n) -> exists v, read_uint W (rdata_ r) (byte_pos_ a) e = Some v /\ 0 <= v < 2 ^ (8 * n)) as Hv.
  { intros Hok. apply read_uint_defined; [|done]. unfold n in Hok. by rewrite Nat2Z.id in Hok. }
  destruct (byte_read_safe n r (read_uint W (rdata_ r) (byte_pos_ a) e) (err a) Hw) as (res & r' & E & F & _);
    [lia|unfold SIZE_MAX in *; lia|intros Hok; destruct (Hv Hok) as (v & -> & _); by eexists|].
  cbv zeta in E. fold a in E. unfold a in E at 1. rewrite align_data in E. exists res, r'. split_and!; [exact E|done|]. destruct res as [v|]; [|done].
  destruct (align_forward r Hw) as ([_ _ Hp _ _] & Ed & _). fold a in Hp, Ed. rewrite Ed in Hp. revert E.
  rewrite sz_small by (unfold SIZE_MAX in *; lia). destruct (Z.ltb_spec (len (rdata_ r)) (byte_pos_ a + n)); [discriminate|].
  destruct (Hv ltac:(unfold slice_ok; lia)) as (v' & -> & Hr). cbn. by intros [= <- _].
Qed.

Lemma read_prefix_safe ctx pti : pti_bits pti <= 32 -> safe (read_prefix ctx pti) (fun n => 0 <= n < 2 ^ 32).
Proof.
  intros Hb. assert (forall (m : R Z) c, run_read (read_meaning c).1 = fmap_R VInt m -> (forall v, (read_meaning c).2 v = v) ->
    safe m (fun n => 0 <= n < 2 ^ 32) -> prefix_read_call pti = c -> safe (read_prefix ctx pti) (fun n => 0 <= n < 2 ^ 32)) as Hgo.
  { intros m c Em Ec Hm Hc. unfold read_prefix, run_read_call. rewrite Hc, Em.
    eapply (safe_bind _ _ (fun v => exists n, v = VInt n /\ 0 <= n < 2 ^ 32)).
    - apply safe_context. eapply (safe_bind _ _ (fun v => exists n, v = VInt n /\ 0 <= n < 2 ^ 32)).
      + eapply safe_bind; [exact Hm|]. intros n Hn. apply safe_ret. eauto.
      + intros v (n & -> & Hn). apply safe_ret. rewrite Ec. eauto.
    - intros v (n & -> & Hn). by apply safe_ret. }
  unfold prefix_read_call in Hgo. destruct (pti_bits pti <=? 8); [|destruct (pti_bits pti <=? 16); [|rewrite (proj2 (Z.leb_le (pti_bits pti) 32)) in Hgo by lia]].
  - apply (Hgo read_u8 ReadU8); [reflexivity|done| |reflexivity]. eapply safe_weaken; [apply read_u8_safe|]. unfold is_byte. intros v Hv. cbn beta. lia.
  - apply (Hgo (read_u16 (to_endian (pti_endian pti))) (ReadU16 (pti_endian pti))); [reflexivity|done| |reflexivity].
    eapply safe_weaken; [apply (uint_read_safe W16 _ (fun a => underrun "read_u16" "2 bytes" a))|]. cbn. intros v Hv. lia.
  - apply (Hgo (read_u32 (to_endian (pti_endian pti))) (ReadU32 (pti_endian pti))); [reflexivity|done| |reflexivity].
    exact (uint_read_safe W32 _ (fun a => underrun "read_u32" "4 bytes" a)).
Qed.

Lemma read_packed_safe ctx b char_of n : 1 <= b <= 8 -> (forall c, is_Some (char_of c)) -> safe (read_packed ctx b char_of n) (fun _ => True).
Proof.
  intros Hb Hc. induction n as [|n IH]; [by apply safe_ret|]. cbn [read_packed].
  eapply safe_bind; [apply safe_context, read_bits_safe; rewrite sz_small; unfold SIZE_MAX; lia|]. intros c _. cbn beta.
  destruct (Hc c) as [ch E]. eapply (safe_bind _ _ (fun _ => True)); [by eapply safe_lift|]. intros ch' _. cbn beta.
  eapply safe_bind; [exact IH|]. intros s _. by apply safe_ret.
Qed.

Lemma read_terminated_safe ctx t n : safe (read_terminated ctx t n) (fun _ => True).
Proof.
  assert (safe (in_context ctx read_u8) is_byte) as Hu by apply safe_context, read_u8_safe.
  unfold read_terminated. destruct t as [|b]; induction (Z.to_nat (sz n)) as [|k IH]; try (by apply safe_ret); cbn [read_to_crlf read_to_byte];
    (eapply safe_bind; [exact Hu|]; intros c _; cbn beta).
  - assert (forall f : list Z -> list Z, safe (let! s := read_to_crlf ctx k in ret (f s)) (fun _ => True)) as Hk
      by (intros f; eapply safe_bind; [exact IH|]; intros s _; by apply safe_ret).
    destruct (c =? 13); [|apply Hk]. eapply safe_bind; [exact Hu|]. intros c2 _. cbn beta. destruct (c2 =? 10); [by apply safe_ret|apply Hk].
  - destruct (c =? b); [by apply safe_ret|]. eapply safe_bind; [exact IH|]. intros s _. by apply safe_ret.
Qed.

(** ** Fields the compiler accepts *)

(** What validation makes sure of, a prefix of at most 32 bits, and a length-from
    that is not negative. *)
Record text_checked (p : Protocol) (idx : TypeIndex) (f : Field) (nbytes : Z) : Prop := {
  checked_char_bits : match f_char_bits f with Some b => 1 <= b <= 8 | None => True end;
  checked_length : match f_length f with Some n => 0 <= n < 2 ^ 31 | None => True end;
  checked_prefix : match f_length_prefix f with
                   | Some r => exists pti, resolve_prefix_type p idx r = Some pti /\ 0 <= pti_bits pti <= 32
                   | None => True
                   end;
  checked_terminator : match f_terminated f with Some t => is_Some (terminator t) | None => True end;
  checked_padding : is_Some (resolve_effective_padding p idx f);
  checked_nbytes : 0 <= nbytes <= 2 ^ 63
}.

Section safety.
Context (p : Protocol) (idx : TypeIndex) (q : string) (f : Field) (nbytes : Z).
Hypothesis checked : text_checked p idx f nbytes.

Lemma trim_defined s : is_Some (emit_field_trim p idx f s).
Proof. destruct (checked_padding _ _ _ _ checked) as [pd E]. rewrite (emit_field_trim_code _ _ _ pd) by done. by eexists. Qed.

Lemma store_text_safe s : safe (store_text p idx f s) (fun _ => True).
Proof. destruct (trim_defined (field_to_ascii f s)) as [t E]. by eapply safe_lift. Qed.

Lemma read_text_safe ctx n : 0 <= n <= 2 ^ 63 -> safe (let! s := in_context ctx (read_string n) in store_text p idx f s) (fun _ => True).
Proof. intros Hn. eapply safe_bind; [by apply safe_context, read_string_safe|]. intros s _. apply store_text_safe. Qed.

Lemma decode_length_prefix_safe prefix : f_length_prefix f = Some prefix -> safe (emit_decode_length_prefix p idx q f prefix) (fun _ => True).
Proof.
  intros Hp. pose proof (checked_prefix _ _ _ _ checked) as H. rewrite Hp in H. destruct H as (pti & E & Hb).
  unfold emit_decode_length_prefix. eapply (safe_bind _ _ (eq pti)); [by eapply safe_lift|]. intros ? <-.
  eapply safe_bind; [apply read_prefix_safe; lia|]. intros n Hn. cbn beta in *.
  destruct (f_length_includes_prefix f); [|apply read_text_safe; lia].
  assert (0 <= get_prefix_bytes pti <= 4) by (unfold get_prefix_bytes; rewrite Z.quot_div_nonneg by lia; div_lia).
  rewrite (sz_small (get_prefix_bytes pti)) by (unfold SIZE_MAX; lia). destruct (Z.ltb_spec n (get_prefix_bytes pti)); [apply safe_throw|].
  rewrite sz_small by (unfold SIZE_MAX; lia). apply read_text_safe. lia.
Qed.

Lemma emit_decode_string_safe : safe (emit_decode_string p idx q f nbytes) (fun _ => True).
Proof.
  unfold emit_decode_string. set (ctx := Some ("decode " +:+ q)). pose proof (checked_nbytes _ _ _ _ checked) as Hb.
  pose proof (checked_char_bits _ _ _ _ checked) as Hc. pose proof (checked_length _ _ _ _ checked) as Hl.
  pose proof (checked_terminator _ _ _ _ checked) as Ht.
  assert (forall n, 0 <= n < 2 ^ 31 -> safe (let! s := in_context ctx (read_string (sz n)) in store_text p idx f s) (fun _ => True)) as Hfix
    by (intros n Hn; rewrite sz_small by (unfold SIZE_MAX; lia); apply read_text_safe; lia).
  destruct (f_char_bits f) as [b|], (f_length f) as [n|]; try (by apply Hfix).
  { eapply safe_bind; [apply read_packed_safe; [done|by eexists]|]. intros s _. cbn beta. destruct (trim_defined s) as [t E]. by eapply safe_lift. }
  all: destruct (f_length_prefix f) as [prefix|] eqn:Ep; [by apply decode_length_prefix_safe|].
  all: destruct (f_length_from f); [by apply read_text_safe|].
  all: destruct (f_terminated f) as [term|]; [destruct Ht as [t E]; eapply (safe_bind _ _ (fun _ => True)); [by eapply safe_lift|]; intros t' _;
    eapply safe_bind; [apply read_terminated_safe|]; intros s _; apply store_text_safe|].
  all: destruct (f_length_star f); [|by apply safe_ret]; intros r Hw; apply read_text_safe; [by apply remaining_bytes_range|done].
Qed.
End safety.

(** C35: On every buffer, whoever wrote it, the decoder generated for a string field
    of an accepted description is defined: it returns a text or an error, never reads
    outside the buffer, leaves the reader inside it and not before where it was, and
    delivers no text longer than max-length.  The prefix has at most 32 bits and a
    length-from is not negative: with a 64-bit prefix or a negative length the check
    of the reader wraps around. *)
Theorem string_decoder_safe (p : Protocol) (idx : TypeIndex) (q : string) (f : Field) (nbytes : Z) (r : BitReader) :
  text_checked p idx f nbytes -> rwf r ->
  exists res r', decode_string_field p idx q f nbytes r = Some (res, r')
    /\ rwf r' /\ rdata_ r' = rdata_ r /\ offset r <= offset r'
    /\ match res with Ok s => forall n, f_max_length f = Some n -> len s <= sz n | Fail _ => True end.
Proof.
  intros Hc Hw. assert (safe (decode_string_field p idx q f nbytes) (fun s => forall n, f_max_length f = Some n -> len s <= sz n)) as Hs.
  { eapply safe_bind; [by apply emit_decode_string_safe|]. intros s _. unfold check_max_length, exceeds_max.
    destruct (f_max_length f) as [n|]; [|by apply safe_ret]. destruct (Z.ltb_spec (sz n) (len s)); [apply safe_throw|].
    apply safe_ret. by intros ? [= <-]. }
  destruct (Hs r Hw) as (res & r' & E & (F1 & F2 & F3) & HQ). exists res, r'. done.
Qed.

(** A little-endian prefix that promises more than there is. *)
Lemma string_decoder_safe_witness :
  let f := text_field "string" (other false false (Some "word") None (Some 9)) in
  text_checked text_protocol text_index f 0 /\ rwf (new_reader [0xFF; 0xFF; 65])
  /\ exists res r', decode_string_field text_protocol text_index "M.text" f 0 (new_reader [0xFF; 0xFF; 65]) = Some (res, r') /\ rwf r'.
Proof.
  intros f. assert (text_checked text_protocol text_index f 0) as Hc.
  { split; cbn; try done; try lia. eexists. split; [vm_compute; reflexivity|cbn; lia]. }
  assert (rwf (new_reader [0xFF; 0xFF; 65])) as Hw by (apply new_reader_wf; [repeat constructor; lia|vm_compute; discriminate]).
  split; [exact Hc|]. split; [exact Hw|].
  destruct (string_decoder_safe text_protocol text_index "M.text" f 0 (new_reader [0xFF; 0xFF; 65]) Hc Hw) as (res & r' & E & Hr & _).
  exists res, r'. auto.
Defined.
