(* ===== verification/ValueCodec.v ===== *)
(** * The values inside a class

    Generated code is nested: arrays and bitmaps call the encoder and the decoder of
    what they contain.  [Codec] is such a pair, [Codes] what it promises.  Here are
    the codecs of single values: plain numbers, numbers with a scale of their own
    ([conduit/bgen/src/codegen/cpp_structs.cpp], [cpp_structs_encode.cpp],
    [cpp_structs_decode.cpp]), enums and flags ([cpp_types.cpp],
    [cpp_enum_emitter.hpp]), declared strings, and structs of numbers. *)

From stdpp Require Import base numbers list gmap strings pretty.
From Stdlib Require Import ZArith Lia Floats.SpecFloat.
From S2P Require Import Prelude Bits CoreError Endian BitWriter BitReader BitIO CharConv AutoExpr ExprParser Ast TypeResolver ProtocolIndex Validation Names FieldCodec StructCodec TextCodec TextCodecSpec TextRoundtrip TextSafety.

Open Scope Z_scope.
Local Open Scope reader_scope.

(** ** Codecs *)

(** A member: a number (floats by their bit pattern), a [double], a text, a vector,
    or an object with the members that are present. *)
Inductive Datum :=
  | DInt (v : Z) | DReal (x : spec_float) | DText (s : list Z) | DList (l : list Datum) | DObject (m : gmap string Datum).

(** The encoder is not defined on a value of another type than its own. *)
Record Codec := mkCodec { c_encode : Datum -> option (Result (list WriteOp)); c_decode : R Datum }.

(** [ok v pre post]: [v] can be written behind [pre], and [post] may follow it. *)
Class Codes (c : Codec) (ok : Datum -> list bool -> list bool -> Prop) : Prop :=
  codes : forall v pre post, ok v pre post ->
    exists ops, c_encode c v = Some (Ok ops) /\ Forall fits ops /\ delivers (c_decode c) ops v pre post.

(** On arbitrary bytes the decoder is defined and stays inside the buffer. *)
Class SafeDecode (c : Codec) : Prop := safe_decode : safe (c_decode c) (fun _ => True).

(** ** Numbers *)

Definition read_int (c : ReadCall) : R Z :=
  let! v := run_read_call c in match v with VInt n => ret n | _ => lift None end.

(** The cast to the type of the member. *)
Definition cast_member (i : FieldTypeInfo) (v : Z) : Z := if fti_is_bool i then if v =? 0 then 0 else 1 else v.

Definition decode_plain (i : FieldTypeInfo) (e : Ast.Endian) (byte_aligned : bool) : R Datum :=
  let! c := lift (read_call i e byte_aligned) in
  let! v := read_int c in
  ret (DInt (cast_member i v)).

Definition encode_plain (i : FieldTypeInfo) (e : Ast.Endian) (byte_aligned : bool) (d : Datum) : option (Result (list WriteOp)) :=
  match d with DInt v => Some (Ok [write_meaning (write_call i e byte_aligned) v]) | _ => None end.

Definition plain_codec (i : FieldTypeInfo) (e : Ast.Endian) (byte_aligned : bool) : Codec :=
  mkCodec (encode_plain i e byte_aligned) (decode_plain i e byte_aligned).

Definition plain_ok (i : FieldTypeInfo) (e : Ast.Endian) (byte_aligned : bool) (d : Datum) (pre post : list bool) : Prop :=
  exists v, d = DInt v /\ value_ok i e v /\ codec_value i v = v /\ (fti_is_bool i = true -> 0 <= v < 2)
    /\ (byte_aligned || is_plain_float i = true -> length pre mod 8 = 0)%nat.

Lemma read_int_delivers rc op bits v pre post : codec_ok rc op bits v pre ->
  Forall fits [op] /\ delivers (read_int rc) [op] v pre post /\ len (encoded [op] pre) = bits.
Proof.
  intros (Hf & Hl & Hr). split; [by repeat constructor|]. split; [|by rewrite encoded_one]. intros r Hc. rewrite encoded_one in *. destruct (Hr r post Hc) as (r' & E & C).
  exists r'. split; [|done]. unfold read_int. by rewrite (bind_ok _ _ _ _ _ E).
Qed.

Lemma delivers_lift {A B} (x : option A) (a : A) (k : A -> R B) ops b pre post :
  x = Some a -> delivers (k a) ops b pre post -> delivers (bind (lift x) k) ops b pre post.
Proof. intros -> H r Hc. destruct (H r Hc) as (r' & E & C). by exists r'. Qed.

Lemma number_delivers i e b v (pre post : list bool) :
  value_ok i e v -> codec_value i v = v -> (b || is_plain_float i = true -> length pre mod 8 = 0)%nat ->
  exists rc, read_call i e b = Some rc
    /\ Forall fits [write_meaning (write_call i e b) v] /\ delivers (read_int rc) [write_meaning (write_call i e b) v] v pre post
    /\ len (encoded [write_meaning (write_call i e b) v] pre) = fti_bits i.
Proof.
  intros Hv Hc Ha. destruct (codec_field i e v b pre Hv) as (rc & E & H);
    [intros ->; by apply Ha|intros H; apply Ha; by rewrite H, orb_true_r|].
  rewrite Hc in H. exists rc. split; [done|]. by eapply read_int_delivers.
Qed.

Lemma bool_cast i v : (fti_is_bool i = true -> 0 <= v < 2) -> cast_member i v = v.
Proof. unfold cast_member. destruct (fti_is_bool i); [|done]. intros H. destruct (Z.eqb_spec v 0); lia. Qed.

Global Instance plain_codes i e b : Codes (plain_codec i e b) (plain_ok i e b).
Proof.
  intros d pre post (v & -> & Hv & Hc & Hb & Ha). destruct (number_delivers i e b v pre post Hv Hc Ha) as (rc & E & Hf & Hd & _).
  eexists. split_and!; [done|done|]. cbn [c_decode plain_codec]. eapply delivers_lift; [exact E|].
  eapply delivers_then; [exact Hd|]. intros r. by rewrite bool_cast.
Qed.

(** ** Enums and flags *)

(** What the functions of an enum are made of.  The underlying type is unsigned. *)
Record EnumCode := mkEnumCode {
  en_name : string; en_bits : Z; en_values : list EnumValue; en_read : ReadCall; en_write : WriteCall
}.

Definition declared_enum (t : TypeDef) : EnumCode :=
  mkEnumCode (to_cpp_type_name (td_name t)) (td_bits t) (td_enum_values t) (type_read_call t) (type_write_call t).

(** An enum inside a field: words of two and four bytes are read and written from a
    byte boundary on, in the byte order of the field. *)
Definition inline_enum (name : string) (f : Field) : EnumCode :=
  let bits := default 8 (f_bits f) in
  let e := f_endian f in
  mkEnumCode name bits (f_enum_values f)
    (if bits <=? 8 then ReadBits bits else if bits =? 16 then ReadU16 e else if bits =? 32 then ReadU32 e else ReadBits bits)
    (if bits <=? 8 then WriteBits bits else if bits =? 16 then WriteU16 e else if bits =? 32 then WriteU32 e else WriteBits bits).

(** A float is no argument of these casts that the model could follow. *)
Definition is_float_call (c : ReadCall) : bool :=
  match c with ReadF16 _ | ReadF32 _ | ReadF48 _ | ReadF64 _ => true | _ => false end.

Definition read_underlying (c : ReadCall) (bits : Z) : R Z :=
  if is_float_call c then lift None else let! raw := read_int c in ret (wrap (storage_width bits) raw).

(** An unsigned argument, converted where the writer takes a signed one. *)
Definition write_underlying (c : WriteCall) (v : Z) : option WriteOp :=
  match c with
  | WriteF16 _ | WriteF32 _ | WriteF48 _ | WriteF64 _ | WriteWideFloat _ => None
  | WriteBcdSigned _ | WriteSignMagnitude _ | WriteSignedBits _ => Some (write_meaning c (signed 64 v))
  | _ => Some (write_meaning c v)
  end.

Definition enum_has (en : EnumCode) (v : Z) : bool := existsb (fun x => enum_id x =? v) (en_values en).

Definition decode_enum (en : EnumCode) : R Datum :=
  let! v := read_underlying (en_read en) (en_bits en) in
  if enum_has en v then ret (DInt v)
  else throw UnknownEnumValue ("unknown " +:+ en_name en +:+ " value: " +:+ pretty v).

Definition encode_enum (en : EnumCode) (d : Datum) : option (Result (list WriteOp)) :=
  match d with
  | DInt v =>
      if enum_has en v then op ← write_underlying (en_write en) v; Some (Ok [op])
      else Some (Fail (new_error EncodeConstraintViolation ("invalid " +:+ en_name en +:+ " enum value: " +:+ pretty v)))
  | _ => None
  end.

Definition enum_codec (en : EnumCode) : Codec := mkCodec (encode_enum en) (decode_enum en).

Definition decode_flags (t : TypeDef) : R Datum :=
  let! raw := read_underlying (type_read_call t) (td_bits t) in ret (DInt raw).

Definition encode_flags (t : TypeDef) (d : Datum) : option (Result (list WriteOp)) :=
  match d with DInt v => op ← write_underlying (type_write_call t) v; Some (Ok [op]) | _ => None end.

Definition flags_codec (t : TypeDef) : Codec := mkCodec (encode_flags t) (decode_flags t).

(** The accessors of one flag: a shift by less than the width of the promoted type. *)
Definition flag_mask (t : TypeDef) (f : FlagDef) : option Z :=
  if (0 <=? flag_bit f) && (flag_bit f <? Z.max 32 (storage_width (td_bits t))) then Some (Z.shiftl 1 (flag_bit f)) else None.

Definition get_flag (t : TypeDef) (f : FlagDef) (raw : Z) : option bool :=
  _ ← flag_mask t f; Some (negb (Z.land (Z.shiftr raw (flag_bit f)) 1 =? 0)).

Definition set_flag (t : TypeDef) (f : FlagDef) (v : bool) (raw : Z) : option Z :=
  let w := storage_width (td_bits t) in
  mask ← flag_mask t f;
  Some (wrap w (if v then Z.lor raw mask else Z.land raw (wrap w (Z.lnot mask)))).

(** *** What they promise *)

(** The description of the number that such a value is on the wire. *)
Definition number_info (bits : Z) (is_signed : bool) (enc : WireEncoding) : FieldTypeInfo :=
  mkFti "" false false false false false false bits is_signed false double_one double_zero 0 false EndianBig enc.

Definition type_number (t : TypeDef) : FieldTypeInfo :=
  number_info (td_bits t) (bool_decide (td_base t = BaseInt)) (td_wire_encoding t).

Lemma type_calls t : td_base t <> BaseFloat -> 0 < td_bits t <= 64 ->
  read_call (type_number t) EndianBig false = Some (type_read_call t) /\ write_call (type_number t) EndianBig false = type_write_call t
  /\ is_float_call (type_read_call t) = false.
Proof.
  intros Hf Hb. unfold read_call, write_call, type_read_call, type_write_call, type_number, number_info. cbn.
  rewrite (proj2 (Z.ltb_lt 0 _)), (proj2 (Z.leb_le _ 64)) by lia. cbn.
  destruct (td_wire_encoding t), (td_base t) eqn:E; try done; rewrite ?bool_decide_true, ?bool_decide_false by congruence; done.
Qed.

Lemma inline_calls name f : 0 < default 8 (f_bits f) <= 64 ->
  let en := inline_enum name f in
  let word := (en_bits en =? 16) || (en_bits en =? 32) in
  read_call (number_info (en_bits en) false WireDefault) (f_endian f) word = Some (en_read en)
  /\ write_call (number_info (en_bits en) false WireDefault) (f_endian f) word = en_write en /\ is_float_call (en_read en) = false.
Proof.
  intros Hb. unfold inline_enum, read_call, write_call, number_info. cbn. revert Hb. generalize (default 8 (f_bits f)) as b. intros b Hb.
  rewrite (proj2 (Z.ltb_lt 0 _)), (proj2 (Z.leb_le b 64)) by lia. cbn.
  destruct (Z.eqb_spec b 8) as [->|]; [done|]. destruct (Z.eqb_spec b 16) as [->|]; [done|]. destruct (Z.eqb_spec b 32) as [->|]; [done|].
  by destruct (b <=? 8).
Qed.

Lemma storage_range n v : 0 < n <= 64 -> 0 <= v < 2 ^ n -> wrap (storage_width n) v = v.
Proof.
  intros Hn Hv. apply wrap_small. assert (n <= storage_width n) by (unfold storage_width; repeat case_match; lia).
  pose proof (Z.pow_le_mono_r 2 n (storage_width n)). lia.
Qed.

(** A number behind one of these casts. *)
Lemma underlying_delivers i e b rc wc v (pre post : list bool) : read_call i e b = Some rc -> write_call i e b = wc ->
  is_float_call rc = false -> fti_is_float i = false -> value_ok i e v -> 0 <= v < 2 ^ Z.min 63 (fti_bits i) -> 0 < fti_bits i <= 64 ->
  (b = true -> length pre mod 8 = 0)%nat ->
  exists op, write_underlying wc v = Some op /\ Forall fits [op] /\ delivers (read_underlying rc (fti_bits i)) [op] v pre post
    /\ len (encoded [op] pre) = fti_bits i.
Proof.
  intros Er Ew Hrc Hi Hv Hr Hb Ha. assert (is_plain_float i = false) as Hp by (unfold is_plain_float; by destruct (fti_wire_encoding i)).
  destruct (number_delivers i e b v pre post Hv) as (rc' & E & Hf & Hd & Hl);
    [unfold codec_value; by rewrite Hp|rewrite Hp, orb_false_r; done|]. simplify_eq.
  pose proof (Z.pow_le_mono_r 2 (Z.min 63 (fti_bits i)) 63). pose proof (Z.pow_le_mono_r 2 (Z.min 63 (fti_bits i)) (fti_bits i)).
  assert (signed 64 v = v) as Hs by (rewrite <- (Z.mod_small v (2 ^ 64)) at 1 by lia; apply signed_wrap; lia).
  exists (write_meaning (write_call i e b) v). split_and!; [|done| |done].
  - unfold write_underlying. rewrite Hs. unfold write_call. rewrite Hi. destruct (fti_wire_encoding i); repeat case_match; done.
  - unfold read_underlying. rewrite Hrc. eapply delivers_then; [exact Hd|]. intros r. rewrite storage_range; [done|done|lia].
Qed.

(** A value of an enum that is written as the number [i]. *)
Definition enum_ok (en : EnumCode) (i : FieldTypeInfo) (e : Ast.Endian) (byte_aligned : bool) (d : Datum) (pre post : list bool) : Prop :=
  exists v, d = DInt v /\ enum_has en v = true /\ value_ok i e v /\ 0 <= v < 2 ^ Z.min 63 (en_bits en)
    /\ (byte_aligned = true -> length pre mod 8 = 0)%nat.

Lemma enum_codes en i e b : read_call i e b = Some (en_read en) -> write_call i e b = en_write en -> is_float_call (en_read en) = false ->
  fti_is_float i = false -> fti_bits i = en_bits en -> 0 < en_bits en <= 64 -> Codes (enum_codec en) (enum_ok en i e b).
Proof.
  intros Er Ew Hrc Hi Eb Hb d pre post (v & -> & Hh & Hv & Hr & Ha).
  destruct (underlying_delivers i e b (en_read en) (en_write en) v pre post) as (op & E & Hf & Hd & _); [try done; by rewrite Eb..|].
  exists [op]. split_and!; [|done|].
  - cbn. by rewrite Hh, E.
  - rewrite Eb in Hd. cbn [c_decode enum_codec]. unfold decode_enum. eapply delivers_then; [exact Hd|]. intros r. by rewrite Hh.
Qed.

Global Instance declared_enum_codes t : TCEq (bool_decide (td_base t <> BaseFloat /\ 0 < td_bits t <= 64)) true ->
  Codes (enum_codec (declared_enum t)) (enum_ok (declared_enum t) (type_number t) EndianBig false).
Proof. rewrite TCEq_eq. intros [Hf Hb]%bool_decide_eq_true. destruct (type_calls t Hf Hb) as (? & ? & ?). by apply enum_codes. Qed.

Definition is_word (bits : Z) : bool := (bits =? 16) || (bits =? 32).

Global Instance inline_enum_codes name f : TCEq (bool_decide (0 < default 8 (f_bits f) <= 64)) true ->
  Codes (enum_codec (inline_enum name f))
    (enum_ok (inline_enum name f) (number_info (default 8 (f_bits f)) false WireDefault) (f_endian f) (is_word (default 8 (f_bits f)))).
Proof. rewrite TCEq_eq. intros Hb%bool_decide_eq_true. destruct (inline_calls name f Hb) as (? & ? & ?). by apply enum_codes. Qed.

Definition flags_ok (t : TypeDef) (d : Datum) (pre post : list bool) : Prop :=
  exists v, d = DInt v /\ value_ok (type_number t) EndianBig v /\ 0 <= v < 2 ^ Z.min 63 (td_bits t).

Global Instance flags_codes t : TCEq (bool_decide (td_base t <> BaseFloat /\ 0 < td_bits t <= 64)) true -> Codes (flags_codec t) (flags_ok t).
Proof.
  rewrite TCEq_eq. intros [Hf Hb]%bool_decide_eq_true d pre post (v & -> & Hv & Hr). destruct (type_calls t Hf Hb) as (Er & Ew & Hc).
  destruct (underlying_delivers (type_number t) EndianBig false _ _ v pre post Er Ew) as (op & E & Hfit & Hd & _); try done.
  exists [op]. split_and!; [cbn; by rewrite E|done|]. cbn [c_decode flags_codec]. unfold decode_flags. by eapply delivers_then.
Qed.

Lemma shifted_testbit raw b : negb (Z.land (Z.shiftr raw b) 1 =? 0) = Z.testbit raw b.
Proof.
  change 1 with (Z.ones 1). rewrite Z.land_ones by lia. change (2 ^ 1) with 2. rewrite Zmod_odd, <- Z.testbit_odd. by destruct (Z.testbit raw b).
Qed.

(** The accessors: a flag that was set is read back, and no other flag changes. *)
Lemma flags_apart t f g v raw raw' : 0 <= flag_bit f < td_bits t -> 0 <= flag_bit g < td_bits t -> td_bits t <= 64 ->
  set_flag t f v raw = Some raw' -> get_flag t g raw' = if flag_bit g =? flag_bit f then Some v else get_flag t g raw.
Proof.
  intros Hf Hg Hb. assert (td_bits t <= storage_width (td_bits t)) by (unfold storage_width; repeat case_match; lia).
  unfold set_flag, get_flag, flag_mask. rewrite !(proj2 (Z.leb_le 0 _)), !(proj2 (Z.ltb_lt _ (Z.max _ _))) by lia. cbn.
  intros [= <-]. rewrite !shifted_testbit. unfold wrap. rewrite Z.mod_pow2_bits_low by lia.
  destruct v; rewrite ?Z.lor_spec, ?Z.land_spec, ?Z.mod_pow2_bits_low, ?Z.lnot_spec, Z.shiftl_1_l, Z.pow2_bits_eqb, (Z.eqb_sym (flag_bit f)) by lia;
    destruct (flag_bit g =? flag_bit f), (Z.testbit raw (flag_bit g)); done.
Qed.

(** *** On arbitrary bytes *)

Lemma read_int_safe c : safe (read_int c) (fun _ => True).
Proof.
  assert (exists m, run_read (read_meaning c).1 = fmap_R VInt m) as [m Em] by (destruct c; by eexists).
  assert (safe m (fun _ => True)) as Hm.
  { apply (safe_unmap VInt). rewrite <- Em. intros r Hw. destruct (run_read_safe (read_meaning c).1 r Hw) as (res & r' & E & F).
    - destruct c; cbn; try done; unfold sz, wrap, SIZE_MAX; pose proof (Z.mod_pos_bound bits (2 ^ 64)); lia.
    - exists res, r'. split_and!; [done|done|by destruct res]. }
  unfold read_int, run_read_call. rewrite Em. eapply (safe_bind _ _ (fun v => exists n, v = VInt n)).
  - eapply (safe_bind _ _ (fun v => exists n, v = VInt n)); [eapply safe_bind; [exact Hm|]|]; [intros a _; apply safe_ret; eauto|].
    intros ? [n ->]. apply safe_ret. eauto.
  - intros ? [n ->]. by apply safe_ret.
Qed.

(** A number and what is made of it. *)
Lemma read_number_safe i e b (f : Z -> Datum) : 0 < fti_bits i <= 64 ->
  safe (let! c := lift (read_call i e b) in let! v := read_int c in ret (f v)) (fun _ => True).
Proof.
  intros Hb. assert (is_Some (read_call i e b)) as [c E].
  { unfold read_call. rewrite (proj2 (Z.ltb_lt 0 _)), (proj2 (Z.leb_le _ 64)) by lia. cbn. repeat case_match; by econstructor. }
  eapply (safe_bind _ _ (fun _ => True)); [by apply (safe_lift c)|]. intros c' _.
  eapply safe_bind; [apply read_int_safe|]. intros v _. by apply safe_ret.
Qed.

Global Instance plain_safe i e b : TCEq (bool_decide (0 < fti_bits i <= 64)) true -> SafeDecode (plain_codec i e b).
Proof. rewrite TCEq_eq. intros Hb%bool_decide_eq_true. by apply read_number_safe. Qed.

Lemma read_underlying_safe c bits : is_float_call c = false -> safe (read_underlying c bits) (fun _ => True).
Proof. intros H. unfold read_underlying. rewrite H. eapply safe_bind; [apply read_int_safe|]. intros v _. by apply safe_ret. Qed.

Global Instance enum_safe en : TCEq (is_float_call (en_read en)) false -> SafeDecode (enum_codec en).
Proof.
  rewrite TCEq_eq. intros H. unfold SafeDecode. cbn. unfold decode_enum. eapply safe_bind; [by apply read_underlying_safe|]. intros v _.
  destruct (enum_has en v); [by apply safe_ret|apply safe_throw].
Qed.

(** ** Declared strings *)

Definition string_type_codec_of (t : TypeDef) : Codec :=
  mkCodec (fun d => match d with DText s => Ok <$> encode_string_type t s | _ => None end) (fmap_R DText (decode_string_type t)).

Definition string_type_value_ok (t : TypeDef) (d : Datum) (pre post : list bool) : Prop := exists s, d = DText s /\ string_type_ok t s.

Global Instance string_type_codes t : Codes (string_type_codec_of t) (string_type_value_ok t).
Proof.
  intros d pre post (s & -> & Hs). destruct (string_type_codec t s pre post Hs) as (ops & E & Hf & Hd & _).
  exists ops. split_and!; [cbn; by rewrite E|done|]. by eapply delivers_then.
Qed.

(** ** Structs of numbers

    The classes of [StructCodec], for a struct without optional fields: its object is
    the list of its numbers. *)

Fixpoint fill (l : list Item) (vs : list Z) : option (list (Item * option Z)) :=
  match l, vs with
  | [], [] => Some []
  | IField i e optional :: l, v :: vs => rest ← fill l vs; Some ((IField i e optional, Some v) :: rest)
  | (IReserved _ | IAlign _) as it :: l, vs => rest ← fill l vs; Some ((it, None) :: rest)
  | _, _ => None
  end.

Definition int_of (d : Datum) : option Z := match d with DInt v => Some v | _ => None end.
Definition ints_of (l : list Value) : list Z := omap (fun v => match v with VInt n => Some n | _ => None end) l.

Definition encode_flat (l : list Item) (d : Datum) : option (Result (list WriteOp)) :=
  match d with DList ds => vs ← mapM int_of ds; items ← fill l vs; Some (Ok (encode_items 0 items)) | _ => None end.

Definition decode_flat (l : list Item) : R Datum :=
  let! steps := lift (decode_items 0 (map (fun it => (it, true)) l)) in
  let! vs := run_steps steps in
  ret (DList (map DInt (ints_of vs))).

Definition flat_codec (l : list Item) : Codec := mkCodec (encode_flat l) (decode_flat l).

Definition always_there (it : Item) : bool := match it with IField _ _ optional => negb optional | _ => true end.

(** The class starts at a byte boundary, as its code takes for granted. *)
Definition flat_ok (l : list Item) (d : Datum) (pre post : list bool) : Prop :=
  exists vs items, d = DList (map DInt vs) /\ fill l vs = Some items /\ items_ok 0 items /\ ints_of (items_values items) = vs
    /\ (length pre mod 8 = 0)%nat.

Lemma flat_steps l : forall vs items m, forallb always_there l = true -> fill l vs = Some items ->
  decode_items m (map (fun it => (it, true)) l) = decode_items m (presence items).
Proof.
  induction l as [|it l IH]; intros vs items m Hl Hf; [destruct vs; by simplify_eq/=|].
  cbn [forallb] in Hl. apply andb_true_iff in Hl as [Hi Hl].
  assert (exists v vs', fill l vs' = Some (tail items) /\ items = (it, v) :: tail items /\ (always_there it = true -> is_some v = true \/ decode_item m it false = decode_item m it true))
    as (v & vs' & Hr & -> & Hv).
  { destruct it as [i e o|n|n]; cbn in Hf; [destruct vs as [|v vs]; [done|]|..];
      destruct (fill l _) as [rest|] eqn:E; simplify_eq/=; [exists (Some v)|exists None..]; eexists; (split_and!; [exact E|done|]); by auto. }
  cbn [map presence decode_items]. fold (presence (tail items)).
  assert (decode_item m it (is_some v) = decode_item m it true) as -> by (destruct (Hv Hi) as [->|H]; [done|by destruct v]).
  destruct (decode_item m it true) as [[steps m']|]; [|done]. cbn. by rewrite (IH vs' (tail items)).
Qed.

Lemma ints_mapM vs : mapM int_of (map DInt vs) = Some vs.
Proof. induction vs as [|v vs IH]; cbn; [done|by rewrite IH]. Qed.

Global Instance flat_codes l : TCEq (forallb always_there l) true -> Codes (flat_codec l) (flat_ok l).
Proof.
  rewrite TCEq_eq. intros Hl d pre post (vs & items & -> & Hf & Hok & Hv & Ha).
  destruct (items_codec items 0 pre Hok) as (steps & Es & (Hfit & Hr) & _); [right; by rewrite Ha|].
  exists (encode_items 0 items). split_and!; [|done|].
  - cbn [c_encode flat_codec encode_flat]. rewrite ints_mapM. cbn. by rewrite Hf.
  - cbn [c_decode flat_codec]. unfold decode_flat. eapply delivers_lift; [by rewrite (flat_steps l vs items)|].
    eapply delivers_then; [intros r Hc; exact (Hr r post Hc)|]. intros r. by rewrite Hv.
Qed.

(** ** On the wire

    What is delivered from the position where it was written is delivered from the
    bytes of the finished writer. *)
Lemma delivered {A} (dec : R A) ops v : Forall fits ops -> delivers dec ops v [] (zeros (pad8 (length (encoded ops [])))) ->
  total_bits ops <= SIZE_MAX - 32 ->
  exists w d r, run_writes ops new_writer = Some w /\ finish w = (Ok d, new_writer) /\ dec (new_reader d) = Some (Ok v, r).
Proof.
  intros Hf Hd Hsize. set (bits := encoded ops []) in *.
  destruct (run_writes_repr ops new_writer [] repr_new Hf) as (w & Ew & Rw & Lw); [unfold room; cbn; lia|].
  cbn [app] in Rw, Lw. fold bits in Rw, Lw. pose proof (repr_pos _ _ Rw) as Ep. cbn [bit_pos_ new_writer] in Lw.
  destruct (finish_repr w bits Rw) as (d & Ed & Hb & Hbits); [unfold room; lia|].
  pose proof (f_equal len Hbits) as El. rewrite len_bytes_bits, align8_len in El. pose proof (pad8_lt (length bits)).
  destruct (Hd (new_reader d)) as (r & Er & _); [|by exists w, d, r].
  fold bits. fold (align8 bits). rewrite <- Hbits. apply cursor_new; [done|lia].
Qed.
