(* ===== verification/ScaledCodec.v ===== *)
(** * Fields with a scale of their own

    Models what the C++ back end generates for an integer with [scale] or [offset]
    on the field ([conduit/bgen/src/codegen/cpp_structs_encode.cpp],
    [cpp_structs_decode.cpp], bitmap fields in [cpp_structs.cpp]): the member is a
    [double], the wire holds the raw integer.  The arithmetic is that of IEEE 754
    doubles, rounded after every operation (no fused multiply-add), and the cast to
    the raw type truncates.  A scale that is a power of two loses nothing; a
    decimal scale can lose a unit. *)

From stdpp Require Import base numbers list gmap strings pretty.
From Stdlib Require Import ZArith Lia Floats.SpecFloat.
From S2P Require Import Prelude Bits CoreError Endian BitWriter BitReader BitIO CharConv AutoExpr ExprParser Ast TypeResolver ProtocolIndex Validation Names FieldCodec StructCodec TextCodec TextCodecSpec TextSafety ValueCodec.

Open Scope Z_scope.
Local Open Scope reader_scope.

(** ** Doubles *)

Definition prec : Z := 53.
Definition emax : Z := 1024.

(** [static_cast<double>(n)] *)
Definition double_of_int (n : Z) : spec_float := binary_normalize prec emax n 0 false.

Definition truncate (m : positive) (e : Z) : Z := if 0 <=? e then Z.pos m * 2 ^ e else Z.pos m / 2 ^ (- e).

(** The cast of a [double] to an integer type; without a meaning out of range. *)
Definition int_of_double (bits : Z) (is_signed : bool) (x : spec_float) : option Z :=
  let w := storage_width bits in
  let in_range v := if is_signed then (- 2 ^ (w - 1) <=? v) && (v <? 2 ^ (w - 1)) else (0 <=? v) && (v <? 2 ^ w) in
  match x with
  | S754_zero _ => Some 0
  | S754_finite s m e => let v := if s then - truncate m e else truncate m e in if in_range v then Some v else None
  | S754_infinity _ | S754_nan => None
  end.

(** ** The code *)

(** [static_cast<double>(raw) * scale + offset] *)
Definition physical (scale offset : spec_float) (raw : Z) : spec_float :=
  SFadd prec emax (SFmul prec emax (double_of_int raw) scale) offset.

(** [static_cast<raw_type>((value - offset) / scale)] *)
Definition raw_of (bits : Z) (is_signed : bool) (scale offset x : spec_float) : option Z :=
  int_of_double bits is_signed (SFdiv prec emax (SFsub prec emax x offset) scale).

(** The raw integer on the wire. *)
Definition raw_info (i : FieldTypeInfo) : FieldTypeInfo := number_info (fti_raw_bits i) (fti_raw_signed i) (fti_wire_encoding i).

Definition decode_scaled (i : FieldTypeInfo) (byte_aligned : bool) : R Datum :=
  let! c := lift (read_call (raw_info i) (fti_raw_endian i) byte_aligned) in
  let! raw := read_int c in
  ret (DReal (physical (fti_field_scale i) (fti_field_offset i) raw)).

Definition encode_scaled (i : FieldTypeInfo) (byte_aligned : bool) (d : Datum) : option (Result (list WriteOp)) :=
  match d with
  | DReal x =>
      raw ← raw_of (fti_raw_bits i) (fti_raw_signed i) (fti_field_scale i) (fti_field_offset i) x;
      Some (Ok [write_meaning (write_call (raw_info i) (fti_raw_endian i) byte_aligned) raw])
  | _ => None
  end.

Definition scaled_codec (i : FieldTypeInfo) (byte_aligned : bool) : Codec := mkCodec (encode_scaled i byte_aligned) (decode_scaled i byte_aligned).

(** ** Powers of two *)

(** The double [2 ^ k]. *)
Definition power_of_two (k : Z) : spec_float := S754_finite false (2 ^ 52) (k - 52).

Lemma digits2_spec m : 2 ^ (Z.pos (digits2_pos m) - 1) <= Z.pos m < 2 ^ Z.pos (digits2_pos m).
Proof.
  induction m as [m IH|m IH|]; cbn [digits2_pos]; [..|done].
  all: rewrite Pos2Z.inj_succ; replace (Z.succ (Z.pos (digits2_pos m)) - 1) with (Z.succ (Z.pos (digits2_pos m) - 1)) by lia;
    rewrite !Z.pow_succ_r by lia; lia.
Qed.

Lemma digits2_unique m d : 0 < d -> 2 ^ (d - 1) <= Z.pos m < 2 ^ d -> Z.pos (digits2_pos m) = d.
Proof.
  intros Hd [Hl Hu]. pose proof (digits2_spec m) as [Hl' Hu']. set (n := Z.pos (digits2_pos m)) in *.
  assert (d - 1 < n) by (apply (Z.pow_lt_mono_r_iff 2); lia). assert (n - 1 < d) by (apply (Z.pow_lt_mono_r_iff 2); lia). lia.
Qed.

Lemma fexp_normal x : -1021 <= x -> fexp prec emax x = x - 53.
Proof. unfold fexp, emin, prec, emax. lia. Qed.

(** *** Rounding a value that has 53 digits *)

Lemma shr_1_double m : 0 < m -> shr_1 (shr_record_of_loc (2 * m) loc_Exact) = shr_record_of_loc m loc_Exact.
Proof. by destruct m. Qed.

Lemma iter_shr p : forall m, 0 < m -> iter_pos shr_1 p (shr_record_of_loc (m * 2 ^ Z.pos p) loc_Exact) = shr_record_of_loc m loc_Exact.
Proof.
  induction p as [p IH|p IH|]; intros m Hm; cbn [iter_pos].
  - replace (m * 2 ^ Z.pos p~1) with (2 * ((m * 2 ^ Z.pos p) * 2 ^ Z.pos p))
      by (rewrite (Pos2Z.inj_xI p), Z.pow_add_r, Z.pow_twice_r by lia; ring).
    assert (0 < 2 ^ Z.pos p) by (by apply Z.pow_pos_nonneg). rewrite shr_1_double by nia. rewrite IH by nia. by apply IH.
  - replace (m * 2 ^ Z.pos p~0) with ((m * 2 ^ Z.pos p) * 2 ^ Z.pos p) by (rewrite (Pos2Z.inj_xO p), Z.pow_twice_r by lia; ring).
    assert (0 < 2 ^ Z.pos p) by (by apply Z.pow_pos_nonneg). rewrite IH by nia. by apply IH.
  - rewrite Z.mul_comm. by apply shr_1_double.
Qed.

Definition is_normal (m : Z) : Prop := 2 ^ 52 <= m < 2 ^ 53.

Lemma shr_fexp_exact m j e : is_normal m -> 0 <= j -> -1074 <= e ->
  shr_fexp prec emax (m * 2 ^ j) (e - j) loc_Exact = (shr_record_of_loc m loc_Exact, e).
Proof.
  intros Hm Hj He. unfold is_normal in Hm. assert (0 < 2 ^ j) by (by apply Z.pow_pos_nonneg).
  assert (Zdigits2 (m * 2 ^ j) = 53 + j) as Hd.
  { destruct (m * 2 ^ j) as [|p|p] eqn:E; [nia| |nia]. cbn. apply digits2_unique; [lia|]. rewrite <- E.
    replace (53 + j - 1) with (52 + j) by lia. rewrite !Z.pow_add_r by lia. nia. }
  unfold shr_fexp. rewrite Hd, fexp_normal by lia. replace (53 + j + (e - j) - 53 - (e - j)) with j by lia.
  destruct j as [|p|p]; [|  |lia]; unfold shr.
  - by rewrite Z.mul_1_r, Z.sub_0_r.
  - rewrite iter_shr by lia. by rewrite Z.sub_add.
Qed.

Lemma round_exact s m j e : is_normal (Z.pos m) -> 0 <= j -> -1074 <= e <= 971 ->
  binary_round_aux prec emax s (Z.pos m * 2 ^ j) (e - j) loc_Exact = S754_finite s m e.
Proof.
  intros Hm Hj He. unfold binary_round_aux. rewrite shr_fexp_exact by (done || lia).
  pose proof (shr_fexp_exact (Z.pos m) 0 e Hm (Z.le_refl 0)) as H. rewrite Z.mul_1_r, Z.sub_0_r in H.
  cbn [shr_record_of_loc shr_m loc_of_shr_record round_nearest_even]. rewrite H by lia. cbn [shr_record_of_loc shr_m].
  by rewrite (proj2 (Z.leb_le _ _)) by (unfold emax, prec; lia).
Qed.

(** *** The operations on the way *)

Lemma iter_xO p : forall m, Z.pos (Pos.iter xO m p) = Z.pos m * 2 ^ Z.pos p.
Proof.
  induction p as [|p IH] using Pos.peano_ind; intros m; [cbn; lia|].
  rewrite Pos.iter_succ, Pos2Z.inj_succ, Z.pow_succ_r by lia. rewrite (Pos2Z.inj_xO (Pos.iter xO m p)), IH. ring.
Qed.

(** An integer below [2 ^ 53] is a double. *)
Lemma double_of_int_exact n : n <> 0 -> Z.abs n < 2 ^ 53 ->
  exists m d, double_of_int n = S754_finite (n <? 0) m (d - 53) /\ is_normal (Z.pos m) /\ 0 < d <= 53 /\ Z.pos m = Z.abs n * 2 ^ (53 - d).
Proof.
  intros Hn Hr. assert (forall s a, Z.pos a < 2 ^ 53 -> exists m d,
    binary_round prec emax s a 0 = S754_finite s m (d - 53) /\ is_normal (Z.pos m) /\ 0 < d <= 53 /\ Z.pos m = Z.pos a * 2 ^ (53 - d)) as Hgo.
  { intros s a Ha. pose proof (digits2_spec a) as [Hl Hu]. set (d := Z.pos (digits2_pos a)) in *.
    assert (d - 1 < 53) by (apply (Z.pow_lt_mono_r_iff 2); lia).
    unfold binary_round. fold d. rewrite Z.add_0_r, fexp_normal by lia.
    assert (exists m, shl_align a 0 (d - 53) = (m, d - 53) /\ Z.pos m = Z.pos a * 2 ^ (53 - d)) as (m & -> & Em).
    { unfold shl_align. rewrite Z.sub_0_r. replace (53 - d) with (- (d - 53)) by lia. destruct (d - 53) as [|p|p] eqn:E; [|lia|].
      - exists a. split; [done|]. lia.
      - eexists. split; [done|]. apply iter_xO. }
    assert (is_normal (Z.pos m)) as Hm.
    { unfold is_normal. rewrite Em. assert (0 < 2 ^ (53 - d)) by (apply Z.pow_pos_nonneg; lia).
      replace (2 ^ 52) with (2 ^ (d - 1) * 2 ^ (53 - d)) by (rewrite <- Z.pow_add_r by lia; f_equal; lia).
      replace (2 ^ 53) with (2 ^ d * 2 ^ (53 - d)) by (rewrite <- Z.pow_add_r by lia; f_equal; lia). nia. }
    exists m, d. split; [|split; [done|split; [lia|done]]]. pose proof (round_exact s m 0 (d - 53) Hm) as Hx. rewrite Z.mul_1_r, Z.sub_0_r in Hx. apply Hx; lia. }
  unfold double_of_int, binary_normalize. destruct n as [|a|a]; [done|apply (Hgo false)|apply (Hgo true)]; lia.
Qed.

Lemma power_normal : is_normal (Z.pos (2 ^ 52)).
Proof. unfold is_normal. change (Z.pos (2 ^ 52)) with (2 ^ 52). lia. Qed.

Lemma times_power s m e k : is_normal (Z.pos m) -> -1074 <= e + k <= 971 ->
  SFmul prec emax (S754_finite s m e) (power_of_two k) = S754_finite s m (e + k).
Proof.
  intros Hm He. unfold SFmul, power_of_two. rewrite xorb_false_r, Pos2Z.inj_mul. change (Z.pos (2 ^ 52)) with (2 ^ 52).
  replace (e + (k - 52)) with (e + k - 52) by lia. apply round_exact; [done|lia|lia].
Qed.

Lemma over_power s m e k : is_normal (Z.pos m) -> -1000 <= e <= 971 ->
  SFdiv prec emax (S754_finite s m (e + k)) (power_of_two k) = S754_finite s m e.
Proof.
  intros Hm He. unfold SFdiv, power_of_two, SFdiv_core_binary.
  assert (forall q, is_normal (Z.pos q) -> Zdigits2 (Z.pos q) = 53) as Hd by (intros q Hq; apply digits2_unique; [lia|exact Hq]).
  rewrite (Hd m Hm), (Hd _ power_normal), fexp_normal, xorb_false_r by lia.
  replace (Z.min _ _) with (e - 1) by lia. replace (e + k - (k - 52) - (e - 1)) with 53 by lia. cbv zeta. cbv beta iota.
  assert (Z.div_eucl (Z.shiftl (Z.pos m) 53) (Z.pos (2 ^ 52)) = (Z.pos m * 2 ^ 1, 0)) as ->.
  { rewrite Z.shiftl_mul_pow2 by lia. change (Z.pos (2 ^ 52)) with (2 ^ 52). replace (Z.pos m * 2 ^ 53) with (Z.pos m * 2 ^ 1 * 2 ^ 52) by ring.
    pose proof (Z.div_mul (Z.pos m * 2 ^ 1) (2 ^ 52) ltac:(lia)) as H1. pose proof (Z.mod_mul (Z.pos m * 2 ^ 1) (2 ^ 52) ltac:(lia)) as H2.
    unfold Z.div in H1. unfold Z.modulo in H2. by destruct (Z.div_eucl _ _) as [q r]; subst. }
  apply (round_exact s m 1 e Hm); lia.
Qed.

Lemma truncate_exact n m d : 0 < d <= 53 -> Z.pos m = Z.abs n * 2 ^ (53 - d) -> truncate m (d - 53) = Z.abs n.
Proof.
  intros Hd Hm. unfold truncate. rewrite Hm. destruct (Z.leb_spec 0 (d - 53)).
  - replace d with 53 by lia. cbn. lia.
  - replace (- (d - 53)) with (53 - d) by lia. apply Z.div_mul. apply Z.pow_nonzero; lia.
Qed.

(** The integers the raw type holds. *)
Definition in_storage (bits : Z) (is_signed : bool) (v : Z) : Prop :=
  let w := storage_width bits in if is_signed then - 2 ^ (w - 1) <= v < 2 ^ (w - 1) else 0 <= v < 2 ^ w.

Lemma raw_of_physical bits sg k raw : Z.abs raw < 2 ^ 53 -> -900 <= k <= 900 -> in_storage bits sg raw ->
  raw_of bits sg (power_of_two k) double_zero (physical (power_of_two k) double_zero raw) = Some raw.
Proof.
  intros Hr Hk Hs. destruct (decide (raw = 0)) as [->|Hn]; [done|].
  destruct (double_of_int_exact raw Hn Hr) as (m & d & E & Hm & Hd & Em). unfold physical, raw_of, double_zero. rewrite E.
  rewrite times_power by (done || lia). cbn [SFadd SFsub]. rewrite over_power by (done || lia).
  cbn [int_of_double]. rewrite (truncate_exact raw m d Hd Em).
  replace (if raw <? 0 then - Z.abs raw else Z.abs raw) with raw by (destruct (Z.ltb_spec raw 0); lia).
  unfold in_storage in Hs. destruct sg; by rewrite (proj2 (Z.leb_le _ _)), (proj2 (Z.ltb_lt _ _)) by lia.
Qed.

(** ** The field on the wire *)

Definition scaled_value (i : FieldTypeInfo) (raw : Z) : Datum := DReal (physical (fti_field_scale i) (fti_field_offset i) raw).

Definition scaled_ok (i : FieldTypeInfo) (byte_aligned : bool) (d : Datum) (pre post : list bool) : Prop :=
  exists raw, d = scaled_value i raw /\ value_ok (raw_info i) (fti_raw_endian i) raw
    /\ raw_of (fti_raw_bits i) (fti_raw_signed i) (fti_field_scale i) (fti_field_offset i)
         (physical (fti_field_scale i) (fti_field_offset i) raw) = Some raw
    /\ (byte_aligned = true -> length pre mod 8 = 0)%nat.

Lemma raw_not_float i : is_plain_float (raw_info i) = false.
Proof. unfold is_plain_float. by destruct (fti_wire_encoding (raw_info i)). Qed.

Global Instance scaled_codes i b : Codes (scaled_codec i b) (scaled_ok i b).
Proof.
  intros d pre post (raw & -> & Hv & Hr & Ha).
  destruct (number_delivers (raw_info i) (fti_raw_endian i) b raw pre post Hv) as (rc & E & Hf & Hd & _);
    [unfold codec_value; by rewrite raw_not_float|by rewrite raw_not_float, orb_false_r|].
  eexists. split_and!; [cbn; rewrite Hr; done|done|]. cbn [c_decode scaled_codec]. eapply delivers_lift; [exact E|]. by eapply delivers_then.
Qed.

Global Instance scaled_safe i b : TCEq (bool_decide (0 < fti_raw_bits i <= 64)) true -> SafeDecode (scaled_codec i b).
Proof. rewrite TCEq_eq. intros Hb%bool_decide_eq_true. by apply (read_number_safe (raw_info i)). Qed.

(** C9: A field whose scale is a power of two, from 2^-900 to 2^900, and whose offset
    is 0 carries every raw integer of up to 53 bits exactly, if its raw type and wire
    encoding can hold it ([value_ok]: signed words of 16, 32 or 64 bits in big-endian
    order).  The physical value the decoder makes of it, written by the encoder, is
    the same raw integer on the wire, and comes back as the same physical value: the
    multiplication, the division and the truncation lose nothing. *)
Theorem scaled_power_exact (i : FieldTypeInfo) (b : bool) (k raw : Z) (pre post : list bool) :
  fti_field_scale i = power_of_two k -> fti_field_offset i = double_zero -> -900 <= k <= 900 -> Z.abs raw < 2 ^ 53 ->
  in_storage (fti_raw_bits i) (fti_raw_signed i) raw -> value_ok (raw_info i) (fti_raw_endian i) raw ->
  (b = true -> (length pre mod 8 = 0)%nat) ->
  exists rc ops, read_call (raw_info i) (fti_raw_endian i) b = Some rc
    /\ encode_scaled i b (scaled_value i raw) = Some (Ok ops) /\ Forall fits ops
    /\ delivers (read_int rc) ops raw pre post /\ delivers (decode_scaled i b) ops (scaled_value i raw) pre post.
Proof.
  intros Hs Ho Hk Hr Hst Hv Ha.
  assert (raw_of (fti_raw_bits i) (fti_raw_signed i) (fti_field_scale i) (fti_field_offset i)
    (physical (fti_field_scale i) (fti_field_offset i) raw) = Some raw) as He by (rewrite Hs, Ho; by apply raw_of_physical).
  destruct (number_delivers (raw_info i) (fti_raw_endian i) b raw pre post Hv) as (rc & E & Hf & Hd & _);
    [unfold codec_value; by rewrite raw_not_float|by rewrite raw_not_float, orb_false_r|].
  destruct (scaled_codes i b (scaled_value i raw) pre post) as (ops & Ee & Hfit & Hdel); [by exists raw|].
  exists rc, ops. split_and!; try done. cbn in Ee. rewrite He in Ee. by injection Ee as <-.
Qed.

(** Height in units of 1/64 m, 24 bits, signed. *)
Definition height_info : FieldTypeInfo :=
  mkFti "double" false false false false false false 0 false true (power_of_two (-6)) double_zero 24 true EndianBig WireDefault.

Lemma scaled_power_exact_witness :
  exists rc ops, read_call (raw_info height_info) EndianBig true = Some rc
    /\ encode_scaled height_info true (scaled_value height_info (-12345)) = Some (Ok ops) /\ Forall fits ops
    /\ delivers (read_int rc) ops (-12345) [] [true] /\ delivers (decode_scaled height_info true) ops (scaled_value height_info (-12345)) [] [true].
Proof.
  apply (scaled_power_exact height_info true (-6) (-12345) [] [true]); try done; try lia.
Defined.

(** Not so for a decimal scale: 29 hundredths become 28. *)
Definition hundredth : spec_float := SFdiv prec emax (double_of_int 1) (double_of_int 100).
Definition cents_info : FieldTypeInfo :=
  mkFti "double" false false false false false false 0 false true hundredth double_zero 16 false EndianBig WireDefault.

Example decimal_scale_loses_unit :
  c_decode (scaled_codec cents_info true) (new_reader [0; 29]) = Some (Ok (scaled_value cents_info 29), set_byte_pos 2 (new_reader [0; 29]))
  /\ c_encode (scaled_codec cents_info true) (scaled_value cents_info 29) = Some (Ok [WU16 28 Big]).
Proof. split; vm_compute; reflexivity. Qed.
