(* ===== verification/BitmapCodec.v ===== *)
(** * Bitmap structs

    Models [emit_bitmap_struct] and [emit_bitmap_encode_fields] of
    [conduit/bgen/src/codegen/cpp_structs.cpp]: the class of a struct whose fields are
    announced by the bits of a leading bitmap (FSPEC).  The bitmap has as many octets
    as the highest bit needs, or, with an extension bit, as many as the highest field
    that is present needs.  Collecting the fields from the children of the struct,
    the encoder and the decoder.  The classes of nested structs, variants and wrapped
    types are what [class_of], [child_class] and [variant_of] say. *)

From stdpp Require Import base numbers list gmap strings pretty sorting.
From Stdlib Require Import ZArith Lia Floats.SpecFloat.
From S2P Require Import Prelude Bits CoreError Endian BitWriter BitReader BitIO StringEncoding CharConv AutoExpr ExprParser Ast TypeResolver ProtocolIndex Validation Names FieldCodec StructCodec TextCodec TextCodecSpec TextSafety ValueCodec ScaledCodec.

Open Scope Z_scope.
Local Open Scope reader_scope.

(** ** The fields *)

(** The members of an object that have a value, by their names. *)
Notation Members := (gmap string Datum).

(** A nested class: its decoder is given members of the enclosing object. *)
Record NestedClass := mkNestedClass {
  nc_encode : Datum -> option (Result (list WriteOp));
  nc_decode : list Datum -> R Datum
}.

(** A variant: the code that decodes it looks at the members read before. *)
Record VariantCode := mkVariantCode {
  vc_encode : Datum -> option (Result (list WriteOp));
  vc_decode : Members -> R Datum
}.

Inductive BitmapKind :=
  | BChoice (c : VariantCode)
  | BEnum (en : EnumCode)
  | BString (f : Field)
  | BBytes (f : Field)
  | BStruct (c : NestedClass) (params : list string)
  | BScaled (i : FieldTypeInfo)
  | BNumber (i : FieldTypeInfo) (e : Ast.Endian).

Record BitmapField := mkBitmapField { bf_name : string; bf_bit : Z; bf_kind : BitmapKind }.

Definition bf_member (bf : BitmapField) : string := to_member_name (bf_name bf).
Definition bf_octet (bf : BitmapField) : Z := Z.quot (bf_bit bf) 8.
(** The bit of an octet that is sent first is the highest. *)
Definition bf_mask (bf : BitmapField) : Z := Z.shiftl 1 (8 - 1 - Z.rem (bf_bit bf) 8).

Section bitmap.
Variable p : Protocol.
Variable idx : TypeIndex.

(** *** Collecting them *)

Section collect.
(** The enclosing class, the generated classes, and the outer members that a nested
    decoder is given. *)
Variable parent : string.
Variable class_of : string -> NestedClass.
Variable child_class : string -> NestedClass.
Variable variant_of : ChoiceDef -> VariantCode.
Variable decode_params : string -> list string.

Definition field_kind (f : Field) : option BitmapKind :=
  i ← resolve_field_type p idx f;
  if match f_enum_values f with [] => false | _ => true end && String.eqb (f_type_ref f) ""
  then Some (BEnum (inline_enum (to_pascal_case parent +:+ "_" +:+ to_pascal_case (f_name f)) f))
  else if fti_is_enum i then t ← type_at p idx (f_type_ref f); t ← t; Some (BEnum (declared_enum t))
  else if fti_is_string i then Some (BString f)
  else if fti_is_bytes i then Some (BBytes f)
  else if fti_is_struct i then Some (BStruct (class_of (fti_cpp_type i)) (decode_params (f_name f)))
  else if fti_has_field_scale i then Some (BScaled i)
  else Some (BNumber i (f_endian f)).

(** Fields, structs and variants with a bit; nothing else is collected. *)
Definition bitmap_field (c : StructChild) : option (list BitmapField) :=
  match c with
  | ChField f => match f_bit f with Some b => k ← field_kind f; Some [mkBitmapField (f_name f) b k] | None => Some [] end
  | ChStruct s =>
      match sd_bit s with
      | Some b => Some [mkBitmapField (sd_name s) b (BStruct (child_class (sd_name s)) (decode_params (sd_name s)))]
      | None => Some []
      end
  | ChChoice c => match ch_bit c with Some b => Some [mkBitmapField (ch_name c) b (BChoice (variant_of c))] | None => Some [] end
  | ChArray _ | ChFx _ | ChReserved _ | ChAlign _ => Some []
  end.

Definition bitmap_fields (s : StructDef) : option (list BitmapField) := mjoin <$> mapM bitmap_field (sd_children s).
End collect.

(** ** One field *)

Definition encode_bitmap_string (f : Field) (s : list Z) : option (list WriteOp) :=
  if field_needs_encoding f then
    let wire := from_ascii s (field_encoding_enum f) in
    match f_length f with
    | Some n => pad ← resolve_padding_char p idx f; Some [WString wire (Z.to_nat (sz n)) pad]
    | None => Some [whole_string wire]
    end
  else match f_length f with
       | Some n => Some [WString s (Z.to_nat (sz n)) 0]
       | None => Some [whole_string s]
       end.

Definition encode_bitmap_bytes (f : Field) (s : list Z) : option (list WriteOp) :=
  match f_length f, f_bytes_attr f with
  | Some n, _ | None, Some n => span ← subspan s 0 (sz n); Some [WBytes span]
  | None, None => Some [WBytes s]
  end.

(** What the emitter keeps of the type of a number. *)
Definition number_of (i : FieldTypeInfo) : FieldTypeInfo :=
  mkFti (fti_cpp_type i) false false false false (fti_is_float i) false (fti_bits i) (fti_is_signed i) false double_one double_zero 0
    false EndianBig (fti_wire_encoding i).

Definition encode_kind (k : BitmapKind) (d : Datum) : option (Result (list WriteOp)) :=
  match k with
  | BChoice c => vc_encode c d
  | BEnum en => encode_enum en d
  | BString f => match d with DText s => Ok <$> encode_bitmap_string f s | _ => None end
  | BBytes f => match d with DText s => Ok <$> encode_bitmap_bytes f s | _ => None end
  | BStruct c _ => nc_encode c d
  | BScaled i => encode_scaled i true d
  | BNumber i e => encode_plain (number_of i) e true d
  end.

Definition decode_bitmap_string (f : Field) : R Datum := fun r =>
  (let! s := read_string match f_length f with Some n => sz n | None => remaining_bytes r end in
   let! s := lift (emit_field_trim p idx f (if field_needs_encoding f then to_ascii s (field_encoding_enum f) else s)) in
   ret (DText s)) r.

Definition decode_bitmap_bytes (f : Field) : R Datum := fun r =>
  match f_length f, f_bytes_attr f with
  | Some n, _ | None, Some n => (let! s := read_bytes (sz n) in let! s := lift (copy_into (new_bytes f) s) in ret (DText s)) r
  | None, None => (let! s := read_bytes (remaining_bytes r) in ret (DText s)) r
  end.

Definition decode_bitmap_number (i : FieldTypeInfo) (e : Ast.Endian) : R Datum :=
  let! c := lift (read_call (number_of i) e true) in
  let! v := read_int c in
  ret (DInt (cast_member i v)).

(** The outer members of a nested decoder: each must be there. *)
Fixpoint outer_members (name : string) (params : list string) (result : Members) : R (list Datum) :=
  match params with
  | [] => ret []
  | q :: params =>
      match result !! to_member_name q with
      | None => throw InvalidArgument (name +:+ " requires " +:+ q)
      | Some d => let! ds := outer_members name params result in ret (d :: ds)
      end
  end.

Definition decode_kind (name : string) (k : BitmapKind) (result : Members) : R Datum :=
  match k with
  | BChoice c => vc_decode c result
  | BEnum en => decode_enum en
  | BString f => decode_bitmap_string f
  | BBytes f => decode_bitmap_bytes f
  | BStruct c params => let! ds := outer_members name params result in nc_decode c ds
  | BScaled i => decode_scaled i true
  | BNumber i e => decode_bitmap_number i e
  end.

(** ** The order of the fields *)

Definition before (a b : BitmapField) : Prop :=
  bf_octet a < bf_octet b \/ (bf_octet a = bf_octet b /\ bf_bit a <= bf_bit b).

Global Instance before_dec : RelDecision before.
Proof. unfold before. solve_decision. Defined.

(** [std::sort]; only fields with the same bit could change places. *)
Definition wire_order (l : list BitmapField) : list BitmapField := merge_sort before l.

(** ** Encoding *)

Definition has_value (o : Members) (bf : BitmapField) : bool := is_some (o !! bf_member bf).

(** [fspec[i] |= mask;] *)
Definition set_octet (i mask : Z) (fspec : list Z) : option (list Z) :=
  if 0 <=? i then x ← fspec !! Z.to_nat i; Some (<[Z.to_nat i := u8 (Z.lor x mask)]> fspec) else None.

Fixpoint set_present (o : Members) (l : list BitmapField) (fspec : list Z) : option (list Z) :=
  match l with
  | [] => Some fspec
  | bf :: l =>
      fspec ← (if has_value o bf then set_octet (bf_octet bf) (bf_mask bf) fspec else Some fspec);
      set_present o l fspec
  end.

Definition max_bit (l : list BitmapField) : Z := foldl (fun m bf => Z.max m (bf_bit bf)) 0 l.
Definition num_octets (l : list BitmapField) : nat := Z.to_nat (Z.quot (max_bit l) 8 + 1).

Definition last_octet (o : Members) (l : list BitmapField) : Z :=
  foldl (fun last bf => if has_value o bf && (last <? bf_octet bf) then bf_octet bf else last) 0 l.

(** [1 << (7 - ext)] *)
Definition ext_mask (ext : Z) : option Z := if (0 <=? 7 - ext) && (7 - ext <? 32) then Some (Z.shiftl 1 (8 - 1 - ext)) else None.

Fixpoint set_ext (n : nat) (ext : Z) (fspec : list Z) : option (list Z) :=
  match n, fspec with
  | S n, x :: fspec => mask ← ext_mask ext; rest ← set_ext n ext fspec; Some (u8 (Z.lor x mask) :: rest)
  | _, _ => Some fspec
  end.

(** [std::reverse] of the first [n] octets. *)
Definition reverse_first (n : nat) (fspec : list Z) : option (list Z) :=
  if (n <=? length fspec)%nat then Some (reverse (take n fspec) ++ drop n fspec) else None.

Definition is_little (e : Ast.Endian) : bool := match e with EndianLittle => true | EndianBig => false end.

Definition encode_fspec (ext : option Z) (e : Ast.Endian) (l : list BitmapField) (o : Members) : option (list Z) :=
  fspec ← set_present o l (replicate (num_octets l) 0);
  match ext with
  | Some ext =>
      let last := Z.to_nat (last_octet o l) in
      let n := Nat.min (last + 1) (num_octets l) in
      fspec ← set_ext (Nat.min last (num_octets l)) ext fspec;
      fspec ← (if is_little e then reverse_first n fspec else Some fspec);
      Some (take n fspec)
  | None => if is_little e then reverse_first (num_octets l) fspec else Some fspec
  end.

(** Fields outside of the octets are passed over. *)
Fixpoint encode_bitmap_fields (to_oct : Z) (o : Members) (l : list BitmapField) : option (Result (list WriteOp)) :=
  match l with
  | [] => Some (Ok [])
  | bf :: l =>
      if (bf_octet bf <? 0) || (to_oct <? bf_octet bf) then encode_bitmap_fields to_oct o l
      else match o !! bf_member bf with
           | None => encode_bitmap_fields to_oct o l
           | Some d =>
               res ← encode_kind (bf_kind bf) d;
               match res with
               | Fail err => Some (Fail err)
               | Ok ops =>
                   res ← encode_bitmap_fields to_oct o l;
                   Some (match res with Ok ops' => Ok (ops ++ ops') | Fail err => Fail err end)
               end
           end
  end.

Definition encode_bitmap (ext : option Z) (e : Ast.Endian) (l : list BitmapField) (o : Members) : option (Result (list WriteOp)) :=
  fspec ← encode_fspec ext e l o;
  res ← encode_bitmap_fields (Z.quot (max_bit l) 8) o (wire_order l);
  Some (match res with Ok ops => Ok (WBytes fspec :: ops) | Fail err => Fail err end).

(** ** Decoding *)

(** The octets up to the first without the extension bit; those there is no room
    for are counted and dropped. *)
Fixpoint read_octets_ext (fuel : nat) (ext : Z) (fspec : list Z) (n : nat) : R (list Z * nat) :=
  match fuel with
  | O => lift None
  | S fuel =>
      let! b := read_u8 in
      let fspec := <[n := b]> fspec in
      let! mask := lift (ext_mask ext) in
      if Z.land b mask =? 0 then ret (fspec, S n) else read_octets_ext fuel ext fspec (S n)
  end.

Fixpoint read_octets (n : nat) : R (list Z) :=
  match n with
  | O => ret []
  | S n => let! b := read_u8 in let! l := read_octets n in ret (b :: l)
  end.

(** Each round reads an octet, so the buffer is a bound for them. *)
Definition decode_fspec (ext : option Z) (e : Ast.Endian) (num : nat) : R (list Z * nat) := fun r =>
  (let! x := match ext with
             | Some ext => read_octets_ext (S (length (rdata_ r))) ext (replicate num 0) 0
             | None => let! l := read_octets num in ret (l, num)
             end in
   let '(fspec, n) := x in
   let! fspec := lift (if is_little e then reverse_first n fspec else Some fspec) in
   ret (fspec, n)) r.

(** [fspec_len > i && (fspec[i] & mask)] *)
Definition announced (fspec : list Z) (n : nat) (bf : BitmapField) : option bool :=
  if (bf_octet bf <? 0) || (Z.of_nat n <=? bf_octet bf) then Some false
  else x ← fspec !! Z.to_nat (bf_octet bf); Some (negb (Z.land x (bf_mask bf) =? 0)).

Fixpoint decode_bitmap_fields (fspec : list Z) (n : nat) (l : list BitmapField) (result : Members) : R Members :=
  match l with
  | [] => ret result
  | bf :: l =>
      let! there := lift (announced fspec n bf) in
      if there then
        let! d := decode_kind (bf_name bf) (bf_kind bf) result in
        decode_bitmap_fields fspec n l (<[bf_member bf := d]> result)
      else decode_bitmap_fields fspec n l result
  end.

Definition decode_bitmap (ext : option Z) (e : Ast.Endian) (l : list BitmapField) : R Members :=
  let! x := decode_fspec ext e (num_octets l) in
  let '(fspec, n) := x in
  decode_bitmap_fields fspec n (wire_order l) ∅.

(** The class, as others use it. *)
Definition bitmap_class (ext : option Z) (e : Ast.Endian) (l : list BitmapField) : NestedClass :=
  mkNestedClass (fun d => match d with DObject o => encode_bitmap ext e l o | _ => None end)
    (fun _ => fmap_R DObject (decode_bitmap ext e l)).
End bitmap.
