(* ===== verification/BitmapSpec.v ===== *)
(** * Bitmaps announce what follows

    Proves of [BitmapCodec] that the octets of the bitmap say exactly which members
    have a value, and that the fields behind them come back. *)

From stdpp Require Import base numbers list gmap strings pretty sorting.
From Stdlib Require Import ZArith Lia Floats.SpecFloat.
From S2P Require Import Prelude Bits CoreError Endian BitWriter BitReader BitIO StringEncoding CharConv AutoExpr ExprParser Ast TypeResolver ProtocolIndex Validation Names TypeChecks FieldCodec StructCodec TextCodec TextCodecSpec TextRoundtrip TextSafety ValueCodec ScaledCodec BitmapCodec.

Open Scope Z_scope.
Local Open Scope reader_scope.

(** ** The bits of the octets *)

Lemma land_shifted_bit x k : 0 <= k -> (Z.land x (Z.shiftl 1 k) =? 0) = negb (Z.testbit x k).
Proof.
  intros Hk. rewrite Z.shiftl_1_l. destruct (Z.testbit x k) eqn:E.
  - apply Z.eqb_neq. intros H. apply (f_equal (fun y => Z.testbit y k)) in H.
    rewrite Z.land_spec, E, Z.pow2_bits_true, Z.bits_0 in H by done. done.
  - apply Z.eqb_eq. apply Z.bits_inj'. intros n Hn. rewrite Z.land_spec, Z.pow2_bits_eqb, Z.bits_0 by done.
    destruct (Z.eqb_spec k n) as [->|]; [by rewrite E|by rewrite andb_false_r].
Qed.

(** The bits that are set: bit 0 is the highest of the first octet. *)
Definition shows (fspec : list Z) (bs : list Z) : Prop :=
  Forall is_byte fspec
  /\ forall i x j, fspec !! i = Some x -> 0 <= j < 8 -> Z.testbit x j = bool_decide (8 * Z.of_nat i + 7 - j ∈ bs).

Lemma shows_zeros n : shows (replicate n 0) [].
Proof.
  split; [apply Forall_replicate; unfold is_byte; lia|]. intros i x j [-> _]%lookup_replicate Hj. rewrite Z.bits_0. by rewrite bool_decide_false by set_solver.
Qed.

Lemma shows_proper fspec bs bs' : (forall b, b ∈ bs <-> b ∈ bs') -> shows fspec bs -> shows fspec bs'.
Proof. intros H [Hb Hs]. split; [done|]. intros i x j Hx Hj. rewrite (Hs i x j Hx Hj). by apply bool_decide_ext. Qed.

Lemma shows_bit fspec bs b x : shows fspec bs -> 0 <= b -> fspec !! Z.to_nat (Z.quot b 8) = Some x ->
  (Z.land x (Z.shiftl 1 (8 - 1 - Z.rem b 8)) =? 0) = negb (bool_decide (b ∈ bs)).
Proof.
  intros [_ H] Hb Hx. rewrite Z.quot_div_nonneg in Hx by lia. rewrite Z.rem_mod_nonneg by lia. pose proof (Z.mod_pos_bound b 8).
  rewrite land_shifted_bit, (H _ _ _ Hx) by lia. pose proof (Z.div_mod b 8 ltac:(lia)). pose proof (Z.div_pos b 8 Hb ltac:(lia)).
  by replace (8 * Z.of_nat (Z.to_nat (b / 8)) + 7 - (8 - 1 - b mod 8)) with b by lia.
Qed.

Lemma byte_with_bit x k : is_byte x -> 0 <= k < 8 -> is_byte (Z.lor x (Z.shiftl 1 k)).
Proof.
  unfold is_byte. intros Hx Hk. rewrite Z.shiftl_1_l. assert (0 <= Z.lor x (2 ^ k)) by (apply Z.lor_nonneg; split; [lia|apply Z.pow_nonneg; lia]).
  split; [done|]. destruct (decide (Z.lor x (2 ^ k) = 0)) as [->|]; [lia|]. change 256 with (2 ^ 8). apply Z.log2_lt_pow2; [lia|].
  rewrite Z.log2_lor, Z.log2_pow2 by (try apply Z.pow_nonneg; lia). apply Z.max_lub_lt; [|lia].
  destruct (decide (x = 0)) as [->|]; [cbn; lia|]. apply Z.log2_lt_pow2; lia.
Qed.

(** Setting a bit of one octet. *)
Lemma shows_set fspec bs i x k : shows fspec bs -> fspec !! i = Some x -> 0 <= k < 8 ->
  shows (<[i := u8 (Z.lor x (Z.shiftl 1 (7 - k)))]> fspec) ((8 * Z.of_nat i + k) :: bs).
Proof.
  intros [Hb Hs] Hx Hk. assert (is_byte (Z.lor x (Z.shiftl 1 (7 - k)))) as Hy
    by (apply byte_with_bit; [exact (Forall_lookup_1 _ _ _ _ Hb Hx)|lia]).
  unfold u8. rewrite wrap_small by exact Hy. split; [by apply Forall_insert|]. intros i' x' j Hx' Hj.
  destruct (decide (i = i')) as [<-|Hn].
  - rewrite list_lookup_insert_eq in Hx' by (by eapply lookup_lt_Some). injection Hx' as <-.
    rewrite Z.lor_spec, (Hs i x j Hx Hj), Z.shiftl_1_l, Z.pow2_bits_eqb by lia. apply eq_true_iff_eq.
    rewrite orb_true_iff, !bool_decide_eq_true, Z.eqb_eq, elem_of_cons. split; intros [?|?]; [right|left|right|left]; try done; lia.
  - rewrite list_lookup_insert_ne in Hx' by done. rewrite (Hs i' x' j Hx' Hj). apply bool_decide_ext. rewrite elem_of_cons.
    split; [by right|]. intros [?|?]; [lia|done].
Qed.

(** ** The octets an encoder makes *)

Section fields.
Context (o : Members).

Definition present_bits (l : list BitmapField) : list Z := bf_bit <$> filter (fun bf => has_value o bf = true) l.

Lemma elem_of_present_bits l b : b ∈ present_bits l <-> exists bf, bf ∈ l /\ has_value o bf = true /\ bf_bit bf = b.
Proof. unfold present_bits. rewrite list_elem_of_fmap. setoid_rewrite list_elem_of_filter. naive_solver. Qed.

Lemma max_bit_from l : forall m, m <= foldl (fun m bf => Z.max m (bf_bit bf)) m l
  /\ Forall (fun bf => bf_bit bf <= foldl (fun m bf => Z.max m (bf_bit bf)) m l) l.
Proof.
  induction l as [|bf l IH]; intros m; cbn [foldl]; [split; [lia|done]|]. destruct (IH (Z.max m (bf_bit bf))) as [H1 H2].
  split; [lia|]. constructor; [lia|done].
Qed.

Lemma octet_in_range l bf : bf ∈ l -> 0 <= bf_bit bf -> 0 <= bf_octet bf /\ (Z.to_nat (bf_octet bf) < num_octets l)%nat.
Proof.
  intros Hin Hb. destruct (max_bit_from l 0) as [H1 H2]. rewrite Forall_forall in H2. specialize (H2 bf Hin). fold (max_bit l) in *.
  unfold bf_octet, num_octets. rewrite !Z.quot_div_nonneg by lia. pose proof (Z.div_le_mono (bf_bit bf) (max_bit l) 8). pose proof (Z.div_pos (bf_bit bf) 8). lia.
Qed.

Lemma set_present_shows l : forall fspec bs, shows fspec bs ->
  Forall (fun bf => 0 <= bf_bit bf /\ (Z.to_nat (bf_octet bf) < length fspec)%nat) l ->
  exists fspec', set_present o l fspec = Some fspec' /\ length fspec' = length fspec /\ shows fspec' (present_bits l ++ bs).
Proof.
  induction l as [|bf l IH]; intros fspec bs Hs Hl; [by exists fspec|]. apply Forall_cons in Hl as [[Hb Ho] Hl]. cbn [set_present].
  assert (exists fs bs', (if has_value o bf then set_octet (bf_octet bf) (bf_mask bf) fspec else Some fspec) = Some fs
    /\ length fs = length fspec /\ shows fs bs' /\ forall b, b ∈ bs' <-> has_value o bf = true /\ b = bf_bit bf \/ b ∈ bs) as (fs & bs' & -> & El & Hfs & Hbs).
  { destruct (has_value o bf); [|exists fspec, bs; split_and!; [done..|]; naive_solver]. unfold set_octet, bf_octet, bf_mask in *.
    destruct (lookup_lt_is_Some_2 _ _ Ho) as [x Hx]. rewrite Z.quot_div_nonneg, Z.rem_mod_nonneg in * by lia.
    rewrite (proj2 (Z.leb_le 0 _)) by (apply Z.div_pos; lia). rewrite Hx. cbn [mbind option_bind].
    replace (8 - 1 - bf_bit bf mod 8) with (7 - bf_bit bf mod 8) by lia.
    eexists _, _. split; [done|]. split; [apply length_insert|]. pose proof (Z.mod_pos_bound (bf_bit bf) 8 ltac:(lia)).
    split; [apply shows_set; [done..|lia]|]. intros b. rewrite elem_of_cons, Z2Nat.id by (apply Z.div_pos; lia).
    rewrite <- Z.div_mod by lia. naive_solver. }
  cbn [mbind option_bind]. destruct (IH fs bs' Hfs) as (fspec' & -> & El' & Hs'); [by rewrite El|].
  exists fspec'. split_and!; [done|lia|]. revert Hs'. apply shows_proper. intros b. rewrite !elem_of_app, Hbs, !elem_of_present_bits.
  setoid_rewrite elem_of_cons. naive_solver.
Qed.

Lemma last_octet_from l : forall m, let last := foldl (fun last bf => if has_value o bf && (last <? bf_octet bf) then bf_octet bf else last) m l in
  m <= last /\ (forall bf, bf ∈ l -> has_value o bf = true -> bf_octet bf <= last)
  /\ (last = m \/ exists bf, bf ∈ l /\ has_value o bf = true /\ last = bf_octet bf).
Proof.
  induction l as [|bf l IH]; intros m; cbn [foldl]; cbv zeta; [split_and!; [lia|set_solver|by left]|].
  specialize (IH (if has_value o bf && (m <? bf_octet bf) then bf_octet bf else m)). cbv zeta in IH. destruct IH as (H1 & H2 & H3).
  setoid_rewrite elem_of_cons. destruct (has_value o bf) eqn:E; cbn [andb] in *; [destruct (Z.ltb_spec m (bf_octet bf))|].
  all: split_and!; [lia| |]; [intros bf' [->|Hin] Hv; [|by apply H2]; try congruence; lia|]; naive_solver.
Qed.

Lemma set_ext_lookup e mask : ext_mask e = Some mask -> forall fspec n,
  exists fspec', set_ext n e fspec = Some fspec' /\ length fspec' = length fspec
    /\ forall i, fspec' !! i = (fun x => if (i <? n)%nat then u8 (Z.lor x mask) else x) <$> fspec !! i.
Proof.
  intros Hm. induction fspec as [|x fspec IH]; intros [|n]; cbn [set_ext].
  1-3: eexists; split_and!; [done..|]; intros [|i]; cbn; try done; by destruct (fspec !! i).
  rewrite Hm. destruct (IH n) as (fs & -> & El & Hfs). eexists. split_and!; [done|cbn; by rewrite El|]. intros [|i]; [done|apply Hfs].
Qed.

Lemma set_ext_shows n e fspec bs : shows fspec bs -> 0 <= e < 8 ->
  exists fspec', set_ext n e fspec = Some fspec' /\ length fspec' = length fspec
    /\ shows fspec' (((fun i : nat => 8 * Z.of_nat i + e) <$> seq 0 n) ++ bs).
Proof.
  intros Hs He. assert (ext_mask e = Some (Z.shiftl 1 (7 - e))) as Hm
    by (unfold ext_mask; rewrite (proj2 (Z.leb_le _ _)), (proj2 (Z.ltb_lt _ 32)) by lia; cbn [andb]; do 2 f_equal; lia).
  destruct (set_ext_lookup e _ Hm fspec n) as (fs & E & El & Hfs). exists fs. split_and!; [done|done|].
  assert (forall i x, fs !! i = Some x -> is_byte x /\ forall j, 0 <= j < 8 ->
    Z.testbit x j = bool_decide (8 * Z.of_nat i + 7 - j ∈ ((fun i : nat => 8 * Z.of_nat i + e) <$> seq 0 n) ++ bs)) as H.
  { intros i x Hx. rewrite Hfs in Hx. destruct (fspec !! i) as [y|] eqn:Ey; [|done]. injection Hx as <-.
    pose proof (Forall_lookup_1 _ _ _ _ (proj1 Hs) Ey) as Hy. pose proof (proj2 Hs i y) as Ht.
    assert (forall j, 0 <= j < 8 -> 8 * Z.of_nat i + 7 - j ∈ ((fun i : nat => 8 * Z.of_nat i + e) <$> seq 0 n) ++ bs
      <-> (i < n)%nat /\ j = 7 - e \/ 8 * Z.of_nat i + 7 - j ∈ bs) as Hin.
    { intros j Hj. rewrite elem_of_app, list_elem_of_fmap. setoid_rewrite elem_of_seq. split; (intros [H|H]; [left|by right]).
      - destruct H as (i' & Ei & Hi'). assert (i = i') as <- by lia. lia.
      - exists i. lia. }
    destruct (Nat.ltb_spec i n).
    - pose proof (byte_with_bit y (7 - e) Hy ltac:(lia)) as Hz. unfold u8. rewrite wrap_small by exact Hz. split; [done|]. intros j Hj.
      rewrite Z.lor_spec, (Ht j Ey Hj), Z.shiftl_1_l, Z.pow2_bits_eqb by lia. apply eq_true_iff_eq.
      rewrite orb_true_iff, !bool_decide_eq_true, Z.eqb_eq, (Hin j Hj). split; intros [?|?]; [by right|left; lia|right; lia|by left].
    - split; [done|]. intros j Hj. rewrite (Ht j Ey Hj). apply bool_decide_ext. rewrite (Hin j Hj). split; [by right|]. intros [?|?]; [lia|done]. }
  split; [apply Forall_lookup_2; intros i x Hx; by apply (H i x)|]. intros i x j Hx Hj. by apply (H i x).
Qed.
End fields.

(** ** The octets a decoder reads *)

Lemma read_octets_read l : l <> [] -> Forall is_byte l -> byte_read (read_octets (length l)) l l.
Proof.
  induction l as [|b l IH]; intros Hn Hl; [done|]. apply Forall_cons in Hl as [Hb Hl]. cbn [read_octets length].
  destruct l as [|b' l]; [by eapply byte_read_then; [apply read_u8_read|]|].
  apply (byte_read_bind _ _ [b] (b' :: l) b); [by apply read_u8_read|]. eapply byte_read_then; [by apply IH|done].
Qed.

(** Octets that continue, and one that does not. *)
Lemma read_octets_ext_read ext mask num l : ext_mask ext = Some mask -> forall fuel done x,
  Forall is_byte (l ++ [x]) -> Forall (fun b => Z.land b mask <> 0) l -> Z.land x mask = 0 ->
  (length done + length l < num)%nat -> (length l < fuel)%nat ->
  byte_read (read_octets_ext fuel ext (done ++ replicate (num - length done) 0) (length done)) (l ++ [x])
    ((done ++ l ++ [x]) ++ replicate (num - length (done ++ l ++ [x])) 0, length (done ++ l ++ [x])).
Proof.
  intros Hm. assert (forall done (b : Z), (length done < num)%nat ->
    <[length done := b]> (done ++ replicate (num - length done) 0) = (done ++ [b]) ++ replicate (num - length (done ++ [b])) 0) as Hins.
  { intros done b Hd. rewrite insert_app_r_alt, Nat.sub_diag by done. rewrite insert_replicate_lt by lia.
    rewrite length_app, <- app_assoc. cbn. do 3 f_equal. lia. }
  induction l as [|b l IH]; intros [|fuel] done x Hb Hl Hx Hn Hf; cbn [length] in *; try lia; cbn [read_octets_ext].
  - apply Forall_cons in Hb as [Hb _]. eapply byte_read_then; [by apply read_u8_read|]. intros r. unfold bind, lift. rewrite Hm. cbn [mbind option_bind].
    rewrite Hx. cbn. rewrite Hins, length_app by lia. cbn. by rewrite Nat.add_1_r.
  - assert (is_byte b /\ Forall is_byte (l ++ [x])) as [Hb' Hbs] by (by apply Forall_cons in Hb). apply Forall_cons in Hl as [Hnz Hl].
    change ((b :: l) ++ [x]) with ([b] ++ l ++ [x]). apply (byte_read_bind _ _ [b] (l ++ [x]) b); [by apply read_u8_read|]. rewrite Hm. apply byte_read_lift.
    rewrite (proj2 (Z.eqb_neq _ _) Hnz), Hins by lia. rewrite (app_assoc done [b]).
    assert (length (done ++ [b]) = S (length done)) as El by (rewrite length_app; cbn; lia). rewrite <- El. apply IH; try done; lia.
Qed.

(** ** The bitmap as a whole *)

(** Fields with bits and names of their own, none of them on the extension bit.  An
    extensible bitmap has its octets in order. *)
Record sound_layout (ext : option Z) (e : Ast.Endian) (l : list BitmapField) : Prop := {
  layout_bits : Forall (fun bf => 0 <= bf_bit bf) l;
  layout_apart : NoDup (bf_bit <$> l);
  layout_names : NoDup (bf_member <$> l);
  layout_ext : match ext with
               | Some x => 0 <= x < 8 /\ Forall (fun bf => Z.rem (bf_bit bf) 8 <> x) l /\ e = EndianBig
               | None => True
               end
}.

Lemma present_own_bit o l bf : NoDup (bf_bit <$> l) -> bf ∈ l -> bool_decide (bf_bit bf ∈ present_bits o l) = has_value o bf.
Proof.
  intros Hd Hin. apply eq_true_iff_eq. rewrite bool_decide_eq_true, elem_of_present_bits. split; [|by eauto].
  intros (bf' & Hin' & Hv & Eb). assert (bf' = bf) as ->; [|done].
  apply list_elem_of_lookup in Hin as [i Hi]. apply list_elem_of_lookup in Hin' as [j Hj].
  assert (i = j) as <-; [|congruence]. apply (NoDup_lookup (bf_bit <$> l) i j (bf_bit bf) Hd); rewrite list_lookup_fmap.
  - by rewrite Hi.
  - rewrite Hj. cbn. by rewrite Eb.
Qed.

Lemma announced_at fs fspec bs n bf : shows fspec bs -> 0 <= bf_bit bf -> (Z.to_nat (bf_octet bf) < length fspec)%nat ->
  bf_octet bf < Z.of_nat n -> fs !! Z.to_nat (bf_octet bf) = fspec !! Z.to_nat (bf_octet bf) ->
  announced fs n bf = Some (bool_decide (bf_bit bf ∈ bs)).
Proof.
  intros Hs Hb Hl Hn E. destruct (lookup_lt_is_Some_2 _ _ Hl) as [x Hx]. unfold announced. rewrite E, Hx.
  assert (0 <= bf_octet bf) by (unfold bf_octet; rewrite Z.quot_div_nonneg by lia; apply Z.div_pos; lia).
  rewrite (proj2 (Z.ltb_ge _ 0)), (proj2 (Z.leb_gt _ _)) by lia. cbn [orb mbind option_bind]. unfold bf_mask.
  rewrite (shows_bit fspec bs) by done. by rewrite negb_involutive.
Qed.

Section layout.
Context (ext : option Z) (e : Ast.Endian) (l : list BitmapField) (o : Members).
Hypothesis layout : sound_layout ext e l.

Lemma layout_octet bf : bf ∈ l -> 0 <= bf_bit bf /\ 0 <= bf_octet bf /\ (Z.to_nat (bf_octet bf) < num_octets l)%nat.
Proof.
  intros Hin. pose proof (proj1 (Forall_forall _ _) (layout_bits _ _ _ layout) bf Hin) as Hb. cbn beta in Hb. split; [done|]. by apply octet_in_range.
Qed.

Lemma present_octets : exists fspec, set_present o l (replicate (num_octets l) 0) = Some fspec /\ length fspec = num_octets l
  /\ shows fspec (present_bits o l).
Proof.
  destruct (set_present_shows o l (replicate (num_octets l) 0) [] (shows_zeros _)) as (fspec & E & El & Hs).
  - apply Forall_forall. intros bf Hin. rewrite length_replicate. split; by apply layout_octet.
  - exists fspec. rewrite length_replicate in El. rewrite app_nil_r in Hs. done.
Qed.

Lemma num_octets_pos : (0 < num_octets l)%nat.
Proof. unfold num_octets. destruct (max_bit_from l 0) as [H _]. fold (max_bit l) in H. rewrite Z.quot_div_nonneg by lia. pose proof (Z.div_pos (max_bit l) 8). lia. Qed.

Definition bitmap_agrees : Prop :=
  exists fspec fs n, encode_fspec ext e l o = Some fspec /\ Forall is_byte fspec /\ byte_read (decode_fspec ext e (num_octets l)) fspec (fs, n)
    /\ forall bf, bf ∈ l -> announced fs n bf = Some (has_value o bf).

Lemma plain_bitmap_agrees : ext = None -> bitmap_agrees.
Proof.
  intros Ex. destruct present_octets as (fspec & E & El & Hs). pose proof num_octets_pos as Hpos.
  assert (forall bf, bf ∈ l -> announced fspec (num_octets l) bf = Some (has_value o bf)) as Ha.
  { intros bf Hin. destruct (layout_octet bf Hin) as (Hb & H0 & Ho).
    rewrite (announced_at fspec fspec (present_bits o l)) by (done || lia). by rewrite present_own_bit by (done || apply layout). }
  assert (forall out, Forall is_byte out -> length out = num_octets l ->
    (if is_little e then reverse_first (num_octets l) out else Some out) = Some fspec ->
    byte_read (decode_fspec ext e (num_octets l)) out (fspec, num_octets l)) as Hread.
  { intros out Hout Hl Er. unfold decode_fspec. rewrite Ex. intros r. revert r. change (byte_read (bind (let! l0 := read_octets (num_octets l) in ret (l0, num_octets l))
      (fun x => let '(fs, n) := x in let! fs := lift (if is_little e then reverse_first n fs else Some fs) in ret (fs, n))) out (fspec, num_octets l)).
    eapply byte_read_then; [eapply byte_read_then; [rewrite <- Hl; apply read_octets_read|]|]; [by destruct out; cbn in *; [lia|]|done|done|].
    intros r. cbn beta iota. by rewrite Er. }
  assert (forall x, length x = num_octets l -> reverse_first (num_octets l) x = Some (reverse x)) as Hrev.
  { intros x Hx. unfold reverse_first. rewrite Hx, Nat.leb_refl, take_ge, drop_ge, app_nil_r by lia. done. }
  destruct Hs as [Hbytes Hs]. unfold bitmap_agrees, encode_fspec. rewrite E, Ex. cbn [mbind option_bind].
  rewrite <- Ex. destruct e eqn:Ee; cbn [is_little] in *.
  - exists fspec, fspec, (num_octets l). split_and!; [done|done|by apply Hread|done].
  - exists (reverse fspec), fspec, (num_octets l). split_and!; [by apply Hrev|by apply Forall_reverse| |done].
    apply Hread; [by apply Forall_reverse|by rewrite length_reverse|]. rewrite Hrev, reverse_involutive by (by rewrite length_reverse). done.
Qed.

Lemma last_octet_range : 0 <= last_octet o l /\ (Z.to_nat (last_octet o l) < num_octets l)%nat
  /\ forall bf, bf ∈ l -> has_value o bf = true -> bf_octet bf <= last_octet o l.
Proof.
  destruct (last_octet_from o l 0) as (H1 & H2 & H3). fold (last_octet o l) in *. split_and!; [done| |done].
  destruct H3 as [->|(bf & Hin & _ & ->)]; [apply num_octets_pos|by apply layout_octet].
Qed.

Lemma cursor_data_length r pre skip out post : cursor r pre (skip ++ bytes_bits out ++ post) -> (length out <= length (rdata_ r))%nat.
Proof.
  intros Hc. pose proof (f_equal length (cursor_bits _ _ _ Hc)) as H. rewrite !length_app, !length_bytes_bits in H. lia.
Qed.

(** The octets up to the last that is needed, the extension bit in all but that one. *)
Lemma extended_octets x : ext = Some x -> exists fs y, let last := Z.to_nat (last_octet o l) in
  let mask := Z.shiftl 1 (8 - 1 - x) in
  encode_fspec ext e l o = Some (take last fs ++ [y]) /\ Forall is_byte fs /\ length fs = num_octets l /\ fs !! last = Some y
  /\ Forall (fun b => Z.land b mask <> 0) (take last fs) /\ Z.land y mask = 0
  /\ forall bf, bf ∈ l -> bf_octet bf <= last_octet o l -> announced fs (last + 1) bf = Some (has_value o bf).
Proof.
  intros Ex. pose proof (layout_ext _ _ _ layout) as H. rewrite Ex in H. destruct H as (Hx & Hmod & He). rewrite Forall_forall in Hmod.
  destruct present_octets as (fspec & E & El & Hs). destruct last_octet_range as (H0 & Hlast & _). set (last := Z.to_nat (last_octet o l)) in *.
  destruct (set_ext_shows last x fspec _ Hs Hx) as (fs & Es & Els & Hfs). set (bs := _ ++ present_bits o l) in Hfs. rewrite El in Els.
  assert (forall i b, fs !! i = Some b -> (Z.land b (Z.shiftl 1 (8 - 1 - x)) =? 0) = negb (bool_decide (8 * Z.of_nat i + x ∈ bs))) as Hext.
  { intros i b Hb. replace x with (Z.rem (8 * Z.of_nat i + x) 8) at 1.
    - apply (shows_bit fs bs); [done|lia|]. rewrite Z.quot_div_nonneg by lia. replace ((8 * Z.of_nat i + x) / 8) with (Z.of_nat i) by div_lia. by rewrite Nat2Z.id.
    - rewrite Z.rem_mod_nonneg by lia. div_lia. }
  assert (forall b, b ∈ bs <-> (exists i : nat, b = 8 * Z.of_nat i + x /\ (i < last)%nat) \/ b ∈ present_bits o l) as Hbs.
  { intros b. unfold bs. rewrite elem_of_app, list_elem_of_fmap. setoid_rewrite elem_of_seq. split; (intros [(i & -> & Hi)|?]; [left; exists i; lia|by right]). }
  assert (forall (i : nat) bf, bf ∈ l -> bf_bit bf <> 8 * Z.of_nat i + x) as Hne.
  { intros i bf Hin Eb. apply (Hmod bf Hin). rewrite Eb, Z.rem_mod_nonneg by lia. div_lia. }
  destruct (lookup_lt_is_Some_2 fs last ltac:(lia)) as [y Hy]. exists fs, y. cbv zeta. split_and!; [|apply Hfs|done|done|..].
  - unfold encode_fspec. rewrite E, Ex. cbn [mbind option_bind]. fold last. rewrite !Nat.min_l by lia. rewrite Es, He. cbn.
    by rewrite Nat.add_1_r, (take_S_r _ _ y).
  - apply Forall_lookup_2. intros i b [Hb Hi]%lookup_take_Some. apply Z.eqb_neq. rewrite (Hext i b Hb), bool_decide_true; [done|].
    rewrite Hbs. left. by exists i.
  - apply Z.eqb_eq. rewrite (Hext _ _ Hy), bool_decide_false; [done|]. rewrite Hbs, elem_of_present_bits.
    intros [(i & Ei & Hi)|(bf & Hin & _ & Eb)]; [lia|by apply (Hne last bf)].
  - intros bf Hin Ho. destruct (layout_octet bf Hin) as (Hb & H1 & H2). rewrite (announced_at fs fs bs) by (done || lia).
    rewrite <- (present_own_bit o l bf (layout_apart _ _ _ layout) Hin). f_equal. apply bool_decide_ext. rewrite Hbs.
    split; [|by right]. intros [(i & Ei & _)|?]; [by apply Hne in Ei|done].
Qed.

Lemma announced_prefix fs fs' n bf : 0 <= bf_octet bf -> (forall i, i < n -> fs' !! i = fs !! i)%nat -> announced fs' n bf = announced fs n bf.
Proof.
  intros H0 H. unfold announced. destruct (Z.ltb_spec (bf_octet bf) 0), (Z.leb_spec (Z.of_nat n) (bf_octet bf)); try done. cbn [orb]. by rewrite H by lia.
Qed.

Lemma extended_bitmap_agrees x : ext = Some x -> bitmap_agrees.
Proof.
  intros Ex. destruct (extended_octets x Ex) as (fs & y & E & Hb & El & Hy & Hl & Hz & Ha). cbv zeta in *.
  destruct last_octet_range as (H0 & Hlast & Hmax). set (last := Z.to_nat (last_octet o l)) in *.
  pose proof (layout_ext _ _ _ layout) as H. rewrite Ex in H. destruct H as (Hx & _ & He).
  assert (take last fs ++ [y] = take (S last) fs) as Et by (by rewrite (take_S_r _ _ y)).
  assert (length (take last fs ++ [y]) = (last + 1)%nat) as Elen by (rewrite Et, length_take; lia).
  exists (take last fs ++ [y]), ((take last fs ++ [y]) ++ replicate (num_octets l - length (take last fs ++ [y])) 0), (last + 1)%nat.
  split_and!; [done|rewrite Et; by apply Forall_take|..].
  - intros r pre skip post Hc Hs. pose proof (cursor_data_length _ _ _ _ _ Hc) as Hfuel. unfold decode_fspec. rewrite Ex, He. cbn [is_little].
    assert (ext_mask x = Some (Z.shiftl 1 (8 - 1 - x))) as Hm by (unfold ext_mask; by rewrite (proj2 (Z.leb_le _ _)), (proj2 (Z.ltb_lt _ 32)) by lia).
    pose proof (read_octets_ext_read x _ (num_octets l) (take last fs) Hm (S (length (rdata_ r))) [] y) as Hr. cbn [app length] in Hr.
    rewrite Nat.sub_0_r in Hr. rewrite <- Elen. eapply byte_read_then; [apply Hr|done|exact Hc|done]; try done.
    + rewrite Et. by apply Forall_take.
    + rewrite length_take. lia.
    + rewrite Elen in Hfuel. rewrite length_take. lia.
  - intros bf Hin. destruct (layout_octet bf Hin) as (Hbit & H1 & H2). rewrite (announced_prefix fs) by (try done; intros i Hi; rewrite lookup_app_l, Et, lookup_take_lt by (rewrite ?Elen; lia); done).
    destruct (Z.le_gt_cases (bf_octet bf) (last_octet o l)) as [Ho|Ho]; [by apply Ha|].
    unfold announced. rewrite (proj2 (Z.ltb_ge _ 0)), (proj2 (Z.leb_le _ _)) by lia. cbn. f_equal. symmetry. apply not_true_iff_false. intros Hv.
    pose proof (Hmax bf Hin Hv). lia.
Qed.

Lemma bitmap_agreement : bitmap_agrees.
Proof.
  assert (ext = None \/ exists x, ext = Some x) as [Ex|[x Ex]] by (destruct ext; eauto); [by apply plain_bitmap_agrees|by eapply extended_bitmap_agrees].
Qed.
End layout.
