(* ===== verification/BitmapRoundtrip.v ===== *)
(** * Bitmap structs, end to end

    Every field of a bitmap belongs to its decoder, and so does the struct: the object
    that was encoded comes back, member by member. *)

From stdpp Require Import base numbers list gmap strings pretty sorting.
From Stdlib Require Import ZArith Lia Floats.SpecFloat.
From S2P Require Import Prelude Bits CoreError Endian BitWriter BitReader BitIO StringEncoding CharConv AutoExpr ExprParser Ast TypeResolver ProtocolIndex Validation Names TypeChecks FieldCodec StructCodec TextCodec TextCodecSpec TextRoundtrip TextSafety ValueCodec ScaledCodec BitmapCodec BitmapSpec.

Open Scope Z_scope.
Local Open Scope reader_scope.

(** ** What the generated classes promise to each other *)

Definition whole_bytes (bits : list bool) : Prop := (length bits mod 8 = 0)%nat.

Lemma whole_bytes_len (bits : list bool) n : len bits = n -> n mod 8 = 0 -> whole_bytes bits.
Proof. unfold len, whole_bytes. intros <- H. apply Nat2Z.inj. by rewrite Nat2Z.inj_mod. Qed.

Lemma whole_bytes_app (a b : list bool) : whole_bytes a -> whole_bytes b -> whole_bytes (a ++ b).
Proof. unfold whole_bytes. intros Ha Hb. rewrite length_app, Nat.Div0.add_mod, Ha, Hb. done. Qed.

(** From a byte boundary to a byte boundary; [open] parts take all that follows. *)
Definition part_codes (enc : option (Result (list WriteOp))) (dec : R Datum) (v : Datum) (open : bool) : Prop :=
  forall pre post, whole_bytes pre -> (open = true -> post = []) ->
    exists ops, enc = Some (Ok ops) /\ Forall fits ops /\ delivers dec ops v pre post /\ whole_bytes (encoded ops pre).

Class ClassCodes (c : NestedClass) (ok : list Datum -> Datum -> Prop) (open : bool) : Prop :=
  class_codes : forall args v, ok args v -> part_codes (nc_encode c v) (nc_decode c args) v open.

Class VariantCodes (c : VariantCode) (ok : Members -> Datum -> Prop) (open : bool) : Prop :=
  variant_codes : forall seen v, ok seen v -> part_codes (vc_encode c v) (vc_decode c seen) v open.

Lemma part_codes_weaken enc dec v open open' : part_codes enc dec v open -> (open = true -> open' = true) -> part_codes enc dec v open'.
Proof. intros H Ho pre post Hpre Hpost. apply H; [done|]. intros E. by apply Hpost, Ho. Qed.

(** ** One field *)

Section fields.
Context (p : Protocol) (idx : TypeIndex).

(** Numbers on the wire that fill whole bytes. *)
Definition wire_number (i : FieldTypeInfo) (e : Ast.Endian) (v : Z) : Prop :=
  value_ok i e v /\ codec_value i v = v /\ fti_bits i mod 8 = 0.

(** What fills a fixed length up. *)
Definition bitmap_pad (f : Field) : option Z := if field_needs_encoding f then resolve_padding_char p idx f else Some 0.

Definition bitmap_string_ok (f : Field) (s : list Z) (last : bool) : Prop :=
  Forall is_byte s /\ carries (field_encoding_enum f) s
  /\ exists pd, resolve_effective_padding p idx f = Some pd /\ trim_code (field_trim f) pd s = s
    /\ match f_length f with
       | Some n => len s <= n <= SIZE_MAX
           /\ exists pad, bitmap_pad f = Some pad /\ (len s < n -> filler_trimmed (field_trim f) pd (ascii_of (field_encoding_enum f) pad))
       | None => last = true
       end.

Definition bitmap_bytes_ok (f : Field) (s : list Z) (last : bool) : Prop :=
  Forall is_byte s
  /\ match f_length f, f_bytes_attr f with
     | Some n, _ | None, Some n => bytes_array_size f = Some n /\ len s = n /\ n <= SIZE_MAX
     | None, None => last = true
     end.

(** [seen] are the members in front, [last] says that nothing follows. *)
Definition kind_ok (k : BitmapKind) (seen : Members) (v : Datum) (last : bool) : Prop :=
  match k with
  | BChoice c => exists ok open, VariantCodes c ok open /\ ok seen v /\ (open = true -> last = true)
  | BEnum en => exists i e b x, v = DInt x /\ read_call i e b = Some (en_read en) /\ write_call i e b = en_write en
      /\ is_float_call (en_read en) = false /\ fti_is_float i = false /\ fti_bits i = en_bits en /\ 0 < en_bits en <= 64
      /\ enum_has en x = true /\ value_ok i e x /\ 0 <= x < 2 ^ Z.min 63 (en_bits en) /\ en_bits en mod 8 = 0
  | BString f => exists s, v = DText s /\ bitmap_string_ok f s last
  | BBytes f => exists s, v = DText s /\ bitmap_bytes_ok f s last
  | BStruct c params => exists args ok open, mapM (fun q => seen !! to_member_name q) params = Some args
      /\ ClassCodes c ok open /\ ok args v /\ (open = true -> last = true)
  | BScaled i => exists raw, v = scaled_value i raw /\ wire_number (raw_info i) (fti_raw_endian i) raw
      /\ raw_of (fti_raw_bits i) (fti_raw_signed i) (fti_field_scale i) (fti_field_offset i)
           (physical (fti_field_scale i) (fti_field_offset i) raw) = Some raw
  | BNumber i e => exists x, v = DInt x /\ wire_number (number_of i) e x /\ (fti_is_bool i = true -> 0 <= x < 2)
  end.

Lemma outer_members_found name params seen args : mapM (fun q => seen !! to_member_name q) params = Some args ->
  forall r, outer_members name params seen r = Some (Ok args, r).
Proof.
  revert args. induction params as [|q params IH]; intros args H r; cbn in H; [by injection H as <-|].
  destruct (seen !! to_member_name q) as [d|] eqn:E; [|done]. cbn in H. destruct (mapM _ params) as [ds|] eqn:Em; [|done]. injection H as <-.
  cbn. rewrite E. unfold bind. by rewrite (IH ds eq_refl).
Qed.

Lemma number_part i e v (pre post : list bool) : wire_number i e v -> whole_bytes pre ->
  exists rc, read_call i e true = Some rc /\ Forall fits [write_meaning (write_call i e true) v]
    /\ delivers (read_int rc) [write_meaning (write_call i e true) v] v pre post /\ whole_bytes (encoded [write_meaning (write_call i e true) v] pre).
Proof.
  intros (Hv & Hc & Hb) Hpre. destruct (number_delivers i e true v pre post Hv Hc) as (rc & E & Hf & Hd & Hl); [done|].
  exists rc. split_and!; try done. by eapply whole_bytes_len.
Qed.

Lemma scaled_part i raw : wire_number (raw_info i) (fti_raw_endian i) raw ->
  raw_of (fti_raw_bits i) (fti_raw_signed i) (fti_field_scale i) (fti_field_offset i)
    (physical (fti_field_scale i) (fti_field_offset i) raw) = Some raw ->
  part_codes (encode_scaled i true (scaled_value i raw)) (decode_scaled i true) (scaled_value i raw) false.
Proof.
  intros Hn Hr pre post Hpre _. destruct (number_part _ _ _ pre post Hn Hpre) as (rc & E & Hf & Hd & Hw).
  eexists. split_and!; [cbn; by rewrite Hr|done| |done]. eapply delivers_lift; [exact E|]. by eapply delivers_then.
Qed.

Lemma plain_part i e x : wire_number (number_of i) e x -> (fti_is_bool i = true -> 0 <= x < 2) ->
  part_codes (encode_plain (number_of i) e true (DInt x)) (decode_bitmap_number i e) (DInt x) false.
Proof.
  intros Hn Hb pre post Hpre _. destruct (number_part _ _ _ pre post Hn Hpre) as (rc & E & Hf & Hd & Hw).
  eexists. split_and!; [done|done| |done]. eapply delivers_lift; [exact E|]. eapply delivers_then; [exact Hd|]. intros r. by rewrite bool_cast.
Qed.

Lemma enum_part en i e b x : read_call i e b = Some (en_read en) -> write_call i e b = en_write en -> is_float_call (en_read en) = false ->
  fti_is_float i = false -> fti_bits i = en_bits en -> 0 < en_bits en <= 64 -> enum_has en x = true -> value_ok i e x ->
  0 <= x < 2 ^ Z.min 63 (en_bits en) -> en_bits en mod 8 = 0 -> part_codes (encode_enum en (DInt x)) (decode_enum en) (DInt x) false.
Proof.
  intros Er Ew Hrc Hi Eb Hb Hh Hv Hr Hm pre post Hpre _.
  destruct (underlying_delivers i e b (en_read en) (en_write en) x pre post) as (op & E & Hf & Hd & Hl); [try done; by rewrite Eb..|].
  exists [op]. split_and!; [cbn; by rewrite Hh, E|done| |].
  - rewrite Eb in Hd. unfold decode_enum. eapply delivers_then; [exact Hd|]. intros r. by rewrite Hh.
  - eapply whole_bytes_len; [exact Hl|]. by rewrite Eb.
Qed.

Lemma writes_whole ops l (pre : list bool) : writes_bytes ops l -> whole_bytes pre -> whole_bytes (encoded ops pre).
Proof.
  intros Hw Hpre. rewrite Hw, aligned_pad by done. cbn [app]. unfold whole_bytes. rewrite length_bytes_bits, Nat.mul_comm. apply Nat.Div0.mod_mul.
Qed.

(** Bytes that a decoder reads, either so many or all that is left. *)
Lemma bytes_part ops l dec v open : Forall fits ops -> writes_bytes ops l ->
  (forall r pre post, cursor r pre (encoded ops pre ++ post) -> (open = true -> post = []) -> exists m, dec r = m r /\ byte_read m l v) ->
  part_codes (Some (Ok ops)) dec v open.
Proof.
  intros Hf Hw Hd pre post Hpre Hpost. exists ops. split_and!; [done|done| |by eapply writes_whole].
  intros r Hc. destruct (Hd r pre post Hc Hpost) as (m & E & Hm). rewrite E. by apply (byte_read_delivers m ops l v pre post Hm Hw).
Qed.

Lemma encode_bitmap_string_eq f s : encode_bitmap_string p idx f s =
  match f_length f with
  | Some n => pad ← bitmap_pad f; Some [WString (field_from_ascii f s) (Z.to_nat (sz n)) pad]
  | None => Some [whole_string (field_from_ascii f s)]
  end.
Proof. unfold encode_bitmap_string, bitmap_pad, field_from_ascii. by destruct (field_needs_encoding f), (f_length f). Qed.

Lemma string_part f s last : bitmap_string_ok f s last ->
  part_codes (Ok <$> encode_bitmap_string p idx f s) (decode_bitmap_string p idx f) (DText s) last.
Proof.
  intros (Hb & Hc & pd & Hpd & Htr & H). rewrite encode_bitmap_string_eq. set (wire := field_from_ascii f s).
  assert (Forall is_byte wire) as Hw by (unfold wire; rewrite field_from_ascii_enum; by apply from_ascii_byte).
  assert (forall t r, trim_code (field_trim f) pd (field_to_ascii f t) = s ->
    (let! s := lift (emit_field_trim p idx f (if field_needs_encoding f then to_ascii t (field_encoding_enum f) else t)) in ret (DText s)) r
    = Some (Ok (DText s), r)) as Hk.
  { intros t r Ht. fold (field_to_ascii f t). rewrite (emit_field_trim_code _ _ _ pd) by done. unfold bind, lift, ret. cbn. by rewrite Ht. }
  destruct (f_length f) as [n|] eqn:En.
  - destruct H as (Hn & pad & Epad & Hfill). rewrite Epad. cbn [mbind option_bind fmap option_fmap option_map]. pose proof (len_nonneg s). rewrite sz_small by lia.
    assert (is_byte pad) as Hp by (unfold bitmap_pad in Epad; destruct (field_needs_encoding f); [by eapply padding_char_byte|injection Epad as <-; unfold is_byte; lia]).
    apply (bytes_part _ (padded wire (Z.to_nat n) pad)); [by repeat constructor|apply padded_writes|]. intros r pre post Hcur _.
    eexists. split; [unfold decode_bitmap_string; rewrite En, sz_small by lia; done|]. eapply byte_read_then.
    + rewrite <- (Z2Nat.id n) at 1 by lia. by apply (read_string_padded None).
    + intros r'. apply Hk. unfold wire. rewrite field_to_ascii_enum, field_from_ascii_enum, padded_text; [|done|done|unfold len in *; lia|done].
      rewrite trim_filler; [done|]. intros Hlt. apply Hfill. unfold len in *. lia.
  - cbn [fmap option_fmap option_map]. apply (bytes_part _ wire); [by repeat constructor|apply whole_string_writes|]. intros r pre post Hcur Hpost.
    rewrite (Hpost H), app_nil_r, (whole_string_writes wire pre) in Hcur. pose proof (remaining_bytes_cursor _ _ _ Hcur) as E.
    eexists. split; [unfold decode_bitmap_string; rewrite En, E; done|]. eapply byte_read_then; [by apply read_string_read|].
    intros r'. apply Hk. unfold wire. by rewrite field_to_ascii_enum, field_from_ascii_enum, recode_carried.
Qed.

Lemma bytes_value_part f s last : bitmap_bytes_ok f s last ->
  part_codes (Ok <$> encode_bitmap_bytes f s) (decode_bitmap_bytes f) (DText s) last.
Proof.
  intros (Hb & H). pose proof (len_nonneg s).
  assert (writes_bytes [WBytes s] s) as Hw by by apply writes_bytes_one. assert (Forall fits [WBytes s]) as Hf by by repeat constructor.
  assert (forall n, bytes_array_size f = Some n /\ len s = n /\ n <= SIZE_MAX ->
    subspan s 0 (sz n) = Some s /\ byte_read (let! s := read_bytes (sz n) in let! s := lift (copy_into (new_bytes f) s) in ret (DText s)) s (DText s)) as Hfix.
  { intros n (Ha & <- & Hn). rewrite sz_small by lia. split; [apply subspan_all|]. eapply byte_read_then; [by apply read_bytes_read|]. intros r.
    unfold new_bytes. rewrite Ha. cbn [from_option id]. by rewrite copy_all by lia. }
  unfold encode_bitmap_bytes, decode_bitmap_bytes. destruct (f_length f) as [n|]; [|destruct (f_bytes_attr f) as [n|]].
  1-2: destruct (Hfix n H) as [-> Hr]; apply (bytes_part _ s); [done|done|]; intros; eexists; split; [done|exact Hr].
  apply (bytes_part _ s); [done|done|]. intros r pre post Hcur Hpost. rewrite (Hpost H), app_nil_r, (Hw pre) in Hcur.
  pose proof (remaining_bytes_cursor _ _ _ Hcur) as E. eexists. split; [rewrite E; done|]. by eapply byte_read_then; [apply read_bytes_read|].
Qed.

Lemma kind_codes name k seen v last : kind_ok k seen v last -> part_codes (encode_kind p idx k v) (decode_kind p idx name k seen) v last.
Proof.
  assert (false = true -> last = true) as Hfalse by done.
  destruct k as [c|en|f|f|c params|i|i e]; cbn [kind_ok encode_kind decode_kind].
  - intros (ok & open & Hc & Hok & Ho). eapply part_codes_weaken; [by apply Hc|done].
  - intros (i & e & b & x & -> & H). destruct_and! H. eapply part_codes_weaken; [by eapply (enum_part en i e b)|done].
  - intros (s & -> & H). by apply string_part.
  - intros (s & -> & H). by apply bytes_value_part.
  - intros (args & ok & open & Hm & Hc & Hok & Ho). apply (part_codes_weaken _ _ _ open); [|done]. intros pre post Hpre Hpost.
    destruct (Hc args v Hok pre post Hpre Hpost) as (ops & E & Hf & Hd & Hw). exists ops. split_and!; try done.
    intros r Hcur. unfold bind. rewrite (outer_members_found name params seen args Hm). by apply Hd.
  - intros (raw & -> & Hn & Hr). eapply part_codes_weaken; [by apply scaled_part|done].
  - intros (x & -> & Hn & Hb). eapply part_codes_weaken; [by apply plain_part|done].
Qed.

(** ** All fields *)

(** The fields in the order of the wire; [open] says that nothing follows the struct. *)
Fixpoint fields_ok (open : bool) (o : Members) (l : list BitmapField) (seen : Members) : Prop :=
  match l with
  | [] => True
  | bf :: l =>
      match o !! bf_member bf with
      | None => fields_ok open o l seen
      | Some v => kind_ok (bf_kind bf) seen v (open && forallb (fun bf => negb (has_value o bf)) l)
          /\ fields_ok open o l (<[bf_member bf := v]> seen)
      end
  end.

(** The members of some fields. *)
Definition add_members (o : Members) (l : list BitmapField) (seen : Members) : Members :=
  foldl (fun seen bf => match o !! bf_member bf with Some v => <[bf_member bf := v]> seen | None => seen end) seen l.

Lemma nothing_encoded to_oct o l : forallb (fun bf => negb (has_value o bf)) l = true -> encode_bitmap_fields p idx to_oct o l = Some (Ok []).
Proof.
  induction l as [|bf l IH]; [done|]. cbn [forallb encode_bitmap_fields]. rewrite andb_true_iff. unfold has_value at 1. intros [H Hl].
  destruct (o !! bf_member bf); [done|]. rewrite (IH Hl). by destruct (_ || _).
Qed.

Lemma fields_codes open o to_oct fspec n l : (forall bf, bf ∈ l -> 0 <= bf_octet bf <= to_oct) ->
  (forall bf, bf ∈ l -> announced fspec n bf = Some (has_value o bf)) -> forall seen pre post, fields_ok open o l seen -> whole_bytes pre ->
  (open = true -> post = []) ->
  exists ops, encode_bitmap_fields p idx to_oct o l = Some (Ok ops) /\ Forall fits ops
    /\ delivers (decode_bitmap_fields p idx fspec n l seen) ops (add_members o l seen) pre post /\ whole_bytes (encoded ops pre).
Proof.
  induction l as [|bf l IH]; intros Hoct Hann seen pre post Hok Hpre Hpost.
  { exists []. split_and!; [done|done|apply delivers_ret|done]. }
  cbn [encode_bitmap_fields decode_bitmap_fields fields_ok] in *. destruct (Hoct bf (list_elem_of_here _ _)) as [H0 H1].
  rewrite (proj2 (Z.ltb_ge _ 0)), (proj2 (Z.ltb_ge to_oct _)), (Hann bf (list_elem_of_here _ _)) by lia. cbn [orb]. unfold has_value in *.
  assert (forall bf', bf' ∈ l -> 0 <= bf_octet bf' <= to_oct) as Hoct' by (intros; apply Hoct; by right).
  assert (forall bf', bf' ∈ l -> announced fspec n bf' = Some (is_some (o !! bf_member bf'))) as Hann' by (intros; apply Hann; by right).
  cbn [add_members foldl]. destruct (o !! bf_member bf) as [v|] eqn:Ev; cbn [is_some] in *.
  - destruct Hok as [Hk Hl]. pose proof (kind_codes (bf_name bf) _ _ _ _ Hk) as Hc.
    destruct (Hc pre [] Hpre ltac:(done)) as (ops1 & E1 & F1 & _ & W1).
    destruct (IH Hoct' Hann' (<[bf_member bf := v]> seen) (pre ++ encoded ops1 pre) post Hl) as (ops2 & E2 & F2 & D2 & W2);
      [by apply whole_bytes_app|done|].
    destruct (Hc pre (encoded ops2 (pre ++ encoded ops1 pre) ++ post) Hpre) as (ops1' & E1' & _ & D1 & _).
    { intros [Ho Hno]%andb_true_iff. rewrite (nothing_encoded to_oct o l Hno) in E2. injection E2 as <-. by rewrite (Hpost Ho). }
    rewrite E1 in E1'. injection E1' as <-. rewrite E1. cbn [mbind option_bind]. rewrite E2. cbn [mbind option_bind].
    exists (ops1 ++ ops2). split_and!; [done|by apply Forall_app| |].
    + eapply delivers_lift; [done|]. eapply delivers_bind; [exact D1|exact D2].
    + rewrite encoded_app. by apply whole_bytes_app.
  - destruct (IH Hoct' Hann' seen pre post Hok Hpre Hpost) as (ops & E & F & D & W). by exists ops.
Qed.
End fields.

(** ** The struct *)

Lemma add_members_lookup o l k : forall seen,
  add_members o l seen !! k = if decide (k ∈ bf_member <$> l) then (match o !! k with Some v => Some v | None => seen !! k end) else seen !! k.
Proof.
  induction l as [|bf l IH]; intros seen; cbn [add_members foldl fmap list_fmap]; [by rewrite decide_False by set_solver|].
  fold (add_members o l). unfold add_members in IH. rewrite IH. destruct (decide (k = bf_member bf)) as [->|Hn].
  - rewrite (decide_True (P := bf_member bf ∈ _ :: _)) by set_solver. destruct (o !! bf_member bf) as [v|] eqn:E.
    + rewrite lookup_insert_eq. by destruct (decide _).
    + by destruct (decide _).
  - assert (match o !! bf_member bf with Some v => <[bf_member bf := v]> seen | None => seen end !! k = seen !! k) as ->
      by (destruct (o !! bf_member bf); [by rewrite lookup_insert_ne|done]).
    destruct (decide (k ∈ bf_member <$> l)); [by rewrite decide_True by set_solver|by rewrite decide_False by set_solver].
Qed.

Lemma all_members o l : (forall k, is_Some (o !! k) -> k ∈ bf_member <$> l) -> add_members o (wire_order l) ∅ = o.
Proof.
  intros H. apply map_eq. intros k. rewrite add_members_lookup, lookup_empty.
  assert (k ∈ bf_member <$> wire_order l <-> k ∈ bf_member <$> l) as E by (unfold wire_order; by rewrite merge_sort_Permutation).
  destruct (decide _) as [Hk|Hk]; [by destruct (o !! k)|]. rewrite E in Hk. destruct (o !! k) eqn:Ek; [|done]. exfalso. apply Hk, H. by rewrite Ek.
Qed.

Section struct.
Context (p : Protocol) (idx : TypeIndex) (ext : option Z) (e : Ast.Endian) (l : list BitmapField).

(** Every member belongs to a field, and each is one its field can carry. *)
Record object_ok (open : bool) (o : Members) : Prop := {
  object_members : forall k, is_Some (o !! k) -> k ∈ bf_member <$> l;
  object_values : fields_ok p idx open o (wire_order l) ∅
}.

Lemma bitmap_part open o : sound_layout ext e l -> object_ok open o ->
  forall pre post, whole_bytes pre -> (open = true -> post = []) ->
  exists ops, encode_bitmap p idx ext e l o = Some (Ok ops) /\ Forall fits ops
    /\ delivers (decode_bitmap p idx ext e l) ops o pre post /\ whole_bytes (encoded ops pre).
Proof.
  intros Hl [Hm Hv] pre post Hpre Hpost. destruct (bitmap_agreement ext e l o Hl) as (fspec & fs & n & E & Hb & Hr & Ha).
  assert (writes_bytes [WBytes fspec] fspec) as Hw by by apply writes_bytes_one.
  assert (forall bf, bf ∈ wire_order l -> bf ∈ l) as Hin by (intros bf; unfold wire_order; by rewrite merge_sort_Permutation).
  destruct (fields_codes p idx open o (Z.quot (max_bit l) 8) fs n (wire_order l)) with (seen := ∅ : Members) (pre := pre ++ encoded [WBytes fspec] pre) (post := post)
    as (ops & Eo & Hf & Hd & Hwb); try done.
  - intros bf Hbf%Hin. destruct (layout_octet ext e l Hl bf Hbf) as (_ & H0 & H1). unfold num_octets in H1.
    destruct (max_bit_from l 0) as [Hmax _]. fold (max_bit l) in Hmax. rewrite Z.quot_div_nonneg in * by lia. lia.
  - intros bf Hbf%Hin. by apply Ha.
  - apply whole_bytes_app; [done|]. by eapply writes_whole.
  - exists ([WBytes fspec] ++ ops). unfold encode_bitmap. rewrite E. cbn [mbind option_bind]. rewrite Eo. cbn [mbind option_bind]. split_and!; [done|by constructor| |].
    + apply (delivers_bind _ _ [WBytes fspec] ops (fs, n)); [by eapply byte_read_delivers|]. rewrite all_members in Hd by done. exact Hd.
    + rewrite encoded_app. apply whole_bytes_app; [by eapply writes_whole|done].
Qed.
End struct.

(** ** Classes that can be nested *)

(** A class that needs nothing of the object around it. *)
Definition class_of_codec (c : Codec) : NestedClass := mkNestedClass (c_encode c) (fun _ => c_decode c).

(** A struct of numbers that fills whole bytes. *)
Definition flat_value_ok (l : list Item) (v : Datum) : Prop :=
  exists vs items, v = DList (map DInt vs) /\ fill l vs = Some items /\ items_ok 0 items /\ ints_of (items_values items) = vs
    /\ Forall (fun x => is_align x.1 = false) items /\ items_width items mod 8 = 0.

Global Instance flat_class_codes items : TCEq (forallb always_there items) true ->
  ClassCodes (class_of_codec (flat_codec items)) (fun _ => flat_value_ok items) false.
Proof.
  intros Hi args v (vs & it & -> & Hfill & Hok & Hv & Hal & Hw) pre post Hpre _.
  destruct (flat_codes items Hi (DList (map DInt vs)) pre post) as (ops & E & Hf & Hd); [by exists vs, it|].
  exists ops. split_and!; try done. cbn in E.
  rewrite ints_mapM in E. cbn in E. rewrite Hfill in E. injection E as <-.
  destruct (items_codec it 0 pre Hok) as (steps & _ & _ & Hl); [right; by rewrite Hpre|]. eapply whole_bytes_len; [by apply Hl|done].
Qed.

Global Instance string_class_codes t : TCEq (is_some (type_packed_width t)) false ->
  ClassCodes (class_of_codec (string_type_codec_of t)) (fun _ v => exists s, v = DText s /\ string_type_ok t s) false.
Proof.
  rewrite TCEq_eq. intros Ht args v (s & -> & Hs) pre post Hpre _. destruct (string_type_codec t s pre post Hs) as (ops & E & Hf & Hd & Hw).
  exists ops. split_and!; [cbn; by rewrite E|done|by eapply delivers_then|]. destruct (type_packed_width t); [done|]. destruct Hw as [b Hb]. by eapply writes_whole.
Qed.

Global Instance flags_class_codes t : TCEq (bool_decide (td_base t <> BaseFloat /\ 0 < td_bits t <= 64 /\ td_bits t mod 8 = 0)) true ->
  ClassCodes (class_of_codec (flags_codec t)) (fun _ v => forall pre post, flags_ok t v pre post) false.
Proof.
  rewrite TCEq_eq. intros (Hf & Hb & Hm)%bool_decide_eq_true args v Hv pre post _ _. destruct (Hv pre post) as (x & -> & Hx & Hr).
  destruct (type_calls t Hf Hb) as (Er & Ew & Hc).
  destruct (underlying_delivers (type_number t) EndianBig false _ _ x pre post Er Ew) as (op & E & Hfit & Hd & Hl); try done.
  exists [op]. split_and!; [cbn; by rewrite E|done| |by eapply whole_bytes_len]. cbn. unfold decode_flags. by eapply delivers_then.
Qed.

Global Instance bitmap_class_codes p idx ext e l open : sound_layout ext e l ->
  ClassCodes (bitmap_class p idx ext e l) (fun _ v => exists o, v = DObject o /\ object_ok p idx l open o) open.
Proof.
  intros Hl args v (o & -> & Ho) pre post Hpre Hpost. destruct (bitmap_part p idx ext e l open o Hl Ho pre post Hpre Hpost) as (ops & E & Hf & Hd & Hw).
  exists ops. split_and!; [done|done|by eapply delivers_then|done].
Qed.

(** ** Structs that validation accepts *)

Section validated.
Context (p : Protocol) (idx : TypeIndex) (parent : string) (class_of child_class : string -> NestedClass)
  (variant_of : ChoiceDef -> VariantCode) (decode_params : string -> list string).

Notation collect := (bitmap_field p idx parent class_of child_class variant_of decode_params).

(** Validation lets a choice have the extension bit. *)
Definition choice_off_ext (s : StructDef) (c : StructChild) : Prop :=
  match c, bitmap_ext s with ChChoice c, Some x => forall b, ch_bit c = Some b -> Z.rem b 8 <> x | _, _ => True end.

Lemma collected_bit c l : collect c = Some l -> l = [] \/ exists kind n loc b k, presence_bit c = Some (kind, n, loc, b) /\ l = [mkBitmapField n b k].
Proof.
  destruct c as [f|s|a|ch|fx|r|al]; cbn; intros H; try (left; congruence).
  - destruct (f_bit f); [|left; congruence]. destruct (field_kind _ _ _ _ _ f); [|done]. injection H as <-. right. by repeat eexists.
  - destruct (sd_bit s); [|left; congruence]. injection H as <-. right. by repeat eexists.
  - destruct (ch_bit ch); [|left; congruence]. injection H as <-. right. by repeat eexists.
Qed.

Lemma when_not_raised c e : when c e = [] -> e <> [] -> c = false.
Proof. by destruct c. Qed.

Lemma validated_bits s : forall children used l, bitmap_loop s used children = [] -> Forall (choice_off_ext s) children ->
  mapM collect children = Some l ->
  Forall (fun bf => 0 <= bf_bit bf /\ bf_bit bf ∉ used /\ match bitmap_ext s with Some x => Z.rem (bf_bit bf) 8 <> x | None => True end) (mjoin l)
  /\ NoDup (bf_bit <$> mjoin l).
Proof.
  induction children as [|c children IH]; intros used l Hv Hc Hm; [injection Hm as <-; split; [done|apply NoDup_nil_2]|].
  apply Forall_cons in Hc as [Hch Hc]. cbn in Hm. destruct (collect c) as [l1|] eqn:E1; [|done]. cbn in Hm.
  destruct (mapM collect children) as [l2|] eqn:E2; [|done]. injection Hm as <-. cbn [bitmap_loop] in Hv.
  change (mjoin (l1 :: l2)) with (l1 ++ mjoin l2).
  destruct (presence_bit c) as [[[[kind n] loc] b]|] eqn:Ep.
  - apply app_eq_nil in Hv as [H1 Hv]. apply app_eq_nil in Hv as [H2 Hv]. apply app_eq_nil in Hv as [H3 Hv].
    apply when_not_raised, orb_false_iff in H1 as [H1%Z.ltb_ge _]; [|done]. apply when_not_raised, bool_decide_eq_false in H2; [|done].
    destruct (IH _ l2 Hv Hc eq_refl) as [Hf Hd].
    assert (Forall (fun bf => 0 <= bf_bit bf /\ bf_bit bf ∉ used
      /\ match bitmap_ext s with Some x => Z.rem (bf_bit bf) 8 <> x | None => True end) (mjoin l2)) as Hf'
      by (eapply Forall_impl; [exact Hf|]; cbn beta; intros bf (? & ? & ?); split_and!; [done|set_solver|done]).
    destruct (collected_bit c l1 E1) as [->|(kind' & n' & loc' & b' & k & Ep' & ->)]; [done|]. simplify_eq. cbn [app fmap list_fmap bf_bit].
    split; [constructor; [|done]|].
    + cbn [bf_bit]. split_and!; [done|done|]. destruct (bitmap_ext s) as [x|] eqn:Ex; [|done]. intros Hx.
      destruct (is_choice c) eqn:Ec.
      * destruct c as [| | |ch| | |]; try done. unfold choice_off_ext in Hch. rewrite Ex in Hch. cbn in Ep. destruct (ch_bit ch) as [bb|]; [|done].
        injection Ep as <- <- <- <-. by apply (Hch bb).
      * apply when_not_raised in H3; [|done]. cbn in H3. by apply Z.eqb_neq in H3.
    + apply NoDup_cons. split; [|done]. intros (bf & Eb & Hbf)%list_elem_of_fmap. rewrite Forall_forall in Hf.
      destruct (Hf bf Hbf) as (_ & Hu & _). set_solver.
  - destruct (collected_bit c l1 E1) as [->|(kind' & n' & loc' & b' & k & Ep' & ->)]; [|congruence]. by apply IH.
Qed.

(** What validation makes sure of, with the rest of what the layout asks for. *)
Lemma validated_layout s l : is_bitmap s = true -> bitmap_errors s = [] -> Forall (choice_off_ext s) (sd_children s) ->
  (is_some (bitmap_ext s) = true -> bitmap_endian s = EndianBig) ->
  bitmap_fields p idx parent class_of child_class variant_of decode_params s = Some l -> NoDup (bf_member <$> l) ->
  sound_layout (bitmap_ext s) (bitmap_endian s) l.
Proof.
  intros Hb Hv Hc He Hl Hn. unfold bitmap_errors in Hv. rewrite Hb in Hv. apply app_eq_nil in Hv as [Hx Hv]. unfold bitmap_fields in Hl.
  destruct (mapM collect (sd_children s)) as [ls|] eqn:Em; [|done]. injection Hl as <-.
  destruct (validated_bits s _ _ _ Hv Hc Em) as [Hf Hd]. split; [|done|done|].
  - eapply Forall_impl; [exact Hf|]. by intros bf (? & ? & ?).
  - destruct (bitmap_ext s) as [x|]; [|done]. apply when_not_raised, orb_false_iff in Hx as [H1%Z.ltb_ge H2%Z.leb_gt]; [|done].
    split_and!; [lia|lia| |by apply He]. eapply Forall_impl; [exact Hf|]. by intros bf (? & ? & ?).
Qed.
End validated.

(** C7: The class generated for a bitmap struct carries its objects.  Let validation
    accept the struct, its members have names of their own, an extensible bitmap be
    big-endian and no choice sit on the extension bit.  Then for every object whose
    values the fields can carry (numbers, scaled numbers, enums, text, bytes, nested
    classes that keep their promise, in any combination of members that are present
    and absent) the encoder succeeds, and the decoder makes the same object of the
    bytes: the same members are there, with the same values. *)
Theorem bitmap_roundtrip (p : Protocol) (idx : TypeIndex) (parent : string) (class_of child_class : string -> NestedClass)
    (variant_of : ChoiceDef -> VariantCode) (decode_params : string -> list string) (s : StructDef) (l : list BitmapField) (o : Members) :
  is_bitmap s = true -> bitmap_errors s = [] -> Forall (choice_off_ext s) (sd_children s) ->
  (is_some (bitmap_ext s) = true -> bitmap_endian s = EndianBig) ->
  bitmap_fields p idx parent class_of child_class variant_of decode_params s = Some l -> NoDup (bf_member <$> l) ->
  object_ok p idx l true o ->
  exists ops, encode_bitmap p idx (bitmap_ext s) (bitmap_endian s) l o = Some (Ok ops)
    /\ (total_bits ops <= SIZE_MAX - 32 ->
        exists w d r, run_writes ops new_writer = Some w /\ finish w = (Ok d, new_writer)
          /\ decode_bitmap p idx (bitmap_ext s) (bitmap_endian s) l (new_reader d) = Some (Ok o, r)).
Proof.
  intros Hb Hv Hc He Hl Hn Ho. pose proof (validated_layout _ _ _ _ _ _ _ s l Hb Hv Hc He Hl Hn) as Hlay.
  destruct (bitmap_part p idx _ _ l true o Hlay Ho [] [] eq_refl (fun _ => eq_refl)) as (ops & E & Hf & Hd & Hw).
  exists ops. split; [done|]. apply delivered; [done|].
  assert (pad8 (length (encoded ops [])) = 0%nat) as -> by (unfold pad8; by rewrite Hw). exact Hd.
Qed.

(** *** A track report *)

(** A bit field: its number, its width, its byte order, its scale. *)
Definition report_field (name : string) (bit bits : Z) (is_signed : bool) (e : Ast.Endian) (scale : option spec_float) : StructChild :=
  ChField (mkField name "" false (Some bits) None is_signed None scale None None [] [] None (Some bit) None None false None None false
    None None None None None None e true FmtDecimal false None false None None None [] "" unknown_loc).

Definition callsign_field (bit : Z) : StructChild :=
  ChField (mkField "callsign" "string" false None None false None None None None [] [] None (Some bit) None (Some 8) false None None false
    None (Some PadNull) (Some TrimRight) None None None EndianBig true FmtDecimal false None false None None None [] "" unknown_loc).

(** The source: a struct of two bytes. *)
Definition source_items : list Item :=
  [IField (number_info 8 false WireDefault) EndianBig false; IField (number_info 8 false WireDefault) EndianBig false].

Definition source_child (bit : Z) : StructChild :=
  ChStruct (mkStructDef "source" [] false 8 None EndianBig (Some bit) None None false [] "" unknown_loc).

Definition track_report (ext : option Z) (e : Ast.Endian) : StructDef :=
  mkStructDef "track" [source_child 0; report_field "time" 1 24 false EndianBig (Some (power_of_two (-7)));
      report_field "mode" 9 16 false EndianLittle None; callsign_field 10; report_field "height" 4 16 true EndianBig None]
    true 16 ext e None None None false [] "" unknown_loc.

Definition track_class (name : string) : NestedClass := class_of_codec (flat_codec source_items).
Definition no_variant (c : ChoiceDef) : VariantCode := mkVariantCode (fun _ => None) (fun _ => lift None).

Definition track_fields (ext : option Z) (e : Ast.Endian) : list BitmapField :=
  default [] (bitmap_fields text_protocol text_index "Track" track_class track_class no_variant (fun _ => []) (track_report ext e)).

Definition sample_track : Members :=
  {[ "source_" := DList [DInt 25; DInt 201]; "time_" := DReal (physical (power_of_two (-7)) double_zero 5898240);
     "mode_" := DInt 0x0A7F; "callsign_" := DText (chars "DLH4OA") ]}.

Lemma track_source_ok : flat_value_ok source_items (DList [DInt 25; DInt 201]).
Proof.
  exists [25; 201]. eexists. split_and!; [done|vm_compute; reflexivity| |vm_compute; reflexivity|by repeat constructor|done].
  cbn. unfold value_ok, integer_ok. cbn. split_and!; done || lia.
Qed.

(** The fields in the order of their bits. *)
Definition time_info : FieldTypeInfo :=
  mkFti "double" false false false false false false 0 false true (power_of_two (-7)) double_zero 24 false EndianBig WireDefault.
Definition plain_info (cpp_type : string) (bits : Z) (is_signed : bool) : FieldTypeInfo :=
  mkFti cpp_type false false false false false false bits is_signed false double_one double_zero 0 false EndianBig WireDefault.
Definition callsign : Field := match callsign_field 10 with ChField f => f | _ => new_field "" "" end.

Lemma track_order ext e : wire_order (track_fields ext e) =
  [mkBitmapField "source" 0 (BStruct (track_class "source") []); mkBitmapField "time" 1 (BScaled time_info);
   mkBitmapField "height" 4 (BNumber (plain_info "int16_t" 16 true) EndianBig);
   mkBitmapField "mode" 9 (BNumber (plain_info "uint16_t" 16 false) EndianLittle); mkBitmapField "callsign" 10 (BString callsign)].
Proof. reflexivity. Qed.

Lemma sample_track_ok : object_ok text_protocol text_index (track_fields (Some 7) EndianBig) true sample_track.
Proof.
  split.
  - assert (map_Forall (fun k _ => k ∈ bf_member <$> track_fields (Some 7) EndianBig) sample_track) as H
      by (apply (bool_decide_unpack _); vm_compute; exact I).
    intros k [v Hv]. by apply (H k v).
  - rewrite track_order. split; [|split; [|split; [|split]]].
    + exists [], (fun _ => flat_value_ok source_items), false. split_and!; [done|by apply flat_class_codes|apply track_source_ok|done].
    + exists 5898240. split_and!; [done| |vm_compute; reflexivity]. unfold wire_number, value_ok, integer_ok. cbn. split_and!; done || lia.
    + exists 0x0A7F. split_and!; [done| |done]. unfold wire_number, value_ok, integer_ok. cbn. split_and!; done || lia.
    + exists (chars "DLH4OA"). split; [done|]. split; [repeat constructor; done|]. split; [repeat constructor; done|].
      exists PadNull. split_and!; [vm_compute; reflexivity|vm_compute; reflexivity|]. split; [vm_compute; done|]. exists 0. split; [vm_compute; reflexivity|]. intros _. by split.
    + done.
Qed.

Lemma bitmap_roundtrip_witness :
  exists ops w d r, encode_bitmap text_protocol text_index (Some 7) EndianBig (track_fields (Some 7) EndianBig) sample_track = Some (Ok ops)
    /\ run_writes ops new_writer = Some w /\ finish w = (Ok d, new_writer)
    /\ decode_bitmap text_protocol text_index (Some 7) EndianBig (track_fields (Some 7) EndianBig) (new_reader d) = Some (Ok sample_track, r).
Proof.
  destruct (bitmap_roundtrip text_protocol text_index "Track" track_class track_class no_variant (fun _ => []) (track_report (Some 7) EndianBig)
    (track_fields (Some 7) EndianBig) sample_track) as (ops & E & H); [done|vm_compute; reflexivity|by repeat constructor|done|done| |apply sample_track_ok|].
  - apply (bool_decide_unpack _). vm_compute. exact I.
  - destruct H as (w & d & r & H1 & H2 & H3); [|exists ops, w, d, r; auto].
    cbn [bitmap_ext bitmap_endian track_report] in E. vm_compute in E. injection E as <-. vm_compute. discriminate.
Defined.
