(* ===== verification/BitmapSafety.v ===== *)
(** * Bitmap structs on arbitrary bytes

    The decoder of a bitmap struct on input that no encoder wrote: it ends, it is
    defined and stays inside the buffer.  And inputs for which the generated code
    does not do that, or does not give back what was written. *)

From stdpp Require Import base numbers list gmap strings pretty sorting.
From Stdlib Require Import ZArith Lia Floats.SpecFloat.
From S2P Require Import Prelude Bits CoreError Endian BitWriter BitReader BitIO StringEncoding CharConv AutoExpr ExprParser Ast TypeResolver ProtocolIndex Validation Names TypeChecks FieldCodec StructCodec TextCodec TextCodecSpec TextRoundtrip TextSafety ValueCodec ScaledCodec BitmapCodec BitmapSpec BitmapRoundtrip.

Open Scope Z_scope.
Local Open Scope reader_scope.

(** ** The bitmap *)

(** An octet that was read is behind the reader. *)
Lemma read_u8_advances r b r' : rwf r -> read_u8 r = Some (Ok b, r') -> byte_pos_ r < byte_pos_ r' <= len (rdata_ r').
Proof.
  intros Hw. unfold read_u8. destruct (align_forward r Hw) as (Hw' & Ed & _). pose proof (rwf_size _ Hw) as Hs.
  destruct (Z.leb_spec (len (rdata_ (reader_align_to_byte r))) (byte_pos_ (reader_align_to_byte r))); [done|].
  destruct (at_ _ _) as [v|]; [|done]. intros [= <- <-]. cbn. pose proof (rwf_byte_pos _ Hw').
  assert (byte_pos_ r <= byte_pos_ (reader_align_to_byte r)) as Hle.
  { unfold reader_align_to_byte. pose proof (rwf_byte_pos _ Hw). case_match; cbn; [|lia]. rewrite sz_small by (unfold SIZE_MAX in *; lia). lia. }
  rewrite sz_small by (unfold SIZE_MAX in *; rewrite Ed in *; lia). lia.
Qed.

Lemma read_octets_ext_safe ext num : 0 <= ext < 8 -> forall fuel fspec n r, rwf r -> length fspec = num ->
  (length (rdata_ r) < Z.to_nat (byte_pos_ r) + fuel)%nat ->
  exists res r', read_octets_ext fuel ext fspec n r = Some (res, r') /\ forward r r'
    /\ match res with Ok (fs, _) => length fs = num | Fail _ => True end.
Proof.
  intros He. assert (exists mask, ext_mask ext = Some mask) as [mask Hm]
    by (unfold ext_mask; rewrite (proj2 (Z.leb_le _ _)), (proj2 (Z.ltb_lt _ 32)) by lia; by eexists).
  induction fuel as [|fuel IH]; intros fspec n r Hw Hl Hfuel; [pose proof (rwf_byte_pos _ Hw); unfold len in *; lia|].
  cbn [read_octets_ext]. destruct (read_u8_safe r Hw) as ([b|err] & r1 & E & F & _); unfold bind; rewrite E; [|by exists (Fail err), r1].
  unfold lift. rewrite Hm. cbn [mbind option_bind]. destruct (Z.land b mask =? 0).
  - exists (Ok (<[n := b]> fspec, S n)), r1. split_and!; [done|done|by rewrite length_insert].
  - destruct (read_u8_advances r b r1 Hw E) as [Ha _]. pose proof F as (Hw1 & Ed & _). pose proof (rwf_byte_pos _ Hw).
    destruct (IH (<[n := b]> fspec) (S n) r1 Hw1) as (res & r' & E' & F' & HQ); [by rewrite length_insert|rewrite Ed; lia|].
    exists res, r'. split_and!; [done|by eapply forward_trans|done].
Qed.

Lemma read_octets_safe n : safe (read_octets n) (fun l => length l = n).
Proof.
  induction n as [|n IH]; [by apply safe_ret|]. cbn [read_octets]. eapply safe_bind; [apply read_u8_safe|]. intros b _.
  eapply safe_bind; [exact IH|]. intros l Hl. apply safe_ret. cbn. by rewrite Hl.
Qed.

Definition ext_checked (ext : option Z) (e : Ast.Endian) : Prop := match ext with Some x => 0 <= x < 8 /\ e = EndianBig | None => True end.

Lemma decode_fspec_safe ext e num : ext_checked ext e -> safe (decode_fspec ext e num) (fun x => length x.1 = num).
Proof.
  intros He. assert (forall m : R (list Z * nat), safe m (fun x => length x.1 = num /\ (is_little e = true -> x.2 = num)) ->
    safe (let! x := m in let '(fspec, n) := x in let! fspec := lift (if is_little e then reverse_first n fspec else Some fspec) in ret (fspec, n))
      (fun x => length x.1 = num)) as Hgo.
  { intros m Hm. eapply safe_bind; [exact Hm|]. intros [fs n] [Hl Hn]. cbn [fst snd] in *.
    assert (exists fs', (if is_little e then reverse_first n fs else Some fs) = Some fs' /\ length fs' = num) as (fs' & -> & Hl').
    { destruct (is_little e); [|by exists fs]. rewrite (Hn eq_refl). unfold reverse_first. rewrite Hl, Nat.leb_refl. eexists. split; [done|].
      rewrite length_app, length_reverse, length_take, length_drop. lia. }
    eapply (safe_bind _ _ (fun x => length x = num)); [by eapply safe_lift|]. intros x Hx. by apply safe_ret. }
  destruct ext as [x|]; cbn in He.
  - destruct He as [Hx ->]. intros r Hw. unfold decode_fspec.
    destruct (read_octets_ext_safe x num Hx (S (length (rdata_ r))) (replicate num 0) 0 r Hw) as (res & r' & E & F & HQ); [apply length_replicate|lia|].
    unfold bind. rewrite E. destruct res as [[fs n]|err]; [|by exists (Fail err), r']. cbn. exists (Ok (fs, n)), r'. done.
  - unfold decode_fspec. intros r Hw. apply Hgo; [|done]. eapply safe_bind; [apply read_octets_safe|]. intros l Hl. apply safe_ret. done.
Qed.

(** ** The fields *)

Section safety.
Context (p : Protocol) (idx : TypeIndex).

Definition small (n : Z) : Prop := 0 <= n < 2 ^ 31.

(** Widths and lengths that validation accepts; nested decoders that are safe
    themselves. *)
Definition kind_checked (k : BitmapKind) : Prop :=
  match k with
  | BChoice c => forall seen, safe (vc_decode c seen) (fun _ => True)
  | BEnum en => is_float_call (en_read en) = false
  | BString f => is_Some (resolve_effective_padding p idx f) /\ (forall n, f_length f = Some n -> small n)
  | BBytes f => match f_length f, f_bytes_attr f with
                | Some n, _ | None, Some n => small n /\ bytes_array_size f = Some n
                | None, None => True
                end
  | BStruct c _ => forall args, safe (nc_decode c args) (fun _ => True)
  | BScaled i => 0 < fti_raw_bits i <= 64
  | BNumber i _ => 0 < fti_bits i <= 64
  end.

Lemma read_bytes_safe n : 0 <= n <= 2 ^ 63 -> safe (read_bytes n) (fun l => len l <= n).
Proof.
  intros Hn r Hw. destruct (read_string_safe n Hn r Hw) as (res & r' & E & F & _). unfold read_string, bind, ret in E.
  destruct (read_bytes n r) as [[[l|err] r1]|] eqn:Er; simplify_eq; eexists _, _; (split_and!; [done|done|]); [|done].
  unfold read_bytes in Er. destruct (_ <? _); [done|]. destruct (subspan _ _ _) as [l'|] eqn:Es; [|done]. simplify_eq/=.
  unfold subspan in Es. case_match; [|done]. simplify_eq. unfold len. rewrite length_take. lia.
Qed.

Lemma outer_members_safe name params seen : safe (outer_members name params seen) (fun _ => True).
Proof.
  induction params as [|q params IH]; cbn [outer_members]; [by apply safe_ret|]. destruct (seen !! _); [|apply safe_throw].
  eapply safe_bind; [exact IH|]. intros ds _. by apply safe_ret.
Qed.

Lemma string_kind_safe f : kind_checked (BString f) -> safe (decode_bitmap_string p idx f) (fun _ => True).
Proof.
  intros [[pd Hpd] Hl] r Hw. unfold decode_bitmap_string. set (n := match f_length f with Some n => sz n | None => remaining_bytes r end).
  assert (0 <= n <= 2 ^ 63) as Hn.
  { unfold n. destruct (f_length f) as [m|]; [|by apply remaining_bytes_range]. specialize (Hl m eq_refl). unfold small in Hl.
    rewrite sz_small by (unfold SIZE_MAX; lia). lia. }
  revert r Hw n Hn. intros r Hw n Hn. generalize n, Hn, r, Hw. clear r Hw n Hn. intros n Hn.
  change (safe (let! s := read_string n in
    let! s := lift (emit_field_trim p idx f (if field_needs_encoding f then to_ascii s (field_encoding_enum f) else s)) in ret (DText s)) (fun _ => True)).
  eapply safe_bind; [by apply read_string_safe|]. intros s _. cbn beta. rewrite (emit_field_trim_code _ _ _ pd) by done.
  eapply (safe_bind _ _ (fun _ => True)); [by eapply safe_lift|]. intros t _. by apply safe_ret.
Qed.

Lemma bytes_kind_safe f : kind_checked (BBytes f) -> safe (decode_bitmap_bytes f) (fun _ => True).
Proof.
  intros H. cbn in H. assert (forall n, small n /\ bytes_array_size f = Some n ->
    safe (let! s := read_bytes (sz n) in let! s := lift (copy_into (new_bytes f) s) in ret (DText s)) (fun _ => True)) as Hfix.
  { intros n [Hn Ha]. unfold small in Hn. rewrite sz_small by (unfold SIZE_MAX; lia). eapply safe_bind; [apply read_bytes_safe; lia|]. intros s Hs. cbn beta in *.
    unfold copy_into, new_bytes. rewrite Ha. cbn [from_option id].
    rewrite (proj2 (Z.leb_le _ _)) by (unfold len in *; rewrite length_replicate; lia).
    eapply (safe_bind _ _ (fun _ => True)); [by eapply safe_lift|]. intros t _. by apply safe_ret. }
  unfold decode_bitmap_bytes. destruct (f_length f) as [n|]; [by apply Hfix|]. destruct (f_bytes_attr f) as [n|]; [by apply Hfix|].
  intros r Hw. pose proof (remaining_bytes_range r Hw) as Hn. revert Hn. generalize (remaining_bytes r). intros n Hn. revert r Hw.
  change (safe (let! s := read_bytes n in ret (DText s)) (fun _ => True)). eapply safe_bind; [by apply read_bytes_safe|]. intros s _. by apply safe_ret.
Qed.

Lemma kind_safe name k seen : kind_checked k -> safe (decode_kind p idx name k seen) (fun _ => True).
Proof.
  destruct k as [c|en|f|f|c params|i|i e]; cbn [kind_checked decode_kind]; intros H.
  - apply H.
  - apply (enum_safe en). by rewrite TCEq_eq.
  - by apply string_kind_safe.
  - by apply bytes_kind_safe.
  - eapply safe_bind; [apply outer_members_safe|]. intros args _. apply H.
  - by apply (read_number_safe (raw_info i)).
  - by apply (read_number_safe (number_of i)).
Qed.

Lemma decode_fields_safe fspec n l : Forall (fun bf => kind_checked (bf_kind bf) /\ (0 <= bf_octet bf -> (Z.to_nat (bf_octet bf) < length fspec)%nat)) l ->
  forall seen, safe (decode_bitmap_fields p idx fspec n l seen) (fun _ => True).
Proof.
  induction l as [|bf l IH]; intros Hl seen; [by apply safe_ret|]. apply Forall_cons in Hl as [[Hk Ho] Hl]. cbn [decode_bitmap_fields].
  assert (exists b, announced fspec n bf = Some b) as [b Hb].
  { unfold announced. destruct (Z.ltb_spec (bf_octet bf) 0); [by eexists|]. destruct (Z.leb_spec (Z.of_nat n) (bf_octet bf)); [by eexists|].
    destruct (lookup_lt_is_Some_2 _ _ (Ho ltac:(lia))) as [x Hx]. cbn [orb]. rewrite Hx. by eexists. }
  rewrite Hb. eapply (safe_bind _ _ (fun _ => True)); [by eapply safe_lift|]. intros there _. destruct there; [|by apply IH].
  eapply safe_bind; [by apply kind_safe|]. intros d _. by apply IH.
Qed.

Lemma bitmap_safe ext e l : ext_checked ext e -> Forall (fun bf => kind_checked (bf_kind bf) /\ 0 <= bf_bit bf) l ->
  safe (decode_bitmap p idx ext e l) (fun _ => True).
Proof.
  intros He Hl. unfold decode_bitmap. eapply safe_bind; [by apply decode_fspec_safe|]. intros [fspec n] Hf. cbn [fst] in Hf.
  apply decode_fields_safe. unfold wire_order. rewrite merge_sort_Permutation, Forall_forall in *. intros bf Hin. destruct (Hl bf Hin) as [Hk Hb].
  split; [done|]. intros _. rewrite Hf. by apply octet_in_range.
Qed.
End safety.

(** C33: On every buffer, whoever wrote it, the decoder of a bitmap struct ends with an
    object or an error.  However many extension bits a peer sets, the loop over the
    octets stops at the end of the buffer, octets the struct has no room for are not
    stored, and the reader ends up inside the buffer, not before where it was.  The
    bitmap is big-endian or has a fixed number of octets, and the decoders of nested
    classes are safe. *)
Theorem bitmap_decoder_safe (p : Protocol) (idx : TypeIndex) (ext : option Z) (e : Ast.Endian) (l : list BitmapField) (r : BitReader) :
  ext_checked ext e -> Forall (fun bf => kind_checked p idx (bf_kind bf) /\ 0 <= bf_bit bf) l -> rwf r ->
  exists res r', decode_bitmap p idx ext e l r = Some (res, r') /\ rwf r' /\ rdata_ r' = rdata_ r /\ offset r <= offset r'.
Proof.
  intros He Hl Hw. destruct (bitmap_safe p idx ext e l He Hl r Hw) as (res & r' & E & (F1 & F2 & F3) & _). by exists res, r'.
Qed.

(** Twelve octets of extension bits for a struct that knows two. *)
Lemma bitmap_decoder_safe_witness :
  let fields := [mkBitmapField "time" 1 (BScaled time_info); mkBitmapField "mode" 9 (BNumber (plain_info "uint16_t" 16 false) EndianLittle)] in
  let r := new_reader (replicate 12 0xFF) in
  exists res r', decode_bitmap text_protocol text_index (Some 7) EndianBig fields r = Some (res, r') /\ rwf r' /\ rdata_ r' = rdata_ r /\ offset r <= offset r'.
Proof.
  intros fields r. apply (bitmap_decoder_safe text_protocol text_index (Some 7) EndianBig fields r).
  - split; [lia|done].
  - repeat constructor; cbn; lia.
  - apply new_reader_wf; [repeat constructor; lia|vm_compute; discriminate].
Defined.

(** ** What the bitmap code gets wrong *)

(** The bytes of an object, and what the decoder makes of them. *)
Definition through_bitmap (s : StructDef) (o : Members) : option (list Z * Result Members) :=
  l ← bitmap_fields text_protocol text_index "Track" track_class track_class no_variant (fun _ => []) s;
  match encode_bitmap text_protocol text_index (bitmap_ext s) (bitmap_endian s) l o with
  | Some (Ok ops) =>
      w ← run_writes ops new_writer;
      match finish w with
      | (Ok d, _) => '(res, _) ← decode_bitmap text_protocol text_index (bitmap_ext s) (bitmap_endian s) l (new_reader d); Some (d, res)
      | _ => None
      end
  | _ => None
  end.

(** Little-endian octets come last first, so the one without extension bit leads: the
    decoder stops there and takes it for the first. *)
Example little_ext_loses_fields :
  bitmap_errors (track_report (Some 7) EndianLittle) = []
  /\ through_bitmap (track_report (Some 7) EndianLittle) {[ "mode_" := DInt 0x0A7F ]}
     = Some ([0x40; 0x01; 0x7F; 0x0A], Ok {[ "time_" := DReal (physical (power_of_two (-7)) double_zero 0x017F0A) ]}).
Proof. split; vm_compute; reflexivity. Qed.

(** And it reverses as many octets as it read, beyond the end of the array. *)
Example little_ext_overruns :
  decode_bitmap text_protocol text_index (Some 7) EndianLittle (track_fields (Some 7) EndianLittle) (new_reader [0xFF; 0xFF; 0x00]) = None.
Proof. vm_compute. reflexivity. Qed.

(** An array with a bit is accepted, and forgotten. *)
Definition plots_array : StructChild :=
  ChArray (mkArrayDef "plots" "byte" [] (Some 2) None false false None None (Some 0) None None [] "" unknown_loc).
Definition array_report : StructDef := mkStructDef "plots" [plots_array] true 8 None EndianBig None None None false [] "" unknown_loc.

Example array_not_collected :
  bitmap_errors array_report = []
  /\ bitmap_fields text_protocol text_index "Track" track_class track_class no_variant (fun _ => []) array_report = Some [].
Proof. split; vm_compute; reflexivity. Qed.

(** A string of fixed length is filled up with zeros whatever its padding, and only
    the padding is trimmed. *)
Definition padded_callsign : StructChild :=
  ChField (mkField "callsign" "string" false None None false None None None None [] [] None (Some 0) None (Some 4) false None None false
    None (Some PadSpace) (Some TrimRight) None None None EndianBig true FmtDecimal false None false None None None [] "" unknown_loc).
Definition padded_report : StructDef := mkStructDef "call" [padded_callsign] true 8 None EndianBig None None None false [] "" unknown_loc.

Example bitmap_padding_ignored :
  through_bitmap padded_report {[ "callsign_" := DText (chars "AB") ]}
  = Some ([0x80; 0x41; 0x42; 0; 0], Ok {[ "callsign_" := DText (chars "AB" ++ [0; 0]) ]}).
Proof. vm_compute. reflexivity. Qed.

(** A choice on the extension bit is accepted. *)
Definition choice_report : StructDef :=
  mkStructDef "alt" [ChChoice (mkChoiceDef "body" None [] None None None (Some 7) None None [] "" unknown_loc)] true 8 (Some 7) EndianBig None None None
    false [] "" unknown_loc.

Example choice_on_extension_bit : bitmap_errors choice_report = [].
Proof. vm_compute. reflexivity. Qed.
