(* ===== verification/ArrayCodec.v ===== *)
(** * Arrays in generated code

    Models [emit_encode_array] of [conduit/bgen/src/codegen/cpp_structs_encode.cpp] and
    [emit_decode_array] of [cpp_structs_decode.cpp]: the elements one after the other,
    as many as a number in the description says, as an expression over other members
    says, as there are bytes left, as fit into so many bytes, or as long as the bit
    behind each element is set.  The classes of elements are what [class_of] and
    [element_class] say; the values of expressions are given. *)

From stdpp Require Import base numbers list gmap strings pretty.
From Stdlib Require Import ZArith Lia Floats.SpecFloat.
From S2P Require Import Prelude Bits CoreError Endian BitWriter BitReader BitIO CharConv AutoExpr ExprParser Ast TypeResolver ProtocolIndex Validation Names FieldCodec StructCodec TextCodec TextCodecSpec TextSafety ValueCodec ScaledCodec.

Open Scope Z_scope.
Local Open Scope reader_scope.

(** ** Elements *)

Inductive ElementKind :=
  | EEnum (en : EnumCode)
  | ENumber (i : FieldTypeInfo) (base : PrimitiveBase) (e : Ast.Endian)
  | EClass (c : Codec).

Section element.
Variable p : Protocol.
Variable idx : TypeIndex.
Variable class_of : string -> Codec.
Variable element_class : string -> Codec.

Definition type_element (t : TypeDef) (name : string) : ElementKind :=
  let has_wrapper := match td_flags t with [] => false | _ => true end || (is_some (td_scale t) || is_some (td_offset t))
                     || bool_decide (td_base t = BaseString) || is_some (td_constraint t) in
  match td_enum_values t with
  | _ :: _ => EEnum (declared_enum t)
  | [] =>
      if negb has_wrapper && (0 <? td_bits t) then
        ENumber (mkFti "" false false false false (bool_decide (td_base t = BaseFloat)) false (td_bits t) (bool_decide (td_base t = BaseInt))
                   false double_one double_zero 0 false EndianBig (td_wire_encoding t)) (td_base t) (td_endian t)
      else EClass (class_of name)
  end.

Definition element_kind (a : ArrayDef) : option ElementKind :=
  if String.eqb (ad_type_ref a) "" then Some (EClass (element_class (ad_name a +:+ "Element")))
  else
    let name := to_cpp_type_name (ad_type_ref a) in
    t ← type_at p idx (ad_type_ref a);
    Some (match t with Some t => type_element t name | None => EClass (class_of name) end).
End element.

(** *** Floats

    Elements are cast to the integer type of their width before they are stored, and
    the vector holds floats: the value of a float is truncated. *)

(** A float with so many bits of fraction and exponent. *)
Definition float_of_bits (fraction exponent z : Z) : spec_float :=
  let s := Z.testbit z (fraction + exponent) in
  let e := Z.shiftr z fraction mod 2 ^ exponent in
  let m := z mod 2 ^ fraction in
  let bias := 2 ^ (exponent - 1) - 1 in
  if e =? 0 then match m with Z.pos m => S754_finite s m (1 - bias - fraction) | _ => S754_zero s end
  else if e =? 2 ^ exponent - 1 then if m =? 0 then S754_infinity s else S754_nan
  else match m + 2 ^ fraction with Z.pos m => S754_finite s m (e - bias - fraction) | _ => S754_nan end.

(** The bits of an integer as a float. *)
Definition float_bits_of_int (fraction exponent n : Z) : Z :=
  match binary_normalize (fraction + 1) (2 ^ (exponent - 1)) n 0 false with
  | S754_finite s m e => (e + fraction + (2 ^ (exponent - 1) - 1)) * 2 ^ fraction + (Z.pos m - 2 ^ fraction)
  | _ => 0
  end.

Definition cast_float (bits v : Z) : option Z :=
  let '(fraction, exponent) := if bits <=? 32 then (23, 8) else (52, 11) in
  n ← int_of_double bits false (float_of_bits fraction exponent v);
  Some (float_bits_of_int fraction exponent n).

Definition cast_element (i : FieldTypeInfo) (base : PrimitiveBase) (v : Z) : option Z :=
  match base with
  | BaseFloat => if is_plain_float i then cast_float (fti_bits i) v else Some v
  | BaseBool => Some (if v =? 0 then 0 else 1)
  | _ => Some v
  end.

(** *** One element *)

Definition encode_element (k : ElementKind) (byte_aligned : bool) (d : Datum) : option (Result (list WriteOp)) :=
  match k with
  | EEnum en => encode_enum en d
  | ENumber i _ e => encode_plain i e byte_aligned d
  | EClass c => c_encode c d
  end.

Definition decode_element (ctx : string) (k : ElementKind) (byte_aligned : bool) : R Datum :=
  match k with
  | EEnum en => in_context (Some ctx) (decode_enum en)
  | ENumber i base e =>
      let! c := lift (read_call i e byte_aligned) in
      let! v := in_context (Some ctx) (read_int c) in
      let! v := lift (cast_element i base v) in
      ret (DInt v)
  | EClass c => in_context (Some ctx) (c_decode c)
  end.

(** ** Encoding *)

Fixpoint encode_elements (enc : Datum -> option (Result (list WriteOp))) (l : list Datum) : option (Result (list WriteOp)) :=
  match l with
  | [] => Some (Ok [])
  | d :: l =>
      res ← enc d;
      match res with
      | Fail e => Some (Fail e)
      | Ok ops => res ← encode_elements enc l; Some (match res with Ok ops' => Ok (ops ++ ops') | Fail e => Fail e end)
      end
  end.

(** With a bit behind each element that says whether another follows. *)
Fixpoint encode_fx_elements (enc : Datum -> option (Result (list WriteOp))) (l : list Datum) : option (Result (list WriteOp)) :=
  match l with
  | [] => Some (Ok [])
  | d :: l =>
      res ← enc d;
      match res with
      | Fail e => Some (Fail e)
      | Ok ops =>
          res ← encode_fx_elements enc l;
          Some (match res with Ok ops' => Ok (ops ++ WBits (match l with [] => 0 | _ => 1 end) 1 :: ops') | Fail e => Fail e end)
      end
  end.

(** [m] is the alignment tracker. *)
Definition encode_array (m : Z) (k : ElementKind) (a : ArrayDef) (d : Datum) : option (Result (list WriteOp)) :=
  match d with
  | DList l => if count_fx a then encode_fx_elements (encode_element k false) l else encode_elements (encode_element k (is_byte_aligned m)) l
  | _ => None
  end.

(** ** Decoding *)

Fixpoint decode_times (dec : R Datum) (n : nat) : R (list Datum) :=
  match n with
  | O => ret []
  | S n => let! d := dec in let! l := decode_times dec n in ret (d :: l)
  end.

Fixpoint decode_fx (ctx : string) (dec : R Datum) (fuel : nat) : R (list Datum) :=
  match fuel with
  | O => lift None
  | S fuel =>
      let! d := dec in
      let! more := in_context (Some ctx) (read_bits 1) in
      if negb (more =? 0) then let! l := decode_fx ctx dec fuel in ret (d :: l) else ret [d]
  end.

(** [while (!r.at_end())] *)
Fixpoint decode_to_end (dec : R Datum) (fuel : nat) : R (list Datum) := fun r =>
  if at_end r then ret [] r
  else match fuel with
       | O => None
       | S fuel => (let! d := dec in let! l := decode_to_end dec fuel in ret (d :: l)) r
       end.

(** More rounds than the buffer has bits, if each of them reads one. *)
Definition rounds (r : BitReader) : nat := S (8 * length (rdata_ r)).

(** On a reader of its own. *)
Definition within {A} (sub : BitReader) (m : R A) : R A := fun r =>
  match m sub with
  | Some (res, _) => Some (res, r)
  | None => None
  end.

Definition INT32_MAX : Z := 2 ^ 31 - 1.

(** [n] is the value of the count-from or of the length-from, [q] the name in
    messages.  Without any count there is no loop, and no code that compiles. *)
Definition decode_elements (m : Z) (q : string) (k : ElementKind) (a : ArrayDef) (n : Z) : R (list Datum) :=
  let ctx := "decode " +:+ q in
  if count_fx a then fun r => decode_fx ctx (decode_element ctx k false) (rounds r) r
  else match fixed_count a, count_from a, count_star a, ad_length_from a with
       | Some c, _, _, _ => decode_times (decode_element ctx k (is_byte_aligned m)) (Z.to_nat c)
       | None, Some _, _, _ =>
           if INT32_MAX <? sz n then
             in_context (Some ctx) (throw InvalidArgument (ctx +:+ ": decoded count " +:+ pretty (sz n) +:+ " exceeds INT32_MAX"))
           else decode_times (decode_element ctx k (is_byte_aligned m)) (Z.to_nat (sz n))
       | None, None, true, Some _ =>
           let! sub := in_context (Some ctx) (sub_reader (sz n)) in
           within sub (decode_to_end (decode_element ctx k true) (rounds sub))
       | None, None, true, None => fun r => decode_to_end (decode_element ctx k (is_byte_aligned m)) (rounds r) r
       | None, None, false, _ => lift None
       end.

Definition decode_array (m : Z) (q : string) (k : ElementKind) (a : ArrayDef) (n : Z) : R Datum :=
  fmap_R DList (decode_elements m q k a n).
