(* ===== verification/ArraySpec.v ===== *)
(** * Arrays, end to end

    Every way to count the elements of an array brings them back, and ends on any
    input. *)

From stdpp Require Import base numbers list gmap strings pretty.
From Stdlib Require Import ZArith Lia Floats.SpecFloat.
From S2P Require Import Prelude Bits CoreError Endian BitWriter BitReader BitIO CharConv AutoExpr ExprParser Ast TypeResolver ProtocolIndex Validation Names FieldCodec StructCodec TextCodec TextCodecSpec TextRoundtrip TextSafety ValueCodec ScaledCodec BitmapCodec BitmapSpec BitmapRoundtrip BitmapSafety ArrayCodec.

Open Scope Z_scope.
Local Open Scope reader_scope.

(** ** Positions *)





(** ** What an element promises *)







(** ** Elements one after the other *)

Section sequences.
Context (enc : Datum -> option (Result (list WriteOp))) (dec : R Datum) (al : bool).










(** *** With a bit behind each *)





End sequences.


(** ** Arrays *)







