(* ===== verification/ArraySafety.v ===== *)
(** * Arrays on arbitrary bytes

    The loops of array decoders end on every input if each element takes at least one
    bit from it, and what happens otherwise; arrays that do not give back what was
    written. *)

From stdpp Require Import base numbers list gmap strings pretty.
From Stdlib Require Import ZArith Lia Floats.SpecFloat.
From S2P Require Import Prelude Bits CoreError Endian BitWriter BitReader BitIO CharConv AutoExpr ExprParser Ast TypeResolver ProtocolIndex Validation Names FieldCodec StructCodec TextCodec TextCodecSpec TextRoundtrip TextSafety ValueCodec ScaledCodec BitmapCodec BitmapSpec BitmapRoundtrip BitmapSafety ArrayCodec ArraySpec.

Open Scope Z_scope.
Local Open Scope reader_scope.

(** ** Progress *)

(** A success leaves the reader behind where it was. *)
Class Progress {A} (m : R A) : Prop :=
  progress : forall r v r', rwf r -> m r = Some (Ok v, r') -> offset r < offset r'.

Lemma read_bits_progress n : 0 < n -> Progress (read_bits n).
Proof.
  intros Hn r v r' Hw E. destruct (decide (64 < n \/ len (BitReader.rest r) < n)) as [Hbad|Hok].
  - destruct (read_bits_fails r n Hw ltac:(lia) Hbad) as (err & E' & _). congruence.
  - rewrite <- (Z2Nat.id n) in E by lia. rewrite read_bits_split in E by (try done; lia). injection E as _ <-.
    destruct (advance_rest r (Z.of_nat (Z.to_nat n)) Hw) as (_ & _ & _ & Ho); [lia|]. lia.
Qed.

Global Instance progress_context {A} ctx (m : R A) : Progress m -> Progress (in_context ctx m).
Proof.
  intros H r v r' Hw E. unfold in_context in E. destruct (m r) as [[[x|err] r1]|] eqn:Em; destruct ctx; simplify_eq; by eapply H.
Qed.

(** Code that does not touch the reader. *)
Definition still {A} (m : R A) : Prop := forall r v r', m r = Some (Ok v, r') -> r' = r.

Lemma still_ret {A} (a : A) : still (ret a).
Proof. intros r v r'. unfold ret. by intros [= _ <-]. Qed.
Lemma still_throw {A} c m : still (throw c m : R A).
Proof. intros r v r'. unfold throw. done. Qed.
Lemma still_lift {A} (x : option A) : still (lift x).
Proof. intros r v r'. unfold lift. destruct x; cbn; [by intros [= _ <-]|done]. Qed.
Lemma still_bind {A B} (m : R A) (k : A -> R B) : still m -> (forall a, still (k a)) -> still (bind m k).
Proof.
  intros Hm Hk r v r' E. unfold bind in E. destruct (m r) as [[[a|err] r1]|] eqn:Em; [|done..]. rewrite (Hk a r1 v r' E). by apply (Hm r a).
Qed.
Create HintDb still discriminated.
#[local] Hint Resolve still_ret still_throw still_lift still_bind : still.

Lemma progress_then {A B} (m : R A) (k : A -> R B) : Progress m -> (forall a, still (k a)) -> Progress (bind m k).
Proof.
  intros Hm Hk r v r' Hr E. unfold bind in E. destruct (m r) as [[[a|err] r1]|] eqn:Em; [|done..]. rewrite (Hk a r1 v r' E). by apply (Hm r a).
Qed.

Lemma progress_after {A B} (m : R A) (k : A -> R B) : still m -> (forall a, Progress (k a)) -> Progress (bind m k).
Proof.
  intros Hm Hk r v r' Hr E. unfold bind in E. destruct (m r) as [[[a|err] r1]|] eqn:Em; [|done..]. rewrite (Hm r a r1 Em) in E. by eapply Hk.
Qed.

Lemma progress_throw {A} c m : Progress (throw c m : R A).
Proof. intros r v r' _. unfold throw. done. Qed.

(** Reads of whole bytes. *)
Lemma aligned_progress {A} n (load : list Z -> Z -> option A) (err : BitReader -> Error) : 0 < n <= 8 ->
  Progress (fun r => let a := reader_align_to_byte r in
    if len (rdata_ a) <? sz (byte_pos_ a + n) then Some (Fail (err a), a)
    else v ← load (rdata_ a) (byte_pos_ a); Some (Ok v, set_byte_pos (sz (byte_pos_ a + n)) a)).
Proof.
  intros Hn r v r' Hw E. destruct (align_forward r Hw) as (Hw' & Ed & Ho). pose proof (rwf_byte_pos _ Hw') as Hp. pose proof (rwf_size _ Hw') as Hs.
  cbv zeta in E. destruct (_ <? _); [done|]. destruct (load _ _); [|done]. injection E as _ <-.
  unfold offset, set_byte_pos in *. cbn. rewrite sz_small by (unfold SIZE_MAX in *; lia). lia.
Qed.

Lemma read_u8_progress : Progress read_u8.
Proof.
  intros r v r' Hw E. destruct (align_forward r Hw) as (Hw' & Ed & Ho). pose proof (rwf_byte_pos _ Hw') as Hp. pose proof (rwf_size _ Hw') as Hs.
  unfold read_u8 in E. cbv zeta in E. destruct (_ <=? _); [done|]. destruct (at_ _ _); [|done]. injection E as _ <-.
  unfold offset, set_byte_pos in *. cbn. rewrite sz_small by (unfold SIZE_MAX in *; lia). lia.
Qed.

Lemma encoded_reads_progress n : 0 < n -> Progress (read_signed_bits n) /\ Progress (read_bcd n) /\ Progress (read_bcd_signed n) /\ Progress (read_sign_magnitude n).
Proof.
  intros Hn. pose proof (read_bits_progress n Hn) as Hb. unfold read_signed_bits, read_bcd, read_bcd_signed, read_sign_magnitude.
  rewrite (proj2 (Z.eqb_neq n 0)) by lia.
  split_and!; repeat (case_match; try apply progress_throw); apply progress_then; try done; intros raw; repeat case_match; eauto with still.
  all: repeat first [apply still_bind; [apply still_lift|intros]|case_match|eauto with still].
Qed.

Definition call_width (c : ReadCall) : Z :=
  match c with ReadBcd n | ReadBcdSigned n | ReadSignMagnitude n | ReadSignedBits n | ReadBits n => sz n | _ => 8 end.

Lemma read_int_progress c : 0 < call_width c -> Progress (read_int c).
Proof.
  intros Hc. unfold read_int. apply progress_then; [|by intros []; eauto with still]. unfold run_read_call, fmap_R.
  apply progress_then; [|by intros; eauto with still].
  destruct c; cbn [call_width read_meaning fst run_read] in *; unfold fmap_R; apply progress_then; try (by intros; eauto with still);
    first [by apply encoded_reads_progress|by apply read_bits_progress|apply read_u8_progress|idtac].
  all: first [exact (aligned_progress 2 (fun d p => Endian.read_f16 d p _) _ ltac:(lia))
    |exact (aligned_progress 2 (fun d p => Endian.read_u16 d p _) _ ltac:(lia))
    |exact (aligned_progress 4 (fun d p => Endian.read_f32 d p _) _ ltac:(lia))|exact (aligned_progress 4 (fun d p => Endian.read_u32 d p _) _ ltac:(lia))
    |exact (aligned_progress 6 (fun d p => Endian.read_f48 d p _) _ ltac:(lia))
    |exact (aligned_progress 8 (fun d p => Endian.read_f64 d p _) _ ltac:(lia))|exact (aligned_progress 8 (fun d p => Endian.read_u64 d p _) _ ltac:(lia))].
Qed.

(** ** The loops *)

Lemma decode_times_safe dec n : safe dec (fun _ => True) -> safe (decode_times dec n) (fun l => length l = n).
Proof.
  intros Hd. induction n as [|n IH]; [by apply safe_ret|]. cbn [decode_times]. eapply safe_bind; [exact Hd|]. intros d _.
  eapply safe_bind; [exact IH|]. intros l Hl. apply safe_ret. cbn. by rewrite Hl.
Qed.

(** The bits that are left bound the rounds. *)
Definition enough (r : BitReader) (fuel : nat) : Prop := 8 * len (rdata_ r) < offset r + Z.of_nat fuel.

Lemma rounds_enough r : rwf r -> enough r (rounds r).
Proof. intros Hw. pose proof (rwf_byte_pos _ Hw). pose proof (rwf_bit_pos _ Hw). unfold enough, rounds, offset, len. lia. Qed.

Lemma enough_next r r' fuel : forward r r' -> offset r < offset r' -> enough r (S fuel) -> enough r' fuel.
Proof. intros (_ & Ed & _) Ho H. unfold enough in *. rewrite Ed. lia. Qed.

Lemma offset_bound r : rwf r -> offset r <= 8 * len (rdata_ r).
Proof.
  intros Hw. destruct (cursor_exists r Hw) as [pre [_ Hb Ho]]. pose proof (f_equal len Hb) as E. rewrite len_bytes_bits, len_app in E.
  pose proof (len_nonneg (BitReader.rest r)). lia.
Qed.

Lemma decode_fx_total ctx dec : safe dec (fun _ => True) -> forall fuel r, rwf r -> enough r fuel ->
  exists res r', decode_fx ctx dec fuel r = Some (res, r') /\ forward r r' /\ match res with Ok l => l <> [] | Fail _ => True end.
Proof.
  intros Hd. induction fuel as [|fuel IH]; intros r Hw He; [pose proof (offset_bound r Hw); unfold enough in He; lia|].
  cbn [decode_fx]. destruct (Hd r Hw) as ([d|err] & r1 & E1 & F1 & _); unfold bind at 1; rewrite E1; [|by exists (Fail err), r1].
  destruct (safe_context (Some ctx) _ _ (read_bits_safe 1 ltac:(lia)) r1 (proj1 F1)) as ([b|err] & r2 & E2 & F2 & _);
    unfold bind at 1; rewrite E2; [|exists (Fail err), r2; split_and!; [done|by eapply forward_trans|done]].
  assert (offset r1 < offset r2) as Ho by (eapply (progress_context (Some ctx) _ (read_bits_progress 1 ltac:(lia))); [apply F1|exact E2]).
  pose proof (forward_trans _ _ _ F1 F2) as F. destruct (negb (b =? 0)); [|by exists (Ok [d]), r2].
  destruct (IH r2 (proj1 F2)) as (res & r3 & E3 & F3 & _); [apply (enough_next r); [done| |done]; destruct F1 as (_ & _ & ?); lia|].
  unfold bind. rewrite E3. destruct res as [l|err]; eexists _, r3; (split_and!; [done|by eapply forward_trans|done]).
Qed.

Lemma decode_to_end_total dec : safe dec (fun _ => True) -> Progress dec -> forall fuel r, rwf r -> enough r (S fuel) ->
  exists res r', decode_to_end dec fuel r = Some (res, r') /\ forward r r'.
Proof.
  intros Hd Hp. induction fuel as [|fuel IH]; intros r Hw He; cbn [decode_to_end]; destruct (at_end r) eqn:Ea;
    try (by exists (Ok []), r; split; [|apply forward_refl]).
  - exfalso. unfold at_end, enough, offset in *. apply Z.leb_gt in Ea. pose proof (rwf_bit_pos _ Hw). lia.
  - destruct (Hd r Hw) as ([d|err] & r1 & E1 & F1 & _); unfold bind at 1; rewrite E1; [|by exists (Fail err), r1].
    destruct (IH r1 (proj1 F1)) as (res & r2 & E2 & F2); [apply (enough_next r); [done|by eapply Hp|done]|].
    unfold bind. rewrite E2. destruct res as [l|err]; eexists _, r2; (split; [done|by eapply forward_trans]).
Qed.

(** ** Elements *)

Definition element_checked (k : ElementKind) : Prop :=
  match k with
  | EEnum en => is_float_call (en_read en) = false
  | ENumber i base e => 0 < fti_bits i <= 64 /\ base <> BaseFloat
  | EClass c => SafeDecode c
  end.

(** No element without a bit. *)
Definition element_moves (k : ElementKind) : Prop :=
  match k with EEnum en => 0 < call_width (en_read en) | ENumber _ _ _ => True | EClass c => Progress (c_decode c) end.

Lemma read_call_width i e b c : read_call i e b = Some c -> 0 < fti_bits i <= 64 -> 0 < call_width c.
Proof.
  intros E Hb. assert (sz (fti_bits i) = fti_bits i) as Hs by (apply sz_small; unfold SIZE_MAX; lia).
  unfold read_call in E. rewrite (proj2 (Z.ltb_lt 0 _)), (proj2 (Z.leb_le _ 64)) in E by lia.
  cbn [andb] in E. repeat case_match; simplify_eq; cbn [call_width]; rewrite ?Hs; lia.
Qed.

Lemma element_safe ctx k b : element_checked k -> safe (decode_element ctx k b) (fun _ => True).
Proof.
  destruct k as [en|i base e|c]; cbn [element_checked decode_element]; intros H.
  - apply safe_context, (enum_safe en). by rewrite TCEq_eq.
  - destruct H as [Hb Hf]. assert (is_Some (read_call i e b)) as [c E].
    { unfold read_call. rewrite (proj2 (Z.ltb_lt 0 _)), (proj2 (Z.leb_le _ 64)) by lia. cbn. repeat case_match; by econstructor. }
    eapply (safe_bind _ _ (fun _ => True)); [by apply (safe_lift c)|]. intros c' _. eapply safe_bind; [apply safe_context, read_int_safe|]. intros v _.
    assert (exists x, cast_element i base v = Some x) as [x Ex] by (destruct base; try done; by eexists).
    eapply (safe_bind _ _ (fun _ => True)); [by apply (safe_lift x)|]. intros y _. by apply safe_ret.
  - by apply safe_context.
Qed.

Lemma element_progress ctx k b : element_checked k -> element_moves k -> Progress (decode_element ctx k b).
Proof.
  destruct k as [en|i base e|c]; cbn [element_checked element_moves decode_element]; intros H Hm.
  - apply progress_context. unfold decode_enum. apply progress_then; [|intros v; case_match; eauto with still].
    unfold read_underlying. rewrite H. apply progress_then; [by apply read_int_progress|eauto with still].
  - destruct H as [Hb _]. intros r v r' Hw E. unfold bind at 1 in E. destruct (read_call i e b) as [c|] eqn:Ec; [|done]. cbn in E. revert r v r' Hw E.
    change (Progress (let! v := in_context (Some ctx) (read_int c) in let! v := lift (cast_element i base v) in ret (DInt v))).
    apply progress_then; [|eauto with still]. apply progress_context, read_int_progress. by eapply read_call_width.
  - by apply progress_context.
Qed.

(** ** Arrays *)

Lemma sub_reader_safe n : 0 <= n <= 2 ^ 63 -> safe (sub_reader n) (fun sub => rwf sub).
Proof.
  intros Hn r Hw. pose proof (rwf_size _ Hw) as Hs. destruct (run_read_safe (RSub n) r Hw) as (res & r' & E & F); [cbn; unfold SIZE_MAX in *; lia|].
  cbn [run_read] in E. unfold fmap_R, bind, ret in E. destruct (sub_reader n r) as [[[sub|err] r1]|] eqn:Es; [..|done]; injection E as <- <-;
    eexists _, r1; (split_and!; [done|done|]); [|done].
  unfold sub_reader in Es. destruct (_ <? _); [done|]. destruct (subspan _ _ n) as [l|] eqn:El; [|done]. injection Es as <- _.
  unfold subspan in El. case_match; [|done]. injection El as <-. rewrite align_data. apply new_reader_wf.
  - apply Forall_take, Forall_drop, Hw.
  - unfold len in *. rewrite length_take, length_drop. unfold SIZE_MAX in *. lia.
Qed.

(** The number of elements, where the description or an expression says it. *)
Definition promised (a : ArrayDef) (n : Z) (l : list Datum) : Prop :=
  if count_fx a then l <> []
  else match fixed_count a, count_from a with
       | Some c, _ => len l = Z.max 0 c
       | None, Some _ => len l = n /\ n <= INT32_MAX
       | None, None => True
       end.

Definition counted (a : ArrayDef) : bool := count_fx a || is_some (fixed_count a) || is_some (count_from a) || count_star a.

(** C34: On every buffer, whoever wrote it, the decoder of an array of enums, integers
    or classes with a safe decoder ends with a list of elements or an error, for every
    value from 0 to 2^63 of the expression that gives its count or length.  (Elements
    of a float type are left out: [negative_float_undefined].)  A continuation bit
    costs a bit, so a peer cannot keep that loop going; the loop to the end of the
    buffer or of the sub-buffer ends if no element is empty; a count above 2^31 - 1 is
    refused; the reader stays inside the buffer, and where the description or an
    expression gives the number of elements, there are that many. *)
Theorem array_decoder_total (m : Z) (q : string) (k : ElementKind) (a : ArrayDef) (n : Z) (r : BitReader) :
  element_checked k -> (count_star a = true -> element_moves k) -> counted a = true -> 0 <= n <= 2 ^ 63 -> rwf r ->
  exists res r', decode_array m q k a n r = Some (res, r') /\ forward r r'
    /\ match res with Ok d => exists l, d = DList l /\ promised a n l | Fail _ => True end.
Proof.
  intros Hk Hm Hc Hn Hw. set (ctx := "decode " +:+ q). pose proof (fun b => element_safe ctx k b Hk) as Hs.
  enough (exists res r', decode_elements m q k a n r = Some (res, r') /\ forward r r' /\ match res with Ok l => promised a n l | Fail _ => True end)
    as (res & r' & E & F & HQ) by (unfold decode_array, fmap_R, bind, ret; rewrite E; destruct res as [l|err]; eexists _, r'; (split_and!; [done|done|]); [by exists l|done]).
  unfold decode_elements, promised, counted in *. fold ctx. rewrite sz_small by (unfold SIZE_MAX; lia). destruct (count_fx a).
  { destruct (decode_fx_total ctx _ (Hs false) (rounds r) r Hw (rounds_enough r Hw)) as (res & r' & E & F & HQ). by exists res, r'. }
  destruct (fixed_count a) as [c|].
  { destruct (decode_times_safe _ (Z.to_nat c) (Hs (is_byte_aligned m)) r Hw) as (res & r' & E & F & HQ). exists res, r'. split_and!; [done|done|].
    destruct res; [unfold len; lia|done]. }
  destruct (count_from a).
  { destruct (Z.ltb_spec INT32_MAX n).
    { eexists _, r. split; [reflexivity|]. split; [by apply forward_refl|done]. }
    destruct (decode_times_safe _ (Z.to_nat n) (Hs (is_byte_aligned m)) r Hw) as (res & r' & E & F & HQ). exists res, r'. split_and!; [done|done|].
    destruct res; [unfold len; lia|done]. }
  destruct (count_star a); [|done]. pose proof (fun b => element_progress ctx k b Hk (Hm eq_refl)) as Hp.
  assert (forall b r, rwf r -> exists res r', decode_to_end (decode_element ctx k b) (rounds r) r = Some (res, r') /\ forward r r') as Hend.
  { intros b r0 Hw0. apply (decode_to_end_total _ (Hs b) (Hp b)); [done|]. pose proof (rounds_enough r0 Hw0). unfold enough in *. lia. }
  destruct (ad_length_from a).
  - destruct (safe_context (Some ctx) _ _ (sub_reader_safe n Hn) r Hw) as ([sub|err] & r1 & E & F & HQ); unfold bind; rewrite E; [|by exists (Fail err), r1].
    destruct (Hend true sub HQ) as (res & r2 & E2 & _). unfold within. rewrite E2. exists res, r1. split_and!; [done|done|by destruct res].
  - destruct (Hend (is_byte_aligned m) r Hw) as (res & r' & E & F). exists res, r'. split_and!; [done|done|by destruct res].
Qed.

(** Elements of three bits to the end of a sub-buffer. *)
Definition star_array (length_from : bool) : ArrayDef :=
  mkArrayDef "plots" "plot" [] None None true false None (if length_from then Some length_expr else None) None None None [] "" unknown_loc.
Definition fx_array : ArrayDef := mkArrayDef "extents" "octet" [] None None false true None None None None None [] "" unknown_loc.

Lemma array_decoder_total_witness :
  let k := ENumber (number_info 3 false WireDefault) BaseUint EndianBig in
  exists res r', decode_array 0 "M.plots" k (star_array true) 2 (new_reader [0xA5; 0x5A; 0xFF]) = Some (res, r')
    /\ forward (new_reader [0xA5; 0x5A; 0xFF]) r' /\ match res with Ok d => exists l, d = DList l /\ promised (star_array true) 2 l | Fail _ => True end.
Proof.
  intros k. apply (array_decoder_total 0 "M.plots" k (star_array true) 2); [cbn; split; [lia|done]|done|done|lia|].
  apply new_reader_wf; [repeat constructor; lia|vm_compute; discriminate].
Defined.

(** ** What array code gets wrong *)

(** An array of an empty struct, to the end of a buffer with a byte in it, never ends:
    no number of rounds is enough. *)
Definition empty_class : Codec := mkCodec (fun _ => Some (Ok [])) (ret (DObject ∅)).

Example empty_elements_never_end fuel ctx : decode_to_end (decode_element ctx (EClass empty_class) true) fuel (new_reader [0]) = None.
Proof.
  induction fuel as [|fuel IH]; [done|]. cbn [decode_to_end]. change (at_end (new_reader [0])) with false. unfold bind at 1.
  change (decode_element ctx (EClass empty_class) true (new_reader [0])) with (Some (Ok (DObject ∅), new_reader [0])). cbv beta iota. unfold bind. by rewrite IH.
Qed.

(** Elements that do not fill their bytes: the padding is read as one more. *)
Definition array_bytes (m : Z) (k : ElementKind) (a : ArrayDef) (d : Datum) : option (list Z) :=
  match encode_array m k a d with
  | Some (Ok ops) => w ← run_writes ops new_writer; match finish w with (Ok d, _) => Some d | _ => None end
  | _ => None
  end.

Definition array_value (m : Z) (k : ElementKind) (a : ArrayDef) (n : Z) (data : list Z) : option (Result Datum) :=
  fst <$> decode_array m "M.plots" k a n (new_reader data).

Example padding_read_as_element :
  let k := ENumber (number_info 4 false WireDefault) BaseUint EndianBig in
  array_bytes 0 k (star_array false) (DList [DInt 7]) = Some [0x70]
  /\ array_value 0 k (star_array false) 0 [0x70] = Some (Ok (DList [DInt 7; DInt 0])).
Proof. split; vm_compute; reflexivity. Qed.

(** A float is cast to an integer on its way into the vector: one and a half becomes
    one. *)
Example float_elements_truncated :
  let k := ENumber (float_info "float" 32) BaseFloat EndianBig in
  array_bytes 0 k (star_array false) (DList [DInt 0x3FC00000]) = Some [0x3F; 0xC0; 0; 0]
  /\ array_value 0 k (star_array false) 0 [0x3F; 0xC0; 0; 0] = Some (Ok (DList [DInt 0x3F800000])).
Proof. split; vm_compute; reflexivity. Qed.

(** A negative float has no meaning as an unsigned integer. *)
Example negative_float_undefined :
  array_value 0 (ENumber (float_info "float" 32) BaseFloat EndianBig) (star_array false) 0 [0xBF; 0x80; 0; 0] = None.
Proof. vm_compute. reflexivity. Qed.

(** Nothing is written for an empty array with continuation bits, but an element is
    read. *)
Example empty_fx_array :
  let k := ENumber (number_info 7 false WireDefault) BaseUint EndianBig in
  array_bytes 0 k fx_array (DList []) = Some [] /\ array_value 0 k fx_array 0 [0x12] = Some (Ok (DList [DInt 9])).
Proof. split; vm_compute; reflexivity. Qed.

(** The encoder does not look at a fixed count, and the fixed byte length of an array
    is not looked at by either. *)
Definition bounded_array (count length : option Z) : ArrayDef :=
  mkArrayDef "plots" "byte" [] count None (negb (is_some count)) false length None None None None [] "" unknown_loc.

Example fixed_count_not_checked :
  let k := ENumber (number_info 8 false WireDefault) BaseUint EndianBig in
  array_bytes 0 k (bounded_array (Some 3) None) (DList [DInt 1; DInt 2]) = Some [1; 2].
Proof. vm_compute. reflexivity. Qed.

Example byte_length_ignored :
  let k := ENumber (number_info 8 false WireDefault) BaseUint EndianBig in
  array_value 0 k (bounded_array None (Some 2)) 0 [1; 2; 3] = Some (Ok (DList [DInt 1; DInt 2; DInt 3])).
Proof. vm_compute. reflexivity. Qed.
