(* ===== verification/Driver.v ===== *)
(** * The compiler driver

    Models [conduit/bgen/src/main.cpp] and [create_backend]: the command line, the
    order of the phases, what is printed and the exit code.  [Report] is a line on
    the standard error, [Generate] the call of a back end with all it is given.  The
    output the phases log themselves is left out, as in their models.

    Parameters are the file system, the conversions and orders the phases leave to
    the library, [create_directories] (the text of its exception, if it raises one)
    and whether a back end could write its files. *)

From stdpp Require Import base numbers list gmap strings pretty relations.
From Stdlib Require Import ZArith Lia Ascii SpecFloat.
From S2P Require Import Prelude CharConv ExprParser Ast AstBuilder ImportResolver TypeResolver ProtocolIndex Validation StructCycles CaseOverlap WireSizer SessionAnalyzer Validator ValidatorTotal XmlParser XmlParserSpec.

Open Scope Z_scope.

(** ** The command line *)

Record CliArgs := mkArgs {
  input : string; output : string; ns : string; language : string;
  verbose : bool; validate_only : bool; dump_ast : bool
}.
Definition no_args : CliArgs := mkArgs "" "" "" "cpp" false false false.

Definition set_input (v : string) (a : CliArgs) : CliArgs := mkArgs v (output a) (ns a) (language a) (verbose a) (validate_only a) (dump_ast a).
Definition set_output (v : string) (a : CliArgs) : CliArgs := mkArgs (input a) v (ns a) (language a) (verbose a) (validate_only a) (dump_ast a).
Definition set_ns (v : string) (a : CliArgs) : CliArgs := mkArgs (input a) (output a) v (language a) (verbose a) (validate_only a) (dump_ast a).
Definition set_language (v : string) (a : CliArgs) : CliArgs := mkArgs (input a) (output a) (ns a) v (verbose a) (validate_only a) (dump_ast a).
Definition set_verbose (a : CliArgs) : CliArgs := mkArgs (input a) (output a) (ns a) (language a) true (validate_only a) (dump_ast a).
Definition set_validate_only (a : CliArgs) : CliArgs := mkArgs (input a) (output a) (ns a) (language a) (verbose a) true (dump_ast a).
Definition set_dump_ast (a : CliArgs) : CliArgs := mkArgs (input a) (output a) (ns a) (language a) (verbose a) (validate_only a) true.

Definition uses_dot (language : string) : bool := String.eqb language "python" || String.eqb language "java".

(** Of one character; a hyphen stands for an underscore. *)
Definition starts_name (c : ascii) : bool := isalpha c || Ascii.eqb c "_" || Ascii.eqb c "-".
Definition continues_name (c : ascii) : bool := isalnum c || Ascii.eqb c "_" || Ascii.eqb c "-".

(** The loop: [fresh] says that the segment is empty. *)
Fixpoint namespace_loop (use_dot : bool) (fresh : bool) (t : text) : bool :=
  let plain c t := (if fresh then starts_name c else continues_name c) && namespace_loop use_dot false t in
  match t with
  | [] => negb fresh
  | c :: t =>
      if use_dot then
        if Ascii.eqb c "." then if fresh then false else namespace_loop use_dot true t
        else plain c t
      else
        match t with
        | c' :: t' =>
            if Ascii.eqb c ":" && Ascii.eqb c' ":" then if fresh then false else namespace_loop use_dot true t'
            else plain c t
        | [] => plain c t
        end
  end.

Definition is_valid_namespace (n language : string) : bool :=
  match txt n with [] => false | t => namespace_loop (uses_dot language) true t end.

(** What the driver prints and does. *)
Inductive Event :=
  | Usage
  | Stdout (line : string)
  | Report (line : string)
  | Dump (p : Protocol)
  | Generate (language : string) (p : Protocol) (idx : TypeIndex) (sizes : Sizes) (sessions : list SessionInfo) (ns dir : string).

Definition known_language (v : string) : bool := String.eqb v "cpp" || String.eqb v "python" || String.eqb v "java".

(** The checks after the loop. *)
Definition check_args (a : CliArgs) : (Z * list Event) + CliArgs :=
  if negb (String.eqb (ns a) "") && negb (is_valid_namespace (ns a) (language a)) then
    inl (1, [Report (if uses_dot (language a)
                     then "error: invalid namespace '" +:+ ns a +:+ "' (must be valid identifier(s) separated by .)"
                     else "error: invalid namespace '" +:+ ns a +:+ "' (must be valid C++ identifier(s) separated by ::)")])
  else if String.eqb (input a) "" then inl (1, [Report "error: --input is required"; Usage])
  else if String.eqb (output a) "" && negb (validate_only a) && negb (dump_ast a) then
    inl (1, [Report "error: --output is required (or use --validate-only)"; Usage])
  else inr a.

Section driver.
Variable version : string.

(** [argv] without the name of the program; the exit code with what is printed, or
    the arguments. *)
Fixpoint parse_loop (argv : list string) (a : CliArgs) : (Z * list Event) + CliArgs :=
  match argv with
  | [] => check_args a
  | arg :: rest =>
      let flag :=
        if String.eqb arg "--verbose" then parse_loop rest (set_verbose a)
        else if String.eqb arg "--validate-only" then parse_loop rest (set_validate_only a)
        else if String.eqb arg "--dump-ast" then parse_loop rest (set_dump_ast a)
        else inl (1, [Report ("error: unknown argument: " +:+ arg); Usage]) in
      if String.eqb arg "--help" || String.eqb arg "-h" then inl (0, [Usage])
      else if String.eqb arg "--version" then inl (0, [Stdout ("bgen " +:+ version)])
      else match rest with
      | v :: rest' =>
          if String.eqb arg "--input" then parse_loop rest' (set_input v a)
          else if String.eqb arg "--output" then parse_loop rest' (set_output v a)
          else if String.eqb arg "--namespace" then parse_loop rest' (set_ns v a)
          else if String.eqb arg "--language" then
            if known_language v then parse_loop rest' (set_language v a)
            else inl (1, [Report ("error: unknown language '" +:+ v +:+ "' (supported: cpp, python, java)")])
          else flag
      | [] => flag
      end
  end.

Definition parse_args (argv : list string) : (Z * list Event) + CliArgs := parse_loop argv no_args.

(** ** Messages *)

Definition loc_to_string (l : SourceLoc) : string :=
  if String.eqb (loc_file l) "" then "<unknown>"
  else if 0 <? loc_line l then loc_file l +:+ ":" +:+ pretty (loc_line l) +:+ ":" +:+ pretty (loc_column l)
  else loc_file l +:+ ":offset(" +:+ pretty (loc_offset l) +:+ ")".

(** [format()] of [BuildError], [ResolveError] and [ValidationError]. *)
Definition format (message : string) (l : SourceLoc) : string := loc_to_string l +:+ ": error: " +:+ message.

Definition info (a : CliArgs) (msg : string) : list Event := if verbose a then [Report ("bgen: " +:+ msg)] else [].
Definition warn (w : string * SourceLoc) : Event := Report ("bgen: warning: " +:+ loc_to_string w.2 +:+ ": " +:+ w.1).
Definition log_error (msg : string) : Event := Report ("bgen: error: " +:+ msg).

(** ** The phases *)

Inductive Backend := CppBackend | PythonBackend | JavaBackend.

Definition create_backend (language : string) : option Backend :=
  if String.eqb language "cpp" then Some CppBackend
  else if String.eqb language "python" then Some PythonBackend
  else if String.eqb language "java" then Some JavaBackend
  else None.

(** The namespace of the generated code: the option, the default of the protocol,
    or its name. *)
Definition raw_namespace (a : CliArgs) (p : Protocol) : string :=
  if negb (String.eqb (ns a) "") then ns a
  else match def_namespace (proto_defaults p) with Some n => n | None => proto_name p end.
Definition underscore (c : ascii) : ascii := if Ascii.eqb c "-" then "_"%char else c.
Definition namespace_of (a : CliArgs) (p : Protocol) : string := str (map underscore (txt (raw_namespace a p))).

Variable windows : bool.
Variable fs : Files.
Variable sort : list Range -> list Range.
Variable stod : string -> bool.
Variable char_is_signed : bool.
Variable create_directories : string -> option string.
Variable generated : Backend -> Protocol -> TypeIndex -> Sizes -> list SessionInfo -> string -> string -> bool.
Variable fuel : nat.

(** [es] comes before what the rest prints. *)
Definition after (es : list Event) (r : option (Z * list Event)) : option (Z * list Event) :=
  match r with Some (code, es') => Some (code, es ++ es') | None => None end.

Definition generate_code (a : CliArgs) (p : Protocol) (idx : TypeIndex) (sizes : Sizes) (sessions : list SessionInfo) : Z * list Event :=
  let n := namespace_of a p in
  let start := info a ("generating " +:+ language a +:+ " code in namespace '" +:+ n +:+ "'...") in
  match create_directories (output a) with
  | Some what => (2, start ++ [log_error ("cannot create output directory '" +:+ output a +:+ "': " +:+ what)])
  | None =>
      match create_backend (language a) with
      | None => (1, start ++ [log_error ("unknown language: " +:+ language a)])
      | Some b =>
          let call := Generate (language a) p idx sizes sessions n (output a) in
          if generated b p idx sizes sessions n (output a) then (0, start ++ [call])
          else (3, start ++ [call; log_error "I/O errors occurred"])
      end
  end.

Definition session_info (a : CliArgs) (s : SessionInfo) : list Event :=
  info a ("session '" +:+ session_name s +:+ "' -> " +:+ pretty (length (leaf_types s)) +:+ " leaf types").

(** From the validated protocol to the code. *)
Definition back_end (a : CliArgs) (p : Protocol) (idx : TypeIndex) : option (Z * list Event) :=
  if validate_only a then Some (0, info a "validation passed")
  else if dump_ast a then Some (0, [Dump p])
  else
  after (info a "computing wire sizes...") (
  sizes ← compute_wire_sizes p idx;
  after (info a "analyzing sessions...") (
  sessions ← analyze_sessions char_is_signed p idx fuel;
  after (flat_map (session_info a) sessions) (Some (generate_code a p idx sizes sessions)))).

Definition summary (p : Protocol) : string :=
  pretty (length (proto_types p)) +:+ " types, " +:+ pretty (length (proto_structs p)) +:+ " structs, "
  +:+ pretty (length (proto_messages p)) +:+ " messages, " +:+ pretty (length (proto_constants p)) +:+ " constants".

Definition compile (a : CliArgs) : option (Z * list Event) :=
  after (info a ("parsing " +:+ input a)) (
  match build_protocol (input a) (resolve_imports windows fs (input a)) with
  | BuildFailed es => Some (1, map (fun e => Report (format (build_message e) (build_loc e))) es)
  | Built p =>
      after (map warn (proto_warnings p) ++ info a ("protocol '" +:+ proto_name p +:+ "' v" +:+ proto_version p)
             ++ info a (summary p) ++ info a "resolving types...") (
      '(r, p') ← resolve_types p;
      match r with
      | Unresolved es => Some (1, map (fun e => Report (format (res_message e) (res_error_loc e))) es)
      | Resolved idx =>
          after (info a "validating...") (
          es ← validate sort stod p' idx fuel;
          match es with
          | [] => back_end a p' idx
          | _ => Some (1, map (fun e => Report (format (val_message e) (val_loc e))) es)
          end)
      end)
  end).

Definition main (argv : list string) : option (Z * list Event) :=
  match parse_args argv with inl r => Some r | inr a => compile a end.
End driver.

(** ** Namespaces *)

Definition separator (use_dot : bool) : text := if use_dot then txt "." else txt "::".
Definition name_ok (t : text) : bool := match t with c :: t => starts_name c && forallb continues_name t | [] => false end.
Definition continued (use_dot : bool) (l : list text) : text := flat_map (fun s => separator use_dot ++ s) l.

Lemma starts_continues c : starts_name c = true -> continues_name c = true.
Proof. unfold starts_name, continues_name, isalnum. destruct (isalpha c); [done|]. by destruct (isdigit c). Qed.

Lemma continues_plain c : continues_name c = true -> Ascii.eqb c "." = false /\ Ascii.eqb c ":" = false.
Proof. intros H. split; [destruct (Ascii.eqb_spec c ".") as [->|_]|destruct (Ascii.eqb_spec c ":") as [->|_]]; done. Qed.

Lemma loop_step ud fresh c t :
  Ascii.eqb c "." = false -> Ascii.eqb c ":" = false ->
  namespace_loop ud fresh (c :: t) = (if fresh then starts_name c else continues_name c) && namespace_loop ud false t.
Proof. intros H1 H2. cbn [namespace_loop]. rewrite H1, H2. by destruct ud, t. Qed.

Lemma loop_separator ud t : namespace_loop ud false (separator ud ++ t) = namespace_loop ud true t.
Proof. by destruct ud. Qed.

Lemma loop_name ud s t : forallb continues_name s = true -> namespace_loop ud false (s ++ t) = namespace_loop ud false t.
Proof.
  induction s as [|c s IH]; cbn [app forallb]; [done|]. intros [Hc Hs]%andb_true_iff. destruct (continues_plain c Hc).
  rewrite loop_step by done. by rewrite Hc, IH.
Qed.

Lemma loop_accepts ud s l :
  name_ok s = true -> Forall (fun s => name_ok s = true) l -> namespace_loop ud true (s ++ continued ud l) = true.
Proof.
  intros Hs Hl. revert s Hs. induction Hl as [|s' l Hs' _ IH]; (intros [|c s] Hs; [discriminate Hs|]);
    cbn [name_ok] in Hs; apply andb_true_iff in Hs as [Hc Hs]; destruct (continues_plain c (starts_continues c Hc)); cbn [app];
    rewrite loop_step, Hc, loop_name by done.
  - by rewrite ?app_nil_r.
  - cbn [continued flat_map andb]. rewrite <- app_assoc, loop_separator. by apply IH.
Qed.

Lemma loop_rejects ud n t fresh :
  (length t <= n)%nat -> namespace_loop ud fresh t = true ->
  exists s l, (if fresh then name_ok s else forallb continues_name s) = true /\ Forall (fun s => name_ok s = true) l
    /\ t = s ++ continued ud l.
Proof.
  revert t fresh. induction n as [|n IH]; intros [|c t] fresh Hn H; cbn [length] in Hn; try lia;
    try (destruct fresh; [done|]; exists [], []; by repeat constructor).
  assert ((if fresh then starts_name c else continues_name c) && namespace_loop ud false t = true ->
    exists s l, (if fresh then name_ok s else forallb continues_name s) = true /\ Forall (fun s => name_ok s = true) l
      /\ c :: t = s ++ continued ud l) as Hplain.
  { intros [Hc Ht]%andb_true_iff. apply IH in Ht as (s & l & Hs & Hl & ->); [|lia]. exists (c :: s), l. split_and!; [|done|done].
    destruct fresh; cbn; by rewrite Hc. }
  assert (forall t', c :: t = separator ud ++ t' -> (length t' <= n)%nat -> (if fresh then false else namespace_loop ud true t') = true ->
    exists s l, (if fresh then name_ok s else forallb continues_name s) = true /\ Forall (fun s => name_ok s = true) l
      /\ c :: t = s ++ continued ud l) as Hsep.
  { intros t' E Hl Ht. destruct fresh; [done|]. apply IH in Ht as (s & l & Hs & Hl' & ->); [|done]. exists [], (s :: l).
    split_and!; [done|by constructor|]. cbn. by rewrite E, app_assoc. }
  cbn [namespace_loop] in H. destruct ud.
  - destruct (Ascii.eqb_spec c ".") as [->|_]; [|by apply Hplain]. apply (Hsep t); [done|lia|done].
  - destruct t as [|c' t']; [by apply Hplain|]. destruct (Ascii.eqb_spec c ":") as [->|_]; [|by apply Hplain].
    destruct (Ascii.eqb_spec c' ":") as [->|_]; [|by apply Hplain]. apply (Hsep t'); [done|cbn in *; lia|done].
Qed.

(** the check of [--namespace] accepts exactly the names joined by the
    separator of the language ([.] for Java and Python, [::] for C++), each a
    letter, underscore or hyphen followed by letters, digits, underscores and
    hyphens; nothing before, between or after the separators may be empty. *)
Theorem namespace_exact (n language : string) :
  is_valid_namespace n language = true <->
  exists s l, Forall (fun s => name_ok s = true) (s :: l) /\ txt n = s ++ continued (uses_dot language) l.
Proof.
  unfold is_valid_namespace. split.
  - destruct (txt n) as [|c t] eqn:E; [done|]. intros H. apply loop_rejects with (n := length (c :: t)) in H as (s & l & Hs & Hl & ->); [|done].
    exists s, l. by repeat constructor.
  - intros (s & l & [Hs Hl]%Forall_cons & ->). destruct s as [|c s]; [done|]. cbn [app]. exact (loop_accepts _ (c :: s) l Hs Hl).
Qed.

(** ** The command line is read as it was meant *)

Ltac destruct_if_in H := lazymatch type of H with context [if ?b then _ else _] => destruct b eqn:? end.

Lemma parse_loop_checked version argv a b :
  parse_loop version argv a = inr b -> known_language (language a) = true -> check_args b = inr b /\ known_language (language b) = true.
Proof.
  remember (length argv) as n eqn:Hn. revert argv a Hn. induction n as [n IH] using lt_wf_ind. intros [|arg rest] a -> H Hk.
  - cbn in H. assert (a = b) as ->; [|done]. unfold check_args in H. repeat (destruct_if_in H; try discriminate). by injection H.
  - cbn [parse_loop] in H. set (flag := if String.eqb arg "--verbose" then _ else _) in H.
    assert (flag = inr b -> check_args b = inr b /\ known_language (language b) = true) as Hflag.
    { unfold flag. repeat destruct_if; try discriminate; intros Hf; (eapply IH; [|reflexivity|exact Hf|exact Hk]); cbn; lia. }
    clearbody flag. destruct_if_in H; [discriminate|]. destruct_if_in H; [discriminate|]. destruct rest as [|v rest]; [by apply Hflag|].
    repeat destruct_if_in H; try discriminate; try (by apply Hflag);
      (eapply IH; [|reflexivity|exact H|]; [cbn; lia|]); done.
Qed.

(** The arguments as a command line. *)
Definition render (a : CliArgs) : list string :=
  ["--input"; input a; "--output"; output a; "--namespace"; ns a; "--language"; language a]%string
  ++ (if verbose a then ["--verbose"%string] else []) ++ (if validate_only a then ["--validate-only"%string] else [])
  ++ (if dump_ast a then ["--dump-ast"%string] else []).

Lemma args_read_back version a : known_language (language a) = true -> check_args a = inr a -> parse_args version (render a) = inr a.
Proof. destruct a as [i o n l [] [] []]; intros Hl Hc; cbn in *; rewrite Hl; exact Hc. Qed.

(** ** What the compiler delivers *)

(** The files as the XML parser reads them; on a document that fits [None] does not
    occur. *)
Definition build_errors (es : list XmlParseError) : list BuildError := map (fun e => mkBuildError (xml_message e) (xml_loc e)) es.
Definition xml_reader (parse : string -> option (list XmlParseError + BmdlFile)) (path : string) : list BuildError + BmdlFile :=
  match parse path with Some (inr f) => inr f | Some (inl es) => inl (build_errors es) | None => inl [] end.

Section compiler.
Variable version : string.
Variable windows : bool.
Variable as_double : string -> spec_float.
Variable read_file : string -> option string.
Variable load_file load_buffer : string -> Document.
Variable normal : string -> string + string.
Variable beside : string -> string -> string.
Variable exists_file : string -> string + bool.
Variable sort : list Range -> list Range.
Variable stod : string -> bool.
Variable char_is_signed : bool.
Variable create_directories : string -> option string.
Variable generated : Backend -> Protocol -> TypeIndex -> Sizes -> list SessionInfo -> string -> string -> bool.

Definition parse_xml : string -> option (list XmlParseError + BmdlFile) := XmlParser.parse_bmdl_file as_double read_file load_file load_buffer.
Definition disk : Files := mkFiles (xml_reader parse_xml) normal beside exists_file.
Definition bgen : nat -> list string -> option (Z * list Event) :=
  main version windows disk sort stod char_is_signed create_directories generated.

Definition built (a : CliArgs) (p : Protocol) : Prop := build_protocol (input a) (resolve_imports windows disk (input a)) = Built p.

(** Conditions under which the phases are defined and end. *)
Record ordinary (p : Protocol) : Prop := {
  ord_literals : literals_defined p;
  ord_resolved : forall p' idx, resolve_types p = Some (Resolved idx, p') -> no_overflow p' /\ no_followed_cycle p' /\ analyzable p'
}.

(** What a back end is given, and where it comes from. *)
Record compiled (a : CliArgs) (fuel : nat) (p' : Protocol) (idx : TypeIndex) (sizes : Sizes) (sessions : list SessionInfo) : Prop := {
  from_files : exists files paths p, resolve_imports windows disk (input a) = inr files
    /\ Forall2 (fun q f => parse_xml q = Some (inr f)) paths files /\ NoDup (map (dedup_key windows) paths)
    /\ build_protocol (input a) (inr files) = Built p /\ well_formed p /\ resolve_types p = Some (Resolved idx, p');
  no_complaints : validate sort stod p' idx fuel = Some [];
  with_sizes : sizes_exact p' idx sizes;
  with_sessions : if decide (NoDup (map (fnv1a_hash char_is_signed) (message_names p')))
    then Forall2 (session_of char_is_signed p') (proto_frames p') sessions else sessions = []
}.

Record outcome (a : CliArgs) (fuel : nat) (code : Z) (out : list Event) : Prop := {
  (** The exit codes of the program. *)
  exit_codes : code = 0 \/ code = 1 \/ code = 2 \/ code = 3;
  (** A failure is explained. *)
  explained : code <> 0 -> exists line, Report line ∈ out;
  (** A back end runs on what the phases computed, if at all. *)
  generates : forall l p' idx sizes sessions n dir, Generate l p' idx sizes sessions n dir ∈ out ->
    l = language a /\ n = namespace_of a p' /\ dir = output a /\ compiled a fuel p' idx sizes sessions;
  (** On success the work is done: the protocol is valid, and code is generated unless
      the command line asks for less. *)
  success : code = 0 -> exists p p' idx, built a p /\ well_formed p /\ resolve_types p = Some (Resolved idx, p')
    /\ validate sort stod p' idx fuel = Some []
    /\ (validate_only a = false -> dump_ast a = false ->
        exists sizes sessions, Generate (language a) p' idx sizes sessions (namespace_of a p') (output a) ∈ out)
}.

Definition reports (es : list Event) : Prop := Forall (fun e => exists line, e = Report line) es.

Lemma reports_info a msg : reports (info a msg).
Proof. unfold info. destruct (verbose a); [|constructor]. constructor; [by eexists|constructor]. Qed.

Lemma outcome_after a fuel es code out : reports es -> outcome a fuel code out -> outcome a fuel code (es ++ out).
Proof.
  intros He [H1 H2 H3 H4]. split; [done| | |].
  - intros Hc. destruct (H2 Hc) as [l Hl]. exists l. apply elem_of_app. by right.
  - intros l p' idx sizes sessions n dir [Hin|Hin]%elem_of_app; [|by apply H3]. unfold reports in He. rewrite Forall_forall in He.
    by destruct (He _ Hin).
  - intros Hc. destruct (H4 Hc) as (p & p' & idx & Hb & Hw & Hr & Hv & Hg). exists p, p', idx. split_and!; try done.
    intros Ho Hd. destruct (Hg Ho Hd) as (sizes & sessions & Hin). exists sizes, sessions. apply elem_of_app. by right.
Qed.

(** A phase that gives up has errors to show. *)
Lemma outcome_errors {E} a fuel (f : E -> string) es : es <> [] -> outcome a fuel 1 (map (fun e => Report (f e)) es).
Proof.
  intros He. split; [by right; left| |intros l p' idx sizes sessions n dir Hin|done].
  - intros _. destruct es as [|e es]; [done|]. exists (f e). by left.
  - apply list_elem_of_fmap in Hin as (e & [=] & _).
Qed.

Lemma generate_outcome a fuel p p' idx sizes sessions :
  known_language (language a) = true -> built a p -> well_formed p -> resolve_types p = Some (Resolved idx, p') ->
  compiled a fuel p' idx sizes sessions ->
  outcome a fuel (generate_code create_directories generated a p' idx sizes sessions).1
    (generate_code create_directories generated a p' idx sizes sessions).2.
Proof.
  intros Hk Hb Hw Hr Hc. pose proof (no_complaints _ _ _ _ _ _ Hc) as Hv. unfold generate_code.
  assert (forall code line, code = 1 \/ code = 2 -> outcome a fuel code [log_error line]) as Hfail.
  { intros code line Hcode. split; [tauto| |intros ? ? ? ? ? ? ? Hin; apply list_elem_of_singleton in Hin; discriminate Hin|intros ->; lia].
    intros _. eexists. by left. }
  destruct (create_directories (output a)); [apply outcome_after; [apply reports_info|]; by apply Hfail; right|].
  destruct (create_backend (language a)) as [b|]; [|apply outcome_after; [apply reports_info|]; by apply Hfail; left].
  assert (forall code, code = 0 \/ code = 3 -> forall out, out = [] \/ (exists line, out = [Report line]) -> (code <> 0 -> out <> []) ->
    outcome a fuel code (Generate (language a) p' idx sizes sessions (namespace_of a p') (output a) :: out)) as Hgen.
  { intros code Hcode out Hout Hex. split; [tauto| | |].
    - intros H. destruct Hout as [->|[line ->]]; [by destruct (Hex H)|]. exists line. by right; left.
    - intros ? ? ? ? ? ? ? [Hin|Hin]%elem_of_cons; [by injection Hin as -> -> -> -> -> -> ->|].
      destruct Hout as [->|[line ->]]; [by apply elem_of_nil in Hin|]. apply list_elem_of_singleton in Hin. discriminate Hin.
    - intros ->. exists p, p', idx. split_and!; try done. intros _ _. exists sizes, sessions. by left. }
  destruct (generated _ _ _ _ _ _ _); apply outcome_after; try apply reports_info; apply Hgen; try tauto; try done.
  right. by eexists.
Qed.

(** The files of a successful import resolution were read by the XML parser. *)
Lemma files_read a files :
  (forall q, document_fits read_file load_file load_buffer q) -> resolve_imports windows disk (input a) = inr files ->
  exists paths, Forall2 (fun q f => parse_xml q = Some (inr f)) paths files /\ NoDup (map (dedup_key windows) paths).
Proof.
  intros Hfit E.
  assert (forall q es, ImportResolver.parse_bmdl_file disk q = inl es -> es <> []) as Hes.
  { intros q es. cbn. unfold xml_reader, parse_xml. destruct (xml_parser_answers as_double read_file load_file load_buffer q (Hfit q)) as (r & -> & Hr).
    destruct r as [l|f]; [|done]. intros [= <-]. specialize (Hr l eq_refl). by destruct l. }
  destruct (normalize disk (input a)) as [what|abs] eqn:En.
  - exfalso. unfold resolve_imports, normalize_path in E. rewrite En in E.
    destruct (resolve_file_grows windows disk (S MAX_IMPORT_DEPTH) (input a)
      (add_errors [mkBuildError ("path normalization failed for: " +:+ input a +:+ " (" +:+ what +:+ ")") (mkLoc "" 0 0 0)] (mkResolver ∅ [] []))) as [es Hg].
    rewrite Hg in E. discriminate E.
  - pose proof (resolve_imports_spec windows disk Hes (input a) abs En) as H. rewrite E in H. destruct H as (paths & HF & Hnd & _).
    exists paths. split; [|done]. eapply Forall2_impl; [exact HF|]. cbn. unfold xml_reader. intros q f Hq.
    destruct (parse_xml q) as [[es|f']|]; try discriminate Hq. by injection Hq as ->.
Qed.

(** The phases that need fuel, once there is enough of it. *)
Definition phases_return (p' : Protocol) (idx : TypeIndex) (fuel : nat) : Prop :=
  (exists es, validate sort stod p' idx fuel = Some es)
  /\ exists sessions, analyze_sessions char_is_signed p' idx fuel = Some sessions
     /\ if decide (NoDup (map (fnv1a_hash char_is_signed) (message_names p')))
        then Forall2 (session_of char_is_signed p') (proto_frames p') sessions else sessions = [].

Lemma phases_eventually p p' idx :
  SortsByLo sort -> ordinary p -> resolve_types p = Some (Resolved idx, p') -> eventually (phases_return p' idx).
Proof.
  intros HS [Hl Ho] E. destruct (Ho p' idx E) as (Hno & Hac & Han). pose proof (resolved_index p p' idx Hl E) as Hidx.
  destruct (detect_cycles_spec p' idx) as (es & Hes & Hcyc & Hacc). assert (es = []) as ->.
  { destruct es as [|e es]; [done|]. exfalso. rewrite Forall_forall in Hcyc. destruct (Hcyc e) as (l & x & y & _ & Hxy & Hyx); [by left|].
    apply (Hac x). by eapply tc_rtc_r; [apply tc_once|]. }
  destruct (validate_eventually sort stod p p' idx HS Hl E Hno Hac) as [F1 H1].
  destruct (resolved_sessions char_is_signed p p' idx Hl E Hes Han) as [F2 H2].
  exists (F1 + F2)%nat. intros fuel Hf. split; [apply H1; lia|apply H2; lia].
Qed.

Lemma back_end_outcome a fuel p p' idx :
  (forall q, document_fits read_file load_file load_buffer q) -> known_language (language a) = true -> ordinary p ->
  built a p -> well_formed p -> resolve_types p = Some (Resolved idx, p') -> validate sort stod p' idx fuel = Some [] ->
  phases_return p' idx fuel ->
  exists code out, back_end char_is_signed create_directories generated fuel a p' idx = Some (code, out) /\ outcome a fuel code out.
Proof.
  intros Hfit Hk [Hl _] Hb Hw Hr Hv [_ (sessions & Es & Hs)].
  assert (forall out, (forall e, e ∈ out -> forall l p' idx sizes sessions n dir, e <> Generate l p' idx sizes sessions n dir) ->
    validate_only a = true \/ dump_ast a = true -> outcome a fuel 0 out) as Hstop.
  { intros out Hout Hflag. split; [by left|done| |].
    - intros l q i sz' ss n dir Hin. by destruct (Hout _ Hin l q i sz' ss n dir).
    - intros _. exists p, p', idx. split_and!; try done. intros H1 H2. rewrite H1, H2 in Hflag. by destruct Hflag. }
  unfold back_end. destruct (validate_only a) eqn:Ev; [|destruct (dump_ast a) eqn:Ed].
  - do 2 eexists. split; [done|]. apply Hstop; [|by left]. intros e He. pose proof (reports_info a "validation passed") as H.
    unfold reports in H. rewrite Forall_forall in H. destruct (H e He) as [line ->]. done.
  - do 2 eexists. split; [done|]. apply Hstop; [|by right]. intros e ->%list_elem_of_singleton. done.
  - destruct (resolved_wire_sizes p p' idx Hl Hr) as (sizes & -> & Hsz). cbn [mbind option_bind]. rewrite Es. cbn [mbind option_bind after].
    assert (compiled a fuel p' idx sizes sessions) as Hc.
    { split; [|done|done|done]. unfold built in Hb. destruct (resolve_imports windows disk (input a)) as [es|files] eqn:Er; [done|].
      destruct (files_read a files Hfit Er) as (paths & HF & Hnd). exists files, paths, p. by split_and!. }
    pose proof (generate_outcome a fuel p p' idx sizes sessions Hk Hb Hw Hr Hc) as Hg.
    destruct (generate_code create_directories generated a p' idx sizes sessions) as [code out]. do 2 eexists. split; [done|].
    repeat (apply outcome_after; [try apply reports_info|]); [|exact Hg].
    unfold reports. rewrite Forall_flat_map. apply Forall_true. intros s. apply reports_info.
Qed.

Lemma compile_outcome a :
  SortsByLo sort -> (forall q, document_fits read_file load_file load_buffer q) -> known_language (language a) = true ->
  (forall p, built a p -> ordinary p) ->
  eventually (fun fuel => exists code out,
    compile windows disk sort stod char_is_signed create_directories generated fuel a = Some (code, out) /\ outcome a fuel code out).
Proof.
  intros HS Hfit Hk Hord. unfold compile.
  assert (forall es r fuel, reports es -> (exists code out, r = Some (code, out) /\ outcome a fuel code out) ->
    exists code out, after es r = Some (code, out) /\ outcome a fuel code out) as Hafter.
  { intros es r fuel He (code & out & -> & Ho). exists code, (es ++ out). split; [done|by apply outcome_after]. }
  destruct (build_protocol _ _) as [p|es] eqn:Eb.
  - destruct (resolve_types_spec p (ord_literals p (Hord p Eb))) as (r & p' & Er & _ & _ & Hr). destruct r as [idx|es].
    + destruct (phases_eventually p p' idx HS (Hord p Eb) Er) as [F HF]. exists F. intros fuel Hle. destruct (HF fuel Hle) as [[es Ev] Hs].
      apply Hafter; [apply reports_info|]. apply Hafter; [|rewrite Er; cbn [mbind option_bind]].
      { repeat (apply Forall_app; split); try apply reports_info. apply Forall_map, Forall_true. intros w. by eexists. }
      apply Hafter; [apply reports_info|]. rewrite Ev. cbn [mbind option_bind].
      destruct es as [|e es]; [apply (back_end_outcome a fuel p); try done; [by apply Hord|apply Hr|by split; [exists []|]]|].
      do 2 eexists. split; [done|]. by apply (outcome_errors a fuel (fun e => format (val_message e) (val_loc e)) (e :: es)).
    + exists 0%nat. intros fuel _. apply Hafter; [apply reports_info|]. apply Hafter; [|rewrite Er; cbn [mbind option_bind]].
      { repeat (apply Forall_app; split); try apply reports_info. apply Forall_map, Forall_true. intros w. by eexists. }
      do 2 eexists. split; [done|]. apply (outcome_errors a fuel (fun e => format (res_message e) (res_error_loc e))), Hr.
  - exists 0%nat. intros fuel _. apply Hafter; [apply reports_info|]. do 2 eexists. split; [done|].
    apply (outcome_errors a fuel (fun e => format (build_message e) (build_loc e))).
    unfold build_protocol in Eb. destruct (resolve_imports _ _ _) as [es'|files] eqn:Ei.
    + injection Eb as <-. unfold resolve_imports in Ei. destruct (normalize_path _ _ _) as [abs st].
      destruct (errors_ _); [discriminate Ei|]. by injection Ei as <-.
    + destruct (filter _ files) as [|f [|]]; try discriminate Eb; by injection Eb as <-.
Qed.

(** C10: The whole compiler.  Whatever the command line and the files, if the sizes
    in the XML documents add up, no literal or size overflows and nothing contains
    itself, [main] ends with a code between 0 and 3.  A command line that is not
    accepted ends it at once.  Otherwise a failure is explained by at least one line;
    a back end runs at most on the result of all phases: the files of the import
    tree, each read by the XML parser, merged into a well-formed protocol without a
    complaint of the validator; its wire sizes, which are those of the layout where no
    reference names a struct with a presence bitmap; and one session per frame, or
    none if the hashed names of two messages collide, which stops no back end.  With
    code 0 the protocol is valid and, unless less was asked for, the back end has
    run. *)
Theorem compiler_delivers (argv : list string) :
  SortsByLo sort -> (forall q, document_fits read_file load_file load_buffer q) ->
  (forall a p, parse_args version argv = inr a -> built a p -> ordinary p) ->
  exists F, forall fuel, (F <= fuel)%nat -> exists code out, bgen fuel argv = Some (code, out)
    /\ match parse_args version argv with inl r => r = (code, out) | inr a => outcome a fuel code out end.
Proof.
  intros HS Hfit Hord. unfold bgen, main. destruct (parse_args version argv) as [[code out]|a] eqn:Ea.
  - exists 0%nat. intros fuel _. by exists code, out.
  - apply compile_outcome; [done|done| |by intros p; apply Hord]. by apply (parse_loop_checked version argv no_args).
Qed.
End compiler.

(** ** A compilation from the document to the back end *)

Definition sample_message (type : string) : xml :=
  Element "messages" [] [Element "message" [("name", "Ping"); ("id", "1")] [Element "field" [("name", "x"); ("type", type)] [] 80] 70] 60.
Definition sample_types : xml := Element "types" [] [Element "type" [("name", "u8"); ("base", "uint"); ("bits", "8")] [] 50] 40.
Definition sample_defaults (n : string) : xml := Element "defaults" [] [Element "namespace" [] [Text n 30] 20] 10.
Definition sample_frame_node : xml :=
  Element "frame" [("name", "Link")]
    [Element "field" [("name", "kind"); ("bits", "8"); ("auto", "id")] [] 100; Element "payload" [] [] 110] 90.
Definition sample_document (n : string) : xml :=
  Element "bmdl" [("version", "2.0")] [sample_defaults n; sample_types; sample_message "u8"; sample_frame_node] 0.

(** The compiler where every file is the one document. *)
Definition compiler_on (load : string -> Document) : nat -> list string -> option (Z * list Event) :=
  bgen "dev" false no_double (fun _ => None) load load (fun q => inr q) (fun _ h => h) (fun _ => inr true) stable_sort
    (fun _ => true) true (fun _ => None) (fun _ _ _ _ _ _ _ => true).
Definition sample_load (n q : string) : Document := inr [sample_document n].
Definition sample_argv : list string := ["--input"; "a.xml"; "--output"; "out"].

(** What of a run the examples look at: code, lines and namespaces generated in. *)
Definition observed (r : option (Z * list Event)) : option (Z * list string) :=
  match r with
  | Some (code, es) =>
      Some (code, flat_map (fun e => match e with Report l => [l] | Generate _ _ _ _ _ n _ => ["namespace " +:+ n] | _ => [] end) es)
  | None => None
  end.

Example sample_compiles : observed (compiler_on (sample_load "de-mo") 20 sample_argv) = Some (0, ["namespace de_mo"]).
Proof. vm_compute. reflexivity. Qed.

(** Only [--namespace] is checked: that of the document is used as it is. *)
Example unchecked_namespace :
  observed (compiler_on (sample_load "two words") 20 sample_argv) = Some (0, ["namespace two words"])
  /\ is_valid_namespace "two words" "cpp" = false.
Proof. vm_compute. split; reflexivity. Qed.

(** The [ns] of an import has no effect: the imported type is found without the
    prefix, and not with it. *)
Definition importing (type q : string) : Document :=
  if String.eqb q "lib.xml" then inr [Element "bmdl" [("version", "2.0")] [sample_types] 0]
  else inr [Element "bmdl" [("version", "2.0")]
         [sample_defaults "demo"; Element "import" [("href", "lib.xml"); ("ns", "lib")] [] 5; sample_message type; sample_frame_node] 0].

Example import_ns_ignored :
  observed (compiler_on (importing "u8") 20 sample_argv) = Some (0, ["namespace demo"])
  /\ match observed (compiler_on (importing "lib:u8") 20 sample_argv) with Some (code, l) => code = 1 /\ length l = 1%nat | None => False end.
Proof. vm_compute. auto. Qed.

Lemma sample_built p :
  built false no_double (fun _ => None) (sample_load "de-mo") (sample_load "de-mo") (fun q => inr q) (fun _ h => h) (fun _ => inr true)
    (mkArgs "a.xml" "out" "" "cpp" false false false) p -> ordinary p.
Proof.
  intros H. vm_compute in H. injection H as <-.
  match goal with |- ordinary ?q => assert (literals_defined q) as Hl by (by apply literals_checked_defined) end.
  split; [exact Hl|]. intros p' idx E. assert (no_followed_cycle p') as Hac.
  { intros n. pose proof (resolved_index _ p' idx Hl E) as Hidx. destruct (detect_cycles_spec p' idx) as (es & D & _ & A).
    apply acc_no_cycle, A. clear A Hidx Hl. vm_compute in E. injection E as <- <-. vm_compute in D. by injection D as <-. }
  split_and!; [apply no_overflow_checked|exact Hac|apply analyzable_checked]; clear Hl Hac; vm_compute in E; injection E as <- <-;
    repeat first [apply Forall_nil; exact I | apply Forall_cons; split | exact I | (vm_compute; discriminate)].
Qed.

Lemma compiler_delivers_witness :
  exists F code out, compiler_on (sample_load "de-mo") F sample_argv = Some (code, out) /\ (code <> 0 -> exists line, Report line ∈ out).
Proof.
  destruct (compiler_delivers "dev" false no_double (fun _ => None) (sample_load "de-mo") (sample_load "de-mo") (fun q => inr q) (fun _ h => h)
    (fun _ => inr true) stable_sort (fun _ => true) true (fun _ => None) (fun _ _ _ _ _ _ _ => true) sample_argv) as [F HF].
  - exact stable_sort_sorts.
  - intros q. apply Forall_singleton, fits_by_search. vm_compute. reflexivity.
  - intros a p Ha. vm_compute in Ha. injection Ha as <-. apply sample_built.
  - destruct (HF F (le_n F)) as (code & out & E & Ho). exists F, code, out. split; [exact E|].
    change (parse_args "dev" sample_argv) with (inr (A := Z * list Event) (mkArgs "a.xml" "out" "" "cpp" false false false)) in Ho. apply Ho.
Defined.
