(* ===== verification/SysCalls.v ===== *)
(** * Programs that call the operating system

    The transports ([conduit/src/transceiver/transport]) run on threads of their
    own, talk to the kernel and share variables with other threads.  A thread is
    a tree of calls ([prog]): every system call and every access to a shared
    variable is a node, and its answer chooses the subtree.  The library's own
    code is in the trees; what the kernel and the other threads answer is left
    open, so a statement about all answers is a statement about all kernels and
    all interleavings.

    Two readings of a tree are used: [wp], the calls a thread may make when it
    owns a given part of the world, and [run], its execution against one
    sequence of answers. *)

From stdpp Require Import base numbers list strings.
From Stdlib Require Import ZArith Lia.
From S2P Require Import Prelude.

Open Scope Z_scope.

(** ** POSIX calls *)

Record pollfd := mkPollfd { pfd : Z; events : Z; revents : Z }.

Inductive shutdown_how := SHUT_WR | SHUT_RDWR.

(** Socket options of the UDP transport; addresses of groups and interfaces are
    numbers. *)
Inductive sockopt :=
  | SO_REUSEPORT | SO_RCVBUF (size : Z) | SO_SNDBUF (size : Z)
  | IP_ADD_MEMBERSHIP (group iface : Z) | IP_DROP_MEMBERSHIP (group iface : Z)
  | IP_MULTICAST_TTL (ttl : Z) | IP_MULTICAST_LOOP (loop : Z) | IP_MULTICAST_IF (iface : Z).

(** An IPv4 address, as [ntohl] gives it, and a port. *)
Definition Addr : Type := Z * Z.

Inductive sys :=
  | Socket
  | Fcntl_getfl (fd : Z)
  | Fcntl_setfl (fd flags : Z)
  | Setsockopt_nodelay (fd : Z)
  | Setsockopt_reuse (fd : Z)
  | Getsockopt_error (fd : Z)
  | Getaddrinfo (host port : string)
  | Freeaddrinfo (addr : Z)
  | Connect (fd addr : Z)
  | Bind (fd addr port : Z)
  | Listen (fd : Z)
  | Accept (fd : Z)
  | Getsockname (fd : Z)
  | Errno
  | Now
  | Poll (fds : list pollfd) (timeout_ms : Z)
  | Recv (fd size : Z)
  | Send (fd : Z) (bytes : list Z)
  | Shutdown (fd : Z) (how : shutdown_how)
  | Close (fd : Z)
  | Pipe2
  | Read (fd size : Z)
  | Write (fd : Z) (bytes : list Z)
  | Socket_udp
  | Setsockopt (fd : Z) (opt : sockopt)
  | Sendto (fd : Z) (bytes : list Z) (dest : Addr)
  | Recvfrom (fd size : Z).

(** What a call answers: its return value and what it writes through pointers.
    [poll] writes a [revents] for every position; [getsockopt] may leave
    [so_error] alone; [recv] fills the front of the buffer; [accept] gives the
    address of the client, as [inet_ntop] writes it, and its port; [getsockname]
    the port of the socket; [recvfrom] the datagram and where it comes from;
    [steady_clock] counts nanoseconds. *)
Definition sys_ans (c : sys) : Type :=
  match c with
  | Socket | Fcntl_getfl _ | Fcntl_setfl _ _ | Setsockopt_nodelay _ | Setsockopt_reuse _
  | Connect _ _ | Bind _ _ _ | Listen _ | Errno | Now | Send _ _ | Read _ _ | Write _ _
  | Socket_udp | Setsockopt _ _ | Sendto _ _ _ => Z
  | Recvfrom _ _ => Z * (list Z * Addr)
  | Getsockopt_error _ => option Z
  | Accept _ => Z * (string * Z)
  | Getsockname _ => Z * Z
  | Getaddrinfo _ _ => Z * option Z
  | Freeaddrinfo _ | Shutdown _ _ | Close _ => unit
  | Poll _ _ => Z * (nat -> Z)
  | Recv _ _ => Z * list Z
  | Pipe2 => Z * (Z * Z)
  end.

(** The descriptors a call is given. *)
Definition descriptors (c : sys) : list Z :=
  match c with
  | Fcntl_getfl fd | Fcntl_setfl fd _ | Setsockopt_nodelay fd | Setsockopt_reuse fd
  | Getsockopt_error fd | Connect fd _ | Bind fd _ _ | Listen fd | Accept fd | Getsockname fd | Recv fd _ | Send fd _ | Shutdown fd _ | Close fd | Read fd _
  | Write fd _ | Setsockopt fd _ | Sendto fd _ _ | Recvfrom fd _ => [fd]
  | Poll fds _ => pfd <$> fds
  | Socket | Getaddrinfo _ _ | Freeaddrinfo _ | Errno | Now | Pipe2 | Socket_udp => []
  end.

(** ** Call trees

    [Shared M] says what the accesses [M] of a component to its shared variables
    answer. *)

Class Shared (M : Type) := mem_ans : M -> Type.

Inductive call (M : Type) := Sys (c : sys) | Mem (m : M).
Arguments Sys {M} c.
Arguments Mem {M} m.

Definition ans `{Shared M} (c : call M) : Type :=
  match c with Sys c => sys_ans c | Mem m => mem_ans m end.

(** [OutOfFuel]: a loop was cut short.  [Undefined]: undefined behaviour. *)
Inductive prog (M : Type) `{Shared M} (A : Type) :=
  | Ret (a : A)
  | Vis (c : call M) (k : ans c -> prog M A)
  | OutOfFuel
  | Undefined.
Arguments Ret {M _ A} a.
Arguments Vis {M _ A} c k.
Arguments OutOfFuel {M _ A}.
Arguments Undefined {M _ A}.

Fixpoint bind `{Shared M} {A B} (f : A -> prog M B) (p : prog M A) : prog M B :=
  match p with
  | Ret a => f a
  | Vis c k => Vis c (fun x => bind f (k x))
  | OutOfFuel => OutOfFuel
  | Undefined => Undefined
  end.

Global Instance prog_ret `{Shared M} : MRet (prog M) := fun _ => Ret.
Global Instance prog_bind `{Shared M} : MBind (prog M) := fun _ _ => bind.

Definition sys_call `{Shared M} (c : sys) : prog M (sys_ans c) := Vis (Sys c) Ret.
Definition mem `{Shared M} (m : M) : prog M (mem_ans m) := Vis (Mem m) Ret.

(** ** What a thread may do

    A thread sees the world through a view [V].  [allowed c v] is what it must
    know to make the call [c]; [learns c v x v'] how an answer [x] changes what
    it knows. *)

Record Rules (M : Type) `{Shared M} (V : Type) := mkRules {
  allowed : call M -> V -> Prop;
  learns : forall c : call M, V -> ans c -> V -> Prop;
}.
Arguments allowed {M _ V}.
Arguments learns {M _ V}.
Arguments mkRules {M _ V}.

Section wp.
Context `{Shared M} {V : Type} (R : Rules M V).

Fixpoint wp {A} (p : prog M A) (Q : A -> V -> Prop) (v : V) : Prop :=
  match p with
  | Ret a => Q a v
  | Vis c k => allowed R c v /\ forall x v', learns R c v x v' -> wp (k x) Q v'
  | OutOfFuel => True
  | Undefined => False
  end.

Lemma wp_bind {A B} (p : prog M A) (f : A -> prog M B) Q v :
  wp p (fun a => wp (f a) Q) v -> wp (p ≫= f) Q v.
Proof.
  revert v. induction p as [a|c k IH| |]; intros v Hp; simpl in *; [done| |done|done].
  destruct Hp as [Hc Hk]. split; [done|]. intros x v' Hl. by apply IH, Hk.
Qed.

Lemma wp_mono {A} (p : prog M A) (P Q : A -> V -> Prop) v :
  wp p P v -> (forall a v', P a v' -> Q a v') -> wp p Q v.
Proof.
  intros Hp HPQ. revert v Hp. induction p as [a|c k IH| |]; intros v Hp; simpl in *;
    [by apply HPQ| |done|done].
  destruct Hp as [Hc Hk]. split; [done|]. intros x v' Hl. by apply IH, Hk.
Qed.

Lemma wp_ret {A} (a : A) (Q : A -> V -> Prop) v : Q a v -> wp (Ret a) Q v.
Proof. done. Qed.

Lemma wp_sys (c : sys) (Q : sys_ans c -> V -> Prop) v :
  allowed R (Sys c) v -> (forall x v', learns R (Sys c) v x v' -> Q x v') ->
  wp (sys_call c) Q v.
Proof. by split. Qed.

Lemma wp_mem (m : M) (Q : mem_ans m -> V -> Prop) v :
  allowed R (Mem m) v -> (forall x v', learns R (Mem m) v x v' -> Q x v') ->
  wp (mem m) Q v.
Proof. by split. Qed.
End wp.
Global Arguments wp : simpl never.

(** The next call of a thread. *)
Definition next_call `{Shared M} {A} (p : prog M A) : option (call M) :=
  match p with Vis c _ => Some c | _ => None end.

Lemma next_allowed `{Shared M} {A V} (R : Rules M V) (p : prog M A) Q v c :
  wp R p Q v -> next_call p = Some c -> allowed R c v.
Proof. by destruct p; simpl; intros Hp [= ->]; destruct Hp. Qed.

(** ** Execution against one sequence of answers

    [env t c] is the answer to the call made at tick [t]; a call that never comes
    back, such as a lock that is never released, has no place here.  A run is the
    result, the calls made and the tick after the last one. *)

Definition Env (M : Type) `{Shared M} : Type := nat -> forall c : call M, ans c.

Fixpoint run `{Shared M} {A} (env : Env M) (p : prog M A) (t : nat)
    : option (A * list (call M) * nat) :=
  match p with
  | Ret a => Some (a, [], t)
  | Vis c k => '(a, cs, t') ← run env (k (env t c)) (S t); Some (a, c :: cs, t')
  | OutOfFuel | Undefined => None
  end.

(** [p] returns when it is started at tick [t], and time does not go back. *)
Definition returns_from `{Shared M} {A} (env : Env M) (t : nat) (p : prog M A) : Prop :=
  exists a cs t', run env p t = Some (a, cs, t') /\ (t <= t')%nat.

Section returns.
Context `{Shared M} (env : Env M).

Lemma run_bind {A B} (p : prog M A) (f : A -> prog M B) t :
  run env (p ≫= f) t
  = ('(a, cs, t1) ← run env p t; '(b, ds, t2) ← run env (f a) t1; Some (b, cs ++ ds, t2)).
Proof.
  unfold mbind at 1, prog_bind. revert t.
  induction p as [a|c k IH| |]; intros t; simpl; [|rewrite IH| |]; try done.
  - by destruct (run env (f a) t) as [[[??]?]|].
  - destruct (run env (k _) _) as [[[a cs] t1]|]; simpl; [|done].
    by destruct (run env (f a) t1) as [[[??]?]|].
Qed.

Lemma returns_ret {A} t (a : A) : returns_from env t (Ret a).
Proof. by exists a, [], t. Qed.

Lemma returns_bind {A B} t (p : prog M A) (f : A -> prog M B) :
  returns_from env t p -> (forall a t', (t <= t')%nat -> returns_from env t' (f a)) ->
  returns_from env t (p ≫= f).
Proof.
  intros (a & cs & t1 & E1 & ?) Hf. destruct (Hf a t1) as (b & ds & t2 & E2 & ?); [done|].
  exists b, (cs ++ ds), t2. rewrite run_bind, E1. simpl. rewrite E2. split; [done|lia].
Qed.

Lemma returns_sys t (c : sys) : returns_from env t (sys_call c).
Proof. eexists _, _, (S t). simpl. split; [done|lia]. Qed.

Lemma returns_mem t (m : M) : returns_from env t (mem m).
Proof. eexists _, _, (S t). simpl. split; [done|lia]. Qed.

(** A call whose answer is looked at. *)
Lemma returns_answer t (c : call M) {A} (f : ans c -> prog M A) :
  returns_from env (S t) (f (env t c)) -> returns_from env t (Vis c Ret ≫= f).
Proof.
  intros (a & cs & t' & E & ?). exists a, (c :: cs), t'. split; [|lia].
  unfold mbind, prog_bind. simpl. by rewrite E.
Qed.
End returns.

(** ** Programs without a loop that is cut short *)

Fixpoint fuelled `{Shared M} {A} (p : prog M A) : Prop :=
  match p with Vis c k => forall x, fuelled (k x) | OutOfFuel => False | Ret _ | Undefined => True end.

Lemma fuelled_bind `{Shared M} {A B} (p : prog M A) (f : A -> prog M B) :
  fuelled p -> (forall a, fuelled (f a)) -> fuelled (p ≫= f).
Proof. intros Hp Hf. induction p as [a|c k IH| |]; cbn in *; [apply Hf| |done|done]. intros x. apply IH, Hp. Qed.

Ltac fuelled :=
  repeat first
    [ done
    | match goal with |- fuelled (_ ≫= _) => apply fuelled_bind; [|intro] end
    | match goal with |- fuelled (match ?x with _ => _ end) => destruct x end ].

Create HintDb threads discriminated.
#[export] Hint Resolve returns_ret : threads.
#[export] Hint Extern 0 (returns_from _ _ (sys_call ?c)) => exact (returns_sys _ _ c) : threads.
#[export] Hint Extern 0 (returns_from _ _ (mem ?m)) => exact (returns_mem _ _ m) : threads.
