(* ===== verification/SocketOps.v ===== *)
(** * Socket operations and [PollSet] (POSIX)

    Models [conduit/src/transceiver/transport/socket_ops_posix.cpp] (on Linux:
    [SOCK_CLOEXEC] and [pipe2] exist, so [set_cloexec] does nothing) and
    [poll_set.cpp], with the callbacks all transports are given.  [strerror] and
    [inet_pton] are the C library's. *)

From stdpp Require Import base numbers list strings pretty.
From Stdlib Require Import ZArith Lia.
From S2P Require Import Prelude CoreError SysCalls.

Open Scope Z_scope.

Definition invalid_socket : Z := -1.

Definition EINTR : Z := 4.
Definition EINPROGRESS : Z := 115.
Definition O_NONBLOCK : Z := 2048.
Definition POLLIN : Z := 1.
Definition POLLOUT : Z := 4.
Definition POLLERR : Z := 8.
Definition POLLHUP : Z := 16.
Definition POLLNVAL : Z := 32.

(** The callbacks of [itransport.hpp]: which of them are set. *)
Record TransportCallbacks := mkCallbacks {
  on_data_received : bool;
  on_peer_connected : bool;
  on_peer_disconnected : bool;
  on_state_changed : bool;
}.

(** [recv] overwrites the front of the buffer. *)
Definition overwrite (bytes buf : list Z) : list Z := bytes ++ drop (length bytes) buf.

(** ** PollSet *)

Definition PollSet := list pollfd.

(** The first position of [fd], or -1. *)
Fixpoint find_from (i : Z) (fds : PollSet) (fd : Z) : Z :=
  match fds with
  | [] => -1
  | e :: fds => if pfd e =? fd then i else find_from (i + 1) fds fd
  end.

Definition find_fd (fds : PollSet) (fd : Z) : Z := find_from 0 fds fd.

Definition set_events (f : Z -> Z) (e : pollfd) : pollfd := mkPollfd (pfd e) (f (events e)) (revents e).

Definition add_read (fd : Z) (fds : PollSet) : PollSet :=
  let idx := find_fd fds fd in
  if 0 <=? idx then alter (set_events (fun ev => Z.lor ev POLLIN)) (Z.to_nat idx) fds
  else fds ++ [mkPollfd fd POLLIN 0].

Definition add_write (fd : Z) (fds : PollSet) : PollSet :=
  let idx := find_fd fds fd in
  if 0 <=? idx then alter (set_events (fun ev => Z.lor ev POLLOUT)) (Z.to_nat idx) fds
  else fds ++ [mkPollfd fd POLLOUT 0].

(** [(fds_[idx].revents & mask) != 0]. *)
Definition reported (mask : Z) (fds : PollSet) (fd : Z) : bool :=
  let idx := find_fd fds fd in
  if idx <? 0 then false
  else match fds !! Z.to_nat idx with
       | Some e => negb (Z.land (revents e) mask =? 0)
       | None => false
       end.

Definition is_readable (fds : PollSet) (fd : Z) : bool := reported POLLIN fds fd.
Definition is_writable (fds : PollSet) (fd : Z) : bool := reported POLLOUT fds fd.
Definition has_error (fds : PollSet) (fd : Z) : bool :=
  reported (Z.lor (Z.lor POLLERR POLLHUP) POLLNVAL) fds fd.

Section ops.
Context `{Shared M}.
Variable strerror : Z -> string.
Variable inet_pton : string -> option Z.

Definition wait (fds : PollSet) (timeout_ms : Z) : prog M (Z * PollSet) :=
  '(sel, re) ← sys_call (Poll fds timeout_ms);
  Ret (sel, imap (fun i e => mkPollfd (pfd e) (events e) (re i)) fds).

(** ** Sockets *)

Definition init_networking : prog M (Result unit) := Ret (Ok tt).
Definition cleanup_networking : prog M unit := Ret tt.

Definition get_last_error : prog M Z := sys_call Errno.
Definition error_to_string (err : Z) : string := strerror err.

(** [return std::unexpected(CONDUIT_ERROR(code, what + error_to_string(errno)))]. *)
Definition errno_failure {A} (c : ErrorCode) (what : string) : prog M (Result A) :=
  err ← get_last_error; Ret (Fail (new_error c (what +:+ error_to_string err))).

Definition create_tcp_socket : prog M (Result Z) :=
  s ← sys_call Socket;
  if s <? 0 then errno_failure SocketError "Failed to create TCP socket: "
  else Ret (Ok s).

Definition create_udp_socket : prog M (Result Z) :=
  s ← sys_call Socket_udp;
  if s <? 0 then errno_failure SocketError "Failed to create UDP socket: "
  else Ret (Ok s).

Definition set_nonblocking (sock : Z) : prog M (Result unit) :=
  flags ← sys_call (Fcntl_getfl sock);
  if flags <? 0 then errno_failure SocketError "Failed to get socket flags: "
  else
    r ← sys_call (Fcntl_setfl sock (Z.lor flags O_NONBLOCK));
    if r <? 0 then errno_failure SocketError "Failed to set non-blocking: "
    else Ret (Ok tt).

Definition set_reuse_addr (sock : Z) : prog M (Result unit) :=
  r ← sys_call (Setsockopt_reuse sock);
  if negb (r =? 0) then errno_failure SocketError "Failed to set SO_REUSEADDR: "
  else Ret (Ok tt).

Definition set_tcp_nodelay (sock : Z) : prog M (Result unit) :=
  r ← sys_call (Setsockopt_nodelay sock);
  if negb (r =? 0) then errno_failure SocketError "Failed to set TCP_NODELAY: "
  else Ret (Ok tt).

(** [static_cast<int>]. *)
Definition to_int (v : Z) : Z := signed 32 (wrap 32 v).

Definition set_socket_buffer_sizes (sock recv_size send_size : Z) : prog M (Result unit) :=
  r ← (if 0 <? recv_size then sys_call (Setsockopt sock (SO_RCVBUF (to_int recv_size))) else Ret 0);
  if negb (r =? 0) then errno_failure SocketError "Failed to set SO_RCVBUF: " else
  r ← (if 0 <? send_size then sys_call (Setsockopt sock (SO_SNDBUF (to_int send_size))) else Ret 0);
  if negb (r =? 0) then errno_failure SocketError "Failed to set SO_SNDBUF: "
  else Ret (Ok tt).

Definition close_socket (sock : Z) : prog M unit :=
  if negb (sock =? invalid_socket) then sys_call (Close sock) else Ret tt.

(** ** Wake pipe *)

Record WakePipe := mkWakePipe { read_fd : Z; write_fd : Z }.
Definition wake_pipe0 : WakePipe := mkWakePipe invalid_socket invalid_socket.

(** One round of the loop over the two ends; [Ok tt] goes on. *)
Definition set_end_nonblocking (fds : Z * Z) (fd : Z) : prog M (Result unit) :=
  flags ← sys_call (Fcntl_getfl fd);
  bad ← (if flags <? 0 then Ret true
         else r ← sys_call (Fcntl_setfl fd (Z.lor flags O_NONBLOCK)); Ret (r <? 0));
  if (bad : bool) then
    sys_call (Close fds.1);; sys_call (Close fds.2);;
    errno_failure SocketError "Failed to set wake pipe non-blocking: "
  else Ret (Ok tt).

Definition create_wake_pipe : prog M (Result WakePipe) :=
  '(r, fds) ← sys_call Pipe2;
  if negb (r =? 0) then errno_failure SocketError "Failed to create pipe: "
  else
    r0 ← set_end_nonblocking fds fds.1;
    match r0 with
    | Fail e => Ret (Fail e)
    | Ok _ =>
        r1 ← set_end_nonblocking fds fds.2;
        match r1 with
        | Fail e => Ret (Fail e)
        | Ok _ => Ret (Ok (mkWakePipe fds.1 fds.2))
        end
    end.

Definition close_wake_pipe (pipe : WakePipe) : prog M WakePipe :=
  (if negb (read_fd pipe =? invalid_socket) then sys_call (Close (read_fd pipe)) else Ret tt);;
  (if negb (write_fd pipe =? invalid_socket) then sys_call (Close (write_fd pipe)) else Ret tt);;
  Ret (mkWakePipe invalid_socket invalid_socket).

Definition signal_wake_pipe (pipe : WakePipe) : prog M unit :=
  if negb (write_fd pipe =? invalid_socket)
  then sys_call (Write (write_fd pipe) [1]);; Ret tt
  else Ret tt.

Fixpoint drain_loop (fuel : nat) (fd : Z) : prog M unit :=
  match fuel with
  | O => OutOfFuel
  | S fuel =>
      n ← sys_call (Read fd 64);
      if 0 <? n then drain_loop fuel fd else Ret tt
  end.

Definition drain_wake_pipe (fuel : nat) (pipe : WakePipe) : prog M unit :=
  if negb (read_fd pipe =? invalid_socket) then drain_loop fuel (read_fd pipe) else Ret tt.

(** ** Multicast *)

Definition join_multicast_group (sock : Z) (group iface : string) : prog M (Result unit) :=
  match inet_pton group with
  | None => Ret (Fail (new_error InvalidConfig ("Invalid multicast group address: " +:+ group)))
  | Some g =>
  match inet_pton iface with
  | None => Ret (Fail (new_error InvalidConfig ("Invalid multicast interface address: " +:+ iface)))
  | Some i =>
      r ← sys_call (Setsockopt sock (IP_ADD_MEMBERSHIP g i));
      if negb (r =? 0) then errno_failure SocketError "IP_ADD_MEMBERSHIP failed: " else Ret (Ok tt)
  end
  end.

(** Addresses that do not parse stay zero. *)
Definition leave_multicast_group (sock : Z) (group iface : string) : prog M unit :=
  sys_call (Setsockopt sock (IP_DROP_MEMBERSHIP (default 0 (inet_pton group)) (default 0 (inet_pton iface))));;
  Ret tt.

Definition set_multicast_ttl (sock ttl : Z) : prog M (Result unit) :=
  r ← sys_call (Setsockopt sock (IP_MULTICAST_TTL ttl));
  if negb (r =? 0) then errno_failure SocketError "Failed to set IP_MULTICAST_TTL: " else Ret (Ok tt).

Definition set_multicast_loop (sock : Z) (enable : bool) : prog M (Result unit) :=
  r ← sys_call (Setsockopt sock (IP_MULTICAST_LOOP (if enable then 1 else 0)));
  if negb (r =? 0) then errno_failure SocketError "Failed to set IP_MULTICAST_LOOP: " else Ret (Ok tt).

Definition set_multicast_interface (sock : Z) (iface : string) : prog M (Result unit) :=
  match inet_pton iface with
  | None => Ret (Fail (new_error InvalidConfig ("Invalid multicast interface address: " +:+ iface)))
  | Some i =>
      r ← sys_call (Setsockopt sock (IP_MULTICAST_IF i));
      if negb (r =? 0) then errno_failure SocketError "Failed to set IP_MULTICAST_IF: " else Ret (Ok tt)
  end.
End ops.

(** ** Lemmas: poll sets *)

Lemma alter_events_fds f i (ps : PollSet) : pfd <$> alter (set_events f) i ps = pfd <$> ps.
Proof. revert i. induction ps as [|e ps IH]; intros [|i]; csimpl; [done..|]. by rewrite IH. Qed.

Lemma add_read_fds fd ps (P : Z -> Prop) :
  P fd -> Forall P (pfd <$> ps) -> Forall P (pfd <$> add_read fd ps).
Proof.
  intros Hfd Hps. unfold add_read. destruct_if; [by rewrite alter_events_fds|].
  rewrite fmap_app, Forall_app. by repeat constructor.
Qed.

Lemma add_write_fds fd ps (P : Z -> Prop) :
  P fd -> Forall P (pfd <$> ps) -> Forall P (pfd <$> add_write fd ps).
Proof.
  intros Hfd Hps. unfold add_write. destruct_if; [by rewrite alter_events_fds|].
  rewrite fmap_app, Forall_app. by repeat constructor.
Qed.
