(* ===== verification/TcpClient.v ===== *)
(** * TCP client transport

    Models [conduit/src/transceiver/transport/tcp_client.cpp] (the POSIX branch)
    with [tcp_client.hpp] and [reconnect_policy.hpp].  The members that several threads use ([running], [sock],
    [send_mutex], the thread itself) and the callbacks are the calls [access];
    [callbacks], [peer_id] and [wake] are handed from the controlling thread to
    the I/O thread when it is created and back when it is joined, and are passed
    as values.  Log output is not modelled; callbacks return (an exception would
    end the process, and the transceiver's callbacks catch theirs).  Points in
    time are nanoseconds of the steady clock, without overflow.

    Every loop takes [fuel]; [OutOfFuel] cuts an execution short, and
    [TcpClientSpec] says how much is enough. *)

From stdpp Require Import base numbers list strings pretty.
From Stdlib Require Import ZArith Lia SpecFloat.
From S2P Require Import Prelude CoreError Handler Transceiver SysCalls SocketOps.

Open Scope Z_scope.

(** ** Configuration *)

Record ReconnectPolicy := mkReconnectPolicy {
  enabled : bool;
  initial_delay : Z;
  max_delay : Z;
  backoff_multiplier : double;
  max_attempts : Z;
}.

Definition d_of_Z (z : Z) : double := binary_normalize 53 1024 z 0 false.

Definition default_policy : ReconnectPolicy := mkReconnectPolicy true 1000 30000 (d_of_Z 2) 0.

Record TcpClientConfig := mkTcpClientConfig {
  host : string;
  port : Z;
  reconnect : ReconnectPolicy;
  recv_buffer_size : Z;
  connect_timeout : Z;
}.

(** The members one thread uses at a time. *)
Record Impl := mkImpl {
  callbacks : TransportCallbacks;
  peer_id : PeerId;
  wake : WakePipe;
  joinable : bool;
}.

Definition impl0 : Impl := mkImpl (mkCallbacks false false false false) 0 wake_pipe0 false.

(** ** Accesses to what threads share *)

Inductive access :=
  | LoadRunning | StoreRunning (b : bool) | ExchangeRunning (b : bool)
  | LoadSock | StoreSock (s : Z)
  | LockSend | UnlockSend
  | Spawn (imp : Impl) | Join
  | OnPeerConnected (remote_endpoint : string)
  | OnPeerDisconnected (p : PeerId)
  | OnStateChanged (p : PeerId) (st : ConnectionState)
  | OnDataReceived (p : PeerId) (bytes : list Z).

(** [Join] answers with the [peer_id] the I/O thread leaves behind. *)
Global Instance access_shared : Shared access := fun m =>
  match m with
  | LoadRunning | ExchangeRunning _ => bool
  | LoadSock => Z
  | Join | OnPeerConnected _ => PeerId
  | _ => unit
  end.

Abbreviation io := (prog access) (only parsing).

(** [static_cast<long long>] of a double: truncation, undefined out of range. *)
Definition to_llong (d : double) : option Z :=
  match d with
  | S754_zero _ => Some 0
  | S754_finite s m e =>
      let a := if 0 <=? e then Z.pos m * 2 ^ e else Z.pos m / 2 ^ (- e) in
      let z := if s then - a else a in
      if (- 2 ^ 63 <=? z) && (z <? 2 ^ 63) then Some z else None
  | S754_infinity _ | S754_nan => None
  end.

(** The exponential back-off after a failed attempt. *)
Definition next_delay (rp : ReconnectPolicy) (delay : Z) : option Z :=
  d ← to_llong (d_mul (d_of_Z delay) (backoff_multiplier rp));
  Some (if max_delay rp <? d then max_delay rp else d).

Section client.
Variable strerror : Z -> string.
Variable config : TcpClientConfig.
Variable fuel : nat.

Definition endpoint : string := host config +:+ ":" +:+ pretty (port config).

(** Milliseconds from [now] to [deadline], towards zero. *)
Definition ms_until (deadline now : Z) : Z := Z.quot (deadline - now) 1000000.

Definition load_running : io bool := mem LoadRunning.
Definition load_sock : io Z := mem LoadSock.

(** ** Connecting *)

Section thread.
Variable imp : Impl.

Definition connect_failed {A} (c : ErrorCode) (s err : Z) : io (Result A) :=
  close_socket s;;
  Ret (Fail (new_error c ("Connect to " +:+ endpoint +:+ " failed: "
                          +:+ error_to_string strerror err))).

(** The wait for a connection in progress; [Ok connected], or the error of
    the socket, which is closed then. *)
Fixpoint connect_wait (n : nat) (s deadline : Z) : io (Result bool) :=
  match n with
  | O => OutOfFuel
  | S n =>
      running ← load_running;
      if negb running then Ret (Ok false) else
      now ← sys_call Now;
      if deadline <=? now then Ret (Ok false) else
      let wait_ms := Z.min (ms_until deadline now) 100 in
      '(sel, ps) ← wait (add_read (read_fd (wake imp)) (add_write s [])) wait_ms;
      if sel <? 0 then
        err ← get_last_error;
        if err =? EINTR then connect_wait n s deadline else Ret (Ok false)
      else
      stopped ← (if is_readable ps (read_fd (wake imp)) then
                   drain_wake_pipe fuel (wake imp);;
                   running ← load_running; Ret (negb running)
                 else Ret false);
      if (stopped : bool) then Ret (Ok false) else
      if is_writable ps s then
        e ← sys_call (Getsockopt_error s);
        let so_error := default 0 e in
        if so_error =? 0 then Ret (Ok true)
        else connect_failed ConnectionRefused s so_error
      else connect_wait n s deadline
  end.

(** Blocking mode and no delay, then the socket is published. *)
Definition publish (s : Z) : io (Result unit) :=
  flags ← sys_call (Fcntl_getfl s);
  bad ← (if flags <? 0 then Ret true
         else r ← sys_call (Fcntl_setfl s (Z.land flags (Z.lnot O_NONBLOCK))); Ret (r <? 0));
  if (bad : bool) then
    close_socket s;;
    errno_failure strerror SocketError "Failed to restore blocking mode: "
  else
  nodelay ← set_tcp_nodelay strerror s;
  match nodelay with
  | Fail e => close_socket s;; Ret (Fail e)
  | Ok _ => mem (StoreSock s);; Ret (Ok tt)
  end.

Definition try_connect : io (Result unit) :=
  rs ← create_tcp_socket strerror;
  match rs with
  | Fail e => Ret (Fail e)
  | Ok s =>
  '(gai, result) ← sys_call (Getaddrinfo (host config) (pretty (port config)));
  match (if gai =? 0 then result else None) with
  | None =>
      close_socket s;;
      Ret (Fail (new_error HostNotFound ("Cannot resolve host '" +:+ host config
        +:+ "' (getaddrinfo error " +:+ pretty (gai : Z) +:+ ")")))
  | Some addr =>
  nb_result ← set_nonblocking strerror s;
  match nb_result with
  | Fail e => sys_call (Freeaddrinfo addr);; close_socket s;; Ret (Fail e)
  | Ok _ =>
  conn ← sys_call (Connect s addr);
  sys_call (Freeaddrinfo addr);;
  if conn =? 0 then publish s else
  err ← get_last_error;
  if negb (err =? EINPROGRESS) then connect_failed ConnectionRefused s err else
  now ← sys_call Now;
  r ← connect_wait fuel s (now + connect_timeout config * 1000000);
  match r with
  | Fail e => Ret (Fail e)
  | Ok true => publish s
  | Ok false =>
      close_socket s;;
      running ← load_running;
      if negb running then
        Ret (Fail (new_error ConnectionClosed "Connect aborted by shutdown"))
      else
        Ret (Fail (new_error ConnectionTimeout ("Connect to " +:+ endpoint +:+ " timed out")))
  end
  end
  end
  end.

(** ** The I/O thread *)

Definition notify (peer : PeerId) (st : ConnectionState) : io unit :=
  if on_state_changed (callbacks imp) && peer_valid peer
  then mem (OnStateChanged peer st) else Ret tt.

Fixpoint recv_rounds (n : nat) (peer : PeerId) (buf : list Z) : io unit :=
  match n with
  | O => OutOfFuel
  | S n =>
      running ← load_running;
      if negb running then Ret tt else
      s ← load_sock;
      '(sel, ps) ← wait (add_read (read_fd (wake imp)) (add_read s [])) 100;
      if sel <? 0 then
        err ← get_last_error;
        if err =? EINTR then recv_rounds n peer buf else Ret tt
      else if sel =? 0 then recv_rounds n peer buf else
      s ← load_sock;
      if has_error ps s then Ret tt else
      stopped ← (if is_readable ps (read_fd (wake imp)) then
                   drain_wake_pipe fuel (wake imp);;
                   running ← load_running; Ret (negb running)
                 else Ret false);
      if (stopped : bool) then Ret tt else
      s ← load_sock;
      if is_readable ps s then
        s ← load_sock;
        '(r, bytes) ← sys_call (Recv s (len buf));
        let buf := overwrite bytes buf in
        if r <=? 0 then Ret tt else
        (if on_data_received (callbacks imp) && peer_valid peer
         then mem (OnDataReceived peer (take (Z.to_nat r) buf)) else Ret tt);;
        recv_rounds n peer buf
      else recv_rounds n peer buf
  end.

Definition recv_loop (peer : PeerId) : io unit :=
  recv_rounds fuel peer (replicate (Z.to_nat (recv_buffer_size config)) 0).

Definition handle_disconnect (peer : PeerId) : io unit :=
  mem LockSend;;
  s ← load_sock;
  (if negb (s =? invalid_socket) then
     s ← load_sock;
     sys_call (Shutdown s SHUT_WR);;
     s ← load_sock;
     close_socket s;;
     mem (StoreSock invalid_socket)
   else Ret tt);;
  mem UnlockSend;;
  notify peer Disconnected;;
  if on_peer_disconnected (callbacks imp) && peer_valid peer
  then mem (OnPeerDisconnected peer) else Ret tt.

(** The wait before the next attempt. *)
Fixpoint backoff_wait (n : nat) (deadline : Z) : io unit :=
  match n with
  | O => OutOfFuel
  | S n =>
      running ← load_running;
      if negb running then Ret tt else
      now ← sys_call Now;
      if deadline <=? now then Ret tt else
      now ← sys_call Now;
      let remaining := ms_until deadline now in
      if remaining <=? 0 then Ret tt else
      '(_, ps) ← wait (add_read (read_fd (wake imp)) []) (Z.min remaining 100);
      (if is_readable ps (read_fd (wake imp)) then drain_wake_pipe fuel (wake imp) else Ret tt);;
      backoff_wait n deadline
  end.

Fixpoint io_rounds (n : nat) (peer : PeerId) (delay attempts : Z) : io unit :=
  match n with
  | O => OutOfFuel
  | S n =>
      let rp := reconnect config in
      running ← load_running;
      if negb running then Ret tt else
      notify peer Connecting;;
      result ← try_connect;
      match result with
      | Fail _ =>
          if negb (enabled rp) then notify peer ConnFailed else
          let attempts := wrap 32 (attempts + 1) in
          if (0 <? max_attempts rp) && (max_attempts rp <=? attempts)
          then notify peer ConnFailed else
          notify peer Reconnecting;;
          now ← sys_call Now;
          backoff_wait fuel (now + delay * 1000000);;
          match next_delay rp delay with
          | None => Undefined
          | Some delay => io_rounds n peer delay attempts
          end
      | Ok _ =>
          notify peer Connected;;
          recv_loop peer;;
          handle_disconnect peer;;
          if negb (enabled rp) then Ret tt else
          running ← load_running;
          if negb running then Ret tt else
          notify peer Reconnecting;;
          io_rounds n peer (initial_delay rp) 0
      end
  end.

Definition io_loop : io PeerId :=
  peer ← (if negb (peer_valid (peer_id imp)) && on_peer_connected (callbacks imp)
          then mem (OnPeerConnected endpoint) else Ret (peer_id imp));
  io_rounds fuel peer (initial_delay (reconnect config)) 0;;
  Ret peer.
End thread.

(** ** Calls of the user *)

Definition start (cb : TransportCallbacks) (imp : Impl) : io (Result unit * Impl) :=
  running ← load_running;
  if (running : bool) then
    Ret (Fail (new_error AlreadyRunning "TCP client transport already running"), imp)
  else
  net_result ← init_networking;
  match net_result with
  | Fail e => Ret (Fail e, imp)
  | Ok _ =>
      wake_result ← create_wake_pipe strerror;
      match wake_result with
      | Fail e => cleanup_networking;; Ret (Fail e, imp)
      | Ok w =>
          let imp := mkImpl cb (peer_id imp) w true in
          mem (StoreRunning true);;
          mem (Spawn imp);;
          Ret (Ok tt, imp)
      end
  end.

Definition stop (imp : Impl) : io Impl :=
  was_running ← mem (ExchangeRunning false);
  if negb was_running then Ret imp else
  s ← load_sock;
  (if negb (s =? invalid_socket) then sys_call (Shutdown s SHUT_RDWR) else Ret tt);;
  signal_wake_pipe (wake imp);;
  imp ← (if joinable imp then
           peer ← mem Join; Ret (mkImpl (callbacks imp) peer (wake imp) false)
         else Ret imp);
  mem LockSend;;
  s ← load_sock;
  (if negb (s =? invalid_socket) then
     s ← load_sock; close_socket s;; mem (StoreSock invalid_socket)
   else Ret tt);;
  mem UnlockSend;;
  w ← close_wake_pipe (wake imp);
  cleanup_networking;;
  Ret (mkImpl (callbacks imp) (peer_id imp) w (joinable imp)).

(** One [::send], tried again when a signal interrupts it. *)
Fixpoint send_chunk (n : nat) (bytes : list Z) : io Z :=
  match n with
  | O => OutOfFuel
  | S n =>
      s ← load_sock;
      sent ← sys_call (Send s bytes);
      if sent <? 0 then
        err ← get_last_error;
        if err =? EINTR then send_chunk n bytes else Ret sent
      else Ret sent
  end.

Fixpoint send_rounds (n : nat) (bytes : list Z) : io (Result unit) :=
  if decide (bytes = []) then Ret (Ok tt) else
  match n with
  | O => OutOfFuel
  | S n =>
      sent ← send_chunk fuel bytes;
      if sent <=? 0 then errno_failure strerror SocketError "Send failed: "
      else send_rounds n (drop (Z.to_nat sent) bytes)
  end.

(** The mutex is released on every return. *)
Definition send (data : list Z) : io (Result unit) :=
  mem LockSend;;
  s ← load_sock;
  r ← (if s =? invalid_socket
       then Ret (Fail (new_error ConnectionClosed "Not connected"))
       else send_rounds (length data) data);
  mem UnlockSend;;
  Ret r.
End client.
