(* ===== verification/TcpClientThreads.v ===== *)
(** * TCP client: what each thread may do

    Each thread of the client has a view of the world ([SysCalls.wp]): the I/O
    thread knows the socket it has open, the value of [sock], whether it holds
    the send mutex and where it stands in the callback protocol; a sender knows
    whether it holds the mutex, the socket it found and the bytes on the wire;
    the controlling thread knows [running], the wake pipe and whether the I/O
    thread exists.  The rules say what a thread must know to make a call, and
    the lemmas that the code of each thread keeps its rules. *)

From stdpp Require Import base numbers list sets strings pretty.
From Stdlib Require Import ZArith Lia.
From S2P Require Import Prelude CoreError Handler Transceiver SysCalls SocketOps TcpClient.

Open Scope Z_scope.

(** ** The I/O thread *)

(** The callback protocol: what the callbacks of one session have reported. *)
Inductive Phase := Idle | Trying | Up | Down | Gone | Waiting | Over.

Definition phase_step (ph : Phase) (m : access) : option Phase :=
  match ph, m with
  | (Idle | Waiting), OnStateChanged _ Connecting => Some Trying
  | Trying, OnStateChanged _ Connected => Some Up
  | Trying, OnStateChanged _ ConnFailed => Some Over
  | (Trying | Gone), OnStateChanged _ Reconnecting => Some Waiting
  | Up, OnDataReceived _ _ => Some Up
  | Up, OnStateChanged _ Disconnected => Some Down
  | Down, OnPeerDisconnected _ => Some Gone
  | _, _ => None
  end.

(** All the callbacks of the protocol are set. *)
Definition complete (cb : TransportCallbacks) : bool :=
  on_data_received cb && on_peer_disconnected cb && on_state_changed cb.

(** [v_fd]: the socket the thread has open; [v_sock]: the member [sock]. *)
Record IoView := mkIo { v_fd : option Z; v_sock : Z; v_locked : bool; v_phase : Phase }.

Definition io_view0 : IoView := mkIo None invalid_socket false Idle.

(** What [sock] says about the connection when a callback is made. *)
Definition reports (m : access) (v : IoView) : Prop :=
  match m with
  | OnStateChanged _ Connected | OnDataReceived _ _ => v_fd v = Some (v_sock v)
  | OnStateChanged _ _ | OnPeerDisconnected _ => v_fd v = None /\ v_sock v = invalid_socket
  | _ => True
  end.

Definition io_allowed (imp : Impl) (c : call access) (v : IoView) : Prop :=
  match c with
  | Sys Socket => v_fd v = None /\ v_sock v = invalid_socket
  | Sys (Close fd) => v_fd v = Some fd /\ (v_sock v = invalid_socket \/ v_locked v = true)
  | Sys (Send _ _ | Pipe2 | Write _ _ | Accept _ | Socket_udp | Setsockopt _ _ | Sendto _ _ _ | Recvfrom _ _) => False
  | Sys c => Forall (fun fd => v_fd v = Some fd \/ fd = read_fd (wake imp)) (descriptors c)
  | Mem (StoreSock s) =>
      v_sock v = invalid_socket /\ v_fd v = Some s
      \/ s = invalid_socket /\ v_fd v = None /\ v_locked v = true
  | Mem LockSend => v_locked v = false
  | Mem UnlockSend =>
      v_locked v = true /\ (v_sock v = invalid_socket \/ v_fd v = Some (v_sock v))
  | Mem (LoadRunning | LoadSock) => True
  | Mem (OnPeerConnected _) => v_locked v = false
  | Mem ((OnPeerDisconnected _ | OnStateChanged _ _ | OnDataReceived _ _) as m) =>
      v_locked v = false /\ reports m v
      /\ (complete (callbacks imp) = true -> is_Some (phase_step (v_phase v) m))
  | Mem (StoreRunning _ | ExchangeRunning _ | Spawn _ | Join) => False
  end.

Definition with_fd fd v := mkIo fd (v_sock v) (v_locked v) (v_phase v).
Definition with_sock s v := mkIo (v_fd v) s (v_locked v) (v_phase v).
Definition with_lock b v := mkIo (v_fd v) (v_sock v) b (v_phase v).
Definition with_phase ph v := mkIo (v_fd v) (v_sock v) (v_locked v) ph.

(** The view after a call; a socket the kernel hands out is not negative. *)
Definition io_next (c : call access) (v : IoView) : ans c -> IoView :=
  match c with
  | Sys Socket => fun x : Z => if x <? 0 then v else with_fd (Some x) v
  | Sys (Close _) => fun _ => with_fd None v
  | Mem (StoreSock s) => fun _ => with_sock s v
  | Mem LockSend => fun _ => with_lock true v
  | Mem UnlockSend => fun _ => with_lock false v
  | Mem ((OnPeerDisconnected _ | OnStateChanged _ _ | OnDataReceived _ _) as m) =>
      fun _ => with_phase (default (v_phase v) (phase_step (v_phase v) m)) v
  | _ => fun _ => v
  end.

Definition io_rules (imp : Impl) : Rules access IoView := mkRules (io_allowed imp)
  (fun c v x v' => v' = io_next c v x /\
     match c return ans c -> Prop with Mem LoadSock => fun x => x = v_sock v | _ => fun _ => True end x).

(** ** A sender *)

(** The bytes of one connection, each with its socket. *)
Definition tagged (fd : Z) (bytes : list Z) : list (Z * Z) := pair fd <$> bytes.

(** The wire carries prefixes of messages, one after the other, each to one
    socket. *)
Definition segmented (messages : list (list Z)) (wire : list (Z * Z)) : Prop :=
  exists segs, wire = concat segs
  /\ Forall (fun seg => exists fd m pre, m ∈ messages /\ pre `prefix_of` m /\ seg = tagged fd pre) segs.

(** The whole of [m] went to one socket, in one piece. *)
Definition delivered (m : list Z) (wire : list (Z * Z)) : Prop :=
  exists before fd after, wire = before ++ tagged fd m ++ after.

(** [s_known]: the socket seen since the mutex was taken; [s_wire]: the wire
    while the mutex is held, the part of it known otherwise. *)
Record SendView := mkSend { s_locked : bool; s_known : option Z; s_wire : list (Z * Z) }.

Definition send_view0 : SendView := mkSend false None [].

Definition send_allowed (messages : list (list Z)) (c : call access) (v : SendView) : Prop :=
  match c with
  | Mem LockSend => s_locked v = false
  | Mem (UnlockSend | LoadSock) => s_locked v = true
  | Sys (Send fd bytes) => s_locked v = true /\ s_known v = Some fd
      /\ forall k, segmented messages (s_wire v ++ tagged fd (take k bytes))
  | Sys Errno => True
  | _ => False
  end.

Definition send_learns (messages : list (list Z)) (c : call access) (v : SendView)
    : ans c -> SendView -> Prop :=
  match c with
  | Mem LockSend => fun _ v' => exists wire, v' = mkSend true None wire
      /\ s_wire v `prefix_of` wire /\ segmented messages wire
  | Mem UnlockSend => fun _ v' => v' = mkSend false None (s_wire v)
  | Mem LoadSock => fun x v' => (forall s, s_known v = Some s -> x = s)
      /\ v' = mkSend (s_locked v) (if x =? invalid_socket then None else Some x) (s_wire v)
  | Sys (Send fd bytes) => fun x v' => x <= len bytes
      /\ v' = mkSend (s_locked v) (s_known v) (s_wire v ++ tagged fd (take (Z.to_nat x) bytes))
  | _ => fun _ v' => v' = v
  end.

Definition send_rules messages : Rules access SendView :=
  mkRules (send_allowed messages) (send_learns messages).

(** ** The controlling thread *)

(** [c_pipe]: the open ends of the wake pipe; [c_thread]: the I/O thread, by
    what it was created with. *)
Record CtlView := mkCtl {
  c_running : bool; c_pipe : list Z; c_thread : option Impl; c_locked : bool
}.

Definition ctl_view0 : CtlView := mkCtl false [] None false.

(** The shutdown of [stop] is not constrained: it is made without the mutex. *)
Definition ctl_allowed (c : call access) (v : CtlView) : Prop :=
  match c with
  | Sys Pipe2 => c_pipe v = []
  | Sys (Fcntl_getfl fd | Fcntl_setfl fd _ | Write fd _) => fd ∈ c_pipe v
  | Sys (Close fd) => fd ∈ c_pipe v /\ c_thread v = None
  | Sys (Errno | Shutdown _ SHUT_RDWR) => True
  | Mem (LoadRunning | StoreRunning _ | ExchangeRunning _ | LoadSock) => True
  | Mem LockSend => c_locked v = false
  | Mem UnlockSend => c_locked v = true
  | Mem (Spawn imp) => c_thread v = None /\ read_fd (wake imp) ∈ c_pipe v /\ c_locked v = false
  | Mem Join => is_Some (c_thread v) /\ c_running v = false /\ c_locked v = false
  | _ => False
  end.

Definition ctl_learns (c : call access) (v : CtlView) : ans c -> CtlView -> Prop :=
  match c with
  | Sys Pipe2 => fun x v' =>
      if x.1 =? 0 then x.2.1 <> x.2.2 /\ 0 <= x.2.1 /\ 0 <= x.2.2
        /\ v' = mkCtl (c_running v) [x.2.1; x.2.2] (c_thread v) (c_locked v)
      else v' = v
  | Sys (Close fd) => fun _ v' =>
      v' = mkCtl (c_running v) (filter (.≠ fd) (c_pipe v)) (c_thread v) (c_locked v)
  | Mem LoadRunning => fun x v' => x = c_running v /\ v' = v
  | Mem (StoreRunning b) => fun _ v' => v' = mkCtl b (c_pipe v) (c_thread v) (c_locked v)
  | Mem (ExchangeRunning b) => fun x v' =>
      x = c_running v /\ v' = mkCtl b (c_pipe v) (c_thread v) (c_locked v)
  | Mem LoadSock => fun x v' => (c_thread v = None -> x = invalid_socket) /\ v' = v
  | Mem LockSend => fun _ v' => v' = mkCtl (c_running v) (c_pipe v) (c_thread v) true
  | Mem UnlockSend => fun _ v' => v' = mkCtl (c_running v) (c_pipe v) (c_thread v) false
  | Mem (Spawn imp) => fun _ v' => v' = mkCtl (c_running v) (c_pipe v) (Some imp) (c_locked v)
  | Mem Join => fun _ v' => v' = mkCtl (c_running v) (c_pipe v) None (c_locked v)
  | _ => fun _ v' => v' = v
  end.

Definition ctl_rules : Rules access CtlView := mkRules ctl_allowed ctl_learns.

(** A user calls [start] and [stop] in any order from one thread, and [send]
    from any number of others. *)
Inductive Command := Start (cb : TransportCallbacks) | Stop.

Fixpoint control (strerror : Z -> string) (cmds : list Command) (imp : Impl) : io Impl :=
  match cmds with
  | [] => Ret imp
  | Start cb :: cmds => '(_, imp) ← start strerror cb imp; control strerror cmds imp
  | Stop :: cmds => imp ← stop imp; control strerror cmds imp
  end.

Fixpoint send_all (strerror : Z -> string) (fuel : nat) (ms : list (list Z)) : io (list (Result unit)) :=
  match ms with
  | [] => Ret []
  | m :: ms => r ← send strerror fuel m; rs ← send_all strerror fuel ms; Ret (r :: rs)
  end.

(** ** The I/O thread keeps its rules *)

Section io_thread.
Variable strerror : Z -> string.
Variable config : TcpClientConfig.
Variable fuel : nat.
Variable imp : Impl.

Abbreviation iowp := (wp (io_rules imp)).
Abbreviation reads v fd := (v_fd v = Some fd \/ fd = read_fd (wake imp)).

Lemma io_sys (c : sys) (Q : sys_ans c -> IoView -> Prop) v :
  io_allowed imp (Sys c) v -> (forall x, Q x (io_next (Sys c) v x)) -> iowp (sys_call c) Q v.
Proof. intros Hc HQ. apply wp_sys; [done|]. intros x v' [-> _]. apply HQ. Qed.

Lemma io_mem (m : access) (Q : mem_ans m -> IoView -> Prop) v :
  io_allowed imp (Mem m) v -> (forall x, Q x (io_next (Mem m) v x)) -> iowp (mem m) Q v.
Proof. intros Hm HQ. apply wp_mem; [done|]. intros x v' [-> Hx]. apply HQ. Qed.

Lemma io_running (Q : bool -> IoView -> Prop) v : (forall b, Q b v) -> iowp load_running Q v.
Proof. intros HQ. by apply (io_mem LoadRunning). Qed.

Lemma io_load_sock s (Q : Z -> IoView -> Prop) v : v_sock v = s -> Q s v -> iowp load_sock Q v.
Proof. intros <- HQ. apply wp_mem; [done|]. by intros x v' [-> ->]. Qed.

Lemma io_errno_failure {A} c what (Q : Result A -> IoView -> Prop) v :
  (forall e, Q (Fail e) v) -> iowp (errno_failure strerror c what) Q v.
Proof. intros HQ. apply wp_bind, io_sys; [constructor|]. intros err. apply HQ. Qed.

Lemma io_close_socket s (Q : unit -> IoView -> Prop) v :
  s <> invalid_socket -> v_fd v = Some s -> v_sock v = invalid_socket \/ v_locked v = true ->
  Q tt (with_fd None v) -> iowp (close_socket s) Q v.
Proof.
  intros Hs Hfd Hv HQ. unfold close_socket. apply Z.eqb_neq in Hs as ->.
  by apply io_sys; [|intros []].
Qed.

Lemma io_wait ps ms (Q : Z * PollSet -> IoView -> Prop) v :
  Forall (fun fd => reads v fd) (pfd <$> ps) -> (forall sel ps', Q (sel, ps') v) ->
  iowp (wait ps ms) Q v.
Proof.
  intros Hps HQ. apply wp_bind, (io_sys (Poll ps ms)); [done|]. intros [sel re]. apply HQ.
Qed.

Lemma io_drain (Q : unit -> IoView -> Prop) v :
  Q tt v -> iowp (drain_wake_pipe fuel (wake imp)) Q v.
Proof.
  intros HQ. unfold drain_wake_pipe. destruct_if; [|done].
  induction fuel as [|n IH]; cbn [drain_loop]; [done|].
  apply wp_bind, (io_sys (Read (read_fd (wake imp)) 64)); [repeat constructor; by right|].
  intros x. by destruct_if.
Qed.

(** The check of the wake pipe after [poll]. *)
Lemma io_check_wake ps (Q : bool -> IoView -> Prop) v :
  (forall b, Q b v) ->
  iowp (if is_readable ps (read_fd (wake imp)) then
          drain_wake_pipe fuel (wake imp);; running ← load_running; Ret (negb running)
        else Ret false) Q v.
Proof.
  intros HQ. destruct_if; [|by apply HQ].
  apply wp_bind, io_drain, wp_bind, io_running. intros b. apply wp_ret, HQ.
Qed.

(** The socket [s] is open and not yet published. *)
Definition holding (s : Z) (v : IoView) : Prop :=
  0 <= s /\ v_fd v = Some s /\ v_sock v = invalid_socket.

(** Closing it leaves the view as it was before the attempt. *)
Lemma io_drop s {A} (r : io (Result A)) (Q : Result A -> IoView -> Prop) v :
  holding s v -> iowp r Q (with_fd None v) -> iowp (close_socket s;; r) Q v.
Proof.
  intros (Hs & Hfd & Hsock) Hr. apply wp_bind, io_close_socket; try done; [|by left].
  unfold invalid_socket. lia.
Qed.

Lemma io_connect_wait n s deadline (Q : Result bool -> IoView -> Prop) v :
  holding s v -> (forall b, Q (Ok b) v) -> (forall e, Q (Fail e) (with_fd None v)) ->
  iowp (connect_wait strerror config fuel imp n s deadline) Q v.
Proof.
  intros Hs HQ HF. induction n as [|n IH]; cbn [connect_wait]; [done|].
  apply wp_bind, io_running. intros []; cbn [negb]; [|by apply wp_ret].
  apply wp_bind, (io_sys Now); [constructor|]. intros now.
  destruct_if; [by apply wp_ret|].
  apply wp_bind, io_wait; [apply add_read_fds, add_write_fds; [by right|left; apply Hs|done]|].
  intros sel ps. destruct_if.
  { apply wp_bind, (io_sys Errno); [constructor|]. intros err. destruct_if; [done|by apply wp_ret]. }
  apply wp_bind, io_check_wake. intros []; [by apply wp_ret|].
  destruct_if; [|done].
  apply wp_bind, (io_sys (Getsockopt_error s)); [apply Forall_singleton; left; apply Hs|].
  intros e. cbn zeta. destruct_if; [by apply wp_ret|].
  apply io_drop; [done|]. apply wp_ret, HF.
Qed.

Lemma io_publish s (Q : Result unit -> IoView -> Prop) v :
  holding s v -> Q (Ok tt) (with_sock s v) -> (forall e, Q (Fail e) (with_fd None v)) ->
  iowp (publish strerror s) Q v.
Proof.
  intros Hs HQ HF. assert (Hin : Forall (fun fd => reads v fd) [s]).
  { apply Forall_singleton. left. apply Hs. }
  unfold publish. apply wp_bind, (io_sys (Fcntl_getfl s)); [done|]. intros flags.
  apply wp_bind. apply wp_mono with (P := fun _ v' => v' = v).
  { destruct_if; [done|]. by apply wp_bind, io_sys. }
  intros bad v' ->. destruct bad.
  { apply io_drop; [done|]. by apply io_errno_failure. }
  apply wp_bind. unfold set_tcp_nodelay. apply wp_bind, io_sys; [done|]. intros r.
  destruct_if.
  - apply io_errno_failure. intros e. apply io_drop; [done|]. apply wp_ret, HF.
  - apply wp_bind, io_mem; [left; split; apply Hs|]. by intros [].
Qed.

Lemma io_set_nonblocking s (Q : Result unit -> IoView -> Prop) v :
  v_fd v = Some s -> (forall r, Q r v) -> iowp (set_nonblocking strerror s) Q v.
Proof.
  intros Hs HQ. assert (Hin : Forall (fun fd => reads v fd) [s]).
  { apply Forall_singleton. by left. }
  apply wp_bind, io_sys; [done|]. intros flags.
  destruct_if; [by apply io_errno_failure|].
  apply wp_bind, io_sys; [done|]. intros r.
  destruct_if; [by apply io_errno_failure|by apply wp_ret].
Qed.

(** An attempt publishes an open socket, or leaves nothing behind. *)
Lemma io_try_connect (Q : Result unit -> IoView -> Prop) v :
  v_fd v = None -> v_sock v = invalid_socket ->
  (forall s, 0 <= s -> Q (Ok tt) (with_sock s (with_fd (Some s) v))) ->
  (forall e, Q (Fail e) v) ->
  iowp (try_connect strerror config fuel imp) Q v.
Proof.
  intros Hfd Hsock HQ HF. unfold try_connect.
  apply wp_bind, wp_bind, (io_sys Socket); [done|]. intros s. cbn [io_next].
  destruct (s <? 0) eqn:Es; [by apply io_errno_failure|]. apply wp_ret. bool_to_prop.
  remember (with_fd (Some (s : Z)) v) as w eqn:Ew. assert (Hs : holding s w) by by subst w.
  assert (Hback : with_fd None w = v) by (subst w; destruct v; simpl in *; by subst).
  apply wp_bind, (io_sys (Getaddrinfo _ _)); [constructor|]. intros [gai res]. cbn [io_next].
  destruct (if gai =? 0 then res else None) as [addr|].
  2: { apply io_drop; [done|]. rewrite Hback. apply wp_ret, HF. }
  apply wp_bind, io_set_nonblocking; [apply Hs|]. intros [[]|e].
  2: { apply wp_bind, (io_sys (Freeaddrinfo _)); [constructor|]. intros []. cbn [io_next].
       apply io_drop; [done|]. rewrite Hback. apply wp_ret, HF. }
  apply wp_bind, (io_sys (Connect s addr)); [apply Forall_singleton; left; apply Hs|]. intros conn.
  apply wp_bind, (io_sys (Freeaddrinfo _)); [constructor|]. intros []. cbn [io_next].
  assert (Hpub : iowp (publish strerror s) Q w).
  { apply io_publish; [done|subst w; by apply HQ|]. by rewrite Hback. }
  destruct_if; [done|].
  apply wp_bind, (io_sys Errno); [constructor|]. intros err. cbn [io_next]. destruct_if.
  { apply io_drop; [done|]. rewrite Hback. apply wp_ret, HF. }
  apply wp_bind, (io_sys Now); [constructor|]. intros now. cbn [io_next].
  apply wp_bind, io_connect_wait; [done| |by rewrite Hback].
  intros []; [done|]. apply io_drop; [done|]. rewrite Hback.
  apply wp_bind, io_running. intros b. by destruct_if; apply wp_ret.
Qed.

(** Between calls: [fd] is open and published, no mutex is held, and a peer
    whose callbacks are all set has been told phase [ph]. *)
Record stands (peer : PeerId) (fd : option Z) (ph : Phase) (v : IoView) : Prop := {
  stands_fd : v_fd v = fd;
  stands_sock : v_sock v = default invalid_socket fd;
  stands_unlocked : v_locked v = false;
  stands_phase : complete (callbacks imp) = true -> peer_valid peer = true -> v_phase v = ph;
}.

Lemma callback_made peer fd ph ph' m v :
  stands peer fd ph v -> phase_step ph m = Some ph' -> peer_valid peer = true ->
  (complete (callbacks imp) = true -> is_Some (phase_step (v_phase v) m))
  /\ stands peer fd ph' (with_phase (default (v_phase v) (phase_step (v_phase v) m)) v).
Proof.
  intros [Hfd Hsock Hlk Hph] Hstep Hp. split.
  - intros Hc. by rewrite Hph, Hstep by done.
  - constructor; try done. intros Hc _. simpl. by rewrite Hph, Hstep by done.
Qed.

Lemma callback_skipped peer fd ph ph' (is_set : bool) v :
  stands peer fd ph v -> (complete (callbacks imp) = true -> is_set = true) ->
  is_set && peer_valid peer = false -> stands peer fd ph' v.
Proof.
  intros [Hfd Hsock Hlk Hph] Hset Hskip. constructor; try done.
  intros Hc Hp. by rewrite Hset, Hp in Hskip.
Qed.

Lemma complete_set cb :
  complete cb = true ->
  on_data_received cb = true /\ on_peer_disconnected cb = true /\ on_state_changed cb = true.
Proof. unfold complete. intros H. by bool_to_prop. Qed.

Lemma io_notify peer fd ph ph' st (Q : unit -> IoView -> Prop) v :
  stands peer fd ph v -> phase_step ph (OnStateChanged peer st) = Some ph' ->
  match st with Connected => is_Some fd | _ => fd = None end ->
  (forall v', stands peer fd ph' v' -> Q tt v') -> iowp (notify imp peer st) Q v.
Proof.
  intros Hv Hstep Hfd HQ. unfold notify. destruct_if.
  - bool_to_prop. destruct (callback_made _ _ _ _ _ _ Hv Hstep) as [??]; [done|].
    apply io_mem; [|intros []; by apply HQ]. split; [by eapply stands_unlocked|]. split; [|done].
    simpl. rewrite (stands_fd _ _ _ _ Hv), (stands_sock _ _ _ _ Hv).
    by destruct st; subst; try destruct Hfd as [? ->].
  - apply wp_ret, HQ. eapply callback_skipped; [done| |done]. apply complete_set.
Qed.

Lemma io_data peer s bytes (Q : unit -> IoView -> Prop) v :
  stands peer (Some s) Up v -> (forall v', stands peer (Some s) Up v' -> Q tt v') ->
  iowp (if on_data_received (callbacks imp) && peer_valid peer
        then mem (OnDataReceived peer bytes) else Ret tt) Q v.
Proof.
  intros Hv HQ. destruct_if; [|by apply wp_ret, HQ].
  bool_to_prop. destruct (callback_made _ _ _ _ (OnDataReceived peer bytes) _ Hv eq_refl) as [??]; [done|].
  apply io_mem; [|intros []; by apply HQ]. split; [by eapply stands_unlocked|]. split; [|done].
  simpl. by rewrite (stands_fd _ _ _ _ Hv), (stands_sock _ _ _ _ Hv).
Qed.

Lemma io_recv_rounds n peer s buf (Q : unit -> IoView -> Prop) v :
  stands peer (Some s) Up v -> (forall v', stands peer (Some s) Up v' -> Q tt v') ->
  iowp (recv_rounds fuel imp n peer buf) Q v.
Proof.
  intros Hv HQ. revert buf v Hv. induction n as [|n IH]; intros buf v Hv; cbn [recv_rounds]; [done|].
  pose proof (stands_fd _ _ _ _ Hv) as Hfd.
  pose proof (stands_sock _ _ _ _ Hv) as Hsock. simpl in Hsock.
  apply wp_bind, io_running. intros []; cbn [negb]; [|by apply wp_ret, HQ].
  apply wp_bind, (io_load_sock s); [done|].
  apply wp_bind, io_wait; [apply add_read_fds, add_read_fds; [by right|by left|done]|].
  intros sel ps. destruct_if.
  { apply wp_bind, (io_sys Errno); [constructor|]. intros err.
    destruct_if; [by apply IH|by apply wp_ret, HQ]. }
  destruct_if; [by apply IH|].
  apply wp_bind, (io_load_sock s); [done|]. destruct_if; [by apply wp_ret, HQ|].
  apply wp_bind, io_check_wake. intros []; [by apply wp_ret, HQ|].
  apply wp_bind, (io_load_sock s); [done|]. destruct_if; [|by apply IH].
  apply wp_bind, (io_load_sock s); [done|].
  apply wp_bind, (io_sys (Recv s _)); [apply Forall_singleton; by left|].
  intros [r bytes]. cbn zeta. destruct_if; [by apply wp_ret, HQ|].
  apply wp_bind, (io_data peer s); [done|]. intros v' Hv'. by apply IH.
Qed.

(** The socket is closed and forgotten in one critical section. *)
Lemma io_handle_disconnect peer s (Q : unit -> IoView -> Prop) v :
  0 <= s -> stands peer (Some s) Up v -> (forall v', stands peer None Gone v' -> Q tt v') ->
  iowp (handle_disconnect imp peer) Q v.
Proof.
  intros Hs [Hfd Hsock Hlk Hph] HQ. simpl in Hsock.
  assert (Hne : s <> invalid_socket) by (unfold invalid_socket; lia).
  apply wp_bind, (io_mem LockSend); [done|]. intros [].
  apply wp_bind, (io_load_sock s); [done|]. rewrite (proj2 (Z.eqb_neq _ _) Hne). cbn [negb].
  apply wp_bind, wp_bind, (io_load_sock s); [done|].
  apply wp_bind, (io_sys (Shutdown s SHUT_WR)); [apply Forall_singleton; by left|]. intros [].
  apply wp_bind, (io_load_sock s); [done|].
  apply wp_bind, io_close_socket; [done|done|by right|].
  apply io_mem; [by right|]. intros [].
  apply wp_bind, io_mem; [split; [done|by left]|]. intros [].
  assert (Hv : stands peer None Up (with_lock false (with_sock invalid_socket (with_fd None (with_lock true v))))).
  { by constructor. }
  apply wp_bind. eapply io_notify; [exact Hv|done|done|]. clear Hv. intros v' Hv.
  destruct_if.
  - bool_to_prop.
    destruct (callback_made _ _ _ _ (OnPeerDisconnected peer) _ Hv eq_refl) as [??]; [done|].
    apply io_mem; [|intros []; by apply HQ]. split; [by eapply stands_unlocked|]. split; [|done].
    split; [exact (stands_fd _ _ _ _ Hv)|exact (stands_sock _ _ _ _ Hv)].
  - apply wp_ret, HQ. eapply callback_skipped; [done| |done]. apply complete_set.
Qed.

Lemma io_backoff_wait n deadline (Q : unit -> IoView -> Prop) v :
  Q tt v -> iowp (backoff_wait fuel imp n deadline) Q v.
Proof.
  intros HQ. induction n as [|n IH]; cbn [backoff_wait]; [done|].
  apply wp_bind, io_running. intros []; cbn [negb]; [|done].
  apply wp_bind, (io_sys Now); [constructor|]. intros now. destruct_if; [done|].
  apply wp_bind, (io_sys Now); [constructor|]. intros now'. cbn zeta. destruct_if; [done|].
  apply wp_bind, io_wait; [apply add_read_fds; [by right|done]|].
  intros sel ps. apply wp_bind. destruct_if; [by apply io_drain|done].
Qed.

(** The delays the back-off goes through. *)
Definition delay_after (rp : ReconnectPolicy) (k : nat) : option Z :=
  Nat.iter k (mbind (next_delay rp)) (Some (initial_delay rp)).

(** The conversion to [long long] is defined for all of them. *)
Definition delays_defined (rp : ReconnectPolicy) : Prop := forall k, is_Some (delay_after rp k).

Lemma io_io_rounds n peer k delay attempts v :
  delays_defined (reconnect config) -> delay_after (reconnect config) k = Some delay ->
  stands peer None Idle v \/ stands peer None Waiting v ->
  iowp (io_rounds strerror config fuel imp n peer delay attempts)
       (fun _ v' => exists ph, stands peer None ph v') v.
Proof.
  intros Hdef. revert k delay attempts v. induction n as [|n IH]; intros k delay attempts v Hk Hv;
    cbn [io_rounds]; [done|]. cbn zeta.
  assert (Hend : exists ph, stands peer None ph v) by (destruct Hv; eauto).
  apply wp_bind, io_running. intros []; cbn [negb]; [|done].
  assert (Hgo : forall Q : unit -> IoView -> Prop,
    (forall v', stands peer None Trying v' -> Q tt v') -> iowp (notify imp peer Connecting) Q v).
  { intros Q HQ. destruct Hv; eapply io_notify; try done; done. }
  apply wp_bind, Hgo. clear v Hv Hend Hgo. intros v Hv.
  apply wp_bind, io_try_connect;
    [exact (stands_fd _ _ _ _ Hv)|exact (stands_sock _ _ _ _ Hv)| |].
  - intros s Hs.
    assert (Hup : stands peer (Some s) Trying (with_sock s (with_fd (Some s) v))).
    { destruct Hv. by constructor. }
    apply wp_bind. eapply io_notify; [done|done|by eexists|]. clear v Hv Hup. intros v Hv.
    apply wp_bind, (io_recv_rounds _ peer s); [done|]. clear v Hv. intros v Hv.
    apply wp_bind, (io_handle_disconnect peer s); [done|done|]. clear v Hv. intros v Hv.
    destruct_if; [by apply wp_ret; eexists|].
    apply wp_bind, io_running. intros []; cbn [negb]; [|by apply wp_ret; eexists].
    apply wp_bind. eapply io_notify; [done|done|done|]. clear v Hv. intros v Hv.
    apply (IH 0%nat); [done|by right].
  - intros e. destruct_if; [eapply io_notify; eauto; done|].
    destruct_if; [eapply io_notify; eauto; done|].
    apply wp_bind. eapply io_notify; [done|done|done|]. clear v Hv. intros v Hv.
    apply wp_bind, (io_sys Now); [constructor|]. intros now.
    apply wp_bind, io_backoff_wait. destruct (Hdef (S k)) as [d Hd].
    pose proof Hd as Hd'. unfold delay_after in Hd'. simpl in Hd'.
    fold (delay_after (reconnect config) k) in Hd'. rewrite Hk in Hd'. simpl in Hd'.
    rewrite Hd'. apply (IH (S k)); [done|by right].
Qed.

(** The I/O thread: it starts and ends with nothing open. *)
Lemma io_io_loop :
  delays_defined (reconnect config) ->
  iowp (io_loop strerror config fuel imp)
       (fun _ v => v_fd v = None /\ v_sock v = invalid_socket /\ v_locked v = false) io_view0.
Proof.
  intros Hdef.
  assert (Hrun : forall peer v, stands peer None Idle v ->
    iowp (io_rounds strerror config fuel imp fuel peer (initial_delay (reconnect config)) 0;; Ret peer)
      (fun _ v => v_fd v = None /\ v_sock v = invalid_socket /\ v_locked v = false) v).
  { intros peer v Hv. apply wp_bind.
    eapply wp_mono; [by apply (io_io_rounds _ _ 0); [| |left]|].
    intros _ v' [ph []]. done. }
  unfold io_loop. apply wp_bind. destruct_if.
  - apply (io_mem (OnPeerConnected _)); [done|]. intros peer. by apply Hrun.
  - by apply wp_ret, Hrun.
Qed.
End io_thread.

(** ** A sender keeps its rules *)

Lemma tagged_app fd l k : tagged fd (l ++ k) = tagged fd l ++ tagged fd k.
Proof. apply fmap_app. Qed.

Lemma segmented_nil messages : segmented messages [].
Proof. exists []. by split. Qed.

Lemma segmented_snoc messages wire fd m pre :
  segmented messages wire -> m ∈ messages -> pre `prefix_of` m ->
  segmented messages (wire ++ tagged fd pre).
Proof.
  intros (segs & -> & Hsegs) Hm Hpre. exists (segs ++ [tagged fd pre]). split.
  - by rewrite concat_app, concat_cons, app_nil_r.
  - apply Forall_app. split; [done|]. apply Forall_singleton. by exists fd, m, pre.
Qed.

Lemma delivered_prefix m wire wire' : delivered m wire -> wire `prefix_of` wire' -> delivered m wire'.
Proof. intros (b & fd & a & ->) [k ->]. exists b, fd, (a ++ k). by rewrite <- !app_assoc. Qed.

Section sender.
Variable strerror : Z -> string.
Variable fuel : nat.
Variable messages : list (list Z).

Abbreviation swp := (wp (send_rules messages)).

(** The mutex is held, [s] is the socket, and [pre] has been written to it. *)
Definition sending (s : Z) (base : list (Z * Z)) (pre : list Z) : SendView :=
  mkSend true (Some s) (base ++ tagged s pre).

Lemma snd_load_sock s base pre (Q : Z -> SendView -> Prop) :
  s <> invalid_socket -> Q s (sending s base pre) -> swp load_sock Q (sending s base pre).
Proof.
  intros Hs HQ. apply wp_mem; [done|]. intros x v' [Hx ->].
  rewrite (Hx s eq_refl). by apply Z.eqb_neq in Hs as ->.
Qed.

Lemma snd_errno (Q : Z -> SendView -> Prop) v : (forall x, Q x v) -> swp get_last_error Q v.
Proof. intros HQ. apply wp_sys; [done|]. intros x v' ->. apply HQ. Qed.

Lemma snd_chunk n s base pre rest m (Q : Z -> SendView -> Prop) :
  s <> invalid_socket -> segmented messages base -> m ∈ messages -> m = pre ++ rest ->
  (forall x, x <= len rest -> Q x (sending s base (pre ++ take (Z.to_nat x) rest))) ->
  swp (send_chunk n rest) Q (sending s base pre).
Proof.
  intros Hs Hseg Hm -> HQ. induction n as [|n IH]; cbn [send_chunk]; [done|].
  apply wp_bind, snd_load_sock; [done|].
  apply wp_bind, wp_sys.
  { split; [done|]. split; [done|]. intros k. simpl. rewrite <- app_assoc, <- tagged_app.
    eapply segmented_snoc; [done..|]. apply prefix_app, prefix_take. }
  intros x v' [Hx ->]. cbn [sending s_wire s_locked s_known]. rewrite <- app_assoc, <- tagged_app. specialize (HQ x Hx).
  destruct (x <? 0) eqn:Ex; [|by apply wp_ret]. bool_to_prop.
  rewrite Z2Nat.nonpos in HQ |- * by lia. rewrite take_0, app_nil_r in HQ |- *.
  apply wp_bind, snd_errno. intros err. destruct_if; [done|by apply wp_ret].
Qed.

Lemma snd_rounds n s base pre rest m (Q : Result unit -> SendView -> Prop) :
  s <> invalid_socket -> segmented messages base -> m ∈ messages -> m = pre ++ rest ->
  Q (Ok tt) (sending s base m) ->
  (forall e pre', pre' `prefix_of` m -> Q (Fail e) (sending s base pre')) ->
  swp (send_rounds strerror fuel n rest) Q (sending s base pre).
Proof.
  intros Hs Hseg Hm. revert pre rest.
  induction n as [|n IH]; intros pre rest Hpre HQ HF; cbn [send_rounds];
    (destruct (decide (rest = [])) as [->|]; [rewrite app_nil_r in Hpre; by subst|]); [done|].
  apply wp_bind. eapply snd_chunk; [done..|]. intros x Hx. destruct_if; bool_to_prop.
  - rewrite Z2Nat.nonpos, take_0, app_nil_r by lia.
    apply wp_bind, snd_errno. intros err. apply wp_ret, HF. subst. by eexists.
  - apply IH; try done. by rewrite <- app_assoc, take_drop.
Qed.

Lemma snd_send m (Q : Result unit -> SendView -> Prop) v :
  m ∈ messages -> s_locked v = false ->
  (forall r v', s_locked v' = false -> s_wire v `prefix_of` s_wire v' ->
     (r = Ok tt -> delivered m (s_wire v')) -> Q r v') ->
  swp (send strerror fuel m) Q v.
Proof.
  intros Hm Hv HQ. apply wp_bind, wp_mem; [done|]. intros [] v' (base & -> & Hbase & Hseg).
  apply wp_bind, wp_mem; [done|]. intros s v' [_ ->]. cbn [s_locked s_wire].
  assert (Hdone : forall r wire, s_wire v `prefix_of` wire -> (r = Ok tt -> delivered m wire) ->
            forall k, swp (mem UnlockSend;; Ret r) Q (mkSend true k wire)).
  { intros r wire Hpre Hr k. apply wp_bind, wp_mem; [done|]. intros [] v' ->. by apply HQ. }
  apply wp_bind. destruct (s =? invalid_socket) eqn:Es.
  { by apply wp_ret, Hdone. }
  apply Z.eqb_neq in Es. replace base with (base ++ tagged s []) by apply app_nil_r.
  eapply snd_rounds; [done..| |].
  - apply Hdone; [by apply prefix_app_r|]. intros _. exists base, s, []. by rewrite app_nil_r.
  - intros e pre' _. apply Hdone; [by apply prefix_app_r|done].
Qed.

(** A sender: what it reports as sent was delivered. *)
Lemma snd_send_all ms v :
  ms ⊆ messages -> s_locked v = false ->
  swp (send_all strerror fuel ms)
      (fun rs v' => s_locked v' = false /\ s_wire v `prefix_of` s_wire v'
         /\ Forall2 (fun m r => r = Ok tt -> delivered m (s_wire v')) ms rs) v.
Proof.
  revert v. induction ms as [|m ms IH]; intros v Hms Hv; cbn [send_all]; [by apply wp_ret|].
  apply wp_bind, snd_send; [set_solver|done|]. intros r v1 Hv1 Hpre Hr.
  apply wp_bind. eapply wp_mono; [apply IH; [set_solver|done]|].
  intros rs v2 (Hv2 & Hpre2 & Hrs). apply wp_ret. split; [done|]. split; [by etrans|].
  constructor; [|done]. intros Ok. eapply delivered_prefix; [by apply Hr|done].
Qed.
End sender.

(** ** The controlling thread keeps its rules *)

Section control.
Variable strerror : Z -> string.

Abbreviation cwp := (wp ctl_rules).

(** Between calls of [start] and [stop]: running with an I/O thread and an open
    wake pipe, or stopped with neither. *)
Definition settled (imp : Impl) (v : CtlView) : Prop :=
  let rd := read_fd (wake imp) in let wr := write_fd (wake imp) in
  if c_running v then v = mkCtl true [rd; wr] (Some imp) false
    /\ rd <> wr /\ 0 <= rd /\ 0 <= wr /\ joinable imp = true
  else v = ctl_view0.

Lemma ctl_errno_failure {A} c what (Q : Result A -> CtlView -> Prop) v :
  (forall e, Q (Fail e) v) -> cwp (errno_failure strerror c what) Q v.
Proof.
  intros HQ. apply wp_bind, wp_sys; [done|]. intros err v' ->. apply wp_ret, HQ.
Qed.

Lemma ctl_close fd (Q : unit -> CtlView -> Prop) v :
  fd ∈ c_pipe v -> c_thread v = None ->
  Q tt (mkCtl (c_running v) (filter (.≠ fd) (c_pipe v)) (c_thread v) (c_locked v)) ->
  cwp (sys_call (Close fd)) Q v.
Proof. intros Hfd Hv HQ. apply wp_sys; [done|]. by intros [] v' ->. Qed.

(** Both ends of a pipe, in either order of the test. *)
Lemma filter_ends (a b : Z) : a <> b -> filter (.≠ a) [a; b] = [b].
Proof.
  intros Hab. rewrite filter_cons_False, filter_cons_True; [done|congruence|by intros []].
Qed.

Lemma filter_end (a : Z) : filter (.≠ a) [a] = [].
Proof. rewrite filter_cons_False; [done|by intros []]. Qed.

Lemma ctl_end a b fd r (Q : Result unit -> CtlView -> Prop) :
  fd = a \/ fd = b -> a <> b ->
  Q (Ok tt) (mkCtl r [a; b] None false) ->
  (forall e, Q (Fail e) (mkCtl r [] None false)) ->
  cwp (set_end_nonblocking strerror (a, b) fd) Q (mkCtl r [a; b] None false).
Proof.
  intros Hfd Hab HQ HF. assert (Hin : fd ∈ [a; b]) by set_solver.
  apply wp_bind, wp_sys; [done|]. intros flags v ->.
  apply wp_bind. eapply (wp_mono _ _ (fun _ v' => v' = mkCtl r [a; b] None false)).
  { destruct_if; [done|]. apply wp_bind, wp_sys; [done|]. by intros x v ->. }
  intros [] v ->; [|done].
  apply wp_bind, ctl_close; [set_solver|done|]. cbn [c_pipe c_running c_thread c_locked fst].
  rewrite filter_ends by done. apply wp_bind, ctl_close; [set_solver|done|].
  cbn [c_pipe c_running c_thread c_locked snd]. rewrite filter_end. by apply ctl_errno_failure.
Qed.

Lemma ctl_create_wake_pipe (Q : Result WakePipe -> CtlView -> Prop) :
  (forall a b, a <> b -> 0 <= a -> 0 <= b ->
     Q (Ok (mkWakePipe a b)) (mkCtl false [a; b] None false)) ->
  (forall e, Q (Fail e) ctl_view0) ->
  cwp (create_wake_pipe strerror) Q ctl_view0.
Proof.
  intros HQ HF. apply wp_bind, wp_sys; [done|]. intros [r [a b]] v Hv. cbn in Hv.
  destruct (r =? 0) eqn:Er; cbn [negb].
  - destruct Hv as (Hab & Ha & Hb & ->).
    apply wp_bind, ctl_end; [by left|done| |intros e; apply wp_ret, HF].
    apply wp_bind, ctl_end; [by right|done| |intros e; apply wp_ret, HF].
    by apply wp_ret, HQ.
  - subst. by apply ctl_errno_failure.
Qed.

Lemma ctl_start cb imp v (Q : Result unit * Impl -> CtlView -> Prop) :
  settled imp v -> (forall r imp' v', settled imp' v' -> Q (r, imp') v') ->
  cwp (start strerror cb imp) Q v.
Proof.
  intros Hv HQ. apply wp_bind, wp_mem; [done|]. intros x v' [-> ->].
  unfold settled in Hv. destruct (c_running v) eqn:Er.
  { apply wp_ret, HQ. unfold settled. by rewrite Er. }
  subst. apply wp_bind, wp_ret, wp_bind, ctl_create_wake_pipe.
  - intros a b Hab Ha Hb. apply wp_bind, wp_mem; [done|]. intros [] v ->.
    apply wp_bind, wp_mem; [split_and!; [done|simpl; set_solver|done]|]. intros [] v ->. by apply wp_ret, HQ.
  - intros e. by apply wp_bind, wp_ret, wp_ret, HQ.
Qed.

Lemma ctl_close_wake_pipe a b (Q : WakePipe -> CtlView -> Prop) :
  a <> b -> 0 <= a -> 0 <= b -> Q wake_pipe0 ctl_view0 ->
  cwp (close_wake_pipe (mkWakePipe a b)) Q (mkCtl false [a; b] None false).
Proof.
  intros Hab Ha Hb HQ. unfold close_wake_pipe. cbn [read_fd write_fd].
  rewrite !(proj2 (Z.eqb_neq _ _)) by (unfold invalid_socket; lia). cbn [negb].
  apply wp_bind, ctl_close; [set_solver|done|]. cbn [c_pipe c_running c_thread c_locked].
  rewrite filter_ends by done. apply wp_bind, ctl_close; [set_solver|done|].
  cbn [c_pipe c_running c_thread c_locked]. by rewrite filter_end.
Qed.

Lemma ctl_stop imp v (Q : Impl -> CtlView -> Prop) :
  settled imp v -> (forall imp', settled imp' ctl_view0 -> Q imp' ctl_view0) ->
  cwp (stop imp) Q v.
Proof.
  intros Hv HQ. apply wp_bind, wp_mem; [done|]. intros x v' [-> ->].
  unfold settled in Hv. destruct (c_running v) eqn:Er; cbn [negb].
  2: { subst. by apply wp_ret, HQ. }
  destruct imp as [cb peer [rd wr] j]. simpl in Hv. destruct Hv as (-> & Hab & Hrd & Hwr & ->).
  apply wp_bind, wp_mem; [done|]. intros s v' [_ ->].
  apply wp_bind. eapply (wp_mono _ _ (fun _ v' => v' = mkCtl false [rd; wr] _ false)).
  { destruct_if; [|done]. apply wp_sys; [done|]. by intros [] v ->. }
  intros [] v ->. apply wp_bind. unfold signal_wake_pipe. cbn [wake write_fd].
  rewrite (proj2 (Z.eqb_neq wr _)) by (unfold invalid_socket; lia). cbn [negb].
  apply wp_bind, wp_sys; [simpl; set_solver|]. intros n v ->. apply wp_ret.
  apply wp_bind. cbn [joinable]. apply wp_bind, wp_mem; [by split_and!|]. intros p v ->. apply wp_ret.
  apply wp_bind, wp_mem; [done|]. intros [] v ->.
  apply wp_bind, wp_mem; [done|]. intros s' v [Hs ->]. rewrite Hs by done. cbn [negb].
  rewrite Z.eqb_refl. apply wp_bind, wp_ret, wp_bind, wp_mem; [done|]. intros [] v ->.
  apply wp_bind, ctl_close_wake_pipe; [done..|]. by apply wp_bind, wp_ret, wp_ret, HQ.
Qed.

Lemma ctl_control cmds imp v :
  settled imp v -> cwp (control strerror cmds imp) settled v.
Proof.
  revert imp v. induction cmds as [|[cb|] cmds IH]; intros imp v Hv; cbn [control].
  - by apply wp_ret.
  - apply wp_bind, ctl_start; [done|]. intros r imp' v' Hv'. by apply IH.
  - apply wp_bind, ctl_stop; [done|]. intros imp' Hv'. by apply IH.
Qed.
End control.
