(* ===== verification/TcpClientSpec.v ===== *)
(** * TCP client: all threads together

    The threads of a client - the I/O thread, the thread that starts and stops
    it, and any number of senders - interleave at every system call and every
    access to a shared variable.  [step] is one such call of one thread; the
    kernel's answers are arbitrary within what POSIX promises ([exec]).  The
    invariant ties the views of [TcpClientThreads] to the shared state, so that
    what each thread was shown to keep to holds of the whole. *)

From stdpp Require Import base numbers list gmap sets functions strings pretty.
From Stdlib Require Import ZArith Lia.
From S2P Require Import Prelude CoreError Handler Transceiver SysCalls SocketOps TcpClient TcpClientThreads.

Open Scope Z_scope.

Inductive Tid := Io | Ctl | Snd (i : nat).

(** The shared variables, the open descriptors, the bytes accepted by [::send],
    and the callbacks made since the I/O thread was created. *)
Record World := mkWorld {
  w_running : bool;
  w_sock : Z;
  w_mutex : option Tid;
  w_open : gset Z;
  w_wire : list (Z * Z);
  w_session : TransportCallbacks;
  w_log : list access;
}.

Definition set_running b w := mkWorld b (w_sock w) (w_mutex w) (w_open w) (w_wire w) (w_session w) (w_log w).
Definition set_sock s w := mkWorld (w_running w) s (w_mutex w) (w_open w) (w_wire w) (w_session w) (w_log w).
Definition set_mutex t w := mkWorld (w_running w) (w_sock w) t (w_open w) (w_wire w) (w_session w) (w_log w).
Definition set_open o w := mkWorld (w_running w) (w_sock w) (w_mutex w) o (w_wire w) (w_session w) (w_log w).
Definition set_wire b w := mkWorld (w_running w) (w_sock w) (w_mutex w) (w_open w) b (w_session w) (w_log w).
Definition set_log l w := mkWorld (w_running w) (w_sock w) (w_mutex w) (w_open w) (w_wire w) (w_session w) l.
Definition new_session cb w := mkWorld (w_running w) (w_sock w) (w_mutex w) (w_open w) (w_wire w) cb [].

(** A call of thread [t].  New descriptors are not open yet; [send] accepts at
    most what it is given; the mutex is granted when it is free. *)
Definition exec (t : Tid) (c : call access) (w : World) : ans c -> World -> Prop :=
  match c with
  | Sys Socket => fun x w' =>
      if x <? 0 then w' = w else (x ∉ w_open w) /\ w' = set_open ({[x]} ∪ w_open w) w
  | Sys Pipe2 => fun x w' =>
      if x.1 =? 0 then x.2.1 <> x.2.2 /\ 0 <= x.2.1 /\ 0 <= x.2.2
        /\ (x.2.1 ∉ w_open w) /\ (x.2.2 ∉ w_open w)
        /\ w' = set_open ({[x.2.1; x.2.2]} ∪ w_open w) w
      else w' = w
  | Sys (Close fd) => fun _ w' => w' = set_open (w_open w ∖ {[fd]}) w
  | Sys (Send fd bytes) => fun x w' =>
      x <= len bytes /\ w' = set_wire (w_wire w ++ tagged fd (take (Z.to_nat x) bytes)) w
  | Sys _ => fun _ w' => w' = w
  | Mem LoadRunning => fun x w' => x = w_running w /\ w' = w
  | Mem (StoreRunning b) => fun _ w' => w' = set_running b w
  | Mem (ExchangeRunning b) => fun x w' => x = w_running w /\ w' = set_running b w
  | Mem LoadSock => fun x w' => x = w_sock w /\ w' = w
  | Mem (StoreSock s) => fun _ w' => w' = set_sock s w
  | Mem LockSend => fun _ w' => w_mutex w = None /\ w' = set_mutex (Some t) w
  | Mem UnlockSend => fun _ w' => w' = set_mutex None w
  | Mem (Spawn _ | Join) => fun _ _ => False
  | Mem (OnPeerConnected _) => fun _ w' => w' = w
  | Mem ((OnPeerDisconnected _ | OnStateChanged _ _ | OnDataReceived _ _) as m) =>
      fun _ w' => w' = set_log (w_log w ++ [m]) w
  end.

Section pool.
Variable strerror : Z -> string.
Variable config : TcpClientConfig.
Variable fuel : nat.

Record Pool := mkPool {
  p_world : World;
  p_io : option (prog access PeerId);
  p_ctl : prog access Impl;
  p_snd : list (prog access (list (Result unit)));
}.

Inductive step : Pool -> Pool -> Prop :=
  | step_io w c k x w' ctl snd :
      exec Io c w x w' ->
      step (mkPool w (Some (Vis c k)) ctl snd) (mkPool w' (Some (k x)) ctl snd)
  | step_ctl w io c k x w' snd :
      exec Ctl c w x w' ->
      step (mkPool w io (Vis c k) snd) (mkPool w' io (k x) snd)
  | step_snd w io ctl snd i c k x w' :
      snd !! i = Some (Vis c k) -> exec (Snd i) c w x w' ->
      step (mkPool w io ctl snd) (mkPool w' io ctl (<[i := k x]> snd))
  | step_spawn w imp k snd :
      step (mkPool w None (Vis (Mem (Spawn imp)) k) snd)
           (mkPool (new_session (callbacks imp) w) (Some (io_loop strerror config fuel imp)) (k tt) snd)
  | step_join w peer k snd :
      step (mkPool w (Some (Ret peer)) (Vis (Mem Join) k) snd) (mkPool w None (k peer) snd).

(** A fresh client, a user who controls it and threads that send. *)
Definition world0 : World := mkWorld false invalid_socket None ∅ [] (callbacks impl0) [].
Definition pool0 (cmds : list Command) (msgs : list (list (list Z))) : Pool :=
  mkPool world0 None (control strerror cmds impl0) (send_all strerror fuel <$> msgs).

Definition reachable cmds msgs : Pool -> Prop := rtc step (pool0 cmds msgs).

Definition next (σ : Pool) (t : Tid) : option (call access) :=
  match t with
  | Io => p_io σ ≫= next_call
  | Ctl => next_call (p_ctl σ)
  | Snd i => p_snd σ !! i ≫= next_call
  end.

(** The phase the callbacks made so far have reported. *)
Definition protocol (log : list access) : option Phase :=
  foldl (fun ph m => ph ≫= fun ph => phase_step ph m) (Some Idle) log.

(** ** The invariant *)

Definition opened (v : IoView) : gset Z := match v_fd v with Some fd => {[fd]} | None => ∅ end.

Record links (messages : list (list Z)) (w : World) (vio : IoView) (vctl : CtlView)
    (vs : nat -> SendView) : Prop := {
  l_sock : w_sock w = v_sock vio;
  l_running : w_running w = c_running vctl;
  l_open : w_open w = opened vio ∪ list_to_set (c_pipe vctl);
  l_fd : forall fd, v_fd vio = Some fd -> (fd ∉ c_pipe vctl) /\ fd <> invalid_socket;
  l_io : w_mutex w = Some Io <-> v_locked vio = true;
  l_ctl : w_mutex w = Some Ctl <-> c_locked vctl = true;
  l_snd : forall i, w_mutex w = Some (Snd i) <-> s_locked (vs i) = true;
  l_published : v_locked vio = true \/ v_sock vio = invalid_socket \/ v_fd vio = Some (v_sock vio);
  l_known : forall i s, s_known (vs i) = Some s ->
    s_locked (vs i) = true /\ v_sock vio = s /\ s <> invalid_socket;
  l_prefix : forall i, s_wire (vs i) `prefix_of` w_wire w;
  l_wire : forall i, s_locked (vs i) = true -> s_wire (vs i) = w_wire w;
  l_segmented : segmented messages (w_wire w);
  l_idle : c_thread vctl = None ->
    v_fd vio = None /\ v_sock vio = invalid_socket /\ v_locked vio = false;
  l_session : forall imp, c_thread vctl = Some imp -> w_session w = callbacks imp;
  l_pipe : forall imp, c_thread vctl = Some imp -> read_fd (wake imp) ∈ c_pipe vctl;
  l_phase : complete (w_session w) = true -> protocol (w_log w) = Some (v_phase vio);
}.

Lemma protocol_snoc log m ph : protocol log = Some ph -> protocol (log ++ [m]) = phase_step ph m.
Proof. intros H. unfold protocol in *. by rewrite foldl_app, H. Qed.

(** A statement on every sender after the view of sender [i] has changed. *)
Ltac per_sender i :=
  let j := fresh "j" in
  intros j; destruct (decide (j = i)) as [->|];
  [rewrite fn_lookup_insert; simpl|rewrite fn_lookup_insert_ne by done]; try done; eauto.

Section steps.
Context {messages : list (list Z)} {w w' : World} {vio : IoView} {vctl : CtlView} {vs : nat -> SendView}.

Lemma io_open imp c x :
  links messages w vio vctl vs -> c_thread vctl = Some imp ->
  match c with Sys (Socket | Close _) => True | _ => False end ->
  io_allowed imp c vio -> exec Io c w x w' ->
  links messages w' (io_next c vio x) vctl vs.
Proof.
  intros L Himp Hc Hal Hx. destruct L. destruct c as [[]|]; try done; simpl in Hal, Hx |- *.
  - destruct Hal as [Hfd Hsock]. destruct (x <? 0) eqn:Ex; [by subst; constructor|].
    destruct Hx as [Hnew ->]. bool_to_prop. rewrite l_open0 in Hnew. unfold opened in *.
    rewrite Hfd in *. constructor; simpl; try done.
    + rewrite l_open0. set_solver.
    + intros fd [= <-]. split; [set_solver|]. unfold invalid_socket. lia.
    + by right; left.
    + intros H. by rewrite H in Himp.
  - destruct Hal as [Hfd Hlk]. subst w'. destruct (l_fd0 _ Hfd). unfold opened in *.
    rewrite Hfd in l_open0. constructor; simpl; try done.
    + rewrite l_open0. set_solver.
    + destruct Hlk as [|]; [by right; left|by left].
    + intros H'. by rewrite H' in Himp.
Qed.

Lemma io_callback m x :
  links messages w vio vctl vs ->
  match m with OnPeerDisconnected _ | OnStateChanged _ _ | OnDataReceived _ _ => True | _ => False end ->
  forall imp, c_thread vctl = Some imp -> io_allowed imp (Mem m) vio -> exec Io (Mem m) w x w' ->
  links messages w' (io_next (Mem m) vio x) vctl vs.
Proof.
  intros L Hm imp Himp Hal Hx. destruct L.
  assert (Hw : w' = set_log (w_log w ++ [m]) w) by by destruct m.
  assert (Hv : io_next (Mem m) vio x = with_phase (default (v_phase vio) (phase_step (v_phase vio) m)) vio)
    by by destruct m.
  assert (Hph : complete (callbacks imp) = true -> is_Some (phase_step (v_phase vio) m))
    by (destruct m; try done; apply Hal).
  rewrite Hv. subst w'. constructor; simpl; try done.
  intros Hc. rewrite (protocol_snoc _ _ _ (l_phase0 Hc)).
  destruct Hph as [ph ->]; [|done]. by rewrite <- (l_session0 _ Himp).
Qed.

Lemma io_step imp c x :
  links messages w vio vctl vs -> c_thread vctl = Some imp ->
  io_allowed imp c vio -> exec Io c w x w' ->
  learns (io_rules imp) c vio x (io_next c vio x) /\ links messages w' (io_next c vio x) vctl vs.
Proof.
  intros L Himp Hc Hx. split.
  { split; [done|]. destruct c as [|[]]; try done. destruct Hx as [-> _]. apply L. }
  destruct c as [c|m]; [destruct c|destruct m]; try (by subst w'); try done.
  all: try (by eapply io_open).
  all: try (by eapply io_callback).
  all: destruct L; simpl in Hc, Hx |- *; try (by destruct Hx as [_ ->]).
  - subst w'. assert (Hk : forall i s', s_known (vs i) = Some s' -> False).
    { intros i s' Hi. destruct (l_known0 _ _ Hi) as (Hl & Hs & Hne).
      destruct Hc as [[??]|(_ & _ & Hlk)]; [congruence|].
      apply l_io0 in Hlk. apply l_snd0 in Hl. congruence. }
    constructor; simpl; try done.
    + destruct Hc as [[??]|(? & _ & ?)]; auto.
    + intros i s' Hi. by destruct (Hk i s').
    + intros H. by rewrite H in Himp.
  - destruct Hx as [Hm ->]. constructor; simpl; try done; naive_solver congruence.
  - subst w'. destruct Hc as [Hlk Hpub]. pose proof (proj2 l_io0 Hlk).
    constructor; simpl; try done; naive_solver congruence.
Qed.

(** Updating the view of sender [i]: what is to be shown of the new view. *)
Lemma links_sender i v :
  links messages w vio vctl vs ->
  (w_mutex w = Some (Snd i) <-> s_locked v = true) ->
  (forall s, s_known v = Some s -> s_locked v = true /\ v_sock vio = s /\ s <> invalid_socket) ->
  s_wire v `prefix_of` w_wire w -> (s_locked v = true -> s_wire v = w_wire w) ->
  links messages w vio vctl (<[i := v]> vs).
Proof.
  intros [] Hm Hk Hp Hw. constructor; try done.
  all: per_sender i.
Qed.

Lemma snd_step i c x :
  links messages w vio vctl vs -> send_allowed messages c (vs i) -> exec (Snd i) c w x w' ->
  exists v', send_learns messages c (vs i) x v' /\ links messages w' vio vctl (<[i := v']> vs).
Proof.
  intros L Hc Hx. destruct c as [c|m]; [destruct c|destruct m]; simpl in Hc, Hx; try done.
  - subst w'. exists (vs i). split; [done|]. by apply links_sender; [|apply L..].
  - destruct Hc as (Hl & Hk & Hseg), Hx as [Hx ->]. eexists. split; [done|].
    assert (Hw := l_wire _ _ _ _ _ L i Hl).
    destruct L. constructor; simpl; try done.
    all: try per_sender i.
    all: first [by rewrite Hw | by intros _; rewrite Hw | by apply prefix_app_r
      | by intros Hj; apply l_snd0 in Hj, Hl; congruence | rewrite <- Hw; apply Hseg].
  - destruct Hx as [-> ->]. eexists. split; [split; [|done]|].
    { intros s Hs. rewrite (l_sock _ _ _ _ _ L). by apply (l_known _ _ _ _ _ L i). }
    apply links_sender; simpl; try done; try apply L.
    intros s Hs. rewrite (l_sock _ _ _ _ _ L) in Hs.
    destruct (v_sock vio =? invalid_socket) eqn:Es; simplify_eq. by apply Z.eqb_neq in Es.
  - destruct Hx as [Hm ->]. exists (mkSend true None (w_wire w)). split.
    { eexists. split; [done|]. split; apply L. }
    destruct L. constructor; simpl; try done.
    all: try per_sender i.
    all: naive_solver congruence.
  - subst w'. eexists. split; [done|]. assert (Hm := proj2 (l_snd _ _ _ _ _ L i) Hc).
    destruct L. constructor; simpl; try done.
    all: try per_sender i.
    all: naive_solver congruence.
Qed.

Lemma ctl_pipe c x :
  links messages w vio vctl vs ->
  match c with Sys (Pipe2 | Close _) => True | _ => False end ->
  ctl_allowed c vctl -> exec Ctl c w x w' ->
  exists v', ctl_learns c vctl x v' /\ links messages w' vio v' vs.
Proof.
  intros L Hc Hal Hx. destruct c as [[]|]; try done; simpl in Hal, Hx.
  - destruct Hal as [Hin Hth]. subst w'. eexists. split; [done|].
    destruct L. destruct (l_idle0 Hth) as (Hfd & _ & _). unfold opened in *. rewrite Hfd in l_open0.
    constructor; simpl; try done.
    + unfold opened. rewrite Hfd, l_open0. apply leibniz_equiv. intros z.
      rewrite elem_of_difference, !elem_of_union, !elem_of_list_to_set, list_elem_of_filter. set_solver.
    + intros fd' Hfd'. congruence.
    + intros imp Himp. congruence.
  - destruct x as [r [a b]]. simpl in *. destruct (r =? 0) eqn:Er.
    2: { exists vctl. by subst w'. }
    destruct Hx as (Hab & Ha & Hb & Hna & Hnb & ->). eexists. split; [by repeat split|].
    destruct L. rewrite Hal in *. constructor; simpl; try done.
    + rewrite l_open0. set_solver.
    + intros fd Hfd. destruct (l_fd0 _ Hfd) as [_ Hne]. split; [|done].
      rewrite l_open0 in Hna, Hnb. unfold opened in *. rewrite Hfd in *. set_solver.
    + intros imp Himp. specialize (l_pipe0 _ Himp). set_solver.
Qed.

Lemma ctl_step c x :
  links messages w vio vctl vs -> ctl_allowed c vctl -> exec Ctl c w x w' ->
  exists v', ctl_learns c vctl x v' /\ links messages w' vio v' vs.
Proof.
  intros L Hc Hx. destruct c as [c|m]; [destruct c|destruct m]; try done.
  all: try (by exists vctl; simpl in Hx; subst w').
  all: try (by eapply ctl_pipe).
  all: simpl in Hc, Hx.
  - destruct Hx as [-> ->]. exists vctl. split; [|done]. split; [apply L|done].
  - subst w'. eexists. split; [done|]. by destruct L; constructor.
  - destruct Hx as [-> ->]. eexists. split; [split; [apply L|done]|]. by destruct L; constructor.
  - destruct Hx as [-> ->]. exists vctl. split; [|done]. split; [|done].
    intros Hth. rewrite (l_sock _ _ _ _ _ L). by apply (l_idle _ _ _ _ _ L).
  - destruct Hx as [Hm ->]. eexists. split; [done|].
    destruct L. constructor; simpl; try done; naive_solver congruence.
  - subst w'. eexists. split; [done|]. assert (Hm := proj2 (l_ctl _ _ _ _ _ L) Hc).
    destruct L. constructor; simpl; try done; naive_solver congruence.
Qed.
End steps.

(** What each thread has established when it returns. *)
Definition io_done (_ : PeerId) (v : IoView) : Prop :=
  v_fd v = None /\ v_sock v = invalid_socket /\ v_locked v = false.
Definition snd_done (ms : list (list Z)) (rs : list (Result unit)) (v : SendView) : Prop :=
  s_locked v = false /\ Forall2 (fun m r => r = Ok tt -> delivered m (s_wire v)) ms rs.

Definition io_inv (p : option (prog access PeerId)) (th : option Impl) (v : IoView) : Prop :=
  match p, th with
  | Some p, Some imp => wp (io_rules imp) p io_done v
  | None, None => True
  | _, _ => False
  end.

Definition snd_inv (msgs : list (list (list Z))) (snd : list (prog access (list (Result unit))))
    (vs : nat -> SendView) : Prop :=
  (forall i p, snd !! i = Some p -> exists ms, msgs !! i = Some ms
     /\ wp (send_rules (concat msgs)) p (snd_done ms) (vs i))
  /\ forall i, s_locked (vs i) = true -> is_Some (snd !! i).

Definition Inv (msgs : list (list (list Z))) (σ : Pool) : Prop :=
  exists vio vctl vs,
    links (concat msgs) (p_world σ) vio vctl vs
    /\ wp ctl_rules (p_ctl σ) settled vctl
    /\ io_inv (p_io σ) (c_thread vctl) vio
    /\ snd_inv msgs (p_snd σ) vs.

Lemma links0 messages : links messages world0 io_view0 ctl_view0 (fun _ => send_view0).
Proof.
  constructor; simpl; try done; try apply segmented_nil; by right; left.
Qed.

Lemma Inv_init cmds msgs : Inv msgs (pool0 cmds msgs).
Proof.
  exists io_view0, ctl_view0, (fun _ => send_view0). split; [apply links0|].
  split; [by apply ctl_control|]. split; [done|]. split; [|done].
  intros i p Hp. simpl in Hp. rewrite list_lookup_fmap in Hp.
  destruct (msgs !! i) as [ms|] eqn:Ems; simplify_eq/=. exists ms. split; [done|].
  eapply wp_mono; [apply snd_send_all|]; [|done|by intros rs v (? & _ & ?)].
  intros m Hm. apply list_elem_of_In, in_concat. exists ms.
  split; apply list_elem_of_In; [by eapply list_elem_of_lookup_2|done].
Qed.

(** ** Running a schedule

    A kernel that answers every call, and the run of a pool under a list of
    thread choices; every such run is one of [step]. *)

Definition kernel (t : Tid) (c : call access) (w : World) : option (ans c * World) :=
  match c with
  | Sys Socket => if decide (7 ∈ w_open w) then Some (-1, w) else Some (7, set_open ({[7]} ∪ w_open w) w)
  | Sys Pipe2 =>
      if decide (3 ∈ w_open w \/ 4 ∈ w_open w) then Some ((-1, (0, 0)), w)
      else Some ((0, (3, 4)), set_open ({[3; 4]} ∪ w_open w) w)
  | Sys (Close fd) => Some (tt, set_open (w_open w ∖ {[fd]}) w)
  | Sys (Send fd bytes) => Some (len bytes, set_wire (w_wire w ++ tagged fd (take (Z.to_nat (len bytes)) bytes)) w)
  | Sys (Fcntl_getfl _ | Fcntl_setfl _ _ | Setsockopt_nodelay _ | Setsockopt_reuse _ | Connect _ _
        | Bind _ _ _ | Listen _ | Errno | Now | Read _ _ | Write _ _ | Socket_udp | Setsockopt _ _ | Sendto _ _ _) => Some (0, w)
  | Sys (Recvfrom _ _) => Some ((-1, ([], (0, 0))), w)
  | Sys (Accept _) => Some ((-1, ("", 0)), w)
  | Sys (Getsockname _) => Some ((-1, 0), w)
  | Sys (Getsockopt_error _) => Some (None, w)
  | Sys (Getaddrinfo _ _) => Some ((0, Some 1), w)
  | Sys (Freeaddrinfo _ | Shutdown _ _) => Some (tt, w)
  | Sys (Poll _ _) => Some ((0, fun _ => 0), w)
  | Sys (Recv _ _) => Some ((0, []), w)
  | Mem LoadRunning => Some (w_running w, w)
  | Mem (StoreRunning b) => Some (tt, set_running b w)
  | Mem (ExchangeRunning b) => Some (w_running w, set_running b w)
  | Mem LoadSock => Some (w_sock w, w)
  | Mem (StoreSock s) => Some (tt, set_sock s w)
  | Mem LockSend => match w_mutex w with None => Some (tt, set_mutex (Some t) w) | Some _ => None end
  | Mem UnlockSend => Some (tt, set_mutex None w)
  | Mem (Spawn _ | Join) => None
  | Mem (OnPeerConnected _) => Some (1, w)
  | Mem ((OnPeerDisconnected _ | OnStateChanged _ _ | OnDataReceived _ _) as m) =>
      Some (tt, set_log (w_log w ++ [m]) w)
  end.

Lemma kernel_exec t c w x w' : kernel t c w = Some (x, w') -> exec t c w x w'.
Proof.
  destruct c as [[]|[]]; simpl; intros H; try done; try case_decide;
    try (destruct (w_mutex w) eqn:?); simplify_eq/=; try done;
    repeat split; try done; set_solver.
Qed.

(** Creation and join of the I/O thread. *)
Definition fork_join (σ : Pool) : option Pool :=
  match σ with
  | mkPool w None (Vis (Mem (Spawn imp)) k) snd =>
      Some (mkPool (new_session (callbacks imp) w) (Some (io_loop strerror config fuel imp)) (k tt) snd)
  | mkPool w (Some (Ret peer)) (Vis (Mem Join) k) snd => Some (mkPool w None (k peer) snd)
  | _ => None
  end.

(** One call of thread [t]. *)
Definition move (t : Tid) (σ : Pool) : option Pool :=
  match t, σ with
  | Io, mkPool w (Some (Vis c k)) ctl snd =>
      '(x, w') ← kernel Io c w; Some (mkPool w' (Some (k x)) ctl snd)
  | Ctl, mkPool w io (Vis c k) snd =>
      match fork_join σ with
      | Some σ' => Some σ'
      | None => '(x, w') ← kernel Ctl c w; Some (mkPool w' io (k x) snd)
      end
  | Snd i, mkPool w io ctl snd =>
      match snd !! i with
      | Some (Vis c k) => '(x, w') ← kernel (Snd i) c w; Some (mkPool w' io ctl (<[i := k x]> snd))
      | _ => None
      end
  | _, _ => None
  end.

Fixpoint moves (ts : list Tid) (σ : Pool) : option Pool :=
  match ts with [] => Some σ | t :: ts => σ' ← move t σ; moves ts σ' end.

Lemma fork_join_step σ σ' : fork_join σ = Some σ' -> step σ σ'.
Proof.
  destruct σ as [w [[peer| | |]|] [|[|[]] k| |] snd]; simpl; intros H; simplify_eq; constructor.
Qed.

Lemma move_step t σ σ' : move t σ = Some σ' -> step σ σ'.
Proof.
  destruct t as [| |i], σ as [w io ctl snd]; cbn [move]; intros H.
  - destruct io as [[|c k| |]|]; try done.
    destruct (kernel Io c w) as [[x w']|] eqn:E; simplify_eq/=. by constructor; apply kernel_exec.
  - destruct ctl as [|c k| |]; try done.
    destruct (fork_join _) eqn:E; [simplify_eq; by apply fork_join_step|].
    destruct (kernel Ctl c w) as [[x w']|] eqn:E'; simplify_eq/=. by constructor; apply kernel_exec.
  - destruct (snd !! i) as [[|c k| |]|] eqn:Ei; try done.
    destruct (kernel (Snd i) c w) as [[x w']|] eqn:E; simplify_eq/=.
    by eapply step_snd; [|apply kernel_exec].
Qed.

Lemma moves_steps ts σ σ' : moves ts σ = Some σ' -> rtc step σ σ'.
Proof.
  revert σ. induction ts as [|t ts IH]; intros σ H; simpl in H; [by simplify_eq|].
  destruct (move t σ) as [σ1|] eqn:E; simplify_eq/=.
  eapply rtc_l; [by apply (move_step t)|by apply IH].
Qed.

(** ** The invariant holds in every reachable state *)

Hypothesis delays_ok : delays_defined (reconnect config).

Lemma Inv_step msgs σ σ' : Inv msgs σ -> step σ σ' -> Inv msgs σ'.
Proof.
  intros (vio & vctl & vs & L & Hctl & Hio & Hsnd) Hstep. destruct Hstep; simpl in *.
  - destruct (c_thread vctl) as [imp|] eqn:Eth; [|done]. destruct Hio as [Hal Hk].
    destruct (io_step imp _ _ L Eth Hal H) as [Hl L'].
    exists (io_next c vio x), vctl, vs. split; [done|]. split; [done|]. rewrite Eth. split; [|done].
    by apply Hk.
  - destruct Hctl as [Hal Hk]. destruct (ctl_step _ _ L Hal H) as (v' & Hl & L').
    exists vio, v', vs. split; [done|]. split; [by apply Hk|]. split; [|done].
    assert (c_thread v' = c_thread vctl) as ->; [|done].
    destruct c as [[]|[]]; simpl in *; try done; try (by subst v'); try (by destruct Hl as [_ ->]).
    destruct (x.1 =? 0); [|by subst v']. by destruct Hl as (_ & _ & _ & ->).
  - destruct (proj1 Hsnd _ _ H) as (ms & Hms & Hal & Hk).
    destruct (snd_step i _ _ L Hal H0) as (v' & Hl & L').
    exists vio, vctl, (<[i := v']> vs). split; [done|]. split; [done|]. split; [done|]. split.
    2: { per_sender i; intros Hj; simpl; [rewrite list_lookup_insert_eq by (by eapply lookup_lt_Some); eauto|].
         rewrite list_lookup_insert_ne by done. by apply Hsnd. }
    intros j p Hp. simpl in Hp. destruct (decide (j = i)) as [->|].
    + rewrite list_lookup_insert_eq in Hp by (by eapply lookup_lt_Some). simplify_eq.
      rewrite fn_lookup_insert. exists ms. split; [done|]. by apply Hk.
    + rewrite list_lookup_insert_ne in Hp by done. rewrite fn_lookup_insert_ne by done. by apply Hsnd.
  - destruct Hctl as [(Hth & Hrd & _) Hk]. destruct (c_thread vctl) eqn:Eth; [done|].
    exists io_view0, (mkCtl (c_running vctl) (c_pipe vctl) (Some imp) (c_locked vctl)), vs.
    split; [|split; [by apply Hk|split; [by apply io_io_loop|done]]].
    destruct L. destruct (l_idle0 Eth) as (Hfd & Hsock & Hlk).
    rewrite Hsock in l_sock0, l_known0. rewrite Hlk in l_io0. unfold opened in l_open0.
    rewrite Hfd in l_open0.
    constructor; simpl; try done; [by right; left| |]; by intros imp' [= <-].
  - destruct Hctl as [([imp Hth] & Hrun & _) Hk]. rewrite Hth in Hio. destruct Hio as (Hfd & Hsock & Hlk).
    exists vio, (mkCtl (c_running vctl) (c_pipe vctl) None (c_locked vctl)), vs.
    split; [|split; [by apply Hk|done]]. by destruct L; constructor.
Qed.

Lemma reachable_inv cmds msgs σ : reachable cmds msgs σ -> Inv msgs σ.
Proof.
  intros Hr. assert (Inv msgs (pool0 cmds msgs)) as H0 by apply Inv_init.
  induction Hr as [|σ1 σ2 σ3 Hs _ IH]; [done|]. apply IH. by eapply Inv_step.
Qed.

(** ** What holds of the whole *)

(** Every descriptor handed to the kernel is open; the shutdown of [stop] is the
    one exception ([stop_shutdown_race]). *)
Definition excepted (t : Tid) (c : sys) : Prop :=
  t = Ctl /\ exists fd, c = Shutdown fd SHUT_RDWR.

Lemma ctl_descriptors c v fd :
  ctl_allowed (Sys c) v -> ~ excepted Ctl c -> fd ∈ descriptors c -> fd ∈ c_pipe v.
Proof.
  intros Hal Hex Hfd. destruct c; simpl in *; try done; try (by apply list_elem_of_singleton in Hfd as ->).
  all: try by apply not_elem_of_nil in Hfd.
  all: apply list_elem_of_singleton in Hfd as ->; try by destruct Hal.
  match goal with h : shutdown_how |- _ => destruct h; [done|] end.
  destruct Hex. by split; eauto.
Qed.

Lemma io_descriptors imp c v fd :
  io_allowed imp (Sys c) v -> fd ∈ descriptors c -> v_fd v = Some fd \/ fd = read_fd (wake imp).
Proof.
  intros Hal Hfd. destruct c; simpl in Hal, Hfd; try done;
    try (rewrite Forall_forall in Hal; by apply Hal);
    try (by apply not_elem_of_nil in Hfd).
  apply list_elem_of_singleton in Hfd as ->. left. apply Hal.
Qed.

Lemma calls_open cmds msgs σ t c fd :
  reachable cmds msgs σ -> next σ t = Some (Sys c) -> ~ excepted t c ->
  fd ∈ descriptors c -> fd ∈ w_open (p_world σ).
Proof.
  intros Hr Hn Hex Hfd. destruct (reachable_inv _ _ _ Hr) as (vio & vctl & vs & L & Hctl & Hio & Hsnd).
  rewrite (l_open _ _ _ _ _ L). destruct t as [| |i]; simpl in Hn.
  - destruct (p_io σ) as [p|], (c_thread vctl) as [imp|] eqn:Eth; try done. simpl in Hn.
    destruct (io_descriptors imp c vio fd) as [Hv| ->]; [by apply (next_allowed (io_rules imp) _ _ _ _ Hio)|done| |].
    + unfold opened. rewrite Hv. set_solver.
    + apply elem_of_union. right. apply elem_of_list_to_set. by apply (l_pipe _ _ _ _ _ L).
  - apply elem_of_union. right. apply elem_of_list_to_set.
    eapply ctl_descriptors; [|done..]. by apply (next_allowed ctl_rules _ _ _ _ Hctl).
  - destruct (p_snd σ !! i) as [p|] eqn:Ep; [|done]. destruct (proj1 Hsnd _ _ Ep) as (ms & _ & Hwp).
    pose proof (next_allowed _ _ _ _ _ Hwp Hn) as Hal.
    destruct c; try done; simpl in Hfd; [by apply not_elem_of_nil in Hfd|].
    destruct Hal as (Hl & Hk & _). apply list_elem_of_singleton in Hfd as ->.
    destruct (l_known _ _ _ _ _ L _ _ Hk) as (_ & Hs & Hne). apply (l_snd _ _ _ _ _ L) in Hl.
    destruct (l_published _ _ _ _ _ L) as [Hlk|[?|Hpub]]; [|congruence|].
    + apply (l_io _ _ _ _ _ L) in Hlk. congruence.
    + unfold opened. rewrite Hpub, Hs. set_solver.
Qed.

(** C23: under every interleaving of the I/O thread, the thread that starts and
    stops the client and any number of senders, and whatever the kernel answers:
    no thread hands a descriptor to a system call that is not open then, the
    shutdown in [stop] apart; only the holder of the send mutex sends, and only
    to the current socket; the I/O thread never does anything undefined; and
    when the client is stopped, every descriptor it opened is closed. *)
Theorem client_descriptors_safe cmds msgs σ :
  reachable cmds msgs σ ->
  (forall t c fd, next σ t = Some (Sys c) -> ~ excepted t c -> fd ∈ descriptors c ->
     fd ∈ w_open (p_world σ))
  /\ (forall t fd bytes, next σ t = Some (Sys (Send fd bytes)) ->
     w_mutex (p_world σ) = Some t /\ fd = w_sock (p_world σ))
  /\ p_io σ <> Some Undefined
  /\ (forall imp, p_ctl σ = Ret imp -> w_running (p_world σ) = false -> w_open (p_world σ) = ∅).
Proof.
  intros Hr. split; [intros t c fd; by apply (calls_open cmds msgs)|].
  destruct (reachable_inv _ _ _ Hr) as (vio & vctl & vs & L & Hctl & Hio & Hsnd).
  split; [|split].
  - intros t fd bytes Hn. destruct t as [| |i]; simpl in Hn.
    + destruct (p_io σ) as [p|], (c_thread vctl) as [imp|]; try done.
      by apply (next_allowed (io_rules imp) _ _ _ _ Hio) in Hn.
    + by apply (next_allowed ctl_rules _ _ _ _ Hctl) in Hn.
    + destruct (p_snd σ !! i) as [p|] eqn:Ep; [|done]. destruct (proj1 Hsnd _ _ Ep) as (ms & _ & Hwp).
      destruct (next_allowed _ _ _ _ _ Hwp Hn) as (Hl & Hk & _).
      split; [by apply (l_snd _ _ _ _ _ L)|].
      rewrite (l_sock _ _ _ _ _ L). by destruct (l_known _ _ _ _ _ L _ _ Hk) as (_ & -> & _).
  - intros E. rewrite E in Hio. destruct (c_thread vctl); destruct Hio.
  - intros imp E Hrun. rewrite E in Hctl. rewrite (l_running _ _ _ _ _ L) in Hrun.
    unfold wp, settled in Hctl. rewrite Hrun in Hctl. subst vctl.
    destruct (l_idle _ _ _ _ _ L) as (Hfd & _ & _); [done|].
    rewrite (l_open _ _ _ _ _ L). unfold opened. by rewrite Hfd.
Qed.

(** C24: in every reachable state the callbacks of the current session follow the
    protocol [Connecting], then [Failed] or [Reconnecting] or [Connected], then
    any data, then [Disconnected] and [on_peer_disconnected], then [Reconnecting]
    and again [Connecting]; [Connected] and data are reported while [sock] is an
    open socket, [Disconnected] when there is none any more. *)
Theorem client_callback_protocol cmds msgs σ :
  reachable cmds msgs σ -> complete (w_session (p_world σ)) = true ->
  is_Some (protocol (w_log (p_world σ)))
  /\ forall m, next σ Io = Some (Mem m) ->
     match m with
     | OnStateChanged _ Connected | OnDataReceived _ _ => w_sock (p_world σ) ∈ w_open (p_world σ)
     | OnStateChanged _ Disconnected => w_sock (p_world σ) = invalid_socket
     | _ => True
     end.
Proof.
  intros Hr Hc. destruct (reachable_inv _ _ _ Hr) as (vio & vctl & vs & L & Hctl & Hio & Hsnd).
  split; [by rewrite (l_phase _ _ _ _ _ L)|]. intros m Hn. simpl in Hn.
  destruct (p_io σ) as [p|], (c_thread vctl) as [imp|]; try done.
  pose proof (next_allowed (io_rules imp) _ _ _ _ Hio Hn) as Hal.
  rewrite (l_sock _ _ _ _ _ L), (l_open _ _ _ _ _ L).
  destruct m as [| | | | | | | | | | |p' []|]; try done; destruct Hal as (_ & Hrep & _); simpl in Hrep.
  - apply Hrep.
  - unfold opened. rewrite Hrep. set_solver.
  - unfold opened. rewrite Hrep. set_solver.
Qed.

(** C25: the bytes the kernel accepted are prefixes of messages one after the
    other, each on one socket - messages never mix and never continue on the
    socket of a later connection - and a message whose [send] reported success
    is there in one piece. *)
Theorem client_sends_whole_messages cmds msgs σ :
  reachable cmds msgs σ ->
  segmented (concat msgs) (w_wire (p_world σ))
  /\ forall i rs ms, p_snd σ !! i = Some (Ret rs) -> msgs !! i = Some ms ->
     Forall2 (fun m r => r = Ok tt -> delivered m (w_wire (p_world σ))) ms rs.
Proof.
  intros Hr. destruct (reachable_inv _ _ _ Hr) as (vio & vctl & vs & L & Hctl & Hio & Hsnd).
  split; [apply L|]. intros i rs ms Hi Hms. destruct (proj1 Hsnd _ _ Hi) as (ms' & Hms' & _ & Hd).
  simplify_eq. eapply Forall2_impl; [exact Hd|]. intros m r Hm Hr'.
  eapply delivered_prefix; [by apply Hm|]. apply L.
Qed.
End pool.

(** ** A concrete client

    The default policy, one session, one sender with one message. *)

Definition no_error : Z -> string := fun _ => "".
Definition sample_config : TcpClientConfig := mkTcpClientConfig "localhost" 5000 default_policy 64 10000.
Definition all_set : TransportCallbacks := mkCallbacks true true true true.
Definition sample_pool : Pool := pool0 no_error 5 [Start all_set; Stop] [[[1; 2; 3]]].

(** The default delays: one second, doubled after every failure, at most thirty
    seconds. *)
Lemma default_backoff k :
  delay_after default_policy k = Some (Z.min (1000 * 2 ^ Z.of_nat k) 30000).
Proof.
  destruct (decide (k < 5)%nat) as [|Hk].
  { do 5 (destruct k as [|k]; [vm_compute; reflexivity|]). lia. }
  replace k with (5 + (k - 5))%nat by lia. generalize (k - 5)%nat. clear. intros k.
  rewrite Z.min_r.
  2: { rewrite Nat2Z.inj_add, Z.pow_add_r by lia. pose proof (pow2_pos (Z.of_nat k)).
       change (2 ^ Z.of_nat 5) with 32. lia. }
  induction k as [|k IH]; [vm_compute; reflexivity|].
  replace (5 + S k)%nat with (S (5 + k)) by lia. unfold delay_after in *. simpl Nat.iter.
  simpl in IH. rewrite IH. vm_compute. reflexivity.
Qed.

Lemma sample_delays : delays_defined (reconnect sample_config).
Proof. intros k. rewrite default_backoff. by eexists. Qed.

Definition after (ts : list Tid) : Pool :=
  default sample_pool (moves no_error sample_config 5 ts sample_pool).

Lemma after_reachable ts :
  match moves no_error sample_config 5 ts sample_pool with Some _ => true | None => false end = true ->
  reachable no_error sample_config 5 [Start all_set; Stop] [[[1; 2; 3]]] (after ts).
Proof.
  unfold after. destruct (moves _ _ _ ts _) as [σ|] eqn:E; [|done]. intros _.
  by apply (moves_steps _ _ _ ts).
Qed.

(** Started, connected, one message sent. *)
Definition connected : list Tid := replicate 8 Ctl ++ replicate 14 Io.
Definition sent : list Tid := connected ++ replicate 5 (Snd 0).
(** Stopped again, the I/O thread joined. *)
Definition stopped : list Tid := sent ++ replicate 4 Ctl ++ replicate 12 Io ++ replicate 6 Ctl.

Lemma client_descriptors_safe_witness :
  next (after sent) Io = Some (Mem LoadRunning)
  /\ w_open (p_world (after stopped)) = ∅.
Proof.
  split; [vm_compute; reflexivity|].
  apply (client_descriptors_safe no_error sample_config 5 sample_delays [Start all_set; Stop] [[[1; 2; 3]]]
    (after stopped) (after_reachable stopped eq_refl)) with (imp := mkImpl all_set 1 wake_pipe0 false).
  - vm_compute. reflexivity.
  - vm_compute. reflexivity.
Defined.

Lemma client_callback_protocol_witness :
  w_log (p_world (after stopped))
    = [OnStateChanged 1 Connecting; OnStateChanged 1 Connected; OnStateChanged 1 Disconnected;
       OnPeerDisconnected 1]
  /\ is_Some (protocol (w_log (p_world (after stopped)))).
Proof.
  split; [vm_compute; reflexivity|].
  apply (client_callback_protocol no_error sample_config 5 sample_delays [Start all_set; Stop] [[[1; 2; 3]]]
    (after stopped) (after_reachable stopped eq_refl)).
  vm_compute. reflexivity.
Defined.

Lemma client_sends_whole_messages_witness :
  p_snd (after sent) = [Ret [Ok tt]] /\ delivered [1; 2; 3] (w_wire (p_world (after sent))).
Proof.
  split; [vm_compute; reflexivity|].
  destruct (client_sends_whole_messages no_error sample_config 5 sample_delays [Start all_set; Stop] [[[1; 2; 3]]]
    (after sent) (after_reachable sent eq_refl)) as [_ Hsent].
  specialize (Hsent 0%nat [Ok tt] [[1; 2; 3]] eq_refl eq_refl).
  inversion Hsent. auto.
Defined.

(** [stop] loads [sock] and shuts it down without the send mutex: the I/O thread
    can close the socket in between, and the number may belong to another
    connection by then. *)
Example stop_shutdown_race :
  exists σ fd, reachable no_error sample_config 5 [Start all_set; Stop] [[[1; 2; 3]]] σ
  /\ next σ Ctl = Some (Sys (Shutdown fd SHUT_RDWR)) /\ fd ∉ w_open (p_world σ).
Proof.
  exists (after (connected ++ replicate 2 Ctl ++ replicate 7 Io)), 7.
  split; [by apply after_reachable|]. split; [vm_compute; reflexivity|].
  apply (bool_decide_unpack _). vm_compute. reflexivity.
Qed.
