(* ===== verification/TcpClientTermination.v ===== *)
(** * TCP client: termination

    Once [running] is false and the wake pipe is empty, the I/O thread returns; a
    send returns once signals stop interrupting it.  These runs are those of
    [SysCalls.run] against a fixed but arbitrary sequence of answers, one to every
    call.  For calls that wait for another thread: in the interleavings of
    [TcpClientSpec] who holds the mutex goes on, and there is no deadlock. *)

From stdpp Require Import base numbers list strings pretty.
From Stdlib Require Import ZArith Lia.
From S2P Require Import Prelude CoreError Handler Transceiver SysCalls SocketOps TcpClient TcpClientThreads TcpClientSpec.

Open Scope Z_scope.

Section termination.
Variable strerror : Z -> string.
Variable config : TcpClientConfig.
Variable fuel : nat.
Variable env : Env access.
Variable T : nat.

(** From tick [T] on, [running] is false and the wake pipe is empty. *)
Definition shut_down : Prop := forall t, (T <= t)%nat ->
  env t (Mem LoadRunning) = false /\ forall fd n, env t (Sys (Read fd n)) <= 0.

(** From tick [T] on, no call is interrupted by a signal. *)
Definition uninterrupted : Prop := forall t, (T <= t)%nat -> env t (Sys Errno) <> EINTR.

Abbreviation from := (returns_from env).

Lemma from_load_running t : from t load_running.
Proof. exact (returns_mem env t LoadRunning). Qed.

Lemma from_load_sock t : from t load_sock.
Proof. exact (returns_mem env t LoadSock). Qed.

Lemma from_last_error t : from t get_last_error.
Proof. exact (returns_sys env t Errno). Qed.

Hint Resolve from_load_running from_load_sock from_last_error : threads.

Section io.
Hypothesis quiet : shut_down.
Hypothesis enough : (T < fuel)%nat.
Variable imp : Impl.

Lemma from_running t {A} (f : bool -> prog access A) :
  from (S t) (f false) -> ((t < T)%nat -> from (S t) (f true)) -> from t (load_running ≫= f).
Proof.
  intros Hf Ht. apply (returns_answer env t (Mem LoadRunning)).
  destruct (env t (Mem LoadRunning)) eqn:E; [|done]. apply Ht.
  destruct (decide (T <= t)%nat) as [Hle|]; [|lia]. destruct (quiet t Hle). congruence.
Qed.

(** Rounds enough for a loop that starts at tick [t] and reads [running] in
    each of them. *)
Definition rounds (n t : nat) : Prop := (0 < n /\ T < t + n)%nat.

Lemma rounds_next n t t' : rounds (S n) t -> (t < T)%nat -> (t < t')%nat -> rounds n t'.
Proof. unfold rounds. lia. Qed.

Lemma rounds_fuel t : rounds fuel t.
Proof. unfold rounds. lia. Qed.

Lemma from_drain_loop n fd t : rounds n t -> from t (drain_loop n fd).
Proof.
  revert t. induction n as [|n IH]; intros t Ht; [unfold rounds in Ht; lia|]. cbn [drain_loop].
  apply (returns_answer env t (Sys (Read fd 64))). destruct_if; [|apply returns_ret].
  bool_to_prop. destruct (decide (T <= t)%nat) as [Hle|].
  - destruct (quiet t Hle) as [_ Hr]. specialize (Hr fd 64). simpl in *. lia.
  - apply IH. eapply rounds_next; [done|lia..].
Qed.

Lemma from_drain t : from t (drain_wake_pipe fuel (wake imp)).
Proof.
  unfold drain_wake_pipe. destruct_if; [apply from_drain_loop, rounds_fuel|apply returns_ret].
Qed.

Lemma from_wait ps ms t : from t (wait ps ms).
Proof. apply returns_bind; [auto with threads|]. intros []. intros. apply returns_ret. Qed.

Lemma from_check_wake ps t :
  from t (if is_readable ps (read_fd (wake imp)) then
            drain_wake_pipe fuel (wake imp);; running ← load_running; Ret (negb running)
          else Ret false).
Proof.
  destruct_if; [|apply returns_ret]. apply returns_bind; [apply from_drain|]. intros _ t' _.
  apply returns_bind; [auto with threads|]. intros. apply returns_ret.
Qed.

Lemma from_errno_failure {A} c what t : from t (errno_failure (A := A) strerror c what).
Proof. apply returns_bind; [auto with threads|]. intros. apply returns_ret. Qed.

Lemma from_close_socket s t : from t (close_socket s).
Proof. unfold close_socket. destruct_if; auto with threads. Qed.

Hint Resolve from_drain from_wait from_check_wake
  from_errno_failure from_close_socket rounds_fuel : threads.

(** Goes through a program without loops of its own; the ticks passed are
    kept. *)
Ltac goes :=
  repeat first
    [ solve [eauto with threads lia]
    | apply from_running; [|intros ?]; cbn [negb]
    | apply returns_bind; [|intros]
    | match goal with
      | |- context [if ?b then _ else _] => destruct b
      | |- context [match ?x with _ => _ end] => destruct x
      end ].

Lemma from_connect_wait n s deadline t :
  rounds n t -> from t (connect_wait strerror config fuel imp n s deadline).
Proof.
  revert t. induction n as [|n IH]; intros t Ht; [unfold rounds in Ht; lia|]. cbn [connect_wait].
  assert (Hgo : (t < T)%nat -> forall t', (t < t')%nat -> from t' (connect_wait strerror config fuel imp n s deadline)).
  { intros HT t' ?. by eapply IH, rounds_next. }
  unfold connect_failed. goes.
Qed.

Lemma from_publish s t : from t (publish strerror s).
Proof. unfold publish, set_tcp_nodelay. goes. Qed.

Lemma from_create_tcp_socket t : from t (create_tcp_socket strerror).
Proof. unfold create_tcp_socket. goes. Qed.

Lemma from_set_nonblocking s t : from t (set_nonblocking strerror s).
Proof. unfold set_nonblocking. goes. Qed.

Hint Resolve from_publish from_create_tcp_socket from_set_nonblocking from_connect_wait : threads.

Lemma from_try_connect t : from t (try_connect strerror config fuel imp).
Proof. unfold try_connect, connect_failed. goes. Qed.

Lemma from_notify peer st t : from t (notify imp peer st).
Proof. unfold notify. goes. Qed.

Hint Resolve from_try_connect from_notify : threads.

Lemma from_recv_rounds n peer buf t : rounds n t -> from t (recv_rounds fuel imp n peer buf).
Proof.
  revert t buf. induction n as [|n IH]; intros t buf Ht; [unfold rounds in Ht; lia|]. cbn [recv_rounds].
  assert (Hgo : (t < T)%nat -> forall t' buf, (t < t')%nat -> from t' (recv_rounds fuel imp n peer buf)).
  { intros HT t' buf' ?. by eapply IH, rounds_next. }
  goes.
Qed.

Lemma from_handle_disconnect peer t : from t (handle_disconnect imp peer).
Proof. unfold handle_disconnect. goes. Qed.

Lemma from_backoff_wait n deadline t : rounds n t -> from t (backoff_wait fuel imp n deadline).
Proof.
  revert t. induction n as [|n IH]; intros t Ht; [unfold rounds in Ht; lia|]. cbn [backoff_wait].
  assert (Hgo : (t < T)%nat -> forall t', (t < t')%nat -> from t' (backoff_wait fuel imp n deadline)).
  { intros HT t' ?. by eapply IH, rounds_next. }
  goes.
Qed.

Hint Resolve from_recv_rounds from_handle_disconnect from_backoff_wait : threads.

Lemma from_io_rounds n peer k delay attempts t :
  delays_defined (reconnect config) -> delay_after (reconnect config) k = Some delay ->
  rounds n t -> from t (io_rounds strerror config fuel imp n peer delay attempts).
Proof.
  intros Hdef. revert k delay attempts t.
  induction n as [|n IH]; intros k delay attempts t Hk Ht; [unfold rounds in Ht; lia|].
  assert (Hgo : (t < T)%nat -> forall k' delay' attempts' t',
    delay_after (reconnect config) k' = Some delay' -> (t < t')%nat ->
    from t' (io_rounds strerror config fuel imp n peer delay' attempts')).
  { intros HT k' delay' attempts' t' ??. by eapply IH, rounds_next. }
  assert (H0 : delay_after (reconnect config) 0 = Some (initial_delay (reconnect config))) by done.
  destruct (Hdef (S k)) as [d Hd].
  assert (Hnext : next_delay (reconnect config) delay = Some d).
  { unfold delay_after in Hd, Hk. simpl in Hd. by rewrite Hk in Hd. }
  cbn [io_rounds]. unfold recv_loop. rewrite Hnext. goes.
Qed.
End io.

(** ** Senders *)

Lemma from_send_chunk n bytes t :
  uninterrupted -> (0 < n /\ T < t + n)%nat -> from t (send_chunk n bytes).
Proof.
  intros Hu. revert t. induction n as [|n IH]; intros t Hn; [lia|]. cbn [send_chunk].
  apply returns_bind; [auto with threads|]. intros s t1 ?.
  apply returns_bind; [auto with threads|]. intros sent t2 ?.
  destruct_if; [|auto with threads].
  apply (returns_answer env t2 (Sys Errno)). destruct_if; [|auto with threads]. bool_to_prop.
  apply IH. destruct (decide (T <= t2)%nat) as [Hle|]; [by destruct (Hu _ Hle)|lia].
Qed.

Lemma from_send_rounds n bytes t :
  uninterrupted -> (T < fuel)%nat -> (length bytes <= n)%nat ->
  from t (send_rounds strerror fuel n bytes).
Proof.
  intros Hu Hf. revert bytes t. induction n as [|n IH]; intros bytes t Hn; cbn [send_rounds];
    (destruct (decide (bytes = [])) as [->|Hne]; [auto with threads|]).
  { by destruct bytes; [|simpl in Hn; lia]. }
  apply returns_bind; [apply from_send_chunk; [done|lia]|]. intros x t' _.
  destruct_if; [apply returns_bind; auto with threads|]. apply IH. bool_to_prop.
  rewrite length_drop. lia.
Qed.
Lemma io_loop_returns : (T < fuel)%nat -> shut_down -> delays_defined (reconnect config) ->
  forall imp t, from t (io_loop strerror config fuel imp).
Proof.
  intros Hf Hq Hdef imp t. unfold io_loop. apply returns_bind; [destruct_if; auto with threads|].
  intros peer t' _. apply returns_bind; [|auto with threads].
  apply (from_io_rounds Hq Hf imp _ _ 0); [done|done|]. by apply rounds_fuel.
Qed.

Lemma send_returns : (T < fuel)%nat -> uninterrupted -> forall data t, from t (send strerror fuel data).
Proof.
  intros Hf Hu data t. unfold send. apply returns_bind; [auto with threads|]. intros _ t1 _.
  apply returns_bind; [auto with threads|]. intros s t2 _.
  apply returns_bind; [destruct_if; [auto with threads|by apply from_send_rounds]|].
  intros r t3 _. apply returns_bind; auto with threads.
Qed.
End termination.

(** ** Who holds the mutex goes on *)

(** The calls that wait for another thread. *)
Definition waits (c : call access) : bool := match c with Mem (LockSend | Spawn _ | Join) => true | _ => false end.

Lemma answered t c w : waits c = false -> exists x w', exec t c w x w'.
Proof.
  intros Hc. destruct (kernel t c w) as [[x w']|] eqn:E; [exists x, w'; by apply kernel_exec|].
  destruct c as [[]|[]]; cbn in E; try done; by repeat case_decide || case_match.
Qed.

Section progress.
Variable strerror : Z -> string.
Variable config : TcpClientConfig.
Variable fuel : nat.

Abbreviation reach := (reachable strerror config fuel).
Abbreviation steps := (step strerror config fuel).

Lemma client_errno_fuelled {A} c what : fuelled (errno_failure strerror c what : io (Result A)).
Proof. unfold errno_failure. fuelled. Qed.

(** Starting and stopping have no loop. *)
Lemma client_control_fuelled cmds imp : fuelled (control strerror cmds imp).
Proof.
  revert imp. induction cmds as [|[cb|] cmds IH]; intros imp; cbn [control]; [done|apply fuelled_bind..].
  - unfold start, create_wake_pipe, set_end_nonblocking, close_socket, init_networking, cleanup_networking. fuelled; apply client_errno_fuelled.
  - intros [r imp']. apply IH.
  - unfold stop, signal_wake_pipe, close_wake_pipe, close_socket, cleanup_networking. fuelled.
  - apply IH.
Qed.

Lemma client_control_goes_on cmds msgs σ : reach cmds msgs σ -> fuelled (p_ctl σ).
Proof.
  intros Hr. assert (fuelled (p_ctl (pool0 strerror fuel cmds msgs))) as H0 by apply client_control_fuelled.
  unfold reachable in Hr. induction Hr as [|σ1 σ2 σ3 Hs _ IH]; [done|]. apply IH. by destruct Hs; cbn in *.
Qed.

(** No loop of the I/O thread or of a sender was cut short. *)
Definition whole (σ : Pool) : Prop := p_io σ <> Some OutOfFuel /\ OutOfFuel ∉ p_snd σ.

Definition is_cut {A} (p : prog access A) : bool := match p with OutOfFuel => true | _ => false end.

Lemma whole_by_check σ : match p_io σ with Some p => is_cut p | None => false end || existsb is_cut (p_snd σ) = false -> whole σ.
Proof.
  intros [H1 H2]%orb_false_iff. split; [intros E; by rewrite E in H1|]. intros Hin%list_elem_of_In.
  assert (existsb is_cut (p_snd σ) = true) as Hc; [|congruence]. apply existsb_exists. by exists OutOfFuel.
Qed.

Lemma client_step_answered σ t c : next σ t = Some c -> (exists x w', exec t c (p_world σ) x w') -> exists σ', steps σ σ'.
Proof.
  intros Hn (x & w' & Hx). destruct σ as [w io ctl snd], t as [| |i]; cbn in *.
  - destruct io as [[|c' k| |]|]; simplify_eq/=. eexists. by apply (step_io _ _ _ _ _ _ x).
  - destruct ctl as [|c' k| |]; simplify_eq/=. eexists. by apply (step_ctl _ _ _ _ _ _ _ x).
  - destruct (snd !! i) as [[|c' k| |]|] eqn:Ei; simplify_eq/=. eexists. by eapply step_snd.
Qed.

Section inv.
Variable msgs : list (list (list Z)).
Variable σ : Pool.
Variable vio : IoView.
Variable vctl : CtlView.
Variable vs : nat -> SendView.
Hypothesis L : links (concat msgs) (p_world σ) vio vctl vs.
Hypothesis Hctl : wp ctl_rules (p_ctl σ) settled vctl.
Hypothesis Hio : io_inv (p_io σ) (c_thread vctl) vio.
Hypothesis Hsnd : snd_inv msgs (p_snd σ) vs.
Hypothesis ctl_fuelled : fuelled (p_ctl σ).
Hypothesis Hwhole : whole σ.

Lemma client_io_next imp : c_thread vctl = Some imp ->
  (exists p, p_io σ = Some (Ret p) /\ v_locked vio = false) \/ exists c, next σ Io = Some c /\ io_allowed imp c vio.
Proof.
  intros Eth. unfold io_inv in Hio. rewrite Eth in Hio. cbn [next]. destruct Hwhole as [Hw _]. destruct (p_io σ) as [p|]; [|done].
  destruct p as [p|c k| |]; try done.
  - left. exists p. split; [done|apply Hio].
  - right. exists c. split; [done|apply Hio].
Qed.

Lemma mutex_holder_goes_on t : w_mutex (p_world σ) = Some t -> exists c, next σ t = Some c /\ waits c = false.
Proof.
  intros Ht. destruct t as [| |i].
  - apply (l_io _ _ _ _ _ L) in Ht. assert (c_thread vctl = None \/ exists imp, c_thread vctl = Some imp) as [Eth|[imp Eth]]
      by (destruct (c_thread vctl); eauto).
    + destruct (l_idle _ _ _ _ _ L Eth) as (_ & _ & Hl). congruence.
    + destruct (client_io_next imp Eth) as [(p & _ & Hl)|(c & Hn & Hal)]; [congruence|]. exists c. split; [done|].
      destruct c as [[]|[]]; cbn in Hal |- *; try done; congruence.
  - apply (l_ctl _ _ _ _ _ L) in Ht. cbn [next]. pose proof Hctl as Hc. pose proof ctl_fuelled as Hf. destruct (p_ctl σ) as [imp|c k| |]; try done.
    + unfold wp, settled in Hc. destruct (c_running vctl); [destruct Hc as [Hc _]|]; by rewrite Hc in Ht.
    + exists c. split; [done|]. destruct Hc as [Hal _]. cbn in Hal. destruct c as [[]|[]]; cbn in Hal |- *; try done; destruct_and? Hal; congruence.
  - apply (l_snd _ _ _ _ _ L) in Ht. destruct (proj2 Hsnd i Ht) as [p Hp]. destruct (proj1 Hsnd i p Hp) as (ms & _ & Hwp).
    cbn [next]. rewrite Hp. cbn. destruct Hwhole as [_ Hw]. destruct p as [rs|c k| |]; try done.
    + destruct Hwp as [Hl _]. congruence.
    + exists c. split; [done|]. destruct Hwp as [Hal _]. cbn in Hal. destruct c as [[]|[]]; cbn in Hal |- *; try done; congruence.
    + destruct Hw. by eapply list_elem_of_lookup_2.
Qed.

Lemma client_goes_on t0 c0 : next σ t0 = Some c0 -> exists σ', steps σ σ'.
Proof.
  intros Hn0. assert (forall t c, next σ t = Some c -> waits c = false -> exists σ', steps σ σ') as Hgo.
  { intros t c Hn Hc. eapply client_step_answered; [done|by apply answered]. }
  destruct (w_mutex (p_world σ)) as [t|] eqn:Em.
  { destruct (mutex_holder_goes_on t Em) as (c & Hn & Hc). by eapply Hgo. }
  assert (forall t c, next σ t = Some c -> (forall imp, c <> Mem (Spawn imp)) -> c <> Mem Join -> exists σ', steps σ σ') as Hmost.
  { intros t c Hn H1 H2. destruct (waits c) eqn:Eb; [|by eapply Hgo]. destruct c as [|[]]; try done; [|by destruct (H1 imp)].
    eapply client_step_answered; [done|]. by exists tt, (set_mutex (Some t) (p_world σ)). }
  assert (forall c, next σ Io = Some c -> exists σ', steps σ σ') as Hiogo.
  { intros c Hn. unfold io_inv in Hio. cbn in Hn. destruct (p_io σ) as [p|] eqn:Eio; [|done]. destruct (c_thread vctl) as [imp|]; [|done].
    pose proof (next_allowed (io_rules imp) _ _ _ _ Hio Hn) as Hal.
    apply (Hmost Io c); [cbn; by rewrite Eio|intros imp' ->; done|by intros ->]. }
  destruct t0 as [| |i]; [by eapply Hiogo| |].
  - pose proof (next_allowed ctl_rules _ _ _ _ Hctl Hn0) as Hal.
    destruct c0 as [c|m]; [by eapply Hmost|]. destruct m; try (by eapply Hmost).
    + destruct Hal as [Hth _]. unfold io_inv in Hio. rewrite Hth in Hio. clear - Hio Hn0. destruct σ as [w io ctl snd]. cbn in *.
      destruct io; [done|]. destruct ctl as [|c k| |]; simplify_eq/=. eexists. apply step_spawn.
    + destruct Hal as ([imp Hth] & _). destruct (client_io_next imp Hth) as [(p & Hp & _)|(c & Hn & _)]; [|by eapply Hiogo].
      clear - Hp Hn0. destruct σ as [w io ctl snd]. cbn in Hn0, Hp. subst io. destruct ctl as [|c k| |]; simplify_eq/=. eexists. apply step_join.
  - cbn in Hn0. destruct (p_snd σ !! i) as [p|] eqn:Ei; [|done]. destruct (proj1 Hsnd _ _ Ei) as (ms & _ & Hwp).
    pose proof (next_allowed (send_rules _) _ _ _ _ Hwp Hn0) as Hal.
    apply (Hmost (Snd i) c0); [cbn; by rewrite Ei|intros imp ->; done|by intros ->].
Qed.
End inv.
End progress.

(** C26: The threads of a client end and do not hold each other up, for reconnect
    delays that are defined.  First, alone and with an answer to every call it makes,
    locks included: once [running] is false and the wake pipe is empty the I/O
    thread returns, whatever the answers, and a
    [send] returns once signals stop interrupting it; the fuel needed is one round
    per tick before that.  Second, all together: in every reachable state in which no
    loop was cut short the thread that holds [send_mutex] has a call to make that does not wait for another thread,
    so who waits for the mutex waits for the kernel's answers to its holder and for
    nothing else; and as long as some thread has a call to make, some thread can make
    its call, the join in [stop] included: there is no deadlock.  Whether a blocked
    [::send] comes back is up to the kernel. *)
Theorem client_threads_return (strerror : Z -> string) (config : TcpClientConfig) (fuel : nat) :
  delays_defined (reconnect config) ->
  (forall (env : Env access) (T : nat), (T < fuel)%nat ->
     (shut_down env T -> forall imp t, returns_from env t (io_loop strerror config fuel imp))
     /\ (uninterrupted env T -> forall data t, returns_from env t (send strerror fuel data)))
  /\ forall cmds msgs σ, reachable strerror config fuel cmds msgs σ -> whole σ ->
       (forall t, w_mutex (p_world σ) = Some t -> exists c, next σ t = Some c /\ waits c = false)
       /\ forall t c, next σ t = Some c -> exists σ', step strerror config fuel σ σ'.
Proof.
  intros Hdef. split.
  - intros env T Hf. split; [intros Hq; by apply io_loop_returns with T|intros Hu; by apply send_returns with T].
  - intros cmds msgs σ Hr Hw. pose proof (client_control_goes_on _ _ _ _ _ _ Hr) as Hc.
    destruct (reachable_inv _ _ _ Hdef _ _ _ Hr) as (vio & vctl & vs & L & Hctl & Hio & Hsnd).
    split; [intros t; by eapply mutex_holder_goes_on|intros t c; by eapply client_goes_on].
Qed.

(** ** Examples *)

(** A server that accepts every connection and closes it at once; [running] is
    cleared at tick [stop_at]. *)
Definition closing_server (stop_at : nat) : Env access := fun t c =>
  match c return ans c with
  | Sys Socket => 7
  | Sys (Fcntl_getfl _ | Fcntl_setfl _ _ | Setsockopt_nodelay _ | Setsockopt_reuse _ | Connect _ _
        | Bind _ _ _ | Listen _ | Errno | Now | Send _ _ | Read _ _ | Write _ _ | Socket_udp | Setsockopt _ _ | Sendto _ _ _) => 0
  | Sys (Recvfrom _ _) => (-1, ([], (0, 0)))
  | Sys (Accept _) => (-1, (EmptyString, 0))
  | Sys (Getsockname _) => (-1, 0)
  | Sys (Getsockopt_error _) => None
  | Sys (Getaddrinfo _ _) => (0, Some 1)
  | Sys (Freeaddrinfo _ | Shutdown _ _ | Close _) => tt
  | Sys (Poll _ _) => (1, fun i => match i with O => POLLIN | S _ => 0 end)
  | Sys (Recv _ _) => (0, [])
  | Sys Pipe2 => (0, (3, 4))
  | Mem (LoadRunning | ExchangeRunning _) => Nat.ltb t stop_at
  | Mem LoadSock => 7
  | Mem (Join | OnPeerConnected _) => 1
  | Mem (StoreRunning _ | StoreSock _ | LockSend | UnlockSend | Spawn _ | OnPeerDisconnected _
        | OnStateChanged _ _ | OnDataReceived _ _) => tt
  end.

Definition sample_impl : Impl := mkImpl all_set 0 (mkWakePipe 3 4) true.

(** Connected, with a sender that holds the mutex. *)
Definition contended : list Tid := connected ++ replicate 2 (Snd 0).

Lemma client_threads_return_witness :
  returns_from (closing_server 100) 0 (io_loop no_error sample_config 101 sample_impl)
  /\ returns_from (closing_server 100) 0 (send no_error 101 [1; 2; 3])
  /\ w_mutex (p_world (after contended)) = Some (Snd 0)
  /\ exists σ', step no_error sample_config 5 (after contended) σ'.
Proof.
  destruct (client_threads_return no_error sample_config 101 sample_delays) as [Hret _].
  destruct (Hret (closing_server 100) 100%nat) as [Hio Hsnd]; [lia|].
  destruct (client_threads_return no_error sample_config 5 sample_delays) as [_ Hall].
  destruct (Hall [Start all_set; Stop] [[[1; 2; 3]]] (after contended)) as [_ Hgo].
  { by apply after_reachable. }
  { apply whole_by_check. vm_compute. reflexivity. }
  split_and!.
  - apply Hio. intros t Ht. split; [apply Nat.ltb_ge; lia|]. intros. simpl. lia.
  - apply Hsnd. intros t _. done.
  - vm_compute. reflexivity.
  - apply (Hgo Io (Mem LoadRunning)). vm_compute. reflexivity.
Defined.

Definition is_socket (c : call access) : bool := match c with Sys Socket => true | _ => false end.
Definition is_now (c : call access) : bool := match c with Sys Now => true | _ => false end.

(** A lost connection is followed by the next attempt at once: with this server
    the client connects four times in a hundred calls and never reads the clock. *)
Example reconnect_without_delay :
  (fun r => (length (filter is_socket r.1.2), existsb is_now r.1.2))
    <$> run (closing_server 100) (io_loop no_error sample_config 101 sample_impl) 0
  = Some (4%nat, false).
Proof. vm_compute. reflexivity. Qed.
