(* ===== verification/TcpClientData.v ===== *)
(** * TCP client: received data

    Every byte [recv] delivers is handed to [on_data_received], once and in
    order, by the receive loop of the I/O thread. *)

From stdpp Require Import base numbers list strings pretty.
From Stdlib Require Import ZArith Lia.
From S2P Require Import Prelude CoreError Handler Transceiver SysCalls SocketOps TcpClient TcpClientThreads.
From S2P Require Import TcpClientSpec TcpClientTermination.

Open Scope Z_scope.

(** What POSIX promises of [recv]: a positive result is the number of bytes
    written to the buffer, and fits it. *)
Definition recv_contract (size : Z) (x : Z * list Z) : Prop :=
  0 < x.1 -> len x.2 = x.1 /\ x.1 <= size.

(** The bytes received and the bytes handed on by a sequence of calls that
    starts at tick [t]. *)
Fixpoint received (env : Env access) (t : nat) (cs : list (call access)) : list Z :=
  match cs with
  | [] => []
  | c :: cs =>
      match c return ans c -> list Z with
      | Sys (Recv _ _) => fun x => if 0 <? x.1 then x.2 else []
      | _ => fun _ => []
      end (env t c) ++ received env (S t) cs
  end.

Definition handed (cs : list (call access)) : list Z :=
  concat ((fun c => match c with Mem (OnDataReceived _ bs) => bs | _ => [] end) <$> cs).

(** The view: the bytes received and not yet handed on. *)
Definition data_rules : Rules access (list Z) := mkRules
  (fun c v => match c with
              | Sys (Recv _ _) => v = []
              | Mem (OnDataReceived _ bs) => bs = v
              | _ => True
              end)
  (fun c v => match c return ans c -> list Z -> Prop with
              | Sys (Recv _ size) => fun x v' =>
                  recv_contract size x /\ v' = if 0 <? x.1 then x.2 else []
              | Mem (OnDataReceived _ _) => fun _ v' => v' = []
              | _ => fun _ v' => v' = v
              end).

(** What the rules mean for a run. *)
Lemma data_run {A} (env : Env access) (p : prog access A) v t a cs t' :
  (forall t fd size, recv_contract size (env t (Sys (Recv fd size)))) ->
  wp data_rules p (fun _ v' => v' = []) v -> run env p t = Some (a, cs, t') ->
  v ++ received env t cs = handed cs.
Proof.
  intros Henv. revert v t cs. induction p as [b|c k IH| |]; intros v t cs Hwp Hrun; simpl in Hrun; try done.
  - simplify_eq. by rewrite Hwp.
  - destruct Hwp as [Hal Hk]. destruct (run env (k (env t c)) (S t)) as [[[b ds] t1]|] eqn:E; simplify_eq/=.
    assert (Hsame : forall v', learns data_rules c v (env t c) v' -> v' ++ received env (S t) ds = handed ds).
    { intros v' Hl. eapply IH; [|exact E]. by apply Hk. }
    unfold handed in *. rewrite fmap_cons, concat_cons.
    destruct c as [[]|[]]; simpl in *; try (by apply Hsame).
    + subst v. by rewrite <- (Hsame _ (conj (Henv t fd size) eq_refl)).
    + subst. by rewrite <- (Hsame [] eq_refl).
Qed.

Section data.
Variable fuel : nat.
Variable imp : Impl.
Variable peer : PeerId.
Hypothesis set : on_data_received (callbacks imp) = true.
Hypothesis valid : peer_valid peer = true.

Abbreviation dwp := (wp data_rules).

(** Calls that neither receive nor hand on. *)
Lemma data_sys (c : sys) (Q : sys_ans c -> list Z -> Prop) v :
  match c with Recv _ _ => False | _ => True end -> (forall x, Q x v) -> dwp (sys_call c) Q v.
Proof. intros Hc HQ. apply wp_sys; [by destruct c|]. intros x v' Hl. assert (v' = v) as -> by by destruct c. done. Qed.

Lemma data_running (Q : bool -> list Z -> Prop) v : (forall b, Q b v) -> dwp load_running Q v.
Proof. intros HQ. apply wp_mem; [done|]. by intros x v' ->. Qed.

Lemma data_load_sock (Q : Z -> list Z -> Prop) v : (forall s, Q s v) -> dwp load_sock Q v.
Proof. intros HQ. apply wp_mem; [done|]. by intros x v' ->. Qed.

Lemma data_wait ps ms (Q : Z * PollSet -> list Z -> Prop) v :
  (forall x, Q x v) -> dwp (wait ps ms) Q v.
Proof. intros HQ. apply wp_bind, data_sys; [done|]. intros [sel re]. apply HQ. Qed.

Lemma data_check_wake ps (Q : bool -> list Z -> Prop) v :
  (forall b, Q b v) ->
  dwp (if is_readable ps (read_fd (wake imp)) then
         drain_wake_pipe fuel (wake imp);; running ← load_running; Ret (negb running)
       else Ret false) Q v.
Proof.
  intros HQ. destruct_if; [|by apply HQ]. apply wp_bind.
  assert (Hend : dwp (running ← load_running; Ret (negb running)) Q v).
  { apply wp_bind, data_running. intros b. apply wp_ret, HQ. }
  unfold drain_wake_pipe. destruct_if; [|done].
  induction fuel as [|n IH]; cbn [drain_loop]; [done|].
  apply wp_bind, data_sys; [done|]. intros x. by destruct_if.
Qed.

(** [take n] of the overwritten buffer is what was received. *)
Lemma overwritten_front (bytes buf : list Z) n :
  len bytes = n -> take (Z.to_nat n) (overwrite bytes buf) = bytes.
Proof.
  intros <-. unfold len, overwrite. rewrite Nat2Z.id. apply take_app_length.
Qed.

Lemma data_recv_rounds n buf :
  dwp (recv_rounds fuel imp n peer buf) (fun _ v => v = []) [].
Proof.
  revert buf. induction n as [|n IH]; intros buf; cbn [recv_rounds]; [done|].
  apply wp_bind, data_running. intros []; cbn [negb]; [|done].
  apply wp_bind, data_load_sock. intros s. apply wp_bind, data_wait. intros [sel ps].
  destruct_if. { apply wp_bind, data_sys; [done|]. intros err. by destruct_if. }
  destruct_if; [done|]. apply wp_bind, data_load_sock. intros s1. destruct_if; [done|].
  apply wp_bind, data_check_wake. intros []; [done|].
  apply wp_bind, data_load_sock. intros s2. destruct_if; [|done].
  apply wp_bind, data_load_sock. intros s3. apply wp_bind, wp_sys; [done|].
  intros [r bytes] v [Hc ->]. cbn [fst snd]. cbn zeta.
  destruct (r <=? 0) eqn:Er; bool_to_prop.
  { rewrite (proj2 (Z.ltb_ge 0 r)) by lia. done. }
  rewrite (proj2 (Z.ltb_lt 0 r)) by lia. rewrite set, valid. cbn [andb].
  destruct Hc as [Hlen _]; [done|]. apply wp_bind, wp_mem; [by apply overwritten_front|].
  intros [] v ->. apply IH.
Qed.

(** the receive loop returns once the client is shut down, and every byte
    [recv] put in the buffer has then been handed to [on_data_received], once and
    in the order of the stream. *)
Theorem received_data_handed_on config (env : Env access) T t :
  (forall t fd size, recv_contract size (env t (Sys (Recv fd size)))) ->
  shut_down env T -> (T < fuel)%nat ->
  exists cs t', run env (recv_loop config fuel imp peer) t = Some (tt, cs, t')
  /\ handed cs = received env t cs.
Proof.
  intros Henv Hq Hf.
  destruct (from_recv_rounds fuel env T Hq Hf imp fuel peer
    (replicate (Z.to_nat (recv_buffer_size config)) 0) t) as ([] & cs & t' & E & _).
  { by apply rounds_fuel. }
  exists cs, t'. split; [done|]. symmetry.
  exact (data_run env _ [] t tt cs t' Henv (data_recv_rounds _ _) E).
Qed.
End data.

(** A peer that sends three bytes, two more, and then closes. *)
Definition talking_peer : Env access := fun t c =>
  match c return ans c with
  | Sys (Recv _ size) =>
      if (size <? 3) || Nat.ltb 15 t then (0, [])
      else if Nat.ltb t 8 then (3, [1; 2; 3]) else (2, [4; 5])
  | c => closing_server 40 t c
  end.

Lemma received_data_handed_on_witness :
  exists cs t', run talking_peer (recv_loop sample_config 41 sample_impl 1) 0 = Some (tt, cs, t')
  /\ handed cs = received talking_peer 0 cs.
Proof.
  apply (received_data_handed_on 41 sample_impl 1 eq_refl eq_refl sample_config talking_peer 40).
  - intros t fd size. unfold recv_contract. simpl.
    destruct (size <? 3) eqn:E; simpl; [lia|]. apply Z.ltb_ge in E.
    destruct (Nat.ltb 15 t); simpl; [lia|]. destruct (Nat.ltb t 8); simpl; unfold len; simpl; lia.
  - intros t Ht. split; [apply Nat.ltb_ge; lia|]. intros. simpl. lia.
  - lia.
Defined.

Example talking_peer_heard :
  (fun r => handed r.1.2) <$> run talking_peer (recv_loop sample_config 41 sample_impl 1) 0
  = Some [1; 2; 3; 4; 5].
Proof. vm_compute. reflexivity. Qed.
