(* ===== verification/TcpServer.v ===== *)
(** * TCP server transport

    Models [conduit/src/transceiver/transport/tcp_server.cpp] (the POSIX branch)
    with [tcp_server.hpp].  A [ClientInfo] is an object with an address, a socket
    that never changes and a mutex of its own; [clients] maps peers to addresses
    and is guarded by [clients_mutex].  Locks, lookups, creation and destruction
    of objects, the thread and the callbacks are the calls [srv]; [callbacks],
    [listen_sock] and [wake] pass between the controlling thread and the I/O
    thread at its creation and join.  [inet_pton] is the C library's.  Log output
    is not modelled. *)

From stdpp Require Import base numbers list strings pretty.
From Stdlib Require Import ZArith Lia.
From S2P Require Import Prelude CoreError Handler Transceiver SysCalls SocketOps.

Open Scope Z_scope.

Record TcpServerConfig := mkTcpServerConfig {
  bind_address : string;
  port : Z;
  max_clients : Z;
  recv_buffer_size : Z;
}.

Definition default_config : TcpServerConfig := mkTcpServerConfig "0.0.0.0" 0 64 65536.

Record Impl := mkImpl {
  callbacks : TransportCallbacks;
  listen_sock : Z;
  wake : WakePipe;
  joinable : bool;
}.

Definition impl0 : Impl := mkImpl (mkCallbacks false false false false) invalid_socket wake_pipe0 false.

(** ** Accesses to what threads share

    The map is keyed by the value of the peer.  [FindClient] and [ListClients] give
    addresses; [InsertClient] makes a
    [ClientInfo] for a socket, enters it under a peer and gives its address, and
    destroys the object it replaces, if any; [ClearClients] destroys all that are
    entered. *)
Inductive srv :=
  | LoadRunning | StoreRunning (b : bool) | ExchangeRunning (b : bool)
  | LockClients | UnlockClients
  | FindClient (id : Z) | ClientsSize | ListClients
  | InsertClient (id sock : Z) | EraseClient (id : Z) | ClearClients
  | ClientSock (a : Z) | LockClient (a : Z) | UnlockClient (a : Z) | FreeClient (a : Z)
  | Spawn (imp : Impl) | Join
  | OnPeerConnected (remote_endpoint : string)
  | OnPeerDisconnected (p : PeerId)
  | OnStateChanged (p : PeerId) (st : ConnectionState)
  | OnDataReceived (p : PeerId) (bytes : list Z).

Global Instance srv_shared : Shared srv := fun m =>
  match m with
  | LoadRunning | ExchangeRunning _ => bool
  | FindClient _ => option Z
  | ListClients => list (Z * Z)
  | ClientsSize | ClientSock _ | InsertClient _ _ => Z
  | OnPeerConnected _ => PeerId
  | _ => unit
  end.

Abbreviation io := (prog srv) (only parsing).

Section server.
Variable strerror : Z -> string.
Variable inet_pton : string -> option Z.
Variable config : TcpServerConfig.
Variable fuel : nat.

Definition load_running : io bool := mem LoadRunning.

(** ** The I/O thread *)

Section thread.
Variable imp : Impl.

Definition notify (p : PeerId) (st : ConnectionState) : io unit :=
  if on_state_changed (callbacks imp) then mem (OnStateChanged p st) else Ret tt.

Definition tell_disconnected (p : PeerId) : io unit :=
  notify p Disconnected;;
  if on_peer_disconnected (callbacks imp) then mem (OnPeerDisconnected p) else Ret tt.

(** The object is destroyed when the function returns. *)
Definition remove_client (peer : PeerId) : io unit :=
  mem LockClients;;
  it ← mem (FindClient peer);
  match it with
  | None => mem UnlockClients
  | Some a =>
      mem (EraseClient peer);;
      mem (LockClient a);;
      sock ← mem (ClientSock a);
      sys_call (Shutdown sock SHUT_WR);;
      close_socket sock;;
      mem (UnlockClient a);;
      mem UnlockClients;;
      (if negb (sock =? invalid_socket) then tell_disconnected peer else Ret tt);;
      mem (FreeClient a)
  end.

(** The buffer is used again for the next client. *)
Definition handle_client_data (peer : PeerId) (client_sock : Z) (buf : list Z) : io (list Z) :=
  '(r, bytes) ← sys_call (Recv client_sock (len buf));
  let buf := overwrite bytes buf in
  (if r <=? 0 then remove_client peer
   else if on_data_received (callbacks imp)
        then mem (OnDataReceived peer (take (Z.to_nat r) buf)) else Ret tt);;
  Ret buf.

(** The connection is entered under the peer the transceiver gives it. *)
Definition admit_client (client_sock : Z) (endpoint : string) : io unit :=
  peer_id ← (if on_peer_connected (callbacks imp) then mem (OnPeerConnected endpoint) else Ret 0);
  if negb (peer_valid peer_id) then close_socket client_sock else
  mem LockClients;;
  mem (InsertClient peer_id client_sock);;
  mem UnlockClients.

Definition handle_accept : io unit :=
  '(client_sock, addr) ← sys_call (Accept (listen_sock imp));
  if client_sock <? 0 then Ret tt else
  nodelay ← set_tcp_nodelay strerror client_sock;
  match nodelay with
  | Fail _ => close_socket client_sock
  | Ok _ =>
      mem LockClients;;
      n ← mem ClientsSize;
      if max_clients config <=? n then close_socket client_sock;; mem UnlockClients else
      mem UnlockClients;;
      admit_client client_sock (addr.1 +:+ ":" +:+ pretty addr.2)
  end.

(** The snapshot of the clients and the poll set, under the mutex. *)
Fixpoint snapshot (entries : list (Z * Z)) (ps : PollSet) : io (list (Z * Z) * PollSet) :=
  match entries with
  | [] => Ret ([], ps)
  | (id, a) :: entries =>
      sock ← mem (ClientSock a);
      '(rest, ps) ← snapshot entries (add_read sock ps);
      Ret ((id, sock) :: rest, ps)
  end.

Fixpoint check_clients (clients : list (Z * Z)) (ps : PollSet) (buf : list Z) : io (list Z) :=
  match clients with
  | [] => Ret buf
  | (peer, sock) :: clients =>
      buf ← (if is_readable ps sock || has_error ps sock
             then handle_client_data peer sock buf else Ret buf);
      check_clients clients ps buf
  end.

Fixpoint io_rounds (n : nat) (buf : list Z) : io unit :=
  match n with
  | O => OutOfFuel
  | S n =>
      running ← load_running;
      if negb running then Ret tt else
      mem LockClients;;
      entries ← mem ListClients;
      '(clients, ps) ← snapshot entries (add_read (read_fd (wake imp)) (add_read (listen_sock imp) []));
      mem UnlockClients;;
      '(sel, ps) ← wait ps 100;
      if sel <? 0 then
        err ← get_last_error;
        if err =? EINTR then io_rounds n buf else Ret tt
      else if sel =? 0 then io_rounds n buf else
      stopped ← (if is_readable ps (read_fd (wake imp)) then
                   drain_wake_pipe fuel (wake imp);;
                   running ← load_running; Ret (negb running)
                 else Ret false);
      if (stopped : bool) then Ret tt else
      (if is_readable ps (listen_sock imp) then handle_accept else Ret tt);;
      buf ← check_clients clients ps buf;
      io_rounds n buf
  end.

Definition io_loop : io unit :=
  io_rounds fuel (replicate (Z.to_nat (recv_buffer_size config)) 0).

(** ** Stopping *)

Fixpoint shutdown_clients (entries : list (Z * Z)) : io unit :=
  match entries with
  | [] => Ret tt
  | (_, a) :: entries =>
      sock ← mem (ClientSock a);
      sys_call (Shutdown sock SHUT_RDWR);;
      shutdown_clients entries
  end.

(** The peers to tell, in the order of the map. *)
Fixpoint close_clients (entries : list (Z * Z)) : io (list Z) :=
  match entries with
  | [] => Ret []
  | (id, a) :: entries =>
      mem (LockClient a);;
      sock ← mem (ClientSock a);
      close_socket sock;;
      mem (UnlockClient a);;
      ids ← close_clients entries;
      Ret (id :: ids)
  end.

Fixpoint tell_all (ids : list Z) : io unit :=
  match ids with [] => Ret tt | id :: ids => tell_disconnected id;; tell_all ids end.
End thread.

(** Both phases of closing the clients, and the callbacks after them. *)
Definition drop_clients (imp : Impl) : io unit :=
  mem LockClients;;
  entries ← mem ListClients;
  shutdown_clients entries;;
  mem UnlockClients;;
  mem LockClients;;
  entries ← mem ListClients;
  ids ← close_clients entries;
  mem ClearClients;;
  mem UnlockClients;;
  tell_all imp ids.

Definition stop (imp : Impl) : io Impl :=
  was_running ← mem (ExchangeRunning false);
  if negb was_running then Ret imp else
  signal_wake_pipe (wake imp);;
  imp ← (if joinable imp then
           mem Join;; Ret (mkImpl (callbacks imp) (listen_sock imp) (wake imp) false)
         else Ret imp);
  drop_clients imp;;
  (if negb (listen_sock imp =? invalid_socket) then close_socket (listen_sock imp) else Ret tt);;
  w ← close_wake_pipe (wake imp);
  cleanup_networking;;
  Ret (mkImpl (callbacks imp) invalid_socket w (joinable imp)).

(** ** Starting *)

Definition refuse (sock : Z) (e : Error) (imp : Impl) : io (Result unit * Impl) :=
  close_socket sock;; cleanup_networking;; Ret (Fail e, imp).

(** As [refuse], with [errno] read after the close. *)
Definition refuse_errno (sock : Z) (what : string) (imp : Impl) : io (Result unit * Impl) :=
  close_socket sock;;
  err ← get_last_error;
  cleanup_networking;;
  Ret (Fail (new_error SocketError (what +:+ error_to_string strerror err)), imp).

Definition start (cb : TransportCallbacks) (imp : Impl) : io (Result unit * Impl) :=
  running ← load_running;
  if (running : bool) then
    Ret (Fail (new_error AlreadyRunning "TCP server transport already running"), imp)
  else
  net_result ← init_networking;
  match net_result with
  | Fail e => Ret (Fail e, imp)
  | Ok _ =>
  rs ← create_tcp_socket strerror;
  match rs with
  | Fail e => cleanup_networking;; Ret (Fail e, imp)
  | Ok sock =>
  reuse ← set_reuse_addr strerror sock;
  match reuse with
  | Fail e => refuse sock e imp
  | Ok _ =>
  match inet_pton (bind_address config) with
  | None => refuse sock (new_error InvalidConfig ("Invalid bind address: " +:+ bind_address config)) imp
  | Some addr =>
  b ← sys_call (Bind sock addr (port config));
  if negb (b =? 0) then
    refuse_errno sock ("Bind to " +:+ bind_address config +:+ ":" +:+ pretty (port config) +:+ " failed: ") imp
  else
  l ← sys_call (Listen sock);
  if negb (l =? 0) then refuse_errno sock "listen() failed: " imp else
  wake_result ← create_wake_pipe strerror;
  match wake_result with
  | Fail e => refuse sock e imp
  | Ok w =>
      let imp := mkImpl cb sock w true in
      mem (StoreRunning true);;
      mem (Spawn imp);;
      Ret (Ok tt, imp)
  end
  end
  end
  end
  end.

Definition local_port (imp : Impl) : io Z :=
  if listen_sock imp =? invalid_socket then Ret 0 else
  '(r, p) ← sys_call (Getsockname (listen_sock imp));
  Ret (if negb (r =? 0) then 0 else p).

(** ** Sending *)

Fixpoint send_chunk (n : nat) (sock : Z) (bytes : list Z) : io Z :=
  match n with
  | O => OutOfFuel
  | S n =>
      sent ← sys_call (Send sock bytes);
      if sent <? 0 then
        err ← get_last_error;
        if err =? EINTR then send_chunk n sock bytes else Ret sent
      else Ret sent
  end.

Fixpoint send_rounds (n : nat) (sock : Z) (bytes : list Z) : io (Result unit) :=
  if decide (bytes = []) then Ret (Ok tt) else
  match n with
  | O => OutOfFuel
  | S n =>
      sent ← send_chunk fuel sock bytes;
      if sent <=? 0 then errno_failure strerror SocketError "Send failed: "
      else send_rounds n sock (drop (Z.to_nat sent) bytes)
  end.

(** The client's mutex is taken while [clients_mutex] is held, and released when
    the function returns. *)
Definition send (peer : PeerId) (data : list Z) : io (Result unit) :=
  mem LockClients;;
  it ← mem (FindClient peer);
  match it with
  | None =>
      mem UnlockClients;;
      Ret (Fail (new_error PeerNotFound ("Peer " +:+ pretty peer +:+ " not connected")))
  | Some a =>
      mem (LockClient a);;
      sock ← mem (ClientSock a);
      mem UnlockClients;;
      r ← send_rounds (length data) sock data;
      mem (UnlockClient a);;
      Ret r
  end.
End server.
