(* ===== verification/TcpServerThreads.v ===== *)
(** * TCP server: what each thread may do

    The clients of a server belong to one thread at a time, the owner: the I/O
    thread while it exists, the controlling thread otherwise.  The owner knows
    the map of clients and every [ClientInfo] with its socket; a sender knows the
    entry it has found and the client whose mutex it holds.  The rules say what a
    thread must know to make a call, and the lemmas that the code of each thread
    keeps its rules. *)

From stdpp Require Import base numbers list gmap sets strings pretty.
From Stdlib Require Import ZArith Lia.
From S2P Require Import Prelude CoreError Handler Transceiver SysCalls SocketOps TcpServer.

Open Scope Z_scope.

(** ** The owner

    [o_heap]: the objects, with their sockets and whether these are open;
    [o_fd]: an accepted connection that is not entered yet; [o_lk]: whether
    [clients_mutex] is held; [o_obj]: the client whose mutex is held. *)
Record Own := mkOwn {
  o_map : gmap Z Z; o_heap : gmap Z (Z * bool); o_fd : option Z; o_lk : bool; o_obj : option Z
}.

Definition own0 : Own := mkOwn ∅ ∅ None false None.

Definition own_opens (o : Own) (fd : Z) : Prop :=
  o_fd o = Some fd \/ exists a, o_heap o !! a = Some (fd, true).

(** Closing a socket of the owner: the connection not entered yet, or that of the
    client whose mutex is held, under [clients_mutex]. *)
Definition closes (o : Own) (fd : Z) : option Own :=
  if decide (o_fd o = Some fd) then Some (mkOwn (o_map o) (o_heap o) None (o_lk o) (o_obj o))
  else match o_obj o with
       | Some a => if decide (o_heap o !! a = Some (fd, true) /\ o_lk o = true)
                   then Some (mkOwn (o_map o) (<[a := (fd, false)]> (o_heap o)) (o_fd o) (o_lk o) (o_obj o))
                   else None
       | None => None
       end.

(** Every entry is an object with an open socket. *)
Definition entries_open (o : Own) : Prop :=
  forall p a, o_map o !! p = Some a -> exists s, o_heap o !! a = Some (s, true).

Definition own_allowed (limit : Z) (fds : gset Z) (c : call srv) (o : Own) : Prop :=
  match c with
  | Sys (Socket | Pipe2 | Send _ _ | Write _ _ | Getsockname _ | Socket_udp | Setsockopt _ _ | Sendto _ _ _ | Recvfrom _ _) => False
  | Sys (Accept fd) => o_fd o = None /\ fd ∈ fds
  | Sys (Close fd) => is_Some (closes o fd)
  | Sys c => Forall (fun fd => own_opens o fd \/ fd ∈ fds) (descriptors c)
  | Mem LoadRunning => True
  | Mem LockClients => o_lk o = false /\ o_obj o = None
  | Mem UnlockClients => o_lk o = true /\ o_obj o = None /\ entries_open o
  | Mem (FindClient _ | ClientsSize | ListClients | EraseClient _) => o_lk o = true
  | Mem (InsertClient p s) => o_lk o = true /\ o_fd o = Some s /\ o_map o !! p = None
      /\ Z.of_nat (size (o_map o)) < limit
  | Mem ClearClients => o_lk o = true /\ o_obj o = None
      /\ forall p a, o_map o !! p = Some a -> exists s, o_heap o !! a = Some (s, false)
  | Mem (ClientSock a) => is_Some (o_heap o !! a)
  | Mem (LockClient a) => o_lk o = true /\ o_obj o = None /\ is_Some (o_heap o !! a)
  | Mem (UnlockClient a) => o_obj o = Some a
  | Mem (FreeClient a) => o_obj o = None /\ (exists s, o_heap o !! a = Some (s, false))
      /\ forall p, o_map o !! p <> Some a
  | Mem (OnPeerConnected _ | OnPeerDisconnected _ | OnStateChanged _ _ | OnDataReceived _ _) =>
      o_lk o = false /\ o_obj o = None
  | Mem (StoreRunning _ | ExchangeRunning _ | Spawn _ | Join) => False
  end.

(** The transceiver gives a new connection a peer that is not entered, or none. *)
Definition own_learns (c : call srv) (o : Own) : ans c -> Own -> Prop :=
  match c with
  | Sys (Accept _) => fun x o' =>
      o' = if x.1 <? 0 then o else mkOwn (o_map o) (o_heap o) (Some x.1) (o_lk o) (o_obj o)
  | Sys (Close fd) => fun _ o' => o' = default o (closes o fd)
  | Mem LockClients => fun _ o' => o' = mkOwn (o_map o) (o_heap o) (o_fd o) true (o_obj o)
  | Mem UnlockClients => fun _ o' => o' = mkOwn (o_map o) (o_heap o) (o_fd o) false (o_obj o)
  | Mem (FindClient p) => fun (x : option Z) o' => x = o_map o !! p /\ o' = o
  | Mem ClientsSize => fun (x : Z) o' => x = Z.of_nat (size (o_map o)) /\ o' = o
  | Mem ListClients => fun (x : list (Z * Z)) o' => x ≡ₚ map_to_list (o_map o) /\ o' = o
  | Mem (InsertClient p s) => fun (x : Z) o' => o_heap o !! x = None
      /\ o' = mkOwn (<[p := x]> (o_map o)) (<[x := (s, true)]> (o_heap o)) None (o_lk o) (o_obj o)
  | Mem (EraseClient p) => fun _ o' => o' = mkOwn (delete p (o_map o)) (o_heap o) (o_fd o) (o_lk o) (o_obj o)
  | Mem ClearClients => fun _ o' =>
      o' = mkOwn ∅ (foldr delete (o_heap o) (map_to_list (o_map o)).*2) (o_fd o) (o_lk o) (o_obj o)
  | Mem (ClientSock a) => fun (x : Z) o' => fst <$> o_heap o !! a = Some x /\ o' = o
  | Mem (LockClient a) => fun _ o' => o' = mkOwn (o_map o) (o_heap o) (o_fd o) (o_lk o) (Some a)
  | Mem (UnlockClient _) => fun _ o' => o' = mkOwn (o_map o) (o_heap o) (o_fd o) (o_lk o) None
  | Mem (FreeClient a) => fun _ o' => o' = mkOwn (o_map o) (delete a (o_heap o)) (o_fd o) (o_lk o) (o_obj o)
  | Mem (OnPeerConnected _) => fun (x : Z) o' => (x = 0 \/ o_map o !! x = None) /\ o' = o
  | _ => fun _ o' => o' = o
  end.

Definition own_rules (limit : Z) (fds : gset Z) : Rules srv Own := mkRules (own_allowed limit fds) own_learns.

(** ** A sender *)

Record SendView := mkSend {
  s_lk : bool; s_found : option Z; s_obj : option Z; s_sock : option Z
}.

Definition send_view0 : SendView := mkSend false None None None.

Definition send_allowed (c : call srv) (v : SendView) : Prop :=
  match c with
  | Mem LockClients => s_lk v = false /\ s_obj v = None
  | Mem (FindClient _ | UnlockClients) => s_lk v = true
  | Mem (LockClient a) => s_lk v = true /\ s_found v = Some a /\ s_obj v = None
  | Mem (ClientSock a | UnlockClient a) => s_obj v = Some a
  | Sys (Send fd _) => s_sock v = Some fd
  | Sys Errno => True
  | _ => False
  end.

Definition send_learns (c : call srv) (v : SendView) : ans c -> SendView -> Prop :=
  match c with
  | Mem LockClients => fun _ v' => v' = mkSend true None (s_obj v) (s_sock v)
  | Mem (FindClient _) => fun (x : option Z) v' => v' = mkSend (s_lk v) x (s_obj v) (s_sock v)
  | Mem UnlockClients => fun _ v' => v' = mkSend false None (s_obj v) (s_sock v)
  | Mem (LockClient a) => fun _ v' => v' = mkSend (s_lk v) (s_found v) (Some a) (s_sock v)
  | Mem (ClientSock _) => fun (x : Z) v' => v' = mkSend (s_lk v) (s_found v) (s_obj v) (Some x)
  | Mem (UnlockClient _) => fun _ v' => v' = mkSend (s_lk v) (s_found v) None None
  | _ => fun _ v' => v' = v
  end.

Definition send_rules : Rules srv SendView := mkRules send_allowed send_learns.

(** ** The controlling thread

    [c_fds]: the listening socket and the wake pipe; [c_own]: what it owns while
    there is no I/O thread.  [limit] bounds the clients the I/O thread leaves. *)
Record CtlView := mkCtl { c_run : bool; c_fds : gset Z; c_thread : option Impl; c_own : Own }.

(** ** Between rounds

    No lock is held, every object is entered, every entry is an object with an
    open socket of its own, and the limit is kept. *)
Record tidy (limit : Z) (o : Own) : Prop := {
  t_fd : o_fd o = None;
  t_lk : o_lk o = false;
  t_obj : o_obj o = None;
  t_entries : entries_open o;
  t_heap : forall a s b, o_heap o !! a = Some (s, b) ->
    b = true /\ 0 <= s /\ exists p, o_map o !! p = Some a;
  t_inj : forall p q a, o_map o !! p = Some a -> o_map o !! q = Some a -> p = q;
  t_limit : Z.of_nat (size (o_map o)) <= limit;
}.

Lemma tidy_own0 limit : 0 <= limit -> tidy limit own0.
Proof.
  intros. constructor; try done; unfold entries_open; simpl; intros *; by rewrite lookup_empty.
Qed.

(** A client leaves. *)
Lemma tidy_remove limit o p a :
  tidy limit o -> o_map o !! p = Some a ->
  tidy limit (mkOwn (delete p (o_map o)) (delete a (o_heap o)) None false None).
Proof.
  intros [] Hp. constructor; simpl; try done.
  - intros q b Hq. simpl in Hq |- *. apply lookup_delete_Some in Hq as [Hne Hq].
    assert (b <> a) by (intros ->; apply Hne; by eapply t_inj0).
    destruct (t_entries0 _ _ Hq) as [s Hs]. exists s. by rewrite lookup_delete_ne.
  - intros b s bb Hb. apply lookup_delete_Some in Hb as [Hne Hb].
    destruct (t_heap0 _ _ _ Hb) as (? & ? & q & Hq). split; [done|]. split; [done|].
    exists q. rewrite lookup_delete_ne; [done|]. intros ->. congruence.
  - intros q r b Hq Hr. apply lookup_delete_Some in Hq as [_ Hq], Hr as [_ Hr]. by eapply t_inj0.
  - rewrite map_size_delete_Some by done. lia.
Qed.

(** A client is entered. *)
Lemma tidy_insert limit o p a s :
  tidy limit o -> o_map o !! p = None -> o_heap o !! a = None -> 0 <= s ->
  Z.of_nat (size (o_map o)) < limit ->
  tidy limit (mkOwn (<[p := a]> (o_map o)) (<[a := (s, true)]> (o_heap o)) None false None).
Proof.
  intros [] Hp Ha Hs Hlim.
  assert (Hfresh : forall q, o_map o !! q = Some a -> False).
  { intros q Hq. destruct (t_entries0 _ _ Hq) as [? ?]. congruence. }
  constructor; simpl; try done.
  - intros q b Hq. simpl in Hq |- *. apply lookup_insert_Some in Hq as [[<- <-]|[Hne Hq]].
    + exists s. by rewrite lookup_insert_eq.
    + destruct (t_entries0 _ _ Hq) as [s' Hs']. exists s'. rewrite lookup_insert_ne; [done|]. congruence.
  - intros b s' bb Hb. apply lookup_insert_Some in Hb as [[<- [= <- <-]]|[Hne Hb]].
    + split; [done|]. split; [done|]. exists p. by rewrite lookup_insert_eq.
    + destruct (t_heap0 _ _ _ Hb) as (? & ? & q & Hq). split; [done|]. split; [done|].
      exists q. rewrite lookup_insert_ne; [done|]. congruence.
  - intros q r b Hq Hr.
    apply lookup_insert_Some in Hq as [[<- <-]|[Hne Hq]], Hr as [[<- Hr]|[Hne' Hr]]; try done.
    + by destruct (Hfresh r).
    + subst. by destruct (Hfresh q).
    + by eapply t_inj0.
  - rewrite map_size_insert_None by done. lia.
Qed.

(** ** The rules of the controlling thread *)

Definition ctl_allowed (limit : Z) (c : call srv) (v : CtlView) : Prop :=
  match c with
  | Sys (Socket | Pipe2) => c_thread v = None
  | Sys (Send _ _ | Accept _) => False
  | Sys (Close fd) => c_thread v = None /\ (is_Some (closes (c_own v) fd) \/ fd ∈ c_fds v)
  | Sys c => Forall (fun fd => fd ∈ c_fds v \/ c_thread v = None /\ own_opens (c_own v) fd) (descriptors c)
  | Mem (LoadRunning | StoreRunning _ | ExchangeRunning _) => True
  | Mem (Spawn imp) => c_thread v = None /\ tidy limit (c_own v)
      /\ listen_sock imp ∈ c_fds v /\ read_fd (wake imp) ∈ c_fds v
  | Mem Join => is_Some (c_thread v) /\ c_run v = false
  | Mem m => c_thread v = None /\ own_allowed limit ∅ (Mem m) (c_own v)
  end.

Definition with_own (o : Own) (v : CtlView) : CtlView := mkCtl (c_run v) (c_fds v) (c_thread v) o.

Definition ctl_learns (limit : Z) (c : call srv) (v : CtlView) : ans c -> CtlView -> Prop :=
  match c with
  | Sys Socket => fun (x : Z) v' =>
      v' = if x <? 0 then v else mkCtl (c_run v) ({[x]} ∪ c_fds v) (c_thread v) (c_own v)
  | Sys Pipe2 => fun x v' =>
      if x.1 =? 0 then x.2.1 <> x.2.2 /\ 0 <= x.2.1 /\ 0 <= x.2.2
        /\ (x.2.1 ∉ c_fds v) /\ (x.2.2 ∉ c_fds v)
        /\ v' = mkCtl (c_run v) ({[x.2.1; x.2.2]} ∪ c_fds v) (c_thread v) (c_own v)
      else v' = v
  | Sys (Close fd) => fun _ v' =>
      v' = match closes (c_own v) fd with
           | Some o => with_own o v
           | None => mkCtl (c_run v) (c_fds v ∖ {[fd]}) (c_thread v) (c_own v)
           end
  | Mem LoadRunning => fun x v' => x = c_run v /\ v' = v
  | Mem (StoreRunning b) => fun _ v' => v' = mkCtl b (c_fds v) (c_thread v) (c_own v)
  | Mem (ExchangeRunning b) => fun x v' => x = c_run v /\ v' = mkCtl b (c_fds v) (c_thread v) (c_own v)
  | Mem (Spawn imp) => fun _ v' => v' = mkCtl (c_run v) (c_fds v) (Some imp) (c_own v)
  | Mem Join => fun _ v' => exists o, tidy limit o /\ v' = mkCtl (c_run v) (c_fds v) None o
  | c => fun x v' => exists o', own_learns c (c_own v) x o' /\ v' = with_own o' v
  end.

Definition ctl_rules (limit : Z) : Rules srv CtlView := mkRules (ctl_allowed limit) (ctl_learns limit).

Inductive Command := Start (cb : TransportCallbacks) | Stop.

Fixpoint control (strerror : Z -> string) (inet_pton : string -> option Z) (config : TcpServerConfig)
    (cmds : list Command) (imp : Impl) : io Impl :=
  match cmds with
  | [] => Ret imp
  | Start cb :: cmds =>
      '(_, imp) ← start strerror inet_pton config cb imp; control strerror inet_pton config cmds imp
  | Stop :: cmds => imp ← stop imp; control strerror inet_pton config cmds imp
  end.

Fixpoint send_all (strerror : Z -> string) (fuel : nat) (ms : list (PeerId * list Z)) : io (list (Result unit)) :=
  match ms with
  | [] => Ret []
  | (p, m) :: ms => r ← send strerror fuel p m; rs ← send_all strerror fuel ms; Ret (r :: rs)
  end.

(** ** The I/O thread keeps its rules *)

Ltac own_simpl := cbn [o_map o_heap o_fd o_lk o_obj].

Section io_thread.
Variable strerror : Z -> string.
Variable config : TcpServerConfig.
Variable fuel : nat.
Variable imp : Impl.
Variable fds : gset Z.
Hypothesis listen_open : listen_sock imp ∈ fds.
Hypothesis wake_open : read_fd (wake imp) ∈ fds.

Abbreviation owp := (wp (own_rules (max_clients config) fds)).
Abbreviation good := (tidy (max_clients config)).

Lemma own_sys (c : sys) (Q : sys_ans c -> Own -> Prop) o :
  match c with Close _ | Accept _ => False | _ => True end ->
  own_allowed (max_clients config) fds (Sys c) o -> (forall x, Q x o) -> owp (sys_call c) Q o.
Proof.
  intros Hc Hal HQ. apply wp_sys; [done|]. intros x o' Hl. assert (o' = o) as -> by by destruct c. apply HQ.
Qed.

Lemma own_running (Q : bool -> Own -> Prop) o : (forall b, Q b o) -> owp load_running Q o.
Proof. intros HQ. apply wp_mem; [done|]. by intros x o' ->. Qed.

Lemma own_callback (m : srv) (Q : mem_ans m -> Own -> Prop) o :
  match m with OnPeerDisconnected _ | OnStateChanged _ _ | OnDataReceived _ _ => True | _ => False end ->
  o_lk o = false -> o_obj o = None -> (forall x, Q x o) -> owp (mem m) Q o.
Proof.
  intros Hm ?? HQ. apply wp_mem; [by destruct m|]. intros x o' Hl. assert (o' = o) as -> by by destruct m. apply HQ.
Qed.

Lemma own_tell p (Q : unit -> Own -> Prop) o :
  o_lk o = false -> o_obj o = None -> Q tt o -> owp (tell_disconnected imp p) Q o.
Proof.
  intros ?? HQ. unfold tell_disconnected, notify. apply wp_bind.
  assert (Hrest : owp (if on_peer_disconnected (callbacks imp) then mem (OnPeerDisconnected p) else Ret tt) Q o).
  { destruct_if; [|done]. apply own_callback; [done..|by intros []]. }
  destruct_if; [|done]. apply own_callback; [done..|by intros []].
Qed.

Lemma own_close fd o' (Q : unit -> Own -> Prop) o :
  closes o fd = Some o' -> 0 <= fd -> Q tt o' -> owp (close_socket fd) Q o.
Proof.
  intros Hc Hfd HQ. unfold close_socket.
  rewrite (proj2 (Z.eqb_neq _ _)) by (unfold invalid_socket; lia). cbn [negb].
  apply wp_sys; [by simpl; rewrite Hc|]. intros [] o1 ->. by rewrite Hc.
Qed.

Lemma own_client_sock a s b (Q : Z -> Own -> Prop) o :
  o_heap o !! a = Some (s, b) -> Q s o -> owp (mem (ClientSock a)) Q o.
Proof.
  intros Ha HQ. apply wp_mem; [by eexists|]. intros x o' [Hx ->]. rewrite Ha in Hx.
  by injection Hx as <-.
Qed.

Lemma own_remove_client (p : Z) (Q : unit -> Own -> Prop) o :
  good o ->
  (forall a, o_map o !! p = Some a ->
     Q tt (mkOwn (delete p (o_map o)) (delete a (o_heap o)) None false None)) ->
  (o_map o !! p = None -> Q tt o) ->
  owp (remove_client imp p) Q o.
Proof.
  intros Hg HQ HN. destruct o as [m h fd lk obj]. pose proof Hg as [Hfd Hlk Hobj Hent Hheap _ _].
  simpl in *. subst. unfold remove_client.
  apply wp_bind, wp_mem; [done|]. intros [] o ->. own_simpl.
  apply wp_bind, wp_mem; [done|]. intros it o [-> ->]. own_simpl.
  destruct (m !! p) as [a|] eqn:Ep.
  2: { apply wp_mem; [done|]. intros [] o ->. by apply HN. }
  destruct (Hent _ _ Ep) as [s Hs]. simpl in Hs. destruct (Hheap _ _ _ Hs) as (_ & Hs0 & _).
  apply wp_bind, wp_mem; [done|]. intros [] o ->. own_simpl.
  apply wp_bind, wp_mem; [by simpl; rewrite Hs|]. intros [] o ->. own_simpl.
  apply wp_bind, (own_client_sock a s true); [done|].
  apply wp_bind, (own_sys (Shutdown s SHUT_WR)); [done| |].
  { apply Forall_singleton. left. right. by exists a. }
  intros []. apply wp_bind. eapply own_close; [|done|].
  { unfold closes. own_simpl. rewrite decide_False by done. by rewrite decide_True. }
  own_simpl. apply wp_bind, wp_mem; [done|]. intros [] o ->. own_simpl.
  apply wp_bind, wp_mem.
  { split; [done|]. split; [done|]. intros q b Hq. simpl in Hq |- *.
    apply lookup_delete_Some in Hq as [Hne Hq]. destruct (Hent _ _ Hq) as [s' Hs'].
    exists s'. rewrite lookup_insert_ne; [done|]. intros ->. apply Hne.
    by apply (t_inj _ _ Hg p q b). }
  intros [] o ->. own_simpl. rewrite (proj2 (Z.eqb_neq _ _)) by (unfold invalid_socket; lia). cbn [negb].
  apply wp_bind, own_tell; [done..|]. apply wp_mem.
  { split; [done|]. split; [exists s; apply lookup_insert_eq|]. simpl. intros q Hq.
    apply lookup_delete_Some in Hq as [Hne Hq]. apply Hne. by apply (t_inj _ _ Hg p q a). }
  intros [] o ->. own_simpl. rewrite delete_insert_eq. by apply HQ.
Qed.

(** The snapshot names clients that are still there. *)
Definition current (o : Own) (l : list (Z * Z)) : Prop :=
  NoDup l.*1 /\ Forall (fun e => exists a, o_map o !! e.1 = Some a /\ o_heap o !! a = Some (e.2, true)) l.

Lemma current_remove o (p s a : Z) l :
  current o ((p, s) :: l) -> (forall q b, o_map o !! q = Some b -> o_map o !! p = Some b -> p = q) ->
  o_map o !! p = Some a ->
  current (mkOwn (delete p (o_map o)) (delete a (o_heap o)) None false None) l.
Proof.
  intros [Hnd Hl] Hinj Hp. apply NoDup_cons in Hnd as [Hnin Hnd]. apply Forall_cons in Hl as [_ Hl].
  split; [done|]. rewrite Forall_forall in Hl |- *. intros [q s'] Hq. simpl.
  destruct (Hl _ Hq) as (b & Hb & Hs). simpl in *.
  assert (p <> q). { intros ->. apply Hnin. by apply (list_elem_of_fmap_2 fst) in Hq. }
  exists b. rewrite lookup_delete_ne by done. split; [done|]. rewrite lookup_delete_ne; [done|].
  intros ->. by assert (p = q) by by eapply Hinj.
Qed.

Lemma own_handle_client_data (p s : Z) l buf (Q : list Z -> Own -> Prop) o :
  good o -> current o ((p, s) :: l) ->
  (forall buf' o', good o' -> current o' l -> Q buf' o') ->
  owp (handle_client_data imp p s buf) Q o.
Proof.
  intros Hg Hcur HQ. pose proof Hcur as [Hnd Hl]. apply Forall_cons in Hl as [(a & Ha & Hs) Hl]. simpl in *.
  assert (Hcur' : current o l) by (split; [by apply NoDup_cons in Hnd as [_ ?]|done]).
  apply wp_bind, (own_sys (Recv s (len buf))); [done| |].
  { apply Forall_singleton. left. right. by exists a. }
  intros [r bytes]. cbn zeta. apply wp_bind. destruct_if.
  - apply own_remove_client; [done| |congruence]. intros a' Ha'. simplify_eq.
    apply wp_ret, HQ; [by apply tidy_remove|]. eapply current_remove; [done| |done].
    intros q b Hq Hp. by eapply t_inj.
  - assert (owp (Ret (overwrite bytes buf)) Q o) by by apply wp_ret, HQ.
    destruct_if; [|by apply wp_ret]. apply own_callback; [done|apply Hg|apply Hg|done].
Qed.

Lemma own_check_clients l ps buf (Q : list Z -> Own -> Prop) o :
  good o -> current o l -> (forall buf' o', good o' -> Q buf' o') ->
  owp (check_clients imp l ps buf) Q o.
Proof.
  intros Hg Hcur HQ. revert buf o Hg Hcur.
  induction l as [|[p s] l IH]; intros buf o Hg Hcur; cbn [check_clients]; [by apply wp_ret, HQ|].
  apply wp_bind. destruct_if.
  - eapply own_handle_client_data; [done..|]. intros buf' o' Hg' Hcur'. by apply IH.
  - apply wp_ret, IH; [done|]. destruct Hcur as [Hnd Hl].
    split; [by apply NoDup_cons in Hnd as [_ ?]|by apply Forall_cons in Hl as [_ ?]].
Qed.

(** A connection [s] was accepted while the view was [o]. *)
Definition accepted (s : Z) (o : Own) : Own := mkOwn (o_map o) (o_heap o) (Some s) false None.

Lemma good_eta o : good o -> o = mkOwn (o_map o) (o_heap o) None false None.
Proof. intros []. destruct o; simpl in *. by subst. Qed.

Lemma own_drop_accepted s (Q : unit -> Own -> Prop) o :
  good o -> 0 <= s -> Q tt o -> owp (close_socket s) Q (accepted s o).
Proof.
  intros Hg Hs HQ. eapply own_close; [|done|].
  - unfold closes, accepted. own_simpl. by rewrite decide_True.
  - own_simpl. by rewrite <- good_eta.
Qed.

Lemma current_insert o (p a s : Z) l :
  current o l -> o_map o !! p = None -> o_heap o !! a = None ->
  current (mkOwn (<[p := a]> (o_map o)) (<[a := (s, true)]> (o_heap o)) None false None) l.
Proof.
  intros [Hnd Hl] Hp Ha. split; [done|]. eapply Forall_impl; [exact Hl|].
  intros [q s'] (b & Hb & Hs). simpl in *. exists b. rewrite !lookup_insert_ne by (intros ->; congruence). done.
Qed.

Lemma own_admit s e l (Q : unit -> Own -> Prop) o :
  good o -> current o l -> 0 <= s -> Z.of_nat (size (o_map o)) < max_clients config ->
  (forall o', good o' -> current o' l -> Q tt o') -> owp (admit_client imp s e) Q (accepted s o).
Proof.
  intros Hg Hcur Hs Hlim HQ. unfold admit_client. apply wp_bind.
  apply wp_mono with (P := fun p o' => o' = accepted s o /\ (p = 0 \/ o_map o !! p = None)).
  { destruct_if; [|by apply wp_ret; split; [|left]]. apply wp_mem; [done|]. by intros p o' [Hp ->]. }
  intros p o' [-> Hp]. destruct_if; [apply own_drop_accepted; auto|].
  assert (o_map o !! p = None) as Hnone.
  { destruct Hp as [->|]; done. }
  apply wp_bind, wp_mem; [done|]. intros [] o' ->. unfold accepted. own_simpl.
  apply wp_bind, wp_mem; [done|]. intros a o' [Ha ->]. cbn [o_map o_heap o_fd o_lk o_obj] in Ha |- *.
  assert (Hnew : good (mkOwn (<[p := a]> (o_map o)) (<[a := (s, true)]> (o_heap o)) None false None)).
  { by apply tidy_insert. }
  apply wp_mem.
  { split; [done|]. split; [done|]. exact (t_entries _ _ Hnew). }
  intros [] o' ->. own_simpl. apply HQ; [done|]. by apply current_insert.
Qed.

Lemma own_handle_accept l (Q : unit -> Own -> Prop) o :
  good o -> current o l -> (forall o', good o' -> current o' l -> Q tt o') ->
  owp (handle_accept strerror config imp) Q o.
Proof.
  intros Hg Hcur HQ. apply wp_bind, wp_sys; [split; [apply Hg|done]|].
  intros [s addr] o' ->. cbn [fst]. destruct (s <? 0) eqn:Es; [by apply wp_ret, HQ|]. bool_to_prop.
  rewrite (t_lk _ _ Hg), (t_obj _ _ Hg). fold (accepted s o).
  apply wp_bind. unfold set_tcp_nodelay. apply wp_bind, (own_sys (Setsockopt_nodelay s)); [done| |].
  { apply Forall_singleton. left. by left. }
  intros r. destruct_if.
  { apply wp_bind, (own_sys Errno); [done|constructor|]. intros err. apply wp_ret.
    apply own_drop_accepted; auto. }
  apply wp_ret, wp_bind, wp_mem; [done|]. intros [] o' ->. unfold accepted. own_simpl.
  apply wp_bind, wp_mem; [done|]. intros n o' [-> ->]. own_simpl. destruct_if; bool_to_prop.
  - apply wp_bind. eapply own_close; [|done|].
    { unfold closes. own_simpl. by rewrite decide_True. }
    own_simpl. apply wp_mem; [split; [done|]; split; [done|]; exact (t_entries _ _ Hg)|].
    intros [] o' ->. own_simpl. rewrite <- good_eta by done. by apply HQ.
  - apply wp_bind, wp_mem; [split; [done|]; split; [done|]; exact (t_entries _ _ Hg)|].
    intros [] o' ->. own_simpl. fold (accepted s o). by apply (own_admit s _ l).
Qed.

(** Under the mutex the entries give the sockets of the clients. *)
Lemma own_snapshot entries ps (Q : list (Z * Z) * PollSet -> Own -> Prop) o :
  Forall (fun e => exists s, o_heap o !! e.2 = Some (s, true)) entries ->
  Forall (fun fd => own_opens o fd \/ fd ∈ fds) (pfd <$> ps) ->
  (forall l ps', l.*1 = entries.*1 ->
     Forall2 (fun e e' => o_heap o !! e.2 = Some (e'.2, true)) entries l ->
     Forall (fun fd => own_opens o fd \/ fd ∈ fds) (pfd <$> ps') -> Q (l, ps') o) ->
  owp (snapshot entries ps) Q o.
Proof.
  revert ps Q. induction entries as [|[id a] entries IH]; intros ps Q He Hps HQ; cbn [snapshot].
  { by apply wp_ret, HQ. }
  apply Forall_cons in He as [[s Hs] He]. simpl in Hs.
  apply wp_bind, (own_client_sock a s true); [done|]. apply wp_bind, IH; [done| |].
  - apply add_read_fds; [|done]. left. right. by exists a.
  - intros l ps' Hl H2 Hps'. apply wp_ret, HQ; [by csimpl; rewrite Hl|by constructor|done].
Qed.

Lemma snapshot_current o entries l :
  good o -> entries ≡ₚ map_to_list (o_map o) -> l.*1 = entries.*1 ->
  Forall2 (fun e e' => o_heap o !! e.2 = Some (e'.2, true)) entries l -> current o l.
Proof.
  intros Hg Hperm Hfst H2. split.
  - rewrite Hfst, Hperm. apply NoDup_fst_map_to_list.
  - assert (He : Forall (fun e => o_map o !! e.1 = Some e.2) entries).
    { apply Forall_forall. intros [q b] Hq. rewrite Hperm in Hq. by apply elem_of_map_to_list in Hq. }
    clear Hperm. revert l Hfst H2. induction He as [|[q b] entries Hq He IH]; intros l Hfst H2.
    + by apply Forall2_nil_inv_l in H2 as ->.
    + apply Forall2_cons_inv_l in H2 as ([q' s] & l' & Hs & H2 & ->). simplify_eq/=.
      constructor; [by exists b|]. by apply IH.
Qed.

Lemma own_drain (Q : unit -> Own -> Prop) o :
  Q tt o -> owp (drain_wake_pipe fuel (wake imp)) Q o.
Proof.
  intros HQ. unfold drain_wake_pipe. destruct_if; [|done].
  induction fuel as [|n IH]; cbn [drain_loop]; [done|].
  apply wp_bind, (own_sys (Read (read_fd (wake imp)) 64)); [done|apply Forall_singleton; by right|].
  intros x. by destruct_if.
Qed.

Lemma own_io_rounds n buf o : good o -> owp (io_rounds strerror config fuel imp n buf) (fun _ => good) o.
Proof.
  revert buf o. induction n as [|n IH]; intros buf o Hg; cbn [io_rounds]; [done|].
  apply wp_bind, own_running. intros []; cbn [negb]; [|done].
  apply wp_bind, wp_mem; [split; apply Hg|]. intros [] o' ->.
  apply wp_bind, wp_mem; [done|]. intros entries o' [Hperm ->]. own_simpl.
  apply wp_bind, own_snapshot.
  { apply Forall_forall. intros [q b] Hq. own_simpl. apply (t_entries _ _ Hg q).
    rewrite Hperm in Hq. by apply elem_of_map_to_list in Hq. }
  { do 2 (apply add_read_fds; [by right|]). constructor. }
  intros l ps Hl H2 Hps. pose proof (snapshot_current o entries l Hg Hperm Hl H2) as Hcur.
  apply wp_bind, wp_mem; [split; [done|]; split; [apply Hg|exact (t_entries _ _ Hg)]|].
  intros [] o' ->. own_simpl.
  replace (mkOwn (o_map o) (o_heap o) (o_fd o) false (o_obj o)) with o
    by (destruct o; simpl; f_equal; apply Hg).
  apply wp_bind, wp_bind, (own_sys (Poll ps 100)); [done|done|]. intros [sel re]. apply wp_ret.
  destruct_if.
  { apply wp_bind, (own_sys Errno); [done|constructor|]. intros err. destruct_if; [by apply IH|done]. }
  destruct_if; [by apply IH|]. apply wp_bind.
  assert (Hgo : forall b : bool, owp (if b then Ret tt else
      (if is_readable (imap (fun i e => mkPollfd (pfd e) (events e) (re i)) ps) (listen_sock imp)
       then handle_accept strerror config imp else Ret tt);;
      buf ← check_clients imp l (imap (fun i e => mkPollfd (pfd e) (events e) (re i)) ps) buf;
      io_rounds strerror config fuel imp n buf) (fun _ => good) o).
  { intros []; [done|]. apply wp_bind. destruct_if.
    - apply (own_handle_accept l); [done..|]. intros o' Hg' Hcur'.
      apply wp_bind, own_check_clients; [done..|]. intros buf' o1 Hg1. by apply IH.
    - apply wp_ret, wp_bind, own_check_clients; [done..|]. intros buf' o1 Hg1. by apply IH. }
  destruct_if; [|apply wp_ret; exact (Hgo false)].
  apply wp_bind, own_drain, wp_bind, own_running. intros b. apply wp_ret. exact (Hgo (negb b)).
Qed.

Lemma own_io_loop o : good o -> owp (io_loop strerror config fuel imp) (fun _ => good) o.
Proof. apply own_io_rounds. Qed.
End io_thread.

(** ** A sender keeps its rules *)

Section sender.
Variable strerror : Z -> string.
Variable fuel : nat.

Abbreviation swp := (wp send_rules).

Lemma srv_snd_errno (Q : Z -> SendView -> Prop) v : (forall x, Q x v) -> swp get_last_error Q v.
Proof. intros HQ. apply wp_sys; [done|]. by intros x v' ->. Qed.

Lemma srv_snd_rounds n s bytes (Q : Result unit -> SendView -> Prop) v :
  s_sock v = Some s -> (forall r, Q r v) -> swp (send_rounds strerror fuel n s bytes) Q v.
Proof.
  intros Hs HQ. revert bytes. induction n as [|n IH]; intros bytes; cbn [send_rounds];
    (destruct (decide (bytes = [])); [by apply wp_ret|]); [done|].
  apply wp_bind. apply wp_mono with (P := fun _ v' => v' = v).
  - clear IH. induction fuel as [|k IHk]; cbn [send_chunk]; [done|].
    apply wp_bind, wp_sys; [done|]. intros x v' ->. destruct_if; [|done].
    apply wp_bind, srv_snd_errno. intros err. by destruct_if.
  - intros x v' ->. destruct_if; [|done]. apply wp_bind, srv_snd_errno. intros err. by apply wp_ret.
Qed.

Lemma srv_snd_send p m (Q : Result unit -> SendView -> Prop) :
  (forall r, Q r send_view0) -> swp (send strerror fuel p m) Q send_view0.
Proof.
  intros HQ. apply wp_bind, wp_mem; [done|]. intros [] v ->.
  apply wp_bind, wp_mem; [done|]. intros [a|] v ->.
  - apply wp_bind, wp_mem; [done|]. intros [] v ->.
    apply wp_bind, wp_mem; [done|]. intros s v ->.
    apply wp_bind, wp_mem; [done|]. intros [] v ->.
    apply wp_bind, srv_snd_rounds; [done|]. intros r.
    apply wp_bind, wp_mem; [done|]. intros [] v ->. apply wp_ret, HQ.
  - apply wp_bind, wp_mem; [done|]. intros [] v ->. apply wp_ret, HQ.
Qed.

Lemma srv_snd_send_all ms : swp (send_all strerror fuel ms) (fun _ v => v = send_view0) send_view0.
Proof.
  induction ms as [|[p m] ms IH]; cbn [send_all]; [done|].
  apply wp_bind, srv_snd_send. intros r. apply wp_bind. eapply wp_mono; [exact IH|]. by intros rs v ->.
Qed.
End sender.

(** ** The controlling thread keeps its rules *)

Section control.
Variable strerror : Z -> string.
Variable inet_pton : string -> option Z.
Variable config : TcpServerConfig.
Hypothesis limit_nonneg : 0 <= max_clients config.

Abbreviation limit := (max_clients config).
Abbreviation cwp := (wp (ctl_rules limit)).

(** While there is no I/O thread the controlling thread may do as owner what the
    owner may. *)
Lemma ctl_owner_call c o v :
  c_thread v = None -> own_allowed limit ∅ c o ->
  ctl_allowed limit c (with_own o v)
  /\ forall x v', ctl_learns limit c (with_own o v) x v' ->
     exists o', own_learns c o x o' /\ v' = with_own o' v.
Proof.
  intros Hth Hal. destruct c as [c|m]; [destruct c|destruct m]; simpl in Hal; try done.
  all: try (split; [by split|intros x v' (o' & Ho' & ->); by exists o']).
  all: try (split; [|intros x v' (o' & Ho' & ->); by exists o']).
  all: try (eapply Forall_impl; [exact Hal|]; intros fd' [|]; [by right|set_solver]).
  - by destruct Hal.
  - split; [split; [done|by left]|]. intros [] v' ->. simpl.
    destruct Hal as [o' Ho']. rewrite Ho'. by exists o'.
  - split; [done|]. intros x v' [-> ->]. by exists o.
Qed.

Lemma ctl_owner {A} (p : prog srv A) (Q : A -> Own -> Prop) o v :
  c_thread v = None -> wp (own_rules limit ∅) p Q o ->
  cwp p (fun a v' => exists o', v' = with_own o' v /\ Q a o') (with_own o v).
Proof.
  intros Hth. revert o. induction p as [a|c k IH| |]; intros o Hp; try done.
  - by exists o.
  - destruct Hp as [Hal Hk]. destruct (ctl_owner_call c o v Hth Hal) as [Hc Hl].
    split; [done|]. intros x v' Hx. destruct (Hl x v' Hx) as (o' & Ho' & ->). by apply IH, Hk.
Qed.

(** Shutting down and closing all clients, as owner. *)
Section owner.
Abbreviation owp := (wp (own_rules limit ∅)).

Lemma own_shutdown_clients entries (Q : unit -> Own -> Prop) o :
  Forall (fun e => exists s, o_heap o !! e.2 = Some (s, true)) entries -> Q tt o ->
  owp (shutdown_clients entries) Q o.
Proof.
  intros He HQ. induction He as [|[p a] entries [s Hs] He IH]; cbn [shutdown_clients]; [done|].
  apply wp_bind, (own_client_sock config ∅ a s true); [done|].
  apply wp_bind, (own_sys config ∅ (Shutdown s SHUT_RDWR)); [done| |done].
  apply Forall_singleton. left. right. by exists a.
Qed.

(** The objects whose sockets are closed. *)
Definition closed_in (l : list Z) (h h' : gmap Z (Z * bool)) : Prop :=
  forall a, h' !! a = if decide (a ∈ l) then (fun e => (e.1, false)) <$> h !! a else h !! a.

Lemma own_close_clients entries m h (Q : list Z -> Own -> Prop) :
  NoDup entries.*2 -> Forall (fun e => exists s, 0 <= s /\ h !! e.2 = Some (s, true)) entries ->
  (forall h', closed_in entries.*2 h h' -> Q entries.*1 (mkOwn m h' None true None)) ->
  owp (close_clients entries) Q (mkOwn m h None true None).
Proof.
  revert h Q. induction entries as [|[p a] entries IH]; intros h Q Hnd He HQ; cbn [close_clients].
  { apply wp_ret, HQ. intros b. by rewrite decide_False by set_solver. }
  apply Forall_cons in He as [(s & Hs0 & Hs) He]. simpl in Hs.
  change (((p, a) :: entries).*2) with (a :: entries.*2) in *.
  change (((p, a) :: entries).*1) with (p :: entries.*1) in *. apply NoDup_cons in Hnd as [Hnin Hnd].
  apply wp_bind, wp_mem; [by split; [|split; [|eexists]]|]. intros [] o ->. own_simpl.
  apply wp_bind, (own_client_sock config ∅ a s true); [done|]. apply wp_bind. eapply own_close; [|done|].
  { unfold closes. own_simpl. rewrite decide_False by done. by rewrite decide_True. }
  own_simpl. apply wp_bind, wp_mem; [done|]. intros [] o ->. own_simpl.
  apply wp_bind, IH; [done| |].
  - rewrite Forall_forall in He |- *. intros [q b] Hq. destruct (He _ Hq) as (s' & ? & Hs').
    exists s'. split; [done|]. simpl in *. rewrite lookup_insert_ne; [done|].
    intros ->. apply Hnin. by apply (list_elem_of_fmap_2 snd) in Hq.
  - intros h' Hh'. apply wp_ret, HQ. intros b. rewrite (Hh' b).
    destruct (decide (b = a)) as [->|Hne].
    + rewrite decide_False by done. rewrite lookup_insert_eq, decide_True by set_solver. by rewrite Hs.
    + rewrite lookup_insert_ne by done.
      destruct (decide (b ∈ entries.*2)); [rewrite decide_True|rewrite decide_False]; set_solver.
Qed.

(** Nothing is left after the map is cleared. *)
Lemma cleared o h' :
  tidy limit o -> closed_in (map_to_list (o_map o)).*2 (o_heap o) h' ->
  foldr delete h' (map_to_list (o_map o)).*2 = ∅.
Proof.
  intros Hg Hh. apply map_empty. intros a.
  destruct (decide (a ∈ (map_to_list (o_map o)).*2)) as [Hin|Hnin].
  - by apply lookup_foldr_delete.
  - rewrite lookup_foldr_delete_not_elem_of, Hh, decide_False by done.
    destruct (o_heap o !! a) as [[s b]|] eqn:E; [|done].
    destruct (t_heap _ _ Hg _ _ _ E) as (_ & _ & p & Hp). destruct Hnin.
    apply elem_of_map_to_list in Hp. by apply (list_elem_of_fmap_2 snd) in Hp.
Qed.

Lemma own_tell_all imp ids (Q : unit -> Own -> Prop) o :
  o_lk o = false -> o_obj o = None -> Q tt o -> owp (tell_all imp ids) Q o.
Proof.
  intros ?? HQ. induction ids as [|id ids IH]; cbn [tell_all]; [done|]. by apply wp_bind, own_tell.
Qed.

Lemma entries_facts o entries :
  tidy limit o -> entries ≡ₚ map_to_list (o_map o) ->
  NoDup entries.*2 /\ Forall (fun e => exists s, 0 <= s /\ o_heap o !! e.2 = Some (s, true)) entries.
Proof.
  intros Hg Hperm. split.
  - rewrite Hperm. apply NoDup_fmap_2_strong; [|apply NoDup_map_to_list].
    intros [p a] [q b] Hp Hq Hab. apply elem_of_map_to_list in Hp, Hq. simpl in Hab. subst.
    by rewrite (t_inj _ _ Hg p q b).
  - apply Forall_forall. intros [p a] Hp. rewrite Hperm in Hp. apply elem_of_map_to_list in Hp.
    destruct (t_entries _ _ Hg _ _ Hp) as [s Hs]. destruct (t_heap _ _ Hg _ _ _ Hs) as (_ & ? & _).
    by exists s.
Qed.
End owner.

(** The client part of [stop]: nothing is left. *)
Lemma own_drop_clients imp o :
  tidy limit o -> wp (own_rules limit ∅) (drop_clients imp) (fun _ o' => o' = own0) o.
Proof.
  intros Hg. destruct o as [m h fd lk obj]. pose proof Hg as [Hfd Hlk Hobj Hent _ _ _].
  simpl in Hfd, Hlk, Hobj. subst. unfold drop_clients.
  apply wp_bind, wp_mem; [done|]. intros [] o ->. own_simpl.
  apply wp_bind, wp_mem; [done|]. intros entries o [Hperm ->].
  destruct (entries_facts _ _ Hg Hperm) as [_ He].
  apply wp_bind, own_shutdown_clients.
  { eapply Forall_impl; [exact He|]. intros e (s & _ & Hs). by exists s. }
  apply wp_bind, wp_mem; [by split|]. intros [] o ->. own_simpl.
  apply wp_bind, wp_mem; [done|]. intros [] o ->. own_simpl. clear entries Hperm He.
  apply wp_bind, wp_mem; [done|]. intros entries o [Hperm ->].
  destruct (entries_facts _ _ Hg Hperm) as [Hnd He].
  apply wp_bind, own_close_clients; [done|done|]. intros h' Hh'.
  assert (Hclosed : closed_in (map_to_list m).*2 h h').
  { intros a. rewrite (Hh' a). destruct (decide (a ∈ entries.*2)) as [Ha|Ha]; rewrite Hperm in Ha;
      [by rewrite decide_True|by rewrite decide_False]. }
  apply wp_bind, wp_mem.
  { split; [done|]. split; [done|]. simpl. intros p a Hp. destruct (Hent _ _ Hp) as [s Hs].
    exists s. rewrite (Hclosed a), decide_True; [by simpl in Hs; rewrite Hs|].
    apply elem_of_map_to_list in Hp. by apply (list_elem_of_fmap_2 snd) in Hp. }
  intros [] o ->. own_simpl.
  assert (foldr delete h' (map_to_list m).*2 = ∅) as -> by exact (cleared _ _ Hg Hclosed).
  apply wp_bind, wp_mem; [split; [done|]; split; [done|]; intros p a; simpl; by rewrite lookup_empty|].
  intros [] o ->. own_simpl. by apply own_tell_all.
Qed.

(** ** Starting and stopping *)

Definition settled (imp : Impl) (v : CtlView) : Prop :=
  let ls := listen_sock imp in let rd := read_fd (wake imp) in let wr := write_fd (wake imp) in
  if c_run v then v = mkCtl true {[rd; wr; ls]} (Some imp) (c_own v)
    /\ rd <> wr /\ rd <> ls /\ wr <> ls /\ 0 <= rd /\ 0 <= wr /\ 0 <= ls /\ joinable imp = true
  else v = mkCtl false ∅ None own0.

(** [start] and [stop] hold no clients while they close their own descriptors. *)
Lemma ctl_close_fd fd F r (Q : unit -> CtlView -> Prop) :
  fd ∈ F -> 0 <= fd -> Q tt (mkCtl r (F ∖ {[fd]}) None own0) ->
  cwp (close_socket fd) Q (mkCtl r F None own0).
Proof.
  intros Hfd H0 HQ. unfold close_socket.
  rewrite (proj2 (Z.eqb_neq _ _)) by (unfold invalid_socket; lia). cbn [negb].
  apply wp_sys; [split; [done|by right]|]. by intros [] v ->.
Qed.

Lemma ctl_close_call fd F r (Q : unit -> CtlView -> Prop) :
  fd ∈ F -> Q tt (mkCtl r (F ∖ {[fd]}) None own0) ->
  cwp (sys_call (Close fd)) Q (mkCtl r F None own0).
Proof. intros Hfd HQ. apply wp_sys; [split; [done|by right]|]. by intros [] v ->. Qed.

Lemma ctl_sys (c : sys) (Q : sys_ans c -> CtlView -> Prop) v :
  match c with Close _ | Accept _ | Socket | Pipe2 | Send _ _ => False | _ => True end ->
  Forall (.∈ c_fds v) (descriptors c) -> (forall x, Q x v) -> cwp (sys_call c) Q v.
Proof.
  intros Hc Hfds HQ. apply wp_sys.
  - destruct c; try done; eapply Forall_impl; try exact Hfds; by left.
  - intros x v' Hl. assert (v' = v) as ->; [|apply HQ].
    destruct c; try done; destruct Hl as (o' & -> & ->); by destruct v.
Qed.

Lemma srv_ctl_errno_failure {A} c what (Q : Result A -> CtlView -> Prop) v :
  (forall e, Q (Fail e) v) -> cwp (errno_failure strerror c what) Q v.
Proof. intros HQ. apply wp_bind, (ctl_sys Errno); [done|constructor|]. intros err. apply wp_ret, HQ. Qed.

(** Closes fail over to the descriptors of the controlling thread. *)
Lemma srv_ctl_end a b fd ls (Q : Result unit -> CtlView -> Prop) :
  fd = a \/ fd = b -> a <> b -> a <> ls -> b <> ls ->
  Q (Ok tt) (mkCtl false {[a; b; ls]} None own0) ->
  (forall e, Q (Fail e) (mkCtl false {[ls]} None own0)) ->
  cwp (set_end_nonblocking strerror (a, b) fd) Q (mkCtl false {[a; b; ls]} None own0).
Proof.
  intros Hfd Hab Ha Hb HQ HF. assert (Hin : Forall (.∈ ({[a; b; ls]} : gset Z)) [fd]).
  { apply Forall_singleton. set_solver. }
  apply wp_bind, (ctl_sys (Fcntl_getfl fd)); [done|done|]. intros flags.
  apply wp_bind. apply wp_mono with (P := fun _ v' => v' = mkCtl false {[a; b; ls]} None own0).
  { destruct_if; [done|]. by apply wp_bind, ctl_sys. }
  intros [] v ->; [|done].
  apply wp_bind, ctl_close_call; [set_solver|]. apply wp_bind, ctl_close_call; [set_solver|].
  replace (({[a; b; ls]} ∖ {[(a, b).1]} : gset Z) ∖ {[(a, b).2]}) with ({[ls]} : gset Z) by (simpl; set_solver).
  by apply srv_ctl_errno_failure.
Qed.

Lemma srv_ctl_create_wake_pipe ls (Q : Result WakePipe -> CtlView -> Prop) :
  (forall a b, a <> b -> a <> ls -> b <> ls -> 0 <= a -> 0 <= b ->
     Q (Ok (mkWakePipe a b)) (mkCtl false {[a; b; ls]} None own0)) ->
  (forall e, Q (Fail e) (mkCtl false {[ls]} None own0)) ->
  cwp (create_wake_pipe strerror) Q (mkCtl false {[ls]} None own0).
Proof.
  intros HQ HF. apply wp_bind, wp_sys; [done|]. intros [r [a b]] v Hv. cbn in Hv.
  destruct (r =? 0) eqn:Er; cbn [negb].
  - destruct Hv as (Hab & Ha & Hb & Hna & Hnb & ->). apply not_elem_of_singleton in Hna, Hnb.
    apply wp_bind, srv_ctl_end; [by left|done..| |intros e; apply wp_ret, HF].
    apply wp_bind, srv_ctl_end; [by right|done..| |intros e; apply wp_ret, HF].
    by apply wp_ret, HQ.
  - subst. by apply srv_ctl_errno_failure.
Qed.

Lemma ctl_refuse ls e imp (Q : Result unit * Impl -> CtlView -> Prop) :
  0 <= ls -> (forall r, Q (r, imp) (mkCtl false ∅ None own0)) ->
  cwp (refuse ls e imp) Q (mkCtl false {[ls]} None own0).
Proof.
  intros Hls HQ. apply wp_bind, ctl_close_fd; [set_solver|done|]. rewrite difference_diag_L.
  by apply wp_bind, wp_ret, wp_ret.
Qed.

Lemma ctl_refuse_errno ls what imp (Q : Result unit * Impl -> CtlView -> Prop) :
  0 <= ls -> (forall r, Q (r, imp) (mkCtl false ∅ None own0)) ->
  cwp (refuse_errno strerror ls what imp) Q (mkCtl false {[ls]} None own0).
Proof.
  intros Hls HQ. apply wp_bind, ctl_close_fd; [set_solver|done|]. rewrite difference_diag_L.
  apply wp_bind, (ctl_sys Errno); [done|constructor|]. intros err. by apply wp_bind, wp_ret, wp_ret.
Qed.

Lemma srv_ctl_start cb imp v (Q : Result unit * Impl -> CtlView -> Prop) :
  settled imp v -> (forall r imp' v', settled imp' v' -> Q (r, imp') v') ->
  cwp (start strerror inet_pton config cb imp) Q v.
Proof.
  intros Hv HQ. apply wp_bind, wp_mem; [done|]. intros x v' [-> ->].
  unfold settled in Hv. destruct (c_run v) eqn:Er.
  { apply wp_ret, HQ. unfold settled. by rewrite Er. }
  subst. assert (HN : forall r, Q (r, imp) (mkCtl false ∅ None own0)) by by intros r; apply HQ.
  apply wp_bind, wp_ret, wp_bind, wp_bind, wp_sys; [done|]. intros ls v ->.
  destruct (ls <? 0) eqn:Els.
  { apply srv_ctl_errno_failure. intros e. by apply wp_bind, wp_ret, wp_ret. }
  bool_to_prop. apply wp_ret. cbn [c_run c_fds c_thread c_own]. rewrite (right_id_L ∅ (∪)).
  assert (Hin : Forall (.∈ ({[ls : Z]} : gset Z)) [ls]) by (apply Forall_singleton; set_solver).
  apply wp_bind. unfold set_reuse_addr. apply wp_bind, (ctl_sys (Setsockopt_reuse ls)); [done|done|].
  intros r. destruct_if; [apply srv_ctl_errno_failure; intros e; by apply ctl_refuse|].
  apply wp_ret. destruct (inet_pton (bind_address config)) as [addr|]; [|by apply ctl_refuse].
  apply wp_bind, (ctl_sys (Bind ls addr (port config))); [done|done|]. intros b.
  destruct_if; [by apply ctl_refuse_errno|].
  apply wp_bind, (ctl_sys (Listen ls)); [done|done|]. intros l.
  destruct_if; [by apply ctl_refuse_errno|].
  apply wp_bind, srv_ctl_create_wake_pipe; [|intros e; by apply ctl_refuse].
  intros rd wr Hab Ha Hb Hrd Hwr. cbn zeta.
  apply wp_bind, wp_mem; [done|]. intros [] v ->. apply wp_bind, wp_mem.
  { split; [done|]. split; [by apply tidy_own0|]. simpl. set_solver. }
  intros [] v ->. apply wp_ret, HQ. by repeat split.
Qed.

Lemma srv_ctl_close_wake_pipe a b (Q : WakePipe -> CtlView -> Prop) :
  a <> b -> 0 <= a -> 0 <= b -> Q wake_pipe0 (mkCtl false ∅ None own0) ->
  cwp (close_wake_pipe (mkWakePipe a b)) Q (mkCtl false {[a; b]} None own0).
Proof.
  intros Hab Ha Hb HQ. unfold close_wake_pipe. cbn [read_fd write_fd].
  rewrite !(proj2 (Z.eqb_neq _ _)) by (unfold invalid_socket; lia). cbn [negb].
  apply wp_bind, ctl_close_call; [set_solver|]. apply wp_bind, ctl_close_call; [set_solver|].
  replace (({[a; b]} ∖ {[a]} : gset Z) ∖ {[b]}) with (∅ : gset Z) by set_solver. by apply wp_ret.
Qed.

Lemma ctl_drop_clients imp F o (Q : unit -> CtlView -> Prop) :
  tidy limit o -> Q tt (mkCtl false F None own0) ->
  cwp (drop_clients imp) Q (mkCtl false F None o).
Proof.
  intros Hg HQ. eapply wp_mono.
  - apply (ctl_owner _ (fun _ o' => o' = own0) o (mkCtl false F None own0)); [done|].
    by apply own_drop_clients.
  - by intros [] v' (o' & -> & ->).
Qed.

Lemma srv_ctl_stop imp v (Q : Impl -> CtlView -> Prop) :
  settled imp v -> (forall imp', Q imp' (mkCtl false ∅ None own0)) -> cwp (stop imp) Q v.
Proof.
  intros Hv HQ. apply wp_bind, wp_mem; [done|]. intros x v' [-> ->].
  unfold settled in Hv. destruct (c_run v) eqn:Er; cbn [negb].
  2: { subst. by apply wp_ret. }
  destruct imp as [cb ls [rd wr] j]. cbn [listen_sock wake read_fd write_fd joinable] in Hv.
  destruct Hv as (-> & Hab & Ha & Hb & Hrd & Hwr & Hls & ->).
  cbn [c_fds c_thread c_own c_run wake joinable]. apply wp_bind. unfold signal_wake_pipe. cbn [write_fd].
  rewrite (proj2 (Z.eqb_neq wr _)) by (unfold invalid_socket; lia). cbn [negb].
  apply wp_bind, (ctl_sys (Write wr [1])); [done|apply Forall_singleton; simpl; set_solver|].
  intros n. apply wp_ret, wp_bind, wp_bind, wp_mem; [by split|]. intros [] v' (o & Hg & ->).
  cbn [c_fds c_thread c_own c_run]. apply wp_ret, wp_bind, ctl_drop_clients; [done|].
  cbn [listen_sock wake callbacks joinable].
  rewrite (proj2 (Z.eqb_neq ls _)) by (unfold invalid_socket; lia). cbn [negb].
  apply wp_bind, ctl_close_fd; [set_solver|done|].
  replace ({[rd; wr; ls]} ∖ {[ls]} : gset Z) with ({[rd; wr]} : gset Z) by set_solver.
  apply wp_bind, srv_ctl_close_wake_pipe; [done..|]. by apply wp_bind, wp_ret, wp_ret.
Qed.

Lemma srv_ctl_control cmds imp v :
  settled imp v -> cwp (control strerror inet_pton config cmds imp) settled v.
Proof.
  revert imp v. induction cmds as [|[cb|] cmds IH]; intros imp v Hv; cbn [control].
  - by apply wp_ret.
  - apply wp_bind, srv_ctl_start; [done|]. intros r imp' v' Hv'. by apply IH.
  - apply wp_bind, srv_ctl_stop; [done|]. intros imp'. by apply IH.
Qed.
End control.
