(* ===== verification/TcpServerSpec.v ===== *)
(** * TCP server: all threads together

    The I/O thread, the controlling thread and any number of senders interleave
    at every system call and every access to what they share.  [step] is one such
    call of one thread; the kernel and the transceiver answer arbitrarily within
    what they promise ([exec]).  The invariant ties the views of
    [TcpServerThreads] to the shared state. *)

From stdpp Require Import base numbers list gmap sets functions strings pretty.
From Stdlib Require Import ZArith Lia.
From S2P Require Import Prelude CoreError Handler Transceiver SysCalls SocketOps TcpServer TcpServerThreads.

Open Scope Z_scope.

Inductive Tid := Io | Ctl | Snd (i : nat).

(** [running], [clients], the [ClientInfo] objects with their sockets and the
    holders of their mutexes, the holder of [clients_mutex], and the open
    descriptors. *)
Record World := mkWorld {
  w_running : bool;
  w_map : gmap Z Z;
  w_heap : gmap Z (Z * option Tid);
  w_mutex : option Tid;
  w_open : gset Z;
}.

Definition set_running b w := mkWorld b (w_map w) (w_heap w) (w_mutex w) (w_open w).
Definition set_clients m h w := mkWorld (w_running w) m h (w_mutex w) (w_open w).
Definition set_mutex t w := mkWorld (w_running w) (w_map w) (w_heap w) t (w_open w).
Definition set_open o w := mkWorld (w_running w) (w_map w) (w_heap w) (w_mutex w) o.

(** A call of thread [t].  New descriptors and objects are fresh; a mutex is
    granted when it is free; an object that is gone cannot be used; the
    transceiver gives a connection a peer that is not entered, or none. *)
Definition exec (t : Tid) (c : call srv) (w : World) : ans c -> World -> Prop :=
  match c with
  | Sys Socket => fun (x : Z) w' =>
      if x <? 0 then w' = w else (x ∉ w_open w) /\ w' = set_open ({[x]} ∪ w_open w) w
  | Sys (Accept _) => fun x w' =>
      if x.1 <? 0 then w' = w else (x.1 ∉ w_open w) /\ w' = set_open ({[x.1]} ∪ w_open w) w
  | Sys Pipe2 => fun x w' =>
      if x.1 =? 0 then x.2.1 <> x.2.2 /\ 0 <= x.2.1 /\ 0 <= x.2.2
        /\ (x.2.1 ∉ w_open w) /\ (x.2.2 ∉ w_open w)
        /\ w' = set_open ({[x.2.1; x.2.2]} ∪ w_open w) w
      else w' = w
  | Sys (Close fd) => fun _ w' => w' = set_open (w_open w ∖ {[fd]}) w
  | Sys _ => fun _ w' => w' = w
  | Mem LoadRunning => fun x w' => x = w_running w /\ w' = w
  | Mem (StoreRunning b) => fun _ w' => w' = set_running b w
  | Mem (ExchangeRunning b) => fun x w' => x = w_running w /\ w' = set_running b w
  | Mem LockClients => fun _ w' => w_mutex w = None /\ w' = set_mutex (Some t) w
  | Mem UnlockClients => fun _ w' => w' = set_mutex None w
  | Mem (FindClient p) => fun (x : option Z) w' => x = w_map w !! p /\ w' = w
  | Mem ClientsSize => fun (x : Z) w' => x = Z.of_nat (size (w_map w)) /\ w' = w
  | Mem ListClients => fun (x : list (Z * Z)) w' => x ≡ₚ map_to_list (w_map w) /\ w' = w
  | Mem (InsertClient p s) => fun (x : Z) w' => w_heap w !! x = None
      /\ w' = set_clients (<[p := x]> (w_map w))
           (<[x := (s, None)]> (match w_map w !! p with Some a => delete a (w_heap w) | None => w_heap w end)) w
  | Mem (EraseClient p) => fun _ w' => w' = set_clients (delete p (w_map w)) (w_heap w) w
  | Mem ClearClients => fun _ w' =>
      w' = set_clients ∅ (foldr delete (w_heap w) (map_to_list (w_map w)).*2) w
  | Mem (ClientSock a) => fun (x : Z) w' => fst <$> w_heap w !! a = Some x /\ w' = w
  | Mem (LockClient a) => fun _ w' => exists s, w_heap w !! a = Some (s, None)
      /\ w' = set_clients (w_map w) (<[a := (s, Some t)]> (w_heap w)) w
  | Mem (UnlockClient a) => fun _ w' =>
      w' = set_clients (w_map w) (alter (fun e => (e.1, None)) a (w_heap w)) w
  | Mem (FreeClient a) => fun _ w' => w' = set_clients (w_map w) (delete a (w_heap w)) w
  | Mem (OnPeerConnected _) => fun (x : Z) w' => (x = 0 \/ w_map w !! x = None) /\ w' = w
  | Mem (OnPeerDisconnected _ | OnStateChanged _ _ | OnDataReceived _ _) => fun _ w' => w' = w
  | Mem (Spawn _ | Join) => fun _ _ => False
  end.

Section pool.
Variable strerror : Z -> string.
Variable inet_pton : string -> option Z.
Variable config : TcpServerConfig.
Variable fuel : nat.

Abbreviation limit := (max_clients config).

Record Pool := mkPool {
  p_world : World;
  p_io : option (prog srv unit);
  p_ctl : prog srv Impl;
  p_snd : list (prog srv (list (Result unit)));
}.

Inductive step : Pool -> Pool -> Prop :=
  | step_io w c k x w' ctl snd :
      exec Io c w x w' ->
      step (mkPool w (Some (Vis c k)) ctl snd) (mkPool w' (Some (k x)) ctl snd)
  | step_ctl w io c k x w' snd :
      exec Ctl c w x w' ->
      step (mkPool w io (Vis c k) snd) (mkPool w' io (k x) snd)
  | step_snd w io ctl snd i c k x w' :
      snd !! i = Some (Vis c k) -> exec (Snd i) c w x w' ->
      step (mkPool w io ctl snd) (mkPool w' io ctl (<[i := k x]> snd))
  | step_spawn w imp k snd :
      step (mkPool w None (Vis (Mem (Spawn imp)) k) snd)
           (mkPool w (Some (io_loop strerror config fuel imp)) (k tt) snd)
  | step_join w k snd :
      step (mkPool w (Some (Ret tt)) (Vis (Mem Join) k) snd) (mkPool w None (k tt) snd).

Definition world0 : World := mkWorld false ∅ ∅ None ∅.
Definition pool0 (cmds : list Command) (msgs : list (list (PeerId * list Z))) : Pool :=
  mkPool world0 None (control strerror inet_pton config cmds impl0) (send_all strerror fuel <$> msgs).

Definition reachable cmds msgs : Pool -> Prop := rtc step (pool0 cmds msgs).

Definition next (σ : Pool) (t : Tid) : option (call srv) :=
  match t with
  | Io => p_io σ ≫= next_call
  | Ctl => next_call (p_ctl σ)
  | Snd i => p_snd σ !! i ≫= next_call
  end.

(** ** The invariant

    [t] is the owner of the clients, [o] what it knows. *)
Record links (w : World) (o : Own) (t : Tid) (v : CtlView) (vs : nat -> SendView) : Prop := {
  l_running : w_running w = c_run v;
  l_map : w_map w = o_map o;
  l_heap : fst <$> w_heap w = fst <$> o_heap o;
  l_open : forall fd, fd ∈ w_open w <-> own_opens o fd \/ fd ∈ c_fds v;
  l_disj : forall fd, own_opens o fd -> fd ∉ c_fds v;
  l_fd : forall fd a, o_fd o = Some fd -> o_heap o !! a <> Some (fd, true);
  l_inj : forall a b fd, o_heap o !! a = Some (fd, true) -> o_heap o !! b = Some (fd, true) -> a = b;
  l_entries : o_lk o = false -> entries_open o;
  l_objs : forall p a, o_map o !! p = Some a -> is_Some (o_heap o !! a);
  l_limit : Z.of_nat (size (o_map o)) <= limit;
  l_lk : w_mutex w = Some t <-> o_lk o = true;
  l_slk : forall i, w_mutex w = Some (Snd i) <-> s_lk (vs i) = true;
  l_obj : forall a, snd <$> w_heap w !! a = Some (Some t) <-> o_obj o = Some a;
  l_sobj : forall i a, snd <$> w_heap w !! a = Some (Some (Snd i)) <-> s_obj (vs i) = Some a;
  l_held : forall i a, s_obj (vs i) = Some a -> exists s, o_heap o !! a = Some (s, true);
  l_found : forall i a, s_found (vs i) = Some a -> s_lk (vs i) = true /\ exists p, o_map o !! p = Some a;
  l_sock : forall i s, s_sock (vs i) = Some s ->
    exists a, s_obj (vs i) = Some a /\ o_heap o !! a = Some (s, true);
  l_holder : forall t', w_mutex w = Some t' -> t' = t \/ exists i, t' = Snd i;
  l_holders : forall a t', snd <$> w_heap w !! a = Some (Some t') -> t' = t \/ exists i, t' = Snd i;
}.

Section steps.
Context {w w' : World} {o : Own} {t : Tid} {v : CtlView} {vs : nat -> SendView}.

Lemma heap_lookup (L : links w o t v vs) a : fst <$> w_heap w !! a = fst <$> o_heap o !! a.
Proof. rewrite <- !lookup_fmap. by rewrite (l_heap _ _ _ _ _ L). Qed.

(** The owner is not a sender. *)
Hypothesis owner : forall i, t <> Snd i.

Lemma own_accept fds lfd x :
  links w o t v vs -> own_allowed limit fds (Sys (Accept lfd)) o -> exec t (Sys (Accept lfd)) w x w' ->
  exists o', own_learns (Sys (Accept lfd)) o x o' /\ links w' o' t v vs.
Proof.
  intros L [Hfd _] Hx. eexists. split; [done|]. destruct x as [x addr]. simpl in *.
  destruct (x <? 0); [by subst|]. destruct Hx as [Hnew ->]. rewrite (l_open _ _ _ _ _ L) in Hnew.
  assert (Hop : forall fd, own_opens (mkOwn (o_map o) (o_heap o) (Some x) (o_lk o) (o_obj o)) fd
            <-> fd = x \/ own_opens o fd).
  { intros fd. unfold own_opens. simpl. rewrite Hfd. naive_solver. }
  destruct L. constructor; simpl; try done.
  - intros fd. rewrite Hop, elem_of_union, elem_of_singleton, l_open0. tauto.
  - intros fd. rewrite Hop. intros [->|]; [tauto|by apply l_disj0].
  - intros fd a [= <-] Ha. apply Hnew. left. right. by exists a.
Qed.

(** What closing leaves open. *)
Lemma closes_opens fd o' :
  links w o t v vs -> closes o fd = Some o' ->
  own_opens o fd /\ forall z, own_opens o' z <-> own_opens o z /\ z <> fd.
Proof.
  intros L Hc. unfold closes in Hc. case_decide as Hfd; simplify_eq/=.
  - split; [by left|]. intros z. unfold own_opens. simpl. split.
    + intros [|[a Ha]]; [done|]. split; [by right; exists a|]. intros ->. by apply (l_fd _ _ _ _ _ L fd a).
    + intros [[Hz|[a Ha]] Hne]; [congruence|]. right. by exists a.
  - destruct (o_obj o) as [b|]; [|done]. case_decide as Hb; simplify_eq. destruct Hb as [Hb Hlk].
    split; [by right; exists b|]. intros z. unfold own_opens. simpl. split.
    + intros [Hz|[a Ha]].
      * split; [by left|]. intros ->. by apply (l_fd _ _ _ _ _ L fd b).
      * apply lookup_insert_Some in Ha as [[_ ?]|[Hne Ha]]; [done|]. split; [by right; exists a|].
        intros ->. apply Hne. by apply (l_inj _ _ _ _ _ L b a fd).
    + intros [[Hz|[a Ha]] Hne]; [by left|]. right. exists a. rewrite lookup_insert_ne; [done|]. congruence.
Qed.

Lemma own_closed fds fd x :
  links w o t v vs -> own_allowed limit fds (Sys (Close fd)) o -> exec t (Sys (Close fd)) w x w' ->
  exists o', own_learns (Sys (Close fd)) o x o' /\ links w' o' t v vs.
Proof.
  intros L [o' Hc] Hx. exists o'. split; [simpl; by rewrite Hc|]. simpl in Hx. subst w'.
  destruct (closes_opens fd o' L Hc) as [Hown Hop].
  assert (Hopen : forall z, z ∈ w_open w ∖ {[fd]} <-> own_opens o' z \/ z ∈ c_fds v).
  { intros z. rewrite elem_of_difference, elem_of_singleton, Hop, (l_open _ _ _ _ _ L).
    pose proof (l_disj _ _ _ _ _ L fd Hown). naive_solver. }
  assert (Hdisj : forall z, own_opens o' z -> z ∉ c_fds v).
  { intros z Hz. apply Hop in Hz as [Hz _]. by apply (l_disj _ _ _ _ _ L). }
  unfold closes in Hc. case_decide as Hfd; simplify_eq/=; [by destruct L; constructor|].
  destruct (o_obj o) as [b|] eqn:Eb; [|done]. case_decide as Hb; simplify_eq. destruct Hb as [Hb Hlk].
  assert (Hnot : forall i, s_obj (vs i) = Some b -> False).
  { intros i Hi. apply (l_sobj _ _ _ _ _ L) in Hi. apply (l_obj _ _ _ _ _ L) in Eb.
    rewrite Eb in Hi. injection Hi as Hi. by apply (owner i). }
  destruct L. constructor; simpl; try done.
  - rewrite l_heap0, fmap_insert. simpl. symmetry. apply insert_id. by rewrite lookup_fmap, Hb.
  - intros z a Hz Ha. apply lookup_insert_Some in Ha as [[_ ?]|[_ Ha]]; [done|]. by eapply l_fd0.
  - intros a a' z Ha Ha'. apply lookup_insert_Some in Ha as [[_ ?]|[_ Ha]]; [done|].
    apply lookup_insert_Some in Ha' as [[_ ?]|[_ Ha']]; [done|]. by eapply l_inj0.
  - by rewrite Hlk.
  - intros p a Hp. destruct (decide (a = b)) as [->|]; [by rewrite lookup_insert_eq|].
    rewrite lookup_insert_ne by done. by eapply l_objs0.
  - intros a. by rewrite <- Eb.
  - intros i a Hi. destruct (l_held0 _ _ Hi) as [s Hs]. exists s. rewrite lookup_insert_ne; [done|].
    intros ->. by eapply Hnot.
  - intros i s Hi. destruct (l_sock0 _ _ Hi) as (a & Ha & Hs). exists a. split; [done|].
    rewrite lookup_insert_ne; [done|]. intros ->. by eapply Hnot.
Qed.

(** Locks: the owner takes or releases [clients_mutex]. *)
Lemma own_clients_mutex fds m x :
  links w o t v vs -> match m with LockClients | UnlockClients => True | _ => False end ->
  own_allowed limit fds (Mem m) o -> exec t (Mem m) w x w' ->
  exists o', own_learns (Mem m) o x o' /\ links w' o' t v vs.
Proof.
  intros L Hm Hal Hx. destruct m; try done; simpl in Hal, Hx; eexists; (split; [done|]).
  - destruct Hx as [Hfree ->]. destruct L. constructor; simpl; try done; try naive_solver congruence.
  - subst w'. destruct Hal as (Hlk & Hobj & Hent). assert (Ht := proj2 (l_lk _ _ _ _ _ L) Hlk).
    destruct L. constructor; simpl; try done; try naive_solver congruence.
Qed.

(** The mutex of a client. *)
Lemma own_client_mutex fds m x :
  links w o t v vs -> match m with LockClient _ | UnlockClient _ => True | _ => False end ->
  own_allowed limit fds (Mem m) o -> exec t (Mem m) w x w' ->
  exists o', own_learns (Mem m) o x o' /\ links w' o' t v vs.
Proof.
  intros L Hm Hal Hx. destruct m; try done; simpl in Hal, Hx; eexists; (split; [done|]).
  - destruct Hx as (s & Ha & ->), Hal as (Hlk & Hobj & _).
    destruct L. constructor; simpl; try done.
    + rewrite <- l_heap0, fmap_insert. simpl. apply insert_id. by rewrite lookup_fmap, Ha.
    + intros b. destruct (decide (b = a)) as [->|Hne]; [rewrite lookup_insert_eq; naive_solver|].
      rewrite lookup_insert_ne by done. rewrite l_obj0, Hobj. naive_solver.
    + intros i b. destruct (decide (b = a)) as [->|Hne]; [|by rewrite lookup_insert_ne].
      rewrite lookup_insert_eq, <- l_sobj0, Ha. simpl. split; [|done]. intros [= E]. by destruct (owner i).
    + intros b t' Hb. destruct (decide (b = a)) as [->|Hne].
      * rewrite lookup_insert_eq in Hb. simpl in Hb. left. by injection Hb.
      * rewrite lookup_insert_ne in Hb by done. by eapply l_holders0.
  - subst w'. assert (Hmut := proj2 (l_obj _ _ _ _ _ L a) Hal).
    destruct L. constructor; simpl; try done.
    + rewrite <- l_heap0. apply map_eq. intros b. rewrite !lookup_fmap.
      destruct (decide (b = a)) as [->|Hne]; [rewrite lookup_alter_eq|by rewrite lookup_alter_ne].
      by destruct (w_heap w !! a).
    + intros b. destruct (decide (b = a)) as [->|Hne].
      * rewrite lookup_alter_eq. destruct (w_heap w !! a); naive_solver.
      * rewrite lookup_alter_ne, l_obj0 by done. naive_solver.
    + intros i b. destruct (decide (b = a)) as [->|Hne]; [|by rewrite lookup_alter_ne].
      rewrite lookup_alter_eq, <- l_sobj0, Hmut. split.
      * by destruct (w_heap w !! a).
      * intros [= E]. by destruct (owner i).
    + intros b t' Hb. destruct (decide (b = a)) as [->|Hne].
      * rewrite lookup_alter_eq in Hb. by destruct (w_heap w !! a).
      * rewrite lookup_alter_ne in Hb by done. by eapply l_holders0.
Qed.

(** No sender has found an entry while the owner holds [clients_mutex]. *)
Lemma own_alone i a : links w o t v vs -> o_lk o = true -> s_found (vs i) = Some a -> False.
Proof.
  intros L Hlk Hf. destruct (l_found _ _ _ _ _ L _ _ Hf) as [Hi _].
  apply (l_slk _ _ _ _ _ L) in Hi. apply (l_lk _ _ _ _ _ L) in Hlk.
  rewrite Hlk in Hi. injection Hi as Hi. by apply (owner i).
Qed.

Lemma own_insert fds (p s x : Z) :
  links w o t v vs -> own_allowed limit fds (Mem (InsertClient p s)) o ->
  exec t (Mem (InsertClient p s)) w x w' ->
  exists o', own_learns (Mem (InsertClient p s)) o x o' /\ links w' o' t v vs.
Proof.
  intros L (Hlk & Hfd & Hp & Hlim) [Hx Hw]. pose proof (heap_lookup L x) as Ho. rewrite Hx in Ho.
  rewrite (l_map _ _ _ _ _ L), Hp in Hw.
  destruct (o_heap o !! x) eqn:Ex; [done|]. clear Ho. subst w'.
  eexists. split; [done|].
  assert (Hop : forall z, own_opens (mkOwn (<[p := x]> (o_map o)) (<[x := (s, true)]> (o_heap o)) None (o_lk o) (o_obj o)) z
            <-> own_opens o z).
  { intros z. unfold own_opens. simpl. rewrite Hfd. split.
    - intros [|[a Ha]]; [done|]. apply lookup_insert_Some in Ha as [[_ [= <-]]|[_ Ha]]; [by left|].
      right. by exists a.
    - intros [[= <-]|[a Ha]]; right; [exists x; by rewrite lookup_insert_eq|].
      exists a. rewrite lookup_insert_ne; [done|]. congruence. }
  assert (Hne : forall a s', o_heap o !! a = Some s' -> x <> a) by congruence.
  pose proof (own_alone) as Halone. destruct L. constructor; simpl; try done.
  - by rewrite !fmap_insert, l_heap0.
  - intros z. by rewrite Hop, l_open0.
  - intros z. rewrite Hop. apply l_disj0.
  - intros a b z Ha Hb.
    apply lookup_insert_Some in Ha as [[<- [= <-]]|[_ Ha]], Hb as [[Hxb Hb]|[_ Hb]].
    + done.
    + by destruct (l_fd0 s b).
    + subst b. injection Hb as <-. by destruct (l_fd0 s a).
    + by eapply l_inj0.
  - by rewrite Hlk.
  - intros q a Hq. apply lookup_insert_Some in Hq as [[_ <-]|[_ Hq]]; [by rewrite lookup_insert_eq|].
    destruct (l_objs0 _ _ Hq) as [e He]. exists e. rewrite lookup_insert_ne; [done|]. by eapply Hne.
  - rewrite map_size_insert_None by done. lia.
  - intros a. destruct (decide (a = x)) as [->|]; [|by rewrite lookup_insert_ne].
    rewrite lookup_insert_eq, <- l_obj0, Hx. done.
  - intros i a. destruct (decide (a = x)) as [->|]; [|by rewrite lookup_insert_ne].
    rewrite lookup_insert_eq, <- l_sobj0, Hx. done.
  - intros i a Hi. destruct (l_held0 _ _ Hi) as [s' Hs']. exists s'.
    rewrite lookup_insert_ne; [done|]. by eapply Hne.
  - intros i a Hi. destruct (Halone i a); [by constructor|done|done].
  - intros i s' Hi. destruct (l_sock0 _ _ Hi) as (a & Ha & Hs'). exists a. split; [done|].
    rewrite lookup_insert_ne; [done|]. by eapply Hne.
  - intros a t' Ha. destruct (decide (a = x)) as [->|].
    + by rewrite lookup_insert_eq in Ha.
    + rewrite lookup_insert_ne in Ha by done. by eapply l_holders0.
Qed.

Lemma lookup_deleted {A} (h : gmap Z A) D a :
  foldr delete h D !! a = if decide (a ∈ D) then None else h !! a.
Proof. case_decide; [by apply lookup_foldr_delete|by apply lookup_foldr_delete_not_elem_of]. Qed.

(** Destroying objects whose sockets are closed and whose mutexes are free. *)
Lemma links_destroy D m :
  links w o t v vs -> o_obj o = None ->
  (forall a, a ∈ D -> exists s, o_heap o !! a = Some (s, false)) ->
  (forall p a, m !! p = Some a -> o_map o !! p = Some a /\ a ∉ D) -> (size m <= size (o_map o))%nat ->
  (forall i a, s_found (vs i) = Some a -> exists p, m !! p = Some a) ->
  links (set_clients m (foldr delete (w_heap w) D) w)
        (mkOwn m (foldr delete (o_heap o) D) (o_fd o) (o_lk o) (o_obj o)) t v vs.
Proof.
  intros L Hobj HD Hm Hsize Hfound.
  assert (Hlive : forall a z, o_heap o !! a = Some (z, true) -> a ∉ D).
  { intros a z Ha Hin. destruct (HD _ Hin). congruence. }
  assert (Hop : forall z, own_opens (mkOwn m (foldr delete (o_heap o) D) (o_fd o) (o_lk o) (o_obj o)) z
            <-> own_opens o z).
  { intros z. unfold own_opens. simpl. split; (intros [|[a Ha]]; [by left|right; exists a]).
    - rewrite lookup_deleted in Ha. by case_decide.
    - rewrite lookup_deleted, decide_False; [done|]. by eapply Hlive. }
  destruct L. constructor; simpl; try done.
  - apply map_eq. intros a. rewrite !lookup_fmap, !lookup_deleted. case_decide; [done|].
    by rewrite <- !lookup_fmap, l_heap0.
  - intros z. by rewrite Hop, l_open0.
  - intros z. rewrite Hop. apply l_disj0.
  - intros z a Hz. rewrite lookup_deleted. case_decide; [done|]. by apply l_fd0.
  - intros a b z. rewrite !lookup_deleted. do 2 (case_decide; [done|]). apply l_inj0.
  - intros Hlk p a Hp. simpl in *. destruct (Hm _ _ Hp) as [Hp' HnD]. rewrite lookup_deleted, decide_False by done.
    by eapply l_entries0.
  - intros p a Hp. destruct (Hm _ _ Hp) as [Hp' HnD]. rewrite lookup_deleted, decide_False by done.
    by eapply l_objs0.
  - lia.
  - intros a. rewrite lookup_deleted. case_decide; [|by apply l_obj0]. rewrite Hobj. done.
  - intros i a. rewrite lookup_deleted. case_decide as Ha; [|by apply l_sobj0]. split; [done|].
    intros Hi. destruct (l_held0 _ _ Hi) as [z Hz]. by destruct (Hlive _ _ Hz).
  - intros i a Hi. destruct (l_held0 _ _ Hi) as [z Hz]. exists z.
    rewrite lookup_deleted, decide_False; [done|]. by eapply Hlive.
  - intros i a Hi. split; [by eapply l_found0|]. by eapply Hfound.
  - intros i z Hi. destruct (l_sock0 _ _ Hi) as (a & Ha & Hz). exists a. split; [done|].
    rewrite lookup_deleted, decide_False; [done|]. by eapply Hlive.
  - intros a t'. rewrite lookup_deleted. case_decide; [done|]. apply l_holders0.
Qed.

Lemma own_erase fds p x :
  links w o t v vs -> own_allowed limit fds (Mem (EraseClient p)) o ->
  exec t (Mem (EraseClient p)) w x w' ->
  exists o', own_learns (Mem (EraseClient p)) o x o' /\ links w' o' t v vs.
Proof.
  intros L Hlk Hx. simpl in Hlk, Hx. subst w'. eexists. split; [done|]. rewrite (l_map _ _ _ _ _ L).
  pose proof (fun i a => own_alone i a L Hlk) as Halone.
  destruct L. constructor; simpl; try done.
  - by rewrite Hlk.
  - intros q a Hq. apply lookup_delete_Some in Hq as [_ Hq]. by eapply l_objs0.
  - rewrite map_size_delete. destruct (o_map o !! p); simpl; lia.
  - intros i a Hi. by destruct (Halone i a).
Qed.

Lemma own_clear fds x :
  links w o t v vs -> own_allowed limit fds (Mem ClearClients) o -> exec t (Mem ClearClients) w x w' ->
  exists o', own_learns (Mem ClearClients) o x o' /\ links w' o' t v vs.
Proof.
  intros L (Hlk & Hobj & Hcl) Hx. simpl in Hx. subst w'. eexists. split; [done|].
  rewrite (l_map _ _ _ _ _ L). apply links_destroy; try done.
  - intros a Ha. apply list_elem_of_fmap in Ha as ([p b] & -> & Hp). apply elem_of_map_to_list in Hp. by eapply Hcl.
  - rewrite map_size_empty. lia.
  - intros i a Hi. by destruct (own_alone i a L Hlk).
Qed.

Lemma own_free fds a x :
  links w o t v vs -> own_allowed limit fds (Mem (FreeClient a)) o -> exec t (Mem (FreeClient a)) w x w' ->
  exists o', own_learns (Mem (FreeClient a)) o x o' /\ links w' o' t v vs.
Proof.
  intros L (Hobj & Hcl & Hp) Hx. simpl in Hx. subst w'. eexists. split; [done|].
  rewrite (l_map _ _ _ _ _ L). apply (links_destroy [a]); try done.
  - by intros b ->%list_elem_of_singleton.
  - intros p b Hb. split; [done|]. intros ->%list_elem_of_singleton. by destruct (Hp p).
  - intros i b Hb. by destruct (l_found _ _ _ _ _ L _ _ Hb).
Qed.

(** Every call of the owner keeps the invariant. *)
Lemma own_step fds c x :
  links w o t v vs -> own_allowed limit fds c o -> exec t c w x w' ->
  exists o', own_learns c o x o' /\ links w' o' t v vs.
Proof.
  intros L Hal Hx. destruct c as [c|m]; [destruct c|destruct m]; try done.
  all: try (by exists o; simpl in Hx; subst w').
  all: try (by eapply own_accept); try (by eapply own_closed); try (by eapply own_clients_mutex).
  all: try (by eapply own_client_mutex); try (by eapply own_insert); try (by eapply own_erase).
  all: try (by eapply own_clear); try (by eapply own_free).
  all: destruct Hx as [Hx ->]; exists o; split; try done; simpl in Hx |- *.
  all: try (rewrite <- (l_map _ _ _ _ _ L)); try done.
  rewrite <- (heap_lookup L). done.
Qed.

(** A statement on every sender after the view of sender [i] has changed. *)
Ltac per_sender i :=
  let j := fresh "j" in
  intros j; destruct (decide (j = i)) as [->|];
  [rewrite fn_lookup_insert; simpl|rewrite fn_lookup_insert_ne by done]; try done; eauto.

(** A sender learns something without changing the shared state. *)
Lemma srv_links_sender i v1 :
  links w o t v vs -> s_lk v1 = s_lk (vs i) -> s_obj v1 = s_obj (vs i) ->
  (forall a, s_found v1 = Some a -> s_lk v1 = true /\ exists p, o_map o !! p = Some a) ->
  (forall z, s_sock v1 = Some z -> exists a, s_obj v1 = Some a /\ o_heap o !! a = Some (z, true)) ->
  links w o t v (<[i := v1]> vs).
Proof.
  intros [] Hlk Hobj Hf Hs. constructor; try done; per_sender i.
  - by rewrite Hlk.
  - intros a. by rewrite Hobj.
  - intros a. rewrite Hobj. eauto.
Qed.

Lemma snd_clients_mutex i m x :
  links w o t v vs -> match m with LockClients | UnlockClients => True | _ => False end ->
  send_allowed (Mem m) (vs i) -> exec (Snd i) (Mem m) w x w' ->
  exists v', send_learns (Mem m) (vs i) x v' /\ links w' o t v (<[i := v']> vs).
Proof.
  intros L Hm Hal Hx. destruct m; try done; simpl in Hal, Hx; eexists; (split; [done|]).
  - destruct Hx as [Hfree ->], L. constructor; simpl; try done; try per_sender i;
      try naive_solver congruence.
  - subst w'. assert (Ht := proj2 (l_slk _ _ _ _ _ L i) Hal).
    destruct L. constructor; simpl; try done; try per_sender i; try naive_solver congruence.
Qed.

(** A client found under [clients_mutex] has an open socket. *)
Lemma found_open i a :
  links w o t v vs -> s_found (vs i) = Some a -> exists z, o_heap o !! a = Some (z, true).
Proof.
  intros L Hf. destruct (l_found _ _ _ _ _ L _ _ Hf) as [Hi [p Hp]].
  apply (l_entries _ _ _ _ _ L) with p; [|done]. apply not_true_is_false. intros Hlk.
  by apply (own_alone i a L).
Qed.

Lemma snd_client_mutex i m x :
  links w o t v vs -> match m with LockClient _ | UnlockClient _ => True | _ => False end ->
  send_allowed (Mem m) (vs i) -> exec (Snd i) (Mem m) w x w' ->
  exists v', send_learns (Mem m) (vs i) x v' /\ links w' o t v (<[i := v']> vs).
Proof.
  intros L Hm Hal Hx. destruct m; try done; simpl in Hal, Hx; eexists; (split; [done|]).
  - destruct Hx as (s & Ha & ->), Hal as (Hlk & Hf & Hobj). pose proof (found_open i a L Hf) as Hopen.
    destruct L. constructor; simpl; try done; try per_sender i.
    + rewrite <- l_heap0, fmap_insert. simpl. apply insert_id. by rewrite lookup_fmap, Ha.
    + intros b. destruct (decide (b = a)) as [->|]; [|by rewrite lookup_insert_ne].
      rewrite lookup_insert_eq, <- l_obj0, Ha. simpl. split; [|done]. intros [= E]. by destruct (owner i).
    + intros b. destruct (decide (b = a)) as [->|]; [rewrite lookup_insert_eq; naive_solver|].
      rewrite lookup_insert_ne, l_sobj0, Hobj by done. naive_solver.
    + intros b. destruct (decide (b = a)) as [->|]; [|by rewrite lookup_insert_ne].
      rewrite lookup_insert_eq, <- l_sobj0, Ha. simpl. naive_solver.
    + intros b [= <-]. done.
    + intros z Hz. destruct (l_sock0 _ _ Hz) as (b & Hb & _). congruence.
    + intros b t' Hb. destruct (decide (b = a)) as [->|].
      * rewrite lookup_insert_eq in Hb. simpl in Hb. injection Hb as <-. eauto.
      * rewrite lookup_insert_ne in Hb by done. by eapply l_holders0.
  - subst w'. assert (Hmut := proj2 (l_sobj _ _ _ _ _ L i a) Hal).
    destruct L. constructor; simpl; try done; try per_sender i.
    + rewrite <- l_heap0. apply map_eq. intros b. rewrite !lookup_fmap.
      destruct (decide (b = a)) as [->|Hne]; [rewrite lookup_alter_eq|by rewrite lookup_alter_ne].
      by destruct (w_heap w !! a).
    + intros b. destruct (decide (b = a)) as [->|]; [|by rewrite lookup_alter_ne].
      rewrite lookup_alter_eq, <- l_obj0, Hmut. split; [by destruct (w_heap w !! a)|].
      intros [= E]. by destruct (owner i).
    + intros b. destruct (decide (b = a)) as [->|].
      * rewrite lookup_alter_eq. destruct (w_heap w !! a); naive_solver.
      * rewrite lookup_alter_ne, l_sobj0 by done. naive_solver.
    + intros b. destruct (decide (b = a)) as [->|]; [|by rewrite lookup_alter_ne].
      rewrite lookup_alter_eq, <- l_sobj0, Hmut. split; [by destruct (w_heap w !! a)|]. intros [= E]. congruence.
    + intros b t' Hb. destruct (decide (b = a)) as [->|].
      * rewrite lookup_alter_eq in Hb. by destruct (w_heap w !! a).
      * rewrite lookup_alter_ne in Hb by done. by eapply l_holders0.
Qed.

Lemma srv_snd_step i c x :
  links w o t v vs -> send_allowed c (vs i) -> exec (Snd i) c w x w' ->
  exists v', send_learns c (vs i) x v' /\ links w' o t v (<[i := v']> vs).
Proof.
  intros L Hal Hx. destruct c as [c|m]; [destruct c|destruct m]; try done.
  all: try (by eapply snd_clients_mutex); try (by eapply snd_client_mutex).
  - simpl in Hx. subst w'. exists (vs i). split; [done|]. by apply srv_links_sender; [|..|apply L|apply L].
  - simpl in Hx. subst w'. exists (vs i). split; [done|]. by apply srv_links_sender; [|..|apply L|apply L].
  - destruct Hx as [-> ->]. eexists. split; [done|]. rewrite (l_map _ _ _ _ _ L).
    apply srv_links_sender; simpl; try done; [|apply L]. intros a Ha. split; [done|]. by exists id.
  - destruct Hx as [Hx ->]. eexists. split; [done|]. apply srv_links_sender; simpl; try done; [apply L|].
    intros z [= <-]. exists a. split; [done|]. destruct (l_held _ _ _ _ _ L _ _ Hal) as [z Hz].
    simpl in Hx. rewrite (heap_lookup L), Hz in Hx. by injection Hx as <-.
Qed.
End steps.

Definition owner_of (v : CtlView) : Tid := match c_thread v with Some _ => Io | None => Ctl end.

Lemma owner_not_sender v i : owner_of v <> Snd i.
Proof. unfold owner_of. by destruct (c_thread v). Qed.

(** The descriptors of the controlling thread change. *)
Lemma links_fds w o t v vs r F O :
  links w o t v vs -> r = c_run v ->
  (forall z, z ∈ O <-> own_opens o z \/ z ∈ F) -> (forall z, own_opens o z -> z ∉ F) ->
  links (set_open O w) o t (mkCtl r F (c_thread v) (c_own v)) vs.
Proof. intros [] -> HO HF. by constructor. Qed.

Lemma ctl_fds w w' o v vs c x :
  links w o (owner_of v) v vs -> c_thread v = None -> o = c_own v ->
  match c with Sys (Socket | Pipe2 | Close _) => True | _ => False end ->
  ctl_allowed limit c v -> exec Ctl c w x w' ->
  exists v', ctl_learns limit c v x v' /\ links w' (c_own v') (owner_of v') v' vs /\ c_thread v' = None.
Proof.
  intros L Hth Ho Hc Hal Hx. pose proof (l_open _ _ _ _ _ L) as Hop. pose proof (l_disj _ _ _ _ _ L) as Hdj.
  assert (Hown : owner_of v = Ctl) by (unfold owner_of; by rewrite Hth).
  subst o. destruct c as [[]|]; try done; simpl in Hal, Hx.
  - eexists. split; [done|]. destruct (x <? 0); [by subst|]. destruct Hx as [Hnew ->].
    split; [|done]. unfold owner_of. simpl. rewrite Hop in Hnew.
    apply links_fds; [done|done| |]; intros z.
    + rewrite elem_of_union, Hop. set_solver.
    + intros Hz. specialize (Hdj z Hz). set_solver.
  - destruct (closes (c_own v) fd) as [o'|] eqn:Ec.
    + destruct (own_closed (w' := w') (owner_not_sender v) ∅ fd x L) as (o1 & Ho1 & L1); [by simpl; rewrite Ec|by rewrite Hown|].
      simpl in Ho1. rewrite Ec in Ho1. simpl in Ho1. subst o1.
      exists (with_own o' v). simpl. rewrite Ec. split; [done|]. split; [|done]. by destruct L1; constructor.
    + destruct Hal as [_ [[? ?]|Hfd]]; [congruence|]. subst w'. eexists. split; [done|]. simpl. rewrite Ec.
      split; [|done]. unfold owner_of. simpl. apply links_fds; [done|done| |]; intros z.
      * rewrite elem_of_difference, Hop. specialize (Hdj z). set_solver.
      * intros Hz. specialize (Hdj z Hz). set_solver.
  - destruct x as [r [a b]]. simpl in *. destruct (r =? 0) eqn:Er; [|by exists v; subst].
    destruct Hx as (Hab & Ha & Hb & Hna & Hnb & ->). rewrite Hop in Hna, Hnb.
    eexists. split; [repeat split; try done; tauto|]. simpl.
    split; [|done]. unfold owner_of. simpl. apply links_fds; [done|done| |]; intros z.
    + rewrite !elem_of_union, Hop. set_solver.
    + intros Hz. specialize (Hdj z Hz). set_solver.
Qed.

Lemma srv_ctl_step w w' o v vs c x :
  links w o (owner_of v) v vs -> (c_thread v = None -> o = c_own v) ->
  ctl_allowed limit c v -> exec Ctl c w x w' ->
  exists v' o', ctl_learns limit c v x v' /\ links w' o' (owner_of v') v' vs
    /\ c_thread v' = c_thread v
    /\ (c_thread v = None -> o' = c_own v')
    /\ (is_Some (c_thread v) -> o' = o /\ c_fds v' = c_fds v).
Proof.
  intros L Ho Hal Hx.
  assert (Hrun : forall b, links (set_running b w) o (owner_of v) (mkCtl b (c_fds v) (c_thread v) (c_own v)) vs).
  { intros b. by destruct L; constructor. }
  assert (Hself : v = with_own (c_own v) v) by by destruct v.
  destruct (c_thread v) as [imp|] eqn:Eth.
  - exists (match c with Mem (StoreRunning b | ExchangeRunning b) => mkCtl b (c_fds v) (c_thread v) (c_own v)
            | _ => v end), o.
    destruct c as [c|m]; [destruct c|destruct m]; simpl in Hal, Hx; try done; try (by destruct Hal);
      rewrite ?Eth in *; try done; try (by destruct Hal).
    all: try (subst w'; split; [by exists (c_own v)|done]).
    all: try (destruct Hx as [-> ->]; split; [by split; [apply L|]|done]).
    all: unfold owner_of in *; rewrite Eth in *.
    + subst w'. split; [simpl; by rewrite Eth|]. split; [apply Hrun|done].
    + destruct Hx as [-> ->]. split; [split; [apply L|by rewrite Eth]|]. split; [apply Hrun|done].
  - specialize (Ho eq_refl). subst o.
    assert (Hown : owner_of v = Ctl) by (unfold owner_of; by rewrite Eth).
    assert (Hdone : forall v', ctl_learns limit c v x v' -> links w' (c_own v') (owner_of v') v' vs ->
      c_thread v' = None -> exists v' o', ctl_learns limit c v x v' /\ links w' o' (owner_of v') v' vs
      /\ c_thread v' = None /\ (@None Impl = None -> o' = c_own v')
      /\ (is_Some (@None Impl) -> o' = c_own v /\ c_fds v' = c_fds v)).
    { intros v' ???. exists v', (c_own v'). split; [done|]. split; [done|]. split; [done|].
      split; [done|]. by intros [? ?]. }
    destruct (match c with Sys (Socket | Pipe2 | Close _) => true | _ => false end) eqn:Ec.
    { destruct (ctl_fds w w' _ v vs c x L Eth eq_refl) as (v' & Hl & L' & Hth);
        [by destruct c as [[]|]|done|done|]. by apply (Hdone v'). }
    destruct c as [c|m].
    + exists v, (c_own v). assert (w' = w) as -> by (destruct c; done).
      split; [destruct c; simpl in Hal; try done; by exists (c_own v)|].
      split; [done|]. split; [done|]. split; [done|]. by intros [? ?].
    + destruct (match m with LoadRunning | StoreRunning _ | ExchangeRunning _ => true | _ => false end) eqn:Em.
      * destruct m; try done; simpl in Hx; [destruct Hx as [-> ->]|subst w'|destruct Hx as [-> ->]].
        -- apply (Hdone v); [by split; [apply L|]|done|done].
        -- apply (Hdone (mkCtl b (c_fds v) None (c_own v))); [by simpl; rewrite Eth| |done].
           specialize (Hrun b). by rewrite Hown in Hrun.
        -- apply (Hdone (mkCtl b (c_fds v) None (c_own v))); [by simpl; rewrite Eth; split; [apply L|]| |done].
           specialize (Hrun b). by rewrite Hown in Hrun.
      * assert (Hal' : own_allowed limit ∅ (Mem m) (c_own v)) by (destruct m; try done; apply Hal).
        destruct (own_step (w' := w') (owner_not_sender v) ∅ (Mem m) x L Hal') as (o' & Hl & L'); [by rewrite Hown|].
        apply (Hdone (with_own o' v)); [|by destruct L'; constructor|done].
        destruct m; try done; by exists o'.
Qed.

(** ** Reachable states *)

Definition io_fds (imp : Impl) : gset Z := {[listen_sock imp; read_fd (wake imp)]}.

Definition io_inv (p : option (prog srv unit)) (o : Own) (v : CtlView) : Prop :=
  match p, c_thread v with
  | Some p, Some imp => wp (own_rules limit (io_fds imp)) p (fun _ => tidy limit) o /\ io_fds imp ⊆ c_fds v
  | None, None => o = c_own v
  | _, _ => False
  end.

Definition Inv (σ : Pool) : Prop :=
  exists o v vs,
    links (p_world σ) o (owner_of v) v vs
    /\ wp (ctl_rules limit) (p_ctl σ) settled v
    /\ io_inv (p_io σ) o v
    /\ forall i p, p_snd σ !! i = Some p -> wp send_rules p (fun _ v => v = send_view0) (vs i).

Hypothesis limit_nonneg : 0 <= limit.

Lemma srv_Inv_init cmds msgs : Inv (pool0 cmds msgs).
Proof.
  exists own0, (mkCtl false ∅ None own0), (fun _ => send_view0). split; [|split; [|split]].
  - assert (He : forall z, ~ own_opens own0 z).
    { intros z [|[a Ha]]; [done|]. simpl in Ha. by rewrite lookup_empty in Ha. }
    constructor; simpl; try done; try (intros *; by rewrite lookup_empty).
    + intros z. specialize (He z). set_solver.
  - by apply srv_ctl_control.
  - done.
  - intros i p Hp. simpl in Hp. rewrite list_lookup_fmap in Hp.
    destruct (msgs !! i); simplify_eq/=. apply srv_snd_send_all.
Qed.

Lemma links_owner w o t t' v v' vs :
  links w o t v vs -> tidy limit o -> c_run v' = c_run v -> c_fds v' = c_fds v ->
  (forall i, t' <> Snd i) -> links w o t' v' vs.
Proof.
  intros L [Hfd Hlk Hobj _ _ _ _] Hr Hf Ht. destruct L.
  assert (Hm : w_mutex w <> Some t') .
  { intros E. destruct (l_holder0 _ E) as [->|[i ->]]; [|by apply (Ht i)].
    apply l_lk0 in E. congruence. }
  assert (Hh : forall a, snd <$> w_heap w !! a <> Some (Some t')).
  { intros a E. destruct (l_holders0 _ _ E) as [->|[i ->]]; [|by apply (Ht i)].
    apply l_obj0 in E. congruence. }
  constructor; try done.
  - congruence.
  - by rewrite Hf.
  - by rewrite Hf.
  - rewrite Hlk. naive_solver.
  - intros a. rewrite Hobj. split; [|done]. intros E. by destruct (Hh a).
  - intros t1 E. destruct (l_holder0 _ E) as [->|]; [|by right]. apply l_lk0 in E. congruence.
  - intros a t1 E. destruct (l_holders0 _ _ E) as [->|]; [|by right]. apply l_obj0 in E. congruence.
Qed.

Lemma srv_Inv_step σ σ' : Inv σ -> step σ σ' -> Inv σ'.
Proof.
  intros (o & v & vs & L & Hctl & Hio & Hsnd) Hstep. destruct Hstep; simpl in *.
  - unfold io_inv in Hio. destruct (c_thread v) as [imp|] eqn:Eth; [|done]. destruct Hio as [[Hal Hk] Hfds].
    assert (Hown : owner_of v = Io) by (unfold owner_of; by rewrite Eth).
    destruct (own_step (w' := w') (owner_not_sender v) _ _ x L Hal) as (o' & Hl & L'); [by rewrite Hown|].
    exists o', v, vs. split; [done|]. split; [done|]. split; [|done]. unfold io_inv. simpl. rewrite Eth.
    split; [by apply Hk|done].
  - destruct Hctl as [Hal Hk].
    assert (Ho : c_thread v = None -> o = c_own v).
    { intros E. unfold io_inv in Hio. rewrite E in Hio. by destruct io. }
    destruct (srv_ctl_step _ w' _ _ _ _ x L Ho Hal H) as (v' & o' & Hl & L' & Hth & Hno & Hyes).
    exists o', v', vs. split; [done|]. split; [by apply Hk|]. split; [|done].
    unfold io_inv in Hio |- *. rewrite Hth. destruct io as [p|], (c_thread v) as [imp|]; try done.
    + destruct Hyes as [-> Hf]; [done|]. by rewrite Hf.
    + by apply Hno.
  - destruct (Hsnd _ _ H) as [Hal Hk].
    destruct (srv_snd_step (w' := w') (owner_not_sender v) i _ _ L Hal H0) as (v' & Hl & L').
    exists o, v, (<[i := v']> vs). split; [done|]. split; [done|]. split; [done|].
    intros j p Hp. simpl in Hp. destruct (decide (j = i)) as [->|].
    + rewrite list_lookup_insert_eq in Hp by (by eapply lookup_lt_Some). simplify_eq.
      rewrite fn_lookup_insert. by apply Hk.
    + rewrite list_lookup_insert_ne in Hp by done. rewrite fn_lookup_insert_ne by done. by apply Hsnd.
  - destruct Hctl as [(Hth & Htidy & Hls & Hrd) Hk]. unfold io_inv in Hio. rewrite Hth in Hio. subst o.
    exists (c_own v), (mkCtl (c_run v) (c_fds v) (Some imp) (c_own v)), vs.
    split; [by eapply links_owner|]. split; [by apply Hk|]. split; [|done].
    split; [apply own_io_loop; unfold io_fds; try done; set_solver|unfold io_fds; simpl; set_solver].
  - destruct Hctl as [[[imp Hth] Hrun] Hk]. unfold io_inv in Hio. rewrite Hth in Hio. destruct Hio as [Htidy _].
    exists o, (mkCtl (c_run v) (c_fds v) None o), vs.
    split; [by eapply links_owner|]. split; [|done]. apply Hk. by exists o.
Qed.

Lemma srv_reachable_inv cmds msgs σ : reachable cmds msgs σ -> Inv σ.
Proof.
  intros Hr. assert (Inv (pool0 cmds msgs)) as H0 by apply srv_Inv_init.
  induction Hr as [|σ1 σ2 σ3 Hs _ IH]; [done|]. apply IH. by eapply srv_Inv_step.
Qed.
End pool.
