(* ===== verification/TcpServerSafety.v ===== *)
(** * TCP server: what no interleaving can do

    From the invariant of [TcpServerSpec]: no thread uses a descriptor that is
    closed, an object that is destroyed or the map without its mutex, whatever
    the order of the threads and the answers of the kernel.  Then a scheduler
    that runs the threads in a given order, and two runs of it. *)

From stdpp Require Import base numbers list gmap sets functions strings pretty.
From Stdlib Require Import ZArith Lia.
From S2P Require Import Prelude CoreError Handler Transceiver SysCalls SocketOps TcpServer TcpServerThreads TcpServerSpec.

Open Scope Z_scope.

(** A thread that holds no mutex. *)
Definition holds_nothing (t : Tid) (w : World) : Prop :=
  w_mutex w <> Some t /\ forall a s, w_heap w !! a <> Some (s, Some t).

(** The object at [a] is there, and nobody holds its mutex. *)
Definition unlocked (a : Z) (w : World) : Prop := exists s, w_heap w !! a = Some (s, None).

(** What a call needs to be defined and race free: open descriptors, objects that
    are alive, the mutex that guards what it touches, no mutex locked twice by
    one thread and none held during a callback. *)
Definition permitted (limit : Z) (t : Tid) (c : call srv) (w : World) : Prop :=
  match c with
  | Sys (Send fd _) => fd ∈ w_open w /\ exists a, w_heap w !! a = Some (fd, Some t)
  | Sys c => Forall (.∈ w_open w) (descriptors c)
  | Mem (FindClient _ | ClientsSize | ListClients | EraseClient _ | UnlockClients) => w_mutex w = Some t
  | Mem (InsertClient p s) => w_mutex w = Some t /\ s ∈ w_open w /\ w_map w !! p = None
      /\ Z.of_nat (size (w_map w)) < limit
  | Mem ClearClients => w_mutex w = Some t /\ forall p a, w_map w !! p = Some a -> unlocked a w
  | Mem (ClientSock a) => is_Some (w_heap w !! a)
  | Mem (LockClient a) => w_mutex w = Some t /\ is_Some (w_heap w !! a)
      /\ forall b s, w_heap w !! b <> Some (s, Some t)
  | Mem (UnlockClient a) => exists s, w_heap w !! a = Some (s, Some t)
  | Mem (FreeClient a) => unlocked a w /\ forall p, w_map w !! p <> Some a
  | Mem (LockClients | OnPeerConnected _ | OnPeerDisconnected _ | OnStateChanged _ _ | OnDataReceived _ _) =>
      holds_nothing t w
  | Mem (LoadRunning | StoreRunning _ | ExchangeRunning _ | Spawn _ | Join) => True
  end.

Section safety.
Variable config : TcpServerConfig.

Abbreviation limit := (max_clients config).

Section calls.
Context {w : World} {o : Own} {t : Tid} {v : CtlView} {vs : nat -> SendView}.
Hypothesis L : links config w o t v vs.

Lemma holder_none t' s a :
  w_heap w !! a = Some (s, Some t') -> t' = t /\ o_obj o = Some a \/ exists i, t' = Snd i /\ s_obj (vs i) = Some a.
Proof.
  intros Ha. assert (E : snd <$> w_heap w !! a = Some (Some t')) by by rewrite Ha.
  destruct (l_holders _ _ _ _ _ _ L _ _ E) as [->|[i ->]].
  - left. split; [done|]. by apply (l_obj _ _ _ _ _ _ L).
  - right. exists i. split; [done|]. by apply (l_sobj _ _ _ _ _ _ L).
Qed.

Lemma object_alive a : is_Some (o_heap o !! a) -> is_Some (w_heap w !! a).
Proof.
  intros [e He]. pose proof (heap_lookup _ L a) as E. rewrite He in E.
  by destruct (w_heap w !! a).
Qed.

(** An object with a closed socket is not locked by anybody else. *)
Lemma closed_unlocked a s : o_heap o !! a = Some (s, false) -> o_obj o = None -> unlocked a w.
Proof.
  intros Ha Ho. destruct (object_alive a) as [[s' [t'|]] E]; [by rewrite Ha| |by exists s'].
  exfalso. destruct (holder_none _ _ _ E) as [[_ ?]|(i & _ & Hi)]; [congruence|].
  destruct (l_held _ _ _ _ _ _ L _ _ Hi) as [s1 Hs1]. congruence.
Qed.

Lemma held_by_owner a : o_obj o = Some a -> exists s, w_heap w !! a = Some (s, Some t).
Proof.
  intros Ha. apply (l_obj _ _ _ _ _ _ L) in Ha.
  destruct (w_heap w !! a) as [[s m]|]; simplify_eq/=. by exists s.
Qed.

Lemma held_by_sender i a : s_obj (vs i) = Some a -> exists s, w_heap w !! a = Some (s, Some (Snd i)).
Proof.
  intros Ha. apply (l_sobj _ _ _ _ _ _ L) in Ha.
  destruct (w_heap w !! a) as [[s m]|]; simplify_eq/=. by exists s.
Qed.

Lemma owner_unlocked_objects : o_obj o = None -> (forall i, t <> Snd i) ->
  forall b s, w_heap w !! b <> Some (s, Some t).
Proof.
  intros Ho Ht b s E. destruct (holder_none _ _ _ E) as [[_ ?]|(i & Hi & _)]; [congruence|].
  by apply (Ht i).
Qed.

Lemma owner_holds_nothing :
  o_lk o = false -> o_obj o = None -> (forall i, t <> Snd i) -> holds_nothing t w.
Proof.
  intros Hlk Ho Ht. split; [|by apply owner_unlocked_objects].
  rewrite (l_lk _ _ _ _ _ _ L), Hlk. done.
Qed.

Lemma own_permitted fds c :
  (forall i, t <> Snd i) -> fds ⊆ w_open w -> own_allowed limit fds c o -> permitted limit t c w.
Proof.
  intros Ht Hfds Hal.
  assert (Hop : forall fd, own_opens o fd \/ fd ∈ fds -> fd ∈ w_open w).
  { intros fd [?|?]; [apply (l_open _ _ _ _ _ _ L); by left|by apply Hfds]. }
  assert (Hlk := l_lk _ _ _ _ _ _ L). assert (Hmap := l_map _ _ _ _ _ _ L).
  destruct c as [c|m].
  - destruct c; simpl in Hal |- *; try done.
    all: try (eapply Forall_impl; [exact Hal|]; intros ?; apply Hop).
    + apply Forall_singleton. destruct Hal as [_ ?]. by apply Hop; right.
    + apply Forall_singleton. destruct Hal as [o' Ho']. by destruct (closes_opens config fd o' L Ho') as [? _]; apply Hop; left.
  - destruct m; simpl in Hal |- *; try done; try (by apply Hlk).
    all: try (by apply owner_holds_nothing; first [done|apply Hal]).
    + apply Hlk, Hal.
    + destruct Hal as (? & ? & ? & ?). rewrite Hmap. split; [by apply Hlk|].
      split; [by apply Hop; left; left|done].
    + destruct Hal as (? & ? & Hc). rewrite Hmap. split; [by apply Hlk|].
      intros p a Hp. destruct (Hc _ _ Hp) as [s Hs]. by apply (closed_unlocked a s).
    + by apply object_alive.
    + destruct Hal as (? & ? & ?). split; [by apply Hlk|]. split; [by apply object_alive|].
      by apply owner_unlocked_objects.
    + by apply held_by_owner.
    + destruct Hal as (? & [s Hs] & ?). rewrite Hmap. split; [by apply (closed_unlocked a s)|done].
Qed.

Lemma snd_permitted i c :
  (forall i, t <> Snd i) -> send_allowed c (vs i) -> permitted limit (Snd i) c w.
Proof.
  intros Ht Hal. assert (Hlk := l_slk _ _ _ _ _ _ L i).
  assert (Hnone : s_obj (vs i) = None -> forall b s, w_heap w !! b <> Some (s, Some (Snd i))).
  { intros Ho b s E. destruct (holder_none _ _ _ E) as [[? _]|(j & [= <-] & ?)]; [by apply (Ht i)|congruence]. }
  destruct c as [c|m]; [destruct c|destruct m]; simpl in Hal |- *; try done; try (by apply Hlk).
  - destruct (l_sock _ _ _ _ _ _ L _ _ Hal) as (a & Ha & Hs). split.
    + apply (l_open _ _ _ _ _ _ L). left. right. by exists a.
    + exists a. destruct (held_by_sender i a Ha) as [s E]. pose proof (heap_lookup _ L a) as E'.
      rewrite E, Hs in E'. simplify_eq/=. done.
  - split; [|by apply Hnone, Hal]. rewrite Hlk. destruct Hal as [-> _]. done.
  - destruct (held_by_sender i a Hal) as [s E]. by rewrite E.
  - destruct Hal as (Hl & Hf & Ho). split; [by apply Hlk|]. split; [|by apply Hnone].
    destruct (l_found _ _ _ _ _ _ L _ _ Hf) as (_ & p & Hp).
    apply object_alive. by apply (l_objs _ _ _ _ _ _ L p).
  - by apply held_by_sender.
Qed.
End calls.

Lemma ctl_permitted w o v vs c :
  links config w o (owner_of v) v vs -> (c_thread v = None -> o = c_own v) ->
  ctl_allowed limit c v -> permitted limit Ctl c w.
Proof.
  intros L Ho Hal.
  assert (Hfds : forall fd, fd ∈ c_fds v -> fd ∈ w_open w).
  { intros fd ?. apply (l_open _ _ _ _ _ _ L). by right. }
  assert (Hown : forall fd, c_thread v = None /\ own_opens (c_own v) fd -> fd ∈ w_open w).
  { intros fd [E ?]. rewrite <- (Ho E) in *. apply (l_open _ _ _ _ _ _ L). by left. }
  assert (Hmem : forall m, c_thread v = None /\ own_allowed limit ∅ (Mem m) (c_own v) ->
            permitted limit Ctl (Mem m) w).
  { intros m [E Hm]. rewrite <- (Ho E) in Hm. assert (owner_of v = Ctl) as Et by (unfold owner_of; by rewrite E).
    rewrite Et in L. eapply own_permitted; [done|done| |done]. set_solver. }
  destruct c as [c|m]; [|by destruct m; simpl in Hal; first [done|apply Hmem; done]].
  destruct c; simpl in Hal |- *; try done.
  all: try (eapply Forall_impl; [exact Hal|]; intros ? [?|?]; [by apply Hfds|by apply Hown]).
  apply Forall_singleton. destruct Hal as [E [[o' Ho']|?]]; [|by apply Hfds].
  apply Hown. split; [done|]. specialize (Ho E). subst o.
  by destruct (closes_opens config fd o' L Ho').
Qed.

Variable strerror : Z -> string.
Variable inet_pton : string -> option Z.
Variable fuel : nat.
Hypothesis limit_nonneg : 0 <= limit.

(** C19: under every interleaving of the I/O thread, the thread that starts and
    stops the server and any number of senders, and whatever the kernel answers:
    every call a thread is about to make is permitted, so no thread uses a
    descriptor that is closed or a client that is destroyed, touches the map
    without [clients_mutex], sends without the client's mutex, locks a mutex it
    holds, destroys a client whose mutex is held or calls back into the
    transceiver with a mutex held; nothing undefined happens; there are never
    more than [max_clients] clients; and when the server is stopped, every
    descriptor is closed and every client destroyed. *)
Theorem server_memory_safe cmds msgs σ :
  reachable strerror inet_pton config fuel cmds msgs σ ->
  (forall t c, next σ t = Some c -> permitted limit t c (p_world σ))
  /\ p_io σ <> Some Undefined
  /\ Z.of_nat (size (w_map (p_world σ))) <= limit
  /\ (forall imp, p_ctl σ = Ret imp -> w_running (p_world σ) = false ->
       w_open (p_world σ) = ∅ /\ w_heap (p_world σ) = ∅).
Proof.
  intros Hr. destruct (srv_reachable_inv _ _ _ _ limit_nonneg _ _ _ Hr) as (o & v & vs & L & Hctl & Hio & Hsnd).
  assert (Hcur : c_thread v = None -> o = c_own v).
  { intros E. unfold io_inv in Hio. rewrite E in Hio. by destruct (p_io σ). }
  split; [|split; [|split]].
  - intros [| |i] c Hn; simpl in Hn.
    + unfold io_inv in Hio. destruct (p_io σ) as [p|]; [|done]. destruct (c_thread v) as [imp|] eqn:Eth; [|done].
      destruct Hio as [Hwp Hsub]. pose proof (next_allowed (own_rules _ _) _ _ _ _ Hwp Hn) as Hal.
      replace Io with (owner_of v) by (unfold owner_of; by rewrite Eth).
      eapply own_permitted; [done|apply owner_not_sender| |exact Hal].
      intros fd Hfd. apply (l_open _ _ _ _ _ _ L). right. by apply Hsub.
    + eapply ctl_permitted; [done|done|]. by apply (next_allowed (ctl_rules _) _ _ _ _ Hctl).
    + destruct (p_snd σ !! i) as [p|] eqn:Ep; [|done]. eapply snd_permitted; [done|apply owner_not_sender|].
      by apply (next_allowed send_rules _ _ _ _ (Hsnd _ _ Ep)).
  - intros E. unfold io_inv in Hio. rewrite E in Hio. destruct (c_thread v); by destruct Hio.
  - rewrite (l_map _ _ _ _ _ _ L). apply (l_limit _ _ _ _ _ _ L).
  - intros imp E Hrun. rewrite E in Hctl. rewrite (l_running _ _ _ _ _ _ L) in Hrun.
    unfold wp, settled in Hctl. rewrite Hrun in Hctl. subst v. specialize (Hcur eq_refl). simpl in Hcur. subst o.
    assert (Hno : forall z, ~ own_opens own0 z) by (intros z [?|[a ?]]; done).
    split.
    + apply set_eq. intros z. rewrite (l_open _ _ _ _ _ _ L). specialize (Hno z). set_solver.
    + apply map_eq. intros a. rewrite lookup_empty. pose proof (heap_lookup _ L a) as Ha.
      simpl in Ha. by destruct (w_heap (p_world σ) !! a).
Qed.
End safety.

(** ** Running a schedule

    A kernel that answers every call: every descriptor polled is readable, every
    connection has been closed by its peer, and there is one more to accept. *)

Definition kernel (t : Tid) (c : call srv) (w : World) : option (ans c * World) :=
  match c with
  | Sys Socket => if decide (7 ∈ w_open w) then Some (-1, w) else Some (7, set_open ({[7]} ∪ w_open w) w)
  | Sys (Accept _) =>
      if decide (9 ∈ w_open w) then Some ((-1, ("", 0)), w)
      else Some ((9, ("10.0.0.1", 5000)), set_open ({[9]} ∪ w_open w) w)
  | Sys Pipe2 =>
      if decide (3 ∈ w_open w \/ 4 ∈ w_open w) then Some ((-1, (0, 0)), w)
      else Some ((0, (3, 4)), set_open ({[3; 4]} ∪ w_open w) w)
  | Sys (Close fd) => Some (tt, set_open (w_open w ∖ {[fd]}) w)
  | Sys (Send _ bytes) => Some (len bytes, w)
  | Sys (Fcntl_getfl _ | Fcntl_setfl _ _ | Setsockopt_nodelay _ | Setsockopt_reuse _ | Connect _ _
        | Bind _ _ _ | Listen _ | Errno | Now | Read _ _ | Write _ _ | Socket_udp | Setsockopt _ _ | Sendto _ _ _) => Some (0, w)
  | Sys (Recvfrom _ _) => Some ((-1, ([], (0, 0))), w)
  | Sys (Getsockname _) => Some ((0, 5001), w)
  | Sys (Getsockopt_error _) => Some (None, w)
  | Sys (Getaddrinfo _ _) => Some ((0, Some 1), w)
  | Sys (Freeaddrinfo _ | Shutdown _ _) => Some (tt, w)
  | Sys (Poll fds _) => Some ((len fds, fun _ => POLLIN), w)
  | Sys (Recv _ _) => Some ((0, []), w)
  | Mem LoadRunning => Some (w_running w, w)
  | Mem (StoreRunning b) => Some (tt, set_running b w)
  | Mem (ExchangeRunning b) => Some (w_running w, set_running b w)
  | Mem LockClients => match w_mutex w with None => Some (tt, set_mutex (Some t) w) | Some _ => None end
  | Mem UnlockClients => Some (tt, set_mutex None w)
  | Mem (FindClient p) => Some (w_map w !! p, w)
  | Mem ClientsSize => Some (Z.of_nat (size (w_map w)), w)
  | Mem ListClients => Some (map_to_list (w_map w), w)
  | Mem (InsertClient p s) =>
      match w_heap w !! 100 with
      | Some _ => None
      | None => Some (100, set_clients (<[p := 100]> (w_map w))
           (<[100 := (s, None)]> (match w_map w !! p with Some a => delete a (w_heap w) | None => w_heap w end)) w)
      end
  | Mem (EraseClient p) => Some (tt, set_clients (delete p (w_map w)) (w_heap w) w)
  | Mem ClearClients => Some (tt, set_clients ∅ (foldr delete (w_heap w) (map_to_list (w_map w)).*2) w)
  | Mem (ClientSock a) => '(s, _) ← w_heap w !! a; Some (s, w)
  | Mem (LockClient a) =>
      match w_heap w !! a with
      | Some (s, None) => Some (tt, set_clients (w_map w) (<[a := (s, Some t)]> (w_heap w)) w)
      | _ => None
      end
  | Mem (UnlockClient a) => Some (tt, set_clients (w_map w) (alter (fun e => (e.1, None)) a (w_heap w)) w)
  | Mem (FreeClient a) => Some (tt, set_clients (w_map w) (delete a (w_heap w)) w)
  | Mem (OnPeerConnected _) => Some (if decide (w_map w !! 1 = None) then 1 else 0, w)
  | Mem (OnPeerDisconnected _ | OnStateChanged _ _ | OnDataReceived _ _) => Some (tt, w)
  | Mem (Spawn _ | Join) => None
  end.

Lemma srv_kernel_exec t c w x w' : kernel t c w = Some (x, w') -> exec t c w x w'.
Proof.
  destruct c as [[]|[]]; simpl; intros H; try done; repeat case_decide; repeat case_match; simplify_eq/=;
    try done; try (by repeat split; try done; set_solver).
  by destruct (w_heap w !! a) as [[s m]|]; simplify_eq/=.
Qed.

Section run.
Variable strerror : Z -> string.
Variable inet_pton : string -> option Z.
Variable config : TcpServerConfig.
Variable fuel : nat.

(** Creation and join of the I/O thread. *)
Definition fork_join (σ : Pool) : option Pool :=
  match σ with
  | mkPool w None (Vis (Mem (Spawn imp)) k) snd =>
      Some (mkPool w (Some (io_loop strerror config fuel imp)) (k tt) snd)
  | mkPool w (Some (Ret tt)) (Vis (Mem Join) k) snd => Some (mkPool w None (k tt) snd)
  | _ => None
  end.

(** One call of thread [t]. *)
Definition move (t : Tid) (σ : Pool) : option Pool :=
  match t, σ with
  | Io, mkPool w (Some (Vis c k)) ctl snd =>
      '(x, w') ← kernel Io c w; Some (mkPool w' (Some (k x)) ctl snd)
  | Ctl, mkPool w io (Vis c k) snd =>
      match fork_join σ with
      | Some σ' => Some σ'
      | None => '(x, w') ← kernel Ctl c w; Some (mkPool w' io (k x) snd)
      end
  | Snd i, mkPool w io ctl snd =>
      match snd !! i with
      | Some (Vis c k) => '(x, w') ← kernel (Snd i) c w; Some (mkPool w' io ctl (<[i := k x]> snd))
      | _ => None
      end
  | _, _ => None
  end.

Fixpoint moves (ts : list Tid) (σ : Pool) : option Pool :=
  match ts with [] => Some σ | t :: ts => σ' ← move t σ; moves ts σ' end.

Lemma srv_fork_join_step σ σ' : fork_join σ = Some σ' -> step strerror config fuel σ σ'.
Proof.
  destruct σ as [w [[[]| | |]|] [|[|[]] k| |] snd]; simpl; intros H; simplify_eq; constructor.
Qed.

Lemma srv_move_step t σ σ' : move t σ = Some σ' -> step strerror config fuel σ σ'.
Proof.
  destruct t as [| |i], σ as [w io ctl snd]; cbn [move]; intros H.
  - destruct io as [[|c k| |]|]; try done.
    destruct (kernel Io c w) as [[x w']|] eqn:E; simplify_eq/=. by constructor; apply srv_kernel_exec.
  - destruct ctl as [|c k| |]; try done.
    destruct (fork_join _) eqn:E; [simplify_eq; by apply srv_fork_join_step|].
    destruct (kernel Ctl c w) as [[x w']|] eqn:E'; simplify_eq/=. by constructor; apply srv_kernel_exec.
  - destruct (snd !! i) as [[|c k| |]|] eqn:Ei; try done.
    destruct (kernel (Snd i) c w) as [[x w']|] eqn:E; simplify_eq/=.
    by eapply step_snd; [|apply srv_kernel_exec].
Qed.

Lemma srv_moves_steps ts σ σ' : moves ts σ = Some σ' -> rtc (step strerror config fuel) σ σ'.
Proof.
  revert σ. induction ts as [|t ts IH]; intros σ H; simpl in H; [by simplify_eq|].
  destruct (move t σ) as [σ1|] eqn:E; simplify_eq/=.
  eapply rtc_l; [by apply (srv_move_step t)|by apply IH].
Qed.

(** The I/O thread waits for a mutex a sender holds, and [stop] for the I/O
    thread. *)
Lemma waiting_for_sender σ σ' a s i :
  next σ Io = Some (Mem (LockClient a)) -> w_heap (p_world σ) !! a = Some (s, Some (Snd i)) ->
  next σ Ctl = Some (Mem Join) -> step strerror config fuel σ σ' ->
  p_io σ' = p_io σ /\ p_ctl σ' = p_ctl σ.
Proof.
  intros Hio Ha Hctl Hstep. destruct Hstep; simpl in *; simplify_eq; try done.
  destruct H as (s' & E & _). congruence.
Qed.
End run.

Definition no_error (_ : Z) : string := "".
Definition any_addr (_ : string) : option Z := Some 0.
Definition all_set : TransportCallbacks := mkCallbacks true true true true.
Definition sample_config : TcpServerConfig := mkTcpServerConfig "0.0.0.0" 5001 2 4.
Definition sample_pool : Pool :=
  pool0 no_error any_addr sample_config 5 [Start all_set; Stop] [[(1, [1; 2; 3])]].

Definition after (ts : list Tid) : Pool :=
  default sample_pool (moves no_error sample_config 5 ts sample_pool).

Lemma srv_after_reachable ts :
  match moves no_error sample_config 5 ts sample_pool with Some _ => true | None => false end = true ->
  reachable no_error any_addr sample_config 5 [Start all_set; Stop] [[(1, [1; 2; 3])]] (after ts).
Proof.
  unfold after. destruct (moves _ _ _ ts _) as [σ|] eqn:E; [|done]. intros _.
  by apply (srv_moves_steps _ _ _ ts).
Qed.

(** A client is entered; the sender has its mutex and is about to send; the server
    is stopped. *)
Definition entered : list Tid := replicate 12 Ctl ++ replicate 16 Io.
Definition sending : list Tid := entered ++ replicate 5 (Snd 0).
Definition stopped : list Tid := entered ++ replicate 2 Ctl ++ [Io] ++ replicate 19 Ctl.

Lemma server_memory_safe_witness :
  next (after sending) (Snd 0) = Some (Sys (Send 9 [1; 2; 3]))
  /\ (9 ∈ w_open (p_world (after sending)))
  /\ w_open (p_world (after stopped)) = ∅.
Proof.
  split; [vm_compute; reflexivity|]. split.
  - destruct (server_memory_safe sample_config no_error any_addr 5 ltac:(vm_compute; discriminate) _ _
      (after sending) (srv_after_reachable sending eq_refl)) as [H _].
    destruct (H (Snd 0%nat) (Sys (Send 9 [1; 2; 3])) eq_refl) as [? _]. done.
  - apply (server_memory_safe sample_config no_error any_addr 5 ltac:(vm_compute; discriminate) _ _
      (after stopped) (srv_after_reachable stopped eq_refl)) with (imp := mkImpl all_set (-1) wake_pipe0 false);
      vm_compute; reflexivity.
Defined.

(** [stop] joins the I/O thread before it shuts the clients down, which is what
    would wake a sender that is blocked in [::send].  If a client stops reading
    and closes its end while a sender is blocked sending to it, the I/O thread
    waits in [remove_client] for the sender, and [stop] for the I/O thread: only
    the blocked sender can go on. *)
Example stop_waits_for_blocked_sender :
  exists σ,
    reachable no_error any_addr sample_config 5 [Start all_set; Stop] [[(1, [1; 2; 3])]] σ
    /\ next σ Io = Some (Mem (LockClient 100)) /\ next σ Ctl = Some (Mem Join)
    /\ next σ (Snd 0) = Some (Sys (Send 9 [1; 2; 3]))
    /\ forall σ', step no_error sample_config 5 σ σ' -> p_io σ' = p_io σ /\ p_ctl σ' = p_ctl σ.
Proof.
  exists (after (sending ++ replicate 13 Io ++ replicate 2 Ctl)).
  split; [by apply srv_after_reachable|]. split; [vm_compute; reflexivity|]. split; [vm_compute; reflexivity|].
  split; [vm_compute; reflexivity|]. intros σ' Hstep.
  eapply (waiting_for_sender _ _ _ _ _ 100 9 0); [..|exact Hstep]; vm_compute; reflexivity.
Qed.
