(* ===== verification/Udp.v ===== *)
(** * UDP transport

    Models [conduit/src/transceiver/transport/udp.cpp] (the POSIX branch) with
    [udp.hpp].  The members that several threads use are the calls [access]:
    [running], [sock] and the destination addresses, the two mutexes, the three
    tables of peers ([addr_to_peer], [peer_to_addr], [peer_last_activity]), the
    thread and the callbacks.  [callbacks], [peer_id] and [wake] pass between the
    controlling thread and the I/O thread at its creation and join.  Hash tables
    are listed in an order that is left open.  [inet_pton] and [inet_ntop] are the C
    library's.  Log output is not modelled; points in time are nanoseconds of the
    steady clock, without overflow.

    A round of the I/O loop reads [sock] once: it does not change while the I/O
    thread exists.  A start that fails after storing a part of [remote_addr] leaves
    it there in the code; nothing reads it until a later start has stored all of
    it. *)

From stdpp Require Import base numbers list strings pretty.
From Stdlib Require Import ZArith Lia.
From S2P Require Import Prelude CoreError Handler Transceiver SysCalls SocketOps.

Open Scope Z_scope.

Record UdpConfig := mkUdpConfig {
  bind_address : string;
  bind_port : Z;
  remote_address : string;
  remote_port : Z;
  recv_buffer_size : Z;
  send_buffer_size : Z;
  max_datagram_size : Z;
  max_peers : Z;
  peer_timeout : Z;
  multicast_group : string;
  multicast_interface : string;
  multicast_ttl : Z;
  multicast_loop : bool;
}.

Definition default_config : UdpConfig := mkUdpConfig "0.0.0.0" 0 "" 0 65536 65536 65507 1024 0 "" "" 1 true.

(** The members one thread uses at a time. *)
Record Impl := mkImpl {
  callbacks : TransportCallbacks;
  peer_id : PeerId;
  wake : WakePipe;
  joinable : bool;
}.

Definition impl0 : Impl := mkImpl (mkCallbacks false false false false) 0 wake_pipe0 false.

(** ** Accesses to what threads share

    [StoreDest] and [LoadDest]: [multicast_addr] or [remote_addr], by the mode;
    peers are listed with their last activity, addresses with their peers. *)
Inductive access :=
  | LoadRunning | StoreRunning (b : bool) | ExchangeRunning (b : bool)
  | LoadSock | StoreSock (s : Z)
  | LoadDest | StoreDest (a : Addr)
  | LockSend | UnlockSend | LockPeers | UnlockPeers
  | FindAddr (a : Addr) | FindPeer (id : Z) | PeersSize | ListActivity | ListAddrs
  | SetAddr (a : Addr) (id : Z) | SetPeer (id : Z) (a : Addr) | SetActivity (id now : Z)
  | EraseAddr (a : Addr) | ErasePeer (id : Z) | EraseActivity (id : Z) | ClearTables
  | Spawn (imp : Impl) | Join
  | OnPeerConnected (remote_endpoint : string)
  | OnPeerDisconnected (p : PeerId)
  | OnStateChanged (p : PeerId) (st : ConnectionState)
  | OnDataReceived (p : PeerId) (bytes : list Z).

Global Instance access_shared : Shared access := fun m =>
  match m with
  | LoadRunning | ExchangeRunning _ => bool
  | LoadSock | PeersSize => Z
  | LoadDest => Addr
  | FindAddr _ => option Z
  | FindPeer _ => option Addr
  | ListActivity => list (Z * Z)
  | ListAddrs => list (Addr * Z)
  | Join | OnPeerConnected _ => PeerId
  | _ => unit
  end.

Abbreviation io := (prog access) (only parsing).

Section udp.
Variable strerror : Z -> string.
Variable inet_pton : string -> option Z.
Variable inet_ntop : Z -> string.
Variable config : UdpConfig.
Variable fuel : nat.

(** Set by the constructor. *)
Definition multicast : bool := negb (String.eqb (multicast_group config) "").
Definition single_peer : bool := multicast || negb (String.eqb (remote_address config) "").
Definition is_multi_peer : bool := negb single_peer.

Definition interface : string :=
  if String.eqb (multicast_interface config) "" then "0.0.0.0" else multicast_interface config.

(** ** The I/O thread *)

Section thread.
Variable imp : Impl.

Definition notify (p : PeerId) (st : ConnectionState) : io unit :=
  if on_state_changed (callbacks imp) then mem (OnStateChanged p st) else Ret tt.

Definition tell_disconnected (p : PeerId) : io unit :=
  notify p Disconnected;;
  if on_peer_disconnected (callbacks imp) then mem (OnPeerDisconnected p) else Ret tt.

Fixpoint tell_all (peers : list PeerId) : io unit :=
  match peers with [] => Ret tt | p :: peers => tell_disconnected p;; tell_all peers end.

(** The second half of [resolve_peer]: a peer the transceiver has accepted. *)
Definition register_peer (addr : Addr) (new_id : PeerId) : io PeerId :=
  mem LockPeers;;
  n ← mem PeersSize;
  if (0 <? max_peers config) && (max_peers config <=? n) then
    mem UnlockPeers;;
    (if on_peer_disconnected (callbacks imp) then mem (OnPeerDisconnected new_id) else Ret tt);;
    Ret 0
  else
    mem (SetAddr addr new_id);;
    mem (SetPeer new_id addr);;
    now ← sys_call Now;
    mem (SetActivity new_id now);;
    mem UnlockPeers;;
    notify new_id Connected;;
    Ret new_id.

Definition resolve_peer (addr : Addr) : io PeerId :=
  mem LockPeers;;
  it ← mem (FindAddr addr);
  match it with
  | Some p =>
      now ← sys_call Now;
      mem (SetActivity p now);;
      mem UnlockPeers;;
      Ret p
  | None =>
      n ← mem PeersSize;
      mem UnlockPeers;;
      if (0 <? max_peers config) && (max_peers config <=? n) then Ret 0 else
      new_id ← (if on_peer_connected (callbacks imp)
                then mem (OnPeerConnected (inet_ntop addr.1 +:+ ":" +:+ pretty addr.2)) else Ret 0);
      if peer_valid new_id then register_peer addr new_id else Ret new_id
  end.

(** The peers that have been silent for too long, with their addresses. *)
Fixpoint stale (now : Z) (activity : list (Z * Z)) : io (list (PeerId * Addr)) :=
  match activity with
  | [] => Ret []
  | (id, last) :: activity =>
      if peer_timeout config * 1000000000 <? now - last then
        it ← mem (FindPeer id);
        rest ← stale now activity;
        Ret (match it with Some a => (id, a) :: rest | None => rest end)
      else stale now activity
  end.

Fixpoint evict (l : list (PeerId * Addr)) : io unit :=
  match l with
  | [] => Ret tt
  | (p, a) :: l => mem (EraseAddr a);; mem (ErasePeer p);; mem (EraseActivity p);; evict l
  end.

Definition evict_stale_peers : io unit :=
  if peer_timeout config =? 0 then Ret tt else
  mem LockPeers;;
  now ← sys_call Now;
  activity ← mem ListActivity;
  to_evict ← stale now activity;
  evict to_evict;;
  mem UnlockPeers;;
  tell_all to_evict.*1.

(** A datagram of [n] bytes from [sender_addr]. *)
Definition deliver (peer : PeerId) (sender_addr : Addr) (bytes : list Z) : io unit :=
  sender ← (if single_peer then
              if multicast then Ret (Some peer) else
              remote ← mem LoadDest;
              Ret (if bool_decide (sender_addr = remote) then Some peer else None)
            else p ← resolve_peer sender_addr; Ret (Some p));
  match sender with
  | None => Ret tt
  | Some p => if on_data_received (callbacks imp) && peer_valid p then mem (OnDataReceived p bytes) else Ret tt
  end.

Definition receive (peer : PeerId) (sock : Z) (buf : list Z) : io (list Z) :=
  '(n, (bytes, sender_addr)) ← sys_call (Recvfrom sock (len buf));
  let buf := overwrite bytes buf in
  (if n <? 0 then Ret tt else deliver peer sender_addr (take (Z.to_nat n) buf));;
  Ret buf.

Fixpoint io_rounds (n : nat) (peer : PeerId) (last_eviction : Z) (buf : list Z) : io unit :=
  match n with
  | O => OutOfFuel
  | S n =>
      running ← mem LoadRunning;
      if negb running then Ret tt else
      sock ← mem LoadSock;
      '(sel, ps) ← wait (add_read (read_fd (wake imp)) (add_read sock [])) 100;
      if sel <? 0 then
        err ← get_last_error;
        if err =? EINTR then io_rounds n peer last_eviction buf else Ret tt
      else if sel =? 0 then
        if single_peer then io_rounds n peer last_eviction buf else
        now ← sys_call Now;
        if 1000000000 <=? now - last_eviction then
          evict_stale_peers;; io_rounds n peer now buf
        else io_rounds n peer last_eviction buf
      else
      if has_error ps sock then Ret tt else
      stopped ← (if is_readable ps (read_fd (wake imp)) then
                   drain_wake_pipe fuel (wake imp);;
                   running ← mem LoadRunning; Ret (negb running)
                 else Ret false);
      if (stopped : bool) then Ret tt else
      buf ← (if is_readable ps sock then receive peer sock buf else Ret buf);
      io_rounds n peer last_eviction buf
  end.

Definition endpoint : string :=
  if multicast then "multicast:" +:+ multicast_group config
  else if negb (String.eqb (remote_address config) "") then remote_address config +:+ ":" +:+ pretty (remote_port config)
  else "".

(** The [peer_id] the thread leaves behind. *)
Definition io_loop : io PeerId :=
  last_eviction ← sys_call Now;
  peer ← (if single_peer && negb (peer_valid (peer_id imp)) && on_peer_connected (callbacks imp)
          then mem (OnPeerConnected endpoint) else Ret (peer_id imp));
  (if single_peer && peer_valid peer then notify peer Connected else Ret tt);;
  io_rounds fuel peer last_eviction (replicate (Z.to_nat (recv_buffer_size config)) 0);;
  Ret peer.
End thread.

(** ** Starting *)

(** [close_socket(sock); return std::unexpected(e)]. *)
Definition refuse (sock : Z) (e : Error) (imp : Impl) : io (Result unit * Impl) :=
  close_socket sock;; cleanup_networking;; Ret (Fail e, imp).

(** As [refuse], with [errno] read after the close. *)
Definition refuse_errno (sock : Z) (what : string) (imp : Impl) : io (Result unit * Impl) :=
  close_socket sock;;
  err ← get_last_error;
  cleanup_networking;;
  Ret (Fail (new_error SocketError (what +:+ error_to_string strerror err)), imp).

(** The multicast options, set before [bind]. *)
Definition multicast_options (sock : Z) : io (Result unit) :=
  if negb multicast then Ret (Ok tt) else
  if bind_port config =? 0 then Ret (Fail (new_error InvalidConfig "Multicast requires a non-zero bind_port")) else
  match inet_pton (multicast_group config) with
  | None => Ret (Fail (new_error InvalidConfig ("Invalid multicast group address: " +:+ multicast_group config)))
  | Some g =>
      if negb (Z.land g 0xF0000000 =? 0xE0000000) then
        Ret (Fail (new_error InvalidConfig ("Not a multicast address (must be 224.0.0.0/4): " +:+ multicast_group config)))
      else
      r ← set_multicast_ttl strerror sock (multicast_ttl config);
      match r with Fail e => Ret (Fail e) | Ok _ =>
      r ← set_multicast_loop strerror sock (multicast_loop config);
      match r with Fail e => Ret (Fail e) | Ok _ =>
      r ← set_multicast_interface strerror inet_pton sock interface;
      match r with Fail e => Ret (Fail e) | Ok _ =>
      mem (StoreDest (g, bind_port config));; Ret (Ok tt)
      end end end
  end.

(** The remote address of one peer, or the multicast group. *)
Definition connect_peer (sock : Z) : io (Result unit) :=
  if multicast then join_multicast_group strerror inet_pton sock (multicast_group config) interface
  else if single_peer then
    match inet_pton (remote_address config) with
    | None => Ret (Fail (new_error InvalidConfig ("Invalid remote address: " +:+ remote_address config)))
    | Some a => mem (StoreDest (a, remote_port config));; Ret (Ok tt)
    end
  else Ret (Ok tt).

Definition start (cb : TransportCallbacks) (imp : Impl) : io (Result unit * Impl) :=
  running ← mem LoadRunning;
  if (running : bool) then Ret (Fail (new_error AlreadyRunning "UDP transport already running"), imp) else
  net_result ← init_networking;
  match net_result with Fail e => Ret (Fail e, imp) | Ok _ =>
  rs ← create_udp_socket strerror;
  match rs with Fail e => cleanup_networking;; Ret (Fail e, imp) | Ok sock =>
  r ← set_reuse_addr strerror sock;
  match r with Fail e => refuse sock e imp | Ok _ =>
  (if multicast then sys_call (Setsockopt sock SO_REUSEPORT);; Ret tt else Ret tt);;
  set_socket_buffer_sizes strerror sock (recv_buffer_size config) (send_buffer_size config);;
  r ← multicast_options sock;
  match r with Fail e => refuse sock e imp | Ok _ =>
  match inet_pton (bind_address config) with
  | None => refuse sock (new_error InvalidConfig ("Invalid bind address: " +:+ bind_address config)) imp
  | Some addr =>
  b ← sys_call (Bind sock addr (bind_port config));
  if negb (b =? 0) then
    refuse_errno sock ("Bind to " +:+ bind_address config +:+ ":" +:+ pretty (bind_port config) +:+ " failed: ") imp
  else
  r ← connect_peer sock;
  match r with Fail e => refuse sock e imp | Ok _ =>
  wake_result ← create_wake_pipe strerror;
  match wake_result with Fail e => refuse sock e imp | Ok w =>
    let imp := mkImpl cb (peer_id imp) w true in
    mem (StoreSock sock);;
    mem (StoreRunning true);;
    mem (Spawn imp);;
    Ret (Ok tt, imp)
  end end end end end end end.

(** ** Stopping *)

Definition close_transport : io unit :=
  mem LockSend;;
  sock ← mem LoadSock;
  (if negb (sock =? invalid_socket) then
     (if multicast then leave_multicast_group inet_pton sock (multicast_group config) interface else Ret tt);;
     close_socket sock;;
     mem (StoreSock invalid_socket)
   else Ret tt);;
  mem UnlockSend.

Definition forget_peers : io (list PeerId) :=
  mem LockPeers;;
  l ← mem ListAddrs;
  mem ClearTables;;
  mem UnlockPeers;;
  Ret l.*2.

Definition stop (imp : Impl) : io Impl :=
  was_running ← mem (ExchangeRunning false);
  if negb was_running then Ret imp else
  signal_wake_pipe (wake imp);;
  imp ← (if joinable imp then
           p ← mem Join; Ret (mkImpl (callbacks imp) p (wake imp) false)
         else Ret imp);
  close_transport;;
  tracked_peers ← forget_peers;
  tell_all imp tracked_peers;;
  (if single_peer && peer_valid (peer_id imp) then tell_disconnected imp (peer_id imp) else Ret tt);;
  w ← close_wake_pipe (wake imp);
  cleanup_networking;;
  Ret (mkImpl (callbacks imp) (peer_id imp) w (joinable imp)).

(** ** Sending *)

(** Where a datagram for [peer] goes. *)
Definition destination (peer : PeerId) : io (Result Addr) :=
  if single_peer then a ← mem LoadDest; Ret (Ok a) else
  mem LockPeers;;
  it ← mem (FindPeer peer);
  mem UnlockPeers;;
  Ret (match it with
       | Some a => Ok a
       | None => Fail (new_error PeerNotFound ("Peer " +:+ pretty peer +:+ " has no known address"))
       end).

Definition send_datagram (peer : PeerId) (data : list Z) : io (Result unit) :=
  sock ← mem LoadSock;
  if sock =? invalid_socket then Ret (Fail (new_error NotRunning "Transport not started")) else
  if max_datagram_size config <? len data then
    Ret (Fail (new_error BufferOverrun
      ("UDP datagram size " +:+ pretty (len data) +:+ " exceeds max " +:+ pretty (max_datagram_size config))))
  else
  d ← destination peer;
  match d with
  | Fail e => Ret (Fail e)
  | Ok dest =>
      sent ← sys_call (Sendto sock data dest);
      if sent <? 0 then errno_failure strerror SocketError "sendto failed: "
      else if negb (sent =? len data) then
        Ret (Fail (new_error SocketError
          ("sendto: partial send (" +:+ pretty sent +:+ " of " +:+ pretty (len data) +:+ " bytes)")))
      else Ret (Ok tt)
  end.

Definition send (peer : PeerId) (data : list Z) : io (Result unit) :=
  mem LockSend;;
  r ← send_datagram peer data;
  mem UnlockSend;;
  Ret r.
End udp.
