(* ===== verification/UdpThreads.v ===== *)
(** * UDP transport: what each thread may do

    The tables of peers belong to one thread at a time, the owner: the I/O thread
    while it exists, the controlling thread otherwise.  The owner knows the tables
    exactly, a sender what it has looked up.  The rules say what a thread must know
    to make a call, and the lemmas that the code of each thread keeps its rules. *)

From stdpp Require Import base numbers list gmap sets strings pretty.
From Stdlib Require Import ZArith Lia.
From S2P Require Import Prelude CoreError Handler Transceiver SysCalls SocketOps Udp.

Open Scope Z_scope.

(** ** The tables *)

Record Tables := mkTables {
  addr_to_peer : gmap Addr Z; peer_to_addr : gmap Z Addr; last_activity : gmap Z Z
}.

Definition no_peers : Tables := mkTables ∅ ∅ ∅.

(** The tables are inverse to each other, every peer has an activity and is valid,
    and the limit is kept ([0]: no limit). *)
Record consistent (limit : Z) (T : Tables) : Prop := {
  t_inverse : forall a p, addr_to_peer T !! a = Some p <-> peer_to_addr T !! p = Some a;
  t_activity : forall p, is_Some (last_activity T !! p) <-> is_Some (peer_to_addr T !! p);
  t_valid : forall p, is_Some (peer_to_addr T !! p) -> p <> 0;
  t_limit : 0 < limit -> Z.of_nat (size (addr_to_peer T)) <= limit;
}.

Definition register (a : Addr) (p now : Z) (T : Tables) : Tables :=
  mkTables (<[a := p]> (addr_to_peer T)) (<[p := a]> (peer_to_addr T)) (<[p := now]> (last_activity T)).
Definition touch (p now : Z) (T : Tables) : Tables :=
  mkTables (addr_to_peer T) (peer_to_addr T) (<[p := now]> (last_activity T)).
Definition forget (p : Z) (a : Addr) (T : Tables) : Tables :=
  mkTables (delete a (addr_to_peer T)) (delete p (peer_to_addr T)) (delete p (last_activity T)).

Lemma consistent_none limit : consistent limit no_peers.
Proof.
  constructor; simpl; intros *; rewrite ?lookup_empty, ?map_size_empty; try done; lia.
Qed.

Lemma consistent_touch limit p now T :
  consistent limit T -> is_Some (peer_to_addr T !! p) -> consistent limit (touch p now T).
Proof.
  intros [] Hp. constructor; simpl; try done. intros q. destruct (decide (q = p)) as [->|].
  - rewrite lookup_insert_eq. split; [done|by eexists].
  - by rewrite lookup_insert_ne.
Qed.

Lemma consistent_register limit a p now T :
  consistent limit T -> addr_to_peer T !! a = None -> peer_to_addr T !! p = None -> p <> 0 ->
  (0 < limit -> Z.of_nat (size (addr_to_peer T)) < limit) -> consistent limit (register a p now T).
Proof.
  intros [] Ha Hp H0 Hlim. constructor; simpl.
  - intros b q. destruct (decide (b = a)) as [->|Hb], (decide (q = p)) as [->|Hq];
      rewrite ?lookup_insert_eq, ?lookup_insert_ne by done.
    + done.
    + split; [by intros [= ->]|]. rewrite <- t_inverse0. congruence.
    + split; [|by intros [= ->]]. rewrite t_inverse0. congruence.
    + apply t_inverse0.
  - intros q. destruct (decide (q = p)) as [->|]; rewrite ?lookup_insert_eq, ?lookup_insert_ne by done; [|apply t_activity0].
    split; by eexists.
  - intros q. destruct (decide (q = p)) as [->|]; [done|]. rewrite lookup_insert_ne by done. apply t_valid0.
  - intros Hl. rewrite map_size_insert_None by done. specialize (Hlim Hl). lia.
Qed.

Lemma consistent_forget limit a p T :
  consistent limit T -> peer_to_addr T !! p = Some a -> consistent limit (forget p a T).
Proof.
  intros [] Hp. pose proof (proj2 (t_inverse0 a p) Hp) as Ha. constructor; simpl.
  - intros b q. rewrite !lookup_delete_Some, t_inverse0. split.
    + intros [Hb Hq]. split; [|done]. intros ->. congruence.
    + intros [Hq Hb]. split; [|done]. intros ->. apply Hq. apply t_inverse0 in Hb. congruence.
  - intros q. destruct (decide (q = p)) as [->|]; rewrite ?lookup_delete_eq, ?lookup_delete_ne by done; [|apply t_activity0].
    split; by intros [? ?].
  - intros q. destruct (decide (q = p)) as [->|]; [rewrite lookup_delete_eq; by intros [? ?]|]. rewrite lookup_delete_ne by done. apply t_valid0.
  - intros Hl. rewrite map_size_delete_Some by done. specialize (t_limit0 Hl). lia.
Qed.

(** ** The owner

    [o_lk]: whether [peers_mutex] is held; [o_live]: the peers that were reported
    connected in this session and not disconnected since; [o_dgram]: the datagram
    received last and where it came from. *)
Record Own := mkOwn { o_t : Tables; o_lk : bool; o_live : gset Z; o_dgram : option (Addr * list Z) }.

Definition own0 : Own := mkOwn no_peers false ∅ None.

Definition with_t (T : Tables) (o : Own) : Own := mkOwn T (o_lk o) (o_live o) (o_dgram o).
Definition with_lk (b : bool) (o : Own) : Own := mkOwn (o_t o) b (o_live o) (o_dgram o).
Definition with_live (l : gset Z) (o : Own) : Own := mkOwn (o_t o) (o_lk o) l (o_dgram o).
Definition with_dgram (d : option (Addr * list Z)) (o : Own) : Own := mkOwn (o_t o) (o_lk o) (o_live o) d.

Section rules.
Variable inet_pton : string -> option Z.
Variable config : UdpConfig.

(** The destination of single-peer mode. *)
Definition configured : option Addr :=
  if multicast config then (fun g => (g, bind_port config)) <$> inet_pton (multicast_group config)
  else (fun a => (a, remote_port config)) <$> inet_pton (remote_address config).

(** Whose datagram is handed on as [p]'s: in single-peer mode the one from the
    remote address, or any sent to the multicast group; otherwise the one from the
    address [p] is registered with. *)
Definition sender_is (o : Own) (p : PeerId) (a : Addr) : Prop :=
  if single_peer config then multicast config = true \/ configured = Some a
  else addr_to_peer (o_t o) !! a = Some p.

(** [fds]: the socket and the wake pipe, if it is the I/O thread that owns. *)
Definition own_allowed (fds : gset Z) (c : call access) (o : Own) : Prop :=
  match c with
  | Sys ((Poll _ _ | Recvfrom _ _ | Read _ _ | Errno | Now) as c) => Forall (fun fd => fd ∈ fds) (descriptors c)
  | Sys _ => False
  | Mem LoadRunning => True
  | Mem (LoadSock | LoadDest) => fds <> ∅
  | Mem LockPeers => o_lk o = false
  | Mem UnlockPeers => o_lk o = true /\ consistent (max_peers config) (o_t o)
  | Mem (FindAddr _ | FindPeer _ | PeersSize | ListActivity | ListAddrs | SetAddr _ _ | SetPeer _ _ | SetActivity _ _
        | EraseAddr _ | ErasePeer _ | EraseActivity _ | ClearTables) => o_lk o = true
  | Mem (OnPeerConnected _ | OnStateChanged _ _) => o_lk o = false
  | Mem (OnPeerDisconnected p) => o_lk o = false /\ (single_peer config = false -> p ∈ o_live o)
  | Mem (OnDataReceived p bytes) => o_lk o = false /\ exists a, o_dgram o = Some (a, bytes) /\ sender_is o p a
  | Mem _ => False
  end.

(** The transceiver gives a new peer an identifier that is not in use, or none. *)
Definition own_learns (sock : Z) (c : call access) (o : Own) : ans c -> Own -> Prop :=
  match c with
  | Sys (Recvfrom _ _) => fun x o' =>
      if x.1 <? 0 then o' = o else x.1 = len x.2.1 /\ o' = with_dgram (Some (x.2.2, x.2.1)) o
  | Mem LoadSock => fun (x : Z) o' => x = sock /\ o' = o
  | Mem LoadDest => fun (x : Addr) o' => (single_peer config = true -> configured = Some x) /\ o' = o
  | Mem LockPeers => fun _ o' => o' = with_lk true o
  | Mem UnlockPeers => fun _ o' => o' = with_lk false o
  | Mem (FindAddr a) => fun (x : option Z) o' => x = addr_to_peer (o_t o) !! a /\ o' = o
  | Mem (FindPeer p) => fun (x : option Addr) o' => x = peer_to_addr (o_t o) !! p /\ o' = o
  | Mem PeersSize => fun (x : Z) o' => x = Z.of_nat (size (addr_to_peer (o_t o))) /\ o' = o
  | Mem ListActivity => fun (x : list (Z * Z)) o' => x ≡ₚ map_to_list (last_activity (o_t o)) /\ o' = o
  | Mem ListAddrs => fun (x : list (Addr * Z)) o' => x ≡ₚ map_to_list (addr_to_peer (o_t o)) /\ o' = o
  | Mem (SetAddr a p) => fun _ o' =>
      o' = with_t (mkTables (<[a := p]> (addr_to_peer (o_t o))) (peer_to_addr (o_t o)) (last_activity (o_t o))) o
  | Mem (SetPeer p a) => fun _ o' =>
      o' = with_t (mkTables (addr_to_peer (o_t o)) (<[p := a]> (peer_to_addr (o_t o))) (last_activity (o_t o))) o
  | Mem (SetActivity p now) => fun _ o' => o' = with_t (touch p now (o_t o)) o
  | Mem (EraseAddr a) => fun _ o' =>
      o' = with_t (mkTables (delete a (addr_to_peer (o_t o))) (peer_to_addr (o_t o)) (last_activity (o_t o))) o
  | Mem (ErasePeer p) => fun _ o' =>
      o' = with_t (mkTables (addr_to_peer (o_t o)) (delete p (peer_to_addr (o_t o))) (last_activity (o_t o))) o
  | Mem (EraseActivity p) => fun _ o' =>
      o' = with_t (mkTables (addr_to_peer (o_t o)) (peer_to_addr (o_t o)) (delete p (last_activity (o_t o)))) o
  | Mem ClearTables => fun _ o' => o' = with_t no_peers o
  | Mem (OnPeerConnected _) => fun (x : Z) o' =>
      if peer_valid x then peer_to_addr (o_t o) !! x = None /\ (x ∉ o_live o) /\ o' = with_live ({[x]} ∪ o_live o) o else o' = o
  | Mem (OnPeerDisconnected p) => fun _ o' => o' = with_live (o_live o ∖ {[p]}) o
  | _ => fun _ o' => o' = o
  end.

Definition own_rules (sock : Z) (fds : gset Z) : Rules access Own := mkRules (own_allowed fds) (own_learns sock).

(** Between rounds: no lock is held, the tables are consistent, and in multi-peer
    mode the peers in them are those the transceiver believes connected. *)
Record tidy (cb : TransportCallbacks) (o : Own) : Prop := {
  y_lk : o_lk o = false;
  y_tables : consistent (max_peers config) (o_t o);
  y_live : single_peer config = false -> dom (peer_to_addr (o_t o)) ⊆ o_live o
    /\ (on_peer_disconnected cb = true -> o_live o = dom (peer_to_addr (o_t o)));
}.

Lemma udp_tidy_own0 cb : tidy cb own0.
Proof. constructor; [done|apply consistent_none|]. intros _. cbn. by rewrite dom_empty_L. Qed.
End rules.

(** ** The I/O thread keeps its rules *)

Ltac own_simpl := cbn [o_t o_lk o_live o_dgram with_t with_lk with_live with_dgram addr_to_peer peer_to_addr last_activity touch].

Section io_thread.
Variable strerror : Z -> string.
Variable inet_pton : string -> option Z.
Variable inet_ntop : Z -> string.
Variable config : UdpConfig.
Variable fuel : nat.
Variable imp : Impl.
Variable sock : Z.
Variable fds : gset Z.
Hypothesis sock_open : sock ∈ fds.
Hypothesis wake_open : read_fd (wake imp) ∈ fds.

Abbreviation owp := (wp (own_rules inet_pton config sock fds)).
Abbreviation good := (tidy config (callbacks imp)).

(** A call that changes nothing the owner knows. *)
Lemma udp_own_sys (c : sys) (Q : sys_ans c -> Own -> Prop) o :
  match c with Recvfrom _ _ => False | _ => True end ->
  own_allowed inet_pton config fds (Sys c) o -> (forall x, Q x o) -> owp (sys_call c) Q o.
Proof.
  intros Hc Hal HQ. apply wp_sys; [done|]. intros x o' Hl. assert (o' = o) as -> by by destruct c. apply HQ.
Qed.

Lemma own_now (Q : Z -> Own -> Prop) o : (forall t, Q t o) -> owp (sys_call Now) Q o.
Proof. intros HQ. by apply udp_own_sys; [|constructor|]. Qed.

Lemma udp_own_running (Q : bool -> Own -> Prop) o : (forall b, Q b o) -> owp (mem LoadRunning) Q o.
Proof. intros HQ. apply wp_mem; [done|]. by intros x o' ->. Qed.

Lemma own_notify p st (Q : unit -> Own -> Prop) o : o_lk o = false -> Q tt o -> owp (notify imp p st) Q o.
Proof. intros Hl HQ. unfold notify. destruct_if; [|done]. apply wp_mem; [done|]. by intros [] o' ->. Qed.

Lemma udp_own_tell p (Q : unit -> Own -> Prop) o :
  o_lk o = false -> (single_peer config = false -> p ∈ o_live o) ->
  Q tt (if on_peer_disconnected (callbacks imp) then with_live (o_live o ∖ {[p]}) o else o) ->
  owp (tell_disconnected imp p) Q o.
Proof.
  intros Hl Hp HQ. apply wp_bind, own_notify; [done|]. destruct_if; [|done].
  apply wp_mem; [done|]. by intros [] o' ->.
Qed.

(** The peers [ps] are told that they are gone, each once. *)
Lemma udp_own_tell_all ps (Q : unit -> Own -> Prop) o :
  o_lk o = false -> NoDup ps -> (single_peer config = false -> forall p, p ∈ ps -> p ∈ o_live o) ->
  Q tt (if on_peer_disconnected (callbacks imp) then with_live (o_live o ∖ list_to_set ps) o else o) ->
  owp (tell_all imp ps) Q o.
Proof.
  intros Hl Hnd Hin HQ. revert o Hl Hin HQ. induction ps as [|p ps IH]; intros o Hl Hin HQ; cbn [tell_all].
  { apply wp_ret. destruct (on_peer_disconnected (callbacks imp)); [|done]. cbn in HQ. rewrite difference_empty_L in HQ. by destruct o. }
  apply NoDup_cons in Hnd as [Hp Hnd]. apply wp_bind, udp_own_tell; [done|intros Hs; apply Hin; [done|by left]|].
  destruct (on_peer_disconnected (callbacks imp)).
  - apply IH; [done|done| |].
    + intros Hs q Hq. cbn. apply elem_of_difference. split; [apply Hin; [done|by right]|]. rewrite elem_of_singleton. intros ->. done.
    + cbn in HQ |- *. unfold with_live in *. cbn. by rewrite difference_difference_l_L.
  - apply IH; [done|done|intros Hs q Hq; apply Hin; [done|by right]|done].
Qed.

(** A peer the transceiver has accepted for [a]. *)
Lemma own_register a p (Q : PeerId -> Own -> Prop) o :
  good o -> addr_to_peer (o_t o) !! a = None -> peer_to_addr (o_t o) !! p = None -> p ∉ o_live o -> p <> 0 ->
  (forall q o', good o' -> o_dgram o' = o_dgram o -> q = 0 \/ addr_to_peer (o_t o') !! a = Some q -> Q q o') ->
  owp (register_peer config imp a p) Q (with_live ({[p]} ∪ o_live o) o).
Proof.
  intros [Hlk Ht Hlive] Ha Hp Hnl H0 HQ. destruct o as [T lk l d]. simpl in *. subst lk. unfold register_peer.
  apply wp_bind, wp_mem; [done|]. intros [] o ->. own_simpl. apply wp_bind, wp_mem; [done|]. intros n o [-> ->]. own_simpl.
  destruct ((0 <? max_peers config) && (max_peers config <=? Z.of_nat (size (addr_to_peer T)))) eqn:El.
  - apply wp_bind, wp_mem; [done|]. intros [] o ->. own_simpl. apply wp_bind.
    assert (forall l', (single_peer config = false -> dom (peer_to_addr T) ⊆ l'
        /\ (on_peer_disconnected (callbacks imp) = true -> l' = dom (peer_to_addr T))) -> owp (Ret 0) Q (mkOwn T false l' d)) as Hret.
    { intros l' Hl'. apply wp_ret, HQ; [by constructor|done|by left]. }
    destruct_if.
    + apply wp_mem; [split; [done|set_solver]|]. intros [] o ->. unfold with_live. cbn. apply Hret. intros Hs.
      destruct (Hlive Hs) as [Hsub Heq]. specialize (Heq eq_refl). split; set_solver.
    + apply wp_ret, Hret. intros Hs. destruct (Hlive Hs) as [Hsub _]. split; [set_solver|done].
  - do 2 (apply wp_bind, wp_mem; [done|]; intros [] ? ->; own_simpl). apply wp_bind, own_now. intros now.
    apply wp_bind, wp_mem; [done|]. intros [] ? ->. own_simpl.
    assert (consistent (max_peers config) (register a p now T)) as Hc.
    { apply consistent_register; try done. intros Hl. apply andb_false_iff in El as [El|El]; bool_to_prop; lia. }
    apply wp_bind, wp_mem; [done|]. intros [] ? ->. own_simpl. apply wp_bind, own_notify; [done|].
    apply wp_ret, HQ; [|done|right; apply lookup_insert_eq]. constructor; [done|exact Hc|]. cbn. intros Hs.
    destruct (Hlive Hs) as [Hsub Heq]. rewrite dom_insert_L. split; [set_solver|]. intros Hd. by rewrite (Heq Hd).
Qed.

Lemma own_resolve_peer a (Q : PeerId -> Own -> Prop) o :
  good o ->
  (forall q o', good o' -> o_dgram o' = o_dgram o -> q = 0 \/ addr_to_peer (o_t o') !! a = Some q -> Q q o') ->
  owp (resolve_peer inet_ntop config imp a) Q o.
Proof.
  intros Hg HQ. pose proof Hg as [Hlk Ht Hlive]. destruct o as [T lk l d]. simpl in *. subst lk. unfold resolve_peer.
  apply wp_bind, wp_mem; [done|]. intros [] ? ->. own_simpl. apply wp_bind, wp_mem; [done|]. intros it ? [-> ->]. own_simpl.
  destruct (addr_to_peer T !! a) as [p|] eqn:Ea.
  - pose proof (proj1 (t_inverse _ _ Ht a p) Ea) as Hp.
    assert (forall now, consistent (max_peers config) (touch p now T)) as Hc by (intros; apply consistent_touch; [done|by eexists]).
    apply wp_bind, own_now. intros now. apply wp_bind, wp_mem; [done|]. intros [] ? ->. own_simpl.
    apply wp_bind, wp_mem; [split; [done|apply Hc]|]. intros [] ? ->. own_simpl.
    apply wp_ret, HQ; [|done|by right]. constructor; [done|apply Hc|done].
  - apply wp_bind, wp_mem; [done|]. intros n ? [-> ->]. own_simpl. apply wp_bind, wp_mem; [done|]. intros [] ? ->. own_simpl.
    destruct_if; [apply wp_ret, HQ; [by constructor|done|by left]|].
    apply wp_bind. apply wp_mono with (P := fun p o' => if peer_valid p then
      peer_to_addr T !! p = None /\ p ∉ l /\ o' = with_live ({[p]} ∪ l) (mkOwn T false l d) else o' = mkOwn T false l d).
    { destruct_if; [|by apply wp_ret]. apply wp_mem; [done|]. intros p o'. simpl. by destruct (peer_valid p). }
    intros p o' Hp. destruct (peer_valid p) eqn:Ev.
    + destruct Hp as (Hp & Hl & ->). apply own_register; [by constructor|done..| |done].
      unfold peer_valid in Ev. bool_to_prop. done.
    + subst o'. apply wp_ret, HQ; [by constructor|done|]. unfold peer_valid in Ev. bool_to_prop. by left.
Qed.

(** The peers to evict are in the tables, each once. *)
Lemma own_stale now l (Q : list (PeerId * Addr) -> Own -> Prop) o :
  o_lk o = true -> NoDup l.*1 ->
  (forall k, NoDup k.*1 -> k.*1 ⊆ l.*1 -> Forall (fun e => peer_to_addr (o_t o) !! e.1 = Some e.2) k -> Q k o) ->
  owp (stale config now l) Q o.
Proof.
  intros Hlk. revert Q. induction l as [|[p last] l IH]; intros Q Hnd HQ; cbn [stale].
  { apply wp_ret, HQ; [constructor|done|constructor]. }
  rewrite fmap_cons in Hnd, HQ. apply NoDup_cons in Hnd as [Hp Hnd]. destruct_if.
  - apply wp_bind, wp_mem; [done|]. intros it ? [Hit ->]. apply wp_bind, IH; [done|]. intros k Hk Hsub Hin. apply wp_ret.
    destruct it as [a|]; [|apply HQ; [done|set_solver|done]].
    apply HQ; rewrite ?fmap_cons; [apply NoDup_cons; split; [set_solver|done]|set_solver|by constructor].
  - apply IH; [done|]. intros k Hk Hsub Hin. apply HQ; [done|set_solver|done].
Qed.

Lemma own_evict k (Q : unit -> Own -> Prop) o :
  o_lk o = true -> consistent (max_peers config) (o_t o) -> NoDup k.*1 ->
  Forall (fun e => peer_to_addr (o_t o) !! e.1 = Some e.2) k ->
  (forall T, consistent (max_peers config) T -> dom (peer_to_addr T) = dom (peer_to_addr (o_t o)) ∖ list_to_set k.*1 -> Q tt (with_t T o)) ->
  owp (evict k) Q o.
Proof.
  intros Hlk. revert o Hlk. induction k as [|[p a] k IH]; intros o Hlk Ht Hnd Hin HQ; cbn [evict].
  { apply wp_ret. destruct o as [T lk l d]. apply HQ; [done|]. cbn. by rewrite difference_empty_L. }
  apply NoDup_cons in Hnd as [Hp Hnd]. apply Forall_cons in Hin as [Ha Hin]. cbn in Hp, Ha.
  destruct o as [T lk l d]. cbn in Ht, Hin, Ha, HQ. own_simpl. cbn in Hlk. subst lk.
  do 3 (apply wp_bind, wp_mem; [done|]; intros [] ? ->; own_simpl).
  change (owp (evict k) Q (mkOwn (forget p a T) true l d)). apply IH; [done|by apply consistent_forget|done| |].
  - eapply Forall_impl; [apply Forall_and; split; [exact Hin|]|].
    { apply (Forall_forall (fun e => e.1 ∈ k.*1)). intros e He. by apply list_elem_of_fmap_2. }
    intros [q b] [Hq Hqk]. cbn in *. rewrite lookup_delete_ne; [done|]. intros ->. done.
  - cbn. intros T' Ht' Hd. apply HQ; [done|]. rewrite Hd, dom_delete_L. set_solver.
Qed.

Lemma own_evict_stale (Q : unit -> Own -> Prop) o :
  good o -> (single_peer config = false) -> (forall o', good o' -> Q tt o') -> owp (evict_stale_peers config imp) Q o.
Proof.
  intros Hg Hs HQ. unfold evict_stale_peers. destruct_if; [by apply wp_ret, HQ|].
  pose proof Hg as [Hlk Ht Hlive]. destruct o as [T lk l d]. cbn in Hlk, Ht, Hlive. subst lk. destruct (Hlive Hs) as [Hsub Heq].
  apply wp_bind, wp_mem; [done|]. intros [] ? ->. own_simpl. apply wp_bind, own_now. intros now.
  apply wp_bind, wp_mem; [done|]. intros act ? [Hact ->]. own_simpl. cbn in Hact.
  apply wp_bind, own_stale; [done| |].
  { rewrite Hact. apply NoDup_fst_map_to_list. }
  own_simpl. intros k Hk _ Hin. apply wp_bind, own_evict; [done|done|done|done|]. own_simpl. intros T' Ht' Hd.
  assert (forall p, p ∈ k.*1 -> p ∈ dom (peer_to_addr T)) as Hkd.
  { intros p ([q a] & -> & He)%list_elem_of_fmap. apply elem_of_dom. rewrite Forall_forall in Hin. exists a. exact (Hin _ He). }
  apply wp_bind, wp_mem; [split; [done|exact Ht']|]. intros [] ? ->. own_simpl.
  apply udp_own_tell_all; [done|done|intros _ p Hp; own_simpl; apply Hsub, Hkd, Hp|]. own_simpl. apply HQ.
  destruct (on_peer_disconnected (callbacks imp)) eqn:Ed; (constructor; [done|exact Ht'|]; intros _; cbn; rewrite Hd, ?Ed).
  - rewrite (Heq eq_refl). split; [|done]. set_solver.
  - split; [set_solver|done].
Qed.

(** A datagram is handed on as that of the peer it comes from. *)
Lemma own_deliver peer a bytes (Q : unit -> Own -> Prop) o :
  good o -> o_dgram o = Some (a, bytes) -> (forall o', good o' -> Q tt o') -> owp (deliver inet_ntop config imp peer a bytes) Q o.
Proof.
  intros Hg Hd HQ. unfold deliver.
  assert (forall p o', good o' -> o_dgram o' = Some (a, bytes) -> (peer_valid p = true -> sender_is inet_pton config o' p a) ->
    owp (if on_data_received (callbacks imp) && peer_valid p then mem (OnDataReceived p bytes) else Ret tt) Q o') as Hhand.
  { intros p o' Hg' Hd' Hp. destruct_if; [|by apply wp_ret, HQ]. bool_to_prop. apply wp_mem.
    - split; [apply Hg'|]. exists a. split; [done|]. by apply Hp.
    - intros [] ? ->. by apply HQ. }
  apply wp_bind. destruct (single_peer config) eqn:Es.
  - assert (multicast config = true \/ configured inet_pton config = Some a -> sender_is inet_pton config o peer a) as Hsender.
    { unfold sender_is. by rewrite Es. }
    destruct (multicast config) eqn:Em.
    + apply wp_ret. apply Hhand; [done..|]. intros _. apply Hsender. by left.
    + apply wp_bind, wp_mem; [cbn; set_solver|]. intros remote ? [Hr ->]. apply wp_ret. case_bool_decide; [|by apply wp_ret, HQ].
      subst remote. apply Hhand; [done..|]. intros _. apply Hsender. right. by apply Hr.
  - apply wp_bind, own_resolve_peer; [done|]. intros q o' Hg' Hd' Hq. apply wp_ret, Hhand; [done|congruence|].
    intros Hv. unfold sender_is. rewrite Es. destruct Hq as [->|]; done.
Qed.

Lemma own_receive peer buf (Q : list Z -> Own -> Prop) o :
  good o -> (forall buf' o', good o' -> Q buf' o') -> owp (receive inet_ntop config imp peer sock buf) Q o.
Proof.
  intros Hg HQ. unfold receive. apply wp_bind, wp_sys; [by apply Forall_singleton|].
  intros [n [bytes a]] o' Hx. cbn in Hx. apply wp_bind. destruct (n <? 0); [subst o'; by do 2 apply wp_ret; apply HQ|].
  destruct Hx as [-> ->]. unfold overwrite, len. rewrite Nat2Z.id, take_app_length. apply own_deliver.
  - destruct Hg as [H1 H2 H3]. by constructor.
  - done.
  - intros o' Hg'. by apply wp_ret, HQ.
Qed.

Lemma udp_own_drain (Q : unit -> Own -> Prop) o : Q tt o -> owp (drain_wake_pipe fuel (wake imp)) Q o.
Proof.
  intros HQ. unfold drain_wake_pipe. destruct_if; [|done].
  induction fuel as [|n IH]; cbn [drain_loop]; [done|].
  apply wp_bind, (udp_own_sys (Read (read_fd (wake imp)) 64)); [done|by apply Forall_singleton|].
  intros x. by destruct_if.
Qed.

Lemma udp_own_io_rounds n peer last buf (Q : unit -> Own -> Prop) o :
  good o -> (forall o', good o' -> Q tt o') -> owp (io_rounds inet_ntop config fuel imp n peer last buf) Q o.
Proof.
  intros Hg HQ. revert last buf o Hg. induction n as [|n IH]; intros last buf o Hg; cbn [io_rounds]; [done|].
  apply wp_bind, udp_own_running. intros [|]; cbn [negb]; [|by apply wp_ret, HQ].
  apply wp_bind, wp_mem; [cbn; set_solver|]. intros s ? [-> ->]. apply wp_bind. unfold wait. apply wp_bind, (udp_own_sys (Poll _ 100)); [done| |].
  { do 2 (apply add_read_fds; [done|]). constructor. }
  intros [sel re]. apply wp_ret. destruct_if.
  { apply wp_bind, (udp_own_sys Errno); [done|constructor|]. intros err. destruct_if; [by apply IH|by apply wp_ret, HQ]. }
  destruct_if.
  { destruct (single_peer config) eqn:Es; [by apply IH|]. apply wp_bind, own_now. intros now. destruct_if; [|by apply IH].
    apply wp_bind, own_evict_stale; [done..|]. intros o' Hg'. by apply IH. }
  destruct_if; [by apply wp_ret, HQ|]. apply wp_bind.
  apply wp_mono with (P := fun _ o' => o' = o).
  { destruct_if; [|by apply wp_ret]. apply wp_bind, udp_own_drain, wp_bind, udp_own_running. intros b. by apply wp_ret. }
  intros [|] ? ->; [by apply wp_ret, HQ|]. apply wp_bind. destruct_if; [|by apply wp_ret, IH].
  apply own_receive; [done|]. intros buf' o' Hg'. by apply IH.
Qed.

Lemma udp_own_io_loop (Q : PeerId -> Own -> Prop) o :
  good o -> (forall p o', good o' -> Q p o') -> owp (io_loop inet_ntop config fuel imp) Q o.
Proof.
  intros Hg HQ. unfold io_loop. apply wp_bind, own_now. intros last. apply wp_bind.
  apply wp_mono with (P := fun _ o' => good o').
  { destruct (single_peer config) eqn:Es; cbn [andb]; [|by apply wp_ret]. destruct_if; [|by apply wp_ret].
    apply wp_mem; [apply Hg|]. intros p o' Hp. cbn in Hp. destruct (peer_valid p); [|by subst].
    destruct Hp as (_ & _ & ->). destruct Hg as [H1 H2 H3]. constructor; [done|done|]. by rewrite Es. }
  intros peer o' Hg'. apply wp_bind.
  apply wp_mono with (P := fun _ o' => good o').
  { destruct_if; [|by apply wp_ret]. apply own_notify; [apply Hg'|done]. }
  intros [] o1 Hg1. apply wp_bind, udp_own_io_rounds; [done|]. intros o2 Hg2. by apply wp_ret, HQ.
Qed.
End io_thread.
