(* ===== verification/UdpControl.v ===== *)
(** * UDP transport: senders and the controlling thread

    The rules of the threads that send and of the one that starts and stops the
    transport, and the lemmas that their code keeps them.  A sender knows the
    socket it has read under [send_mutex], the addresses it has found and the
    datagrams it has sent; the controlling thread the descriptors, and the tables
    while there is no I/O thread. *)

From stdpp Require Import base numbers list gmap sets strings pretty.
From Stdlib Require Import ZArith Lia.
From S2P Require Import Prelude CoreError Handler Transceiver SysCalls SocketOps Udp UdpThreads.

Open Scope Z_scope.

(** ** A sender

    [s_lk], [s_plk]: whether [send_mutex] and [peers_mutex] are held; [s_found]: the
    peers looked up, with their addresses; [s_sent]: the datagrams sent. *)
Record SendView := mkSend {
  s_lk : bool; s_plk : bool; s_sock : option Z; s_found : list (Z * Addr); s_sent : list (Addr * list Z)
}.

Definition send_view0 : SendView := mkSend false false None [] [].

(** The controlling thread.  [c_sock]: the socket stored; [c_fds]: the open
    descriptors; [c_dest]: whether the destination was stored; [c_slk]: whether
    [send_mutex] is held; [c_own]: what it owns while there is no I/O thread. *)
Record CtlView := mkCtl {
  c_run : bool; c_sock : Z; c_fds : gset Z; c_dest : bool; c_slk : bool; c_thread : option Impl; c_own : Own
}.

Definition with_own (o : Own) (v : CtlView) : CtlView :=
  mkCtl (c_run v) (c_sock v) (c_fds v) (c_dest v) (c_slk v) (c_thread v) o.

Section rules.
Variable inet_pton : string -> option Z.
Variable config : UdpConfig.

(** [a] is where datagrams for [p] go, by the addresses [known]. *)
Definition routed (known : Z -> Addr -> Prop) (p : PeerId) (a : Addr) : Prop :=
  if single_peer config then configured inet_pton config = Some a else known p a.

Definition send_allowed (c : call access) (v : SendView) : Prop :=
  match c with
  | Mem LockSend => s_lk v = false /\ s_plk v = false
  | Mem UnlockSend => s_lk v = true /\ s_plk v = false
  | Mem LoadSock => s_lk v = true
  | Mem LoadDest => s_lk v = true /\ exists fd, s_sock v = Some fd /\ fd <> invalid_socket
  | Mem LockPeers => s_lk v = true /\ s_plk v = false
  | Mem (FindPeer _ | UnlockPeers) => s_plk v = true
  | Sys (Sendto fd bytes a) => s_lk v = true /\ s_sock v = Some fd /\ fd <> invalid_socket
      /\ len bytes <= max_datagram_size config /\ exists p, routed (fun p a => (p, a) ∈ s_found v) p a
  | Sys Errno => True
  | _ => False
  end.

Definition send_learns (c : call access) (v : SendView) : ans c -> SendView -> Prop :=
  match c with
  | Mem LockSend => fun _ v' => v' = mkSend true (s_plk v) None (s_found v) (s_sent v)
  | Mem UnlockSend => fun _ v' => v' = mkSend false (s_plk v) None (s_found v) (s_sent v)
  | Mem LoadSock => fun (x : Z) v' => v' = mkSend (s_lk v) (s_plk v) (Some x) (s_found v) (s_sent v)
  | Mem LoadDest => fun (x : Addr) v' => (single_peer config = true -> configured inet_pton config = Some x) /\ v' = v
  | Mem LockPeers => fun _ v' => v' = mkSend (s_lk v) true (s_sock v) (s_found v) (s_sent v)
  | Mem UnlockPeers => fun _ v' => v' = mkSend (s_lk v) false (s_sock v) (s_found v) (s_sent v)
  | Mem (FindPeer p) => fun (x : option Addr) v' =>
      v' = match x with Some a => mkSend (s_lk v) (s_plk v) (s_sock v) ((p, a) :: s_found v) (s_sent v) | None => v end
  | Sys (Sendto _ bytes a) => fun (x : Z) v' =>
      if x <? 0 then v' = v
      else x <= len bytes /\ v' = mkSend (s_lk v) (s_plk v) (s_sock v) (s_found v) (s_sent v ++ [(a, take (Z.to_nat x) bytes)])
  | _ => fun _ v' => v' = v
  end.

Definition send_rules : Rules access SendView := mkRules send_allowed send_learns.

Definition ctl_allowed (c : call access) (v : CtlView) : Prop :=
  match c with
  | Sys (Socket_udp | Pipe2) => c_thread v = None
  | Sys (Close fd) => c_thread v = None /\ fd ∈ c_fds v /\ (c_sock v = fd -> c_slk v = true)
  | Sys ((Setsockopt_reuse _ | Setsockopt _ _ | Bind _ _ _ | Fcntl_getfl _ | Fcntl_setfl _ _ | Write _ _ | Poll _ _ | Errno | Now) as c) =>
      Forall (.∈ c_fds v) (descriptors c)
  | Sys _ => False
  | Mem (LoadRunning | StoreRunning _ | ExchangeRunning _ | LoadSock) => True
  | Mem (StoreSock s) => c_thread v = None /\
      (if decide (s = invalid_socket) then c_slk v = true
       else c_sock v = invalid_socket /\ s ∈ c_fds v /\ (single_peer config = true -> c_dest v = true))
  | Mem (StoreDest a) => c_thread v = None /\ c_sock v = invalid_socket /\ configured inet_pton config = Some a
  | Mem LockSend => c_slk v = false /\ c_thread v = None /\ o_lk (c_own v) = false
  | Mem UnlockSend => c_slk v = true /\ c_sock v = invalid_socket /\ o_lk (c_own v) = false
  | Mem (Spawn imp) => c_thread v = None /\ c_slk v = false /\ o_t (c_own v) = no_peers /\ o_lk (c_own v) = false
      /\ (c_sock v ∈ c_fds v) /\ c_sock v <> invalid_socket /\ read_fd (wake imp) ∈ c_fds v
  | Mem Join => is_Some (c_thread v) /\ c_run v = false /\ c_slk v = false
  | Mem m => c_thread v = None /\ c_slk v = false /\ own_allowed inet_pton config ∅ (Mem m) (c_own v)
  end.

(** [limit] and the callbacks of the I/O thread say what it leaves. *)
Definition ctl_learns (c : call access) (v : CtlView) : ans c -> CtlView -> Prop :=
  match c with
  | Sys Socket_udp => fun (x : Z) v' =>
      if x <? 0 then v' = v
      else (x ∉ c_fds v) /\ v' = mkCtl (c_run v) (c_sock v) ({[x]} ∪ c_fds v) (c_dest v) (c_slk v) (c_thread v) (c_own v)
  | Sys Pipe2 => fun x v' =>
      if x.1 =? 0 then x.2.1 <> x.2.2 /\ 0 <= x.2.1 /\ 0 <= x.2.2 /\ (x.2.1 ∉ c_fds v) /\ (x.2.2 ∉ c_fds v)
        /\ v' = mkCtl (c_run v) (c_sock v) ({[x.2.1; x.2.2]} ∪ c_fds v) (c_dest v) (c_slk v) (c_thread v) (c_own v)
      else v' = v
  | Sys (Close fd) => fun _ v' =>
      v' = mkCtl (c_run v) (c_sock v) (c_fds v ∖ {[fd]}) (c_dest v) (c_slk v) (c_thread v) (c_own v)
  | Sys _ => fun _ v' => v' = v
  | Mem LoadRunning => fun x v' => x = c_run v /\ v' = v
  | Mem (StoreRunning b) => fun _ v' =>
      v' = mkCtl b (c_sock v) (c_fds v) (c_dest v) (c_slk v) (c_thread v) (c_own v)
  | Mem (ExchangeRunning b) => fun x v' =>
      x = c_run v /\ v' = mkCtl b (c_sock v) (c_fds v) (c_dest v) (c_slk v) (c_thread v) (c_own v)
  | Mem LoadSock => fun (x : Z) v' => x = c_sock v /\ v' = v
  | Mem (StoreSock s) => fun _ v' => v' = mkCtl (c_run v) s (c_fds v) (c_dest v) (c_slk v) (c_thread v) (c_own v)
  | Mem (StoreDest _) => fun _ v' => v' = mkCtl (c_run v) (c_sock v) (c_fds v) true (c_slk v) (c_thread v) (c_own v)
  | Mem LockSend => fun _ v' => v' = mkCtl (c_run v) (c_sock v) (c_fds v) (c_dest v) true (c_thread v) (c_own v)
  | Mem UnlockSend => fun _ v' => v' = mkCtl (c_run v) (c_sock v) (c_fds v) (c_dest v) false (c_thread v) (c_own v)
  | Mem (Spawn imp) => fun _ v' => v' = mkCtl (c_run v) (c_sock v) (c_fds v) (c_dest v) (c_slk v) (Some imp) (c_own v)
  | Mem Join => fun _ v' => exists imp o, c_thread v = Some imp /\ tidy config (callbacks imp) o
      /\ v' = mkCtl (c_run v) (c_sock v) (c_fds v) (c_dest v) (c_slk v) None o
  | Mem m => fun x v' => exists o', own_learns inet_pton config (c_sock v) (Mem m) (c_own v) x o' /\ v' = with_own o' v
  end.

Definition ctl_rules : Rules access CtlView := mkRules ctl_allowed ctl_learns.
End rules.

Inductive Command := Start (cb : TransportCallbacks) | Stop.

Fixpoint control (strerror : Z -> string) (inet_pton : string -> option Z) (config : UdpConfig)
    (cmds : list Command) (imp : Impl) : io Impl :=
  match cmds with
  | [] => Ret imp
  | Start cb :: cmds =>
      '(_, imp) ← start strerror inet_pton config cb imp; control strerror inet_pton config cmds imp
  | Stop :: cmds => imp ← stop inet_pton config imp; control strerror inet_pton config cmds imp
  end.

Fixpoint send_all (strerror : Z -> string) (config : UdpConfig) (ms : list (PeerId * list Z)) : io (list (Result unit)) :=
  match ms with
  | [] => Ret []
  | (p, m) :: ms => r ← send strerror config p m; rs ← send_all strerror config ms; Ret (r :: rs)
  end.

(** ** Senders keep their rules *)

Section sender.
Variable strerror : Z -> string.
Variable inet_pton : string -> option Z.
Variable config : UdpConfig.

(** What a call of [send] leaves on the network: the whole message, or, if it
    fails, nothing or a part of it. *)
Inductive outcome (known : Z -> Addr -> Prop) (p : PeerId) (m : list Z) : Result unit -> list (Addr * list Z) -> Prop :=
  | sent_whole a : routed inet_pton config known p a -> outcome known p m (Ok tt) [(a, m)]
  | sent_part a n e : routed inet_pton config known p a -> (n < length m)%nat -> outcome known p m (Fail e) [(a, take n m)]
  | not_sent e : outcome known p m (Fail e) [].

Inductive outcomes (known : Z -> Addr -> Prop) : list (PeerId * list Z) -> list (Result unit) -> list (Addr * list Z) -> Prop :=
  | outcomes_nil : outcomes known [] [] []
  | outcomes_cons p m ms r rs l l' :
      outcome known p m r l -> outcomes known ms rs l' -> outcomes known ((p, m) :: ms) (r :: rs) (l ++ l').

Lemma outcome_mono (K K' : Z -> Addr -> Prop) p m r l :
  (forall p a, K p a -> K' p a) -> outcome K p m r l -> outcome K' p m r l.
Proof.
  intros HK []; econstructor; try done; unfold routed in *; destruct (single_peer config); auto.
Qed.

Lemma outcomes_mono (K K' : Z -> Addr -> Prop) ms rs l :
  (forall p a, K p a -> K' p a) -> outcomes K ms rs l -> outcomes K' ms rs l.
Proof. intros HK Ho. induction Ho; constructor; [by eapply outcome_mono|done]. Qed.

Abbreviation swp := (wp (send_rules inet_pton config)).
Abbreviation known f := (fun p a => (p, a) ∈ f).
Ltac snd_simpl := cbn [s_lk s_plk s_sock s_found s_sent].

(** The destination, found with [send_mutex] held. *)
Lemma snd_destination p fd f l (Q : Result Addr -> SendView -> Prop) :
  fd <> invalid_socket ->
  (forall a f', f ⊆ f' -> routed inet_pton config (known f') p a -> Q (Ok a) (mkSend true false (Some fd) f' l)) ->
  (forall e, Q (Fail e) (mkSend true false (Some fd) f l)) ->
  swp (destination config p) Q (mkSend true false (Some fd) f l).
Proof.
  intros Hfd HQ HF. unfold destination. destruct (single_peer config) eqn:Es.
  - apply wp_bind, wp_mem; [by split; [|exists fd]|]. intros a v [Ha ->]. apply wp_ret, HQ; [done|].
    unfold routed. rewrite Es. by apply Ha.
  - apply wp_bind, wp_mem; [done|]. intros [] v ->. snd_simpl. apply wp_bind, wp_mem; [done|].
    intros [a|] v ->; snd_simpl; (apply wp_bind, wp_mem; [done|]; intros [] v ->; snd_simpl; apply wp_ret).
    + apply HQ; [by apply list_subseteq_cons|]. unfold routed. rewrite Es. by left.
    + apply HF.
Qed.

Lemma udp_snd_send p m v (Q : Result unit -> SendView -> Prop) :
  s_lk v = false -> s_plk v = false ->
  (forall r f l, outcome (known f) p m r l -> s_found v ⊆ f -> Q r (mkSend false false None f (s_sent v ++ l))) ->
  swp (send strerror config p m) Q v.
Proof.
  intros Hlk Hplk HQ. destruct v as [lk plk sk f l]. cbn in Hlk, Hplk, HQ. subst. unfold send.
  apply wp_bind, wp_mem; [done|]. intros [] v ->. snd_simpl. apply wp_bind.
  apply wp_mono with (P := fun r v => exists sk f' l', outcome (known f') p m r l' /\ f ⊆ f' /\ v = mkSend true false sk f' (l ++ l')).
  2: { intros r v (sk' & f' & l' & Ho & Hf & ->). apply wp_bind, wp_mem; [done|]. intros [] v ->. by apply wp_ret, HQ. }
  assert (forall e sk f', f ⊆ f' -> exists sk0 f0 l', outcome (known f0) p m (Fail e) l' /\ f ⊆ f0
    /\ mkSend true false sk f' l = mkSend true false sk0 f0 (l ++ l')) as Hfail.
  { intros e sk' f' Hf. exists sk', f', []. rewrite app_nil_r. split; [constructor|done]. }
  unfold send_datagram. apply wp_bind, wp_mem; [done|]. intros fd v ->. snd_simpl.
  destruct (fd =? invalid_socket) eqn:Efd; [by apply wp_ret, Hfail|]. apply Z.eqb_neq in Efd.
  destruct (max_datagram_size config <? len m) eqn:Em; [by apply wp_ret, Hfail|]. bool_to_prop.
  apply wp_bind, snd_destination; [done| |intros e; by apply wp_ret, Hfail].
  intros a f' Hf Ha. apply wp_bind, wp_sys; [repeat split; try done; by exists p|].
  intros n v Hv. cbn in Hv. destruct (n <? 0) eqn:En.
  { subst v. apply wp_bind, wp_sys; [done|]. intros err v ->. by apply wp_ret, Hfail. }
  destruct Hv as [Hn ->]. bool_to_prop. snd_simpl. destruct (n =? len m) eqn:Ee; cbn [negb]; apply wp_ret.
  - apply Z.eqb_eq in Ee. eexists _, f', _. split; [|split; [exact Hf|reflexivity]].
    rewrite take_ge by (unfold len in Ee; lia). by constructor.
  - apply Z.eqb_neq in Ee. eexists _, f', _. split; [|split; [exact Hf|reflexivity]].
    constructor; [done|]. unfold len in *. lia.
Qed.

Lemma udp_snd_send_all ms v (Q : list (Result unit) -> SendView -> Prop) :
  s_lk v = false -> s_plk v = false ->
  (forall rs f l sk, outcomes (known f) ms rs l -> s_found v ⊆ f -> Q rs (mkSend false false sk f (s_sent v ++ l))) ->
  swp (send_all strerror config ms) Q v.
Proof.
  revert v Q. induction ms as [|[p m] ms IH]; intros v Q Hlk Hplk HQ; cbn [send_all].
  - destruct v as [lk plk sk f l]. cbn in *. subst. apply wp_ret. rewrite <- (app_nil_r l). apply HQ; [constructor|done].
  - apply wp_bind, udp_snd_send; [done..|]. intros r f l Ho Hf. apply wp_bind, IH; [done..|].
    cbn. intros rs f' l' sk Hos Hf'. apply wp_ret. rewrite <- app_assoc. apply HQ; [|set_solver].
    constructor; [|done]. eapply outcome_mono; [|done]. auto.
Qed.
End sender.

(** ** The controlling thread keeps its rules *)

Section control.
Variable strerror : Z -> string.
Variable inet_pton : string -> option Z.
Variable config : UdpConfig.

Abbreviation cwp := (wp (ctl_rules inet_pton config)).
Abbreviation good cb := (tidy config cb).
Ltac ctl_simpl := cbn [c_run c_sock c_fds c_dest c_slk c_thread c_own with_own].

(** Before a socket is stored, and after it is closed. *)
Definition idle (F : gset Z) (d : bool) (o : Own) : CtlView := mkCtl false invalid_socket F d false None o.

(** While there is no I/O thread the controlling thread may do as owner what the
    owner may. *)
Lemma udp_ctl_owner_call m o v :
  c_thread v = None -> c_slk v = false -> own_allowed inet_pton config ∅ (Mem m) o ->
  ctl_allowed inet_pton config (Mem m) (with_own o v)
  /\ forall x v', ctl_learns inet_pton config (Mem m) (with_own o v) x v' ->
     exists o', own_learns inet_pton config (c_sock v) (Mem m) o x o' /\ v' = with_own o' v.
Proof.
  intros Hth Hlk Hal. destruct m; cbn in Hal; try done.
  all: try (split; [by split|]; intros x v' (o' & Ho' & ->); by exists o').
  split; [done|]. intros x v' [-> ->]. by exists o.
Qed.

Lemma udp_ctl_owner {A} (p : prog access A) (Q : A -> Own -> Prop) o v :
  c_thread v = None -> c_slk v = false -> wp (own_rules inet_pton config (c_sock v) ∅) p Q o ->
  cwp p (fun a v' => exists o', v' = with_own o' v /\ Q a o') (with_own o v).
Proof.
  intros Hth Hlk. revert o. induction p as [a|c k IH| |]; intros o Hp; try done.
  - by exists o.
  - destruct Hp as [Hal Hk]. destruct c as [c|m].
    + assert (Forall (fun fd => fd ∈ (∅ : gset Z)) (descriptors c)) as Hfds by (destruct c; done).
      assert (descriptors c = []) as Hnone.
      { destruct (descriptors c) as [|fd l]; [done|]. by apply Forall_cons in Hfds as [?%not_elem_of_empty _]. }
      split; [destruct c; try done; cbn in Hnone |- *; rewrite ?Hnone; constructor|].
      intros x v' Hx. destruct c; try done; cbn in Hx; subst v'; by apply IH, Hk.
    + destruct (udp_ctl_owner_call m o v Hth Hlk Hal) as [Hc Hl].
      split; [done|]. intros x v' Hx. destruct (Hl x v' Hx) as (o' & Ho' & ->). by apply IH, Hk.
Qed.

Lemma udp_ctl_sys (c : sys) (Q : sys_ans c -> CtlView -> Prop) v :
  match c with
  | Setsockopt_reuse _ | Setsockopt _ _ | Bind _ _ _ | Fcntl_getfl _ | Fcntl_setfl _ _ | Write _ _ | Errno => True
  | _ => False
  end ->
  Forall (.∈ c_fds v) (descriptors c) -> (forall x, Q x v) -> cwp (sys_call c) Q v.
Proof.
  intros Hc Hfds HQ. apply wp_sys; [by destruct c|]. intros x v' Hl. assert (v' = v) as ->; [|apply HQ]. by destruct c.
Qed.

Lemma udp_ctl_errno_failure {A} c what (Q : Result A -> CtlView -> Prop) v :
  (forall e, Q (Fail e) v) -> cwp (errno_failure strerror c what) Q v.
Proof. intros HQ. apply wp_bind, (udp_ctl_sys Errno); [done|constructor|]. intros err. apply wp_ret, HQ. Qed.

(** An option that is set, or its error. *)
Lemma udp_ctl_option sk opt code what (Q : Result unit -> CtlView -> Prop) v :
  sk ∈ c_fds v -> (forall r, Q r v) ->
  cwp (r ← sys_call (Setsockopt sk opt); if negb (r =? 0) then errno_failure strerror code what else Ret (Ok tt)) Q v.
Proof.
  intros Hsk HQ. apply wp_bind, (udp_ctl_sys (Setsockopt sk opt)); [done|by apply Forall_singleton|]. intros x.
  destruct_if; [by apply udp_ctl_errno_failure|by apply wp_ret].
Qed.

Lemma udp_ctl_close_call fd F d o (Q : unit -> CtlView -> Prop) :
  fd ∈ F -> 0 <= fd -> Q tt (idle (F ∖ {[fd]}) d o) -> cwp (sys_call (Close fd)) Q (idle F d o).
Proof.
  intros Hfd H0 HQ. apply wp_sys; [|by intros [] v ->]. split; [done|]. split; [done|]. cbn. unfold invalid_socket. lia.
Qed.

Lemma udp_ctl_close_fd fd F d o (Q : unit -> CtlView -> Prop) :
  fd ∈ F -> 0 <= fd -> Q tt (idle (F ∖ {[fd]}) d o) -> cwp (close_socket fd) Q (idle F d o).
Proof.
  intros Hfd H0 HQ. unfold close_socket. rewrite (proj2 (Z.eqb_neq _ _)) by (unfold invalid_socket; lia).
  by apply udp_ctl_close_call.
Qed.

Lemma udp_ctl_end a b fd sk d o (Q : Result unit -> CtlView -> Prop) :
  fd = a \/ fd = b -> a <> b -> a <> sk -> b <> sk -> 0 <= a -> 0 <= b ->
  Q (Ok tt) (idle {[a; b; sk]} d o) -> (forall e, Q (Fail e) (idle {[sk]} d o)) ->
  cwp (set_end_nonblocking strerror (a, b) fd) Q (idle {[a; b; sk]} d o).
Proof.
  intros Hfd Hab Ha Hb Ha0 Hb0 HQ HF. assert (Hin : Forall (.∈ ({[a; b; sk]} : gset Z)) [fd]).
  { apply Forall_singleton. set_solver. }
  apply wp_bind, (udp_ctl_sys (Fcntl_getfl fd)); [done|done|]. intros flags.
  apply wp_bind. apply wp_mono with (P := fun _ v' => v' = idle {[a; b; sk]} d o).
  { destruct_if; [done|]. by apply wp_bind, udp_ctl_sys. }
  intros [] v ->; [|done].
  apply wp_bind, udp_ctl_close_call; [set_solver|done|]. apply wp_bind, udp_ctl_close_call; [set_solver|done|].
  replace (({[a; b; sk]} ∖ {[(a, b).1]} : gset Z) ∖ {[(a, b).2]}) with ({[sk]} : gset Z) by (simpl; set_solver).
  by apply udp_ctl_errno_failure.
Qed.

Lemma udp_ctl_create_wake_pipe sk d o (Q : Result WakePipe -> CtlView -> Prop) :
  (forall a b, a <> b -> a <> sk -> b <> sk -> 0 <= a -> 0 <= b -> Q (Ok (mkWakePipe a b)) (idle {[a; b; sk]} d o)) ->
  (forall e, Q (Fail e) (idle {[sk]} d o)) ->
  cwp (create_wake_pipe strerror) Q (idle {[sk]} d o).
Proof.
  intros HQ HF. apply wp_bind, wp_sys; [done|]. intros [r [a b]] v Hv. cbn in Hv.
  destruct (r =? 0) eqn:Er; cbn [negb].
  - destruct Hv as (Hab & Ha & Hb & Hna & Hnb & ->). apply not_elem_of_singleton in Hna, Hnb.
    apply wp_bind, udp_ctl_end; [by left|done..| |intros e; apply wp_ret, HF].
    apply wp_bind, udp_ctl_end; [by right|done..| |intros e; apply wp_ret, HF].
    by apply wp_ret, HQ.
  - subst. by apply udp_ctl_errno_failure.
Qed.

Lemma udp_ctl_refuse sk e imp d o (Q : Result unit * Impl -> CtlView -> Prop) :
  0 <= sk -> (forall r, Q (r, imp) (idle ∅ d o)) -> cwp (refuse sk e imp) Q (idle {[sk]} d o).
Proof.
  intros Hsk HQ. apply wp_bind, udp_ctl_close_fd; [set_solver|done|]. rewrite difference_diag_L.
  by apply wp_bind, wp_ret, wp_ret.
Qed.

Lemma udp_ctl_refuse_errno sk what imp d o (Q : Result unit * Impl -> CtlView -> Prop) :
  0 <= sk -> (forall r, Q (r, imp) (idle ∅ d o)) -> cwp (refuse_errno strerror sk what imp) Q (idle {[sk]} d o).
Proof.
  intros Hsk HQ. apply wp_bind, udp_ctl_close_fd; [set_solver|done|]. rewrite difference_diag_L.
  apply wp_bind, (udp_ctl_sys Errno); [done|constructor|]. intros err. by apply wp_bind, wp_ret, wp_ret.
Qed.

Lemma udp_ctl_buffer_sizes sk a b (Q : Result unit -> CtlView -> Prop) v :
  sk ∈ c_fds v -> (forall r, Q r v) -> cwp (set_socket_buffer_sizes strerror sk a b) Q v.
Proof.
  intros Hsk HQ. unfold set_socket_buffer_sizes.
  assert (forall s o (P : Z -> CtlView -> Prop), (forall x, P x v) ->
    cwp (if 0 <? s then sys_call (Setsockopt sk o) else Ret 0) P v) as Hopt.
  { intros s o P HP. destruct_if; [|by apply wp_ret]. apply (udp_ctl_sys (Setsockopt sk o)); [done|by apply Forall_singleton|done]. }
  apply wp_bind, Hopt. intros r. destruct_if; [by apply udp_ctl_errno_failure|].
  apply wp_bind, Hopt. intros r'. destruct_if; [by apply udp_ctl_errno_failure|by apply wp_ret].
Qed.

Lemma udp_ctl_multicast_options sk d o (Q : Result unit -> CtlView -> Prop) :
  (forall r d', (r = Ok tt -> multicast config = true -> d' = true) -> Q r (idle {[sk]} d' o)) ->
  cwp (multicast_options strerror inet_pton config sk) Q (idle {[sk]} d o).
Proof.
  intros HQ. unfold multicast_options. destruct (multicast config) eqn:Em; cbn [negb]; [|by apply wp_ret, HQ].
  assert (forall e, Q (Fail e) (idle {[sk]} d o)) as HF by (intros; by apply HQ).
  assert (sk ∈ c_fds (idle {[sk]} d o)) as Hsk by (cbn; set_solver).
  destruct_if; [by apply wp_ret|]. destruct (inet_pton (multicast_group config)) as [g|] eqn:Eg; [|by apply wp_ret].
  destruct_if; [by apply wp_ret|].
  apply wp_bind, udp_ctl_option; [done|]. intros [[]|]; [|by apply wp_ret].
  apply wp_bind, udp_ctl_option; [done|]. intros [[]|]; [|by apply wp_ret].
  apply wp_bind. unfold set_multicast_interface. destruct (inet_pton (interface config)); [|by do 2 apply wp_ret].
  apply udp_ctl_option; [done|]. intros [[]|]; [|by apply wp_ret].
  apply wp_bind, wp_mem; [split; [done|]; split; [done|]; unfold configured; by rewrite Em, Eg|]. intros [] v ->. by apply wp_ret, HQ.
Qed.

Lemma udp_ctl_connect_peer sk d o (Q : Result unit -> CtlView -> Prop) :
  (multicast config = true -> d = true) ->
  (forall r d', (r = Ok tt -> single_peer config = true -> d' = true) -> Q r (idle {[sk]} d' o)) ->
  cwp (connect_peer strerror inet_pton config sk) Q (idle {[sk]} d o).
Proof.
  intros Hd HQ. unfold connect_peer. destruct (multicast config) eqn:Em.
  - specialize (Hd eq_refl). subst d. assert (forall r, Q r (idle {[sk]} true o)) as HQ' by (intros; by apply HQ).
    unfold join_multicast_group. destruct (inet_pton _); [|by apply wp_ret]. destruct (inet_pton _); [|by apply wp_ret].
    apply udp_ctl_option; [cbn; set_solver|done].
  - destruct (single_peer config) eqn:Es; [|by apply wp_ret, HQ].
    destruct (inet_pton (remote_address config)) as [a|] eqn:Ea; [|by apply wp_ret, HQ].
    apply wp_bind, wp_mem; [split; [done|]; split; [done|]; unfold configured; by rewrite Em, Ea|]. intros [] v ->. by apply wp_ret, HQ.
Qed.

(** ** Starting and stopping *)

Definition settled (imp : Impl) (v : CtlView) : Prop :=
  let sk := c_sock v in let rd := read_fd (wake imp) in let wr := write_fd (wake imp) in
  o_lk (c_own v) = false /\
  if c_run v then v = mkCtl true sk {[rd; wr; sk]} (c_dest v) false (Some imp) (c_own v)
    /\ rd <> wr /\ rd <> sk /\ wr <> sk /\ 0 <= rd /\ 0 <= wr /\ 0 <= sk /\ joinable imp = true
    /\ (single_peer config = true -> c_dest v = true)
  else v = idle ∅ (c_dest v) (c_own v) /\ o_t (c_own v) = no_peers
    /\ (single_peer config = false -> on_peer_disconnected (callbacks imp) = true -> o_live (c_own v) = ∅).

Lemma udp_ctl_start cb imp v (Q : Result unit * Impl -> CtlView -> Prop) :
  settled imp v -> (forall r imp' v', settled imp' v' -> Q (r, imp') v') ->
  cwp (start strerror inet_pton config cb imp) Q v.
Proof.
  intros Hv HQ. apply wp_bind, wp_mem; [done|]. intros x v' [-> ->]. pose proof Hv as [Hlk Hv'].
  destruct (c_run v) eqn:Er; [by apply wp_ret, HQ|]. destruct Hv' as (Ev & Ht & Hlive). clear Hv.
  set (o := c_own v) in *. set (d := c_dest v) in *. rewrite Ev. clearbody o d. clear v Er Ev.
  assert (HN : forall r d', Q (r, imp) (idle ∅ d' o)) by (intros r d'; by apply HQ).
  apply wp_bind, wp_ret, wp_bind, wp_bind, wp_sys; [done|]. intros sk v Hsk. cbn in Hsk.
  destruct (sk <? 0) eqn:Els.
  { subst v. apply udp_ctl_errno_failure. intros e. by apply wp_bind, wp_ret, wp_ret. }
  destruct Hsk as [_ ->]. bool_to_prop. apply wp_ret. rewrite (right_id_L ∅ (∪)).
  assert (Hin : forall d, sk ∈ c_fds (idle {[sk]} d o)) by (cbn; set_solver).
  apply wp_bind. unfold set_reuse_addr. apply wp_bind, (udp_ctl_sys (Setsockopt_reuse sk)); [done|apply Forall_singleton, (Hin d)|].
  intros r. destruct_if; [apply udp_ctl_errno_failure; intros e; by apply udp_ctl_refuse|].
  apply wp_ret, wp_bind. apply wp_mono with (P := fun _ v => v = idle {[sk]} d o).
  { destruct_if; [|done]. by apply wp_bind, (udp_ctl_sys (Setsockopt sk SO_REUSEPORT)); [|apply Forall_singleton, (Hin d)|]. }
  intros [] v ->. apply wp_bind, udp_ctl_buffer_sizes; [done|]. intros _.
  apply wp_bind, udp_ctl_multicast_options. intros [[]|e] d1 Hd1; [|by apply udp_ctl_refuse]. specialize (Hd1 eq_refl).
  destruct (inet_pton (bind_address config)) as [addr|]; [|by apply udp_ctl_refuse].
  apply wp_bind, (udp_ctl_sys (Bind sk addr (bind_port config))); [done|apply Forall_singleton, (Hin d1)|]. intros b.
  destruct_if; [by apply udp_ctl_refuse_errno|].
  apply wp_bind, udp_ctl_connect_peer; [done|]. intros [[]|e] d2 Hd2; [|by apply udp_ctl_refuse]. specialize (Hd2 eq_refl).
  apply wp_bind, udp_ctl_create_wake_pipe; [|intros e; by apply udp_ctl_refuse].
  intros rd wr Hab Ha Hb Hrd Hwr. cbn zeta. assert (sk <> invalid_socket) by (unfold invalid_socket; lia).
  apply wp_bind, wp_mem; [split; [done|]; rewrite decide_False by done; cbn; set_solver|]. intros [] v ->.
  apply wp_bind, wp_mem; [done|]. intros [] v ->. apply wp_bind, wp_mem; [cbn; set_solver|].
  intros [] v ->. apply wp_ret, HQ. by repeat split.
Qed.

Lemma udp_ctl_close_transport sk F d o (Q : unit -> CtlView -> Prop) :
  0 <= sk -> sk ∈ F -> o_lk o = false -> Q tt (idle (F ∖ {[sk]}) d o) ->
  cwp (close_transport inet_pton config) Q (mkCtl false sk F d false None o).
Proof.
  intros Hsk HF Hlk HQ. unfold close_transport. apply wp_bind, wp_mem; [done|]. intros [] v ->. ctl_simpl.
  apply wp_bind, wp_mem; [done|]. intros x v [-> ->]. ctl_simpl.
  rewrite (proj2 (Z.eqb_neq _ _)) by (unfold invalid_socket; lia). cbn [negb]. apply wp_bind, wp_bind.
  apply wp_mono with (P := fun _ v => v = mkCtl false sk F d true None o).
  { destruct_if; [|done]. by apply wp_bind, (udp_ctl_sys (Setsockopt sk _)); [|apply Forall_singleton|]. }
  intros [] v ->. apply wp_bind. unfold close_socket. rewrite (proj2 (Z.eqb_neq _ _)) by (unfold invalid_socket; lia).
  apply wp_sys; [done|]. intros [] v ->. ctl_simpl.
  apply wp_mem; [split; [done|]; by rewrite decide_True|]. intros [] v ->. ctl_simpl.
  apply wp_mem; [done|]. by intros [] v ->.
Qed.

(** The peers in the tables, each once. *)
Lemma own_forget_peers cb sk (Q : list PeerId -> Own -> Prop) o :
  good cb o ->
  (forall ps, NoDup ps -> list_to_set ps = dom (peer_to_addr (o_t o)) -> Q ps (mkOwn no_peers false (o_live o) (o_dgram o))) ->
  wp (own_rules inet_pton config sk ∅) forget_peers Q o.
Proof.
  intros [Hlk [Hinv Hact _ _] _] HQ. destruct o as [T lk l dg]. cbn in Hlk, Hinv, Hact, HQ. subst lk. unfold forget_peers.
  apply wp_bind, wp_mem; [done|]. intros [] o ->. own_simpl. apply wp_bind, wp_mem; [done|]. intros ps o [Hps ->]. cbn in Hps. own_simpl.
  apply wp_bind, wp_mem; [done|]. intros [] o ->. own_simpl.
  apply wp_bind, wp_mem; [split; [done|apply consistent_none]|]. intros [] o ->. own_simpl. apply wp_ret, HQ.
  - rewrite Hps. apply NoDup_fmap_2_strong; [|apply NoDup_map_to_list].
    intros [a p] [b q] Ha%elem_of_map_to_list Hb%elem_of_map_to_list Hpq. cbn in Hpq. subst q.
    apply Hinv in Ha, Hb. congruence.
  - apply set_eq. intros p. rewrite elem_of_list_to_set, Hps, list_elem_of_fmap, elem_of_dom. split.
    + intros ([a q] & -> & Ha%elem_of_map_to_list). exists a. by apply Hinv.
    + intros [a Ha%Hinv]. exists (a, p). by rewrite elem_of_map_to_list.
Qed.

(** The peers are forgotten and told so. *)
Lemma own_drop_peers imp sk o :
  good (callbacks imp) o ->
  wp (own_rules inet_pton config sk ∅) forget_peers
    (fun ps => wp (own_rules inet_pton config sk ∅) (tell_all imp ps)
       (fun _ o' => o_t o' = no_peers /\ o_lk o' = false
          /\ (single_peer config = false -> on_peer_disconnected (callbacks imp) = true -> o_live o' = ∅))) o.
Proof.
  intros Hg. apply (own_forget_peers (callbacks imp)); [done|]. intros ps Hnd Hps. destruct Hg as [_ _ Hlive].
  apply udp_own_tell_all; [done|done| |].
  - intros Hs p Hp. apply (Hlive Hs). rewrite <- Hps. by apply elem_of_list_to_set.
  - destruct (on_peer_disconnected (callbacks imp)); [|done]. split; [done|]. split; [done|]. intros Hs _. cbn.
    rewrite (proj2 (Hlive Hs) eq_refl), Hps. apply difference_diag_L.
Qed.

Lemma udp_ctl_close_wake_pipe a b d o (Q : WakePipe -> CtlView -> Prop) :
  a <> b -> 0 <= a -> 0 <= b -> Q wake_pipe0 (idle ∅ d o) ->
  cwp (close_wake_pipe (mkWakePipe a b)) Q (idle {[a; b]} d o).
Proof.
  intros Hab Ha Hb HQ. unfold close_wake_pipe. cbn [read_fd write_fd].
  rewrite !(proj2 (Z.eqb_neq _ _)) by (unfold invalid_socket; lia). cbn [negb].
  apply wp_bind, udp_ctl_close_call; [set_solver|done|]. apply wp_bind, udp_ctl_close_call; [set_solver|done|].
  replace (({[a; b]} ∖ {[a]} : gset Z) ∖ {[b]}) with (∅ : gset Z) by set_solver. by apply wp_ret.
Qed.

(** In single-peer mode, the one peer. *)
Lemma own_tell_single imp sk o :
  o_lk o = false ->
  wp (own_rules inet_pton config sk ∅)
    (if single_peer config && peer_valid (peer_id imp) then tell_disconnected imp (peer_id imp) else Ret tt)
    (fun _ o' => o_t o' = o_t o /\ o_lk o' = false /\ (single_peer config = false -> o' = o)) o.
Proof.
  intros Hlk. destruct (single_peer config) eqn:Es; cbn [andb]; [|by apply wp_ret].
  destruct_if; [|by apply wp_ret]. apply udp_own_tell; [done|congruence|]. by destruct_if.
Qed.

Lemma udp_ctl_as_owner {A} (p : prog access A) (P : A -> Own -> Prop) F d o (Q : A -> CtlView -> Prop) :
  wp (own_rules inet_pton config invalid_socket ∅) p P o -> (forall a o', P a o' -> Q a (idle F d o')) ->
  cwp p Q (idle F d o).
Proof.
  intros Hp HPQ. eapply wp_mono; [exact (udp_ctl_owner p P o (idle F d o) eq_refl eq_refl Hp)|].
  intros a v (o' & -> & Ho). by apply HPQ.
Qed.

Lemma udp_ctl_stop imp v (Q : Impl -> CtlView -> Prop) :
  settled imp v -> (forall imp' v', settled imp' v' -> c_run v' = false -> Q imp' v') -> cwp (stop inet_pton config imp) Q v.
Proof.
  intros Hv HQ. apply wp_bind, wp_mem; [done|]. intros x v' [-> ->]. pose proof Hv as [Hlk Hv'].
  destruct (c_run v) eqn:Er; cbn [negb].
  2: { apply wp_ret, HQ; [|done]. by destruct Hv' as (-> & ? & ?). }
  destruct imp as [cb pid [rd wr] j]. cbn [wake read_fd write_fd joinable] in Hv'.
  destruct Hv' as (Ev & Hab & Ha & Hb & Hrd & Hwr & Hsk & -> & Hd). clear Hv.
  set (o := c_own v) in *. set (d := c_dest v) in *. set (sk := c_sock v) in *. rewrite Ev. clearbody o d sk. clear v Er Ev.
  ctl_simpl. cbn [wake joinable]. apply wp_bind. unfold signal_wake_pipe. cbn [write_fd].
  rewrite (proj2 (Z.eqb_neq wr _)) by (unfold invalid_socket; lia). cbn [negb].
  apply wp_bind, (udp_ctl_sys (Write wr [1])); [done|apply Forall_singleton; cbn; set_solver|].
  intros n. apply wp_ret, wp_bind, wp_bind, wp_mem; [by split|].
  intros p v (imp & o' & [= <-] & Hg & ->). ctl_simpl. cbn [callbacks wake] in Hg |- *. clear o Hlk. rename o' into o. apply wp_ret.
  set (imp := mkImpl cb p (mkWakePipe rd wr) false). change cb with (callbacks imp) in Hg.
  apply wp_bind, udp_ctl_close_transport; [done|set_solver|apply Hg|].
  replace ({[rd; wr; sk]} ∖ {[sk]} : gset Z) with ({[rd; wr]} : gset Z) by set_solver.
  apply wp_bind. eapply udp_ctl_as_owner; [by apply own_drop_peers|]. intros ps o1 Hwp.
  apply wp_bind. eapply udp_ctl_as_owner; [exact Hwp|]. intros [] o2 (Ht & Hlk & Hlive).
  apply wp_bind. eapply udp_ctl_as_owner; [by apply own_tell_single|]. intros [] o3 (Ht3 & Hlk3 & Hsame).
  apply wp_bind, udp_ctl_close_wake_pipe; [done..|].
  apply wp_bind, wp_ret, wp_ret, HQ; [|done]. split; [done|]. split; [done|]. split; [by cbn; rewrite Ht3|].
  cbn. intros Hs Hcb. rewrite (Hsame Hs). by apply Hlive.
Qed.

Lemma udp_ctl_control cmds imp v :
  settled imp v -> cwp (control strerror inet_pton config cmds imp) settled v.
Proof.
  revert imp v. induction cmds as [|[cb|] cmds IH]; intros imp v Hv; cbn [control].
  - by apply wp_ret.
  - apply wp_bind, udp_ctl_start; [done|]. intros r imp' v' Hv'. by apply IH.
  - apply wp_bind, udp_ctl_stop; [done|]. intros imp' v' Hv' _. by apply IH.
Qed.
End control.
