(* ===== verification/UdpSpec.v ===== *)
(** * UDP transport: all threads together

    The I/O thread, the controlling thread and any number of senders interleave at
    every system call and every access to what they share.  [step] is one such call
    of one thread; the kernel and the transceiver answer arbitrarily within what
    they promise ([exec]).  The view of the owner is a function of the world
    ([own_of]); the invariant ties the other views to it. *)

From stdpp Require Import base numbers list gmap sets functions strings pretty.
From Stdlib Require Import ZArith Lia.
From S2P Require Import Prelude CoreError Handler Transceiver SysCalls SocketOps Udp UdpThreads UdpControl.

Open Scope Z_scope.

Inductive Tid := Io | Ctl | Snd (i : nat).

Global Instance Tid_eq_dec : EqDecision Tid.
Proof. solve_decision. Defined.

(** What the threads share, the open descriptors, and, as history: the peers
    reported connected in this session and not disconnected since, the datagram
    received last, the addresses peers were registered with, and the datagrams
    sent, with the thread that sent them. *)
Record World := mkWorld {
  w_running : bool;
  w_sock : Z;
  w_dest : Addr;
  w_send : option Tid;
  w_peers : option Tid;
  w_open : gset Z;
  w_tables : Tables;
  w_live : gset Z;
  w_dgram : option (Addr * list Z);
  w_known : list (Z * Addr);
  w_wire : list (Tid * (Addr * list Z));
}.

Definition set_running b w := mkWorld b (w_sock w) (w_dest w) (w_send w) (w_peers w) (w_open w) (w_tables w) (w_live w) (w_dgram w) (w_known w) (w_wire w).
Definition set_sock s w := mkWorld (w_running w) s (w_dest w) (w_send w) (w_peers w) (w_open w) (w_tables w) (w_live w) (w_dgram w) (w_known w) (w_wire w).
Definition set_dest a w := mkWorld (w_running w) (w_sock w) a (w_send w) (w_peers w) (w_open w) (w_tables w) (w_live w) (w_dgram w) (w_known w) (w_wire w).
Definition set_send t w := mkWorld (w_running w) (w_sock w) (w_dest w) t (w_peers w) (w_open w) (w_tables w) (w_live w) (w_dgram w) (w_known w) (w_wire w).
Definition set_peers t w := mkWorld (w_running w) (w_sock w) (w_dest w) (w_send w) t (w_open w) (w_tables w) (w_live w) (w_dgram w) (w_known w) (w_wire w).
Definition set_open o w := mkWorld (w_running w) (w_sock w) (w_dest w) (w_send w) (w_peers w) o (w_tables w) (w_live w) (w_dgram w) (w_known w) (w_wire w).
Definition set_tables T w := mkWorld (w_running w) (w_sock w) (w_dest w) (w_send w) (w_peers w) (w_open w) T (w_live w) (w_dgram w) (w_known w) (w_wire w).
Definition set_live l w := mkWorld (w_running w) (w_sock w) (w_dest w) (w_send w) (w_peers w) (w_open w) (w_tables w) l (w_dgram w) (w_known w) (w_wire w).
Definition set_dgram d w := mkWorld (w_running w) (w_sock w) (w_dest w) (w_send w) (w_peers w) (w_open w) (w_tables w) (w_live w) d (w_known w) (w_wire w).
Definition set_known k w := mkWorld (w_running w) (w_sock w) (w_dest w) (w_send w) (w_peers w) (w_open w) (w_tables w) (w_live w) (w_dgram w) k (w_wire w).
Definition set_wire l w := mkWorld (w_running w) (w_sock w) (w_dest w) (w_send w) (w_peers w) (w_open w) (w_tables w) (w_live w) (w_dgram w) (w_known w) l.

Definition on_addrs (f : gmap Addr Z -> gmap Addr Z) (w : World) : World :=
  set_tables (mkTables (f (addr_to_peer (w_tables w))) (peer_to_addr (w_tables w)) (last_activity (w_tables w))) w.
Definition on_peers (f : gmap Z Addr -> gmap Z Addr) (w : World) : World :=
  set_tables (mkTables (addr_to_peer (w_tables w)) (f (peer_to_addr (w_tables w))) (last_activity (w_tables w))) w.
Definition on_activity (f : gmap Z Z -> gmap Z Z) (w : World) : World :=
  set_tables (mkTables (addr_to_peer (w_tables w)) (peer_to_addr (w_tables w)) (f (last_activity (w_tables w)))) w.

(** A call of thread [t].  New descriptors are fresh; a mutex is granted when it is
    free; [sendto] sends a front part of the message or fails; the transceiver gives
    a new peer an identifier that is not in use, or none. *)
Definition exec (t : Tid) (c : call access) (w : World) : ans c -> World -> Prop :=
  match c with
  | Sys Socket_udp => fun (x : Z) w' =>
      if x <? 0 then w' = w else (x ∉ w_open w) /\ w' = set_open ({[x]} ∪ w_open w) w
  | Sys Pipe2 => fun x w' =>
      if x.1 =? 0 then x.2.1 <> x.2.2 /\ 0 <= x.2.1 /\ 0 <= x.2.2 /\ (x.2.1 ∉ w_open w) /\ (x.2.2 ∉ w_open w)
        /\ w' = set_open ({[x.2.1; x.2.2]} ∪ w_open w) w
      else w' = w
  | Sys (Close fd) => fun _ w' => w' = set_open (w_open w ∖ {[fd]}) w
  | Sys (Sendto _ bytes a) => fun (x : Z) w' =>
      if x <? 0 then w' = w
      else x <= len bytes /\ w' = set_wire (w_wire w ++ [(t, (a, take (Z.to_nat x) bytes))]) w
  | Sys (Recvfrom _ size) => fun x w' =>
      if x.1 <? 0 then w' = w
      else x.1 = len x.2.1 /\ x.1 <= size /\ w' = set_dgram (Some (x.2.2, x.2.1)) w
  | Sys _ => fun _ w' => w' = w
  | Mem LoadRunning => fun x w' => x = w_running w /\ w' = w
  | Mem (StoreRunning b) => fun _ w' => w' = set_running b w
  | Mem (ExchangeRunning b) => fun x w' => x = w_running w /\ w' = set_running b w
  | Mem LoadSock => fun (x : Z) w' => x = w_sock w /\ w' = w
  | Mem (StoreSock s) => fun _ w' => w' = set_sock s w
  | Mem LoadDest => fun (x : Addr) w' => x = w_dest w /\ w' = w
  | Mem (StoreDest a) => fun _ w' => w' = set_dest a w
  | Mem LockSend => fun _ w' => w_send w = None /\ w' = set_send (Some t) w
  | Mem UnlockSend => fun _ w' => w' = set_send None w
  | Mem LockPeers => fun _ w' => w_peers w = None /\ w' = set_peers (Some t) w
  | Mem UnlockPeers => fun _ w' => w' = set_peers None w
  | Mem (FindAddr a) => fun (x : option Z) w' => x = addr_to_peer (w_tables w) !! a /\ w' = w
  | Mem (FindPeer p) => fun (x : option Addr) w' => x = peer_to_addr (w_tables w) !! p /\ w' = w
  | Mem PeersSize => fun (x : Z) w' => x = Z.of_nat (size (addr_to_peer (w_tables w))) /\ w' = w
  | Mem ListActivity => fun (x : list (Z * Z)) w' => x ≡ₚ map_to_list (last_activity (w_tables w)) /\ w' = w
  | Mem ListAddrs => fun (x : list (Addr * Z)) w' => x ≡ₚ map_to_list (addr_to_peer (w_tables w)) /\ w' = w
  | Mem (SetAddr a p) => fun _ w' => w' = on_addrs <[a := p]> w
  | Mem (SetPeer p a) => fun _ w' => w' = set_known ((p, a) :: w_known w) (on_peers <[p := a]> w)
  | Mem (SetActivity p now) => fun _ w' => w' = on_activity <[p := now]> w
  | Mem (EraseAddr a) => fun _ w' => w' = on_addrs (delete a) w
  | Mem (ErasePeer p) => fun _ w' => w' = on_peers (delete p) w
  | Mem (EraseActivity p) => fun _ w' => w' = on_activity (delete p) w
  | Mem ClearTables => fun _ w' => w' = set_tables no_peers w
  | Mem (OnPeerConnected _) => fun (x : Z) w' =>
      if peer_valid x then peer_to_addr (w_tables w) !! x = None /\ (x ∉ w_live w) /\ w' = set_live ({[x]} ∪ w_live w) w
      else w' = w
  | Mem (OnPeerDisconnected p) => fun _ w' => w' = set_live (w_live w ∖ {[p]}) w
  | Mem (OnStateChanged _ _ | OnDataReceived _ _) => fun _ w' => w' = w
  | Mem (Spawn _ | Join) => fun _ _ => False
  end.

Section pool.
Variable strerror : Z -> string.
Variable inet_pton : string -> option Z.
Variable inet_ntop : Z -> string.
Variable config : UdpConfig.
Variable fuel : nat.

Record Pool := mkPool {
  p_world : World;
  p_io : option (prog access PeerId);
  p_ctl : prog access Impl;
  p_snd : list (prog access (list (Result unit)));
}.

(** A new session begins when the I/O thread is created. *)
Definition new_session (w : World) : World := set_dgram None (set_live ∅ w).

Inductive step : Pool -> Pool -> Prop :=
  | step_io w c k x w' ctl snd :
      exec Io c w x w' ->
      step (mkPool w (Some (Vis c k)) ctl snd) (mkPool w' (Some (k x)) ctl snd)
  | step_ctl w io c k x w' snd :
      exec Ctl c w x w' ->
      step (mkPool w io (Vis c k) snd) (mkPool w' io (k x) snd)
  | step_snd w io ctl snd i c k x w' :
      snd !! i = Some (Vis c k) -> exec (Snd i) c w x w' ->
      step (mkPool w io ctl snd) (mkPool w' io ctl (<[i := k x]> snd))
  | step_spawn w imp k snd :
      step (mkPool w None (Vis (Mem (Spawn imp)) k) snd)
           (mkPool (new_session w) (Some (io_loop inet_ntop config fuel imp)) (k tt) snd)
  | step_join w p (k : PeerId -> prog access Impl) snd :
      step (mkPool w (Some (Ret p)) (Vis (Mem Join) k) snd) (mkPool w None (k p) snd).

Definition world0 : World := mkWorld false invalid_socket (0, 0) None None ∅ no_peers ∅ None [] [].
Definition pool0 (cmds : list Command) (msgs : list (list (PeerId * list Z))) : Pool :=
  mkPool world0 None (control strerror inet_pton config cmds impl0) (send_all strerror config <$> msgs).

Definition reachable cmds msgs : Pool -> Prop := rtc step (pool0 cmds msgs).

Definition next (σ : Pool) (t : Tid) : option (call access) :=
  match t with
  | Io => p_io σ ≫= next_call
  | Ctl => next_call (p_ctl σ)
  | Snd i => p_snd σ !! i ≫= next_call
  end.

(** ** The invariant *)

Definition own_of (t : Tid) (w : World) : Own :=
  mkOwn (w_tables w) (bool_decide (w_peers w = Some t)) (w_live w) (w_dgram w).

Definition owner_of (v : CtlView) : Tid := match c_thread v with Some _ => Io | None => Ctl end.

Definition sent_by (i : nat) (w : World) : list (Addr * list Z) :=
  (filter (fun e => e.1 = Snd i) (w_wire w)).*2.

Record links (w : World) (v : CtlView) (vs : nat -> SendView) : Prop := {
  l_running : w_running w = c_run v;
  l_csock : w_sock w = c_sock v;
  l_fds : w_open w = c_fds v;
  l_dest : c_dest v = true -> configured inet_pton config = Some (w_dest w);
  l_cslk : w_send w = Some Ctl <-> c_slk v = true;
  l_send : w_send w <> Some Io;
  l_thread : is_Some (c_thread v) -> c_slk v = false;
  l_slk : forall i, w_send w = Some (Snd i) <-> s_lk (vs i) = true;
  l_splk : forall i, w_peers w = Some (Snd i) <-> s_plk (vs i) = true;
  l_order : forall i, s_plk (vs i) = true -> s_lk (vs i) = true;
  l_sock : forall i s, s_sock (vs i) = Some s -> s_lk (vs i) = true /\ (s <> invalid_socket -> w_sock w = s);
  l_stored : w_sock w <> invalid_socket -> c_slk v = false ->
    w_sock w ∈ w_open w /\ (single_peer config = true -> configured inet_pton config = Some (w_dest w));
  l_found : forall i p a, (p, a) ∈ s_found (vs i) -> (p, a) ∈ w_known w;
  l_sent : forall i, sent_by i w = s_sent (vs i);
  l_wire : forall e, e ∈ w_wire w -> exists i, e.1 = Snd i;
  l_holder : forall t, w_peers w = Some t -> t = owner_of v \/ exists i, t = Snd i;
  l_tables : w_peers w <> Some (owner_of v) -> consistent (max_peers config) (w_tables w);
  l_known : forall p a, peer_to_addr (w_tables w) !! p = Some a -> (p, a) ∈ w_known w;
}.

(** A call of the owner changes its view as its rules say, *)
Lemma udp_own_step t c w x w' fds :
  exec t c w x w' -> own_allowed inet_pton config fds c (own_of t w) ->
  (fds <> ∅ -> single_peer config = true -> configured inet_pton config = Some (w_dest w)) ->
  own_learns inet_pton config (w_sock w) c (own_of t w) x (own_of t w').
Proof.
  intros Hx Hal Hd. destruct c as [[]|[]]; cbn in Hal; try done; cbn in Hx |- *; try (by subst); try (by destruct Hx as [-> ->]).
  - destruct (x.1 <? 0); [by subst|]. by destruct Hx as (? & ? & ->).
  - destruct Hx as [-> ->]. split; [by apply Hd|done].
  - destruct Hx as [_ ->]. unfold own_of, with_lk. cbn. by rewrite bool_decide_true.
  - destruct (peer_valid x); [|by subst]. by destruct Hx as (? & ? & ->).
Qed.

(** and keeps the invariant. *)
Lemma own_links c w x w' fds v vs :
  links w v vs -> exec (owner_of v) c w x w' -> own_allowed inet_pton config fds c (own_of (owner_of v) w) -> links w' v vs.
Proof.
  intros L Hx Hal.
  assert (forall i, owner_of v <> Snd i) as Hne by (unfold owner_of; by destruct (c_thread v)).
  assert (forall T k, w_peers w = Some (owner_of v) -> (forall e, e ∈ w_known w -> e ∈ k) ->
    (forall p a, peer_to_addr T !! p = Some a -> (p, a) ∈ k) -> links (set_known k (set_tables T w)) v vs) as Hset.
  { intros T k Hp Hk HT. destruct L. constructor; cbn; try done.
    intros i p a Hf. by eapply Hk, l_found0. }
  assert (forall T, w_peers w = Some (owner_of v) ->
    (forall p a, peer_to_addr T !! p = Some a -> peer_to_addr (w_tables w) !! p = Some a) -> links (set_tables T w) v vs) as Hshrink.
  { intros T Hp HT. apply (Hset T (w_known w)); [done|done|]. intros p a Ha. by apply (l_known _ _ _ L), HT. }
  destruct c as [[]|[]]; cbn in Hal; try done; cbn in Hx; try (by subst); try (by destruct Hx as [_ ->]);
    try (apply bool_decide_eq_true in Hal); subst; try (apply Hshrink; [done|]; cbn; by intros).
  - destruct (x.1 <? 0); [by subst|]. destruct Hx as (? & ? & ->). by destruct L; constructor.
  - destruct Hx as [Hp ->]. destruct L. constructor; cbn; try done.
    + intros i. rewrite <- l_splk0, Hp. split; [|done]. intros [= E]. by destruct (Hne i).
    + intros t [= <-]. by left.
  - destruct Hal as [Hp%bool_decide_eq_true Hc]. destruct L. constructor; cbn; try done.
    intros i. rewrite <- l_splk0, Hp. split; [done|]. intros [= E]. by destruct (Hne i).
  - apply Hset; [done|set_solver|]. cbn. intros p b [[<- <-]|[_ Hp]]%lookup_insert_Some; [by left|right].
    by apply (l_known _ _ _ L).
  - apply Hshrink; [done|]. cbn. by intros p b [_ Hp]%lookup_delete_Some.
  - destruct (peer_valid x); [|by subst]. destruct Hx as (? & ? & ->). by destruct L; constructor.
  - by destruct L; constructor.
Qed.

(** A call of a sender: its own view changes, the owner's does not. *)
Definition same_owner (v : CtlView) (w w' : World) : Prop :=
  own_of (owner_of v) w' = own_of (owner_of v) w /\ w_sock w' = w_sock w /\ w_open w' = w_open w /\ w_dest w' = w_dest w.

Lemma sent_by_app i w t d :
  sent_by i (set_wire (w_wire w ++ [(t, d)]) w) = sent_by i w ++ (if decide (t = Snd i) then [d] else []).
Proof.
  unfold sent_by. cbn. rewrite filter_app, fmap_app. f_equal. rewrite filter_cons, filter_nil. cbn. by case_decide.
Qed.

Ltac at_sender i j := destruct (decide (j = i)) as [->|]; rewrite ?fn_lookup_insert, ?fn_lookup_insert_ne by done; cbn.

(** What only this sender knows has changed. *)
Lemma udp_links_sender w v vs i sk f :
  links w v vs -> (forall s, sk = Some s -> s_lk (vs i) = true /\ (s <> invalid_socket -> w_sock w = s)) ->
  (forall p a, (p, a) ∈ f -> (p, a) ∈ w_known w) ->
  links w v (<[i := mkSend (s_lk (vs i)) (s_plk (vs i)) sk f (s_sent (vs i))]> vs).
Proof.
  intros L Hsk Hf. destruct L. constructor; try done.
  - intros j. at_sender i j; done.
  - intros j. at_sender i j; done.
  - intros j. at_sender i j; auto.
  - intros j s. at_sender i j; [apply Hsk|apply l_sock0].
  - intros j p a. at_sender i j; auto. apply l_found0.
  - intros j. at_sender i j; done.
Qed.

Lemma links_sender_same w v vs i : links w v vs -> links w v (<[i := vs i]> vs).
Proof.
  intros L. pose proof (udp_links_sender w v vs i (s_sock (vs i)) (s_found (vs i)) L (l_sock _ _ _ L i) (l_found _ _ _ L i)) as L'.
  by replace (mkSend _ _ _ _ _) with (vs i) in L' by (by destruct (vs i)).
Qed.

(** The mutexes, taken and released by a sender. *)
Lemma snd_mutex i m w (x : mem_ans m) w' v vs :
  links w v vs -> match m with LockSend | UnlockSend | LockPeers | UnlockPeers => True | _ => False end ->
  exec (Snd i) (Mem m) w x w' -> send_allowed inet_pton config (Mem m) (vs i) ->
  exists s', send_learns inet_pton config (Mem m) (vs i) x s' /\ links w' v (<[i := s']> vs) /\ same_owner v w w'.
Proof.
  intros L Hm Hx Hal.
  assert (forall i, owner_of v <> Snd i) as Hne by (unfold owner_of; by destruct (c_thread v)).
  destruct m; try done; cbn in Hx, Hal; eexists; (split; [done|]).
  - destruct Hx as [Hw ->]. destruct Hal as [Hlk Hplk]. split; [|done]. destruct L. constructor; cbn; try done.
    + by rewrite <- l_cslk0, Hw.
    + intros j. at_sender i j; [done|]. rewrite <- l_slk0, Hw. split; [|done]. intros [=]. congruence.
    + intros j. at_sender i j; done.
    + intros j. at_sender i j; auto.
    + intros j s. at_sender i j; [done || apply l_sock0|apply l_sock0].
    + intros j p a. at_sender i j; apply l_found0.
    + intros j. at_sender i j; apply l_sent0.
  - subst w'. destruct Hal as [Hlk Hplk]. pose proof (proj2 (l_slk _ _ _ L i) Hlk) as Hw. split; [|done]. destruct L. constructor; cbn; try done.
    + by rewrite <- l_cslk0, Hw.
    + intros j. at_sender i j; [done|]. rewrite <- l_slk0, Hw. split; [done|]. intros [=]. congruence.
    + intros j. at_sender i j; done.
    + intros j. at_sender i j; [congruence|auto].
    + intros j s. at_sender i j; [done || apply l_sock0|apply l_sock0].
    + intros j p a. at_sender i j; apply l_found0.
    + intros j. at_sender i j; apply l_sent0.
  - destruct Hx as [Hw ->]. destruct Hal as [Hlk Hplk]. split.
    2: { unfold same_owner, own_of. cbn. rewrite Hw. split; [|done]. f_equal.
         rewrite !bool_decide_false; [done|done|]. intros [= E]. by destruct (Hne i). }
    destruct L. constructor; cbn; try done.
    + intros j. at_sender i j; done.
    + intros j. at_sender i j; [done|]. rewrite <- l_splk0, Hw. split; [|done]. intros [=]. congruence.
    + intros j. at_sender i j; auto.
    + intros j s. at_sender i j; [done || apply l_sock0|apply l_sock0].
    + intros j p a. at_sender i j; apply l_found0.
    + intros j. at_sender i j; apply l_sent0.
    + intros t [= <-]. right. by exists i.
    + intros _. apply l_tables0. by rewrite Hw.
  - subst w'. pose proof (proj2 (l_splk _ _ _ L i) Hal) as Hw. split.
    2: { unfold same_owner, own_of. cbn. rewrite Hw. split; [|done]. f_equal.
         rewrite !bool_decide_false; [done| |done]. intros [= E]. by destruct (Hne i). }
    destruct L. constructor; cbn; try done.
    + intros j. at_sender i j; done.
    + intros j. at_sender i j; [done|]. rewrite <- l_splk0, Hw. split; [done|]. intros [=]. congruence.
    + intros j. at_sender i j; [done|auto].
    + intros j s. at_sender i j; [done || apply l_sock0|apply l_sock0].
    + intros j p a. at_sender i j; apply l_found0.
    + intros j. at_sender i j; apply l_sent0.
    + intros _. apply l_tables0. rewrite Hw. intros [= E]. by destruct (Hne i).
Qed.

Lemma udp_snd_step i c w x w' v vs :
  links w v vs -> exec (Snd i) c w x w' -> send_allowed inet_pton config c (vs i) ->
  exists s', send_learns inet_pton config c (vs i) x s' /\ links w' v (<[i := s']> vs) /\ same_owner v w w'.
Proof.
  intros L Hx Hal. pose proof (links_sender_same w v vs i L) as Lsame.
  destruct c as [c|m]; [destruct c; try done|destruct m; try done; try (by apply snd_mutex)].
  - exists (vs i). by cbn in Hx; subst.
  - destruct Hal as (Hlk & Hs & Hfd & Hlen & Hto). cbn in Hx |- *. destruct (x <? 0); [subst; by exists (vs i)|].
    destruct Hx as [Hx ->]. eexists. split; [done|]. split; [|done]. destruct L. constructor; try done.
    + intros j. at_sender i j; done.
    + intros j. at_sender i j; done.
    + intros j. at_sender i j; auto.
    + intros j s. at_sender i j; [done || apply l_sock0|apply l_sock0].
    + intros j p a'. at_sender i j; apply l_found0.
    + intros j. rewrite sent_by_app. at_sender i j; [by rewrite decide_True, l_sent0|].
      rewrite decide_False by congruence. by rewrite app_nil_r.
    + intros e [He|He%list_elem_of_singleton]%elem_of_app; [by apply l_wire0|]. subst e. by exists i.
  - cbn in Hx, Hal. destruct Hx as [-> ->]. eexists. split; [done|]. split; [|done]. apply udp_links_sender; [done| |apply (l_found _ _ _ L)].
    intros s [= <-]. done.
  - destruct Hx as [-> ->]. destruct Hal as (Hlk & fd & Hs & Hfd). exists (vs i). split; [|done]. split; [|done].
    destruct (l_sock _ _ _ L i fd Hs) as [_ Hw]. apply (l_stored _ _ _ L); [by rewrite Hw|].
    apply (l_slk _ _ _ L) in Hlk. destruct (c_slk v) eqn:E; [|done]. apply (l_cslk _ _ _ L) in E. congruence.
  - cbn in Hal. destruct Hx as [-> ->]. eexists. split; [done|]. split; [|done].
    destruct (peer_to_addr (w_tables w) !! id) as [a|] eqn:Ea; [|done].
    apply udp_links_sender; [done|apply (l_sock _ _ _ L)|]. intros p b [Hpb|Hpb]%elem_of_cons; [simplify_eq; by apply (l_known _ _ _ L)|].
    by apply (l_found _ _ _ L) in Hpb.
Qed.

(** What a call of the controlling thread leaves: its view, and the I/O thread's. *)
Definition ctl_after (w w' : World) (v v' : CtlView) (vs : nat -> SendView) : Prop :=
  links w' v' vs /\ c_thread v' = c_thread v /\ (c_thread v = None -> c_own v' = own_of Ctl w')
  /\ (is_Some (c_thread v) -> same_owner v w w').

(** Calls that leave the tables and their mutex alone. *)
Lemma ctl_step_plain c w x w' v vs :
  links w v vs -> (c_thread v = None -> c_own v = own_of Ctl w) -> exec Ctl c w x w' -> ctl_allowed inet_pton config c v ->
  match c with
  | Sys _ | Mem (LoadRunning | StoreRunning _ | ExchangeRunning _ | LoadSock | StoreSock _ | StoreDest _ | LockSend | UnlockSend) => True
  | _ => False
  end ->
  exists v', ctl_learns inet_pton config c v x v' /\ ctl_after w w' v v' vs.
Proof.
  intros L Ho Hx Hal Hc.
  assert (c_slk v = true -> forall i, s_lk (vs i) = false) as Hexcl.
  { intros Hk i. apply (l_cslk _ _ _ L) in Hk. destruct (s_lk (vs i)) eqn:E; [|done]. apply (l_slk _ _ _ L) in E. congruence. }
  assert (forall i s, s_sock (vs i) = Some s -> s <> invalid_socket -> c_sock v <> invalid_socket) as Hstored.
  { intros i s Hs Hne. rewrite <- (l_csock _ _ _ L), (proj2 (l_sock _ _ _ L i s Hs) Hne). done. }
  assert (ctl_after w w v v vs) as Hsame by (split; [done|]; split; [done|]; split; [done|by unfold same_owner]).
  destruct c as [c|m].
  - destruct c; try done; cbn in Hal, Hx |- *; try (subst w'; by exists v).
    + subst w'. destruct Hal as (Hth & Hfd & Hs). eexists. split; [done|].
      split; [|split; [done|]; split; [done|]; rewrite Hth; by intros [? ?]].
      destruct L. constructor; cbn; try done; [by rewrite l_fds0|].
      intros Hne Hk. destruct (l_stored0 Hne Hk) as [Hin Hd]. split; [|done]. apply elem_of_difference. split; [done|].
      rewrite elem_of_singleton. intros E. rewrite l_csock0 in E. rewrite (Hs E) in Hk. done.
    + destruct x as [r [a b]]. cbn in *. destruct (r =? 0); [|subst w'; by exists v].
      destruct Hx as (? & ? & ? & ? & ? & ->). rewrite (l_fds _ _ _ L) in *. eexists. split; [by repeat split|].
      split; [|split; [done|]; split; [done|]; rewrite Hal; by intros [? ?]].
      destruct L. constructor; cbn; try done. intros Hne Hk. destruct (l_stored0 Hne Hk). split; [set_solver|done].
    + destruct (x <? 0); [subst w'; by exists v|].
      destruct Hx as (? & ->). rewrite (l_fds _ _ _ L) in *. eexists. split; [by repeat split|].
      split; [|split; [done|]; split; [done|]; rewrite Hal; by intros [? ?]].
      destruct L. constructor; cbn; try done. intros Hne Hk. destruct (l_stored0 Hne Hk). split; [set_solver|done].
  - destruct m; try done; cbn in Hal, Hx |- *.
    + destruct Hx as [-> ->]. exists v. by rewrite (l_running _ _ _ L).
    + subst w'. eexists. split; [done|]. split; [by destruct L; constructor|done].
    + destruct Hx as [-> ->]. eexists. split; [by rewrite (l_running _ _ _ L)|]. split; [by destruct L; constructor|done].
    + destruct Hx as [-> ->]. exists v. by rewrite (l_csock _ _ _ L).
    + subst w'. destruct Hal as [Hth Hal]. eexists. split; [done|].
      split; [|split; [done|]; split; [done|]; rewrite Hth; by intros [? ?]].
      destruct L. constructor; cbn; try done.
      * intros i s' Hs. split; [by eapply l_sock0|]. intros Hne. case_decide as Es.
        -- destruct (l_sock0 _ _ Hs) as [Hi _]. by rewrite (Hexcl Hal i) in Hi.
        -- destruct Hal as (Hinv & _). by destruct (Hstored i s' Hs Hne).
      * intros Hne Hk. rewrite decide_False in Hal by done. destruct Hal as (Hinv & Hin & Hd). rewrite l_fds0. auto.
    + subst w'. destruct Hal as (Hth & Hinv & Hconf). eexists. split; [done|].
      split; [|split; [done|]; split; [done|]; rewrite Hth; by intros [? ?]].
      destruct L. constructor; cbn; try done. congruence.
    + destruct Hx as [Hw ->]. destruct Hal as (Hk & Hth & Hlk). eexists. split; [done|].
      split; [|split; [done|]; split; [done|]; rewrite Hth; by intros [? ?]].
      destruct L. constructor; cbn; try done; [by rewrite Hth; intros [? ?]|]. intros i. by rewrite <- l_slk0, Hw.
    + subst w'. destruct Hal as (Hk & Hinv & Hlk). pose proof (Hexcl Hk) as Hno. eexists. split; [done|].
      assert (c_thread v = None) as Hth.
      { destruct (c_thread v) eqn:E; [|done]. rewrite (l_thread _ _ _ L) in Hk; [done|by rewrite E]. }
      split; [|split; [done|]; split; [done|]; rewrite Hth; by intros [? ?]].
      destruct L. constructor; cbn; try done; [intros i; by rewrite Hno|]. congruence.
Qed.

Lemma udp_ctl_step c w x w' v vs :
  links w v vs -> (c_thread v = None -> c_own v = own_of Ctl w) -> exec Ctl c w x w' -> ctl_allowed inet_pton config c v ->
  exists v', ctl_learns inet_pton config c v x v' /\ ctl_after w w' v v' vs.
Proof.
  intros L Ho Hx Hal.
  assert (forall m, c = Mem m -> c_thread v = None /\ c_slk v = false /\ own_allowed inet_pton config ∅ (Mem m) (c_own v) ->
    (forall v', ctl_learns inet_pton config c v x v' <->
       exists o', own_learns inet_pton config (c_sock v) c (c_own v) x o' /\ v' = with_own o' v) ->
    exists v', ctl_learns inet_pton config c v x v' /\ ctl_after w w' v v' vs) as Hown.
  { intros m -> (Hth & Hk & Hm) Hl. specialize (Ho Hth). rewrite Ho in Hm.
    assert (owner_of v = Ctl) as Et by (unfold owner_of; by rewrite Hth).
    exists (with_own (own_of Ctl w') v). split.
    - apply Hl. eexists. split; [|done]. rewrite Ho, <- (l_csock _ _ _ L). eapply udp_own_step; [done|exact Hm|done].
    - assert (links w' v vs) as L'.
      { eapply own_links; [exact L| |]; rewrite Et; [exact Hx|exact Hm]. }
      split; [by destruct L'; constructor|]. split; [done|]. split; [done|]. rewrite Hth. by intros [? ?]. }
  destruct c as [c|m]; [by apply ctl_step_plain|].
  destruct m; try (by apply ctl_step_plain); try done; try (by eapply Hown; [done|exact Hal|]).
Qed.

(** ** All threads keep their rules *)

Definition io_inv (σ : Pool) (v : CtlView) : Prop :=
  match c_thread v, p_io σ with
  | Some imp, Some p =>
      wp (own_rules inet_pton config (w_sock (p_world σ)) (w_open (p_world σ))) p
        (fun _ o => tidy config (callbacks imp) o) (own_of Io (p_world σ))
      /\ w_sock (p_world σ) <> invalid_socket
  | None, None => c_own v = own_of Ctl (p_world σ)
  | _, _ => False
  end.

Definition snd_inv (msgs : list (list (PeerId * list Z))) (σ : Pool) (vs : nat -> SendView) : Prop :=
  (forall i p, p_snd σ !! i = Some p -> exists ms, msgs !! i = Some ms
    /\ wp (send_rules inet_pton config) p (fun rs v => s_lk v = false /\ s_plk v = false
         /\ outcomes inet_pton config (fun p a => (p, a) ∈ s_found v) ms rs (s_sent v)) (vs i))
  /\ forall i, s_lk (vs i) = true -> is_Some (p_snd σ !! i).

Definition Inv (msgs : list (list (PeerId * list Z))) (σ : Pool) : Prop :=
  exists v vs, links (p_world σ) v vs
    /\ wp (ctl_rules inet_pton config) (p_ctl σ) (settled config) v
    /\ io_inv σ v /\ snd_inv msgs σ vs.

Lemma inv_pool0 cmds msgs : Inv msgs (pool0 cmds msgs).
Proof.
  exists (idle ∅ false own0), (fun _ => send_view0). split; [|split; [|split]].
  - constructor; cbn; try done; try set_solver. intros _. apply consistent_none.
  - apply udp_ctl_control. by repeat split.
  - done.
  - split; [|done]. intros i p. cbn. rewrite list_lookup_fmap. destruct (msgs !! i) as [ms|]; [|done]. intros [= <-]. exists ms. split; [done|].
    apply udp_snd_send_all; [done..|]. intros rs f l sk Ho _. cbn. by split.
Qed.

(** The I/O thread sees nothing of what the others do. *)
Lemma io_inv_frame w w' io ctl ctl' snd snd' v v' :
  c_thread v' = c_thread v -> (is_Some (c_thread v) -> same_owner v w w') ->
  (c_thread v = None -> c_own v = own_of Ctl w -> c_own v' = own_of Ctl w') ->
  io_inv (mkPool w io ctl snd) v -> io_inv (mkPool w' io ctl' snd') v'.
Proof.
  intros Hth Hs Ho Hio. unfold io_inv in *. cbn in *. rewrite Hth. destruct (c_thread v) as [imp|] eqn:E; [|destruct io; [done|by apply Ho]].
  destruct io as [p|]; [|done]. destruct Hs as (H1 & H2 & H3 & H4); [done|].
  unfold owner_of in H1. rewrite E in H1. by rewrite H1, H2, H3.
Qed.

Lemma inv_step msgs σ σ' : Inv msgs σ -> step σ σ' -> Inv msgs σ'.
Proof.
  intros (v & vs & L & Hctl & Hio & Hsnd) Hstep.
  destruct Hstep as [w c k x w' ctl snd Hx|w io c k x w' snd Hx|w io ctl snd i c k x w' Hi Hx|w imp k snd|w p k snd]; cbn in L, Hctl.
  - unfold io_inv in Hio. cbn in Hio. destruct (c_thread v) as [imp|] eqn:Eth; [|done]. destruct Hio as [[Hal Hk] Hsk].
    assert (owner_of v = Io) as Et by (unfold owner_of; by rewrite Eth).
    destruct (l_stored _ _ _ L Hsk) as [Hin Hd]; [by apply (l_thread _ _ _ L); rewrite Eth|].
    assert (links w' v vs) as L' by (eapply own_links; [exact L|rewrite Et; exact Hx|rewrite Et; exact Hal]).
    exists v, vs. split; [exact L'|]. split; [exact Hctl|]. split; [|exact Hsnd]. unfold io_inv. cbn. rewrite Eth.
    rewrite (l_csock _ _ _ L'), (l_fds _ _ _ L'), <- (l_csock _ _ _ L), <- (l_fds _ _ _ L). split; [|done].
    apply Hk. eapply udp_own_step; [exact Hx|exact Hal|done].
  - destruct Hctl as [Hal Hk].
    assert (c_thread v = None -> c_own v = own_of Ctl w) as Ho.
    { intros E. unfold io_inv in Hio. rewrite E in Hio. cbn in Hio. by destruct io. }
    destruct (udp_ctl_step _ _ _ _ _ _ L Ho Hx Hal) as (v' & Hl & L' & Hth & Hown & Hsame).
    exists v', vs. split; [exact L'|]. split; [by apply Hk|]. split; [|exact Hsnd].
    eapply io_inv_frame; [done|exact Hsame| |exact Hio]. by intros ? _; apply Hown.
  - destruct (proj1 Hsnd i _ Hi) as (ms & Hms & Hal & Hk). destruct (udp_snd_step _ _ _ _ _ _ _ L Hx Hal) as (s' & Hl & L' & Hsame).
    exists v, (<[i := s']> vs). split; [exact L'|]. split; [exact Hctl|]. split.
    + eapply io_inv_frame; [done|done| |exact Hio]. intros E ->. destruct Hsame as [H _]. unfold owner_of in H. by rewrite E in H.
    + split; [intros j q Hj; cbn in Hj; at_sender i j|].
      * rewrite list_lookup_insert_eq in Hj by (by eapply lookup_lt_Some). injection Hj as <-. exists ms. split; [done|]. by apply Hk.
      * rewrite list_lookup_insert_ne in Hj by done. by apply Hsnd.
      * intros j. cbn [p_snd]. rewrite lookup_lt_is_Some, length_insert, <- lookup_lt_is_Some. at_sender i j; [by rewrite Hi|apply Hsnd].
  - destruct Hctl as [(Hth & Hslk & Ht & Hlk & Hin & Hne & Hrd) Hk].
    assert (c_own v = own_of Ctl w) as Ho by (unfold io_inv in Hio; by rewrite Hth in Hio).
    rewrite Ho in Ht, Hlk. cbn in Ht, Hlk. apply bool_decide_eq_false in Hlk.
    assert (w_peers w <> Some Io) as Hnio.
    { intros E. destruct (l_holder _ _ _ L _ E) as [H|[i H]]; [|done]. unfold owner_of in H. by rewrite Hth in H. }
    eexists _, vs. split; [|split; [apply (Hk tt); done|split; [|exact Hsnd]]].
    + destruct L. constructor; cbn; try done.
      * intros t E. destruct (l_holder0 t E) as [->|]; [|by right]. unfold owner_of in E. rewrite Hth in E. done.
      * intros _. rewrite Ht. apply consistent_none.
    + unfold io_inv. cbn. split; [|by rewrite (l_csock _ _ _ L)].
      assert (own_of Io (new_session w) = own0) as ->.
      { unfold own_of, new_session. cbn. by rewrite Ht, bool_decide_false. }
      rewrite <- (l_csock _ _ _ L), <- (l_fds _ _ _ L) in Hin. rewrite <- (l_fds _ _ _ L) in Hrd.
      apply udp_own_io_loop; try done. apply udp_tidy_own0.
  - destruct Hctl as [(_ & Hrun & Hslk) Hk]. unfold io_inv in Hio. cbn in Hio. destruct (c_thread v) as [imp|] eqn:Eth; [|done].
    destruct Hio as [Hg Hsk]. pose proof (y_lk _ _ _ Hg) as Hlk. cbn in Hlk. apply bool_decide_eq_false in Hlk.
    assert (w_peers w <> Some Ctl) as Hnctl.
    { intros E. destruct (l_holder _ _ _ L _ E) as [H|[i H]]; [|done]. unfold owner_of in H. by rewrite Eth in H. }
    assert (own_of Io w = own_of Ctl w) as Heq by (unfold own_of; f_equal; by rewrite !bool_decide_false).
    eexists _, vs. split; [|split; [apply (Hk p); exists imp, (own_of Io w); done|split; [|exact Hsnd]]].
    + destruct L. constructor; cbn; try done.
      * intros t E. destruct (l_holder0 t E) as [->|]; [|by right]. unfold owner_of in E. rewrite Eth in E. done.
      * intros _. apply l_tables0. unfold owner_of. by rewrite Eth.
    + unfold io_inv. cbn. by rewrite Heq.
Qed.

Lemma udp_reachable_inv cmds msgs σ : reachable cmds msgs σ -> Inv msgs σ.
Proof.
  intros Hr. assert (Inv msgs (pool0 cmds msgs)) as H0 by apply inv_pool0.
  induction Hr as [|σ1 σ2 σ3 Hs _ IH]; [done|]. apply IH. by eapply inv_step.
Qed.
End pool.
