(* ===== verification/UdpSafety.v ===== *)
(** * UDP transport: safety, routing and progress

    What the invariant of [UdpSpec] means for every call of every thread, what the
    datagrams on the network are, and that the threads never wait for each other in
    a circle. *)

From stdpp Require Import base numbers list gmap sets functions strings pretty.
From Stdlib Require Import ZArith Lia.
From S2P Require Import Prelude CoreError Handler Transceiver SysCalls SocketOps Udp UdpThreads UdpControl UdpSpec.

Open Scope Z_scope.

(** ** What a thread may do, in terms of the world *)

Section safety.
Variable strerror : Z -> string.
Variable inet_pton : string -> option Z.
Variable inet_ntop : Z -> string.
Variable config : UdpConfig.
Variable fuel : nat.

Definition free_of_locks (t : Tid) (w : World) : Prop := w_send w <> Some t /\ w_peers w <> Some t.

(** The datagram [bytes] is [p]'s. *)
Definition from_peer (w : World) (p : PeerId) (bytes : list Z) : Prop :=
  exists a, w_dgram w = Some (a, bytes) /\ sender_is inet_pton config (own_of Io w) p a.

Definition permitted (t : Tid) (c : call access) (w : World) : Prop :=
  match c with
  | Sys (Close fd) => fd ∈ w_open w /\ (fd = w_sock w -> w_send w = Some t)
  | Sys (Sendto fd bytes a) => fd ∈ w_open w /\ w_send w = Some t /\ len bytes <= max_datagram_size config
      /\ exists p, routed inet_pton config (fun p a => (p, a) ∈ w_known w) p a
  | Sys c => Forall (.∈ w_open w) (descriptors c)
  | Mem LockSend => free_of_locks t w
  | Mem UnlockSend => w_send w = Some t
  | Mem LockPeers => w_peers w <> Some t
  | Mem UnlockPeers => w_peers w = Some t /\ consistent (max_peers config) (w_tables w)
  | Mem (FindAddr _ | FindPeer _ | PeersSize | ListActivity | ListAddrs | SetAddr _ _ | SetPeer _ _ | SetActivity _ _
        | EraseAddr _ | ErasePeer _ | EraseActivity _ | ClearTables) => w_peers w = Some t
  | Mem (OnPeerConnected _ | OnStateChanged _ _) => free_of_locks t w
  | Mem (OnPeerDisconnected p) => free_of_locks t w /\ (single_peer config = false -> p ∈ w_live w)
  | Mem (OnDataReceived p bytes) => free_of_locks t w /\ from_peer w p bytes
  | Mem _ => True
  end.

Lemma udp_own_permitted t fds c w :
  own_allowed inet_pton config fds c (own_of t w) -> fds ⊆ w_open w -> w_send w <> Some t -> permitted t c w.
Proof.
  intros Hal Hsub Hs. destruct c as [[]|[]]; cbn in Hal |- *; try done;
    try (eapply Forall_impl; [exact Hal|]; intros fd' ?; by apply Hsub);
    try (by apply bool_decide_eq_true in Hal); try (by apply bool_decide_eq_false in Hal).
  - destruct Hal as [Hal%bool_decide_eq_true ?]. done.
  - destruct Hal as [Hal%bool_decide_eq_false ?]. done.
  - destruct Hal as [Hal%bool_decide_eq_false Hp]. done.
Qed.

Lemma udp_ctl_permitted w v vs c :
  links inet_pton config w v vs -> (c_thread v = None -> c_own v = own_of Ctl w) ->
  ctl_allowed inet_pton config c v -> permitted Ctl c w.
Proof.
  intros L Ho Hal.
  assert (forall c, c_thread v = None /\ c_slk v = false /\ own_allowed inet_pton config ∅ c (c_own v) -> permitted Ctl c w) as Hown.
  { intros c' (Hth & Hk & Hm). rewrite (Ho Hth) in Hm. eapply udp_own_permitted; [done|set_solver|].
    rewrite (l_cslk _ _ _ _ _ L), Hk. done. }
  destruct c as [c|m].
  - destruct c; try done; cbn in Hal |- *; try (rewrite (l_fds _ _ _ _ _ L); done).
    destruct Hal as (_ & Hin & Hs). rewrite (l_fds _ _ _ _ _ L). split; [done|].
    rewrite (l_csock _ _ _ _ _ L), (l_cslk _ _ _ _ _ L). auto.
  - destruct m; try (by apply Hown); try done; cbn in Hal |- *.
    + destruct Hal as (Hk & Hth & Hlk). rewrite (Ho Hth) in Hlk. cbn in Hlk. apply bool_decide_eq_false in Hlk.
      split; [rewrite (l_cslk _ _ _ _ _ L), Hk; done|done].
    + apply (l_cslk _ _ _ _ _ L), Hal.
Qed.

Lemma udp_snd_permitted w v vs i c :
  links inet_pton config w v vs -> send_allowed inet_pton config c (vs i) -> permitted (Snd i) c w.
Proof.
  intros L Hal. pose proof (l_slk _ _ _ _ _ L i) as Hlk. pose proof (l_splk _ _ _ _ _ L i) as Hplk.
  destruct c as [[]|[]]; cbn in Hal |- *; try done; try (by apply Hplk); try (by apply Hlk).
  - destruct Hal as (Hk & Hs & Hfd & Hlen & p & Hp). destruct (l_sock _ _ _ _ _ L i fd Hs) as [_ Hw]. specialize (Hw Hfd).
    split; [|split; [by apply Hlk|split; [done|]]].
    + destruct (l_stored _ _ _ _ _ L) as [Hin _]; [congruence| |by rewrite <- Hw].
      destruct (c_slk v) eqn:E; [|done]. apply (l_cslk _ _ _ _ _ L) in E. apply Hlk in Hk. congruence.
    + exists p. unfold routed in *. destruct (single_peer config); [done|]. by eapply (l_found _ _ _ _ _ L).
  - destruct Hal as [Hk Hk']. unfold free_of_locks. rewrite Hlk, Hplk, Hk, Hk'. done.
  - apply Hlk, Hal.
  - rewrite Hplk. destruct Hal as [_ ->]. done.
  - split; [by apply Hplk|]. apply (l_tables _ _ _ _ _ L). apply Hplk in Hal. rewrite Hal. intros [= E].
    unfold owner_of in E. by destruct (c_thread v).
Qed.

(** Only senders send. *)
Definition sent_by_senders (w : World) : Prop := Forall (fun e => exists j, e.1 = Snd j) (w_wire w).

(** C20: under every interleaving of the I/O thread, the thread that starts and stops
    the transport and any number of senders, and whatever the kernel answers: every
    call a thread is about to make is permitted, so no thread uses a descriptor
    that is closed, touches the tables without [peers_mutex], leaves them
    inconsistent when it releases the mutex, closes the socket without
    [send_mutex], takes a mutex it holds or [send_mutex] after [peers_mutex], or
    calls back with a mutex held; every datagram handed on is the one received
    last, as the peer that is registered for its address; every datagram sent goes
    to the configured destination or to an address some peer was registered with;
    a peer is reported disconnected only while it is connected; and when the
    transport is stopped, every descriptor is closed, the tables are empty and, in
    multi-peer mode, every peer reported connected was reported disconnected. *)
Theorem udp_safe cmds msgs σ :
  reachable strerror inet_pton inet_ntop config fuel cmds msgs σ ->
  (forall t c, next σ t = Some c -> permitted t c (p_world σ))
  /\ p_io σ <> Some Undefined
  /\ (w_peers (p_world σ) = None -> consistent (max_peers config) (w_tables (p_world σ)))
  /\ (forall imp, p_ctl σ = Ret imp -> w_running (p_world σ) = false ->
       w_open (p_world σ) = ∅ /\ w_sock (p_world σ) = invalid_socket /\ w_tables (p_world σ) = no_peers
       /\ (is_multi_peer config = true -> on_peer_disconnected (callbacks imp) = true -> w_live (p_world σ) = ∅)).
Proof.
  intros Hr. destruct (udp_reachable_inv _ _ _ _ _ _ _ _ Hr) as (v & vs & L & Hctl & Hio & Hsnd).
  assert (Hcur : c_thread v = None -> c_own v = own_of Ctl (p_world σ)).
  { intros E. unfold io_inv in Hio. rewrite E in Hio. by destruct (p_io σ). }
  split; [|split; [|split]].
  - intros [| |i] c Hn; cbn in Hn.
    + unfold io_inv in Hio. destruct (p_io σ) as [p|]; [|done]. destruct (c_thread v) as [imp|] eqn:Eth; [|done].
      destruct Hio as [Hwp Hsk]. pose proof (next_allowed (own_rules _ _ _ _) _ _ _ _ Hwp Hn) as Hal.
      eapply udp_own_permitted; [exact Hal|done|apply (l_send _ _ _ _ _ L)].
    + eapply udp_ctl_permitted; [done|done|]. by apply (next_allowed (ctl_rules _ _) _ _ _ _ Hctl).
    + destruct (p_snd σ !! i) as [p|] eqn:Ep; [|done]. destruct (proj1 Hsnd _ _ Ep) as (ms & _ & Hwp).
      eapply udp_snd_permitted; [done|]. by apply (next_allowed (send_rules _ _) _ _ _ _ Hwp).
  - intros E. unfold io_inv in Hio. rewrite E in Hio. destruct (c_thread v); by destruct Hio.
  - intros E. apply (l_tables _ _ _ _ _ L). by rewrite E.
  - intros imp E Hrun. rewrite E in Hctl. rewrite (l_running _ _ _ _ _ L) in Hrun. destruct Hctl as [Hlk Hs].
    rewrite Hrun in Hs. destruct Hs as (Ev & Ht & Hlive). rewrite (l_fds _ _ _ _ _ L), (l_csock _ _ _ _ _ L).
    assert (c_thread v = None) as Hth by (by rewrite Ev). rewrite (Hcur Hth) in Ht, Hlive. cbn in Ht, Hlive.
    split; [by rewrite Ev|]. split; [by rewrite Ev|]. split; [done|]. unfold is_multi_peer. intros Hm%negb_true_iff. auto.
Qed.

(** C21: a sender whose calls have returned has sent exactly what they say: for every
    message reported as sent, one datagram with the whole message, to the address
    the peer was registered with (or to the configured destination); for every
    failure nothing, or a part of the message if the kernel took only a part; in
    the order of the calls.  Nobody else sends. *)
Theorem udp_sends_exact cmds msgs σ i ms rs :
  reachable strerror inet_pton inet_ntop config fuel cmds msgs σ -> msgs !! i = Some ms -> p_snd σ !! i = Some (Ret rs) ->
  outcomes inet_pton config (fun p a => (p, a) ∈ w_known (p_world σ)) ms rs (sent_by i (p_world σ))
  /\ sent_by_senders (p_world σ).
Proof.
  intros Hr Hms Hi. destruct (udp_reachable_inv _ _ _ _ _ _ _ _ Hr) as (v & vs & L & _ & _ & Hsnd).
  destruct (proj1 Hsnd i _ Hi) as (ms' & Hms' & _ & _ & Ho). rewrite Hms in Hms'. injection Hms' as <-. split.
  - rewrite (l_sent _ _ _ _ _ L). eapply outcomes_mono; [|exact Ho]. intros p a. apply (l_found _ _ _ _ _ L).
  - apply Forall_forall. apply (l_wire _ _ _ _ _ L).
Qed.
End safety.

(** ** Running a schedule

    A kernel that answers every call: every descriptor polled is readable, and
    there is always a datagram of two bytes from one address; the transceiver gives
    its peer the number 1. *)

Definition kernel (t : Tid) (c : call access) (w : World) : option (ans c * World) :=
  match c with
  | Sys Socket_udp => if decide (7 ∈ w_open w) then Some (-1, w) else Some (7, set_open ({[7]} ∪ w_open w) w)
  | Sys Pipe2 =>
      if decide (3 ∈ w_open w \/ 4 ∈ w_open w) then Some ((-1, (0, 0)), w)
      else Some ((0, (3, 4)), set_open ({[3; 4]} ∪ w_open w) w)
  | Sys (Close fd) => Some (tt, set_open (w_open w ∖ {[fd]}) w)
  | Sys (Sendto _ bytes a) => Some (len bytes, set_wire (w_wire w ++ [(t, (a, bytes))]) w)
  | Sys (Recvfrom _ size) =>
      if size <? 2 then Some ((-1, ([], (0, 0))), w) else Some ((2, ([11; 12], (10, 99))), set_dgram (Some ((10, 99), [11; 12])) w)
  | Sys (Socket | Fcntl_getfl _ | Fcntl_setfl _ _ | Setsockopt_nodelay _ | Setsockopt_reuse _ | Connect _ _
        | Bind _ _ _ | Listen _ | Errno | Now | Send _ _ | Read _ _ | Write _ _ | Setsockopt _ _) => Some (0, w)
  | Sys (Accept _) => Some ((-1, (""%string, 0)), w)
  | Sys (Getsockname _) => Some ((0, 5001), w)
  | Sys (Getsockopt_error _) => Some (None, w)
  | Sys (Getaddrinfo _ _) => Some ((0, Some 1), w)
  | Sys (Freeaddrinfo _ | Shutdown _ _) => Some (tt, w)
  | Sys (Poll fds _) => Some ((len fds, fun _ => POLLIN), w)
  | Sys (Recv _ _) => Some ((0, []), w)
  | Mem LoadRunning => Some (w_running w, w)
  | Mem (StoreRunning b) => Some (tt, set_running b w)
  | Mem (ExchangeRunning b) => Some (w_running w, set_running b w)
  | Mem LoadSock => Some (w_sock w, w)
  | Mem (StoreSock s) => Some (tt, set_sock s w)
  | Mem LoadDest => Some (w_dest w, w)
  | Mem (StoreDest a) => Some (tt, set_dest a w)
  | Mem LockSend => match w_send w with None => Some (tt, set_send (Some t) w) | Some _ => None end
  | Mem UnlockSend => Some (tt, set_send None w)
  | Mem LockPeers => match w_peers w with None => Some (tt, set_peers (Some t) w) | Some _ => None end
  | Mem UnlockPeers => Some (tt, set_peers None w)
  | Mem (FindAddr a) => Some (addr_to_peer (w_tables w) !! a, w)
  | Mem (FindPeer p) => Some (peer_to_addr (w_tables w) !! p, w)
  | Mem PeersSize => Some (Z.of_nat (size (addr_to_peer (w_tables w))), w)
  | Mem ListActivity => Some (map_to_list (last_activity (w_tables w)), w)
  | Mem ListAddrs => Some (map_to_list (addr_to_peer (w_tables w)), w)
  | Mem (SetAddr a p) => Some (tt, on_addrs <[a := p]> w)
  | Mem (SetPeer p a) => Some (tt, set_known ((p, a) :: w_known w) (on_peers <[p := a]> w))
  | Mem (SetActivity p now) => Some (tt, on_activity <[p := now]> w)
  | Mem (EraseAddr a) => Some (tt, on_addrs (delete a) w)
  | Mem (ErasePeer p) => Some (tt, on_peers (delete p) w)
  | Mem (EraseActivity p) => Some (tt, on_activity (delete p) w)
  | Mem ClearTables => Some (tt, set_tables no_peers w)
  | Mem (OnPeerConnected _) =>
      if decide (peer_to_addr (w_tables w) !! 1 = None /\ 1 ∉ w_live w) then Some (1, set_live ({[1]} ∪ w_live w) w) else Some (0, w)
  | Mem (OnPeerDisconnected p) => Some (tt, set_live (w_live w ∖ {[p]}) w)
  | Mem (OnStateChanged _ _ | OnDataReceived _ _) => Some (tt, w)
  | Mem (Spawn _ | Join) => None
  end.

Lemma udp_kernel_exec t c w x w' : kernel t c w = Some (x, w') -> exec t c w x w'.
Proof.
  destruct c as [[]|[]]; cbn; intros H; try done; repeat case_decide; repeat case_match; simplify_eq/=; try done;
    try (by repeat split; try done; set_solver).
  - bool_to_prop. unfold len in *. lia.
  - split; [done|]. unfold len. by rewrite Nat2Z.id, take_ge by done.
  - bool_to_prop. by repeat split.
Qed.

(** Only the mutexes and the creation and join of the I/O thread can block. *)
Definition may_block (c : call access) : bool :=
  match c with Mem (LockSend | LockPeers | Spawn _ | Join) => true | _ => false end.

Lemma exec_total t c w : may_block c = false -> exists x w', exec t c w x w'.
Proof.
  intros Hc. destruct (kernel t c w) as [[x w']|] eqn:E; [exists x, w'; by apply udp_kernel_exec|].
  destruct c as [[]|[]]; cbn in E; try done; by repeat case_decide || case_match.
Qed.

(** ** The threads never wait for each other in a circle *)

(** Starting, stopping and sending have no loop that is cut short. *)

Section fuel.
Variable strerror : Z -> string.
Variable inet_pton : string -> option Z.
Variable config : UdpConfig.

Lemma fuelled_errno {A} c what : fuelled (errno_failure strerror c what : io (Result A)).
Proof. unfold errno_failure. fuelled. Qed.

Lemma fuelled_tell_all imp ps : fuelled (tell_all imp ps).
Proof. induction ps as [|p ps IH]; cbn [tell_all]; [done|]. unfold tell_disconnected, notify. fuelled. Qed.

Lemma fuelled_start cb imp : fuelled (start strerror inet_pton config cb imp).
Proof.
  unfold start, create_udp_socket, set_reuse_addr, set_socket_buffer_sizes, multicast_options, connect_peer, create_wake_pipe,
    set_end_nonblocking, refuse, refuse_errno, join_multicast_group, set_multicast_ttl, set_multicast_loop, set_multicast_interface,
    close_socket. fuelled.
Qed.

Lemma fuelled_stop imp : fuelled (stop inet_pton config imp).
Proof.
  unfold stop, signal_wake_pipe, close_transport, forget_peers, close_wake_pipe, leave_multicast_group, close_socket, tell_disconnected, notify.
  fuelled; apply fuelled_tell_all.
Qed.

Lemma fuelled_control cmds imp : fuelled (control strerror inet_pton config cmds imp).
Proof.
  revert imp. induction cmds as [|[cb|] cmds IH]; intros imp; cbn [control]; [done|apply fuelled_bind|apply fuelled_bind].
  - apply fuelled_start.
  - intros [r imp']. apply IH.
  - apply fuelled_stop.
  - apply IH.
Qed.

Lemma fuelled_send_all ms : fuelled (send_all strerror config ms).
Proof.
  induction ms as [|[p m] ms IH]; cbn [send_all]; [done|]. unfold send, send_datagram, destination. fuelled.
Qed.
End fuel.

Section progress.
Variable strerror : Z -> string.
Variable inet_pton : string -> option Z.
Variable inet_ntop : Z -> string.
Variable config : UdpConfig.
Variable fuel : nat.

Abbreviation reach := (reachable strerror inet_pton inet_ntop config fuel).
Abbreviation steps := (step inet_ntop config fuel).

Lemma reachable_fuelled cmds msgs σ : reach cmds msgs σ -> fuelled (p_ctl σ) /\ Forall fuelled (p_snd σ).
Proof.
  intros Hr. assert (fuelled (p_ctl (pool0 strerror inet_pton config cmds msgs))
    /\ Forall fuelled (p_snd (pool0 strerror inet_pton config cmds msgs))) as H0.
  { split; [apply fuelled_control|]. apply Forall_fmap, Forall_true. intros ms. apply fuelled_send_all. }
  unfold reachable in Hr. induction Hr as [|σ1 σ2 σ3 Hs _ IH]; [done|]. apply IH. destruct H0 as [Hc Hf]. destruct Hs; cbn in *; try done.
  split; [done|]. apply Forall_insert; [done|]. rewrite Forall_forall in Hf. apply (Hf (Vis c k)). by eapply list_elem_of_lookup_2.
Qed.

(** A call that cannot block can be made. *)
Lemma step_unblocked σ t c : next σ t = Some c -> (exists x w', exec t c (p_world σ) x w') -> exists σ', steps σ σ'.
Proof.
  intros Hn (x & w' & Hx). destruct σ as [w io ctl snd], t as [| |i]; cbn in *.
  - destruct io as [[|c' k| |]|]; simplify_eq/=. eexists. by apply (step_io _ _ _ _ _ _ x).
  - destruct ctl as [|c' k| |]; simplify_eq/=. eexists. by apply (step_ctl _ _ _ _ _ _ _ x).
  - destruct (snd !! i) as [[|c' k| |]|] eqn:Ei; simplify_eq/=. eexists. by eapply step_snd.
Qed.

Section inv.
Variable msgs : list (list (PeerId * list Z)).
Variable σ : Pool.
Variable v : CtlView.
Variable vs : nat -> SendView.
Hypothesis L : links inet_pton config (p_world σ) v vs.
Hypothesis Hctl : wp (ctl_rules inet_pton config) (p_ctl σ) (settled config) v.
Hypothesis Hio : io_inv inet_pton config σ v.
Hypothesis Hsnd : snd_inv inet_pton config msgs σ vs.
Hypothesis ctl_fuelled : fuelled (p_ctl σ).
Hypothesis snd_fuelled : Forall fuelled (p_snd σ).
Hypothesis io_fuelled : p_io σ <> Some OutOfFuel.

Lemma sender_next i : s_lk (vs i) = true -> exists c, next σ (Snd i) = Some c /\ send_allowed inet_pton config c (vs i).
Proof.
  intros Hi. destruct (proj2 Hsnd i Hi) as [p Hp]. destruct (proj1 Hsnd i p Hp) as (ms & _ & Hwp). cbn. rewrite Hp. cbn.
  rewrite Forall_forall in snd_fuelled. pose proof (snd_fuelled p ltac:(by eapply list_elem_of_lookup_2)) as Hf.
  destruct p as [rs|c k| |]; try done.
  - destruct Hwp as [Hwp _]. congruence.
  - exists c. split; [done|apply Hwp].
Qed.

Lemma io_next imp : c_thread v = Some imp ->
  (exists p, p_io σ = Some (Ret p) /\ w_peers (p_world σ) <> Some Io)
  \/ exists c, next σ Io = Some c /\ own_allowed inet_pton config (w_open (p_world σ)) c (own_of Io (p_world σ)).
Proof.
  intros Eth. unfold io_inv in Hio. rewrite Eth in Hio. cbn [next]. destruct (p_io σ) as [p|]; [|done]. destruct Hio as [Hwp _].
  destruct p as [p|c k| |]; try done.
  - left. exists p. split; [done|]. pose proof (y_lk _ _ _ Hwp) as Hlk. by apply bool_decide_eq_false in Hlk.
  - right. exists c. split; [done|apply Hwp].
Qed.

Lemma ctl_next : (exists imp, p_ctl σ = Ret imp /\ settled config imp v) \/ exists c, next σ Ctl = Some c /\ ctl_allowed inet_pton config c v.
Proof.
  cbn [next]. destruct (p_ctl σ) as [imp|c k| |] eqn:E; try done.
  - left. exists imp. split; [done|]. by rewrite ?E in Hctl.
  - right. exists c. split; [done|]. rewrite ?E in Hctl. apply Hctl.
Qed.

(** Who holds [peers_mutex] goes on. *)
Lemma peers_holder_goes_on t : w_peers (p_world σ) = Some t -> exists c, next σ t = Some c /\ may_block c = false.
Proof.
  intros Ht. destruct (l_holder _ _ _ _ _ L t Ht) as [->|[i ->]].
  - unfold owner_of in Ht |- *. destruct (c_thread v) as [imp|] eqn:Eth.
    + destruct (io_next imp Eth) as [(p & _ & Hne)|(c & Hn & Hal)]; [done|]. exists c. split; [done|].
      destruct c as [[]|[]]; cbn in Hal |- *; try done. by apply bool_decide_eq_false in Hal.
    + assert (o_lk (c_own v) = true) as Hlk.
      { unfold io_inv in Hio. rewrite Eth in Hio. destruct (p_io σ); [done|]. rewrite Hio. by apply bool_decide_eq_true. }
      destruct ctl_next as [(imp & _ & [Hlk' _])|(c & Hn & Hal)]; [congruence|]. exists c. split; [done|].
      destruct c as [[]|[]]; cbn in Hal |- *; try done; try (destruct Hal as (_ & _ & Hal); cbn in Hal; congruence).
      * destruct Hal as (_ & _ & _ & Hal & _). congruence.
      * destruct Hal as ([? ?] & _). congruence.
  - apply (l_splk _ _ _ _ _ L) in Ht. destruct (sender_next i) as (c & Hn & Hal); [by apply (l_order _ _ _ _ _ L)|].
    exists c. split; [done|]. destruct c as [[]|[]]; cbn in Hal |- *; try done; destruct Hal; congruence.
Qed.

(** Who holds [send_mutex] goes on, or waits for [peers_mutex]. *)
Lemma send_holder_goes_on t :
  w_send (p_world σ) = Some t -> exists c, next σ t = Some c /\ (may_block c = false \/ c = Mem LockPeers).
Proof.
  intros Ht. destruct t as [| |i].
  - by apply (l_send _ _ _ _ _ L) in Ht.
  - apply (l_cslk _ _ _ _ _ L) in Ht. destruct ctl_next as [(imp & _ & [_ Hs])|(c & Hn & Hal)].
    + destruct (c_run v); destruct Hs as [Hs _]; by rewrite Hs in Ht.
    + exists c. split; [done|]. left. destruct c as [[]|[]]; cbn in Hal |- *; try done; destruct_and? Hal; congruence.
  - apply (l_slk _ _ _ _ _ L) in Ht. destruct (sender_next i Ht) as (c & Hn & Hal). exists c. split; [done|].
    destruct c as [[]|[]]; cbn in Hal |- *; try done; auto. destruct Hal; congruence.
Qed.
End inv.

(** Some thread has a call to make. *)
Definition active (σ : Pool) : Prop := exists t c, next σ t = Some c.

(** C22: the threads never wait for each other in a circle: as long as some thread
    has a call to make and the I/O thread's loop is not cut short, some thread can
    make its call.  So no order of [send_mutex], [peers_mutex] and the join in
    [stop] leads to a deadlock. *)
Theorem udp_never_deadlocks cmds msgs σ :
  reach cmds msgs σ -> p_io σ <> Some OutOfFuel -> active σ -> exists σ', steps σ σ'.
Proof.
  intros Hr Hfuel (t0 & c0 & Hn0). destruct (reachable_fuelled _ _ _ Hr) as [Hfc Hfs].
  destruct (udp_reachable_inv _ _ _ _ _ _ _ _ Hr) as (v & vs & L & Hctl & Hio & Hsnd).
  assert (forall t c, next σ t = Some c -> may_block c = false -> exists σ', steps σ σ') as Hgo.
  { intros t c Hn Hc. eapply step_unblocked; [done|by apply exec_total]. }
  destruct (w_peers (p_world σ)) as [t|] eqn:Ep.
  { destruct (peers_holder_goes_on msgs σ v vs L Hctl Hio Hsnd Hfc Hfs Hfuel t Ep) as (c & Hn & Hc). by eapply Hgo. }
  assert (forall t, next σ t = Some (Mem LockPeers) -> exists σ', steps σ σ') as Hpeers.
  { intros t Hn. eapply step_unblocked; [done|]. by exists tt, (set_peers (Some t) (p_world σ)). }
  destruct (w_send (p_world σ)) as [t|] eqn:Es.
  { destruct (send_holder_goes_on msgs σ v vs L Hctl Hsnd Hfc Hfs t Es) as (c & Hn & [Hc| ->]); [by eapply Hgo|by eapply Hpeers]. }
  assert (forall t, next σ t = Some (Mem LockSend) -> exists σ', steps σ σ') as Hsend.
  { intros t Hn. eapply step_unblocked; [done|]. by exists tt, (set_send (Some t) (p_world σ)). }
  assert (forall t c, next σ t = Some c -> (forall imp, c <> Mem (Spawn imp)) -> c <> Mem Join -> exists σ', steps σ σ') as Hmost.
  { intros t c Hn H1 H2. destruct (may_block c) eqn:Eb; [|by eapply Hgo].
    destruct c as [|[]]; try done; [by eapply Hsend|by eapply Hpeers|by destruct (H1 imp)]. }
  assert (forall c, next σ Io = Some c -> exists σ', steps σ σ') as Hiogo.
  { intros c Hn. unfold io_inv in Hio. cbn in Hn. destruct (p_io σ) as [p|] eqn:Eio; [|done]. destruct (c_thread v); [|done].
    destruct Hio as [Hwp _]. pose proof (next_allowed (own_rules _ _ _ _) _ _ _ _ Hwp Hn) as Hal.
    apply (Hmost Io c); [cbn; by rewrite Eio|intros imp ->; done|by intros ->]. }
  destruct t0 as [| |i]; [by eapply Hiogo| |].
  - pose proof (next_allowed (ctl_rules _ _) _ _ _ _ Hctl Hn0) as Hal.
    destruct c0 as [c|m]; [by eapply Hmost|]. destruct σ as [w io ctl snd]. destruct m; try (by eapply Hmost).
    + destruct Hal as [Hth _]. unfold io_inv in Hio. rewrite Hth in Hio. cbn in Hio. destruct io; [done|].
      cbn in Hn0. destruct ctl as [|c k| |]; simplify_eq/=. eexists. apply step_spawn.
    + destruct Hal as ([imp Hth] & _). destruct (io_next _ _ Hio Hfuel imp Hth) as [(p & Hp & _)|(c & Hn & _)]; [|by eapply Hiogo].
      cbn in Hn0, Hp. subst io. destruct ctl as [|c k| |]; simplify_eq/=. eexists. apply step_join.
  - cbn in Hn0. destruct (p_snd σ !! i) as [p|] eqn:Ei; [|done]. destruct (proj1 Hsnd _ _ Ei) as (ms & _ & Hwp).
    pose proof (next_allowed (send_rules _ _) _ _ _ _ Hwp Hn0) as Hal.
    apply (Hmost (Snd i) c0); [cbn; by rewrite Ei|intros imp ->; done|by intros ->].
Qed.
End progress.

(** ** Idle peers under steady traffic

    A network on which something arrives within every timeout of [poll], and
    threads that evict nobody. *)

Definition busy_rules : Rules access unit := mkRules
  (fun c _ => match c with Mem (EraseAddr _ | ErasePeer _ | EraseActivity _) => False | _ => True end)
  (fun c _ => match c with Sys (Poll _ _) => fun x _ => x.1 <> 0 | _ => fun _ _ => True end).

Definition evicts_nobody {A} (p : prog access A) : Prop := wp busy_rules p (fun _ _ => True) tt.

Lemma evicts_nobody_bind {A B} (p : prog access A) (f : A -> prog access B) :
  evicts_nobody p -> (forall a, evicts_nobody (f a)) -> evicts_nobody (p ≫= f).
Proof. intros Hp Hf. apply wp_bind. eapply wp_mono; [exact Hp|]. intros a [] _. apply Hf. Qed.

Lemma evicts_nobody_mem m :
  match m with EraseAddr _ | ErasePeer _ | EraseActivity _ => False | _ => True end -> evicts_nobody (mem m).
Proof. intros Hm. apply wp_mem; [by destruct m|done]. Qed.

Lemma evicts_nobody_sys c : evicts_nobody (sys_call c).
Proof. by apply wp_sys. Qed.

Ltac evicts_nobody :=
  repeat first
    [ exact I
    | apply evicts_nobody_sys
    | apply evicts_nobody_mem; exact I
    | match goal with |- evicts_nobody (_ ≫= _) => apply evicts_nobody_bind; [|intro] end
    | match goal with |- evicts_nobody (match ?x with _ => _ end) => destruct x end ].

Section busy.
Variable inet_ntop : Z -> string.
Variable config : UdpConfig.
Variable fuel : nat.
Variable imp : Impl.

Lemma busy_receive peer sock buf : evicts_nobody (receive inet_ntop config imp peer sock buf).
Proof. unfold receive, deliver, resolve_peer, register_peer, notify. evicts_nobody. Qed.

Lemma busy_drain : evicts_nobody (drain_wake_pipe fuel (wake imp)).
Proof. unfold drain_wake_pipe. destruct_if; [|done]. induction fuel as [|n IH]; cbn [drain_loop]; [done|]. evicts_nobody. exact IH. Qed.

(** [evict_stale_peers] is called only when [poll] times out: as long as something
    arrives every 100 ms no peer is evicted, however long it has been silent. *)
Lemma busy_never_evicts n peer last buf : evicts_nobody (io_rounds inet_ntop config fuel imp n peer last buf).
Proof.
  revert last buf. induction n as [|n IH]; intros last buf; cbn [io_rounds]; [done|].
  apply evicts_nobody_bind; [by apply evicts_nobody_mem|]. intros running. destruct_if; [done|].
  apply evicts_nobody_bind; [by apply evicts_nobody_mem|]. intros sock. unfold evicts_nobody.
  apply wp_bind, wp_bind, wp_sys; [done|]. intros [sel re] [] Hsel. cbn in Hsel. apply wp_ret.
  match goal with |- wp _ ?p _ _ => change (evicts_nobody p) end.
  destruct (sel <? 0); [unfold get_last_error; evicts_nobody; apply IH|]. rewrite (proj2 (Z.eqb_neq sel 0) Hsel). destruct_if; [done|].
  apply evicts_nobody_bind; [destruct_if; [apply evicts_nobody_bind; [apply busy_drain|]; intros []; evicts_nobody|done]|].
  intros [|]; [done|]. apply evicts_nobody_bind; [|intros buf'; apply IH]. destruct_if; [apply busy_receive|done].
Qed.
End busy.

(** ** Witnesses *)

Section run.
Variable inet_ntop : Z -> string.
Variable config : UdpConfig.
Variable fuel : nat.

(** Creation and join of the I/O thread. *)
Definition fork_join (σ : Pool) : option Pool :=
  match σ with
  | mkPool w None (Vis (Mem (Spawn imp)) k) snd =>
      Some (mkPool (new_session w) (Some (io_loop inet_ntop config fuel imp)) (k tt) snd)
  | mkPool w (Some (Ret p)) (Vis (Mem Join) k) snd => Some (mkPool w None (k p) snd)
  | _ => None
  end.

(** One call of thread [t]. *)
Definition move (t : Tid) (σ : Pool) : option Pool :=
  match t, σ with
  | Io, mkPool w (Some (Vis c k)) ctl snd =>
      '(x, w') ← kernel Io c w; Some (mkPool w' (Some (k x)) ctl snd)
  | Ctl, mkPool w io (Vis c k) snd =>
      match fork_join σ with
      | Some σ' => Some σ'
      | None => '(x, w') ← kernel Ctl c w; Some (mkPool w' io (k x) snd)
      end
  | Snd i, mkPool w io ctl snd =>
      match snd !! i with
      | Some (Vis c k) => '(x, w') ← kernel (Snd i) c w; Some (mkPool w' io ctl (<[i := k x]> snd))
      | _ => None
      end
  | _, _ => None
  end.

Fixpoint moves (ts : list Tid) (σ : Pool) : option Pool :=
  match ts with [] => Some σ | t :: ts => σ' ← move t σ; moves ts σ' end.

Lemma udp_fork_join_step σ σ' : fork_join σ = Some σ' -> step inet_ntop config fuel σ σ'.
Proof.
  destruct σ as [w [[]|] [|[|[]] k| |] snd]; simpl; intros H; simplify_eq; constructor.
Qed.

Lemma udp_move_step t σ σ' : move t σ = Some σ' -> step inet_ntop config fuel σ σ'.
Proof.
  destruct t as [| |i], σ as [w io ctl snd]; cbn [move]; intros H.
  - destruct io as [[|c k| |]|]; try done.
    destruct (kernel Io c w) as [[x w']|] eqn:E; simplify_eq/=. by constructor; apply udp_kernel_exec.
  - destruct ctl as [|c k| |]; try done.
    destruct (fork_join _) eqn:E; [simplify_eq; by apply udp_fork_join_step|].
    destruct (kernel Ctl c w) as [[x w']|] eqn:E'; simplify_eq/=. by constructor; apply udp_kernel_exec.
  - destruct (snd !! i) as [[|c k| |]|] eqn:Ei; try done.
    destruct (kernel (Snd i) c w) as [[x w']|] eqn:E; simplify_eq/=. by eapply step_snd; [|apply udp_kernel_exec].
Qed.

Lemma udp_moves_steps ts σ σ' : moves ts σ = Some σ' -> rtc (step inet_ntop config fuel) σ σ'.
Proof.
  revert σ. induction ts as [|t ts IH]; intros σ H; simpl in H; [by simplify_eq|].
  destruct (move t σ) as [σ1|] eqn:E; simplify_eq/=. eapply rtc_l; [by apply (udp_move_step t)|by apply IH].
Qed.
End run.

Definition no_error (_ : Z) : string := ""%string.
Definition any_addr (_ : string) : option Z := Some 0.
Definition dotted (_ : Z) : string := "10.0.0.1"%string.
Definition all_set : TransportCallbacks := mkCallbacks true true true true.
Definition sample_config : UdpConfig := mkUdpConfig "0.0.0.0" 5001 "" 0 16 16 8 4 0 "" "" 1 true.
Definition sample_cmds : list Command := [Start all_set; Stop].
Definition sample_msgs : list (list (PeerId * list Z)) := [[(1, [1; 2; 3])]].
Definition sample_pool : Pool := pool0 no_error any_addr sample_config sample_cmds sample_msgs.

Definition after (ts : list Tid) : Pool := default sample_pool (moves dotted sample_config 5 ts sample_pool).
Definition possible (ts : list Tid) : bool := match moves dotted sample_config 5 ts sample_pool with Some _ => true | None => false end.

Lemma udp_after_reachable ts :
  possible ts = true -> reachable no_error any_addr dotted sample_config 5 sample_cmds sample_msgs (after ts).
Proof.
  unfold after, possible. destruct (moves _ _ _ ts _) as [σ|] eqn:E; [|done]. intros _. by apply (udp_moves_steps _ _ _ ts).
Qed.


(** The transport is started; its I/O thread is about to hand on the first
    datagram; a sender is done; the transport is stopped. *)
Definition started : list Tid := replicate 14 Ctl.
Definition handing_on : list Tid := started ++ replicate 20 Io.
Definition sent : list Tid := handing_on ++ [Io] ++ replicate 7 (Snd 0).
Definition stopped : list Tid := handing_on ++ [Io] ++ replicate 2 Ctl ++ [Io] ++ replicate 14 Ctl.

Lemma udp_safe_witness :
  next (after handing_on) Io = Some (Mem (OnDataReceived 1 [11; 12]))
  /\ from_peer any_addr sample_config (p_world (after handing_on)) 1 [11; 12]
  /\ w_live (p_world (after stopped)) = ∅.
Proof.
  split; [vm_compute; reflexivity|]. split.
  - destruct (udp_safe no_error any_addr dotted sample_config 5 _ _ (after handing_on) (udp_after_reachable handing_on ltac:(vm_compute; reflexivity))) as [H _].
    apply (H Io (Mem (OnDataReceived 1 [11; 12])) ltac:(vm_compute; reflexivity)).
  - apply (udp_safe no_error any_addr dotted sample_config 5 _ _ (after stopped) (udp_after_reachable stopped ltac:(vm_compute; reflexivity)))
      with (imp := mkImpl all_set 0 wake_pipe0 false); vm_compute; reflexivity.
Defined.

Lemma udp_sends_exact_witness :
  sent_by 0 (p_world (after sent)) = [((10, 99), [1; 2; 3])]
  /\ outcomes any_addr sample_config (fun p a => (p, a) ∈ [(1, (10, 99))]) [(1, [1; 2; 3])] [Ok tt] [((10, 99), [1; 2; 3])].
Proof.
  split; [vm_compute; reflexivity|].
  destruct (udp_sends_exact no_error any_addr dotted sample_config 5 _ _ (after sent) 0 [(1, [1; 2; 3])] [Ok tt]
    (udp_after_reachable sent ltac:(vm_compute; reflexivity)) eq_refl ltac:(vm_compute; reflexivity)) as [H _].
  replace (sent_by 0 (p_world (after sent))) with [((10, 99) : Addr, [1; 2; 3])] in H by (vm_compute; reflexivity).
  replace (w_known (p_world (after sent))) with [(1, (10, 99) : Addr)] in H by (vm_compute; reflexivity). exact H.
Defined.

(** The I/O thread holds [peers_mutex], a sender holds [send_mutex] and waits for
    [peers_mutex], and [stop] waits for the I/O thread. *)
Definition contended : list Tid := started ++ replicate 8 Io ++ replicate 2 (Snd 0) ++ replicate 2 Ctl.

Lemma udp_never_deadlocks_witness :
  next (after contended) (Snd 0) = Some (Mem LockPeers) /\ next (after contended) Ctl = Some (Mem Join)
  /\ w_peers (p_world (after contended)) = Some Io
  /\ exists σ', step dotted sample_config 5 (after contended) σ'.
Proof.
  split; [vm_compute; reflexivity|]. split; [vm_compute; reflexivity|]. split; [vm_compute; reflexivity|].
  apply (udp_never_deadlocks no_error any_addr dotted sample_config 5 sample_cmds sample_msgs).
  - apply udp_after_reachable. vm_compute. reflexivity.
  - intros E. assert (next (after contended) Io = Some (Mem (FindAddr (10, 99)))) as Hn by (vm_compute; reflexivity).
    unfold next in Hn. rewrite E in Hn. discriminate.
  - exists Ctl, (Mem Join). vm_compute. reflexivity.
Defined.

(** [start] stores the socket without [send_mutex], under which [send] reads it: the
    two accesses can meet. *)
Example start_races_with_send :
  exists σ,
    reachable no_error any_addr dotted sample_config 5 sample_cmds sample_msgs σ
    /\ next σ Ctl = Some (Mem (StoreSock 7)) /\ next σ (Snd 0) = Some (Mem LoadSock) /\ w_send (p_world σ) = Some (Snd 0).
Proof.
  exists (after (replicate 11 Ctl ++ [Snd 0])). split; [apply udp_after_reachable; vm_compute; reflexivity|]. vm_compute. done.
Qed.
