(* ===== verification/MessageLog.v ===== *)
(** * The message log

    Models [conduit/include/conduit/transceiver/message_log.hpp] and
    [conduit/src/transceiver/message_log.cpp].  A call appends to the events of the
    log: the attempt to create the directory, files opened for appending, and text
    written to the console or to the file of a key.  The mutex makes a call atomic.
    The time stamp is an argument; whether a file opens and how [fs::path] joins the
    directory and a name are parameters. *)

From stdpp Require Import base numbers list gmap strings pretty.
From Stdlib Require Import ZArith Lia Ascii.
From S2P Require Import Prelude CharConv.

Open Scope Z_scope.

Inductive MessageLogMode := Combined | SeparateDirection | PerPeer | PerPeerDirection.
Inductive MessageLogOutput := ToFile | ToStdout | ToBoth.

Record MessageLogConfig := mkLogConfig {
  log_mode : MessageLogMode; log_output : MessageLogOutput; directory : string; prefix : string;
  filename : string; sent_filename : string; received_filename : string;
  include_message_content : bool; include_raw_bytes : bool
}.

Inductive LogDirection := SEND | RECV.
Definition direction_text (d : LogDirection) : string := match d with SEND => "SEND" | RECV => "RECV" end.
Definition dir_label (d : LogDirection) : string := match d with SEND => "sent" | RECV => "received" end.

(** ** File names *)

Definition is_separator (c : ascii) : bool :=
  Ascii.eqb c "/" || Ascii.eqb c "\" || Ascii.eqb c ":" || Ascii.eqb c "000".

Definition sanitize_for_filename (t : text) : text := map (fun c => if is_separator c then "_"%char else c) t.

Fixpoint starts_with (pat t : text) : bool :=
  match pat, t with
  | [], _ => true
  | c :: pat, c' :: t => Ascii.eqb c c' && starts_with pat t
  | _ :: _, [] => false
  end.

(** [find] and [replace] from left to right; [skip] characters of an occurrence are
    still to be passed over. *)
Fixpoint replace_from (pat rep : text) (skip : nat) (t : text) : text :=
  match t with
  | [] => []
  | c :: t =>
      match skip with
      | S skip => replace_from pat rep skip t
      | O => if starts_with pat (c :: t) then rep ++ replace_from pat rep (length pat - 1) t else c :: replace_from pat rep O t
      end
  end.
Definition replace_all (pat rep t : text) : text := replace_from pat rep O t.

Definition expand_filename (pattern direction_label peer_name : text) : text :=
  replace_all (txt "{peer}") (sanitize_for_filename peer_name) (replace_all (txt "{direction}") direction_label pattern).

Definition is_empty (s : string) : bool := String.eqb s "".

Definition resolve_file_key (c : MessageLogConfig) (d : LogDirection) (peer_name : string) : text :=
  let dir_filename := match d with SEND => sent_filename c | RECV => received_filename c end in
  if negb (is_empty dir_filename) then expand_filename (txt dir_filename) (txt (dir_label d)) (txt peer_name)
  else if negb (is_empty (filename c)) then expand_filename (txt (filename c)) (txt (dir_label d)) (txt peer_name)
  else
    let safe_peer := sanitize_for_filename (txt peer_name) in
    txt (prefix c) ++
    match log_mode c with
    | Combined => txt "_messages.log"
    | SeparateDirection => txt "_" ++ txt (dir_label d) ++ txt ".log"
    | PerPeer => txt "_" ++ safe_peer ++ txt ".log"
    | PerPeerDirection => txt "_" ++ safe_peer ++ txt "_" ++ txt (dir_label d) ++ txt ".log"
    end.

(** ** Entries *)

Record Entry := mkEntry {
  e_direction : LogDirection; peer_name : string; remote_endpoint : string; type_name : string; byte_count : Z;
  message_content : string; protocol : string; transport : string; raw_bytes : list Z
}.

Definition hex_char (n : Z) : ascii := nth (Z.to_nat n) (txt "0123456789ABCDEF") "?"%char.
Definition hex_byte (b : Z) : text := [hex_char (Z.shiftr b 4); hex_char (Z.land b 15)].

Definition newline : ascii := "010".

(** The bytes from index [i] on, 32 to a line. *)
Fixpoint hex_bytes (i : Z) (l : list Z) : text :=
  match l with
  | [] => []
  | b :: l =>
      (if i mod 32 =? 0 then if i =? 0 then txt " " else newline :: txt "       " else txt " ")
      ++ hex_byte b ++ hex_bytes (i + 1) l
  end.
Definition hex_dump (l : list Z) : text := txt "  hex:" ++ hex_bytes 0 l.

Definition entry_line (ts : string) (e : Entry) : text :=
  txt "[" ++ txt ts ++ txt "] " ++ txt (direction_text (e_direction e)) ++ txt " peer=" ++ txt (peer_name e)
  ++ (if is_empty (remote_endpoint e) then [] else txt " remote=" ++ txt (remote_endpoint e))
  ++ txt " proto=" ++ txt (protocol e) ++ txt " transport=" ++ txt (transport e) ++ txt " type=" ++ txt (type_name e)
  ++ txt " bytes=" ++ txt (pretty (byte_count e)).

(** What [write_to] sends to a stream. *)
Definition entry_text (c : MessageLogConfig) (ts : string) (e : Entry) : text :=
  entry_line ts e ++ [newline]
  ++ (match raw_bytes e with
      | [] => []
      | _ => if include_raw_bytes c then hex_dump (raw_bytes e) ++ [newline] else []
      end)
  ++ (if include_message_content c && negb (is_empty (message_content e))
      then newline :: txt (message_content e) ++ [newline; newline] else [newline]).

(** ** The log *)

Record MessageLog := mkLog { config_ : MessageLogConfig; dir_created_ : bool; files_ : gmap string bool }.

Inductive LogEvent :=
  | CreateDirectories (dir : string)
  | OpenAppend (key path : string)
  | WriteStdout (t : text)
  | WriteFile (key : string) (t : text).

Definition new_log (c : MessageLogConfig) : MessageLog := mkLog c false ∅.

Section log.
Variable opens : string -> bool.
Variable join_path : string -> string -> string.

(** The stream of a key, and whether it is open. *)
Definition get_stream (key : string) (l : MessageLog) : bool * MessageLog * list LogEvent :=
  match files_ l !! key with
  | Some is_open => (is_open, l, [])
  | None =>
      let path := join_path (directory (config_ l)) key in
      (opens path, mkLog (config_ l) true (<[key := opens path]> (files_ l)),
       (if dir_created_ l then [] else [CreateDirectories (directory (config_ l))]) ++ [OpenAppend key path])
  end.

Definition write_entry (ts : string) (e : Entry) (l : MessageLog) : MessageLog * list LogEvent :=
  let key := str (resolve_file_key (config_ l) (e_direction e) (peer_name e)) in
  let t := entry_text (config_ l) ts e in
  let console := match log_output (config_ l) with ToStdout | ToBoth => [WriteStdout t] | ToFile => [] end in
  match log_output (config_ l) with
  | ToFile | ToBoth =>
      let '(is_open, l, es) := get_stream key l in
      (l, console ++ es ++ (if is_open then [WriteFile key t] else []))
  | ToStdout => (l, console)
  end.

(** [log_send] and [log_recv] name the direction. *)
Definition log_send (ts : string) (peer remote type : string) (count : Z) (content proto trans : string) (raw : list Z)
    : MessageLog -> MessageLog * list LogEvent :=
  write_entry ts (mkEntry SEND peer remote type count content proto trans raw).
Definition log_recv (ts : string) (peer remote type : string) (count : Z) (content proto trans : string) (raw : list Z)
    : MessageLog -> MessageLog * list LogEvent :=
  write_entry ts (mkEntry RECV peer remote type count content proto trans raw).

(** Any calls, one after the other. *)
Fixpoint write_all (calls : list (string * Entry)) (l : MessageLog) : MessageLog * list LogEvent :=
  match calls with
  | [] => (l, [])
  | (ts, e) :: calls => let '(l, es) := write_entry ts e l in let '(l, es') := write_all calls l in (l, es ++ es')
  end.
End log.

(** ** Peers cannot choose a directory *)

Definition separators : text -> text := List.filter is_separator.

Lemma separators_app t t' : separators (t ++ t') = separators t ++ separators t'.
Proof. apply List.filter_app. Qed.

Lemma separators_cons c t : separators (c :: t) = (if is_separator c then [c] else []) ++ separators t.
Proof. cbn [separators List.filter]. by destruct (is_separator c). Qed.

Lemma separators_sanitized t : separators (sanitize_for_filename t) = [].
Proof.
  induction t as [|c t IH]; [done|]. cbn [sanitize_for_filename map]. rewrite separators_cons.
  assert (is_separator (if is_separator c then "_"%char else c) = false) as -> by (by destruct (is_separator c) eqn:E). exact IH.
Qed.

Lemma starts_with_split pat t : starts_with pat t = true -> t = pat ++ drop (length pat) t.
Proof.
  revert t. induction pat as [|c pat IH]; intros [|c' t]; cbn; try done.
  intros [->%Ascii.eqb_eq H]%andb_true_iff. f_equal. by apply IH.
Qed.

Lemma separators_replace pat rep skip t :
  pat <> [] -> separators pat = [] -> separators rep = [] -> separators (replace_from pat rep skip t) = separators (drop skip t).
Proof.
  intros Hne Hp Hr. revert skip. induction t as [|c t IH]; intros skip; [by destruct skip|]. destruct skip as [|skip]; cbn [replace_from drop]; [|apply IH].
  destruct (starts_with pat (c :: t)) eqn:E.
  - rewrite separators_app, Hr, IH. apply starts_with_split in E. destruct pat as [|c' pat]; [done|].
    rewrite E. rewrite separators_app, Hp. cbn. by rewrite Nat.sub_0_r.
  - by rewrite !separators_cons, IH, drop_0.
Qed.

Lemma separators_expand pattern label peer : separators label = [] -> separators (expand_filename pattern label peer) = separators pattern.
Proof.
  intros Hl. unfold expand_filename, replace_all.
  rewrite separators_replace, drop_0; [|discriminate|reflexivity|apply separators_sanitized].
  by rewrite separators_replace, drop_0; [|discriminate|reflexivity|].
Qed.

(** The name the configuration gives. *)
Definition name_pattern (c : MessageLogConfig) (d : LogDirection) : string :=
  let dir_filename := match d with SEND => sent_filename c | RECV => received_filename c end in
  if negb (is_empty dir_filename) then dir_filename else if negb (is_empty (filename c)) then filename c else prefix c.

(** The characters of a file name that choose a directory or a device are those of
    the configuration, whatever the peer is called. *)
Theorem peer_chooses_no_directory (c : MessageLogConfig) (d : LogDirection) (peer : string) :
  separators (resolve_file_key c d peer) = separators (txt (name_pattern c d)).
Proof.
  unfold resolve_file_key, name_pattern. set (dir_filename := match d with SEND => _ | RECV => _ end).
  destruct (is_empty dir_filename); cbn [negb]; [destruct (is_empty (filename c)); cbn [negb]|]; try (apply separators_expand; by destruct d).
  rewrite separators_app. rewrite <- app_nil_r. f_equal.
  destruct (log_mode c); rewrite ?separators_app, ?separators_sanitized; by destruct d.
Qed.

(** ** Where entries go *)

Definition written (key : string) : list LogEvent -> text :=
  flat_map (fun e => match e with WriteFile k t => if String.eqb k key then t else [] | _ => [] end).
Definition on_console : list LogEvent -> text := flat_map (fun e => match e with WriteStdout t => t | _ => [] end).
(** The files opened, in order. *)
Definition opened : list LogEvent -> list string := omap (fun e => match e with OpenAppend k _ => Some k | _ => None end).
(** What is done to the file system. *)
Definition on_disk : list LogEvent -> list LogEvent :=
  List.filter (fun e => match e with CreateDirectories _ | OpenAppend _ _ => true | _ => false end).

Definition to_files (c : MessageLogConfig) : bool := match log_output c with ToStdout => false | _ => true end.
Definition to_console (c : MessageLogConfig) : bool := match log_output c with ToFile => false | _ => true end.
Definition key_of (c : MessageLogConfig) (call : string * Entry) : string := str (resolve_file_key c (e_direction call.2) (peer_name call.2)).
Definition text_of_call (c : MessageLogConfig) (call : string * Entry) : text := entry_text c call.1 call.2.

Section routing.
Variable opens : string -> bool.
Variable join_path : string -> string -> string.

(** The streams of a log are those of its configuration, and there are none before
    the directory was made. *)
Record log_ok (l : MessageLog) : Prop := {
  streams_ok : forall k b, files_ l !! k = Some b -> b = opens (join_path (directory (config_ l)) k);
  created_first : dir_created_ l = false -> files_ l = ∅
}.

(** What a run of calls does, from any state of the log. *)
Record routed (l : MessageLog) (calls : list (string * Entry)) (l' : MessageLog) (es : list LogEvent) : Prop := {
  routed_config : config_ l' = config_ l; routed_ok : log_ok l';
  routed_dom : forall k, is_Some (files_ l' !! k) <-> is_Some (files_ l !! k) \/ k ∈ opened es;
  routed_console : on_console es = if to_console (config_ l) then flat_map (text_of_call (config_ l)) calls else [];
  routed_files : forall key, written key es =
    if to_files (config_ l) && opens (join_path (directory (config_ l)) key)
    then flat_map (text_of_call (config_ l)) (List.filter (fun call => String.eqb (key_of (config_ l) call) key) calls) else [];
  routed_opened : NoDup (opened es) /\ forall k, k ∈ opened es <->
    files_ l !! k = None /\ to_files (config_ l) = true /\ k ∈ map (key_of (config_ l)) calls;
  routed_disk : on_disk es = (if dir_created_ l || bool_decide (opened es = []) then [] else [CreateDirectories (directory (config_ l))])
    ++ map (fun k => OpenAppend k (join_path (directory (config_ l)) k)) (opened es);
  routed_created : dir_created_ l' = dir_created_ l || negb (bool_decide (opened es = []))
}.

Lemma written_app k es es' : written k (es ++ es') = written k es ++ written k es'.
Proof. apply flat_map_app. Qed.
Lemma on_console_app es es' : on_console (es ++ es') = on_console es ++ on_console es'.
Proof. apply flat_map_app. Qed.
Lemma opened_app es es' : opened (es ++ es') = opened es ++ opened es'.
Proof. apply omap_app. Qed.
Lemma on_disk_app es es' : on_disk (es ++ es') = on_disk es ++ on_disk es'.
Proof. apply List.filter_app. Qed.

Lemma routed_nil l : log_ok l -> routed l [] l [].
Proof.
  intros Hl. split; try done; cbn.
  - intros k. rewrite elem_of_nil. tauto.
  - by destruct (to_console _).
  - intros key. by destruct (_ && _).
  - split; [constructor|]. intros k. rewrite !elem_of_nil. tauto.
  - by rewrite orb_true_r.
  - by rewrite orb_false_r.
Qed.

Lemma routed_app l1 l2 l3 c1 c2 e1 e2 : routed l1 c1 l2 e1 -> routed l2 c2 l3 e2 -> routed l1 (c1 ++ c2) l3 (e1 ++ e2).
Proof.
  intros [A1 A2 A3 A4 A5 [A6 A6'] A7 A8] [B1 B2 B3 B4 B5 [B6 B6'] B7 B8]. rewrite A1 in *.
  assert (forall k, k ∈ opened (e1 ++ e2) <-> files_ l1 !! k = None /\ to_files (config_ l1) = true /\ k ∈ map (key_of (config_ l1)) (c1 ++ c2)) as Hop.
  { intros k. rewrite opened_app, elem_of_app, A6', B6', map_app, elem_of_app. specialize (A3 k). rewrite A6' in A3.
    destruct (files_ l2 !! k) as [b|], (files_ l1 !! k) as [b'|]; rewrite <- ?not_eq_None_Some in A3; naive_solver. }
  split; try done.
  - intros k. rewrite B3, A3, opened_app, elem_of_app. tauto.
  - rewrite on_console_app, A4, B4, flat_map_app. by destruct (to_console _).
  - intros key. rewrite written_app, A5, B5, List.filter_app, flat_map_app. by destruct (_ && _).
  - split; [|exact Hop]. rewrite opened_app. apply NoDup_app. split_and!; [done| |done]. intros k Hk Hk2.
    apply B6' in Hk2 as [Hn _]. specialize (A3 k). rewrite Hn in A3. by destruct (proj2 A3 (or_intror Hk)).
  - rewrite on_disk_app, A7, B7, A8, opened_app, map_app. destruct (opened e1) as [|k ks], (opened e2) as [|k' ks'];
      destruct (dir_created_ l1); cbn; rewrite ?app_nil_r; done.
  - rewrite B8, A8, opened_app. destruct (opened e1), (opened e2), (dir_created_ l1); done.
Qed.

Section one_call.
Variables (ts : string) (e : Entry) (l : MessageLog).
Hypothesis Hl : log_ok l.
Let c := config_ l.
Let key := str (resolve_file_key c (e_direction e) (peer_name e)).
Let t := entry_text c ts e.
Let path := join_path (directory c) key.
Let console : list LogEvent := if to_console c then [WriteStdout t] else [].

Lemma one_console : on_console console = if to_console c then flat_map (text_of_call c) [(ts, e)] else [].
Proof. unfold console. destruct (to_console c); [|done]. by cbn. Qed.

Lemma one_text k : flat_map (text_of_call c) (List.filter (fun call => String.eqb (key_of c call) k) [(ts, e)])
  = if String.eqb key k then t else [].
Proof. cbn [List.filter]. change (key_of c (ts, e)) with key. destruct (String.eqb key k); [apply app_nil_r|done]. Qed.

(** Nothing but the text itself is written. *)
Lemma console_quiet : (forall k, written k console = []) /\ opened console = [] /\ on_disk console = [].
Proof. unfold console. by destruct (to_console c). Qed.

Lemma one_written (is_open : bool) k :
  is_open = opens path -> written k (if is_open then [WriteFile key t] else []) = if opens (join_path (directory c) k) then if String.eqb key k then t else [] else [].
Proof.
  intros ->. unfold path. destruct (String.eqb_spec key k) as [<-|Hne].
  - destruct (opens _); [|done]. cbn. rewrite String.eqb_refl. apply app_nil_r.
  - destruct (opens (join_path (directory c) key)); cbn; [rewrite (proj2 (String.eqb_neq _ _)) by done|]; by destruct (opens _).
Qed.

(** The stream is there already, or the log does not write to files. *)
Lemma routed_known es :
  es = (if to_files c then if opens path then [WriteFile key t] else [] else []) -> (to_files c = true -> is_Some (files_ l !! key)) ->
  routed l [(ts, e)] l (console ++ es).
Proof.
  intros -> Hk. destruct console_quiet as (Hw & Ho & Hd).
  assert (opened (console ++ (if to_files c then if opens path then [WriteFile key t] else [] else [])) = []) as Hop
    by (rewrite opened_app, Ho; by destruct (to_files c), (opens path)).
  split; try done; rewrite ?Hop; fold c.
  - intros k. rewrite elem_of_nil. tauto.
  - rewrite on_console_app, one_console. destruct (to_files c), (opens path); cbn; by rewrite app_nil_r.
  - intros k. rewrite written_app, Hw, one_text. destruct (to_files c); [|done]. by rewrite one_written.
  - split; [constructor|]. intros k. rewrite elem_of_nil. split; [done|]. intros (Hn & Ht & Hin). apply list_elem_of_singleton in Hin as ->.
    destruct (Hk Ht) as [b Hb]. change (files_ l !! key = None) in Hn. congruence.
  - rewrite on_disk_app, Hd. rewrite orb_true_r. by destruct (to_files c), (opens path).
  - by rewrite orb_false_r.
Qed.

(** The stream is opened now. *)
Lemma routed_fresh :
  to_files c = true -> files_ l !! key = None ->
  routed l [(ts, e)] (mkLog c true (<[key := opens path]> (files_ l)))
    (console ++ ((if dir_created_ l then [] else [CreateDirectories (directory c)]) ++ [OpenAppend key path])
       ++ (if opens path then [WriteFile key t] else [])).
Proof.
  intros Ht Hn. destruct console_quiet as (Hw & Ho & Hd).
  set (es := console ++ _). assert (opened es = [key]) as Hop.
  { unfold es. rewrite !opened_app, Ho. by destruct (dir_created_ l), (opens path). }
  split; rewrite ?Hop; fold c; try done.
  - split; [|done]. intros k b. cbn. rewrite lookup_insert_Some. intros [[<- <-]|[_ Hb]]; [done|]. by apply Hl.
  - intros k. cbn [files_]. rewrite list_elem_of_singleton, lookup_insert_is_Some'. naive_solver.
  - unfold es. rewrite on_console_app, one_console. destruct (dir_created_ l), (opens path); cbn; by rewrite ?app_nil_r.
  - intros k. unfold es. rewrite written_app, Hw, one_text, Ht, written_app, one_written by done.
    assert (written k ((if dir_created_ l then [] else [CreateDirectories (directory c)]) ++ [OpenAppend key path]) = []) as ->
      by by destruct (dir_created_ l). done.
  - split; [apply NoDup_singleton|]. intros k. rewrite list_elem_of_singleton. split; [|by intros (_ & _ & ->%list_elem_of_singleton)].
    intros ->. split_and!; [done|done|by left].
  - unfold es. rewrite !on_disk_app, Hd. by destruct (dir_created_ l), (opens path).
  - by rewrite orb_true_r.
Qed.

Lemma write_entry_routed l' es : write_entry opens join_path ts e l = (l', es) -> routed l [(ts, e)] l' es.
Proof.
  unfold write_entry, get_stream. fold c. fold key. fold t. fold path.
  destruct (to_files c) eqn:Et.
  - destruct (files_ l !! key) as [b|] eqn:Ek.
    + pose proof (streams_ok l Hl key b Ek) as Hb. intros E. assert (l' = l /\ es = console ++ (if b then [WriteFile key t] else [])) as [-> ->].
      { unfold console, to_files, to_console in *. destruct (log_output c); try done; by injection E as <- <-. }
      apply routed_known; [by rewrite Et, Hb|by rewrite Ek].
    + intros E. pose proof (routed_fresh Et Ek) as H. unfold console, to_files, to_console in *.
      destruct (log_output c); try done; by injection E as <- <-.
  - intros E. assert (l' = l /\ es = console ++ []) as [-> ->].
    { unfold console, to_files, to_console in *. destruct (log_output c); try done; by injection E as <- <-. }
    apply routed_known; by rewrite Et.
Qed.
End one_call.

Lemma write_all_routed calls l l' es : log_ok l -> write_all opens join_path calls l = (l', es) -> routed l calls l' es.
Proof.
  revert l l' es. induction calls as [|[ts e] calls IH]; intros l l' es Hl; cbn [write_all]; [intros [= <- <-]; by apply routed_nil|].
  destruct (write_entry opens join_path ts e l) as [l1 e1] eqn:E1. destruct (write_all opens join_path calls l1) as [l2 e2] eqn:E2. intros [= <- <-].
  apply write_entry_routed in E1; [|done]. eapply (routed_app _ _ _ [_]); [exact E1|]. apply IH; [apply E1|exact E2].
Qed.
End routing.

(** C38: The message log.  After any calls, in any order, the console and every file
    hold exactly the entries meant for them, complete and in the order of the calls:
    the console all of them if the output goes there, a file those whose direction
    and peer resolve to its name, if it could be opened.  A file is opened once, at
    its first entry, and the directory is created once, before the first file. *)
Theorem message_log_exact (opens : string -> bool) (join_path : string -> string -> string) (c : MessageLogConfig) (calls : list (string * Entry)) :
  let es := (write_all opens join_path calls (new_log c)).2 in
  on_console es = (if to_console c then flat_map (text_of_call c) calls else [])
  /\ (forall key, written key es =
        if to_files c && opens (join_path (directory c) key)
        then flat_map (text_of_call c) (List.filter (fun call => String.eqb (key_of c call) key) calls) else [])
  /\ NoDup (opened es) /\ (forall key, key ∈ opened es <-> to_files c = true /\ key ∈ map (key_of c) calls)
  /\ on_disk es = (if bool_decide (opened es = []) then [] else [CreateDirectories (directory c)])
       ++ map (fun key => OpenAppend key (join_path (directory c) key)) (opened es).
Proof.
  destruct (write_all opens join_path calls (new_log c)) as [l es] eqn:E. cbn [snd].
  apply write_all_routed in E as [_ _ _ H1 H2 [H3 H4] H5 _].
  - split_and!; [exact H1|exact H2|exact H3| |exact H5]. intros key. rewrite H4. cbn. rewrite lookup_empty. tauto.
  - split; [|done]. intros k b Hk. cbn in Hk. by rewrite lookup_empty in Hk.
Qed.

(** ** The hex dump can be read back *)

Fixpoint index_of (c : ascii) (l : text) (i : Z) : option Z :=
  match l with [] => None | c' :: l => if Ascii.eqb c c' then Some i else index_of c l (i + 1) end.
Definition hex_value (c : ascii) : option Z := index_of c (txt "0123456789ABCDEF") 0.
Fixpoint pairs (l : list Z) : list Z := match l with a :: b :: l => (16 * a + b) :: pairs l | _ => [] end.
Definition read_hex (t : text) : list Z := pairs (omap hex_value t).

Lemma hex_value_char n : 0 <= n < 16 -> hex_value (hex_char n) = Some n.
Proof.
  intros Hn. assert (n ∈ seqZ 0 16) as Hin by (apply elem_of_seqZ; lia). revert n Hn Hin. 
  assert (Forall (fun n => hex_value (hex_char n) = Some n) (seqZ 0 16)) as H by (vm_compute; repeat constructor).
  rewrite Forall_forall in H. intros n _ Hin. by apply H.
Qed.

Lemma hex_byte_values b : 0 <= b < 256 -> omap hex_value (hex_byte b) = [Z.shiftr b 4; Z.land b 15].
Proof.
  intros Hb. assert (0 <= Z.shiftr b 4 < 16) as H1.
  { rewrite Z.shiftr_div_pow2 by lia. split; [apply Z.div_pos; lia|apply Z.div_lt_upper_bound; lia]. }
  assert (0 <= Z.land b 15 < 16) as H2 by (change 15 with (Z.ones 4); rewrite Z.land_ones by lia; apply Z.mod_pos_bound; lia).
  cbn [hex_byte omap list_omap]. by rewrite !hex_value_char.
Qed.

Lemma hex_bytes_read i l : Forall (fun b => 0 <= b < 256) l -> pairs (omap hex_value (hex_bytes i l)) = l.
Proof.
  intros Hl. revert i. induction Hl as [|b l Hb _ IH]; intros i; [done|]. cbn [hex_bytes]. rewrite !omap_app, hex_byte_values by done.
  assert (omap hex_value (if i mod 32 =? 0 then if i =? 0 then txt " " else newline :: txt "       " else txt " ") = []) as ->
    by (destruct (i mod 32 =? 0), (i =? 0); reflexivity).
  cbn [app pairs]. rewrite IH. f_equal. change 15 with (Z.ones 4). rewrite Z.land_ones, Z.shiftr_div_pow2 by lia.
  pose proof (Z.div_mod b (2 ^ 4)). lia.
Qed.

Theorem hex_dump_readable (l : list Z) : Forall (fun b => 0 <= b < 256) l -> read_hex (hex_dump l) = l.
Proof. intros Hl. unfold read_hex, hex_dump. rewrite omap_app. change (omap hex_value (txt "  hex:")) with (@nil Z). by apply hex_bytes_read. Qed.

(** ** A sample *)

Definition sample_log : MessageLogConfig := mkLogConfig Combined ToFile "logs" "app" "{peer}-{direction}.log" "" "in.log" true true.
Definition sample_entry (d : LogDirection) (peer : string) : Entry := mkEntry d peer "" "Ping" 2 "" "demo" "tcp" [0; 255].

(** A peer called [../x] writes to a file of that directory, and text that looks like
    a placeholder is not one. *)
Example sample_events :
  opened (write_all (fun _ => true) (fun d k => d +:+ "/" +:+ k)
    [("t1", sample_entry SEND "../x"); ("t2", sample_entry RECV "b"); ("t3", sample_entry SEND "{direction}"); ("t4", sample_entry SEND "../x")]
    (new_log sample_log)).2 = [".._x-sent.log"; "in.log"; "{direction}-sent.log"].
Proof. vm_compute. reflexivity. Qed.
